(* ===== verification/_CoqProject ===== *)
-Q . S2P
Prelude.v
Model.v
Colours.v
ShmFrame.v
Transition.v
Graph.v
Scenes.v
Capability.v
Policy.v
PolicyRuntime.v
Daemon.v
Topology.v
Persistence.v
Validation.v
Observation.v
TargetStates.v
CollectionRegistry.v
FrameStreams.v
SceneRegistry.v
DaemonRun.v
Descriptors.v
Normalize.v
Ownership.v
PluginManager.v
PluginRuns.v
PluginApply.v
Readback.v
Aggregates.v
TransitionRegistry.v
Protocol.v
Authorization.v
Authentication.v
PolicyFiles.v
Tasks.v
Authz.v
Executor.v
Sequencers.v
Appearance.v
Inspection.v
SceneHandlers.v
Streaming.v
TransitionTasks.v
AccessAdministration.v
Dispatch.v
Connection.v
Reconciliation.v
ByteStrings.v
Framing.v
Client.v
Agreement.v
Supervisor.v
Razer.v
Toml.v
Settings.v
ManagedConfig.v
Setup.v
Abi.v
Catalogue.v
HostLink.v
ServiceNames.v
DynamicRegistry.v
GlobalConfig.v
