(* ===== verification/Prelude.v ===== *)
(** * Luminate: a verification library

    Luminate is a lighting-control daemon written in Rust.  Plugins describe
    devices (surfaces, elements, groups) and their capabilities; clients ask the
    daemon, under an access policy, to set effects, brightness and appearance slots
    on targets, to keep collections and scenes, to run transitions and to stream
    frames; the daemon remembers the desired state, what it knows of the hardware,
    and persists both.  This library translates the core of the program into Rocq
    definitions and proves what makes it correct.

    ** Files

    - [Prelude] (this file): results and loops in the shape of Rust's [Result] and
      [for], machine-width integers, little-endian fields, the bit notations, the
      hint databases, lemmas on lists and finite maps shared by the components.
    - [Model]: the data of [luminate-core]: identifiers, devices, capabilities,
      effects, states, frames, collections.
    - [Colours], [ShmFrame], [Transition], [Graph], [Scenes], [Capability]: one file
      of [luminate-core/src] each ([colour.rs], [shm_frame.rs], [transition.rs],
      [collection.rs], [scene.rs], [capability.rs]).
    - [Policy], [PolicyRuntime]: [policy/identity.rs] and [policy/document.rs];
      [policy/runtime.rs] and [policy/audit.rs].
    - [Daemon]: [luminated/src/error.rs] and the [DaemonState] record with the data it
      holds.  [Topology], [Persistence], [Validation], [Observation], [TargetStates],
      [CollectionRegistry], [FrameStreams], [SceneRegistry]: the operations of
      [luminated/src/state/] and the snapshot domain of [persistence.rs].
    - [DaemonRun]: all those mutations as one transition system.
    - [Descriptors], [Normalize]: what a plugin says of its devices
      ([luminate-plugin-api/src/topology.rs]) and how [normalize.rs] checks and turns it
      into a topology.
    - [Ownership], [PluginManager], [PluginRuns], [PluginApply]: [luminated/src/plugins/],
      which plugin owns which device, the life cycle of plugins, its operations as
      sequences of critical sections and host calls and all their interleavings, and the
      routing of updates.
    - [Readback], [Aggregates]: snapshots of hardware state and their publication, and
      what is reported of surfaces, groups, devices and collections
      ([state/observation.rs], [state/mod.rs], [state/scene.rs]).
    - [Protocol]: requests, responses, events and credentials of [luminate-protocol].
    - [Authorization]: [luminated/src/authorization.rs], the peers, the operation that each
      request asks for, and the policies that stack on a connection.
    - [Authentication]: [authentication.rs] and the checks of provider answers, as a service
      whose critical sections interleave.  [PolicyFiles]: [policy_persistence.rs].
    - [TransitionRegistry]: [daemon/transition.rs], the running and finished transitions.
    - [Tasks]: the daemon as its request handlers see it, and the handlers as tasks: steps
      under a lock, questions to the policy, messages to plugins, published events and
      waits, with a program logic for what holds of every run.
    - [Authz], [Executor], [Sequencers]: [daemon/authz.rs] and [daemon/executor.rs], how a
      handler asks for permission, how a mutation is reserved, run, saved and announced,
      and the order in which jobs lock their devices.
    - [Appearance], [Inspection], [SceneHandlers], [Streaming], [TransitionTasks],
      [AccessAdministration]: the handlers of [daemon/dispatch/], one file per category or
      two ([Inspection] also holds [collections.rs], [Streaming] also [admin.rs]).
    - [Dispatch]: [daemon/dispatch/mod.rs], the ping limiter and the router.  [Connection]:
      [daemon/connection.rs], the life of a connection and of an event subscription.
    - [Reconciliation]: [daemon/reconciliation.rs], [daemon/topology.rs] and
      [daemon/suspend.rs], how the daemon brings devices and its state into agreement at
      startup, when plugins report changes, and around suspension.
    - [ByteStrings], [Framing], [Supervisor]: streams of bytes; the frames of
      [luminate-protocol/src/framing.rs]; [luminate-host-supervisor], the frames to plugin
      hosts and the rationing of their restarts.
    - [Client]: [libluminate/src/client] and [error.rs], what each operation of the client
      library sends and makes of a response, and the connection that routes responses to
      concurrent calls.  [Agreement]: the responses of [Dispatch] and [Connection] are the
      ones that [Client] accepts.
    - [Razer]: the wire protocol of [luminate-plugin-razer/src/protocol/].
    - [Toml], [Settings], [ManagedConfig]: TOML values and dotted keys; the layers of plugin
      settings; the patches and preferences of [luminated/src/managed_config/].
    - [Setup]: [plugins/setup.rs] and [daemon/dispatch/setup.rs], the sessions of
      interactive plugin setup, as a transition system.
    - [Catalogue]: [plugins/catalogue.rs] and [plugins/managed.rs], what the daemon knows of
      installed plugins, and what a patch of the managed configuration makes of it
      ([daemon/dispatch/management.rs]).
    - [Abi]: the codes of [luminate-plugin-api/src/abi.rs], as instances of an interface.
      [DynamicRegistry]: [dynamic_registry.rs] of the same crate, the registry in which
      network plugins keep what they discover.
    - [HostLink]: [plugin_host/supervisor.rs] and [plugin_host/protocol.rs], the connection
      to a plugin host: its calls cut into the steps between which the reader can come, and
      the replacement of hosts.  [ServiceNames]: [shm.rs] of [luminate-host-supervisor].
    - [GlobalConfig]: [device_config.rs] and [plugins/discovery.rs], the administrator's
      configuration, its validation, and the plugin files it makes candidates.

    ** Correspondence

    A Rust function is a Rocq function of the same name; [&mut self] is explicit state
    passing, [(state, result)], so that what an operation leaves behind on an error is
    part of its model; [?] is the bind of [result].  [HashMap] and [HashSet] are [gmap]
    and [gset]; where the code iterates one, the model iterates [map_to_list] and no
    claim depends on the order.  Integers are [Z] with the wrapping, saturating or
    checked operation that the source asks for.  Error texts are kept as templates with
    arguments ([Text]), not rendered.  Loops and recursions that are not structural
    carry fuel; for each, a lemma shows that the fuel given is enough, so that no claim
    is about a run that ends early: one unit per collection or group and one more for
    the graph traversals, the total number of members for the iterative graph search.
    The clock, generated identifiers and the environment of other crates ([uuid],
    [serde_json] lengths, floating-point conversions) are arguments.  An async handler is
    a [task]: between two of its steps the other tasks may change the daemon in any way, so
    a claim about every run of a handler is one about every interleaving; the driver of a
    transition carries fuel, one unit per step that its options allow.  The plugin manager
    has locks for its fields and no lock over an operation: an operation is a [pm_op], which
    gives the locks up between its critical sections and while a plugin host works, so what
    it read may be out of date when it writes.

    ** What the theorems show

    - Policy: evaluation is deny-overrides-allow over direct and inherited roles;
      sessions never exceed their scope; documents are validated exactly; concurrent
      replacement is serialised for every store that honours the store interface, and
      recovery access survives every sequence of replacements.
    - Desired state: compaction is a refinement of the full history of writes; writes
      are recorded or rolled back; restoration keeps exactly the acceptable entries and
      is a round trip when all are.
    - Registries: no sequence of operations makes a collection unresolvable, a scene
      invalid or a reference dangling; scene updates are never lost; destruction and
      membership errors are exact.
    - Streams: frames are accepted in order and within the rate limit.
    - Persistence, validation, capabilities, scenes, shared-memory headers: each check
      accepts exactly the values that satisfy the stated condition.
    - Plugins: exactly the valid descriptions become a topology; every device has one
      owner and ownership is stable; however loading, re-pulls, reloads, unloads and
      activations interleave, devices stay driven by one plugin each, without contention
      and as a valid topology (but a race of two reloads can load a plugin twice, and an
      unload during a reload is undone); a batch of updates reaches each owner in order and
      is answered with what its host replied.
    - Hardware state: a snapshot is published whole or not at all; what is reported of a
      surface, a group, a device or a collection is the combination of its parts.
    - Transitions: interpolation and easing are total, bounded, exact at the ends and
      free of overflow; a transition that starts ends, one that is reported complete was
      applied, and none touches a device outside its grant.
    - Requests: in every run of a request, with any interference by the other tasks, no
      device hears from it, nothing changes and nothing is announced before the policy
      allowed it (the end of a stream, which needs no permission, does nothing else);
      listings show what the policy allows, collections change for their
      owners, access changes on record; a delegated session stays within its subject, its
      front end and its scope, and hears only of what it may observe; a connection leaves
      no stream behind; an acknowledged effect was applied, recorded and
      saved; the sequencers of mutations never deadlock.
    - Authentication: tickets and attestations are used once, by their actor and in time;
      capacities hold; the sessions of a withdrawn token are notified.
    - Reconciliation: hardware is written only under the policy to restore and only with
      what was recorded; a success means that the updates were accepted and that no confirmed
      reading differs; what is announced was saved before.
    - Managed configuration: settings resolve exactly when layers and schema agree, to the
      value of the layer that counts; patches are serialised and reach the plugins; reports
      hide secrets; setup sessions exclude each other, and one that is cancelled or whose
      baseline changed does not commit.
    - Plugin hosts: a request gets its own answer, always ends, and a call that fails by
      itself retires the connection; a host is replaced only by one of the same plugin;
      shared-memory services of different streams have different names.
    - Configuration and discovery: validation accepts exactly the usable configurations;
      candidates are the configured and the found libraries, each once; the registry of
      discovered devices stays within its limits and reports its changes exactly.
    - The client: a response reaches the call that asked for it, cancelling a call affects no
      other, and every request that the daemon routes is answered with what its caller
      understands; calls on a connection whose reader is gone wait for their timeout.
    - Wire formats: frames and Razer reports round-trip, corruption is detected, exchanges
      and restarts are bounded.

    ** Not modelled

    Sockets, files, processes and timers around these components; what the router does for
    the requests on managed configuration and plugin setup after it authorized them (a
    parameter of [Dispatch]; [ManagedConfig], [Setup] and [Catalogue] model it on its own);
    inspection of plugin files and the process that runs a plugin; the TOML and serde encodings of
    configuration and messages; the C interface of [libluminate] and the
    frontends ([luminate-cli], [luminate-dbus], [luminate-http]); operating-system services ([luminate-platform]);
    the hardware side of the plugins and the protocols of plugins other than [Razer];
    the floating-point conversions between colour spaces. *)

From stdpp Require Export base tactics option list gmap strings sorting.
From Stdlib Require Export ZArith Lia.

(** ** Results

    Rust's [Result<A, E>]; the error type comes first so that [result E] is a
    functor and stdpp's [x ← e; k] is Rust's [?]. *)

Inductive result (E A : Type) : Type :=
| Ok (a : A)
| Err (e : E).
Arguments Ok {E A} a.
Arguments Err {E A} e.

#[export] Instance result_ret E : MRet (result E) := λ A a, Ok a.
#[export] Instance result_bind E : MBind (result E) := λ A B f r,
  match r with Ok a => f a | Err e => Err e end.
#[export] Instance result_fmap E : FMap (result E) := λ A B f r,
  match r with Ok a => Ok (f a) | Err e => Err e end.

#[export] Instance result_eq_dec {E A} `{EqDecision E, EqDecision A} :
  EqDecision (result E A).
Proof. solve_decision. Defined.

Definition is_ok {E A} (r : result E A) : bool :=
  match r with Ok _ => true | Err _ => false end.

(** [Option::ok_or] *)
Definition ok_or {E A} (o : option A) (e : E) : result E A :=
  match o with Some a => Ok a | None => Err e end.

(** [Result::map_err] *)
Definition map_err {E F A} (f : E → F) (r : result E A) : result F A :=
  match r with Ok a => Ok a | Err e => Err (f e) end.

(** [Result::ok] *)
Definition to_option {E A} (r : result E A) : option A :=
  match r with Ok a => Some a | Err _ => None end.

(** [if !condition { return Err(e) }] *)
Definition ensure {E} (b : bool) (e : E) : result E unit :=
  if b then Ok tt else Err e.

(** [Option::map(f).transpose()] for a fallible [f]. *)
Definition opt_try {E A B} (f : A → result E B) (o : option A) : result E (option B) :=
  match o with
  | Some a => b ← f a; Ok (Some b)
  | None => Ok None
  end.

(** A [for] loop whose body may return early with [?]. *)
Fixpoint try_for {E A} (f : A → result E unit) (l : list A) : result E unit :=
  match l with
  | [] => Ok tt
  | x :: l => _ ← f x; try_for f l
  end.

(** The same with a loop-carried state. *)
Fixpoint try_fold {E S A} (f : S → A → result E S) (s : S) (l : list A) : result E S :=
  match l with
  | [] => Ok s
  | x :: l => s' ← f s x; try_fold f s' l
  end.

(** [iter().map(f).collect::<Result<Vec<_>, _>>()] *)
Fixpoint try_map {E A B} (f : A → result E B) (l : list A) : result E (list B) :=
  match l with
  | [] => Ok []
  | x :: l => y ← f x; ys ← try_map f l; Ok (y :: ys)
  end.

(** A recursive function modelled with fuel answers [Err Fuel] when the fuel
    runs out; every top-level caller is proved never to see it. *)
Inductive fuelled (E : Type) : Type :=
| Fuel
| Fail (e : E).
Arguments Fuel {E}.
Arguments Fail {E} e.

#[export] Instance fuelled_eq_dec {E} `{EqDecision E} : EqDecision (fuelled E).
Proof. solve_decision. Defined.

(** Rendered diagnostics.  A [format!] message is kept as its template and the
    values interpolated into it, not as rendered text. *)
Inductive FmtArg : Type :=
| AStr (s : string)
| ANum (z : Z).
Inductive Text : Type :=
| Lit (s : string)
| Fmt (template : string) (args : list FmtArg)
| Nested (template : string) (args : list FmtArg) (inner : Text).

#[export] Instance FmtArg_eq_dec : EqDecision FmtArg.
Proof. solve_decision. Defined.
#[export] Instance Text_eq_dec : EqDecision Text.
Proof. solve_decision. Defined.

(** ** Tactics *)

(** Invert the [?] chains of a hypothesis: split every bind whose result is an
    [Ok], drop the contradictory ones. *)
Ltac res_inv :=
  repeat match goal with
  | H : Ok _ = Ok _ |- _ => injection H as H
  | H : Err _ = Err _ |- _ => injection H as H
  | H : Ok _ = Err _ |- _ => discriminate H
  | H : Err _ = Ok _ |- _ => discriminate H
  | H : mbind _ ?r = _ |- _ =>
      let E := fresh "E" in destruct r eqn:E; cbn [mbind result_bind] in H
  | H : ensure ?b _ = _ |- _ =>
      let E := fresh "E" in unfold ensure in H; destruct b eqn:E
  | H : ok_or ?o _ = _ |- _ =>
      let E := fresh "E" in unfold ok_or in H; destruct o eqn:E
  end; try discriminate; subst.

(** Turn boolean tests of the code into propositions. *)
Ltac bool_prop :=
  repeat match goal with
  | H : _ && _ = true |- _ => apply andb_true_iff in H as [? ?]
  | H : _ && _ = false |- _ => apply andb_false_iff in H
  | H : _ || _ = true |- _ => apply orb_true_iff in H
  | H : _ || _ = false |- _ => apply orb_false_iff in H as [? ?]
  | H : negb _ = true |- _ => apply negb_true_iff in H
  | H : negb _ = false |- _ => apply negb_false_iff in H
  | H : bool_decide _ = true |- _ => apply bool_decide_eq_true in H
  | H : bool_decide _ = false |- _ => apply bool_decide_eq_false in H
  | H : (_ =? _)%Z = true |- _ => apply Z.eqb_eq in H
  | H : (_ =? _)%Z = false |- _ => apply Z.eqb_neq in H
  | H : (_ <=? _)%Z = true |- _ => apply Z.leb_le in H
  | H : (_ <=? _)%Z = false |- _ => apply Z.leb_gt in H
  | H : (_ <? _)%Z = true |- _ => apply Z.ltb_lt in H
  | H : (_ <? _)%Z = false |- _ => apply Z.ltb_ge in H
  end.

(** ** Loop lemmas *)

Lemma ensure_Ok {E} (b : bool) (e : E) : ensure b e = Ok tt ↔ b = true.
Proof. unfold ensure. destruct b; naive_solver. Qed.

(** [if b { return Err(e) } k] *)
Lemma guard_Ok {E A} (b : bool) (e : E) (k : result E A) x :
  (if b then Err e else k) = Ok x ↔ b = false ∧ k = Ok x.
Proof. destruct b; naive_solver. Qed.

Lemma bind_Ok {E A B} (r : result E A) (f : A → result E B) b :
  mbind f r = Ok b ↔ ∃ a, r = Ok a ∧ f a = Ok b.
Proof. destruct r; naive_solver. Qed.

Lemma ok_or_Ok {E A} (o : option A) (e : E) a : ok_or o e = Ok a ↔ o = Some a.
Proof. destruct o; naive_solver. Qed.

Lemma bind_unit_Ok {E B} (r : result E unit) (k : result E B) b :
  (r ≫= λ _, k) = Ok b ↔ r = Ok tt ∧ k = Ok b.
Proof. destruct r as [[]|]; naive_solver. Qed.

Lemma map_err_Ok {E F A} (f : E → F) (r : result E A) a : map_err f r = Ok a ↔ r = Ok a.
Proof. destruct r; simpl; naive_solver. Qed.

Lemma is_ok_true {E A} (r : result E A) : is_ok r = true ↔ ∃ a, r = Ok a.
Proof. destruct r; naive_solver. Qed.

Lemma is_ok_unit {E} (r : result E unit) : is_ok r = true ↔ r = Ok tt.
Proof. destruct r as [[]|]; naive_solver. Qed.

Lemma try_for_Ok {E A} (f : A → result E unit) l :
  try_for f l = Ok tt ↔ Forall (λ x, f x = Ok tt) l.
Proof.
  induction l as [|x l IH]; simpl; [naive_solver|].
  rewrite Forall_cons, <-IH. destruct (f x) as [[]|]; naive_solver.
Qed.

(** A failing loop reports its first failing element. *)
Lemma try_for_Err {E A} (f : A → result E unit) l e :
  try_for f l = Err e ↔
  ∃ l1 x l2, l = l1 ++ x :: l2 ∧ Forall (λ y, f y = Ok tt) l1 ∧ f x = Err e.
Proof.
  induction l as [|x l IH]; simpl.
  { split; [done|]. intros (l1 & x & l2 & H & _). by destruct l1. }
  destruct (f x) as [[]|e'] eqn:Hx; simpl.
  - rewrite IH. split.
    + intros (l1 & y & l2 & -> & H1 & H2). exists (x :: l1), y, l2. auto.
    + intros (l1 & y & l2 & Hl & H1 & H2).
      destruct l1 as [|z l1]; injection Hl as -> ->; [congruence|].
      exists l1, y, l2. by apply Forall_cons in H1 as [_ H1].
  - split.
    + intros [= <-]. by exists [], x, l.
    + intros (l1 & y & l2 & Hl & H1 & H2).
      destruct l1 as [|z l1]; injection Hl as -> ->; [congruence|].
      apply Forall_cons in H1 as [H1 _]. congruence.
Qed.

Lemma try_map_Ok {E A B} (f : A → result E B) l k :
  try_map f l = Ok k ↔ Forall2 (λ x y, f x = Ok y) l k.
Proof.
  revert k. induction l as [|x l IH]; intros k; simpl.
  - split; [by intros [= <-]; constructor|]. by intros ->%Forall2_nil_inv_l.
  - rewrite bind_Ok. split.
    + intros (y & Hy & H). rewrite bind_Ok in H. destruct H as (ys & Hys & [= <-]).
      constructor; [done|]. by apply IH.
    + intros (y & ys & Hy & Hys & ->)%Forall2_cons_inv_l.
      exists y. split; [done|]. rewrite bind_Ok. exists ys. by rewrite IH.
Qed.

Lemma try_map_length {E A B} (f : A → result E B) l k :
  try_map f l = Ok k → length k = length l.
Proof. intros H%try_map_Ok%Forall2_length. done. Qed.

Lemma try_fold_app {E S A} (f : S → A → result E S) s l1 l2 :
  try_fold f s (l1 ++ l2) = (s' ← try_fold f s l1; try_fold f s' l2).
Proof.
  revert s. induction l1 as [|x l1 IH]; intros s; simpl; [done|].
  destruct (f s x); simpl; [apply IH|done].
Qed.

(** An invariant of the body is an invariant of the loop. *)
Lemma try_fold_ind {E S A} (P : S → Prop) (f : S → A → result E S) s l s' :
  P s → (∀ s x s', x ∈ l → P s → f s x = Ok s' → P s') →
  try_fold f s l = Ok s' → P s'.
Proof.
  revert s. induction l as [|x l IH]; simpl; intros s Hs Hstep H; [by injection H as ->|].
  apply bind_Ok in H as (s1 & H1 & H2).
  eapply (IH s1); [|intros; eapply Hstep; eauto; by right|done].
  eapply Hstep; eauto. by left.
Qed.

(** The idiom [if !seen.insert(key(x)) { return Err(..) }] of the code's
    duplicate checks: such a loop succeeds exactly on the lists whose elements
    pass the body's other checks and whose keys are distinct. *)
Section seen.
Context {E A K : Type} `{Countable K}.
Context (key : A → K) (P : A → Prop) (f : gset K → A → result E (gset K)).
Context (Hf : ∀ s x s', f s x = Ok s' ↔ P x ∧ key x ∉ s ∧ s' = {[key x]} ∪ s).

Lemma try_fold_seen s l s' :
  try_fold f s l = Ok s' ↔
  Forall P l ∧ NoDup (key <$> l) ∧ (∀ x, x ∈ l → key x ∉ s) ∧
  s' = list_to_set (key <$> l) ∪ s.
Proof using Hf.
  revert s. induction l as [|x l IH]; intros s; simpl.
  { split.
    - intros [= <-]. repeat split; [constructor..|set_solver|set_solver].
    - intros (_ & _ & _ & ->). f_equal. set_solver. }
  rewrite bind_Ok, Forall_cons. setoid_rewrite NoDup_cons. split.
  - intros (s1 & (Hx & Hs & ->)%Hf & (HP & Hnd & Hd & ->)%IH).
    repeat split; [done..| |done| |set_solver].
    + intros (y & Hy & Hyl)%list_elem_of_fmap. specialize (Hd y Hyl). set_solver.
    + intros y [->|Hy]%elem_of_cons; [done|]. specialize (Hd y Hy). set_solver.
  - intros ((Hx & HP) & (Hnin & Hnd) & Hd & ->).
    exists ({[key x]} ∪ s). rewrite Hf, IH. repeat split; [done| |done..| |set_solver].
    + apply Hd. by left.
    + intros y Hy. specialize (Hd y). assert (key y ≠ key x).
      { intros Heq. apply Hnin. rewrite <-Heq. by apply list_elem_of_fmap_2. }
      set_solver.
Qed.

Lemma try_fold_seen_empty l :
  (∃ s', try_fold f ∅ l = Ok s') ↔ Forall P l ∧ NoDup (key <$> l).
Proof using Hf.
  split.
  - intros (s' & (HP & Hnd & _)%try_fold_seen). done.
  - intros [HP Hnd]. eexists. apply try_fold_seen. repeat split; [done..|set_solver].
Qed.
End seen.

(** ** Machine-width integers

    A [uN] value is a [Z] together with the range predicate; the operations
    that can leave the range are written with the behaviour the source asks
    for: [wrapping_*], [saturating_*] and [checked_*]. *)

Definition uN (w z : Z) : Prop := (0 <= z < 2 ^ w)%Z.
Definition uN_max (w : Z) : Z := (2 ^ w - 1)%Z.
Definition in_uN (w z : Z) : bool := (0 <=? z)%Z && (z <? 2 ^ w)%Z.
Definition in_iN (w z : Z) : bool := (- 2 ^ (w - 1) <=? z)%Z && (z <? 2 ^ (w - 1))%Z.
Definition wrapU (w z : Z) : Z := (z mod 2 ^ w)%Z.
Definition saturateU (w z : Z) : Z := Z.max 0 (Z.min z (uN_max w)).
Definition checkU (w z : Z) : option Z := if in_uN w z then Some z else None.

Notation u8 := (uN 8).
Notation u16 := (uN 16).
Notation u32 := (uN 32).
Notation u64 := (uN 64).

Lemma in_uN_true w z : in_uN w z = true ↔ uN w z.
Proof. unfold in_uN, uN. rewrite andb_true_iff, Z.leb_le, Z.ltb_lt. done. Qed.

Lemma checkU_Some w z y : checkU w z = Some y ↔ y = z ∧ uN w z.
Proof.
  unfold checkU. pose proof (in_uN_true w z). destruct (in_uN w z); naive_solver.
Qed.

Lemma checkU_ok w z : uN w z → checkU w z = Some z.
Proof. intros. by apply checkU_Some. Qed.

Lemma saturateU_uN w z : (0 <= w)%Z → uN w (saturateU w z).
Proof.
  intros Hw. unfold saturateU, uN, uN_max. pose proof (Z.pow_pos_nonneg 2 w ltac:(lia) Hw). lia.
Qed.

Lemma wrapU_id w z : uN w z → wrapU w z = z.
Proof. apply Z.mod_small. Qed.

Lemma wrapU_uN w z : (0 <= w)%Z → uN w (wrapU w z).
Proof. intros. apply Z.mod_pos_bound. by apply Z.pow_pos_nonneg. Qed.

Lemma saturateU_id w z : uN w z → saturateU w z = z.
Proof. unfold uN, saturateU, uN_max. lia. Qed.

(** Decide a closed-width range goal. *)
Ltac width := unfold uN, uN_max in *; change (2 ^ 8)%Z with 256%Z in *;
  change (2 ^ 16)%Z with 65536%Z in *; change (2 ^ 32)%Z with 4294967296%Z in *;
  change (2 ^ 64)%Z with 18446744073709551616%Z in *; try lia.

(** ** Little-endian byte strings

    [to_le_bytes] and [from_le_bytes]; a byte is a [Z] in the [u8] range. *)

Fixpoint le_bytes (n : nat) (z : Z) : list Z :=
  match n with
  | O => []
  | S n => (z mod 256)%Z :: le_bytes n (z / 256)
  end.

Definition from_le (bs : list Z) : Z := foldr (λ b acc, b + 256 * acc)%Z 0%Z bs.

(** [slice.try_into::<[u8; n]>().ok().map(from_le_bytes)] *)
Definition le_field (n : nat) (bs : list Z) : option Z :=
  if decide (length bs = n) then Some (from_le bs) else None.

Lemma le_bytes_length n z : length (le_bytes n z) = n.
Proof. revert z. induction n; intros; simpl; auto. Qed.

Lemma le_bytes_u8 n z : Forall u8 (le_bytes n z).
Proof.
  revert z. induction n; intros; simpl; constructor; [|auto].
  apply Z.mod_pos_bound. lia.
Qed.

Lemma pow_256_S n : (2 ^ (8 * Z.of_nat (S n)) = 256 * 2 ^ (8 * Z.of_nat n))%Z.
Proof.
  replace (8 * Z.of_nat (S n))%Z with (8 + 8 * Z.of_nat n)%Z by lia.
  rewrite Z.pow_add_r by lia. done.
Qed.

Lemma from_le_bytes n z : uN (8 * Z.of_nat n) z → from_le (le_bytes n z) = z.
Proof.
  revert z. induction n as [|n IH]; intros z Hz; simpl.
  - unfold uN in Hz. simpl in Hz. lia.
  - unfold uN in Hz. rewrite pow_256_S in Hz.
    change (foldr _ _ _) with (from_le (le_bytes n (z / 256))). rewrite IH.
    + pose proof (Z.div_mod z 256). lia.
    + unfold uN. split; [apply Z.div_pos; lia|]. apply Z.div_lt_upper_bound; lia.
Qed.

Lemma from_le_range bs : Forall u8 bs → uN (8 * Z.of_nat (length bs)) (from_le bs).
Proof.
  induction 1 as [|b bs Hb Hbs IH]; [unfold uN; simpl; lia|].
  unfold uN in *. simpl length. rewrite pow_256_S. simpl.
  change (foldr _ _ _) with (from_le bs). change (2 ^ 8)%Z with 256%Z in Hb. lia.
Qed.

Lemma le_bytes_from bs : Forall u8 bs → le_bytes (length bs) (from_le bs) = bs.
Proof.
  induction 1 as [|b bs Hb Hbs IH]; [done|].
  simpl. change (foldr _ _ _) with (from_le bs). unfold uN in Hb.
  change (2 ^ 8)%Z with 256%Z in Hb.
  replace (b + 256 * from_le bs)%Z with (b + from_le bs * 256)%Z by lia.
  rewrite Z.mod_add, Z.div_add by lia.
  rewrite (Z.mod_small b), (Z.div_small b) by lia. by rewrite Z.add_0_l, IH.
Qed.

Lemma le_field_bytes n z : uN (8 * Z.of_nat n) z → le_field n (le_bytes n z) = Some z.
Proof.
  intros Hz. unfold le_field. rewrite decide_True by apply le_bytes_length.
  by rewrite from_le_bytes.
Qed.

Lemma le_field_Some n bs z :
  Forall u8 bs → le_field n bs = Some z → uN (8 * Z.of_nat n) z ∧ le_bytes n z = bs.
Proof.
  unfold le_field. intros Hbs H. case_decide as Hn; [|done]. injection H as <-. subst n.
  split; [by apply from_le_range|by apply le_bytes_from].
Qed.

(** A decidable property of a byte is checked by enumeration. *)
Lemma u8_enum (P : Z → bool) :
  forallb P (Z.of_nat <$> seq 0 256) = true → ∀ z, u8 z → P z = true.
Proof.
  intros HP z Hz. rewrite forallb_forall in HP. apply HP.
  apply list_elem_of_In, list_elem_of_fmap. exists (Z.to_nat z).
  unfold uN in Hz. change (2 ^ 8)%Z with 256%Z in Hz.
  split; [lia|]. apply elem_of_seq. lia.
Qed.

(** Signed wrap-around of a [w]-bit two's complement integer. *)
Definition wrapS (w z : Z) : Z := ((z + 2 ^ (w - 1)) mod 2 ^ w - 2 ^ (w - 1))%Z.

Lemma wrapS_id w z : (0 < w)%Z → (- 2 ^ (w - 1) <= z < 2 ^ (w - 1))%Z → wrapS w z = z.
Proof.
  intros Hw Hz. unfold wrapS.
  assert (2 ^ w = 2 * 2 ^ (w - 1))%Z.
  { rewrite <-Z.pow_succ_r by lia. f_equal. lia. }
  rewrite Z.mod_small; lia.
Qed.

(** ** Ordered collections

    A [BTreeSet<String>] is a [gset string] and a [BTreeMap<String, _>] a [gmap];
    their iterators go through the elements in ascending key order. *)

Definition set_iter (s : gset string) : list string := merge_sort String.le (elements s).
Definition key_le {A} (p q : string * A) : Prop := String.le p.1 q.1.
#[export] Instance key_le_dec {A} : RelDecision (@key_le A).
Proof. intros p q. unfold key_le. apply _. Defined.
Definition map_iter {A} (m : gmap string A) : list (string * A) :=
  merge_sort key_le (map_to_list m).

Lemma elem_of_set_iter s x : x ∈ set_iter s ↔ x ∈ s.
Proof. unfold set_iter. by rewrite merge_sort_Permutation, elem_of_elements. Qed.

Lemma NoDup_set_iter s : NoDup (set_iter s).
Proof. unfold set_iter. rewrite merge_sort_Permutation. apply NoDup_elements. Qed.

Lemma elem_of_map_iter {A} (m : gmap string A) k x : (k, x) ∈ map_iter m ↔ m !! k = Some x.
Proof. unfold map_iter. by rewrite merge_sort_Permutation, elem_of_map_to_list. Qed.

Lemma map_iter_Permutation {A} (m : gmap string A) : map_iter m ≡ₚ map_to_list m.
Proof. apply merge_sort_Permutation. Qed.

(** Lexicographic combination of two orders, as derived and tuple [Ord]s have it. *)
Definition lex_le {A B} (R : relation A) (S : relation B) : relation (A * B) :=
  λ p q, (p.1 ≠ q.1 ∧ R p.1 q.1) ∨ (p.1 = q.1 ∧ S p.2 q.2).
#[export] Instance lex_le_dec {A B} (R : relation A) (S : relation B) `{EqDecision A}
  `{!RelDecision R, !RelDecision S} : RelDecision (lex_le R S).
Proof. intros p q. unfold lex_le. apply _. Defined.

#[export] Instance lex_le_total {A B} (R : relation A) (S : relation B) `{EqDecision A}
  `{!Total R, !Total S} : Total (lex_le R S).
Proof.
  intros [a b] [c d]. unfold lex_le. cbn. destruct (decide (a = c)) as [->|Hne].
  - destruct (total S b d); [left|right]; right; done.
  - destruct (total R a c); [left|right]; left; done.
Qed.

#[export] Instance lex_le_trans {A B} (R : relation A) (S : relation B) `{EqDecision A}
  `{!Transitive R, !AntiSymm (=) R, !Transitive S} : Transitive (lex_le R S).
Proof.
  intros [a b] [c d] [e f]. unfold lex_le. cbn.
  intros [[Hne H1]|[-> H1]] [[Hne' H2]|[-> H2]]; [|by left..|by right; eauto].
  left. split; [|by etrans]. intros ->. apply Hne. by apply (anti_symm R).
Qed.

#[export] Instance lex_le_antisymm {A B} (R : relation A) (S : relation B)
  `{!AntiSymm (=) R, !AntiSymm (=) S} : AntiSymm (=) (lex_le R S).
Proof.
  intros [a b] [c d]. unfold lex_le. cbn. intros [[Hne H1]|[-> H1]] [[Hne' H2]|[Heq H2]]; try done.
  - destruct Hne. by apply (anti_symm R).
  - f_equal. by apply (anti_symm S).
Qed.

(** A set collected from a list is no larger than the list. *)
Lemma size_list_to_set_le {A} `{Countable A} (l : list A) :
  size (list_to_set l : gset A) ≤ length l.
Proof.
  induction l as [|x l IH]; simpl; [done|].
  rewrite size_union_alt, size_singleton.
  pose proof (subseteq_size (list_to_set l ∖ {[x]} : gset A) (list_to_set l) ltac:(set_solver)).
  lia.
Qed.

(** [dedup]: of adjacent equal elements only one stays. *)
Fixpoint dedup_adjacent {A} `{EqDecision A} (l : list A) : list A :=
  match l with
  | [] => []
  | x :: l =>
      match dedup_adjacent l with
      | y :: l' => if decide (x = y) then y :: l' else x :: y :: l'
      | [] => [x]
      end
  end.

Lemma dedup_adjacent_nil {A} `{EqDecision A} (l : list A) : dedup_adjacent l = [] → l = [].
Proof. destruct l; [done|]. cbn. repeat case_match; done. Qed.

Lemma elem_of_dedup_adjacent {A} `{EqDecision A} (l : list A) x : x ∈ dedup_adjacent l ↔ x ∈ l.
Proof.
  induction l as [|y l IH]; [done|]. cbn. rewrite (elem_of_cons l), <-IH.
  destruct (dedup_adjacent l) as [|z l'] eqn:E; [by rewrite list_elem_of_singleton, elem_of_nil; tauto|].
  destruct (decide (y = z)) as [->|]; rewrite !elem_of_cons; tauto.
Qed.

(** ** Lists with distinct keys *)

Lemma NoDup_fmap_same {A B} (f : A → B) l x y :
  NoDup (f <$> l) → x ∈ l → y ∈ l → f x = f y → x = y.
Proof.
  intros Hnd [i Hi]%list_elem_of_lookup [j Hj]%list_elem_of_lookup Hf.
  assert (i = j) as ->; [|congruence].
  eapply (NoDup_lookup _ i j (f x)); [done|by rewrite list_lookup_fmap, Hi|].
  by rewrite list_lookup_fmap, Hj, Hf.
Qed.

(** Inserting the elements of a list under distinct keys. *)
Lemma fold_insert_lookup {A B K} `{Countable K} (key : A → K) (val : A → B) (l : list A)
    (m : gmap K B) :
  NoDup (key <$> l) →
  (∀ x, x ∈ l → fold_left (λ m x, <[key x := val x]> m) l m !! key x = Some (val x)) ∧
  (∀ k, k ∉ key <$> l → fold_left (λ m x, <[key x := val x]> m) l m !! k = m !! k).
Proof.
  induction l as [|x l IH] using rev_ind; [split; [set_solver|done]|].
  rewrite fmap_app. intros (Hnd & Hd & _)%NoDup_app. destruct (IH Hnd) as [IH1 IH2].
  rewrite fold_left_app. cbn. split.
  - intros y [Hy| ->%list_elem_of_singleton]%elem_of_app; [|apply lookup_insert_eq].
    rewrite lookup_insert_ne; [by apply IH1|]. intros Heq.
    apply (Hd (key y)); [by apply list_elem_of_fmap_2|]. rewrite <-Heq. by left.
  - intros k Hk. rewrite lookup_insert_ne; [apply IH2; set_solver|]. set_solver.
Qed.

(** [iter().find(|x| x.key == key)] among distinct keys. *)
Lemma find_key {A K} `{EqDecision K} (f : A → K) (l : list A) k x :
  NoDup (f <$> l) →
  List.find (λ y, bool_decide (f y = k)) l = Some x ↔ x ∈ l ∧ f x = k.
Proof.
  intros Hnd. split.
  - intros [Hin Hk]%List.find_some. apply bool_decide_eq_true in Hk. by rewrite list_elem_of_In.
  - intros [Hin Hk]. destruct (List.find _ l) as [y|] eqn:E.
    + apply List.find_some in E as [Hy Hyk]. apply bool_decide_eq_true in Hyk. f_equal.
      rewrite <-list_elem_of_In in Hy. eapply NoDup_fmap_same; [done..|congruence].
    + apply List.find_none with (x := x) in E; [|by apply list_elem_of_In].
      by apply bool_decide_eq_false in E.
Qed.

(** [if !acc.contains(&x) { acc.push(x) }], iterated. *)
Definition push_unique {A} `{EqDecision A} (acc : list A) (x : A) : list A :=
  if decide (x ∈ acc) then acc else acc ++ [x].

Lemma push_unique_all {A} `{EqDecision A} (l acc : list A) :
  NoDup acc →
  NoDup (fold_left push_unique l acc) ∧
  (∀ x, x ∈ fold_left push_unique l acc ↔ x ∈ acc ∨ x ∈ l).
Proof.
  revert acc. induction l as [|y l IH]; intros acc Hacc; simpl.
  { split; [done|]. set_solver. }
  assert (NoDup (push_unique acc y)) as Hnd.
  { unfold push_unique. case_decide; [done|]. apply NoDup_app.
    split_and!; [done|set_solver|apply NoDup_singleton]. }
  destruct (IH _ Hnd) as [H1 H2]. split; [done|]. intros x. rewrite H2.
  unfold push_unique. case_decide; set_solver.
Qed.

Lemma StronglySorted_filter {A} (R : A → A → Prop) (P : A → Prop) `{!∀ x, Decision (P x)} l :
  StronglySorted R l → StronglySorted R (filter P l).
Proof.
  induction 1 as [|x l Hl IH Hx]; [constructor|]. rewrite filter_cons. case_decide; [|done].
  constructor; [done|]. rewrite Forall_forall in Hx |- *. intros y [_ Hy]%list_elem_of_filter. auto.
Qed.

Lemma filter_all {A} (P : A → Prop) `{!∀ x, Decision (P x)} l : Forall P l → filter P l = l.
Proof.
  induction 1 as [|x l Hx _ IH]; [done|]. rewrite filter_cons, decide_True by done. by rewrite IH.
Qed.

Lemma filter_ext_in {A} (P Q : A → Prop) `{!∀ x, Decision (P x), !∀ x, Decision (Q x)} (l : list A) :
  (∀ x, x ∈ l → P x ↔ Q x) → filter P l = filter Q l.
Proof.
  induction l as [|x l IH]; intros HPQ; [done|]. rewrite !filter_cons, IH by set_solver.
  destruct (HPQ x) as [HP HQ]; [set_solver|]. repeat case_decide; tauto.
Qed.

(** ** Automation

    [luminate] holds the range facts of the width operations; [result] rewrites an
    equation between a composed computation and [Ok] to its parts. *)

Create HintDb luminate.
#[export] Hint Resolve wrapU_uN saturateU_uN NoDup_nil_2 : luminate.

Create HintDb result.
#[export] Hint Rewrite @bind_Ok @ok_or_Ok @map_err_Ok @ensure_Ok : result.

(** Bit operations as the sources write them. *)
Declare Scope bits_scope.
Delimit Scope bits_scope with bits.
Notation "a .& b" := (Z.land a b) (at level 40, left associativity) : bits_scope.
Notation "a .| b" := (Z.lor a b) (at level 45, left associativity) : bits_scope.
Notation "a .^ b" := (Z.lxor a b) (at level 43, left associativity) : bits_scope.
Notation "a .<< n" := (Z.shiftl a n) (at level 38, left associativity) : bits_scope.
Notation "a .>> n" := (Z.shiftr a n) (at level 38, left associativity) : bits_scope.
