(* ===== verification/Model.v ===== *)
(** * The data model of luminate-core

    The identifiers, records and enumerations that the crate's modules share:
    [util/], [device.rs], [surface.rs], [element.rs], [group.rs], [target.rs],
    [rgb.rs], [colour.rs], [capability.rs], [effect.rs], [appearance_slot.rs],
    [state.rs], [control.rs] and [frame.rs].  A newtype over [String] is a
    one-field record, an enum variant is [Type_Variant] and a struct field
    [type_field].  Unsigned integers are [Z]; where a claim needs the width the
    range is a hypothesis ([u8], [u16], [u32], [u64]).  An [f32] is carried as
    its bit pattern, since no modelled operation computes with one. *)

From S2P Require Import Prelude.

Definition f32 : Type := Z.

(** ** Opaque identifiers *)

Record DeviceId := DeviceId_new { DeviceId_as_str : string }.
Record SurfaceId := SurfaceId_new { SurfaceId_as_str : string }.
Record ElementId := ElementId_new { ElementId_as_str : string }.
Record GroupId := GroupId_new { GroupId_as_str : string }.
Record CollectionId := CollectionId_new { CollectionId_as_str : string }.
Record SceneId := SceneId_new { SceneId_as_str : string }.
Record TransitionId := TransitionId_new { TransitionId_as_str : string }.
Record HardwareEffectId := HardwareEffectId_new { HardwareEffectId_as_str : string }.
Record AppearanceSlotId := AppearanceSlotId_new { AppearanceSlotId_as_str : string }.
Record DeviceCategory := DeviceCategory_new { DeviceCategory_as_str : string }.
Record CollectionCategory := CollectionCategory_new { CollectionCategory_as_str : string }.

#[export] Instance DeviceId_eq : EqDecision DeviceId.
Proof. solve_decision. Defined.
#[export] Instance SurfaceId_eq : EqDecision SurfaceId.
Proof. solve_decision. Defined.
#[export] Instance ElementId_eq : EqDecision ElementId.
Proof. solve_decision. Defined.
#[export] Instance GroupId_eq : EqDecision GroupId.
Proof. solve_decision. Defined.
#[export] Instance CollectionId_eq : EqDecision CollectionId.
Proof. solve_decision. Defined.
#[export] Instance SceneId_eq : EqDecision SceneId.
Proof. solve_decision. Defined.
#[export] Instance TransitionId_eq : EqDecision TransitionId.
Proof. solve_decision. Defined.
#[export] Instance HardwareEffectId_eq : EqDecision HardwareEffectId.
Proof. solve_decision. Defined.
#[export] Instance AppearanceSlotId_eq : EqDecision AppearanceSlotId.
Proof. solve_decision. Defined.
#[export] Instance DeviceCategory_eq : EqDecision DeviceCategory.
Proof. solve_decision. Defined.
#[export] Instance CollectionCategory_eq : EqDecision CollectionCategory.
Proof. solve_decision. Defined.

#[export] Program Instance DeviceId_countable : Countable DeviceId :=
  inj_countable' DeviceId_as_str DeviceId_new _.
Solve Obligations with by intros [].
#[export] Program Instance SurfaceId_countable : Countable SurfaceId :=
  inj_countable' SurfaceId_as_str SurfaceId_new _.
Solve Obligations with by intros [].
#[export] Program Instance ElementId_countable : Countable ElementId :=
  inj_countable' ElementId_as_str ElementId_new _.
Solve Obligations with by intros [].
#[export] Program Instance GroupId_countable : Countable GroupId :=
  inj_countable' GroupId_as_str GroupId_new _.
Solve Obligations with by intros [].
#[export] Program Instance CollectionId_countable : Countable CollectionId :=
  inj_countable' CollectionId_as_str CollectionId_new _.
Solve Obligations with by intros [].
#[export] Program Instance SceneId_countable : Countable SceneId :=
  inj_countable' SceneId_as_str SceneId_new _.
Solve Obligations with by intros [].
#[export] Program Instance TransitionId_countable : Countable TransitionId :=
  inj_countable' TransitionId_as_str TransitionId_new _.
Solve Obligations with by intros [].
#[export] Program Instance HardwareEffectId_countable : Countable HardwareEffectId :=
  inj_countable' HardwareEffectId_as_str HardwareEffectId_new _.
Solve Obligations with by intros [].
#[export] Program Instance AppearanceSlotId_countable : Countable AppearanceSlotId :=
  inj_countable' AppearanceSlotId_as_str AppearanceSlotId_new _.
Solve Obligations with by intros [].

(** ** Targets: [target.rs] *)

Inductive TargetId :=
| TargetId_Device (device : DeviceId)
| TargetId_Surface (device : DeviceId) (surface : SurfaceId)
| TargetId_Element (device : DeviceId) (surface : SurfaceId) (element : ElementId)
| TargetId_Group (device : DeviceId) (group : GroupId).

#[export] Instance TargetId_eq : EqDecision TargetId.
Proof. solve_decision. Defined.

#[export] Program Instance TargetId_countable : Countable TargetId :=
  inj_countable'
    (λ t, match t with
          | TargetId_Device d => inl (inl d)
          | TargetId_Surface d s => inl (inr (d, s))
          | TargetId_Element d s e => inr (inl (d, s, e))
          | TargetId_Group d g => inr (inr (d, g))
          end)
    (λ c, match c with
          | inl (inl d) => TargetId_Device d
          | inl (inr (d, s)) => TargetId_Surface d s
          | inr (inl (d, s, e)) => TargetId_Element d s e
          | inr (inr (d, g)) => TargetId_Group d g
          end) _.
Solve Obligations with by intros [].

Definition TargetId_device (device : string) : TargetId :=
  TargetId_Device (DeviceId_new device).
Definition TargetId_surface (device surface : string) : TargetId :=
  TargetId_Surface (DeviceId_new device) (SurfaceId_new surface).
Definition TargetId_element (device surface element : string) : TargetId :=
  TargetId_Element (DeviceId_new device) (SurfaceId_new surface) (ElementId_new element).
Definition TargetId_group (device group : string) : TargetId :=
  TargetId_Group (DeviceId_new device) (GroupId_new group).

Definition TargetId_from_parts (device : string) (surface element group : option string) :
    result string TargetId :=
  if bool_decide (is_Some group) && (bool_decide (is_Some surface) || bool_decide (is_Some element))
  then Err "group target cannot be combined with a surface or element target"%string
  else if bool_decide (is_Some element) && negb (bool_decide (is_Some surface))
  then Err "element target requires a surface identifier"%string
  else
    let device := DeviceId_new device in
    match surface, element, group with
    | _, _, Some group => Ok (TargetId_Group device (GroupId_new group))
    | Some surface, Some element, None =>
        Ok (TargetId_Element device (SurfaceId_new surface) (ElementId_new element))
    | Some surface, None, None => Ok (TargetId_Surface device (SurfaceId_new surface))
    | None, None, None => Ok (TargetId_Device device)
    | None, Some _, None => Err "element target requires a surface identifier"%string
    end.

Definition TargetId_device_id (t : TargetId) : DeviceId :=
  match t with
  | TargetId_Device device | TargetId_Surface device _
  | TargetId_Element device _ _ | TargetId_Group device _ => device
  end.

(** ** Colours: [rgb.rs], [colour.rs] and the colour part of [capability.rs] *)

Record Rgb := Rgb_new { rgb_r : Z; rgb_g : Z; rgb_b : Z }.
#[export] Instance Rgb_eq : EqDecision Rgb.
Proof. solve_decision. Defined.

Definition Rgb_BLACK : Rgb := Rgb_new 0 0 0.
Definition Rgb_WHITE : Rgb := Rgb_new 255 255 255.

Inductive ColourEncoding :=
| ColourEncoding_Additive | ColourEncoding_Hsv | ColourEncoding_Hsl
| ColourEncoding_Cct | ColourEncoding_Monochrome.
#[export] Instance ColourEncoding_eq : EqDecision ColourEncoding.
Proof. solve_decision. Defined.

Inductive ColourChannel :=
| Red | Green | Blue | White | WarmWhite | CoolWhite | Amber | Ultraviolet
| Hue | Saturation | Value | Lightness | Temperature | Intensity.
#[export] Instance ColourChannel_eq : EqDecision ColourChannel.
Proof. solve_decision. Defined.

(** The [#[repr(u32)]] discriminant. *)
Definition ColourChannel_repr (c : ColourChannel) : N :=
  match c with
  | Red => 0 | Green => 1 | Blue => 2 | White => 3 | WarmWhite => 4 | CoolWhite => 5
  | Amber => 6 | Ultraviolet => 7 | Hue => 8 | Saturation => 9 | Value => 10
  | Lightness => 11 | Temperature => 12 | Intensity => 13
  end.
#[export] Program Instance ColourChannel_countable : Countable ColourChannel :=
  inj_countable ColourChannel_repr
    (λ n, list_find (λ c, ColourChannel_repr c = n)
      [Red; Green; Blue; White; WarmWhite; CoolWhite; Amber; Ultraviolet;
       Hue; Saturation; Value; Lightness; Temperature; Intensity] ≫= λ p, Some p.2) _.
Solve Obligations with by intros [].

Definition ColourChannel_as_str (c : ColourChannel) : string :=
  match c with
  | Red => "red" | Green => "green" | Blue => "blue" | White => "white"
  | WarmWhite => "warm-white" | CoolWhite => "cool-white" | Amber => "amber"
  | Ultraviolet => "ultraviolet" | Hue => "hue" | Saturation => "saturation"
  | Value => "value" | Lightness => "lightness" | Temperature => "temperature"
  | Intensity => "intensity"
  end.

Definition is_additive (c : ColourChannel) : bool :=
  match c with
  | Red | Green | Blue | White | WarmWhite | CoolWhite | Amber | Ultraviolet => true
  | _ => false
  end.

Record ColourChannelValue := ColourChannelValue_new {
  ccv_channel : ColourChannel;
  ccv_value : Z
}.
#[export] Instance ColourChannelValue_eq : EqDecision ColourChannelValue.
Proof. solve_decision. Defined.

Inductive Colour :=
| Colour_Additive (channels : list ColourChannelValue)
| Colour_Hsv (hue saturation value : Z)
| Colour_Hsl (hue saturation lightness : Z)
| Colour_Cct (kelvin : Z)
| Colour_Monochrome (intensity : Z).
#[export] Instance Colour_eq : EqDecision Colour.
Proof. solve_decision. Defined.

(** ** Capabilities: the types of [capability.rs], [util/discrete.rs] and
    [appearance_slot.rs] *)

Record DiscreteRange := DiscreteRange_new {
  range_min : Z;
  range_max : Z;
  range_step : Z
}.
#[export] Instance DiscreteRange_eq : EqDecision DiscreteRange.
Proof. solve_decision. Defined.

(** The subtraction is only reached when [value >= min], so it cannot wrap. *)
Definition DiscreteRange_contains (r : DiscreteRange) (value : Z) : bool :=
  negb (range_step r =? 0)%Z && (range_min r <=? value)%Z && (value <=? range_max r)%Z &&
  ((value - range_min r) mod range_step r =? 0)%Z.

Record ColourChannelCapability := ColourChannelCapability_new {
  ccc_channel : ColourChannel;
  ccc_bits : Z
}.
Inductive ColourCapability :=
| ColourCapability_Additive (channels : list ColourChannelCapability)
| ColourCapability_Hsv (hue_bits saturation_bits value_bits : Z)
| ColourCapability_Hsl (hue_bits saturation_bits lightness_bits : Z)
| ColourCapability_Cct (bits : Z)
| ColourCapability_Monochrome (bits : Z).
#[export] Instance ColourChannelCapability_eq : EqDecision ColourChannelCapability.
Proof. solve_decision. Defined.
#[export] Instance ColourCapability_eq : EqDecision ColourCapability.
Proof. solve_decision. Defined.

Definition ColourCapability_rgb8 : ColourCapability :=
  ColourCapability_Additive
    [ColourChannelCapability_new Red 8; ColourChannelCapability_new Green 8;
     ColourChannelCapability_new Blue 8].

Inductive CctEmulation := CctEmulation_Auto | CctEmulation_Disabled.
Inductive CapabilityScope := Scope_Element | Scope_Surface | Scope_Device | Scope_Controller.
Inductive BrightnessCapability :=
| Brightness_None
| Brightness_Independent (bits maximum : Z) (scope : CapabilityScope).
#[export] Instance CctEmulation_eq : EqDecision CctEmulation.
Proof. solve_decision. Defined.
#[export] Instance CapabilityScope_eq : EqDecision CapabilityScope.
Proof. solve_decision. Defined.
#[export] Instance BrightnessCapability_eq : EqDecision BrightnessCapability.
Proof. solve_decision. Defined.

Inductive ShmPixelFormat := Rgb8 | Rgbw8 | Mono8 | Rgbx8.
Inductive ShmFrameShape :=
| Shape_Linear (pixel_count : Z)
| Shape_Matrix (width height : Z).
#[export] Instance ShmPixelFormat_eq : EqDecision ShmPixelFormat.
Proof. solve_decision. Defined.
#[export] Instance ShmFrameShape_eq : EqDecision ShmFrameShape.
Proof. solve_decision. Defined.

(** [u32::checked_mul] *)
Definition ShmFrameShape_pixel_count (s : ShmFrameShape) : option Z :=
  match s with
  | Shape_Linear pixel_count => Some pixel_count
  | Shape_Matrix width height => checkU 32 (width * height)
  end.

Record ShmFrameCapability := {
  shm_pixel_formats : list ShmPixelFormat;
  shm_shape : ShmFrameShape;
  shm_max_rate_hz : option Z
}.
Inductive FrameUpdateMode := FullFrameOnly | Update_Partial | Update_Both.
Inductive BufferingMode := Immediate | ExplicitCommit | DoubleBuffered.
#[export] Instance ShmFrameCapability_eq : EqDecision ShmFrameCapability.
Proof. solve_decision. Defined.
#[export] Instance FrameUpdateMode_eq : EqDecision FrameUpdateMode.
Proof. solve_decision. Defined.
#[export] Instance BufferingMode_eq : EqDecision BufferingMode.
Proof. solve_decision. Defined.

Record FrameUploadCapability := {
  fu_scope : CapabilityScope;
  fu_update_mode : FrameUpdateMode;
  fu_max_rate_hz : option Z;
  fu_atomic : bool;
  fu_buffering : BufferingMode;
  fu_shm : option ShmFrameCapability
}.
#[export] Instance FrameUploadCapability_eq : EqDecision FrameUploadCapability.
Proof. solve_decision. Defined.

Inductive EffectDirection :=
| Forward | Reverse | Clockwise | CounterClockwise | Inward | Outward | Random.
#[export] Instance EffectDirection_eq : EqDecision EffectDirection.
Proof. solve_decision. Defined.

(** The [#[repr(u32)]] discriminant. *)
Definition EffectDirection_repr (d : EffectDirection) : N :=
  match d with
  | Forward => 0 | Reverse => 1 | Clockwise => 2 | CounterClockwise => 3
  | Inward => 4 | Outward => 5 | Random => 6
  end.
#[export] Program Instance EffectDirection_countable : Countable EffectDirection :=
  inj_countable EffectDirection_repr
    (λ n, list_find (λ c, EffectDirection_repr c = n)
      [Forward; Reverse; Clockwise; CounterClockwise; Inward; Outward; Random]
      ≫= λ p, Some p.2) _.
Solve Obligations with by intros [].

Record EffectChoice := { choice_id : string; choice_name : string }.
Inductive EffectParameter :=
| EffectParameter_Colour (minimum_colours maximum_colours : Z)
| EffectParameter_Speed (range : DiscreteRange)
| EffectParameter_Direction (values : list EffectDirection)
| EffectParameter_Duration (milliseconds : DiscreteRange)
| EffectParameter_Brightness (bits : Z)
| EffectParameter_Choice (options : list EffectChoice).
Record HardwareEffectDescriptor := {
  hed_id : HardwareEffectId;
  hed_name : string;
  hed_parameters : list EffectParameter
}.
Record HardwareEffectsCapability := {
  hec_effects : list HardwareEffectDescriptor;
  hec_scope : CapabilityScope;
  hec_concurrent_with_streaming : bool
}.
#[export] Instance EffectChoice_eq : EqDecision EffectChoice.
Proof. solve_decision. Defined.
#[export] Instance EffectParameter_eq : EqDecision EffectParameter.
Proof. solve_decision. Defined.
#[export] Instance HardwareEffectDescriptor_eq : EqDecision HardwareEffectDescriptor.
Proof. solve_decision. Defined.
#[export] Instance HardwareEffectsCapability_eq : EqDecision HardwareEffectsCapability.
Proof. solve_decision. Defined.

Inductive PersistenceRequirement := Requirement_Optional | Requirement_Required.
Inductive PersistenceCapability :=
| Persistence_None
| Persistence_CurrentState (requirement : PersistenceRequirement)
    (explicit_commit readback : bool)
| Persistence_Profiles (requirement : PersistenceRequirement) (slots : Z)
    (explicit_commit readback : bool).
Inductive StateFacetKind :=
| Kind_Appearance | Kind_Brightness | Kind_Emission | Kind_PhysicalPower
| Kind_EffectiveAppearance | Kind_AppearanceSlots.
Inductive ReadbackFidelity := Fidelity_BestEffort | Fidelity_Exact.
Record ReadableFacet := { rf_facet : StateFacetKind; rf_fidelity : ReadbackFidelity }.
Inductive StateReadbackCapability :=
| Readback_None
| Readback_Readable (facets : list ReadableFacet)
    (read_disturbs_output notifies_external_changes : bool).
Record PhysicalPowerCapability := { ppc_scope : CapabilityScope }.
Inductive PowerDomainRef :=
| PowerDomainRef_Device
| PowerDomainRef_Surface (surface : string).
#[export] Instance PersistenceRequirement_eq : EqDecision PersistenceRequirement.
Proof. solve_decision. Defined.
#[export] Instance PersistenceCapability_eq : EqDecision PersistenceCapability.
Proof. solve_decision. Defined.
#[export] Instance StateFacetKind_eq : EqDecision StateFacetKind.
Proof. solve_decision. Defined.
#[export] Instance ReadbackFidelity_eq : EqDecision ReadbackFidelity.
Proof. solve_decision. Defined.
#[export] Instance ReadableFacet_eq : EqDecision ReadableFacet.
Proof. solve_decision. Defined.
#[export] Instance StateReadbackCapability_eq : EqDecision StateReadbackCapability.
Proof. solve_decision. Defined.
#[export] Instance PhysicalPowerCapability_eq : EqDecision PhysicalPowerCapability.
Proof. solve_decision. Defined.
#[export] Instance PowerDomainRef_eq : EqDecision PowerDomainRef.
Proof. solve_decision. Defined.

Record AppearanceCapability := {
  ac_colour : list ColourCapability;
  ac_cct_emulation : CctEmulation;
  ac_hardware_effects : option HardwareEffectsCapability
}.
Inductive AppearanceSlotUpdatePolicy := Independent | PartialIfKnown | CompleteSet.
Record AppearanceSlotDescriptor := {
  asd_id : AppearanceSlotId;
  asd_name : string;
  asd_appearance : AppearanceCapability;
  asd_persistence : PersistenceCapability;
  asd_notes : list string;
  asd_warnings : list string
}.
Record AppearanceSlotsCapability := {
  asc_slots : list AppearanceSlotDescriptor;
  asc_update_policy : AppearanceSlotUpdatePolicy
}.
#[export] Instance AppearanceCapability_eq : EqDecision AppearanceCapability.
Proof. solve_decision. Defined.
#[export] Instance AppearanceSlotUpdatePolicy_eq : EqDecision AppearanceSlotUpdatePolicy.
Proof. solve_decision. Defined.
#[export] Instance AppearanceSlotDescriptor_eq : EqDecision AppearanceSlotDescriptor.
Proof. solve_decision. Defined.
#[export] Instance AppearanceSlotsCapability_eq : EqDecision AppearanceSlotsCapability.
Proof. solve_decision. Defined.

Record CapabilitySet := {
  cs_colour : list ColourCapability;
  cs_cct_emulation : CctEmulation;
  cs_brightness : BrightnessCapability;
  cs_frame_upload : option FrameUploadCapability;
  cs_hardware_effects : option HardwareEffectsCapability;
  cs_appearance_slots : option AppearanceSlotsCapability;
  cs_persistence : PersistenceCapability;
  cs_state_readback : StateReadbackCapability;
  cs_emission : bool;
  cs_off_is_wear_safe : bool;
  cs_physical_power : option PhysicalPowerCapability;
  cs_power_domain : option PowerDomainRef
}.
#[export] Instance CapabilitySet_eq : EqDecision CapabilitySet.
Proof. solve_decision. Defined.

Definition CapabilitySet_default : CapabilitySet := {|
  cs_colour := [];
  cs_cct_emulation := CctEmulation_Auto;
  cs_brightness := Brightness_None;
  cs_frame_upload := None;
  cs_hardware_effects := None;
  cs_appearance_slots := None;
  cs_persistence := Persistence_None;
  cs_state_readback := Readback_None;
  cs_emission := false;
  cs_off_is_wear_safe := false;
  cs_physical_power := None;
  cs_power_domain := None
|}.

Definition AppearanceCapability_default : AppearanceCapability := {|
  ac_colour := [];
  ac_cct_emulation := CctEmulation_Auto;
  ac_hardware_effects := None
|}.

(** ** Effects: [effect.rs] *)

Record EffectArguments := {
  ea_colours : list Rgb;
  ea_speed : option Z;
  ea_direction : option EffectDirection;
  ea_duration_ms : option Z;
  ea_brightness : option Z;
  ea_choice : option string
}.
#[export] Instance EffectArguments_eq : EqDecision EffectArguments.
Proof. solve_decision. Defined.

Inductive Effect :=
| Effect_Off
| Effect_Static (colour : Colour)
| Effect_Breathe (colour : Rgb) (period_ms : Z)
| Effect_Pulse (colour : Rgb) (period_ms : Z)
| Effect_Strobe (colour : Rgb) (period_ms : Z)
| Effect_Scanner (colour : Rgb) (period_ms : Z)
| Effect_Morph (colours : list Rgb) (period_ms : Z)
| Effect_Spectrum (period_ms : Z)
| Effect_Rainbow (period_ms : Z)
| Effect_Hardware (id : HardwareEffectId) (arguments : EffectArguments).
#[export] Instance Effect_eq : EqDecision Effect.
Proof. solve_decision. Defined.

Definition capability_id (e : Effect) : string :=
  match e with
  | Effect_Off => "off"
  | Effect_Static _ => "static"
  | Effect_Breathe _ _ => "breathe"
  | Effect_Pulse _ _ => "pulse"
  | Effect_Strobe _ _ => "strobe"
  | Effect_Scanner _ _ => "scanner"
  | Effect_Morph _ _ => "morph"
  | Effect_Spectrum _ => "spectrum"
  | Effect_Rainbow _ => "rainbow"
  | Effect_Hardware id _ => HardwareEffectId_as_str id
  end.

Record AppearanceSlotValue := {
  asv_slot : AppearanceSlotId;
  asv_effect : Effect
}.
#[export] Instance AppearanceSlotValue_eq : EqDecision AppearanceSlotValue.
Proof. solve_decision. Defined.

(** ** Observed state: [state.rs] *)

Record AppearanceSlotsState := {
  ass_values : list AppearanceSlotValue;
  ass_complete : bool
}.
Inductive AppearanceState :=
| Appearance_Static (colour : Colour)
| Appearance_Effect (effect : Effect)
| Appearance_Mixed.
Inductive EmissionState := Dark | Emitting.
Inductive PhysicalPowerState := Power_Off | Power_On.
Inductive EffectiveAppearanceState :=
| Effective_Off
| Effective_Static (colour : Colour)
| Effective_Effect (effect : Effect)
| Effective_Streaming
| Effective_Mixed.
Inductive FacetValue :=
| Facet_Appearance (s : AppearanceState)
| Facet_Brightness (level : Z)
| Facet_Emission (s : EmissionState)
| Facet_PhysicalPower (s : PhysicalPowerState)
| Facet_EffectiveAppearance (s : EffectiveAppearanceState)
| Facet_AppearanceSlots (s : AppearanceSlotsState).
Inductive ObservationConfidence := Assumed | BestEffort | Confirmed.
Inductive ObservationSource :=
| Source_SuccessfulApply | Source_Readback | Source_Derived | Source_AdoptedBaseline.
Inductive Reachability := Reach_Unknown | Reach_Reachable | Reach_Unavailable.
Inductive ReconciliationStatus :=
| Recon_Idle | Recon_Reconciling | Recon_Complete | Recon_Drifted | Recon_Failed.
Inductive AdoptionStatus :=
| Adoption_NotApplicable | Adoption_Pending | Adoption_Durable
| Adoption_IneligibleFidelity | Adoption_PersistenceFailed.
#[export] Instance AppearanceSlotsState_eq : EqDecision AppearanceSlotsState.
Proof. solve_decision. Defined.
#[export] Instance AppearanceState_eq : EqDecision AppearanceState.
Proof. solve_decision. Defined.
#[export] Instance EmissionState_eq : EqDecision EmissionState.
Proof. solve_decision. Defined.
#[export] Instance PhysicalPowerState_eq : EqDecision PhysicalPowerState.
Proof. solve_decision. Defined.
#[export] Instance EffectiveAppearanceState_eq : EqDecision EffectiveAppearanceState.
Proof. solve_decision. Defined.
#[export] Instance FacetValue_eq : EqDecision FacetValue.
Proof. solve_decision. Defined.
#[export] Instance ObservationConfidence_eq : EqDecision ObservationConfidence.
Proof. solve_decision. Defined.
#[export] Instance ObservationSource_eq : EqDecision ObservationSource.
Proof. solve_decision. Defined.
#[export] Instance Reachability_eq : EqDecision Reachability.
Proof. solve_decision. Defined.
#[export] Instance ReconciliationStatus_eq : EqDecision ReconciliationStatus.
Proof. solve_decision. Defined.
#[export] Instance AdoptionStatus_eq : EqDecision AdoptionStatus.
Proof. solve_decision. Defined.

Definition FacetValue_kind (v : FacetValue) : StateFacetKind :=
  match v with
  | Facet_Appearance _ => Kind_Appearance
  | Facet_Brightness _ => Kind_Brightness
  | Facet_Emission _ => Kind_Emission
  | Facet_PhysicalPower _ => Kind_PhysicalPower
  | Facet_EffectiveAppearance _ => Kind_EffectiveAppearance
  | Facet_AppearanceSlots _ => Kind_AppearanceSlots
  end.

(** The derived [Ord] of [ObservationConfidence]: weakest to strongest. *)
Definition confidence_rank (c : ObservationConfidence) : nat :=
  match c with Assumed => 0 | BestEffort => 1 | Confirmed => 2 end.

Record FacetObservation := {
  fo_target : TargetId;
  fo_value : FacetValue;
  fo_confidence : ObservationConfidence;
  fo_source : ObservationSource;
  fo_observed_at_ms : Z;
  fo_stale : bool
}.
Record DeviceStateStatus := {
  dss_device : DeviceId;
  dss_observations : list FacetObservation;
  dss_reachability : Reachability;
  dss_reconciliation : ReconciliationStatus;
  dss_adoption : list (TargetId * StateFacetKind * AdoptionStatus);
  dss_latest_error : option string;
  dss_latest_attempt_ms : option Z
}.
Record AggregateAppearanceObservation := {
  aao_value : AppearanceState;
  aao_confidence : ObservationConfidence;
  aao_observed_at_ms : Z;
  aao_stale : bool
}.
Record AggregateEffectiveAppearanceObservation := {
  aeo_value : EffectiveAppearanceState;
  aeo_confidence : ObservationConfidence;
  aeo_observed_at_ms : Z;
  aeo_stale : bool
}.
Record CollectionStateStatus := {
  css_collection : CollectionId;
  css_appearance : option AggregateAppearanceObservation;
  css_effective_appearance : option AggregateEffectiveAppearanceObservation
}.
Record AdoptedFacet := {
  af_target : TargetId;
  af_value : FacetValue;
  af_confirmed_at_ms : Z
}.
#[export] Instance FacetObservation_eq : EqDecision FacetObservation.
Proof. solve_decision. Defined.
#[export] Instance AdoptedFacet_eq : EqDecision AdoptedFacet.
Proof. solve_decision. Defined.

Definition DeviceStateStatus_observation (s : DeviceStateStatus) (target : TargetId)
    (kind : StateFacetKind) : option FacetObservation :=
  snd <$> list_find (λ o, fo_target o = target ∧ FacetValue_kind (fo_value o) = kind)
            (dss_observations s).

(** ** Topology: [element.rs], [surface.rs], [group.rs] and [device.rs] *)

Inductive ElementKind :=
| ElementKind_Key | ElementKind_Led | ElementKind_Zone | ElementKind_Logo
| ElementKind_RingSegment.
Inductive ElementGeometry :=
| Geometry_Rect (x y w h : f32)
| Geometry_Point (x y : f32)
| Geometry_Linear (position : f32)
| Geometry_MatrixCell (row col : Z).
Record Element := {
  element_id : ElementId;
  element_name : option string;
  element_kind : ElementKind;
  element_geometry : option ElementGeometry;
  element_physical_tags : list string;
  element_capabilities : CapabilitySet;
  element_notes : list string;
  element_warnings : list string
}.
Inductive SurfaceKind :=
| SurfaceKind_Opaque
| SurfaceKind_Zone
| SurfaceKind_Linear (length : f32)
| SurfaceKind_Sparse2d (width height : f32)
| SurfaceKind_Matrix (rows cols : Z).
Record Surface := {
  surface_id : SurfaceId;
  surface_name : string;
  surface_kind : SurfaceKind;
  surface_physical_tags : list string;
  surface_elements : list Element;
  surface_capabilities : CapabilitySet;
  surface_notes : list string;
  surface_warnings : list string
}.
Inductive GroupKind :=
| GroupKind_BuiltIn | GroupKind_Topology | GroupKind_Driver | GroupKind_User
| GroupKind_Application.
Inductive GroupMember :=
| GroupMember_Surface (surface : SurfaceId)
| GroupMember_Element (surface : SurfaceId) (element : ElementId)
| GroupMember_Group (group : GroupId).
Record Group := {
  group_id : GroupId;
  group_name : string;
  group_description : option string;
  group_kind : GroupKind;
  group_members : list GroupMember;
  group_capabilities : CapabilitySet;
  group_notes : list string;
  group_warnings : list string
}.
Record Device := {
  device_id : DeviceId;
  device_name : string;
  device_vendor : option string;
  device_model : option string;
  device_provider_instance : option string;
  device_surfaces : list Surface;
  device_groups : list Group;
  device_capabilities : CapabilitySet;
  device_category : option DeviceCategory;
  device_physical_tags : list string;
  device_host_attached : bool;
  device_notes : list string;
  device_warnings : list string
}.
#[export] Instance GroupMember_eq : EqDecision GroupMember.
Proof. solve_decision. Defined.

(** ** Control types: [control.rs] *)

Inductive ReconciliationPolicy := Policy_Restore | Policy_Adopt | Policy_Leave.
Inductive UnsupportedPolicy := Unsupported_Skip | Unsupported_Reject.
Inductive Selector :=
| Selector_Target (target : TargetId)
| Selector_Collection (collection : CollectionId)
| Selector_Targets (targets : list TargetId).
#[export] Instance ReconciliationPolicy_eq : EqDecision ReconciliationPolicy.
Proof. solve_decision. Defined.

(** ** Frames: [frame.rs] *)

Inductive FramePayload :=
| Payload_Full (pixels : list Colour)
| Payload_Partial (pixels : list (Z * Colour)).
Record FrameEnvelope := {
  fe_generation : Z;
  fe_sequence : Z;
  fe_payload : FramePayload;
  fe_commit : bool
}.

(** ** Collections: the types of [collection.rs] *)

Record PrincipalId := PrincipalId_mk {
  PrincipalId_authority : string;
  PrincipalId_subject : string
}.
Inductive OwnerIdentity :=
| Owner_Uid (uid : Z)
| Owner_Sid (sid : string)
| Owner_Principal (principal : PrincipalId).
Inductive CollectionMember :=
| Member_Target (target : TargetId)
| Member_Collection (collection : CollectionId).
Record Collection := {
  collection_id : CollectionId;
  collection_name : string;
  collection_description : option string;
  collection_owner : OwnerIdentity;
  collection_kind : option CollectionCategory;
  collection_members : list CollectionMember
}.
#[export] Instance PrincipalId_eq : EqDecision PrincipalId.
Proof. solve_decision. Defined.
#[export] Program Instance PrincipalId_countable : Countable PrincipalId :=
  inj_countable' (λ p, (PrincipalId_authority p, PrincipalId_subject p))
    (λ p, PrincipalId_mk p.1 p.2) _.
Solve Obligations with by intros [].
#[export] Instance OwnerIdentity_eq : EqDecision OwnerIdentity.
Proof. solve_decision. Defined.
#[export] Instance CollectionMember_eq : EqDecision CollectionMember.
Proof. solve_decision. Defined.
#[export] Instance Collection_eq : EqDecision Collection.
Proof. solve_decision. Defined.

(** The record update [collection.members = members]. *)
Definition with_members (c : Collection) (members : list CollectionMember) : Collection := {|
  collection_id := collection_id c;
  collection_name := collection_name c;
  collection_description := collection_description c;
  collection_owner := collection_owner c;
  collection_kind := collection_kind c;
  collection_members := members
|}.

(** ** Target construction *)

(** [from_parts] succeeds on exactly the four well-formed component
    combinations, and the target it builds belongs to the named device. *)
Lemma from_parts_Ok device surface element group t :
  TargetId_from_parts device surface element group = Ok t ↔
  match t with
  | TargetId_Device _ => surface = None ∧ element = None ∧ group = None
  | TargetId_Surface _ s => surface = Some (SurfaceId_as_str s) ∧ element = None ∧ group = None
  | TargetId_Element _ s e =>
      surface = Some (SurfaceId_as_str s) ∧ element = Some (ElementId_as_str e) ∧ group = None
  | TargetId_Group _ g => surface = None ∧ element = None ∧ group = Some (GroupId_as_str g)
  end ∧ TargetId_device_id t = DeviceId_new device.
Proof.
  unfold TargetId_from_parts.
  destruct surface as [s|], element as [e|], group as [g|]; simpl;
    destruct t as [d|d [s']|d [s'] [e']|d [g']]; simpl; naive_solver.
Qed.
