(* ===== verification/Colours.v ===== *)
(** * Colour values: [luminate-core/src/colour.rs]

    The colour constructors, the structural validation of additive colours,
    channel lookup and the lowering to 8-bit RGB. *)

From S2P Require Import Prelude Model.

Inductive ColourError :=
| EmptyAdditive
| DuplicateAdditiveChannel (channel : ColourChannel)
| NonAdditiveChannel (channel : ColourChannel).

Inductive Rgb8Error :=
| Rgb8_NonAdditive (encoding : ColourEncoding)
| Rgb8_MissingChannel (channel : ColourChannel)
| Rgb8_ChannelOutOfRange (channel : ColourChannel) (value : Z).

#[export] Instance ColourError_eq : EqDecision ColourError.
Proof. solve_decision. Defined.
#[export] Instance Rgb8Error_eq : EqDecision Rgb8Error.
Proof. solve_decision. Defined.

Definition Colour_encoding (c : Colour) : ColourEncoding :=
  match c with
  | Colour_Additive _ => ColourEncoding_Additive
  | Colour_Hsv _ _ _ => ColourEncoding_Hsv
  | Colour_Hsl _ _ _ => ColourEncoding_Hsl
  | Colour_Cct _ => ColourEncoding_Cct
  | Colour_Monochrome _ => ColourEncoding_Monochrome
  end.

Definition Colour_rgb (rgb : Rgb) : Colour :=
  Colour_Additive
    [ColourChannelValue_new Red (rgb_r rgb);
     ColourChannelValue_new Green (rgb_g rgb);
     ColourChannelValue_new Blue (rgb_b rgb)].

(** One iteration of the loop of [validate_additive], on the set [seen]. *)
Definition validate_additive_step (seen : gset ColourChannel) (value : ColourChannelValue) :
    result ColourError (gset ColourChannel) :=
  if negb (is_additive (ccv_channel value)) then Err (NonAdditiveChannel (ccv_channel value))
  else if bool_decide (ccv_channel value ∈ seen)
  then Err (DuplicateAdditiveChannel (ccv_channel value))
  else Ok ({[ccv_channel value]} ∪ seen).

Definition validate_additive (channels : list ColourChannelValue) : result ColourError unit :=
  match channels with
  | [] => Err EmptyAdditive
  | _ => _ ← try_fold validate_additive_step ∅ channels; Ok tt
  end.

Definition Colour_additive (channels : list ColourChannelValue) : result ColourError Colour :=
  _ ← validate_additive channels; Ok (Colour_Additive channels).

Definition is_dark (c : Colour) : bool :=
  match c with
  | Colour_Additive channels => forallb (λ v, (ccv_value v =? 0)%Z) channels
  | Colour_Hsv _ _ value => (value =? 0)%Z
  | Colour_Hsl _ _ lightness => (lightness =? 0)%Z
  | Colour_Cct _ => false
  | Colour_Monochrome intensity => (intensity =? 0)%Z
  end.

Definition Colour_channel (c : Colour) (wanted : ColourChannel) : option Z :=
  match c with
  | Colour_Additive channels =>
      (λ p, ccv_value p.2) <$> list_find (λ v, ccv_channel v = wanted) channels
  | Colour_Hsv hue saturation value =>
      match wanted with
      | Hue => Some hue | Saturation => Some saturation | Value => Some value
      | _ => None
      end
  | Colour_Hsl hue saturation lightness =>
      match wanted with
      | Hue => Some hue | Saturation => Some saturation | Lightness => Some lightness
      | _ => None
      end
  | Colour_Cct kelvin => if decide (wanted = Temperature) then Some kelvin else None
  | Colour_Monochrome intensity => if decide (wanted = Intensity) then Some intensity else None
  end.

(** The closure [channel] of [try_as_rgb]: lookup, then [u8::try_from]. *)
Definition rgb8_channel (c : Colour) (wanted : ColourChannel) : result Rgb8Error Z :=
  value ← ok_or (Colour_channel c wanted) (Rgb8_MissingChannel wanted);
  ok_or (checkU 8 value) (Rgb8_ChannelOutOfRange wanted value).

Definition try_as_rgb (c : Colour) : result Rgb8Error Rgb :=
  match c with
  | Colour_Additive _ =>
      r ← rgb8_channel c Red;
      g ← rgb8_channel c Green;
      b ← rgb8_channel c Blue;
      Ok (Rgb_new r g b)
  | _ => Err (Rgb8_NonAdditive (Colour_encoding c))
  end.

Definition as_rgb (c : Colour) : option Rgb := to_option (try_as_rgb c).

(** The checking half of [Colour::deserialize]: a decoded [Repr], which has the
    same variants, is rebuilt through the constructors. *)
Definition Colour_of_repr (repr : Colour) : result ColourError Colour :=
  match repr with
  | Colour_Additive channels => Colour_additive channels
  | _ => Ok repr
  end.

(** ** Well-formed colours *)

(** What [validate_additive] promises of a channel list. *)
Definition additive_wf (channels : list ColourChannelValue) : Prop :=
  channels ≠ [] ∧
  Forall (λ v, is_additive (ccv_channel v) = true) channels ∧
  NoDup (ccv_channel <$> channels).

Definition Colour_wf (c : Colour) : Prop :=
  match c with Colour_Additive channels => additive_wf channels | _ => True end.

Definition Rgb_wf (c : Rgb) : Prop := u8 (rgb_r c) ∧ u8 (rgb_g c) ∧ u8 (rgb_b c).

Lemma validate_additive_step_Ok s v s' :
  validate_additive_step s v = Ok s' ↔
  is_additive (ccv_channel v) = true ∧ ccv_channel v ∉ s ∧ s' = {[ccv_channel v]} ∪ s.
Proof.
  unfold validate_additive_step.
  destruct (is_additive _); simpl; [|naive_solver].
  case_bool_decide; naive_solver.
Qed.

Lemma validate_additive_Ok channels :
  validate_additive channels = Ok tt ↔ additive_wf channels.
Proof.
  unfold validate_additive, additive_wf. destruct channels as [|v vs]; [naive_solver|].
  rewrite <-(try_fold_seen_empty ccv_channel _ _ validate_additive_step_Ok).
  rewrite bind_Ok. naive_solver.
Qed.

Lemma Colour_additive_Ok channels c :
  Colour_additive channels = Ok c ↔ c = Colour_Additive channels ∧ additive_wf channels.
Proof.
  unfold Colour_additive. rewrite bind_unit_Ok, validate_additive_Ok. naive_solver.
Qed.

(** With distinct channels, lookup by [find] is exact. *)
Lemma Colour_channel_additive channels wanted v :
  NoDup (ccv_channel <$> channels) →
  Colour_channel (Colour_Additive channels) wanted = Some v ↔
  ColourChannelValue_new wanted v ∈ channels.
Proof.
  intros Hnd. simpl. split.
  - intros ([i [w x]] & (Hi & <- & _)%list_find_Some & ->)%fmap_Some.
    by apply list_elem_of_lookup_2 in Hi.
  - intros Hin. pose proof (list_find_elem_of (λ v, ccv_channel v = wanted) _ _ Hin eq_refl)
      as [[i [w x]] Hf]. rewrite Hf. simpl.
    apply list_find_Some in Hf as (Hi & Hw & _). simpl in Hw. subst w.
    apply list_elem_of_lookup_1 in Hin as [j Hj]. f_equal.
    assert (i = j) as ->; [|by rewrite Hi in Hj; injection Hj].
    eapply (NoDup_lookup _ _ _ wanted Hnd); rewrite list_lookup_fmap;
      [by rewrite Hi | by rewrite Hj].
Qed.

Lemma rgb8_channel_Ok c wanted b :
  rgb8_channel c wanted = Ok b ↔ Colour_channel c wanted = Some b ∧ u8 b.
Proof.
  unfold rgb8_channel. rewrite bind_Ok. setoid_rewrite ok_or_Ok.
  setoid_rewrite checkU_Some. naive_solver.
Qed.

Lemma Colour_rgb_wf rgb : Colour_wf (Colour_rgb rgb).
Proof.
  repeat split; [done|repeat constructor|].
  simpl. repeat constructor; set_solver.
Qed.

Lemma try_as_rgb_Ok c rgb :
  Colour_wf c →
  try_as_rgb c = Ok rgb ↔
  Rgb_wf rgb ∧ ∃ channels, c = Colour_Additive channels ∧
    ColourChannelValue_new Red (rgb_r rgb) ∈ channels ∧
    ColourChannelValue_new Green (rgb_g rgb) ∈ channels ∧
    ColourChannelValue_new Blue (rgb_b rgb) ∈ channels.
Proof.
  destruct c as [channels| | | |]; simpl; try naive_solver.
  intros (_ & _ & Hnd). split.
  - intros H. res_inv.
    repeat match goal with H : rgb8_channel _ _ = Ok _ |- _ =>
      apply rgb8_channel_Ok in H as [?%(Colour_channel_additive _ _ _ Hnd) ?] end.
    split; [done|]. by exists channels.
  - intros ((? & ? & ?) & ? & [= <-] & Hr & Hg & Hb).
    apply (Colour_channel_additive _ _ _ Hnd) in Hr, Hg, Hb.
    rewrite (proj2 (rgb8_channel_Ok _ Red _)) by eauto.
    rewrite (proj2 (rgb8_channel_Ok _ Green _)) by eauto.
    rewrite (proj2 (rgb8_channel_Ok _ Blue _)) by eauto.
    by destruct rgb.
Qed.

(** ** Claims *)

(** Construction and decoding of an additive colour succeed exactly on a
    non-empty list of additive emitters without repetition, and give back that
    list unchanged; every other colour model is accepted as it is. *)
Theorem colour_of_repr_correct repr c :
  Colour_of_repr repr = Ok c ↔ c = repr ∧ Colour_wf repr.
Proof.
  destruct repr; simpl; try naive_solver. apply Colour_additive_Ok.
Qed.

(** Lowering to 8-bit RGB inverts the construction from RGB, and it succeeds
    on exactly the additive colours that carry the three emitters at values of
    at most 255, whatever other emitters they have. *)
Theorem try_as_rgb_correct c :
  Colour_wf c →
  (∀ rgb, try_as_rgb c = Ok rgb ↔
     Rgb_wf rgb ∧ ∃ channels, c = Colour_Additive channels ∧
       ColourChannelValue_new Red (rgb_r rgb) ∈ channels ∧
       ColourChannelValue_new Green (rgb_g rgb) ∈ channels ∧
       ColourChannelValue_new Blue (rgb_b rgb) ∈ channels) ∧
  (∀ rgb, Rgb_wf rgb → c = Colour_rgb rgb → as_rgb c = Some rgb).
Proof.
  intros Hwf. split; [by intros; apply try_as_rgb_Ok|].
  intros rgb Hrgb Hc. unfold as_rgb.
  assert (try_as_rgb c = Ok rgb) as ->; [|done].
  apply try_as_rgb_Ok; [done|]. split; [done|]. eexists. split; [exact Hc|].
  rewrite !elem_of_cons. naive_solver.
Qed.

Lemma try_as_rgb_correct_witness :
  as_rgb (Colour_rgb (Rgb_new 12 255 0)) = Some (Rgb_new 12 255 0).
Proof.
  apply (proj2 (try_as_rgb_correct (Colour_rgb (Rgb_new 12 255 0)) (Colour_rgb_wf _)));
    [|reflexivity].
  unfold Rgb_wf; simpl; width.
Defined.
