(* ===== verification/ShmFrame.v ===== *)
(** * Shared-memory frames: [luminate-core/src/shm_frame.rs]

    The fixed-stride pixel formats, the two wire headers of the shared-memory
    fast path and the validation of a client-published sample.  A byte buffer
    is a [list Z] of [u8] values, [usize] is an unsigned integer of
    [usize_bits] bits, a parameter of the target platform. *)

From S2P Require Import Prelude Model Colours.

(** ** Slices *)

(** [slice.split_at(n)], only used where [n <= len]. *)
Definition split_at {A} (n : nat) (l : list A) : list A * list A := (take n l, drop n l).

(** [slice.get(..n)] *)
Definition get_to {A} (n : nat) (l : list A) : option (list A) :=
  if decide (n ≤ length l) then Some (take n l) else None.

(** [for (slot, value) in out.iter_mut().zip(bytes) { *slot = *value }] *)
Fixpoint zip_write {A} (out bytes : list A) : list A :=
  match out, bytes with
  | _ :: out, b :: bytes => b :: zip_write out bytes
  | out, _ => out
  end.

(** ** Pixel formats *)

Inductive ShmPixelFormatError :=
| EncodingMismatch (expected found : ColourEncoding)
| MissingChannel (channel : ColourChannel)
| BufferLength (expected found : nat).

Definition bytes_per_pixel (f : ShmPixelFormat) : nat :=
  match f with Rgb8 => 3 | Rgbw8 | Rgbx8 => 4 | Mono8 => 1 end.

Definition format_encoding (f : ShmPixelFormat) : ColourEncoding :=
  match f with
  | Rgb8 | Rgbw8 | Rgbx8 => ColourEncoding_Additive
  | Mono8 => ColourEncoding_Monochrome
  end.

Definition to_abi (f : ShmPixelFormat) : Z :=
  match f with Rgb8 => 0 | Rgbw8 => 1 | Mono8 => 2 | Rgbx8 => 3 end.

Definition from_abi (value : Z) : option ShmPixelFormat :=
  match value with
  | 0 => Some Rgb8 | 1 => Some Rgbw8 | 2 => Some Mono8 | 3 => Some Rgbx8
  | _ => None
  end%Z.

(** [u8::try_from(v).unwrap_or(u8::MAX)] *)
Definition clamp_u8 (v : Z) : Z := default (uN_max 8) (checkU 8 v).

(** The closure [channel_byte] of [pack]. *)
Definition channel_byte (colour : Colour) (channel : ColourChannel) :
    result ShmPixelFormatError Z :=
  match colour with
  | Colour_Additive channels =>
      ok_or ((λ p, clamp_u8 (ccv_value p.2)) <$>
               list_find (λ v, ccv_channel v = channel) channels)
            (MissingChannel channel)
  | Colour_Monochrome intensity =>
      if decide (channel = Intensity) then Ok (clamp_u8 intensity)
      else Err (MissingChannel channel)
  | _ => Err (MissingChannel channel)
  end.

(** The four-byte scratch buffer assembled by [pack]. *)
Definition pack_scratch (f : ShmPixelFormat) (colour : Colour) :
    result ShmPixelFormatError (list Z) :=
  match f with
  | Rgb8 | Rgbx8 =>
      r ← channel_byte colour Red; g ← channel_byte colour Green;
      b ← channel_byte colour Blue; Ok [r; g; b; 0%Z]
  | Rgbw8 =>
      r ← channel_byte colour Red; g ← channel_byte colour Green;
      b ← channel_byte colour Blue; w ← channel_byte colour White; Ok [r; g; b; w]
  | Mono8 => i ← channel_byte colour Intensity; Ok [i; 0%Z; 0%Z; 0%Z]
  end.

(** [pack] answers the buffer [out] as it leaves it. *)
Definition pack (f : ShmPixelFormat) (colour : Colour) (out : list Z) :
    result ShmPixelFormatError (list Z) :=
  if negb (bool_decide (length out = bytes_per_pixel f))
  then Err (BufferLength (bytes_per_pixel f) (length out))
  else if negb (bool_decide (Colour_encoding colour = format_encoding f))
  then Err (EncodingMismatch (format_encoding f) (Colour_encoding colour))
  else bytes ← pack_scratch f colour; Ok (zip_write out bytes).

Definition unpack_channels (f : ShmPixelFormat) (byte : nat → Z) : list ColourChannelValue :=
  match f with
  | Rgb8 | Rgbx8 =>
      [ColourChannelValue_new Red (byte 0); ColourChannelValue_new Green (byte 1);
       ColourChannelValue_new Blue (byte 2)]
  | Rgbw8 =>
      [ColourChannelValue_new Red (byte 0); ColourChannelValue_new Green (byte 1);
       ColourChannelValue_new Blue (byte 2); ColourChannelValue_new White (byte 3)]
  | Mono8 => [ColourChannelValue_new Intensity (byte 0)]
  end.

Definition unpack (f : ShmPixelFormat) (bytes : list Z) : Colour :=
  let byte := λ index, default 0%Z (bytes !! index) in
  match f with
  | Mono8 => Colour_Monochrome (byte 0)
  | Rgb8 | Rgbw8 | Rgbx8 =>
      match Colour_additive (unpack_channels f byte) with
      | Ok c => c
      | Err _ => Colour_rgb (Rgb_new 0 0 0)
      end
  end.

(** ** The daemon-to-plugin-host header *)

Definition SHM_FRAME_HEADER_VERSION : Z := 1.
Definition COMMIT_FLAG : Z := 1.

Record ShmFrameHeader := {
  fh_sequence : Z;
  fh_generation : Z;
  fh_pixel_count : Z;
  fh_pixel_format : Z;
  fh_header_version : Z;
  fh_flags : Z;
  fh_reserved : Z
}.

(** [flags & FLAG != 0] *)
Definition flag_set (flag flags : Z) : bool := negb (Z.land flags flag =? 0)%Z.
(** [flags |= FLAG], [flags &= !FLAG]; [!] is the complement of a [u8]. *)
Definition set_flag (flag flags : Z) (on : bool) : Z :=
  if on then Z.lor flags flag else Z.land flags (Z.lxor (uN_max 8) flag).

Definition ShmFrameHeader_commit (h : ShmFrameHeader) : bool := flag_set COMMIT_FLAG (fh_flags h).

Definition ShmFrameHeader_with_commit (h : ShmFrameHeader) (commit : bool) : ShmFrameHeader := {|
  fh_sequence := fh_sequence h;
  fh_generation := fh_generation h;
  fh_pixel_count := fh_pixel_count h;
  fh_pixel_format := fh_pixel_format h;
  fh_header_version := fh_header_version h;
  fh_flags := set_flag COMMIT_FLAG (fh_flags h) commit;
  fh_reserved := fh_reserved h
|}.

Definition ShmFrameHeader_to_bytes (h : ShmFrameHeader) : list Z :=
  le_bytes 8 (fh_sequence h) ++ le_bytes 4 (fh_generation h) ++
  le_bytes 4 (fh_pixel_count h) ++ le_bytes 4 (fh_pixel_format h) ++
  le_bytes 2 (fh_header_version h) ++ [fh_flags h] ++ [fh_reserved h].

Definition ShmFrameHeader_from_bytes (bytes : list Z) : option ShmFrameHeader :=
  bytes ← get_to 24 bytes;
  let '(sequence, rest) := split_at 8 bytes in
  let '(generation, rest) := split_at 4 rest in
  let '(pixel_count, rest) := split_at 4 rest in
  let '(pixel_format, rest) := split_at 4 rest in
  let '(header_version, rest) := split_at 2 rest in
  let '(flags, reserved) := split_at 1 rest in
  sequence ← le_field 8 sequence;
  generation ← le_field 4 generation;
  pixel_count ← le_field 4 pixel_count;
  pixel_format ← le_field 4 pixel_format;
  header_version ← le_field 2 header_version;
  flags ← head flags;
  reserved ← head reserved;
  Some {| fh_sequence := sequence; fh_generation := generation;
          fh_pixel_count := pixel_count; fh_pixel_format := pixel_format;
          fh_header_version := header_version; fh_flags := flags;
          fh_reserved := reserved |}.

(** ** The client-to-daemon header *)

Definition SHM_CLIENT_FRAME_HEADER_VERSION : Z := 1.
Definition SHM_CLIENT_FRAME_HEADER_LEN : nat := 32.
Definition CLIENT_COMMIT_FLAG : Z := 1.
Definition CLIENT_KNOWN_FLAGS : Z := CLIENT_COMMIT_FLAG.

Record ShmClientFrameHeader := {
  ch_sequence : Z;
  ch_generation : Z;
  ch_pixel_count : Z;
  ch_pixel_format : Z;
  ch_header_version : Z;
  ch_flags : Z;
  ch_reserved : Z;
  ch_stream_nonce : Z
}.

Definition ShmClientFrameHeader_commit (h : ShmClientFrameHeader) : bool :=
  flag_set CLIENT_COMMIT_FLAG (ch_flags h).

Definition ShmClientFrameHeader_with_commit (h : ShmClientFrameHeader) (commit : bool) :
    ShmClientFrameHeader := {|
  ch_sequence := ch_sequence h;
  ch_generation := ch_generation h;
  ch_pixel_count := ch_pixel_count h;
  ch_pixel_format := ch_pixel_format h;
  ch_header_version := ch_header_version h;
  ch_flags := set_flag CLIENT_COMMIT_FLAG (ch_flags h) commit;
  ch_reserved := ch_reserved h;
  ch_stream_nonce := ch_stream_nonce h
|}.

Definition ShmClientFrameHeader_to_bytes (h : ShmClientFrameHeader) : list Z :=
  le_bytes 8 (ch_sequence h) ++ le_bytes 4 (ch_generation h) ++
  le_bytes 4 (ch_pixel_count h) ++ le_bytes 4 (ch_pixel_format h) ++
  le_bytes 2 (ch_header_version h) ++ [ch_flags h] ++ [ch_reserved h] ++
  le_bytes 8 (ch_stream_nonce h).

Definition ShmClientFrameHeader_from_bytes (bytes : list Z) : option ShmClientFrameHeader :=
  bytes ← get_to SHM_CLIENT_FRAME_HEADER_LEN bytes;
  let '(sequence, rest) := split_at 8 bytes in
  let '(generation, rest) := split_at 4 rest in
  let '(pixel_count, rest) := split_at 4 rest in
  let '(pixel_format, rest) := split_at 4 rest in
  let '(header_version, rest) := split_at 2 rest in
  let '(flags, rest) := split_at 1 rest in
  let '(reserved, stream_nonce) := split_at 1 rest in
  sequence ← le_field 8 sequence;
  generation ← le_field 4 generation;
  pixel_count ← le_field 4 pixel_count;
  pixel_format ← le_field 4 pixel_format;
  header_version ← le_field 2 header_version;
  flags ← head flags;
  reserved ← head reserved;
  stream_nonce ← le_field 8 stream_nonce;
  Some {| ch_sequence := sequence; ch_generation := generation;
          ch_pixel_count := pixel_count; ch_pixel_format := pixel_format;
          ch_header_version := header_version; ch_flags := flags;
          ch_reserved := reserved; ch_stream_nonce := stream_nonce |}.

Inductive ShmClientFrameError :=
| TruncatedHeader
| UnsupportedHeaderVersion (found : Z)
| UnknownPixelFormat (found : Z)
| UnrecognizedFlags (found : Z)
| PixelCountOverflow (pixel_count : Z) (bytes_per_pixel : nat)
| PayloadLengthMismatch (expected : Z) (found : nat).

Definition parse (usize_bits : Z) (sample payload : list Z) :
    result ShmClientFrameError (ShmClientFrameHeader * ShmPixelFormat) :=
  header ← ok_or (ShmClientFrameHeader_from_bytes sample) TruncatedHeader;
  if negb (ch_header_version header =? SHM_CLIENT_FRAME_HEADER_VERSION)%Z
  then Err (UnsupportedHeaderVersion (ch_header_version header))
  else if negb (Z.land (ch_flags header) (Z.lxor (uN_max 8) CLIENT_KNOWN_FLAGS) =? 0)%Z
  then Err (UnrecognizedFlags (ch_flags header))
  else
    format ← ok_or (from_abi (ch_pixel_format header))
                   (UnknownPixelFormat (ch_pixel_format header));
    let stride := bytes_per_pixel format in
    expected_len ←
      ok_or (count ← checkU usize_bits (ch_pixel_count header);
             checkU usize_bits (count * Z.of_nat stride))
            (PixelCountOverflow (ch_pixel_count header) stride);
    if negb (Z.of_nat (length payload) =? expected_len)%Z
    then Err (PayloadLengthMismatch expected_len (length payload))
    else Ok (header, format).

(** ** Slicing and field lemmas *)

Lemma split_at_app {A} n (a b : list A) : length a = n → split_at n (a ++ b) = (a, b).
Proof. intros <-. unfold split_at. by rewrite take_app_length, drop_app_length. Qed.

Lemma get_to_app {A} n (a b : list A) : length a = n → get_to n (a ++ b) = Some a.
Proof.
  intros <-. unfold get_to. rewrite decide_True by (rewrite length_app; lia).
  by rewrite take_app_length.
Qed.

Lemma get_to_None {A} n (l : list A) : get_to n l = None ↔ length l < n.
Proof. unfold get_to. case_decide; split; intros; done || lia. Qed.

Lemma get_to_Some {A} n (l k : list A) :
  get_to n l = Some k ↔ n ≤ length l ∧ k = take n l.
Proof. unfold get_to. case_decide; naive_solver. Qed.

Lemma head_length_1 {A} (l : list A) : length l = 1 → ∃ x, l = [x] ∧ head l = Some x.
Proof. destruct l as [|x [|]]; naive_solver. Qed.

(** Read one field of [n] bytes off the front of a long enough byte string. *)
Lemma le_field_take n bs :
  Forall u8 bs → n ≤ length bs →
  ∃ z, le_field n (take n bs) = Some z ∧ uN (8 * Z.of_nat n) z ∧ le_bytes n z = take n bs.
Proof.
  intros Hbs Hn. assert (le_field n (take n bs) = Some (from_le (take n bs))) as Hf.
  { unfold le_field. rewrite decide_True; [done|]. rewrite length_take. lia. }
  exists (from_le (take n bs)). split; [done|].
  apply (le_field_Some n (take n bs)); [|done]. by apply Forall_take.
Qed.

Lemma byte_take bs :
  Forall u8 bs → 1 ≤ length bs → ∃ z, head (take 1 bs) = Some z ∧ u8 z ∧ [z] = take 1 bs.
Proof.
  intros Hbs Hn. destruct bs as [|b bs]; simpl in *; [lia|].
  exists b. by apply Forall_cons in Hbs as [? _].
Qed.

(** Evaluate a decoder on a byte string that starts with encoded fields. *)
Ltac decode_fields :=
  repeat first
    [ rewrite (split_at_app _ (le_bytes _ _)) by apply le_bytes_length
    | rewrite (split_at_app 1 [_]) by reflexivity
    | rewrite le_field_bytes by assumption
    | progress cbn [mbind option_bind head] ].

(** Read the fields of a decoder off a byte string of known length. *)
Ltac next_field z :=
  match goal with
  | |- context [le_field ?n (take ?n ?bs)] =>
      let H := fresh "H" z in
      destruct (le_field_take n bs) as (z & H & ? & ?);
      [by repeat apply Forall_drop | rewrite ?length_drop; lia |];
      rewrite H; cbn [mbind option_bind]
  | |- context [head (take 1 ?bs)] =>
      let H := fresh "H" z in
      destruct (byte_take bs) as (z & H & ? & ?);
      [by repeat apply Forall_drop | rewrite ?length_drop; lia |];
      rewrite H; cbn [mbind option_bind]
  end.

(** ** Header round trips *)

Definition ShmFrameHeader_wf (h : ShmFrameHeader) : Prop :=
  u64 (fh_sequence h) ∧ u32 (fh_generation h) ∧ u32 (fh_pixel_count h) ∧
  u32 (fh_pixel_format h) ∧ u16 (fh_header_version h) ∧ u8 (fh_flags h) ∧ u8 (fh_reserved h).

Definition ShmClientFrameHeader_wf (h : ShmClientFrameHeader) : Prop :=
  u64 (ch_sequence h) ∧ u32 (ch_generation h) ∧ u32 (ch_pixel_count h) ∧
  u32 (ch_pixel_format h) ∧ u16 (ch_header_version h) ∧ u8 (ch_flags h) ∧
  u8 (ch_reserved h) ∧ u64 (ch_stream_nonce h).

Lemma ShmFrameHeader_to_bytes_length h : length (ShmFrameHeader_to_bytes h) = 24.
Proof. unfold ShmFrameHeader_to_bytes. rewrite !length_app, !le_bytes_length. done. Qed.

Lemma ShmClientFrameHeader_to_bytes_length h :
  length (ShmClientFrameHeader_to_bytes h) = SHM_CLIENT_FRAME_HEADER_LEN.
Proof. unfold ShmClientFrameHeader_to_bytes. rewrite !length_app, !le_bytes_length. done. Qed.

Lemma ShmFrameHeader_decode_encode h rest :
  ShmFrameHeader_wf h →
  ShmFrameHeader_from_bytes (ShmFrameHeader_to_bytes h ++ rest) = Some h.
Proof.
  intros (? & ? & ? & ? & ? & ? & ?). unfold ShmFrameHeader_from_bytes.
  rewrite get_to_app by apply ShmFrameHeader_to_bytes_length.
  unfold ShmFrameHeader_to_bytes. decode_fields. by destruct h.
Qed.

Lemma ShmClientFrameHeader_decode_encode h rest :
  ShmClientFrameHeader_wf h →
  ShmClientFrameHeader_from_bytes (ShmClientFrameHeader_to_bytes h ++ rest) = Some h.
Proof.
  intros (? & ? & ? & ? & ? & ? & ? & ?). unfold ShmClientFrameHeader_from_bytes.
  rewrite get_to_app by apply ShmClientFrameHeader_to_bytes_length.
  unfold ShmClientFrameHeader_to_bytes. decode_fields.
  replace (le_field 8 _) with (Some (ch_stream_nonce h)) by (by rewrite le_field_bytes).
  by destruct h.
Qed.

Lemma ShmFrameHeader_encode_decode bs :
  Forall u8 bs → 24 ≤ length bs →
  ∃ h, ShmFrameHeader_from_bytes bs = Some h ∧ ShmFrameHeader_wf h ∧
       ShmFrameHeader_to_bytes h = take 24 bs.
Proof.
  intros Hbs Hlen. unfold ShmFrameHeader_from_bytes, get_to. rewrite decide_True by done.
  apply (Forall_take _ 24) in Hbs. assert (length (take 24 bs) = 24) as Hl
    by (rewrite length_take; lia).
  revert Hbs Hl. generalize (take 24 bs). clear. intros l Hbs Hl.
  cbn [mbind option_bind]. unfold split_at.
  rewrite <-(take_ge (drop 1 _) 1) by (rewrite !length_drop; lia).
  next_field sequence. next_field generation. next_field pixel_count.
  next_field pixel_format. next_field header_version. next_field flags. next_field reserved.
  eexists. split; [done|]. split; [unfold ShmFrameHeader_wf; cbn; split_and!; assumption|].
  unfold ShmFrameHeader_to_bytes; cbn [fh_sequence fh_generation fh_pixel_count
    fh_pixel_format fh_header_version fh_flags fh_reserved].
  repeat match goal with H : _ = take _ _ |- _ => rewrite H; clear H end.
  rewrite (take_ge (drop 1 _)) by (rewrite !length_drop; lia). by rewrite !take_drop.
Qed.

Lemma ShmClientFrameHeader_encode_decode bs :
  Forall u8 bs → SHM_CLIENT_FRAME_HEADER_LEN ≤ length bs →
  ∃ h, ShmClientFrameHeader_from_bytes bs = Some h ∧ ShmClientFrameHeader_wf h ∧
       ShmClientFrameHeader_to_bytes h = take SHM_CLIENT_FRAME_HEADER_LEN bs.
Proof.
  unfold SHM_CLIENT_FRAME_HEADER_LEN. intros Hbs Hlen.
  unfold ShmClientFrameHeader_from_bytes, get_to. rewrite decide_True by done.
  apply (Forall_take _ 32) in Hbs. assert (length (take 32 bs) = 32) as Hl
    by (rewrite length_take; lia).
  revert Hbs Hl. change SHM_CLIENT_FRAME_HEADER_LEN with 32.
  generalize (take 32 bs). clear. intros l Hbs Hl.
  cbn [mbind option_bind]. unfold split_at.
  rewrite <-(take_ge (drop 1 (drop 1 _)) 8) by (rewrite !length_drop; lia).
  next_field sequence. next_field generation. next_field pixel_count.
  next_field pixel_format. next_field header_version. next_field flags. next_field reserved.
  next_field stream_nonce.
  eexists. split; [done|]. split; [unfold ShmClientFrameHeader_wf; cbn; split_and!; assumption|].
  unfold ShmClientFrameHeader_to_bytes; cbn [ch_sequence ch_generation ch_pixel_count
    ch_pixel_format ch_header_version ch_flags ch_reserved ch_stream_nonce].
  repeat match goal with H : _ = take _ _ |- _ => rewrite H; clear H end.
  rewrite (take_ge (drop 1 (drop 1 _))) by (rewrite !length_drop; lia). by rewrite !take_drop.
Qed.

Lemma ShmFrameHeader_from_bytes_None bs :
  Forall u8 bs → ShmFrameHeader_from_bytes bs = None ↔ length bs < 24.
Proof.
  intros Hbs. split; intros H.
  - destruct (decide (24 ≤ length bs)) as [Hl|]; [|lia].
    destruct (ShmFrameHeader_encode_decode bs Hbs Hl) as (h & Hh & _). congruence.
  - unfold ShmFrameHeader_from_bytes. by apply get_to_None in H as ->.
Qed.

Lemma ShmClientFrameHeader_from_bytes_None bs :
  Forall u8 bs →
  ShmClientFrameHeader_from_bytes bs = None ↔ length bs < SHM_CLIENT_FRAME_HEADER_LEN.
Proof.
  intros Hbs. split; intros H.
  - destruct (decide (SHM_CLIENT_FRAME_HEADER_LEN ≤ length bs)) as [Hl|]; [|lia].
    destruct (ShmClientFrameHeader_encode_decode bs Hbs Hl) as (h & Hh & _). congruence.
  - unfold ShmClientFrameHeader_from_bytes. by apply get_to_None in H as ->.
Qed.

(** ** Pixel formats *)

Lemma from_to_abi f : from_abi (to_abi f) = Some f.
Proof. by destruct f. Qed.

Lemma from_abi_Some z f : from_abi z = Some f ↔ z = to_abi f.
Proof.
  split; [|intros ->; apply from_to_abi].
  destruct z as [|[[]|[]|]|]; simpl; naive_solver.
Qed.

Lemma clamp_u8_min v : (0 <= v)%Z → clamp_u8 v = Z.min v 255.
Proof.
  intros Hv. unfold clamp_u8, checkU. destruct (in_uN 8 v) eqn:E; simpl.
  - apply in_uN_true in E. width.
  - unfold in_uN in E. change (uN_max 8) with 255%Z. change (2 ^ 8)%Z with 256%Z in E. lia.
Qed.

Lemma clamp_u8_range v : u8 (clamp_u8 v).
Proof.
  unfold clamp_u8. destruct (checkU 8 v) eqn:E; simpl; [|width].
  by apply checkU_Some in E as [-> ?].
Qed.

Lemma clamp_u8_id v : u8 v → clamp_u8 v = v.
Proof. intros. unfold clamp_u8. by rewrite checkU_ok. Qed.

Lemma channel_byte_lookup c channel b :
  Colour_encoding c = ColourEncoding_Additive ∨ Colour_encoding c = ColourEncoding_Monochrome →
  channel_byte c channel = Ok b ↔ ∃ v, Colour_channel c channel = Some v ∧ b = clamp_u8 v.
Proof.
  intros Henc. destruct c as [channels| | | |i]; simpl in *; try naive_solver.
  - rewrite ok_or_Ok. destruct (list_find _ _) as [[j w]|]; naive_solver.
  - case_decide; naive_solver.
Qed.

Lemma unpack_channels_wf f byte : f ≠ Mono8 → additive_wf (unpack_channels f byte).
Proof.
  intros Hf. destruct f; try done; (split; [done|]); (split; [by repeat constructor|]);
    simpl; repeat (apply NoDup_cons; split; [set_solver|]); apply NoDup_nil_2.
Qed.

(** The fallback of [unpack] is never taken. *)
Lemma unpack_additive f bytes :
  f ≠ Mono8 →
  unpack f bytes = Colour_Additive (unpack_channels f (λ i, default 0%Z (bytes !! i))).
Proof.
  intros Hf. unfold unpack.
  assert (Colour_additive (unpack_channels f (λ i, default 0%Z (bytes !! i))) =
    Ok (Colour_Additive (unpack_channels f (λ i, default 0%Z (bytes !! i))))) as ->.
  { apply Colour_additive_Ok. split; [done|]. by apply unpack_channels_wf. }
  by destruct f.
Qed.

(** The emitters a format carries. *)
Definition format_channels (f : ShmPixelFormat) : list ColourChannel :=
  match f with
  | Rgb8 | Rgbx8 => [Red; Green; Blue]
  | Rgbw8 => [Red; Green; Blue; White]
  | Mono8 => [Intensity]
  end.

Definition format_padding (f : ShmPixelFormat) : list Z :=
  match f with Rgbx8 => [0%Z] | _ => [] end.

Lemma zip_write_take {A} (out bytes : list A) :
  length out ≤ length bytes → zip_write out bytes = take (length out) bytes.
Proof.
  revert bytes. induction out as [|o out IH]; intros [|b bytes] H; simpl in *; try done; [lia|].
  f_equal. apply IH. lia.
Qed.

Lemma pack_scratch_Ok f c bytes :
  Colour_encoding c = format_encoding f →
  pack_scratch f c = Ok bytes ↔
  ∃ vs, Forall2 (λ ch v, Colour_channel c ch = Some v) (format_channels f) vs ∧
        bytes = (clamp_u8 <$> vs) ++ replicate (4 - length (format_channels f)) 0%Z.
Proof.
  intros Henc.
  assert (∀ ch b, channel_byte c ch = Ok b ↔
    ∃ v, Colour_channel c ch = Some v ∧ b = clamp_u8 v) as Hcb.
  { intros. apply channel_byte_lookup. rewrite Henc. destruct f; auto. }
  split.
  - intros H. destruct f; simpl in H; res_inv;
      repeat match goal with H : channel_byte _ _ = Ok _ |- _ =>
        apply Hcb in H as (? & ? & ->) end;
      eexists; (split; [repeat constructor; eassumption|done]).
  - intros (vs & Hvs & ->).
    assert (∀ ch v, Colour_channel c ch = Some v → channel_byte c ch = Ok (clamp_u8 v)) as Hb.
    { intros ch v Hv. apply Hcb. eauto. }
    destruct f; cbn [format_channels] in Hvs;
      repeat match goal with H : Forall2 _ (_ :: _) _ |- _ =>
        apply Forall2_cons_inv_l in H as (? & ? & ?%Hb & H & ->) end;
      apply Forall2_nil_inv_l in Hvs as ->; cbn [pack_scratch];
      repeat match goal with H : channel_byte _ _ = _ |- _ => rewrite H; clear H end; done.
Qed.

Lemma pack_Ok f c out bytes :
  pack f c out = Ok bytes ↔
  length out = bytes_per_pixel f ∧ Colour_encoding c = format_encoding f ∧
  ∃ vs, Forall2 (λ ch v, Colour_channel c ch = Some v) (format_channels f) vs ∧
        bytes = (clamp_u8 <$> vs) ++ format_padding f.
Proof.
  unfold pack. case_bool_decide as Hlen; simpl; [|naive_solver].
  case_bool_decide as Henc; simpl; [|naive_solver].
  assert (∀ vs : list Z, length vs = length (format_channels f) →
    zip_write out ((clamp_u8 <$> vs) ++ replicate (4 - length (format_channels f)) 0%Z) =
    (clamp_u8 <$> vs) ++ format_padding f) as Hz.
  { intros vs Hvs. rewrite zip_write_take.
    - rewrite Hlen. destruct f; simpl in *; destruct vs as [|? [|? [|? [|? [|]]]]]; done || lia.
    - rewrite length_app, length_fmap, length_replicate, Hvs, Hlen. destruct f; simpl; lia. }
  rewrite bind_Ok. split.
  - intros (b & Hb & [= <-]). apply pack_scratch_Ok in Hb as (vs & Hvs & ->); [|done].
    split; [done|]. split; [done|]. exists vs. split; [done|]. apply Hz.
    by apply Forall2_length in Hvs.
  - intros (_ & _ & vs & Hvs & ->). eexists. split; [apply pack_scratch_Ok; eauto|].
    rewrite Hz; [done|]. by apply Forall2_length in Hvs.
Qed.

(** ** Accepted samples *)

Lemma ShmClientFrameHeader_from_bytes_Some bs h :
  Forall u8 bs →
  ShmClientFrameHeader_from_bytes bs = Some h ↔
  (∃ rest, bs = ShmClientFrameHeader_to_bytes h ++ rest) ∧ ShmClientFrameHeader_wf h.
Proof.
  intros Hbs. split.
  - intros H. destruct (decide (SHM_CLIENT_FRAME_HEADER_LEN ≤ length bs)) as [Hl|Hl].
    + destruct (ShmClientFrameHeader_encode_decode bs Hbs Hl) as (h' & Hh & Hwf & Hb).
      rewrite H in Hh. injection Hh as <-. split; [|done].
      exists (drop SHM_CLIENT_FRAME_HEADER_LEN bs). by rewrite Hb, take_drop.
    + apply not_le, ShmClientFrameHeader_from_bytes_None in Hl; [congruence|done].
  - intros [(rest & ->) Hwf]. by apply ShmClientFrameHeader_decode_encode.
Qed.

(** No bit outside the known ones is set exactly for the two known bytes. *)
Lemma known_flags flags :
  u8 flags →
  (Z.land flags (Z.lxor (uN_max 8) CLIENT_KNOWN_FLAGS) =? 0)%Z = true ↔
  (flags = 0 ∨ flags = CLIENT_COMMIT_FLAG)%Z.
Proof.
  intros Hf. pose proof (u8_enum (λ z, Bool.eqb
    (Z.land z (Z.lxor (uN_max 8) CLIENT_KNOWN_FLAGS) =? 0)%Z
    ((z =? 0)%Z || (z =? CLIENT_COMMIT_FLAG)%Z)) eq_refl _ Hf) as H%Bool.eqb_prop.
  rewrite H, orb_true_iff, !Z.eqb_eq. done.
Qed.

Lemma set_flag_spec flags on :
  u8 flags →
  flag_set COMMIT_FLAG (set_flag COMMIT_FLAG flags on) = on ∧
  u8 (set_flag COMMIT_FLAG flags on) ∧
  (set_flag COMMIT_FLAG flags on / 2 = flags / 2)%Z.
Proof.
  intros Hf. pose proof (u8_enum (λ z,
    Bool.eqb (flag_set COMMIT_FLAG (set_flag COMMIT_FLAG z on)) on &&
    in_uN 8 (set_flag COMMIT_FLAG z on) &&
    (set_flag COMMIT_FLAG z on / 2 =? z / 2)%Z) ltac:(by destruct on) _ Hf) as H.
  apply andb_true_iff in H as [H H3]. apply andb_true_iff in H as [H1%Bool.eqb_prop H2].
  split_and!; [done|by apply in_uN_true|by apply Z.eqb_eq].
Qed.

Lemma expected_len_Ok w count stride (e : ShmClientFrameError) n :
  ok_or (c ← checkU w count; checkU w (c * Z.of_nat stride)%Z) e = Ok n ↔
  uN w count ∧ uN w n ∧ n = (count * Z.of_nat stride)%Z.
Proof.
  rewrite ok_or_Ok, bind_Some. setoid_rewrite checkU_Some. naive_solver.
Qed.

(** ** Claims *)

(** Decoding inverts encoding for the 24-byte header, whatever follows it in
    the buffer; conversely every byte string of at least 24 bytes decodes, to a
    header in range whose encoding is those 24 bytes, and shorter ones are
    rejected. *)
Theorem shm_header_roundtrip bs :
  Forall u8 bs →
  (∀ h rest, ShmFrameHeader_wf h → bs = ShmFrameHeader_to_bytes h ++ rest →
     ShmFrameHeader_from_bytes bs = Some h) ∧
  (24 ≤ length bs → ∃ h, ShmFrameHeader_from_bytes bs = Some h ∧ ShmFrameHeader_wf h ∧
     ShmFrameHeader_to_bytes h = take 24 bs) ∧
  (ShmFrameHeader_from_bytes bs = None ↔ length bs < 24).
Proof.
  intros Hbs. split_and!.
  - intros h rest Hh ->. by apply ShmFrameHeader_decode_encode.
  - by apply ShmFrameHeader_encode_decode.
  - by apply ShmFrameHeader_from_bytes_None.
Qed.

Lemma shm_header_roundtrip_witness :
  ∃ h, ShmFrameHeader_from_bytes (le_bytes 30 (2 ^ 200 + 7)) = Some h.
Proof.
  destruct (shm_header_roundtrip (le_bytes 30 (2 ^ 200 + 7)) (le_bytes_u8 _ _))
    as (_ & H & _).
  destruct H as (h & Hh & _); [vm_compute; lia|]. by exists h.
Defined.

(** [parse] accepts a sample exactly when it holds a 32-byte header of the
    supported version, with no flag bit but commit, a known pixel format, and a
    payload of exactly [pixel_count * bytes_per_pixel] bytes that fits [usize];
    it then returns the decoded header and that format. *)
Theorem parse_correct usize_bits sample payload h f :
  Forall u8 sample →
  parse usize_bits sample payload = Ok (h, f) ↔
  (∃ rest, sample = ShmClientFrameHeader_to_bytes h ++ rest) ∧ ShmClientFrameHeader_wf h ∧
  ch_header_version h = SHM_CLIENT_FRAME_HEADER_VERSION ∧
  (ch_flags h = 0 ∨ ch_flags h = CLIENT_COMMIT_FLAG)%Z ∧
  ch_pixel_format h = to_abi f ∧
  uN usize_bits (ch_pixel_count h) ∧
  uN usize_bits (Z.of_nat (length payload)) ∧
  Z.of_nat (length payload) = (ch_pixel_count h * Z.of_nat (bytes_per_pixel f))%Z.
Proof.
  intros Hs. unfold parse. rewrite bind_Ok. setoid_rewrite ok_or_Ok.
  setoid_rewrite ShmClientFrameHeader_from_bytes_Some; [|done].
  split.
  - intros (h' & ([rest Hrest] & Hwf) & H).
    destruct (_ =? _)%Z eqn:Hv in H; simpl in H; [|done]. apply Z.eqb_eq in Hv.
    destruct (Z.land _ _ =? 0)%Z eqn:Hfl in H; simpl in H; [|done].
    apply known_flags in Hfl; [|apply Hwf].
    apply bind_Ok in H as (f' & Hf%ok_or_Ok%from_abi_Some & H).
    apply bind_Ok in H as (n & (Hc & Hn & ->)%expected_len_Ok & H).
    destruct (_ =? _)%Z eqn:Hl in H; simpl in H; [|done]. apply Z.eqb_eq in Hl.
    injection H as <- <-. rewrite Hl. naive_solver.
  - intros (Hrest & Hwf & Hv & Hfl & Hf & Hc & Hl & Heq).
    exists h. split; [done|].
    apply Z.eqb_eq in Hv as ->. simpl.
    apply known_flags in Hfl as ->; [|apply Hwf]. simpl.
    apply from_abi_Some in Hf as ->. simpl.
    rewrite (proj2 (expected_len_Ok _ _ _ _ (Z.of_nat (length payload)))) by done. simpl.
    by rewrite Z.eqb_refl.
Qed.

Definition example_client_header : ShmClientFrameHeader := {|
  ch_sequence := 9; ch_generation := 2; ch_pixel_count := 2; ch_pixel_format := 0;
  ch_header_version := 1; ch_flags := 1; ch_reserved := 0; ch_stream_nonce := 77 |}.

Lemma parse_correct_witness :
  parse 64 (ShmClientFrameHeader_to_bytes example_client_header) [1; 2; 3; 4; 5; 6]%Z
  = Ok (example_client_header, Rgb8).
Proof.
  apply (parse_correct 64 (ShmClientFrameHeader_to_bytes example_client_header)
    [1; 2; 3; 4; 5; 6]%Z example_client_header Rgb8).
  - apply Forall_forall. intros x Hx. apply list_elem_of_In in Hx.
    vm_compute in Hx. unfold uN. lia.
  - split; [exists []; by rewrite app_nil_r|].
    split; [unfold ShmClientFrameHeader_wf, uN; simpl; lia|].
    split; [reflexivity|]. split; [right; reflexivity|]. split; [reflexivity|].
    unfold uN; simpl; lia.
Defined.

(** Unpacking a packed pixel gives back each emitter of the format, clamped
    to eight bits; packing an unpacked pixel gives back its bytes, for a buffer
    of the format's stride whose padding byte, if any, is zero. *)
Theorem pixel_roundtrip f out bytes :
  Forall u8 bytes → length bytes = bytes_per_pixel f → length out = bytes_per_pixel f →
  (drop (length (format_channels f)) bytes = format_padding f →
     pack f (unpack f bytes) out = Ok bytes) ∧
  (∀ c, pack f c out = Ok bytes → ∀ ch, ch ∈ format_channels f →
     Colour_channel (unpack f bytes) ch = clamp_u8 <$> Colour_channel c ch).
Proof.
  intros Hb Hlen Hout. split.
  - intros Hpad. apply pack_Ok. split; [done|].
    destruct f; destruct bytes as [|a [|b [|c [|d [|]]]]]; try done;
      try rewrite unpack_additive by done; (split; [done|]);
      repeat match goal with H : Forall _ (_ :: _) |- _ => apply Forall_cons in H as [? H] end;
      eexists; (split; [by repeat constructor|]); simpl in *; rewrite !clamp_u8_id by done;
      by rewrite ?Hpad.
  - intros c (_ & Henc & vs & Hvs & ->)%pack_Ok ch Hch.
    destruct f; cbn [format_channels] in Hvs;
      repeat match goal with H : Forall2 _ (_ :: _) _ |- _ =>
        apply Forall2_cons_inv_l in H as (? & ? & ? & H & ->) end;
      apply Forall2_nil_inv_l in Hvs as ->; try rewrite unpack_additive by done;
      repeat (apply elem_of_cons in Hch as [->|Hch]; [match goal with
        H : Colour_channel c _ = Some _ |- _ => rewrite H; reflexivity end|]);
      by apply not_elem_of_nil in Hch.
Qed.

Lemma pixel_roundtrip_witness :
  pack Rgbx8 (unpack Rgbx8 [7; 8; 255; 0]%Z) [1; 1; 1; 1]%Z = Ok [7; 8; 255; 0]%Z.
Proof.
  apply (pixel_roundtrip Rgbx8 [1; 1; 1; 1]%Z [7; 8; 255; 0]%Z); try reflexivity.
  repeat constructor; discriminate.
Defined.
