(* ===== verification/Transition.v ===== *)
(** * Transitions: [luminate-core/src/transition.rs]

    Transition timing, easing, and the interpolation of numbers, hues, colours
    and effects.  [Duration] is its count of nanoseconds.  Arithmetic in [u128]
    and [i128] is written with its wrap-around and shown not to wrap.  The OKLab
    mix of two colours strictly inside the unit interval is a computation of the
    [palette] crate: it is the parameter [oklab_mix]. *)

From S2P Require Import Prelude Model Colours.

(** ** Timing *)

Definition Duration : Type := Z.
Definition from_millis (ms : Z) : Duration := (ms * 1000000)%Z.
Definition as_millis (d : Duration) : Z := (d / 1000000)%Z.

Definition DEFAULT_STEP_INTERVAL : Duration := from_millis 33.
Definition MINIMUM_STEP_INTERVAL : Duration := from_millis 10.

Inductive TransitionFunction := Linear | EaseIn | EaseOut | EaseInOut.
Inductive HueDirection := Shortest | Increasing | Decreasing.
Inductive TransitionColourInterpolation :=
| Encoded (hue_direction : HueDirection)
| Oklab.
Definition TransitionColourInterpolation_default : TransitionColourInterpolation :=
  Encoded Shortest.

#[export] Instance TransitionFunction_eq : EqDecision TransitionFunction.
Proof. solve_decision. Defined.

Record TransitionOptions := {
  to_duration_ms : Z;
  to_step_interval_ms : option Z;
  to_function : TransitionFunction;
  to_colour_interpolation : TransitionColourInterpolation
}.

Inductive TransitionValidationError :=
| ZeroDuration | SubMillisecondTiming | StepIntervalTooShort | DurationTooLong.

Inductive TransitionInterpolationError :=
| EffectIdentity | ColourStructure | HardwareStructure | OklabUnsupported.

Definition TransitionOptions_new (duration : Duration) (step_interval : option Duration) :
    result TransitionValidationError TransitionOptions :=
  if (duration =? 0)%Z then Err ZeroDuration
  else if match step_interval with
          | Some interval => (interval <? MINIMUM_STEP_INTERVAL)%Z
          | None => false
          end then Err StepIntervalTooShort
  else
    duration_ms ← ok_or (checkU 64 (as_millis duration)) DurationTooLong;
    step_interval_ms ←
      opt_try (λ interval, ok_or (checkU 64 (as_millis interval)) DurationTooLong) step_interval;
    if (duration_ms =? 0)%Z || bool_decide (step_interval_ms = Some 0%Z)
    then Err SubMillisecondTiming
    else Ok {| to_duration_ms := duration_ms; to_step_interval_ms := step_interval_ms;
               to_function := Linear;
               to_colour_interpolation := TransitionColourInterpolation_default |}.

Definition with_function (o : TransitionOptions) (function : TransitionFunction) :
    TransitionOptions :=
  {| to_duration_ms := to_duration_ms o; to_step_interval_ms := to_step_interval_ms o;
     to_function := function; to_colour_interpolation := to_colour_interpolation o |}.

Definition with_colour_interpolation (o : TransitionOptions)
    (colour_interpolation : TransitionColourInterpolation) : TransitionOptions :=
  {| to_duration_ms := to_duration_ms o; to_step_interval_ms := to_step_interval_ms o;
     to_function := to_function o; to_colour_interpolation := colour_interpolation |}.

Definition duration (o : TransitionOptions) : Duration := from_millis (to_duration_ms o).

Definition step_interval (o : TransitionOptions) : Duration :=
  match to_step_interval_ms o with
  | Some milliseconds => from_millis milliseconds
  | None => DEFAULT_STEP_INTERVAL
  end.

(** ** Status *)

Inductive TransitionCancellation :=
| Aborted | Replaced | ConflictingMutation | AuthorizationExpired.
Inductive TransitionOutcome :=
| Outcome_Completed
| Outcome_Cancelled (cancellation : TransitionCancellation)
| Outcome_Failed (diagnostic : Text) (applied_targets : list TargetId).
Record TransitionStatus := {
  ts_id : TransitionId;
  ts_targets : list TargetId;
  ts_elapsed_ms : Z;
  ts_duration_ms : Z;
  ts_outcome : option TransitionOutcome
}.
Definition is_terminal (s : TransitionStatus) : bool := bool_decide (is_Some (ts_outcome s)).

(** ** Easing and numeric interpolation *)

Definition SCALE : Z := 1000000000.

Definition ease_progress (function : TransitionFunction) (numerator denominator : Z) :
    result TransitionInterpolationError (Z * Z) :=
  if (denominator =? 0)%Z then Err HardwareStructure
  else
    let numerator := Z.min numerator denominator in
    let x := (wrapU 128 (wrapU 128 (numerator * SCALE) + denominator / 2) / denominator)%Z in
    let complement := wrapU 128 (SCALE - x) in
    let square := wrapU 128 (SCALE * SCALE) in
    let eased :=
      match function with
      | Linear => x
      | EaseIn => wrapU 128 (wrapU 128 (x * x) * x) / square
      | EaseOut =>
          wrapU 128 (SCALE - wrapU 128 (wrapU 128 (complement * complement) * complement) / square)
      | EaseInOut =>
          Z.max 0 (wrapU 128 (wrapU 128 (3 * x) * x) / SCALE -
                   wrapU 128 (wrapU 128 (wrapU 128 (2 * x) * x) * x) / square)
      end%Z in
    eased ← ok_or (checkU 64 eased) HardwareStructure;
    scale ← ok_or (checkU 64 SCALE) HardwareStructure;
    Ok (eased, scale).

(** The rounding shared by [interpolate_u32] and [interpolate_hue]; [i128]
    division truncates toward zero. *)
Definition round_scaled (scaled denominator : Z) : Z :=
  let half := (denominator / 2)%Z in
  if (0 <=? scaled)%Z then Z.quot (wrapS 128 (scaled + half)) denominator
  else Z.quot (wrapS 128 (scaled - half)) denominator.

Definition interpolate_u32 (start end_ numerator denominator : Z) :
    result TransitionInterpolationError Z :=
  if (denominator =? 0)%Z then Err HardwareStructure
  else
    let numerator := Z.min numerator denominator in
    let delta := wrapS 128 (end_ - start) in
    let scaled := wrapS 128 (delta * numerator) in
    ok_or (checkU 32 (wrapS 128 (start + round_scaled scaled denominator))) HardwareStructure.

Definition snap_to_discrete_range_u32 (value : Z) (range : DiscreteRange) :
    result TransitionInterpolationError Z :=
  if (range_step range =? 0)%Z || (range_max range <? range_min range)%Z
  then Err HardwareStructure
  else
    let value := Z.max (range_min range) (Z.min value (range_max range)) in
    let offset := (value - range_min range)%Z in
    let lower := (range_min range + offset / range_step range * range_step range)%Z in
    let upper := Z.min (saturateU 32 (lower + range_step range)) (range_max range) in
    if (value - lower <? upper - value)%Z then Ok lower else Ok upper.

Definition interpolate_u16 (start end_ numerator denominator : Z) :
    result TransitionInterpolationError Z :=
  v ← interpolate_u32 start end_ numerator denominator;
  ok_or (checkU 16 v) HardwareStructure.

Definition interpolate_u8 (start end_ numerator denominator : Z) :
    result TransitionInterpolationError Z :=
  v ← interpolate_u32 start end_ numerator denominator;
  ok_or (checkU 8 v) HardwareStructure.

Definition interpolate_rgb_encoded (start end_ : Rgb) (numerator denominator : Z) :
    result TransitionInterpolationError Rgb :=
  r ← interpolate_u8 (rgb_r start) (rgb_r end_) numerator denominator;
  g ← interpolate_u8 (rgb_g start) (rgb_g end_) numerator denominator;
  b ← interpolate_u8 (rgb_b start) (rgb_b end_) numerator denominator;
  Ok (Rgb_new r g b).

(** The first match arm of [interpolate_hue] on the forward distance; [u64]
    cannot overflow since [modulus <= 2 ^ 32]. *)
Definition hue_distance (start end_ modulus : Z) (direction : HueDirection) : Z :=
  let forward := ((end_ + modulus - start) mod modulus)%Z in
  match direction with
  | Shortest => if (forward * 2 <=? modulus)%Z then forward else (forward - modulus)%Z
  | Increasing => forward
  | Decreasing => (- ((start + modulus - end_) mod modulus))%Z
  end.

Definition interpolate_hue (start end_ maximum numerator denominator : Z)
    (direction : HueDirection) : result TransitionInterpolationError Z :=
  let modulus := (maximum + 1)%Z in
  let start := (start mod modulus)%Z in
  let end_ := (end_ mod modulus)%Z in
  let signed := hue_distance start end_ modulus direction in
  let numerator := Z.min numerator denominator in
  if (denominator =? 0)%Z then Err HardwareStructure
  else
    let scaled := wrapS 128 (signed * numerator) in
    let value := (wrapS 128 (start + round_scaled scaled denominator) mod modulus)%Z in
    ok_or (checkU 32 value) HardwareStructure.

(** ** Colours and effects *)

Section oklab.

(** The interior of [interpolate_rgb_oklab]: the sRGB triplet that [palette]
    computes for the OKLab mix at [numerator / denominator], for
    [0 < numerator < denominator]. *)
Context (oklab_mix : Rgb → Rgb → Z → Z → Rgb).

Definition interpolate_rgb_oklab (start end_ : Rgb) (numerator denominator : Z) :
    result TransitionInterpolationError Rgb :=
  if (denominator =? 0)%Z then Err HardwareStructure
  else if (numerator =? 0)%Z then Ok start
  else if (denominator <=? numerator)%Z then Ok end_
  else Ok (oklab_mix start end_ numerator denominator).

Definition interpolate_rgb (start end_ : Rgb) (numerator denominator : Z)
    (colour_interpolation : TransitionColourInterpolation) :
    result TransitionInterpolationError Rgb :=
  match colour_interpolation with
  | Encoded _ => interpolate_rgb_encoded start end_ numerator denominator
  | Oklab => interpolate_rgb_oklab start end_ numerator denominator
  end.

(** The test of the [any] over the three zipped channels. *)
Definition oklab_unsupported (start end_ : ColourChannelValue) (channel : ColourChannel) : bool :=
  negb (bool_decide (ccv_channel start = channel)) ||
  negb (bool_decide (ccv_channel end_ = channel)) ||
  (255 <? ccv_value start)%Z || (255 <? ccv_value end_)%Z.

Definition interpolate_additive_oklab (start end_ : list ColourChannelValue)
    (numerator denominator : Z) : result TransitionInterpolationError Colour :=
  match start, end_ with
  | [start_red; start_green; start_blue], [end_red; end_green; end_blue] =>
      if oklab_unsupported start_red end_red Red ||
         oklab_unsupported start_green end_green Green ||
         oklab_unsupported start_blue end_blue Blue
      then Err OklabUnsupported
      else
        sr ← ok_or (checkU 8 (ccv_value start_red)) OklabUnsupported;
        sg ← ok_or (checkU 8 (ccv_value start_green)) OklabUnsupported;
        sb ← ok_or (checkU 8 (ccv_value start_blue)) OklabUnsupported;
        er ← ok_or (checkU 8 (ccv_value end_red)) OklabUnsupported;
        eg ← ok_or (checkU 8 (ccv_value end_green)) OklabUnsupported;
        eb ← ok_or (checkU 8 (ccv_value end_blue)) OklabUnsupported;
        rgb ← interpolate_rgb_oklab (Rgb_new sr sg sb) (Rgb_new er eg eb) numerator denominator;
        map_err (λ _, ColourStructure)
          (Colour_additive
             [ColourChannelValue_new (ccv_channel start_red) (rgb_r rgb);
              ColourChannelValue_new (ccv_channel start_green) (rgb_g rgb);
              ColourChannelValue_new (ccv_channel start_blue) (rgb_b rgb)])
  | _, _ => Err OklabUnsupported
  end.

(** The closure mapped over the zipped additive channels. *)
Definition interpolate_channel (numerator denominator : Z)
    (pair : ColourChannelValue * ColourChannelValue) :
    result TransitionInterpolationError ColourChannelValue :=
  v ← interpolate_u32 (ccv_value pair.1) (ccv_value pair.2) numerator denominator;
  Ok (ColourChannelValue_new (ccv_channel pair.1) v).

Definition interpolate_colour (start end_ : Colour) (numerator denominator hue_maximum : Z)
    (colour_interpolation : TransitionColourInterpolation) :
    result TransitionInterpolationError Colour :=
  match colour_interpolation with
  | Oklab =>
      match start, end_ with
      | Colour_Additive start, Colour_Additive end_ =>
          interpolate_additive_oklab start end_ numerator denominator
      | _, _ => Err OklabUnsupported
      end
  | Encoded hue_direction =>
      match start, end_ with
      | Colour_Additive start, Colour_Additive end_ =>
          if bool_decide (length start = length end_) &&
             forallb (λ p, bool_decide (ccv_channel p.1 = ccv_channel p.2)) (zip start end_)
          then
            channels ← try_map (interpolate_channel numerator denominator) (zip start end_);
            map_err (λ _, ColourStructure) (Colour_additive channels)
          else Err ColourStructure
      | Colour_Hsv start_hue start_saturation start_value,
        Colour_Hsv end_hue end_saturation end_value =>
          h ← interpolate_hue start_hue end_hue hue_maximum numerator denominator hue_direction;
          s ← interpolate_u32 start_saturation end_saturation numerator denominator;
          v ← interpolate_u32 start_value end_value numerator denominator;
          Ok (Colour_Hsv h s v)
      | Colour_Hsl start_hue start_saturation start_lightness,
        Colour_Hsl end_hue end_saturation end_lightness =>
          h ← interpolate_hue start_hue end_hue hue_maximum numerator denominator hue_direction;
          s ← interpolate_u32 start_saturation end_saturation numerator denominator;
          l ← interpolate_u32 start_lightness end_lightness numerator denominator;
          Ok (Colour_Hsl h s l)
      | Colour_Cct start, Colour_Cct end_ =>
          k ← interpolate_u32 start end_ numerator denominator; Ok (Colour_Cct k)
      | Colour_Monochrome start, Colour_Monochrome end_ =>
          i ← interpolate_u32 start end_ numerator denominator; Ok (Colour_Monochrome i)
      | _, _ => Err ColourStructure
      end
  end.

(** [start.zip(end).map(f).transpose()] *)
Definition zip_try {A B} (f : A → A → result TransitionInterpolationError B) (x y : option A) :
    result TransitionInterpolationError (option B) :=
  match x, y with
  | Some a, Some b => c ← f a b; Ok (Some c)
  | _, _ => Ok None
  end.

Definition interpolate_arguments (start end_ : EffectArguments) (numerator denominator : Z)
    (colour_interpolation : TransitionColourInterpolation) :
    result TransitionInterpolationError EffectArguments :=
  if negb (bool_decide (ea_direction start = ea_direction end_)) ||
     negb (bool_decide (ea_choice start = ea_choice end_)) ||
     negb (bool_decide (length (ea_colours start) = length (ea_colours end_))) ||
     negb (eqb (bool_decide (is_Some (ea_speed start))) (bool_decide (is_Some (ea_speed end_)))) ||
     negb (eqb (bool_decide (is_Some (ea_duration_ms start)))
               (bool_decide (is_Some (ea_duration_ms end_)))) ||
     negb (eqb (bool_decide (is_Some (ea_brightness start)))
               (bool_decide (is_Some (ea_brightness end_))))
  then Err HardwareStructure
  else
    colours ← try_map (λ p, interpolate_rgb p.1 p.2 numerator denominator colour_interpolation)
                (zip (ea_colours start) (ea_colours end_));
    speed ← zip_try (λ l r, interpolate_u16 l r numerator denominator)
              (ea_speed start) (ea_speed end_);
    duration_ms ← zip_try (λ l r, interpolate_u32 l r numerator denominator)
                    (ea_duration_ms start) (ea_duration_ms end_);
    brightness ← zip_try (λ l r, interpolate_u32 l r numerator denominator)
                   (ea_brightness start) (ea_brightness end_);
    Ok {| ea_colours := colours; ea_speed := speed; ea_direction := ea_direction start;
          ea_duration_ms := duration_ms; ea_brightness := brightness;
          ea_choice := ea_choice start |}.

Definition interpolate_effect (start end_ : Effect) (numerator denominator hue_maximum : Z)
    (colour_interpolation : TransitionColourInterpolation) :
    result TransitionInterpolationError Effect :=
  let period := λ s e, interpolate_u32 s e numerator denominator in
  let rgb := λ s e, interpolate_rgb s e numerator denominator colour_interpolation in
  match start, end_ with
  | Effect_Static s, Effect_Static e =>
      c ← interpolate_colour s e numerator denominator hue_maximum colour_interpolation;
      Ok (Effect_Static c)
  | Effect_Breathe sc sp, Effect_Breathe ec ep =>
      c ← rgb sc ec; p ← period sp ep; Ok (Effect_Breathe c p)
  | Effect_Pulse sc sp, Effect_Pulse ec ep =>
      c ← rgb sc ec; p ← period sp ep; Ok (Effect_Pulse c p)
  | Effect_Strobe sc sp, Effect_Strobe ec ep =>
      c ← rgb sc ec; p ← period sp ep; Ok (Effect_Strobe c p)
  | Effect_Scanner sc sp, Effect_Scanner ec ep =>
      c ← rgb sc ec; p ← period sp ep; Ok (Effect_Scanner c p)
  | Effect_Morph scs sp, Effect_Morph ecs ep =>
      if bool_decide (length scs = length ecs) then
        cs ← try_map (λ p, rgb p.1 p.2) (zip scs ecs); p ← period sp ep; Ok (Effect_Morph cs p)
      else Err EffectIdentity
  | Effect_Spectrum sp, Effect_Spectrum ep => p ← period sp ep; Ok (Effect_Spectrum p)
  | Effect_Rainbow sp, Effect_Rainbow ep => p ← period sp ep; Ok (Effect_Rainbow p)
  | Effect_Hardware sid sa, Effect_Hardware eid ea =>
      if bool_decide (sid = eid) then
        a ← interpolate_arguments sa ea numerator denominator colour_interpolation;
        Ok (Effect_Hardware sid a)
      else Err EffectIdentity
  | _, _ => Err EffectIdentity
  end.

End oklab.

(** ** Rounding *)

Local Open Scope Z_scope.

(** [i128] holds every intermediate value: a [33]-bit difference times a 64-bit
    numerator, plus a 63-bit half. *)
Lemma wrapS_128 z : - 2 ^ 100 <= z <= 2 ^ 100 → wrapS 128 z = z.
Proof. intros. apply wrapS_id; lia. Qed.

Lemma scaled_range delta n den :
  - 2 ^ 33 <= delta <= 2 ^ 33 → 0 <= n <= den → u64 den → - 2 ^ 97 <= delta * n <= 2 ^ 97.
Proof. unfold uN. intros. nia. Qed.

(** Round half away from zero. *)
Lemma round_scaled_spec scaled den :
  - 2 ^ 97 <= scaled <= 2 ^ 97 → u64 den → 0 < den →
  let r := round_scaled scaled den in
  (0 <= scaled → r = (scaled + den / 2) / den) ∧
  (scaled < 0 → r = - ((- scaled + den / 2) / den)).
Proof.
  unfold uN, round_scaled. intros Hs Hd Hpos.
  pose proof (Z.div_mod den 2 ltac:(lia)). pose proof (Z.mod_pos_bound den 2 ltac:(lia)).
  split; intros Hsg.
  - rewrite (proj2 (Z.leb_le 0 scaled)) by lia. rewrite wrapS_128 by lia.
    apply Z.quot_div_nonneg; lia.
  - rewrite (proj2 (Z.leb_gt 0 scaled)) by lia. rewrite wrapS_128 by lia.
    replace (scaled - den / 2) with (- (- scaled + den / 2)) by lia.
    rewrite Z.quot_opp_l by lia. f_equal. apply Z.quot_div_nonneg; lia.
Qed.

(** The rounded value is the nearest integer: at most half a unit away. *)
Lemma round_scaled_near scaled den :
  - 2 ^ 97 <= scaled <= 2 ^ 97 → u64 den → 0 < den →
  2 * Z.abs (round_scaled scaled den * den - scaled) <= den.
Proof.
  intros Hs Hd Hpos. destruct (round_scaled_spec scaled den Hs Hd Hpos) as [Hp Hn].
  pose proof (Z.div_mod den 2 ltac:(lia)). pose proof (Z.mod_pos_bound den 2 ltac:(lia)).
  destruct (Z.le_gt_cases 0 scaled) as [Hsg|Hsg].
  - rewrite (Hp Hsg). pose proof (Z.div_mod (scaled + den / 2) den ltac:(lia)).
    pose proof (Z.mod_pos_bound (scaled + den / 2) den ltac:(lia)). nia.
  - rewrite (Hn Hsg). pose proof (Z.div_mod (- scaled + den / 2) den ltac:(lia)).
    pose proof (Z.mod_pos_bound (- scaled + den / 2) den ltac:(lia)). nia.
Qed.

Lemma round_scaled_mono a b den :
  - 2 ^ 97 <= a → b <= 2 ^ 97 → u64 den → 0 < den → a <= b →
  round_scaled a den <= round_scaled b den.
Proof.
  intros Ha Hb Hd Hpos Hab.
  destruct (round_scaled_spec a den ltac:(lia) Hd Hpos) as [Hp Hn].
  destruct (round_scaled_spec b den ltac:(lia) Hd Hpos) as [Hp' Hn'].
  assert (0 <= den / 2) by (apply Z.div_pos; lia).
  destruct (Z.le_gt_cases 0 a), (Z.le_gt_cases 0 b); try lia.
  - rewrite Hp, Hp' by done. apply Z.div_le_mono; lia.
  - rewrite Hn, Hp' by done. transitivity 0; [|apply Z.div_pos; lia].
    apply Z.opp_nonpos_nonneg, Z.div_pos; lia.
  - rewrite Hn, Hn' by done. apply -> Z.opp_le_mono. apply Z.div_le_mono; lia.
Qed.

(** A rounded fraction of [delta] stays between zero and [delta]. *)
Lemma round_scaled_between delta n den :
  - 2 ^ 33 <= delta <= 2 ^ 33 → 0 <= n <= den → u64 den → 0 < den →
  Z.min 0 delta <= round_scaled (delta * n) den <= Z.max 0 delta.
Proof.
  intros Hdl Hn Hd Hpos.
  pose proof (round_scaled_near (delta * n) den (scaled_range _ _ _ Hdl Hn Hd) Hd Hpos).
  destruct (Z.le_gt_cases 0 delta); nia.
Qed.

Lemma round_scaled_0 den : u64 den → 0 < den → round_scaled 0 den = 0.
Proof.
  intros Hd Hpos. pose proof (round_scaled_between 0 0 den ltac:(lia) ltac:(lia) Hd Hpos).
  change (0 * 0) with 0 in *. lia.
Qed.

Lemma round_scaled_all delta den :
  - 2 ^ 33 <= delta <= 2 ^ 33 → u64 den → 0 < den → round_scaled (delta * den) den = delta.
Proof.
  intros Hdl Hd Hpos.
  pose proof (round_scaled_near (delta * den) den
    (scaled_range delta den den Hdl ltac:(lia) Hd) Hd Hpos). nia.
Qed.

(** ** Numeric interpolation *)

Lemma interpolate_u32_eq s e num den :
  u32 s → u32 e → 0 <= num → u64 den → 0 < den →
  interpolate_u32 s e num den = Ok (s + round_scaled ((e - s) * Z.min num den) den).
Proof.
  intros Hs He Hnum Hd Hpos. unfold interpolate_u32.
  rewrite (proj2 (Z.eqb_neq den 0)) by lia.
  assert (- 2 ^ 33 <= e - s <= 2 ^ 33) as Hdl by (unfold uN in *; lia).
  assert (0 <= Z.min num den <= den) as Hn by lia.
  pose proof (scaled_range _ _ _ Hdl Hn Hd).
  pose proof (round_scaled_between _ _ _ Hdl Hn Hd Hpos).
  rewrite (wrapS_128 (e - s)) by lia. rewrite (wrapS_128 (_ * _)) by lia.
  rewrite (wrapS_128 (s + _)) by (unfold uN in *; lia).
  rewrite checkU_ok by (unfold uN in *; lia). done.
Qed.

Lemma interpolate_u32_between s e num den :
  u32 s → u32 e → 0 <= num → u64 den → 0 < den →
  ∃ r, interpolate_u32 s e num den = Ok r ∧ Z.min s e <= r <= Z.max s e.
Proof.
  intros Hs He Hnum Hd Hpos. rewrite interpolate_u32_eq by done. eexists. split; [done|].
  pose proof (round_scaled_between (e - s) (Z.min num den) den
    ltac:(unfold uN in *; lia) ltac:(lia) Hd Hpos). lia.
Qed.

(** Narrower channels go through [interpolate_u32] and never fail the final
    conversion. *)
Lemma interpolate_narrow w s e num den :
  (w = 8 ∨ w = 16) → uN w s → uN w e → 0 <= num → u64 den → 0 < den →
  ∃ r, (v ← interpolate_u32 s e num den; ok_or (checkU w v) HardwareStructure) = Ok r ∧
       interpolate_u32 s e num den = Ok r ∧ uN w r.
Proof.
  intros Hw Hs He Hnum Hd Hpos.
  assert (u32 s ∧ u32 e) as [Hs' He'] by (destruct Hw as [-> | ->]; width).
  destruct (interpolate_u32_between s e num den Hs' He' Hnum Hd Hpos) as (r & Hr & Hb).
  assert (uN w r) as Hwr by (unfold uN in *; lia).
  exists r. rewrite Hr. simpl. by rewrite checkU_ok.
Qed.

(** ** Hues *)

(** The signed distance walks from one hue to the other, in the asked
    direction, by less than a turn, and by at most half of one when it is to be
    the shortest. *)
Lemma hue_distance_spec s e m dir :
  0 < m → 0 <= s < m → 0 <= e < m →
  let d := hue_distance s e m dir in
  (s + d) mod m = e ∧ - m < d < m ∧
  match dir with
  | Shortest => - m < 2 * d <= m
  | Increasing => 0 <= d
  | Decreasing => d <= 0
  end.
Proof.
  intros Hm Hs He.
  assert ((e + m - s) mod m = if s <=? e then e - s else e + m - s) as Hf.
  { destruct (Z.leb_spec s e).
    - replace (e + m - s) with (e - s + 1 * m) by lia. rewrite Z.mod_add by lia.
      apply Z.mod_small. lia.
    - apply Z.mod_small. lia. }
  assert ((s + m - e) mod m = if e <=? s then s - e else s + m - e) as Hr.
  { destruct (Z.leb_spec e s).
    - replace (s + m - e) with (s - e + 1 * m) by lia. rewrite Z.mod_add by lia.
      apply Z.mod_small. lia.
    - apply Z.mod_small. lia. }
  assert (∀ k, (e + k * m) mod m = e) as Hmod.
  { intros k. rewrite Z.mod_add by lia. apply Z.mod_small. lia. }
  unfold hue_distance. rewrite Hf, Hr.
  destruct dir, (Z.leb_spec s e), (Z.leb_spec e s);
    try match goal with |- context [?a <=? m] => destruct (Z.leb_spec a m) end;
    split; try lia;
    match goal with |- ?a mod m = e =>
      first [ replace a with (e + 0 * m) by lia; apply Hmod
            | replace a with (e + 1 * m) by lia; apply Hmod
            | replace a with (e + (-1) * m) by lia; apply Hmod ] end.
Qed.

Lemma interpolate_hue_eq s e maximum num den dir :
  u32 maximum → 0 <= num → u64 den → 0 < den →
  let m := maximum + 1 in
  let d := hue_distance (s mod m) (e mod m) m dir in
  interpolate_hue s e maximum num den dir =
    Ok ((s mod m + round_scaled (d * Z.min num den) den) mod m).
Proof.
  intros Hm Hnum Hd Hpos m d. unfold interpolate_hue. fold m. fold d.
  rewrite (proj2 (Z.eqb_neq den 0)) by lia.
  assert (0 < m <= 2 ^ 32) as Hmr by (unfold uN, m in *; lia).
  pose proof (Z.mod_pos_bound s m ltac:(lia)) as Hs.
  pose proof (Z.mod_pos_bound e m ltac:(lia)) as He.
  destruct (hue_distance_spec (s mod m) (e mod m) m dir ltac:(lia) Hs He) as (_ & Hdr & _).
  fold d in Hdr.
  assert (- 2 ^ 33 <= d <= 2 ^ 33) as Hdl by lia.
  assert (0 <= Z.min num den <= den) as Hn by lia.
  pose proof (scaled_range _ _ _ Hdl Hn Hd).
  pose proof (round_scaled_between _ _ _ Hdl Hn Hd Hpos).
  rewrite (wrapS_128 (d * _)) by lia. rewrite wrapS_128 by lia.
  rewrite checkU_ok; [done|].
  pose proof (Z.mod_pos_bound (s mod m + round_scaled (d * Z.min num den) den) m ltac:(lia)).
  unfold uN. lia.
Qed.

(** ** Easing *)

Lemma wrapU_128 z : 0 <= z <= 2 ^ 100 → wrapU 128 z = z.
Proof. intros. apply wrapU_id. unfold uN. lia. Qed.

(** The elapsed fraction on the [SCALE] grid, rounded to nearest. *)
Definition progress (num den : Z) : Z := (Z.min num den * SCALE + den / 2) / den.

Lemma progress_spec num den :
  0 <= num → u64 den → 0 < den →
  0 <= progress num den <= SCALE ∧
  2 * Z.abs (progress num den * den - Z.min num den * SCALE) <= den.
Proof.
  intros Hnum Hd Hpos. unfold progress.
  pose proof (Z.div_mod den 2 ltac:(lia)). pose proof (Z.mod_pos_bound den 2 ltac:(lia)).
  set (y := Z.min num den * SCALE + den / 2) in *.
  pose proof (Z.div_mod y den ltac:(lia)). pose proof (Z.mod_pos_bound y den ltac:(lia)).
  assert (0 <= Z.min num den <= den) by lia.
  unfold SCALE in *. split; nia.
Qed.

Lemma progress_mono num num' den :
  0 < den → num <= num' → progress num den <= progress num' den.
Proof. intros. unfold progress. apply Z.div_le_mono; [done|]. unfold SCALE. nia. Qed.

Lemma progress_0 den : 0 < den → progress 0 den = 0.
Proof.
  intros. unfold progress. rewrite Z.min_l by lia. apply Z.div_small.
  pose proof (Z.div_mod den 2 ltac:(lia)). pose proof (Z.mod_pos_bound den 2 ltac:(lia)). lia.
Qed.

Lemma progress_end num den : 0 < den → den <= num → progress num den = SCALE.
Proof.
  intros. unfold progress. rewrite Z.min_r by lia.
  replace (den * SCALE + den / 2) with (den / 2 + SCALE * den) by lia.
  rewrite Z.div_add, Z.div_small; [lia| |lia].
  pose proof (Z.div_mod den 2 ltac:(lia)). pose proof (Z.mod_pos_bound den 2 ltac:(lia)). lia.
Qed.

(** The easing curves on the grid, without wrap-around. *)
Definition curve (f : TransitionFunction) (x : Z) : Z :=
  match f with
  | Linear => x
  | EaseIn => x * x * x / (SCALE * SCALE)
  | EaseOut => SCALE - (SCALE - x) * (SCALE - x) * (SCALE - x) / (SCALE * SCALE)
  | EaseInOut => 3 * x * x / SCALE - 2 * x * x * x / (SCALE * SCALE)
  end.

Lemma cube_range y : 0 <= y <= SCALE → 0 <= y * y * y <= SCALE * SCALE * SCALE.
Proof.
  intros Hy. assert (0 <= y * y <= SCALE * SCALE) by (unfold SCALE in *; nia).
  unfold SCALE in *. nia.
Qed.

Lemma cube_div_range y : 0 <= y <= SCALE → 0 <= y * y * y / (SCALE * SCALE) <= SCALE.
Proof.
  intros Hy%cube_range. split; [apply Z.div_pos; unfold SCALE in *; lia|].
  apply Z.div_le_upper_bound; unfold SCALE in *; lia.
Qed.

(** The smooth curve as a difference of two floors over one denominator. *)
Lemma smooth_eq x :
  curve EaseInOut x = 3 * x * x * SCALE / (SCALE * SCALE) - 2 * x * x * x / (SCALE * SCALE).
Proof. simpl. by rewrite (Z.div_mul_cancel_r (3 * x * x) SCALE SCALE). Qed.

(** [3 x^2 S - 2 x^3] rises from [0] to [S^3] over the unit interval. *)
Lemma smooth_mono x y :
  0 <= x → x <= y → y <= SCALE →
  3 * x * x * SCALE - 2 * x * x * x <= 3 * y * y * SCALE - 2 * y * y * y.
Proof.
  intros Hx Hxy Hy.
  assert (0 <= (y - x) * (2 * (x * (SCALE - x)) + 2 * (y * (SCALE - y)) +
    x * (SCALE - y) + y * (SCALE - x))); [|nia].
  apply Z.mul_nonneg_nonneg; [lia|]. repeat apply Z.add_nonneg_nonneg; nia.
Qed.

Lemma smooth_range x :
  0 <= x <= SCALE → 0 <= curve EaseInOut x <= SCALE.
Proof.
  intros Hx. rewrite smooth_eq.
  pose proof (smooth_mono x SCALE ltac:(lia) ltac:(lia) ltac:(lia)) as Hup.
  set (A := 3 * x * x * SCALE) in *. set (B := 2 * x * x * x) in *.
  assert (B <= A) as HBA.
  { unfold A, B. assert (0 <= x * x) by nia. nia. }
  split.
  - pose proof (Z.div_le_mono B A (SCALE * SCALE) ltac:(done) HBA). lia.
  - assert (A <= B + SCALE * (SCALE * SCALE)) as HAB by (unfold SCALE in *; lia).
    pose proof (Z.div_le_mono A (B + SCALE * (SCALE * SCALE)) (SCALE * SCALE) ltac:(done) HAB)
      as Hd.
    rewrite Z.div_add in Hd by done. lia.
Qed.

Lemma curve_range f x : 0 <= x <= SCALE → 0 <= curve f x <= SCALE.
Proof.
  intros Hx. destruct f; [done| | |by apply smooth_range]; simpl.
  - by apply cube_div_range.
  - pose proof (cube_div_range (SCALE - x) ltac:(lia)). lia.
Qed.

Lemma cube_mono x y : 0 <= x → x <= y → x * x * x <= y * y * y.
Proof. intros. assert (x * x <= y * y) by nia. nia. Qed.

(** A difference of two floors follows the difference of the fractions to
    within one. *)
Lemma floor_difference_mono a b c d n :
  0 < n → a - b <= c - d → a / n - b / n <= c / n - d / n + 1.
Proof.
  intros Hn H. pose proof (Z.div_mod a n ltac:(lia)). pose proof (Z.div_mod b n ltac:(lia)).
  pose proof (Z.div_mod c n ltac:(lia)). pose proof (Z.div_mod d n ltac:(lia)).
  pose proof (Z.mod_pos_bound a n Hn). pose proof (Z.mod_pos_bound b n Hn).
  pose proof (Z.mod_pos_bound c n Hn). pose proof (Z.mod_pos_bound d n Hn). nia.
Qed.

(** The curves rise, up to one grid step of the smooth curve's rounding. *)
Lemma curve_mono f x y :
  0 <= x → x <= y → y <= SCALE →
  curve f x <= curve f y + (if decide (f = EaseInOut) then 1 else 0).
Proof.
  intros Hx Hxy Hy. destruct f; case_decide; try done; simpl; [lia| | |].
  - rewrite Z.add_0_r. apply Z.div_le_mono; [done|]. by apply cube_mono.
  - pose proof (Z.div_le_mono _ _ (SCALE * SCALE) ltac:(done)
      (cube_mono (SCALE - y) (SCALE - x) ltac:(lia) ltac:(lia))). lia.
  - change (curve EaseInOut x <= curve EaseInOut y + 1). rewrite !smooth_eq.
    pose proof (smooth_mono x y Hx Hxy Hy) as Hm. revert Hm.
    generalize (3 * x * x * SCALE), (2 * x * x * x), (3 * y * y * SCALE), (2 * y * y * y).
    intros. by apply floor_difference_mono.
Qed.

Lemma curve_0 f : curve f 0 = 0.
Proof. by destruct f. Qed.
Lemma curve_end f : curve f SCALE = SCALE.
Proof. by destruct f. Qed.

Lemma cube_nowrap k y :
  0 <= y <= SCALE → 0 <= k <= 3 →
  wrapU 128 (wrapU 128 (wrapU 128 (k * y) * y) * y) = k * y * y * y.
Proof.
  intros Hy Hk. pose proof (cube_range y Hy).
  assert (0 <= y * y <= SCALE * SCALE) by (unfold SCALE in *; nia).
  assert (0 <= k * y <= 3 * SCALE) by (unfold SCALE in *; nia).
  assert (0 <= k * (y * y) <= 3 * (SCALE * SCALE)) by (unfold SCALE in *; nia).
  assert (0 <= k * (y * y * y) <= 3 * (SCALE * SCALE * SCALE)) by (unfold SCALE in *; nia).
  unfold SCALE in *. rewrite (wrapU_128 (k * y)) by lia.
  rewrite (wrapU_128 (k * y * y)) by lia. apply wrapU_128. lia.
Qed.

Lemma square_nowrap k y :
  0 <= y <= SCALE → 0 <= k <= 3 → wrapU 128 (wrapU 128 (k * y) * y) = k * y * y.
Proof.
  intros Hy Hk. assert (0 <= y * y <= SCALE * SCALE) by (unfold SCALE in *; nia).
  assert (0 <= k * y <= 3 * SCALE) by (unfold SCALE in *; nia).
  assert (0 <= k * (y * y) <= 3 * (SCALE * SCALE)) by (unfold SCALE in *; nia).
  unfold SCALE in *. rewrite (wrapU_128 (k * y)) by lia. apply wrapU_128. lia.
Qed.

(** The code's easing expressions do not wrap around and never saturate. *)
Lemma curve_nowrap f x :
  0 <= x <= SCALE →
  match f with
  | Linear => x
  | EaseIn => wrapU 128 (wrapU 128 (x * x) * x) / (SCALE * SCALE)
  | EaseOut => wrapU 128 (SCALE - wrapU 128 (wrapU 128 ((SCALE - x) * (SCALE - x)) *
                 (SCALE - x)) / (SCALE * SCALE))
  | EaseInOut => Z.max 0 (wrapU 128 (wrapU 128 (3 * x) * x) / SCALE -
      wrapU 128 (wrapU 128 (wrapU 128 (2 * x) * x) * x) / (SCALE * SCALE))
  end = curve f x.
Proof.
  intros Hx.
  assert (∀ y, 0 <= y <= SCALE → wrapU 128 (wrapU 128 (y * y) * y) = y * y * y) as Hc.
  { intros y Hy. pose proof (cube_nowrap 1 y Hy ltac:(lia)) as H.
    rewrite Z.mul_1_l in H. rewrite (wrapU_128 y) in H by (unfold SCALE in *; lia). done. }
  destruct f; [done| | |].
  - by rewrite Hc.
  - rewrite Hc by lia. apply wrapU_128.
    pose proof (curve_range EaseOut x Hx). unfold SCALE in *. lia.
  - rewrite cube_nowrap, square_nowrap by lia. apply Z.max_r. by apply smooth_range.
Qed.

Lemma ease_progress_eq f num den :
  0 <= num → u64 den → 0 < den →
  ease_progress f num den = Ok (curve f (progress num den), SCALE).
Proof.
  intros Hnum Hd Hpos. unfold ease_progress. rewrite (proj2 (Z.eqb_neq den 0)) by lia.
  assert (0 <= Z.min num den <= den) as Hn by lia. unfold uN in Hd.
  assert (0 <= den / 2 <= den) as Hh
    by (split; [apply Z.div_pos; lia|apply Z.div_le_upper_bound; lia]).
  rewrite (wrapU_128 (Z.min num den * SCALE)) by (unfold SCALE; lia).
  rewrite (wrapU_128 (_ + den / 2)) by (unfold SCALE; lia).
  fold (progress num den).
  destruct (progress_spec num den Hnum Hd Hpos) as [Hx _]. set (x := progress num den) in *.
  pose proof (curve_range f x Hx) as Hc.
  rewrite (wrapU_128 (SCALE * SCALE)) by (unfold SCALE; lia).
  rewrite (wrapU_128 (SCALE - x)) by (unfold SCALE in *; lia).
  rewrite (curve_nowrap f x Hx).
  rewrite (checkU_ok 64 (curve f x)) by (unfold uN, SCALE in *; lia). reflexivity.
Qed.

(** ** Structure and endpoints *)

(** What a transition preserves: the encoding and channel list of a colour, and
    the variant, hardware identity, discrete arguments and colour counts of an
    effect. *)
Definition colour_shape (c : Colour) : ColourEncoding * list ColourChannel :=
  (Colour_encoding c,
   match c with Colour_Additive channels => ccv_channel <$> channels | _ => [] end).

Definition arguments_shape (a : EffectArguments) :=
  (length (ea_colours a), bool_decide (is_Some (ea_speed a)), ea_direction a,
   bool_decide (is_Some (ea_duration_ms a)), bool_decide (is_Some (ea_brightness a)),
   ea_choice a).

Definition compatible_effects (s e : Effect) : Prop :=
  match s, e with
  | Effect_Static s, Effect_Static e => colour_shape s = colour_shape e
  | Effect_Breathe _ _, Effect_Breathe _ _ | Effect_Pulse _ _, Effect_Pulse _ _
  | Effect_Strobe _ _, Effect_Strobe _ _ | Effect_Scanner _ _, Effect_Scanner _ _
  | Effect_Spectrum _, Effect_Spectrum _ | Effect_Rainbow _, Effect_Rainbow _ => True
  | Effect_Morph s _, Effect_Morph e _ => length s = length e
  | Effect_Hardware i s, Effect_Hardware j e => i = j ∧ arguments_shape s = arguments_shape e
  | _, _ => False
  end.

(** Values within the widths of the Rust fields, and hues within the encoded
    hue channel. *)
Definition Colour_ranged (hue_maximum : Z) (c : Colour) : Prop :=
  Colour_wf c ∧
  match c with
  | Colour_Additive channels => Forall (λ v, u32 (ccv_value v)) channels
  | Colour_Hsv h s v => 0 <= h <= hue_maximum ∧ u32 s ∧ u32 v
  | Colour_Hsl h s l => 0 <= h <= hue_maximum ∧ u32 s ∧ u32 l
  | Colour_Cct k => u32 k
  | Colour_Monochrome i => u32 i
  end.

Definition opt_ranged (w : Z) (o : option Z) : Prop :=
  match o with Some v => uN w v | None => True end.

Definition arguments_ranged (a : EffectArguments) : Prop :=
  Forall Rgb_wf (ea_colours a) ∧ opt_ranged 16 (ea_speed a) ∧
  opt_ranged 32 (ea_duration_ms a) ∧ opt_ranged 32 (ea_brightness a).

Definition Effect_ranged (hue_maximum : Z) (e : Effect) : Prop :=
  match e with
  | Effect_Off => True
  | Effect_Static c => Colour_ranged hue_maximum c
  | Effect_Breathe c p | Effect_Pulse c p | Effect_Strobe c p | Effect_Scanner c p =>
      Rgb_wf c ∧ u32 p
  | Effect_Morph cs p => Forall Rgb_wf cs ∧ u32 p
  | Effect_Spectrum p | Effect_Rainbow p => u32 p
  | Effect_Hardware _ a => arguments_ranged a
  end.

(** Close a [frame] goal from the frames of the parts. *)
Ltac frame_done :=
  simpl; eexists; split; [done|]; split; [done|]; split; intros; f_equal; auto.

Section interpolation.
Context (num den : Z) (Hnum : 0 <= num) (Hden : u64 den) (Hpos : 0 < den).

(** [r] is an admissible intermediate value of a transition from [s] to [e]: it
    satisfies [P], and it is exactly the endpoint at either end. *)
Definition frame {A} (P : A → Prop) (s e r : A) : Prop :=
  P r ∧ (num = 0 → r = s) ∧ (den <= num → r = e).

Lemma interpolate_u32_frame s e :
  u32 s → u32 e → ∃ r, interpolate_u32 s e num den = Ok r ∧ frame u32 s e r.
Proof using Hnum Hden Hpos.
  intros Hs He. destruct (interpolate_u32_between s e num den) as (r & Hr & Hb); try done.
  exists r. split; [done|]. split; [unfold uN in *; lia|].
  rewrite interpolate_u32_eq in Hr by done. injection Hr as <-. split; intros H.
  - rewrite H, Z.min_l, Z.mul_0_r, round_scaled_0 by lia || done. lia.
  - rewrite Z.min_r, round_scaled_all by (unfold uN in *; lia). lia.
Qed.

Lemma interpolate_narrow_frame w s e :
  (w = 8 ∨ w = 16) → uN w s → uN w e →
  ∃ r, (v ← interpolate_u32 s e num den; ok_or (checkU w v) HardwareStructure) = Ok r ∧
       frame (uN w) s e r.
Proof using Hnum Hden Hpos.
  intros Hw Hs He.
  destruct (interpolate_narrow w s e num den) as (r & Hr & Hr' & Hwr); try done.
  exists r. split; [done|]. split; [done|].
  assert (u32 s ∧ u32 e) as [Hs' He'] by (destruct Hw as [-> | ->]; width).
  destruct (interpolate_u32_frame s e Hs' He') as (r' & Hr'' & _ & H).
  rewrite Hr' in Hr''. by injection Hr'' as <-.
Qed.

Lemma interpolate_hue_frame s e maximum dir :
  u32 maximum → 0 <= s <= maximum → 0 <= e <= maximum →
  ∃ r, interpolate_hue s e maximum num den dir = Ok r ∧
       frame (λ h, 0 <= h <= maximum) s e r.
Proof using Hnum Hden Hpos.
  intros Hm Hs He. rewrite interpolate_hue_eq by done. eexists. split; [done|].
  rewrite !(Z.mod_small s), !(Z.mod_small e) by lia.
  destruct (hue_distance_spec s e (maximum + 1) dir) as (Hd & Hr & _); [lia..|].
  split; [|split; intros H].
  - match goal with |- context [?a mod (maximum + 1)] =>
      pose proof (Z.mod_pos_bound a (maximum + 1) ltac:(lia)) end. lia.
  - rewrite H, Z.min_l, Z.mul_0_r, round_scaled_0 by lia || done.
    rewrite Z.add_0_r. apply Z.mod_small. lia.
  - rewrite Z.min_r, round_scaled_all by (unfold uN in *; lia). done.
Qed.

Lemma try_map_frame {A B} (f : A * A → result TransitionInterpolationError B)
    (P : B → Prop) (g : A → B) (l k : list A) :
  length l = length k →
  (∀ x y, x ∈ l → y ∈ k → (x, y) ∈ zip l k → ∃ r, f (x, y) = Ok r ∧ frame P (g x) (g y) r) →
  ∃ rs, try_map f (zip l k) = Ok rs ∧ frame (Forall P) (g <$> l) (g <$> k) rs.
Proof.
  revert k. induction l as [|x l IH]; intros [|y k] Hlen Hf; try done.
  { exists []. repeat split; constructor. }
  destruct (Hf x y) as (r & Hr & HP & H0 & H1); [set_solver..|].
  destruct (IH k) as (rs & Hrs & HPs & Hs0 & Hs1); [by injection Hlen| |].
  { intros. apply Hf; set_solver. }
  exists (r :: rs). simpl. rewrite Hr. simpl. rewrite Hrs. simpl. split; [done|].
  split; [by constructor|]. split; intros; simpl; f_equal; auto.
Qed.
Lemma zip_try_frame (f : Z → Z → result TransitionInterpolationError Z) w s e :
  (∀ x y, uN w x → uN w y → ∃ r, f x y = Ok r ∧ frame (uN w) x y r) →
  opt_ranged w s → opt_ranged w e → bool_decide (is_Some s) = bool_decide (is_Some e) →
  ∃ r, zip_try f s e = Ok r ∧
    frame (λ r, opt_ranged w r ∧ bool_decide (is_Some r) = bool_decide (is_Some s)) s e r.
Proof.
  intros Hf Hs He Hse. destruct s as [x|], e as [y|]; try done.
  - destruct (Hf x y) as (r & Hr & HP & H0 & H1); [done..|].
    exists (Some r). simpl. rewrite Hr. split; [done|].
    split; [by split|]. split; intros; f_equal; auto.
  - exists None. split; [done|]. by split.
Qed.

Context (oklab_mix : Rgb → Rgb → Z → Z → Rgb).
Context (oklab_u8 : ∀ s e n d, Rgb_wf (oklab_mix s e n d)).

Lemma interpolate_rgb_frame s e ci :
  Rgb_wf s → Rgb_wf e →
  ∃ r, interpolate_rgb oklab_mix s e num den ci = Ok r ∧ frame Rgb_wf s e r.
Proof using Hnum Hden Hpos oklab_u8.
  intros Hs He. destruct ci as [dir|]; simpl.
  - destruct s as [s1 s2 s3], e as [e1 e2 e3], Hs as (? & ? & ?), He as (? & ? & ?); simpl in *.
    unfold interpolate_rgb_encoded, interpolate_u8; simpl.
    destruct (interpolate_narrow_frame 8 s1 e1) as (a & -> & ? & ? & ?); auto.
    destruct (interpolate_narrow_frame 8 s2 e2) as (b & -> & ? & ? & ?); auto.
    destruct (interpolate_narrow_frame 8 s3 e3) as (c & -> & ? & ? & ?); auto.
    frame_done.
  - unfold interpolate_rgb_oklab. rewrite (proj2 (Z.eqb_neq den 0)) by lia.
    destruct (Z.eqb_spec num 0); [eexists; split; [done|]; split; [done|]; split; [done|lia]|].
    destruct (Z.leb_spec den num); (eexists; split; [done|]; split; [done|]; split; [|]);
      intros; done || lia.
Qed.

(** An OKLab transition needs plain 8-bit RGB at both ends. *)
Definition rgb8_shape (c : Colour) : Prop :=
  ∃ rgb, Rgb_wf rgb ∧ c = Colour_rgb rgb.

Definition supported (ci : TransitionColourInterpolation) (s e : Colour) : Prop :=
  match ci with
  | Encoded _ => colour_shape s = colour_shape e
  | Oklab => rgb8_shape s ∧ rgb8_shape e
  end.

Lemma additive_oklab_frame s e :
  Rgb_wf s → Rgb_wf e →
  ∃ r, interpolate_colour oklab_mix (Colour_rgb s) (Colour_rgb e) num den 0 Oklab =
         Ok (Colour_rgb r) ∧ frame Rgb_wf s e r.
Proof using Hnum Hden Hpos oklab_u8.
  intros Hs He. destruct (interpolate_rgb_frame s e Oklab) as (r & Hr & Hf); [done..|].
  exists r. split; [|done]. simpl in *.
  destruct s as [s1 s2 s3], e as [e1 e2 e3], Hs as (? & ? & ?), He as (? & ? & ?); simpl in *.
  unfold oklab_unsupported; simpl.
  repeat match goal with H : u8 ?x |- _ =>
    rewrite (proj2 (Z.ltb_ge 255 x)) by width; rewrite (checkU_ok 8 x H); clear H end.
  simpl. rewrite Hr. simpl.
  rewrite (proj2 (Colour_additive_Ok _ (Colour_rgb r))); [done|].
  split; [done|]. apply (Colour_rgb_wf r).
Qed.
Lemma zip_channels (l k : list ColourChannelValue) x y :
  ccv_channel <$> l = ccv_channel <$> k → (x, y) ∈ zip l k → ccv_channel x = ccv_channel y.
Proof.
  revert k. induction l as [|a l IH]; intros [|b k] Heq Hin; simplify_eq/=.
  - by apply not_elem_of_nil in Hin.
  - apply elem_of_cons in Hin as [[= -> ->]|Hin]; eauto.
Qed.

Lemma additive_wf_channels l k :
  ccv_channel <$> l = ccv_channel <$> k → additive_wf l → additive_wf k.
Proof.
  intros Heq (Hne & Hadd & Hnd). rewrite Heq in Hnd.
  split; [by intros ->; destruct l|]. split; [|done].
  apply (Forall_fmap ccv_channel (λ c, is_additive c = true) k). rewrite <-Heq.
  by apply Forall_fmap.
Qed.

Lemma interpolate_channels_channels l k rs :
  length l = length k → try_map (interpolate_channel num den) (zip l k) = Ok rs →
  ccv_channel <$> rs = ccv_channel <$> l.
Proof.
  intros Hlen Hrs%try_map_Ok. revert k Hlen Hrs.
  induction rs as [|r rs IH] in l |- *; intros k Hlen Hrs; destruct l, k; try done;
    inversion Hrs as [|? ? ? ? Hx Hxs]; subst.
  unfold interpolate_channel in Hx; simpl in Hx.
  apply bind_Ok in Hx as (v & _ & [= <-]). simpl. f_equal. eauto.
Qed.

Lemma interpolate_channels_frame l k :
  ccv_channel <$> l = ccv_channel <$> k →
  Forall (λ v, u32 (ccv_value v)) l → Forall (λ v, u32 (ccv_value v)) k →
  ∃ rs, try_map (interpolate_channel num den) (zip l k) = Ok rs ∧
    frame (Forall (λ v, u32 (ccv_value v))) l k rs ∧ ccv_channel <$> rs = ccv_channel <$> l.
Proof using Hnum Hden Hpos.
  intros Heq Hl Hk. rewrite !Forall_forall in Hl, Hk.
  assert (length l = length k) as Hlen by (by rewrite <-(length_fmap ccv_channel l), Heq, length_fmap).
  destruct (try_map_frame (interpolate_channel num den) (λ v, u32 (ccv_value v)) id l k Hlen)
    as (rs & Hrs & Hf).
  { intros x y Hx Hy Hxy. destruct (interpolate_u32_frame (ccv_value x) (ccv_value y))
      as (r & Hr & HP & H0 & H1); auto.
    eexists. unfold interpolate_channel; simpl. rewrite Hr. split; [done|]. split; [done|].
    split; intros; [rewrite H0 by done; by destruct x|].
    rewrite H1, (zip_channels l k x y) by done. by destruct y. }
  rewrite !list_fmap_id in Hf. exists rs. split; [done|]. split; [done|].
  by eapply interpolate_channels_channels.
Qed.

(** Interpolation in the encoded space, for colours of one structure. *)
Lemma interpolate_colour_frame s e hm dir :
  u32 hm → Colour_ranged hm s → Colour_ranged hm e → colour_shape s = colour_shape e →
  ∃ r, interpolate_colour oklab_mix s e num den hm (Encoded dir) = Ok r ∧
       frame (λ r, Colour_ranged hm r ∧ colour_shape r = colour_shape s) s e r.
Proof using Hnum Hden Hpos.
  intros Hhm [Hws Hs] [Hwe He] Hsh.
  destruct s as [l|h1 s1 v1|h1 s1 v1|k1|i1], e as [k|h2 s2 v2|h2 s2 v2|k2|i2]; try done.
  - injection Hsh as Hsh. unfold interpolate_colour.
    destruct (interpolate_channels_frame l k) as (rs & Hrs & (HP & H0 & H1) & Hch); [done..|].
    assert (length l = length k) as Hlen by (by rewrite <-(length_fmap ccv_channel l), Hsh, length_fmap).
    rewrite bool_decide_true by done. simpl.
    assert (forallb (λ p, bool_decide (ccv_channel p.1 = ccv_channel p.2)) (zip l k) = true) as ->.
    { apply forallb_forall. intros [x y] Hxy%list_elem_of_In. apply bool_decide_true.
      by apply (zip_channels l k). }
    rewrite Hrs. simpl. assert (additive_wf rs) as Hwf by (by eapply additive_wf_channels).
    rewrite (proj2 (Colour_additive_Ok rs (Colour_Additive rs))) by done.
    exists (Colour_Additive rs). split; [done|].
    split; [split; [done|unfold colour_shape; simpl; by rewrite Hch]|].
    split; intros; f_equal; auto.
  - destruct Hs as (? & ? & ?), He as (? & ? & ?). simpl.
    destruct (interpolate_hue_frame h1 h2 hm dir) as (a & -> & ? & ? & ?); auto.
    destruct (interpolate_u32_frame s1 s2) as (b & -> & ? & ? & ?); auto.
    destruct (interpolate_u32_frame v1 v2) as (c & -> & ? & ? & ?); auto.
    frame_done.
  - destruct Hs as (? & ? & ?), He as (? & ? & ?). simpl.
    destruct (interpolate_hue_frame h1 h2 hm dir) as (a & -> & ? & ? & ?); auto.
    destruct (interpolate_u32_frame s1 s2) as (b & -> & ? & ? & ?); auto.
    destruct (interpolate_u32_frame v1 v2) as (c & -> & ? & ? & ?); auto.
    frame_done.
  - simpl. destruct (interpolate_u32_frame k1 k2) as (c & -> & ? & ? & ?); auto.
    frame_done.
  - simpl. destruct (interpolate_u32_frame i1 i2) as (c & -> & ? & ? & ?); auto.
    frame_done.
Qed.

Lemma interpolate_rgbs_frame l k ci :
  length l = length k → Forall Rgb_wf l → Forall Rgb_wf k →
  ∃ rs, try_map (λ p, interpolate_rgb oklab_mix p.1 p.2 num den ci) (zip l k) = Ok rs ∧
    frame (λ rs, Forall Rgb_wf rs ∧ length rs = length l) l k rs.
Proof using Hnum Hden Hpos oklab_u8.
  intros Hlen Hl Hk. rewrite !Forall_forall in Hl, Hk.
  destruct (try_map_frame (λ p, interpolate_rgb oklab_mix p.1 p.2 num den ci) Rgb_wf id l k Hlen)
    as (rs & Hrs & HP & H0 & H1).
  { intros x y Hx Hy _. apply interpolate_rgb_frame; auto. }
  rewrite !list_fmap_id in *. exists rs. split; [done|]. split; [|done]. split; [done|].
  apply try_map_length in Hrs. rewrite length_zip_with in Hrs. lia.
Qed.

Lemma interpolate_arguments_frame s e ci :
  arguments_ranged s → arguments_ranged e → arguments_shape s = arguments_shape e →
  ∃ r, interpolate_arguments oklab_mix s e num den ci = Ok r ∧
    frame (λ r, arguments_ranged r ∧ arguments_shape r = arguments_shape s) s e r.
Proof using Hnum Hden Hpos oklab_u8.
  destruct s as [c1 s1 d1 t1 b1 o1], e as [c2 s2 d2 t2 b2 o2].
  intros (Hc1 & Hs1 & Ht1 & Hb1) (Hc2 & Hs2 & Ht2 & Hb2).
  unfold arguments_shape; simpl in *. intros [= Hlen Hs Hd Ht Hb Ho]. subst d2 o2.
  unfold interpolate_arguments; simpl. rewrite !bool_decide_true by done.
  rewrite Hs, Ht, Hb, !eqb_reflx. simpl.
  destruct (interpolate_rgbs_frame c1 c2 ci) as (cs & -> & (? & Hcs) & ? & ?); [done..|].
  destruct (zip_try_frame (λ l r, interpolate_u16 l r num den) 16 s1 s2)
    as (s' & -> & (? & Hs') & ? & ?); [intros; apply interpolate_narrow_frame; auto|done..|].
  destruct (zip_try_frame (λ l r, interpolate_u32 l r num den) 32 t1 t2)
    as (t' & -> & (? & Ht') & ? & ?); [intros; apply interpolate_u32_frame; auto|done..|].
  destruct (zip_try_frame (λ l r, interpolate_u32 l r num den) 32 b1 b2)
    as (b' & -> & (? & Hb') & ? & ?); [intros; apply interpolate_u32_frame; auto|done..|].
  simpl. eexists. split; [done|].
  split; [split; [done|simpl; by rewrite Hcs, Hs', Ht', Hb', Hs, Ht, Hb]|].
  split; intros; f_equal; auto.
Qed.

(** The pairs of effects a transition accepts. *)
Definition effects_supported (ci : TransitionColourInterpolation) (s e : Effect) : Prop :=
  compatible_effects s e ∧
  match s, e with Effect_Static s, Effect_Static e => supported ci s e | _, _ => True end.

Lemma rgb8_shape_ranged hm r : Rgb_wf r → Colour_ranged hm (Colour_rgb r).
Proof.
  intros (? & ? & ?). split; [apply Colour_rgb_wf|]. simpl.
  repeat constructor; simpl; width.
Qed.

Lemma interpolate_colour_supported s e hm ci :
  u32 hm → Colour_ranged hm s → Colour_ranged hm e → supported ci s e →
  ∃ r, interpolate_colour oklab_mix s e num den hm ci = Ok r ∧
       frame (λ r, Colour_ranged hm r ∧ colour_shape r = colour_shape s) s e r.
Proof using Hnum Hden Hpos oklab_u8.
  intros Hhm Hs He Hsup. destruct ci as [dir|]; [by apply interpolate_colour_frame|].
  destruct Hsup as [(s' & Hs' & ->) (e' & He' & ->)].
  destruct (additive_oklab_frame s' e' Hs' He') as (r & Hr & HP & H0 & H1).
  exists (Colour_rgb r). split; [done|].
  split; [split; [by apply rgb8_shape_ranged|done]|]. split; intros; f_equal; auto.
Qed.

Lemma interpolate_effect_frame s e hm ci :
  u32 hm → Effect_ranged hm s → Effect_ranged hm e → effects_supported ci s e →
  ∃ r, interpolate_effect oklab_mix s e num den hm ci = Ok r ∧
       frame (λ r, Effect_ranged hm r ∧ compatible_effects s r) s e r.
Proof using Hnum Hden Hpos oklab_u8.
  intros Hhm Hs He [Hc Hsup].
  destruct s as [|c1|c1 p1|c1 p1|c1 p1|c1 p1|c1 p1|p1|p1|i1 a1],
    e as [|c2|c2 p2|c2 p2|c2 p2|c2 p2|c2 p2|p2|p2|i2 a2]; try done; simpl in *.
  1: { destruct (interpolate_colour_supported c1 c2 hm ci) as (r & -> & (? & ?) & ? & ?); [done..|].
       frame_done. }
  1-4: destruct Hs, He;
    destruct (interpolate_rgb_frame c1 c2 ci) as (r & -> & ? & ? & ?); [done..|];
    destruct (interpolate_u32_frame p1 p2) as (p & -> & ? & ? & ?); [done..|]; frame_done.
  - destruct Hs, He. rewrite bool_decide_true by done.
    destruct (interpolate_rgbs_frame c1 c2 ci) as (rs & -> & (? & ?) & ? & ?); [done..|].
    destruct (interpolate_u32_frame p1 p2) as (p & -> & ? & ? & ?); [done..|]. frame_done.
  - destruct (interpolate_u32_frame p1 p2) as (p & -> & ? & ? & ?); [done..|]. frame_done.
  - destruct (interpolate_u32_frame p1 p2) as (p & -> & ? & ? & ?); [done..|]. frame_done.
  - destruct Hc as [-> Hc]. rewrite bool_decide_true by done.
    destruct (interpolate_arguments_frame a1 a2 ci) as (r & -> & (? & ?) & ? & ?); [done..|].
    frame_done.
Qed.
Lemma forallb_channels (l k : list ColourChannelValue) :
  length l = length k →
  forallb (λ p, bool_decide (ccv_channel p.1 = ccv_channel p.2)) (zip l k) = true →
  ccv_channel <$> l = ccv_channel <$> k.
Proof.
  revert k. induction l as [|a l IH]; intros [|b k] Hlen H; try done.
  simpl in *. bool_prop. f_equal; auto.
Qed.

Lemma oklab_supported_channel s e ch :
  oklab_unsupported s e ch = false →
  ccv_channel s = ch ∧ ccv_channel e = ch ∧ ccv_value s <= 255 ∧ ccv_value e <= 255.
Proof. unfold oklab_unsupported. intros H. bool_prop. done. Qed.

(** Only supported colour pairs are interpolated. *)
Lemma interpolate_colour_Ok_supported s e hm ci r :
  Colour_ranged hm s → Colour_ranged hm e →
  interpolate_colour oklab_mix s e num den hm ci = Ok r →
  supported ci s e ∧ colour_shape s = colour_shape e.
Proof.
  intros [_ Hs] [_ He] H. destruct ci as [dir|].
  - enough (colour_shape s = colour_shape e) by done.
    destruct s as [l| | | |], e as [k| | | |]; try done. simpl in H.
    case_bool_decide as Hlen; [|done].
    destruct (forallb _ _) eqn:Hf in H; [|done].
    apply forallb_channels in Hf; [|done]. unfold colour_shape; simpl. by rewrite Hf.
  - destruct s as [l| | | |], e as [k| | | |]; try done. simpl in H.
    destruct l as [|[c1 v1] [|[c2 v2] [|[c3 v3] [|]]]], k as [|[d1 w1] [|[d2 w2] [|[d3 w3] [|]]]];
      try done. simpl in H.
    destruct (_ || _) eqn:Hu in H; [done|]. clear H. bool_prop.
    repeat match goal with H : oklab_unsupported _ _ _ = false |- _ =>
      apply oklab_supported_channel in H as (? & ? & ? & ?) end. simpl in *. subst.
    repeat match goal with H : Forall _ (_ :: _) |- _ => apply Forall_cons in H as [? H] end.
    simpl in *. split; [|done].
    split; [exists (Rgb_new v1 v2 v3)|exists (Rgb_new w1 w2 w3)]; (split; [|done]);
      unfold Rgb_wf, uN in *; simpl; lia.
Qed.

Lemma interpolate_arguments_Ok_shape s e ci r :
  interpolate_arguments oklab_mix s e num den ci = Ok r → arguments_shape s = arguments_shape e.
Proof.
  unfold interpolate_arguments, arguments_shape. intros H. case_match eqn:E; [done|].
  clear H. bool_prop.
  repeat match goal with H : eqb _ _ = true |- _ => apply eqb_prop in H; rewrite H; clear H end.
  congruence.
Qed.

Lemma interpolate_effect_Ok_supported s e hm ci r :
  Effect_ranged hm s → Effect_ranged hm e →
  interpolate_effect oklab_mix s e num den hm ci = Ok r → effects_supported ci s e.
Proof.
  intros Hs He H. unfold effects_supported.
  destruct s, e; try done; simpl in *.
  - apply bind_Ok in H as (c & Hc & _). by apply interpolate_colour_Ok_supported in Hc as [? ?].
  - by case_bool_decide.
  - case_bool_decide; [|done]. apply bind_Ok in H as (a & Ha%interpolate_arguments_Ok_shape & _).
    by split_and!.
Qed.
End interpolation.

(** ** Discrete ranges *)

Definition DiscreteRange_ranged (r : DiscreteRange) : Prop :=
  u32 (range_min r) ∧ u32 (range_max r) ∧ u32 (range_step r).

(** Bracketing of a clamped value by the step below and the next stop. *)
Lemma snap_brackets v r :
  DiscreteRange_ranged r → range_step r ≠ 0 → range_min r <= range_max r →
  let value := Z.max (range_min r) (Z.min v (range_max r)) in
  let k := (value - range_min r) / range_step r in
  let lower := range_min r + k * range_step r in
  let upper := Z.min (lower + range_step r) (range_max r) in
  0 <= k ∧ lower <= value < lower + range_step r ∧ value <= upper <= range_max r ∧
  snap_to_discrete_range_u32 v r =
    Ok (if value - lower <? upper - value then lower else upper).
Proof.
  intros (Hmin & Hmax & Hstep) Hs Hle value k lower upper.
  assert (range_min r <= value <= range_max r) by lia.
  assert (0 < range_step r) as Hpos by (unfold uN in *; lia).
  pose proof (Z.div_mod (value - range_min r) (range_step r) ltac:(lia)) as Hdm.
  pose proof (Z.mod_pos_bound (value - range_min r) (range_step r) Hpos) as Hmod.
  fold k in Hdm. assert (0 <= k) by (apply Z.div_pos; lia).
  assert (lower <= value < lower + range_step r) by (unfold lower; lia).
  split_and!; try lia.
  unfold snap_to_discrete_range_u32.
  rewrite (proj2 (Z.eqb_neq _ _)) by done. rewrite (proj2 (Z.ltb_ge _ _)) by done. simpl.
  fold value. fold k. fold lower.
  replace (Z.min (saturateU 32 (lower + range_step r)) (range_max r)) with upper.
  - by destruct (_ <? _).
  - unfold upper, saturateU, uN_max. unfold uN in *. lia.
Qed.

Lemma contains_spec r y :
  range_step r ≠ 0 →
  DiscreteRange_contains r y = true ↔
  range_min r <= y <= range_max r ∧ ∃ j, y = range_min r + j * range_step r.
Proof.
  intros Hs. unfold DiscreteRange_contains. rewrite (proj2 (Z.eqb_neq _ _)) by done. simpl.
  rewrite !andb_true_iff, !Z.leb_le, Z.eqb_eq. split.
  - intros [[? ?] Hm]. split; [lia|]. apply Z.div_exact in Hm; [|done].
    exists ((y - range_min r) / range_step r). lia.
  - intros ([? ?] & j & ->). split; [lia|].
    replace (range_min r + j * range_step r - range_min r) with (j * range_step r) by lia.
    by apply Z.mod_mul.
Qed.

(** Two points of a step grid are equal or a step apart. *)
Lemma steps_apart m j k step :
  0 < step → m + j * step <= m + k * step ∨ m + k * step + step <= m + j * step.
Proof. intros. destruct (Z.le_gt_cases j k); [left|right]; nia. Qed.

(** ** Timing *)

Lemma TransitionOptions_new_Ok d i o :
  0 <= d →
  TransitionOptions_new d i = Ok o ↔
  1000000 <= d ∧ u64 (d / 1000000) ∧
  match i with Some i => MINIMUM_STEP_INTERVAL <= i ∧ u64 (i / 1000000) | None => True end ∧
  o = {| to_duration_ms := d / 1000000; to_step_interval_ms := (λ i, i / 1000000) <$> i;
         to_function := Linear;
         to_colour_interpolation := TransitionColourInterpolation_default |}.
Proof.
  intros Hd. unfold TransitionOptions_new, as_millis.
  assert (1000000 <= d ↔ d / 1000000 ≠ 0) as Hms.
  { split; intros H.
    - pose proof (Z.div_le_mono 1000000 d 1000000 ltac:(lia) H). rewrite Z.div_same in *; lia.
    - destruct (Z.le_gt_cases 1000000 d); [done|]. destruct H. apply Z.div_small. lia. }
  assert (∀ j, MINIMUM_STEP_INTERVAL <= j → j / 1000000 ≠ 0) as Hstep.
  { intros j Hj. pose proof (Z.div_le_mono _ _ 1000000 ltac:(lia) Hj) as Hdiv.
    vm_compute (MINIMUM_STEP_INTERVAL / 1000000) in Hdiv. lia. }
  destruct (Z.eqb_spec d 0) as [->|Hd0]; [split; [done|lia]|].
  destruct i as [i|]; simpl.
  - destruct (Z.ltb_spec i MINIMUM_STEP_INTERVAL) as [Hi|Hi]; [split; [done|lia]|].
    split.
    + intros H. res_inv. repeat match goal with H : checkU _ _ = Some _ |- _ =>
        apply checkU_Some in H as [-> ?] end.
      destruct (_ || _) eqn:Hb in H; [done|]. bool_prop. injection H as <-. simpl in *.
      split; [by apply Hms|]. by split_and!.
    + intros (H1 & Hu & [_ Hui] & ->). rewrite !checkU_ok by done. simpl.
      rewrite (proj2 (Z.eqb_neq _ _)) by (by apply Hms). simpl.
      rewrite bool_decide_false; [done|]. intros [= H]. by apply (Hstep i).
  - split.
    + intros H. res_inv. repeat match goal with H : checkU _ _ = Some _ |- _ =>
        apply checkU_Some in H as [-> ?] end.
      destruct (_ || _) eqn:Hb in H; [done|]. bool_prop. injection H as <-. simpl in *.
      split; [by apply Hms|]. by split_and!.
    + intros (H1 & Hu & _ & ->). rewrite !checkU_ok by done. simpl.
      by rewrite (proj2 (Z.eqb_neq _ _)) by (by apply Hms).
Qed.

(** ** Claims *)

(** [interpolate_u32] is total on a non-zero denominator, stays between its
    endpoints, is the nearest integer to the exact linear value, is exact at both
    ends, and moves monotonically from start to end as progress grows; neither the
    intermediate [i128] arithmetic nor the final [u32] conversion overflows. *)
Theorem interpolate_u32_correct s e den :
  u32 s → u32 e → u64 den → 0 < den →
  ∃ f : Z → Z, ∀ num, 0 <= num →
    interpolate_u32 s e num den = Ok (f num) ∧
    Z.min s e <= f num <= Z.max s e ∧
    2 * Z.abs (f num * den - (s * den + (e - s) * Z.min num den)) <= den ∧
    (num = 0 → f num = s) ∧ (den <= num → f num = e) ∧
    ∀ num', num <= num' → if s <=? e then f num <= f num' else f num' <= f num.
Proof.
  intros Hs He Hden Hpos.
  exists (λ num, s + round_scaled ((e - s) * Z.min num den) den). intros num Hnum.
  pose proof (interpolate_u32_eq s e num den Hs He Hnum Hden Hpos) as Heq.
  destruct (interpolate_u32_between s e num den Hs He Hnum Hden Hpos) as (r & Hr & Hb).
  destruct (interpolate_u32_frame num den Hnum Hden Hpos s e Hs He) as (r' & Hr' & _ & H0 & H1).
  rewrite Heq in Hr, Hr'. injection Hr as <-. injection Hr' as <-.
  assert (- 2 ^ 33 <= e - s <= 2 ^ 33) as Hd by (unfold uN in *; lia).
  pose proof (scaled_range (e - s) (Z.min num den) den Hd ltac:(lia) Hden) as Hsc.
  split_and!; auto; [apply Hb|apply Hb| |].
  - pose proof (round_scaled_near _ den Hsc Hden Hpos). lia.
  - intros num' Hn. pose proof (scaled_range (e - s) (Z.min num' den) den Hd ltac:(lia) Hden).
    destruct (Z.leb_spec s e); apply Z.add_le_mono_l; apply round_scaled_mono; lia || done || nia.
Qed.

Lemma interpolate_u32_correct_witness :
  ∃ f : Z → Z, interpolate_u32 10 4000000000 7 9 = Ok (f 7) ∧ f 9 = 4000000000.
Proof.
  destruct (interpolate_u32_correct 10 4000000000 9) as (f & Hf);
    try (unfold uN; lia).
  exists f. split; [apply (Hf 7); lia|]. apply (Hf 9); lia.
Defined.

(** [ease_progress] is total on a non-zero denominator, answers a fraction of
    the fixed denominator within the unit interval, keeps both endpoints exact and
    never moves backwards, except by one grid step of [10^-9] on the smooth curve;
    no [u128] operation wraps around. *)
Theorem ease_progress_correct fn den :
  u64 den → 0 < den →
  ∃ f : Z → Z, ∀ num, 0 <= num →
    ease_progress fn num den = Ok (f num, SCALE) ∧ 0 <= f num <= SCALE ∧
    (num = 0 → f num = 0) ∧ (den <= num → f num = SCALE) ∧
    ∀ num', num <= num' → f num <= f num' + (if decide (fn = EaseInOut) then 1 else 0).
Proof.
  intros Hden Hpos. exists (λ num, curve fn (progress num den)). intros num Hnum.
  destruct (progress_spec num den Hnum Hden Hpos) as [Hx _].
  split_and!; try apply curve_range; try done.
  - by apply ease_progress_eq.
  - intros ->. by rewrite progress_0, curve_0.
  - intros ?. by rewrite progress_end, curve_end.
  - intros num' Hn. destruct (progress_spec num' den ltac:(lia) Hden Hpos) as [Hx' _].
    apply curve_mono; [lia|by apply progress_mono|lia].
Qed.

Lemma ease_progress_correct_witness :
  ∃ f : Z → Z, ease_progress EaseInOut 3 10 = Ok (f 3, SCALE) ∧ f 10 = SCALE.
Proof.
  destruct (ease_progress_correct EaseInOut 10) as (f & Hf); try (unfold uN; lia).
  exists f. split; [apply (Hf 3); lia|]. apply (Hf 10); lia.
Defined.

(** [interpolate_hue] always answers an encoded hue, exact at both ends, by
    walking from the start in the asked direction by less than a turn, and by at
    most half a turn on the shortest path; the walked distance is the nearest
    integer to the elapsed share of the whole way. *)
Theorem interpolate_hue_correct s e maximum num den dir :
  u32 maximum → 0 <= s <= maximum → 0 <= e <= maximum → 0 <= num → u64 den → 0 < den →
  ∃ r walked whole,
    interpolate_hue s e maximum num den dir = Ok r ∧
    0 <= r <= maximum ∧ (num = 0 → r = s) ∧ (den <= num → r = e) ∧
    r = (s + walked) mod (maximum + 1) ∧ e = (s + whole) mod (maximum + 1) ∧
    2 * Z.abs (walked * den - whole * Z.min num den) <= den ∧
    match dir with
    | Shortest => 2 * Z.abs whole <= maximum + 1
    | Increasing => 0 <= walked ∧ 0 <= whole <= maximum
    | Decreasing => walked <= 0 ∧ - maximum <= whole <= 0
    end.
Proof.
  intros Hm Hs He Hnum Hden Hpos.
  destruct (interpolate_hue_frame num den Hnum Hden Hpos s e maximum dir Hm Hs He)
    as (r & Hr & Hrange & H0 & H1).
  pose proof (interpolate_hue_eq s e maximum num den dir Hm Hnum Hden Hpos) as Heq.
  rewrite Hr in Heq. injection Heq as Heq.
  rewrite !(Z.mod_small s), !(Z.mod_small e) in Heq by lia.
  destruct (hue_distance_spec s e (maximum + 1) dir) as (Hd & Hdr & Hdir); [lia..|].
  set (d := hue_distance s e (maximum + 1) dir) in *.
  assert (- 2 ^ 33 <= d <= 2 ^ 33) as Hdl by (unfold uN in *; lia).
  pose proof (scaled_range d (Z.min num den) den Hdl ltac:(lia) Hden) as Hsc.
  pose proof (round_scaled_near _ den Hsc Hden Hpos) as Hnear.
  pose proof (round_scaled_between d (Z.min num den) den Hdl ltac:(lia) Hden Hpos).
  exists r, (round_scaled (d * Z.min num den) den), d.
  split_and!; try done; try lia. destruct dir; lia.
Qed.

Lemma interpolate_hue_correct_witness :
  ∃ r walked whole : Z, interpolate_hue 65000 500 65535 1 2 Shortest = Ok r ∧
    r = (65000 + walked) mod (65535 + 1) ∧ 2 * Z.abs whole <= 65535 + 1.
Proof.
  destruct (interpolate_hue_correct 65000 500 65535 1 2 Shortest)
    as (r & w & d & H & _ & _ & _ & Hr & _ & _ & Hd); try (unfold uN; lia).
  exists r, w, d. split; [exact H|]. split; [exact Hr|exact Hd].
Defined.

(** A transition between two effects succeeds exactly when they have the same
    identity, discrete arguments, colour structure and colour counts (and, for
    OKLab, plain 8-bit RGB at both ends of a static colour); every frame then
    keeps that structure and the width of every field, and the first and last
    frames are exactly the two effects. *)
Theorem interpolate_effect_correct oklab_mix s e num den hm ci :
  (∀ s e n d, Rgb_wf (oklab_mix s e n d)) →
  0 <= num → u64 den → 0 < den → u32 hm → Effect_ranged hm s → Effect_ranged hm e →
  (is_ok (interpolate_effect oklab_mix s e num den hm ci) = true ↔ effects_supported ci s e) ∧
  (effects_supported ci s e → ∃ r,
     interpolate_effect oklab_mix s e num den hm ci = Ok r ∧
     Effect_ranged hm r ∧ compatible_effects s r ∧
     (num = 0 → r = s) ∧ (den <= num → r = e)).
Proof.
  intros Hmix Hnum Hden Hpos Hhm Hs He. rewrite is_ok_true. split; [split|].
  - intros [r Hr]. by eapply interpolate_effect_Ok_supported.
  - intros H. destruct (interpolate_effect_frame num den Hnum Hden Hpos oklab_mix Hmix s e hm ci)
      as (r & Hr & _); eauto.
  - intros H. destruct (interpolate_effect_frame num den Hnum Hden Hpos oklab_mix Hmix s e hm ci)
      as (r & Hr & (? & ?) & ? & ?); eauto 10.
Qed.

Lemma interpolate_effect_correct_witness :
  ∃ r, interpolate_effect (λ _ _ _ _, Rgb_BLACK) (Effect_Static (Colour_Hsv 350 10 20))
         (Effect_Static (Colour_Hsv 10 90 200)) 1 4 359 (Encoded Shortest) = Ok r ∧
       Effect_ranged 359 r.
Proof.
  destruct (interpolate_effect_correct (λ _ _ _ _, Rgb_BLACK)
    (Effect_Static (Colour_Hsv 350 10 20)) (Effect_Static (Colour_Hsv 10 90 200))
    1 4 359 (Encoded Shortest)) as [_ H].
  1: intros; unfold Rgb_wf, uN; simpl; lia.
  1-4: unfold uN; lia.
  1-2: unfold Effect_ranged, Colour_ranged, Colour_wf, uN; lia.
  destruct H as (r & Hr & Hg & _); [split; reflexivity|].
  exists r. split; [exact Hr|exact Hg].
Defined.

(** [snap_to_discrete_range_u32] answers a value of the range, and when the
    maximum lies on a step the value is advertised and no advertised value is
    nearer to the clamped input. *)
Theorem snap_correct v r :
  DiscreteRange_ranged r → range_step r ≠ 0 → range_min r <= range_max r →
  ∃ x, snap_to_discrete_range_u32 v r = Ok x ∧ range_min r <= x <= range_max r ∧
    (DiscreteRange_contains r x = true ∨ x = range_max r) ∧
    (DiscreteRange_contains r (range_max r) = true →
       DiscreteRange_contains r x = true ∧
       ∀ y, DiscreteRange_contains r y = true →
         Z.abs (x - Z.max (range_min r) (Z.min v (range_max r))) <=
         Z.abs (y - Z.max (range_min r) (Z.min v (range_max r)))).
Proof.
  intros Hr Hs Hle. destruct (snap_brackets v r Hr Hs Hle) as (Hk & Hlow & Hup & Heq).
  set (value := Z.max (range_min r) (Z.min v (range_max r))) in *.
  set (k := (value - range_min r) / range_step r) in *.
  set (lower := range_min r + k * range_step r) in *.
  set (upper := Z.min (lower + range_step r) (range_max r)) in *.
  assert (0 < range_step r) as Hpos by (destruct Hr as (_ & _ & Hst); unfold uN in Hst; lia).
  assert (range_min r <= lower) as Hml by (unfold lower; nia).
  assert (DiscreteRange_contains r lower = true) as Hcl.
  { apply contains_spec; [done|]. split; [lia|]. by exists k. }
  assert (upper = range_max r ∨ DiscreteRange_contains r upper = true) as Hcu.
  { destruct (Z.le_gt_cases (lower + range_step r) (range_max r)); [right|left; lia].
    apply contains_spec; [done|]. split; [lia|]. exists (k + 1). unfold upper, lower in *. lia. }
  assert (∀ y, DiscreteRange_contains r y = true → y <= lower ∨ lower + range_step r <= y)
    as Hgap.
  { intros y [_ (j & ->)]%contains_spec; [|done]. by apply steps_apart. }
  eexists. split; [exact Heq|].
  destruct (Z.ltb_spec (value - lower) (upper - value)).
  - split; [lia|]. split; [by left|]. intros _. split; [done|].
    intros y [?|?]%Hgap; unfold upper in *; lia.
  - split; [lia|]. split; [destruct Hcu; auto|]. intros Hmax.
    split; [by destruct Hcu as [->|]|].
    destruct (Hgap _ Hmax); intros y [?|?]%Hgap; unfold upper in *; lia.
Qed.

Lemma snap_correct_witness :
  ∃ x, snap_to_discrete_range_u32 7 (DiscreteRange_new 0 20 5) = Ok x ∧
       DiscreteRange_contains (DiscreteRange_new 0 20 5) x = true.
Proof.
  destruct (snap_correct 7 (DiscreteRange_new 0 20 5)) as (x & Hx & _ & _ & H);
    [unfold DiscreteRange_ranged, uN; simpl; lia|discriminate|simpl; lia|].
  exists x. split; [exact Hx|]. apply H. reflexivity.
Defined.

(** When the maximum is not on a step, snapping can answer a value that
    [DiscreteRange::contains] rejects. *)
Theorem snap_unadvertised :
  ∃ v r x, DiscreteRange_contains r (range_min r) = true ∧
    snap_to_discrete_range_u32 v r = Ok x ∧ DiscreteRange_contains r x = false.
Proof.
  exists 9, (DiscreteRange_new 0 9 4), 9. by vm_compute.
Qed.

(** Transition timing is accepted exactly when the duration is at least one
    millisecond, the optional step interval at least ten, and both fit the 64-bit
    millisecond fields; the stored timing is then the requested one truncated to
    milliseconds, and the step interval in force is never below the minimum. *)
Theorem transition_options_correct d i o :
  0 <= d →
  (TransitionOptions_new d i = Ok o ↔
   1000000 <= d ∧ u64 (d / 1000000) ∧
   match i with Some i => MINIMUM_STEP_INTERVAL <= i ∧ u64 (i / 1000000) | None => True end ∧
   o = {| to_duration_ms := d / 1000000; to_step_interval_ms := (λ i, i / 1000000) <$> i;
          to_function := Linear;
          to_colour_interpolation := TransitionColourInterpolation_default |}) ∧
  (TransitionOptions_new d i = Ok o →
   duration o <= d < duration o + 1000000 ∧ 0 < duration o ∧
   MINIMUM_STEP_INTERVAL <= step_interval o).
Proof.
  intros Hd. rewrite TransitionOptions_new_Ok by done. split; [done|].
  intros (H1 & _ & Hi & ->). unfold duration, from_millis; simpl.
  pose proof (Z.div_mod d 1000000 ltac:(lia)). pose proof (Z.mod_pos_bound d 1000000 ltac:(lia)).
  split_and!; [lia..|].
  destruct i as [i|]; unfold step_interval; simpl; [|by vm_compute].
  destruct Hi as [Hi _]. unfold MINIMUM_STEP_INTERVAL, from_millis in *.
  apply (Z.div_le_mono _ _ 1000000) in Hi; [|lia]. rewrite Z.div_mul in Hi by lia. lia.
Qed.

Lemma transition_options_correct_witness :
  ∃ o, TransitionOptions_new (from_millis 250) (Some (from_millis 20)) = Ok o ∧
       MINIMUM_STEP_INTERVAL <= step_interval o.
Proof.
  eexists. split; [reflexivity|].
  apply (transition_options_correct (from_millis 250) (Some (from_millis 20)));
    [vm_compute; discriminate|reflexivity].
Defined.
