(* ===== verification/Graph.v ===== *)
(** * Collection membership graphs: [luminate-core/src/collection.rs]

    Resolution of a collection to its concrete leaves and projection of a graph
    through a visibility rule.  Both are depth-first traversals over a graph that
    is not assumed valid; they are modelled with fuel, one unit per nesting
    level, and [CollectionGraph_fuel] is proved to be enough.  The caller's
    [FnMut] predicates are pure functions here.  [HashMap] is [gmap] and [HashSet]
    [gset]. *)

From S2P Require Import Prelude Model.

Record CollectionGraph := {
  cg_collections : gmap CollectionId Collection;
  cg_duplicates : gset CollectionId
}.

Inductive CollectionGraphError :=
| CollectionNotFound (id : CollectionId)
| DuplicateCollection (id : CollectionId)
| Cycle (id : CollectionId).
#[export] Instance CollectionGraphError_eq : EqDecision CollectionGraphError.
Proof. solve_decision. Defined.

Definition references_self (id : CollectionId) (members : list CollectionMember) : bool :=
  existsb (λ m, bool_decide (m = Member_Collection id)) members.

Definition CollectionGraph_insert (g : CollectionGraph) (c : Collection) : CollectionGraph := {|
  cg_collections := <[collection_id c := c]> (cg_collections g);
  cg_duplicates :=
    if bool_decide (is_Some (cg_collections g !! collection_id c))
    then {[collection_id c]} ∪ cg_duplicates g else cg_duplicates g
|}.

Definition CollectionGraph_new (collections : list Collection) : CollectionGraph :=
  fold_left CollectionGraph_insert collections
    {| cg_collections := ∅; cg_duplicates := ∅ |}.

(** One level per collection that can be on the path, and one to detect the
    repetition. *)
Definition CollectionGraph_fuel (g : CollectionGraph) : nat := S (size (dom (cg_collections g))).

(** ** Resolution *)

(** The three accumulators threaded through [collect_leaves]. *)
Record Walk := {
  w_visiting : gset CollectionId;
  w_expanded : gset CollectionId;
  w_leaves : list TargetId
}.

(** [if !leaves.contains(target) { leaves.push(target) }] *)
Definition push_new (leaves : list TargetId) (target : TargetId) : list TargetId :=
  if decide (target ∈ leaves) then leaves else leaves ++ [target].

(** One iteration of the loop over the members; [rec] is the recursive call. *)
Definition collect_member
    (rec : CollectionId → Walk → result (fuelled CollectionGraphError) Walk)
    (w : Walk) (member : CollectionMember) : result (fuelled CollectionGraphError) Walk :=
  match member with
  | Member_Target target =>
      Ok {| w_visiting := w_visiting w; w_expanded := w_expanded w;
            w_leaves := push_new (w_leaves w) target |}
  | Member_Collection nested => rec nested w
  end.

Fixpoint collect_leaves (g : CollectionGraph) (fuel : nat) (id : CollectionId) (w : Walk) :
    result (fuelled CollectionGraphError) Walk :=
  match fuel with
  | O => Err Fuel
  | S fuel =>
      if decide (id ∈ w_expanded w) then Ok w
      else if decide (id ∈ cg_duplicates g) then Err (Fail (DuplicateCollection id))
      else if decide (id ∈ w_visiting w) then Err (Fail (Cycle id))
      else
        collection ← ok_or (cg_collections g !! id) (Fail (CollectionNotFound id));
        w' ← try_fold (collect_member (collect_leaves g fuel))
               {| w_visiting := {[id]} ∪ w_visiting w; w_expanded := w_expanded w;
                  w_leaves := w_leaves w |}
               (collection_members collection);
        Ok {| w_visiting := w_visiting w' ∖ {[id]}; w_expanded := {[id]} ∪ w_expanded w';
              w_leaves := w_leaves w' |}
  end.

Definition resolve_leaves (g : CollectionGraph) (id : CollectionId) :
    result (fuelled CollectionGraphError) (list TargetId) :=
  w ← collect_leaves g (CollectionGraph_fuel g) id
        {| w_visiting := ∅; w_expanded := ∅; w_leaves := [] |};
  Ok (w_leaves w).

(** The keys, sorted by identifier. *)
Definition id_le (a b : CollectionId) : Prop :=
  String.le (CollectionId_as_str a) (CollectionId_as_str b).
#[export] Instance id_le_dec : RelDecision id_le.
Proof. intros a b. unfold id_le. apply _. Defined.

Definition sorted_ids (g : CollectionGraph) : list CollectionId :=
  merge_sort id_le (elements (dom (cg_collections g))).

Definition collections_containing (g : CollectionGraph) (matches : TargetId → bool) :
    list CollectionId :=
  filter (λ id, match resolve_leaves g id with
                | Ok leaves => existsb matches leaves
                | Err _ => false
                end = true) (sorted_ids g).

(** ** Projection *)

Section project.
Context (target_visible : TargetId → bool) (empty_visible : CollectionId → bool).

Record Projection := {
  p_visiting : gset CollectionId;
  p_cache : gmap CollectionId (option Collection)
}.

(** One iteration of the member loop: the members kept so far and the state. *)
Definition project_member
    (rec : CollectionId → Projection →
           result (fuelled CollectionGraphError) (option Collection * Projection))
    (acc : list CollectionMember * Projection) (member : CollectionMember) :
    result (fuelled CollectionGraphError) (list CollectionMember * Projection) :=
  let '(members, p) := acc in
  match member with
  | Member_Target target =>
      Ok (if target_visible target then members ++ [member] else members, p)
  | Member_Collection nested =>
      '(projected, p') ← rec nested p;
      Ok (match projected with Some _ => members ++ [member] | None => members end, p')
  end.

Fixpoint project_one (g : CollectionGraph) (fuel : nat) (id : CollectionId) (p : Projection) :
    result (fuelled CollectionGraphError) (option Collection * Projection) :=
  match fuel with
  | O => Err Fuel
  | S fuel =>
      match p_cache p !! id with
      | Some projected => Ok (projected, p)
      | None =>
          if decide (id ∈ cg_duplicates g) then Err (Fail (DuplicateCollection id))
          else if decide (id ∈ p_visiting p) then Err (Fail (Cycle id))
          else
            collection ← ok_or (cg_collections g !! id) (Fail (CollectionNotFound id));
            '(members, p') ← try_fold (project_member (project_one g fuel))
                   ([], {| p_visiting := {[id]} ∪ p_visiting p; p_cache := p_cache p |})
                   (collection_members collection);
            let projected :=
              if bool_decide (members = []) && negb (empty_visible id) then None
              else Some (with_members collection members) in
            Ok (projected, {| p_visiting := p_visiting p' ∖ {[id]};
                              p_cache := <[id := projected]> (p_cache p') |})
      end
  end.

(** The loop of [project] over the sorted identifiers. *)
Definition project_step (g : CollectionGraph) (acc : list Collection * Projection)
    (id : CollectionId) : result (fuelled CollectionGraphError) (list Collection * Projection) :=
  '(projected, p) ← project_one g (CollectionGraph_fuel g) id acc.2;
  Ok (match projected with Some c => acc.1 ++ [c] | None => acc.1 end, p).

Definition project (g : CollectionGraph) :
    result (fuelled CollectionGraphError) (list Collection) :=
  '(projected, _) ← try_fold (project_step g) ([], {| p_visiting := ∅; p_cache := ∅ |})
                      (sorted_ids g);
  Ok projected.
End project.

(** ** Specification *)

(** Collection [a] directly nests [b]. *)
Definition nests (g : CollectionGraph) (a b : CollectionId) : Prop :=
  ∃ c, cg_collections g !! a = Some c ∧ Member_Collection b ∈ collection_members c.

(** A collection is sound when it is registered once and everything nested in it
    is sound; being inductive, soundness also excludes cycles. *)
Inductive good (g : CollectionGraph) (id : CollectionId) : Prop :=
| good_intro c :
    cg_collections g !! id = Some c → id ∉ cg_duplicates g →
    (∀ b, Member_Collection b ∈ collection_members c → good g b) → good g id.

(** The concrete targets of a collection in depth-first order, with
    repetitions. *)
Inductive flat (g : CollectionGraph) : CollectionId → list TargetId → Prop :=
| flat_intro id c ts :
    cg_collections g !! id = Some c → flats g (collection_members c) ts → flat g id ts
with flats (g : CollectionGraph) : list CollectionMember → list TargetId → Prop :=
| flats_nil : flats g [] []
| flats_target t ms ts : flats g ms ts → flats g (Member_Target t :: ms) (t :: ts)
| flats_collection b ms ts ts' :
    flat g b ts → flats g ms ts' → flats g (Member_Collection b :: ms) (ts ++ ts').

Scheme flat_mind := Induction for flat Sort Prop
  with flats_mind := Induction for flats Sort Prop.
Combined Scheme flat_flats_ind from flat_mind, flats_mind.

(** First occurrences only. *)
Definition dedup (leaves ts : list TargetId) : list TargetId := fold_left push_new ts leaves.

(** [t] is a member of a collection reached from [id]. *)
Definition leaf_of (g : CollectionGraph) (id : CollectionId) (t : TargetId) : Prop :=
  ∃ b c, rtc (nests g) id b ∧ cg_collections g !! b = Some c ∧
         Member_Target t ∈ collection_members c.

(** What an error reports about the collection resolved. *)
Definition truthful (g : CollectionGraph) (id : CollectionId) (e : CollectionGraphError) : Prop :=
  match e with
  | CollectionNotFound x => rtc (nests g) id x ∧ cg_collections g !! x = None
  | DuplicateCollection x => rtc (nests g) id x ∧ x ∈ cg_duplicates g
  | Cycle x => rtc (nests g) id x ∧ tc (nests g) x x
  end.

(** ** Graph lemmas *)

Section graph.
Context (g : CollectionGraph).

Lemma good_nests a b : good g a → nests g a b → good g b.
Proof. intros [c Hc _ H] (c' & Hc' & Hb). rewrite Hc in Hc'. injection Hc' as <-. auto. Qed.

Lemma good_rtc a b : good g a → rtc (nests g) a b → good g b.
Proof. intros Ha H. induction H; eauto using good_nests. Qed.

Lemma good_acyclic a : good g a → ¬ tc (nests g) a a.
Proof.
  induction 1 as [a c Hc Hd Hn IH]. intros H.
  assert (∃ b, nests g a b ∧ rtc (nests g) b a) as (b & (c' & Hc' & Hb) & Hba).
  { inversion H; subst; eauto using tc_rtc, rtc_refl. }
  rewrite Hc in Hc'. injection Hc' as <-. apply (IH b Hb).
  eapply tc_rtc_l; [done|]. apply tc_once. by exists c.
Qed.

(** A truthful error rules out soundness. *)
Lemma truthful_not_good id e : truthful g id e → ¬ good g id.
Proof.
  intros He Hg. destruct e as [x|x|x]; destruct He as [Hr Hx]; apply (good_rtc _ x) in Hg; try done.
  - destruct Hg; congruence.
  - by destruct Hg.
  - by apply (good_acyclic x).
Qed.

Lemma truthful_nests a b e : nests g a b → truthful g b e → truthful g a e.
Proof. intros Hab. destruct e; intros [? ?]; split; eauto using rtc_l. Qed.

(** The flattening lists exactly the leaves. *)
Lemma flat_leaf_of :
  (∀ id ts, flat g id ts → ∀ t, t ∈ ts ↔ leaf_of g id t) ∧
  (∀ ms ts, flats g ms ts → ∀ t, t ∈ ts ↔
     Member_Target t ∈ ms ∨ ∃ b, Member_Collection b ∈ ms ∧ leaf_of g b t).
Proof.
  apply flat_flats_ind.
  - intros id c ts Hc _ IH t. rewrite IH. unfold leaf_of. split.
    + intros [Ht|(b & Hb & x & cx & Hx & Hcx & Ht)].
      * exists id, c. split; [apply rtc_refl|done].
      * exists x, cx. split; [|done]. eapply rtc_l; [by exists c|done].
    + intros (x & cx & Hx & Hcx & Ht). inversion Hx as [|? y ? (c' & Hc' & Hy) Hyx]; subst.
      * left. congruence.
      * right. rewrite Hc in Hc'. injection Hc' as <-. exists y. split; [done|]. by exists x, cx.
  - intros t. set_solver.
  - intros t ms ts _ IH t'. rewrite elem_of_cons, IH. set_solver.
  - intros b ms ts ts' _ IH _ IH' t. rewrite elem_of_app, IH, IH'. set_solver.
Qed.

Lemma dedup_app l ts ts' : dedup l (ts ++ ts') = dedup (dedup l ts) ts'.
Proof. apply fold_left_app. Qed.

Lemma elem_of_push_new l t x : x ∈ push_new l t ↔ x ∈ l ∨ x = t.
Proof. unfold push_new. case_decide; set_solver. Qed.

Lemma elem_of_dedup l ts x : x ∈ dedup l ts ↔ x ∈ l ∨ x ∈ ts.
Proof.
  revert l. induction ts as [|t ts IH]; intros l; simpl; [set_solver|].
  change (dedup l (t :: ts)) with (dedup (push_new l t) ts).
  rewrite IH, elem_of_push_new. set_solver.
Qed.

Lemma dedup_subseteq l ts : ts ⊆ l → dedup l ts = l.
Proof.
  induction ts as [|t ts IH]; intros H; [done|].
  change (dedup l (t :: ts)) with (dedup (push_new l t) ts). unfold push_new.
  rewrite decide_True by set_solver. apply IH. set_solver.
Qed.

Lemma NoDup_dedup l ts : NoDup l → NoDup (dedup l ts).
Proof.
  revert l. induction ts as [|t ts IH]; intros l Hl; [done|].
  change (dedup l (t :: ts)) with (dedup (push_new l t) ts). apply IH. unfold push_new.
  case_decide; [done|]. apply NoDup_app. split; [done|]. split; [set_solver|apply NoDup_singleton].
Qed.

(** ** The traversal of [collect_leaves] *)

(** Everything expanded is sound and its leaves are already recorded. *)
Definition walked (w : Walk) : Prop :=
  ∀ x, x ∈ w_expanded w → good g x ∧ ∃ ts, flat g x ts ∧ ts ⊆ w_leaves w.

Definition collect_post (id : CollectionId) (w : Walk)
    (r : result (fuelled CollectionGraphError) Walk) : Prop :=
  match r with
  | Ok w' => w_visiting w' = w_visiting w ∧ walked w' ∧ good g id ∧
             ∃ ts, flat g id ts ∧ w_leaves w' = dedup (w_leaves w) ts
  | Err (Fail e) => truthful g id e
  | Err Fuel => False
  end.

Definition members_post (ms : list CollectionMember) (w : Walk)
    (r : result (fuelled CollectionGraphError) Walk) : Prop :=
  match r with
  | Ok w' => w_visiting w' = w_visiting w ∧ walked w' ∧
             (∀ b, Member_Collection b ∈ ms → good g b) ∧
             ∃ ts, flats g ms ts ∧ w_leaves w' = dedup (w_leaves w) ts
  | Err (Fail e) => ∃ b, Member_Collection b ∈ ms ∧ truthful g b e
  | Err Fuel => False
  end.

Lemma walked_push w t :
  walked w → walked {| w_visiting := w_visiting w; w_expanded := w_expanded w;
                       w_leaves := push_new (w_leaves w) t |}.
Proof.
  intros Hw x Hx. destruct (Hw x Hx) as (Hg & ts & Hts & Hsub). split; [done|].
  exists ts. split; [done|]. intros y Hy. apply elem_of_push_new. auto.
Qed.

Lemma collect_members_spec rec ms w :
  (∀ b w', Member_Collection b ∈ ms → w_visiting w' = w_visiting w → walked w' →
     collect_post b w' (rec b w')) →
  walked w → members_post ms w (try_fold (collect_member rec) w ms).
Proof.
  revert w. induction ms as [|[t|b] ms IH]; intros w Hrec Hw; simpl.
  - split_and!; [done..|set_solver|]. exists []. split; [constructor|done].
  - specialize (IH {| w_visiting := w_visiting w; w_expanded := w_expanded w;
      w_leaves := push_new (w_leaves w) t |}
      ltac:(intros; apply Hrec; set_solver) (walked_push _ _ Hw)).
    destruct (try_fold _ _ _) as [w'|[|e]]; [|done|set_solver].
    destruct IH as (Hv & Hw' & Hgood & ts & Hts & Hl).
    split_and!; [done..|set_solver|]. exists (t :: ts). split; [by constructor|done].
  - pose proof (Hrec b w ltac:(set_solver) eq_refl Hw) as Hb.
    destruct (rec b w) as [w1|[|e]]; simpl in Hb |- *; [|done|exists b; set_solver].
    destruct Hb as (Hv1 & Hw1 & Hg1 & ts1 & Hts1 & Hl1).
    specialize (IH w1 ltac:(intros; apply Hrec; set_solver) Hw1).
    destruct (try_fold _ _ _) as [w'|[|e]]; [|done|set_solver].
    destruct IH as (Hv & Hw' & Hgood & ts & Hts & Hl).
    split_and!; [congruence|done|set_solver|]. exists (ts1 ++ ts). split; [by constructor|].
    by rewrite Hl, Hl1, dedup_app.
Qed.

Lemma collect_leaves_spec fuel id w :
  w_visiting w ⊆ dom (cg_collections g) →
  size (dom (cg_collections g) ∖ w_visiting w) < fuel →
  (∀ v, v ∈ w_visiting w → tc (nests g) v id) →
  walked w → collect_post id w (collect_leaves g fuel id w).
Proof.
  revert id w. induction fuel as [|fuel IH]; intros id w Hdom Hfuel Hpath Hw; [lia|].
  simpl. case_decide as Hexp.
  { destruct (Hw id Hexp) as (Hg & ts & Hts & Hsub). split_and!; [done..|].
    exists ts. split; [done|]. by rewrite dedup_subseteq. }
  case_decide as Hdup; [split; [apply rtc_refl|done]|].
  case_decide as Hvis; [split; [apply rtc_refl|by apply Hpath]|].
  destruct (cg_collections g !! id) as [c|] eqn:Hc; simpl; [|split; [apply rtc_refl|done]].
  set (w0 := {| w_visiting := {[id]} ∪ w_visiting w; w_expanded := w_expanded w;
                w_leaves := w_leaves w |}).
  assert (id ∈ dom (cg_collections g)) as Hid by (apply elem_of_dom; eauto).
  assert (∀ b w1, Member_Collection b ∈ collection_members c → w_visiting w1 = w_visiting w0 →
    walked w1 → collect_post b w1 (collect_leaves g fuel b w1)) as Hrec.
  { intros b w1 Hb Hv1 Hw1. apply IH; [rewrite Hv1; set_solver| | |done]; rewrite Hv1.
    - simpl. assert (dom (cg_collections g) ∖ ({[id]} ∪ w_visiting w) ⊂
        dom (cg_collections g) ∖ w_visiting w) as Hlt%subset_size by set_solver. lia.
    - intros v [->%elem_of_singleton|Hvv]%elem_of_union; [apply tc_once; by exists c|].
      eapply tc_r; [by apply Hpath|by exists c]. }
  pose proof (collect_members_spec _ _ w0 Hrec Hw) as Hms.
  destruct (try_fold _ _ _) as [w'|[|e]]; [|done|].
  - destruct Hms as (Hv & Hw' & Hgood & ts & Hts & Hl).
    assert (good g id) by (by econstructor). assert (flat g id ts) by (by econstructor).
    simpl. split_and!; [rewrite Hv; simpl; set_solver| |done|by exists ts].
    intros x [->%elem_of_singleton|Hx]%elem_of_union; [|by apply Hw'].
    split; [done|]. exists ts. split; [done|]. simpl. rewrite Hl.
    intros t Ht. apply elem_of_dedup. auto.
  - destruct Hms as (b & Hb & He). simpl. eapply truthful_nests; [by exists c|done].
Qed.

Lemma resolve_leaves_spec id :
  match resolve_leaves g id with
  | Ok leaves => good g id ∧ ∃ ts, flat g id ts ∧ leaves = dedup [] ts
  | Err (Fail e) => truthful g id e
  | Err Fuel => False
  end.
Proof.
  unfold resolve_leaves.
  assert (collect_post id {| w_visiting := ∅; w_expanded := ∅; w_leaves := [] |}
    (collect_leaves g (CollectionGraph_fuel g) id
       {| w_visiting := ∅; w_expanded := ∅; w_leaves := [] |})) as H.
  { apply collect_leaves_spec; simpl; [set_solver| |set_solver|intros x Hx; set_solver].
    unfold CollectionGraph_fuel. rewrite difference_empty_L. lia. }
  destruct (collect_leaves _ _ _ _) as [w|[|e]]; try done. simpl in *.
  destruct H as (_ & _ & Hg & ts & Hts & ->). eauto.
Qed.

Lemma resolve_leaves_good id :
  good g id → ∃ ts, flat g id ts ∧ resolve_leaves g id = Ok (dedup [] ts).
Proof.
  intros Hg. pose proof (resolve_leaves_spec id) as H.
  destruct (resolve_leaves g id) as [leaves|[|e]]; [|done|by apply truthful_not_good in H].
  destruct H as (_ & ts & Hts & ->). eauto.
Qed.

Lemma resolve_leaves_elem id leaves t :
  resolve_leaves g id = Ok leaves → t ∈ leaves ↔ leaf_of g id t.
Proof.
  intros H. pose proof (resolve_leaves_spec id) as Hs. rewrite H in Hs.
  destruct Hs as (_ & ts & Hts & ->).
  rewrite elem_of_dedup, (proj1 flat_leaf_of _ _ Hts). set_solver.
Qed.

(** ** The traversal of [project_one] *)

Context (tv : TargetId → bool) (ev : CollectionId → bool).

(** The projection of a collection, by recursion over the graph. *)
Inductive projects : CollectionId → option Collection → Prop :=
| projects_intro id c ks :
    cg_collections g !! id = Some c → keeps (collection_members c) ks →
    projects id (if bool_decide (ks = []) && negb (ev id) then None
                 else Some (with_members c ks))
with keeps : list CollectionMember → list CollectionMember → Prop :=
| keeps_nil : keeps [] []
| keeps_target t ms ks :
    keeps ms ks → keeps (Member_Target t :: ms) (if tv t then Member_Target t :: ks else ks)
| keeps_collection b o ms ks :
    projects b o → keeps ms ks →
    keeps (Member_Collection b :: ms)
          (match o with Some _ => Member_Collection b :: ks | None => ks end).

Scheme projects_mind := Induction for projects Sort Prop
  with keeps_mind := Induction for keeps Sort Prop.
Combined Scheme projects_keeps_ind from projects_mind, keeps_mind.

Lemma projects_keeps_det :
  (∀ id o, projects id o → ∀ o', projects id o' → o = o') ∧
  (∀ ms ks, keeps ms ks → ∀ ks', keeps ms ks' → ks = ks').
Proof.
  apply projects_keeps_ind.
  - intros id c ks Hc _ IH o' Ho'. inversion Ho' as [? c' ks' Hc' Hks']; subst.
    rewrite Hc in Hc'. injection Hc' as <-. by rewrite (IH ks' Hks').
  - intros ks' H. by inversion H.
  - intros t ms ks _ IH ks' H. inversion H as [|? ? ks1 H1|]; subst. by rewrite (IH ks1 H1).
  - intros b o ms ks _ IHb _ IH ks' H. inversion H as [| |? o1 ? ks1 Ho1 H1]; subst.
    by rewrite (IH ks1 H1), (IHb o1 Ho1).
Qed.

Definition cached (p : Projection) : Prop :=
  ∀ x o, p_cache p !! x = Some o → good g x ∧ projects x o.

Definition project_post (id : CollectionId) (p : Projection)
    (r : result (fuelled CollectionGraphError) (option Collection * Projection)) : Prop :=
  match r with
  | Ok (o, p') => p_visiting p' = p_visiting p ∧ cached p' ∧ good g id ∧ projects id o
  | Err (Fail e) => truthful g id e
  | Err Fuel => False
  end.

Definition keeps_post (ms acc : list CollectionMember) (p : Projection)
    (r : result (fuelled CollectionGraphError) (list CollectionMember * Projection)) : Prop :=
  match r with
  | Ok (ks', p') => p_visiting p' = p_visiting p ∧ cached p' ∧
                    (∀ b, Member_Collection b ∈ ms → good g b) ∧
                    ∃ ks, ks' = acc ++ ks ∧ keeps ms ks
  | Err (Fail e) => ∃ b, Member_Collection b ∈ ms ∧ truthful g b e
  | Err Fuel => False
  end.

Lemma project_members_spec rec ms acc p :
  (∀ b p', Member_Collection b ∈ ms → p_visiting p' = p_visiting p → cached p' →
     project_post b p' (rec b p')) →
  cached p → keeps_post ms acc p (try_fold (project_member tv rec) (acc, p) ms).
Proof.
  revert acc p. induction ms as [|[t|b] ms IH]; intros acc p Hrec Hp; simpl.
  - split_and!; [done..|set_solver|]. exists []. split; [by rewrite app_nil_r|constructor].
  - specialize (IH (if tv t then acc ++ [Member_Target t] else acc) p
      ltac:(intros; apply Hrec; set_solver) Hp).
    destruct (try_fold _ _ _) as [[ks' p']|[|e]]; [|done|set_solver].
    destruct IH as (Hv & Hp' & Hgood & ks & -> & Hks). split_and!; [done..|set_solver|].
    eexists. split; [|by constructor]. destruct (tv t); [by rewrite <-app_assoc|done].
  - pose proof (Hrec b p ltac:(set_solver) eq_refl Hp) as Hb.
    destruct (rec b p) as [[o p1]|[|e]]; simpl in Hb |- *; [|done|exists b; set_solver].
    destruct Hb as (Hv1 & Hp1 & Hg1 & Ho).
    specialize (IH (match o with Some _ => acc ++ [Member_Collection b] | None => acc end) p1
      ltac:(intros; apply Hrec; set_solver) Hp1).
    destruct (try_fold _ _ _) as [[ks' p']|[|e]]; [|done|set_solver].
    destruct IH as (Hv & Hp' & Hgood & ks & -> & Hks). split_and!; [congruence|done|set_solver|].
    eexists. split; [|by econstructor]. destruct o; [by rewrite <-app_assoc|done].
Qed.

Lemma project_one_spec fuel id p :
  p_visiting p ⊆ dom (cg_collections g) →
  size (dom (cg_collections g) ∖ p_visiting p) < fuel →
  (∀ v, v ∈ p_visiting p → tc (nests g) v id) →
  cached p → project_post id p (project_one tv ev g fuel id p).
Proof.
  revert id p. induction fuel as [|fuel IH]; intros id p Hdom Hfuel Hpath Hp; [lia|].
  simpl. destruct (p_cache p !! id) as [o|] eqn:Ho; [by destruct (Hp id o Ho)|].
  case_decide as Hdup; [split; [apply rtc_refl|done]|].
  case_decide as Hvis; [split; [apply rtc_refl|by apply Hpath]|].
  destruct (cg_collections g !! id) as [c|] eqn:Hc; simpl; [|split; [apply rtc_refl|done]].
  set (p0 := {| p_visiting := {[id]} ∪ p_visiting p; p_cache := p_cache p |}).
  assert (id ∈ dom (cg_collections g)) as Hid by (apply elem_of_dom; eauto).
  assert (∀ b p1, Member_Collection b ∈ collection_members c → p_visiting p1 = p_visiting p0 →
    cached p1 → project_post b p1 (project_one tv ev g fuel b p1)) as Hrec.
  { intros b p1 Hb Hv1 Hp1. apply IH; [rewrite Hv1; set_solver| | |done]; rewrite Hv1.
    - simpl. assert (dom (cg_collections g) ∖ ({[id]} ∪ p_visiting p) ⊂
        dom (cg_collections g) ∖ p_visiting p) as Hlt%subset_size by set_solver. lia.
    - intros v [->%elem_of_singleton|Hvv]%elem_of_union; [apply tc_once; by exists c|].
      eapply tc_r; [by apply Hpath|by exists c]. }
  pose proof (project_members_spec _ _ [] p0 Hrec Hp) as Hms.
  destruct (try_fold _ _ _) as [[ks' p']|[|e]]; [|done|].
  - destruct Hms as (Hv & Hp' & Hgood & ks & -> & Hks). simpl.
    assert (good g id) by (by econstructor).
    assert (projects id (if bool_decide (ks = []) && negb (ev id) then None
              else Some (with_members c ks))) by (by constructor).
    split_and!; [rewrite Hv; simpl; set_solver| |done..].
    intros x o Hx. cbn [p_cache] in Hx.
    apply lookup_insert_Some in Hx as [[<- <-]|[_ Hx]]; [done|by apply Hp'].
  - destruct Hms as (b & Hb & He). simpl. eapply truthful_nests; [by exists c|done].
Qed.

(** The outer loop: every collection is sound, and the output lists the present
    projections in order. *)
Lemma project_loop_spec ids out p :
  p_visiting p = ∅ → cached p →
  match try_fold (project_step tv ev g) (out, p) ids with
  | Ok (out', _) => ∃ os, Forall2 projects ids os ∧ Forall (good g) ids ∧ out' = out ++ omap id os
  | Err (Fail e) => ∃ x, x ∈ ids ∧ truthful g x e
  | Err Fuel => False
  end.
Proof.
  revert out p. induction ids as [|x ids IH]; intros out p Hv Hp; cbn [try_fold].
  { exists []. split; [constructor|]. split; [constructor|]. by rewrite app_nil_r. }
  assert (project_step tv ev g (out, p) x =
    match project_one tv ev g (CollectionGraph_fuel g) x p with
    | Ok (o, p1) => Ok (match o with Some c => out ++ [c] | None => out end, p1)
    | Err e => Err e
    end) as -> by (unfold project_step; cbn [fst snd];
      by destruct (project_one _ _ _ _ _ _) as [[]|]).
  assert (project_post x p (project_one tv ev g (CollectionGraph_fuel g) x p)) as Hx.
  { apply project_one_spec; rewrite ?Hv; [set_solver| |set_solver|done].
    unfold CollectionGraph_fuel. rewrite difference_empty_L. lia. }
  destruct (project_one _ _ _ _ _ _) as [[o p1]|[|e]];
    cbn [mbind result_bind project_post] in *; [|done|exists x; set_solver].
  destruct Hx as (Hv1 & Hp1 & Hg & Ho).
  specialize (IH (match o with Some c => out ++ [c] | None => out end) p1
    ltac:(congruence) Hp1).
  destruct (try_fold _ _ _) as [[out' p']|[|e]]; [|done|set_solver].
  destruct IH as (os & Hos & Hgs & ->). exists (o :: os).
  split; [by constructor|]. split; [by constructor|].
  destruct o; simpl; [by rewrite <-app_assoc|done].
Qed.

Lemma sorted_ids_dom id : id ∈ sorted_ids g ↔ is_Some (cg_collections g !! id).
Proof.
  unfold sorted_ids. rewrite merge_sort_Permutation, elem_of_elements. apply elem_of_dom.
Qed.

Lemma project_spec :
  match project tv ev g with
  | Ok out => Forall (good g) (sorted_ids g) ∧
              ∃ os, Forall2 projects (sorted_ids g) os ∧ out = omap id os
  | Err (Fail e) => ∃ x, is_Some (cg_collections g !! x) ∧ truthful g x e
  | Err Fuel => False
  end.
Proof.
  unfold project.
  pose proof (project_loop_spec (sorted_ids g) [] {| p_visiting := ∅; p_cache := ∅ |} eq_refl) as H.
  specialize (H ltac:(intros x o Hx; cbn [p_cache] in Hx; by apply lookup_empty_Some in Hx)).
  destruct (try_fold _ _ _) as [[out' p']|[|e]]; simpl; [|done|].
  - destruct H as (os & Hos & Hg & ->). eauto.
  - destruct H as (x & Hx%sorted_ids_dom & He). eauto.
Qed.
End graph.

(** ** Graphs built from a collection list *)

Lemma graph_insert_lookup cs g id :
  cg_collections (fold_left CollectionGraph_insert cs g) !! id =
  match list_find (λ c, collection_id c = id) (reverse cs) with
  | Some (_, c) => Some c
  | None => cg_collections g !! id
  end.
Proof.
  revert g. induction cs as [|c cs IH] using rev_ind; intros g; [done|].
  rewrite fold_left_app, reverse_app. simpl. case_decide as Heq.
  - subst id. by rewrite lookup_insert_eq.
  - rewrite lookup_insert_ne, IH by done.
    destruct (list_find _ (reverse cs)) as [[i x]|]; done.
Qed.

(** A graph built by [new] is keyed by the identifiers of its collections. *)
Lemma CollectionGraph_new_keyed cs id c :
  cg_collections (CollectionGraph_new cs) !! id = Some c → collection_id c = id ∧ c ∈ cs.
Proof.
  unfold CollectionGraph_new. rewrite graph_insert_lookup.
  destruct (list_find _ _) as [[i x]|] eqn:Hf; simpl; [|by rewrite lookup_empty].
  intros [= ->]. apply list_find_Some in Hf as (Hi & ? & _).
  split; [done|]. apply elem_of_reverse. by eapply list_elem_of_lookup_2.
Qed.

Lemma CollectionGraph_new_lookup cs id :
  is_Some (cg_collections (CollectionGraph_new cs) !! id) ↔ id ∈ collection_id <$> cs.
Proof.
  unfold CollectionGraph_new. rewrite graph_insert_lookup. split.
  - destruct (list_find _ _) as [[i x]|] eqn:Hf; simpl; [|by rewrite lookup_empty; intros []].
    apply list_find_Some in Hf as (Hi & <- & _). intros _. apply list_elem_of_fmap_2.
    apply elem_of_reverse. by eapply list_elem_of_lookup_2.
  - intros (c & -> & Hc)%list_elem_of_fmap. apply elem_of_reverse in Hc.
    destruct (list_find_elem_of (λ x, collection_id x = collection_id c) _ _ Hc eq_refl)
      as [[i x] ->]. eauto.
Qed.

(** Exactly the identifiers used more than once are retained as duplicates. *)
Lemma CollectionGraph_new_duplicates cs id :
  id ∈ cg_duplicates (CollectionGraph_new cs) ↔
  2 ≤ length (filter (λ c, collection_id c = id) cs).
Proof.
  induction cs as [|c cs IH] using rev_ind; [simpl; split; [set_solver|lia]|].
  unfold CollectionGraph_new in *. rewrite fold_left_app, filter_app, length_app. simpl.
  fold (CollectionGraph_new cs) in *.
  pose proof (CollectionGraph_new_lookup cs id) as Hl.
  assert (id ∈ collection_id <$> cs ↔ 1 ≤ length (filter (λ c, collection_id c = id) cs)) as Hn.
  { rewrite list_elem_of_fmap. split.
    - intros (x & -> & Hx). destruct (filter _ cs) eqn:E; simpl; [|lia].
      apply (filter_nil_not_elem_of _ _ x) in E; naive_solver.
    - destruct (filter _ cs) as [|x l] eqn:E; simpl; [lia|]. intros _.
      assert (x ∈ filter (λ c, collection_id c = id) cs) as [? ?]%list_elem_of_filter
        by (rewrite E; set_solver). naive_solver. }
  destruct (decide (collection_id c = id)) as [<-|Hne].
  - rewrite filter_cons_True, filter_nil by done. simpl.
    case_bool_decide as Hs; [set_solver by lia|]. rewrite IH. rewrite Hl, Hn in Hs. lia.
  - rewrite filter_cons_False, filter_nil by done. simpl.
    rewrite Nat.add_0_r, <-IH. case_bool_decide; set_solver.
Qed.

Lemma CollectionGraph_new_NoDup cs :
  NoDup (collection_id <$> cs) → cg_duplicates (CollectionGraph_new cs) = ∅.
Proof.
  intros Hnd. apply elem_of_equiv_empty_L. intros id Hid%CollectionGraph_new_duplicates.
  induction cs as [|c cs IH]; simpl in *; [lia|]. apply NoDup_cons in Hnd as [Hc Hnd].
  rewrite filter_cons in Hid. case_decide as Heq; [|auto]. simpl in Hid.
  destruct (filter _ cs) as [|x l] eqn:E; simpl in Hid; [lia|].
  assert (x ∈ filter (λ c, collection_id c = id) cs) as [Hx ?]%list_elem_of_filter
    by (rewrite E; set_solver).
  apply Hc. rewrite Heq, <-Hx. by apply list_elem_of_fmap_2.
Qed.

(** ** Projections *)

Lemma keeps_elem g tv ev ms ks :
  keeps g tv ev ms ks → ks `sublist_of` ms ∧
  (∀ t, Member_Target t ∈ ks ↔ Member_Target t ∈ ms ∧ tv t = true) ∧
  (∀ b, Member_Collection b ∈ ks ↔
        Member_Collection b ∈ ms ∧ ∃ c, projects g tv ev b (Some c)).
Proof.
  induction 1 as [|t ms ks Hks IH|b o ms ks Hb Hks IH].
  - split_and!; [constructor|set_solver..].
  - destruct IH as (Hsub & Ht & Hb). destruct (tv t) eqn:E; split_and!.
    + by constructor.
    + set_solver.
    + set_solver.
    + by constructor.
    + intros t'. rewrite Ht, elem_of_cons. split; [naive_solver|].
      intros [[[= ->]|?] ?]; [congruence|auto].
    + set_solver.
  - destruct IH as (Hsub & Ht & Hb'). destruct o as [c|]; split_and!.
    + by constructor.
    + set_solver.
    + intros b'. rewrite !elem_of_cons, Hb'. split; [|naive_solver].
      intros [[= ->]|?]; naive_solver.
    + by constructor.
    + set_solver.
    + intros b'. rewrite Hb', elem_of_cons. split; [by intros [? ?]; auto|].
      intros ([[= ->]|?] & c & Hc); [|eauto].
      by pose proof (proj1 (projects_keeps_det g tv ev) _ _ Hb _ Hc).
Qed.

(** What the projection of a graph shows of it: exactly the visible targets, and
    exactly the nested collections that are shown themselves. *)
Definition projection_of (tv : TargetId → bool) (ev : CollectionId → bool)
    (g : CollectionGraph) (out : list Collection) : Prop :=
  (∀ c, c ∈ out → ∃ c0, cg_collections g !! collection_id c = Some c0 ∧
     c = with_members c0 (collection_members c) ∧
     collection_members c `sublist_of` collection_members c0 ∧
     (∀ t, Member_Target t ∈ collection_members c ↔
           Member_Target t ∈ collection_members c0 ∧ tv t = true) ∧
     (∀ b, Member_Collection b ∈ collection_members c ↔
           Member_Collection b ∈ collection_members c0 ∧ b ∈ collection_id <$> out)) ∧
  (∀ id c0, cg_collections g !! id = Some c0 →
     id ∈ collection_id <$> out ↔
     ev id = true ∨ (∃ t, Member_Target t ∈ collection_members c0 ∧ tv t = true) ∨
     ∃ b, Member_Collection b ∈ collection_members c0 ∧ b ∈ collection_id <$> out).

Section projection.
Context (tv : TargetId → bool) (ev : CollectionId → bool) (g : CollectionGraph).
Context (keyed : ∀ id c, cg_collections g !! id = Some c → collection_id c = id).
Context (os : list (option Collection)) (Hos : Forall2 (projects g tv ev) (sorted_ids g) os).

Lemma projects_Some id c :
  projects g tv ev id (Some c) ↔
  ∃ c0 ks, cg_collections g !! id = Some c0 ∧ keeps g tv ev (collection_members c0) ks ∧
           c = with_members c0 ks ∧ (ks ≠ [] ∨ ev id = true).
Proof.
  split.
  - intros H. inversion H as [? c0 ks Hc Hks]; subst.
    destruct (bool_decide (ks = []) && negb (ev id)) eqn:E; [done|].
    exists c0, ks. split_and!; [done..|congruence|]. bool_prop.
    destruct E as [E|E]; bool_prop; auto.
  - intros (c0 & ks & Hc & Hks & -> & Hv).
    pose proof (projects_intro g tv ev id c0 ks Hc Hks) as H.
    destruct (bool_decide (ks = []) && negb (ev id)) eqn:E; [|done].
    bool_prop. destruct Hv; congruence.
Qed.

Lemma out_elem c : c ∈ omap (λ o, o) os ↔ projects g tv ev (collection_id c) (Some c).
Proof using Hos keyed.
  rewrite list_elem_of_omap. split.
  - intros (o & Ho & ->). apply list_elem_of_lookup in Ho as [i Hi].
    destruct (Forall2_lookup_r _ _ _ _ _ Hos Hi) as (x & Hx & Hp).
    pose proof Hp as (c0 & ks & Hc0 & _ & -> & _)%projects_Some.
    by rewrite <-(keyed _ _ Hc0) in Hp.
  - intros Hp. exists (Some c). split; [|done].
    pose proof Hp as (c0 & ks & Hc0 & _)%projects_Some.
    assert (collection_id c ∈ sorted_ids g) as [i Hi]%list_elem_of_lookup
      by (apply sorted_ids_dom; eauto).
    destruct (Forall2_lookup_l _ _ _ _ _ Hos Hi) as (o & Ho & Hp').
    rewrite (proj1 (projects_keeps_det g tv ev) _ _ Hp _ Hp').
    by eapply list_elem_of_lookup_2.
Qed.

Lemma out_ids id : id ∈ collection_id <$> omap (λ o, o) os ↔ ∃ c, projects g tv ev id (Some c).
Proof using Hos keyed.
  rewrite list_elem_of_fmap. setoid_rewrite out_elem. split.
  - intros (c & -> & Hc). eauto.
  - intros (c & Hc). pose proof Hc as (c0 & ks & Hc0 & _ & -> & _)%projects_Some.
    exists (with_members c0 ks). simpl. by rewrite (keyed _ _ Hc0).
Qed.

Lemma omap_projection_of : projection_of tv ev g (omap (λ o, o) os).
Proof using Hos keyed.
  split.
  - intros c Hc%out_elem. apply projects_Some in Hc as (c0 & ks & Hc0 & Hks & Hc & _).
    exists c0. pose proof (keeps_elem _ _ _ _ _ Hks) as (Hsub & Ht & Hb).
    rewrite Hc; simpl. split_and!; [|done..|].
    + rewrite Hc in Hc0. simpl in Hc0. by rewrite Hc0.
    + intros b. by rewrite Hb, out_ids.
  - intros id c0 Hc0. rewrite out_ids. setoid_rewrite out_ids. split.
    + intros (c & Hc). apply projects_Some in Hc as (c1 & ks & Hc1 & Hks & _ & Hv).
      rewrite Hc0 in Hc1. injection Hc1 as <-.
      pose proof (keeps_elem _ _ _ _ _ Hks) as (_ & Ht & Hb).
      destruct Hv as [Hne|?]; [right|by left]. destruct ks as [|[t|b] ks]; [done| |].
      * left. exists t. apply Ht. by left.
      * right. exists b. apply Hb. by left.
    + intros Hv. assert (∃ o, projects g tv ev id o) as [o Ho].
      { assert (id ∈ sorted_ids g) as [i Hi]%list_elem_of_lookup by (apply sorted_ids_dom; eauto).
        destruct (Forall2_lookup_l _ _ _ _ _ Hos Hi) as (o & _ & Hp). eauto. }
      inversion Ho as [? c1 ks Hc1 Hks]; subst. rewrite Hc0 in Hc1. injection Hc1 as <-.
      pose proof (keeps_elem _ _ _ _ _ Hks) as (_ & Ht & Hb).
      eexists. apply projects_Some. exists c0, ks. split_and!; [done..|].
      destruct Hv as [?|[(t & Htt%Ht)|(b & Hbb%Hb)]]; [by right|left..]; by intros ->; set_solver.
Qed.
End projection.

#[export] Instance id_le_trans : Transitive id_le.
Proof. intros a b c. unfold id_le. apply transitivity. Qed.
#[export] Instance id_le_total : Total id_le.
Proof. intros a b. unfold id_le. apply total, _. Qed.

Lemma sorted_ids_sorted g : StronglySorted id_le (sorted_ids g) ∧ NoDup (sorted_ids g).
Proof.
  split; [apply StronglySorted_merge_sort; apply _|].
  unfold sorted_ids. rewrite merge_sort_Permutation. apply NoDup_elements.
Qed.

Lemma out_ids_sublist tv ev g ids os :
  (∀ id c, cg_collections g !! id = Some c → collection_id c = id) →
  Forall2 (projects g tv ev) ids os → (collection_id <$> omap (λ o, o) os) `sublist_of` ids.
Proof.
  intros keyed. induction 1 as [|id o ids os Ho Hos IH]; [constructor|].
  destruct o as [c|]; simpl; [|by constructor].
  apply projects_Some in Ho as (c0 & ks & Hc0 & _ & -> & _). simpl.
  rewrite (keyed _ _ Hc0). by constructor.
Qed.

(** ** Claims *)

(** Resolution of a collection always answers within the fuel. It succeeds
    exactly on a sound collection, with each transitive leaf target once, in
    first depth-first occurrence order; otherwise it names a real defect of the
    graph reached from the collection: a missing identifier, a duplicated one, or
    a collection that contains itself. *)
Theorem resolve_leaves_correct g id :
  match resolve_leaves g id with
  | Ok leaves =>
      good g id ∧ NoDup leaves ∧ (∀ t, t ∈ leaves ↔ leaf_of g id t) ∧
      ∃ ts, flat g id ts ∧ leaves = dedup [] ts
  | Err (Fail e) => ¬ good g id ∧ truthful g id e
  | Err Fuel => False
  end.
Proof.
  pose proof (resolve_leaves_spec g id) as H.
  destruct (resolve_leaves g id) as [leaves|[|e]]; [|done|].
  - destruct H as (Hg & ts & Hts & ->). split_and!; [done|apply NoDup_dedup, NoDup_nil_2| |eauto].
    intros t. rewrite elem_of_dedup, (proj1 (flat_leaf_of g) _ _ Hts). set_solver.
  - split; [by eapply truthful_not_good|done].
Qed.

(** Projection through a visibility rule fails only on a real defect of some
    registered collection. Otherwise it shows exactly the visible targets and
    exactly the nested links to collections that are shown themselves, each
    collection otherwise unchanged and in identifier order; a collection is shown
    when something in it is visible or empty collections with its identifier are. *)
Theorem project_correct tv ev cs :
  let g := CollectionGraph_new cs in
  match project tv ev g with
  | Ok out =>
      (∀ id, is_Some (cg_collections g !! id) → good g id) ∧ projection_of tv ev g out ∧
      (collection_id <$> out) `sublist_of` sorted_ids g ∧
      StronglySorted id_le (sorted_ids g) ∧ NoDup (sorted_ids g)
  | Err (Fail e) => ∃ x, is_Some (cg_collections g !! x) ∧ ¬ good g x ∧ truthful g x e
  | Err Fuel => False
  end.
Proof.
  intros g. pose proof (project_spec g tv ev) as H.
  assert (∀ id c, cg_collections g !! id = Some c → collection_id c = id) as keyed.
  { intros id c Hc. by apply CollectionGraph_new_keyed in Hc as [? _]. }
  destruct (project tv ev g) as [out|[|e]]; [|done|].
  - destruct H as (Hg & os & Hos & ->). split_and!; [|by apply omap_projection_of| | |].
    + intros id Hid. rewrite Forall_forall in Hg. by apply Hg, sorted_ids_dom.
    + by eapply out_ids_sublist.
    + apply sorted_ids_sorted.
    + apply sorted_ids_sorted.
  - destruct H as (x & Hx & He). exists x. split_and!; [done|by eapply truthful_not_good|done].
Qed.

(** [collections_containing] lists, in identifier order, exactly the
    registered sound collections one of whose transitive leaves matches. *)
Theorem collections_containing_correct g matches :
  StronglySorted id_le (collections_containing g matches) ∧
  ∀ id, id ∈ collections_containing g matches ↔
    is_Some (cg_collections g !! id) ∧ good g id ∧ ∃ t, leaf_of g id t ∧ matches t = true.
Proof.
  unfold collections_containing. split.
  { apply StronglySorted_filter, sorted_ids_sorted. }
  intros id. rewrite list_elem_of_filter, sorted_ids_dom.
  pose proof (resolve_leaves_spec g id) as H.
  destruct (resolve_leaves g id) as [leaves|[|e]] eqn:E; [|done|].
  - destruct H as [Hg _]. rewrite existsb_exists.
    setoid_rewrite <-list_elem_of_In. setoid_rewrite (λ t, resolve_leaves_elem g id leaves t E).
    naive_solver.
  - apply truthful_not_good in H. naive_solver.
Qed.
