(* ===== verification/Scenes.v ===== *)
(** * Scenes: [luminate-core/src/scene.rs]

    Scene data and its validation.  [Uuid::parse_str] belongs to the [uuid]
    crate: whether an identifier parses is the parameter [is_uuid]. *)

From S2P Require Import Prelude Model.

Record SceneTargetState := {
  sts_appearance : option Effect;
  sts_brightness : option Z;
  sts_emission : option EmissionState;
  sts_appearance_slots : option (list AppearanceSlotValue)
}.
#[export] Instance SceneTargetState_eq : EqDecision SceneTargetState.
Proof. solve_decision. Defined.

Inductive SceneBinding :=
| Frozen (target : TargetId) (state : SceneTargetState)
| DynamicCollectionMember (collection : CollectionId) (target : TargetId)
    (state : SceneTargetState).

Record Scene := {
  scene_id : SceneId;
  scene_revision : Z;
  scene_name : string;
  scene_description : option string;
  scene_owner : OwnerIdentity;
  scene_bindings : list SceneBinding
}.

Inductive SceneCaptureMode :=
| Capture_Frozen
| Capture_DynamicCollectionMembers (collection : CollectionId).

Inductive SceneValidationError :=
| InvalidId | ZeroRevision | NoBindings | EmptyTargetState | OffAppearance
| EmittingWithoutAppearance | EmittingAtZeroBrightness | EmptyAppearanceSlots
| DuplicateAppearanceSlot (slot : AppearanceSlotId)
| DuplicateTarget (target : TargetId).
#[export] Instance SceneValidationError_eq : EqDecision SceneValidationError.
Proof. solve_decision. Defined.

Definition binding_target (b : SceneBinding) : TargetId :=
  match b with Frozen target _ | DynamicCollectionMember _ target _ => target end.

Definition binding_state (b : SceneBinding) : SceneTargetState :=
  match b with Frozen _ state | DynamicCollectionMember _ _ state => state end.

Definition dynamic_collection (b : SceneBinding) : option CollectionId :=
  match b with
  | Frozen _ _ => None
  | DynamicCollectionMember collection _ _ => Some collection
  end.

(** The loop over the slot values, on the set of slots seen. *)
Definition slot_seen (slots : gset AppearanceSlotId) (value : AppearanceSlotValue) :
    result SceneValidationError (gset AppearanceSlotId) :=
  if bool_decide (asv_slot value ∈ slots) then Err (DuplicateAppearanceSlot (asv_slot value))
  else Ok ({[asv_slot value]} ∪ slots).

Definition SceneTargetState_validate (s : SceneTargetState) : result SceneValidationError unit :=
  if bool_decide (sts_appearance s = None) && bool_decide (sts_brightness s = None) &&
     bool_decide (sts_emission s = None) && bool_decide (sts_appearance_slots s = None)
  then Err EmptyTargetState
  else if bool_decide (sts_appearance s = Some Effect_Off) then Err OffAppearance
  else if bool_decide (sts_appearance_slots s = Some []) then Err EmptyAppearanceSlots
  else
    _ ← match sts_appearance_slots s with
        | Some values => _ ← try_fold slot_seen ∅ values; Ok tt
        | None => Ok tt
        end;
    if bool_decide (sts_emission s = Some Emitting) && bool_decide (sts_appearance s = None)
    then Err EmittingWithoutAppearance
    else if bool_decide (sts_emission s = Some Emitting) &&
            bool_decide (sts_brightness s = Some 0%Z)
    then Err EmittingAtZeroBrightness
    else Ok tt.

(** The loop over the bindings, on the set of targets seen. *)
Definition binding_seen (targets : gset TargetId) (binding : SceneBinding) :
    result SceneValidationError (gset TargetId) :=
  _ ← SceneTargetState_validate (binding_state binding);
  if bool_decide (binding_target binding ∈ targets)
  then Err (DuplicateTarget (binding_target binding))
  else Ok ({[binding_target binding]} ∪ targets).

Definition Scene_validate (is_uuid : string → bool) (s : Scene) :
    result SceneValidationError unit :=
  if negb (is_uuid (SceneId_as_str (scene_id s))) then Err InvalidId
  else if (scene_revision s =? 0)%Z then Err ZeroRevision
  else match scene_bindings s with
       | [] => Err NoBindings
       | bindings => _ ← try_fold binding_seen ∅ bindings; Ok tt
       end.

(** ** What validation accepts *)

Definition SceneTargetState_wf (s : SceneTargetState) : Prop :=
  (is_Some (sts_appearance s) ∨ is_Some (sts_brightness s) ∨ is_Some (sts_emission s) ∨
   is_Some (sts_appearance_slots s)) ∧
  sts_appearance s ≠ Some Effect_Off ∧
  (∀ values, sts_appearance_slots s = Some values →
     values ≠ [] ∧ NoDup (asv_slot <$> values)) ∧
  (sts_emission s = Some Emitting → is_Some (sts_appearance s) ∧ sts_brightness s ≠ Some 0%Z).

Definition Scene_wf (is_uuid : string → bool) (s : Scene) : Prop :=
  is_uuid (SceneId_as_str (scene_id s)) = true ∧ scene_revision s ≠ 0%Z ∧
  scene_bindings s ≠ [] ∧
  Forall (λ b, SceneTargetState_wf (binding_state b)) (scene_bindings s) ∧
  NoDup (binding_target <$> scene_bindings s).

Lemma slot_seen_Ok s v s' :
  slot_seen s v = Ok s' ↔ True ∧ asv_slot v ∉ s ∧ s' = {[asv_slot v]} ∪ s.
Proof. unfold slot_seen. case_bool_decide; naive_solver. Qed.

Lemma slots_loop_Ok (slots : option (list AppearanceSlotValue)) :
  match slots with
  | Some values => _ ← try_fold slot_seen ∅ values; Ok tt
  | None => Ok tt
  end = Ok tt ↔ ∀ values, slots = Some values → NoDup (asv_slot <$> values).
Proof.
  destruct slots as [values|]; [|naive_solver].
  pose proof (try_fold_seen_empty asv_slot (λ _, True) slot_seen slot_seen_Ok values) as H.
  rewrite bind_Ok. split.
  - intros (s & Hs & _) ? [= <-]. by apply H; exists s.
  - intros Hnd. destruct (proj2 H) as [s Hs]; [|eauto]. split; [by apply Forall_true|by apply Hnd].
Qed.

Lemma SceneTargetState_validate_Ok s :
  SceneTargetState_validate s = Ok tt ↔ SceneTargetState_wf s.
Proof.
  unfold SceneTargetState_validate, SceneTargetState_wf.
  pose proof (slots_loop_Ok (sts_appearance_slots s)) as Hslots.
  rewrite !guard_Ok, bind_unit_Ok, !guard_Ok, Hslots. clear Hslots.
  rewrite !andb_false_iff, !bool_decide_eq_false, <-!not_eq_None_Some.
  destruct s as [a b e l]; simpl. split.
  - intros (Hne & Hoff & Hnil & Hnd & He1 & He2 & _). split_and!; [tauto|done| |].
    + intros vs ->. split; [congruence|auto].
    + intros ->. split; [by destruct He1|by destruct He2].
  - intros (Hne & Hoff & Hl & He). split_and!; [tauto|done|..].
    + intros ->. by destruct (Hl [] eq_refl).
    + intros vs Hvs. by apply Hl.
    + destruct (decide (e = Some Emitting)); [right|by left]. by apply He.
    + destruct (decide (e = Some Emitting)); [right|by left]. by apply He.
    + done.
Qed.

Lemma binding_seen_Ok s b s' :
  binding_seen s b = Ok s' ↔
  SceneTargetState_wf (binding_state b) ∧ binding_target b ∉ s ∧ s' = {[binding_target b]} ∪ s.
Proof.
  unfold binding_seen. rewrite bind_unit_Ok, SceneTargetState_validate_Ok.
  case_bool_decide; naive_solver.
Qed.

Lemma Scene_validate_Ok is_uuid s : Scene_validate is_uuid s = Ok tt ↔ Scene_wf is_uuid s.
Proof.
  unfold Scene_validate, Scene_wf. rewrite !guard_Ok, negb_false_iff, Z.eqb_neq.
  pose proof (try_fold_seen_empty binding_target (λ b, SceneTargetState_wf (binding_state b))
    binding_seen binding_seen_Ok (scene_bindings s)) as H.
  destruct (scene_bindings s) as [|b bs]; [naive_solver|].
  rewrite bind_Ok. naive_solver.
Qed.

(** ** Claims *)

(** A scene is accepted exactly when its identifier is a UUID, its revision is
    not zero, it binds at least one target and no target twice, and each captured
    state is non-empty and consistent: no [Off] appearance, a non-empty slot list
    without repetition, and emission only with an appearance and a non-zero
    brightness. *)
Theorem scene_validate_correct is_uuid s :
  Scene_validate is_uuid s = Ok tt ↔ Scene_wf is_uuid s.
Proof. apply Scene_validate_Ok. Qed.
