(* ===== verification/Capability.v ===== *)
(** * Capability validation: [luminate-core/src/capability.rs]

    [CapabilitySet::validate] and the checks it is made of, and the declarative
    reading of what a validated capability set promises. *)

From S2P Require Import Prelude Model.

(** [CapabilityValidationError(String)] *)
Record CapabilityValidationError := CapabilityValidationError_mk { cve_message : Text }.

Notation checked := (result CapabilityValidationError).

Definition cap_ensure (condition : bool) (message : Text) : checked unit :=
  ensure condition (CapabilityValidationError_mk message).

(** [ids.insert(key)] guarded by [ensure]: the set after the insertion. *)
Definition ensure_insert {K} `{Countable K} (seen : gset K) (key : K) (message : Text) :
    checked (gset K) :=
  _ ← cap_ensure (negb (bool_decide (key ∈ seen))) message;
  Ok ({[key]} ∪ seen).

Definition validate_bits (name : string) (bits : Z) : checked unit :=
  cap_ensure ((1 <=? bits)%Z && (bits <=? 32)%Z)
    (Fmt "{name} bit width is outside 1..=32" [AStr name]).

Definition validate_colour_channel (names : gset ColourChannel)
    (channel : ColourChannelCapability) : checked (gset ColourChannel) :=
  _ ← validate_bits "colour channel" (ccc_bits channel);
  ensure_insert names (ccc_channel channel) (Lit "additive colour repeats a channel").

(** One iteration of [validate_colours]. *)
Definition validate_colour_capability (colour : ColourCapability) : checked unit :=
  match colour with
  | ColourCapability_Additive channels =>
      _ ← cap_ensure (negb (bool_decide (channels = []))) (Lit "additive colour has no channels");
      _ ← try_fold validate_colour_channel ∅ channels;
      Ok tt
  | ColourCapability_Hsv hue_bits saturation_bits value_bits =>
      try_for (validate_bits "HSV channel") [hue_bits; saturation_bits; value_bits]
  | ColourCapability_Hsl hue_bits saturation_bits lightness_bits =>
      try_for (validate_bits "HSL channel") [hue_bits; saturation_bits; lightness_bits]
  | ColourCapability_Cct bits | ColourCapability_Monochrome bits =>
      validate_bits "colour channel" bits
  end.

Definition validate_colours (colours : list ColourCapability) : checked unit :=
  try_for validate_colour_capability colours.

(** The loop over the options of a [Choice]; the three conditions share one
    message and [insert] is only reached when the first two hold. *)
Definition validate_choice (option_ids : gset string) (option : EffectChoice) :
    checked (gset string) :=
  _ ← cap_ensure
        (negb (bool_decide (choice_id option = ""%string)) &&
         negb (bool_decide (choice_name option = ""%string)) &&
         negb (bool_decide (choice_id option ∈ option_ids)))
        (Lit "hardware effect has invalid or duplicate choices");
  Ok ({[choice_id option]} ∪ option_ids).

(** The match that checks one parameter and numbers its kind. *)
Definition parameter_kind (parameter : EffectParameter) : checked Z :=
  match parameter with
  | EffectParameter_Colour minimum_colours maximum_colours =>
      _ ← cap_ensure (minimum_colours <=? maximum_colours)%Z
            (Lit "hardware effect has an inverted colour-count range");
      Ok 0%Z
  | EffectParameter_Speed range =>
      _ ← cap_ensure (negb (range_step range =? 0)%Z && (range_min range <=? range_max range)%Z)
            (Lit "effect speed range is invalid");
      Ok 1%Z
  | EffectParameter_Direction values =>
      _ ← cap_ensure (negb (bool_decide (values = []))) (Lit "effect direction list is empty");
      _ ← cap_ensure
            (bool_decide (size (list_to_set values : gset EffectDirection) = length values))
            (Lit "effect direction values are not unique");
      Ok 2%Z
  | EffectParameter_Duration milliseconds =>
      _ ← cap_ensure (negb (range_step milliseconds =? 0)%Z &&
                      (range_min milliseconds <=? range_max milliseconds)%Z)
            (Lit "effect duration range is invalid");
      Ok 3%Z
  | EffectParameter_Brightness bits =>
      _ ← validate_bits "effect brightness" bits;
      Ok 4%Z
  | EffectParameter_Choice options =>
      _ ← cap_ensure (negb (bool_decide (options = []))) (Lit "effect choice list is empty");
      _ ← try_fold validate_choice ∅ options;
      Ok 5%Z
  end.

Definition validate_parameter (kinds : gset Z) (parameter : EffectParameter) : checked (gset Z) :=
  kind ← parameter_kind parameter;
  ensure_insert kinds kind (Lit "hardware effect repeats a parameter kind").

Definition validate_effect_descriptor (ids : gset string) (effect : HardwareEffectDescriptor) :
    checked (gset string) :=
  _ ← cap_ensure (negb (bool_decide (HardwareEffectId_as_str (hed_id effect) = ""%string)))
        (Lit "hardware effect has an empty id");
  ids ← ensure_insert ids (HardwareEffectId_as_str (hed_id effect))
          (Lit "duplicate hardware effect id");
  _ ← cap_ensure (negb (bool_decide (hed_name effect = ""%string)))
        (Lit "hardware effect has an empty name");
  _ ← try_fold validate_parameter ∅ (hed_parameters effect);
  Ok ids.

Definition validate_effects (effects : HardwareEffectsCapability) : checked unit :=
  _ ← try_fold validate_effect_descriptor ∅ (hec_effects effects);
  Ok tt.

Definition validate_brightness_capability (b : BrightnessCapability) : checked unit :=
  match b with
  | Brightness_Independent bits maximum _ =>
      _ ← validate_bits "independent brightness" bits;
      let representable :=
        if (bits =? 32)%Z then uN_max 32 else (wrapU 32 (Z.shiftl 1 bits) - 1)%Z in
      cap_ensure (negb (maximum =? 0)%Z && (maximum <=? representable)%Z)
        (Lit "independent brightness maximum is zero or exceeds its bit width")
  | Brightness_None => Ok tt
  end.

Definition validate_shm (upload : option FrameUploadCapability) : checked unit :=
  match upload ≫= fu_shm with
  | Some shm =>
      _ ← cap_ensure (negb (bool_decide (shm_pixel_formats shm = [])))
            (Lit "shared-memory frame has no pixel formats");
      cap_ensure (match ShmFrameShape_pixel_count (shm_shape shm) with
                  | Some count => negb (count =? 0)%Z
                  | None => false
                  end)
        (Lit "shared-memory frame shape has an invalid pixel count")
  | None => Ok tt
  end.

(** [map_err] naming the slot. *)
Definition in_slot (slot : AppearanceSlotDescriptor) (e : CapabilityValidationError) :
    CapabilityValidationError :=
  CapabilityValidationError_mk
    (Nested "appearance slot {}: {error}" [AStr (AppearanceSlotId_as_str (asd_id slot))]
       (cve_message e)).

Definition validate_slot (ids : gset string) (slot : AppearanceSlotDescriptor) :
    checked (gset string) :=
  ids ← ensure_insert ids (AppearanceSlotId_as_str (asd_id slot))
          (Lit "appearance slot ids are not unique");
  _ ← map_err (in_slot slot) (validate_colours (ac_colour (asd_appearance slot)));
  _ ← match ac_hardware_effects (asd_appearance slot) with
      | Some effects => map_err (in_slot slot) (validate_effects effects)
      | None => Ok tt
      end;
  Ok ids.

Definition CapabilitySet_validate (c : CapabilitySet) : checked unit :=
  _ ← validate_colours (cs_colour c);
  _ ← validate_brightness_capability (cs_brightness c);
  _ ← validate_shm (cs_frame_upload c);
  _ ← match cs_hardware_effects c with
      | Some effects => validate_effects effects
      | None => Ok tt
      end;
  match cs_appearance_slots c with
  | Some slots => _ ← try_fold validate_slot ∅ (asc_slots slots); Ok tt
  | None => Ok tt
  end.

(** ** What a validated capability set promises *)

Definition bits_wf (bits : Z) : Prop := (1 <= bits <= 32)%Z.

Definition colour_capability_wf (c : ColourCapability) : Prop :=
  match c with
  | ColourCapability_Additive channels =>
      channels ≠ [] ∧ Forall (λ ch, bits_wf (ccc_bits ch)) channels ∧
      NoDup (ccc_channel <$> channels)
  | ColourCapability_Hsv h s v | ColourCapability_Hsl h s v => bits_wf h ∧ bits_wf s ∧ bits_wf v
  | ColourCapability_Cct b | ColourCapability_Monochrome b => bits_wf b
  end.

Definition kind_of (p : EffectParameter) : Z :=
  match p with
  | EffectParameter_Colour _ _ => 0 | EffectParameter_Speed _ => 1
  | EffectParameter_Direction _ => 2 | EffectParameter_Duration _ => 3
  | EffectParameter_Brightness _ => 4 | EffectParameter_Choice _ => 5
  end.

Definition parameter_wf (p : EffectParameter) : Prop :=
  match p with
  | EffectParameter_Colour lo hi => (lo <= hi)%Z
  | EffectParameter_Speed r | EffectParameter_Duration r =>
      range_step r ≠ 0%Z ∧ (range_min r <= range_max r)%Z
  | EffectParameter_Direction values => values ≠ [] ∧ NoDup values
  | EffectParameter_Brightness b => bits_wf b
  | EffectParameter_Choice options =>
      options ≠ [] ∧
      Forall (λ o, choice_id o ≠ ""%string ∧ choice_name o ≠ ""%string) options ∧
      NoDup (choice_id <$> options)
  end.

Definition effect_descriptor_wf (e : HardwareEffectDescriptor) : Prop :=
  HardwareEffectId_as_str (hed_id e) ≠ ""%string ∧ hed_name e ≠ ""%string ∧
  Forall parameter_wf (hed_parameters e) ∧ NoDup (kind_of <$> hed_parameters e).

Definition effects_wf (c : HardwareEffectsCapability) : Prop :=
  Forall effect_descriptor_wf (hec_effects c) ∧
  NoDup ((λ e, HardwareEffectId_as_str (hed_id e)) <$> hec_effects c).

Definition slot_wf (s : AppearanceSlotDescriptor) : Prop :=
  Forall colour_capability_wf (ac_colour (asd_appearance s)) ∧
  (∀ effects, ac_hardware_effects (asd_appearance s) = Some effects → effects_wf effects).

Definition CapabilitySet_wf (c : CapabilitySet) : Prop :=
  Forall colour_capability_wf (cs_colour c) ∧
  (∀ bits maximum scope, cs_brightness c = Brightness_Independent bits maximum scope →
     bits_wf bits ∧ maximum ≠ 0%Z ∧ (maximum <= 2 ^ bits - 1)%Z) ∧
  (∀ shm, cs_frame_upload c ≫= fu_shm = Some shm →
     shm_pixel_formats shm ≠ [] ∧
     ∃ n, ShmFrameShape_pixel_count (shm_shape shm) = Some n ∧ n ≠ 0%Z) ∧
  (∀ effects, cs_hardware_effects c = Some effects → effects_wf effects) ∧
  (∀ slots, cs_appearance_slots c = Some slots →
     Forall slot_wf (asc_slots slots) ∧
     NoDup ((λ s, AppearanceSlotId_as_str (asd_id s)) <$> asc_slots slots)).

(** ** Correctness of the checks *)

Lemma cap_ensure_Ok b m : cap_ensure b m = Ok tt ↔ b = true.
Proof. apply ensure_Ok. Qed.

Lemma ensure_insert_Ok {K} `{Countable K} (s : gset K) k m s' :
  ensure_insert s k m = Ok s' ↔ k ∉ s ∧ s' = {[k]} ∪ s.
Proof.
  unfold ensure_insert. rewrite bind_unit_Ok, cap_ensure_Ok. case_bool_decide; naive_solver.
Qed.

(** An optional check. *)
Lemma option_check_Ok {E A} (o : option A) (f : A → result E unit) :
  match o with Some a => f a | None => Ok tt end = Ok tt ↔ ∀ a, o = Some a → f a = Ok tt.
Proof. destruct o; naive_solver. Qed.

(** A duplicate-checking loop run for its checks alone. *)
Lemma seen_loop_Ok {E A K} `{Countable K} (key : A → K) (P : A → Prop)
    (f : gset K → A → result E (gset K)) l :
  (∀ s x s', f s x = Ok s' ↔ P x ∧ key x ∉ s ∧ s' = {[key x]} ∪ s) →
  (_ ← try_fold f ∅ l; Ok tt) = Ok tt ↔ Forall P l ∧ NoDup (key <$> l).
Proof.
  intros Hf. rewrite <-(try_fold_seen_empty key P f Hf), bind_Ok. naive_solver.
Qed.

Lemma validate_bits_Ok name bits : validate_bits name bits = Ok tt ↔ bits_wf bits.
Proof.
  unfold validate_bits, bits_wf. rewrite cap_ensure_Ok, andb_true_iff, !Z.leb_le. done.
Qed.

Lemma validate_colour_capability_Ok c :
  validate_colour_capability c = Ok tt ↔ colour_capability_wf c.
Proof.
  destruct c as [channels|h s v|h s v|b|b]; cbn [validate_colour_capability].
  - rewrite bind_unit_Ok, cap_ensure_Ok, negb_true_iff, bool_decide_eq_false.
    rewrite (seen_loop_Ok ccc_channel (λ ch, bits_wf (ccc_bits ch))); [done|].
    intros seen ch s'. unfold validate_colour_channel.
    rewrite bind_unit_Ok, validate_bits_Ok, ensure_insert_Ok. done.
  - rewrite try_for_Ok, !Forall_cons, Forall_nil, !validate_bits_Ok. simpl. tauto.
  - rewrite try_for_Ok, !Forall_cons, Forall_nil, !validate_bits_Ok. simpl. tauto.
  - apply validate_bits_Ok.
  - apply validate_bits_Ok.
Qed.

Lemma validate_colours_Ok cs : validate_colours cs = Ok tt ↔ Forall colour_capability_wf cs.
Proof.
  unfold validate_colours. rewrite try_for_Ok. apply Forall_proper; [|done].
  intros c. apply validate_colour_capability_Ok.
Qed.

Lemma set_size_NoDup {A} `{Countable A} (l : list A) :
  size (list_to_set l : gset A) = length l ↔ NoDup l.
Proof.
  split; [|apply size_list_to_set].
  induction l as [|x l IH]; [constructor|]. simpl. intros Hs.
  pose proof (size_list_to_set_le l) as Hle.
  destruct (decide (x ∈ l)) as [Hx|Hx].
  - replace ({[x]} ∪ list_to_set l : gset A) with (list_to_set l : gset A) in Hs by set_solver. lia.
  - constructor; [done|]. apply IH. rewrite size_union, size_singleton in Hs by set_solver. lia.
Qed.

Lemma range_check r :
  negb (range_step r =? 0)%Z && (range_min r <=? range_max r)%Z = true ↔
  range_step r ≠ 0%Z ∧ (range_min r <= range_max r)%Z.
Proof. rewrite andb_true_iff, negb_true_iff, Z.eqb_neq, Z.leb_le. done. Qed.

Lemma validate_choice_Ok s o s' :
  validate_choice s o = Ok s' ↔
  (choice_id o ≠ ""%string ∧ choice_name o ≠ ""%string) ∧ choice_id o ∉ s ∧
  s' = {[choice_id o]} ∪ s.
Proof.
  unfold validate_choice. rewrite bind_unit_Ok, cap_ensure_Ok, !andb_true_iff, !negb_true_iff.
  rewrite !bool_decide_eq_false. naive_solver.
Qed.

Lemma parameter_kind_Ok p k : parameter_kind p = Ok k ↔ parameter_wf p ∧ k = kind_of p.
Proof.
  destruct p as [lo hi|r|vs|r|b|os]; cbn [parameter_kind parameter_wf kind_of];
    rewrite ?bind_unit_Ok, ?cap_ensure_Ok, ?range_check, ?validate_bits_Ok, ?Z.leb_le,
      ?negb_true_iff, ?bool_decide_eq_false, ?bool_decide_eq_true, ?set_size_NoDup;
    try naive_solver.
  pose proof (seen_loop_Ok choice_id _ validate_choice os validate_choice_Ok) as H.
  rewrite !bind_Ok in *. naive_solver.
Qed.

Lemma validate_parameters_Ok ps :
  (∃ kinds, try_fold validate_parameter ∅ ps = Ok kinds) ↔
  Forall parameter_wf ps ∧ NoDup (kind_of <$> ps).
Proof.
  apply (try_fold_seen_empty kind_of). intros s p s'. unfold validate_parameter.
  rewrite bind_Ok. setoid_rewrite parameter_kind_Ok. setoid_rewrite ensure_insert_Ok.
  naive_solver.
Qed.

Lemma validate_effect_descriptor_Ok s e s' :
  validate_effect_descriptor s e = Ok s' ↔
  effect_descriptor_wf e ∧ HardwareEffectId_as_str (hed_id e) ∉ s ∧
  s' = {[HardwareEffectId_as_str (hed_id e)]} ∪ s.
Proof.
  unfold validate_effect_descriptor, effect_descriptor_wf.
  rewrite <-validate_parameters_Ok, bind_unit_Ok, cap_ensure_Ok, negb_true_iff, bool_decide_eq_false.
  rewrite bind_Ok. split.
  - intros (Hid & ids & (Hs & ->)%ensure_insert_Ok & H).
    apply bind_unit_Ok in H as (Hn%cap_ensure_Ok & H). apply bind_Ok in H as (k & Hk & [= <-]).
    bool_prop. split_and!; eauto.
  - intros ((Hid & Hn & k & Hk) & Hs & ->). split; [done|]. eexists.
    split; [by apply ensure_insert_Ok|]. apply bind_unit_Ok.
    split; [apply cap_ensure_Ok; by rewrite bool_decide_false|].
    by rewrite Hk.
Qed.

Lemma validate_effects_Ok c : validate_effects c = Ok tt ↔ effects_wf c.
Proof. apply seen_loop_Ok, validate_effect_descriptor_Ok. Qed.

Lemma representable_bits bits :
  bits_wf bits →
  (if (bits =? 32)%Z then uN_max 32 else (wrapU 32 (Z.shiftl 1 bits) - 1)%Z) = (2 ^ bits - 1)%Z.
Proof.
  intros Hb. destruct (Z.eqb_spec bits 32) as [->|Hne]; [done|].
  rewrite Z.shiftl_1_l, wrapU_id; [done|]. unfold uN, bits_wf in *.
  split; [apply Z.pow_nonneg; lia|]. apply Z.pow_lt_mono_r; lia.
Qed.

Lemma validate_brightness_capability_Ok b :
  validate_brightness_capability b = Ok tt ↔
  ∀ bits maximum scope, b = Brightness_Independent bits maximum scope →
    bits_wf bits ∧ maximum ≠ 0%Z ∧ (maximum <= 2 ^ bits - 1)%Z.
Proof.
  destruct b as [|bits maximum scope]; [naive_solver|].
  cbn [validate_brightness_capability]. rewrite bind_unit_Ok, validate_bits_Ok, cap_ensure_Ok.
  rewrite andb_true_iff, negb_true_iff, Z.eqb_neq, Z.leb_le. split.
  - intros (Hb & Hm & Hr) ? ? ? [= <- <- <-]. by rewrite representable_bits in Hr.
  - intros H. destruct (H _ _ _ eq_refl) as (Hb & Hm & Hr). by rewrite representable_bits.
Qed.

Lemma validate_shm_Ok u :
  validate_shm u = Ok tt ↔
  ∀ shm, u ≫= fu_shm = Some shm →
    shm_pixel_formats shm ≠ [] ∧
    ∃ n, ShmFrameShape_pixel_count (shm_shape shm) = Some n ∧ n ≠ 0%Z.
Proof.
  unfold validate_shm. rewrite option_check_Ok. apply forall_proper. intros shm.
  rewrite bind_unit_Ok, !cap_ensure_Ok, negb_true_iff, bool_decide_eq_false.
  destruct (ShmFrameShape_pixel_count _) as [n|];
    [rewrite negb_true_iff, Z.eqb_neq|]; naive_solver.
Qed.

Lemma validate_slot_Ok s d s' :
  validate_slot s d = Ok s' ↔
  slot_wf d ∧ AppearanceSlotId_as_str (asd_id d) ∉ s ∧
  s' = {[AppearanceSlotId_as_str (asd_id d)]} ∪ s.
Proof.
  unfold validate_slot, slot_wf. rewrite <-validate_colours_Ok.
  assert (match ac_hardware_effects (asd_appearance d) with
          | Some effects => map_err (in_slot d) (validate_effects effects)
          | None => Ok tt
          end = Ok tt ↔
          ∀ effects, ac_hardware_effects (asd_appearance d) = Some effects → effects_wf effects) as He.
  { rewrite option_check_Ok. apply forall_proper. intros e.
    by rewrite map_err_Ok, validate_effects_Ok. }
  rewrite <-He, bind_Ok. setoid_rewrite ensure_insert_Ok.
  setoid_rewrite bind_unit_Ok. setoid_rewrite bind_unit_Ok. setoid_rewrite map_err_Ok at 1.
  naive_solver.
Qed.

(** ** Claims *)

(** C40: A capability set is accepted exactly when every advertised value forms a
    usable request contract: each colour model has channels of 1 to 32 bits and no
    repeated emitter, an independent brightness has a non-zero maximum that its
    width can represent, a shared-memory buffer has a pixel format and a non-zero
    pixel count that fits 32 bits, and effects, parameters, choices and slots have
    non-empty, unique identifiers and satisfiable ranges. *)
Theorem capability_validate_correct c :
  CapabilitySet_validate c = Ok tt ↔ CapabilitySet_wf c.
Proof.
  unfold CapabilitySet_validate, CapabilitySet_wf.
  rewrite !bind_unit_Ok, validate_colours_Ok, validate_brightness_capability_Ok, validate_shm_Ok.
  rewrite !option_check_Ok. setoid_rewrite validate_effects_Ok.
  setoid_rewrite (λ l, seen_loop_Ok _ _ validate_slot l validate_slot_Ok). done.
Qed.
