(* ===== verification/Policy.v ===== *)
(** * Access policy: [luminate-core/src/policy/identity.rs] and [document.rs]

    Principals, sessions and scopes; the validation of a policy document; and the
    evaluation of a request with deny-overrides-allow semantics over the roles a
    principal reaches.  [BTreeSet] and [BTreeMap] are [gset] and [gmap] iterated in
    key order; [SystemTime] and [Duration] are counts of nanoseconds.  The two
    traversals of the role graph are modelled with fuel, and the fuel is proved to
    be enough. *)

From stdpp Require Import pretty.
From S2P Require Import Prelude Model.

Definition MAX_IDENTITY_TEXT_BYTES : Z := 4096.
Definition MAX_VERIFIED_GROUPS : Z := 256.
Definition MAX_CACHE_HINT : Z := 300 * 1000000000.
Definition MAX_REASON_BYTES : Z := 512.

(** [str::len], in bytes. *)
Definition byte_len (s : string) : Z := Z.of_nat (String.length s).

(** ** Identities: [identity.rs] *)

Inductive Operation :=
| Observe | Refresh | Control | HardwareAdministration | DaemonAdministration
| ManagePlugins | CreateCollection | DestroyCollection | ModifyCollection
| AdministerCollections | ManagePolicy | ManageAuthentication | AdministerFrontend
| CreateScene | ModifyScene | DestroyScene | AdministerScenes.
#[export] Instance Operation_eq : EqDecision Operation.
Proof. solve_decision. Defined.

(** [all_operations] of [document.rs], in declaration order. *)
Definition operation_list : list Operation :=
  [Observe; Refresh; Control; HardwareAdministration; DaemonAdministration; ManagePlugins;
   CreateCollection; DestroyCollection; ModifyCollection; AdministerCollections;
   ManagePolicy; ManageAuthentication; AdministerFrontend; CreateScene; ModifyScene;
   DestroyScene; AdministerScenes].

Definition operation_index (o : Operation) : nat :=
  default 0 (fst <$> list_find (λ x, x = o) operation_list).
#[export] Program Instance Operation_countable : Countable Operation :=
  inj_countable operation_index (λ n, operation_list !! n) _.
Solve Obligations with by intros [].

Record ValidationError := ValidationError_new { ve_message : Text }.
#[export] Instance ValidationError_eq : EqDecision ValidationError.
Proof. solve_decision. Defined.

Notation validated := (result ValidationError).

Definition validate_nonempty (kind : string) (value : string) : validated unit :=
  if bool_decide (value = ""%string)
  then Err (ValidationError_new (Fmt "{kind} must not be empty" [AStr kind]))
  else if (MAX_IDENTITY_TEXT_BYTES <? byte_len value)%Z
  then Err (ValidationError_new
              (Fmt "{kind} is {} bytes; maximum is {MAX_IDENTITY_TEXT_BYTES}"
                 [AStr kind; ANum (byte_len value)]))
  else Ok tt.

Definition validate_strings (kind : string) (values : gset string) : validated unit :=
  try_for (validate_nonempty kind) (set_iter values).

Record Resource := {
  res_device_id : DeviceId;
  res_provider_instance : option string;
  res_host_attached : bool;
  res_collections : gset CollectionId
}.

Definition PrincipalId_new (authority subject : string) : validated PrincipalId :=
  _ ← validate_nonempty "principal authority" authority;
  _ ← validate_nonempty "principal subject" subject;
  Ok (PrincipalId_mk authority subject).

Record Principal := Principal_mk { pr_id : PrincipalId; pr_groups : gset string }.

Definition Principal_from_id (id : PrincipalId) (groups : list string) : validated Principal :=
  let groups : gset string := list_to_set groups in
  if (MAX_VERIFIED_GROUPS <? Z.of_nat (size groups))%Z
  then Err (ValidationError_new
              (Fmt "principal has {} verified groups; maximum is {MAX_VERIFIED_GROUPS}"
                 [ANum (Z.of_nat (size groups))]))
  else
    _ ← validate_strings "principal group" groups;
    Ok (Principal_mk id groups).

Definition Principal_new (authority subject : string) (groups : list string) :
    validated Principal :=
  id ← PrincipalId_new authority subject;
  Principal_from_id id groups.

Definition Principal_authority (p : Principal) : string := PrincipalId_authority (pr_id p).
Definition Principal_subject (p : Principal) : string := PrincipalId_subject (pr_id p).

Inductive Actor :=
| Actor_Unix (uid gid : Z) (pid : option Z)
| Actor_Windows (sid : string) (pid : option Z).

(** [u32::to_string] is [pretty] on the naturals. *)
Definition Actor_principal_id (a : Actor) : validated PrincipalId :=
  match a with
  | Actor_Unix uid _ _ => PrincipalId_new "unix" (pretty (Z.to_N uid))
  | Actor_Windows sid _ => PrincipalId_new "windows" sid
  end.

Inductive AuthenticationSource :=
| Source_Peer
| Source_Bearer
| Source_Attestation (name : string)
| Source_External (provider : string).

Record AuthenticationLease := { lease_expires_at : option Z }.

Definition lease_unlimited : AuthenticationLease := {| lease_expires_at := None |}.
Definition lease_until (expires_at : Z) : AuthenticationLease :=
  {| lease_expires_at := Some expires_at |}.

Definition lease_is_valid_at (l : AuthenticationLease) (now : Z) : bool :=
  match lease_expires_at l with Some expiry => (now <? expiry)%Z | None => true end.

Record ResourceConstraints := {
  rc_device_ids : gset DeviceId;
  rc_provider_instances : gset string;
  rc_host_attached : option bool;
  rc_collections : gset CollectionId
}.
Definition ResourceConstraints_default : ResourceConstraints :=
  {| rc_device_ids := ∅; rc_provider_instances := ∅; rc_host_attached := None;
     rc_collections := ∅ |}.

Record ScopeGrant := {
  sg_operations : gset Operation;
  sg_resources : ResourceConstraints
}.
Record SessionScope := SessionScope_mk { SessionScope_grants : list ScopeGrant }.

Record AuthenticatedSession := {
  as_actor : Actor;
  as_subject : Principal;
  as_source : AuthenticationSource;
  as_credential_id : option string;
  as_lease : AuthenticationLease;
  as_scope : SessionScope
}.

Definition session_is_valid_at (s : AuthenticatedSession) (now : Z) : bool :=
  lease_is_valid_at (as_lease s) now.

Definition is_direct_peer (s : AuthenticatedSession) : bool :=
  match as_source s with Source_Peer => true | _ => false end.

Definition constraints_are_empty (c : ResourceConstraints) : bool :=
  bool_decide (rc_device_ids c = ∅) && bool_decide (rc_provider_instances c = ∅) &&
  bool_decide (rc_host_attached c = None) && bool_decide (rc_collections c = ∅).

Definition resource_matches (c : ResourceConstraints) (r : Resource) : bool :=
  (bool_decide (rc_device_ids c = ∅) || bool_decide (res_device_id r ∈ rc_device_ids c)) &&
  (bool_decide (rc_provider_instances c = ∅) ||
   match res_provider_instance r with
   | Some instance => bool_decide (instance ∈ rc_provider_instances c)
   | None => false
   end) &&
  match rc_host_attached c with
  | Some required => eqb (res_host_attached r) required
  | None => true
  end &&
  (bool_decide (rc_collections c = ∅) ||
   negb (bool_decide (rc_collections c ∩ res_collections r = ∅))).

Definition constraints_match (c : ResourceConstraints) (resources : list Resource) : bool :=
  if constraints_are_empty c then true
  else negb (bool_decide (length resources = 0)) && forallb (resource_matches c) resources.

Definition SessionScope_new (grants : list ScopeGrant) : validated SessionScope :=
  if bool_decide (length grants = 0)
  then Err (ValidationError_new (Lit "session scope has no grants"))
  else if existsb (λ grant, bool_decide (sg_operations grant = ∅)) grants
  then Err (ValidationError_new (Lit "session scope grant has no operations"))
  else Ok (SessionScope_mk grants).

Definition SessionScope_allows (s : SessionScope) (operation : Operation)
    (resources : list Resource) : bool :=
  existsb (λ grant, bool_decide (operation ∈ sg_operations grant) &&
                    constraints_match (sg_resources grant) resources)
    (SessionScope_grants s).

(** ** Documents: [document.rs] *)

Record RuleId := RuleId_mk { RuleId_as_str : string }.
#[export] Instance RuleId_eq : EqDecision RuleId.
Proof. solve_decision. Defined.
#[export] Program Instance RuleId_countable : Countable RuleId :=
  inj_countable' RuleId_as_str RuleId_mk _.
Solve Obligations with by intros [].

Definition RuleId_new (value : string) : validated RuleId :=
  _ ← validate_nonempty "rule ID" value; Ok (RuleId_mk value).

Inductive RuleEffect := RuleEffect_Allow | RuleEffect_Deny.
#[export] Instance RuleEffect_eq : EqDecision RuleEffect.
Proof. solve_decision. Defined.

Definition least_option (l r : option Z) : option Z :=
  match l, r with
  | Some l, Some r => Some (Z.min l r)
  | Some value, None | None, Some value => Some value
  | None, None => None
  end.

Record LimitCeilings := { lc_connections : option Z; lc_subscriptions : option Z }.

Definition most_restrictive (a b : LimitCeilings) : LimitCeilings :=
  {| lc_connections := least_option (lc_connections a) (lc_connections b);
     lc_subscriptions := least_option (lc_subscriptions a) (lc_subscriptions b) |}.

Record Rule := {
  rule_id : RuleId;
  rule_effect : RuleEffect;
  rule_operations : gset Operation;
  rule_resources : ResourceConstraints;
  rule_reason : option string;
  rule_cache_hint : option Z
}.
Record Role := { role_parents : gset string; role_rules : list Rule }.

Inductive Preset := Viewer | User | Operator | Administrator.

Definition Preset_name (p : Preset) : string :=
  match p with
  | Viewer => "viewer" | User => "user" | Operator => "operator"
  | Administrator => "administrator"
  end.

Definition all_operations : gset Operation := list_to_set operation_list.

Definition Preset_operations (p : Preset) : gset Operation :=
  match p with
  | Viewer => {[Observe]}
  | User => list_to_set
      [Observe; Refresh; Control; CreateCollection; DestroyCollection; ModifyCollection;
       CreateScene; ModifyScene; DestroyScene]
  | Operator => list_to_set
      [Observe; Refresh; Control; HardwareAdministration; DaemonAdministration;
       ManagePlugins; CreateCollection; DestroyCollection; ModifyCollection;
       AdministerCollections; CreateScene; ModifyScene; DestroyScene; AdministerScenes]
  | Administrator => all_operations
  end.

Definition Preset_role (p : Preset) : Role :=
  {| role_parents := ∅;
     role_rules :=
       [{| rule_id := RuleId_mk ("preset-" +:+ Preset_name p);
           rule_effect := RuleEffect_Allow;
           rule_operations := Preset_operations p;
           rule_resources := ResourceConstraints_default;
           rule_reason := None;
           rule_cache_hint := None |}] |}.

Record Binding := {
  b_authority : string;
  b_subjects : gset string;
  b_groups : gset string;
  b_roles : gset string
}.

Record PolicyDocumentSource := {
  pd_revision : Z;
  pd_roles : gmap string Role;
  pd_bindings : list Binding
}.

Definition materialize_presets (revision : Z) (presets : list Preset) : PolicyDocumentSource :=
  {| pd_revision := revision;
     pd_roles := fold_left (λ m p, <[Preset_name p := Preset_role p]> m) presets ∅;
     pd_bindings := [] |}.

(** *** Validation *)

(** The inner loop of [validate_document] over the rules of a role. *)
Definition validate_rule (rule_ids : gset RuleId) (rule : Rule) : validated (gset RuleId) :=
  let id := AStr (RuleId_as_str (rule_id rule)) in
  _ ← validate_nonempty "rule ID" (RuleId_as_str (rule_id rule));
  if bool_decide (rule_operations rule = ∅)
  then Err (ValidationError_new (Fmt "rule {:?} matches no operations" [id]))
  else if bool_decide (rule_id rule ∈ rule_ids)
  then Err (ValidationError_new (Fmt "duplicate rule ID {:?}" [id]))
  else
    _ ← validate_strings "provider instance constraint"
          (rc_provider_instances (rule_resources rule));
    if bool_decide (rule_reason rule = Some ""%string)
    then Err (ValidationError_new (Fmt "rule {:?} has an empty reason" [id]))
    else if match rule_reason rule with
            | Some reason => (MAX_REASON_BYTES <? byte_len reason)%Z
            | None => false
            end
    then Err (ValidationError_new
                (Fmt "rule {:?} reason exceeds {MAX_REASON_BYTES} bytes" [id]))
    else Ok ({[rule_id rule]} ∪ rule_ids).

(** One role of the outer loop. *)
Definition validate_role (roles : gmap string Role) (rule_ids : gset RuleId)
    (entry : string * Role) : validated (gset RuleId) :=
  let '(name, role) := entry in
  _ ← validate_nonempty "role name" name;
  _ ← validate_strings "parent role name" (role_parents role);
  _ ← try_for (λ parent,
         if bool_decide (is_Some (roles !! parent)) then Ok tt
         else Err (ValidationError_new
                     (Fmt "role {name:?} refers to missing parent {parent:?}"
                        [AStr name; AStr parent])))
        (set_iter (role_parents role));
  try_fold validate_rule rule_ids (role_rules role).

Inductive Visit := Active | Complete.
#[export] Instance Visit_eq : EqDecision Visit.
Proof. solve_decision. Defined.

Definition cycle_error (name : string) : ValidationError :=
  ValidationError_new (Fmt "role inheritance contains a cycle at {name:?}" [AStr name]).

Fixpoint visit (roles : gmap string Role) (fuel : nat) (visits : gmap string Visit)
    (name : string) : result (fuelled ValidationError) (gmap string Visit) :=
  match fuel with
  | O => Err Fuel
  | S fuel =>
      match visits !! name with
      | Some Active => Err (Fail (cycle_error name))
      | Some Complete => Ok visits
      | None =>
          let visits := <[name := Active]> visits in
          visits ←
            match roles !! name with
            | Some role => try_fold (visit roles fuel) visits (set_iter (role_parents role))
            | None => Ok visits
            end;
          Ok (<[name := Complete]> visits)
      end
  end.

Definition validate_acyclic_roles (roles : gmap string Role) :
    result (fuelled ValidationError) unit :=
  _ ← try_fold (visit roles (S (size (dom roles)))) ∅ (fst <$> map_iter roles); Ok tt.

Definition validate_binding (roles : gmap string Role) (binding : Binding) : validated unit :=
  _ ← validate_nonempty "binding authority" (b_authority binding);
  _ ← validate_strings "binding subject" (b_subjects binding);
  _ ← validate_strings "binding group" (b_groups binding);
  if bool_decide (b_subjects binding = ∅) && bool_decide (b_groups binding = ∅)
  then Err (ValidationError_new (Lit "binding must contain at least one subject or group"))
  else if bool_decide (b_roles binding = ∅)
  then Err (ValidationError_new (Lit "binding must grant at least one role"))
  else
    _ ← validate_strings "binding role" (b_roles binding);
    try_for (λ role,
        if bool_decide (is_Some (roles !! role)) then Ok tt
        else Err (ValidationError_new (Fmt "binding refers to missing role {role:?}" [AStr role])))
      (set_iter (b_roles binding)).

Definition validate_document (source : PolicyDocumentSource) :
    result (fuelled ValidationError) unit :=
  _ ← map_err Fail (try_fold (validate_role (pd_roles source)) ∅ (map_iter (pd_roles source)));
  _ ← validate_acyclic_roles (pd_roles source);
  map_err Fail (try_for (validate_binding (pd_roles source)) (pd_bindings source)).

(** *** Canonical order *)

Definition rule_le (a b : Rule) : Prop :=
  String.le (RuleId_as_str (rule_id a)) (RuleId_as_str (rule_id b)).
#[export] Instance rule_le_dec : RelDecision rule_le.
Proof. intros a b. unfold rule_le. apply _. Defined.
#[export] Instance rule_le_total : Total rule_le.
Proof. intros a b. apply (total String.le). Qed.

(** The derived orders: strings, then sets as sorted sequences, then tuples. *)
Fixpoint list_compare (a b : list string) : comparison :=
  match a, b with
  | [], [] => Eq
  | [], _ => Lt
  | _, [] => Gt
  | x :: a, y :: b => match String.compare x y with Eq => list_compare a b | c => c end
  end.

Definition then_compare (a b : comparison) : comparison :=
  match a with Eq => b | c => c end.

Definition binding_compare (a b : Binding) : comparison :=
  then_compare (String.compare (b_authority a) (b_authority b))
    (then_compare (list_compare (set_iter (b_subjects a)) (set_iter (b_subjects b)))
      (then_compare (list_compare (set_iter (b_groups a)) (set_iter (b_groups b)))
        (list_compare (set_iter (b_roles a)) (set_iter (b_roles b))))).

Definition binding_le (a b : Binding) : Prop := binding_compare a b ≠ Gt.
#[export] Instance binding_le_dec : RelDecision binding_le.
Proof. intros a b. unfold binding_le. solve_decision. Defined.

Definition sort_rules (r : Role) : Role :=
  {| role_parents := role_parents r; role_rules := merge_sort rule_le (role_rules r) |}.

(** [PolicyDocument] wraps a validated source. *)
Record PolicyDocument := PolicyDocument_mk { pd_source : PolicyDocumentSource }.

Definition PolicyDocument_new (source : PolicyDocumentSource) :
    result (fuelled ValidationError) PolicyDocument :=
  _ ← validate_document source;
  Ok (PolicyDocument_mk
        {| pd_revision := pd_revision source;
           pd_roles := sort_rules <$> pd_roles source;
           pd_bindings := merge_sort binding_le (pd_bindings source) |}).

(** *** Evaluation *)

Inductive DecisionOutcome := Decision_Allow | Decision_Deny.
#[export] Instance DecisionOutcome_eq : EqDecision DecisionOutcome.
Proof. solve_decision. Defined.

Record AuthorizationDecision := {
  ad_outcome : DecisionOutcome;
  ad_reason : option string;
  ad_audit_rule : option RuleId;
  ad_cache_hint : option Z;
  ad_revision : Z
}.

Definition decision_denied (revision : Z) (reason : string) : AuthorizationDecision :=
  {| ad_outcome := Decision_Deny; ad_reason := Some reason; ad_audit_rule := None;
     ad_cache_hint := None; ad_revision := revision |}.

Definition is_allowed (d : AuthorizationDecision) : bool :=
  bool_decide (ad_outcome d = Decision_Allow).

Definition binding_matches (b : Binding) (p : Principal) : bool :=
  bool_decide (b_authority b = Principal_authority p) &&
  (bool_decide (Principal_subject p ∈ b_subjects b) ||
   negb (bool_decide (b_groups b ∩ pr_groups p = ∅))).

Definition rule_matches (rule : Rule) (operation : Operation) (resources : list Resource) : bool :=
  bool_decide (operation ∈ rule_operations rule) &&
  constraints_match (rule_resources rule) resources.

Definition rule_decision (rule : Rule) (revision : Z) : AuthorizationDecision :=
  {| ad_outcome := match rule_effect rule with
                   | RuleEffect_Allow => Decision_Allow
                   | RuleEffect_Deny => Decision_Deny
                   end;
     ad_reason := rule_reason rule;
     ad_audit_rule := Some (rule_id rule);
     ad_cache_hint := (λ hint, Z.min hint MAX_CACHE_HINT) <$> rule_cache_hint rule;
     ad_revision := revision |}.

(** [Option<&str>] compared with [<]: [None] is least. *)
Definition opt_str_lt (a b : option string) : bool :=
  match a, b with
  | _, None => false
  | None, Some _ => true
  | Some a, Some b => bool_decide (String.le a b) && negb (bool_decide (a = b))
  end.

Definition select_decision (selected : option AuthorizationDecision)
    (candidate : AuthorizationDecision) : option AuthorizationDecision :=
  let replace :=
    match selected with
    | None => true
    | Some current => opt_str_lt (RuleId_as_str <$> ad_audit_rule candidate)
                                 (RuleId_as_str <$> ad_audit_rule current)
    end in
  if replace then Some candidate else selected.

(** The roles granted directly, before inheritance. *)
Definition bound_roles (doc : PolicyDocumentSource) (p : Principal) : gset string :=
  list_to_set (filter (λ b, binding_matches b p = true) (pd_bindings doc)
               ≫= λ b, set_iter (b_roles b)).

(** [for parent in parents { if roles.insert(parent) { pending.push(parent) } }];
    the top of the stack [pending] is the head of the list. *)
Definition push_parent (acc : gset string * list string) (parent : string) :
    gset string * list string :=
  if decide (parent ∈ acc.1) then acc else ({[parent]} ∪ acc.1, parent :: acc.2).

Fixpoint close_roles (doc : PolicyDocumentSource) (fuel : nat) (roles : gset string)
    (pending : list string) : option (gset string) :=
  match pending with
  | [] => Some roles
  | name :: pending =>
      match fuel with
      | O => None
      | S fuel =>
          match pd_roles doc !! name with
          | None => close_roles doc fuel roles pending
          | Some role =>
              let '(roles, pending) :=
                fold_left push_parent (set_iter (role_parents role)) (roles, pending) in
              close_roles doc fuel roles pending
          end
      end
  end.

(** Every name a role closure can mention. *)
Definition parent_names (doc : PolicyDocumentSource) : gset string :=
  ⋃ ((λ p, role_parents p.2) <$> map_to_list (pd_roles doc)).

Definition effective_roles (doc : PolicyDocumentSource) (p : Principal) : gset string :=
  let roles := bound_roles doc p in
  default ∅ (close_roles doc (size (roles ∪ parent_names doc)) roles (reverse (set_iter roles))).

(** The body of the loop over the rules. *)
Definition consider (revision : Z) (operation : Operation) (resources : list Resource)
    (acc : option AuthorizationDecision * option AuthorizationDecision) (rule : Rule) :
    option AuthorizationDecision * option AuthorizationDecision :=
  if rule_matches rule operation resources then
    let candidate := rule_decision rule revision in
    match rule_effect rule with
    | RuleEffect_Allow => (select_decision acc.1 candidate, acc.2)
    | RuleEffect_Deny => (acc.1, select_decision acc.2 candidate)
    end
  else acc.

Definition consider_role (doc : PolicyDocumentSource) (operation : Operation)
    (resources : list Resource)
    (acc : option AuthorizationDecision * option AuthorizationDecision) (role_name : string) :
    option AuthorizationDecision * option AuthorizationDecision :=
  match pd_roles doc !! role_name with
  | None => acc
  | Some role =>
      fold_left (consider (pd_revision doc) operation resources) (role_rules role) acc
  end.

Definition evaluate (d : PolicyDocument) (p : Principal) (operation : Operation)
    (resources : list Resource) : AuthorizationDecision :=
  let doc := pd_source d in
  let '(allow, deny) :=
    fold_left (consider_role doc operation resources)
      (set_iter (effective_roles doc p)) (None, None) in
  match deny, allow with
  | Some decision, _ => decision
  | None, Some decision => decision
  | None, None => decision_denied (pd_revision doc) "access denied by default"
  end.

Definition evaluate_session (d : PolicyDocument) (session : AuthenticatedSession)
    (operation : Operation) (resources : list Resource) (now : Z) : AuthorizationDecision :=
  if negb (session_is_valid_at session now)
  then decision_denied (pd_revision (pd_source d)) "authentication lease expired"
  else if negb (SessionScope_allows (as_scope session) operation resources)
  then decision_denied (pd_revision (pd_source d)) "session scope denied access"
  else evaluate d (as_subject session) operation resources.

(** *** Recovery *)

Record RecoveryPolicy := { rp_principals : gset PrincipalId }.

Definition RecoveryPolicy_allows (r : RecoveryPolicy) (session : AuthenticatedSession)
    (operation : Operation) : bool :=
  match operation with ManagePolicy | ManageAuthentication => true | _ => false end &&
  is_direct_peer session && bool_decide (pr_id (as_subject session) ∈ rp_principals r).

(** ** Inheritance closure *)

Section closure.
Context (doc : PolicyDocumentSource).

(** Role [a] inherits from [b]. *)
Definition inherits (a b : string) : Prop :=
  ∃ role, pd_roles doc !! a = Some role ∧ b ∈ role_parents role.

Lemma inherits_parent_names a b : inherits a b → b ∈ parent_names doc.
Proof.
  intros (role & Ha & Hb). apply elem_of_union_list. exists (role_parents role).
  split; [|done]. apply list_elem_of_fmap. exists (a, role).
  split; [done|by apply elem_of_map_to_list].
Qed.

Lemma push_parents_spec U ps R P :
  list_to_set ps ⊆ U →
  let '(R', P') := fold_left push_parent ps (R, P) in
  R' = R ∪ list_to_set ps ∧
  (∀ x, x ∈ P' ↔ x ∈ P ∨ (x ∈ ps ∧ x ∉ R)) ∧
  length P' + size (U ∖ R') = length P + size (U ∖ R).
Proof.
  revert R P. induction ps as [|a ps IH]; intros R P HU; simpl.
  { split_and!; [set_solver..|done]. }
  unfold push_parent at 2; simpl. case_decide as Ha.
  - specialize (IH R P ltac:(set_solver)).
    destruct (fold_left _ _ _) as [R' P']. destruct IH as (-> & HP & Hs).
    split_and!; [set_solver| |]; [intros x; rewrite HP; set_solver|].
    rewrite <-Hs. do 2 f_equal. 
  - specialize (IH ({[a]} ∪ R) (a :: P) ltac:(set_solver)).
    destruct (fold_left _ _ _) as [R' P']. destruct IH as (-> & HP & Hs).
    split_and!; [set_solver| |].
    + intros x. rewrite HP. destruct (decide (x = a)); set_solver.
    + rewrite Hs. simpl.
      assert (size (U ∖ R) = S (size (U ∖ ({[a]} ∪ R)))); [|lia].
      replace (U ∖ R) with ({[a]} ∪ U ∖ ({[a]} ∪ R)).
      * rewrite size_union, size_singleton by set_solver. done.
      * apply set_eq. intros x. destruct (decide (x = a)); set_solver.
Qed.

Context (init : gset string).

(** The loop invariant of the worklist: everything recorded is reachable, and
    everything recorded but not pending has its parents recorded. *)
Definition closing (R : gset string) (P : list string) : Prop :=
  init ⊆ R ∧ R ⊆ init ∪ parent_names doc ∧ (∀ x, x ∈ P → x ∈ R) ∧
  (∀ x, x ∈ R → ∃ y, y ∈ init ∧ rtc inherits y x) ∧
  (∀ x y, x ∈ R → x ∉ P → inherits x y → y ∈ R).

Lemma close_roles_spec fuel R P :
  closing R P → length P + size ((init ∪ parent_names doc) ∖ R) ≤ fuel →
  ∃ R', close_roles doc fuel R P = Some R' ∧ closing R' [].
Proof.
  revert R P. induction fuel as [|fuel IH]; intros R P HR Hfuel.
  { destruct P; simpl in *; [eauto|lia]. }
  destruct P as [|name P]; simpl; [eauto|].
  destruct HR as (Hi & HU & HP & Hr & Hc). simpl in Hfuel.
  destruct (pd_roles doc !! name) as [role|] eqn:Hn.
  - pose proof (push_parents_spec (init ∪ parent_names doc) (set_iter (role_parents role)) R P)
      as Hpush.
    assert (∀ x, x ∈ role_parents role → inherits name x) as Hpar by (by exists role).
    assert (∀ x, x ∈ (list_to_set (set_iter (role_parents role)) : gset string) ↔
                 x ∈ role_parents role) as Hset
      by (intros; by rewrite elem_of_list_to_set, elem_of_set_iter).
    destruct (fold_left _ _ _) as [R' P'].
    destruct Hpush as (-> & HP' & Hs).
    { intros x ?%Hset%Hpar%inherits_parent_names. set_solver. }
    apply IH; [|lia]. split_and!.
    + set_solver.
    + intros x [?|?%Hset%Hpar%inherits_parent_names]%elem_of_union; set_solver.
    + intros x [?|[? _]]%HP'; [set_solver|]. apply elem_of_union. right.
      by apply elem_of_list_to_set.
    + intros x [?|?%Hset%Hpar]%elem_of_union; [by apply Hr|].
      destruct (Hr name ltac:(set_solver)) as (y & Hy & Hyn). exists y. split; [done|].
      by eapply rtc_r.
    + intros x y Hx Hx' Hxy. destruct (decide (x = name)) as [->|Hne].
      * apply elem_of_union. right. apply Hset. destruct Hxy as (role' & Hr' & ?). congruence.
      * rewrite HP', elem_of_set_iter in Hx'. apply elem_of_union. left.
        apply (Hc x y); [|set_solver|done].
        apply elem_of_union in Hx as [?|?%Hset]; [done|]. destruct (decide (x ∈ R)); [done|].
        destruct Hx'. auto.
  - apply IH; [|lia]. split_and!; [done..|set_solver|done|].
    intros x y Hx Hx' Hxy. destruct (decide (x = name)) as [->|Hne].
    + destruct Hxy as (role & ? & _). congruence.
    + apply (Hc x y); [done|set_solver|done].
Qed.
End closure.

Lemma effective_roles_spec doc p x :
  x ∈ effective_roles doc p ↔ ∃ y, y ∈ bound_roles doc p ∧ rtc (inherits doc) y x.
Proof.
  unfold effective_roles. set (init := bound_roles doc p).
  destruct (close_roles_spec doc init (size (init ∪ parent_names doc)) init
    (reverse (set_iter init))) as (R' & HR' & Hi & _ & _ & Hr & Hc).
  - split_and!; [done|set_solver| | |].
    + intros y. by rewrite elem_of_reverse, elem_of_set_iter.
    + intros y Hy. exists y. split; [done|apply rtc_refl].
    + intros y z Hy Hy' _. destruct Hy'. by rewrite elem_of_reverse, elem_of_set_iter.
  - rewrite length_reverse. unfold set_iter. rewrite merge_sort_Permutation.
    change (length (elements init)) with (size init).
    rewrite <-size_union by set_solver. apply subseteq_size.
    intros y. destruct (decide (y ∈ init)); set_solver.
  - rewrite HR'. simpl. split; [apply Hr|]. intros (y & Hy & Hyx).
    apply Hi in Hy. revert Hy. induction Hyx as [|a b c Hab _ IH]; [done|].
    intros Ha. apply IH. apply (Hc a b); [done|set_solver|done].
Qed.

(** ** Acyclicity *)

Section acyclic.
Context (roles : gmap string Role).

Definition parent_of (a b : string) : Prop :=
  ∃ role, roles !! a = Some role ∧ b ∈ role_parents role.

(** No role inherits, however indirectly, from itself; being inductive, this is
    the absence of cycles above [name]. *)
Inductive grounded (name : string) : Prop :=
| grounded_missing : roles !! name = None → grounded name
| grounded_role role :
    roles !! name = Some role → (∀ b, b ∈ role_parents role → grounded b) → grounded name.

Lemma grounded_acyclic a : grounded a → ¬ tc parent_of a a.
Proof.
  intros Hg. induction Hg as [a Hn|a role Hr _ IH]; intros H.
  - inversion H as [? ? (role & ? & _)|? ? ? (role & ? & _)]; subst; congruence.
  - assert (∃ b, parent_of a b ∧ rtc parent_of b a) as (b & Hab & Hba).
    { inversion H; subst; eauto using tc_rtc, rtc_refl. }
    pose proof Hab as (role' & Hr' & Hb). assert (role' = role) as -> by congruence.
    apply (IH b Hb). eapply tc_rtc_l; [done|by apply tc_once].
Qed.

Definition actives (v : gmap string Visit) : gset string :=
  dom (filter (λ p, p.2 = Active) v).

Lemma elem_of_actives v x : x ∈ actives v ↔ v !! x = Some Active.
Proof.
  unfold actives. rewrite elem_of_dom. split.
  - intros [y [? ?]%map_lookup_filter_Some]. naive_solver.
  - intros H. exists Active. by apply map_lookup_filter_Some.
Qed.

(** The roles marked complete are grounded. *)
Definition visited (v : gmap string Visit) : Prop :=
  ∀ x, v !! x = Some Complete → grounded x.

(** The active names are those on the path, the others are unchanged or done. *)
Definition visit_post (names : list string) (v : gmap string Visit)
    (r : result (fuelled ValidationError) (gmap string Visit)) : Prop :=
  match r with
  | Ok v' => actives v' = actives v ∧ visited v' ∧ Forall grounded names
  | Err (Fail e) => ∃ x, tc parent_of x x ∧ e = cycle_error x
  | Err Fuel => False
  end.

Lemma visits_spec f names v :
  (∀ n v', n ∈ names → actives v' = actives v → visited v' → visit_post [n] v' (f v' n)) →
  visited v → visit_post names v (try_fold f v names).
Proof.
  revert v. induction names as [|n names IH]; intros v Hf Hv; simpl; [by split_and!|].
  pose proof (Hf n v ltac:(set_solver) eq_refl Hv) as Hn.
  destruct (f v n) as [v1|[|e]]; simpl in Hn |- *; [|done..].
  destruct Hn as (Ha & Hv1 & Hg). rewrite Forall_singleton in Hg.
  specialize (IH v1 ltac:(intros; apply Hf; [set_solver|congruence|done]) Hv1).
  destruct (try_fold _ _ _) as [v2|[|e]]; [|done..].
  destruct IH as (Ha2 & Hv2 & Hg2).
  split; [by rewrite Ha2|]. split; [exact Hv2|]. apply Forall_cons. split; [exact Hg|exact Hg2].
Qed.

Lemma visit_spec fuel v name :
  actives v ⊆ dom roles → size (dom roles ∖ actives v) < fuel →
  (∀ x, x ∈ actives v → tc parent_of x name) → visited v →
  visit_post [name] v (visit roles fuel v name).
Proof.
  revert v name. induction fuel as [|fuel IH]; intros v name Hdom Hfuel Hpath Hv; [lia|].
  simpl. destruct (v !! name) as [[|]|] eqn:Hn.
  - exists name. split; [|done]. apply Hpath. by apply elem_of_actives.
  - split_and!; [done..|]. apply Forall_singleton. by apply Hv.
  - assert (actives (<[name:=Active]> v) = {[name]} ∪ actives v) as Hact.
    { apply set_eq. intros x. rewrite elem_of_union, elem_of_singleton, !elem_of_actives.
      destruct (decide (name = x)) as [<-|]; [rewrite lookup_insert_eq; tauto|].
      rewrite lookup_insert_ne by done. naive_solver. }
    assert (visited (<[name:=Active]> v)) as Hv0.
    { intros x. rewrite lookup_insert_Some. intros [[_ ?]|[_ ?]]; [done|by apply Hv]. }
    assert (name ∉ actives v) as Hna by (rewrite elem_of_actives; congruence).
    assert (∀ v', actives v' = {[name]} ∪ actives v → visited v' → grounded name →
      visit_post [name] v (Ok (<[name:=Complete]> v'))) as Hfin.
    { intros v' Ha Hv' Hg. split_and!; [| |by apply Forall_singleton];
        [|intros x [[<- _]|[_ Hx]]%lookup_insert_Some; [done|by apply Hv']].
      apply set_eq. intros x. rewrite elem_of_actives.
      destruct (decide (name = x)) as [<-|Hne]; [by rewrite lookup_insert_eq|].
      rewrite lookup_insert_ne, <-elem_of_actives, Ha by done. set_solver. }
    destruct (roles !! name) as [role|] eqn:Hr; simpl.
    + assert (visit_post (set_iter (role_parents role)) (<[name:=Active]> v)
        (try_fold (visit roles fuel) (<[name:=Active]> v) (set_iter (role_parents role)))) as Hp.
      { apply visits_spec; [|done]. intros n v' Hnp%elem_of_set_iter Ha' Hv'. rewrite Hact in Ha'.
        assert (name ∈ dom roles) by (apply elem_of_dom; eauto).
        apply IH; rewrite ?Ha'; [set_solver| | |done].
        - assert (dom roles ∖ ({[name]} ∪ actives v) ⊂ dom roles ∖ actives v)
            as Hlt%subset_size by set_solver. lia.
        - intros x [->%elem_of_singleton|Hx]%elem_of_union; [apply tc_once; by exists role|].
          eapply tc_r; [by apply Hpath|by exists role]. }
      destruct (try_fold _ _ _) as [v'|[|e]]; [|done..]. simpl.
      destruct Hp as (Ha & Hv' & Hg). rewrite Hact in Ha. apply Hfin; [done..|].
      rewrite Forall_forall in Hg. apply (grounded_role _ role); [done|].
      intros b Hb. by apply Hg, elem_of_set_iter.
    + apply Hfin; [done..|]. by apply grounded_missing.
Qed.

Lemma validate_acyclic_spec :
  match validate_acyclic_roles roles with
  | Ok _ => ∀ x, ¬ tc parent_of x x
  | Err (Fail e) => ∃ x, tc parent_of x x ∧ e = cycle_error x
  | Err Fuel => False
  end.
Proof.
  unfold validate_acyclic_roles.
  assert (visited ∅) as H0 by (intros x Hx; by apply lookup_empty_Some in Hx).
  assert (actives ∅ = ∅) as Ha by (apply elem_of_equiv_empty_L; intros x;
    rewrite elem_of_actives; by rewrite lookup_empty).
  assert (visit_post (map_iter roles).*1 ∅
    (try_fold (visit roles (S (size (dom roles)))) ∅ (map_iter roles).*1)) as Hp.
  { apply visits_spec; [|done]. intros n v' _ Ha' Hv'. apply visit_spec; rewrite ?Ha', ?Ha;
      [set_solver|rewrite difference_empty_L; lia|set_solver|done]. }
  destruct (try_fold _ _ _) as [v'|[|e]]; [|done..]. simpl.
  destruct Hp as (_ & _ & Hg). intros x Hx. pose proof Hx as Hx'.
  rewrite Forall_forall in Hg. apply (grounded_acyclic x); [|done].
  assert (∃ role, roles !! x = Some role) as [role Hrole].
  { inversion Hx as [? ? (role & ? & _)|? ? ? (role & ? & _)]; subst; eauto. }
  apply Hg, list_elem_of_fmap. exists (x, role). split; [done|by apply elem_of_map_iter].
Qed.
End acyclic.

(** ** What document validation accepts *)

(** A text that [validate_nonempty] accepts. *)
Definition text_wf (s : string) : Prop :=
  s ≠ ""%string ∧ (byte_len s <= MAX_IDENTITY_TEXT_BYTES)%Z.

Definition rule_wf (r : Rule) : Prop :=
  text_wf (RuleId_as_str (rule_id r)) ∧ rule_operations r ≠ ∅ ∧
  set_Forall text_wf (rc_provider_instances (rule_resources r)) ∧
  (∀ reason, rule_reason r = Some reason →
     reason ≠ ""%string ∧ (byte_len reason <= MAX_REASON_BYTES)%Z).

Definition role_wf (roles : gmap string Role) (name : string) (r : Role) : Prop :=
  text_wf name ∧ set_Forall (λ p, text_wf p ∧ is_Some (roles !! p)) (role_parents r) ∧
  Forall rule_wf (role_rules r).

Definition binding_wf (roles : gmap string Role) (b : Binding) : Prop :=
  text_wf (b_authority b) ∧ set_Forall text_wf (b_subjects b) ∧ set_Forall text_wf (b_groups b) ∧
  (b_subjects b ≠ ∅ ∨ b_groups b ≠ ∅) ∧ b_roles b ≠ ∅ ∧
  set_Forall (λ r, text_wf r ∧ is_Some (roles !! r)) (b_roles b).

(** All the rules of a document, role by role. *)
Definition document_rules (roles : gmap string Role) : list Rule :=
  map_iter roles ≫= λ entry, role_rules entry.2.

(** Rule identifiers are unique across all roles, references are closed, and no
    role inherits from itself. *)
Definition document_wf (source : PolicyDocumentSource) : Prop :=
  map_Forall (role_wf (pd_roles source)) (pd_roles source) ∧
  NoDup (rule_id <$> document_rules (pd_roles source)) ∧
  (∀ x, ¬ tc (parent_of (pd_roles source)) x x) ∧
  Forall (binding_wf (pd_roles source)) (pd_bindings source).

Lemma validate_nonempty_Ok kind s : validate_nonempty kind s = Ok tt ↔ text_wf s.
Proof.
  unfold validate_nonempty, text_wf. rewrite !guard_Ok, bool_decide_eq_false, Z.ltb_ge.
  naive_solver.
Qed.

Lemma try_for_set {E} (f : string → result E unit) (s : gset string) :
  try_for f (set_iter s) = Ok tt ↔ set_Forall (λ x, f x = Ok tt) s.
Proof.
  rewrite try_for_Ok, Forall_forall. unfold set_Forall. by setoid_rewrite elem_of_set_iter.
Qed.

Lemma validate_strings_Ok kind s : validate_strings kind s = Ok tt ↔ set_Forall text_wf s.
Proof.
  unfold validate_strings. rewrite try_for_set. unfold set_Forall.
  by setoid_rewrite validate_nonempty_Ok.
Qed.

Lemma validate_known_Ok {A} (s : gset string) (m : gmap string A) (e : string → ValidationError) :
  set_Forall text_wf s ∧
  try_for (λ x, if bool_decide (is_Some (m !! x)) then Ok tt else Err (e x)) (set_iter s) = Ok tt
  ↔ set_Forall (λ x, text_wf x ∧ is_Some (m !! x)) s.
Proof.
  rewrite try_for_set. unfold set_Forall. split.
  - intros [H1 H2] x Hx. split; [by apply H1|]. specialize (H2 x Hx). by case_bool_decide.
  - intros H. split; intros x Hx; [by apply H|]. rewrite bool_decide_true; [done|by apply H].
Qed.

Lemma validate_rule_Ok ids r ids' :
  validate_rule ids r = Ok ids' ↔ rule_wf r ∧ rule_id r ∉ ids ∧ ids' = {[rule_id r]} ∪ ids.
Proof.
  unfold validate_rule, rule_wf.
  rewrite bind_unit_Ok, !guard_Ok, bind_unit_Ok, !guard_Ok, validate_nonempty_Ok,
    validate_strings_Ok, !bool_decide_eq_false.
  destruct (rule_reason r) as [reason|]; [rewrite Z.ltb_ge|]; naive_solver.
Qed.

Lemma validate_role_Ok roles ids name r ids' :
  validate_role roles ids (name, r) = Ok ids' ↔
  role_wf roles name r ∧ try_fold validate_rule ids (role_rules r) = Ok ids'.
Proof.
  unfold validate_role, role_wf. rewrite !bind_unit_Ok, validate_nonempty_Ok.
  rewrite validate_strings_Ok, (assoc and (set_Forall _ _)), validate_known_Ok. split.
  - intros (Hn & Hp & Hf). split_and!; [done..| |done].
    by eapply try_fold_seen in Hf as [? _]; [|apply validate_rule_Ok].
  - intros ((Hn & Hp & _) & Hf). done.
Qed.

Lemma validate_roles_Ok roles ids l ids' :
  try_fold (validate_role roles) ids l = Ok ids' ↔
  Forall (λ e, role_wf roles e.1 e.2) l ∧
  try_fold validate_rule ids (l ≫= λ e, role_rules e.2) = Ok ids'.
Proof.
  revert ids. induction l as [|[name r] l IH]; intros ids; simpl; [naive_solver|].
  rewrite bind_Ok, Forall_cons, try_fold_app, bind_Ok. setoid_rewrite validate_role_Ok.
  setoid_rewrite IH. naive_solver.
Qed.

Lemma validate_binding_Ok roles b : validate_binding roles b = Ok tt ↔ binding_wf roles b.
Proof.
  unfold validate_binding, binding_wf.
  rewrite !bind_unit_Ok, !guard_Ok, bind_unit_Ok, validate_nonempty_Ok, !validate_strings_Ok,
    andb_false_iff, !bool_decide_eq_false.
  rewrite validate_known_Ok. tauto.
Qed.

Lemma validate_document_Ok source : validate_document source = Ok tt ↔ document_wf source.
Proof.
  unfold validate_document, document_wf.
  rewrite bind_Ok. setoid_rewrite bind_unit_Ok. setoid_rewrite map_err_Ok.
  setoid_rewrite try_for_Ok. setoid_rewrite validate_roles_Ok.
  setoid_rewrite validate_binding_Ok.
  pose proof (try_fold_seen_empty rule_id rule_wf validate_rule validate_rule_Ok
    (document_rules (pd_roles source))) as Hrules.
  pose proof (validate_acyclic_spec (pd_roles source)) as Hacyc.
  assert (Forall (λ e, role_wf (pd_roles source) e.1 e.2) (map_iter (pd_roles source)) ↔
          map_Forall (role_wf (pd_roles source)) (pd_roles source)) as Hroles.
  { rewrite Forall_forall. split.
    - intros H name r Hr. by apply (H (name, r)), elem_of_map_iter.
    - intros H [name r] Hr%elem_of_map_iter. by apply H. }
  rewrite <-Hroles. split.
  - intros (ids & [Hr Hids] & Ha & Hb). rewrite Ha in Hacyc. split_and!; [done| |done..].
    apply Hrules. by exists ids.
  - intros (Hr & Hnd & Hc & Hb). destruct (proj2 Hrules) as [ids Hids].
    { split; [|done]. apply Forall_bind, (Forall_impl _ _ _ Hr). by intros e (_ & _ & ?). }
    exists ids. split_and!; [done..| |done].
    destruct (validate_acyclic_roles _) as [[]|[|e]]; [done..|].
    destruct Hacyc as (x & Hx & _). by destruct (Hc x).
Qed.

Lemma validate_document_not_Fuel source : validate_document source ≠ Err Fuel.
Proof.
  unfold validate_document. pose proof (validate_acyclic_spec (pd_roles source)) as H.
  destruct (try_fold _ _ _); simpl; [|done].
  destruct (validate_acyclic_roles _) as [[]|[|e]]; simpl; [|done..].
  by destruct (try_for _ _).
Qed.

(** ** What evaluation decides *)

(** The constraint admits the resource: each non-empty dimension is met. *)
Definition admits (c : ResourceConstraints) (r : Resource) : Prop :=
  (rc_device_ids c ≠ ∅ → res_device_id r ∈ rc_device_ids c) ∧
  (rc_provider_instances c ≠ ∅ →
     ∃ i, res_provider_instance r = Some i ∧ i ∈ rc_provider_instances c) ∧
  (∀ required, rc_host_attached c = Some required → res_host_attached r = required) ∧
  (rc_collections c ≠ ∅ → ∃ x, x ∈ rc_collections c ∧ x ∈ res_collections r).

(** A constraint covers a request when it is the empty constraint, or when the
    request names resources and every one of them is admitted. *)
Definition covers (c : ResourceConstraints) (resources : list Resource) : Prop :=
  c = ResourceConstraints_default ∨ (resources ≠ [] ∧ Forall (admits c) resources).

Definition binding_grants (b : Binding) (p : Principal) (role : string) : Prop :=
  b_authority b = Principal_authority p ∧ role ∈ b_roles b ∧
  (Principal_subject p ∈ b_subjects b ∨ ∃ g, g ∈ b_groups b ∧ g ∈ pr_groups p).

(** The principal holds the role: a binding grants it or a role inheriting from it. *)
Definition holds_role (doc : PolicyDocumentSource) (p : Principal) (role : string) : Prop :=
  ∃ b granted, b ∈ pd_bindings doc ∧ binding_grants b p granted ∧ rtc (inherits doc) granted role.

(** The rule applies to the request. *)
Definition applies (doc : PolicyDocumentSource) (p : Principal) (operation : Operation)
    (resources : list Resource) (rule : Rule) : Prop :=
  ∃ name role, holds_role doc p name ∧ pd_roles doc !! name = Some role ∧
    rule ∈ role_rules role ∧ operation ∈ rule_operations rule ∧
    covers (rule_resources rule) resources.

(** The request is decided by the rule: it has the least identifier among the
    applicable rules of its effect. *)
Definition least_rule (P : Rule → Prop) (rule : Rule) : Prop :=
  P rule ∧ ∀ other, P other →
    String.le (RuleId_as_str (rule_id rule)) (RuleId_as_str (rule_id other)).

Lemma constraints_are_empty_true c :
  constraints_are_empty c = true ↔ c = ResourceConstraints_default.
Proof.
  unfold constraints_are_empty, ResourceConstraints_default.
  rewrite !andb_true_iff, !bool_decide_eq_true. destruct c; simpl. split; [naive_solver|].
  by intros [= -> -> -> ->].
Qed.

Lemma empty_or {A} `{Countable A} (X : gset A) (b : bool) (P : Prop) :
  (b = true ↔ P) → bool_decide (X = ∅) || b = true ↔ (X ≠ ∅ → P).
Proof.
  intros Hb. rewrite orb_true_iff, bool_decide_eq_true, Hb.
  destruct (decide (X = ∅)); naive_solver.
Qed.

Lemma overlap_true {A} `{Countable A} (X Y : gset A) :
  negb (bool_decide (X ∩ Y = ∅)) = true ↔ ∃ x, x ∈ X ∧ x ∈ Y.
Proof.
  rewrite negb_true_iff, bool_decide_eq_false. split.
  - intros [x Hx]%set_choose_L. exists x. set_solver.
  - set_solver.
Qed.

Lemma resource_matches_true c r : resource_matches c r = true ↔ admits c r.
Proof.
  unfold resource_matches, admits.
  rewrite !andb_true_iff, !(empty_or _ _ _ (bool_decide_eq_true _)),
    (empty_or _ _ _ (overlap_true _ _)).
  rewrite (empty_or _ _ (∃ i, res_provider_instance r = Some i ∧ i ∈ rc_provider_instances c)).
  - destruct (rc_host_attached c); [rewrite eqb_true_iff|]; naive_solver.
  - destruct (res_provider_instance r); [rewrite bool_decide_eq_true|]; naive_solver.
Qed.

Lemma constraints_match_true c resources :
  constraints_match c resources = true ↔ covers c resources.
Proof.
  unfold constraints_match, covers. pose proof (constraints_are_empty_true c) as He.
  destruct (constraints_are_empty c); [naive_solver|].
  rewrite andb_true_iff, negb_true_iff, bool_decide_eq_false, forallb_forall, Forall_forall.
  setoid_rewrite resource_matches_true. setoid_rewrite <-list_elem_of_In.
  assert (length resources ≠ 0 ↔ resources ≠ []) as -> by by destruct resources.
  naive_solver.
Qed.

Lemma rule_matches_true rule operation resources :
  rule_matches rule operation resources = true ↔
  operation ∈ rule_operations rule ∧ covers (rule_resources rule) resources.
Proof.
  unfold rule_matches. by rewrite andb_true_iff, bool_decide_eq_true, constraints_match_true.
Qed.

Lemma effective_roles_holds doc p x : x ∈ effective_roles doc p ↔ holds_role doc p x.
Proof.
  rewrite effective_roles_spec. unfold holds_role, bound_roles, binding_grants.
  setoid_rewrite elem_of_list_to_set. setoid_rewrite list_elem_of_bind.
  setoid_rewrite list_elem_of_filter. setoid_rewrite elem_of_set_iter.
  unfold binding_matches.
  setoid_rewrite andb_true_iff. setoid_rewrite orb_true_iff.
  setoid_rewrite bool_decide_eq_true. setoid_rewrite overlap_true. naive_solver.
Qed.

(** *** The selection loop *)

(** [sel] is the decision of the least rule satisfying [P], if there is one. *)
Definition selects (revision : Z) (P : Rule → Prop) (sel : option AuthorizationDecision) : Prop :=
  match sel with
  | None => ∀ rule, ¬ P rule
  | Some d => ∃ rule, least_rule P rule ∧ d = rule_decision rule revision
  end.

Lemma selects_iff revision P Q sel :
  (∀ rule, P rule ↔ Q rule) → selects revision P sel → selects revision Q sel.
Proof.
  intros HPQ. destruct sel; simpl; [|naive_solver].
  intros (rule & [? Hl] & ->). exists rule. split; [|done]. split; [naive_solver|].
  intros other ?%HPQ. by apply Hl.
Qed.

Lemma opt_str_lt_spec a b :
  if opt_str_lt (Some a) (Some b) then String.le a b else String.le b a.
Proof.
  simpl. destruct (total String.le a b) as [Hab|Hba].
  - rewrite bool_decide_true by done. case_bool_decide; [by subst|done].
  - destruct (decide (a = b)) as [->|Hne]; [by destruct (_ && _)|].
    destruct (decide (String.le a b)) as [Hab|Hab].
    + destruct Hne. by apply (anti_symm String.le).
    + by rewrite bool_decide_false.
Qed.

Lemma select_decision_selects revision P sel rule :
  selects revision P sel →
  selects revision (λ r, P r ∨ r = rule) (select_decision sel (rule_decision rule revision)).
Proof.
  unfold select_decision. destruct sel as [d|]; simpl.
  - intros (cur & [Hcur Hl] & ->). simpl.
    pose proof (opt_str_lt_spec (RuleId_as_str (rule_id rule)) (RuleId_as_str (rule_id cur))) as Hlt.
    simpl in Hlt. destruct (_ && _); simpl.
    + exists rule. split; [|done]. split; [by right|].
      intros other [Ho| ->]; [|done]. etrans; [done|by apply Hl].
    + exists cur. split; [|done]. split; [by left|]. intros other [Ho| ->]; [by apply Hl|done].
  - intros HP. exists rule. split; [|done]. split; [by right|].
    intros other [Ho| ->]; [|done]. by destruct (HP other).
Qed.

Section selection.
Context (revision : Z) (operation : Operation) (resources : list Resource).

Definition considered (effect : RuleEffect) (rules : list Rule) (rule : Rule) : Prop :=
  rule ∈ rules ∧ rule_matches rule operation resources = true ∧ rule_effect rule = effect.

Lemma consider_selects rules :
  let '(allow, deny) := fold_left (consider revision operation resources) rules (None, None) in
  selects revision (considered RuleEffect_Allow rules) allow ∧
  selects revision (considered RuleEffect_Deny rules) deny.
Proof.
  induction rules as [|rule rules IH] using rev_ind.
  { split; intros r (Hr & _); by apply not_elem_of_nil in Hr. }
  rewrite fold_left_app. simpl. destruct (fold_left _ _ _) as [allow deny].
  destruct IH as [Ha Hd]. unfold consider. simpl.
  assert (∀ e r, considered e (rules ++ [rule]) r ↔
    considered e rules r ∨ (r = rule ∧ rule_matches rule operation resources = true ∧
      rule_effect rule = e)) as Happ by (unfold considered; set_solver).
  destruct (rule_matches rule operation resources) eqn:Hm; [destruct (rule_effect rule) eqn:He|].
  - split; [eapply selects_iff, select_decision_selects, Ha|eapply selects_iff, Hd];
      intros; rewrite Happ; naive_solver.
  - split; [eapply selects_iff, Ha|eapply selects_iff, select_decision_selects, Hd];
      intros; rewrite Happ; naive_solver.
  - split; [eapply selects_iff, Ha|eapply selects_iff, Hd]; intros; rewrite Happ; naive_solver.
Qed.
End selection.

(** The loop over the roles is the loop over the concatenation of their rules. *)
Lemma consider_roles_flat doc operation resources names acc :
  fold_left (consider_role doc operation resources) names acc =
  fold_left (consider (pd_revision doc) operation resources)
    (names ≫= λ name, from_option role_rules [] (pd_roles doc !! name)) acc.
Proof.
  revert acc. induction names as [|name names IH]; intros acc; simpl; [done|].
  rewrite fold_left_app, IH. f_equal. unfold consider_role.
  by destruct (pd_roles doc !! name).
Qed.

Lemma considered_applies doc p operation resources effect rule :
  considered operation resources effect
    (set_iter (effective_roles doc p) ≫= λ name, from_option role_rules [] (pd_roles doc !! name))
    rule ↔
  applies doc p operation resources rule ∧ rule_effect rule = effect.
Proof.
  unfold considered, applies. rewrite list_elem_of_bind, rule_matches_true.
  setoid_rewrite elem_of_set_iter. setoid_rewrite effective_roles_holds. split.
  - intros ((name & Hr & Hn) & [? ?] & ?). destruct (pd_roles doc !! name) as [role|] eqn:E;
      simpl in Hr; [|by apply not_elem_of_nil in Hr]. eauto 10.
  - intros ((name & role & ? & E & ? & ? & ?) & ?). split_and!; [|done..].
    exists name. by rewrite E.
Qed.

(** Evaluation in one equation: a denying rule wins, else an allowing one, else
    the default. *)
Lemma evaluate_selects d p operation resources :
  ∃ allow deny,
    selects (pd_revision (pd_source d))
      (λ r, applies (pd_source d) p operation resources r ∧ rule_effect r = RuleEffect_Allow)
      allow ∧
    selects (pd_revision (pd_source d))
      (λ r, applies (pd_source d) p operation resources r ∧ rule_effect r = RuleEffect_Deny)
      deny ∧
    evaluate d p operation resources =
      match deny, allow with
      | Some decision, _ => decision
      | None, Some decision => decision
      | None, None => decision_denied (pd_revision (pd_source d)) "access denied by default"
      end.
Proof.
  unfold evaluate. rewrite consider_roles_flat.
  pose proof (consider_selects (pd_revision (pd_source d)) operation resources
    (set_iter (effective_roles (pd_source d) p) ≫=
       λ name, from_option role_rules [] (pd_roles (pd_source d) !! name))) as H.
  destruct (fold_left _ _ _) as [allow deny]. destruct H as [Ha Hd].
  exists allow, deny. split_and!; [eapply selects_iff, Ha|eapply selects_iff, Hd|done];
    apply considered_applies.
Qed.

(** *** Sorting does not change decisions *)

Lemma document_rule doc p operation resources rule :
  applies doc p operation resources rule → rule ∈ document_rules (pd_roles doc).
Proof.
  intros (name & role & _ & Hn & Hr & _). apply list_elem_of_bind.
  exists (name, role). split; [done|]. by apply elem_of_map_iter.
Qed.

Lemma selects_unique revision P s1 s2 :
  (∀ r1 r2, P r1 → P r2 → rule_id r1 = rule_id r2 → r1 = r2) →
  selects revision P s1 → selects revision P s2 → s1 = s2.
Proof.
  intros HP. destruct s1 as [d1|], s2 as [d2|]; simpl; [|unfold least_rule; naive_solver..].
  intros (r1 & [H1 Hl1] & ->) (r2 & [H2 Hl2] & ->).
  assert (r1 = r2) as ->; [|done]. apply HP; [done..|].
  specialize (Hl1 r2 H2). specialize (Hl2 r1 H1).
  destruct (rule_id r1) as [a], (rule_id r2) as [b]. simpl in *.
  f_equal. by apply (anti_symm String.le).
Qed.

Lemma inherits_sorted source bindings a b :
  inherits {| pd_revision := pd_revision source; pd_roles := sort_rules <$> pd_roles source;
              pd_bindings := bindings |} a b ↔ inherits source a b.
Proof.
  unfold inherits; simpl. setoid_rewrite lookup_fmap.
  destruct (pd_roles source !! a) as [role|]; simpl; [|naive_solver].
  split; [|by intros (? & [= <-] & ?); exists (sort_rules role)].
  intros (? & [= <-] & ?). by exists role.
Qed.

Lemma rtc_iff {A} (R S : relation A) x y : (∀ a b, R a b ↔ S a b) → rtc R x y ↔ rtc S x y.
Proof. intros H. split; apply rtc_subrel; intros ??; apply H. Qed.

Lemma applies_sorted source p operation resources rule :
  applies {| pd_revision := pd_revision source; pd_roles := sort_rules <$> pd_roles source;
             pd_bindings := merge_sort binding_le (pd_bindings source) |}
    p operation resources rule ↔ applies source p operation resources rule.
Proof.
  unfold applies, holds_role. simpl.
  setoid_rewrite (rtc_iff _ _ _ _ (inherits_sorted source _)).
  setoid_rewrite merge_sort_Permutation. setoid_rewrite lookup_fmap.
  split; intros (name & role & Hh & Hn & Hr & Hm).
  - destruct (pd_roles source !! name) as [role'|] eqn:E; [|done]. injection Hn as <-.
    simpl in Hr. rewrite merge_sort_Permutation in Hr. by exists name, role'.
  - exists name, (sort_rules role). rewrite Hn. split; [done|]. split; [done|].
    split; [|done]. simpl. by rewrite merge_sort_Permutation.
Qed.

Lemma evaluate_same d1 d2 p operation resources :
  pd_revision (pd_source d1) = pd_revision (pd_source d2) →
  (∀ rule, applies (pd_source d1) p operation resources rule ↔
           applies (pd_source d2) p operation resources rule) →
  (∀ r1 r2, applies (pd_source d2) p operation resources r1 →
     applies (pd_source d2) p operation resources r2 → rule_id r1 = rule_id r2 → r1 = r2) →
  evaluate d1 p operation resources = evaluate d2 p operation resources.
Proof.
  intros Hrev Happ Huniq.
  destruct (evaluate_selects d1 p operation resources) as (a1 & n1 & Ha1 & Hn1 & ->).
  destruct (evaluate_selects d2 p operation resources) as (a2 & n2 & Ha2 & Hn2 & ->).
  rewrite Hrev in *.
  assert (a1 = a2) as ->.
  { eapply selects_unique; [|eapply selects_iff; [|exact Ha1]|exact Ha2]; naive_solver. }
  assert (n1 = n2) as ->; [|done].
  eapply selects_unique; [|eapply selects_iff; [|exact Hn1]|exact Hn2]; naive_solver.
Qed.

(** *** Presets *)

Lemma materialized revision presets name role :
  pd_roles (materialize_presets revision presets) !! name = Some role ↔
  ∃ p, p ∈ presets ∧ name = Preset_name p ∧ role = Preset_role p.
Proof.
  simpl. induction presets as [|p presets IH] using rev_ind; simpl.
  { rewrite lookup_empty. split; [done|]. by intros (p & ?%not_elem_of_nil & _). }
  rewrite fold_left_app. simpl. setoid_rewrite elem_of_app.
  setoid_rewrite list_elem_of_singleton. rewrite lookup_insert_Some, IH.
  split; [naive_solver|]. intros (q & [Hq| ->] & -> & ->); [|by left].
  destruct (decide (Preset_name p = Preset_name q)) as [Hpq|]; [|naive_solver].
  left. split; [done|]. by destruct p, q.
Qed.

(** A document of materialised presets with bindings added to it. *)
Definition preset_document (revision : Z) (presets : list Preset) (bindings : list Binding) :
    PolicyDocumentSource :=
  {| pd_revision := revision; pd_bindings := bindings;
     pd_roles := pd_roles (materialize_presets revision presets) |}.

Lemma preset_inherits revision presets bindings a b :
  ¬ inherits (preset_document revision presets bindings) a b.
Proof. intros (role & (p & _ & _ & ->)%(materialized revision) & Hb). set_solver. Qed.

Lemma preset_applies revision presets bindings pr operation resources rule :
  applies (preset_document revision presets bindings) pr operation resources rule ↔
  ∃ p b, p ∈ presets ∧ b ∈ bindings ∧ binding_grants b pr (Preset_name p) ∧
    operation ∈ Preset_operations p ∧ rule ∈ role_rules (Preset_role p).
Proof.
  unfold applies, holds_role. split.
  - intros (name & role & (b & granted & Hb & Hg & Hr) & (p & Hp & -> & ->)%(materialized revision) & Hrule & Ho & _).
    inversion Hr as [|? ? ? Hi _]; subst; [|by apply preset_inherits in Hi].
    exists p, b. split_and!; [done..| |done]. apply list_elem_of_singleton in Hrule as ->. done.
  - intros (p & b & Hp & Hb & Hg & Ho & Hrule). exists (Preset_name p), (Preset_role p).
    pose proof Hrule as ->%list_elem_of_singleton. split_and!; [|by apply materialized; eauto|done..|].
    + exists b, (Preset_name p). split_and!; [done..|apply rtc_refl].
    + by left.
Qed.

Lemma preset_rule_ids revision presets :
  let roles := pd_roles (materialize_presets revision presets) in
  rule_id <$> document_rules roles = (λ s, RuleId_mk ("preset-" +:+ s)) <$> (map_iter roles).*1.
Proof.
  intros roles. unfold document_rules.
  assert (Forall (λ e, ∃ p, e = (Preset_name p, Preset_role p)) (map_iter roles)) as H.
  { apply Forall_forall. intros [name role] (p & _ & -> & ->)%elem_of_map_iter%(materialized revision). eauto. }
  induction H as [|e l [p ->] _ IH]; [done|]. cbn [mbind list_bind]. rewrite fmap_app.
  rewrite IH. by destruct p.
Qed.

Lemma preset_document_wf revision presets : document_wf (materialize_presets revision presets).
Proof.
  split_and!; [| | |constructor].
  - intros name role (p & Hp & -> & ->)%(materialized revision). split_and!.
    + by destruct p.
    + intros x Hx. set_solver.
    + apply Forall_singleton. by destruct p.
  - rewrite preset_rule_ids.
    apply NoDup_fmap_2; [|rewrite map_iter_Permutation; apply NoDup_fst_map_to_list].
    intros a b [= H]. done.
  - intros x Hx. inversion Hx as [? ? (role & (p & _ & _ & ->)%(materialized revision) & Hb)|
      ? ? ? (role & (p & _ & _ & ->)%(materialized revision) & Hb)]; set_solver.
Qed.

(** *** Sessions *)

Lemma evaluate_allowed d p operation resources :
  is_allowed (evaluate d p operation resources) = true ↔
  (∃ rule, applies (pd_source d) p operation resources rule) ∧
  (∀ rule, applies (pd_source d) p operation resources rule →
     rule_effect rule = RuleEffect_Allow).
Proof.
  destruct (evaluate_selects d p operation resources) as (a & n & Ha & Hn & ->).
  unfold is_allowed. rewrite bool_decide_eq_true. destruct n as [dec|]; simpl in *.
  { destruct Hn as (rule & [[Hr He] _] & ->). simpl. rewrite He. split; [done|].
    intros [_ H]. by rewrite (H rule Hr) in He. }
  destruct a as [dec|]; simpl in *.
  - destruct Ha as (rule & [[Hr He] _] & ->). simpl. rewrite He. split; [|done]. intros _.
    split; [by exists rule|]. intros other Ho. destruct (rule_effect other) eqn:E; [done|].
    by destruct (Hn other).
  - split; [done|]. intros [[rule Hr] H]. destruct (Ha rule). auto.
Qed.

Lemma session_valid_true session now :
  session_is_valid_at session now = true ↔
  ∀ expiry, lease_expires_at (as_lease session) = Some expiry → (now < expiry)%Z.
Proof.
  unfold session_is_valid_at, lease_is_valid_at.
  destruct (lease_expires_at _); [rewrite Z.ltb_lt|]; naive_solver.
Qed.

Lemma scope_allows_true scope operation resources :
  SessionScope_allows scope operation resources = true ↔
  ∃ grant, grant ∈ SessionScope_grants scope ∧
    operation ∈ sg_operations grant ∧ covers (sg_resources grant) resources.
Proof.
  unfold SessionScope_allows. rewrite existsb_exists. setoid_rewrite <-list_elem_of_In.
  setoid_rewrite andb_true_iff. setoid_rewrite bool_decide_eq_true.
  by setoid_rewrite constraints_match_true.
Qed.

(** ** Claims *)

(** C2: A request is decided with deny-overrides-allow semantics over the roles the
    principal holds, directly or by inheritance.  If any applicable rule denies,
    the decision is that of the denying rule with the least identifier; otherwise,
    if any applicable rule allows, that of the least allowing one; otherwise the
    request is denied by default.  A rule applies when it names the operation and
    its resource constraint covers every requested resource. *)
Theorem evaluate_correct d p operation resources :
  let doc := pd_source d in
  let app effect rule :=
    applies doc p operation resources rule ∧ rule_effect rule = effect in
  (∃ rule, least_rule (app RuleEffect_Deny) rule ∧
     evaluate d p operation resources = rule_decision rule (pd_revision doc)) ∨
  ((∀ rule, ¬ app RuleEffect_Deny rule) ∧
   ∃ rule, least_rule (app RuleEffect_Allow) rule ∧
     evaluate d p operation resources = rule_decision rule (pd_revision doc)) ∨
  ((∀ rule, ¬ applies doc p operation resources rule) ∧
   evaluate d p operation resources =
     decision_denied (pd_revision doc) "access denied by default").
Proof.
  destruct (evaluate_selects d p operation resources) as (a & n & Ha & Hn & ->).
  destruct n as [dec|]; [left; naive_solver|]. right.
  destruct a as [dec|]; [left; naive_solver|]. right. simpl in *.
  split; [|done]. intros rule Hr. destruct (rule_effect rule) eqn:E; naive_solver.
Qed.

(** A session's request is allowed exactly when its lease has not expired, one
    grant of its scope lists the operation and covers the resources, some rule
    applicable to its subject allows it, and no applicable rule denies it. *)
Theorem evaluate_session_correct d session operation resources now :
  is_allowed (evaluate_session d session operation resources now) = true ↔
  (∀ expiry, lease_expires_at (as_lease session) = Some expiry → (now < expiry)%Z) ∧
  (∃ grant, grant ∈ SessionScope_grants (as_scope session) ∧
     operation ∈ sg_operations grant ∧ covers (sg_resources grant) resources) ∧
  (∃ rule, applies (pd_source d) (as_subject session) operation resources rule) ∧
  (∀ rule, applies (pd_source d) (as_subject session) operation resources rule →
     rule_effect rule = RuleEffect_Allow).
Proof.
  rewrite <-evaluate_allowed, <-session_valid_true, <-scope_allows_true.
  unfold evaluate_session.
  destruct (session_is_valid_at session now); simpl; [|naive_solver].
  destruct (SessionScope_allows _ _ _); simpl; naive_solver.
Qed.

(** A policy document is accepted exactly when it is well formed: texts are
    non-empty and bounded, rule identifiers are unique across all roles, parents
    and bound roles exist, and no role inherits from itself.  The accepted document
    has the same roles with the same rules in identifier order, and the same
    bindings; the traversal of the role graph always terminates. *)
Theorem policy_document_correct source :
  match PolicyDocument_new source with
  | Ok d =>
      document_wf source ∧ pd_revision (pd_source d) = pd_revision source ∧
      pd_bindings (pd_source d) ≡ₚ pd_bindings source ∧
      ∀ name, match pd_roles (pd_source d) !! name, pd_roles source !! name with
              | Some r', Some r =>
                  role_parents r' = role_parents r ∧ role_rules r' ≡ₚ role_rules r ∧
                  Sorted rule_le (role_rules r')
              | None, None => True
              | _, _ => False
              end
  | Err (Fail _) => ¬ document_wf source
  | Err Fuel => False
  end.
Proof.
  unfold PolicyDocument_new. pose proof (validate_document_Ok source) as Hok.
  pose proof (validate_document_not_Fuel source) as Hfuel.
  destruct (validate_document source) as [[]|[|e]]; simpl; [|done|].
  - split_and!; [by apply Hok|done|apply merge_sort_Permutation|].
    intros name. rewrite lookup_fmap. destruct (pd_roles source !! name) as [r|]; [|done]. simpl.
    split_and!; [done|apply merge_sort_Permutation|apply Sorted_merge_sort; apply _].
  - intros H%Hok. done.
Qed.

(** Cycle detection is exact: the depth-first search succeeds precisely when no
    role inherits from itself, an error names a role that does, and the search
    never exceeds the number of roles in depth. *)
Theorem validate_acyclic_correct roles :
  match validate_acyclic_roles roles with
  | Ok _ => ∀ x, ¬ tc (parent_of roles) x x
  | Err (Fail e) => ∃ x, tc (parent_of roles) x x ∧ e = cycle_error x
  | Err Fuel => False
  end.
Proof. apply validate_acyclic_spec. Qed.

(** Canonical ordering never changes a decision: a validated document, whose
    rules and bindings have been sorted, decides every request as the source did,
    including the rule recorded for audit. *)
Theorem canonical_order_decides source d p operation resources :
  PolicyDocument_new source = Ok d →
  evaluate d p operation resources = evaluate (PolicyDocument_mk source) p operation resources.
Proof.
  unfold PolicyDocument_new. rewrite bind_unit_Ok, validate_document_Ok.
  intros [(_ & Hnd & _) [= <-]]. apply evaluate_same; simpl; [done|intros; apply applies_sorted|].
  intros r1 r2 H1%document_rule H2%document_rule. by eapply NoDup_fmap_same.
Qed.

(** In a document of materialised presets a principal may do exactly the
    operations of the presets its bindings grant it, and such a document always
    passes validation. *)
Theorem presets_correct revision presets bindings p operation resources :
  let doc := PolicyDocument_mk (preset_document revision presets bindings) in
  (is_allowed (evaluate doc p operation resources) = true ↔
   ∃ preset b, preset ∈ presets ∧ b ∈ bindings ∧ binding_grants b p (Preset_name preset) ∧
     operation ∈ Preset_operations preset) ∧
  is_ok (PolicyDocument_new (materialize_presets revision presets)) = true.
Proof.
  intros doc. split.
  - unfold doc. rewrite evaluate_allowed. cbn [pd_source]. setoid_rewrite preset_applies. split.
    + intros [(rule & preset & b & ? & ? & ? & ? & _) _]. eauto 10.
    + intros (preset & b & Hp & Hb & Hg & Ho). split.
      * eexists _, preset, b. split_and!; [done..|]. apply list_elem_of_singleton. done.
      * intros rule (q & _ & _ & _ & _ & _ & ->%list_elem_of_singleton). done.
  - apply is_ok_true. eexists. apply bind_unit_Ok.
    split; [apply validate_document_Ok, preset_document_wf|done].
Qed.

(** A two-role document with rules out of order, a denial among them. *)
Definition sample_rule (id : string) (effect : RuleEffect) (operation : Operation) : Rule :=
  {| rule_id := RuleId_mk id; rule_effect := effect; rule_operations := {[operation]};
     rule_resources := ResourceConstraints_default; rule_reason := None;
     rule_cache_hint := None |}.
Definition sample_source : PolicyDocumentSource :=
  {| pd_revision := 7;
     pd_roles := list_to_map
       [("child"%string, {| role_parents := {["base"%string]};
                     role_rules := [sample_rule "z" RuleEffect_Allow Control;
                                    sample_rule "a" RuleEffect_Allow Control] |});
        ("base"%string, {| role_parents := ∅;
                    role_rules := [sample_rule "m" RuleEffect_Deny Control] |})];
     pd_bindings := [{| b_authority := "unix"; b_subjects := {["1000"%string]}; b_groups := ∅;
                        b_roles := {["child"%string]} |}] |}.
Definition sample_principal : Principal :=
  {| pr_id := PrincipalId_mk "unix" "1000"; pr_groups := ∅ |}.

Lemma canonical_order_decides_witness :
  ∃ d, PolicyDocument_new sample_source = Ok d ∧
    evaluate d sample_principal Control [] =
      evaluate (PolicyDocument_mk sample_source) sample_principal Control [] ∧
    ad_audit_rule (evaluate d sample_principal Control []) = Some (RuleId_mk "m").
Proof.
  destruct (PolicyDocument_new sample_source) as [d|] eqn:E; [|by vm_compute in E].
  exists d. split; [reflexivity|]. rewrite (canonical_order_decides _ _ _ _ _ E).
  split; [reflexivity|]. vm_compute. reflexivity.
Defined.
