(* ===== verification/PolicyRuntime.v ===== *)
(** * Policy runtime: [luminate-core/src/policy/runtime.rs] and [audit.rs]

    Stores of a revisioned document behind one interface, the runtime policy that
    caches the active document and serialises its replacements with an atomic flag,
    and the audit sinks.  An asynchronous replacement suspends at the store call:
    the interleavings of several clients are a step relation whose steps are the
    points at which another client can run.  A poisoned lock panics in the code and
    is not represented. *)

From S2P Require Import Prelude Model Policy.

(** ** Errors and requests *)

Inductive PolicyError :=
| RevisionConflict (expected actual : Z)
| Unavailable (message : string).
#[export] Instance PolicyError_eq : EqDecision PolicyError.
Proof. solve_decision. Defined.

Record AuthorizationRequest := {
  rq_principal : Principal;
  rq_operation : Operation;
  rq_resources : list Resource
}.

Definition revision_of (d : PolicyDocument) : Z := pd_revision (pd_source d).

Definition StaticAccessPolicy_authorize (document : PolicyDocument) (r : AuthorizationRequest) :
    result PolicyError AuthorizationDecision :=
  Ok (evaluate document (rq_principal r) (rq_operation r) (rq_resources r)).

(** ** Stores *)

(** The [PolicyStore] trait: the implementing value is the state. *)
Class PolicyStore (S : Type) := {
  store_load : S → result PolicyError PolicyDocument;
  store_replace : S → Z → PolicyDocument → S * result PolicyError PolicyDocument
}.

(** What the trait's documentation promises of every store: [replace] is a
    compare-and-swap on the revision, and a failure changes nothing. *)
Class PolicyStoreLaws (S : Type) `{PolicyStore S} := {
  store_replace_Ok s expected replacement s' d :
    store_replace s expected replacement = (s', Ok d) →
    d = replacement ∧ store_load s' = Ok replacement ∧
    ∃ current, store_load s = Ok current ∧ revision_of current = expected;
  store_replace_Err s expected replacement s' e :
    store_replace s expected replacement = (s', Err e) → store_load s' = store_load s
}.

Record StaticPolicyStore := { sps_document : PolicyDocument }.

#[export] Instance StaticPolicyStore_store : PolicyStore StaticPolicyStore := {|
  store_load s := Ok (sps_document s);
  store_replace s _ _ := (s, Err (Unavailable "static policy store is read-only"))
|}.

Record InMemoryPolicyStore := { ims_document : PolicyDocument }.

Definition InMemoryPolicyStore_replace (s : InMemoryPolicyStore) (expected : Z)
    (replacement : PolicyDocument) : InMemoryPolicyStore * result PolicyError PolicyDocument :=
  let actual := revision_of (ims_document s) in
  if negb (actual =? expected)%Z then (s, Err (RevisionConflict expected actual))
  else ({| ims_document := replacement |}, Ok replacement).

#[export] Instance InMemoryPolicyStore_store : PolicyStore InMemoryPolicyStore := {|
  store_load s := Ok (ims_document s);
  store_replace := InMemoryPolicyStore_replace
|}.

#[export] Instance StaticPolicyStore_laws : PolicyStoreLaws StaticPolicyStore.
Proof. split; simpl; [done|]. by intros s e r s' x [= <- _]. Qed.

#[export] Instance InMemoryPolicyStore_laws : PolicyStoreLaws InMemoryPolicyStore.
Proof.
  split; intros s expected replacement s'; simpl; unfold InMemoryPolicyStore_replace;
    destruct (Z.eqb_spec (revision_of (ims_document s)) expected); simpl; intros x [= <- <-];
    naive_solver.
Qed.

(** ** The runtime policy *)

Section runtime.
Context {S : Type} `{Hstore : PolicyStore S}.

Record RuntimeAccessPolicy := {
  rap_store : S;
  rap_recovery : PolicyDocument;
  rap_active : PolicyDocument;
  rap_replacing : bool
}.

Definition RuntimeAccessPolicy_load (store : S) (recovery : PolicyDocument) :
    result PolicyError RuntimeAccessPolicy :=
  active ← store_load store;
  Ok {| rap_store := store; rap_recovery := recovery; rap_active := active;
        rap_replacing := false |}.

Definition recovery_operation (o : Operation) : bool :=
  match o with ManagePolicy | ManageAuthentication | AdministerFrontend => true | _ => false end.

Definition with_revision (d : AuthorizationDecision) (revision : Z) : AuthorizationDecision :=
  {| ad_outcome := ad_outcome d; ad_reason := ad_reason d; ad_audit_rule := ad_audit_rule d;
     ad_cache_hint := ad_cache_hint d; ad_revision := revision |}.

Definition RuntimeAccessPolicy_authorize (p : RuntimeAccessPolicy) (r : AuthorizationRequest) :
    result PolicyError AuthorizationDecision :=
  let active := rap_active p in
  let by_document := evaluate active (rq_principal r) (rq_operation r) (rq_resources r) in
  if recovery_operation (rq_operation r) then
    let recovery := evaluate (rap_recovery p) (rq_principal r) (rq_operation r)
                      (rq_resources r) in
    if is_allowed recovery then Ok (with_revision recovery (revision_of active))
    else Ok by_document
  else Ok by_document.

Definition set_replacing (p : RuntimeAccessPolicy) (b : bool) : RuntimeAccessPolicy :=
  {| rap_store := rap_store p; rap_recovery := rap_recovery p; rap_active := rap_active p;
     rap_replacing := b |}.
Definition set_store (p : RuntimeAccessPolicy) (s : S) : RuntimeAccessPolicy :=
  {| rap_store := s; rap_recovery := rap_recovery p; rap_active := rap_active p;
     rap_replacing := rap_replacing p |}.
Definition set_active (p : RuntimeAccessPolicy) (d : PolicyDocument) : RuntimeAccessPolicy :=
  {| rap_store := rap_store p; rap_recovery := rap_recovery p; rap_active := d;
     rap_replacing := rap_replacing p |}.

(** [ReplacementGuard::acquire] and its [Drop]. *)
Definition ReplacementGuard_acquire (p : RuntimeAccessPolicy) :
    RuntimeAccessPolicy * result PolicyError unit :=
  if rap_replacing p then (p, Err (Unavailable "policy replacement is already active"))
  else (set_replacing p true, Ok tt).
Definition ReplacementGuard_drop (p : RuntimeAccessPolicy) : RuntimeAccessPolicy :=
  set_replacing p false.

(** [replace] run without interference, to completion. *)
Definition RuntimeAccessPolicy_replace (p : RuntimeAccessPolicy) (expected : Z)
    (replacement : PolicyDocument) : RuntimeAccessPolicy * result PolicyError PolicyDocument :=
  match ReplacementGuard_acquire p with
  | (p, Err e) => (p, Err e)
  | (p, Ok _) =>
      match store_replace (rap_store p) expected replacement with
      | (s, Err e) => (ReplacementGuard_drop (set_store p s), Err e)
      | (s, Ok replacement) =>
          (ReplacementGuard_drop (set_active (set_store p s) replacement), Ok replacement)
      end
  end.

(** ** Interleaved replacements *)

(** Where the future of one [replace] call stands. *)
Inductive Phase :=
| Acquired (expected : Z) (replacement : PolicyDocument)   (** guard held, store not called *)
| Stored (expected : Z) (document : PolicyDocument)        (** store call returned [Ok] *)
| Activated (document : PolicyDocument).                   (** active document written *)

Record System := { sys_policy : RuntimeAccessPolicy; sys_calls : gmap nat Phase }.

(** One step of one call, with the result when the call returns. *)
Inductive Event :=
| Internal
| Returns (client : nat) (r : result PolicyError PolicyDocument)
| Dropped (client : nat).

Inductive step : System → Event → System → Prop :=
| step_busy p calls c p' e :
    calls !! c = None → ReplacementGuard_acquire p = (p', Err e) →
    step {| sys_policy := p; sys_calls := calls |} (Returns c (Err e))
         {| sys_policy := p'; sys_calls := calls |}
| step_acquire p calls c expected replacement p' :
    calls !! c = None → ReplacementGuard_acquire p = (p', Ok tt) →
    step {| sys_policy := p; sys_calls := calls |} Internal
         {| sys_policy := p'; sys_calls := <[c := Acquired expected replacement]> calls |}
| step_store_fails p calls c expected replacement s e :
    calls !! c = Some (Acquired expected replacement) →
    store_replace (rap_store p) expected replacement = (s, Err e) →
    step {| sys_policy := p; sys_calls := calls |} (Returns c (Err e))
         {| sys_policy := ReplacementGuard_drop (set_store p s); sys_calls := delete c calls |}
| step_store p calls c expected replacement s d :
    calls !! c = Some (Acquired expected replacement) →
    store_replace (rap_store p) expected replacement = (s, Ok d) →
    step {| sys_policy := p; sys_calls := calls |} Internal
         {| sys_policy := set_store p s; sys_calls := <[c := Stored expected d]> calls |}
| step_activate p calls c expected d :
    calls !! c = Some (Stored expected d) →
    step {| sys_policy := p; sys_calls := calls |} Internal
         {| sys_policy := set_active p d; sys_calls := <[c := Activated d]> calls |}
| step_return p calls c d :
    calls !! c = Some (Activated d) →
    step {| sys_policy := p; sys_calls := calls |} (Returns c (Ok d))
         {| sys_policy := ReplacementGuard_drop p; sys_calls := delete c calls |}
| step_drop p calls c expected replacement :
    (* the caller drops the future while it waits for the store *)
    calls !! c = Some (Acquired expected replacement) →
    step {| sys_policy := p; sys_calls := calls |} (Dropped c)
         {| sys_policy := ReplacementGuard_drop p; sys_calls := delete c calls |}.

Inductive steps : System → list Event → System → Prop :=
| steps_nil sys : steps sys [] sys
| steps_snoc sys1 es sys2 e sys3 :
    steps sys1 es sys2 → step sys2 e sys3 → steps sys1 (es ++ [e]) sys3.

Definition idle (p : RuntimeAccessPolicy) : System :=
  {| sys_policy := p; sys_calls := ∅ |}.

(** At most one call is past the guard, the flag says whether there is one, and the
    active document is the stored one except between a commit and its activation,
    when it is the document the commit was compared against. *)
Definition consistent (sys : System) : Prop :=
  let p := sys_policy sys in
  match rap_replacing p with
  | false => sys_calls sys = ∅ ∧ store_load (rap_store p) = Ok (rap_active p)
  | true =>
      ∃ c phase, sys_calls sys = {[c := phase]} ∧
        match phase with
        | Acquired _ _ => store_load (rap_store p) = Ok (rap_active p)
        | Stored expected d =>
            store_load (rap_store p) = Ok d ∧ revision_of (rap_active p) = expected
        | Activated d => store_load (rap_store p) = Ok d ∧ rap_active p = d
        end
  end.

Context `{!PolicyStoreLaws S}.

Lemma consistent_call p calls c phase :
  consistent {| sys_policy := p; sys_calls := calls |} → calls !! c = Some phase →
  rap_replacing p = true ∧ calls = {[c := phase]}.
Proof.
  unfold consistent; simpl. destruct (rap_replacing p).
  - intros (c' & phase' & -> & _) [-> ->]%lookup_singleton_Some. done.
  - by intros [-> _] ?%lookup_empty_Some.
Qed.

Lemma consistent_single p c phase :
  rap_replacing p = true →
  consistent {| sys_policy := p; sys_calls := {[c := phase]} |} ↔
  match phase with
  | Acquired _ _ => store_load (rap_store p) = Ok (rap_active p)
  | Stored expected d =>
      store_load (rap_store p) = Ok d ∧ revision_of (rap_active p) = expected
  | Activated d => store_load (rap_store p) = Ok d ∧ rap_active p = d
  end.
Proof.
  unfold consistent; simpl. intros ->. split; [|by eauto].
  intros (c' & phase' & [-> ->]%map_singleton_inj & H). done.
Qed.

Lemma step_consistent sys e sys' : step sys e sys' → consistent sys → consistent sys'.
Proof.
  intros Hstep Hc. destruct Hstep as
    [p calls c p' e Hn Hg|p calls c expected replacement p' Hn Hg
    |p calls c expected replacement s e Hc' Hr|p calls c expected replacement s d Hc' Hr
    |p calls c expected d Hc'|p calls c d Hc'|p calls c expected replacement Hc'].
  1,2: unfold ReplacementGuard_acquire in Hg; destruct (rap_replacing p) eqn:E; simplify_eq.
  - done.
  - unfold consistent in Hc; simpl in Hc. rewrite E in Hc. destruct Hc as [-> Hl].
    rewrite insert_empty. by apply consistent_single.
  - destruct (consistent_call _ _ _ _ Hc Hc') as [Hp ->]. rewrite consistent_single in Hc by done.
    apply store_replace_Err in Hr. rewrite delete_singleton_eq. split; [done|]. simpl. congruence.
  - destruct (consistent_call _ _ _ _ Hc Hc') as [Hp ->]. rewrite consistent_single in Hc by done.
    apply store_replace_Ok in Hr as (-> & Hl & cur & Hcur & Hrev). rewrite insert_singleton_eq.
    apply consistent_single; simpl; [done|]. split; [done|]. congruence.
  - destruct (consistent_call _ _ _ _ Hc Hc') as [Hp ->]. rewrite consistent_single in Hc by done.
    rewrite insert_singleton_eq. apply consistent_single; simpl; [done|]. naive_solver.
  - destruct (consistent_call _ _ _ _ Hc Hc') as [Hp ->]. rewrite consistent_single in Hc by done.
    rewrite delete_singleton_eq. split; [done|]. simpl. destruct Hc. congruence.
  - destruct (consistent_call _ _ _ _ Hc Hc') as [Hp ->]. rewrite consistent_single in Hc by done.
    rewrite delete_singleton_eq. by split.
Qed.

Lemma steps_consistent sys es sys' : steps sys es sys' → consistent sys → consistent sys'.
Proof. induction 1; eauto using step_consistent. Qed.

Lemma loaded_consistent store recovery p :
  RuntimeAccessPolicy_load store recovery = Ok p → consistent (idle p).
Proof.
  unfold RuntimeAccessPolicy_load. rewrite bind_Ok. intros (active & Hl & [= <-]).
  by split.
Qed.

Lemma steps_recovery sys es sys' :
  steps sys es sys' → rap_recovery (sys_policy sys') = rap_recovery (sys_policy sys).
Proof.
  induction 1 as [|sys1 es sys2 e sys3 _ IH Hstep]; [done|]. rewrite <-IH.
  destruct Hstep as [p calls c p' e Hn Hg|p calls c expected replacement p' Hn Hg| | | | |];
    try done; unfold ReplacementGuard_acquire in Hg; destruct (rap_replacing p); by simplify_eq.
Qed.
End runtime.
Arguments RuntimeAccessPolicy : clear implicits.
Arguments System : clear implicits.

(** ** Audit: [audit.rs] *)

Record FrontendActor := { fa_principal : Principal; fa_credential_id : string }.

Definition FrontendActor_new (principal : Principal) (credential_id : string) :
    validated FrontendActor :=
  _ ← validate_nonempty "front-end actor credential ID" credential_id;
  Ok {| fa_principal := principal; fa_credential_id := credential_id |}.

Record AuditRecord := {
  ar_principal : Principal;
  ar_frontend_actor : option FrontendActor;
  ar_operation : Operation;
  ar_outcome : DecisionOutcome;
  ar_revision : Z;
  ar_audit_rule : option RuleId;
  ar_reason : option string
}.

(** The [AuditSink] trait and its two implementations. *)
Class AuditSink (S : Type) := {
  sink_record : S → AuditRecord → S * result PolicyError unit
}.
Record NullAuditSink := { }.
#[export] Instance NullAuditSink_sink : AuditSink NullAuditSink := {|
  sink_record s _ := (s, Ok tt)
|}.
Record InMemoryAuditSink := { ias_records : list AuditRecord }.
#[export] Instance InMemoryAuditSink_sink : AuditSink InMemoryAuditSink := {|
  sink_record s r := ({| ias_records := ias_records s ++ [r] |}, Ok tt)
|}.
Definition InMemoryAuditSink_records (s : InMemoryAuditSink) :
    result PolicyError (list AuditRecord) := Ok (ias_records s).

(** ** Claims *)

(** C9: Replacements of the active policy are serialised and never lose an update,
    for every store that honours the store contract and every interleaving of
    calls: at most one call is past the guard; with none in progress the active
    document is the stored one; and a call that has committed but not yet activated
    its document is about to overwrite a document with the revision it expected. *)
Theorem replacements_serialised {S : Type} `{PolicyStoreLaws S} (store : S) recovery p es sys :
  RuntimeAccessPolicy_load store recovery = Ok p → steps (idle p) es sys →
  (∀ c1 c2, is_Some (sys_calls sys !! c1) → is_Some (sys_calls sys !! c2) → c1 = c2) ∧
  (rap_replacing (sys_policy sys) = false ↔ sys_calls sys = ∅) ∧
  (sys_calls sys = ∅ →
     store_load (rap_store (sys_policy sys)) = Ok (rap_active (sys_policy sys))) ∧
  (∀ c expected d, sys_calls sys !! c = Some (Stored expected d) →
     store_load (rap_store (sys_policy sys)) = Ok d ∧
     revision_of (rap_active (sys_policy sys)) = expected).
Proof.
  intros Hl Hs. pose proof (steps_consistent _ _ _ Hs (loaded_consistent _ _ _ Hl)) as Hc.
  destruct sys as [q calls]. simpl. unfold consistent in Hc; simpl in Hc.
  destruct (rap_replacing q).
  - destruct Hc as (c & phase & -> & Hphase). split_and!.
    + intros c1 c2 [? [<- _]%lookup_singleton_Some] [? [<- _]%lookup_singleton_Some]. done.
    + split; [done|]. intros E%map_non_empty_singleton. done.
    + intros E%map_non_empty_singleton. done.
    + by intros c' expected d [_ ->]%lookup_singleton_Some.
  - destruct Hc as [-> Hc]. split_and!; [|done..|].
    + by intros c1 c2 [? ?%lookup_empty_Some].
    + by intros c expected d ?%lookup_empty_Some.
Qed.

(** No sequence of policy replacements can remove recovery access or extend it:
    for the recovery operations a principal that the recovery document allows is
    allowed, the decision carrying the active revision; in every other case the
    decision is that of the active document alone. *)
Theorem recovery_access_kept {S} `{!PolicyStore S} (p : RuntimeAccessPolicy S) es sys r :
  steps (idle p) es sys →
  let active := rap_active (sys_policy sys) in
  let recovered :=
    recovery_operation (rq_operation r) = true ∧
    is_allowed (evaluate (rap_recovery p) (rq_principal r) (rq_operation r) (rq_resources r))
      = true in
  ∃ d, RuntimeAccessPolicy_authorize (sys_policy sys) r = Ok d ∧
    (recovered → is_allowed d = true ∧ ad_revision d = revision_of active) ∧
    (¬ recovered → d = evaluate active (rq_principal r) (rq_operation r) (rq_resources r)).
Proof.
  intros Hs%steps_recovery. simpl in *. unfold RuntimeAccessPolicy_authorize. rewrite Hs.
  destruct (recovery_operation (rq_operation r)) eqn:Ho; [|eexists; split; naive_solver].
  destruct (is_allowed (evaluate (rap_recovery p) _ _ _)) eqn:Ha;
    eexists; (split; [done|]); split; naive_solver.
Qed.

(** An uncontended replacement is a compare-and-swap, and is one of the
    interleavings of the step relation: on success the stored and the active
    document are the replacement; on failure both are as before; and the guard is
    released either way. *)
Theorem replace_refines {S : Type} `{PolicyStoreLaws S} (p : RuntimeAccessPolicy S) expected replacement :
  rap_replacing p = false → store_load (rap_store p) = Ok (rap_active p) →
  let '(p', r) := RuntimeAccessPolicy_replace p expected replacement in
  rap_replacing p' = false ∧ store_load (rap_store p') = Ok (rap_active p') ∧
  match r with
  | Ok d => d = replacement ∧ rap_active p' = replacement ∧
            revision_of (rap_active p) = expected
  | Err _ => rap_active p' = rap_active p
  end ∧
  ∃ es, steps (idle p) (es ++ [Returns 0 r]) (idle p').
Proof.
  intros Hp Hl. unfold RuntimeAccessPolicy_replace, ReplacementGuard_acquire. rewrite Hp. simpl.
  assert (steps (idle p) [Internal]
    {| sys_policy := set_replacing p true; sys_calls := {[0 := Acquired expected replacement]} |})
    as H1.
  { apply (steps_snoc _ [] (idle p)); [constructor|]. rewrite <-insert_empty.
    apply step_acquire; [done|]. unfold ReplacementGuard_acquire. by rewrite Hp. }
  destruct (store_replace (rap_store p) expected replacement) as [s [d|e]] eqn:Hr.
  - pose proof (store_replace_Ok _ _ _ _ _ Hr) as (-> & Hs & cur & Hcur & Hrev).
    simpl. split_and!; [done..|congruence|].
    exists ([Internal] ++ [Internal] ++ [Internal]). rewrite !(assoc_L (++)).
    eapply steps_snoc; [eapply steps_snoc; [eapply steps_snoc; [exact H1|]|]|].
    + eapply step_store; [apply lookup_singleton_eq|exact Hr].
    + rewrite insert_singleton_eq. eapply step_activate, lookup_singleton_eq.
    + rewrite insert_singleton_eq. unfold idle. rewrite <-(delete_singleton_eq 0 (Activated replacement)).
      apply step_return, lookup_singleton_eq.
  - pose proof (store_replace_Err _ _ _ _ _ Hr) as Hs. simpl.
    split_and!; [done|congruence|done|]. exists [Internal].
    eapply steps_snoc; [exact H1|]. unfold idle.
    rewrite <-(delete_singleton_eq 0 (Acquired expected replacement)).
    eapply step_store_fails; [apply lookup_singleton_eq|exact Hr].
Qed.

(** ** Witnesses: an in-memory store and two competing clients *)

Definition sample_document (revision : Z) : PolicyDocument :=
  PolicyDocument_mk (materialize_presets revision [Administrator]).
Definition sample_store : InMemoryPolicyStore := {| ims_document := sample_document 1 |}.
Definition sample_policy : RuntimeAccessPolicy InMemoryPolicyStore :=
  {| rap_store := sample_store; rap_recovery := sample_document 1;
     rap_active := sample_document 1; rap_replacing := false |}.

(** Client 0 has acquired the guard, client 1 has been turned away. *)
Definition contended : System InMemoryPolicyStore :=
  {| sys_policy := set_replacing sample_policy true;
     sys_calls := {[0 := Acquired 1 (sample_document 2)]} |}.

Lemma contended_steps :
  steps (idle sample_policy)
    [Internal; Returns 1 (Err (Unavailable "policy replacement is already active"))] contended.
Proof.
  apply (steps_snoc _ [Internal] contended).
  - apply (steps_snoc _ [] (idle sample_policy)); [constructor|].
    unfold contended. rewrite <-insert_empty. by apply step_acquire.
  - by apply step_busy.
Qed.

Lemma replacements_serialised_witness :
  is_Some (sys_calls contended !! 0) ∧
  (∀ c1 c2, is_Some (sys_calls contended !! c1) → is_Some (sys_calls contended !! c2) → c1 = c2).
Proof.
  split; [vm_compute; eexists; reflexivity|].
  apply (replacements_serialised sample_store (sample_document 1) sample_policy
    [Internal; Returns 1 (Err (Unavailable "policy replacement is already active"))] contended).
  - reflexivity.
  - exact contended_steps.
Defined.

Definition sample_request : AuthorizationRequest :=
  {| rq_principal := sample_principal; rq_operation := Control; rq_resources := [] |}.

Lemma recovery_access_kept_witness :
  ∃ d, RuntimeAccessPolicy_authorize (sys_policy contended) sample_request = Ok d ∧
       is_allowed d = false.
Proof.
  destruct (recovery_access_kept sample_policy
    [Internal; Returns 1 (Err (Unavailable "policy replacement is already active"))]
    contended sample_request contended_steps) as (d & Hd & _ & H).
  exists d. split; [exact Hd|]. rewrite H; [vm_compute; reflexivity|].
  intros [Hr _]. discriminate Hr.
Defined.

Lemma replace_refines_witness :
  rap_active (fst (RuntimeAccessPolicy_replace sample_policy 1 (sample_document 2))) =
    sample_document 2 ∧
  ∃ es, steps (idle sample_policy) (es ++ [Returns 0 (Ok (sample_document 2))])
          (idle (fst (RuntimeAccessPolicy_replace sample_policy 1 (sample_document 2)))).
Proof.
  pose proof (replace_refines sample_policy 1 (sample_document 2) eq_refl eq_refl) as H.
  cbn in H. destruct H as (_ & _ & (_ & Ha & _) & Hs). split; [exact Ha|exact Hs].
Defined.
