(* ===== verification/Daemon.v ===== *)
(** * The daemon's state and errors: [luminated/src/error.rs] and the data of [state/]

    [DaemonError] with its mapping to the protocol's error codes, the desired-state
    entries of [state/target_state.rs], the frame streams of [state/frame_stream.rs],
    and the [DaemonState] record of [state/mod.rs] that the daemon's mutations work
    on.  A [HashMap] is a [gmap]; where the code iterates one, the model iterates
    [map_to_list], and no claim depends on the order.  [Instant] is a count of
    nanoseconds, supplied to the operations that read the clock. *)

From S2P Require Import Prelude Model Scenes.

(** ** Errors *)

Inductive ErrorCode :=
| Code_DaemonUnavailable | Code_AuthenticationFailed | Code_PermissionDenied | Code_NotFound
| Code_Unsupported | Code_UnknownState | Code_InvalidArgument | Code_Internal | Code_Io
| Code_Unavailable | Code_RateLimited | Code_PartialMutation | Code_TransitionImpossible
| Code_Conflict.

(** The variants, prefixed [DE_].  Errors of other crates are kept as their text. *)
Inductive DaemonError :=
| DE_TargetNotFound (target : TargetId)
| DE_DeviceUnowned (device : string)
| DE_PluginUnsupportedUpdate (plugin device diagnostic : string)
| DE_PluginInvalidUpdate (plugin device diagnostic : string)
| DE_PluginIo (plugin device diagnostic : string)
| DE_PluginUnavailable (plugin device diagnostic : string)
| DE_PluginRateLimited (plugin device diagnostic : string) (retry_after_ms : option Z)
| DE_PluginInternal (plugin device diagnostic : string)
| DE_PluginNotFound (plugin : string)
| DE_PluginReloadFailed (plugin : string) (diagnostic : Text)
| DE_UnsupportedCapability (target : TargetId) (reason : Text)
| DE_InvalidArgument (target : TargetId) (reason : Text)
| DE_UnknownState (target : TargetId)
| DE_TransitionImpossible (reason : Text)
| DE_TransitionNotFound (id : TransitionId)
| DE_Conflict (target : TargetId) (reason : Text)
| DE_AuthorizationConflict (reason : Text)
| DE_Serialize (error : Text)
| DE_InteriorNul (error : Text)
| DE_Internal (message : Text)
| DE_ResourceLimit (message : Text)
| DE_PartialMutation (diagnostic : Text) (applied_targets : list TargetId)
| DE_CollectionNotFound (id : CollectionId)
| DE_CollectionSelfReference (id : CollectionId)
| DE_CollectionCycle (id : CollectionId)
| DE_CollectionInUse (id : CollectionId) (referenced_by : list CollectionId)
| DE_CollectionNotOwned (id : CollectionId)
| DE_SceneNotFound (id : SceneId)
| DE_SceneRevisionConflict (id : SceneId) (expected actual : Z)
| DE_SceneNotOwned (id : SceneId)
| DE_InvalidScene (error : SceneValidationError)
| DE_CollectionReferencedByScene (collection : CollectionId) (scene : SceneId)
| DE_Other (error : Text).

Notation daemon := (result DaemonError).

Definition error_code (e : DaemonError) : ErrorCode :=
  match e with
  | DE_TargetNotFound _ | DE_CollectionNotFound _ | DE_SceneNotFound _
  | DE_TransitionNotFound _ | DE_PluginNotFound _ => Code_NotFound
  | DE_PluginUnsupportedUpdate _ _ _ | DE_UnsupportedCapability _ _ => Code_Unsupported
  | DE_PluginInvalidUpdate _ _ _ | DE_InvalidArgument _ _ | DE_InvalidScene _
  | DE_CollectionSelfReference _ | DE_CollectionCycle _ | DE_ResourceLimit _ =>
      Code_InvalidArgument
  | DE_PluginIo _ _ _ => Code_Io
  | DE_PluginUnavailable _ _ _ | DE_PluginReloadFailed _ _ => Code_Unavailable
  | DE_PluginRateLimited _ _ _ _ => Code_RateLimited
  | DE_UnknownState _ => Code_UnknownState
  | DE_TransitionImpossible _ => Code_TransitionImpossible
  | DE_Conflict _ _ | DE_AuthorizationConflict _ | DE_CollectionInUse _ _ => Code_Conflict
  | DE_SceneRevisionConflict _ _ _ | DE_CollectionReferencedByScene _ _ => Code_Conflict
  | DE_DeviceUnowned _ | DE_Serialize _ | DE_InteriorNul _ | DE_Internal _
  | DE_PluginInternal _ _ _ | DE_Other _ => Code_Internal
  | DE_PartialMutation _ _ => Code_PartialMutation
  | DE_CollectionNotOwned _ | DE_SceneNotOwned _ => Code_PermissionDenied
  end.

(** [OperationError] without its rendered message. *)
Record OperationError := {
  oe_code : ErrorCode;
  oe_retry_after_ms : option Z;
  oe_applied_targets : list TargetId
}.

Definition operation_error (e : DaemonError) : OperationError := {|
  oe_code := error_code e;
  oe_retry_after_ms :=
    match e with DE_PluginRateLimited _ _ _ retry_after_ms => retry_after_ms | _ => None end;
  oe_applied_targets :=
    match e with DE_PartialMutation _ applied_targets => applied_targets | _ => [] end
|}.

(** The constructors [unsupported] and [invalid] of [state/validation.rs]. *)
Definition unsupported (target : TargetId) (reason : Text) : DaemonError :=
  DE_UnsupportedCapability target reason.
Definition invalid (target : TargetId) (reason : Text) : DaemonError :=
  DE_InvalidArgument target reason.

(** ** Desired state *)

Inductive TargetState :=
| TS_Effect (effect : Effect)
| TS_Brightness (value : Z)
| TS_AppearanceSlots (values : list AppearanceSlotValue)
| TS_Clear.

Record TargetStateEntry := TargetStateEntry_mk { tse_target : TargetId; tse_state : TargetState }.

(** ** Frame streams *)

Record FrameStream := {
  fs_generation : Z;
  fs_topology_generation : Z;
  fs_next_sequence : Z;
  fs_last_forwarded_at : option Z
}.

(** ** The daemon state *)

#[export] Instance StateFacetKind_countable : Countable StateFacetKind.
Proof.
  refine (inj_countable'
    (λ k, match k with
          | Kind_Appearance => 0 | Kind_Brightness => 1 | Kind_Emission => 2
          | Kind_PhysicalPower => 3 | Kind_EffectiveAppearance => 4
          | Kind_AppearanceSlots => 5
          end%N)
    (λ n, match n with
          | 0 => Kind_Appearance | 1 => Kind_Brightness | 2 => Kind_Emission
          | 3 => Kind_PhysicalPower | 4 => Kind_EffectiveAppearance
          | _ => Kind_AppearanceSlots
          end%N) _).
  by intros [].
Defined.

Record DaemonState := {
  ds_devices : gmap DeviceId Device;
  ds_topology_generation : Z;
  ds_target_state : list TargetStateEntry;
  ds_collections : gmap CollectionId Collection;
  ds_scenes : gmap SceneId Scene;
  ds_adopted_baseline : list AdoptedFacet;
  ds_pending_adoption : list AdoptedFacet;
  ds_observations : gmap (TargetId * StateFacetKind) FacetObservation;
  ds_device_status : gmap DeviceId DeviceStateStatus;
  ds_generations : gmap DeviceId Z;
  ds_frame_streams : gmap TargetId FrameStream;
  ds_cct_emulation_override : option CctEmulation
}.

(** Field assignments. *)
Definition set_devices (s : DaemonState) (v : gmap DeviceId Device) : DaemonState :=
  let 'Build_DaemonState _ b c d e f g h i j k l := s in Build_DaemonState v b c d e f g h i j k l.
Definition set_topology_generation (s : DaemonState) (v : Z) : DaemonState :=
  let 'Build_DaemonState a _ c d e f g h i j k l := s in Build_DaemonState a v c d e f g h i j k l.
Definition set_target_state (s : DaemonState) (v : list TargetStateEntry) : DaemonState :=
  let 'Build_DaemonState a b _ d e f g h i j k l := s in Build_DaemonState a b v d e f g h i j k l.
Definition set_collections (s : DaemonState) (v : gmap CollectionId Collection) : DaemonState :=
  let 'Build_DaemonState a b c _ e f g h i j k l := s in Build_DaemonState a b c v e f g h i j k l.
Definition set_scenes (s : DaemonState) (v : gmap SceneId Scene) : DaemonState :=
  let 'Build_DaemonState a b c d _ f g h i j k l := s in Build_DaemonState a b c d v f g h i j k l.
Definition set_adopted_baseline (s : DaemonState) (v : list AdoptedFacet) : DaemonState :=
  let 'Build_DaemonState a b c d e _ g h i j k l := s in Build_DaemonState a b c d e v g h i j k l.
Definition set_pending_adoption (s : DaemonState) (v : list AdoptedFacet) : DaemonState :=
  let 'Build_DaemonState a b c d e f _ h i j k l := s in Build_DaemonState a b c d e f v h i j k l.
Definition set_observations (s : DaemonState)
    (v : gmap (TargetId * StateFacetKind) FacetObservation) : DaemonState :=
  let 'Build_DaemonState a b c d e f g _ i j k l := s in Build_DaemonState a b c d e f g v i j k l.
Definition set_device_status (s : DaemonState) (v : gmap DeviceId DeviceStateStatus) : DaemonState :=
  let 'Build_DaemonState a b c d e f g h _ j k l := s in Build_DaemonState a b c d e f g h v j k l.
Definition set_generations (s : DaemonState) (v : gmap DeviceId Z) : DaemonState :=
  let 'Build_DaemonState a b c d e f g h i _ k l := s in Build_DaemonState a b c d e f g h i v k l.
Definition set_frame_streams (s : DaemonState) (v : gmap TargetId FrameStream) : DaemonState :=
  let 'Build_DaemonState a b c d e f g h i j _ l := s in Build_DaemonState a b c d e f g h i j v l.
Definition set_cct_emulation_override (s : DaemonState) (v : option CctEmulation) : DaemonState :=
  let 'Build_DaemonState a b c d e f g h i j k _ := s in Build_DaemonState a b c d e f g h i j k v.

(** [from_devices]: a later device with the same identifier replaces an earlier one. *)
Definition device_map (devices : list Device) : gmap DeviceId Device :=
  fold_left (λ m device, <[device_id device := device]> m) devices ∅.

Definition from_devices (devices : list Device) : DaemonState := {|
  ds_devices := device_map devices;
  ds_topology_generation := 0;
  ds_target_state := [];
  ds_collections := ∅;
  ds_scenes := ∅;
  ds_adopted_baseline := [];
  ds_pending_adoption := [];
  ds_observations := ∅;
  ds_device_status := ∅;
  ds_generations := ∅;
  ds_frame_streams := ∅;
  ds_cct_emulation_override := None
|}.

Lemma device_map_lookup devices d device :
  device_map devices !! d = Some device → device ∈ devices ∧ device_id device = d.
Proof.
  unfold device_map. induction devices as [|x devices IH] using rev_ind; simpl.
  { by rewrite lookup_empty. }
  rewrite fold_left_app. simpl. rewrite lookup_insert_Some, elem_of_app, list_elem_of_singleton.
  naive_solver.
Qed.
