(* ===== verification/Topology.v ===== *)
(** * Topology and target algebra: [luminated/src/state/mod.rs]

    Resolving a target against the devices, expanding a group into the surfaces
    and elements it addresses (groups may nest and share members; a visited set
    guards against cycles), deciding whether one target covers another, and the
    scopes a write is observed at. *)

From S2P Require Import Prelude Model Daemon.

Inductive TargetAtom :=
| Atom_Surface (surface : SurfaceId)
| Atom_Element (surface : SurfaceId) (element : ElementId).
#[export] Instance TargetAtom_eq : EqDecision TargetAtom.
Proof. solve_decision. Defined.

(** [iter().find(|candidate| candidate.id == id)] on the three kinds of parts. *)
Definition find_surface (d : Device) (id : SurfaceId) : option Surface :=
  List.find (λ s, bool_decide (surface_id s = id)) (device_surfaces d).
Definition find_element (s : Surface) (id : ElementId) : option Element :=
  List.find (λ e, bool_decide (element_id e = id)) (surface_elements s).
Definition find_group (d : Device) (id : GroupId) : option Group :=
  List.find (λ g, bool_decide (group_id g = id)) (device_groups d).

Definition capabilities_for_target (st : DaemonState) (target : TargetId) :
    option CapabilitySet :=
  match target with
  | TargetId_Device device => device_capabilities <$> ds_devices st !! device
  | TargetId_Surface device surface =>
      device ← ds_devices st !! device; surface_capabilities <$> find_surface device surface
  | TargetId_Element device surface element =>
      device ← ds_devices st !! device; surface ← find_surface device surface;
      element_capabilities <$> find_element surface element
  | TargetId_Group device group =>
      device ← ds_devices st !! device; group_capabilities <$> find_group device group
  end.

Definition capabilities_for_target_or_error (st : DaemonState) (target : TargetId) :
    daemon CapabilitySet :=
  ok_or (capabilities_for_target st target) (DE_TargetNotFound target).

Definition ensure_target_exists (st : DaemonState) (target : TargetId) : daemon unit :=
  if bool_decide (is_Some (capabilities_for_target st target)) then Ok tt
  else Err (DE_TargetNotFound target).

(** ** Group expansion *)

(** The visited set is shared by the whole traversal; [None] is lack of fuel. *)
Definition atoms_member
    (rec : Group → gset GroupId → option (list TargetAtom * gset GroupId))
    (d : Device) (acc : option (list TargetAtom * gset GroupId)) (member : GroupMember) :
    option (list TargetAtom * gset GroupId) :=
  '(atoms, visited) ← acc;
  match member with
  | GroupMember_Surface surface => Some (atoms ++ [Atom_Surface surface], visited)
  | GroupMember_Element surface element => Some (atoms ++ [Atom_Element surface element], visited)
  | GroupMember_Group group =>
      match find_group d group with
      | Some group =>
          '(more, visited) ← rec group visited;
          Some (atoms ++ more, visited)
      | None => Some (atoms, visited)
      end
  end.

Fixpoint group_atoms (d : Device) (fuel : nat) (group : Group) (visited : gset GroupId) :
    option (list TargetAtom * gset GroupId) :=
  match fuel with
  | O => None
  | S fuel =>
      if decide (group_id group ∈ visited) then Some ([], visited)
      else fold_left (atoms_member (group_atoms d fuel) d) (group_members group)
             (Some ([], {[group_id group]} ∪ visited))
  end.

(** One level per group of the device, and one to meet a visited one again. *)
Definition group_fuel (d : Device) : nat := S (length (device_groups d)).
Arguments group_fuel : simpl never.

Definition target_atoms (st : DaemonState) (target : TargetId) : option (list TargetAtom) :=
  match target with
  | TargetId_Device _ => None
  | TargetId_Surface _ surface => Some [Atom_Surface surface]
  | TargetId_Element _ surface element => Some [Atom_Element surface element]
  | TargetId_Group device group =>
      device ← ds_devices st !! device; group ← find_group device group;
      fst <$> group_atoms device (group_fuel device) group ∅
  end.

(** ** Coverage *)

Definition target_atom_covers (covering covered : TargetAtom) : bool :=
  match covering, covered with
  | Atom_Surface a, Atom_Surface b => bool_decide (a = b)
  | Atom_Surface a, Atom_Element b _ => bool_decide (a = b)
  | Atom_Element a x, Atom_Element b y => bool_decide (a = b) && bool_decide (x = y)
  | Atom_Element _ _, Atom_Surface _ => false
  end.

Definition target_covers (st : DaemonState) (covering covered : TargetId) : bool :=
  if bool_decide (covering = covered) then true
  else if negb (bool_decide (TargetId_device_id covering = TargetId_device_id covered)) then false
  else match covering, covered with
       | TargetId_Device _, _ => true
       | _, TargetId_Device _ => false
       | _, _ =>
           match target_atoms st covering, target_atoms st covered with
           | Some covering, Some covered =>
               forallb (λ b, existsb (λ a, target_atom_covers a b) covering) covered
           | _, _ => false
           end
       end.

(** ** Observation scopes *)

Definition atom_target (device : DeviceId) (a : TargetAtom) : TargetId :=
  match a with
  | Atom_Surface surface => TargetId_Surface device surface
  | Atom_Element surface element => TargetId_Element device surface element
  end.

Definition canonical_observation_targets (st : DaemonState) (target : TargetId) : list TargetId :=
  match target with
  | TargetId_Group device _ => atom_target device <$> default [] (target_atoms st target)
  | _ => [target]
  end.

(** The closure [push_surface]: what it appends. *)
Definition push_surface (device : Device) (surface : Surface) : list TargetId :=
  TargetId_Surface (device_id device) (surface_id surface) ::
  ((λ e, TargetId_Element (device_id device) (surface_id surface) (element_id e))
     <$> surface_elements surface).

Definition push_found_surface (device : Device) (surface : SurfaceId) : list TargetId :=
  match find_surface device surface with
  | Some surface => push_surface device surface
  | None => []
  end.

Definition push_atom (device : Device) (a : TargetAtom) : list TargetId :=
  match a with
  | Atom_Surface surface => push_found_surface device surface
  | Atom_Element surface element => [TargetId_Element (device_id device) surface element]
  end.

Definition observation_targets_after_write (st : DaemonState) (target : TargetId) :
    list TargetId :=
  match ds_devices st !! TargetId_device_id target with
  | None => []
  | Some device =>
      fold_left push_unique
        match target with
        | TargetId_Device _ => target :: (device_surfaces device ≫= push_surface device)
        | TargetId_Surface _ surface => push_found_surface device surface
        | TargetId_Element _ _ _ => [target]
        | TargetId_Group _ _ => default [] (target_atoms st target) ≫= push_atom device
        end []
  end.

(** ** Purging *)

Definition keep_device (device : DeviceId) (t : TargetId) : bool :=
  negb (bool_decide (TargetId_device_id t = device)).

Definition purge_withdrawn_device (st : DaemonState) (device : DeviceId) :
    DaemonState * daemon Z :=
  if bool_decide (is_Some (ds_devices st !! device))
  then (st, Err (DE_InvalidArgument (TargetId_Device device)
              (Lit "device is present; only withdrawn-device state can be purged")))
  else
    let targets := filter (λ e, keep_device device (tse_target e) = true) (ds_target_state st) in
    let adopted := filter (λ f, keep_device device (af_target f) = true)
                     (ds_adopted_baseline st) in
    let pending := filter (λ f, keep_device device (af_target f) = true)
                     (ds_pending_adoption st) in
    let removed :=
      ((length (ds_target_state st) - length targets) +
       (length (ds_adopted_baseline st) - length adopted) +
       (length (ds_pending_adoption st) - length pending)) in
    let st := set_target_state st targets in
    let st := set_adopted_baseline st adopted in
    let st := set_pending_adoption st pending in
    let st := set_observations st
                (filter (λ p, keep_device device p.1.1 = true) (ds_observations st)) in
    let st := set_device_status st (delete device (ds_device_status st)) in
    let st := set_generations st (delete device (ds_generations st)) in
    (st, if bool_decide (removed = 0) then Err (DE_TargetNotFound (TargetId_Device device))
         else Ok (Z.of_nat removed)).

Definition device_le (a b : DeviceId) : Prop :=
  String.le (DeviceId_as_str a) (DeviceId_as_str b).
#[export] Instance device_le_dec : RelDecision device_le.
Proof. intros a b. unfold device_le. apply _. Defined.

(** The targets of the records that a purge would remove. *)
Definition retained_targets (st : DaemonState) : list TargetId :=
  (tse_target <$> ds_target_state st) ++ (af_target <$> ds_adopted_baseline st) ++
  (af_target <$> ds_pending_adoption st).

Definition withdrawn_device_ids (st : DaemonState) : list DeviceId :=
  merge_sort device_le
    (elements (list_to_set (filter (λ d, ds_devices st !! d = None)
                 (TargetId_device_id <$> retained_targets st)) : gset DeviceId)).

(** ** Group expansion, declaratively *)

Section groups.
Context (d : Device).

(** Group [a] has the existing group [b] as a member. *)
Definition nested_group (a b : GroupId) : Prop :=
  ∃ g, find_group d a = Some g ∧ GroupMember_Group b ∈ group_members g ∧
       is_Some (find_group d b).

Definition member_atom (m : GroupMember) (a : TargetAtom) : Prop :=
  match m with
  | GroupMember_Surface s => a = Atom_Surface s
  | GroupMember_Element s e => a = Atom_Element s e
  | GroupMember_Group _ => False
  end.

Definition direct_atom (id : GroupId) (a : TargetAtom) : Prop :=
  ∃ g m, find_group d id = Some g ∧ m ∈ group_members g ∧ member_atom m a.

Definition all_groups : gset GroupId := list_to_set (group_id <$> device_groups d).

Lemma find_group_Some id g : find_group d id = Some g → group_id g = id ∧ id ∈ all_groups.
Proof.
  unfold find_group, all_groups. intros [Hin Hid]%List.find_some.
  apply bool_decide_eq_true in Hid as <-. split; [done|].
  apply elem_of_list_to_set, list_elem_of_fmap_2. by apply list_elem_of_In.
Qed.

(** What one call of [group_atoms] adds to the visited set and to the atoms. *)
Definition atoms_post (roots : gset GroupId) (here : TargetAtom → Prop)
    (v : gset GroupId) (r : option (list TargetAtom * gset GroupId)) : Prop :=
  ∃ atoms v', r = Some (atoms, v') ∧ v ⊆ v' ∧ v' ⊆ all_groups ∧ roots ⊆ v' ∧
    (∀ x, x ∈ v' → x ∉ v → ∃ y, y ∈ roots ∧ rtc nested_group y x) ∧
    (∀ x y, x ∈ v' → x ∉ v → nested_group x y → y ∈ v') ∧
    (∀ a, a ∈ atoms ↔ here a ∨ ∃ x, x ∈ v' ∧ x ∉ v ∧ direct_atom x a).

(** The groups among some members, and the atoms among them. *)
Definition member_groups (ms : list GroupMember) : gset GroupId :=
  list_to_set (omap (λ m, match m with
                          | GroupMember_Group b => group_id <$> find_group d b
                          | _ => None end) ms).

Lemma elem_of_member_groups ms b :
  b ∈ member_groups ms ↔ GroupMember_Group b ∈ ms ∧ is_Some (find_group d b).
Proof.
  unfold member_groups. rewrite elem_of_list_to_set, list_elem_of_omap. split.
  - intros (m & Hm & Hb). destruct m as [| |c]; [done..|].
    destruct (find_group d c) as [g|] eqn:E; simplify_eq/=.
    pose proof (find_group_Some _ _ E) as [<- _]. eauto.
  - intros [Hm [g Hg]]. exists (GroupMember_Group b). split; [done|].
    rewrite Hg. simpl. by destruct (find_group_Some _ _ Hg) as [-> _].
Qed.

Lemma atoms_members_spec rec ms atoms0 v0 :
  v0 ⊆ all_groups →
  (∀ g v, find_group d (group_id g) = Some g → v0 ⊆ v → v ⊆ all_groups →
     atoms_post {[group_id g]} (λ _, False) v (rec g v)) →
  atoms_post (member_groups ms) (λ a, a ∈ atoms0 ∨ ∃ m, m ∈ ms ∧ member_atom m a) v0
    (fold_left (atoms_member rec d) ms (Some (atoms0, v0))).
Proof.
  intros Hv0 Hrec. induction ms as [|m ms IH] using rev_ind; simpl.
  { exists atoms0, v0. split_and!; [done..|set_solver|set_solver|set_solver|].
    intros a. split; [auto|]. intros [[?|(m & Hm & _)]|(x & ? & ? & _)]; [done|set_solver|done]. }
  rewrite fold_left_app. cbn [fold_left].
  destruct IH as (atoms & v & -> & Hsub & Hall & Hroots & Hreach & Hclosed & Hatoms).
  assert (∀ a, (∃ m', m' ∈ ms ++ [m] ∧ member_atom m' a) ↔
    (∃ m', m' ∈ ms ∧ member_atom m' a) ∨ member_atom m a) as Happ.
  { intros a. setoid_rewrite elem_of_app. setoid_rewrite list_elem_of_singleton. naive_solver. }
  assert (∀ b, b ∈ member_groups (ms ++ [m]) ↔ b ∈ member_groups ms ∨ b ∈ member_groups [m]) as Hg.
  { intros b. rewrite !elem_of_member_groups, elem_of_app. tauto. }
  destruct (match m with GroupMember_Group b => find_group d b | _ => None end) as [g|] eqn:Em.
  - destruct m as [| |b]; [done..|]. simpl. rewrite Em. destruct (find_group_Some _ _ Em) as [<- Hb].
    destruct (Hrec g v Em Hsub Hall) as (more & v' & -> & Hsub' & Hall' & Hroot' & Hreach' & Hclosed' & Hmore).
    assert (∀ b, b ∈ member_groups [GroupMember_Group (group_id g)] ↔ b = group_id g) as Hone.
    { intros b. rewrite elem_of_member_groups, list_elem_of_singleton. split; [naive_solver|].
      intros ->. eauto. }
    simpl. exists (atoms ++ more), v'. split_and!; [done|set_solver..| | | |].
    + intros b [Hm| ->%Hone]%Hg; set_solver.
    + intros x Hx Hx0. destruct (decide (x ∈ v)) as [Hxv|Hxv].
      * destruct (Hreach x Hxv Hx0) as (y & Hy & Hyx). exists y. split; [|done]. apply Hg. by left.
      * destruct (Hreach' x Hx Hxv) as (y & ->%elem_of_singleton & Hyx).
        exists (group_id g). split; [|done]. apply Hg. right. by apply Hone.
    + intros x y Hx Hx0 Hxy. destruct (decide (x ∈ v)) as [Hxv|Hxv]; [|by apply (Hclosed' x y)].
      apply Hsub'. by apply (Hclosed x y).
    + intros a. rewrite elem_of_app, Hatoms, Hmore, Happ. simpl. split.
      * intros [[?|(x & ? & ? & ?)]|[[]|(x & ? & ? & ?)]]; [tauto|right; exists x|right; exists x];
          split_and!; set_solver.
      * intros [[?|[?|[]]]|(x & Hx & Hx0 & Ha)]; [tauto..|].
        destruct (decide (x ∈ v)); [left; right|right; right]; by exists x.
  - assert (atoms_member rec d (Some (atoms, v)) m =
      Some (atoms ++ match m with GroupMember_Surface s => [Atom_Surface s]
                     | GroupMember_Element s e => [Atom_Element s e] | _ => [] end, v)) as ->.
    { destruct m; simpl; [done..|]. by rewrite Em, app_nil_r. }
    eexists _, v. split_and!; [done..| | |done|].
    + intros b [Hm|[Hm [g Hb]]%elem_of_member_groups]%Hg; [by apply Hroots|].
      apply list_elem_of_singleton in Hm as <-. congruence.
    + intros x Hx Hx0. destruct (Hreach x Hx Hx0) as (y & Hy & Hyx). exists y. split; [|done].
      apply Hg. by left.
    + intros a. rewrite elem_of_app, Hatoms, Happ.
      assert (a ∈ match m with GroupMember_Surface s => [Atom_Surface s]
        | GroupMember_Element s e => [Atom_Element s e] | _ => [] end ↔ member_atom m a) as ->.
      { destruct m; simpl; [apply list_elem_of_singleton..|set_solver]. }
      tauto.
Qed.

Lemma group_atoms_spec fuel g v :
  find_group d (group_id g) = Some g → v ⊆ all_groups → size (all_groups ∖ v) < fuel →
  atoms_post {[group_id g]} (λ _, False) v (group_atoms d fuel g v).
Proof.
  revert g v. induction fuel as [|fuel IH]; intros g v Hg Hv Hfuel; [lia|]. simpl.
  case_decide as Hin.
  { exists [], v. split_and!; [done..|set_solver|set_solver|set_solver|].
    intros a. split; [set_solver|]. intros [[]|(x & ? & ? & _)]. done. }
  destruct (find_group_Some _ _ Hg) as [_ Hall].
  destruct (atoms_members_spec (group_atoms d fuel) (group_members g) []
    ({[group_id g]} ∪ v)) as (atoms & v' & -> & Hsub & Hall' & Hroots & Hreach & Hclosed & Hatoms).
  { set_solver. }
  { intros g' v1 Hg' Hv1 Hv1'. apply IH; [done..|].
    assert (all_groups ∖ v1 ⊂ all_groups ∖ v) as Hlt%subset_size by set_solver. lia. }
  assert (∀ y, y ∈ member_groups (group_members g) ↔ nested_group (group_id g) y) as Hn.
  { intros y. rewrite elem_of_member_groups. unfold nested_group. rewrite Hg. naive_solver. }
  exists atoms, v'. split_and!; [done|set_solver|done|set_solver|..].
  - intros x Hx Hxv. exists (group_id g). split; [set_solver|].
    destruct (decide (x = group_id g)) as [->|Hne]; [apply rtc_refl|].
    destruct (Hreach x Hx) as (y & Hy & Hyx); [set_solver|]. by eapply rtc_l; [apply Hn|].
  - intros x y Hx Hxv Hxy. destruct (decide (x = group_id g)) as [->|Hne].
    + by apply Hroots, Hn.
    + apply (Hclosed x y); [done|set_solver|done].
  - intros a. rewrite Hatoms. split.
    + intros [[?%not_elem_of_nil|(m & Hm & Ha)]|(x & Hx & Hxv & Ha)]; [done| |]; right.
      * exists (group_id g). split_and!; [set_solver|done|]. by exists g, m.
      * exists x. split_and!; [done|set_solver|done].
    + intros [[]|(x & Hx & Hxv & Ha)]. destruct (decide (x = group_id g)) as [->|Hne].
      * left. right. destruct Ha as (g' & m & Hg' & Hm & Ha). exists m.
        assert (g' = g) as -> by congruence. done.
      * right. exists x. split_and!; [done|set_solver|done].
Qed.

Lemma group_atoms_correct id g :
  find_group d id = Some g →
  ∃ atoms, fst <$> group_atoms d (group_fuel d) g ∅ = Some atoms ∧
    ∀ a, a ∈ atoms ↔ ∃ x, rtc nested_group id x ∧ direct_atom x a.
Proof.
  intros Hg. destruct (find_group_Some _ _ Hg) as [<- _].
  destruct (group_atoms_spec (group_fuel d) g ∅)
    as (atoms & v & -> & _ & _ & Hroot & Hreach & Hclosed & Hatoms); [done|set_solver| |].
  { rewrite difference_empty_L. unfold group_fuel, all_groups.
    pose proof (size_list_to_set_le (group_id <$> device_groups d)) as Hle.
    rewrite length_fmap in Hle. lia. }
  exists atoms. split; [done|]. intros a. rewrite Hatoms.
  assert (∀ x, x ∈ v ↔ rtc nested_group (group_id g) x) as Hv.
  { intros x. split; [intros Hx; destruct (Hreach x Hx) as (y & ->%elem_of_singleton & ?); set_solver|].
    intros Hx. assert (group_id g ∈ v) as Hin by set_solver. revert Hin.
    clear -Hclosed Hx. induction Hx as [|a' b c Hab _ IH]; [done|]. intros Ha'. apply IH.
    apply (Hclosed a' b); [done|set_solver|done]. }
  split; [intros [[]|(x & Hx & _ & Ha)]|intros (x & Hx & Ha); right]; exists x; set_solver.
Qed.
End groups.

(** ** Coverage, declaratively *)

Lemma target_atom_covers_refl a : target_atom_covers a a = true.
Proof. destruct a; simpl; rewrite ?bool_decide_true by done; done. Qed.

Lemma target_atom_covers_trans a b c :
  target_atom_covers a b = true → target_atom_covers b c = true → target_atom_covers a c = true.
Proof.
  destruct a, b, c; simpl; rewrite ?andb_true_iff, ?bool_decide_eq_true; naive_solver.
Qed.

Definition is_device (t : TargetId) : Prop := t = TargetId_Device (TargetId_device_id t).

Lemma target_covers_true st a b :
  target_covers st a b = true ↔
  a = b ∨ (TargetId_device_id a = TargetId_device_id b ∧
    (is_device a ∨ ∃ A B, target_atoms st a = Some A ∧ target_atoms st b = Some B ∧
       ∀ y, y ∈ B → ∃ x, x ∈ A ∧ target_atom_covers x y = true)).
Proof.
  unfold target_covers. case_bool_decide as Hab; [naive_solver|].
  case_bool_decide as Hd; simpl; [|naive_solver].
  assert (∀ A B, forallb (λ y, existsb (λ x, target_atom_covers x y) A) B = true ↔
    ∀ y, y ∈ B → ∃ x, x ∈ A ∧ target_atom_covers x y = true) as Hall.
  { intros A B. rewrite forallb_forall. setoid_rewrite <-list_elem_of_In.
    setoid_rewrite existsb_exists. setoid_rewrite <-list_elem_of_In. done. }
  assert (match target_atoms st a, target_atoms st b with
          | Some A, Some B => forallb (λ y, existsb (λ x, target_atom_covers x y) A) B
          | _, _ => false end = true ↔
    ∃ A B, target_atoms st a = Some A ∧ target_atoms st b = Some B ∧
       ∀ y, y ∈ B → ∃ x, x ∈ A ∧ target_atom_covers x y = true) as Hatoms.
  { destruct (target_atoms st a), (target_atoms st b); [rewrite Hall|..]; naive_solver. }
  unfold is_device. destruct a; [naive_solver|..]; (destruct b; [|rewrite Hatoms; naive_solver..]);
    (split; [done|]); intros [?|(_ & [?|(A & B & _ & ? & _)])]; naive_solver.
Qed.

Lemma target_covers_refl st a : target_covers st a a = true.
Proof. apply target_covers_true. by left. Qed.

Lemma target_covers_trans st a b c :
  target_covers st a b = true → target_covers st b c = true → target_covers st a c = true.
Proof.
  rewrite !target_covers_true.
  intros [->|(Hab & Ha)] [->|(Hbc & Hb)]; [by left|by right|by right|]. right.
  split; [congruence|]. destruct Ha as [Ha|(A & B & HA & HB & HAB)]; [by left|].
  destruct Hb as [Hb|(B' & C & HB' & HC & HBC)]; [by rewrite Hb in HB|]. right.
  exists A, C. assert (B' = B) as -> by congruence. split_and!; [done..|].
  intros z Hz. destruct (HBC z Hz) as (y & Hy & Hyz). destruct (HAB y Hy) as (x & Hx & Hxy).
  exists x. split; [done|]. by eapply target_atom_covers_trans.
Qed.

(** ** Well-formed topologies *)

(** The surface or element belongs to the device. *)
Definition atom_in (device : Device) (a : TargetAtom) : Prop :=
  match a with
  | Atom_Surface s => ∃ sf, sf ∈ device_surfaces device ∧ surface_id sf = s
  | Atom_Element s e =>
      ∃ sf el, sf ∈ device_surfaces device ∧ surface_id sf = s ∧
        el ∈ surface_elements sf ∧ element_id el = e
  end.

(** What normalisation of a device descriptor establishes: identifiers are unique
    and every surface or element a group lists exists. *)
Record device_wf (device : Device) : Prop := {
  wf_surfaces : NoDup (surface_id <$> device_surfaces device);
  wf_elements sf : sf ∈ device_surfaces device → NoDup (element_id <$> surface_elements sf);
  wf_members g m a :
    g ∈ device_groups device → m ∈ group_members g → member_atom m a → atom_in device a
}.

Definition topology_wf (st : DaemonState) : Prop :=
  ∀ id device, ds_devices st !! id = Some device → device_id device = id ∧ device_wf device.

(** A target below the level of groups. *)
Definition concrete (t : TargetId) : Prop :=
  match t with TargetId_Group _ _ => False | _ => True end.

Lemma find_surface_Some device s sf :
  device_wf device →
  find_surface device s = Some sf ↔ sf ∈ device_surfaces device ∧ surface_id sf = s.
Proof. intros Hwf. apply find_key, (wf_surfaces _ Hwf). Qed.

Lemma find_element_Some device sf e el :
  device_wf device → sf ∈ device_surfaces device →
  find_element sf e = Some el ↔ el ∈ surface_elements sf ∧ element_id el = e.
Proof. intros Hwf Hsf. by apply find_key, (wf_elements _ Hwf). Qed.

Lemma atom_target_exists st d device a :
  ds_devices st !! d = Some device → device_wf device →
  is_Some (capabilities_for_target st (atom_target d a)) ↔ atom_in device a.
Proof.
  intros Hd Hwf. destruct a as [s|s e]; simpl; rewrite Hd; simpl.
  - rewrite fmap_is_Some. split.
    + intros [sf Hsf%find_surface_Some]; [|done]. by exists sf.
    + intros (sf & Hsf). exists sf. by apply find_surface_Some.
  - split.
    + destruct (find_surface device s) as [sf|] eqn:E; simpl; [|by intros []].
      apply find_surface_Some in E as [Hsf Hs]; [|done].
      rewrite fmap_is_Some. intros [el [Hel He]%(find_element_Some device)]; [|done..].
      by exists sf, el.
    + intros (sf & el & Hsf & Hs & Hel & He).
      assert (find_surface device s = Some sf) as -> by by apply find_surface_Some. simpl.
      rewrite fmap_is_Some. exists el. by apply (find_element_Some device).
Qed.

Lemma push_surface_elem device sf t :
  t ∈ push_surface device sf ↔
  t = TargetId_Surface (device_id device) (surface_id sf) ∨
  ∃ el, el ∈ surface_elements sf ∧
    t = TargetId_Element (device_id device) (surface_id sf) (element_id el).
Proof. unfold push_surface. rewrite elem_of_cons, list_elem_of_fmap. naive_solver. Qed.

(** Pushing an atom yields exactly the existing atoms it covers. *)
Lemma push_atom_elem device x t :
  device_wf device → atom_in device x →
  t ∈ push_atom device x ↔
  ∃ a, t = atom_target (device_id device) a ∧ atom_in device a ∧ target_atom_covers x a = true.
Proof.
  intros Hwf Hx. destruct x as [s|s e]; simpl.
  - destruct Hx as (sf & Hsf & Hs). unfold push_found_surface.
    assert (find_surface device s = Some sf) as -> by by apply find_surface_Some.
    rewrite push_surface_elem, Hs. split.
    + intros [->|(el & Hel & ->)].
      * exists (Atom_Surface s). simpl. rewrite bool_decide_true by done. eauto.
      * exists (Atom_Element s (element_id el)). simpl. rewrite bool_decide_true by done. eauto 10.
    + intros ([s'|s' e'] & -> & Ha & <-%bool_decide_eq_true); simpl in *; [by left|]. right.
      destruct Ha as (sf' & el & Hsf' & Hs' & Hel & <-). exists el. split; [|done].
      assert (sf' = sf) as ->; [|done].
      eapply NoDup_fmap_same; [apply (wf_surfaces _ Hwf)|done..|congruence].
  - rewrite list_elem_of_singleton. split.
    + intros ->. exists (Atom_Element s e). split; [done|]. split; [done|].
      apply (target_atom_covers_refl (Atom_Element s e)).
    + intros ([s'|s' e'] & -> & Ha & Hc); simpl in *; [done|].
      rewrite andb_true_iff, !bool_decide_eq_true in Hc. by destruct Hc as [-> ->].
Qed.

(** Every existing target below the device has atoms, and they exist. *)
Lemma target_atoms_exist st t device :
  ds_devices st !! TargetId_device_id t = Some device → device_wf device →
  ¬ is_device t → is_Some (capabilities_for_target st t) →
  ∃ A, target_atoms st t = Some A ∧ ∀ a, a ∈ A → atom_in device a.
Proof.
  intros Hd Hwf Ht Hc. destruct t as [d|d s|d s e|d g]; simpl in Hd.
  - by destruct Ht.
  - exists [Atom_Surface s]. split; [done|]. intros a ->%list_elem_of_singleton.
    by apply (atom_target_exists st d).
  - exists [Atom_Element s e]. split; [done|]. intros a ->%list_elem_of_singleton.
    by apply (atom_target_exists st d).
  - simpl in *. rewrite Hd in *. simpl in *.
    destruct (find_group device g) as [gr|] eqn:E; simpl in *; [|by destruct Hc].
    destruct (group_atoms_correct device g gr E) as (A & Heq & HA). exists A.
    split; [exact Heq|].
    intros a (x & _ & (g' & m & Hg' & Hm & Ha))%HA. eapply (wf_members _ Hwf); [|done..].
    unfold find_group in Hg'. apply List.find_some in Hg' as [Hin _]. by apply list_elem_of_In.
Qed.

Lemma target_covers_atom st t d a A :
  target_atoms st t = Some A → TargetId_device_id t = d →
  target_covers st t (atom_target d a) = true ↔
  ∃ x, x ∈ A ∧ target_atom_covers x a = true.
Proof.
  intros HA Hd. rewrite target_covers_true.
  assert (target_atoms st (atom_target d a) = Some [a]) as Ha by by destruct a.
  assert (TargetId_device_id (atom_target d a) = d) as Hda by by destruct a.
  rewrite Ha. split.
  - intros [->|(_ & [Hdev|(A' & B & HA' & [= <-] & Hall)])].
    + assert (A = [a]) as -> by congruence. exists a.
      split; [set_solver|apply target_atom_covers_refl].
    + rewrite Hdev in HA. done.
    + assert (A' = A) as -> by congruence. apply Hall. set_solver.
  - intros (x & Hx & Hxa). right. split; [congruence|]. right. exists A, [a].
    split_and!; [done..|]. intros y ->%list_elem_of_singleton. eauto.
Qed.

(** The scopes pushed before deduplication. *)
Lemma observation_atoms st t device A :
  ds_devices st !! TargetId_device_id t = Some device →
  device_id device = TargetId_device_id t → target_atoms st t = Some A →
  observation_targets_after_write st t = fold_left push_unique (A ≫= push_atom device) [].
Proof.
  intros Hd Hid HA. unfold observation_targets_after_write. rewrite Hd.
  destruct t as [d|d s|d s e|d g]; cbn -[push_unique] in *; simplify_eq.
  - simpl. by rewrite app_nil_r.
  - done.
  - cbn -[push_unique]. by rewrite HA.
Qed.

Lemma concrete_covered st t t' A :
  target_atoms st t = Some A → concrete t' → target_covers st t t' = true →
  ∃ a, t' = atom_target (TargetId_device_id t) a.
Proof.
  intros HA Hc [<-|[Hd [Hdev|(A' & B & _ & HB & _)]]]%target_covers_true.
  - destruct t as [| d s | d s e |]; [done|exists (Atom_Surface s)|exists (Atom_Element s e)|]; done.
  - by rewrite Hdev in HA.
  - rewrite Hd. destruct t' as [| d s | d s e |]; [done|exists (Atom_Surface s)|
      exists (Atom_Element s e)|]; done.
Qed.

Lemma observation_device st t device :
  ds_devices st !! TargetId_device_id t = Some device → device_wf device →
  device_id device = TargetId_device_id t → t = TargetId_Device (TargetId_device_id t) →
  NoDup (observation_targets_after_write st t) ∧
  ∀ t', t' ∈ observation_targets_after_write st t ↔
    concrete t' ∧ is_Some (capabilities_for_target st t') ∧ target_covers st t t' = true.
Proof.
  intros Hd Hwf Hid Ht. destruct t as [d| | |]; [|done..]. simpl in *.
  unfold observation_targets_after_write. cbn -[push_unique fold_left]. rewrite Hd.
  set (l := TargetId_Device d :: (device_surfaces device ≫= push_surface device)).
  destruct (push_unique_all l [] (NoDup_nil_2)) as [Hnd Hel].
  split; [exact Hnd|]. intros t'. rewrite Hel. unfold l.
  rewrite elem_of_nil, elem_of_cons, list_elem_of_bind. setoid_rewrite push_surface_elem.
  rewrite Hid, target_covers_true. split.
  - intros [[]|[->|(sf & [->|(el & Hel' & ->)] & Hsf)]].
    + split_and!; [done| |by left]. simpl. rewrite Hd. by eexists.
    + split_and!; [done| |by right; split; [|left]].
      apply (atom_target_exists st d device (Atom_Surface (surface_id sf))); [done..|]. by exists sf.
    + split_and!; [done| |by right; split; [|left]].
      apply (atom_target_exists st d device (Atom_Element (surface_id sf) (element_id el)));
        [done..|]. by exists sf, el.
  - intros (Hc & He & Hcov).
    assert (TargetId_device_id t' = d) as Hdt by (destruct Hcov as [<-|[? _]]; done). right.
    destruct t' as [d'|d' s|d' s e|d' g]; simpl in Hdt; subst d'; [by left|right..|done].
    + apply (atom_target_exists st d device (Atom_Surface s)) in He as (sf & Hsf & <-); [|done..].
      exists sf. split; [by left|done].
    + apply (atom_target_exists st d device (Atom_Element s e)) in He
        as (sf & el & Hsf & <- & Hel' & <-); [|done..].
      exists sf. split; [right; by exists el|done].
Qed.

(** ** Purging *)

Lemma keep_device_true d t : keep_device d t = true ↔ TargetId_device_id t ≠ d.
Proof. unfold keep_device. rewrite negb_true_iff, bool_decide_eq_false. done. Qed.

Lemma kept_targets {A} (f : A → TargetId) d (l : list A) :
  f <$> filter (λ x, keep_device d (f x) = true) l =
  filter (λ t, TargetId_device_id t ≠ d) (f <$> l).
Proof.
  induction l as [|x l IH]; [done|]. rewrite filter_cons, fmap_cons, filter_cons.
  pose proof (keep_device_true d (f x)).
  do 2 case_decide; rewrite ?fmap_cons, ?IH; [done|naive_solver..|done].
Qed.

Lemma removed_count {A} (f : A → TargetId) d (l : list A) :
  length l - length (filter (λ x, keep_device d (f x) = true) l) =
  length (filter (λ t, TargetId_device_id t = d) (f <$> l)).
Proof.
  induction l as [|x l IH]; [done|]. rewrite fmap_cons, !filter_cons.
  pose proof (keep_device_true d (f x)) as Hk.
  pose proof (length_filter (λ x, keep_device d (f x) = true) l).
  do 2 case_decide; simpl; [naive_solver|lia|rewrite <-IH; lia|naive_solver].
Qed.

Lemma elem_of_withdrawn st d :
  d ∈ withdrawn_device_ids st ↔
  ds_devices st !! d = None ∧ ∃ t, t ∈ retained_targets st ∧ TargetId_device_id t = d.
Proof.
  unfold withdrawn_device_ids. rewrite merge_sort_Permutation, elem_of_elements,
    elem_of_list_to_set, list_elem_of_filter, list_elem_of_fmap. naive_solver.
Qed.

(** The records of one device among those retained. *)
Definition records_of (st : DaemonState) (d : DeviceId) : list TargetId :=
  filter (λ t, TargetId_device_id t = d) (retained_targets st).

Lemma withdrawn_records st d :
  ds_devices st !! d = None → d ∈ withdrawn_device_ids st ↔ length (records_of st d) ≠ 0.
Proof.
  intros Hd. rewrite elem_of_withdrawn. unfold records_of. split.
  - intros (_ & t & Ht & Htd) Hl%nil_length_inv.
    assert (t ∈ filter (λ t, TargetId_device_id t = d) (retained_targets st)) as Hin
      by by apply list_elem_of_filter.
    rewrite Hl in Hin. by apply not_elem_of_nil in Hin.
  - intros Hl. split; [done|]. destruct (filter _ _) as [|t l] eqn:E; [done|].
    assert (t ∈ filter (λ t, TargetId_device_id t = d) (retained_targets st)) as Hin
      by (rewrite E; by left).
    apply list_elem_of_filter in Hin as [? ?]. eauto.
Qed.

Lemma purge_absent st d :
  ds_devices st !! d = None →
  let '(st', r) := purge_withdrawn_device st d in
  ds_devices st' = ds_devices st ∧ ds_collections st' = ds_collections st ∧
  ds_scenes st' = ds_scenes st ∧
  retained_targets st' = filter (λ t, TargetId_device_id t ≠ d) (retained_targets st) ∧
  r = if bool_decide (length (records_of st d) = 0)
      then Err (DE_TargetNotFound (TargetId_Device d))
      else Ok (Z.of_nat (length (records_of st d))).
Proof.
  intros Hd. unfold purge_withdrawn_device. rewrite bool_decide_false
    by (rewrite Hd; apply is_Some_None).
  rewrite !removed_count. destruct st. unfold records_of, retained_targets. simpl.
  rewrite !filter_app, !length_app, <-!kept_targets. split_and!; [done..|].
  by rewrite !Nat.add_assoc.
Qed.

(** ** Claims *)

(** Expanding a group yields exactly the surfaces and elements that the group or
    some group nested in it, at any depth, lists directly; shared and cyclic
    nesting are followed once, and the traversal always terminates. *)
Theorem target_atoms_correct st d device id g :
  ds_devices st !! d = Some device → find_group device id = Some g →
  ∃ atoms, target_atoms st (TargetId_Group d id) = Some atoms ∧
    ∀ a, a ∈ atoms ↔ ∃ x, rtc (nested_group device) id x ∧ direct_atom device x a.
Proof.
  intros Hd Hg. simpl. rewrite Hd. simpl. rewrite Hg. simpl. by apply group_atoms_correct.
Qed.

(** Coverage of targets is a preorder, never relates two devices, and a device
    target covers everything on the device. *)
Theorem target_covers_preorder st :
  (∀ a, target_covers st a a = true) ∧
  (∀ a b c, target_covers st a b = true → target_covers st b c = true →
     target_covers st a c = true) ∧
  (∀ a b, target_covers st a b = true → TargetId_device_id a = TargetId_device_id b) ∧
  (∀ b, target_covers st (TargetId_Device (TargetId_device_id b)) b = true).
Proof.
  split_and!; [apply target_covers_refl|apply target_covers_trans|..].
  - intros a b [->|[? _]]%target_covers_true; done.
  - intros b. apply target_covers_true. right. split; [done|]. by left.
Qed.

(** In a well-formed topology a successful write to an existing target is
    observed, without repetition, at exactly the existing device, surface and
    element targets that it covers. *)
Theorem observation_targets_correct st t :
  topology_wf st → is_Some (capabilities_for_target st t) →
  NoDup (observation_targets_after_write st t) ∧
  ∀ t', t' ∈ observation_targets_after_write st t ↔
    concrete t' ∧ is_Some (capabilities_for_target st t') ∧ target_covers st t t' = true.
Proof.
  intros Hwf Ht.
  assert (∃ device, ds_devices st !! TargetId_device_id t = Some device) as [device Hd].
  { destruct t; simpl in *; destruct (ds_devices st !! device); eauto; by destruct Ht. }
  destruct (Hwf _ _ Hd) as [Hid Hdev].
  destruct (decide (t = TargetId_Device (TargetId_device_id t))) as [Hdevice|Hnot].
  - by apply (observation_device st t device).
  - destruct (target_atoms_exist st t device) as (A & HA & Hin); [done..|].
    rewrite (observation_atoms st t device A) by done.
    destruct (push_unique_all (A ≫= push_atom device) [] (NoDup_nil_2)) as [Hnd Hel].
    split; [done|]. intros t'. rewrite Hel, list_elem_of_bind. split.
    + intros [?%not_elem_of_nil|(x & Hx' & Hx)]; [done|].
      apply push_atom_elem in Hx' as (a & -> & Ha & Hxa); [|by auto..].
      rewrite Hid. split_and!; [by destruct a|by eapply atom_target_exists|].
      eapply target_covers_atom; eauto.
    + intros (Hc & He & Hcov). right.
      assert (∃ a, t' = atom_target (TargetId_device_id t) a) as [a ->].
      { apply (concrete_covered st t t' A); done. }
      rewrite atom_target_exists in He by done.
      rewrite target_covers_atom in Hcov by done. destruct Hcov as (x & Hx & Hxa).
      exists x. split; [|done]. apply push_atom_elem; [done|by auto|]. rewrite Hid. eauto.
Qed.

(** Purging is refused for a present device; for an absent one it removes every
    retained record of that device and no record of another, succeeds exactly when
    the device is listed as withdrawn, reports the number of records removed, and
    leaves the device unlisted. *)
Theorem purge_withdrawn_correct st d :
  let '(st', r) := purge_withdrawn_device st d in
  if decide (is_Some (ds_devices st !! d))
  then st' = st ∧ ∃ reason, r = Err (DE_InvalidArgument (TargetId_Device d) reason)
  else
    retained_targets st' = filter (λ t, TargetId_device_id t ≠ d) (retained_targets st) ∧
    (d ∈ withdrawn_device_ids st ↔ r = Ok (Z.of_nat (length (records_of st d)))) ∧
    (∀ x, x ∈ withdrawn_device_ids st' ↔ x ∈ withdrawn_device_ids st ∧ x ≠ d).
Proof.
  case_decide as Hd.
  { unfold purge_withdrawn_device. rewrite bool_decide_true by done. eauto. }
  apply eq_None_not_Some in Hd. pose proof (purge_absent st d Hd) as H.
  destruct (purge_withdrawn_device st d) as [st' r].
  destruct H as (Hdev & _ & _ & Hret & ->). split; [done|]. split.
  - rewrite withdrawn_records by done. case_bool_decide; naive_solver.
  - intros x. rewrite !elem_of_withdrawn, Hdev, Hret. setoid_rewrite list_elem_of_filter.
    naive_solver.
Qed.

(** ** Witnesses *)

Module Sample.
Definition element (id : string) : Element := {|
  element_id := ElementId_new id; element_name := None; element_kind := ElementKind_Led;
  element_geometry := None; element_physical_tags := [];
  element_capabilities := CapabilitySet_default; element_notes := []; element_warnings := [] |}.
Definition surface (id : string) (elements : list Element) : Surface := {|
  surface_id := SurfaceId_new id; surface_name := id; surface_kind := SurfaceKind_Zone;
  surface_physical_tags := []; surface_elements := elements;
  surface_capabilities := CapabilitySet_default; surface_notes := []; surface_warnings := [] |}.
Definition group (id : string) (members : list GroupMember) : Group := {|
  group_id := GroupId_new id; group_name := id; group_description := None;
  group_kind := GroupKind_Driver; group_members := members;
  group_capabilities := CapabilitySet_default; group_notes := []; group_warnings := [] |}.
Definition dimmable : CapabilitySet := {|
  cs_colour := []; cs_cct_emulation := CctEmulation_Auto;
  cs_brightness := Brightness_Independent 8 255 Scope_Device; cs_frame_upload := None;
  cs_hardware_effects := None; cs_appearance_slots := None; cs_persistence := Persistence_None;
  cs_state_readback := Readback_None; cs_emission := false; cs_off_is_wear_safe := false;
  cs_physical_power := None; cs_power_domain := None |}.
(** Two groups that contain each other. *)
Definition device : Device := {|
  device_id := DeviceId_new "kbd"; device_name := "keyboard"; device_vendor := None;
  device_model := None; device_provider_instance := None;
  device_surfaces := [surface "keys" [element "esc"; element "f1"]; surface "logo" []];
  device_groups :=
    [group "all" [GroupMember_Surface (SurfaceId_new "logo");
                  GroupMember_Group (GroupId_new "row")];
     group "row" [GroupMember_Element (SurfaceId_new "keys") (ElementId_new "f1");
                  GroupMember_Group (GroupId_new "all")]];
  device_capabilities := dimmable; device_category := None;
  device_physical_tags := []; device_host_attached := true; device_notes := [];
  device_warnings := [] |}.
Definition state : DaemonState := from_devices [device].
Definition all : TargetId := TargetId_Group (DeviceId_new "kbd") (GroupId_new "all").
End Sample.

Lemma sample_device_wf : device_wf Sample.device.
Proof.
  split.
  - apply (bool_decide_unpack _). by vm_compute.
  - intros sf Hsf. apply (bool_decide_unpack _).
    repeat (apply elem_of_cons in Hsf as [->|Hsf]; [by vm_compute|]).
    by apply not_elem_of_nil in Hsf.
  - intros g m a Hg Hm Ha. simpl in Hg. rewrite !elem_of_cons, elem_of_nil in Hg.
    destruct Hg as [->|[->|[]]]; simpl in Hm; rewrite !elem_of_cons, elem_of_nil in Hm;
      destruct Hm as [->|[->|[]]]; simpl in Ha; try done; subst a; simpl.
    + eexists. split; [right; by left|done].
    + eexists _, _. split; [by left|]. split; [done|]. split; [right; by left|done].
Qed.

Lemma sample_topology_wf : topology_wf Sample.state.
Proof.
  intros id device [->%list_elem_of_singleton Hid]%device_map_lookup.
  split; [done|apply sample_device_wf].
Qed.

Lemma target_atoms_correct_witness :
  ∃ atoms, target_atoms Sample.state Sample.all = Some atoms ∧
    Atom_Element (SurfaceId_new "keys") (ElementId_new "f1") ∈ atoms.
Proof.
  destruct (target_atoms_correct Sample.state (DeviceId_new "kbd") Sample.device
    (GroupId_new "all") (Sample.group "all" [GroupMember_Surface (SurfaceId_new "logo");
                  GroupMember_Group (GroupId_new "row")])) as (atoms & Ha & H).
  - vm_compute. reflexivity.
  - reflexivity.
  - exists atoms. split; [exact Ha|]. vm_compute in Ha. injection Ha as <-. set_solver.
Defined.

Lemma observation_targets_correct_witness :
  NoDup (observation_targets_after_write Sample.state Sample.all) ∧
  observation_targets_after_write Sample.state Sample.all =
    [TargetId_surface "kbd" "logo"; TargetId_element "kbd" "keys" "f1"].
Proof.
  split; [|vm_compute; reflexivity].
  apply (observation_targets_correct Sample.state Sample.all sample_topology_wf).
  vm_compute. eexists. reflexivity.
Defined.
