(* ===== verification/Persistence.v ===== *)
(** * Snapshot validation: [luminated/src/persistence.rs]

    The checks that every saved and every loaded snapshot passes: resource limits,
    identifier consistency, unique memberships and slots, scene validity, and the
    iterative depth-first search that rejects missing and cyclic collection
    references.  File input and output, migration and JSON itself are outside the
    model: the serialised sizes are supplied by the environment. *)

From S2P Require Import Prelude Model Graph Scenes Daemon.

Record PersistedState := {
  ps_version : Z;
  ps_targets : list TargetStateEntry;
  ps_collections : gmap CollectionId Collection;
  ps_scenes : gmap SceneId Scene;
  ps_adopted_baseline : list AdoptedFacet
}.

(** What the daemon's state operations take from other crates: UUID parsing, the
    length of the JSON that [serde_json] produces (or its error), and the
    floating-point conversion from a colour temperature. *)
Class Env := {
  env_is_uuid : string → bool;
  env_collection_bytes : Collection → result Text Z;
  env_scene_bytes : Scene → result Text Z;
  env_state_bytes : PersistedState → result Text Z;
  env_kelvin_to_rgb : Z → Rgb
}.

Definition PERSISTENCE_VERSION : Z := 13.
Definition ORDERED_SINCE_VERSION : Z := 2.
Definition MAX_STATE_FILE_BYTES : Z := 4 * 1024 * 1024.
Definition MAX_STATE_ENTRIES : Z := 100000.
Definition MAX_SCENES : Z := 10000.
Definition MAX_SCENE_BINDINGS : Z := 100000.
Definition MAX_APPEARANCE_SLOT_VALUES : Z := 100000.
Definition MAX_COLLECTIONS : Z := 10000.
Definition MAX_COLLECTION_MEMBERS : Z := 100000.
Definition MAX_ADOPTED_FACETS : Z := 100000.
Definition MAX_TEXT_BYTES : Z := 64 * 1024.
Definition MAX_OBJECT_BYTES : Z := 256 * 1024.

Notation checked_snapshot := (result (fuelled Text)).

Definition usize_len {A} (l : list A) : Z := Z.of_nat (length l).

Definition checked_total (dimension : string) (current additional : Z) : checked_snapshot Z :=
  ok_or (checkU 64 (current + additional))
    (Fail (Fmt "persisted snapshot resource limit exceeded: {dimension} count overflowed"
             [AStr dimension])).

Definition validate_count (dimension : string) (actual maximum : Z) : checked_snapshot unit :=
  ensure (actual <=? maximum)%Z
    (Fail (Fmt "persisted snapshot resource limit exceeded: {dimension} is {actual}; maximum is {maximum}"
             [AStr dimension; ANum actual; ANum maximum])).

Definition validate_text (dimension value : string) : checked_snapshot unit :=
  validate_count dimension (Z.of_nat (String.length value)) MAX_TEXT_BYTES.

(** [iter().all(|x| seen.insert(key(x)))] *)
Fixpoint all_unique {K} `{Countable K} (seen : gset K) (keys : list K) : bool :=
  match keys with
  | [] => true
  | k :: keys => negb (bool_decide (k ∈ seen)) && all_unique ({[k]} ∪ seen) keys
  end.

#[export] Instance CollectionMember_countable : Countable CollectionMember.
Proof.
  refine (inj_countable'
    (λ m, match m with Member_Target t => inl t | Member_Collection c => inr c end)
    (λ m, match m with inl t => Member_Target t | inr c => Member_Collection c end) _).
  by intros [].
Defined.

Definition validate_unique_slots (dimension : string) (values : list AppearanceSlotValue) :
    checked_snapshot unit :=
  ensure (all_unique ∅ (asv_slot <$> values))
    (Fail (Fmt "persisted snapshot {dimension} contain duplicate slot identifiers"
             [AStr dimension])).

Definition validate_object_size (dimension : string) (size : result Text Z) :
    checked_snapshot unit :=
  size ← map_err Fail size;
  validate_count (dimension +:+ " serialized bytes") size MAX_OBJECT_BYTES.

(** ** The collection graph *)

Definition missing_collection (id : CollectionId) : Text :=
  Fmt "persisted snapshot references missing collection {id:?}" [AStr (CollectionId_as_str id)].
Definition cyclic_collection (id : CollectionId) : Text :=
  Fmt "persisted snapshot collection graph contains a cycle at {nested:?}"
    [AStr (CollectionId_as_str id)].

Section graph.
Context (collections : gmap CollectionId Collection).

(** The inner [while] loop; the top of the stack is the head of the list. *)
Fixpoint graph_loop (fuel : nat) (complete visiting : gset CollectionId)
    (stack : list (CollectionId * nat)) :
    checked_snapshot (gset CollectionId * gset CollectionId) :=
  match stack with
  | [] => Ok (complete, visiting)
  | (id, member_index) :: rest =>
      match fuel with
      | O => Err Fuel
      | S fuel =>
          collection ← ok_or (collections !! id) (Fail (missing_collection id));
          match collection_members collection !! member_index with
          | None => graph_loop fuel ({[id]} ∪ complete) (visiting ∖ {[id]}) rest
          | Some member =>
              let stack := (id, S member_index) :: rest in
              match member with
              | Member_Target _ => graph_loop fuel complete visiting stack
              | Member_Collection nested =>
                  _ ← ensure (bool_decide (is_Some (collections !! nested)))
                        (Fail (missing_collection nested));
                  if decide (nested ∈ complete) then graph_loop fuel complete visiting stack
                  else
                    _ ← ensure (negb (bool_decide (nested ∈ visiting)))
                          (Fail (cyclic_collection nested));
                    graph_loop fuel complete ({[nested]} ∪ visiting) ((nested, 0) :: stack)
              end
          end
      end
  end.

(** One visit of each membership and one removal of each collection. *)
Definition work (id : CollectionId) : nat :=
  match collections !! id with Some c => S (length (collection_members c)) | None => 0 end.
Definition work_of (ids : gset CollectionId) : nat := sum_list_with work (elements ids).

Definition graph_root (acc : gset CollectionId * gset CollectionId) (root : CollectionId) :
    checked_snapshot (gset CollectionId * gset CollectionId) :=
  let '(complete, visiting) := acc in
  if decide (root ∈ complete) then Ok acc
  else graph_loop (work_of (dom collections)) complete ({[root]} ∪ visiting) [(root, 0)].

Definition collection_keys : list CollectionId := merge_sort id_le (elements (dom collections)).

Definition validate_collection_graph : checked_snapshot unit :=
  _ ← try_fold graph_root (∅, ∅) collection_keys; Ok tt.
End graph.

(** ** The snapshot *)

Section snapshot.
Context `{Env}.

(** The loop over the collections, counting members. *)
Definition validate_collection_entry (collections : gmap CollectionId Collection)
    (collection_members_so_far : Z) (id : CollectionId) : checked_snapshot Z :=
  collection ← ok_or (collections !! id)
    (Fail (Lit "persisted snapshot collection index changed during validation"));
  _ ← ensure (bool_decide (id = collection_id collection))
        (Fail (Lit "persisted snapshot collection key does not match embedded identifier"));
  _ ← validate_text "collection name" (collection_name collection);
  _ ← match collection_description collection with
      | Some description => validate_text "collection description" description
      | None => Ok tt
      end;
  members ← ok_or (checkU 64 (collection_members_so_far +
                              usize_len (collection_members collection)))
    (Fail (Lit "persisted snapshot collection members count overflowed"));
  _ ← ensure (all_unique ∅ (collection_members collection))
        (Fail (Lit "persisted snapshot collection contains duplicate membership"));
  _ ← validate_object_size "collection" (env_collection_bytes collection);
  Ok members.

Definition validate_target_entry (appearance_slots : Z) (entry : TargetStateEntry) :
    checked_snapshot Z :=
  match tse_state entry with
  | TS_AppearanceSlots values =>
      _ ← validate_unique_slots "target appearance-slot values" values;
      checked_total "appearance-slot values" appearance_slots (usize_len values)
  | _ => Ok appearance_slots
  end.

Definition validate_binding_entry (collections : gmap CollectionId Collection)
    (appearance_slots : Z) (binding : SceneBinding) : checked_snapshot Z :=
  _ ← match dynamic_collection binding with
      | Some collection =>
          ensure (bool_decide (is_Some (collections !! collection)))
            (Fail (Fmt "persisted snapshot scene references missing collection {collection:?}"
                     [AStr (CollectionId_as_str collection)]))
      | None => Ok tt
      end;
  total ← checked_total "appearance-slot values" appearance_slots
            match sts_appearance_slots (binding_state binding) with
            | Some values => usize_len values
            | None => 0
            end;
  _ ← match sts_appearance_slots (binding_state binding) with
      | Some values => validate_unique_slots "scene appearance-slot values" values
      | None => Ok tt
      end;
  Ok total.

Definition validate_scene_entry (collections : gmap CollectionId Collection)
    (scenes : gmap SceneId Scene) (acc : Z * Z) (id : SceneId) : checked_snapshot (Z * Z) :=
  let '(bindings, appearance_slots) := acc in
  scene ← ok_or (scenes !! id)
    (Fail (Lit "persisted snapshot scene index changed during validation"));
  _ ← ensure (bool_decide (id = scene_id scene))
        (Fail (Lit "persisted snapshot scene key does not match embedded identifier"));
  _ ← map_err (λ _, Fail (Lit "persisted snapshot scene is invalid"))
        (Scene_validate env_is_uuid scene);
  _ ← validate_text "scene name" (scene_name scene);
  _ ← match scene_description scene with
      | Some description => validate_text "scene description" description
      | None => Ok tt
      end;
  bindings ← checked_total "scene bindings" bindings (usize_len (scene_bindings scene));
  appearance_slots ← try_fold (validate_binding_entry collections) appearance_slots
                       (scene_bindings scene);
  _ ← validate_object_size "scene" (env_scene_bytes scene);
  Ok (bindings, appearance_slots).

Definition validate_adopted_entry (appearance_slots : Z) (facet : AdoptedFacet) :
    checked_snapshot Z :=
  match af_value facet with
  | Facet_AppearanceSlots slots =>
      _ ← validate_unique_slots "adopted appearance-slot values" (ass_values slots);
      checked_total "appearance-slot values" appearance_slots (usize_len (ass_values slots))
  | _ => Ok appearance_slots
  end.

Definition scene_id_le (a b : SceneId) : Prop :=
  String.le (SceneId_as_str a) (SceneId_as_str b).
#[local] Instance scene_id_le_dec : RelDecision scene_id_le.
Proof. intros a b. unfold scene_id_le. apply _. Defined.

Definition scene_keys (scenes : gmap SceneId Scene) : list SceneId :=
  merge_sort scene_id_le (elements (dom scenes)).

(** [ValidatedPersistedSnapshot::new]; the payload itself is not represented. *)
Definition ValidatedPersistedSnapshot_new (state : PersistedState) : checked_snapshot PersistedState :=
  _ ← validate_count "target entries" (usize_len (ps_targets state)) MAX_STATE_ENTRIES;
  _ ← validate_count "collections" (Z.of_nat (size (ps_collections state))) MAX_COLLECTIONS;
  _ ← validate_count "scenes" (Z.of_nat (size (ps_scenes state))) MAX_SCENES;
  _ ← validate_count "adopted facets" (usize_len (ps_adopted_baseline state)) MAX_ADOPTED_FACETS;
  members ← try_fold (validate_collection_entry (ps_collections state)) 0%Z
              (collection_keys (ps_collections state));
  _ ← validate_count "collection members" members MAX_COLLECTION_MEMBERS;
  _ ← validate_collection_graph (ps_collections state);
  slots ← try_fold validate_target_entry 0%Z (ps_targets state);
  '(bindings, slots) ← try_fold (validate_scene_entry (ps_collections state) (ps_scenes state))
                         (0%Z, slots) (scene_keys (ps_scenes state));
  slots ← try_fold validate_adopted_entry slots (ps_adopted_baseline state);
  _ ← validate_count "scene bindings" bindings MAX_SCENE_BINDINGS;
  _ ← validate_count "appearance-slot values" slots MAX_APPEARANCE_SLOT_VALUES;
  bytes ← map_err Fail (env_state_bytes state);
  _ ← validate_count "serialized bytes" bytes MAX_STATE_FILE_BYTES;
  Ok state.
End snapshot.

(** ** The graph search *)

(** A registry as a collection graph: keys are distinct by construction. *)
Definition map_graph (m : gmap CollectionId Collection) : CollectionGraph :=
  {| cg_collections := m; cg_duplicates := ∅ |}.

Section search.
Context (m : gmap CollectionId Collection).
Let g := map_graph m.

(** The stack is a path of the graph; the members passed over are complete, but
    for the one whose traversal is under way just above. *)
Fixpoint stack_ok (complete : gset CollectionId) (above : option CollectionId)
    (stack : list (CollectionId * nat)) : Prop :=
  match stack with
  | [] => True
  | (id, i) :: rest =>
      ∃ c, m !! id = Some c ∧ i ≤ length (collection_members c) ∧
        (∀ j b, j < i → collection_members c !! j = Some (Member_Collection b) →
                b ∈ complete ∨ above = Some b) ∧
        (∀ b, above = Some b → Member_Collection b ∈ collection_members c) ∧
        stack_ok complete (Some id) rest
  end.

Record searching (complete visiting : gset CollectionId) (stack : list (CollectionId * nat)) :
    Prop := {
  s_good x : x ∈ complete → good g x;
  s_visiting : visiting = list_to_set stack.*1;
  s_NoDup : NoDup stack.*1;
  s_disjoint x : x ∈ complete → x ∉ visiting;
  s_stack : stack_ok complete None stack
}.

Lemma stack_ok_weaken complete complete' above stack :
  complete ⊆ complete' → stack_ok complete above stack → stack_ok complete' above stack.
Proof.
  intros Hsub. revert above. induction stack as [|[id i] rest IH]; intros above; simpl; [done|].
  intros (c & Hc & Hi & Hj & Ha & Hr). exists c. split_and!; [done..| |done|by apply IH].
  intros j b Hji Hb. destruct (Hj j b Hji Hb); [left; set_solver|by right].
Qed.

(** The child of a completed collection is no longer an exception. *)
Lemma stack_ok_done complete id stack :
  id ∈ complete → stack_ok complete (Some id) stack → stack_ok complete None stack.
Proof.
  intros Hid. destruct stack as [|[x i] rest]; simpl; [done|].
  intros (c & Hc & Hi & Hj & _ & Hr). exists c. split_and!; [done..| |done|done].
  intros j b Hji Hb. destruct (Hj j b Hji Hb) as [?|[= <-]]; by left.
Qed.

Lemma stack_path complete above stack x :
  stack_ok complete above stack → x ∈ stack.*1 →
  ∀ b, above = Some b → tc (nests g) x b.
Proof.
  revert above. induction stack as [|[id i] rest IH]; intros above; simpl.
  { by intros _ ?%not_elem_of_nil. }
  intros (c & Hc & _ & _ & Ha & Hr) Hx b Hb.
  assert (nests g id b) as Hn by (exists c; auto).
  apply elem_of_cons in Hx as [->|Hx]; [by apply tc_once|].
  eapply tc_r; [by apply (IH (Some id))|done].
Qed.

(** *** Work remaining *)

Definition stack_work (stack : list (CollectionId * nat)) : nat :=
  sum_list_with (λ p, work m p.1 - p.2) stack.

Definition remaining (complete visiting : gset CollectionId) (stack : list (CollectionId * nat)) : nat :=
  work_of m (dom m ∖ (complete ∪ visiting)) + stack_work stack.

Lemma work_of_insert x X : x ∉ X → work_of m ({[x]} ∪ X) = work m x + work_of m X.
Proof. intros Hx. unfold work_of. by rewrite (elements_union_singleton X x). Qed.

Lemma remaining_push complete visiting x stack :
  is_Some (m !! x) → x ∉ complete → x ∉ visiting →
  remaining complete ({[x]} ∪ visiting) ((x, 0) :: stack) = remaining complete visiting stack.
Proof.
  intros Hx Hc Hv. unfold remaining. simpl. rewrite Nat.sub_0_r.
  assert (dom m ∖ (complete ∪ visiting) =
    {[x]} ∪ dom m ∖ (complete ∪ ({[x]} ∪ visiting))) as ->.
  { apply set_eq. intros y. apply elem_of_dom in Hx. destruct (decide (y = x)); set_solver. }
  rewrite work_of_insert by set_solver. lia.
Qed.

Lemma work_Some id c : m !! id = Some c → work m id = S (length (collection_members c)).
Proof. intros Hc. unfold work. by rewrite Hc. Qed.

Lemma remaining_advance complete visiting id i c rest :
  m !! id = Some c → i < length (collection_members c) →
  remaining complete visiting ((id, i) :: rest) =
  S (remaining complete visiting ((id, S i) :: rest)).
Proof.
  intros Hc Hi. unfold remaining, stack_work. cbn [sum_list_with fst snd].
  rewrite (work_Some _ _ Hc). lia.
Qed.

Lemma remaining_pop complete visiting id c rest :
  m !! id = Some c → id ∈ visiting →
  remaining complete visiting ((id, length (collection_members c)) :: rest) =
  S (remaining ({[id]} ∪ complete) (visiting ∖ {[id]}) rest).
Proof.
  intros Hc Hid. unfold remaining, stack_work. cbn [sum_list_with fst snd].
  rewrite (work_Some _ _ Hc).
  replace ({[id]} ∪ complete ∪ visiting ∖ {[id]}) with (complete ∪ visiting); [lia|].
  apply set_eq. intros x. destruct (decide (x = id)); set_solver.
Qed.

(** *** The three moves *)

Lemma searching_pop complete visiting id c rest :
  m !! id = Some c →
  searching complete visiting ((id, length (collection_members c)) :: rest) →
  searching ({[id]} ∪ complete) (visiting ∖ {[id]}) rest.
Proof.
  intros Hc [Hg -> Hnd Hd (c' & Hc' & _ & Hj & _ & Hr)]. assert (c' = c) as -> by congruence.
  simpl in *. apply NoDup_cons in Hnd as [Hid Hnd]. split.
  - intros x [->%elem_of_singleton|Hx]%elem_of_union; [|by apply Hg].
    apply (good_intro g id c); [done|set_solver|]. intros b [j Hb]%list_elem_of_lookup.
    destruct (Hj j b) as [?|?]; [by eapply lookup_lt_Some|done|by apply Hg|done].
  - set_solver.
  - done.
  - set_solver.
  - apply (stack_ok_done _ id); [set_solver|]. eapply stack_ok_weaken; [|done]. set_solver.
Qed.

Lemma searching_advance complete visiting id i c rest member :
  m !! id = Some c → collection_members c !! i = Some member →
  (∀ b, member = Member_Collection b → b ∈ complete) →
  searching complete visiting ((id, i) :: rest) →
  searching complete visiting ((id, S i) :: rest).
Proof.
  intros Hc Hi Hm [Hg Hv Hnd Hd (c' & Hc' & Hle & Hj & Ha & Hr)].
  assert (c' = c) as -> by congruence. split; [done..|]. exists c.
  pose proof (lookup_lt_Some _ _ _ Hi). split_and!; [done|lia| |done|done].
  intros j b Hji Hb. destruct (decide (j = i)) as [->|]; [|apply (Hj j b); [lia|done]].
  left. apply Hm. congruence.
Qed.

Lemma searching_push complete visiting id i c rest b :
  m !! id = Some c → collection_members c !! i = Some (Member_Collection b) →
  is_Some (m !! b) → b ∉ complete → b ∉ visiting →
  searching complete visiting ((id, i) :: rest) →
  searching complete ({[b]} ∪ visiting) ((b, 0) :: (id, S i) :: rest).
Proof.
  intros Hc Hi [cb Hb] Hbc Hbv [Hg -> Hnd Hd (c' & Hc' & Hle & Hj & Ha & Hr)].
  assert (c' = c) as -> by congruence. simpl in *. split; [done|done| |set_solver|].
  { apply NoDup_cons. split; [|done]. set_solver. }
  pose proof (lookup_lt_Some _ _ _ Hi). exists cb. split_and!; [done|lia|lia|done|].
  exists c. split_and!; [done|lia| | |done].
  - intros j x Hji Hx. destruct (decide (j = i)) as [->|].
    + right. congruence.
    + destruct (Hj j x) as [?|?]; [lia|done|by left|done].
  - intros x [= <-]. by eapply list_elem_of_lookup_2.
Qed.

(** What an error reports. *)
Definition graph_error (e : Text) : Prop :=
  (∃ x y, nests g x y ∧ m !! y = None ∧ e = missing_collection y) ∨
  (∃ x, tc (nests g) x x ∧ e = cyclic_collection x).

Lemma graph_loop_spec fuel complete visiting stack :
  searching complete visiting stack → remaining complete visiting stack ≤ fuel →
  match graph_loop m fuel complete visiting stack with
  | Ok (complete', visiting') =>
      searching complete' visiting' [] ∧ complete ⊆ complete' ∧
      (∀ x, x ∈ stack.*1 → x ∈ complete')
  | Err (Fail e) => graph_error e
  | Err Fuel => False
  end.
Proof.
  revert complete visiting stack. induction fuel as [|fuel IH]; intros complete visiting stack Hs Hf.
  all: destruct stack as [|[id i] rest];
    [simpl; split_and!; [done|done|]; by intros x ?%not_elem_of_nil|].
  all: pose proof (s_stack _ _ _ Hs) as (c & Hc & Hi & _);
    pose proof (s_visiting _ _ _ Hs) as Hvis; simpl in Hvis.
  { unfold remaining, stack_work in Hf. cbn [sum_list_with fst snd] in Hf.
    rewrite (work_Some _ _ Hc) in Hf. lia. }
  simpl. rewrite Hc. simpl.
  destruct (collection_members c !! i) as [member|] eqn:Hm.
  - pose proof (remaining_advance complete visiting id i c rest Hc (lookup_lt_Some _ _ _ Hm)) as Hrem.
    assert (∀ b, member = Member_Collection b → nests g id b) as Hnest.
    { intros b ->. exists c. split; [done|]. by eapply list_elem_of_lookup_2. }
    destruct member as [t|b].
    + apply (IH complete visiting ((id, S i) :: rest)); [|lia].
      by eapply searching_advance.
    + unfold ensure. destruct (bool_decide (is_Some (m !! b))) eqn:Hb; simpl; bool_prop.
      2:{ left. exists id, b. split_and!; [by apply Hnest| |done]. by apply eq_None_not_Some. }
      case_decide as Hcomp.
      { apply (IH complete visiting ((id, S i) :: rest)); [|lia].
        eapply searching_advance; [done..| |done]. by intros b' [= <-]. }
      destruct (bool_decide (b ∈ visiting)) eqn:Hv; simpl; bool_prop.
      { right. exists b. split; [|done]. rewrite Hvis in Hv.
        assert (b ∈ ((id, i) :: rest).*1) as Hin by (simpl; set_solver).
        assert (tc (nests g) b id ∨ b = id) as Hbid.
        { simpl in Hin. apply elem_of_cons in Hin as [?|Hin]; [by right|]. left.
          pose proof (s_stack _ _ _ Hs) as (? & _ & _ & _ & _ & Hr).
          by eapply stack_path. }
        destruct Hbid as [Ht| ->]; [eapply tc_r; [done|]|apply tc_once]; by apply Hnest. }
      specialize (IH complete ({[b]} ∪ visiting) ((b, 0) :: (id, S i) :: rest)).
      rewrite remaining_push in IH by done.
      specialize (IH ltac:(by eapply searching_push) ltac:(lia)).
      destruct (graph_loop _ _ _ _ _) as [[complete' visiting']|[|e]]; [|done..].
      destruct IH as (? & ? & Hin). split_and!; [done..|]. intros x Hx. apply Hin. simpl in *.
      set_solver.
  - apply lookup_ge_None in Hm. assert (i = length (collection_members c)) as -> by lia.
    rewrite (remaining_pop complete visiting id c rest) in Hf; [|done|rewrite Hvis; set_solver].
    specialize (IH ({[id]} ∪ complete) (visiting ∖ {[id]}) rest
      ltac:(by eapply searching_pop) ltac:(lia)).
    destruct (graph_loop _ _ _ _ _) as [[complete' visiting']|[|e]]; [|done..].
    destruct IH as (? & ? & Hin). split_and!; [done|set_solver|]. intros x Hx. simpl in Hx.
    apply elem_of_cons in Hx as [->|Hx]; [set_solver|by apply Hin].
Qed.

Lemma work_of_mono X Y : X ⊆ Y → work_of m X ≤ work_of m Y.
Proof.
  intros HXY. unfold work_of. apply elements_submseteq in HXY.
  induction HXY; simpl; lia.
Qed.

Lemma graph_roots_spec roots complete :
  Forall (λ r, is_Some (m !! r)) roots → searching complete ∅ [] →
  match try_fold (graph_root m) (complete, ∅) roots with
  | Ok (complete', _) =>
      (∀ x, x ∈ complete' → good g x) ∧ complete ⊆ complete' ∧ (∀ r, r ∈ roots → r ∈ complete')
  | Err (Fail e) => graph_error e
  | Err Fuel => False
  end.
Proof.
  revert complete. induction roots as [|root roots IH]; intros complete Hroots Hs; simpl.
  { split_and!; [apply (s_good _ _ _ Hs)|done|]. by intros r ?%not_elem_of_nil. }
  apply Forall_cons in Hroots as [Hroot Hroots]. case_decide as Hin; simpl.
  - specialize (IH complete Hroots Hs).
    destruct (try_fold _ _ _) as [[complete' ?]|[|e]]; [|done..]. destruct IH as (? & ? & Hr).
    split_and!; [done..|]. intros r [->|?]%elem_of_cons; [set_solver|by apply Hr].
  - pose proof (graph_loop_spec (work_of m (dom m)) complete ({[root]} ∪ ∅) [(root, 0)]) as Hl.
    rewrite remaining_push in Hl by (done || set_solver).
    destruct Hroot as [c Hc].
    assert (searching complete ({[root]} ∪ ∅) [(root, 0)]) as Hs1.
    { destruct Hs as [Hg _ _ _ _]. split; [done|set_solver|apply NoDup_singleton|set_solver|].
      exists c. split_and!; [done|lia|lia|done|done]. }
    specialize (Hl Hs1). unfold remaining in Hl. simpl in Hl. rewrite Nat.add_0_r in Hl.
    specialize (Hl ltac:(apply work_of_mono; set_solver)).
    destruct (graph_loop _ _ _ _ _) as [[complete' visiting']|[|e]]; simpl; [|done..].
    destruct Hl as (Hs' & Hsub & Hr). assert (visiting' = ∅) as -> by apply (s_visiting _ _ _ Hs').
    specialize (IH complete' Hroots Hs').
    destruct (try_fold _ _ _) as [[complete2 ?]|[|e]]; [|done..]. destruct IH as (? & ? & Hr2).
    split_and!; [done|set_solver|]. intros r [->|?]%elem_of_cons; [|by apply Hr2].
    assert (root ∈ complete') by (apply Hr; by left). set_solver.
Qed.

Lemma elem_of_collection_keys id : id ∈ collection_keys m ↔ is_Some (m !! id).
Proof.
  unfold collection_keys. rewrite merge_sort_Permutation, elem_of_elements. apply elem_of_dom.
Qed.

Lemma graph_error_not_good e : graph_error e → ∃ x, is_Some (m !! x) ∧ ¬ good g x.
Proof.
  intros [(x & y & Hxy & Hy & _)|(x & Hx & _)].
  - exists x. pose proof Hxy as (c & Hc & _). split; [by exists c|]. intros Hg.
    destruct (good_nests g x y Hg Hxy) as [c' Hc' _ _]. simpl in Hc'. congruence.
  - exists x. assert (∃ y, nests g x y) as (y & c & Hc & _) by (inversion Hx; eauto).
    split; [by exists c|]. intros Hg. by apply (good_acyclic g x).
Qed.

Lemma validate_graph_spec :
  match validate_collection_graph m with
  | Ok _ => ∀ id, is_Some (m !! id) → good g id
  | Err (Fail e) => graph_error e
  | Err Fuel => False
  end.
Proof.
  unfold validate_collection_graph.
  pose proof (graph_roots_spec (collection_keys m) ∅) as H.
  destruct (try_fold _ _ _) as [[complete v]|[|e]]; simpl; [| |apply H..].
  - intros id Hid. destruct H as (Hg & _ & Hr).
    + apply Forall_forall. intros r. apply elem_of_collection_keys.
    + split; [set_solver|done|apply NoDup_nil_2|set_solver|done].
    + by apply Hg, Hr, elem_of_collection_keys.
  - apply H; [apply Forall_forall; intros r; apply elem_of_collection_keys|].
    split; [set_solver|done|apply NoDup_nil_2|set_solver|done].
  - apply Forall_forall. intros r. apply elem_of_collection_keys.
  - split; [set_solver|done|apply NoDup_nil_2|set_solver|done].
Qed.

Lemma validate_graph_Ok :
  validate_collection_graph m = Ok tt ↔ ∀ id, is_Some (m !! id) → good g id.
Proof.
  pose proof validate_graph_spec as H.
  destruct (validate_collection_graph m) as [[]|[|e]]; [done..|]. split; [done|].
  intros Hall. apply graph_error_not_good in H as (x & Hx & Hng). by destruct Hng; apply Hall.
Qed.
End search.

(** ** What a validated snapshot promises *)

Definition total {A} (n : A → Z) (l : list A) : Z := foldr (λ x s, n x + s)%Z 0%Z l.

Definition text_fits (s : string) : Prop := (Z.of_nat (String.length s) <= MAX_TEXT_BYTES)%Z.
Definition object_fits (size : result Text Z) : Prop :=
  ∃ n, size = Ok n ∧ (n <= MAX_OBJECT_BYTES)%Z.

(** The appearance-slot values held by a target entry, a binding and a facet. *)
Definition entry_slots (e : TargetStateEntry) : list AppearanceSlotValue :=
  match tse_state e with TS_AppearanceSlots values => values | _ => [] end.
Definition binding_slots (b : SceneBinding) : list AppearanceSlotValue :=
  default [] (sts_appearance_slots (binding_state b)).
Definition facet_slots (f : AdoptedFacet) : list AppearanceSlotValue :=
  match af_value f with Facet_AppearanceSlots s => ass_values s | _ => [] end.

Section wf.
Context `{Env}.

Definition collection_entry_wf (id : CollectionId) (c : Collection) : Prop :=
  collection_id c = id ∧ text_fits (collection_name c) ∧
  (∀ d, collection_description c = Some d → text_fits d) ∧
  NoDup (collection_members c) ∧ object_fits (env_collection_bytes c).

Definition scene_entry_wf (collections : gmap CollectionId Collection) (id : SceneId)
    (s : Scene) : Prop :=
  scene_id s = id ∧ Scene_wf env_is_uuid s ∧ text_fits (scene_name s) ∧
  (∀ d, scene_description s = Some d → text_fits d) ∧
  Forall (λ b, ∀ c, dynamic_collection b = Some c → is_Some (collections !! c))
    (scene_bindings s) ∧
  object_fits (env_scene_bytes s).

Definition collection_entries (m : gmap CollectionId Collection) : list Collection :=
  omap (λ id, m !! id) (collection_keys m).
Definition scene_entries (m : gmap SceneId Scene) : list Scene :=
  omap (λ id, m !! id) (scene_keys m).

Definition slot_total (st : PersistedState) : Z :=
  (total (λ e, usize_len (entry_slots e)) (ps_targets st) +
   total (λ s, total (λ b, usize_len (binding_slots b)) (scene_bindings s))
     (scene_entries (ps_scenes st)) +
   total (λ f, usize_len (facet_slots f)) (ps_adopted_baseline st))%Z.

Record snapshot_wf (st : PersistedState) : Prop := {
  sw_targets : (usize_len (ps_targets st) <= MAX_STATE_ENTRIES)%Z;
  sw_collections : (Z.of_nat (size (ps_collections st)) <= MAX_COLLECTIONS)%Z;
  sw_scenes : (Z.of_nat (size (ps_scenes st)) <= MAX_SCENES)%Z;
  sw_adopted : (usize_len (ps_adopted_baseline st) <= MAX_ADOPTED_FACETS)%Z;
  sw_entries : map_Forall collection_entry_wf (ps_collections st);
  sw_members : (total (λ c, usize_len (collection_members c))
                  (collection_entries (ps_collections st)) <= MAX_COLLECTION_MEMBERS)%Z;
  sw_graph id : is_Some (ps_collections st !! id) → good (map_graph (ps_collections st)) id;
  sw_scene_entries : map_Forall (scene_entry_wf (ps_collections st)) (ps_scenes st);
  sw_entry_slots : Forall (λ e, NoDup (asv_slot <$> entry_slots e)) (ps_targets st);
  sw_facet_slots : Forall (λ f, NoDup (asv_slot <$> facet_slots f)) (ps_adopted_baseline st);
  sw_bindings : (total (λ s, usize_len (scene_bindings s)) (scene_entries (ps_scenes st))
                   <= MAX_SCENE_BINDINGS)%Z;
  sw_slots : (slot_total st <= MAX_APPEARANCE_SLOT_VALUES)%Z;
  sw_bytes : ∃ n, env_state_bytes st = Ok n ∧ (n <= MAX_STATE_FILE_BYTES)%Z
}.
End wf.

(** *** Counting loops

    A loop that checks each element and adds to a [usize] total succeeds exactly
    when the elements pass and the total fits. *)

Lemma total_nonneg {A} (n : A → Z) l : (∀ x, 0 <= n x)%Z → (0 <= total n l)%Z.
Proof. intros Hn. induction l as [|x l IH]; simpl; [lia|]. specialize (Hn x). lia. Qed.

Lemma usize_len_nonneg {A} (l : list A) : (0 <= usize_len l)%Z.
Proof. unfold usize_len. lia. Qed.

Section counting.
Context {E A : Type} (f : Z → A → result E Z) (P : A → Prop) (n : A → Z).
Context (Hn : ∀ x, (0 <= n x)%Z).
Context (Hf : ∀ s x s', u64 s → f s x = Ok s' ↔ P x ∧ s' = (s + n x)%Z ∧ u64 s').

Lemma counting_loop s l s' :
  u64 s → try_fold f s l = Ok s' ↔ Forall P l ∧ s' = (s + total n l)%Z ∧ u64 s'.
Proof.
  revert s. induction l as [|x l IH]; intros s Hs; simpl.
  { split; [intros [= <-]; split_and!; [constructor|lia|done]|].
    intros (_ & -> & _). f_equal. lia. }
  rewrite bind_Ok, Forall_cons. split.
  - intros (s1 & (Hx & -> & Hs1)%Hf & H2); [|done]. apply IH in H2 as (Hl & -> & Hs'); [|done].
    split_and!; [done..|lia|done].
  - intros ([Hx Hl] & -> & Hs'). pose proof (total_nonneg n l Hn). specialize (Hn x).
    assert (u64 (s + n x)%Z) as Hs1 by (width; unfold uN in *; lia).
    exists (s + n x)%Z. split; [by apply Hf|]. apply IH; [done|]. split_and!; [done|lia|done].
Qed.
End counting.

Lemma all_unique_true {K} `{Countable K} (seen : gset K) keys :
  all_unique seen keys = true ↔ NoDup keys ∧ ∀ k, k ∈ keys → k ∉ seen.
Proof.
  revert seen. induction keys as [|k keys IH]; intros seen; simpl.
  { split; [|done]. intros _. split; [constructor|]. by intros k ?%not_elem_of_nil. }
  rewrite andb_true_iff, negb_true_iff, bool_decide_eq_false, IH, NoDup_cons.
  setoid_rewrite elem_of_cons. set_solver.
Qed.

Lemma all_unique_NoDup {K} `{Countable K} (keys : list K) :
  all_unique (∅ : gset K) keys = true ↔ NoDup keys.
Proof. rewrite all_unique_true. set_solver. Qed.

Lemma validate_count_Ok d a b : validate_count d a b = Ok tt ↔ (a <= b)%Z.
Proof. unfold validate_count. rewrite ensure_Ok. apply Z.leb_le. Qed.

Lemma checked_total_Ok d a b c :
  checked_total d a b = Ok c ↔ c = (a + b)%Z ∧ u64 c.
Proof. unfold checked_total. rewrite ok_or_Ok, checkU_Some. naive_solver. Qed.

Lemma validate_unique_slots_Ok d l : validate_unique_slots d l = Ok tt ↔ NoDup (asv_slot <$> l).
Proof. unfold validate_unique_slots. rewrite ensure_Ok. apply all_unique_NoDup. Qed.

Lemma validate_object_size_Ok d r : validate_object_size d r = Ok tt ↔ object_fits r.
Proof.
  unfold validate_object_size, object_fits. rewrite bind_Ok. setoid_rewrite validate_count_Ok.
  destruct r; simpl; naive_solver.
Qed.

Lemma opt_text_Ok d (o : option string) :
  match o with Some x => validate_text d x | None => Ok tt end = Ok tt ↔
  ∀ x, o = Some x → text_fits x.
Proof.
  destruct o; [|naive_solver]. unfold validate_text. rewrite validate_count_Ok.
  unfold text_fits. naive_solver.
Qed.

Section counting2.
Context {E A : Type} (f : Z * Z → A → result E (Z * Z)) (P : A → Prop) (n1 n2 : A → Z).
Context (Hn1 : ∀ x, (0 <= n1 x)%Z) (Hn2 : ∀ x, (0 <= n2 x)%Z).
Context (Hf : ∀ s t x s' t', u64 s → u64 t →
  f (s, t) x = Ok (s', t') ↔ P x ∧ s' = (s + n1 x)%Z ∧ t' = (t + n2 x)%Z ∧ u64 s' ∧ u64 t').

Lemma counting_loop2 s t l s' t' :
  u64 s → u64 t →
  try_fold f (s, t) l = Ok (s', t') ↔
  Forall P l ∧ s' = (s + total n1 l)%Z ∧ t' = (t + total n2 l)%Z ∧ u64 s' ∧ u64 t'.
Proof.
  revert s t. induction l as [|x l IH]; intros s t Hs Ht; simpl.
  { split; [intros [= <- <-]; split_and!; [constructor|lia|lia|done..]|].
    intros (_ & -> & -> & _). do 2 f_equal; lia. }
  rewrite bind_Ok, Forall_cons. split.
  - intros ([s1 t1] & (Hx & -> & -> & Hs1 & Ht1)%Hf & H2); [|done..].
    apply IH in H2 as (Hl & -> & -> & Hs' & Ht'); [|done..]. split_and!; [done|done|lia|lia|done|done].
  - intros ([Hx Hl] & -> & -> & Hs' & Ht'). pose proof (total_nonneg n1 l Hn1).
    pose proof (total_nonneg n2 l Hn2). specialize (Hn1 x). specialize (Hn2 x).
    assert (u64 (s + n1 x)%Z ∧ u64 (t + n2 x)%Z) as [Hs1 Ht1] by (width; unfold uN in *; lia).
    exists (s + n1 x, t + n2 x)%Z. split; [by apply Hf|].
    apply IH; [done..|]. split_and!; [done|lia|lia|done..].
Qed.
End counting2.

Lemma total_omap {K A} (look : K → option A) (n : A → Z) l :
  total (λ k, from_option n 0%Z (look k)) l = total n (omap look l).
Proof.
  induction l as [|k l IH]; [done|].
  change (omap look (k :: l)) with
    (match look k with Some y => y :: omap look l | None => omap look l end).
  change (total (λ k, from_option n 0%Z (look k)) (k :: l)) with
    (from_option n 0 (look k) + total (λ k, from_option n 0%Z (look k)) l)%Z.
  rewrite IH. destruct (look k); simpl; lia.
Qed.

Section entries.
Context `{Env}.

Lemma collection_entry_Ok m s id s' :
  validate_collection_entry m s id = Ok s' ↔
  (∃ c, m !! id = Some c ∧ collection_entry_wf id c) ∧
  s' = (s + from_option (λ c, usize_len (collection_members c)) 0 (m !! id))%Z ∧ u64 s'.
Proof.
  unfold validate_collection_entry, collection_entry_wf. rewrite bind_Ok.
  setoid_rewrite ok_or_Ok. destruct (m !! id) as [c|]; simpl; [|naive_solver].
  assert (∀ P : Collection → Prop, (∃ a, Some c = Some a ∧ P a) ↔ P c) as Hone by naive_solver.
  rewrite !Hone, !bind_unit_Ok, ensure_Ok, bool_decide_eq_true, opt_text_Ok.
  unfold validate_text. rewrite validate_count_Ok, bind_Ok. setoid_rewrite bind_unit_Ok.
  setoid_rewrite ok_or_Ok. setoid_rewrite checkU_Some. setoid_rewrite ensure_Ok.
  setoid_rewrite all_unique_NoDup. setoid_rewrite bind_unit_Ok.
  setoid_rewrite validate_object_size_Ok. unfold text_fits. naive_solver.
Qed.

Lemma collection_entries_Ok m s' :
  try_fold (validate_collection_entry m) 0%Z (collection_keys m) = Ok s' ↔
  map_Forall collection_entry_wf m ∧
  s' = total (λ c, usize_len (collection_members c)) (collection_entries m) ∧ u64 s'.
Proof.
  unfold collection_entries.
  rewrite (counting_loop (validate_collection_entry m)
    (λ id, ∃ c, m !! id = Some c ∧ collection_entry_wf id c)
    (λ id, from_option (λ c, usize_len (collection_members c)) 0%Z (m !! id))).
  - rewrite total_omap, Z.add_0_l.
    assert (Forall (λ id, ∃ c, m !! id = Some c ∧ collection_entry_wf id c) (collection_keys m) ↔
      map_Forall collection_entry_wf m) as ->; [|done].
    rewrite Forall_forall. setoid_rewrite elem_of_collection_keys. split.
    + intros H' id c Hc. destruct (H' id) as (c' & Hc' & ?); [by exists c|]. congruence.
    + intros H' id [c Hc]. exists c. split; [done|]. by apply H'.
  - intros id. destruct (m !! id); simpl; [apply usize_len_nonneg|lia].
  - intros; apply collection_entry_Ok.
  - width.
Qed.

Lemma target_entry_Ok s e s' :
  u64 s → validate_target_entry s e = Ok s' ↔
  NoDup (asv_slot <$> entry_slots e) ∧ s' = (s + usize_len (entry_slots e))%Z ∧ u64 s'.
Proof.
  intros Hs. unfold validate_target_entry, entry_slots.
  destruct (tse_state e); simpl;
    [| |rewrite bind_unit_Ok, validate_unique_slots_Ok, checked_total_Ok; naive_solver|];
    (split; [intros [= <-]; split_and!; [constructor|unfold usize_len; simpl; lia|done]|];
     intros (_ & -> & _); unfold usize_len; simpl; f_equal; lia).
Qed.

Lemma adopted_entry_Ok s f s' :
  u64 s → validate_adopted_entry s f = Ok s' ↔
  NoDup (asv_slot <$> facet_slots f) ∧ s' = (s + usize_len (facet_slots f))%Z ∧ u64 s'.
Proof.
  intros Hs. unfold validate_adopted_entry, facet_slots.
  destruct (af_value f); simpl;
    [..|rewrite bind_unit_Ok, validate_unique_slots_Ok, checked_total_Ok; naive_solver];
    (split; [intros [= <-]; split_and!; [constructor|unfold usize_len; simpl; lia|done]|];
     intros (_ & -> & _); unfold usize_len; simpl; f_equal; lia).
Qed.

Lemma binding_entry_Ok m s b s' :
  validate_binding_entry m s b = Ok s' ↔
  ((∀ c, dynamic_collection b = Some c → is_Some (m !! c)) ∧
   NoDup (asv_slot <$> binding_slots b)) ∧
  s' = (s + usize_len (binding_slots b))%Z ∧ u64 s'.
Proof.
  unfold validate_binding_entry, binding_slots. rewrite bind_unit_Ok, bind_Ok.
  setoid_rewrite bind_unit_Ok. setoid_rewrite checked_total_Ok.
  assert (match dynamic_collection b with
          | Some collection => ensure (bool_decide (is_Some (m !! collection)))
              (Fail (Fmt "persisted snapshot scene references missing collection {collection:?}"
                       [AStr (CollectionId_as_str collection)]))
          | None => Ok tt end = Ok tt ↔
    ∀ c, dynamic_collection b = Some c → is_Some (m !! c)) as ->.
  { destruct (dynamic_collection b); [rewrite ensure_Ok, bool_decide_eq_true|]; naive_solver. }
  destruct (sts_appearance_slots _); simpl; [setoid_rewrite validate_unique_slots_Ok; naive_solver|].
  unfold usize_len; simpl. split.
  - intros (Hd & x & (-> & Hx) & _ & [= <-]). split_and!; [done|constructor|done|done].
  - intros ([? _] & -> & ?). split; [done|]. eexists. split; [by split|done].
Qed.

Lemma u64_0 : u64 0.
Proof. width. Qed.

Lemma binding_entries_Ok m s l s' :
  u64 s → try_fold (validate_binding_entry m) s l = Ok s' ↔
  Forall (λ b, (∀ c, dynamic_collection b = Some c → is_Some (m !! c)) ∧
               NoDup (asv_slot <$> binding_slots b)) l ∧
  s' = (s + total (λ b, usize_len (binding_slots b)) l)%Z ∧ u64 s'.
Proof.
  intros Hs. apply counting_loop; [intros; apply usize_len_nonneg| |done].
  intros; apply binding_entry_Ok.
Qed.

(** A valid scene has no repeated slots in a binding. *)
Lemma Scene_wf_slots is_uuid s :
  Scene_wf is_uuid s → Forall (λ b, NoDup (asv_slot <$> binding_slots b)) (scene_bindings s).
Proof.
  intros (_ & _ & _ & Hb & _). eapply Forall_impl; [done|]. intros b (_ & _ & Hs & _).
  unfold binding_slots. destruct (sts_appearance_slots _) as [l|]; [by apply Hs|constructor].
Qed.

Definition scene_bindings_count (s : Scene) : Z := usize_len (scene_bindings s).
Definition scene_slots_count (s : Scene) : Z :=
  total (λ b, usize_len (binding_slots b)) (scene_bindings s).

Lemma scene_entry_Ok m scenes b s id b' s' :
  u64 b → u64 s →
  validate_scene_entry m scenes (b, s) id = Ok (b', s') ↔
  (∃ c, scenes !! id = Some c ∧ scene_entry_wf m id c) ∧
  b' = (b + from_option scene_bindings_count 0 (scenes !! id))%Z ∧
  s' = (s + from_option scene_slots_count 0 (scenes !! id))%Z ∧ u64 b' ∧ u64 s'.
Proof.
  intros Hb Hs. unfold validate_scene_entry, scene_entry_wf. rewrite bind_Ok.
  setoid_rewrite ok_or_Ok. destruct (scenes !! id) as [c|]; simpl; [|naive_solver].
  assert (∀ P : Scene → Prop, (∃ a, Some c = Some a ∧ P a) ↔ P c) as Hone by naive_solver.
  rewrite !Hone, !bind_unit_Ok, ensure_Ok, bool_decide_eq_true, opt_text_Ok, map_err_Ok,
    Scene_validate_Ok.
  unfold validate_text. rewrite validate_count_Ok, bind_Ok.
  setoid_rewrite checked_total_Ok. setoid_rewrite bind_Ok. setoid_rewrite bind_unit_Ok.
  setoid_rewrite binding_entries_Ok; [|done]. setoid_rewrite validate_object_size_Ok.
  setoid_rewrite Forall_and. unfold text_fits, scene_bindings_count, scene_slots_count.
  pose proof (Scene_wf_slots env_is_uuid c) as Hslots. naive_solver.
Qed.
End entries.

Section complete.
Context `{Env}.

(** [validate_complete]: the check behind [ensure_persistable]. *)
Definition validate_complete (target_state : list TargetStateEntry)
    (collections : gmap CollectionId Collection) (scenes : gmap SceneId Scene)
    (adopted_baseline : list AdoptedFacet) : checked_snapshot unit :=
  _ ← ValidatedPersistedSnapshot_new
        {| ps_version := PERSISTENCE_VERSION; ps_targets := target_state;
           ps_collections := collections; ps_scenes := scenes;
           ps_adopted_baseline := adopted_baseline |};
  Ok tt.

Lemma elem_of_scene_keys (m : gmap SceneId Scene) id : id ∈ scene_keys m ↔ is_Some (m !! id).
Proof. unfold scene_keys. rewrite merge_sort_Permutation, elem_of_elements. apply elem_of_dom. Qed.

Lemma scene_entries_Ok m scenes s b' s' :
  u64 s →
  try_fold (validate_scene_entry m scenes) (0%Z, s) (scene_keys scenes) = Ok (b', s') ↔
  map_Forall (scene_entry_wf m) scenes ∧
  b' = total scene_bindings_count (scene_entries scenes) ∧
  s' = (s + total scene_slots_count (scene_entries scenes))%Z ∧ u64 b' ∧ u64 s'.
Proof.
  intros Hs. unfold scene_entries.
  rewrite (counting_loop2 (validate_scene_entry m scenes)
    (λ id, ∃ c, scenes !! id = Some c ∧ scene_entry_wf m id c)
    (λ id, from_option scene_bindings_count 0%Z (scenes !! id))
    (λ id, from_option scene_slots_count 0%Z (scenes !! id))).
  - rewrite !total_omap, Z.add_0_l.
    assert (Forall (λ id, ∃ c, scenes !! id = Some c ∧ scene_entry_wf m id c) (scene_keys scenes) ↔
      map_Forall (scene_entry_wf m) scenes) as ->; [|done].
    rewrite Forall_forall. setoid_rewrite elem_of_scene_keys. split.
    + intros H' id c Hc. destruct (H' id) as (c' & Hc' & ?); [by exists c|]. congruence.
    + intros H' id [c Hc]. exists c. split; [done|]. by apply H'.
  - intros id. destruct (scenes !! id); simpl; [apply usize_len_nonneg|lia].
  - intros id. destruct (scenes !! id); simpl; [|lia].
    apply total_nonneg. intros; apply usize_len_nonneg.
  - intros; by apply scene_entry_Ok.
  - apply u64_0.
  - done.
Qed.

Lemma target_entries_Ok l s' :
  try_fold validate_target_entry 0%Z l = Ok s' ↔
  Forall (λ e, NoDup (asv_slot <$> entry_slots e)) l ∧
  s' = total (λ e, usize_len (entry_slots e)) l ∧ u64 s'.
Proof.
  rewrite (counting_loop validate_target_entry (λ e, NoDup (asv_slot <$> entry_slots e))
    (λ e, usize_len (entry_slots e))); [done|intros; apply usize_len_nonneg| |apply u64_0].
  intros; by apply target_entry_Ok.
Qed.

Lemma adopted_entries_Ok s l s' :
  u64 s → try_fold validate_adopted_entry s l = Ok s' ↔
  Forall (λ f, NoDup (asv_slot <$> facet_slots f)) l ∧
  s' = (s + total (λ f, usize_len (facet_slots f)) l)%Z ∧ u64 s'.
Proof.
  intros Hs. apply counting_loop; [intros; apply usize_len_nonneg| |done].
  intros; by apply adopted_entry_Ok.
Qed.

Lemma snapshot_sound st st' : ValidatedPersistedSnapshot_new st = Ok st' → st' = st ∧ snapshot_wf st.
Proof.
  unfold ValidatedPersistedSnapshot_new. rewrite !bind_unit_Ok, !validate_count_Ok, bind_Ok.
  intros (H1 & H2 & H3 & H4 & members & Hm & Hrest).
  apply collection_entries_Ok in Hm as (Hc & -> & _).
  rewrite !bind_unit_Ok, validate_count_Ok, validate_graph_Ok, bind_Ok in Hrest.
  destruct Hrest as (H5 & Hg & slots & Ht & Hrest). apply target_entries_Ok in Ht as (Ht & -> & Hu).
  rewrite bind_Ok in Hrest. destruct Hrest as ([bindings slots'] & Hs & Hrest).
  apply scene_entries_Ok in Hs as (Hs & -> & -> & _ & Hu'); [|done].
  rewrite bind_Ok in Hrest. destruct Hrest as (slots'' & Ha & Hrest).
  apply adopted_entries_Ok in Ha as (Ha & -> & _); [|done].
  rewrite !bind_unit_Ok, !validate_count_Ok, bind_Ok in Hrest.
  destruct Hrest as (H6 & H7 & n & Hn & Hrest). rewrite map_err_Ok in Hn.
  rewrite bind_unit_Ok, validate_count_Ok in Hrest. destruct Hrest as (H8 & [= <-]).
  split; [done|]. split; try done. by exists n.
Qed.

Lemma snapshot_complete st : snapshot_wf st → ValidatedPersistedSnapshot_new st = Ok st.
Proof.
  intros [H1 H2 H3 H4 Hc H5 Hg Hs Ht Ha H6 H7 (n & Hn & H8)].
  assert (∀ z, (0 <= z <= 100000)%Z → u64 z) as Hfit by (intros; width).
  pose proof (total_nonneg (λ e, usize_len (entry_slots e)) (ps_targets st)
    (λ _, usize_len_nonneg _)) as P1.
  pose proof (total_nonneg scene_slots_count (scene_entries (ps_scenes st))
    (λ s, total_nonneg _ _ (λ _, usize_len_nonneg _))) as P2.
  pose proof (total_nonneg (λ f, usize_len (facet_slots f)) (ps_adopted_baseline st)
    (λ _, usize_len_nonneg _)) as P3.
  pose proof (total_nonneg scene_bindings_count (scene_entries (ps_scenes st))
    (λ _, usize_len_nonneg _)) as P4.
  pose proof (total_nonneg (λ c, usize_len (collection_members c))
    (collection_entries (ps_collections st)) (λ _, usize_len_nonneg _)) as P5.
  unfold slot_total, MAX_APPEARANCE_SLOT_VALUES, MAX_SCENE_BINDINGS, MAX_COLLECTION_MEMBERS in *.
  change (λ s, total (λ b, usize_len (binding_slots b)) (scene_bindings s)) with scene_slots_count
    in H7.
  change (λ s, usize_len (scene_bindings s)) with scene_bindings_count in H6.
  unfold ValidatedPersistedSnapshot_new. rewrite !bind_unit_Ok, !validate_count_Ok, bind_Ok.
  split_and!; [done..|]. eexists. split.
  { apply collection_entries_Ok. split_and!; [done..|]. apply Hfit. lia. }
  rewrite !bind_unit_Ok, validate_count_Ok, validate_graph_Ok, bind_Ok. split_and!; [done..|].
  eexists. split; [apply target_entries_Ok; split_and!; [done..|apply Hfit; lia]|].
  rewrite bind_Ok. eexists (_, _). split.
  { apply scene_entries_Ok; [apply Hfit; lia|]. split_and!; [done..|apply Hfit; lia|apply Hfit; lia]. }
  rewrite bind_Ok. eexists. split.
  { apply adopted_entries_Ok; [apply Hfit; lia|]. split_and!; [done..|apply Hfit; lia]. }
  rewrite !bind_unit_Ok, !validate_count_Ok, bind_Ok. split_and!; [done..|].
  exists n. rewrite map_err_Ok, bind_unit_Ok, validate_count_Ok. done.
Qed.

Lemma validate_complete_Ok targets collections scenes adopted :
  validate_complete targets collections scenes adopted = Ok tt ↔
  snapshot_wf {| ps_version := PERSISTENCE_VERSION; ps_targets := targets;
                 ps_collections := collections; ps_scenes := scenes;
                 ps_adopted_baseline := adopted |}.
Proof.
  unfold validate_complete. rewrite bind_Ok. split.
  - by intros (st' & [-> ?]%snapshot_sound & _).
  - intros Hwf. eexists. split; [by apply snapshot_complete|done].
Qed.
End complete.

(** ** Claims *)

(** The iterative search over persisted collections accepts a registry exactly
    when every collection resolves: all nested references exist and none is
    cyclic.  An error names a missing collection some collection refers to, or a
    collection that contains itself; the search always terminates. *)
Theorem collection_graph_correct m :
  match validate_collection_graph m with
  | Ok _ => ∀ id, is_Some (m !! id) → good (map_graph m) id
  | Err (Fail e) =>
      (∃ x, is_Some (m !! x) ∧ ¬ good (map_graph m) x) ∧
      ((∃ x y, nests (map_graph m) x y ∧ m !! y = None ∧ e = missing_collection y) ∨
       (∃ x, tc (nests (map_graph m)) x x ∧ e = cyclic_collection x))
  | Err Fuel => False
  end.
Proof.
  pose proof (validate_graph_spec m) as H.
  destruct (validate_collection_graph m) as [?|[|e]]; [done..|].
  split; [by eapply graph_error_not_good|exact H].
Qed.

(** C32: A snapshot passes validation exactly when it is inside every resource limit
    and structurally consistent: keys match identifiers, memberships and slots are
    not repeated, collections resolve, scenes are valid and refer to existing
    collections.  The running totals cannot overflow on an accepted snapshot, and
    the snapshot is not altered. *)
Theorem snapshot_correct `{Env} st st' :
  ValidatedPersistedSnapshot_new st = Ok st' ↔ st' = st ∧ snapshot_wf st.
Proof.
  split; [apply snapshot_sound|]. intros [-> Hwf]. by apply snapshot_complete.
Qed.

(** A concrete environment for the witnesses: identifiers of 36 characters and a
    fixed encoding length per object. *)
Definition sample_env : Env := {|
  env_is_uuid := λ s, String.length s =? 36;
  env_collection_bytes := λ _, Ok 100%Z;
  env_scene_bytes := λ _, Ok 200%Z;
  env_state_bytes := λ st, Ok (100 + 50 * usize_len (ps_targets st))%Z;
  env_kelvin_to_rgb := λ _, Rgb_new 255 200 150
|}.
