(* ===== verification/Validation.v ===== *)
(** * Mutation validation: [luminated/src/state/validation.rs]

    Whether a colour, effect, brightness or appearance-slot value may be applied to
    a target, given what the target advertises.  The trait [AppearanceCapabilities],
    implemented by a target's capability set and by a slot's appearance, is a type
    class.  A message keeps its template and the values put into it. *)

From S2P Require Import Prelude Model Colours Scenes Daemon Topology Graph Persistence.

Class AppearanceCapabilities (A : Type) := {
  cap_colour : A → list ColourCapability;
  cap_cct_emulation : A → CctEmulation;
  cap_hardware_effects : A → option HardwareEffectsCapability
}.
#[export] Instance CapabilitySet_appearance : AppearanceCapabilities CapabilitySet := {|
  cap_colour := cs_colour;
  cap_cct_emulation := cs_cct_emulation;
  cap_hardware_effects := cs_hardware_effects
|}.
#[export] Instance AppearanceCapability_appearance : AppearanceCapabilities AppearanceCapability := {|
  cap_colour := ac_colour;
  cap_cct_emulation := ac_cct_emulation;
  cap_hardware_effects := ac_hardware_effects
|}.

Definition encoding_name (e : ColourEncoding) : string :=
  match e with
  | ColourEncoding_Additive => "Additive" | ColourEncoding_Hsv => "Hsv"
  | ColourEncoding_Hsl => "Hsl" | ColourEncoding_Cct => "Cct"
  | ColourEncoding_Monochrome => "Monochrome"
  end.
Definition scope_name (s : CapabilityScope) : string :=
  match s with
  | Scope_Element => "Element" | Scope_Surface => "Surface" | Scope_Device => "Device"
  | Scope_Controller => "Controller"
  end.

(** [1_u32 << bits] cannot overflow on [1..=31]. *)
Definition maximum_for_bits (bits : Z) : option Z :=
  if (1 <=? bits)%Z && (bits <=? 31)%Z then Some (Z.shiftl 1 bits - 1)%Z
  else if (bits =? 32)%Z then Some (uN_max 32)
  else None.

Definition validate_scope (target : TargetId) (scope : CapabilityScope) : daemon unit :=
  let expected :=
    match target with
    | TargetId_Device _ | TargetId_Group _ _ => Scope_Device
    | TargetId_Surface _ _ => Scope_Surface
    | TargetId_Element _ _ _ => Scope_Element
    end in
  if bool_decide (scope ≠ expected)
  then Err (unsupported target
              (Fmt "capability scope is {scope:?}, target requires {expected:?}"
                 [AStr (scope_name scope); AStr (scope_name expected)]))
  else Ok tt.

(** ** Colours *)

Definition capability_matches_colour (capability : ColourCapability) (colour : Colour) : bool :=
  match capability, colour with
  | ColourCapability_Additive _, Colour_Additive _
  | ColourCapability_Hsv _ _ _, Colour_Hsv _ _ _
  | ColourCapability_Hsl _ _ _, Colour_Hsl _ _ _
  | ColourCapability_Cct _, Colour_Cct _
  | ColourCapability_Monochrome _, Colour_Monochrome _ => true
  | _, _ => false
  end.

Definition validate_fixed_channel (target : TargetId) (channel : string * Z * Z) : daemon unit :=
  let '(name, value, bits) := channel in
  match maximum_for_bits bits with
  | None =>
      Err (unsupported target
             (Fmt "advertised {name} channel has invalid bit width {bits}" [AStr name; ANum bits]))
  | Some maximum =>
      if (maximum <? value)%Z
      then Err (invalid target
                  (Fmt "{name} value {value} exceeds {maximum} for {bits} bits"
                     [AStr name; ANum value; ANum maximum; ANum bits]))
      else Ok tt
  end.

Definition validate_fixed_channels (target : TargetId) (channels : list (string * Z * Z)) :
    daemon unit :=
  try_for (validate_fixed_channel target) channels.

Definition validate_additive_channel (target : TargetId)
    (channels : list ColourChannelCapability) (value : ColourChannelValue) : daemon unit :=
  match List.find (λ c, bool_decide (ccc_channel c = ccv_channel value)) channels with
  | None =>
      Err (invalid target (Fmt "channel {:?} is not advertised"
                             [AStr (ColourChannel_as_str (ccv_channel value))]))
  | Some channel =>
      match maximum_for_bits (ccc_bits channel) with
      | None =>
          Err (unsupported target
                 (Fmt "advertised channel {:?} has invalid bit width {}"
                    [AStr (ColourChannel_as_str (ccv_channel value)); ANum (ccc_bits channel)]))
      | Some maximum =>
          if (maximum <? ccv_value value)%Z
          then Err (invalid target
                      (Fmt "channel {:?} value {} exceeds {maximum} for {} bits"
                         [AStr (ColourChannel_as_str (ccv_channel value));
                          ANum (ccv_value value); ANum maximum; ANum (ccc_bits channel)]))
          else Ok tt
      end
  end.

Definition validate_colour_channels (target : TargetId) (colour : Colour)
    (capability : ColourCapability) : daemon unit :=
  match colour, capability with
  | Colour_Additive values, ColourCapability_Additive channels =>
      if negb (bool_decide (length values = length channels))
      then Err (invalid target
                  (Fmt "colour requires exactly {} channels, received {}"
                     [ANum (usize_len channels); ANum (usize_len values)]))
      else try_for (validate_additive_channel target channels) values
  | Colour_Hsv hue saturation value, ColourCapability_Hsv hue_bits saturation_bits value_bits =>
      validate_fixed_channels target
        [("hue"%string, hue, hue_bits); ("saturation"%string, saturation, saturation_bits);
         ("value"%string, value, value_bits)]
  | Colour_Hsl hue saturation lightness,
    ColourCapability_Hsl hue_bits saturation_bits lightness_bits =>
      validate_fixed_channels target
        [("hue"%string, hue, hue_bits); ("saturation"%string, saturation, saturation_bits);
         ("lightness"%string, lightness, lightness_bits)]
  | Colour_Cct kelvin, ColourCapability_Cct bits =>
      validate_fixed_channels target [("temperature"%string, kelvin, bits)]
  | Colour_Monochrome intensity, ColourCapability_Monochrome bits =>
      validate_fixed_channels target [("intensity"%string, intensity, bits)]
  | _, _ => Err (invalid target (Lit "colour model does not match capability"))
  end.

Definition is_additive_capability (c : ColourCapability) : bool :=
  match c with ColourCapability_Additive _ => true | _ => false end.

Section colours.
Context `{Env} {A : Type} `{AppearanceCapabilities A}.

(** The second half of [resolve_colour_for_appearance]: emulation of [Cct]. *)
Definition emulate_cct (target : TargetId) (colour : Colour) (capabilities : A)
    (override : option CctEmulation) : option (daemon Colour) :=
  if bool_decide (Colour_encoding colour = ColourEncoding_Cct) then
    let emulation :=
      if bool_decide (cap_cct_emulation capabilities = CctEmulation_Disabled)
      then CctEmulation_Disabled else default CctEmulation_Auto override in
    match emulation, Colour_channel colour Temperature,
          List.find is_additive_capability (cap_colour capabilities) with
    | CctEmulation_Auto, Some kelvin, Some capability =>
        let emulated := Colour_rgb (env_kelvin_to_rgb kelvin) in
        Some (_ ← validate_colour_channels target emulated capability; Ok emulated)
    | _, _, _ => None
    end
  else None.

Definition resolve_colour_for_appearance (target : TargetId) (colour : Colour)
    (capabilities : A) (override : option CctEmulation) : daemon Colour :=
  match List.find (λ c, capability_matches_colour c colour) (cap_colour capabilities) with
  | Some capability =>
      _ ← validate_colour_channels target colour capability;
      Ok colour
  | None =>
      match emulate_cct target colour capabilities override with
      | Some r => r
      | None =>
          if bool_decide (cap_colour capabilities = [])
          then Err (unsupported target (Lit "target has no colour capability"))
          else Err (invalid target
                      (Fmt "colour encoding {:?} does not match any advertised encoding"
                         [AStr (encoding_name (Colour_encoding colour))]))
      end
  end.
End colours.

(** ** Effects *)

Section find.
Context {A : Type} `{AppearanceCapabilities A}.

Definition find_effect (capabilities : A) (id : string) : option HardwareEffectDescriptor :=
  effects ← cap_hardware_effects capabilities;
  List.find (λ e, bool_decide (HardwareEffectId_as_str (hed_id e) = id)) (hec_effects effects).
End find.

Definition range_text (template : string) (value : Z) (r : DiscreteRange) : Text :=
  Fmt template [ANum value; ANum (range_min r); ANum (range_max r); ANum (range_step r)].

Definition colour_count_text (minimum maximum count : Z) : Text :=
  Fmt "effect requires {minimum_colours}..={maximum_colours} colours, received {count}"
    [ANum minimum; ANum maximum; ANum count].

(** The colours and the period of an effect with typed parameters. *)
Definition typed_parameters (effect : Effect) : option (option Z * Z) :=
  match effect with
  | Effect_Breathe _ period_ms | Effect_Pulse _ period_ms | Effect_Strobe _ period_ms
  | Effect_Scanner _ period_ms => Some (Some 1%Z, period_ms)
  | Effect_Morph colours period_ms => Some (Some (usize_len colours), period_ms)
  | Effect_Spectrum period_ms | Effect_Rainbow period_ms => Some (None, period_ms)
  | Effect_Off | Effect_Static _ | Effect_Hardware _ _ => None
  end.

(** One parameter of the descriptor, on the flags [(saw_colour, saw_duration)]. *)
Definition check_parameter (target : TargetId) (colour_count : option Z) (period_ms : Z)
    (saw : bool * bool) (parameter : EffectParameter) : daemon (bool * bool) :=
  let '(saw_colour, saw_duration) := saw in
  match parameter with
  | EffectParameter_Colour minimum_colours maximum_colours =>
      if saw_colour then Err (unsupported target (Lit "duplicate colour effect parameter"))
      else match colour_count with
           | None => Err (invalid target (Lit "effect does not accept colour parameters"))
           | Some count =>
               if (count <? minimum_colours)%Z || (maximum_colours <? count)%Z
               then Err (invalid target (colour_count_text minimum_colours maximum_colours count))
               else Ok (true, saw_duration)
           end
  | EffectParameter_Duration milliseconds =>
      if saw_duration then Err (unsupported target (Lit "duplicate duration effect parameter"))
      else if negb (DiscreteRange_contains milliseconds period_ms)
      then Err (invalid target
                  (range_text "effect duration {period_ms}ms is outside {}..={} step {}"
                     period_ms milliseconds))
      else Ok (saw_colour, true)
  | EffectParameter_Speed _ | EffectParameter_Direction _ | EffectParameter_Brightness _
  | EffectParameter_Choice _ =>
      Err (unsupported target
             (Lit "effect descriptor requires a parameter absent from the wire effect"))
  end.

Definition validate_effect_parameters (target : TargetId)
    (descriptor : HardwareEffectDescriptor) (effect : Effect) : daemon unit :=
  match typed_parameters effect with
  | None => Ok tt
  | Some (colour_count, period_ms) =>
      '(saw_colour, saw_duration) ←
        try_fold (check_parameter target colour_count period_ms)
          (bool_decide (colour_count = None), false) (hed_parameters descriptor);
      if negb saw_colour || negb saw_duration
      then Err (unsupported target (Lit "effect descriptor does not bound all wire parameters"))
      else Ok tt
  end.

Definition check_argument (target : TargetId) (arguments : EffectArguments)
    (parameter : EffectParameter) : daemon unit :=
  match parameter with
  | EffectParameter_Colour minimum_colours maximum_colours =>
      let count := usize_len (ea_colours arguments) in
      if (count <? minimum_colours)%Z || (maximum_colours <? count)%Z
      then Err (invalid target (colour_count_text minimum_colours maximum_colours count))
      else Ok tt
  | EffectParameter_Speed range =>
      value ← ok_or (ea_speed arguments)
                (invalid target (Lit "effect requires a speed argument"));
      if negb (DiscreteRange_contains range value)
      then Err (invalid target
                  (range_text "speed {value} is outside {}..={} step {}" value range))
      else Ok tt
  | EffectParameter_Direction values =>
      value ← ok_or (ea_direction arguments)
                (invalid target (Lit "effect requires a direction argument"));
      if negb (bool_decide (value ∈ values))
      then Err (invalid target (Lit "direction is not among the advertised values"))
      else Ok tt
  | EffectParameter_Duration milliseconds =>
      value ← ok_or (ea_duration_ms arguments)
                (invalid target (Lit "effect requires a duration argument"));
      if negb (DiscreteRange_contains milliseconds value)
      then Err (invalid target
                  (range_text "duration {value}ms is outside {}..={} step {}" value milliseconds))
      else Ok tt
  | EffectParameter_Brightness bits =>
      value ← ok_or (ea_brightness arguments)
                (invalid target (Lit "effect requires a brightness argument"));
      maximum ← ok_or (maximum_for_bits bits)
                  (unsupported target
                     (Fmt "advertised brightness has invalid bit width {bits}" [ANum bits]));
      if (maximum <? value)%Z
      then Err (invalid target
                  (Fmt "brightness {value} exceeds {maximum} for {bits} bits"
                     [ANum value; ANum maximum; ANum bits]))
      else Ok tt
  | EffectParameter_Choice options =>
      value ← ok_or (ea_choice arguments)
                (invalid target (Lit "effect requires a choice argument"));
      if negb (existsb (λ option, bool_decide (choice_id option = value)) options)
      then Err (invalid target (Fmt "choice {value:?} is not an advertised option" [AStr value]))
      else Ok tt
  end.

Definition reject_undeclared_arguments (target : TargetId)
    (descriptor : HardwareEffectDescriptor) (arguments : EffectArguments) : daemon unit :=
  let declares (matches : EffectParameter → bool) := existsb matches (hed_parameters descriptor) in
  let reject (supplied : bool) (matches : EffectParameter → bool) (reason : string) : daemon unit :=
    if supplied && negb (declares matches) then Err (invalid target (Lit reason)) else Ok tt in
  _ ← reject (negb (bool_decide (ea_colours arguments = [])))
        (λ p, match p with EffectParameter_Colour _ _ => true | _ => false end)
        "effect does not accept colour arguments";
  _ ← reject (bool_decide (is_Some (ea_speed arguments)))
        (λ p, match p with EffectParameter_Speed _ => true | _ => false end)
        "effect does not accept a speed argument";
  _ ← reject (bool_decide (is_Some (ea_direction arguments)))
        (λ p, match p with EffectParameter_Direction _ => true | _ => false end)
        "effect does not accept a direction argument";
  _ ← reject (bool_decide (is_Some (ea_duration_ms arguments)))
        (λ p, match p with EffectParameter_Duration _ => true | _ => false end)
        "effect does not accept a duration argument";
  _ ← reject (bool_decide (is_Some (ea_brightness arguments)))
        (λ p, match p with EffectParameter_Brightness _ => true | _ => false end)
        "effect does not accept a brightness argument";
  reject (bool_decide (is_Some (ea_choice arguments)))
    (λ p, match p with EffectParameter_Choice _ => true | _ => false end)
    "effect does not accept a choice argument".

Definition validate_hardware_arguments (target : TargetId)
    (descriptor : HardwareEffectDescriptor) (arguments : EffectArguments) : daemon unit :=
  _ ← try_for (check_argument target arguments) (hed_parameters descriptor);
  reject_undeclared_arguments target descriptor arguments.

Section effects.
Context `{Env} {A : Type} `{AppearanceCapabilities A}.

Definition effect_not_advertised (target : TargetId) (effect : Effect) : DaemonError :=
  unsupported target (Fmt "effect {} is not advertised" [AStr (capability_id effect)]).

Definition validate_effect_for_appearance (target : TargetId) (effect : Effect)
    (capabilities : A) (override : option CctEmulation) : daemon unit :=
  match effect with
  | Effect_Off =>
      if negb (bool_decide (cap_colour capabilities = [])) ||
         bool_decide (is_Some (find_effect capabilities (capability_id effect)))
      then Ok tt
      else Err (unsupported target (Lit "target cannot be turned off"))
  | Effect_Static colour =>
      _ ← resolve_colour_for_appearance target colour capabilities override; Ok tt
  | _ =>
      effects ← ok_or (cap_hardware_effects capabilities) (effect_not_advertised target effect);
      descriptor ← ok_or
        (List.find (λ d, bool_decide (HardwareEffectId_as_str (hed_id d) = capability_id effect))
           (hec_effects effects)) (effect_not_advertised target effect);
      _ ← validate_scope target (hec_scope effects);
      match effect with
      | Effect_Hardware _ arguments => validate_hardware_arguments target descriptor arguments
      | _ => validate_effect_parameters target descriptor effect
      end
  end.
End effects.

(** ** Targets *)

(** [known_appearance_slot_values] of [state/target_state.rs]. *)
Definition known_appearance_slot_values (st : DaemonState) (target : TargetId) :
    list AppearanceSlotValue :=
  let known :=
    filter (λ f, af_target f = target) (ds_adopted_baseline st) ≫= λ f,
      match af_value f with Facet_AppearanceSlots slots => ass_values slots | _ => [] end in
  fold_left (λ known entry,
      match tse_state entry with
      | TS_AppearanceSlots values => values
      | TS_Clear => []
      | TS_Effect _ | TS_Brightness _ => known
      end)
    (filter (λ e, tse_target e = target) (ds_target_state st)) known.

Section state.
Context `{Env}.

(** The checks that every slot value passes, on the identifiers seen. *)
Definition slot_descriptor (target : TargetId) (slots : AppearanceSlotsCapability)
    (seen : gset AppearanceSlotId) (value : AppearanceSlotValue) :
    daemon AppearanceSlotDescriptor :=
  if bool_decide (asv_slot value ∈ seen)
  then Err (invalid target (Fmt "appearance slot {:?} occurs more than once"
                              [AStr (AppearanceSlotId_as_str (asv_slot value))]))
  else ok_or (List.find (λ d, bool_decide (asd_id d = asv_slot value)) (asc_slots slots))
         (invalid target (Fmt "unknown appearance slot {:?}"
                            [AStr (AppearanceSlotId_as_str (asv_slot value))])).

Definition observe_slot (st : DaemonState) (target : TargetId) (slots : AppearanceSlotsCapability)
    (seen : gset AppearanceSlotId) (value : AppearanceSlotValue) :
    daemon (gset AppearanceSlotId) :=
  descriptor ← slot_descriptor target slots seen value;
  _ ← validate_effect_for_appearance target (asv_effect value) (asd_appearance descriptor)
        (ds_cct_emulation_override st);
  Ok ({[asv_slot value]} ∪ seen).

Definition slots_of (st : DaemonState) (target : TargetId) : daemon AppearanceSlotsCapability :=
  capabilities ← capabilities_for_target_or_error st target;
  ok_or (cs_appearance_slots capabilities)
    (unsupported target (Lit "target does not advertise appearance slots")).

Definition validate_observed_appearance_slot_values (st : DaemonState) (target : TargetId)
    (values : list AppearanceSlotValue) : daemon bool :=
  if bool_decide (length values = 0)
  then Err (invalid target (Lit "appearance-slot observation is empty"))
  else
    slots ← slots_of st target;
    seen ← try_fold (observe_slot st target slots) ∅ values;
    Ok (bool_decide (size seen = length (asc_slots slots))).

Definition resolve_slot (st : DaemonState) (target : TargetId) (slots : AppearanceSlotsCapability)
    (acc : gset AppearanceSlotId * list AppearanceSlotValue) (value : AppearanceSlotValue) :
    daemon (gset AppearanceSlotId * list AppearanceSlotValue) :=
  let '(seen, resolved) := acc in
  descriptor ← slot_descriptor target slots seen value;
  effect ← match asv_effect value with
           | Effect_Static colour =>
               colour ← resolve_colour_for_appearance target colour (asd_appearance descriptor)
                          (ds_cct_emulation_override st);
               Ok (Effect_Static colour)
           | effect =>
               _ ← validate_effect_for_appearance target effect (asd_appearance descriptor)
                     (ds_cct_emulation_override st);
               Ok effect
           end;
  Ok ({[asv_slot value]} ∪ seen,
      resolved ++ [{| asv_slot := asv_slot value; asv_effect := effect |}]).

(** The values added for the slots a [PartialIfKnown] update leaves out. *)
Definition complete_slot (target : TargetId) (known : list AppearanceSlotValue)
    (seen : gset AppearanceSlotId) (resolved : list AppearanceSlotValue)
    (descriptor : AppearanceSlotDescriptor) : daemon (list AppearanceSlotValue) :=
  if bool_decide (asd_id descriptor ∈ seen) then Ok resolved
  else
    value ← ok_or (List.find (λ v, bool_decide (asv_slot v = asd_id descriptor)) known)
              (DE_UnknownState target);
    Ok (resolved ++ [value]).

Definition validate_appearance_slot_values (st : DaemonState) (target : TargetId)
    (values : list AppearanceSlotValue) : daemon (list AppearanceSlotValue) :=
  match target with
  | TargetId_Surface _ _ =>
      if bool_decide (length values = 0)
      then Err (invalid target (Lit "appearance-slot mutation is empty"))
      else
        slots ← slots_of st target;
        '(seen, resolved) ← try_fold (resolve_slot st target slots) (∅, []) values;
        if bool_decide (size seen = length (asc_slots slots)) then Ok resolved
        else match asc_update_policy slots with
             | Independent => Ok resolved
             | PartialIfKnown =>
                 try_fold (complete_slot target (known_appearance_slot_values st target) seen)
                   resolved (asc_slots slots)
             | CompleteSet =>
                 Err (invalid target (Lit "appearance-slot mutation must include every slot"))
             end
  | _ => Err (DE_InvalidArgument target (Lit "appearance slots require one concrete surface"))
  end.

Definition resolve_colour (st : DaemonState) (target : TargetId) (colour : Colour) :
    daemon Colour :=
  capabilities ← capabilities_for_target_or_error st target;
  resolve_colour_for_appearance target colour capabilities (ds_cct_emulation_override st).

Definition validate_colour (st : DaemonState) (target : TargetId) (colour : Colour) : daemon unit :=
  _ ← resolve_colour st target colour; Ok tt.

Definition validate_effect (st : DaemonState) (target : TargetId) (effect : Effect) : daemon unit :=
  capabilities ← capabilities_for_target_or_error st target;
  validate_effect_for_appearance target effect capabilities (ds_cct_emulation_override st).

Definition validate_brightness (st : DaemonState) (target : TargetId) (value : Z) : daemon unit :=
  capabilities ← capabilities_for_target_or_error st target;
  match cs_brightness capabilities with
  | Brightness_None =>
      Err (unsupported target (Lit "target has no independent brightness capability"))
  | Brightness_Independent bits maximum scope =>
      _ ← validate_scope target scope;
      representable_maximum ← ok_or (maximum_for_bits bits)
        (unsupported target (Fmt "invalid brightness bit width {bits}" [ANum bits]));
      if (representable_maximum <? maximum)%Z
      then Err (unsupported target
                  (Fmt "brightness maximum {maximum} exceeds {bits}-bit representation"
                     [ANum maximum; ANum bits]))
      else if (maximum <? value)%Z
      then Err (invalid target
                  (Fmt "brightness {value} exceeds advertised maximum {maximum}"
                     [ANum value; ANum maximum]))
      else Ok tt
  end.

Definition validate_target_state (st : DaemonState) (target : TargetId) (state : TargetState) :
    daemon unit :=
  match state with
  | TS_Effect effect => validate_effect st target effect
  | TS_Brightness value => validate_brightness st target value
  | TS_AppearanceSlots values =>
      _ ← validate_appearance_slot_values st target values; Ok tt
  | TS_Clear => ensure_target_exists st target
  end.
End state.

(** ** What validation accepts *)

(** A value of a channel of the given width, which must be between 1 and 32. *)
Definition channel_fits (value bits : Z) : Prop := (1 <= bits <= 32 ∧ value < 2 ^ bits)%Z.

(** The first element with the given property. *)
Definition first_such {A} (p : A → bool) (l : list A) (x : A) : Prop := List.find p l = Some x.

Definition colour_fits (colour : Colour) (capability : ColourCapability) : Prop :=
  match colour, capability with
  | Colour_Additive values, ColourCapability_Additive channels =>
      length values = length channels ∧
      Forall (λ v, ∃ c, first_such (λ c, bool_decide (ccc_channel c = ccv_channel v)) channels c ∧
                        channel_fits (ccv_value v) (ccc_bits c)) values
  | Colour_Hsv h s v, ColourCapability_Hsv hb sb vb =>
      channel_fits h hb ∧ channel_fits s sb ∧ channel_fits v vb
  | Colour_Hsl h s l, ColourCapability_Hsl hb sb lb =>
      channel_fits h hb ∧ channel_fits s sb ∧ channel_fits l lb
  | Colour_Cct k, ColourCapability_Cct b => channel_fits k b
  | Colour_Monochrome i, ColourCapability_Monochrome b => channel_fits i b
  | _, _ => False
  end.

Definition scope_of (target : TargetId) : CapabilityScope :=
  match target with
  | TargetId_Device _ | TargetId_Group _ _ => Scope_Device
  | TargetId_Surface _ _ => Scope_Surface
  | TargetId_Element _ _ _ => Scope_Element
  end.

(** An argument that satisfies a declared parameter. *)
Definition argument_ok (arguments : EffectArguments) (p : EffectParameter) : Prop :=
  match p with
  | EffectParameter_Colour lo hi => (lo <= usize_len (ea_colours arguments) <= hi)%Z
  | EffectParameter_Speed r => ∃ v, ea_speed arguments = Some v ∧ DiscreteRange_contains r v = true
  | EffectParameter_Direction vs => ∃ v, ea_direction arguments = Some v ∧ v ∈ vs
  | EffectParameter_Duration r =>
      ∃ v, ea_duration_ms arguments = Some v ∧ DiscreteRange_contains r v = true
  | EffectParameter_Brightness bits =>
      ∃ v, ea_brightness arguments = Some v ∧ channel_fits v bits
  | EffectParameter_Choice os =>
      ∃ v, ea_choice arguments = Some v ∧ ∃ o, o ∈ os ∧ choice_id o = v
  end.

(** The descriptor is the complete contract: every parameter is satisfied and
    nothing undeclared is supplied. *)
Definition arguments_ok (d : HardwareEffectDescriptor) (arguments : EffectArguments) : Prop :=
  Forall (argument_ok arguments) (hed_parameters d) ∧
  (ea_colours arguments ≠ [] → ∃ lo hi, EffectParameter_Colour lo hi ∈ hed_parameters d) ∧
  (is_Some (ea_speed arguments) → ∃ r, EffectParameter_Speed r ∈ hed_parameters d) ∧
  (is_Some (ea_direction arguments) → ∃ vs, EffectParameter_Direction vs ∈ hed_parameters d) ∧
  (is_Some (ea_duration_ms arguments) → ∃ r, EffectParameter_Duration r ∈ hed_parameters d) ∧
  (is_Some (ea_brightness arguments) → ∃ b, EffectParameter_Brightness b ∈ hed_parameters d) ∧
  (is_Some (ea_choice arguments) → ∃ os, EffectParameter_Choice os ∈ hed_parameters d).

(** The descriptor bounds exactly the typed parameters of the effect: one duration
    and, where the effect has colours, one colour count. *)
Definition typed_ok (d : HardwareEffectDescriptor) (count : option Z) (period_ms : Z) : Prop :=
  ∃ r, DiscreteRange_contains r period_ms = true ∧
  match count with
  | None => hed_parameters d = [EffectParameter_Duration r]
  | Some n => ∃ lo hi, (lo <= n <= hi)%Z ∧
      hed_parameters d ≡ₚ [EffectParameter_Colour lo hi; EffectParameter_Duration r]
  end.

Lemma maximum_for_bits_fits value bits :
  (∃ maximum, maximum_for_bits bits = Some maximum ∧ (value <= maximum)%Z) ↔
  channel_fits value bits.
Proof.
  unfold maximum_for_bits, channel_fits.
  destruct ((1 <=? bits)%Z && (bits <=? 31)%Z) eqn:E; bool_prop.
  - rewrite Z.shiftl_1_l. split; [intros (? & [= <-] & ?); lia|]. intros ?. eexists. split; [done|lia].
  - destruct (Z.eqb_spec bits 32) as [->|].
    + unfold uN_max. split; [intros (? & [= <-] & ?); lia|]. intros ?. eexists. split; [done|lia].
    + split; [naive_solver|]. intros. lia.
Qed.

Lemma exceeds_Ok (o : option Z) value e (f : Z → DaemonError) :
  match o with
  | None => Err e
  | Some maximum => if (maximum <? value)%Z then Err (f maximum) else Ok tt
  end = Ok tt ↔ ∃ maximum, o = Some maximum ∧ (value <= maximum)%Z.
Proof.
  destruct o as [m|]; [|naive_solver]. rewrite guard_Ok, Z.ltb_ge. naive_solver.
Qed.

Lemma validate_fixed_channel_Ok target name value bits :
  validate_fixed_channel target (name, value, bits) = Ok tt ↔ channel_fits value bits.
Proof. unfold validate_fixed_channel. rewrite exceeds_Ok. apply maximum_for_bits_fits. Qed.

Lemma validate_additive_channel_Ok target channels v :
  validate_additive_channel target channels v = Ok tt ↔
  ∃ c, first_such (λ c, bool_decide (ccc_channel c = ccv_channel v)) channels c ∧
       channel_fits (ccv_value v) (ccc_bits c).
Proof.
  unfold validate_additive_channel, first_such.
  destruct (List.find _ channels) as [c|]; [|naive_solver].
  rewrite exceeds_Ok, maximum_for_bits_fits. naive_solver.
Qed.

Lemma validate_colour_channels_Ok target colour capability :
  validate_colour_channels target colour capability = Ok tt ↔ colour_fits colour capability.
Proof.
  unfold validate_colour_channels, colour_fits, validate_fixed_channels.
  destruct colour, capability; try done;
    rewrite ?guard_Ok, ?negb_false_iff, ?bool_decide_eq_true, try_for_Ok,
      ?Forall_cons, ?Forall_nil, ?validate_fixed_channel_Ok; [|tauto..].
  by setoid_rewrite validate_additive_channel_Ok.
Qed.

Lemma validate_scope_Ok target scope : validate_scope target scope = Ok tt ↔ scope = scope_of target.
Proof.
  unfold validate_scope. fold (scope_of target). case_bool_decide; naive_solver.
Qed.

Lemma check_argument_Ok target arguments p :
  check_argument target arguments p = Ok tt ↔ argument_ok arguments p.
Proof.
  destruct p as [lo hi|r|vs|r|bits|os]; simpl.
  - rewrite guard_Ok, orb_false_iff, !Z.ltb_ge. naive_solver.
  - rewrite bind_Ok. setoid_rewrite ok_or_Ok. setoid_rewrite guard_Ok.
    setoid_rewrite negb_false_iff. naive_solver.
  - rewrite bind_Ok. setoid_rewrite ok_or_Ok. setoid_rewrite guard_Ok.
    setoid_rewrite negb_false_iff. setoid_rewrite bool_decide_eq_true. naive_solver.
  - rewrite bind_Ok. setoid_rewrite ok_or_Ok. setoid_rewrite guard_Ok.
    setoid_rewrite negb_false_iff. naive_solver.
  - rewrite bind_Ok. setoid_rewrite ok_or_Ok. setoid_rewrite bind_Ok.
    setoid_rewrite ok_or_Ok. setoid_rewrite guard_Ok. setoid_rewrite Z.ltb_ge.
    setoid_rewrite <-maximum_for_bits_fits. naive_solver.
  - rewrite bind_Ok. setoid_rewrite ok_or_Ok. setoid_rewrite guard_Ok.
    setoid_rewrite negb_false_iff. setoid_rewrite existsb_exists.
    setoid_rewrite bool_decide_eq_true. setoid_rewrite <-list_elem_of_In. naive_solver.
Qed.

Lemma reject_Ok target supplied declared reason :
  (if supplied && negb declared then Err (invalid target reason) else Ok tt) = Ok tt ↔
  (supplied = true → declared = true).
Proof. destruct supplied, declared; simpl; naive_solver. Qed.

Lemma declares_true (p : EffectParameter → bool) l :
  existsb p l = true ↔ ∃ x, x ∈ l ∧ p x = true.
Proof. rewrite existsb_exists. by setoid_rewrite <-list_elem_of_In. Qed.

Lemma reject_undeclared_Ok target d arguments :
  reject_undeclared_arguments target d arguments = Ok tt ↔
  (ea_colours arguments ≠ [] → ∃ lo hi, EffectParameter_Colour lo hi ∈ hed_parameters d) ∧
  (is_Some (ea_speed arguments) → ∃ r, EffectParameter_Speed r ∈ hed_parameters d) ∧
  (is_Some (ea_direction arguments) → ∃ vs, EffectParameter_Direction vs ∈ hed_parameters d) ∧
  (is_Some (ea_duration_ms arguments) → ∃ r, EffectParameter_Duration r ∈ hed_parameters d) ∧
  (is_Some (ea_brightness arguments) → ∃ b, EffectParameter_Brightness b ∈ hed_parameters d) ∧
  (is_Some (ea_choice arguments) → ∃ os, EffectParameter_Choice os ∈ hed_parameters d).
Proof.
  unfold reject_undeclared_arguments. cbn zeta.
  rewrite !bind_unit_Ok, !reject_Ok, negb_true_iff, bool_decide_eq_false, !bool_decide_eq_true,
    !declares_true.
  split.
  - intros (H1 & H2 & H3 & H4 & H5 & H6). split_and!; intros Hs;
      [destruct (H1 Hs) as (x & Hx & Hp)|destruct (H2 Hs) as (x & Hx & Hp)
      |destruct (H3 Hs) as (x & Hx & Hp)|destruct (H4 Hs) as (x & Hx & Hp)
      |destruct (H5 Hs) as (x & Hx & Hp)|destruct (H6 Hs) as (x & Hx & Hp)];
      destruct x; try done; eauto.
  - intros (H1 & H2 & H3 & H4 & H5 & H6). split_and!; intros Hs;
      [destruct (H1 Hs) as (? & ? & Hx)|destruct (H2 Hs) as (? & Hx)
      |destruct (H3 Hs) as (? & Hx)|destruct (H4 Hs) as (? & Hx)
      |destruct (H5 Hs) as (? & Hx)|destruct (H6 Hs) as (? & Hx)]; eexists; by split.
Qed.

(** *** Typed effects *)

Section typed.
Context (target : TargetId) (count : option Z) (period_ms : Z).

Definition colour_parameter_ok (p : EffectParameter) : Prop :=
  ∃ lo hi n, p = EffectParameter_Colour lo hi ∧ count = Some n ∧ (lo <= n <= hi)%Z.
Definition duration_parameter_ok (p : EffectParameter) : Prop :=
  ∃ r, p = EffectParameter_Duration r ∧ DiscreteRange_contains r period_ms = true.

Lemma check_parameter_Ok sc sd p s' :
  check_parameter target count period_ms (sc, sd) p = Ok s' ↔
  (colour_parameter_ok p ∧ sc = false ∧ s' = (true, sd)) ∨
  (duration_parameter_ok p ∧ sd = false ∧ s' = (sc, true)).
Proof.
  unfold colour_parameter_ok, duration_parameter_ok.
  destruct p as [lo hi|r|vs|r|bits|os]; simpl; [| | | | |].
  - rewrite guard_Ok. destruct count as [n|]; [|naive_solver].
    rewrite guard_Ok, orb_false_iff, !Z.ltb_ge. naive_solver.
  - naive_solver.
  - naive_solver.
  - rewrite !guard_Ok, negb_false_iff. naive_solver.
  - naive_solver.
  - naive_solver.
Qed.

Notation check_all := (try_fold (check_parameter target count period_ms)).

Lemma check_all_cons sc sd p l s' :
  check_all (sc, sd) (p :: l) = Ok s' ↔
  (colour_parameter_ok p ∧ sc = false ∧ check_all (true, sd) l = Ok s') ∨
  (duration_parameter_ok p ∧ sd = false ∧ check_all (sc, true) l = Ok s').
Proof. simpl. rewrite bind_Ok. setoid_rewrite check_parameter_Ok. naive_solver. Qed.

Lemma check_all_both l s' : check_all (true, true) l = Ok s' ↔ l = [] ∧ s' = (true, true).
Proof. destruct l as [|p l]; [simpl; naive_solver|]. rewrite check_all_cons. naive_solver. Qed.

Lemma check_all_colour l :
  check_all (true, false) l = Ok (true, true) ↔ ∃ p, l = [p] ∧ duration_parameter_ok p.
Proof.
  destruct l as [|p l]; [simpl; naive_solver|]. rewrite check_all_cons, check_all_both. naive_solver.
Qed.

Lemma check_all_duration l :
  check_all (false, true) l = Ok (true, true) ↔ ∃ p, l = [p] ∧ colour_parameter_ok p.
Proof.
  destruct l as [|p l]; [simpl; naive_solver|]. rewrite check_all_cons, check_all_both. naive_solver.
Qed.

Lemma check_all_none l :
  check_all (false, false) l = Ok (true, true) ↔
  ∃ p q, l ≡ₚ [p; q] ∧ colour_parameter_ok p ∧ duration_parameter_ok q.
Proof.
  split.
  - destruct l as [|p l]; [done|]. rewrite check_all_cons, check_all_colour, check_all_duration.
    intros [(Hp & _ & q & -> & Hq)|(Hq & _ & p' & -> & Hp)]; [by exists p, q|].
    exists p', p. split; [apply Permutation_swap|done].
  - intros (p & q & Hl%symmetry%Permutation_length_2_inv & Hp & Hq).
    destruct Hl as [-> | ->]; rewrite check_all_cons, ?check_all_colour, ?check_all_duration;
      naive_solver.
Qed.
End typed.

Lemma validate_effect_parameters_Ok target d effect :
  validate_effect_parameters target d effect = Ok tt ↔
  match typed_parameters effect with
  | None => True
  | Some (count, period_ms) => typed_ok d count period_ms
  end.
Proof.
  unfold validate_effect_parameters. destruct (typed_parameters effect) as [[count period]|]; [|done].
  assert (∀ r : daemon (bool * bool),
    ('(sc, sd) ← r; if negb sc || negb sd
       then Err (unsupported target (Lit "effect descriptor does not bound all wire parameters"))
       else Ok tt) = Ok tt ↔ r = Ok (true, true)) as ->.
  { intros [[[] []]|]; simpl; naive_solver. }
  unfold typed_ok. destruct count as [n|].
  - rewrite bool_decide_false by done. rewrite check_all_none.
    unfold colour_parameter_ok, duration_parameter_ok. split.
    + intros (p & q & Hl & (lo & hi & n' & -> & [= <-] & Hn) & (r & -> & Hr)). eauto 10.
    + intros (r & Hr & lo & hi & Hn & Hl). exists (EffectParameter_Colour lo hi), (EffectParameter_Duration r).
      split_and!; [done| |]; eauto 10.
  - rewrite bool_decide_true by done. rewrite check_all_colour.
    unfold duration_parameter_ok. naive_solver.
Qed.

(** *** Effects and colours *)

Section appearance.
Context `{Env} {A : Type} `{AppearanceCapabilities A}.

(** The capability of the requested encoding; only the first one is consulted. *)
Definition native (caps : A) (colour : Colour) (c : ColourCapability) : Prop :=
  first_such (λ c, capability_matches_colour c colour) (cap_colour caps) c.

(** [colour] is applied as [c]: unchanged where the encoding is advertised, and
    otherwise, for a colour temperature, as an RGB approximation on an additive
    target that does not forbid emulation. *)
Definition resolves (caps : A) (override : option CctEmulation) (colour c : Colour) : Prop :=
  (∃ cap, native caps colour cap ∧ c = colour ∧ colour_fits colour cap) ∨
  ((∀ cap, ¬ native caps colour cap) ∧
   ∃ kelvin cap, colour = Colour_Cct kelvin ∧
     cap_cct_emulation caps ≠ CctEmulation_Disabled ∧ override ≠ Some CctEmulation_Disabled ∧
     first_such is_additive_capability (cap_colour caps) cap ∧
     c = Colour_rgb (env_kelvin_to_rgb kelvin) ∧ colour_fits c cap).

(** The effect may be applied to the target. *)
Definition effect_supported (target : TargetId) (caps : A) (override : option CctEmulation)
    (effect : Effect) : Prop :=
  let advertised (P : HardwareEffectDescriptor → Prop) :=
    ∃ effects d, cap_hardware_effects caps = Some effects ∧
      first_such (λ d, bool_decide (HardwareEffectId_as_str (hed_id d) = capability_id effect))
        (hec_effects effects) d ∧
      hec_scope effects = scope_of target ∧ P d in
  match effect with
  | Effect_Off => cap_colour caps ≠ [] ∨ is_Some (find_effect caps "off")
  | Effect_Static colour => ∃ c, resolves caps override colour c
  | Effect_Hardware _ arguments => advertised (λ d, arguments_ok d arguments)
  | _ => ∃ count period_ms, typed_parameters effect = Some (count, period_ms) ∧
           advertised (λ d, typed_ok d count period_ms)
  end.

Lemma emulate_cct_Some target colour caps override r :
  emulate_cct target colour caps override = Some r →
  ∃ kelvin cap, colour = Colour_Cct kelvin ∧
    cap_cct_emulation caps ≠ CctEmulation_Disabled ∧ override ≠ Some CctEmulation_Disabled ∧
    first_such is_additive_capability (cap_colour caps) cap ∧
    r = (_ ← validate_colour_channels target (Colour_rgb (env_kelvin_to_rgb kelvin)) cap;
         Ok (Colour_rgb (env_kelvin_to_rgb kelvin))).
Proof.
  unfold emulate_cct, first_such. case_bool_decide as He; [|done].
  destruct colour as [| | |kelvin|]; try done. simpl.
  destruct (List.find _ _) as [cap|]; [|by repeat case_match].
  case_bool_decide; [done|]. destruct override as [[]|]; simpl; [|done|];
    intros [= <-]; by exists kelvin, cap.
Qed.

Lemma emulate_cct_None target kelvin caps override cap :
  cap_cct_emulation caps ≠ CctEmulation_Disabled → override ≠ Some CctEmulation_Disabled →
  first_such is_additive_capability (cap_colour caps) cap →
  emulate_cct target (Colour_Cct kelvin) caps override =
    Some (_ ← validate_colour_channels target (Colour_rgb (env_kelvin_to_rgb kelvin)) cap;
          Ok (Colour_rgb (env_kelvin_to_rgb kelvin))).
Proof.
  intros Hd Ho Hc. unfold emulate_cct, first_such in *. rewrite bool_decide_true by done.
  rewrite bool_decide_false, Hc by done. simpl. by destruct override as [[]|].
Qed.

Lemma resolve_colour_Ok target colour caps override c :
  resolve_colour_for_appearance target colour caps override = Ok c ↔
  resolves caps override colour c.
Proof.
  unfold resolve_colour_for_appearance, resolves, native, first_such at 1 2 3.
  destruct (List.find _ (cap_colour caps)) as [cap|] eqn:E.
  - rewrite bind_unit_Ok, validate_colour_channels_Ok. naive_solver.
  - destruct (emulate_cct target colour caps override) as [r|] eqn:Em.
    + apply emulate_cct_Some in Em as (k & cap & -> & Hd & Ho & Hc & ->).
      rewrite bind_unit_Ok, validate_colour_channels_Ok. unfold first_such in *. split.
      * intros [Hf [= <-]]. right. split; [done|]. by exists k, cap.
      * intros [(? & ? & _)|(_ & k' & cap' & [= <-] & _ & _ & Hc' & -> & Hf)]; [done|].
        split; [congruence|done].
    + split; [by case_bool_decide|].
      intros [(? & ? & _)|(_ & k & cap & -> & Hd & Ho & Hc & _)]; [done|].
      by rewrite (emulate_cct_None _ _ _ _ cap) in Em.
Qed.

Lemma advertised_Ok target caps effect (k : HardwareEffectDescriptor → daemon unit) P :
  (∀ d, k d = Ok tt ↔ P d) →
  (effects ← ok_or (cap_hardware_effects caps) (effect_not_advertised target effect);
   descriptor ← ok_or
     (List.find (λ d, bool_decide (HardwareEffectId_as_str (hed_id d) = capability_id effect))
        (hec_effects effects)) (effect_not_advertised target effect);
   _ ← validate_scope target (hec_scope effects);
   k descriptor) = Ok tt ↔
  ∃ effects d, cap_hardware_effects caps = Some effects ∧
    first_such (λ d, bool_decide (HardwareEffectId_as_str (hed_id d) = capability_id effect))
      (hec_effects effects) d ∧
    hec_scope effects = scope_of target ∧ P d.
Proof.
  intros Hk. rewrite bind_Ok. setoid_rewrite ok_or_Ok. setoid_rewrite bind_Ok.
  setoid_rewrite ok_or_Ok. setoid_rewrite bind_unit_Ok. setoid_rewrite validate_scope_Ok.
  setoid_rewrite Hk. unfold first_such. naive_solver.
Qed.

Lemma validate_hardware_arguments_Ok target d arguments :
  validate_hardware_arguments target d arguments = Ok tt ↔ arguments_ok d arguments.
Proof.
  unfold validate_hardware_arguments, arguments_ok.
  rewrite bind_unit_Ok, try_for_Ok, reject_undeclared_Ok. by setoid_rewrite check_argument_Ok.
Qed.

Lemma validate_effect_Ok target effect caps override :
  validate_effect_for_appearance target effect caps override = Ok tt ↔
  effect_supported target caps override effect.
Proof.
  assert (∀ effect count period,
    typed_parameters effect = Some (count, period) →
    (effects ← ok_or (cap_hardware_effects caps) (effect_not_advertised target effect);
     descriptor ← ok_or
       (List.find (λ d, bool_decide (HardwareEffectId_as_str (hed_id d) = capability_id effect))
          (hec_effects effects)) (effect_not_advertised target effect);
     _ ← validate_scope target (hec_scope effects);
     validate_effect_parameters target descriptor effect) = Ok tt ↔
    ∃ effects d, cap_hardware_effects caps = Some effects ∧
      first_such (λ d, bool_decide (HardwareEffectId_as_str (hed_id d) = capability_id effect))
        (hec_effects effects) d ∧
      hec_scope effects = scope_of target ∧ typed_ok d count period) as Htyped.
  { intros e count period He. apply advertised_Ok. intros d.
    by rewrite validate_effect_parameters_Ok, He. }
  destruct effect.
  3-9: etrans; [eapply Htyped; reflexivity|]; unfold effect_supported; cbn [typed_parameters];
    naive_solver.
  all: simpl.
  - assert (∀ (b : bool) (e : DaemonError), (if b then Ok tt else Err e) = Ok tt ↔ b = true) as ->
      by (intros []; naive_solver).
    rewrite orb_true_iff, negb_true_iff, bool_decide_eq_false, bool_decide_eq_true. done.
  - rewrite bind_Ok. setoid_rewrite resolve_colour_Ok. naive_solver.
  - apply advertised_Ok. intros d. apply validate_hardware_arguments_Ok.
Qed.
End appearance.

(** *** Target states *)

Section targets.
Context `{Env}.

(** The slot value names an advertised slot and its effect may be applied there. *)
Definition slot_supported (st : DaemonState) (target : TargetId)
    (slots : AppearanceSlotsCapability) (v : AppearanceSlotValue) : Prop :=
  ∃ d, first_such (λ d, bool_decide (asd_id d = asv_slot v)) (asc_slots slots) d ∧
    effect_supported target (asd_appearance d) (ds_cct_emulation_override st) (asv_effect v).

(** The update mentions every slot, or the policy allows it not to. *)
Definition slots_complete (st : DaemonState) (target : TargetId)
    (slots : AppearanceSlotsCapability) (values : list AppearanceSlotValue) : Prop :=
  length values = length (asc_slots slots) ∨ asc_update_policy slots = Independent ∨
  (asc_update_policy slots = PartialIfKnown ∧
   ∀ d, d ∈ asc_slots slots →
     asd_id d ∈ asv_slot <$> values ∨
     asd_id d ∈ asv_slot <$> known_appearance_slot_values st target).

Definition state_supported (st : DaemonState) (target : TargetId) (caps : CapabilitySet)
    (state : TargetState) : Prop :=
  match state with
  | TS_Effect effect =>
      effect_supported target caps (ds_cct_emulation_override st) effect
  | TS_Brightness value =>
      ∃ bits maximum, cs_brightness caps = Brightness_Independent bits maximum (scope_of target) ∧
        channel_fits maximum bits ∧ (value <= maximum)%Z
  | TS_AppearanceSlots values =>
      (∃ d s, target = TargetId_Surface d s) ∧ values ≠ [] ∧
      ∃ slots, cs_appearance_slots caps = Some slots ∧ NoDup (asv_slot <$> values) ∧
        Forall (slot_supported st target slots) values ∧ slots_complete st target slots values
  | TS_Clear => True
  end.

Lemma slot_descriptor_Ok target slots seen v d :
  slot_descriptor target slots seen v = Ok d ↔
  asv_slot v ∉ seen ∧ first_such (λ d, bool_decide (asd_id d = asv_slot v)) (asc_slots slots) d.
Proof. unfold slot_descriptor. by rewrite guard_Ok, bool_decide_eq_false, ok_or_Ok. Qed.

Lemma resolve_slot_Ok st target slots seen res v seen' :
  (∃ res', resolve_slot st target slots (seen, res) v = Ok (seen', res')) ↔
  slot_supported st target slots v ∧ asv_slot v ∉ seen ∧ seen' = {[asv_slot v]} ∪ seen.
Proof.
  unfold resolve_slot, slot_supported. setoid_rewrite bind_Ok.
  setoid_rewrite slot_descriptor_Ok. setoid_rewrite bind_Ok.
  assert (∀ d : AppearanceSlotDescriptor, (∃ e,
    match asv_effect v with
    | Effect_Static colour =>
        colour ← resolve_colour_for_appearance target colour (asd_appearance d)
                   (ds_cct_emulation_override st);
        Ok (Effect_Static colour)
    | effect =>
        _ ← validate_effect_for_appearance target effect (asd_appearance d)
              (ds_cct_emulation_override st);
        Ok effect
    end = Ok e) ↔
    effect_supported target (asd_appearance d) (ds_cct_emulation_override st) (asv_effect v))
    as He.
  { intros d. assert (∀ (r : daemon unit) (x : Effect), (∃ e, (_ ← r; Ok x) = Ok e) ↔ r = Ok tt)
      as Hunit by (intros [[]|] x; simpl; naive_solver).
    destruct (asv_effect v) as [|colour| | | | | | | |] eqn:Ev;
      rewrite <-validate_effect_Ok; [by rewrite Hunit| |by rewrite Hunit..].
    cbn [validate_effect_for_appearance].
    destruct (resolve_colour_for_appearance _ _ _ _); simpl; naive_solver. }
  split.
  - intros (res' & d & [Hs Hd] & e & Hee & [= <- <-]). split_and!; [|done..].
    exists d. split; [done|]. apply He. by exists e.
  - intros ((d & Hd & [e Hee]%He) & Hs & ->). eexists _, d. split; [done|]. by exists e.
Qed.

Lemma resolve_slots_Ok st target slots seen res values seen' :
  (∃ res', try_fold (resolve_slot st target slots) (seen, res) values = Ok (seen', res')) ↔
  Forall (slot_supported st target slots) values ∧ NoDup (asv_slot <$> values) ∧
  (∀ v, v ∈ values → asv_slot v ∉ seen) ∧ seen' = list_to_set (asv_slot <$> values) ∪ seen.
Proof.
  revert seen res. induction values as [|v values IH]; intros seen res.
  { split.
    - intros (res' & [= <- <-]). split_and!; [constructor..|set_solver|set_solver].
    - intros (_ & _ & _ & ->). exists res. simpl. do 2 f_equal. set_solver. }
  rewrite Forall_cons, fmap_cons, NoDup_cons. cbn [try_fold]. setoid_rewrite bind_Ok. split.
  - intros (res' & [s1 r1] & H1 & H2).
    assert (∃ r1, resolve_slot st target slots (seen, res) v = Ok (s1, r1)) as H1' by eauto.
    apply resolve_slot_Ok in H1' as (Hv & Hs & ->).
    assert (∃ res', try_fold (resolve_slot st target slots) ({[asv_slot v]} ∪ seen, r1) values =
      Ok (seen', res')) as (Hf & Hnd & Hd & ->)%IH by eauto.
    split_and!; [done..| |done| |set_solver].
    + intros (y & Hy & Hyl)%list_elem_of_fmap. specialize (Hd y Hyl). set_solver.
    + intros y [->|Hy]%elem_of_cons; [done|]. specialize (Hd y Hy). set_solver.
  - intros ([Hv Hf] & [Hnv Hnd] & Hd & ->).
    destruct (proj2 (resolve_slot_Ok st target slots seen res v ({[asv_slot v]} ∪ seen)))
      as [r1 H1]; [split_and!; [done| |done]; apply Hd; by left|].
    destruct (proj2 (IH ({[asv_slot v]} ∪ seen) r1)) as [res' Hres'].
    { split_and!; [done..| |simpl; set_solver]. intros y Hy. apply not_elem_of_union. split.
      - intros Heq%elem_of_singleton. apply Hnv. rewrite <-Heq. by apply list_elem_of_fmap_2.
      - apply Hd. by right. }
    exists res', ({[asv_slot v]} ∪ seen, r1). split; [done|exact Hres'].
Qed.

Lemma complete_slots_Ok target known seen res ds :
  (∃ res', try_fold (complete_slot target known seen) res ds = Ok res') ↔
  ∀ d, d ∈ ds → asd_id d ∈ seen ∨ asd_id d ∈ asv_slot <$> known.
Proof.
  revert res. induction ds as [|d ds IH]; intros res; simpl; [set_solver|].
  assert (∀ x, (∃ v, List.find (λ v, bool_decide (asv_slot v = x)) known = Some v) ↔
    x ∈ asv_slot <$> known) as Hfind.
  { intros x. rewrite list_elem_of_fmap. split.
    - intros (v & [Hin Hv]%List.find_some). exists v. rewrite bool_decide_eq_true in Hv.
      by rewrite list_elem_of_In.
    - intros (v & -> & Hin%list_elem_of_In).
      destruct (List.find _ known) as [w|] eqn:E; [eauto|].
      apply List.find_none with (x := v) in E; [|done]. by apply bool_decide_eq_false in E. }
  setoid_rewrite bind_Ok. unfold complete_slot at 1. setoid_rewrite elem_of_cons. split.
  - intros (res' & r1 & H1 & H2) x [->|Hx]; [|by eapply IH; eauto].
    case_bool_decide; [by left|]. rewrite bind_Ok in H1. destruct H1 as (v & Hv%ok_or_Ok & _).
    right. apply Hfind. eauto.
  - intros Hall. assert (∃ r1, (if bool_decide (asd_id d ∈ seen) then Ok res
      else value ← ok_or (List.find (λ v, bool_decide (asv_slot v = asd_id d)) known)
                     (DE_UnknownState target);
           Ok (res ++ [value])) = Ok r1) as [r1 Hr1].
    { case_bool_decide; [eauto|]. destruct (Hall d) as [?|[v Hv]%Hfind]; [by left|done|].
      rewrite Hv. simpl. eauto. }
    destruct (proj2 (IH r1)) as [res' Hres']; [intros x Hx; apply Hall; by right|]. eauto.
Qed.

Lemma list_to_set_complete (l : list AppearanceSlotValue) n :
  NoDup (asv_slot <$> l) →
  size (list_to_set (asv_slot <$> l) ∪ ∅ : gset AppearanceSlotId) = n ↔ length l = n.
Proof. intros Hnd. rewrite union_empty_r_L, size_list_to_set, length_fmap by done. done. Qed.

Lemma validate_slots_Ok st target values :
  (∃ resolved, validate_appearance_slot_values st target values = Ok resolved) ↔
  ∃ caps, capabilities_for_target st target = Some caps ∧
    state_supported st target caps (TS_AppearanceSlots values).
Proof.
  unfold validate_appearance_slot_values, state_supported.
  destruct target as [d|d s|d s e|d g];
    [split; [naive_solver|intros (? & _ & (? & ? & ?) & _); done]| |
     split; [naive_solver|intros (? & _ & (? & ? & ?) & _); done]..].
  set (t := TargetId_Surface d s). setoid_rewrite guard_Ok. setoid_rewrite bool_decide_eq_false.
  setoid_rewrite bind_Ok. unfold slots_of, capabilities_for_target_or_error.
  setoid_rewrite bind_Ok. setoid_rewrite ok_or_Ok.
  split.
  - intros (r & Hne & slots & (caps & Hc & Hs) & [seen res] & Hf & Hrest).
    exists caps. split; [done|]. split; [by eauto|]. split; [by destruct values|].
    exists slots. split; [done|].
    assert (∃ res', try_fold (resolve_slot st t slots) (∅, []) values = Ok (seen, res'))
      as (Hall & Hnd & _ & ->)%resolve_slots_Ok by eauto.
    split_and!; [done..|]. unfold slots_complete. case_bool_decide as Hsz.
    { left. by apply list_to_set_complete in Hsz. }
    right. destruct (asc_update_policy slots); [by left| |done]. right. split; [done|].
    intros x Hx. destruct (proj1 (complete_slots_Ok t (known_appearance_slot_values st t)
      (list_to_set (asv_slot <$> values) ∪ ∅) res (asc_slots slots)) (ex_intro _ r Hrest) x Hx); set_solver.
  - intros (caps & Hc & _ & Hne & slots & Hs & Hnd & Hall & Hcomp).
    destruct (proj2 (resolve_slots_Ok st t slots ∅ [] values
      (list_to_set (asv_slot <$> values) ∪ ∅))) as [res Hres].
    { split_and!; [done..|set_solver|done]. }
    assert (∃ r, (if bool_decide (size (list_to_set (asv_slot <$> values) ∪ ∅ : gset AppearanceSlotId)
                     = length (asc_slots slots)) then Ok res
      else match asc_update_policy slots with
           | Independent => Ok res
           | PartialIfKnown => try_fold (complete_slot t (known_appearance_slot_values st t)
               (list_to_set (asv_slot <$> values) ∪ ∅)) res (asc_slots slots)
           | CompleteSet => Err (invalid t (Lit "appearance-slot mutation must include every slot"))
           end) = Ok r) as [r Hr].
    { case_bool_decide as Hsz; [eauto|]. rewrite list_to_set_complete in Hsz by done.
      destruct Hcomp as [?|[->|[-> Hk]]]; [done|eauto|].
      apply complete_slots_Ok. intros x Hx. destruct (Hk x Hx); set_solver. }
    exists r. split; [by destruct values|]. exists slots. split; [eauto|].
    exists (list_to_set (asv_slot <$> values) ∪ ∅, res). done.
Qed.

Lemma validate_brightness_Ok st target value :
  validate_brightness st target value = Ok tt ↔
  ∃ caps, capabilities_for_target st target = Some caps ∧
    state_supported st target caps (TS_Brightness value).
Proof.
  unfold validate_brightness, capabilities_for_target_or_error. rewrite bind_Ok.
  setoid_rewrite ok_or_Ok. simpl.
  destruct (capabilities_for_target st target) as [caps|]; [|naive_solver].
  assert (∀ P : CapabilitySet → Prop, (∃ a, Some caps = Some a ∧ P a) ↔ P caps) as Hone
    by naive_solver.
  rewrite !Hone. destruct (cs_brightness caps) as [|bits maximum scope]; [naive_solver|].
  rewrite bind_unit_Ok, validate_scope_Ok, bind_Ok. setoid_rewrite ok_or_Ok.
  setoid_rewrite guard_Ok. setoid_rewrite guard_Ok. setoid_rewrite Z.ltb_ge.
  setoid_rewrite <-maximum_for_bits_fits. naive_solver.
Qed.

Lemma validate_target_state_Ok st target state :
  validate_target_state st target state = Ok tt ↔
  ∃ caps, capabilities_for_target st target = Some caps ∧ state_supported st target caps state.
Proof.
  destruct state as [effect|value|values|]; cbn [validate_target_state].
  - unfold validate_effect, capabilities_for_target_or_error. rewrite bind_Ok.
    setoid_rewrite ok_or_Ok. by setoid_rewrite validate_effect_Ok.
  - apply validate_brightness_Ok.
  - rewrite <-validate_slots_Ok, bind_Ok. naive_solver.
  - simpl. unfold ensure_target_exists. case_bool_decide as Hs; [|naive_solver].
    destruct Hs. naive_solver.
Qed.
End targets.

(** ** Claims *)

(** C33: A desired state may be applied to a target exactly when the target exists and
    advertises it: a colour fits the first capability of its encoding or is a
    colour temperature that may be emulated; an effect is advertised at the
    target's scope with a descriptor that bounds its parameters, and an opaque
    hardware effect supplies exactly the declared arguments; brightness is within
    an advertised maximum that its width can represent; appearance slots are
    advertised, distinct and, where the policy demands it, complete. *)
Theorem validate_target_state_correct `{Env} st target state :
  validate_target_state st target state = Ok tt ↔
  ∃ caps, capabilities_for_target st target = Some caps ∧ state_supported st target caps state.
Proof. apply validate_target_state_Ok. Qed.

(** Resolving a colour returns it unchanged when its encoding is advertised and
    every channel fits, and otherwise the RGB emulation of a colour temperature;
    in both cases the colour returned fits an advertised capability. *)
Theorem resolve_colour_correct `{Env} st target colour c :
  resolve_colour st target colour = Ok c ↔
  ∃ caps, capabilities_for_target st target = Some caps ∧
    resolves caps (ds_cct_emulation_override st) colour c ∧
    ∃ cap, cap ∈ cs_colour caps ∧ colour_fits c cap.
Proof.
  unfold resolve_colour, capabilities_for_target_or_error. rewrite bind_Ok.
  setoid_rewrite ok_or_Ok. setoid_rewrite resolve_colour_Ok. split; [|naive_solver].
  intros (caps & Hc & Hr). exists caps. split_and!; [done..|].
  destruct Hr as [(cap & Hn & -> & Hf)|(_ & k & cap & _ & _ & _ & Hn & _ & Hf)];
    exists cap; (split; [|done]); apply list_elem_of_In; by apply List.find_some in Hn as [? _].
Qed.

(** For an effect without colours the refusal meant for a descriptor that lists a
    colour parameter is never given: such a descriptor is reported as having a
    duplicate colour parameter. *)
Theorem colour_parameter_misreported target d period_ms lo hi rest :
  hed_parameters d = EffectParameter_Colour lo hi :: rest →
  validate_effect_parameters target d (Effect_Rainbow period_ms) =
    Err (unsupported target (Lit "duplicate colour effect parameter")).
Proof. intros Hd. unfold validate_effect_parameters. simpl. by rewrite Hd. Qed.

Definition rainbow_descriptor : HardwareEffectDescriptor := {|
  hed_id := HardwareEffectId_new "rainbow"; hed_name := "Rainbow";
  hed_parameters := [EffectParameter_Colour 1 3] |}.

Lemma colour_parameter_misreported_witness :
  validate_effect_parameters (TargetId_device "kbd") rainbow_descriptor (Effect_Rainbow 1000) =
    Err (unsupported (TargetId_device "kbd") (Lit "duplicate colour effect parameter")).
Proof. apply (colour_parameter_misreported _ _ _ 1 3 []). reflexivity. Defined.
