(* ===== verification/Observation.v ===== *)
(** * Observations, adoption and reconciliation: [luminated/src/state/observation.rs],
      [reconciliation.rs] and [ensure_persistable] of [mod.rs]

    What the daemon believes about hardware after a write, the two-phase adoption
    of confirmed hardware state into the persisted baseline, and the per-device
    reconciliation status.  The clock is an argument.  Synthesis of aggregate
    observations is not part of this file. *)

From S2P Require Import Prelude Model Colours Graph Scenes Daemon Topology Persistence.

(** ** Adopted facets *)

#[export] Instance FacetKey_dec (t : TargetId) (k : StateFacetKind) (f : AdoptedFacet) :
  Decision (af_target f = t ∧ FacetValue_kind (af_value f) = k).
Proof. apply _. Defined.

(** [values.push(v)] for each [v] of [current] whose slot is not among the
    replacement's values, those just pushed included. *)
Definition merge_slot (values : list AppearanceSlotValue) (current : AppearanceSlotValue) :
    list AppearanceSlotValue :=
  if existsb (λ v, bool_decide (asv_slot v = asv_slot current)) values then values
  else values ++ [current].

Definition find_slots (facets : list AdoptedFacet) (target : TargetId) :
    option AppearanceSlotsState :=
  match List.find (λ f, bool_decide (af_target f = target) &&
                        bool_decide (FacetValue_kind (af_value f) = Kind_AppearanceSlots)) facets with
  | Some f => match af_value f with Facet_AppearanceSlots slots => Some slots | _ => None end
  | None => None
  end.

Definition merged_replacement (facets : list AdoptedFacet) (replacement : AdoptedFacet) :
    AdoptedFacet :=
  match af_value replacement, find_slots facets (af_target replacement) with
  | Facet_AppearanceSlots slots, Some current =>
      {| af_target := af_target replacement;
         af_value := Facet_AppearanceSlots
           {| ass_values := fold_left merge_slot (ass_values current) (ass_values slots);
              ass_complete := ass_complete slots || ass_complete current |};
         af_confirmed_at_ms := af_confirmed_at_ms replacement |}
  | _, _ => replacement
  end.

Definition same_facet (a b : AdoptedFacet) : bool :=
  bool_decide (af_target a = af_target b) &&
  bool_decide (FacetValue_kind (af_value a) = FacetValue_kind (af_value b)).

Definition replace_adopted_facet (facets : list AdoptedFacet) (replacement : AdoptedFacet) :
    list AdoptedFacet :=
  let replacement := merged_replacement facets replacement in
  filter (λ current, same_facet current replacement = false) facets ++ [replacement].

Definition merged_adopted_baseline (st : DaemonState) (delta : list AdoptedFacet) :
    list AdoptedFacet :=
  fold_left replace_adopted_facet delta (ds_adopted_baseline st).

Definition adopted_baseline_for_persistence (st : DaemonState) : list AdoptedFacet :=
  merged_adopted_baseline st (ds_pending_adoption st).

(** ** Persistability *)

Section persistable.
Context `{Env}.

(** [error.to_string()] keeps the diagnostic; lack of fuel cannot happen. *)
Definition diagnostic (e : fuelled Text) : Text :=
  match e with Fail message => message | Fuel => Lit "" end.

Definition ensure_persistable (st : DaemonState) : daemon unit :=
  map_err (λ e, DE_ResourceLimit (diagnostic e))
    (validate_complete (ds_target_state st) (ds_collections st) (ds_scenes st)
       (adopted_baseline_for_persistence st)).

(** The snapshot that a save would write. *)
Definition snapshot_of (st : DaemonState) : PersistedState :=
  {| ps_version := PERSISTENCE_VERSION; ps_targets := ds_target_state st;
     ps_collections := ds_collections st; ps_scenes := ds_scenes st;
     ps_adopted_baseline := adopted_baseline_for_persistence st |}.

Lemma ensure_persistable_Ok st : ensure_persistable st = Ok tt ↔ snapshot_wf (snapshot_of st).
Proof. unfold ensure_persistable. rewrite map_err_Ok. apply validate_complete_Ok. Qed.

Lemma ensure_persistable_Err st e :
  ensure_persistable st = Err e →
  ¬ snapshot_wf (snapshot_of st) ∧ ∃ message, e = DE_ResourceLimit message.
Proof.
  intros He. split.
  - rewrite <-ensure_persistable_Ok. by rewrite He.
  - unfold ensure_persistable in He. destruct (validate_complete _ _ _ _); simplify_eq/=. eauto.
Qed.
End persistable.

(** ** Device status *)

Definition empty_device_status (device : DeviceId) : DeviceStateStatus := {|
  dss_device := device; dss_observations := []; dss_reachability := Reach_Unknown;
  dss_reconciliation := Recon_Idle; dss_adoption := []; dss_latest_error := None;
  dss_latest_attempt_ms := None
|}.

(** [entry(device).or_insert_with(..)], then an update of the entry. *)
Definition device_status_of (st : DaemonState) (device : DeviceId) : DeviceStateStatus :=
  default (empty_device_status device) (ds_device_status st !! device).
Definition update_device_status (st : DaemonState) (device : DeviceId)
    (f : DeviceStateStatus → DeviceStateStatus) : DaemonState :=
  set_device_status st (<[device := f (device_status_of st device)]> (ds_device_status st)).

Definition status_with (s : DeviceStateStatus) (reachability : Reachability)
    (reconciliation : ReconciliationStatus) (error : option string) (attempt : option Z) :
    DeviceStateStatus := {|
  dss_device := dss_device s; dss_observations := dss_observations s;
  dss_reachability := reachability; dss_reconciliation := reconciliation;
  dss_adoption := dss_adoption s; dss_latest_error := error; dss_latest_attempt_ms := attempt
|}.

Definition set_adoption (adoption : list (TargetId * StateFacetKind * AdoptionStatus))
    (target : TargetId) (facet : StateFacetKind) (status : AdoptionStatus) :
    list (TargetId * StateFacetKind * AdoptionStatus) :=
  match list_find (λ a, a.1 = (target, facet)) adoption with
  | Some (i, _) => <[i := (target, facet, status)]> adoption
  | None => adoption ++ [(target, facet, status)]
  end.

Definition set_adoption_status (s : DeviceStateStatus) (target : TargetId)
    (facet : StateFacetKind) (status : AdoptionStatus) : DeviceStateStatus := {|
  dss_device := dss_device s; dss_observations := dss_observations s;
  dss_reachability := dss_reachability s; dss_reconciliation := dss_reconciliation s;
  dss_adoption := set_adoption (dss_adoption s) target facet status;
  dss_latest_error := dss_latest_error s; dss_latest_attempt_ms := dss_latest_attempt_ms s
|}.

Definition mark_adoption (status : AdoptionStatus) (st : DaemonState) (facet : AdoptedFacet) :
    DaemonState :=
  update_device_status st (TargetId_device_id (af_target facet))
    (λ s, set_adoption_status s (af_target facet) (FacetValue_kind (af_value facet)) status).

(** ** Adoption *)

Definition commit_adopted_baseline (st : DaemonState) (delta : list AdoptedFacet) : DaemonState :=
  fold_left (mark_adoption Adoption_Durable) delta
    (set_adopted_baseline st (merged_adopted_baseline st delta)).

Definition stage_adoption `{Env} (st : DaemonState) (delta : list AdoptedFacet) :
    DaemonState * daemon unit :=
  let staged := set_pending_adoption st
                  (fold_left replace_adopted_facet delta (ds_pending_adoption st)) in
  match ensure_persistable staged with
  | Err e => (set_pending_adoption staged (ds_pending_adoption st), Err e)
  | Ok _ => (staged, Ok tt)
  end.

Definition finish_pending_adoption (st : DaemonState) (persisted : bool) : DaemonState :=
  let pending := ds_pending_adoption st in
  let st := set_pending_adoption st [] in
  if persisted then commit_adopted_baseline st pending
  else fold_left (mark_adoption Adoption_PersistenceFailed) pending st.

Definition adopted_observation (facet : AdoptedFacet) : FacetObservation := {|
  fo_target := af_target facet; fo_value := af_value facet; fo_confidence := Confirmed;
  fo_source := Source_AdoptedBaseline; fo_observed_at_ms := af_confirmed_at_ms facet;
  fo_stale := true
|}.

Definition restore_adopted_baseline (st : DaemonState) (adopted : list AdoptedFacet) : DaemonState :=
  let kept := filter (λ f, ds_devices st !! TargetId_device_id (af_target f) = None ∨
                           is_Some (capabilities_for_target st (af_target f))) adopted in
  let st := set_adopted_baseline st kept in
  set_observations st
    (fold_left (λ m f, <[(af_target f, FacetValue_kind (af_value f)) := adopted_observation f]> m)
       kept (ds_observations st)).

(** ** Observations *)

Definition stale_observation (o : FacetObservation) : FacetObservation := {|
  fo_target := fo_target o; fo_value := fo_value o; fo_confidence := fo_confidence o;
  fo_source := fo_source o; fo_observed_at_ms := fo_observed_at_ms o; fo_stale := true
|}.

Definition mark_observations_stale (st : DaemonState) : DaemonState * Z :=
  (set_observations st (stale_observation <$> ds_observations st),
   Z.of_nat (size (filter (λ p, fo_stale p.2 = false) (ds_observations st)))).

Definition generation (st : DaemonState) (device : DeviceId) : Z :=
  default 0%Z (ds_generations st !! device).
Definition reserve_generation (st : DaemonState) (device : DeviceId) : DaemonState :=
  set_generations st (<[device := wrapU 64 (generation st device + 1)]> (ds_generations st)).

Definition retained_appearance (st : DaemonState) (target : TargetId) : option AppearanceState :=
  o ← ds_observations st !! (target, Kind_Appearance);
  match fo_value o with Facet_Appearance a => Some a | _ => None end.

Definition projected_observations (state : TargetState) (owns_power_domain : bool) :
    list FacetValue :=
  match state with
  | TS_Effect Effect_Off =>
      [Facet_Emission Dark] ++ if owns_power_domain then [Facet_PhysicalPower Power_Off] else []
  | TS_Effect effect =>
      [Facet_Appearance match effect with
                        | Effect_Static colour => Appearance_Static colour
                        | _ => Appearance_Effect effect
                        end;
       Facet_Emission match effect with
                      | Effect_Off => Dark
                      | Effect_Static colour => if is_dark colour then Dark else Emitting
                      | _ => Emitting
                      end]
  | TS_Brightness value =>
      if (value =? 0)%Z then [Facet_Brightness value; Facet_Emission Dark]
      else [Facet_Brightness value]
  | TS_AppearanceSlots values =>
      [Facet_AppearanceSlots {| ass_values := values; ass_complete := false |}]
  | TS_Clear => []
  end.

Definition assumed (now : Z) (target : TargetId) (source : ObservationSource) (value : FacetValue) :
    FacetObservation := {|
  fo_target := target; fo_value := value; fo_confidence := Assumed; fo_source := source;
  fo_observed_at_ms := now; fo_stale := false
|}.

(** [slots.complete] is set from the number of advertised slots. *)
Definition with_completeness (slot_count : option nat) (value : FacetValue) : FacetValue :=
  match value with
  | Facet_AppearanceSlots slots =>
      Facet_AppearanceSlots
        {| ass_values := ass_values slots;
           ass_complete := bool_decide (slot_count = Some (length (ass_values slots))) |}
  | _ => value
  end.

Definition insert_projected (now : Z) (target : TargetId) (slot_count : option nat)
    (m : gmap (TargetId * StateFacetKind) FacetObservation) (value : FacetValue) :
    gmap (TargetId * StateFacetKind) FacetObservation :=
  let value := with_completeness slot_count value in
  <[(target, FacetValue_kind value) := assumed now target Source_SuccessfulApply value]> m.

Definition power_domain_target (target : TargetId) (domain : PowerDomainRef) : TargetId :=
  match domain with
  | PowerDomainRef_Device => TargetId_Device (TargetId_device_id target)
  | PowerDomainRef_Surface surface =>
      TargetId_surface (DeviceId_as_str (TargetId_device_id target)) surface
  end.

Definition note_successful_apply_at_canonical_target (now : Z) (st : DaemonState)
    (target : TargetId) (state : TargetState) : DaemonState :=
  match state with
  | TS_Clear =>
      set_observations st
        (filter (λ p, target_covers st target p.1.1 = false) (ds_observations st))
  | _ =>
      let capabilities := capabilities_for_target st target in
      let domain := power_domain_target target <$> (capabilities ≫= cs_power_domain) in
      let owns := bool_decide (is_Some (capabilities ≫= cs_physical_power)) in
      let slot_count := (λ c, length (asc_slots c)) <$> (capabilities ≫= cs_appearance_slots) in
      let observations := fold_left (insert_projected now target slot_count)
                            (projected_observations state owns) (ds_observations st) in
      set_observations st
        match domain with
        | None => observations
        | Some domain =>
            if bool_decide (domain = target) &&
               match state with TS_Effect Effect_Off => true | _ => false end
            then observations
            else <[(domain, Kind_PhysicalPower) :=
                     assumed now domain Source_Derived (Facet_PhysicalPower Power_On)]> observations
        end
  end.

Definition note_successful_apply (now : Z) (st : DaemonState) (target : TargetId)
    (state : TargetState) : DaemonState :=
  match target with
  | TargetId_Element _ _ _ => note_successful_apply_at_canonical_target now st target state
  | _ =>
      fold_left (λ st canonical, note_successful_apply_at_canonical_target now st canonical state)
        (observation_targets_after_write st target) st
  end.

(** ** Reconciliation: [reconciliation.rs] *)

Definition begin_reconciliation (now : Z) (st : DaemonState) (device : DeviceId) : DaemonState :=
  update_device_status st device (λ s,
    status_with s (dss_reachability s) Recon_Reconciling None (Some now)).

Definition fail_reconciliation (now : Z) (st : DaemonState) (device : DeviceId)
    (diagnostic : string) : DaemonState :=
  let st := set_observations st
    (map_imap (λ k o, Some (if bool_decide (TargetId_device_id k.1 = device)
                            then stale_observation o else o)) (ds_observations st)) in
  update_device_status st device (λ s,
    status_with s Reach_Unavailable Recon_Failed (Some diagnostic) (Some now)).

Definition fail_adoption_persistence (st : DaemonState) (device : DeviceId)
    (candidate : list AdoptedFacet) (diagnostic : string) : DaemonState :=
  update_device_status st device (λ s,
    fold_left (λ s f, set_adoption_status s (af_target f) (FacetValue_kind (af_value f))
                        Adoption_PersistenceFailed)
      candidate
      (status_with s (dss_reachability s) Recon_Failed (Some diagnostic)
         (dss_latest_attempt_ms s))).

Definition complete_reconciliation (now : Z) (st : DaemonState) (device : DeviceId) : DaemonState :=
  update_device_status st device (λ s,
    status_with s Reach_Reachable Recon_Complete (dss_latest_error s) (Some now)).

Definition mark_reconciliation_drifted (st : DaemonState) (device : DeviceId)
    (diagnostic : string) : DaemonState :=
  update_device_status st device (λ s,
    status_with s (dss_reachability s) Recon_Drifted (Some diagnostic) (dss_latest_attempt_ms s)).

Definition partial_reconciliation_failure (now : Z) (st : DaemonState) (device : DeviceId)
    (diagnostic : string) : DaemonState :=
  update_device_status st device (λ s,
    status_with s Reach_Reachable Recon_Failed (Some diagnostic) (Some now)).

(** ** Two-phase adoption *)

Lemma mark_adoption_same status st l :
  ∃ m, fold_left (mark_adoption status) l st = set_device_status st m.
Proof.
  assert (∀ m, ∃ m', fold_left (mark_adoption status) l (set_device_status st m) =
                     set_device_status st m') as Hl.
  { induction l as [|f l IH]; intros m; [by eexists|]. simpl.
    destruct (IH (ds_device_status (mark_adoption status (set_device_status st m) f))) as [m' Hm'].
    exists m'. rewrite <-Hm'. f_equal. by destruct st. }
  destruct (Hl (ds_device_status st)) as [m Hm]. exists m. rewrite <-Hm. by destruct st.
Qed.

(** The key under which a facet is unique. *)
Definition facet_key (f : AdoptedFacet) : TargetId * StateFacetKind :=
  (af_target f, FacetValue_kind (af_value f)).

Lemma merged_replacement_key facets r : facet_key (merged_replacement facets r) = facet_key r.
Proof. destruct r as [t [] ms]; try done. unfold merged_replacement. simpl. by case_match. Qed.

Lemma replace_adopted_facet_keyed facets r :
  NoDup (facet_key <$> facets) →
  NoDup (facet_key <$> replace_adopted_facet facets r) ∧
  ∀ k, k ∈ facet_key <$> replace_adopted_facet facets r ↔
       k ∈ facet_key <$> facets ∨ k = facet_key r.
Proof.
  intros Hnd. unfold replace_adopted_facet. cbn zeta.
  rewrite <-(merged_replacement_key facets r). set (r' := merged_replacement facets r).
  assert (∀ f, same_facet f r' = false ↔ facet_key f ≠ facet_key r') as Hs.
  { intros f. unfold same_facet, facet_key. rewrite andb_false_iff, !bool_decide_eq_false.
    split; [intros [?|?]; congruence|]. intros Hne.
    destruct (decide (af_target f = af_target r')); [right|by left]. congruence. }
  rewrite fmap_app. split.
  - apply NoDup_app. split_and!; [| |apply NoDup_singleton].
    2: { intros k (f & -> & [Hf _]%list_elem_of_filter)%list_elem_of_fmap
           ?%list_elem_of_singleton. by apply Hs in Hf. }
    clearbody r'. induction facets as [|f facets IH]; [constructor|].
    rewrite fmap_cons, NoDup_cons in Hnd. destruct Hnd as [Hf Hnd]. rewrite filter_cons.
    case_decide; [|by apply IH]. rewrite fmap_cons, NoDup_cons. split; [|by apply IH].
    intros (g & Heq & [_ Hg]%list_elem_of_filter)%list_elem_of_fmap. apply Hf.
    apply list_elem_of_fmap. eauto.
  - intros k. rewrite elem_of_app. change (facet_key <$> [r']) with [facet_key r'].
    rewrite list_elem_of_singleton, !list_elem_of_fmap.
    setoid_rewrite list_elem_of_filter. setoid_rewrite Hs. simpl.
    destruct (decide (k = facet_key r')); naive_solver.
Qed.

Lemma replace_all_keyed delta facets :
  NoDup (facet_key <$> facets) →
  NoDup (facet_key <$> fold_left replace_adopted_facet delta facets) ∧
  ∀ k, k ∈ facet_key <$> fold_left replace_adopted_facet delta facets ↔
       k ∈ facet_key <$> facets ∨ k ∈ facet_key <$> delta.
Proof.
  revert facets. induction delta as [|r delta IH]; intros facets Hnd; simpl.
  { split; [done|]. set_solver. }
  destruct (replace_adopted_facet_keyed facets r Hnd) as [H1 H2].
  destruct (IH _ H1) as [H3 H4]. split; [done|]. intros k. rewrite H4, H2. set_solver.
Qed.

(** Adoption of confirmed hardware state is two-phase.  Staging is all or
    nothing and succeeds exactly when the state with the staged facets can be
    persisted.  Finishing after a successful save makes the baseline exactly the
    one the save wrote, so that the snapshot is unchanged; finishing after a failed
    save keeps the old baseline; either way nothing stays pending and no desired
    state, collection, scene or observation is touched.  Merging keeps one facet
    per target and kind, and loses none. *)
Theorem adoption_two_phase `{Env} st delta :
  (let '(st', r) := stage_adoption st delta in
   match r with
   | Ok _ => st' = set_pending_adoption st (ds_pending_adoption st') ∧
             snapshot_wf (snapshot_of st') ∧
             adopted_baseline_for_persistence st' =
               merged_adopted_baseline st
                 (fold_left replace_adopted_facet delta (ds_pending_adoption st))
   | Err _ => st' = st ∧
              ¬ snapshot_wf (snapshot_of (set_pending_adoption st
                  (fold_left replace_adopted_facet delta (ds_pending_adoption st))))
   end) ∧
  (∀ persisted, ∃ m,
   finish_pending_adoption st persisted =
     set_device_status
       (set_pending_adoption
          (set_adopted_baseline st
             (if persisted then adopted_baseline_for_persistence st
              else ds_adopted_baseline st)) []) m) ∧
  snapshot_of (finish_pending_adoption st true) = snapshot_of st ∧
  (∀ facets, NoDup (facet_key <$> facets) →
     NoDup (facet_key <$> fold_left replace_adopted_facet delta facets) ∧
     ∀ k, k ∈ facet_key <$> fold_left replace_adopted_facet delta facets ↔
          k ∈ facet_key <$> facets ∨ k ∈ facet_key <$> delta).
Proof.
  assert (∀ persisted, ∃ m,
   finish_pending_adoption st persisted =
     set_device_status
       (set_pending_adoption
          (set_adopted_baseline st
             (if persisted then adopted_baseline_for_persistence st
              else ds_adopted_baseline st)) []) m) as Hfin.
  { intros [|]; unfold finish_pending_adoption, commit_adopted_baseline;
      edestruct mark_adoption_same as [m ->]; exists m; by destruct st. }
  split_and!; [|done|destruct (Hfin true) as [m ->]; by destruct st|apply replace_all_keyed].
  unfold stage_adoption. destruct (ensure_persistable _) as [[]|e] eqn:He.
  - apply ensure_persistable_Ok in He. split_and!; [by destruct st|done|by destruct st].
  - apply ensure_persistable_Err in He as [He _]. split; [by destruct st|done].
Qed.
