(* ===== verification/TargetStates.v ===== *)
(** * Desired state: [luminated/src/state/target_state.rs]

    The ordered list of desired-state overlays, compacted on every insertion, the
    mutations that record a successful write, and the restoration of persisted
    entries.  [capture_step] is the composition of overlays by which
    [state/scene.rs] reads the list back. *)

From S2P Require Import Prelude Model Colours Graph Scenes Daemon Topology Persistence.
From S2P Require Import Validation Observation.

(** ** Facets *)

Definition APPEARANCE : Z := Z.shiftl 1 0.
Definition BRIGHTNESS : Z := Z.shiftl 1 1.
Definition EMISSION : Z := Z.shiftl 1 2.
Definition PHYSICAL_POWER : Z := Z.shiftl 1 3.
Definition APPEARANCE_SLOTS : Z := Z.shiftl 1 4.
Definition ALL_FACETS : Z :=
  Z.lor (Z.lor (Z.lor (Z.lor APPEARANCE BRIGHTNESS) EMISSION) PHYSICAL_POWER) APPEARANCE_SLOTS.

(** [self.0 & !newer.0 == 0], the complement taken in eight bits. *)
Definition is_covered_by (self newer : Z) : bool := (Z.land self (Z.lxor newer 255) =? 0)%Z.

Definition has_power (capabilities : option CapabilitySet) : bool :=
  match capabilities with
  | Some c => bool_decide (is_Some (cs_physical_power c)) || bool_decide (is_Some (cs_power_domain c))
  | None => false
  end.

Definition facets (state : TargetState) (capabilities : option CapabilitySet) : Z :=
  let power := (Z.b2z (has_power capabilities) * PHYSICAL_POWER)%Z in
  match state with
  | TS_Effect Effect_Off => Z.lor EMISSION power
  | TS_Effect _ => Z.lor (Z.lor APPEARANCE EMISSION) power
  | TS_Brightness value =>
      Z.lor (Z.lor BRIGHTNESS power) (if (value =? 0)%Z then EMISSION else 0)
  | TS_AppearanceSlots _ => APPEARANCE_SLOTS
  | TS_Clear => ALL_FACETS
  end.

(** ** Insertion *)

Definition retains (st : DaemonState) (target : TargetId) (new_facets : Z)
    (entry : TargetStateEntry) : bool :=
  negb (target_covers st target (tse_target entry)) ||
  (negb (new_facets =? ALL_FACETS)%Z &&
   negb (is_covered_by (facets (tse_state entry) (capabilities_for_target st (tse_target entry)))
           new_facets)).

Definition compact (st : DaemonState) (entries : list TargetStateEntry) (target : TargetId)
    (state : TargetState) : list TargetStateEntry :=
  let new_facets := facets state (capabilities_for_target st target) in
  filter (λ entry, retains st target new_facets entry = true) entries ++
  [TargetStateEntry_mk target state].

Definition insert_target_state (st : DaemonState) (target : TargetId) (state : TargetState) :
    DaemonState :=
  set_target_state st (compact st (ds_target_state st) target state).

Section mutations.
Context `{Env}.

Definition insert_target_state_checked (st : DaemonState) (target : TargetId)
    (state : TargetState) : DaemonState * daemon unit :=
  let inserted := insert_target_state st target state in
  match ensure_persistable inserted with
  | Err e => (set_target_state inserted (ds_target_state st), Err e)
  | Ok _ => (inserted, Ok tt)
  end.

(** The common shape of the mutations that record a successful hardware write. *)
Definition record_write (now : Z) (st : DaemonState) (target : TargetId) (state : TargetState) :
    DaemonState * daemon unit :=
  match ensure_target_exists st target with
  | Err e => (st, Err e)
  | Ok _ => insert_target_state_checked (note_successful_apply now st target state) target state
  end.

Definition set_effect (now : Z) (st : DaemonState) (target : TargetId) (effect : Effect) :
    DaemonState * daemon unit := record_write now st target (TS_Effect effect).
Definition set_brightness (now : Z) (st : DaemonState) (target : TargetId) (value : Z) :
    DaemonState * daemon unit := record_write now st target (TS_Brightness value).
Definition clear_target (now : Z) (st : DaemonState) (target : TargetId) :
    DaemonState * daemon unit := record_write now st target TS_Clear.

(** Replace the known value of the slot, or append. *)
Definition merge_value (merged : list AppearanceSlotValue) (value : AppearanceSlotValue) :
    list AppearanceSlotValue :=
  match list_find (λ known, asv_slot known = asv_slot value) merged with
  | Some (i, _) => <[i := value]> merged
  | None => merged ++ [value]
  end.

Definition set_appearance_slots (now : Z) (st : DaemonState) (target : TargetId)
    (values : list AppearanceSlotValue) : DaemonState * daemon unit :=
  record_write now st target
    (TS_AppearanceSlots (fold_left merge_value values (known_appearance_slot_values st target))).

Definition ensure_target_state_known (st : DaemonState) (target : TargetId) : daemon unit :=
  _ ← ensure_target_exists st target;
  match List.find (λ e, bool_decide (tse_target e = target)) (rev (ds_target_state st)) with
  | Some e => match tse_state e with
              | TS_Clear => Err (DE_UnknownState target)
              | _ => Ok tt
              end
  | None => Err (DE_UnknownState target)
  end.

(** ** Restoration *)

Definition target_restore_order (t : TargetId) : Z :=
  match t with
  | TargetId_Element _ _ _ => 0
  | TargetId_Surface _ _ => 1
  | TargetId_Group _ _ => 2
  | TargetId_Device _ => 3
  end.

(** The stable [sort_by_key] on a key with four values. *)
Definition sort_for_restore (entries : list TargetStateEntry) : list TargetStateEntry :=
  [0%Z; 1%Z; 2%Z; 3%Z] ≫= λ k,
    filter (λ e, target_restore_order (tse_target e) = k) entries.

Definition restore_step (acc : DaemonState * nat) (entry : TargetStateEntry) : DaemonState * nat :=
  let '(st, restored) := acc in
  if is_ok (validate_target_state st (tse_target entry) (tse_state entry))
  then (insert_target_state st (tse_target entry) (tse_state entry), S restored)
  else (st, restored).

Definition restore_persisted (st : DaemonState) (persisted : list TargetStateEntry)
    (preserve_order : bool) : DaemonState * (nat * nat) :=
  let total := length persisted in
  let persisted := if preserve_order then persisted else sort_for_restore persisted in
  let '(st, restored) := fold_left restore_step persisted (st, 0) in
  (st, (restored, total - restored)).

Definition is_active (st : DaemonState) (entry : TargetStateEntry) : Prop :=
  is_Some (ds_devices st !! TargetId_device_id (tse_target entry)).

Definition restore_persisted_retaining_withdrawn (st : DaemonState)
    (persisted : list TargetStateEntry) (preserve_order : bool) :
    DaemonState * (nat * nat * nat) :=
  let active := filter (is_active st) persisted in
  let withdrawn := filter (λ e, ¬ is_active st e) persisted in
  let '(st, (restored, dropped)) := restore_persisted st active preserve_order in
  (set_target_state st (ds_target_state st ++ withdrawn), (restored, length withdrawn, dropped)).

(** ** Topology replacement: [state/mod.rs] *)

Definition replace_devices_preserving_withdrawn_state (st : DaemonState) (devices : list Device) :
    DaemonState * nat :=
  let st := set_topology_generation st (wrapU 64 (ds_topology_generation st + 1)) in
  let st := set_devices st (device_map devices) in
  let kept := filter (λ e, ¬ is_active st e ∨
                           is_ok (validate_target_state st (tse_target e) (tse_state e)) = true)
                (ds_target_state st) in
  (set_target_state st kept, length (ds_target_state st) - length kept).
End mutations.

(** ** Reading the overlays back: [capture_target_state] of [state/scene.rs] *)

Definition nothing_captured : SceneTargetState := {|
  sts_appearance := None; sts_brightness := None; sts_emission := None;
  sts_appearance_slots := None
|}.

Definition capture_step (captured : SceneTargetState) (state : TargetState) : SceneTargetState :=
  match state with
  | TS_Effect Effect_Off =>
      {| sts_appearance := sts_appearance captured; sts_brightness := sts_brightness captured;
         sts_emission := Some Dark; sts_appearance_slots := sts_appearance_slots captured |}
  | TS_Effect effect =>
      {| sts_appearance := Some effect; sts_brightness := sts_brightness captured;
         sts_emission := Some Emitting; sts_appearance_slots := sts_appearance_slots captured |}
  | TS_Brightness value =>
      {| sts_appearance := sts_appearance captured; sts_brightness := Some value;
         sts_emission := if (value =? 0)%Z then Some Dark else sts_emission captured;
         sts_appearance_slots := sts_appearance_slots captured |}
  | TS_AppearanceSlots values =>
      {| sts_appearance := sts_appearance captured; sts_brightness := sts_brightness captured;
         sts_emission := sts_emission captured; sts_appearance_slots := Some values |}
  | TS_Clear => nothing_captured
  end.

(** The loop over the entries that cover [target], from the adopted baseline. *)
Definition capture_overlays (st : DaemonState) (target : TargetId) (captured : SceneTargetState)
    (entries : list TargetStateEntry) : SceneTargetState :=
  fold_left (λ captured entry,
      if target_covers st (tse_target entry) target then capture_step captured (tse_state entry)
      else captured) entries captured.

(** ** Compaction *)

(** The four captured fields that a state assigns. *)
Definition writes (s : TargetState) : bool * bool * bool * bool :=
  match s with
  | TS_Effect Effect_Off => (false, false, true, false)
  | TS_Effect _ => (true, false, true, false)
  | TS_Brightness value => (false, true, value =? 0, false)%Z
  | TS_AppearanceSlots _ => (false, false, false, true)
  | TS_Clear => (true, true, true, true)
  end.

(** Equal in every field that [n] does not assign. *)
Definition agree_off (n : TargetState) (a b : SceneTargetState) : Prop :=
  let '(w1, w2, w3, w4) := writes n in
  (w1 = false → sts_appearance a = sts_appearance b) ∧
  (w2 = false → sts_brightness a = sts_brightness b) ∧
  (w3 = false → sts_emission a = sts_emission b) ∧
  (w4 = false → sts_appearance_slots a = sts_appearance_slots b).

Lemma agree_off_refl n a : agree_off n a a.
Proof. unfold agree_off. by destruct (writes n) as [[[? ?] ?] ?]. Qed.

Lemma agree_off_trans n a b c : agree_off n a b → agree_off n b c → agree_off n a c.
Proof. unfold agree_off. destruct (writes n) as [[[? ?] ?] ?]. naive_solver congruence. Qed.

Lemma agree_off_step n m a b :
  agree_off n a b → agree_off n (capture_step a m) (capture_step b m).
Proof.
  unfold agree_off. destruct (writes n) as [[[? ?] ?] ?]. intros (H1 & H2 & H3 & H4).
  destruct m as [[]|v| |]; simpl; try destruct (v =? 0)%Z; split_and!; auto.
Qed.

Lemma agree_off_overwritten n a b : agree_off n a b → capture_step a n = capture_step b n.
Proof.
  destruct a, b. unfold agree_off.
  destruct n as [[]|v| |]; simpl; try destruct (v =? 0)%Z; intros (H1 & H2 & H3 & H4);
    f_equal; auto.
Qed.

(** A state whose facets a newer one covers assigns only fields that the newer one
    assigns, whatever the power capabilities of the two targets. *)
Lemma covered_writes n c e c' a :
  facets n c = ALL_FACETS ∨ is_covered_by (facets e c') (facets n c) = true →
  agree_off n (capture_step a e) a.
Proof.
  unfold agree_off, facets. destruct (has_power c), (has_power c');
  destruct n as [[]|v| |], e as [[]|v'| |]; simpl;
    repeat match goal with |- context [(?x =? 0)%Z] => destruct (x =? 0)%Z eqn:? end;
    intros [H|H]; vm_compute in H; try discriminate H; done.
Qed.

Lemma retains_false st target f e :
  retains st target f e = false →
  target_covers st target (tse_target e) = true ∧
  (f = ALL_FACETS ∨
   is_covered_by (facets (tse_state e) (capabilities_for_target st (tse_target e))) f = true).
Proof.
  unfold retains. rewrite orb_false_iff, andb_false_iff, !negb_false_iff, Z.eqb_eq. done.
Qed.

Lemma capture_overlays_app st t a l1 l2 :
  capture_overlays st t a (l1 ++ l2) = capture_overlays st t (capture_overlays st t a l1) l2.
Proof. apply fold_left_app. Qed.

(** Filtering the superseded entries is invisible off the new state's fields where
    the new target covers [t], and invisible altogether elsewhere. *)
Lemma capture_filtered st t target state l a b :
  (if target_covers st target t then agree_off state a b else a = b) →
  let kept := filter (λ e, retains st target
                (facets state (capabilities_for_target st target)) e = true) l in
  if target_covers st target t
  then agree_off state (capture_overlays st t a l) (capture_overlays st t b kept)
  else capture_overlays st t a l = capture_overlays st t b kept.
Proof.
  unfold capture_overlays. cbn zeta. revert a b.
  induction l as [|e l IH]; intros a b Hab; [done|]. rewrite filter_cons. simpl.
  case_decide as Hr; simpl.
  - apply IH. destruct (target_covers st (tse_target e) t); [|done].
    destruct (target_covers st target t); [by apply agree_off_step|by rewrite Hab].
  - apply IH. apply not_true_iff_false, retains_false in Hr as [Hcov Hf].
    destruct (target_covers st (tse_target e) t) eqn:He; [|done].
    rewrite (target_covers_trans st target (tse_target e) t) in Hab |- * by done.
    eapply agree_off_trans; [|exact Hab]. by eapply covered_writes.
Qed.

Lemma compact_capture st t a l target state :
  capture_overlays st t a (compact st l target state) =
  capture_overlays st t a (l ++ [TargetStateEntry_mk target state]).
Proof.
  unfold compact. rewrite !capture_overlays_app.
  pose proof (capture_filtered st t target state l a a) as H. cbn zeta in H.
  set (kept := filter _ l) in *. unfold capture_overlays at 1 3. simpl.
  destruct (target_covers st target t).
  - symmetry. apply agree_off_overwritten, H, agree_off_refl.
  - symmetry. by apply H.
Qed.

(** A sequence of recorded writes. *)
Definition insert_all (st : DaemonState) (writes : list TargetStateEntry) : DaemonState :=
  fold_left (λ st w, insert_target_state st (tse_target w) (tse_state w)) writes st.

Lemma insert_all_app st ws ws' : insert_all st (ws ++ ws') = insert_all (insert_all st ws) ws'.
Proof. apply fold_left_app. Qed.

Lemma insert_all_devices st ws : ds_devices (insert_all st ws) = ds_devices st.
Proof.
  revert st. induction ws as [|w ws IH]; intros st; [done|]. simpl.
  unfold insert_all in *. rewrite IH. by destruct st.
Qed.

(** Coverage, capabilities and compaction read only the devices. *)
Lemma target_atoms_devices st st' t :
  ds_devices st = ds_devices st' → target_atoms st t = target_atoms st' t.
Proof. intros H. unfold target_atoms. by rewrite H. Qed.

Lemma target_covers_devices st st' a b :
  ds_devices st = ds_devices st' → target_covers st a b = target_covers st' a b.
Proof. intros H. unfold target_covers. by rewrite !(target_atoms_devices st st') by done. Qed.

Lemma capabilities_devices st st' t :
  ds_devices st = ds_devices st' → capabilities_for_target st t = capabilities_for_target st' t.
Proof. intros H. unfold capabilities_for_target. by rewrite H. Qed.

Lemma capture_devices st st' t a l :
  ds_devices st = ds_devices st' → capture_overlays st t a l = capture_overlays st' t a l.
Proof.
  intros H. unfold capture_overlays. revert a. induction l as [|e l IH]; intros a; [done|].
  simpl. by rewrite IH, (target_covers_devices st st').
Qed.

Lemma retains_devices st st' t f e :
  ds_devices st = ds_devices st' → retains st t f e = retains st' t f e.
Proof.
  intros H. unfold retains. by rewrite (target_covers_devices st st'), (capabilities_devices st st').
Qed.

Lemma compact_devices st st' l t s :
  ds_devices st = ds_devices st' → compact st l t s = compact st' l t s.
Proof.
  intros H. unfold compact. f_equal. apply list_filter_iff. intros e.
  by rewrite (capabilities_devices st st'), (retains_devices st st').
Qed.

Lemma insert_target_state_entries st t s :
  ds_target_state (insert_target_state st t s) = compact st (ds_target_state st) t s.
Proof. by destruct st. Qed.

(** No entry is superseded by a later one. *)
Definition survives (st : DaemonState) (old new : TargetStateEntry) : Prop :=
  retains st (tse_target new)
    (facets (tse_state new) (capabilities_for_target st (tse_target new))) old = true.
Definition compacted (st : DaemonState) (l : list TargetStateEntry) : Prop :=
  StronglySorted (survives st) l.

Lemma compact_compacted st l target state :
  compacted st l → compacted st (compact st l target state).
Proof.
  intros Hl. unfold compacted, compact. apply StronglySorted_app. split_and!.
  - intros old new [Hr _]%list_elem_of_filter ->%list_elem_of_singleton. exact Hr.
  - by apply StronglySorted_filter.
  - repeat constructor.
Qed.

Lemma survives_devices st st' old new :
  ds_devices st = ds_devices st' → survives st old new ↔ survives st' old new.
Proof.
  intros H. unfold survives. by rewrite (capabilities_devices st st'), (retains_devices st st').
Qed.

Lemma compacted_devices st st' l :
  ds_devices st = ds_devices st' → compacted st l → compacted st' l.
Proof.
  intros H. unfold compacted. induction 1; constructor; [done|].
  eapply Forall_impl; [done|]. intros x. by apply survives_devices.
Qed.

Lemma insert_all_compacted st ws :
  compacted st (ds_target_state st) → compacted st (ds_target_state (insert_all st ws)).
Proof.
  intros Hl. induction ws as [|w ws IH] using rev_ind; [done|].
  rewrite insert_all_app. unfold insert_all at 1. simpl.
  rewrite insert_target_state_entries,
    (compact_devices _ st) by apply insert_all_devices. by apply compact_compacted.
Qed.

(** Two entries for one target in a compacted list have incomparable facets, the
    newer one being no clear. *)
Lemma compacted_same_target st l old new i j :
  compacted st l → i < j → l !! i = Some old → l !! j = Some new →
  tse_target old = tse_target new →
  is_covered_by (facets (tse_state old) (capabilities_for_target st (tse_target new)))
    (facets (tse_state new) (capabilities_for_target st (tse_target new))) = false ∧
  tse_state new ≠ TS_Clear.
Proof.
  intros Hl. revert i j. induction Hl as [|x l Hl IH Hx]; intros i j Hij Hi Hj Ht; [done|].
  destruct j as [|j]; [lia|]. destruct i as [|i]; simpl in *.
  - simplify_eq. rewrite Forall_forall in Hx.
    assert (survives st old new) as Hs by (apply Hx; by eapply list_elem_of_lookup_2).
    unfold survives, retains in Hs. rewrite Ht, target_covers_refl in Hs. simpl in Hs.
    rewrite andb_true_iff, !negb_true_iff in Hs. destruct Hs as [Hall Hf]. split; [done|].
    intros Hc. rewrite Hc in Hall. done.
  - by apply (IH i j); [lia|..].
Qed.

(** ** Recorded writes *)

(** Everything but the observations is as before. *)
Definition same_but_observations (st st' : DaemonState) : Prop :=
  st' = set_observations st (ds_observations st').

Lemma set_observations_same st o : same_but_observations st (set_observations st o).
Proof. by destruct st. Qed.

Lemma note_at_target_same now st t s :
  same_but_observations st (note_successful_apply_at_canonical_target now st t s).
Proof. destruct s; apply set_observations_same. Qed.

Lemma note_successful_apply_same now st t s :
  same_but_observations st (note_successful_apply now st t s).
Proof.
  assert (∀ l st', same_but_observations st st' → same_but_observations st
    (fold_left (λ st c, note_successful_apply_at_canonical_target now st c s) l st')) as Hl.
  { induction l as [|c l IH]; intros st' Hst; [done|]. simpl. apply IH.
    pose proof (note_at_target_same now st' c s) as Hn. unfold same_but_observations in *.
    rewrite Hn, Hst. by destruct st. }
  destruct t; [apply Hl; by destruct st|apply Hl; by destruct st|apply note_at_target_same|
    apply Hl; by destruct st].
Qed.

Section writes.
Context `{Env}.

Lemma same_snapshot st st' : same_but_observations st st' → snapshot_of st' = snapshot_of st.
Proof. intros ->. by destruct st. Qed.

Lemma insert_snapshot st t s :
  snapshot_of (insert_target_state st t s) =
  {| ps_version := PERSISTENCE_VERSION;
     ps_targets := compact st (ds_target_state st) t s;
     ps_collections := ds_collections st; ps_scenes := ds_scenes st;
     ps_adopted_baseline := adopted_baseline_for_persistence st |}.
Proof. by destruct st. Qed.

(** The requests behind the four mutations, and the state each one records. *)
Inductive Write :=
| Write_Effect (effect : Effect)
| Write_Brightness (value : Z)
| Write_AppearanceSlots (values : list AppearanceSlotValue)
| Write_Clear.

Definition apply_write (now : Z) (st : DaemonState) (target : TargetId) (w : Write) :
    DaemonState * daemon unit :=
  match w with
  | Write_Effect effect => set_effect now st target effect
  | Write_Brightness value => set_brightness now st target value
  | Write_AppearanceSlots values => set_appearance_slots now st target values
  | Write_Clear => clear_target now st target
  end.

Definition written (st : DaemonState) (target : TargetId) (w : Write) : TargetState :=
  match w with
  | Write_Effect effect => TS_Effect effect
  | Write_Brightness value => TS_Brightness value
  | Write_AppearanceSlots values =>
      TS_AppearanceSlots (fold_left merge_value values (known_appearance_slot_values st target))
  | Write_Clear => TS_Clear
  end.

Lemma apply_write_record now st target w :
  apply_write now st target w = record_write now st target (written st target w).
Proof. by destruct w. Qed.

Lemma compact_same st st' l t s :
  same_but_observations st st' → compact st' l t s = compact st l t s.
Proof. intros ->. apply compact_devices. by destruct st. Qed.

Lemma record_write_spec now st target s :
  let '(st', r) := record_write now st target s in
  same_but_observations (set_target_state st (ds_target_state st')) st' ∧
  match r with
  | Ok _ => is_Some (capabilities_for_target st target) ∧
            ds_target_state st' = compact st (ds_target_state st) target s ∧
            snapshot_wf (snapshot_of st')
  | Err e => ds_target_state st' = ds_target_state st ∧
             if decide (is_Some (capabilities_for_target st target))
             then ¬ snapshot_wf (snapshot_of (insert_target_state st target s)) ∧
                  ∃ message, e = DE_ResourceLimit message
             else st' = st ∧ e = DE_TargetNotFound target
  end.
Proof.
  unfold record_write, ensure_target_exists. case_bool_decide as Hc.
  2: { rewrite decide_False by done. split_and!; [|done..]. by destruct st. }
  unfold insert_target_state_checked.
  pose proof (note_successful_apply_same now st target s) as Hn.
  set (st1 := note_successful_apply now st target s) in *. clearbody st1.
  assert (snapshot_of (insert_target_state st1 target s) =
          snapshot_of (insert_target_state st target s)) as Hs.
  { rewrite !insert_snapshot, (compact_same st st1) by done. rewrite Hn. by destruct st. }
  destruct (ensure_persistable _) as [[]|e] eqn:He; cbn beta iota zeta.
  - apply ensure_persistable_Ok in He. split; [rewrite Hn; by destruct st|].
    split_and!; [done| |done]. rewrite insert_target_state_entries, (compact_same st st1) by done.
    rewrite Hn. by destruct st.
  - apply ensure_persistable_Err in He as [He Hm]. rewrite decide_True by done.
    split; [rewrite Hn; by destruct st|]. split; [rewrite Hn; by destruct st|].
    by rewrite <-Hs.
Qed.
End writes.

(** ** Restoration *)

Lemma compact_survivors st l e :
  Forall (λ old, survives st old e) l →
  compact st l (tse_target e) (tse_state e) = l ++ [e].
Proof.
  intros Hl. unfold compact. destruct e as [t s]; simpl in *. f_equal.
  by apply filter_all.
Qed.

Lemma set_target_state_twice st l l' :
  set_target_state (set_target_state st l) l' = set_target_state st l'.
Proof. by destruct st. Qed.

Section restoration.
Context `{Env}.

(** What validation accepts: [validate_target_state_Ok]. *)
Definition acceptable (st : DaemonState) (e : TargetStateEntry) : Prop :=
  ∃ caps, capabilities_for_target st (tse_target e) = Some caps ∧
    state_supported st (tse_target e) caps (tse_state e).
Definition always_acceptable (st : DaemonState) (e : TargetStateEntry) : Prop :=
  ∀ l, acceptable (set_target_state st l) e.

Lemma acceptable_dec st e :
  is_ok (validate_target_state st (tse_target e) (tse_state e)) = true ↔ acceptable st e.
Proof.
  unfold acceptable. rewrite <-validate_target_state_Ok.
  destruct (validate_target_state _ _ _) as [[]|]; simpl; naive_solver.
Qed.

(** What a restoration keeps of a list, when [present] was restored before: the entries of
    absent devices, and of the others the ones that are acceptable after those before. *)
Inductive keeps (st : DaemonState) : list TargetStateEntry → list TargetStateEntry →
    list TargetStateEntry → Prop :=
  | Keeps_nil present : keeps st present [] []
  | Keeps_withdrawn present e l kept :
      ¬ is_active st e → keeps st present l kept → keeps st present (e :: l) (e :: kept)
  | Keeps_restored present e l kept :
      is_active st e → acceptable (set_target_state st present) e →
      keeps st (present ++ [e]) l kept → keeps st present (e :: l) (e :: kept)
  | Keeps_dropped present e l kept :
      is_active st e → ¬ acceptable (set_target_state st present) e →
      keeps st present l kept → keeps st present (e :: l) kept.

Lemma keeps_all st present l kept :
  keeps st present l kept → Forall (λ e, is_active st e → always_acceptable st e) l → kept = l.
Proof.
  induction 1 as [|present e l kept Ha Hk IH|present e l kept Ha Hv Hk IH|present e l kept Ha Hv Hk IH];
    rewrite ?Forall_cons; [done|intros [_ Hl]; by rewrite IH|intros [_ Hl]; by rewrite IH|].
  intros [He _]. destruct Hv. by apply He.
Qed.

Lemma keeps_unique st present l kept kept' :
  keeps st present l kept → keeps st present l kept' → kept = kept'.
Proof. intros Hk. revert kept'. induction Hk; inversion 1; subst; naive_solver. Qed.

Lemma keeps_length st present l kept : keeps st present l kept → length kept ≤ length l.
Proof. induction 1; simpl; lia. Qed.

Lemma split_length st l :
  length (filter (is_active st) l) + length (filter (λ e, ¬ is_active st e) l) = length l.
Proof. rewrite <-length_app. by rewrite filter_app_complement. Qed.

Lemma insert_survivor st present e :
  Forall (λ old, survives st old e) present →
  insert_target_state (set_target_state st present) (tse_target e) (tse_state e) =
    set_target_state st (present ++ [e]).
Proof.
  intros Hs. unfold insert_target_state. rewrite set_target_state_twice,
    (compact_devices _ st) by by destruct st.
  replace (ds_target_state (set_target_state st present)) with present by by destruct st.
  by rewrite compact_survivors.
Qed.

Lemma restore_keeps st saved : ∀ present n,
  compacted st (present ++ filter (is_active st) saved) →
  ∃ kept, keeps st present saved kept ∧
    filter (λ e, ¬ is_active st e) kept = filter (λ e, ¬ is_active st e) saved ∧
    fold_left restore_step (filter (is_active st) saved) (set_target_state st present, n) =
      (set_target_state st (present ++ filter (is_active st) kept), n + length (filter (is_active st) kept)).
Proof.
  induction saved as [|e saved IH]; intros present n Hc.
  { exists []. split; [constructor|]. by rewrite app_nil_r, Nat.add_0_r. }
  destruct (decide (is_active st e)) as [Ha|Ha].
  2: { rewrite filter_cons_False in Hc by done. rewrite (filter_cons_False (is_active st)) by done.
       destruct (IH present n Hc) as (kept & Hk & Hg & Hf).
       exists (e :: kept). split; [by apply Keeps_withdrawn|].
       rewrite !(filter_cons_True (λ e, ¬ is_active st e)) by done.
       rewrite (filter_cons_False (is_active st)) by done. by rewrite Hg. }
  assert (¬ ¬ is_active st e) as Hn by tauto. rewrite (filter_cons_True (is_active st)) in Hc by done.
  rewrite (filter_cons_True (is_active st)) by done.
  rewrite (filter_cons_False (λ e, ¬ is_active st e)) by done.
  pose proof (acceptable_dec (set_target_state st present) e) as Hdec.
  assert (Forall (λ old, survives st old e) present) as Hs.
  { apply StronglySorted_app in Hc as (Hcov & _ & _). apply Forall_forall. intros x Hx.
    apply Hcov; [done|by left]. }
  change (fold_left restore_step (e :: filter (is_active st) saved) (set_target_state st present, n)) with
    (fold_left restore_step (filter (is_active st) saved) (restore_step (set_target_state st present, n) e)).
  unfold restore_step at 2. destruct (is_ok _).
  - destruct (IH (present ++ [e]) (S n)) as (kept & Hk & Hg & Hf); [by rewrite <-app_assoc|].
    exists (e :: kept). split; [apply Keeps_restored; [done|by apply Hdec|done]|].
    rewrite (filter_cons_True (is_active st)), (filter_cons_False (λ e, ¬ is_active st e)) by done.
    split; [done|]. rewrite insert_survivor, Hf by done. rewrite <-app_assoc. simpl. f_equal. lia.
  - destruct (IH present n) as (kept & Hk & Hg & Hf).
    { apply StronglySorted_app in Hc as (Hcov & H1 & H2). apply StronglySorted_app.
      split_and!; [intros x y Hx Hy; apply Hcov; [done|by right]|done|by inversion H2]. }
    exists kept. split; [apply Keeps_dropped; [done| |done]; intros Hv%Hdec; discriminate|done].
Qed.

(** The restored count never exceeds the number of entries. *)
Lemma restore_fold_count l acc :
  acc.2 ≤ (fold_left restore_step l acc).2 ≤ acc.2 + length l ∧
  ds_devices (fold_left restore_step l acc).1 = ds_devices acc.1.
Proof.
  revert acc. induction l as [|e l IH]; intros [st n]; [simpl; split; [lia|done]|].
  cbn [fold_left]. unfold restore_step at 2 4 6. destruct (is_ok _).
  - destruct (IH (insert_target_state st (tse_target e) (tse_state e), S n)) as [Hn Hd].
    simpl in *. split; [lia|]. rewrite Hd. by destruct st.
  - destruct (IH (st, n)) as [Hn Hd]. simpl in *. split; [lia|done].
Qed.

Lemma sort_for_restore_length l : length (sort_for_restore l) = length l.
Proof.
  induction l as [|e l IH]; [done|]. unfold sort_for_restore in *. simpl in *.
  rewrite !filter_cons. rewrite ?length_app in *. simpl in *.
  destruct (tse_target e); simpl; rewrite ?length_app in *; simpl; lia.
Qed.
End restoration.

(** Entries of other devices do not contribute to a target. *)
Lemma capture_of_device st t a l (P : TargetStateEntry → Prop) `{∀ e, Decision (P e)} :
  (∀ e, e ∈ l → TargetId_device_id (tse_target e) = TargetId_device_id t → P e) →
  capture_overlays st t a (filter P l) = capture_overlays st t a l.
Proof.
  unfold capture_overlays. revert a. induction l as [|e l IH]; intros a Hl; [done|].
  rewrite filter_cons. case_decide as He; simpl; [|];
    (rewrite IH; [|intros e' ?; apply Hl; by right]); [done|].
  destruct (target_covers st (tse_target e) t) eqn:Hc; [|done].
  destruct He. apply Hl; [by left|].
  apply target_covers_true in Hc as [->|[? _]]; done.
Qed.

Lemma capture_other_device st t a l :
  (∀ e, e ∈ l → TargetId_device_id (tse_target e) ≠ TargetId_device_id t) →
  capture_overlays st t a l = a.
Proof.
  unfold capture_overlays. revert a. induction l as [|e l IH]; intros a Hl; [done|]. simpl.
  rewrite IH by (intros e' ?; apply Hl; by right).
  destruct (target_covers st (tse_target e) t) eqn:Hc; [|done].
  destruct (Hl e); [by left|]. apply target_covers_true in Hc as [->|[? _]]; done.
Qed.

(** Moving the entries of withdrawn devices to the end changes no target's state. *)
Lemma capture_partition st t a l :
  capture_overlays st t a (filter (is_active st) l ++ filter (λ e, ¬ is_active st e) l) =
  capture_overlays st t a l.
Proof.
  rewrite capture_overlays_app.
  destruct (decide (is_Some (ds_devices st !! TargetId_device_id t))) as [Ht|Ht].
  - rewrite (capture_of_device st t a l (is_active st)).
    + apply capture_other_device. intros e [He _]%list_elem_of_filter Heq. apply He.
      unfold is_active. by rewrite Heq.
    + intros e _ Heq. unfold is_active. by rewrite Heq.
  - rewrite (capture_other_device st t a).
    + apply capture_of_device. intros e _ Heq He. apply Ht. unfold is_active in He.
      by rewrite Heq in He.
    + intros e [He _]%list_elem_of_filter Heq. apply Ht. unfold is_active in He.
      by rewrite Heq in He.
Qed.

(** ** Slot merging *)

Definition slot_value (values : list AppearanceSlotValue) (slot : AppearanceSlotId) :
    option AppearanceSlotValue :=
  List.find (λ v, bool_decide (asv_slot v = slot)) values.

Lemma merge_value_slots merged v :
  NoDup (asv_slot <$> merged) →
  NoDup (asv_slot <$> merge_value merged v) ∧
  ∀ slot, slot_value (merge_value merged v) slot =
    if decide (asv_slot v = slot) then Some v else slot_value merged slot.
Proof.
  unfold merge_value, slot_value. induction merged as [|x merged IH]; intros Hnd; simpl.
  { split; [apply NoDup_singleton|]. intros slot. case_bool_decide; case_decide; done. }
  rewrite fmap_cons, NoDup_cons in Hnd. destruct Hnd as [Hx Hnd]. specialize (IH Hnd).
  destruct (decide (asv_slot x = asv_slot v)) as [Hxv|Hxv]; simpl.
  { split; [apply NoDup_cons; by rewrite <-Hxv|].
    intros slot. rewrite Hxv. case_bool_decide; case_decide; done. }
  destruct (list_find _ merged) as [[i y]|] eqn:Ef; simpl in *.
  - destruct IH as [IH1 IH2]. split.
    + apply NoDup_cons. split; [|done]. intros Hin.
      apply list_find_Some in Ef as (Hi & Hy & _).
      rewrite list_fmap_insert, list_insert_id in Hin; [done|].
      by rewrite list_lookup_fmap, Hi, <-Hy.
    + intros slot. rewrite IH2. case_bool_decide; case_decide; congruence.
  - destruct IH as [IH1 IH2]. split.
    + apply NoDup_cons. split; [|done]. rewrite fmap_app, elem_of_app.
      intros [?|?%list_elem_of_singleton]; done.
    + intros slot. rewrite IH2. case_bool_decide; case_decide; congruence.
Qed.

Lemma merge_values_slots values known :
  NoDup (asv_slot <$> known) →
  NoDup (asv_slot <$> fold_left merge_value values known) ∧
  ∀ slot, slot_value (fold_left merge_value values known) slot =
    match slot_value (rev values) slot with
    | Some v => Some v
    | None => slot_value known slot
    end.
Proof.
  intros Hk. induction values as [|v values IH] using rev_ind; [done|].
  rewrite fold_left_app, rev_app_distr. simpl. destruct IH as [IH1 IH2].
  destruct (merge_value_slots _ v IH1) as [Hn Hl]. split; [done|]. intros slot. rewrite Hl, IH2.
  unfold slot_value. simpl. case_bool_decide; case_decide; congruence.
Qed.

(** ** Claims *)

(** C5: Compaction is invisible.  After any sequence of recorded writes, composing the
    compacted overlays that cover a target gives the same captured state as
    composing the complete, uncompacted history, for every target and baseline; and
    the compacted list holds no entry that a later one supersedes. *)
Theorem compaction_refines_history st ws t baseline :
  let st' := insert_all st ws in
  capture_overlays st' t baseline (ds_target_state st') =
    capture_overlays st t baseline (ds_target_state st ++ ws) ∧
  (compacted st (ds_target_state st) → compacted st' (ds_target_state st')).
Proof.
  cbn zeta. split.
  - rewrite (capture_devices _ st) by apply insert_all_devices.
    induction ws as [|w ws IH] using rev_ind; [by rewrite app_nil_r|].
    rewrite insert_all_app. unfold insert_all at 1. simpl.
    rewrite insert_target_state_entries,
      (compact_devices _ st) by apply insert_all_devices.
    rewrite compact_capture. rewrite !capture_overlays_app in *. rewrite IH. by destruct w.
  - intros Hl. apply (compacted_devices st); [by rewrite insert_all_devices|].
    by apply insert_all_compacted.
Qed.

(** C35: Recording a successful write is all or nothing for what is persisted.  An
    unknown target changes nothing.  Otherwise the write is recorded as one more
    compacted overlay, and a slot update is merged into the known slots, exactly
    when the resulting state can be persisted; if it cannot, the desired state is
    as before.  Besides that list only the observations change, so a state that
    can be persisted stays one. *)
Theorem recorded_write_correct `{Env} now st target w :
  let '(st', r) := apply_write now st target w in
  same_but_observations (set_target_state st (ds_target_state st')) st' ∧
  match r with
  | Ok _ => is_Some (capabilities_for_target st target) ∧
            ds_target_state st' = compact st (ds_target_state st) target (written st target w) ∧
            snapshot_wf (snapshot_of st')
  | Err e => ds_target_state st' = ds_target_state st ∧
             (snapshot_wf (snapshot_of st) → snapshot_wf (snapshot_of st')) ∧
             if decide (is_Some (capabilities_for_target st target))
             then ¬ snapshot_wf
                      (snapshot_of (insert_target_state st target (written st target w))) ∧
                  ∃ message, e = DE_ResourceLimit message
             else st' = st ∧ e = DE_TargetNotFound target
  end.
Proof.
  rewrite apply_write_record. pose proof (record_write_spec now st target (written st target w)) as H1.
  destruct (record_write _ _ _ _) as [st' [[]|e]]; [done|].
  destruct H1 as (Hsame & Heq & Hwhy). split_and!; [done..| |done].
  rewrite (same_snapshot _ _ Hsame), Heq. by destruct st.
Qed.

(** Merging a slot update into known slots keeps one value per slot: the last
    value given for a slot the update names, the known value for any other. *)
Theorem slot_merge_correct values known :
  NoDup (asv_slot <$> known) →
  NoDup (asv_slot <$> fold_left merge_value values known) ∧
  ∀ slot, slot_value (fold_left merge_value values known) slot =
    match slot_value (rev values) slot with
    | Some v => Some v
    | None => slot_value known slot
    end.
Proof. apply merge_values_slots. Qed.

(** C36: Restoring a compacted desired state in its saved order into an empty one keeps the
    entries of absent devices, and of the others exactly those that validation accepts when the
    ones kept before are in place, every other one is dropped, and the three counts are exact:
    restored and withdrawn entries are the ones kept, dropped the rest. Every target, present or
    withdrawn, reads back the state that it has in the list of the kept entries in their saved
    order. So if every entry of a present device is acceptable (whatever else the desired state
    holds) then nothing is dropped and every target reads back the saved state. *)
Theorem restore_roundtrip `{Env} st saved :
  ds_target_state st = [] → compacted st saved →
  let '(st', (restored, withdrawn, dropped)) :=
    restore_persisted_retaining_withdrawn st saved true in
  st' = set_target_state st (ds_target_state st') ∧
  ∃ kept, keeps st [] saved kept ∧
    Permutation (ds_target_state st') kept ∧
    restored = length (filter (is_active st) kept) ∧
    withdrawn = length (filter (λ e, ¬ is_active st e) saved) ∧
    restored + withdrawn = length kept ∧ length kept + dropped = length saved ∧
    (∀ t baseline, capture_overlays st' t baseline (ds_target_state st') =
                   capture_overlays st t baseline kept) ∧
    (Forall (λ e, is_active st e → always_acceptable st e) saved → kept = saved ∧ dropped = 0).
Proof.
  intros Hempty Hc. unfold restore_persisted_retaining_withdrawn, restore_persisted.
  assert (st = set_target_state st []) as Hst by (destruct st; simpl in *; by subst).
  destruct (restore_keeps st saved [] 0) as (kept & Hk & Hg & Hloop).
  { by apply StronglySorted_filter. }
  rewrite <-Hst in Hloop. rewrite Hloop, set_target_state_twice. simpl.
  assert (∀ l, ds_target_state (set_target_state st l) = l) as Hds by by destruct st.
  pose proof (split_length st saved) as Hall. pose proof (split_length st kept) as Hkl.
  pose proof (keeps_length _ _ _ _ Hk) as Hle. rewrite !Hds, <-Hg in *. split; [done|]. exists kept.
  split_and!; [done|apply filter_app_complement|done|done|lia|lia|..].
  - intros t a. rewrite (capture_devices _ st) by by destruct st. apply capture_partition.
  - intros Hv. pose proof (keeps_all _ _ _ _ Hk Hv) as ->. split; [done|lia].
Qed.

(** Restoration accounts for every entry, in any state and either order: the
    restored, withdrawn and dropped entries add up to the persisted ones, the
    subtraction never wraps, the withdrawn entries end the list unchanged, and the
    topology is untouched. *)
Theorem restore_accounting `{Env} st persisted preserve_order :
  let '(st', (restored, withdrawn, dropped)) :=
    restore_persisted_retaining_withdrawn st persisted preserve_order in
  restored + withdrawn + dropped = length persisted ∧
  ds_devices st' = ds_devices st ∧
  ∃ kept, ds_target_state st' = kept ++ filter (λ e, ¬ is_active st e) persisted.
Proof.
  unfold restore_persisted_retaining_withdrawn, restore_persisted.
  set (active := filter (is_active st) persisted).
  set (ordered := if preserve_order then active else sort_for_restore active).
  assert (length ordered = length active) as Hord.
  { unfold ordered. destruct preserve_order; [done|apply sort_for_restore_length]. }
  pose proof (restore_fold_count ordered (st, 0)) as [Hcount Hdev].
  destruct (fold_left restore_step ordered (st, 0)) as [st' restored]. simpl in *.
  split_and!.
  - pose proof (length_app active (filter (λ e, ¬ is_active st e) persisted)) as Hl.
    unfold active at 1 in Hl. rewrite filter_app_complement in Hl. lia.
  - rewrite <-Hdev. by destruct st'.
  - exists (ds_target_state st'). by destruct st'.
Qed.

(** ** Witnesses *)

Module Saved.
Definition kbd : TargetId := TargetId_device "kbd".
Definition entries : list TargetStateEntry :=
  [TargetStateEntry_mk kbd TS_Clear;
   TargetStateEntry_mk (TargetId_device "lamp") (TS_Brightness 7);
   TargetStateEntry_mk kbd (TS_Brightness 40)].
Definition logo : TargetId := TargetId_Surface (DeviceId_new "kbd") (SurfaceId_new "logo").
Definition slot (n : string) (v : Z) : AppearanceSlotValue :=
  {| asv_slot := AppearanceSlotId_new n; asv_effect := Effect_Rainbow v |}.
End Saved.

(** The brightness of 999 exceeds what the device advertises. *)
Lemma restore_roundtrip_witness :
  let '(st', counts) :=
    @restore_persisted_retaining_withdrawn sample_env Sample.state
      (Saved.entries ++ [TargetStateEntry_mk Saved.logo (TS_Brightness 999)]) true in
  counts = (2, 1, 1) ∧
  capture_overlays st' Saved.kbd nothing_captured (ds_target_state st') =
    {| sts_appearance := None; sts_brightness := Some 40%Z; sts_emission := None;
       sts_appearance_slots := None |}.
Proof.
  pose proof (@restore_roundtrip sample_env Sample.state
    (Saved.entries ++ [TargetStateEntry_mk Saved.logo (TS_Brightness 999)])) as Hr.
  destruct (@restore_persisted_retaining_withdrawn _ _ _ _) as [st' [[restored gone] dropped]] eqn:E.
  destruct Hr as (_ & kept & Hk & _ & -> & -> & _ & Hd & Hr & _).
  - reflexivity.
  - repeat constructor.
  - assert (dropped = 1) as -> by (by vm_compute in E; simplify_eq).
    assert (kept = Saved.entries) as ->; [|by rewrite Hr].
    apply (keeps_unique _ _ _ _ _ Hk). unfold Saved.entries. simpl.
    repeat first [apply Keeps_restored; [by eexists|apply acceptable_dec; vm_compute; reflexivity|]
                 |apply Keeps_withdrawn; [intros [? H]; discriminate H|]].
    apply Keeps_dropped; [by eexists|intros H%acceptable_dec; vm_compute in H; discriminate|constructor].
Defined.

Lemma slot_merge_correct_witness :
  slot_value (fold_left merge_value [Saved.slot "a" 1; Saved.slot "a" 2] [Saved.slot "a" 9;
    Saved.slot "b" 3]) (AppearanceSlotId_new "b") = Some (Saved.slot "b" 3).
Proof.
  apply (slot_merge_correct [Saved.slot "a" 1; Saved.slot "a" 2]
    [Saved.slot "a" 9; Saved.slot "b" 3]).
  apply (bool_decide_unpack _). reflexivity.
Defined.
