(* ===== verification/CollectionRegistry.v ===== *)
(** * The collection registry: [luminated/src/state/collection.rs]

    Creation, restricted destruction and membership of user collections, and the
    fan-out of a mutation over resolved members.  The identifier that
    [CollectionId::generate] draws is an argument.  [collection_reaches] recurses
    over a graph that is not assumed acyclic; it has one unit of fuel per
    collection, plus one, which is proved to be enough. *)

From S2P Require Import Prelude Model Graph Scenes Daemon Topology Persistence Validation.
From S2P Require Import Observation TargetStates.

(** [self.collections.values()] *)
Definition collection_values (st : DaemonState) : list Collection :=
  (map_to_list (ds_collections st)).*2.

Definition restore_collections (st : DaemonState) (collections : gmap CollectionId Collection) :
    DaemonState := set_collections st collections.

(** ** Reachability *)

(** [Iterator::any] over the members; the visited set is threaded through. *)
Fixpoint any_member
    (rec : CollectionId → gset CollectionId → option (bool * gset CollectionId))
    (members : list CollectionMember) (visited : gset CollectionId) :
    option (bool * gset CollectionId) :=
  match members with
  | [] => Some (false, visited)
  | Member_Target _ :: members => any_member rec members visited
  | Member_Collection nested :: members =>
      '(found, visited) ← rec nested visited;
      if (found : bool) then Some (true, visited) else any_member rec members visited
  end.

Fixpoint collection_reaches (collections : gmap CollectionId Collection) (fuel : nat)
    (from target : CollectionId) (visited : gset CollectionId) :
    option (bool * gset CollectionId) :=
  match fuel with
  | O => None
  | S fuel =>
      if decide (from = target) then Some (true, visited)
      else if decide (from ∈ visited) then Some (false, visited)
      else
        let visited := {[from]} ∪ visited in
        match collections !! from with
        | None => Some (false, visited)
        | Some collection =>
            any_member (λ nested, collection_reaches collections fuel nested target)
              (collection_members collection) visited
        end
  end.

Definition reaches_fuel (collections : gmap CollectionId Collection) : nat :=
  S (size collections).
Arguments reaches_fuel : simpl never.

Definition collections_referencing (st : DaemonState) (id : CollectionId) : list CollectionId :=
  collection_id <$>
  filter (λ c, collection_id c ≠ id ∧ Member_Collection id ∈ collection_members c)
    (collection_values st).

(** ** Resolution *)

Definition resolve_error (e : fuelled CollectionGraphError) : DaemonError :=
  match e with
  | Fail (CollectionNotFound id) => DE_CollectionNotFound id
  | Fail (DuplicateCollection id) =>
      DE_Internal (Fmt "duplicate collection identifier: {}" [AStr (CollectionId_as_str id)])
  | Fail (Cycle id) => DE_CollectionCycle id
  | Fuel => DE_Internal (Lit "")
  end.

Definition resolve_collection_leaves (st : DaemonState) (id : CollectionId) :
    daemon (list TargetId) :=
  map_err resolve_error (resolve_leaves (CollectionGraph_new (collection_values st)) id).

Definition collections_containing_device (st : DaemonState) (device : DeviceId) :
    list CollectionId :=
  collections_containing (CollectionGraph_new (collection_values st))
    (λ target, bool_decide (TargetId_device_id target = device)).

(** ** Mutations *)

Section mutations.
Context `{Env}.

Definition nested_exists (st : DaemonState) (member : CollectionMember) : daemon unit :=
  match member with
  | Member_Collection nested =>
      if bool_decide (is_Some (ds_collections st !! nested)) then Ok tt
      else Err (DE_CollectionNotFound nested)
  | Member_Target _ => Ok tt
  end.

Definition create_collection (st : DaemonState) (generated : CollectionId) (name : string)
    (description : option string) (owner : OwnerIdentity) (kind : option CollectionCategory)
    (members : list CollectionMember) : DaemonState * daemon CollectionId :=
  match try_for (nested_exists st) members with
  | Err e => (st, Err e)
  | Ok _ =>
      let collection := {|
        collection_id := generated; collection_name := name;
        collection_description := description; collection_owner := owner;
        collection_kind := kind; collection_members := fold_left push_unique members [] |} in
      let inserted := set_collections st (<[generated := collection]> (ds_collections st)) in
      match ensure_persistable inserted with
      | Err e => (set_collections inserted (delete generated (ds_collections inserted)), Err e)
      | Ok _ => (inserted, Ok generated)
      end
  end.

Definition destroy_collection (st : DaemonState) (id : CollectionId) :
    DaemonState * daemon Collection :=
  if bool_decide (is_Some (ds_collections st !! id)) then
    let referenced_by := collections_referencing st id in
    if negb (bool_decide (referenced_by = [])) then (st, Err (DE_CollectionInUse id referenced_by))
    else match List.find (λ s, existsb (λ b, bool_decide (dynamic_collection b = Some id))
                                 (scene_bindings s)) (map_to_list (ds_scenes st)).*2 with
         | Some scene => (st, Err (DE_CollectionReferencedByScene id (scene_id scene)))
         | None =>
             match ds_collections st !! id with
             | Some collection =>
                 (set_collections st (delete id (ds_collections st)), Ok collection)
             | None => (st, Err (DE_CollectionNotFound id))
             end
         end
  else (st, Err (DE_CollectionNotFound id)).

(** The checks on a nested collection before it is added to [id]; [None] is lack of
    fuel in [collection_reaches]. *)
Definition check_new_member (st : DaemonState) (id : CollectionId) (member : CollectionMember) :
    option (daemon unit) :=
  match member with
  | Member_Target _ => Some (Ok tt)
  | Member_Collection nested =>
      if decide (nested = id) then Some (Err (DE_CollectionSelfReference id))
      else if bool_decide (is_Some (ds_collections st !! nested)) then
        '(reaches, _) ← collection_reaches (ds_collections st)
                          (reaches_fuel (ds_collections st)) nested id ∅;
        Some (if (reaches : bool) then Err (DE_CollectionCycle nested) else Ok tt)
      else Some (Err (DE_CollectionNotFound nested))
  end.

Definition set_members (st : DaemonState) (id : CollectionId) (members : list CollectionMember) :
    DaemonState :=
  set_collections st
    (alter (λ c, with_members c members) id (ds_collections st)).

Definition add_collection_member (st : DaemonState) (id : CollectionId)
    (member : CollectionMember) : option (DaemonState * daemon unit) :=
  if bool_decide (is_Some (ds_collections st !! id)) then
    checked ← check_new_member st id member;
    match checked with
    | Err e => Some (st, Err e)
    | Ok _ =>
        match ds_collections st !! id with
        | None => Some (st, Err (DE_CollectionNotFound id))
        | Some collection =>
            let added := set_members st id
                           (if decide (member ∈ collection_members collection)
                            then collection_members collection
                            else collection_members collection ++ [member]) in
            match ensure_persistable added with
            | Err e => Some (set_members added id (collection_members collection), Err e)
            | Ok _ => Some (added, Ok tt)
            end
        end
    end
  else Some (st, Err (DE_CollectionNotFound id)).

Definition remove_collection_member (st : DaemonState) (id : CollectionId)
    (member : CollectionMember) : DaemonState * daemon unit :=
  match ds_collections st !! id with
  | None => (st, Err (DE_CollectionNotFound id))
  | Some collection =>
      (set_members st id (filter (λ existing, existing ≠ member) (collection_members collection)),
       Ok tt)
  end.

(** ** Fan-out *)

Definition prepare_collection_mutation (st : DaemonState) (members : list TargetId)
    (state : TargetState) (policy : UnsupportedPolicy) : daemon (list TargetId) :=
  match policy with
  | Unsupported_Reject =>
      _ ← try_for (λ member, validate_target_state st member state) members;
      Ok members
  | Unsupported_Skip =>
      let supported :=
        filter (λ member, is_ok (validate_target_state st member state) = true) members in
      _ ← match supported, state, members with
          | [], TS_Effect _, member :: _ => validate_target_state st member state
          | _, _, _ => Ok tt
          end;
      Ok supported
  end.

Definition record_collection_partial_success (st : DaemonState) (members : list TargetId)
    (state : TargetState) : DaemonState * daemon unit :=
  let inserted := fold_left (λ st member, insert_target_state st member state) members st in
  match ensure_persistable inserted with
  | Err e => (set_target_state inserted (ds_target_state st), Err e)
  | Ok _ => (inserted, Ok tt)
  end.
End mutations.

(** ** Invariant *)

Record registry_wf (m : gmap CollectionId Collection) : Prop := {
  rw_keyed : map_Forall (λ id c, collection_id c = id) m;
  rw_members : map_Forall (λ _ c, NoDup (collection_members c)) m;
  rw_sound id : is_Some (m !! id) → good (map_graph m) id
}.

(** Every dynamic binding of a scene refers to a registered collection. *)
Definition scene_refs_wf (st : DaemonState) : Prop :=
  ∀ id s b c, ds_scenes st !! id = Some s → b ∈ scene_bindings s →
    dynamic_collection b = Some c → is_Some (ds_collections st !! c).

(** The graph built from the values is the map itself when keys and identifiers
    agree. *)
Lemma values_ids (m : gmap CollectionId Collection) :
  map_Forall (λ id c, collection_id c = id) m →
  collection_id <$> (map_to_list m).*2 = (map_to_list m).*1.
Proof.
  intros Hk. rewrite <-list_fmap_compose. apply list_fmap_ext. intros i [id c] Hi.
  apply (Hk id). apply elem_of_map_to_list. by eapply list_elem_of_lookup_2.
Qed.

Lemma values_elem (m : gmap CollectionId Collection) c :
  c ∈ (map_to_list m).*2 ↔ ∃ id, m !! id = Some c.
Proof.
  rewrite list_elem_of_fmap. setoid_rewrite <-elem_of_map_to_list. split.
  - intros ([id c'] & -> & Hin). eauto.
  - intros [id Hin]. by exists (id, c).
Qed.

Lemma graph_of_values st :
  map_Forall (λ id c, collection_id c = id) (ds_collections st) →
  CollectionGraph_new (collection_values st) = map_graph (ds_collections st).
Proof.
  unfold collection_values. set (m := ds_collections st). intros Hk.
  assert (cg_collections (CollectionGraph_new (map_to_list m).*2) = m) as Hm.
  { apply map_eq. intros id. apply option_eq. intros c. split.
    - intros [<- (id' & Hid')%values_elem]%CollectionGraph_new_keyed.
      by rewrite (Hk id' c Hid').
    - intros Hc. destruct (cg_collections (CollectionGraph_new (map_to_list m).*2) !! id)
        as [c'|] eqn:E.
      + apply CollectionGraph_new_keyed in E as [<- (id' & Hid')%values_elem].
        rewrite (Hk id' c' Hid') in Hc. congruence.
      + apply eq_None_not_Some in E. destruct E. apply CollectionGraph_new_lookup.
        apply list_elem_of_fmap. exists c. split; [by rewrite (Hk id c Hc)|].
        apply values_elem. eauto. }
  assert (cg_duplicates (CollectionGraph_new (map_to_list m).*2) = ∅) as Hd.
  { apply CollectionGraph_new_NoDup. rewrite values_ids by done. apply NoDup_fst_map_to_list. }
  unfold map_graph. destruct (CollectionGraph_new _); simpl in *. congruence.
Qed.

(** ** Reachability is exact *)

Section reaches.
Context (m : gmap CollectionId Collection) (target : CollectionId).
Let edge := nests (map_graph m).

(** What an unsuccessful search leaves behind: new nodes are closed under nesting. *)
Definition explored (visited visited' : gset CollectionId) : Prop :=
  visited ⊆ visited' ∧ target ∉ visited' ∧
  ∀ x y, x ∈ visited' → x ∉ visited → edge x y → y ∈ visited'.

Definition search_post (starts : CollectionId → Prop) (visited : gset CollectionId)
    (r : option (bool * gset CollectionId)) : Prop :=
  match r with
  | None => False
  | Some (true, _) => ∃ x, starts x ∧ rtc edge x target
  | Some (false, visited') => explored visited visited' ∧ ∀ x, starts x → x ∈ visited'
  end.

Lemma explored_trans v1 v2 v3 : explored v1 v2 → explored v2 v3 → explored v1 v3.
Proof.
  intros (H1 & _ & H2) (H3 & H4 & H5). split_and!; [set_solver|done|].
  intros x y Hx Hx1 Hxy. destruct (decide (x ∈ v2)); [apply H3; by eapply H2|by eapply H5].
Qed.

Lemma any_member_spec rec ms visited :
  (∀ nested v, visited ⊆ v → target ∉ v → search_post (eq nested) v (rec nested v)) →
  target ∉ visited →
  search_post (λ x, Member_Collection x ∈ ms) visited (any_member rec ms visited).
Proof.
  revert visited. induction ms as [|[t|nested] ms IH]; intros visited Hrec Ht; simpl.
  - split; [|set_solver]. split_and!; [done..|]. naive_solver.
  - specialize (IH visited Hrec Ht). destruct (any_member rec ms visited) as [[[] v]|];
      simpl in *; [|destruct IH; split; set_solver|done].
    destruct IH as (x & Hx & Hr). exists x. split; [set_solver|done].
  - pose proof (Hrec nested visited ltac:(done) Ht) as Hn.
    destruct (rec nested visited) as [[[] v]|]; simpl in *; [| |done].
    + destruct Hn as (x & <- & Hr). exists nested. split; [set_solver|done].
    + destruct Hn as [Hex Hin]. specialize (IH v). destruct Hex as (Hsub & Htv & Hcl).
      assert (∀ nested v', v ⊆ v' → target ∉ v' → search_post (eq nested) v' (rec nested v'))
        as Hrec' by (intros; apply Hrec; [set_solver|done]).
      specialize (IH Hrec' Htv). destruct (any_member rec ms v) as [[[] v']|]; simpl in *; [| |done].
      * destruct IH as (x & Hx & Hr). exists x. split; [set_solver|done].
      * destruct IH as [Hex' Hin']. split; [by eapply explored_trans|].
        intros x [[= ->]|Hx]%elem_of_cons; [|by apply Hin']. destruct Hex' as [? _].
        specialize (Hin nested eq_refl). set_solver.
Qed.

Lemma collection_reaches_spec fuel from visited :
  size (dom m ∖ visited) < fuel → target ∉ visited →
  search_post (eq from) visited (collection_reaches m fuel from target visited).
Proof.
  revert from visited. induction fuel as [|fuel IH]; intros from visited Hf Ht; [lia|]. simpl.
  case_decide as Heq; [subst; exists target; split; [done|apply rtc_refl]|].
  case_decide as Hin; simpl.
  { split; [|by intros ? <-]. split_and!; [done..|]. naive_solver. }
  destruct (m !! from) as [c|] eqn:Hc; simpl.
  2: { split; [|set_solver]. split_and!; [set_solver..|]. intros x y Hx Hv (c & Hm & _).
       assert (x = from) as -> by set_solver. simpl in Hm. congruence. }
  assert (size (dom m ∖ ({[from]} ∪ visited)) < fuel) as Hf'.
  { assert (from ∈ dom m ∖ visited) as Hfrom.
    { apply elem_of_difference. split; [by apply elem_of_dom_2 in Hc|done]. }
    assert (dom m ∖ ({[from]} ∪ visited) ⊂ dom m ∖ visited) as Hs%subset_size; [|lia].
    split; [set_solver|]. intros Hback. specialize (Hback from Hfrom). set_solver. }
  assert (search_post (λ x, Member_Collection x ∈ collection_members c) ({[from]} ∪ visited)
    (any_member (λ nested, collection_reaches m fuel nested target)
      (collection_members c) ({[from]} ∪ visited))) as Hany.
  { apply any_member_spec; [|set_solver]. intros nested v' Hv' Ht'. apply IH; [|done].
    assert (dom m ∖ v' ⊆ dom m ∖ ({[from]} ∪ visited)) as Hs%subseteq_size by set_solver. lia. }
  destruct (any_member _ _ _) as [[[] v]|]; simpl in *; [| |done].
  - destruct Hany as (x & Hx & Hr).
    exists from. split; [done|]. eapply rtc_l; [|done]. by exists c.
  - destruct Hany as [(Hsub & Htv & Hcl) Hms].
    split; [|set_solver]. split_and!; [set_solver|done|]. intros x y Hx Hv Hxy.
    destruct (decide (x = from)) as [->|Hne]; [|apply (Hcl x); set_solver].
    destruct Hxy as (c' & Hc' & Hy). simpl in Hc'. simplify_eq. by apply Hms.
Qed.

(** The search answers, and answers the transitive closure of nesting. *)
Lemma collection_reaches_exact from :
  ∃ b v, collection_reaches m (reaches_fuel m) from target ∅ = Some (b, v) ∧
         (b = true ↔ rtc edge from target).
Proof.
  pose proof (collection_reaches_spec (reaches_fuel m) from ∅) as Hs.
  unfold reaches_fuel in *. rewrite difference_empty_L, size_dom in Hs.
  specialize (Hs ltac:(lia) ltac:(set_solver)).
  destruct (collection_reaches _ _ _ _ _) as [[b v]|]; simpl in *; [|done].
  exists b, v. split; [done|]. destruct b; simpl in *.
  - destruct Hs as (x & <- & Hr). done.
  - destruct Hs as [(_ & Ht & Hcl) Hin]. split; [done|]. intros Hr. destruct Ht.
    assert (from ∈ v) as Hf by by apply Hin. clear Hin.
    induction Hr as [x|x y z Hxy Hr IH]; [done|]. apply IH. apply (Hcl x); [done|set_solver|done].
Qed.
End reaches.

(** ** Soundness of updated graphs *)

Lemma good_lookup m id : good (map_graph m) id → is_Some (m !! id).
Proof. intros [c Hc _ _]. by exists c. Qed.

(** Shrinking memberships keeps collections sound. *)
Lemma good_shrink m m' id :
  (∀ x c, m !! x = Some c → ∃ c', m' !! x = Some c' ∧
     ∀ b, Member_Collection b ∈ collection_members c' → Member_Collection b ∈ collection_members c) →
  good (map_graph m) id → good (map_graph m') id.
Proof.
  intros Hsub. induction 1 as [id c Hc Hd Hn IH]. destruct (Hsub id c Hc) as (c' & Hc' & Hms).
  apply (good_intro _ _ c'); [done|set_solver|]. intros b Hb. apply IH. by apply Hms.
Qed.

(** A collection that does not reach [id] does not notice a change to it. *)
Lemma good_elsewhere m m' id x :
  (∀ y, y ≠ id → m' !! y = m !! y) →
  ¬ rtc (nests (map_graph m)) x id → good (map_graph m) x → good (map_graph m') x.
Proof.
  intros Heq Hr Hg. induction Hg as [x c Hc Hd Hn IH].
  assert (x ≠ id) as Hx by (intros ->; destruct Hr; apply rtc_refl).
  apply (good_intro _ _ c); [simpl; rewrite Heq; done|set_solver|].
  intros b Hb. apply IH; [done|]. intros Hb'. apply Hr. eapply rtc_l; [by exists c|done].
Qed.

Lemma good_insert_fresh m id c x :
  m !! id = None → good (map_graph m) x → good (map_graph (<[id := c]> m)) x.
Proof.
  intros Hid Hg. apply (good_shrink m); [|done]. intros y cy Hy. exists cy.
  rewrite lookup_insert_ne by congruence. done.
Qed.

(** Adding a nested collection that does not reach back keeps everything sound. *)
Lemma good_add m id c ms nested x :
  m !! id = Some c →
  (∀ b, Member_Collection b ∈ ms → Member_Collection b ∈ collection_members c ∨ b = nested) →
  good (map_graph m) nested → ¬ rtc (nests (map_graph m)) nested id →
  good (map_graph m) x →
  good (map_graph (alter (λ c, with_members c ms) id m)) x.
Proof.
  intros Hid Hms Hn Hr. set (m' := alter _ id m).
  assert (good (map_graph m') nested) as Hn'.
  { apply (good_elsewhere m m' id); [|done..]. intros y Hy. by apply lookup_alter_ne. }
  induction 1 as [x cx Hx Hd Hb IH]. destruct (decide (x = id)) as [->|Hne].
  - simpl in Hx. simplify_eq. apply (good_intro _ _ (with_members c ms));
      [simpl; unfold m'; by rewrite lookup_alter_eq, Hid|set_solver|].
    intros b [Hin| ->]%Hms; [|done]. by apply IH.
  - apply (good_intro _ _ cx); [simpl; unfold m'; by rewrite lookup_alter_ne|set_solver|done].
Qed.

Lemma alter_shrink m id (c : Collection) ms x :
  m !! id = Some c →
  (∀ b, Member_Collection b ∈ ms → Member_Collection b ∈ collection_members c) →
  good (map_graph m) x →
  good (map_graph (alter (λ c, with_members c ms) id m)) x.
Proof.
  intros Hid Hms. apply good_shrink. intros y cy Hy. destruct (decide (y = id)) as [->|Hne].
  - simplify_eq. exists (with_members c ms). by rewrite lookup_alter_eq, Hid.
  - exists cy. by rewrite lookup_alter_ne.
Qed.

(** Removing an unreferenced collection. *)
Lemma good_delete m id x :
  (∀ y c, m !! y = Some c → y ≠ id → Member_Collection id ∉ collection_members c) →
  x ≠ id → good (map_graph m) x → good (map_graph (delete id m)) x.
Proof.
  intros Hun Hx Hg. induction Hg as [x c Hc Hd Hn IH].
  apply (good_intro _ _ c); [simpl; by rewrite lookup_delete_ne|set_solver|].
  intros b Hb. apply IH; [done|]. intros ->. by apply (Hun x c).
Qed.

(** ** Registry updates *)

Lemma registry_alter m id c ms :
  registry_wf m → m !! id = Some c → NoDup ms →
  (∀ x, good (map_graph m) x →
     good (map_graph (alter (λ c, with_members c ms) id m)) x) →
  registry_wf (alter (λ c, with_members c ms) id m).
Proof.
  intros [Hk Hm Hs] Hid Hms Hg. split.
  - intros y cy. destruct (decide (y = id)) as [->|Hne].
    + rewrite lookup_alter_eq, Hid. intros [= <-]. by apply (Hk id c).
    + rewrite lookup_alter_ne by done. apply Hk.
  - intros y cy. destruct (decide (y = id)) as [->|Hne].
    + rewrite lookup_alter_eq, Hid. by intros [= <-].
    + rewrite lookup_alter_ne by done. apply Hm.
  - intros y Hy. apply Hg, Hs. by apply lookup_alter_is_Some in Hy.
Qed.

Lemma registry_insert m id c :
  registry_wf m → m !! id = None → collection_id c = id → NoDup (collection_members c) →
  (∀ b, Member_Collection b ∈ collection_members c → is_Some (m !! b)) →
  registry_wf (<[id := c]> m).
Proof.
  intros [Hk Hm Hs] Hid Hc Hnd Hb. split.
  - by apply map_Forall_insert_2.
  - by apply map_Forall_insert_2.
  - intros x Hx. destruct (decide (x = id)) as [->|Hne].
    + apply (good_intro _ _ c); [apply lookup_insert_eq|set_solver|].
      intros b Hin. apply good_insert_fresh; [done|]. by apply Hs, Hb.
    + apply good_insert_fresh; [done|]. apply Hs. by rewrite lookup_insert_ne in Hx.
Qed.

Lemma registry_delete m id :
  registry_wf m →
  (∀ y c, m !! y = Some c → y ≠ id → Member_Collection id ∉ collection_members c) →
  registry_wf (delete id m).
Proof.
  intros [Hk Hm Hs] Hun. split.
  - by apply map_Forall_delete.
  - by apply map_Forall_delete.
  - intros x [c Hx]. apply lookup_delete_Some in Hx as [Hne Hx].
    apply good_delete; [done|done|]. apply Hs. eauto.
Qed.

(** ** Operations *)

Lemma elem_of_referencing st id x :
  map_Forall (λ id c, collection_id c = id) (ds_collections st) →
  x ∈ collections_referencing st id ↔ x ≠ id ∧ nests (map_graph (ds_collections st)) x id.
Proof.
  intros Hk. unfold collections_referencing, collection_values, nests. simpl.
  rewrite list_elem_of_fmap. setoid_rewrite list_elem_of_filter. setoid_rewrite values_elem. split.
  - intros (c & -> & [Hne Hin] & (y & Hy)). split; [done|]. exists c.
    by rewrite (Hk y c Hy).
  - intros (Hne & c & Hc & Hin). exists c. rewrite (Hk x c Hc). eauto.
Qed.

(** A scene with a dynamic binding to [id]. *)
Definition scene_uses (s : Scene) (id : CollectionId) : Prop :=
  ∃ b, b ∈ scene_bindings s ∧ dynamic_collection b = Some id.

Lemma scene_uses_bool s id :
  existsb (λ b, bool_decide (dynamic_collection b = Some id)) (scene_bindings s) = true ↔
  scene_uses s id.
Proof.
  rewrite existsb_exists. unfold scene_uses. setoid_rewrite list_elem_of_In.
  setoid_rewrite bool_decide_eq_true. done.
Qed.

Lemma find_scene st id :
  match List.find (λ s, existsb (λ b, bool_decide (dynamic_collection b = Some id))
                          (scene_bindings s)) (map_to_list (ds_scenes st)).*2 with
  | Some s => (∃ k, ds_scenes st !! k = Some s) ∧ scene_uses s id
  | None => ∀ k s, ds_scenes st !! k = Some s → ¬ scene_uses s id
  end.
Proof.
  destruct (List.find _ _) as [s|] eqn:E.
  - apply List.find_some in E as [Hin Hu]. apply scene_uses_bool in Hu. split; [|done].
    apply list_elem_of_In, list_elem_of_fmap in Hin as ([k s'] & -> & Hin).
    exists k. by apply elem_of_map_to_list.
  - intros k s Hs Hu. apply scene_uses_bool in Hu.
    eapply List.find_none in E; [by rewrite E in Hu|].
    apply list_elem_of_In, list_elem_of_fmap. exists (k, s).
    split; [done|]. by apply elem_of_map_to_list.
Qed.

Lemma nested_exists_Ok st ms :
  try_for (nested_exists st) ms = Ok tt ↔
  ∀ b, Member_Collection b ∈ ms → is_Some (ds_collections st !! b).
Proof.
  rewrite try_for_Ok, Forall_forall. split.
  - intros Hall b Hb. specialize (Hall _ Hb). simpl in Hall. by case_bool_decide.
  - intros Hall [t|b] Hb; [done|]. simpl. by rewrite bool_decide_true by auto.
Qed.

Section operations.
Context `{Env}.

Lemma destroy_collection_spec st id :
  map_Forall (λ id c, collection_id c = id) (ds_collections st) →
  let '(st', r) := destroy_collection st id in
  match r with
  | Ok c => ds_collections st !! id = Some c ∧
            (∀ x, x ≠ id → ¬ nests (map_graph (ds_collections st)) x id) ∧
            (∀ k s, ds_scenes st !! k = Some s → ¬ scene_uses s id) ∧
            st' = set_collections st (delete id (ds_collections st))
  | Err e => st' = st ∧
      match e with
      | DE_CollectionNotFound id' => id' = id ∧ ds_collections st !! id = None
      | DE_CollectionInUse id' referenced_by =>
          id' = id ∧ referenced_by ≠ [] ∧
          ∀ x, x ∈ referenced_by ↔ x ≠ id ∧ nests (map_graph (ds_collections st)) x id
      | DE_CollectionReferencedByScene id' scene =>
          id' = id ∧ ∃ k s, ds_scenes st !! k = Some s ∧ scene_id s = scene ∧ scene_uses s id
      | _ => False
      end
  end.
Proof.
  intros Hk. unfold destroy_collection. case_bool_decide as Hid.
  2: { split; [done|]. split; [done|]. by apply eq_None_not_Some. }
  destruct (bool_decide (collections_referencing st id = [])) eqn:Hr; simpl.
  2: { apply bool_decide_eq_false in Hr. split_and!; [done..|]. intros x.
       by apply elem_of_referencing. }
  apply bool_decide_eq_true in Hr. pose proof (find_scene st id) as Hs.
  destruct (List.find _ _) as [s|].
  { destruct Hs as [[k Hk'] Hu]. split_and!; [done..|]. by exists k, s. }
  destruct Hid as [c Hc]. rewrite Hc. split_and!; [done| |done..].
  intros x Hx Hn. assert (x ∈ collections_referencing st id) as Hin by by apply elem_of_referencing.
  rewrite Hr in Hin. by apply not_elem_of_nil in Hin.
Qed.

(** Whether a new member may be added at all. *)
Definition admissible (st : DaemonState) (id : CollectionId) (member : CollectionMember) : Prop :=
  match member with
  | Member_Target _ => True
  | Member_Collection nested =>
      is_Some (ds_collections st !! nested) ∧
      ¬ rtc (nests (map_graph (ds_collections st))) nested id
  end.

Definition inadmissible (st : DaemonState) (id : CollectionId) (member : CollectionMember)
    (e : DaemonError) : Prop :=
  match member with
  | Member_Target _ => False
  | Member_Collection nested =>
      if decide (nested = id) then e = DE_CollectionSelfReference id
      else if decide (is_Some (ds_collections st !! nested))
      then e = DE_CollectionCycle nested ∧
           rtc (nests (map_graph (ds_collections st))) nested id
      else e = DE_CollectionNotFound nested
  end.

Lemma check_new_member_spec st id member :
  ∃ r, check_new_member st id member = Some r ∧
  match r with
  | Ok _ => admissible st id member
  | Err e => inadmissible st id member e
  end.
Proof.
  destruct member as [t|nested]; cbn [check_new_member]; [by eexists|].
  destruct (decide (nested = id)) as [Heq|Heq] eqn:Hd;
    [eexists; split; [done|]; simpl; by rewrite Hd|]. case_bool_decide as Hn.
  2: { eexists. split; [done|]. simpl. by rewrite Hd, decide_False. }
  destruct (collection_reaches_exact (ds_collections st) id nested) as (b & v & Hb & Hiff).
  rewrite Hb. simpl. eexists. split; [done|]. destruct b.
  - simpl. rewrite Hd, decide_True by done. split; [done|]. by apply Hiff.
  - split; [done|]. intros Hr%Hiff. done.
Qed.

Lemma set_members_undo st id c ms :
  ds_collections st !! id = Some c →
  set_members (set_members st id ms) id (collection_members c) = st.
Proof.
  intros Hc. destruct st. simpl in *. unfold set_members. simpl. f_equal.
  apply map_eq. intros x. destruct (decide (x = id)) as [->|Hne].
  - rewrite !lookup_alter_eq, Hc. simpl. by destruct c.
  - by rewrite !lookup_alter_ne.
Qed.

Lemma add_collection_member_spec st id member :
  ∃ st' r, add_collection_member st id member = Some (st', r) ∧
  match r with
  | Ok _ => ∃ c, ds_collections st !! id = Some c ∧ admissible st id member ∧
            st' = set_members st id (push_unique (collection_members c) member) ∧
            snapshot_wf (snapshot_of st')
  | Err e => st' = st ∧
      match ds_collections st !! id with
      | None => e = DE_CollectionNotFound id
      | Some c => inadmissible st id member e ∨
                  admissible st id member ∧ (∃ message, e = DE_ResourceLimit message) ∧
                  ¬ snapshot_wf (snapshot_of
                      (set_members st id (push_unique (collection_members c) member)))
      end
  end.
Proof.
  unfold add_collection_member. case_bool_decide as Hid.
  2: { exists st, (Err (DE_CollectionNotFound id)). apply eq_None_not_Some in Hid.
       by rewrite Hid. }
  destruct Hid as [c Hc]. destruct (check_new_member_spec st id member) as (r & Hr & Hspec).
  rewrite Hr, Hc. simpl. destruct r as [[]|e].
  2: { exists st, (Err e). split; [done|]. split; [done|]. by left. }
  fold (push_unique (collection_members c) member).
  destruct (ensure_persistable _) as [[]|e] eqn:He.
  - apply ensure_persistable_Ok in He. eexists _, (Ok tt). split; [done|]. eauto.
  - apply ensure_persistable_Err in He as [He Hm]. eexists _, (Err e). split; [done|].
    split; [by apply set_members_undo|]. right. eauto.
Qed.

Lemma create_collection_spec st generated name description owner kind members :
  ds_collections st !! generated = None →
  let '(st', r) := create_collection st generated name description owner kind members in
  let c := {| collection_id := generated; collection_name := name;
              collection_description := description; collection_owner := owner;
              collection_kind := kind; collection_members := fold_left push_unique members [] |} in
  let inserted := set_collections st (<[generated := c]> (ds_collections st)) in
  match r with
  | Ok id => id = generated ∧ st' = inserted ∧
             (∀ b, Member_Collection b ∈ members → is_Some (ds_collections st !! b)) ∧
             snapshot_wf (snapshot_of st')
  | Err e => st' = st ∧
             ((∃ b, Member_Collection b ∈ members ∧ ds_collections st !! b = None ∧
                    e = DE_CollectionNotFound b) ∨
              (∃ message, e = DE_ResourceLimit message) ∧ ¬ snapshot_wf (snapshot_of inserted))
  end.
Proof.
  intros Hfresh. unfold create_collection.
  destruct (try_for _ members) as [[]|e] eqn:Hn.
  2: { split; [done|]. left. apply try_for_Err in Hn as (pre & [t|b] & post & -> & _ & Hb); [done|].
       exists b. simpl in Hb. case_bool_decide as Hs; simplify_eq.
       split_and!; [set_solver| |done]. by apply eq_None_not_Some. }
  pose proof (proj1 (nested_exists_Ok st members) Hn) as Hn1. cbn zeta. destruct (ensure_persistable _) as [[]|e] eqn:He.
  - apply ensure_persistable_Ok in He. done.
  - apply ensure_persistable_Err in He as [He Hm]. split; [|by right].
    destruct st. simpl in *. by rewrite delete_insert_id.
Qed.
End operations.

(** ** The registry as a transition system *)

Definition collections_inv (st : DaemonState) : Prop :=
  registry_wf (ds_collections st) ∧ scene_refs_wf st.

(** One call of a registry operation, whatever it answers; a generated identifier
    is not in use. *)
Inductive collection_step `{Env} (st st' : DaemonState) : Prop :=
| step_create generated name description owner kind members r :
    ds_collections st !! generated = None →
    create_collection st generated name description owner kind members = (st', r) →
    collection_step st st'
| step_destroy id r :
    destroy_collection st id = (st', r) → collection_step st st'
| step_add id member r :
    add_collection_member st id member = Some (st', r) → collection_step st st'
| step_remove id member r :
    remove_collection_member st id member = (st', r) → collection_step st st'.

Lemma scene_refs_grow st m :
  (∀ id, is_Some (ds_collections st !! id) → is_Some (m !! id)) →
  scene_refs_wf st → scene_refs_wf (set_collections st m).
Proof.
  intros Hm Hs id s b c. replace (ds_scenes (set_collections st m)) with (ds_scenes st) by
    by destruct st. replace (ds_collections (set_collections st m)) with m by by destruct st.
  intros. by eapply Hm, Hs.
Qed.

Lemma set_members_inv st id c ms :
  collections_inv st → ds_collections st !! id = Some c → NoDup ms →
  (∀ x, good (map_graph (ds_collections st)) x →
     good (map_graph (alter (λ c, with_members c ms) id (ds_collections st))) x) →
  collections_inv (set_members st id ms).
Proof.
  intros [Hr Hs] Hc Hms Hg. unfold set_members. split.
  - replace (ds_collections (set_collections st _)) with
      (alter (λ c, with_members c ms) id (ds_collections st)) by by destruct st.
    by eapply registry_alter.
  - apply scene_refs_grow; [|done]. intros x. by rewrite lookup_alter_is_Some.
Qed.

Lemma push_unique_NoDup {A} `{EqDecision A} (l : list A) x :
  NoDup l → NoDup (push_unique l x).
Proof. intros Hl. apply (push_unique_all [x] l Hl). Qed.

Lemma elem_of_push_unique {A} `{EqDecision A} (l : list A) x y :
  y ∈ push_unique l x → y ∈ l ∨ y = x.
Proof. unfold push_unique. case_decide; set_solver. Qed.

Lemma add_member_inv `{Env} st id member st' r :
  collections_inv st → add_collection_member st id member = Some (st', r) → collections_inv st'.
Proof.
  intros Hinv Hadd. destruct (add_collection_member_spec st id member) as (st1 & r1 & H1 & H2).
  rewrite Hadd in H1. injection H1 as <- <-. destruct r as [[]|e]; [|by destruct H2 as [-> _]].
  destruct H2 as (c & Hc & Hadm & -> & _). destruct Hinv as [Hr Hs] eqn:E. clear E.
  apply (set_members_inv st id c); [done|done| |].
  - apply push_unique_NoDup. by eapply (rw_members _ Hr).
  - intros x Hx. destruct member as [t|nested].
    + apply (alter_shrink _ id c); [done| |done].
      intros b [Hb|Hb]%elem_of_push_unique; [done|discriminate].
    + destruct Hadm as [Hn Hnr]. apply (good_add _ id c _ nested); [done| |by apply (rw_sound _ Hr)
        |done|done].
      intros b [Hb|[= ->]]%elem_of_push_unique; auto.
Qed.

Lemma destroy_inv `{Env} st id st' r :
  collections_inv st → destroy_collection st id = (st', r) → collections_inv st'.
Proof.
  intros [Hr Hs] Hd. pose proof (destroy_collection_spec st id (rw_keyed _ Hr)) as Hspec.
  rewrite Hd in Hspec. destruct r as [c|e]; [|by destruct Hspec as [-> _]].
  destruct Hspec as (Hc & Hun & Hsc & ->). split.
  - replace (ds_collections (set_collections st _)) with (delete id (ds_collections st))
      by by destruct st.
    apply registry_delete; [done|]. intros y cy Hy Hne Hin. apply (Hun y Hne). by exists cy.
  - intros k s b x. replace (ds_scenes (set_collections st _)) with (ds_scenes st) by by destruct st.
    replace (ds_collections (set_collections st _)) with (delete id (ds_collections st))
      by by destruct st.
    intros Hk Hb Hx. destruct (decide (x = id)) as [->|Hne].
    + destruct (Hsc k s Hk). by exists b.
    + rewrite lookup_delete_ne by done. by eapply Hs.
Qed.

Lemma create_inv `{Env} st generated name description owner kind members st' r :
  collections_inv st → ds_collections st !! generated = None →
  create_collection st generated name description owner kind members = (st', r) →
  collections_inv st'.
Proof.
  intros [Hr Hs] Hf Hc.
  pose proof (create_collection_spec st generated name description owner kind members Hf) as Hspec.
  rewrite Hc in Hspec. cbn zeta in Hspec. destruct r as [id|e]; [|by destruct Hspec as [-> _]].
  destruct Hspec as (-> & -> & Hn & _).
  destruct (push_unique_all members [] (NoDup_nil_2)) as [Hnd Hel]. split.
  - set (c := Build_Collection _ _ _ _ _ _).
    replace (ds_collections (set_collections st _)) with (<[generated := c]> (ds_collections st))
      by by destruct st.
    apply registry_insert; [done..|]. intros b Hb. apply Hn. simpl in Hb. apply Hel in Hb.
    set_solver.
  - apply scene_refs_grow; [|done]. intros x Hx. destruct (decide (x = generated)) as [->|Hne].
    + by rewrite lookup_insert_eq.
    + by rewrite lookup_insert_ne.
Qed.

Lemma remove_inv `{Env} st id member st' r :
  collections_inv st → remove_collection_member st id member = (st', r) → collections_inv st'.
Proof.
  intros Hinv. unfold remove_collection_member.
  destruct (ds_collections st !! id) as [c|] eqn:Hc; intros [= <- <-]; [|done].
  apply (set_members_inv st id c); [done|done| |].
  - apply NoDup_filter. destruct Hinv as [Hr _]. by eapply (rw_members _ Hr).
  - intros x Hx. apply (alter_shrink _ id c); [done| |done].
    by intros b [_ Hb]%list_elem_of_filter.
Qed.

Lemma collection_step_inv `{Env} st st' :
  collections_inv st → collection_step st st' → collections_inv st'.
Proof.
  intros Hinv [generated name description owner kind members r Hf Hc|id r Hd|id m r Ha|id m r Hr];
    eauto using create_inv, destroy_inv, add_member_inv, remove_inv.
Qed.

Lemma resolve_registered st id :
  registry_wf (ds_collections st) → is_Some (ds_collections st !! id) →
  ∃ leaves, resolve_collection_leaves st id = Ok leaves ∧ NoDup leaves ∧
    ∀ t, t ∈ leaves ↔ leaf_of (map_graph (ds_collections st)) id t.
Proof.
  intros Hr Hid. unfold resolve_collection_leaves. rewrite graph_of_values by apply Hr.
  destruct (resolve_leaves_good (map_graph (ds_collections st)) id) as (ts & Hts & Hl).
  { by apply (rw_sound _ Hr). }
  rewrite Hl. simpl. exists (dedup [] ts). split_and!; [done|by apply NoDup_dedup, NoDup_nil_2|].
  intros t. by apply resolve_leaves_elem.
Qed.

(** ** Fan-out *)

Lemma insert_members st members state :
  fold_left (λ st member, insert_target_state st member state) members st =
  insert_all st ((λ t, TargetStateEntry_mk t state) <$> members).
Proof.
  unfold insert_all. revert st. induction members as [|t members IH]; intros st; [done|].
  simpl. by rewrite IH.
Qed.

Lemma insert_all_only st ws :
  insert_all st ws = set_target_state st (ds_target_state (insert_all st ws)).
Proof.
  induction ws as [|w ws IH] using rev_ind; [by destruct st|].
  rewrite insert_all_app, IH. by destruct st.
Qed.

Definition supports `{Env} (st : DaemonState) (state : TargetState) (t : TargetId) : Prop :=
  validate_target_state st t state = Ok tt.

Lemma filter_supported `{Env} st state members :
  filter (λ m, is_ok (validate_target_state st m state) = true) members = [] ↔
  Forall (λ m, ¬ supports st state m) members.
Proof.
  unfold supports. rewrite Forall_forall. setoid_rewrite <-is_ok_unit. split.
  - intros Hf m Hm Hs. apply (not_elem_of_nil m). rewrite <-Hf. by apply list_elem_of_filter.
  - intros Hall. destruct (filter _ _) as [|m l] eqn:Hf; [done|].
    assert (m ∈ m :: l) as Hm by by left. rewrite <-Hf in Hm.
    apply list_elem_of_filter in Hm as [Hs Hm]. by destruct (Hall m Hm).
Qed.

(** ** Claims *)

(** The collection registry never becomes unsound.  From a registry whose keys are
    the identifiers, whose members are not repeated and whose collections all
    resolve, and whose scenes refer only to registered collections, every sequence
    of creations, destructions, additions and removals, successful or not, leads to
    such a registry; in it every registered collection expands, without error, to
    exactly its transitive leaf targets, each once. *)
Theorem registry_stays_sound `{Env} st st' :
  collections_inv st → rtc collection_step st st' →
  collections_inv st' ∧
  ∀ id, is_Some (ds_collections st' !! id) →
    ∃ leaves, resolve_collection_leaves st' id = Ok leaves ∧ NoDup leaves ∧
      ∀ t, t ∈ leaves ↔ leaf_of (map_graph (ds_collections st')) id t.
Proof.
  intros Hinv Hrun.
  assert (collections_inv st') as Hinv'
    by (induction Hrun; eauto using collection_step_inv).
  split; [done|]. intros id. apply resolve_registered, Hinv'.
Qed.

(** Adding a member always answers, and exactly: it is refused for an unknown
    collection, for the collection itself, for an unknown nested collection, for a
    nested collection that already reaches it, and when the result could not be
    persisted, in each case with the named error and no change; otherwise the member
    is added once and the resulting state can be persisted. *)
Theorem add_member_correct `{Env} st id member :
  ∃ st' r, add_collection_member st id member = Some (st', r) ∧
  match r with
  | Ok _ => ∃ c, ds_collections st !! id = Some c ∧ admissible st id member ∧
            st' = set_members st id (push_unique (collection_members c) member) ∧
            snapshot_wf (snapshot_of st')
  | Err e => st' = st ∧
      match ds_collections st !! id with
      | None => e = DE_CollectionNotFound id
      | Some c => inadmissible st id member e ∨
                  admissible st id member ∧ (∃ message, e = DE_ResourceLimit message) ∧
                  ¬ snapshot_wf (snapshot_of
                      (set_members st id (push_unique (collection_members c) member)))
      end
  end.
Proof. apply add_collection_member_spec. Qed.

(** Destruction is restricted, and exact: a registered collection is removed, and
    nothing else changes, precisely when no other collection nests it and no scene
    binds to it; otherwise nothing changes and the error names all the referring
    collections, or a scene that uses it. *)
Theorem destroy_collection_correct st id :
  registry_wf (ds_collections st) →
  let '(st', r) := destroy_collection st id in
  match r with
  | Ok c => ds_collections st !! id = Some c ∧
            (∀ x, x ≠ id → ¬ nests (map_graph (ds_collections st)) x id) ∧
            (∀ k s, ds_scenes st !! k = Some s → ¬ scene_uses s id) ∧
            st' = set_collections st (delete id (ds_collections st))
  | Err e => st' = st ∧
      match e with
      | DE_CollectionNotFound id' => id' = id ∧ ds_collections st !! id = None
      | DE_CollectionInUse id' referenced_by =>
          id' = id ∧ referenced_by ≠ [] ∧
          ∀ x, x ∈ referenced_by ↔ x ≠ id ∧ nests (map_graph (ds_collections st)) x id
      | DE_CollectionReferencedByScene id' scene =>
          id' = id ∧ ∃ k s, ds_scenes st !! k = Some s ∧ scene_id s = scene ∧ scene_uses s id
      | _ => False
      end
  end.
Proof. intros Hr. apply destroy_collection_spec, Hr. Qed.

(** A mutation is fanned out to members that support it.  Under the rejecting
    policy the plan is all the members or nothing; under the skipping policy it is
    exactly the supporting members in order, and an effect that no member supports
    is an error.  Recording a partial success is all or nothing. *)
Theorem fan_out_correct `{Env} st members state :
  (∀ plan, prepare_collection_mutation st members state Unsupported_Reject = Ok plan ↔
     plan = members ∧ Forall (supports st state) members) ∧
  (∀ plan, prepare_collection_mutation st members state Unsupported_Skip = Ok plan ↔
     plan = filter (λ m, is_ok (validate_target_state st m state) = true) members ∧
     ¬ (members ≠ [] ∧ Forall (λ m, ¬ supports st state m) members ∧
        ∃ effect, state = TS_Effect effect)) ∧
  (let inserted := insert_all st ((λ t, TargetStateEntry_mk t state) <$> members) in
   let '(st', r) := record_collection_partial_success st members state in
   match r with
   | Ok _ => st' = inserted ∧ snapshot_wf (snapshot_of inserted)
   | Err _ => st' = st ∧ ¬ snapshot_wf (snapshot_of inserted)
   end).
Proof.
  split_and!.
  - intros plan. simpl. rewrite bind_unit_Ok, try_for_Ok. unfold supports. naive_solver.
  - intros plan. simpl. rewrite <-filter_supported.
    set (supported := filter _ members).
    assert (∀ m ms, members = m :: ms → supported = [] →
            ¬ validate_target_state st m state = Ok tt) as Hfirst.
    { intros m ms -> Hs%filter_supported. by apply Forall_cons in Hs as [? _]. }
    rewrite bind_unit_Ok. destruct supported as [|s l], state as [effect| | |], members as [|m ms];
      naive_solver.
  - cbn zeta. unfold record_collection_partial_success. rewrite insert_members.
    destruct (ensure_persistable _) as [[]|e] eqn:He.
    + by apply ensure_persistable_Ok in He.
    + apply ensure_persistable_Err in He as [He _]. split; [|done].
      rewrite insert_all_only. by destruct st.
Qed.

(** ** Witnesses *)

Lemma collections_inv_empty devices : collections_inv (from_devices devices).
Proof.
  split.
  - split; [apply map_Forall_empty|apply map_Forall_empty|]. intros id [c Hc].
    simpl in Hc. by rewrite lookup_empty in Hc.
  - intros id s b c Hs. simpl in Hs. by rewrite lookup_empty in Hs.
Qed.

Module Rooms.
Definition room : CollectionId := CollectionId_new "room".
Definition house : CollectionId := CollectionId_new "house".
Definition owner : OwnerIdentity := Owner_Uid 1000.
Definition start : DaemonState := from_devices [Sample.device].
(** A room that holds the keyboard, then a house that holds the room. *)
Definition with_room : DaemonState :=
  (@create_collection sample_env start room "Room" None owner None
     [Member_Target (TargetId_device "kbd")]).1.
Definition with_house : DaemonState :=
  (@create_collection sample_env with_room house "House" None owner None
     [Member_Collection room; Member_Collection room]).1.
End Rooms.

Lemma rooms_built : rtc (@collection_step sample_env) Rooms.start Rooms.with_house.
Proof.
  eapply rtc_l; [|apply rtc_once].
  - eapply (@step_create sample_env _ Rooms.with_room Rooms.room); [reflexivity|].
    apply surjective_pairing.
  - eapply (@step_create sample_env _ Rooms.with_house Rooms.house); [reflexivity|].
    apply surjective_pairing.
Qed.

Lemma registry_stays_sound_witness :
  resolve_collection_leaves Rooms.with_house Rooms.house = Ok [TargetId_device "kbd"] ∧
  ∃ leaves, resolve_collection_leaves Rooms.with_house Rooms.house = Ok leaves ∧ NoDup leaves.
Proof.
  split; [vm_compute; reflexivity|].
  destruct (@registry_stays_sound sample_env Rooms.start Rooms.with_house
    (collections_inv_empty _) rooms_built) as [_ Hl].
  destruct (Hl Rooms.house) as (leaves & Hr & Hnd & _); [vm_compute; eexists; reflexivity|].
  exists leaves. split; [exact Hr|exact Hnd].
Defined.

Lemma destroy_collection_correct_witness :
  (destroy_collection Rooms.with_house Rooms.room).2 =
    Err (DE_CollectionInUse Rooms.room [Rooms.house]) ∧
  (destroy_collection Rooms.with_house Rooms.room).1 = Rooms.with_house.
Proof.
  assert (registry_wf (ds_collections Rooms.with_house)) as Hwf.
  { assert (∀ st, rtc (@collection_step sample_env) Rooms.start st → collections_inv st) as Hi.
    { intros st Hrun. pose proof (collections_inv_empty [Sample.device]) as H0.
      fold Rooms.start in H0. induction Hrun; eauto using collection_step_inv. }
    apply (Hi _ rooms_built). }
  pose proof (destroy_collection_correct Rooms.with_house Rooms.room Hwf) as Hd.
  split; [vm_compute; reflexivity|].
  assert ((destroy_collection Rooms.with_house Rooms.room).2 =
    Err (DE_CollectionInUse Rooms.room [Rooms.house])) as Hr by (vm_compute; reflexivity).
  destruct (destroy_collection Rooms.with_house Rooms.room) as [st' r]. simpl in *.
  rewrite Hr in Hd. exact (proj1 Hd).
Defined.
