(* ===== verification/FrameStreams.v ===== *)
(** * Frame streams: [luminated/src/state/frame_stream.rs]

    The lifecycle of a pixel stream on a target: admission, the checks on every
    uploaded frame (topology, generation, sequence, rate), and termination.
    [Instant] is a count of nanoseconds given to the operation that reads the
    clock.  The rate limit is computed as the code does, by a 64-bit floating-point
    division and a rounding to nanoseconds. *)

From Stdlib Require Import Floats.SpecFloat.
From S2P Require Import Prelude Model Daemon Topology TargetStates.

(** ** The rate limit *)

(** [f64::from(n)] for an integer that fits 53 bits. *)
Definition f64_of (n : Z) : spec_float := binary_normalize 53 1024 n 0 false.

(** Division with ties to even; the divisor is positive. *)
Definition div_half_even (a b : Z) : Z :=
  let q := (a / b)%Z in
  let r := (2 * (a mod b))%Z in
  if (r <? b)%Z then q else if (b <? r)%Z then (q + 1)%Z
  else if Z.even q then q else (q + 1)%Z.

(** [Duration::from_secs_f64] in nanoseconds, for a finite non-negative value. *)
Definition duration_from_secs_f64 (x : spec_float) : Z :=
  match x with
  | S754_finite false m (Z.neg e) =>
      div_half_even (Z.pos m * 1000000000) (2 ^ Z.pos e)
  | S754_finite false m e => (Z.pos m * 2 ^ e * 1000000000)%Z
  | _ => 0%Z
  end.

(** [Duration::from_secs_f64(1.0 / f64::from(max_rate_hz.max(1)))] *)
Definition min_interval (max_rate_hz : Z) : Z :=
  duration_from_secs_f64 (SFdiv 53 1024 (f64_of 1) (f64_of (Z.max max_rate_hz 1))).

(** ** Admission *)

Definition is_animated (state : TargetState) : bool :=
  match state with
  | TS_Effect (Effect_Breathe _ _ | Effect_Pulse _ _ | Effect_Strobe _ _ | Effect_Scanner _ _
               | Effect_Morph _ _ | Effect_Spectrum _ | Effect_Rainbow _ | Effect_Hardware _ _) =>
      true
  | _ => false
  end.

Definition effect_active (st : DaemonState) (target : TargetId) : bool :=
  existsb (λ e, target_covers st (tse_target e) target && is_animated (tse_state e))
    (ds_target_state st).

Definition effect_concurrent (capabilities : CapabilitySet) : bool :=
  match cs_hardware_effects capabilities with
  | Some effects => hec_concurrent_with_streaming effects
  | None => false
  end.

(** [values().map(|s| s.generation).max().unwrap_or(0).wrapping_add(1)] *)
Definition last_generation (st : DaemonState) : Z :=
  map_fold (λ _ s g, Z.max (fs_generation s) g) 0%Z (ds_frame_streams st).
Definition next_generation (st : DaemonState) : Z := wrapU 32 (last_generation st + 1).

Definition begin_frame_stream (st : DaemonState) (target : TargetId) : DaemonState * daemon Z :=
  match capabilities_for_target_or_error st target with
  | Err e => (st, Err e)
  | Ok capabilities =>
      if bool_decide (cs_frame_upload capabilities = None)
      then (st, Err (DE_UnsupportedCapability target
                       (Lit "target does not advertise frame-upload capability")))
      else if bool_decide (is_Some (ds_frame_streams st !! target))
      then (st, Err (DE_Conflict target (Lit "a frame stream is already active on this target")))
      else if effect_active st target && negb (effect_concurrent capabilities)
      then (st, Err (DE_Conflict target
              (Lit "an active hardware effect is not marked concurrent with streaming")))
      else
        let generation := next_generation st in
        (set_frame_streams st
           (<[target := {| fs_generation := generation;
                           fs_topology_generation := ds_topology_generation st;
                           fs_next_sequence := 0; fs_last_forwarded_at := None |}]>
              (ds_frame_streams st)),
         Ok generation)
  end.

(** ** Uploads *)

Definition no_stream (target : TargetId) : DaemonError :=
  DE_Conflict target (Lit "no active frame stream on this target").
Definition wrong_generation (target : TargetId) : DaemonError :=
  DE_Conflict target (Lit "frame generation does not match the active stream").
Definition topology_changed : DaemonError :=
  DE_AuthorizationConflict
    (Lit "device topology changed after the frame stream was authorized; begin a new stream").
Definition stale_sequence (target : TargetId) (sequence next : Z) : DaemonError :=
  DE_InvalidArgument target
    (Fmt "frame sequence {} is stale; the active stream already accepted sequence {}"
       [ANum sequence; ANum (saturateU 64 (next - 1))]).

Definition max_rate_hz (st : DaemonState) (target : TargetId) : option Z :=
  capabilities ← capabilities_for_target st target;
  frame_upload ← cs_frame_upload capabilities;
  fu_max_rate_hz frame_upload.

(** [Instant::duration_since] saturates at zero. *)
Definition should_forward (rate last : option Z) (now : Z) : bool :=
  match rate, last with
  | Some rate, Some last => (min_interval rate <=? Z.max 0 (now - last))%Z
  | _, _ => true
  end.

Definition record_frame_upload (now : Z) (st : DaemonState) (target : TargetId)
    (envelope : FrameEnvelope) : DaemonState * daemon bool :=
  match ds_frame_streams st !! target with
  | None => (st, Err (no_stream target))
  | Some stream =>
      if negb (fs_topology_generation stream =? ds_topology_generation st)%Z
      then (set_frame_streams st (delete target (ds_frame_streams st)), Err topology_changed)
      else if negb (fe_generation envelope =? fs_generation stream)%Z
      then (st, Err (wrong_generation target))
      else if (fe_sequence envelope <? fs_next_sequence stream)%Z
      then (st, Err (stale_sequence target (fe_sequence envelope) (fs_next_sequence stream)))
      else
        let forward := should_forward (max_rate_hz st target) (fs_last_forwarded_at stream) now in
        (set_frame_streams st
           (<[target := {| fs_generation := fs_generation stream;
                           fs_topology_generation := fs_topology_generation stream;
                           fs_next_sequence := saturateU 64 (fe_sequence envelope + 1);
                           fs_last_forwarded_at :=
                             if forward then Some now else fs_last_forwarded_at stream |}]>
              (ds_frame_streams st)),
         Ok forward)
  end.

Definition frame_stream_topology_generation (st : DaemonState) (target : TargetId)
    (generation : Z) : DaemonState * daemon Z :=
  match ds_frame_streams st !! target with
  | None => (st, Err (no_stream target))
  | Some stream =>
      if negb (fs_generation stream =? generation)%Z then (st, Err (wrong_generation target))
      else if negb (fs_topology_generation stream =? ds_topology_generation st)%Z
      then (set_frame_streams st (delete target (ds_frame_streams st)), Err topology_changed)
      else (st, Ok (fs_topology_generation stream))
  end.

(** ** Termination *)

Definition end_frame_stream (st : DaemonState) (target : TargetId) (generation : Z) : DaemonState :=
  match ds_frame_streams st !! target with
  | Some stream =>
      if (fs_generation stream =? generation)%Z
      then set_frame_streams st (delete target (ds_frame_streams st)) else st
  | None => st
  end.

Definition end_all_frame_streams (st : DaemonState) (targets : list TargetId) : DaemonState :=
  fold_left (λ st target, set_frame_streams st (delete target (ds_frame_streams st))) targets st.

Definition is_frame_streaming (st : DaemonState) (target : TargetId) : bool :=
  existsb (λ owner, target_covers st owner target) (map_to_list (ds_frame_streams st)).*1.

Definition ensure_not_frame_streaming (st : DaemonState) (target : TargetId) : daemon unit :=
  if is_frame_streaming st target
  then Err (DE_Conflict target (Lit "a frame stream is active on this target"))
  else Ok tt.

Example min_interval_60 : min_interval 60 = 16666667%Z.
Proof. vm_compute. reflexivity. Qed.
Example min_interval_tie : min_interval 1024 = 976562%Z.
Proof. vm_compute. reflexivity. Qed.

(** ** Generations *)

Lemma last_generation_bound st target s :
  ds_frame_streams st !! target = Some s → (fs_generation s <= last_generation st)%Z.
Proof.
  unfold last_generation. revert target s.
  apply (map_fold_weak_ind (λ g m, ∀ t s, m !! t = Some s → (fs_generation s <= g)%Z)).
  - intros t s Hs. by rewrite lookup_empty in Hs.
  - intros t x m g Ht IH t' s Hs. apply lookup_insert_Some in Hs as [[-> ->]|[_ Hs]]; [lia|].
    specialize (IH _ _ Hs). lia.
Qed.

Definition streams_wf (st : DaemonState) : Prop :=
  map_Forall (λ _ s, u32 (fs_generation s) ∧ u64 (fs_next_sequence s)) (ds_frame_streams st).

Lemma last_generation_u32 st : streams_wf st → u32 (last_generation st).
Proof.
  unfold last_generation, streams_wf.
  apply (map_fold_weak_ind (λ g m,
    map_Forall (λ _ s, u32 (fs_generation s) ∧ u64 (fs_next_sequence s)) m → u32 g)).
  - intros _. width.
  - intros t x m g Ht IH Hall. apply map_Forall_insert in Hall as [[Hx _] Hall]; [|done].
    specialize (IH Hall). unfold uN in *. lia.
Qed.

Lemma next_generation_u32 st : u32 (next_generation st).
Proof. apply wrapU_uN. lia. Qed.

(** ** Histories of one stream *)

Inductive StreamEvent :=
| Event_Begin (target : TargetId)
| Event_Upload (now : Z) (target : TargetId) (envelope : FrameEnvelope)
| Event_Query (target : TargetId) (generation : Z)
| Event_End (target : TargetId) (generation : Z)
| Event_EndAll (targets : list TargetId).

Definition exec (st : DaemonState) (ev : StreamEvent) : DaemonState :=
  match ev with
  | Event_Begin target => (begin_frame_stream st target).1
  | Event_Upload now target envelope => (record_frame_upload now st target envelope).1
  | Event_Query target generation => (frame_stream_topology_generation st target generation).1
  | Event_End target generation => end_frame_stream st target generation
  | Event_EndAll targets => end_all_frame_streams st targets
  end.

(** An accepted frame: when it came, its sequence number, whether it was forwarded. *)
Record Accepted := { ac_now : Z; ac_sequence : Z; ac_forwarded : bool }.

Definition accepts (st : DaemonState) (t : TargetId) (ev : StreamEvent) : option Accepted :=
  match ev with
  | Event_Upload now target envelope =>
      if bool_decide (target = t) then
        match (record_frame_upload now st target envelope).2 with
        | Ok forwarded => Some {| ac_now := now; ac_sequence := fe_sequence envelope;
                                  ac_forwarded := forwarded |}
        | Err _ => None
        end
      else None
  | _ => None
  end.

Fixpoint accepted (st : DaemonState) (t : TargetId) (evs : list StreamEvent) : list Accepted :=
  match evs with
  | [] => []
  | ev :: evs =>
      match accepts st t ev with
      | Some a => a :: accepted (exec st ev) t evs
      | None => accepted (exec st ev) t evs
      end
  end.

(** The event does not start a stream on [t], and a frame it carries has a sequence
    number of 64 bits. *)
Definition continues (t : TargetId) (ev : StreamEvent) : Prop :=
  match ev with
  | Event_Begin target => target ≠ t
  | Event_Upload _ _ envelope => u64 (fe_sequence envelope)
  | _ => True
  end.

Definition same_frame_context (st st' : DaemonState) : Prop :=
  st' = set_frame_streams st (ds_frame_streams st').

Lemma set_frame_streams_same st m : same_frame_context st (set_frame_streams st m).
Proof. by destruct st. Qed.

Lemma same_frame_context_refl st : same_frame_context st st.
Proof. by destruct st. Qed.

Lemma streams_of st m : ds_frame_streams (set_frame_streams st m) = m.
Proof. by destruct st. Qed.

Lemma end_all_spec st ts :
  same_frame_context st (end_all_frame_streams st ts) ∧
  ∀ t, ds_frame_streams (end_all_frame_streams st ts) !! t =
    if decide (t ∈ ts) then None else ds_frame_streams st !! t.
Proof.
  unfold end_all_frame_streams. revert st. induction ts as [|x ts IH]; intros st.
  { split; [apply same_frame_context_refl|]. intros t. by rewrite decide_False by set_solver. }
  simpl. destruct (IH (set_frame_streams st (delete x (ds_frame_streams st)))) as [H1 H2].
  split.
  - unfold same_frame_context in *. rewrite H1 at 1. by destruct st.
  - intros t. rewrite H2, streams_of. destruct (decide (t = x)) as [->|Hne].
    + rewrite lookup_delete_eq. rewrite (decide_True (P := x ∈ x :: ts)) by set_solver.
      by case_decide.
    + rewrite lookup_delete_ne by done. do 2 case_decide; set_solver.
Qed.

(** What one event does to the stream of [t]. *)
Lemma exec_stream st t ev :
  continues t ev →
  same_frame_context st (exec st ev) ∧
  match accepts st t ev with
  | Some a => ∃ s, ds_frame_streams st !! t = Some s ∧
      (fs_next_sequence s <= ac_sequence a)%Z ∧ u64 (ac_sequence a) ∧
      ac_forwarded a = should_forward (max_rate_hz st t) (fs_last_forwarded_at s) (ac_now a) ∧
      ds_frame_streams (exec st ev) !! t = Some {|
        fs_generation := fs_generation s; fs_topology_generation := fs_topology_generation s;
        fs_next_sequence := saturateU 64 (ac_sequence a + 1);
        fs_last_forwarded_at := if ac_forwarded a then Some (ac_now a)
                                else fs_last_forwarded_at s |}
  | None => ds_frame_streams (exec st ev) !! t = None ∨
            ds_frame_streams (exec st ev) !! t = ds_frame_streams st !! t
  end.
Proof.
  destruct ev as [t'|now t' env|t' g|t' g|ts]; intros Hc; simpl in *.
  - unfold begin_frame_stream. destruct (capabilities_for_target_or_error st t') as [caps|];
      [|by auto using same_frame_context_refl].
    repeat case_match; simpl; auto using same_frame_context_refl.
    split; [apply set_frame_streams_same|]. right. by rewrite streams_of, lookup_insert_ne.
  - unfold record_frame_upload. destruct (ds_frame_streams st !! t') as [s|] eqn:Hs; simpl.
    2: { split; [apply same_frame_context_refl|]. case_bool_decide; auto. }
    destruct (negb (fs_topology_generation s =? _)%Z); simpl.
    { split; [apply set_frame_streams_same|]. case_bool_decide as Heq; rewrite streams_of.
      - subst. left. apply lookup_delete_eq.
      - right. by rewrite lookup_delete_ne. }
    destruct (negb (fe_generation env =? _)%Z); simpl.
    { split; [apply same_frame_context_refl|]. case_bool_decide; auto. }
    destruct (fe_sequence env <? fs_next_sequence s)%Z eqn:Hseq; simpl.
    { split; [apply same_frame_context_refl|]. case_bool_decide; auto. }
    split; [apply set_frame_streams_same|]. apply Z.ltb_ge in Hseq.
    case_bool_decide as Heq; rewrite streams_of.
    + subst t'. exists s. split_and!; [done..|]. simpl. apply lookup_insert_eq.
    + right. by rewrite lookup_insert_ne.
  - unfold frame_stream_topology_generation. destruct (ds_frame_streams st !! t') as [s|] eqn:Hs;
      simpl; [|by auto using same_frame_context_refl].
    repeat case_match; simpl; auto using same_frame_context_refl.
    split; [apply set_frame_streams_same|]. rewrite streams_of.
    destruct (decide (t = t')) as [->|Hne]; [left; apply lookup_delete_eq|].
    right. by rewrite lookup_delete_ne.
  - unfold end_frame_stream. destruct (ds_frame_streams st !! t') as [s|] eqn:Hs;
      [|by auto using same_frame_context_refl].
    case_match; [|by auto using same_frame_context_refl].
    split; [apply set_frame_streams_same|]. rewrite streams_of.
    destruct (decide (t = t')) as [->|Hne]; [left; apply lookup_delete_eq|].
    right. by rewrite lookup_delete_ne.
  - destruct (end_all_spec st ts) as [H1 H2]. split; [done|]. rewrite H2. case_decide; auto.
Qed.

(** Later frames respect the bounds that the stream of [t] records. *)
Definition after (rate : option Z) (o : option FrameStream) (a : Accepted) : Prop :=
  ∃ s, o = Some s ∧ (fs_next_sequence s <= ac_sequence a)%Z ∧ u64 (ac_sequence a) ∧
    (ac_forwarded a = true → ∀ hz last, rate = Some hz → fs_last_forwarded_at s = Some last →
       (min_interval hz <= Z.max 0 (ac_now a - last))%Z).

Lemma max_rate_same st st' t : same_frame_context st st' → max_rate_hz st' t = max_rate_hz st t.
Proof.
  intros ->. unfold max_rate_hz. rewrite (capabilities_devices _ st); [done|]. by destruct st.
Qed.

Lemma after_accept rate s a :
  (fs_next_sequence s <= ac_sequence a)%Z → u64 (ac_sequence a) →
  ac_forwarded a = should_forward rate (fs_last_forwarded_at s) (ac_now a) →
  after rate (Some s) a.
Proof.
  intros Hseq Hu Hf. exists s. split_and!; [done..|]. intros Ht hz last -> Hl.
  rewrite Ht, Hl in Hf. symmetry in Hf. by apply Z.leb_le in Hf.
Qed.

(** A frame after the next one is a frame after this one. *)
Lemma after_later rate s a b :
  after rate (Some s) a →
  after rate (Some {| fs_generation := fs_generation s;
                      fs_topology_generation := fs_topology_generation s;
                      fs_next_sequence := saturateU 64 (ac_sequence a + 1);
                      fs_last_forwarded_at := if ac_forwarded a then Some (ac_now a)
                                              else fs_last_forwarded_at s |}) b →
  after rate (Some s) b.
Proof.
  intros (s1 & [= <-] & Ha & Hua & Hfa) (s2 & [= <-] & Hb & Hub & Hfb). simpl in *.
  exists s. split_and!; [done| |done|].
  - unfold saturateU in Hb. width.
  - intros Ht hz last Hr Hl. specialize (Hfb Ht hz).
    destruct (ac_forwarded a); [|by apply Hfb].
    specialize (Hfa eq_refl hz last Hr Hl). specialize (Hfb _ Hr eq_refl). lia.
Qed.

Lemma accepted_after st t evs :
  Forall (continues t) evs →
  Forall (after (max_rate_hz st t) (ds_frame_streams st !! t)) (accepted st t evs).
Proof.
  revert st. induction evs as [|ev evs IH]; intros st Hevs; simpl; [constructor|].
  apply Forall_cons in Hevs as [Hev Hevs]. specialize (IH (exec st ev) Hevs).
  destruct (exec_stream st t ev Hev) as [Hsame Hacc]. rewrite (max_rate_same st) in IH by done.
  destruct (accepts st t ev) as [a|].
  - destruct Hacc as (s & Hs & Hseq & Hu & Hf & Hs'). rewrite Hs' in IH. rewrite Hs.
    assert (after (max_rate_hz st t) (Some s) a) as Ha by by apply after_accept.
    constructor; [done|]. eapply Forall_impl; [exact IH|]. intros b. by apply after_later.
  - destruct Hacc as [Hn|Heq]; [|by rewrite Heq in IH].
    rewrite Hn in IH. destruct (accepted (exec st ev) t evs) as [|b l]; [constructor|].
    apply Forall_cons in IH as [(s & [=] & _) _].
Qed.

(** In order: a larger sequence number, except that the largest one may repeat, and
    forwarded no sooner than the rate limit allows. *)
Definition in_order (rate : option Z) (a b : Accepted) : Prop :=
  ((ac_sequence a < ac_sequence b)%Z ∨
   ac_sequence a = uN_max 64 ∧ ac_sequence b = uN_max 64) ∧
  (ac_forwarded a = true → ac_forwarded b = true → ∀ hz, rate = Some hz →
     (min_interval hz <= Z.max 0 (ac_now b - ac_now a))%Z).

Lemma accepted_in_order st t evs :
  Forall (continues t) evs →
  StronglySorted (in_order (max_rate_hz st t)) (accepted st t evs).
Proof.
  revert st. induction evs as [|ev evs IH]; intros st Hevs; simpl; [constructor|].
  apply Forall_cons in Hevs as [Hev Hevs].
  pose proof (accepted_after (exec st ev) t evs Hevs) as Hafter. specialize (IH (exec st ev) Hevs).
  destruct (exec_stream st t ev Hev) as [Hsame Hacc]. rewrite (max_rate_same st) in IH, Hafter
    by done.
  destruct (accepts st t ev) as [a|]; [|done]. constructor; [done|].
  destruct Hacc as (s & Hs & Hseq & Hu & Hf & Hs'). rewrite Hs' in Hafter.
  eapply Forall_impl; [exact Hafter|]. intros b (s1 & [= <-] & Hb & Hub & Hfb). simpl in *. split.
  - unfold saturateU, uN_max in *. width.
  - intros Hfa Hfb' hz Hr. apply (Hfb Hfb' hz); [done|]. by rewrite Hfa.
Qed.

(** ** Claims *)

(** Frames of one stream are ordered and rate limited.  In every history that does
    not start a new stream on the target, whatever happens on others, the accepted
    frames of the target have increasing sequence numbers (only the largest 64-bit
    number can be accepted again), and any two forwarded frames are at least the
    advertised minimum interval apart. *)
Theorem frames_in_order st t evs :
  Forall (continues t) evs →
  StronglySorted (in_order (max_rate_hz st t)) (accepted st t evs).
Proof. apply accepted_in_order. Qed.

(** A stream is admitted exactly on an existing target that advertises frame
    upload, has no stream and is not under an animated effect, unless effects run
    concurrently with streaming.  The new stream is bound to the current topology and
    starts at sequence zero; its generation differs from that of every active stream
    while no active stream holds the largest generation. *)
Theorem begin_frame_stream_correct st t :
  let '(st', r) := begin_frame_stream st t in
  match r with
  | Ok generation =>
      ∃ caps, capabilities_for_target st t = Some caps ∧ is_Some (cs_frame_upload caps) ∧
        ds_frame_streams st !! t = None ∧
        (effect_active st t = true → effect_concurrent caps = true) ∧
        st' = set_frame_streams st (<[t := {| fs_generation := generation;
                fs_topology_generation := ds_topology_generation st; fs_next_sequence := 0;
                fs_last_forwarded_at := None |}]> (ds_frame_streams st)) ∧
        u32 generation ∧
        (streams_wf st → last_generation st ≠ uN_max 32 →
         ∀ t' s, ds_frame_streams st !! t' = Some s → (fs_generation s < generation)%Z)
  | Err e =>
      st' = st ∧
      match capabilities_for_target st t with
      | None => e = DE_TargetNotFound t
      | Some caps =>
          match cs_frame_upload caps with
          | None => error_code e = Code_Unsupported
          | Some _ => error_code e = Code_Conflict ∧
                      (is_Some (ds_frame_streams st !! t) ∨
                       effect_active st t = true ∧ effect_concurrent caps = false)
          end
      end
  end.
Proof.
  unfold begin_frame_stream, capabilities_for_target_or_error.
  destruct (capabilities_for_target st t) as [caps|]; simpl; [|done].
  case_bool_decide as Hup; [by rewrite Hup|].
  destruct (cs_frame_upload caps) as [up|] eqn:Hu; [|done].
  case_bool_decide as Hs; [by auto|].
  destruct (effect_active st t && negb (effect_concurrent caps)) eqn:He.
  { apply andb_true_iff in He as [He Hn]. apply negb_true_iff in Hn. auto. }
  exists caps. split_and!; [done|by rewrite Hu|by apply eq_None_not_Some| |done|
    apply next_generation_u32|].
  - intros Ha. rewrite Ha in He. simpl in He. by apply negb_false_iff in He.
  - intros Hwf Hl t' s Hs'. apply last_generation_bound in Hs'.
    pose proof (last_generation_u32 st Hwf) as Hb. unfold next_generation.
    rewrite wrapU_id; [lia|]. width.
Qed.

(** Ending a stream and starting another reuses its generation, so a frame of the
    ended stream is accepted by the new one. *)
Theorem stream_generation_reused st t st1 g now envelope :
  begin_frame_stream st t = (st1, Ok g) → fe_generation envelope = g →
  (0 <= fe_sequence envelope)%Z →
  let '(st2, r) := begin_frame_stream (end_frame_stream st1 t g) t in
  r = Ok g ∧ (record_frame_upload now st2 t envelope).2 = Ok true.
Proof.
  intros Hb Hg Hseq. pose proof Hb as Hb'. unfold begin_frame_stream in Hb.
  destruct (capabilities_for_target_or_error st t) as [caps|]; [|done].
  case_bool_decide; [done|]. case_bool_decide as Hs; [done|]. apply eq_None_not_Some in Hs.
  destruct (effect_active st t && _); [done|]. injection Hb as <- <-.
  assert (end_frame_stream (set_frame_streams st (<[t := {| fs_generation := next_generation st;
     fs_topology_generation := ds_topology_generation st; fs_next_sequence := 0;
     fs_last_forwarded_at := None |}]> (ds_frame_streams st))) t (next_generation st) = st) as ->.
  { unfold end_frame_stream. rewrite streams_of, lookup_insert_eq. simpl. rewrite Z.eqb_refl.
    destruct st. simpl in *. by rewrite delete_insert_id. }
  rewrite Hb'. split; [done|]. unfold record_frame_upload. rewrite streams_of, lookup_insert_eq.
  simpl. replace (ds_topology_generation (set_frame_streams st _)) with (ds_topology_generation st)
    by by destruct st.
  rewrite Z.eqb_refl, Hg, Z.eqb_refl. simpl. rewrite (proj2 (Z.ltb_ge _ _) Hseq). simpl.
  f_equal. by destruct (max_rate_hz _ t).
Qed.

(** ** Witnesses *)

Module Streaming.
Definition upload : FrameUploadCapability := {|
  fu_scope := Scope_Device; fu_update_mode := FullFrameOnly; fu_max_rate_hz := Some 60%Z;
  fu_atomic := true; fu_buffering := Immediate; fu_shm := None |}.
Definition panel : Device := {|
  device_id := DeviceId_new "panel"; device_name := "panel"; device_vendor := None;
  device_model := None; device_provider_instance := None; device_surfaces := [];
  device_groups := [];
  device_capabilities := {|
    cs_colour := []; cs_cct_emulation := CctEmulation_Auto; cs_brightness := Brightness_None;
    cs_frame_upload := Some upload; cs_hardware_effects := None; cs_appearance_slots := None;
    cs_persistence := Persistence_None; cs_state_readback := Readback_None; cs_emission := false;
    cs_off_is_wear_safe := false; cs_physical_power := None; cs_power_domain := None |};
  device_category := None; device_physical_tags := []; device_host_attached := true;
  device_notes := []; device_warnings := [] |}.
Definition t : TargetId := TargetId_device "panel".
Definition started : DaemonState := (begin_frame_stream (from_devices [panel]) t).1.
Definition pixels (sequence : Z) : FrameEnvelope := {|
  fe_generation := 1; fe_sequence := sequence; fe_payload := Payload_Full []; fe_commit := true |}.
(** The second upload comes too soon, the third repeats a sequence number. *)
Definition history : list StreamEvent :=
  [Event_Upload 0 t (pixels 0); Event_Upload 1000 t (pixels 5); Event_Upload 2000 t (pixels 5);
   Event_Upload 20000000 t (pixels 6)].
End Streaming.

Lemma frames_in_order_witness :
  (λ a, (ac_sequence a, ac_forwarded a)) <$>
    accepted Streaming.started Streaming.t Streaming.history = [(0, true); (5, false); (6, true)]%Z ∧
  StronglySorted (in_order (Some 60%Z))
    (accepted Streaming.started Streaming.t Streaming.history).
Proof.
  split; [vm_compute; reflexivity|].
  apply (frames_in_order Streaming.started Streaming.t Streaming.history).
  repeat constructor; vm_compute; congruence.
Defined.

Lemma stream_generation_reused_witness :
  let st := from_devices [Streaming.panel] in
  let '(st2, r) := begin_frame_stream (end_frame_stream (begin_frame_stream st Streaming.t).1
                     Streaming.t 1) Streaming.t in
  r = Ok 1%Z ∧ (record_frame_upload 7 st2 Streaming.t (Streaming.pixels 3)).2 = Ok true.
Proof.
  cbn zeta.
  apply (stream_generation_reused (from_devices [Streaming.panel]) Streaming.t
    (begin_frame_stream (from_devices [Streaming.panel]) Streaming.t).1 1 7 (Streaming.pixels 3)).
  - vm_compute. reflexivity.
  - reflexivity.
  - simpl. lia.
Defined.
