(* ===== verification/SceneRegistry.v ===== *)
(** * The scene registry: [luminated/src/state/scene.rs]

    Capturing the intended state of targets into scene bindings, and the creation,
    replacement and deletion of scenes under optimistic revision control.  The
    identifier that [SceneId::generate] draws is an argument.
    [fresh_current_target_state] is in [Aggregates]. *)

From S2P Require Import Prelude Model Graph Scenes Daemon Topology Persistence Validation.
From S2P Require Import Observation TargetStates CollectionRegistry.

(** ** Capture *)

Definition captured_with (c : SceneTargetState) (appearance : option Effect)
    (brightness : option Z) (emission : option EmissionState)
    (slots : option (list AppearanceSlotValue)) : SceneTargetState := {|
  sts_appearance := match appearance with Some e => Some e | None => sts_appearance c end;
  sts_brightness := match brightness with Some b => Some b | None => sts_brightness c end;
  sts_emission := match emission with Some e => Some e | None => sts_emission c end;
  sts_appearance_slots := match slots with Some s => Some s | None => sts_appearance_slots c end
|}.

Definition apply_facet (captured : SceneTargetState) (value : FacetValue) : SceneTargetState :=
  match value with
  | Facet_Appearance (Appearance_Static colour) =>
      captured_with captured (Some (Effect_Static colour)) None None None
  | Facet_Appearance (Appearance_Effect effect) =>
      captured_with captured (Some effect) None None None
  | Facet_Appearance Appearance_Mixed | Facet_PhysicalPower _ | Facet_EffectiveAppearance _ =>
      captured
  | Facet_Brightness value => captured_with captured None (Some value) None None
  | Facet_Emission value => captured_with captured None None (Some value) None
  | Facet_AppearanceSlots slots => captured_with captured None None None (Some (ass_values slots))
  end.

(** The loop over the adopted baseline. *)
Definition captured_baseline (st : DaemonState) (target : TargetId) : SceneTargetState :=
  fold_left (λ captured facet,
      if target_covers st (af_target facet) target then apply_facet captured (af_value facet)
      else captured) (ds_adopted_baseline st) nothing_captured.

Definition incomplete_slots (st : DaemonState) (target : TargetId) (captured : SceneTargetState) :
    bool :=
  match capabilities_for_target st target ≫= cs_appearance_slots with
  | Some capability =>
      bool_decide (asc_update_policy capability = CompleteSet) &&
      negb (from_option length 0 (sts_appearance_slots captured) =? length (asc_slots capability))
  | None => false
  end.

Definition capture_target_state (st : DaemonState) (target : TargetId) :
    daemon SceneTargetState :=
  let captured := capture_overlays st target (captured_baseline st target) (ds_target_state st) in
  _ ← map_err (λ _, DE_UnknownState target) (SceneTargetState_validate captured);
  if incomplete_slots st target captured then Err (DE_UnknownState target) else Ok captured.

Definition not_member (target : TargetId) (collection : CollectionId) : DaemonError :=
  DE_InvalidArgument target
    (Fmt "target is not a current member of dynamic collection {}"
       [AStr (CollectionId_as_str collection)]).

Definition capture_binding (st : DaemonState) (mode : SceneCaptureMode)
    (dynamic_leaves : option (CollectionId * list TargetId)) (target : TargetId) :
    daemon SceneBinding :=
  _ ← ensure_target_exists st target;
  _ ← match dynamic_leaves with
      | Some (collection, leaves) =>
          ensure (bool_decide (target ∈ leaves)) (not_member target collection)
      | None => Ok tt
      end;
  state ← capture_target_state st target;
  Ok match mode with
     | Capture_Frozen => Frozen target state
     | Capture_DynamicCollectionMembers collection =>
         DynamicCollectionMember collection target state
     end.

Definition capture_bindings (st : DaemonState) (mode : SceneCaptureMode)
    (targets : list TargetId) : daemon (list SceneBinding) :=
  dynamic_leaves ← match mode with
                   | Capture_Frozen => Ok None
                   | Capture_DynamicCollectionMembers collection =>
                       leaves ← resolve_collection_leaves st collection;
                       Ok (Some (collection, leaves))
                   end;
  let selected := match targets with
                  | [] => from_option snd [] dynamic_leaves
                  | _ => targets
                  end in
  try_fold (λ bindings target,
    binding ← capture_binding st mode dynamic_leaves target; Ok (bindings ++ [binding]))
    [] selected.

Section registry.
Context `{Env}.

(** ** Validation *)

Definition validate_scene_binding (st : DaemonState) (b : SceneBinding) : daemon unit :=
  let target := binding_target b in
  let state := binding_state b in
  _ ← ensure_target_exists st target;
  _ ← match sts_appearance state with
      | Some appearance => validate_target_state st target (TS_Effect appearance)
      | None => Ok tt
      end;
  _ ← match sts_brightness state with
      | Some brightness => validate_target_state st target (TS_Brightness brightness)
      | None => Ok tt
      end;
  _ ← match sts_emission state with
      | Some _ => validate_target_state st target (TS_Effect Effect_Off)
      | None => Ok tt
      end;
  _ ← match sts_appearance_slots state with
      | Some values => _ ← validate_appearance_slot_values st target values; Ok tt
      | None => Ok tt
      end;
  match dynamic_collection b with
  | Some collection =>
      leaves ← resolve_collection_leaves st collection;
      ensure (bool_decide (target ∈ leaves)) (not_member target collection)
  | None => Ok tt
  end.

Definition validate_scene_bindings (st : DaemonState) (s : Scene) : daemon unit :=
  _ ← map_err DE_InvalidScene (Scene_validate env_is_uuid s);
  try_for (validate_scene_binding st) (scene_bindings s).

(** ** Mutations *)

Definition restore_scenes (st : DaemonState) (scenes : gmap SceneId Scene) : DaemonState :=
  set_scenes st scenes.

Definition create_scene (st : DaemonState) (generated : SceneId) (name : string)
    (description : option string) (owner : OwnerIdentity) (bindings : list SceneBinding) :
    DaemonState * daemon Scene :=
  let scene := {| scene_id := generated; scene_revision := 1; scene_name := name;
                  scene_description := description; scene_owner := owner;
                  scene_bindings := bindings |} in
  match validate_scene_bindings st scene with
  | Err e => (st, Err e)
  | Ok _ =>
      let inserted := set_scenes st (<[generated := scene]> (ds_scenes st)) in
      match ensure_persistable inserted with
      | Err e => (set_scenes inserted (delete generated (ds_scenes inserted)), Err e)
      | Ok _ => (inserted, Ok scene)
      end
  end.

Definition replace_scene (st : DaemonState) (id : SceneId) (expected_revision : Z)
    (name : string) (description : option string) (bindings : list SceneBinding) :
    DaemonState * daemon Scene :=
  match ds_scenes st !! id with
  | None => (st, Err (DE_SceneNotFound id))
  | Some current =>
      if negb (scene_revision current =? expected_revision)%Z
      then (st, Err (DE_SceneRevisionConflict id expected_revision (scene_revision current)))
      else
        let replacement := {|
          scene_id := id; scene_revision := saturateU 64 (scene_revision current + 1);
          scene_name := name; scene_description := description;
          scene_owner := scene_owner current; scene_bindings := bindings |} in
        match validate_scene_bindings st replacement with
        | Err e => (st, Err e)
        | Ok _ =>
            let inserted := set_scenes st (<[id := replacement]> (ds_scenes st)) in
            match ensure_persistable inserted with
            | Err e => (set_scenes inserted (<[id := current]> (ds_scenes inserted)), Err e)
            | Ok _ => (inserted, Ok replacement)
            end
        end
  end.

Definition delete_scene (st : DaemonState) (id : SceneId) (expected_revision : Z) :
    DaemonState * daemon Scene :=
  match ds_scenes st !! id with
  | None => (st, Err (DE_SceneNotFound id))
  | Some current =>
      if negb (scene_revision current =? expected_revision)%Z
      then (st, Err (DE_SceneRevisionConflict id expected_revision (scene_revision current)))
      else (set_scenes st (delete id (ds_scenes st)), Ok current)
  end.
End registry.

(** ** Capture is exact *)

(** The loop that pushes one result per element. *)
Lemma try_fold_push {E A B} (f : A → result E B) acc l r :
  try_fold (λ acc x, b ← f x; Ok (acc ++ [b])) acc l = Ok r ↔
  ∃ bs, Forall2 (λ x b, f x = Ok b) l bs ∧ r = acc ++ bs.
Proof.
  revert acc. induction l as [|x l IH]; intros acc; simpl.
  - split; [intros [= <-]; exists []; by rewrite app_nil_r|].
    intros (bs & ->%Forall2_nil_inv_l & ->). by rewrite app_nil_r.
  - destruct (f x) as [b|e] eqn:Hx; simpl.
    + rewrite IH. split.
      * intros (bs & Hbs & ->). exists (b :: bs). rewrite <-app_assoc. auto.
      * intros (bs' & Hbs & ->). inversion Hbs as [|? b' ? bs Hb Hbs']; subst.
        exists bs. rewrite <-app_assoc. split; [done|]. simpl. congruence.
    + split; [done|]. intros (bs & Hbs & _). inversion Hbs; congruence.
Qed.

(** The intended state of a target: the adopted baseline under the overlays. *)
Definition intended (st : DaemonState) (t : TargetId) : SceneTargetState :=
  capture_overlays st t (captured_baseline st t) (ds_target_state st).

Lemma capture_target_state_Ok st t s :
  capture_target_state st t = Ok s ↔
  s = intended st t ∧ SceneTargetState_wf s ∧ incomplete_slots st t s = false.
Proof.
  unfold capture_target_state. fold (intended st t). cbn zeta.
  rewrite bind_unit_Ok, map_err_Ok, SceneTargetState_validate_Ok.
  destruct (incomplete_slots st t (intended st t)) eqn:Hi; naive_solver congruence.
Qed.

Definition mode_collection (mode : SceneCaptureMode) : option CollectionId :=
  match mode with
  | Capture_Frozen => None
  | Capture_DynamicCollectionMembers collection => Some collection
  end.

(** The targets that a capture is about. *)
Definition capture_selects (st : DaemonState) (mode : SceneCaptureMode) (targets selected : list TargetId) :
    Prop :=
  match mode_collection mode with
  | None => selected = targets
  | Some collection => ∃ leaves, resolve_collection_leaves st collection = Ok leaves ∧
      selected = (if decide (targets = []) then leaves else targets) ∧ selected ⊆ leaves
  end.

(** One target captured into one binding. *)
Definition captures (st : DaemonState) (mode : SceneCaptureMode) (t : TargetId)
    (b : SceneBinding) : Prop :=
  is_Some (capabilities_for_target st t) ∧
  binding_target b = t ∧ dynamic_collection b = mode_collection mode ∧
  binding_state b = intended st t ∧ SceneTargetState_wf (binding_state b) ∧
  incomplete_slots st t (binding_state b) = false.

Lemma ensure_target_exists_Ok st t :
  ensure_target_exists st t = Ok tt ↔ is_Some (capabilities_for_target st t).
Proof. unfold ensure_target_exists. case_bool_decide; naive_solver. Qed.

Lemma capture_binding_Ok st mode leaves t b :
  capture_binding st mode ((λ c, (c, leaves)) <$> mode_collection mode) t = Ok b ↔
  captures st mode t b ∧ (is_Some (mode_collection mode) → t ∈ leaves).
Proof.
  unfold capture_binding, captures. rewrite !bind_unit_Ok, ensure_target_exists_Ok, bind_Ok.
  setoid_rewrite capture_target_state_Ok.
  destruct mode as [|collection]; simpl.
  - split.
    + intros (He & _ & s & (-> & Hwf & Hi) & [= <-]). simpl. split_and!; try done.
    + intros ((He & <- & Hd & Hs & Hwf & Hi) & _). destruct b as [t s|]; [|done]. simpl in *. eauto 7.
  - rewrite ensure_Ok, bool_decide_eq_true. split.
    + intros (He & Hin & s & (-> & Hwf & Hi) & [= <-]). simpl. by split_and!.
    + intros ((He & <- & Hd & Hs & Hwf & Hi) & Hin). destruct b as [|c t s]; [done|]. simpl in *.
      simplify_eq. eauto 8.
Qed.

Lemma Forall2_capture st mode leaves selected bindings :
  Forall2 (λ t b, capture_binding st mode ((λ c, (c, leaves)) <$> mode_collection mode) t = Ok b)
    selected bindings ↔
  Forall2 (captures st mode) selected bindings ∧
  (is_Some (mode_collection mode) → selected ⊆ leaves).
Proof.
  split.
  - intros Hall. induction Hall as [|t b ts bs Hb _ IH]; [split; [constructor|set_solver]|].
    apply capture_binding_Ok in Hb as [Hb Hin]. destruct IH as [IH1 IH2].
    split; [by constructor|]. intros Hs. specialize (Hin Hs). specialize (IH2 Hs). set_solver.
  - intros [Hall Hin]. induction Hall as [|t b ts bs Hb _ IH]; constructor.
    + apply capture_binding_Ok. split; [done|]. intros Hs. specialize (Hin Hs). set_solver.
    + apply IH. intros Hs. specialize (Hin Hs). set_solver.
Qed.

Lemma capture_bindings_Ok st mode targets bindings :
  capture_bindings st mode targets = Ok bindings ↔
  ∃ selected, capture_selects st mode targets selected ∧ Forall2 (captures st mode) selected bindings.
Proof.
  unfold capture_bindings, capture_selects. rewrite bind_Ok. setoid_rewrite try_fold_push. simpl.
  destruct mode as [|collection]; simpl.
  - pose proof (Forall2_capture st Capture_Frozen []) as Hc. simpl in Hc. split.
    + intros (dl & [= <-] & bs & Hbs & ->). exists targets. split; [done|].
      by destruct targets; apply Hc in Hbs as [? _].
    + intros (selected & -> & Hall). exists None. split; [done|]. exists bindings. split; [|done].
      destruct targets; apply Hc; (split; [done|by intros []]).
  - split.
    + intros (dl & Hdl & bs & Hbs & ->).
      destruct (resolve_collection_leaves st collection) as [leaves|]; [|done].
      injection Hdl as <-.
      pose proof (Forall2_capture st (Capture_DynamicCollectionMembers collection) leaves) as Hc.
      simpl in *. apply Hc in Hbs as [Hall Hin]. eexists. split; [|done].
      exists leaves. split_and!; [done|by destruct targets|apply Hin; eauto].
    + intros (selected & (leaves & -> & -> & Hin) & Hall). simpl. eexists. split; [done|].
      exists bindings. split; [|done].
      pose proof (Forall2_capture st (Capture_DynamicCollectionMembers collection) leaves) as Hc.
      simpl in Hc. apply Hc. by destruct targets.
Qed.

(** ** Mutations are exact *)

Section exact.
Context `{Env}.

(** Every captured facet of the binding may be applied to its target, which is a
    leaf of the collection the binding follows. *)
Record binding_valid (st : DaemonState) (b : SceneBinding) : Prop := {
  bv_exists : is_Some (capabilities_for_target st (binding_target b));
  bv_appearance e : sts_appearance (binding_state b) = Some e →
    validate_target_state st (binding_target b) (TS_Effect e) = Ok tt;
  bv_brightness v : sts_brightness (binding_state b) = Some v →
    validate_target_state st (binding_target b) (TS_Brightness v) = Ok tt;
  bv_emission e : sts_emission (binding_state b) = Some e →
    validate_target_state st (binding_target b) (TS_Effect Effect_Off) = Ok tt;
  bv_slots values : sts_appearance_slots (binding_state b) = Some values →
    validate_target_state st (binding_target b) (TS_AppearanceSlots values) = Ok tt;
  bv_dynamic c : dynamic_collection b = Some c →
    ∃ leaves, resolve_collection_leaves st c = Ok leaves ∧ binding_target b ∈ leaves
}.

(** An optional check passes when the check of a present value does. *)
Lemma optional_Ok {A E} (o : option A) (f : A → result E unit) :
  match o with Some a => f a | None => Ok tt end = Ok tt ↔ ∀ a, o = Some a → f a = Ok tt.
Proof. destruct o; naive_solver. Qed.

Lemma validate_scene_binding_Ok st b : validate_scene_binding st b = Ok tt ↔ binding_valid st b.
Proof.
  unfold validate_scene_binding. cbn zeta. rewrite !bind_unit_Ok, ensure_target_exists_Ok.
  rewrite (optional_Ok (sts_appearance _)), (optional_Ok (sts_brightness _)),
    (optional_Ok (sts_emission _) (λ _, _)), (optional_Ok (sts_appearance_slots _)),
    (optional_Ok (dynamic_collection b)).
  setoid_rewrite (bind_Ok (resolve_collection_leaves _ _)). setoid_rewrite ensure_Ok.
  setoid_rewrite bool_decide_eq_true. split.
  - intros (H1 & H2 & H3 & H4 & H5 & H6). by split.
  - intros [H1 H2 H3 H4 H5 H6]. by split_and!.
Qed.

Definition scene_valid (st : DaemonState) (s : Scene) : Prop :=
  Scene_wf env_is_uuid s ∧ Forall (binding_valid st) (scene_bindings s).

Lemma validate_scene_bindings_Ok st s : validate_scene_bindings st s = Ok tt ↔ scene_valid st s.
Proof.
  unfold validate_scene_bindings, scene_valid.
  rewrite bind_unit_Ok, map_err_Ok, Scene_validate_Ok, try_for_Ok, !Forall_forall.
  by setoid_rewrite validate_scene_binding_Ok.
Qed.

Lemma create_scene_spec st generated name description owner bindings :
  ds_scenes st !! generated = None →
  let '(st', r) := create_scene st generated name description owner bindings in
  let s := {| scene_id := generated; scene_revision := 1; scene_name := name;
              scene_description := description; scene_owner := owner;
              scene_bindings := bindings |} in
  let inserted := set_scenes st (<[generated := s]> (ds_scenes st)) in
  match r with
  | Ok s' => s' = s ∧ st' = inserted ∧ scene_valid st s ∧ snapshot_wf (snapshot_of st')
  | Err _ => st' = st ∧ ¬ (scene_valid st s ∧ snapshot_wf (snapshot_of inserted))
  end.
Proof.
  intros Hf. unfold create_scene. cbn zeta. set (s := Build_Scene _ _ _ _ _ _).
  pose proof (validate_scene_bindings_Ok st s) as Hv.
  destruct (validate_scene_bindings st s) as [[]|e].
  - destruct (ensure_persistable _) as [[]|e] eqn:He.
    + apply ensure_persistable_Ok in He. naive_solver.
    + apply ensure_persistable_Err in He as [He _]. split; [|naive_solver].
      destruct st. simpl in *. by rewrite delete_insert_id.
  - split; [done|]. intros [?%Hv _]. done.
Qed.

Lemma replace_scene_spec st id expected name description bindings :
  let '(st', r) := replace_scene st id expected name description bindings in
  match ds_scenes st !! id with
  | None => st' = st ∧ r = Err (DE_SceneNotFound id)
  | Some current =>
      let s := {| scene_id := id; scene_revision := saturateU 64 (scene_revision current + 1);
                  scene_name := name; scene_description := description;
                  scene_owner := scene_owner current; scene_bindings := bindings |} in
      let inserted := set_scenes st (<[id := s]> (ds_scenes st)) in
      match r with
      | Ok s' => scene_revision current = expected ∧ s' = s ∧ st' = inserted ∧
                 scene_valid st s ∧ snapshot_wf (snapshot_of st')
      | Err e => st' = st ∧
                 if decide (scene_revision current = expected)
                 then ¬ (scene_valid st s ∧ snapshot_wf (snapshot_of inserted))
                 else e = DE_SceneRevisionConflict id expected (scene_revision current)
      end
  end.
Proof.
  unfold replace_scene. destruct (ds_scenes st !! id) as [current|] eqn:Hid; [|done].
  destruct (scene_revision current =? expected)%Z eqn:Hr; simpl.
  2: { apply Z.eqb_neq in Hr. by rewrite decide_False by done. }
  apply Z.eqb_eq in Hr. set (s := Build_Scene _ _ _ _ _ _).
  pose proof (validate_scene_bindings_Ok st s) as Hv.
  destruct (validate_scene_bindings st s) as [[]|e].
  2: { split; [done|]. rewrite decide_True by done. intros [?%Hv _]. done. }
  destruct (ensure_persistable _) as [[]|e] eqn:He.
  - apply ensure_persistable_Ok in He. naive_solver.
  - apply ensure_persistable_Err in He as [He _]. rewrite decide_True by done.
    split; [|naive_solver]. destruct st. simpl in *.
    by rewrite insert_insert_eq, insert_id.
Qed.

Lemma delete_scene_spec st id expected :
  let '(st', r) := delete_scene st id expected in
  match ds_scenes st !! id with
  | None => st' = st ∧ r = Err (DE_SceneNotFound id)
  | Some current =>
      if decide (scene_revision current = expected)
      then st' = set_scenes st (delete id (ds_scenes st)) ∧ r = Ok current
      else st' = st ∧ r = Err (DE_SceneRevisionConflict id expected (scene_revision current))
  end.
Proof.
  unfold delete_scene. destruct (ds_scenes st !! id) as [current|]; [|done].
  destruct (scene_revision current =? expected)%Z eqn:Hr; simpl.
  - apply Z.eqb_eq in Hr. by rewrite decide_True by done.
  - apply Z.eqb_neq in Hr. by rewrite decide_False by done.
Qed.
End exact.

(** ** Claims *)

(** Capturing succeeds exactly when every selected target exists and has a known,
    consistent and complete intended state: the adopted baseline overlaid by the
    recorded writes that cover it.  The bindings are then those states, one per
    selected target and in order; under a dynamic collection the targets default to
    its leaves and must be among them. *)
Theorem capture_bindings_correct st mode targets bindings :
  capture_bindings st mode targets = Ok bindings ↔
  ∃ selected, capture_selects st mode targets selected ∧ Forall2 (captures st mode) selected bindings.
Proof. apply capture_bindings_Ok. Qed.

(** Replacing a scene is a compare-and-swap on its revision.  It succeeds exactly
    when the scene exists at the expected revision, the replacement is a valid scene
    every binding of which may be applied now, and the result can be persisted; the
    scene then has the next revision and keeps its identifier and owner.  In every
    other case nothing changes. *)
Theorem replace_scene_correct `{Env} st id expected name description bindings :
  let '(st', r) := replace_scene st id expected name description bindings in
  match ds_scenes st !! id with
  | None => st' = st ∧ r = Err (DE_SceneNotFound id)
  | Some current =>
      let s := {| scene_id := id; scene_revision := saturateU 64 (scene_revision current + 1);
                  scene_name := name; scene_description := description;
                  scene_owner := scene_owner current; scene_bindings := bindings |} in
      let inserted := set_scenes st (<[id := s]> (ds_scenes st)) in
      match r with
      | Ok s' => scene_revision current = expected ∧ s' = s ∧ st' = inserted ∧
                 scene_valid st s ∧ snapshot_wf (snapshot_of st')
      | Err e => st' = st ∧
                 if decide (scene_revision current = expected)
                 then ¬ (scene_valid st s ∧ snapshot_wf (snapshot_of inserted))
                 else e = DE_SceneRevisionConflict id expected (scene_revision current)
      end
  end.
Proof. apply replace_scene_spec. Qed.
