(* ===== verification/DaemonRun.v ===== *)
(** * The daemon as a transition system

    Every mutation of [DaemonState] that the development models is one step,
    whatever it answers: desired-state writes, collection and scene operations,
    adoption, frame streams, topology replacement and the purge of withdrawn
    devices.  The claims hold of every state that the steps can reach. *)

From S2P Require Import Prelude Model Graph Scenes Daemon Topology Persistence Validation.
From S2P Require Import Observation TargetStates CollectionRegistry FrameStreams SceneRegistry.

Section run.
Context `{Env}.

(** [reserved] are the scene identifiers that are never drawn again. *)
Inductive daemon_step (reserved : gset SceneId) (st st' : DaemonState) : Prop :=
| run_write now target w r :
    apply_write now st target w = (st', r) → daemon_step reserved st st'
| run_partial members state r :
    record_collection_partial_success st members state = (st', r) → daemon_step reserved st st'
| run_collection :
    collection_step st st' → daemon_step reserved st st'
| run_create_scene generated name description owner bindings r :
    ds_scenes st !! generated = None → generated ∉ reserved →
    create_scene st generated name description owner bindings = (st', r) →
    daemon_step reserved st st'
| run_replace_scene id expected name description bindings r :
    replace_scene st id expected name description bindings = (st', r) →
    daemon_step reserved st st'
| run_delete_scene id expected r :
    delete_scene st id expected = (st', r) → daemon_step reserved st st'
| run_stage delta r :
    stage_adoption st delta = (st', r) → daemon_step reserved st st'
| run_finish persisted :
    finish_pending_adoption st persisted = st' → daemon_step reserved st st'
| run_frame ev :
    exec st ev = st' → daemon_step reserved st st'
| run_devices devices n :
    replace_devices_preserving_withdrawn_state st devices = (st', n) → daemon_step reserved st st'
| run_purge device r :
    purge_withdrawn_device st device = (st', r) → daemon_step reserved st st'.

(** ** What the other components leave alone *)

Definition same_registries (st st' : DaemonState) : Prop :=
  ds_collections st' = ds_collections st ∧ ds_scenes st' = ds_scenes st.

Lemma write_registries now st target w st' r :
  apply_write now st target w = (st', r) → same_registries st st'.
Proof.
  rewrite apply_write_record. intros Hw.
  pose proof (record_write_spec now st target (written st target w)) as Hs. rewrite Hw in Hs.
  destruct Hs as [-> _]. split; by destruct st.
Qed.

Lemma partial_registries st members state st' r :
  record_collection_partial_success st members state = (st', r) → same_registries st st'.
Proof.
  unfold record_collection_partial_success. rewrite insert_members, insert_all_only.
  destruct (ensure_persistable _) as [[]|e]; intros [= <- <-]; split; by destruct st.
Qed.

Lemma stage_registries st delta st' r :
  stage_adoption st delta = (st', r) → same_registries st st'.
Proof.
  unfold stage_adoption. destruct (ensure_persistable _); intros [= <- <-]; split; by destruct st.
Qed.

Lemma finish_registries st persisted :
  same_registries st (finish_pending_adoption st persisted).
Proof.
  unfold finish_pending_adoption, commit_adopted_baseline.
  destruct persisted; edestruct mark_adoption_same as [m ->]; split; by destruct st.
Qed.

(** A frame event changes only the streams, also when it starts one. *)
Lemma frame_registries st ev : same_registries st (exec st ev).
Proof.
  assert (same_frame_context st (exec st ev)) as Hsame.
  { destruct ev as [t|now t env|t g|t g|ts]; simpl.
    - unfold begin_frame_stream. destruct (capabilities_for_target_or_error st t);
        repeat case_match; simpl; auto using same_frame_context_refl, set_frame_streams_same.
    - unfold record_frame_upload. repeat case_match; simpl;
        auto using same_frame_context_refl, set_frame_streams_same.
    - unfold frame_stream_topology_generation. repeat case_match; simpl;
        auto using same_frame_context_refl, set_frame_streams_same.
    - unfold end_frame_stream. repeat case_match;
        auto using same_frame_context_refl, set_frame_streams_same.
    - apply end_all_spec. }
  rewrite Hsame. split; by destruct st.
Qed.

Lemma purge_registries st device st' r :
  purge_withdrawn_device st device = (st', r) → same_registries st st'.
Proof.
  unfold purge_withdrawn_device. repeat case_match; intros [= <- <-]; split; by destruct st.
Qed.

Lemma collection_step_scenes st st' : collection_step st st' → ds_scenes st' = ds_scenes st.
Proof.
  intros [generated name description owner kind members r Hf Hc|id r Hd|id m r Ha|id m r Hr].
  - unfold create_collection in Hc. repeat case_match; simplify_eq; first [done|by destruct st].
  - unfold destroy_collection in Hd. repeat case_match; simplify_eq; first [done|by destruct st].
  - unfold add_collection_member in Ha. case_bool_decide; [|by simplify_eq].
    destruct (check_new_member st id m) as [[]|]; simpl in Ha; [| |done];
      repeat case_match; simplify_eq; first [done|by destruct st].
  - unfold remove_collection_member in Hr. case_match; simplify_eq; first [done|by destruct st].
Qed.

(** ** The invariant *)

Record daemon_inv (st : DaemonState) : Prop := {
  di_collections : collections_inv st;
  di_scenes : map_Forall (λ id s, scene_id s = id ∧ Scene_wf env_is_uuid s) (ds_scenes st)
}.

Lemma same_registries_inv st st' : same_registries st st' → daemon_inv st → daemon_inv st'.
Proof.
  intros [Hc Hs] [[Hr Hrefs] Hw]. split; [split|].
  - by rewrite Hc.
  - unfold scene_refs_wf. by rewrite Hc, Hs.
  - by rewrite Hs.
Qed.

(** A state that can be persisted satisfies the invariant. *)
Lemma snapshot_inv st : snapshot_wf (snapshot_of st) → daemon_inv st.
Proof.
  intros [_ _ _ _ He _ Hg Hs _ _ _ _ _]. simpl in *. split; [split|].
  - split.
    + intros id c Hc. by destruct (He id c Hc) as [? _].
    + intros id c Hc. by destruct (He id c Hc) as (_ & _ & _ & ? & _).
    + exact Hg.
  - intros id s b c Hid Hb Hc. destruct (Hs id s Hid) as (_ & _ & _ & _ & Hf & _).
    rewrite Forall_forall in Hf. by eapply Hf.
  - intros id s Hid. destruct (Hs id s Hid) as (? & ? & _). done.
Qed.

Lemma delete_scene_inv st id : daemon_inv st → daemon_inv (set_scenes st (delete id (ds_scenes st))).
Proof.
  intros [[Hr Hrefs] Hw]. destruct st. simpl in *. split; [split|]; simpl.
  - done.
  - intros k s b c Hk Hb Hc. simpl in Hk. apply lookup_delete_Some in Hk as [_ Hk].
    by eapply (Hrefs k s b c).
  - by apply map_Forall_delete.
Qed.

Lemma daemon_step_inv reserved st st' :
  daemon_inv st → daemon_step reserved st st' → daemon_inv st'.
Proof.
  intros Hinv Hstep.
  destruct Hstep as [now t w r Hw|ms s r Hp|Hc|g n d o bs r Hf _ Hc|id e n d bs r Hr|id e r Hd
    |delta r Hs|p <-|ev <-|ds n Hd|d r Hp].
  - by eapply same_registries_inv; [eapply write_registries|].
  - by eapply same_registries_inv; [eapply partial_registries|].
  - split; [eapply collection_step_inv; [apply Hinv|done]|].
    rewrite (collection_step_scenes st st' Hc). apply Hinv.
  - pose proof (create_scene_spec st g n d o bs Hf) as Hspec. rewrite Hc in Hspec.
    cbn zeta in Hspec. destruct r as [s|e].
    + destruct Hspec as (_ & _ & _ & Hwf). by apply snapshot_inv.
    + by destruct Hspec as [-> _].
  - pose proof (replace_scene_spec st id e n d bs) as Hspec. rewrite Hr in Hspec.
    destruct (ds_scenes st !! id); [|by destruct Hspec as [-> _]].
    destruct r as [s'|e']; [|by destruct Hspec as [-> _]].
    destruct Hspec as (_ & _ & _ & _ & Hwf). by apply snapshot_inv.
  - pose proof (delete_scene_spec st id e) as Hspec. rewrite Hd in Hspec.
    destruct (ds_scenes st !! id); [|by destruct Hspec as [-> _]].
    case_decide; destruct Hspec as [-> _]; [by apply delete_scene_inv|done].
  - by eapply same_registries_inv; [eapply stage_registries|].
  - by eapply same_registries_inv; [apply finish_registries|].
  - by eapply same_registries_inv; [apply frame_registries|].
  - eapply same_registries_inv; [|done]. unfold replace_devices_preserving_withdrawn_state in Hd.
    injection Hd as <- <-. split; by destruct st.
  - by eapply same_registries_inv; [eapply purge_registries|].
Qed.

(** ** Revisions *)

(** The scene, if it exists, is past revision [r]. *)
Definition past (id : SceneId) (r : Z) (st : DaemonState) : Prop :=
  ∀ s, ds_scenes st !! id = Some s → (r < scene_revision s)%Z.

Lemma same_scenes_past id r st st' : ds_scenes st' = ds_scenes st → past id r st → past id r st'.
Proof. intros Heq. unfold past. by rewrite Heq. Qed.

Lemma insert_scene_past id r st k s :
  past id r st → (k = id → (r < scene_revision s)%Z) →
  past id r (set_scenes st (<[k := s]> (ds_scenes st))).
Proof.
  intros Hp Hk s' Hs'. destruct st. simpl in *.
  apply lookup_insert_Some in Hs' as [[-> ->]|[_ Hs']]; [by apply Hk|by apply Hp].
Qed.

Lemma next_revision_past r rev :
  (r < uN_max 64)%Z → (r < rev)%Z → (r < saturateU 64 (rev + 1))%Z.
Proof. unfold saturateU. lia. Qed.

Lemma daemon_step_past id r st st' :
  (r < uN_max 64)%Z → past id r st → daemon_step {[id]} st st' → past id r st'.
Proof.
  intros Hr Hp Hstep.
  destruct Hstep as [now t w q Hw|ms s q Hq|Hc|g n d o bs q Hf Hg Hc|k e n d bs q Hq|k e q Hd
    |delta q Hs|p <-|ev <-|ds n Hd|d q Hq].
  - by eapply same_scenes_past; [eapply write_registries|].
  - by eapply same_scenes_past; [eapply partial_registries|].
  - by eapply same_scenes_past; [eapply collection_step_scenes|].
  - pose proof (create_scene_spec st g n d o bs Hf) as Hspec. rewrite Hc in Hspec.
    cbn zeta in Hspec. destruct q as [s|e]; [|by destruct Hspec as [-> _]].
    destruct Hspec as (_ & -> & _). apply insert_scene_past; [done|]. set_solver.
  - pose proof (replace_scene_spec st k e n d bs) as Hspec. rewrite Hq in Hspec.
    destruct (ds_scenes st !! k) as [current|] eqn:Hk; [|by destruct Hspec as [-> _]].
    destruct q as [s'|e']; [|by destruct Hspec as [-> _]].
    destruct Hspec as (_ & _ & -> & _). apply insert_scene_past; [done|]. simpl. intros ->.
    apply next_revision_past; [done|]. by apply Hp.
  - pose proof (delete_scene_spec st k e) as Hspec. rewrite Hd in Hspec.
    destruct (ds_scenes st !! k); [|by destruct Hspec as [-> _]].
    case_decide; destruct Hspec as [-> _]; [|done]. intros s' Hs'. destruct st.
    simpl in *. apply lookup_delete_Some in Hs' as [_ Hs']. by apply Hp.
  - by eapply same_scenes_past; [eapply stage_registries|].
  - by eapply same_scenes_past; [apply finish_registries|].
  - by eapply same_scenes_past; [apply frame_registries|].
  - eapply same_scenes_past; [|done]. unfold replace_devices_preserving_withdrawn_state in Hd.
    injection Hd as <- <-. by destruct st.
  - by eapply same_scenes_past; [eapply purge_registries|].
Qed.

Lemma daemon_run_past id r st st' :
  (r < uN_max 64)%Z → past id r st → rtc (daemon_step {[id]}) st st' → past id r st'.
Proof. intros Hr Hp. induction 1; eauto using daemon_step_past. Qed.

(** A refused request. *)
Definition refused {A} (r : daemon A) : Prop := ∃ e, r = Err e.
End run.

(** ** Claims *)

(** C3: No sequence of the daemon's mutations, successful or refused, corrupts its
    registries.  From any state that satisfies the invariant, such as a state without
    collections and scenes, every reachable state has collections keyed by their
    identifiers, without repeated members, all of which expand to exactly their
    transitive leaves, and valid scenes keyed by their identifiers, every dynamic
    binding of which follows a registered collection. *)
Theorem daemon_stays_sound `{Env} st st' :
  daemon_inv st → rtc (daemon_step ∅) st st' →
  daemon_inv st' ∧
  (∀ id, is_Some (ds_collections st' !! id) →
     ∃ leaves, resolve_collection_leaves st' id = Ok leaves ∧ NoDup leaves ∧
       ∀ t, t ∈ leaves ↔ leaf_of (map_graph (ds_collections st')) id t) ∧
  (∀ k s b c, ds_scenes st' !! k = Some s → b ∈ scene_bindings s →
     dynamic_collection b = Some c → ∃ leaves, resolve_collection_leaves st' c = Ok leaves).
Proof.
  intros Hinv Hrun.
  assert (daemon_inv st') as Hinv' by (induction Hrun; eauto using daemon_step_inv).
  destruct (di_collections _ Hinv') as [Hr Hrefs]. split_and!; [done|..].
  - intros id. by apply resolve_registered.
  - intros k s b c Hk Hb Hc. destruct (resolve_registered st' c Hr) as (leaves & Hl & _); [|eauto].
    by eapply Hrefs.
Qed.

(** Scene updates are never lost.  Once a scene has been replaced at a revision
    below the largest, that revision stays stale: in every state the daemon can reach
    without drawing the same identifier again, a replacement or a deletion that
    expects it is refused and changes nothing. *)
Theorem stale_revision_refused `{Env} st id r name description bindings st1 s st2 :
  (r < uN_max 64)%Z →
  replace_scene st id r name description bindings = (st1, Ok s) →
  rtc (daemon_step {[id]}) st1 st2 →
  (∀ name' description' bindings',
     (replace_scene st2 id r name' description' bindings').1 = st2 ∧
     refused (replace_scene st2 id r name' description' bindings').2) ∧
  (delete_scene st2 id r).1 = st2 ∧ refused (delete_scene st2 id r).2.
Proof.
  intros Hr Hrep Hrun. assert (past id r st1) as Hp1.
  { pose proof (replace_scene_spec st id r name description bindings) as Hspec.
    rewrite Hrep in Hspec. destruct (ds_scenes st !! id) as [current|] eqn:Hid;
      [|by destruct Hspec].
    destruct Hspec as (Hcur & _ & -> & _). intros s' Hs'. destruct st. simpl in *.
    rewrite lookup_insert_eq in Hs'. injection Hs' as <-. simpl. rewrite Hcur.
    unfold saturateU. lia. }
  pose proof (daemon_run_past id r st1 st2 Hr Hp1 Hrun) as Hp. unfold past in Hp. split.
  - intros n d bs. unfold replace_scene, refused.
    destruct (ds_scenes st2 !! id) as [cur|]; [|by eauto].
    specialize (Hp cur eq_refl). rewrite (proj2 (Z.eqb_neq _ _)) by lia. simpl. eauto.
  - unfold delete_scene, refused. destruct (ds_scenes st2 !! id) as [cur|]; [|by eauto].
    specialize (Hp cur eq_refl). rewrite (proj2 (Z.eqb_neq _ _)) by lia. simpl. eauto.
Qed.

(** ** Witnesses *)

Module Evening.
Definition id : SceneId := SceneId_new "0123456789abcdef0123456789abcdef0123".
Definition binding (v : Z) : SceneBinding :=
  DynamicCollectionMember Rooms.room (TargetId_device "kbd")
    {| sts_appearance := None; sts_brightness := Some v; sts_emission := None;
       sts_appearance_slots := None |}.
(** A scene over the room, created at revision one and replaced. *)
Definition created : DaemonState :=
  (@create_scene sample_env Rooms.with_house id "Evening" None Rooms.owner [binding 40]).1.
Definition replaced : DaemonState * daemon Scene :=
  @replace_scene sample_env created id 1 "Night" None [binding 5].
Definition night : Scene := {|
  scene_id := id; scene_revision := 2; scene_name := "Night"; scene_description := None;
  scene_owner := Rooms.owner; scene_bindings := [binding 5] |}.
End Evening.

Lemma daemon_stays_sound_witness :
  resolve_collection_leaves Evening.created Rooms.house = Ok [TargetId_device "kbd"] ∧
  ∃ leaves, resolve_collection_leaves Evening.created Rooms.room = Ok leaves.
Proof.
  split; [vm_compute; reflexivity|].
  assert (rtc (@daemon_step sample_env ∅) Rooms.start Evening.created) as Hrun.
  { eapply rtc_r; [eapply rtc_subrel; [|exact rooms_built]|].
    - intros a b. apply run_collection.
    - eapply (run_create_scene _ _ _ Evening.id); [vm_compute; reflexivity|set_solver|].
      apply surjective_pairing. }
  assert (@daemon_inv sample_env Rooms.start) as Hinv.
  { split; [apply collections_inv_empty|]. apply map_Forall_empty. }
  destruct (@daemon_stays_sound sample_env Rooms.start Evening.created Hinv Hrun) as (_ & _ & Hs).
  apply (Hs Evening.id {| scene_id := Evening.id; scene_revision := 1; scene_name := "Evening";
    scene_description := None; scene_owner := Rooms.owner;
    scene_bindings := [Evening.binding 40] |} (Evening.binding 40)).
  - vm_compute. reflexivity.
  - set_solver.
  - reflexivity.
Defined.

Lemma stale_revision_refused_witness :
  refused (@delete_scene Evening.replaced.1 Evening.id 1).2.
Proof.
  apply (@stale_revision_refused sample_env Evening.created Evening.id 1 "Night" None
    [Evening.binding 5] Evening.replaced.1 Evening.night Evening.replaced.1).
  - vm_compute. reflexivity.
  - vm_compute. reflexivity.
  - apply rtc_refl.
Defined.
