(* ===== verification/Descriptors.v ===== *)
(** * What plugins report: [luminate-plugin-api/src/topology.rs]

    Device descriptors, hardware claims, targets, updates and state snapshots as they
    cross the plugin boundary.  Their CBOR encoding is not modelled. *)

From S2P Require Import Prelude Model.

Inductive HardwareBus := Bus_Usb | Bus_Hid | Bus_I2c | Bus_Platform | Bus_Network.
#[export] Instance HardwareBus_eq : EqDecision HardwareBus.
Proof. solve_decision. Defined.
#[export] Instance HardwareBus_countable : Countable HardwareBus.
Proof.
  refine (inj_countable'
    (λ b, match b with
          | Bus_Usb => 0 | Bus_Hid => 1 | Bus_I2c => 2 | Bus_Platform => 3 | Bus_Network => 4
          end%N)
    (λ n, match n with
          | 0 => Bus_Usb | 1 => Bus_Hid | 2 => Bus_I2c | 3 => Bus_Platform | _ => Bus_Network
          end%N) _).
  by intros [].
Defined.

Inductive ClaimExclusivity := Exclusive | Shared.
#[export] Instance ClaimExclusivity_eq : EqDecision ClaimExclusivity.
Proof. solve_decision. Defined.

Record HardwareClaim := {
  hc_bus : HardwareBus;
  hc_physical_identity : string;
  hc_control_domain : string;
  hc_exclusivity : ClaimExclusivity
}.

Record ElementDescriptor := {
  ed_id : string;
  ed_name : option string;
  ed_kind : ElementKind;
  ed_geometry : option ElementGeometry;
  ed_physical_tags : list string;
  ed_capabilities : CapabilitySet;
  ed_notes : list string;
  ed_warnings : list string
}.

Record SurfaceDescriptor := {
  sd_id : string;
  sd_name : string;
  sd_kind : SurfaceKind;
  sd_physical_tags : list string;
  sd_elements : list ElementDescriptor;
  sd_capabilities : CapabilitySet;
  sd_notes : list string;
  sd_warnings : list string
}.

Inductive GroupMemberDescriptor :=
| MemberD_Surface (surface : string)
| MemberD_Element (surface element : string)
| MemberD_Group (group : string).

Record GroupDescriptor := {
  gd_id : string;
  gd_name : string;
  gd_description : option string;
  gd_kind : GroupKind;
  gd_members : list GroupMemberDescriptor;
  gd_capabilities : CapabilitySet;
  gd_notes : list string;
  gd_warnings : list string
}.

Record DeviceDescriptor := {
  dd_id : string;
  dd_name : string;
  dd_vendor : option string;
  dd_model : option string;
  dd_surfaces : list SurfaceDescriptor;
  dd_groups : list GroupDescriptor;
  dd_capabilities : CapabilitySet;
  dd_claims : list HardwareClaim;
  dd_category : option DeviceCategory;
  dd_physical_tags : list string;
  dd_host_attached : bool;
  dd_notes : list string;
  dd_warnings : list string
}.

(** ** Requests and answers *)

Inductive PluginTarget :=
| PluginTarget_Device (device : string)
| PluginTarget_Surface (device surface : string)
| PluginTarget_Element (device surface element : string)
| PluginTarget_Group (device group : string).

Definition PluginTarget_device_id (t : PluginTarget) : string :=
  match t with
  | PluginTarget_Device device | PluginTarget_Surface device _
  | PluginTarget_Element device _ _ | PluginTarget_Group device _ => device
  end.

(** [Display] *)
Definition PluginTarget_to_string (t : PluginTarget) : string :=
  match t with
  | PluginTarget_Device device => device
  | PluginTarget_Surface device surface => device +:+ "/" +:+ surface
  | PluginTarget_Element device surface element =>
      device +:+ "/" +:+ surface +:+ "/" +:+ element
  | PluginTarget_Group device group => device +:+ "/group:" +:+ group
  end.

Inductive PluginUpdateOperation :=
| Op_SetEffect (effect : Effect)
| Op_SetAppearanceSlots (values : list AppearanceSlotValue)
| Op_SetBrightness (value : Z)
| Op_Clear
| Op_SaveCurrent.

Definition operation_name (o : PluginUpdateOperation) : string :=
  match o with
  | Op_SetEffect _ => "set-effect"
  | Op_SetAppearanceSlots _ => "set-appearance-slots"
  | Op_SetBrightness _ => "set-brightness"
  | Op_Clear => "clear"
  | Op_SaveCurrent => "save-current"
  end.

Record PluginUpdate := { pu_target : PluginTarget; pu_operation : PluginUpdateOperation }.

(** Why hosts are asked to enumerate again: [abi.rs]. *)
Inductive RescanReason := Rescan_Resume | Rescan_DeviceChange | Rescan_Operator.
#[export] Instance RescanReason_eq : EqDecision RescanReason.
Proof. solve_decision. Defined.

Record PluginReadTarget := { prt_target : PluginTarget; prt_facets : list StateFacetKind }.
Record PluginReadRequest := { prr_targets : list PluginReadTarget }.

Record PluginFacetObservation := { pfo_target : PluginTarget; pfo_value : FacetValue }.
Record PluginReadError := { pre_target : PluginTarget; pre_diagnostic : string }.
Record PluginStateSnapshot := {
  pss_observations : list PluginFacetObservation;
  pss_errors : list PluginReadError
}.
