(* ===== verification/Normalize.v ===== *)
(** * Normalisation of descriptors: [luminated/src/normalize.rs]

    The checks under which a plugin's descriptors become devices.  The central claim
    characterises acceptance exactly; it discharges the well-formedness that the
    topology claims assume of the devices. *)

From S2P Require Import Prelude Model Daemon Topology Descriptors.

Notation normal := (result (fuelled Text)).

Definition fail (e : Text) : fuelled Text := Fail e.

(** ** Texts *)

(** The UTF-8 encodings of the characters with the [White_Space] property. *)
Definition bytes (l : list nat) : string :=
  fold_right (λ n s, String (Ascii.ascii_of_nat n) s) EmptyString l.
Definition white_space : list string :=
  bytes <$>
  ([[9]; [10]; [11]; [12]; [13]; [32]; [194; 133]; [194; 160]; [225; 154; 128];
    [226; 128; 168]; [226; 128; 169]; [226; 128; 175]; [226; 129; 159]; [227; 128; 128]] ++
   ((λ n, [226; 128; n]) <$> seq 128 11)).

(** [tag.trim() == tag]: no white space at either end. *)
Definition is_trimmed (s : string) : bool :=
  negb (existsb (λ w, String.prefix w s || String.prefix (String.rev w) (String.rev s))
          white_space).

(** [s.trim().is_empty()] *)
Fixpoint trim_start (fuel : nat) (s : string) : string :=
  match fuel with
  | O => s
  | S fuel =>
      match List.find (λ w, String.prefix w s) white_space with
      | Some w => trim_start fuel (String.substring (String.length w) (String.length s) s)
      | None => s
      end
  end.
Definition is_blank (s : string) : bool :=
  bool_decide (trim_start (String.length s) s = ""%string).

(** One tag of [validate_physical_tags]. *)
Definition check_tag (location : string) (seen : gset string) (tag : string) :
    normal (gset string) :=
  _ ← ensure (negb (bool_decide (tag = ""%string)) && is_trimmed tag)
        (fail (Fmt "{location} physical tags must not be empty or have leading or trailing whitespace"
                 [AStr location]));
  _ ← ensure (negb (bool_decide (tag ∈ seen)))
        (fail (Fmt "{location} has duplicate physical tag: {tag}" [AStr location; AStr tag]));
  Ok ({[tag]} ∪ seen).

Definition validate_physical_tags (tags : list string) (location : string) : normal unit :=
  _ ← try_fold (check_tag location) ∅ tags; Ok tt.

(** ** Appearance slots *)

Definition reject_appearance_slots (capabilities : CapabilitySet) (target_kind : string) :
    normal unit :=
  ensure (bool_decide (cs_appearance_slots capabilities = None))
    (fail (Fmt "appearance slots are only valid on surfaces, not on a {target_kind}"
             [AStr target_kind])).

Definition check_slot (surface : string) (seen : gset string * gset string)
    (slot : AppearanceSlotDescriptor) : normal (gset string * gset string) :=
  let '(ids, names) := seen in
  let id := AppearanceSlotId_as_str (asd_id slot) in
  _ ← ensure (negb (bool_decide (id = ""%string)))
        (fail (Fmt "surface {surface} has an appearance slot with an empty id" [AStr surface]));
  _ ← ensure (negb (bool_decide (id ∈ ids)))
        (fail (Fmt "surface {surface} advertises duplicate appearance slot id {id}"
                 [AStr surface; AStr id]));
  _ ← ensure (negb (bool_decide (asd_name slot = ""%string)))
        (fail (Fmt "surface {surface} appearance slot {id} has an empty name"
                 [AStr surface; AStr id]));
  _ ← ensure (negb (bool_decide (asd_name slot ∈ names)))
        (fail (Fmt "surface {surface} advertises duplicate appearance slot name {}"
                 [AStr surface; AStr (asd_name slot)]));
  Ok ({[id]} ∪ ids, {[asd_name slot]} ∪ names).

Definition validate_appearance_slots (capabilities : CapabilitySet) (surface : string) :
    normal unit :=
  match cs_appearance_slots capabilities with
  | None => Ok tt
  | Some appearance_slots =>
      _ ← ensure (negb (bool_decide (length (asc_slots appearance_slots) = 0)))
            (fail (Fmt "surface {surface} advertises appearance slots with no slots"
                     [AStr surface]));
      _ ← try_fold (check_slot surface) (∅, ∅) (asc_slots appearance_slots);
      Ok tt
  end.

(** ** Elements and surfaces *)

Definition to_element (e : ElementDescriptor) : Element := {|
  element_id := ElementId_new (ed_id e); element_name := ed_name e; element_kind := ed_kind e;
  element_geometry := ed_geometry e; element_physical_tags := ed_physical_tags e;
  element_capabilities := ed_capabilities e; element_notes := ed_notes e;
  element_warnings := ed_warnings e
|}.

(** The identifiers seen, the names seen, and the elements so far. *)
Definition normalize_element (surface : string)
    (acc : gset string * gset string * list Element) (e : ElementDescriptor) :
    normal (gset string * gset string * list Element) :=
  let '(ids, names, elements) := acc in
  _ ← ensure (negb (bool_decide (ed_id e = ""%string))) (fail (Lit "element id must not be empty"));
  _ ← reject_appearance_slots (ed_capabilities e) "element";
  _ ← validate_physical_tags (ed_physical_tags e) ("element " +:+ ed_id e);
  _ ← ensure (negb (bool_decide (ed_id e ∈ ids)))
        (fail (Fmt "duplicate element id on surface {}: {}" [AStr surface; AStr (ed_id e)]));
  names ← match ed_name e with
          | Some name =>
              _ ← ensure (negb (bool_decide (name ∈ names)))
                    (fail (Fmt "duplicate element name on surface {}: {}"
                             [AStr surface; AStr name]));
              Ok ({[name]} ∪ names)
          | None => Ok names
          end;
  Ok ({[ed_id e]} ∪ ids, names, elements ++ [to_element e]).

Definition to_surface (s : SurfaceDescriptor) : Surface := {|
  surface_id := SurfaceId_new (sd_id s); surface_name := sd_name s; surface_kind := sd_kind s;
  surface_physical_tags := sd_physical_tags s; surface_elements := to_element <$> sd_elements s;
  surface_capabilities := sd_capabilities s; surface_notes := sd_notes s;
  surface_warnings := sd_warnings s
|}.

(** The identifiers and names seen, the element identifiers per surface, and the
    surfaces so far. *)
Definition normalize_surface (device : string)
    (acc : gset string * gset string * (gmap string (gset string) * list Surface))
    (s : SurfaceDescriptor) :
    normal (gset string * gset string * (gmap string (gset string) * list Surface)) :=
  let '(surface_ids, surface_names, (element_ids_by_surface, surfaces)) := acc in
  _ ← ensure (negb (bool_decide (sd_id s = ""%string))) (fail (Lit "surface id must not be empty"));
  _ ← ensure (negb (bool_decide (sd_name s = ""%string)))
        (fail (Lit "surface name must not be empty"));
  _ ← validate_appearance_slots (sd_capabilities s) (sd_id s);
  _ ← validate_physical_tags (sd_physical_tags s) ("surface " +:+ sd_id s);
  _ ← ensure (negb (bool_decide (sd_id s ∈ surface_ids)))
        (fail (Fmt "duplicate surface id on device {}: {}" [AStr device; AStr (sd_id s)]));
  _ ← ensure (negb (bool_decide (sd_name s ∈ surface_names)))
        (fail (Fmt "duplicate surface name on device {}: {}" [AStr device; AStr (sd_name s)]));
  '(element_ids, _, elements) ← try_fold (normalize_element (sd_id s)) (∅, ∅, []) (sd_elements s);
  Ok ({[sd_id s]} ∪ surface_ids, {[sd_name s]} ∪ surface_names,
      (<[sd_id s := element_ids]> element_ids_by_surface,
       surfaces ++ [{| surface_id := SurfaceId_new (sd_id s); surface_name := sd_name s;
                       surface_kind := sd_kind s; surface_physical_tags := sd_physical_tags s;
                       surface_elements := elements; surface_capabilities := sd_capabilities s;
                       surface_notes := sd_notes s; surface_warnings := sd_warnings s |}])).

(** ** Groups *)

Definition check_group (device : string) (acc : gset string * gset string) (g : GroupDescriptor) :
    normal (gset string * gset string) :=
  let '(group_ids, group_names) := acc in
  _ ← ensure (negb (bool_decide (gd_id g = ""%string))) (fail (Lit "group id must not be empty"));
  _ ← ensure (negb (bool_decide (gd_name g = ""%string)))
        (fail (Lit "group name must not be empty"));
  _ ← reject_appearance_slots (gd_capabilities g) "group";
  _ ← ensure (negb (bool_decide (gd_id g ∈ group_ids)))
        (fail (Fmt "duplicate group id on device {}: {}" [AStr device; AStr (gd_id g)]));
  _ ← ensure (negb (bool_decide (gd_name g ∈ group_names)))
        (fail (Fmt "duplicate group name on device {}: {}" [AStr device; AStr (gd_name g)]));
  Ok ({[gd_id g]} ∪ group_ids, {[gd_name g]} ∪ group_names).

Definition normalize_group_member (current_group : string) (surface_ids : gset string)
    (element_ids_by_surface : gmap string (gset string)) (group_ids : gset string)
    (member : GroupMemberDescriptor) : normal GroupMember :=
  match member with
  | MemberD_Surface surface =>
      _ ← ensure (bool_decide (surface ∈ surface_ids))
            (fail (Fmt "group references unknown surface: {surface}" [AStr surface]));
      Ok (GroupMember_Surface (SurfaceId_new surface))
  | MemberD_Element surface element =>
      element_ids ← ok_or (element_ids_by_surface !! surface : option (gset string))
        (fail (Fmt "group references unknown surface for element member: {surface}"
                 [AStr surface]));
      _ ← ensure (bool_decide (element ∈ (element_ids : gset string)))
            (fail (Fmt "group references unknown element {element} on surface {surface}"
                     [AStr element; AStr surface]));
      Ok (GroupMember_Element (SurfaceId_new surface) (ElementId_new element))
  | MemberD_Group group =>
      _ ← ensure (negb (bool_decide (group = current_group)))
            (fail (Fmt "group references itself: {current_group}" [AStr current_group]));
      _ ← ensure (bool_decide (group ∈ group_ids))
            (fail (Fmt "group references unknown group: {group}" [AStr group]));
      Ok (GroupMember_Group (GroupId_new group))
  end.

Definition normalize_group (surface_ids : gset string)
    (element_ids_by_surface : gmap string (gset string)) (group_ids : gset string)
    (g : GroupDescriptor) : normal Group :=
  members ← try_map (normalize_group_member (gd_id g) surface_ids element_ids_by_surface group_ids)
              (gd_members g);
  Ok {| group_id := GroupId_new (gd_id g); group_name := gd_name g;
        group_description := gd_description g; group_kind := gd_kind g; group_members := members;
        group_capabilities := gd_capabilities g; group_notes := gd_notes g;
        group_warnings := gd_warnings g |}.

(** *** Cycles *)

Definition member_group (m : GroupMemberDescriptor) : option string :=
  match m with MemberD_Group group => Some group | _ => None end.

(** [collect] into a map: a later group with the same identifier replaces an
    earlier one. *)
Definition group_graph (groups : list GroupDescriptor) : gmap string (list string) :=
  fold_left (λ m g, <[gd_id g := omap member_group (gd_members g)]> m) groups ∅.

(** On the pair of the groups being visited and the groups visited. *)
Fixpoint reject_group_cycles_from (graph : gmap string (list string)) (fuel : nat)
    (acc : gset string * gset string) (group : string) : normal (gset string * gset string) :=
  match fuel with
  | O => Err Fuel
  | S fuel =>
      let '(visiting, visited) := acc in
      if decide (group ∈ visited) then Ok (visiting, visited)
      else
        _ ← ensure (negb (bool_decide (group ∈ visiting)))
              (fail (Fmt "group reference cycle includes: {group}" [AStr group]));
        '(visiting, visited) ←
          try_fold (reject_group_cycles_from graph fuel) ({[group]} ∪ visiting, visited)
            (default [] (graph !! group));
        Ok (visiting ∖ {[group]}, {[group]} ∪ visited)
  end.

Definition reject_group_cycles (descriptor : DeviceDescriptor) : normal unit :=
  let graph := group_graph (dd_groups descriptor) in
  _ ← try_fold (reject_group_cycles_from graph (S (size graph))) (∅, ∅) (map_to_list graph).*1;
  Ok tt.

Definition normalize_groups (descriptor : DeviceDescriptor) (surface_ids : gset string)
    (element_ids_by_surface : gmap string (gset string)) : normal (list Group) :=
  '(group_ids, _) ← try_fold (check_group (dd_id descriptor)) (∅, ∅) (dd_groups descriptor);
  groups ← try_map (normalize_group surface_ids element_ids_by_surface group_ids)
             (dd_groups descriptor);
  _ ← reject_group_cycles descriptor;
  Ok groups.

(** ** Devices *)

Definition normalize_device (descriptor : DeviceDescriptor) : normal Device :=
  _ ← ensure (negb (bool_decide (dd_id descriptor = ""%string)))
        (fail (Lit "device id must not be empty"));
  _ ← ensure (negb (bool_decide (dd_name descriptor = ""%string)))
        (fail (Lit "device name must not be empty"));
  _ ← reject_appearance_slots (dd_capabilities descriptor) "device";
  _ ← validate_physical_tags (dd_physical_tags descriptor) "device";
  '(surface_ids, _, (element_ids_by_surface, surfaces)) ←
    try_fold (normalize_surface (dd_id descriptor)) (∅, ∅, (∅, [])) (dd_surfaces descriptor);
  groups ← normalize_groups descriptor surface_ids element_ids_by_surface;
  Ok {| device_id := DeviceId_new (dd_id descriptor); device_name := dd_name descriptor;
        device_vendor := dd_vendor descriptor; device_model := dd_model descriptor;
        device_provider_instance := None; device_surfaces := surfaces; device_groups := groups;
        device_capabilities := dd_capabilities descriptor;
        device_category := dd_category descriptor;
        device_physical_tags := dd_physical_tags descriptor;
        device_host_attached := dd_host_attached descriptor; device_notes := dd_notes descriptor;
        device_warnings := dd_warnings descriptor |}.

Definition normalize_one (acc : gset string * gset string * list Device)
    (descriptor : DeviceDescriptor) : normal (gset string * gset string * list Device) :=
  let '(ids, names, devices) := acc in
  _ ← ensure (negb (bool_decide (dd_id descriptor ∈ ids)))
        (fail (Fmt "duplicate device id: {}" [AStr (dd_id descriptor)]));
  _ ← ensure (negb (bool_decide (dd_name descriptor ∈ names)))
        (fail (Fmt "duplicate device name: {}" [AStr (dd_name descriptor)]));
  device ← normalize_device descriptor;
  Ok ({[dd_id descriptor]} ∪ ids, {[dd_name descriptor]} ∪ names, devices ++ [device]).

Definition normalize_devices (descriptors : list DeviceDescriptor) : normal (list Device) :=
  '(_, _, devices) ← try_fold normalize_one (∅, ∅, []) descriptors;
  Ok devices.

(** [DaemonState::from_descriptors] *)
Definition from_descriptors (descriptors : list DeviceDescriptor) : normal DaemonState :=
  devices ← normalize_devices descriptors; Ok (from_devices devices).

Example trimmed_examples :
  (is_trimmed <$> ["rgb"; " rgb"; "rgb "; "a b"; ""])%string = [true; false; false; true; true].
Proof. reflexivity. Qed.

(** ** What normalisation accepts *)

Definition tags_ok (tags : list string) : Prop :=
  Forall (λ tag, tag ≠ ""%string ∧ is_trimmed tag = true) tags ∧ NoDup tags.

(** Appearance slots are named uniquely on their surface, by identifier and by name. *)
Definition slots_ok (capabilities : CapabilitySet) : Prop :=
  ∀ slots, cs_appearance_slots capabilities = Some slots →
  asc_slots slots ≠ [] ∧
  Forall (λ slot, AppearanceSlotId_as_str (asd_id slot) ≠ ""%string ∧ asd_name slot ≠ ""%string)
    (asc_slots slots) ∧
  NoDup (AppearanceSlotId_as_str ∘ asd_id <$> asc_slots slots) ∧
  NoDup (asd_name <$> asc_slots slots).

Definition element_ok (e : ElementDescriptor) : Prop :=
  ed_id e ≠ ""%string ∧ cs_appearance_slots (ed_capabilities e) = None ∧
  tags_ok (ed_physical_tags e).

Record surface_ok (s : SurfaceDescriptor) : Prop := {
  sok_id : sd_id s ≠ ""%string;
  sok_name : sd_name s ≠ ""%string;
  sok_slots : slots_ok (sd_capabilities s);
  sok_tags : tags_ok (sd_physical_tags s);
  sok_elements : Forall element_ok (sd_elements s);
  sok_element_ids : NoDup (ed_id <$> sd_elements s);
  sok_element_names : NoDup (omap ed_name (sd_elements s))
}.

(** What a group of the device lists is on the device, and is not the group itself. *)
Definition member_ok (d : DeviceDescriptor) (g : GroupDescriptor) (m : GroupMemberDescriptor) :
    Prop :=
  match m with
  | MemberD_Surface surface => surface ∈ sd_id <$> dd_surfaces d
  | MemberD_Element surface element =>
      ∃ s, s ∈ dd_surfaces d ∧ sd_id s = surface ∧ element ∈ ed_id <$> sd_elements s
  | MemberD_Group group => group ≠ gd_id g ∧ group ∈ gd_id <$> dd_groups d
  end.

Record group_ok (d : DeviceDescriptor) (g : GroupDescriptor) : Prop := {
  gok_id : gd_id g ≠ ""%string;
  gok_name : gd_name g ≠ ""%string;
  gok_slots : cs_appearance_slots (gd_capabilities g) = None;
  gok_members : Forall (member_ok d g) (gd_members g)
}.

(** A group of the list named [a] lists the group named [b]. *)
Definition refers (groups : list GroupDescriptor) (a b : string) : Prop :=
  ∃ g, g ∈ groups ∧ gd_id g = a ∧ MemberD_Group b ∈ gd_members g.

Record device_ok (d : DeviceDescriptor) : Prop := {
  dok_id : dd_id d ≠ ""%string;
  dok_name : dd_name d ≠ ""%string;
  dok_slots : cs_appearance_slots (dd_capabilities d) = None;
  dok_tags : tags_ok (dd_physical_tags d);
  dok_surfaces : Forall surface_ok (dd_surfaces d);
  dok_surface_ids : NoDup (sd_id <$> dd_surfaces d);
  dok_surface_names : NoDup (sd_name <$> dd_surfaces d);
  dok_groups : Forall (group_ok d) (dd_groups d);
  dok_group_ids : NoDup (gd_id <$> dd_groups d);
  dok_group_names : NoDup (gd_name <$> dd_groups d);
  dok_acyclic a : ¬ tc (refers (dd_groups d)) a a
}.

(** The device a descriptor describes. *)
Definition to_member (m : GroupMemberDescriptor) : GroupMember :=
  match m with
  | MemberD_Surface surface => GroupMember_Surface (SurfaceId_new surface)
  | MemberD_Element surface element =>
      GroupMember_Element (SurfaceId_new surface) (ElementId_new element)
  | MemberD_Group group => GroupMember_Group (GroupId_new group)
  end.

Definition to_group (g : GroupDescriptor) : Group := {|
  group_id := GroupId_new (gd_id g); group_name := gd_name g;
  group_description := gd_description g; group_kind := gd_kind g;
  group_members := to_member <$> gd_members g; group_capabilities := gd_capabilities g;
  group_notes := gd_notes g; group_warnings := gd_warnings g
|}.

Definition to_device (d : DeviceDescriptor) : Device := {|
  device_id := DeviceId_new (dd_id d); device_name := dd_name d; device_vendor := dd_vendor d;
  device_model := dd_model d; device_provider_instance := None;
  device_surfaces := to_surface <$> dd_surfaces d; device_groups := to_group <$> dd_groups d;
  device_capabilities := dd_capabilities d; device_category := dd_category d;
  device_physical_tags := dd_physical_tags d; device_host_attached := dd_host_attached d;
  device_notes := dd_notes d; device_warnings := dd_warnings d
|}.

(** ** Loops that track identifiers and names *)

(** A loop whose body refuses an identifier or a name it has seen before: [keys] and
    [names] are the sets the loop's state holds. *)
Section seen_twice.
Context {E St A : Type}.
Context (keys names : St → gset string) (key : A → string) (name : A → option string).
Context (P : A → Prop) (step : St → A → St) (f : St → A → result E St).
Context (keys_step : ∀ s x, keys (step s x) = {[key x]} ∪ keys s).
Context (names_step : ∀ s x, names (step s x) = list_to_set (option_list (name x)) ∪ names s).
Context (f_spec : ∀ s x s',
  f s x = Ok s' ↔
  P x ∧ key x ∉ keys s ∧ (∀ n, name x = Some n → n ∉ names s) ∧ s' = step s x).

Lemma seen_twice s l s' :
  try_fold f s l = Ok s' ↔
  (Forall P l ∧ NoDup (key <$> l) ∧ NoDup (omap name l)) ∧
  (∀ x, x ∈ l → key x ∉ keys s) ∧ (∀ x n, x ∈ l → name x = Some n → n ∉ names s) ∧
  s' = foldl step s l.
Proof using All.
  revert s. induction l as [|x l IH]; intros s; cbn [try_fold].
  { cbn. split; [|naive_solver]. intros [= <-]. split_and!; try constructor; set_solver. }
  rewrite bind_Ok. setoid_rewrite f_spec. setoid_rewrite IH.
  rewrite Forall_cons. cbn [fmap list_fmap]. rewrite NoDup_cons.
  assert (NoDup (omap name (x :: l)) ↔
    (∀ n, name x = Some n → ∀ y, y ∈ l → name y ≠ Some n) ∧ NoDup (omap name l)) as ->.
  { cbn. destruct (name x) as [n|]; [|naive_solver]. rewrite NoDup_cons, list_elem_of_omap.
    naive_solver. }
  rewrite list_elem_of_fmap. split.
  - intros (s1 & (HP & Hk & Hn & ->) & (HPl & Hkl & Hnl) & Hks & Hns & ->).
    setoid_rewrite keys_step in Hks. setoid_rewrite names_step in Hns.
    split_and!; try done.
    + intros (y & Hy & Hyl). specialize (Hks y Hyl). set_solver.
    + intros n Hx y Hyl Hy. specialize (Hns y n Hyl Hy). rewrite Hx in Hns. set_solver.
    + set_solver.
    + set_solver.
  - intros (((HP & HPl) & (Hk & Hkl) & Hn & Hnl) & Hks & Hns & ->).
    exists (step s x). split_and!; try done; [set_solver|set_solver| |].
    + intros y Hy. rewrite keys_step. specialize (Hks y). assert (key y ≠ key x) by naive_solver.
      set_solver.
    + intros y n Hy Hyn. rewrite names_step. specialize (Hns y n). specialize (Hn n).
      destruct (name x) as [n'|]; set_solver.
Qed.

(** From empty sets. *)
Lemma seen_twice_start s l s' :
  keys s = ∅ → names s = ∅ →
  try_fold f s l = Ok s' ↔
  (Forall P l ∧ NoDup (key <$> l) ∧ NoDup (omap name l)) ∧ s' = foldl step s l.
Proof using All.
  intros Hk Hn. rewrite seen_twice, Hk, Hn. set_solver.
Qed.

Lemma keys_foldl s l : keys (foldl step s l) = list_to_set (key <$> l) ∪ keys s.
Proof using keys_step.
  clear f_spec names_step f P names name. revert s. induction l as [|x l IH]; intros s; cbn; [set_solver|].
  rewrite IH, keys_step. set_solver.
Qed.
End seen_twice.

(** ** The loops of the module *)

Lemma omap_Some {A B} (f : A → B) (l : list A) : omap (λ x, Some (f x)) l = f <$> l.
Proof. induction l as [|x l IH]; cbn; [done|]. by rewrite <-IH. Qed.

Lemma foldl_snoc {A B} (f : A → B) (l : list A) acc :
  foldl (λ acc x, acc ++ [f x]) acc l = acc ++ (f <$> l).
Proof.
  revert acc. induction l as [|x l IH]; intros acc; cbn; [by rewrite app_nil_r|].
  by rewrite IH, <-app_assoc.
Qed.

(** The guards of a body, one by one. *)
Ltac guards :=
  repeat first
    [ rewrite bind_unit_Ok
    | rewrite ensure_Ok
    | rewrite negb_true_iff
    | rewrite andb_true_iff
    | rewrite bool_decide_eq_true
    | rewrite bool_decide_eq_false ].

Lemma validate_physical_tags_Ok tags location :
  validate_physical_tags tags location = Ok tt ↔ tags_ok tags.
Proof.
  unfold validate_physical_tags, tags_ok. rewrite bind_Ok.
  rewrite <-(list_fmap_id tags) at 2.
  rewrite <-(try_fold_seen_empty id (λ tag, tag ≠ ""%string ∧ is_trimmed tag = true)
    (check_tag location)).
  - naive_solver.
  - intros s x s'. unfold check_tag. guards. naive_solver.
Qed.

Lemma reject_appearance_slots_Ok c k :
  reject_appearance_slots c k = Ok tt ↔ cs_appearance_slots c = None.
Proof. unfold reject_appearance_slots. by guards. Qed.

Lemma validate_appearance_slots_Ok c s :
  validate_appearance_slots c s = Ok tt ↔ slots_ok c.
Proof.
  unfold validate_appearance_slots, slots_ok.
  destruct (cs_appearance_slots c) as [slots|]; [|naive_solver]. guards. rewrite bind_Ok.
  pose proof (λ s' : gset string * gset string, seen_twice_start fst snd (AppearanceSlotId_as_str ∘ asd_id)
    (λ x, Some (asd_name x))
    (λ x, AppearanceSlotId_as_str (asd_id x) ≠ ""%string ∧ asd_name x ≠ ""%string)
    (λ acc x, ({[AppearanceSlotId_as_str (asd_id x)]} ∪ acc.1, {[asd_name x]} ∪ acc.2))
    (check_slot s) ltac:(done) ltac:(intros; cbn; set_solver)
    ltac:(intros [ids names] x s1; unfold check_slot; guards; cbn; naive_solver)
    (∅, ∅) (asc_slots slots) s' eq_refl eq_refl) as Hfold.
  setoid_rewrite Hfold. rewrite omap_Some, length_zero_iff_nil. naive_solver.
Qed.

(** The state of the element loop after the elements [l]. *)
Definition element_step (acc : gset string * gset string * list Element) (e : ElementDescriptor) :
    gset string * gset string * list Element :=
  ({[ed_id e]} ∪ acc.1.1, list_to_set (option_list (ed_name e)) ∪ acc.1.2,
   acc.2 ++ [to_element e]).

Lemma normalize_element_Ok surface acc e acc' :
  normalize_element surface acc e = Ok acc' ↔
  element_ok e ∧ ed_id e ∉ acc.1.1 ∧ (∀ n, ed_name e = Some n → n ∉ acc.1.2) ∧
  acc' = element_step acc e.
Proof.
  destruct acc as [[ids names] elements]. unfold normalize_element, element_step, element_ok.
  guards. rewrite reject_appearance_slots_Ok, validate_physical_tags_Ok, bind_Ok. cbn.
  destruct (ed_name e) as [n|]; cbn; [|rewrite (left_id_L ∅ (∪)); naive_solver].
  setoid_rewrite bind_unit_Ok. setoid_rewrite ensure_Ok. setoid_rewrite negb_true_iff.
  setoid_rewrite bool_decide_eq_false.
  replace ({[n]} ∪ ∅ ∪ names) with ({[n]} ∪ names) by set_solver. naive_solver.
Qed.

Lemma normalize_elements_Ok surface l acc :
  try_fold (normalize_element surface) (∅, ∅, []) l = Ok acc ↔
  (Forall element_ok l ∧ NoDup (ed_id <$> l) ∧ NoDup (omap ed_name l)) ∧
  acc = foldl element_step (∅, ∅, []) l.
Proof.
  apply (seen_twice_start (λ s, s.1.1) (λ s, s.1.2)); try done.
  apply normalize_element_Ok.
Qed.

Lemma element_steps l :
  (foldl element_step (∅, ∅, []) l).1.1 = list_to_set (ed_id <$> l) ∧
  (foldl element_step (∅, ∅, []) l).2 = to_element <$> l.
Proof.
  split.
  - rewrite (keys_foldl (λ s, s.1.1) ed_id); [|done]. set_solver.
  - enough (∀ acc, (foldl element_step acc l).2 = acc.2 ++ (to_element <$> l)) as H by apply H.
    induction l as [|x l IH]; intros acc; cbn; [by rewrite app_nil_r|].
    rewrite IH. cbn. by rewrite <-app_assoc.
Qed.

Definition surface_state : Type :=
  gset string * gset string * (gmap string (gset string) * list Surface).
Definition surface_step (acc : surface_state) (s : SurfaceDescriptor) : surface_state :=
  ({[sd_id s]} ∪ acc.1.1, {[sd_name s]} ∪ acc.1.2,
   (<[sd_id s := list_to_set (ed_id <$> sd_elements s)]> acc.2.1, acc.2.2 ++ [to_surface s])).

Lemma normalize_surface_Ok device acc s acc' :
  normalize_surface device acc s = Ok acc' ↔
  surface_ok s ∧ sd_id s ∉ acc.1.1 ∧ (∀ n, Some (sd_name s) = Some n → n ∉ acc.1.2) ∧
  acc' = surface_step acc s.
Proof.
  destruct acc as [[ids names] [by_surface surfaces]]. unfold normalize_surface.
  guards. rewrite validate_appearance_slots_Ok, validate_physical_tags_Ok, bind_Ok.
  setoid_rewrite normalize_elements_Ok. pose proof (element_steps (sd_elements s)) as [Hi He].
  unfold surface_step, to_surface. cbn. rewrite <-Hi, <-He.
  destruct (foldl _ _ _) as [[element_ids element_names] elements]. cbn in *. split.
  - intros (Hid & Hname & Hslots & Htags & Hnid & Hnn & acc & ((Hl & Hi1 & Hn1) & ->) & [= <-]).
    split; [by constructor|]. naive_solver.
  - intros ([] & ? & Hn & ->). split_and!; try done; [by apply Hn|]. by eexists.
Qed.

Lemma normalize_surfaces_Ok device l acc :
  try_fold (normalize_surface device) (∅, ∅, (∅, [])) l = Ok acc ↔
  (Forall surface_ok l ∧ NoDup (sd_id <$> l) ∧ NoDup (sd_name <$> l)) ∧
  acc = foldl surface_step (∅, ∅, (∅, [])) l.
Proof.
  rewrite <-(omap_Some sd_name).
  apply (seen_twice_start (λ s, s.1.1) (λ s, s.1.2)); [done| |apply normalize_surface_Ok|done|done].
  intros. cbn. set_solver.
Qed.

Lemma surface_steps l :
  (foldl surface_step (∅, ∅, (∅, [])) l).1.1 = list_to_set (sd_id <$> l) ∧
  (foldl surface_step (∅, ∅, (∅, [])) l).2.2 = to_surface <$> l.
Proof.
  split.
  - rewrite (keys_foldl (λ s : surface_state, s.1.1) sd_id surface_step); [|done]. set_solver.
  - enough (∀ acc, (foldl surface_step acc l).2.2 = acc.2.2 ++ (to_surface <$> l)) as H by apply H.
    induction l as [|x l IH]; intros acc; cbn; [by rewrite app_nil_r|].
    rewrite IH. cbn. by rewrite <-app_assoc.
Qed.

(** The element identifiers recorded for a surface are those of the surface. *)
Lemma surface_steps_elements l k es :
  NoDup (sd_id <$> l) →
  (foldl surface_step (∅, ∅, (∅, [])) l).2.1 !! k = Some es ↔
  ∃ s, s ∈ l ∧ sd_id s = k ∧ es = list_to_set (ed_id <$> sd_elements s).
Proof.
  induction l as [|s l IH] using rev_ind; intros Hnd; [cbn; set_solver|].
  rewrite fmap_app, NoDup_app in Hnd. destruct Hnd as (Hnd & Hd & _).
  rewrite foldl_app. cbn. rewrite lookup_insert_Some, IH by done. split.
  - intros [[<- <-]|(_ & s' & Hs' & Hk & ->)]; eexists; rewrite elem_of_app; [|by eauto].
    by rewrite list_elem_of_singleton; eauto.
  - intros (s' & Hs' & <- & ->). rewrite elem_of_app, list_elem_of_singleton in Hs'.
    destruct Hs' as [Hs'| ->]; [right|by left]. split; [|by eauto]. intros Heq.
    apply (Hd (sd_id s')); [by apply list_elem_of_fmap_2|set_solver].
Qed.

(** ** Groups *)

Lemma normalize_group_member_Ok (d : DeviceDescriptor) (g : GroupDescriptor) by_surface m m' :
  (∀ k es, by_surface !! k = Some es ↔
     ∃ s, s ∈ dd_surfaces d ∧ sd_id s = k ∧ es = list_to_set (ed_id <$> sd_elements s)) →
  normalize_group_member (gd_id g) (list_to_set (sd_id <$> dd_surfaces d)) by_surface
    (list_to_set (gd_id <$> dd_groups d)) m = Ok m' ↔
  member_ok d g m ∧ m' = to_member m.
Proof.
  intros Hby. destruct m as [surface|surface element|group]; cbn [normalize_group_member member_ok to_member];
    guards.
  - rewrite elem_of_list_to_set. naive_solver.
  - destruct (by_surface !! surface) as [es|] eqn:Hes; cbn [ok_or mbind result_bind]; guards.
    + apply Hby in Hes as (s & Hs & <- & ->).
      pose proof (λ s, elem_of_list_to_set (C:=gset string) element (ed_id <$> sd_elements s)) as Hin.
      split.
      * intros [He%Hin [= <-]]. eauto 10.
      * intros [(s' & Hs' & Hid & He%Hin) ->]. split; [|done].
        assert (by_surface !! sd_id s = Some (list_to_set (ed_id <$> sd_elements s))) as H1
          by (apply Hby; eauto).
        assert (by_surface !! sd_id s = Some (list_to_set (ed_id <$> sd_elements s'))) as H2
          by (apply Hby; eauto).
        congruence.
    + split; [done|]. intros [(s & Hs & Hid & _) _].
      by rewrite (proj2 (Hby surface (list_to_set (ed_id <$> sd_elements s)))) in Hes by eauto.
  - rewrite elem_of_list_to_set. naive_solver.
Qed.

Lemma normalize_group_Ok (d : DeviceDescriptor) by_surface g g' :
  (∀ k es, by_surface !! k = Some es ↔
     ∃ s, s ∈ dd_surfaces d ∧ sd_id s = k ∧ es = list_to_set (ed_id <$> sd_elements s)) →
  normalize_group (list_to_set (sd_id <$> dd_surfaces d)) by_surface
    (list_to_set (gd_id <$> dd_groups d)) g = Ok g' ↔
  Forall (member_ok d g) (gd_members g) ∧ g' = to_group g.
Proof.
  intros Hby. unfold normalize_group. rewrite bind_Ok.
  setoid_rewrite try_map_Ok.
  assert (∀ ms, Forall2 (λ x y, normalize_group_member (gd_id g)
      (list_to_set (sd_id <$> dd_surfaces d)) by_surface (list_to_set (gd_id <$> dd_groups d)) x
      = Ok y) (gd_members g) ms ↔
    Forall (member_ok d g) (gd_members g) ∧ ms = to_member <$> gd_members g) as Hms.
  { generalize (gd_members g). intros l. induction l as [|m l IH]; intros ms.
    - split; [by intros ->%Forall2_nil_inv_l|]. by intros [_ ->].
    - rewrite Forall_cons. split.
      + intros (m' & ms' & [Hm ->]%normalize_group_member_Ok & [Hl ->]%IH & ->)%Forall2_cons_inv_l;
          [|done]. done.
      + intros [[Hm Hl] ->]. constructor; [by apply normalize_group_member_Ok|by apply IH]. }
  setoid_rewrite Hms. unfold to_group. naive_solver.
Qed.

Lemma check_groups_Ok device l acc :
  try_fold (check_group device) (∅, ∅) l = Ok acc ↔
  (Forall (λ g, gd_id g ≠ ""%string ∧ gd_name g ≠ ""%string ∧
     cs_appearance_slots (gd_capabilities g) = None) l ∧
   NoDup (gd_id <$> l) ∧ NoDup (gd_name <$> l)) ∧
  acc = foldl (λ acc g, ({[gd_id g]} ∪ acc.1, {[gd_name g]} ∪ acc.2)) (∅, ∅) l.
Proof.
  rewrite <-(omap_Some gd_name). apply (seen_twice_start fst snd); [done| | |done|done].
  - intros. cbn. set_solver.
  - intros [ids names] g s'. unfold check_group. guards. rewrite reject_appearance_slots_Ok.
    naive_solver.
Qed.

(** *** Cycles *)

Section cycles.
Context (graph : gmap string (list string)).

Definition edge (a b : string) : Prop := b ∈ default [] (graph !! a).
(** No path of references leaves [a] for ever. *)
Notation grounded := (Acc (flip edge)).

Lemma edge_acyclic a : grounded a → ¬ tc edge a a.
Proof.
  intros Hg. induction Hg as [a _ IH]. intros H.
  assert (∃ b, edge a b ∧ tc edge b b) as (b & Hab & Hb).
  { inversion H as [? ? Ha|? b ? Hab Hba]; subst; eauto using tc_once, tc_r. }
  by apply (IH b).
Qed.

Definition cycles_post (names : list string) (acc : gset string * gset string)
    (r : normal (gset string * gset string)) : Prop :=
  match r with
  | Ok acc' => acc'.1 = acc.1 ∧ set_Forall grounded acc'.2 ∧ Forall grounded names
  | Err (Fail _) => ∃ x, tc edge x x
  | Err Fuel => False
  end.

Lemma cycles_loop f names acc :
  (∀ n acc', n ∈ names → acc'.1 = acc.1 → set_Forall grounded acc'.2 →
     cycles_post [n] acc' (f acc' n)) →
  set_Forall grounded acc.2 → cycles_post names acc (try_fold f acc names).
Proof.
  revert acc. induction names as [|n names IH]; intros acc Hf Hv; cbn [try_fold]; [by split_and!|].
  pose proof (Hf n acc ltac:(set_solver) eq_refl Hv) as Hn.
  destruct (f acc n) as [acc1|[|e]]; cbn in Hn |- *; [|done..].
  destruct Hn as (Ha & Hv1 & Hg).
  specialize (IH acc1 ltac:(intros; apply Hf; [set_solver|congruence|done]) Hv1).
  destruct (try_fold _ _ _) as [acc2|[|e]]; [|done..].
  destruct IH as (Ha2 & Hv2 & Hg2). split; [congruence|]. split; [done|].
  inversion Hg; subst. by constructor.
Qed.

Lemma reject_group_cycles_from_spec fuel acc name :
  acc.1 ⊆ dom graph → size (dom graph ∖ acc.1) < fuel →
  (∀ x, x ∈ acc.1 → tc edge x name) → set_Forall grounded acc.2 →
  cycles_post [name] acc (reject_group_cycles_from graph fuel acc name).
Proof.
  revert acc name. induction fuel as [|fuel IH]; intros [visiting visited] name Hdom Hfuel Hpath Hv;
    [lia|]. cbn [reject_group_cycles_from]. cbn [fst snd] in *. case_decide as Hin.
  { split_and!; [done..|]. by constructor; [apply Hv|]. }
  unfold ensure. case_bool_decide as Hact; cbn [negb mbind result_bind].
  { exists name. by apply Hpath. }
  assert (cycles_post (default [] (graph !! name)) ({[name]} ∪ visiting, visited)
    (try_fold (reject_group_cycles_from graph fuel) ({[name]} ∪ visiting, visited)
       (default [] (graph !! name)))) as Hp.
  { destruct (graph !! name) as [members|] eqn:Hg; cbn [default from_option id]; [|by split_and!].
    apply cycles_loop; [|done]. intros n [v1 v2] Hn Hv1 Hv2. cbn [fst snd] in Hv1, Hv2. subst v1.
    assert (name ∈ dom graph) by (apply elem_of_dom; eauto).
    assert (edge name n) by (unfold edge; by rewrite Hg).
    apply IH; cbn [fst snd]; [set_solver| | |done].
    - assert (dom graph ∖ ({[name]} ∪ visiting) ⊂ dom graph ∖ visiting)
        as Hlt%subset_size by set_solver. lia.
    - intros x [->%elem_of_singleton|Hx]%elem_of_union; [by apply tc_once|].
      eapply tc_r; [by apply Hpath|done]. }
  destruct (try_fold _ _ _) as [[v1 v2]|[|e]]; [|done..]. cbn in Hp |- *.
  destruct Hp as (-> & Hv2 & Hg).
  assert (grounded name) by (constructor; intros b Hb; rewrite Forall_forall in Hg; by apply Hg).
  split_and!; [set_solver| |by constructor].
  apply set_Forall_union; [by apply set_Forall_singleton|done].
Qed.

Lemma cycles_spec :
  match try_fold (reject_group_cycles_from graph (S (size graph))) (∅, ∅) (map_to_list graph).*1 with
  | Ok _ => ∀ x, ¬ tc edge x x
  | Err (Fail _) => ∃ x, tc edge x x
  | Err Fuel => False
  end.
Proof.
  pose proof (cycles_loop (reject_group_cycles_from graph (S (size graph)))
    (map_to_list graph).*1 (∅, ∅)) as Hp.
  specialize (Hp ltac:(
    intros n [v1 v2] _ Ha Hv; cbn [fst snd] in *; subst v1; apply reject_group_cycles_from_spec;
    cbn [fst snd]; [set_solver|rewrite difference_empty_L, size_dom; lia|set_solver|done])
    ltac:(done)).
  destruct (try_fold _ _ _) as [v'|[|e]]; [|done..]. destruct Hp as (_ & _ & Hg).
  intros x Hx. rewrite Forall_forall in Hg. apply (edge_acyclic x); [|done].
  assert (∃ ms, graph !! x = Some ms) as [ms Hms].
  { inversion Hx as [? ? He|? ? ? He]; subst; unfold edge in He;
      destruct (graph !! x); cbn in He; [eauto|set_solver|eauto|set_solver]. }
  apply Hg, list_elem_of_fmap. exists (x, ms). split; [done|by apply elem_of_map_to_list].
Qed.
End cycles.

Lemma group_graph_edge groups a b :
  NoDup (gd_id <$> groups) → edge (group_graph groups) a b ↔ refers groups a b.
Proof.
  intros Hnd. unfold edge, refers.
  assert (∀ ms, group_graph groups !! a = Some ms ↔
    ∃ g, g ∈ groups ∧ gd_id g = a ∧ ms = omap member_group (gd_members g)) as Hlook.
  { revert Hnd. unfold group_graph. induction groups as [|g l IH] using rev_ind; intros Hnd ms.
    - cbn. set_solver.
    - rewrite fmap_app, NoDup_app in Hnd. destruct Hnd as (Hnd & Hd & _).
      rewrite fold_left_app. cbn. rewrite lookup_insert_Some, IH by done. split.
      + intros [[<- <-]|(_ & g' & Hg' & Hk & ->)]; eexists; rewrite elem_of_app; [|by eauto].
        by rewrite list_elem_of_singleton; eauto.
      + intros (g' & Hg' & <- & ->). rewrite elem_of_app, list_elem_of_singleton in Hg'.
        destruct Hg' as [Hg'| ->]; [right|by left]. split; [|by eauto]. intros Heq.
        apply (Hd (gd_id g')); [by apply list_elem_of_fmap_2|set_solver]. }
  assert (∀ g, b ∈ omap member_group (gd_members g) ↔ MemberD_Group b ∈ gd_members g) as Hmem.
  { intros g. rewrite list_elem_of_omap. split; [|by eexists].
    intros (m & Hm & Hb). destruct m; cbn in Hb; congruence. }
  destruct (group_graph groups !! a) as [ms|] eqn:Ha; cbn.
  - destruct (proj1 (Hlook ms) eq_refl) as (g & Hg & Hid & ->). rewrite Hmem. split; [by eauto|].
    intros (g' & Hg' & Hid' & Hm). enough (g = g') as -> by done.
    eapply NoDup_fmap_same; [exact Hnd|done|done|congruence].
  - split; [set_solver|]. intros (g & Hg & Hid & _).
    assert (None = Some (omap member_group (gd_members g))) by (apply Hlook; eauto). done.
Qed.

Lemma reject_group_cycles_spec d :
  NoDup (gd_id <$> dd_groups d) →
  match reject_group_cycles d with
  | Ok _ => ∀ a, ¬ tc (refers (dd_groups d)) a a
  | Err (Fail _) => ∃ a, tc (refers (dd_groups d)) a a
  | Err Fuel => False
  end.
Proof.
  intros Hnd. unfold reject_group_cycles. pose proof (cycles_spec (group_graph (dd_groups d))) as H.
  assert (∀ a b, tc (edge (group_graph (dd_groups d))) a b ↔ tc (refers (dd_groups d)) a b) as Htc.
  { intros a b. split; intros Hab; induction Hab;
      [apply tc_once|eapply tc_l|apply tc_once|eapply tc_l]; try done; by apply group_graph_edge. }
  destruct (try_fold _ _ _) as [x|[|e]]; cbn; [|done|].
  - intros a Ha. by apply (H a), Htc.
  - destruct H as [a Ha]. exists a. by apply Htc.
Qed.

Lemma reject_group_cycles_Ok d :
  NoDup (gd_id <$> dd_groups d) →
  reject_group_cycles d = Ok tt ↔ ∀ a, ¬ tc (refers (dd_groups d)) a a.
Proof.
  intros Hnd. pose proof (reject_group_cycles_spec d Hnd) as H.
  destruct (reject_group_cycles d) as [[]|[|e]]; naive_solver.
Qed.

(** ** Devices *)

Lemma normalize_groups_Ok d by_surface gs :
  (∀ k es, by_surface !! k = Some es ↔
     ∃ s, s ∈ dd_surfaces d ∧ sd_id s = k ∧ es = list_to_set (ed_id <$> sd_elements s)) →
  normalize_groups d (list_to_set (sd_id <$> dd_surfaces d)) by_surface = Ok gs ↔
  (Forall (group_ok d) (dd_groups d) ∧ NoDup (gd_id <$> dd_groups d) ∧
   NoDup (gd_name <$> dd_groups d) ∧ ∀ a, ¬ tc (refers (dd_groups d)) a a) ∧
  gs = to_group <$> dd_groups d.
Proof.
  intros Hby. unfold normalize_groups. rewrite bind_Ok. setoid_rewrite check_groups_Ok.
  set (step := λ acc g, ({[gd_id g]} ∪ acc.1, {[gd_name g]} ∪ acc.2) : gset string * gset string).
  assert ((foldl step (∅, ∅) (dd_groups d)).1 = list_to_set (gd_id <$> dd_groups d)) as Hids.
  { rewrite (keys_foldl fst gd_id step); [|done]. set_solver. }
  destruct (foldl step (∅, ∅) (dd_groups d)) as [ids names]. cbn in Hids. subst ids.
  assert (∀ l gs, try_map (normalize_group (list_to_set (sd_id <$> dd_surfaces d)) by_surface
      (list_to_set (gd_id <$> dd_groups d))) l = Ok gs ↔
    Forall (λ g, Forall (member_ok d g) (gd_members g)) l ∧ gs = to_group <$> l) as Hmap.
  { clear gs. intros l. induction l as [|g l IH]; intros gs; cbn [try_map]; [naive_solver|].
    rewrite Forall_cons, bind_Ok. setoid_rewrite normalize_group_Ok; [|done].
    setoid_rewrite bind_Ok. setoid_rewrite IH. naive_solver. }
  split.
  - intros (acc & [(Hg & Hi & Hn) ->] & H). apply bind_Ok in H as (gs' & [Hm ->]%Hmap & H).
    apply bind_unit_Ok in H as [H [= <-]].
    pose proof (proj1 (reject_group_cycles_Ok d Hi) H) as Hc.
    split_and!; try done. rewrite Forall_forall in *. intros g Hgl.
    destruct (Hg g Hgl) as (? & ? & ?). constructor; auto.
  - intros ((Hg & Hi & Hn & Hc) & ->). eexists. split.
    + split; [|done]. split_and!; try done. eapply Forall_impl; [done|]. by intros g [].
    + apply bind_Ok. eexists. split; [apply Hmap; split; [|done]|].
      * eapply Forall_impl; [done|]. by intros g [].
      * apply bind_unit_Ok. split; [by apply reject_group_cycles_Ok|done].
Qed.

Lemma normalize_device_Ok d device :
  normalize_device d = Ok device ↔ device_ok d ∧ device = to_device d.
Proof.
  unfold normalize_device. guards. rewrite reject_appearance_slots_Ok, validate_physical_tags_Ok.
  rewrite bind_Ok. setoid_rewrite normalize_surfaces_Ok.
  pose proof (surface_steps (dd_surfaces d)) as [Hi Hs].
  pose proof (surface_steps_elements (dd_surfaces d)) as Hby.
  destruct (foldl surface_step _ _) as [[ids names] [by_surface surfaces]]. cbn in Hi, Hs, Hby.
  subst ids surfaces. split.
  - intros (Hid & Hname & Hslots & Htags & acc & [(Hsf & Hsi & Hsn) ->] & H).
    apply bind_Ok in H as (gs & [(?&?&?&?) ->]%normalize_groups_Ok & [= <-]); [|by auto].
    split; [by constructor|done].
  - intros [[] ->]. split_and!; [done..|]. eexists. split; [by split_and!|].
    apply bind_Ok. eexists. split; [apply normalize_groups_Ok; [by auto|by split_and!]|done].
Qed.

Definition device_step (acc : gset string * gset string * list Device) (d : DeviceDescriptor) :
    gset string * gset string * list Device :=
  ({[dd_id d]} ∪ acc.1.1, {[dd_name d]} ∪ acc.1.2, acc.2 ++ [to_device d]).

Lemma device_steps acc l : (foldl device_step acc l).2 = acc.2 ++ (to_device <$> l).
Proof.
  revert acc. induction l as [|x l IH]; intros acc; cbn; [by rewrite app_nil_r|].
  rewrite IH. cbn. by rewrite <-app_assoc.
Qed.

Lemma normalize_devices_Ok ds devices :
  normalize_devices ds = Ok devices ↔
  devices = to_device <$> ds ∧
  Forall device_ok ds ∧ NoDup (dd_id <$> ds) ∧ NoDup (dd_name <$> ds).
Proof.
  unfold normalize_devices. rewrite bind_Ok.
  pose proof (λ acc : gset string * gset string * list Device,
    seen_twice_start (λ s, s.1.1) (λ s, s.1.2) dd_id (λ d, Some (dd_name d)) device_ok device_step
      normalize_one ltac:(intros; done) ltac:(intros; cbn; set_solver)
      ltac:(intros [[i n] l] x s1; unfold normalize_one; guards; rewrite bind_Ok;
            setoid_rewrite normalize_device_Ok; unfold device_step; cbn; naive_solver)
      (∅, ∅, []) ds acc eq_refl eq_refl) as Hfold.
  setoid_rewrite Hfold. rewrite omap_Some. pose proof (device_steps (∅, ∅, []) ds) as Hl.
  destruct (foldl device_step _ _) as [[i n] l]. cbn in Hl. subst l. naive_solver.
Qed.

(** C10: Normalisation accepts a list of descriptors exactly when every descriptor
    satisfies [device_ok] (texts present, tags trimmed and distinct, appearance slots
    only on surfaces, identifiers and names unique at each level, group members on the
    device, no group reference cycle) and the device identifiers and names are
    distinct; the devices are then the described ones, in order. *)
Theorem normalize_devices_correct ds devices :
  normalize_devices ds = Ok devices ↔
  devices = to_device <$> ds ∧
  Forall device_ok ds ∧ NoDup (dd_id <$> ds) ∧ NoDup (dd_name <$> ds).
Proof. apply normalize_devices_Ok. Qed.

(** ** Termination *)

(** A computation whose recursion ran to its end. *)
Definition total {A} (r : normal A) : Prop := r ≠ Err Fuel.

Lemma total_Ok {A} (a : A) : total (Ok a).
Proof. done. Qed.
Lemma total_ensure b e : total (ensure b (fail e)).
Proof. by destruct b. Qed.
Lemma total_ok_or {A} (o : option A) e : total (ok_or o (fail e)).
Proof. by destruct o. Qed.
Lemma total_bind {A B} (r : normal A) (k : A → normal B) :
  total r → (∀ a, r = Ok a → total (k a)) → total (r ≫= k).
Proof. destruct r as [a|e]; cbn; [by auto|]. intros H _ [= ->]. by apply H. Qed.
Lemma total_try_fold {S A} (f : S → A → normal S) l s :
  (∀ s x, total (f s x)) → total (try_fold f s l).
Proof.
  intros Hf. revert s. induction l as [|x l IH]; intros s; cbn [try_fold]; [done|].
  by apply total_bind.
Qed.
Lemma total_try_map {A B} (f : A → normal B) l : (∀ x, total (f x)) → total (try_map f l).
Proof.
  intros Hf. induction l as [|x l IH]; cbn [try_map]; [done|].
  apply total_bind; [done|]. intros y _. apply total_bind; [done|]. by intros.
Qed.

Create HintDb total.
#[export] Hint Resolve total_Ok total_ensure total_ok_or total_try_fold total_try_map : total.

Ltac total :=
  repeat first
    [ progress intros
    | solve [auto with total nocore]
    | apply total_Ok | apply total_ensure | apply total_ok_or
    | apply total_bind | apply total_try_fold | apply total_try_map
    | match goal with |- context [match ?x with _ => _ end] => destruct x end ].

Lemma total_tags tags location : total (validate_physical_tags tags location).
Proof. unfold validate_physical_tags, check_tag. total. Qed.
Lemma total_slots c s : total (validate_appearance_slots c s).
Proof. unfold validate_appearance_slots, check_slot. total. Qed.
#[export] Hint Resolve total_tags total_slots : total.

Lemma total_elements surface acc e : total (normalize_element surface acc e).
Proof. unfold normalize_element, reject_appearance_slots. total. Qed.
#[export] Hint Resolve total_elements : total.

Lemma total_surface device acc s : total (normalize_surface device acc s).
Proof. unfold normalize_surface. total. Qed.
#[export] Hint Resolve total_surface : total.

Lemma total_groups d ids by_surface : total (normalize_groups d ids by_surface).
Proof.
  unfold normalize_groups.
  apply total_bind; [unfold check_group, reject_appearance_slots; total|].
  intros acc [(_ & Hids & _) _]%check_groups_Ok. destruct acc as [group_ids names].
  apply total_bind; [unfold normalize_group, normalize_group_member; total|]. intros groups _.
  apply total_bind; [|total]. pose proof (reject_group_cycles_spec d Hids) as H.
  intros Hf. by rewrite Hf in H.
Qed.
#[export] Hint Resolve total_groups : total.

(** Normalisation ends on every input: the fuel of the cycle check, one more than the
    number of groups, is enough. *)
Theorem normalize_devices_terminates ds : normalize_devices ds ≠ Err Fuel.
Proof.
  change (total (normalize_devices ds)).
  unfold normalize_devices, normalize_one, normalize_device, reject_appearance_slots. total.
Qed.

(** ** The topology of a daemon built from descriptors *)

Lemma surface_ids_to_surface (l : list SurfaceDescriptor) :
   surface_id <$> (to_surface <$> l) = SurfaceId_new <$> (sd_id <$> l).
Proof. by rewrite <-!list_fmap_compose. Qed.
Lemma element_ids_to_element (l : list ElementDescriptor) :
   element_id <$> (to_element <$> l) = ElementId_new <$> (ed_id <$> l).
Proof. by rewrite <-!list_fmap_compose. Qed.

#[local] Instance SurfaceId_new_inj : Inj (=) (=) SurfaceId_new.
Proof. by intros a b [=]. Qed.
#[local] Instance ElementId_new_inj : Inj (=) (=) ElementId_new.
Proof. by intros a b [=]. Qed.

Lemma to_device_wf d : device_ok d → device_wf (to_device d).
Proof.
  intros Hd. split.
  - cbn. rewrite surface_ids_to_surface. apply NoDup_fmap_2; [apply _|]. apply Hd.
  - cbn. intros sf (s & -> & Hs)%list_elem_of_fmap. cbn. rewrite element_ids_to_element.
    apply NoDup_fmap_2; [apply _|]. pose proof (dok_surfaces d Hd) as Hsf.
    rewrite Forall_forall in Hsf. by apply Hsf.
  - cbn. intros g m a (g0 & -> & Hg)%list_elem_of_fmap Hm Ha.
    pose proof (dok_groups d Hd) as Hgs. rewrite Forall_forall in Hgs.
    pose proof (gok_members _ _ (Hgs g0 Hg)) as Hms. rewrite Forall_forall in Hms. cbn in Hm.
    apply list_elem_of_fmap in Hm as (m0 & -> & Hm0). specialize (Hms m0 Hm0).
    destruct m0 as [s|s e|g']; cbn in Ha, Hms; [| |done]; subst a; cbn.
    + apply list_elem_of_fmap in Hms as (sf & -> & Hsf). exists (to_surface sf).
      split; [by apply list_elem_of_fmap_2|done].
    + destruct Hms as (sf & Hsf & <- & (el & -> & Hel)%list_elem_of_fmap).
      exists (to_surface sf), (to_element el).
      split_and!; [by apply list_elem_of_fmap_2|done|by apply list_elem_of_fmap_2|done].
Qed.

(** The daemon state built from descriptors holds exactly the described devices, each
    under its identifier, and is well formed: the hypothesis of the topology claims. *)
Theorem from_descriptors_topology ds st :
  from_descriptors ds = Ok st →
  topology_wf st ∧
  ∀ id device, ds_devices st !! id = Some device ↔
    ∃ d, d ∈ ds ∧ id = DeviceId_new (dd_id d) ∧ device = to_device d.
Proof.
  unfold from_descriptors. intros H. apply bind_Ok in H as (devices & H & [= <-]).
  apply normalize_devices_Ok in H as (-> & Hok & Hids & _). rewrite Forall_forall in Hok.
  assert (∀ id device, ds_devices (from_devices (to_device <$> ds)) !! id = Some device →
    ∃ d, d ∈ ds ∧ id = DeviceId_new (dd_id d) ∧ device = to_device d) as Hsub.
  { intros id device [(d & -> & Hd)%list_elem_of_fmap <-]%device_map_lookup. by exists d. }
  split.
  - intros id device (d & Hd & -> & ->)%Hsub. split; [done|]. by apply to_device_wf, Hok.
  - intros id device. split; [apply Hsub|]. intros (d & Hd & -> & ->).
    destruct (ds_devices (from_devices (to_device <$> ds)) !! DeviceId_new (dd_id d))
      as [device|] eqn:Hl.
    + apply Hsub in Hl as (d' & Hd' & [= Heq] & ->). do 2 f_equal.
      by apply (NoDup_fmap_same dd_id ds).
    + exfalso. revert Hl Hd. clear. cbn. unfold device_map.
      induction ds as [|x l IH] using rev_ind; [set_solver|].
      rewrite fmap_app, fold_left_app. cbn. rewrite lookup_insert_None.
      rewrite elem_of_app, list_elem_of_singleton.
      intros [Hl Hne] [Hd| ->]; [by apply IH|done].
Qed.

(** ** Witnesses *)

Module Described.
Definition element (id : string) : ElementDescriptor := {|
  ed_id := id; ed_name := Some id; ed_kind := ElementKind_Led; ed_geometry := None;
  ed_physical_tags := ["led"%string]; ed_capabilities := CapabilitySet_default; ed_notes := [];
  ed_warnings := [] |}.
Definition surface (id : string) (elements : list ElementDescriptor) : SurfaceDescriptor := {|
  sd_id := id; sd_name := id; sd_kind := SurfaceKind_Zone; sd_physical_tags := [];
  sd_elements := elements; sd_capabilities := CapabilitySet_default; sd_notes := [];
  sd_warnings := [] |}.
Definition group (id : string) (members : list GroupMemberDescriptor) : GroupDescriptor := {|
  gd_id := id; gd_name := id; gd_description := None; gd_kind := GroupKind_Driver;
  gd_members := members; gd_capabilities := CapabilitySet_default; gd_notes := [];
  gd_warnings := [] |}.
Definition device (id : string) (groups : list GroupDescriptor) : DeviceDescriptor := {|
  dd_id := id; dd_name := id; dd_vendor := None; dd_model := None;
  dd_surfaces := [surface "keys" [element "esc"; element "f1"]; surface "logo" []];
  dd_groups := groups; dd_capabilities := CapabilitySet_default; dd_claims := [];
  dd_category := None; dd_physical_tags := ["desk"%string]; dd_host_attached := true;
  dd_notes := []; dd_warnings := [] |}.
Definition nested : list GroupDescriptor :=
  [group "all" [MemberD_Surface "logo"; MemberD_Group "row"];
   group "row" [MemberD_Element "keys" "f1"]].
Definition cyclic : list GroupDescriptor :=
  [group "all" [MemberD_Group "row"]; group "row" [MemberD_Group "all"]].
End Described.

Example normalize_examples :
  is_ok (normalize_devices [Described.device "a" Described.nested; Described.device "b" []]) = true ∧
  is_ok (normalize_devices [Described.device "a" []; Described.device "a" []]) = false ∧
  is_ok (normalize_devices [Described.device "a" Described.cyclic]) = false.
Proof. by vm_compute. Qed.

Lemma from_descriptors_topology_witness :
  from_descriptors [Described.device "a" Described.nested]
    = Ok (from_devices [to_device (Described.device "a" Described.nested)]) ∧
  topology_wf (from_devices [to_device (Described.device "a" Described.nested)]).
Proof.
  assert (from_descriptors [Described.device "a" Described.nested]
    = Ok (from_devices [to_device (Described.device "a" Described.nested)])) as H
    by (vm_compute; reflexivity).
  split; [exact H|]. apply (from_descriptors_topology _ _ H).
Defined.
