(* ===== verification/Ownership.v ===== *)
(** * Device ownership: [luminated/src/plugins/ownership.rs]

    Which plugin drives a device when several report it, or when devices claim the
    same hardware.  Arbitration is one pass over all the reported devices in priority
    order; the claims show that the pass computes the stable assignment: owned devices
    never contend for hardware, and a device goes unowned only to a device of higher
    rank.  Log messages are not modelled. *)

From S2P Require Import Prelude Model Daemon Topology Descriptors.

(** The fields of [LoadedPluginMetadata] the plugin manager reads when it loads a plugin or
    commits a topology; the rest is reported to clients unchanged. *)
Record LoadedPluginMetadata := {
  lpm_name : string;
  lpm_version : string;
  lpm_priority : Z;
  lpm_recommended_reconciliation : option ReconciliationPolicy
}.

(** A random UUID. *)
Record LoadedPluginId := { LoadedPluginId_uuid : N }.
#[export] Instance LoadedPluginId_eq : EqDecision LoadedPluginId.
Proof. solve_decision. Defined.
#[export] Instance LoadedPluginId_countable : Countable LoadedPluginId.
Proof.
  by refine (inj_countable' LoadedPluginId_uuid (λ n, {| LoadedPluginId_uuid := n |}) _); intros [].
Defined.

(** ** Arbitration *)

Definition ClaimKey : Type := HardwareBus * string * string.
Definition claim_key (claim : HardwareClaim) : ClaimKey :=
  (hc_bus claim, hc_physical_identity claim, hc_control_domain claim).

Definition i32_MIN : Z := - 2 ^ 31.

(** The plugin's index, the descriptor's index, the descriptor. *)
Definition Candidate : Type := nat * nat * DeviceDescriptor.
Definition cand_plugin (c : Candidate) : nat := c.1.1.
Definition cand_index (c : Candidate) : nat := c.1.2.
Definition cand_id (c : Candidate) : string := dd_id c.2.
Definition cand_claims (c : Candidate) : list HardwareClaim := dd_claims c.2.

Definition candidates (descriptors_by_plugin : list (list DeviceDescriptor)) : list Candidate :=
  mjoin (imap (λ plugin_index descriptors,
           imap (λ descriptor_index descriptor, (plugin_index, descriptor_index, descriptor))
             descriptors)
           descriptors_by_plugin).

Definition cand_priority (metadata : list LoadedPluginMetadata) (c : Candidate) : Z :=
  from_option lpm_priority i32_MIN (metadata !! cand_plugin c).

(** The order of the sort key: descending priority, then position. *)
Definition rank_le (metadata : list LoadedPluginMetadata) (a b : Candidate) : Prop :=
  (cand_priority metadata b < cand_priority metadata a)%Z ∨
  cand_priority metadata a = cand_priority metadata b ∧
  (cand_plugin a < cand_plugin b ∨
   cand_plugin a = cand_plugin b ∧ cand_index a <= cand_index b).
#[export] Instance rank_le_dec metadata : RelDecision (rank_le metadata).
Proof. intros a b. unfold rank_le. apply _. Defined.

Definition accepted_map : Type := gmap ClaimKey (list ClaimExclusivity).

Definition claim_conflicts (accepted_claims : accepted_map) (claim : HardwareClaim) : bool :=
  match accepted_claims !! claim_key claim with
  | Some existing =>
      bool_decide (hc_exclusivity claim = Exclusive) || bool_decide (Exclusive ∈ existing)
  | None => false
  end.

Definition accept_claim (accepted_claims : accepted_map) (claim : HardwareClaim) : accepted_map :=
  <[claim_key claim := default [] (accepted_claims !! claim_key claim) ++ [hc_exclusivity claim]]>
    accepted_claims.

Definition arbitrate_step (acc : gmap string nat * accepted_map) (c : Candidate) :
    gmap string nat * accepted_map :=
  let '(owners, accepted_claims) := acc in
  if bool_decide (is_Some (owners !! cand_id c)) then acc
  else if existsb (claim_conflicts accepted_claims) (cand_claims c) then acc
  else (<[cand_id c := cand_plugin c]> owners,
        fold_left accept_claim (cand_claims c) accepted_claims).

Definition arbitrate_ownership (metadata : list LoadedPluginMetadata)
    (descriptors_by_plugin : list (list DeviceDescriptor)) : gmap string nat :=
  (fold_left arbitrate_step
     (merge_sort (rank_le metadata) (candidates descriptors_by_plugin)) (∅, ∅)).1.

Definition arbitrate_ownership_by_id
    (plugins : list (LoadedPluginId * LoadedPluginMetadata * list DeviceDescriptor)) :
    gmap string LoadedPluginId :=
  omap (λ index, (λ p, p.1.1) <$> plugins !! index)
    (arbitrate_ownership ((λ p, p.1.2) <$> plugins) (snd <$> plugins)).

(** ** Summaries *)

Section summary.
Context {K : Type} `{EqDecision K}.

Definition ownership_summary (key : K) (descriptors : list DeviceDescriptor)
    (owner_by_device : gmap string K) : list string * list string * list string :=
  (dd_id <$> descriptors,
   dd_id <$> filter (λ d, owner_by_device !! dd_id d = Some key) descriptors,
   dd_id <$> filter (λ d, owner_by_device !! dd_id d ≠ Some key) descriptors).

Definition owned_descriptors (owner_by_device : gmap string K)
    (plugins : list (K * list DeviceDescriptor)) : list DeviceDescriptor :=
  mjoin ((λ p, filter (λ d, owner_by_device !! dd_id d = Some p.1) p.2) <$> plugins).
End summary.

(** ** Changes *)

(** The derived [PartialEq] of devices.  Everything compares structurally but the
    [f32] coordinates: a NaN differs from itself, the two zeros are equal. *)
Definition f32_is_nan (x : f32) : bool := (2139095040 <? Z.land x 2147483647)%Z.
Definition f32_eqb (x y : f32) : bool :=
  negb (f32_is_nan x) && negb (f32_is_nan y) &&
  ((x =? y) || ((Z.land x 2147483647 =? 0) && (Z.land y 2147483647 =? 0)))%Z.

Definition option_eqb {A} (eqb : A → A → bool) (x y : option A) : bool :=
  match x, y with
  | Some x, Some y => eqb x y
  | None, None => true
  | _, _ => false
  end.
Fixpoint list_eqb {A} (eqb : A → A → bool) (x y : list A) : bool :=
  match x, y with
  | a :: x, b :: y => eqb a b && list_eqb eqb x y
  | [], [] => true
  | _, _ => false
  end.

Definition geometry_eqb (x y : ElementGeometry) : bool :=
  match x, y with
  | Geometry_Rect a b c d, Geometry_Rect a' b' c' d' =>
      f32_eqb a a' && f32_eqb b b' && f32_eqb c c' && f32_eqb d d'
  | Geometry_Point a b, Geometry_Point a' b' => f32_eqb a a' && f32_eqb b b'
  | Geometry_Linear a, Geometry_Linear a' => f32_eqb a a'
  | Geometry_MatrixCell a b, Geometry_MatrixCell a' b' => (a =? a')%Z && (b =? b')%Z
  | _, _ => false
  end.
#[export] Instance ElementKind_eq : EqDecision ElementKind.
Proof. solve_decision. Defined.
#[export] Instance GroupKind_eq : EqDecision GroupKind.
Proof. solve_decision. Defined.
#[export] Instance Group_eq : EqDecision Group.
Proof. solve_decision. Defined.

Definition element_eqb (x y : Element) : bool :=
  bool_decide (element_id x = element_id y) && bool_decide (element_name x = element_name y) &&
  bool_decide (element_kind x = element_kind y) &&
  option_eqb geometry_eqb (element_geometry x) (element_geometry y) &&
  bool_decide (element_physical_tags x = element_physical_tags y) &&
  bool_decide (element_capabilities x = element_capabilities y) &&
  bool_decide (element_notes x = element_notes y) &&
  bool_decide (element_warnings x = element_warnings y).

Definition surface_kind_eqb (x y : SurfaceKind) : bool :=
  match x, y with
  | SurfaceKind_Opaque, SurfaceKind_Opaque | SurfaceKind_Zone, SurfaceKind_Zone => true
  | SurfaceKind_Linear a, SurfaceKind_Linear a' => f32_eqb a a'
  | SurfaceKind_Sparse2d a b, SurfaceKind_Sparse2d a' b' => f32_eqb a a' && f32_eqb b b'
  | SurfaceKind_Matrix a b, SurfaceKind_Matrix a' b' => (a =? a')%Z && (b =? b')%Z
  | _, _ => false
  end.

Definition surface_eqb (x y : Surface) : bool :=
  bool_decide (surface_id x = surface_id y) && bool_decide (surface_name x = surface_name y) &&
  surface_kind_eqb (surface_kind x) (surface_kind y) &&
  bool_decide (surface_physical_tags x = surface_physical_tags y) &&
  list_eqb element_eqb (surface_elements x) (surface_elements y) &&
  bool_decide (surface_capabilities x = surface_capabilities y) &&
  bool_decide (surface_notes x = surface_notes y) &&
  bool_decide (surface_warnings x = surface_warnings y).

Definition device_eqb (x y : Device) : bool :=
  bool_decide (device_id x = device_id y) && bool_decide (device_name x = device_name y) &&
  bool_decide (device_vendor x = device_vendor y) &&
  bool_decide (device_model x = device_model y) &&
  bool_decide (device_provider_instance x = device_provider_instance y) &&
  list_eqb surface_eqb (device_surfaces x) (device_surfaces y) &&
  bool_decide (device_groups x = device_groups y) &&
  bool_decide (device_capabilities x = device_capabilities y) &&
  bool_decide (device_category x = device_category y) &&
  bool_decide (device_physical_tags x = device_physical_tags y) &&
  bool_decide (device_host_attached x = device_host_attached y) &&
  bool_decide (device_notes x = device_notes y) &&
  bool_decide (device_warnings x = device_warnings y).

Definition device_id_le (a b : DeviceId) : Prop :=
  String.le (DeviceId_as_str a) (DeviceId_as_str b).
#[export] Instance device_id_le_dec : RelDecision device_id_le.
Proof. intros a b. unfold device_id_le. apply _. Defined.

(** The two maps collect a list as [device_map] does. *)
Definition changed_device_ids (previous current : list Device) : list DeviceId :=
  let previous := device_map previous in
  let current := device_map current in
  merge_sort device_id_le
    (elements
       (list_to_set
          (filter (λ id, option_eqb device_eqb (previous !! id) (current !! id) = false)
             ((map_to_list previous).*1 ++ (map_to_list current).*1)) : gset DeviceId)).

(** ** Arbitration is the stable assignment *)

(** The two devices claim a control domain that one of them claims exclusively. *)
Definition contending (a b : DeviceDescriptor) : Prop :=
  ∃ x y, x ∈ dd_claims a ∧ y ∈ dd_claims b ∧ claim_key x = claim_key y ∧
    (hc_exclusivity x = Exclusive ∨ hc_exclusivity y = Exclusive).

Definition contend (a b : Candidate) : Prop := contending a.2 b.2.

(** At most one of the two can be driven. *)
Definition blocks (a b : Candidate) : Prop := cand_id a = cand_id b ∨ contend a b.

(** What the pass knows of the candidates [ws] it accepted. *)
Record pass_inv (ws : list Candidate) (acc : gmap string nat * accepted_map) : Prop := {
  pi_owner id p : acc.1 !! id = Some p ↔ ∃ w, w ∈ ws ∧ cand_id w = id ∧ cand_plugin w = p;
  pi_claims key e :
    (∃ l, acc.2 !! key = Some l ∧ e ∈ l) ↔
    ∃ w x, w ∈ ws ∧ x ∈ cand_claims w ∧ claim_key x = key ∧ hc_exclusivity x = e;
  pi_nonempty key l : acc.2 !! key = Some l → l ≠ [];
  pi_apart w w' : w ∈ ws → w' ∈ ws → w ≠ w' → ¬ blocks w w'
}.

Lemma contend_sym a b : contend a b → contend b a.
Proof. intros (x & y & ? & ? & ? & ?). exists y, x. split_and!; [done..|tauto]. Qed.
Lemma blocks_sym a b : blocks a b → blocks b a.
Proof. intros [?|?%contend_sym]; [by left|by right]. Qed.

Lemma conflict_contends ws acc c :
  pass_inv ws acc →
  existsb (claim_conflicts acc.2) (cand_claims c) = true ↔ ∃ w, w ∈ ws ∧ contend w c.
Proof.
  intros [_ Hcl Hne _]. rewrite existsb_exists. split.
  - intros (y & Hy%list_elem_of_In & Hc). unfold claim_conflicts in Hc.
    destruct (acc.2 !! claim_key y) as [existing|] eqn:Hk; [|done].
    assert (∃ e, e ∈ existing ∧ (e = Exclusive ∨ hc_exclusivity y = Exclusive)) as (e & He & Hex).
    { bool_prop. destruct Hc as [Hc|Hc]; bool_prop; [|by eauto].
      destruct existing as [|e ex]; [by apply Hne in Hk|]. exists e. split; [by left|by right]. }
    destruct (proj1 (Hcl (claim_key y) e)) as (w & x & Hw & Hx & Hkx & Hex'); [by eauto|].
    exists w. split; [done|]. exists x, y. split_and!; [done..|]. by rewrite Hex'.
  - intros (w & Hw & x & y & Hx & Hy & Hk & Hex). exists y. split; [by apply list_elem_of_In|].
    destruct (proj2 (Hcl (claim_key y) (hc_exclusivity x))) as (l & Hl & Hin); [by eauto 10|].
    unfold claim_conflicts. rewrite Hl. apply orb_true_iff.
    destruct Hex as [Hex|Hex]; [right|left]; apply bool_decide_eq_true; congruence.
Qed.

Lemma accept_claim_lookup m x key e :
  (∃ l, accept_claim m x !! key = Some l ∧ e ∈ l) ↔
  (∃ l, m !! key = Some l ∧ e ∈ l) ∨ claim_key x = key ∧ hc_exclusivity x = e.
Proof.
  unfold accept_claim. destruct (decide (claim_key x = key)) as [<-|Hne].
  - setoid_rewrite lookup_insert_eq. destruct (m !! claim_key x) as [l|]; cbn; split.
    + intros (? & [= <-] & [?| ->%list_elem_of_singleton]%elem_of_app); eauto.
    + intros [(? & [= <-] & ?)|[_ <-]]; eexists; (split; [done|]); set_solver.
    + intros (? & [= <-] & ->%list_elem_of_singleton). eauto.
    + intros [(? & [=] & ?)|[_ <-]]. eexists. split; [done|]. set_solver.
  - setoid_rewrite lookup_insert_ne; [|done]. naive_solver.
Qed.

Lemma accept_claims_lookup claims m key e :
  (∃ l, fold_left accept_claim claims m !! key = Some l ∧ e ∈ l) ↔
  (∃ l, m !! key = Some l ∧ e ∈ l) ∨
  ∃ x, x ∈ claims ∧ claim_key x = key ∧ hc_exclusivity x = e.
Proof.
  revert m. induction claims as [|x claims IH]; intros m; cbn [fold_left].
  { split; [by left|]. intros [H|(x & Hx & _)]; [done|by apply not_elem_of_nil in Hx]. }
  rewrite IH, accept_claim_lookup. setoid_rewrite elem_of_cons. naive_solver.
Qed.

Lemma accept_claims_nonempty claims m key l :
  (∀ key l, m !! key = Some l → l ≠ []) →
  fold_left accept_claim claims m !! key = Some l → l ≠ [].
Proof.
  revert m. induction claims as [|x claims IH]; intros m Hm; cbn [fold_left]; [by apply Hm|].
  intros H. refine (IH _ _ H). intros k l'. unfold accept_claim.
  intros [[_ <-]|[_ Hl]]%lookup_insert_Some.
  - by destruct (default _ _).
  - by apply (Hm k).
Qed.

Lemma arbitrate_step_inv ws acc c :
  pass_inv ws acc →
  (∃ w, w ∈ ws ∧ blocks w c) ∧ arbitrate_step acc c = acc ∨
  (∀ w, w ∈ ws → ¬ blocks w c) ∧ pass_inv (ws ++ [c]) (arbitrate_step acc c).
Proof.
  intros Hinv. destruct acc as [owners accepted]. cbn [arbitrate_step].
  pose proof (conflict_contends _ _ c Hinv) as Hcon. pose proof Hinv as [Hown Hcl Hne Hap].
  cbn [fst snd] in *. case_bool_decide as Ho.
  { left. split; [|done]. destruct Ho as [p (w & Hw & Hid & _)%Hown]. exists w. by split; [|left]. }
  destruct (existsb _ _).
  { left. split; [|done]. destruct (proj1 Hcon eq_refl) as (w & Hw & Hc). exists w. by split; [|right]. }
  right. assert (∀ w, w ∈ ws → ¬ blocks w c) as Hfree.
  { intros w Hw [Hid|Hc]; [|by apply (diff_false_true (proj2 Hcon (ex_intro _ w (conj Hw Hc))))].
    apply Ho. exists (cand_plugin w). apply Hown. eauto. }
  split; [done|]. constructor; cbn [fst snd].
  - intros id p. rewrite lookup_insert_Some, Hown. setoid_rewrite elem_of_app.
    setoid_rewrite list_elem_of_singleton. split.
    + intros [[<- <-]|[_ ?]]; naive_solver.
    + intros (w & [Hw| ->] & <- & <-); [right|by left]. split; [|by eauto].
      intros Heq. apply (Hfree w Hw). by left.
  - intros key e. rewrite accept_claims_lookup, Hcl. setoid_rewrite elem_of_app.
    setoid_rewrite list_elem_of_singleton. split.
    + intros [(w & x & Hw & Hx)|(x & Hx)]; [exists w, x|exists c, x]; tauto.
    + intros (w & x & [Hw| ->] & Hx); [left; by exists w, x|right; by exists x].
  - intros key l. by apply accept_claims_nonempty.
  - intros w w'. rewrite !elem_of_app, !list_elem_of_singleton.
    intros [Hw| ->] [Hw'| ->] Hww; [by apply Hap|by apply Hfree| |done].
    intros Hb%blocks_sym. by apply (Hfree w').
Qed.

(** The pass over the candidates [cs], after [ws] were accepted. *)
Lemma arbitrate_pass cs ws acc :
  pass_inv ws acc →
  ∃ ws', pass_inv (ws ++ ws') (fold_left arbitrate_step cs acc) ∧ ws' ⊆ cs ∧
    ∀ l c r, cs = l ++ c :: r → c ∉ ws ++ ws' → ∃ w, (w ∈ ws ∨ w ∈ l) ∧ w ∈ ws ++ ws' ∧ blocks w c.
Proof.
  revert ws acc. induction cs as [|c cs IH]; intros ws acc Hinv; cbn [fold_left].
  { exists []. rewrite app_nil_r. split_and!; [done..|]. intros l c r H. by destruct l. }
  destruct (arbitrate_step_inv ws acc c Hinv) as [[(w & Hw & Hb) ->]|[Hfree Hinv']].
  - destruct (IH ws acc Hinv) as (ws' & Hp & Hsub & Hlost). exists ws'. split_and!; [done|set_solver|].
    intros l c' r Heq Hc'. destruct l as [|x l]; injection Heq as -> ->.
    + exists w. split_and!; [by left|set_solver|done].
    + destruct (Hlost l c' r eq_refl Hc') as (w' & ? & ? & ?). exists w'. set_solver.
  - destruct (IH _ _ Hinv') as (ws' & Hp & Hsub & Hlost). exists (c :: ws').
    rewrite <-app_assoc in *. cbn in *. split_and!; [done|set_solver|].
    intros l c' r Heq Hc'. destruct l as [|x l]; injection Heq as -> ->; [set_solver|].
    destruct (Hlost l c' r eq_refl Hc') as (w' & Hw' & ? & ?). exists w'. set_solver.
Qed.

Lemma elem_of_candidates dbp c :
  c ∈ candidates dbp ↔ ∃ ds, dbp !! cand_plugin c = Some ds ∧ ds !! cand_index c = Some c.2.
Proof.
  unfold candidates. rewrite list_elem_of_join.
  setoid_rewrite list_elem_of_lookup. setoid_rewrite list_lookup_imap. split.
  - intros (l & [j Hj] & [i Hi]). destruct (dbp !! i) as [ds|] eqn:Hds; [|done].
    injection Hi as <-. rewrite list_lookup_imap in Hj.
    destruct (ds !! j) as [d|] eqn:Hd; [|done]. injection Hj as <-. by exists ds.
  - intros (ds & Hds & Hd). eexists. split; [|exists (cand_plugin c); rewrite Hds; done].
    exists (cand_index c). rewrite list_lookup_imap, Hd. by destruct c as [[i j] d].
Qed.

#[export] Instance rank_le_trans metadata : Transitive (rank_le metadata).
Proof. intros a b c. unfold rank_le. lia. Qed.
#[export] Instance rank_le_total metadata : Total (rank_le metadata).
Proof. intros a b. unfold rank_le. lia. Qed.

Lemma StronglySorted_before {A} (R : A → A → Prop) l c r w :
  StronglySorted R (l ++ c :: r) → w ∈ l → R w c.
Proof.
  intros H Hw. apply StronglySorted_app_1_elem_of with (x1 := w) (x2 := c) in H; [done..|set_solver].
Qed.

(** The winners of the pass: apart from each other, and every other candidate is
    blocked by a winner of at least its rank. *)
Lemma arbitration_spec metadata dbp :
  ∃ winners : list Candidate,
    (∀ w, w ∈ winners → w ∈ candidates dbp) ∧
    (∀ id p, arbitrate_ownership metadata dbp !! id = Some p ↔
       ∃ w, w ∈ winners ∧ cand_id w = id ∧ cand_plugin w = p) ∧
    (∀ w w', w ∈ winners → w' ∈ winners → w ≠ w' → ¬ blocks w w') ∧
    (∀ c, c ∈ candidates dbp → c ∉ winners →
       ∃ w, w ∈ winners ∧ rank_le metadata w c ∧ blocks w c).
Proof.
  unfold arbitrate_ownership. set (cs := merge_sort (rank_le metadata) (candidates dbp)).
  assert (∀ c, c ∈ cs ↔ c ∈ candidates dbp) as Hcs.
  { intros c. unfold cs. by rewrite merge_sort_Permutation. }
  assert (StronglySorted (rank_le metadata) cs) as Hsorted by apply (StronglySorted_merge_sort _).
  assert (pass_inv [] (∅, ∅)) as H0.
  { constructor; cbn; [|setoid_rewrite lookup_empty; set_solver|set_solver|set_solver].
    intros id p. rewrite lookup_empty. set_solver. }
  destruct (arbitrate_pass cs [] (∅, ∅) H0) as (ws & [Hown _ _ Hap] & Hsub & Hlost). cbn in *.
  exists ws. split_and!; [|done..|].
  - intros w Hw. by apply Hcs, Hsub.
  - intros c [l [r Hlr]]%Hcs%list_elem_of_split Hc.
    destruct (Hlost l c r Hlr Hc) as (w & [Hw|Hw] & Hws & Hb); [set_solver|].
    exists w. split_and!; [done| |done]. rewrite Hlr in Hsorted.
    by eapply StronglySorted_before.
Qed.

(** ** The devices that are driven *)

Lemma elem_of_owned {K} `{EqDecision K} (owners : gmap string K) plugins d :
  d ∈ owned_descriptors owners plugins ↔
  ∃ p, p ∈ plugins ∧ d ∈ p.2 ∧ owners !! dd_id d = Some p.1.
Proof.
  unfold owned_descriptors. rewrite list_elem_of_join. setoid_rewrite list_elem_of_fmap. split.
  - intros (l & Hd & p & -> & Hp). apply list_elem_of_filter in Hd as [Ho Hd]. eauto.
  - intros (p & Hp & Hd & Ho). eexists. split; [|by eauto]. by apply list_elem_of_filter.
Qed.

(** Whatever the owners, a device is listed once. *)
Lemma owned_unique {K} `{EqDecision K} (owners : gmap string K)
    (plugins : list (K * list DeviceDescriptor)) :
  NoDup plugins.*1 → (∀ p, p ∈ plugins → NoDup (dd_id <$> p.2)) →
  NoDup (dd_id <$> owned_descriptors owners plugins).
Proof.
  induction plugins as [|p plugins IH]; cbn; [constructor|]. intros [Hp Hnd]%NoDup_cons Hall.
  rewrite fmap_app. apply NoDup_app. split_and!; [| |apply IH; [done|set_solver]].
  - assert (NoDup (dd_id <$> p.2)) as H by (apply Hall; by left). eapply sublist_NoDup; [exact H|]. apply (fmap_sublist dd_id), sublist_filter.
  - intros id (d & -> & [Ho Hd]%list_elem_of_filter)%list_elem_of_fmap.
    intros (d' & Heq & (q & Hq & Hd' & Ho')%elem_of_owned)%list_elem_of_fmap.
    apply Hp, list_elem_of_fmap. exists q. split; [congruence|done].
Qed.

Section by_id.
Context (plugins : list (LoadedPluginId * LoadedPluginMetadata * list DeviceDescriptor)).
Context (ids_unique : NoDup ((λ p, p.1.1) <$> plugins)).
Context (devices_unique : ∀ p, p ∈ plugins → NoDup (dd_id <$> p.2)).

Notation owners := (arbitrate_ownership_by_id plugins).
Notation positional := (arbitrate_ownership ((λ p, p.1.2) <$> plugins) (snd <$> plugins)).

Lemma owner_positional i p id :
  plugins !! i = Some p → owners !! id = Some p.1.1 ↔ positional !! id = Some i.
Proof using ids_unique.
  intros Hp. unfold arbitrate_ownership_by_id. rewrite lookup_omap, bind_Some. split.
  - intros (j & Hj & (q & Hlq & Hq)%fmap_Some). rewrite Hj. f_equal.
    eapply NoDup_lookup; [exact ids_unique| |]; rewrite list_lookup_fmap.
    + rewrite Hlq. done.
    + rewrite Hp. cbn. congruence.
  - intros Hi. exists i. by rewrite Hp.
Qed.

(** A descriptor whose plugin owns its device is a winner. *)
Lemma owned_winner (winners : list Candidate) i j p d :
  (∀ w, w ∈ winners → w ∈ candidates (snd <$> plugins)) →
  (∀ id p, positional !! id = Some p ↔ ∃ w, w ∈ winners ∧ cand_id w = id ∧ cand_plugin w = p) →
  plugins !! i = Some p → p.2 !! j = Some d → owners !! dd_id d = Some p.1.1 →
  (i, j, d) ∈ winners.
Proof using ids_unique devices_unique.
  intros Hsub Hown Hp Hd Ho. rewrite owner_positional, Hown in Ho by done.
  destruct Ho as (w & Hw & Hid & Hi). pose proof (Hsub w Hw) as (ds & Hds & Hwd)%elem_of_candidates.
  rewrite Hi, list_lookup_fmap, Hp in Hds. injection Hds as <-.
  assert (cand_index w = j) as Hj.
  { eapply NoDup_lookup; [apply (devices_unique p); by eapply list_elem_of_lookup_2| |];
      rewrite list_lookup_fmap; [rewrite Hwd; cbn; reflexivity|].
    rewrite Hd. cbn. f_equal. by symmetry. }
  destruct w as [[i' j'] d']. cbn in *. subst. rewrite Hd in Hwd. injection Hwd as <-. done.
Qed.
End by_id.

Lemma ownership_spec
    (plugins : list (LoadedPluginId * LoadedPluginMetadata * list DeviceDescriptor)) :
  NoDup ((λ p, p.1.1) <$> plugins) → (∀ p, p ∈ plugins → NoDup (dd_id <$> p.2)) →
  let owners := arbitrate_ownership_by_id plugins in
  let owned := owned_descriptors owners ((λ p, (p.1.1, p.2)) <$> plugins) in
  NoDup (dd_id <$> owned) ∧
  (∀ d d', d ∈ owned → d' ∈ owned → d ≠ d' → ¬ contending d d') ∧
  (∀ p d, p ∈ plugins → d ∈ p.2 → owners !! dd_id d ≠ Some p.1.1 →
     ∃ q d', q ∈ plugins ∧ d' ∈ q.2 ∧ owners !! dd_id d' = Some q.1.1 ∧
       (lpm_priority p.1.2 <= lpm_priority q.1.2)%Z ∧
       (dd_id d' = dd_id d ∨ contending d' d)).
Proof.
  intros Hids Hdev owners owned.
  destruct (arbitration_spec ((λ p, p.1.2) <$> plugins) (snd <$> plugins))
    as (ws & Hsub & Hown & Hap & Hlost).
  assert (∀ d, d ∈ owned → ∃ w, w ∈ ws ∧ w.2 = d) as Hwin.
  { intros d (p & (q & -> & Hq)%list_elem_of_fmap & Hd & Ho)%elem_of_owned.
    apply list_elem_of_lookup in Hq as [i Hi]. apply list_elem_of_lookup in Hd as [j Hj].
    exists (i, j, d). split; [|done]. by eapply owned_winner. }
  split_and!.
  - apply owned_unique; [by rewrite <-list_fmap_compose|].
    intros p (q & -> & Hq)%list_elem_of_fmap. by apply Hdev.
  - intros d d' (w & Hw & <-)%Hwin (w' & Hw' & <-)%Hwin Hne Hc.
    apply (Hap w w'); [done..|congruence|by right].
  - intros p d [i Hi]%list_elem_of_lookup [j Hj]%list_elem_of_lookup Ho.
    assert ((i, j, d) ∈ candidates (snd <$> plugins)) as Hc.
    { apply elem_of_candidates. exists p.2. cbn. by rewrite list_lookup_fmap, Hi. }
    destruct (Hlost _ Hc) as (w & Hw & Hrank & Hb).
    { intros Hw. apply Ho, (owner_positional _ Hids i), Hown; [done|]. by eexists. }
    pose proof (Hsub w Hw) as (ds & Hds & Hwd)%elem_of_candidates.
    rewrite list_lookup_fmap in Hds.
    destruct (plugins !! cand_plugin w) as [q|] eqn:Hq; [|done]. injection Hds as <-.
    exists q, w.2. split_and!; [by eapply list_elem_of_lookup_2..| | |exact Hb].
    + apply (owner_positional _ Hids (cand_plugin w)); [done|]. apply Hown. by exists w.
    + unfold rank_le, cand_priority in Hrank. rewrite !list_lookup_fmap, Hq in Hrank.
      cbn in Hrank. rewrite Hi in Hrank. cbn in Hrank. lia.
Qed.

(** C25: Of the plugins' devices, those driven are listed once, never contend for hardware,
    and every device a plugin reports without driving it gives way to a driven device
    with the same identifier or contending claims, of a plugin of no lower priority. *)
Theorem ownership_stable
    (plugins : list (LoadedPluginId * LoadedPluginMetadata * list DeviceDescriptor)) :
  NoDup ((λ p, p.1.1) <$> plugins) → (∀ p, p ∈ plugins → NoDup (dd_id <$> p.2)) →
  let owners := arbitrate_ownership_by_id plugins in
  let owned := owned_descriptors owners ((λ p, (p.1.1, p.2)) <$> plugins) in
  NoDup (dd_id <$> owned) ∧
  (∀ d d', d ∈ owned → d' ∈ owned → d ≠ d' → ¬ contending d d') ∧
  (∀ p d, p ∈ plugins → d ∈ p.2 → owners !! dd_id d ≠ Some p.1.1 →
     ∃ q d', q ∈ plugins ∧ d' ∈ q.2 ∧ owners !! dd_id d' = Some q.1.1 ∧
       (lpm_priority p.1.2 <= lpm_priority q.1.2)%Z ∧
       (dd_id d' = dd_id d ∨ contending d' d)).
Proof. apply ownership_spec. Qed.

(** ** What changed *)

#[export] Instance device_id_le_trans : Transitive device_id_le.
Proof. intros a b c. unfold device_id_le. apply transitivity. Qed.
#[export] Instance device_id_le_total : Total device_id_le.
Proof. intros a b. unfold device_id_le. apply total. apply _. Qed.

Lemma changed_ids_elem previous current id :
  id ∈ changed_device_ids previous current ↔
  option_eqb device_eqb (device_map previous !! id) (device_map current !! id) = false.
Proof.
  unfold changed_device_ids. rewrite merge_sort_Permutation, elem_of_elements, elem_of_list_to_set.
  rewrite list_elem_of_filter. split; [by intros []|]. intros H. split; [done|].
  rewrite elem_of_app, !list_elem_of_fmap.
  destruct (device_map previous !! id) as [d|] eqn:Hp; [left; exists (id, d)|].
  { split; [done|by apply elem_of_map_to_list]. }
  destruct (device_map current !! id) as [d|] eqn:Hc; [right; exists (id, d)|done].
  split; [done|by apply elem_of_map_to_list].
Qed.

(** The identifiers reported as changed are exactly those whose device differs
    between the two lists, or is in one of them only, each once and in order. *)
Theorem changed_device_ids_correct previous current :
  let changed := changed_device_ids previous current in
  (∀ id, id ∈ changed ↔
     option_eqb device_eqb (device_map previous !! id) (device_map current !! id) = false) ∧
  NoDup changed ∧ StronglySorted device_id_le changed.
Proof.
  split_and!; [intros id; apply changed_ids_elem|unfold changed_device_ids..].
  - rewrite merge_sort_Permutation. apply NoDup_elements.
  - apply (StronglySorted_merge_sort _).
Qed.

(** ** Witnesses *)

Module Contending.
Definition claim (exclusivity : ClaimExclusivity) : HardwareClaim := {|
  hc_bus := Bus_Hid; hc_physical_identity := "1532:0226"; hc_control_domain := "lighting";
  hc_exclusivity := exclusivity |}.
Definition device (id : string) (claims : list HardwareClaim) : DeviceDescriptor := {|
  dd_id := id; dd_name := id; dd_vendor := None; dd_model := None; dd_surfaces := [];
  dd_groups := []; dd_capabilities := CapabilitySet_default; dd_claims := claims;
  dd_category := None; dd_physical_tags := []; dd_host_attached := true; dd_notes := [];
  dd_warnings := [] |}.
Definition plugin (n : N) (priority : Z) (devices : list DeviceDescriptor) :
    LoadedPluginId * LoadedPluginMetadata * list DeviceDescriptor :=
  ({| LoadedPluginId_uuid := n |},
   {| lpm_name := "p"; lpm_version := "1"; lpm_priority := priority;
      lpm_recommended_reconciliation := None |}, devices).
(** The second plugin has the higher priority and the same hardware. *)
Definition plugins :=
  [plugin 1 0 [device "a" [claim Exclusive]; device "b" []];
   plugin 2 5 [device "c" [claim Shared]]].
End Contending.

Example ownership_example :
  map_to_list (arbitrate_ownership_by_id Contending.plugins)
  ≡ₚ [("b"%string, {| LoadedPluginId_uuid := 1 |}); ("c"%string, {| LoadedPluginId_uuid := 2 |})].
Proof. by apply (bool_decide_unpack _); vm_compute. Qed.

Lemma ownership_stable_witness :
  NoDup ((λ p, p.1.1) <$> Contending.plugins) ∧
  NoDup (dd_id <$> owned_descriptors (arbitrate_ownership_by_id Contending.plugins)
           ((λ p, (p.1.1, p.2)) <$> Contending.plugins)).
Proof.
  split; [apply (bool_decide_unpack _); vm_compute; exact I|].
  apply (ownership_stable Contending.plugins).
  - apply (bool_decide_unpack _). vm_compute. exact I.
  - intros p Hp. apply (bool_decide_unpack _).
    repeat (apply elem_of_cons in Hp as [->|Hp]; [vm_compute; exact I|]).
    by apply not_elem_of_nil in Hp.
Defined.
