(* ===== verification/PluginManager.v ===== *)
(** * The plugin manager: [luminated/src/plugins/]

    Which plugins are loaded, what each reports, which plugin drives which device, and
    the operations that change that: loading at startup ([loading.rs]), topology
    re-pulls, unloads and reloads ([topology.rs]), and managed activation
    ([managed.rs]).  After startup an operation is a [pm_op], the sequence of its
    critical sections and of its calls of plugin hosts, between which other operations
    run; [alone] runs one without interruption.  Their interleavings are in
    [PluginRuns.v].  Plugin hosts are separate processes, so a host's answer comes from
    outside, and so does the random identifier of a newly started plugin.  The operations
    on shared-memory streams ([streams.rs]) are functions here, for the tasks that use
    them, and sequences of critical sections in [PluginRuns.v]; logging, the contents of
    the shared-memory segments, and the catalogue fields these operations do not read are
    left out. *)

From S2P Require Import Prelude Model Daemon Topology Descriptors Normalize Ownership.

(** ** State *)

Record LoadedPlugin := { lp_id : LoadedPluginId; lp_metadata : LoadedPluginMetadata }.
Definition lp_name (p : LoadedPlugin) : string := lpm_name (lp_metadata p).

Inductive PluginRuntimeState :=
| Runtime_Inactive
| Runtime_Loading
| Runtime_Loaded
| Runtime_Failed (diagnostic : Text).
#[export] Instance PluginRuntimeState_eq : EqDecision PluginRuntimeState.
Proof. solve_decision. Defined.

Record PluginCatalogueEntry := {
  pce_name : string;
  pce_version : string;
  pce_path : string;
  pce_required : bool;
  pce_effective_enabled : bool;
  pce_effective_reconciliation : option ReconciliationPolicy;
  pce_runtime : PluginRuntimeState
}.

Record PluginTopologyState := {
  pts_descriptors_by_plugin : list (LoadedPluginId * list DeviceDescriptor);
  pts_owner_by_device : gmap string LoadedPluginId
}.

(** A daemon-published stream, without its ports. *)
Record ActiveShmStream := {
  ass_generation : Z;
  ass_format : ShmPixelFormat;
  ass_connection_epoch : Z
}.

(** The streams are keyed by the rendered target; of a client-published one the
    generation is kept. *)
Record PluginManager := {
  pm_catalogue : list PluginCatalogueEntry;
  pm_loaded : list LoadedPlugin;
  pm_topology : PluginTopologyState;
  pm_shm : gmap string ActiveShmStream;
  pm_shm_client : gmap string Z
}.

Definition set_catalogue (pm : PluginManager) (v : list PluginCatalogueEntry) : PluginManager :=
  let 'Build_PluginManager _ b c d e := pm in Build_PluginManager v b c d e.
Definition set_loaded (pm : PluginManager) (v : list LoadedPlugin) : PluginManager :=
  let 'Build_PluginManager a _ c d e := pm in Build_PluginManager a v c d e.
Definition set_topology (pm : PluginManager) (v : PluginTopologyState) : PluginManager :=
  let 'Build_PluginManager a b _ d e := pm in Build_PluginManager a b v d e.
Definition set_shm (pm : PluginManager) (v : gmap string ActiveShmStream) : PluginManager :=
  let 'Build_PluginManager a b c _ e := pm in Build_PluginManager a b c v e.
Definition set_shm_client (pm : PluginManager) (v : gmap string Z) : PluginManager :=
  let 'Build_PluginManager a b c d _ := pm in Build_PluginManager a b c d v.

Record TopologyReconcile := {
  tr_devices : list Device;
  tr_changed_devices : list DeviceId
}.

Definition set_runtime (entry : PluginCatalogueEntry) (runtime : PluginRuntimeState) :
    PluginCatalogueEntry :=
  let 'Build_PluginCatalogueEntry a b c d e f _ := entry in
  Build_PluginCatalogueEntry a b c d e f runtime.

(** The first entry of the name. *)
Fixpoint update_entry (name : string) (runtime : PluginRuntimeState)
    (l : list PluginCatalogueEntry) : list PluginCatalogueEntry :=
  match l with
  | [] => []
  | entry :: l =>
      if bool_decide (pce_name entry = name) then set_runtime entry runtime :: l
      else entry :: update_entry name runtime l
  end.

Definition set_runtime_state (pm : PluginManager) (name : string) (runtime : PluginRuntimeState) :
    PluginManager :=
  set_catalogue pm (update_entry name runtime (pm_catalogue pm)).

Definition plugin_for_device (pm : PluginManager) (device_id : string) :
    daemon LoadedPlugin :=
  owner ← ok_or (pts_owner_by_device (pm_topology pm) !! device_id) (DE_DeviceUnowned device_id);
  ok_or (List.find (λ plugin, bool_decide (lp_id plugin = owner)) (pm_loaded pm))
    (DE_DeviceUnowned device_id).

Definition plugin_target_from_target_id (target : TargetId) : PluginTarget :=
  match target with
  | TargetId_Device device => PluginTarget_Device (DeviceId_as_str device)
  | TargetId_Surface device surface =>
      PluginTarget_Surface (DeviceId_as_str device) (SurfaceId_as_str surface)
  | TargetId_Element device surface element =>
      PluginTarget_Element (DeviceId_as_str device) (SurfaceId_as_str surface)
        (ElementId_as_str element)
  | TargetId_Group device group =>
      PluginTarget_Group (DeviceId_as_str device) (GroupId_as_str group)
  end.

Definition stream_key (target : TargetId) : string :=
  PluginTarget_to_string (plugin_target_from_target_id target).

(** ** Shared-memory streams: [streams.rs] *)

(** The plugin host's answer to the negotiation. *)
Inductive ShmStreamOutcome :=
| Shm_Ready (segment_bytes : Z)
| Shm_Acknowledged
| Shm_Unsupported (reason : string)
| Shm_Io (reason : string)
| Shm_Internal (reason : string).

(** [ShmPublisherRegistry::begin].  [outcome] is the host's answer, [opened] whether the
    segment and its channel could be opened, [connection_epoch] the host's. *)
Definition begin_shm_stream (pm : PluginManager) (target : TargetId)
    (capability : ShmFrameCapability) (generation : Z)
    (outcome : LoadedPlugin → result Text ShmStreamOutcome) (opened : bool)
    (connection_epoch : Z) : bool * PluginManager :=
  match plugin_for_device pm (DeviceId_as_str (TargetId_device_id target)) with
  | Err _ => (false, pm)
  | Ok plugin =>
      match head (shm_pixel_formats capability) with
      | None => (false, pm)
      | Some format =>
          match outcome plugin with
          | Ok (Shm_Ready _) =>
              if opened
              then (true,
                    set_shm pm (<[stream_key target :=
                                    {| ass_generation := generation; ass_format := format;
                                       ass_connection_epoch := connection_epoch |}]> (pm_shm pm)))
              else (false, pm)
          | _ => (false, pm)
          end
      end
  end.

(** [ShmPublisherRegistry::apply]: [sent] is whether the segment took the frame.  A
    stream of an earlier host process is dropped. *)
Definition try_apply_shm_frame (pm : PluginManager) (target : TargetId) (envelope : FrameEnvelope)
    (connection_epoch : Z) (sent : bool) : bool * PluginManager :=
  match plugin_for_device pm (DeviceId_as_str (TargetId_device_id target)) with
  | Err _ => (false, pm)
  | Ok _ =>
      match fe_payload envelope with
      | Payload_Full _ =>
          match pm_shm pm !! stream_key target with
          | None => (false, pm)
          | Some stream =>
              if negb (ass_generation stream =? fe_generation envelope)%Z then (false, pm)
              else if negb (ass_connection_epoch stream =? connection_epoch)%Z
              then (false, set_shm pm (delete (stream_key target) (pm_shm pm)))
              else (sent, pm)
          end
      | _ => (false, pm)
      end
  end.

(** [ShmPublisherRegistry::end]: only the stream of that generation. *)
Definition end_shm_stream (pm : PluginManager) (target : TargetId) (generation : Z) :
    PluginManager :=
  match plugin_for_device pm (DeviceId_as_str (TargetId_device_id target)) with
  | Ok _ =>
      match pm_shm pm !! stream_key target with
      | Some stream =>
          if (ass_generation stream =? generation)%Z
          then set_shm pm (delete (stream_key target) (pm_shm pm))
          else pm
      | None => pm
      end
  | Err _ => pm
  end.

Definition force_end_shm (pm : PluginManager) (target : TargetId) : PluginManager :=
  match plugin_for_device pm (DeviceId_as_str (TargetId_device_id target)) with
  | Ok _ => set_shm pm (delete (stream_key target) (pm_shm pm))
  | Err _ => pm
  end.

Definition end_all_shm_streams (pm : PluginManager) (targets : list TargetId) : PluginManager :=
  fold_left force_end_shm targets pm.

Definition end_shm_client_stream (pm : PluginManager) (target : TargetId) (generation : Z) :
    bool * PluginManager :=
  match pm_shm_client pm !! stream_key target with
  | Some active =>
      if (active =? generation)%Z
      then (true, set_shm_client pm (delete (stream_key target) (pm_shm_client pm)))
      else (false, pm)
  | None => (false, pm)
  end.

Definition force_end_shm_client (acc : list (TargetId * Z) * PluginManager) (target : TargetId) :
    list (TargetId * Z) * PluginManager :=
  let '(ended, pm) := acc in
  match pm_shm_client pm !! stream_key target with
  | Some generation =>
      (ended ++ [(target, generation)],
       set_shm_client pm (delete (stream_key target) (pm_shm_client pm)))
  | None => (ended, pm)
  end.

(** The targets whose stream was torn down, with its generation. *)
Definition end_all_shm_client_streams (pm : PluginManager) (targets : list TargetId) :
    list (TargetId * Z) * PluginManager :=
  fold_left force_end_shm_client targets ([], pm).

Definition has_active_shm_stream (pm : PluginManager) (target : TargetId) : bool :=
  bool_decide (is_Some (pm_shm pm !! stream_key target)).

(** What a started host reports, or why it did not start. *)
Definition Spawned : Type := result Text (LoadedPluginMetadata * list DeviceDescriptor).

(** ** Operations *)

(** The methods of the manager run in the threads of concurrent requests.  A method holds
    the lock of a field for a critical section and releases it before it takes the next
    one or calls a plugin host, so that between any two of these the other operations
    run, and what it read before may be out of date.  An operation is the sequence of its
    critical sections, host calls and generated identifiers. *)
Inductive pm_op (A : Type) : Type :=
| OpDone (a : A)
| Locking {X : Type} (f : PluginManager → PluginManager * X) (k : X → pm_op A)
| AskTopology (plugin : LoadedPlugin) (k : result Text (list DeviceDescriptor) → pm_op A)
| AskReload (plugin : LoadedPlugin) (k : result Text (list DeviceDescriptor) → pm_op A)
| Spawning (name : string) (k : Spawned → pm_op A)
| NewId (k : LoadedPluginId → pm_op A).
Arguments OpDone {A} a.
Arguments Locking {A X} f k.
Arguments AskTopology {A} plugin k.
Arguments AskReload {A} plugin k.
Arguments Spawning {A} name k.
Arguments NewId {A} k.

#[export] Instance pm_op_ret : MRet pm_op := λ A a, OpDone a.
#[export] Instance pm_op_bind : MBind pm_op :=
  fix bind A B (h : A → pm_op B) (op : pm_op A) {struct op} : pm_op B :=
    match op with
    | OpDone a => h a
    | Locking f k => Locking f (λ x, bind A B h (k x))
    | AskTopology plugin k => AskTopology plugin (λ r, bind A B h (k r))
    | AskReload plugin k => AskReload plugin (λ r, bind A B h (k r))
    | Spawning name k => Spawning name (λ s, bind A B h (k s))
    | NewId k => NewId (λ id, bind A B h (k id))
    end.

(** [?] *)
Definition or_finish {E A B} (r : result E A) (k : A → pm_op (result E B)) : pm_op (result E B) :=
  match r with Ok a => k a | Err e => OpDone (Err e) end.

Fixpoint op_each {A} (f : A → pm_op unit) (l : list A) : pm_op unit :=
  match l with
  | [] => OpDone tt
  | x :: l => _ ← f x; op_each f l
  end.

Definition loaded_snapshot : pm_op (list LoadedPlugin) :=
  Locking (λ pm, (pm, pm_loaded pm)) OpDone.
Definition setting_runtime (name : string) (runtime : PluginRuntimeState) : pm_op unit :=
  Locking (λ pm, (set_runtime_state pm name runtime, tt)) OpDone.

(** The end of a critical section on the topology: both halves are written, or neither. *)
Definition committing {E R} (f : PluginTopologyState → result E (R * PluginTopologyState)) :
    pm_op (result E R) :=
  Locking (λ pm,
    match f (pm_topology pm) with
    | Ok (r, candidate) => (set_topology pm candidate, Ok r)
    | Err e => (pm, Err e)
    end) OpDone.

(** [plugin_for_device], which takes the two locks one after the other. *)
Definition looking_up (device_id : string) : pm_op (daemon LoadedPlugin) :=
  owner ← Locking (λ pm, (pm, pts_owner_by_device (pm_topology pm) !! device_id)) OpDone;
  or_finish (ok_or owner (DE_DeviceUnowned device_id)) (λ owner,
    loaded ← loaded_snapshot;
    OpDone (ok_or (List.find (λ plugin, bool_decide (lp_id plugin = owner)) loaded)
                (DE_DeviceUnowned device_id))).

(** One turn of the loops of [end_all_shm_streams] and [end_all_shm_client_streams]. *)
Definition ending_shm (target : TargetId) : pm_op unit :=
  r ← looking_up (DeviceId_as_str (TargetId_device_id target));
  match r with
  | Ok _ => Locking (λ pm, (set_shm pm (delete (stream_key target) (pm_shm pm)), tt)) OpDone
  | Err _ => OpDone tt
  end.
Definition ending_shm_client (target : TargetId) : pm_op unit :=
  Locking (λ pm, ((force_end_shm_client ([], pm) target).2, tt)) OpDone.

(** What the environment answers to an operation that runs alone. *)
Record HostAnswers := {
  ha_topology : LoadedPlugin → result Text (list DeviceDescriptor);
  ha_reload : LoadedPlugin → result Text (list DeviceDescriptor);
  ha_spawned : string → Spawned;
  ha_id : LoadedPluginId
}.

(** The run of an operation that no other one interrupts. *)
Fixpoint alone {A} (h : HostAnswers) (op : pm_op A) (pm : PluginManager) : A * PluginManager :=
  match op with
  | OpDone a => (a, pm)
  | Locking f k => let '(pm, x) := f pm in alone h (k x) pm
  | AskTopology plugin k => alone h (k (ha_topology h plugin)) pm
  | AskReload plugin k => alone h (k (ha_reload h plugin)) pm
  | Spawning name k => alone h (k (ha_spawned h name)) pm
  | NewId k => alone h (k (ha_id h)) pm
  end.

(** ** Topology commits: [topology.rs] *)

(** [with_context] *)
Definition context {A} (template : string) (args : list FmtArg) (r : normal A) : normal A :=
  map_err (λ e, match e with Fail t => Fail (Nested template args t) | Fuel => Fuel end) r.

Definition arbitration_inputs (candidate_descriptors : list (LoadedPluginId * list DeviceDescriptor))
    (loaded : list LoadedPlugin) :
    list (LoadedPluginId * LoadedPluginMetadata * list DeviceDescriptor) :=
  omap (λ entry,
      (λ plugin, (entry.1, lp_metadata plugin, entry.2)) <$>
        List.find (λ plugin, bool_decide (lp_id plugin = entry.1)) loaded)
    candidate_descriptors.

Definition owned_devices (topology : PluginTopologyState) : normal (list Device) :=
  normalize_devices
    (owned_descriptors (pts_owner_by_device topology) (pts_descriptors_by_plugin topology)).

(** [iter_mut().find(..)] and the assignment to the slot. *)
Fixpoint replace_entry (id : LoadedPluginId) (descriptors : list DeviceDescriptor)
    (l : list (LoadedPluginId * list DeviceDescriptor)) :
    option (list (LoadedPluginId * list DeviceDescriptor)) :=
  match l with
  | [] => None
  | entry :: l =>
      if bool_decide (entry.1 = id) then Some ((id, descriptors) :: l)
      else cons entry <$> replace_entry id descriptors l
  end.

(** The first half of a re-pull: the plugin of the name, among those loaded. *)
Definition find_source (loaded : list LoadedPlugin) (plugin_name : string) : normal LoadedPlugin :=
  match filter (λ plugin, lp_name plugin = plugin_name) loaded with
  | [] => Err (fail (Fmt "unknown plugin notification source: {plugin_name}" [AStr plugin_name]))
  | [plugin] => Ok plugin
  | _ => Err (fail (Fmt "plugin notification source is ambiguous: {plugin_name}"
                      [AStr plugin_name]))
  end.

Definition accept_report (plugin_name : string) (answer : result Text (list DeviceDescriptor)) :
    normal (list DeviceDescriptor) :=
  descriptors ← map_err Fail answer;
  _ ← context "plugin {plugin_name} produced an invalid topology" [AStr plugin_name]
        (normalize_devices descriptors);
  Ok descriptors.

(** The second half, under the topology lock; [loaded] is the earlier snapshot. *)
Definition replace_report (plugin_name : string) (id : LoadedPluginId)
    (descriptors : list DeviceDescriptor) (loaded : list LoadedPlugin)
    (topology : PluginTopologyState) : normal (TopologyReconcile * PluginTopologyState) :=
  previous_devices ← owned_devices topology;
  candidate_descriptors ←
    ok_or (replace_entry id descriptors (pts_descriptors_by_plugin topology))
      (fail (Fmt "plugin topology entry missing for {plugin_name}" [AStr plugin_name]));
  let candidate := {|
    pts_descriptors_by_plugin := candidate_descriptors;
    pts_owner_by_device :=
      arbitrate_ownership_by_id (arbitration_inputs candidate_descriptors loaded) |} in
  devices ← owned_devices candidate;
  Ok ({| tr_devices := devices;
         tr_changed_devices := changed_device_ids previous_devices devices |}, candidate).

Definition reconcile_plugin_topology (plugin_name : string) : pm_op (normal TopologyReconcile) :=
  loaded ← loaded_snapshot;
  or_finish (find_source loaded plugin_name) (λ plugin,
    answer ← AskTopology plugin OpDone;
    or_finish (accept_report plugin_name answer) (λ descriptors,
      committing (replace_report plugin_name (lp_id plugin) descriptors loaded))).

(** The commit that [unload_plugin] and [reload_plugin] share, under the topology lock;
    [loaded] is the snapshot of the plugins that remain. *)
Definition commit_candidate (topology : PluginTopologyState) (loaded : list LoadedPlugin)
    (candidate_descriptors : list (LoadedPluginId * list DeviceDescriptor)) (invalid : string) :
    result (fuelled DaemonError) (TopologyReconcile * PluginTopologyState) :=
  let internal {A} (template : string) : normal A → result (fuelled DaemonError) A :=
    map_err (λ e, match e with
                  | Fail t => Fail (DE_Internal (Nested template [] t))
                  | Fuel => Fuel
                  end) in
  previous_devices ← internal "previous topology became invalid: {error:#}"%string
    (owned_devices topology);
  let candidate := {|
    pts_descriptors_by_plugin := candidate_descriptors;
    pts_owner_by_device :=
      arbitrate_ownership_by_id (arbitration_inputs candidate_descriptors loaded) |} in
  devices ← internal invalid (owned_devices candidate);
  Ok ({| tr_devices := devices;
         tr_changed_devices := changed_device_ids previous_devices devices |}, candidate).

(** [position] and [remove]. *)
Fixpoint remove_named (name : string) (l : list LoadedPlugin) :
    option (LoadedPlugin * list LoadedPlugin) :=
  match l with
  | [] => None
  | plugin :: l =>
      if bool_decide (lp_name plugin = name) then Some (plugin, l)
      else (λ r, (r.1, plugin :: r.2)) <$> remove_named name l
  end.

Definition take_named (name : string) : pm_op (option LoadedPlugin) :=
  Locking (λ pm,
    match remove_named name (pm_loaded pm) with
    | Some (removed, remaining) => (set_loaded pm remaining, Some removed)
    | None => (pm, None)
    end) OpDone.

(** The topology without the reports of [removed], and the descriptors it reported. *)
Definition withdraw_report (removed : LoadedPluginId) (remaining : list LoadedPlugin)
    (topology : PluginTopologyState) :
    result (fuelled DaemonError)
      ((TopologyReconcile * list DeviceDescriptor) * PluginTopologyState) :=
  let entries := pts_descriptors_by_plugin topology in
  let unloaded_descriptors :=
    from_option snd [] (List.find (λ entry, bool_decide (entry.1 = removed)) entries) in
  '(reconciled, candidate) ←
    commit_candidate topology remaining (filter (λ entry, entry.1 ≠ removed) entries)
      "post-unload aggregate topology is invalid: {error:#}";
  Ok ((reconciled, unloaded_descriptors), candidate).

Definition unload_plugin (name : string) :
    pm_op (result (fuelled DaemonError) TopologyReconcile) :=
  removed ← take_named name;
  or_finish (ok_or removed (Fail (DE_PluginNotFound name))) (λ removed,
    remaining ← loaded_snapshot;
    committed ← committing (withdraw_report (lp_id removed) remaining);
    or_finish committed (λ c,
      let unloaded_targets := (λ d, TargetId_Device (DeviceId_new (dd_id d))) <$> c.2 in
      _ ← op_each ending_shm unloaded_targets;
      _ ← op_each ending_shm_client unloaded_targets;
      _ ← setting_runtime name Runtime_Inactive;
      OpDone (Ok c.1))).

(** What the host answers to [force_reload], checked. *)
Definition reload_outcome (answer : result Text (list DeviceDescriptor)) :
    normal (list DeviceDescriptor) :=
  descriptors ← map_err Fail answer;
  _ ← normalize_devices descriptors;
  Ok descriptors.

(** The topology with the reports of the restarted plugin in place of the old one's. *)
Definition restart_report (old_id new_id : LoadedPluginId) (descriptors : list DeviceDescriptor)
    (remaining : list LoadedPlugin) (topology : PluginTopologyState) :
    result (fuelled DaemonError) (TopologyReconcile * PluginTopologyState) :=
  commit_candidate topology remaining
    (filter (λ entry, entry.1 ≠ old_id) (pts_descriptors_by_plugin topology)
       ++ [(new_id, descriptors)])
    "post-reload aggregate topology is invalid: {error:#}".

Definition reload_plugin (name : string) :
    pm_op (result (fuelled DaemonError) TopologyReconcile) :=
  loaded ← loaded_snapshot;
  or_finish (ok_or (List.find (λ plugin, bool_decide (lp_name plugin = name)) loaded)
               (Fail (DE_PluginNotFound name))) (λ old_plugin,
    let old_id := lp_id old_plugin in
    answer ← AskReload old_plugin OpDone;
    _ ← Locking (λ pm,
          (set_loaded pm (filter (λ plugin, lp_id plugin ≠ old_id) (pm_loaded pm)), tt)) OpDone;
    match reload_outcome answer with
    | Err Fuel => OpDone (Err Fuel)
    | Err (Fail diagnostic) =>
        _ ← setting_runtime name (Runtime_Failed diagnostic);
        OpDone (Err (Fail (DE_PluginReloadFailed name diagnostic)))
    | Ok descriptors =>
        new_id ← NewId OpDone;
        let new_plugin := {| lp_id := new_id; lp_metadata := lp_metadata old_plugin |} in
        _ ← Locking (λ pm, (set_loaded pm (pm_loaded pm ++ [new_plugin]), tt)) OpDone;
        _ ← setting_runtime name Runtime_Loaded;
        remaining ← loaded_snapshot;
        committing (restart_report old_id new_id descriptors remaining)
    end).

Definition plugin_names (pm : PluginManager) : list string := lp_name <$> pm_loaded pm.

(** The names are read once. *)
Fixpoint reload_names (names : list string) :
    pm_op (list (string * result (fuelled DaemonError) TopologyReconcile)) :=
  match names with
  | [] => OpDone []
  | name :: names =>
      r ← reload_plugin name;
      rs ← reload_names names;
      OpDone ((name, r) :: rs)
  end.

Definition reload_all : pm_op (list (string * result (fuelled DaemonError) TopologyReconcile)) :=
  names ← Locking (λ pm, (pm, plugin_names pm)) OpDone;
  reload_names names.

(** ** Loading: [loading.rs] *)

Definition load_plugin (spawned : Spawned) (id : LoadedPluginId) :
    normal (LoadedPlugin * list DeviceDescriptor) :=
  '(metadata, descriptors) ← map_err Fail spawned;
  _ ← context "plugin {} produced an invalid topology" [AStr (lpm_name metadata)]
        (normalize_devices descriptors);
  Ok ({| lp_id := id; lp_metadata := metadata |}, descriptors).

Definition validate_startup_candidate (loaded_metadata : list LoadedPluginMetadata)
    (existing_ids : list LoadedPluginId) (descriptors_by_plugin : list (list DeviceDescriptor))
    (candidate_id : LoadedPluginId) (candidate_metadata : LoadedPluginMetadata)
    (candidate_descriptors : list DeviceDescriptor) : normal (gmap string LoadedPluginId) :=
  let plugins :=
    zip (zip existing_ids loaded_metadata) descriptors_by_plugin
      ++ [(candidate_id, candidate_metadata, candidate_descriptors)] in
  let candidate_owners := arbitrate_ownership_by_id plugins in
  let aggregate := owned_descriptors candidate_owners ((λ p, (p.1.1, p.2)) <$> plugins) in
  _ ← context "plugin {} conflicts with the accepted startup topology"
        [AStr (lpm_name candidate_metadata)] (normalize_devices aggregate);
  Ok candidate_owners.

(** [Ok None]: an optional plugin is skipped. *)
Definition classify_load_outcome {T} (outcome : normal T) (required : bool) (path : string) :
    normal (option T) :=
  match outcome with
  | Ok plugin => Ok (Some plugin)
  | Err Fuel => Err Fuel
  | Err (Fail e) =>
      if required
      then Err (Fail (Nested "required plugin failed to load: {}" [AStr path] e))
      else Ok None
  end.

(** The loop's state: the loaded plugins with their descriptors, and the owners. *)
Record Startup := {
  su_loaded : list (LoadedPlugin * list DeviceDescriptor);
  su_owner_by_device : gmap string LoadedPluginId
}.

(** A failure of a required plugin ends startup, an optional one is skipped. *)
Definition skip (st : Startup) (entry : PluginCatalogueEntry) (e : Text) :
    normal (PluginCatalogueEntry * Startup) :=
  if pce_required entry
  then Err (Fail (Nested "required plugin failed to load: {}" [AStr (pce_path entry)] e))
  else Ok (set_runtime entry (Runtime_Failed e), st).

(** The checks of a plugin that started. *)
Definition accept_candidate (st : Startup) (entry : PluginCatalogueEntry) (plugin : LoadedPlugin)
    (descriptors : list DeviceDescriptor) : normal (PluginCatalogueEntry * Startup) :=
  let metadata := lp_metadata plugin in
  if negb (bool_decide (lpm_name metadata = pce_name entry)) ||
     negb (bool_decide (lpm_version metadata = pce_version entry))
  then skip st entry
         (Fmt "plugin identity changed after inspection: expected {} {}, loaded {} {}"
            [AStr (pce_name entry); AStr (pce_version entry);
             AStr (lpm_name metadata); AStr (lpm_version metadata)])
  else if existsb (λ p, bool_decide (lp_name p.1 = lpm_name metadata)) (su_loaded st)
  then skip st entry (Fmt "duplicate loaded plugin name: {}" [AStr (lpm_name metadata)])
  else
    match validate_startup_candidate ((λ p, lp_metadata p.1) <$> su_loaded st)
            ((λ p, lp_id p.1) <$> su_loaded st) (snd <$> su_loaded st) (lp_id plugin) metadata
            descriptors with
    | Err Fuel => Err Fuel
    | Err (Fail e) => skip st entry e
    | Ok candidate_owners =>
        Ok (set_runtime entry Runtime_Loaded,
            {| su_loaded := su_loaded st ++ [(plugin, descriptors)];
               su_owner_by_device := candidate_owners |})
    end.

(** One entry of the catalogue: the entry with its new runtime state. *)
Definition load_entry (st : Startup) (entry : PluginCatalogueEntry) (spawned : Spawned)
    (id : LoadedPluginId) : normal (PluginCatalogueEntry * Startup) :=
  if negb (pce_effective_enabled entry) then Ok (entry, st)
  else if match pce_runtime entry with Runtime_Failed _ => true | _ => false end then Ok (entry, st)
  else
    outcome ← classify_load_outcome (load_plugin spawned id) (pce_required entry) (pce_path entry);
    match outcome with
    | None => Ok (set_runtime entry (Runtime_Failed (Lit "plugin failed during startup")), st)
    | Some (plugin, descriptors) => accept_candidate st entry plugin descriptors
    end.

(** The catalogue entries in order; [spawned n] and [ids n] are what the [n]th start
    yields. *)
Fixpoint load_entries (st : Startup) (entries : list PluginCatalogueEntry) (n : nat)
    (spawned : nat → Spawned) (ids : nat → LoadedPluginId) :
    normal (list PluginCatalogueEntry * Startup) :=
  match entries with
  | [] => Ok ([], st)
  | entry :: entries =>
      '(entry, st) ← load_entry st entry (spawned n) (ids n);
      '(entries, st) ← load_entries st entries (S n) spawned ids;
      Ok (entry :: entries, st)
  end.

(** [PluginManager::load] on the catalogue that discovery built. *)
Definition load (catalogue : list PluginCatalogueEntry) (spawned : nat → Spawned)
    (ids : nat → LoadedPluginId) : normal PluginManager :=
  '(catalogue, st) ← load_entries {| su_loaded := []; su_owner_by_device := ∅ |} catalogue 0
                       spawned ids;
  Ok {| pm_catalogue := catalogue;
        pm_loaded := fst <$> su_loaded st;
        pm_topology := {|
          pts_descriptors_by_plugin := (λ p, (lp_id p.1, p.2)) <$> su_loaded st;
          pts_owner_by_device := su_owner_by_device st |};
        pm_shm := ∅;
        pm_shm_client := ∅ |}.

(** ** Managed activation: [managed.rs] *)

(** The checks and the commit of an activation, under both locks. *)
Definition admit_plugin (name : string) (plugin : LoadedPlugin) (descriptors : list DeviceDescriptor)
    (loaded : list LoadedPlugin) (topology : PluginTopologyState) :
    normal (TopologyReconcile * PluginTopologyState) :=
  _ ← ensure (forallb (λ candidate, negb (bool_decide (lp_name candidate = name))) loaded)
        (fail (Fmt "plugin is already loaded: {name}" [AStr name]));
  previous_devices ← context "previous topology became invalid" [] (owned_devices topology);
  let existing := arbitration_inputs (pts_descriptors_by_plugin topology) loaded in
  candidate_owners ←
    validate_startup_candidate ((λ p, p.1.2) <$> existing) ((λ p, p.1.1) <$> existing)
      (snd <$> existing) (lp_id plugin) (lp_metadata plugin) descriptors;
  let candidate := {|
    pts_descriptors_by_plugin :=
      pts_descriptors_by_plugin topology ++ [(lp_id plugin, descriptors)];
    pts_owner_by_device := candidate_owners |} in
  devices ← context "activated topology is invalid" [] (owned_devices candidate);
  Ok ({| tr_devices := devices;
         tr_changed_devices := changed_device_ids previous_devices devices |}, candidate).

Definition activate_plugin (name : string) : pm_op (normal TopologyReconcile) :=
  found ← Locking (λ pm, (pm, List.find (λ entry, bool_decide (pce_name entry = name))
                                (pm_catalogue pm))) OpDone;
  or_finish (ok_or found (fail (Fmt "installed plugin not found: {name}" [AStr name]))) (λ _,
    _ ← setting_runtime name Runtime_Loading;
    spawned ← Spawning name OpDone;
    id ← NewId OpDone;
    or_finish (load_plugin spawned id) (λ p,
      let '(plugin, descriptors) := p in
      or_finish (ensure (bool_decide (lp_name plugin = name))
          (fail (Fmt "plugin identity changed after inspection: expected {name}, loaded {}"
                   [AStr name; AStr (lp_name plugin)]))) (λ _,
        committed ← Locking (λ pm,
          match admit_plugin name plugin descriptors (pm_loaded pm) (pm_topology pm) with
          | Ok (reconciled, candidate) =>
              (set_loaded (set_topology pm candidate) (pm_loaded pm ++ [plugin]), Ok reconciled)
          | Err e => (pm, Err e)
          end) OpDone;
        or_finish committed (λ reconciled,
          _ ← setting_runtime name Runtime_Loaded;
          OpDone (Ok reconciled))))).

Inductive ManagedPluginAction := Action_Activate | Action_Deactivate | Action_Restart.

Definition managed_plugin_action (runtime : PluginRuntimeState)
    (effective_enabled configuration_changed : bool) : option ManagedPluginAction :=
  match runtime, effective_enabled, configuration_changed with
  | Runtime_Loaded, false, _ => Some Action_Deactivate
  | Runtime_Inactive, true, _ | Runtime_Failed _, true, _ => Some Action_Activate
  | Runtime_Loaded, true, true => Some Action_Restart
  | Runtime_Loading, _, _ | Runtime_Loaded, true, false | Runtime_Inactive, false, _
  | Runtime_Failed _, false, _ => None
  end.

(** The error as [anyhow] carries it. *)
Definition from_daemon_error {A} (r : result (fuelled DaemonError) A) :
    result (fuelled (Text + DaemonError)) A :=
  map_err (λ e, match e with Fail e => Fail (inr e) | Fuel => Fuel end) r.
Definition from_text {A} (r : normal A) : result (fuelled (Text + DaemonError)) A :=
  map_err (λ e, match e with Fail e => Fail (inl e) | Fuel => Fuel end) r.

Record ManagedPluginActionOutcome := {
  mao_reconciliations : list TopologyReconcile;
  mao_activated : bool;
  mao_error : option (fuelled (Text + DaemonError))
}.

Definition action_outcome (reconciliations : list TopologyReconcile)
    (r : result (fuelled (Text + DaemonError)) TopologyReconcile) (activates : bool) :
    ManagedPluginActionOutcome :=
  match r with
  | Ok reconciled =>
      {| mao_reconciliations := reconciliations ++ [reconciled]; mao_activated := activates;
         mao_error := None |}
  | Err e =>
      {| mao_reconciliations := reconciliations; mao_activated := false; mao_error := Some e |}
  end.

Definition run_managed_plugin_action (name : string) (action : ManagedPluginAction) :
    pm_op ManagedPluginActionOutcome :=
  match action with
  | Action_Activate =>
      r ← activate_plugin name; OpDone (action_outcome [] (from_text r) true)
  | Action_Deactivate =>
      r ← unload_plugin name; OpDone (action_outcome [] (from_daemon_error r) false)
  | Action_Restart =>
      r ← unload_plugin name;
      match r with
      | Ok reconciled =>
          r ← activate_plugin name; OpDone (action_outcome [reconciled] (from_text r) true)
      | Err e => OpDone (action_outcome [] (from_daemon_error (Err e)) true)
      end
  end.

(** [format!("{error:#}")].  Of the daemon's errors, [unload_plugin] reports the two
    given. *)
Definition diagnostic_of (e : fuelled (Text + DaemonError)) : Text :=
  match e with
  | Fail (inl t) => t
  | Fail (inr (DE_Internal t)) => Nested "internal daemon error: {0}" [] t
  | Fail (inr (DE_PluginNotFound name)) => Fmt "no loaded plugin named {0:?}" [AStr name]
  | Fail (inr _) | Fuel => Lit ""
  end.

Record ManagedActivationReconcile := {
  mar_topology : option TopologyReconcile;
  mar_activated : bool
}.

(** The loop's state: the devices last committed, the changed identifiers, whether a
    plugin was activated. *)
Fixpoint run_actions (actions : list (string * ManagedPluginAction))
    (acc : option (list Device) * gset DeviceId * bool) :
    pm_op (option (list Device) * gset DeviceId * bool) :=
  match actions with
  | [] => OpDone acc
  | (name, action) :: actions =>
      let '(latest, changed, activated) := acc in
      outcome ← run_managed_plugin_action name action;
      let '(changed, latest) :=
        fold_left (λ a r, (list_to_set (tr_changed_devices r) ∪ a.1, Some (tr_devices r)))
          (mao_reconciliations outcome) (changed, latest) in
      _ ← match mao_error outcome with
          | Some e => setting_runtime name (Runtime_Failed (diagnostic_of e))
          | None => OpDone tt
          end;
      run_actions actions (latest, changed, activated || mao_activated outcome)
  end.

Definition reconcile_managed_plugins (configuration_changes : list string) :
    pm_op ManagedActivationReconcile :=
  actions ← Locking (λ pm, (pm,
    omap (λ entry,
        (λ action, (pce_name entry, action)) <$>
          managed_plugin_action (pce_runtime entry) (pce_effective_enabled entry)
            (bool_decide (pce_name entry ∈ configuration_changes)))
      (pm_catalogue pm))) OpDone;
  '(latest, changed, activated) ← run_actions actions (None, ∅, false);
  OpDone {|
    mar_topology :=
      (λ devices, {| tr_devices := devices;
                     tr_changed_devices := merge_sort device_id_le (elements changed) |})
        <$> latest;
    mar_activated := activated |}.

(** ** The manager's invariant *)

(** A report that a plugin can be loaded with. *)
Definition report_ok (descriptors : list DeviceDescriptor) : Prop :=
  is_ok (normalize_devices descriptors) = true.

Definition driven (topology : PluginTopologyState) : list DeviceDescriptor :=
  owned_descriptors (pts_owner_by_device topology) (pts_descriptors_by_plugin topology).

(** Every entry was accepted, the driven devices form an accepted topology, and no two
    of them contend for hardware. *)
Record topology_inv (topology : PluginTopologyState) : Prop := {
  ti_ids : NoDup (pts_descriptors_by_plugin topology).*1;
  ti_reports e : e ∈ pts_descriptors_by_plugin topology → report_ok e.2;
  ti_driven : is_ok (owned_devices topology) = true;
  ti_apart d d' : d ∈ driven topology → d' ∈ driven topology → d ≠ d' → ¬ contending d d'
}.

Record pm_inv (pm : PluginManager) : Prop := {
  pmi_ids : NoDup (lp_id <$> pm_loaded pm);
  pmi_topology : topology_inv (pm_topology pm)
}.

Lemma report_ok_ids descriptors : report_ok descriptors → NoDup (dd_id <$> descriptors).
Proof. intros [devices (_ & _ & H & _)%normalize_devices_Ok]%is_ok_true. done. Qed.

(** *** Arbitration inputs *)

Lemma find_loaded loaded id p :
  NoDup (lp_id <$> loaded) →
  List.find (λ plugin, bool_decide (lp_id plugin = id)) loaded = Some p ↔
  p ∈ loaded ∧ lp_id p = id.
Proof.
  intros Hnd. split.
  - intros [Hp%list_elem_of_In Hid]%List.find_some. by apply bool_decide_eq_true in Hid.
  - intros [Hp <-]. destruct (List.find _ _) as [q|] eqn:Hq.
    + apply List.find_some in Hq as [Hq%list_elem_of_In Hid]. apply bool_decide_eq_true in Hid.
      f_equal. by apply (NoDup_fmap_same lp_id loaded).
    + apply list_elem_of_In in Hp. eapply List.find_none in Hq; [|exact Hp]. cbn in Hq.
      by apply bool_decide_eq_false in Hq.
Qed.

Lemma elem_of_inputs entries loaded x :
  NoDup (lp_id <$> loaded) →
  x ∈ arbitration_inputs entries loaded ↔
  (x.1.1, x.2) ∈ entries ∧ ∃ p, p ∈ loaded ∧ lp_id p = x.1.1 ∧ lp_metadata p = x.1.2.
Proof.
  intros Hnd. unfold arbitration_inputs. rewrite list_elem_of_omap. split.
  - intros (e & He & (p & [Hp Hid]%find_loaded & ->)%fmap_Some); [|done]. cbn.
    destruct e. eauto.
  - intros (He & p & Hp & Hid & Hm). exists (x.1.1, x.2). split; [done|].
    apply fmap_Some. exists p. split; [by apply find_loaded|]. by destruct x as [[? ?] ?]; cbn in *; subst.
Qed.

Lemma inputs_sublist entries loaded :
  ((λ p, p.1.1) <$> arbitration_inputs entries loaded) `sublist_of` entries.*1.
Proof.
  induction entries as [|e entries IH]; [done|]. cbn.
  destruct (List.find _ _); cbn; [by apply sublist_skip|by apply sublist_cons].
Qed.

Lemma inputs_ids entries loaded :
  NoDup entries.*1 → NoDup ((λ p, p.1.1) <$> arbitration_inputs entries loaded).
Proof. intros H. eapply sublist_NoDup; [exact H|apply inputs_sublist]. Qed.

Lemma owned_cons (owners : gmap string LoadedPluginId) e entries :
  owned_descriptors owners (e :: entries)
  = filter (λ d, owners !! dd_id d = Some e.1) e.2 ++ owned_descriptors owners entries.
Proof. done. Qed.

Lemma inputs_cons e entries loaded :
  arbitration_inputs (e :: entries) loaded
  = match List.find (λ plugin, bool_decide (lp_id plugin = e.1)) loaded with
    | Some p => (e.1, lp_metadata p, e.2) :: arbitration_inputs entries loaded
    | None => arbitration_inputs entries loaded
    end.
Proof. unfold arbitration_inputs. cbn. by destruct (List.find _ _). Qed.

Lemma list_eq_nil {A} (l : list A) : (∀ x, x ∉ l) → l = [].
Proof. destruct l as [|x l]; [done|]. intros H. destruct (H x). by left. Qed.

(** An entry whose plugin is not loaded drives nothing. *)
Lemma driven_inputs (owners : gmap string LoadedPluginId) entries loaded :
  NoDup (lp_id <$> loaded) →
  (∀ d id, owners !! d = Some id → ∃ p, p ∈ loaded ∧ lp_id p = id) →
  owned_descriptors owners entries
  = owned_descriptors owners ((λ p, (p.1.1, p.2)) <$> arbitration_inputs entries loaded).
Proof.
  intros Hnd Hown. induction entries as [|e entries IH]; [done|].
  rewrite owned_cons, inputs_cons, IH.
  destruct (List.find _ _) as [p|] eqn:Hf; [by rewrite fmap_cons, owned_cons|].
  enough (filter (λ d, owners !! dd_id d = Some e.1) e.2 = []) as -> by done.
  apply list_eq_nil. intros d [Ho _]%list_elem_of_filter.
  destruct (Hown _ _ Ho) as (p & Hp & Hid).
  assert (Some p = None) by (rewrite <-Hf; symmetry; by apply find_loaded). done.
Qed.

Lemma owner_input plugins d id :
  arbitrate_ownership_by_id plugins !! d = Some id → ∃ x, x ∈ plugins ∧ x.1.1 = id.
Proof.
  unfold arbitrate_ownership_by_id. rewrite lookup_omap, bind_Some.
  intros (i & _ & (x & Hx & ->)%fmap_Some). exists x. split; [|done]. by eapply list_elem_of_lookup_2.
Qed.

(** A topology whose owners are the outcome of arbitration over the loaded plugins'
    accepted reports is sound once its driven devices are accepted. *)
Lemma arbitrated_inv entries loaded :
  NoDup (lp_id <$> loaded) → NoDup entries.*1 → (∀ e, e ∈ entries → report_ok e.2) →
  let topology := {|
    pts_descriptors_by_plugin := entries;
    pts_owner_by_device := arbitrate_ownership_by_id (arbitration_inputs entries loaded) |} in
  is_ok (owned_devices topology) = true → topology_inv topology.
Proof.
  intros Hl He Hr topology Hok. constructor; [done..|].
  unfold driven, topology. cbn [pts_owner_by_device pts_descriptors_by_plugin].
  rewrite (driven_inputs _ _ loaded Hl).
  2:{ intros d id (x & Hx & <-)%owner_input. apply elem_of_inputs in Hx as [_ (p & ? & ? & _)]; eauto. }
  apply ownership_spec; [by apply inputs_ids|].
  intros x [Hx _]%elem_of_inputs; [|done]. by apply report_ok_ids, (Hr (x.1.1, x.2)).
Qed.

(** *** Lists of entries and of plugins *)

Lemma replace_entry_spec id ds l l' :
  replace_entry id ds l = Some l' →
  l'.*1 = l.*1 ∧ ∀ e, e ∈ l' → e = (id, ds) ∨ e ∈ l.
Proof.
  revert l'. induction l as [|e l IH]; intros l'; cbn [replace_entry]; [done|].
  case_bool_decide as Hid.
  - intros [= <-]. split; [cbn; by rewrite Hid|]. set_solver.
  - intros (l1 & H1 & ->)%fmap_Some. apply IH in H1 as [H1 H2]. cbn. split; [by rewrite H1|].
    set_solver.
Qed.

Lemma remove_named_spec name l p rest :
  remove_named name l = Some (p, rest) →
  l ≡ₚ p :: rest ∧ rest `sublist_of` l ∧ lp_name p = name.
Proof.
  revert rest. induction l as [|q l IH]; intros rest; cbn [remove_named]; [done|].
  case_bool_decide as Hn.
  - intros [= -> ->]. split_and!; [done|by apply sublist_cons|done].
  - intros ([p' rest'] & H & [= <- ->])%fmap_Some. apply IH in H as (H1 & H2 & H3).
    split_and!; [|by apply sublist_skip|done]. rewrite H1. apply Permutation_swap.
Qed.

Lemma pm_inv_set_topology pm topology :
  pm_inv pm → topology_inv topology → pm_inv (set_topology pm topology).
Proof. destruct pm. by intros [] ?. Qed.

(** The invariant reads the loaded plugins and the topology only. *)
Lemma pm_inv_frame pm pm' :
  pm_inv pm → pm_loaded pm' = pm_loaded pm → pm_topology pm' = pm_topology pm → pm_inv pm'.
Proof. intros [] Hl Ht. constructor; rewrite ?Hl, ?Ht; done. Qed.

Lemma runtime_frame pm name runtime :
  pm_loaded (set_runtime_state pm name runtime) = pm_loaded pm ∧
  pm_topology (set_runtime_state pm name runtime) = pm_topology pm.
Proof. by destruct pm. Qed.

Lemma runtime_inv pm name runtime : pm_inv pm → pm_inv (set_runtime_state pm name runtime).
Proof. intros H. by eapply pm_inv_frame; [exact H|apply runtime_frame..]. Qed.

Lemma end_all_frame targets pm :
  pm_loaded (end_all_shm_streams pm targets) = pm_loaded pm ∧
  pm_topology (end_all_shm_streams pm targets) = pm_topology pm ∧
  pm_loaded (end_all_shm_client_streams pm targets).2 = pm_loaded pm ∧
  pm_topology (end_all_shm_client_streams pm targets).2 = pm_topology pm.
Proof.
  assert (∀ pm t, pm_loaded (force_end_shm pm t) = pm_loaded pm ∧
    pm_topology (force_end_shm pm t) = pm_topology pm) as Hforce.
  { intros pm' t. unfold force_end_shm. destruct (plugin_for_device _ _); by destruct pm'. }
  split_and!.
  1,2: unfold end_all_shm_streams; revert pm; induction targets as [|t l IH]; intros pm; cbn; [done|];
    rewrite IH; apply Hforce.
  1,2: unfold end_all_shm_client_streams; generalize (@nil (TargetId * Z)); revert pm;
    induction targets as [|t l IH]; intros pm ended; cbn [fold_left force_end_shm_client]; [done|];
    destruct (pm_shm_client pm !! stream_key t); rewrite IH; by destruct pm.
Qed.

(** Dropping loaded plugins keeps the invariant, whatever the topology still lists. *)
Lemma pm_inv_drop pm rest :
  pm_inv pm → rest `sublist_of` pm_loaded pm → pm_inv (set_loaded pm rest).
Proof.
  destruct pm as [cat l t s c]. intros [Hi Ht] Hs. cbn in *. constructor; cbn; [|done].
  eapply sublist_NoDup; [exact Hi|]. by apply (fmap_sublist lp_id).
Qed.

Lemma context_Ok {A} template args (r : normal A) a : context template args r = Ok a ↔ r = Ok a.
Proof. apply map_err_Ok. Qed.

(** *** Commits *)

Lemma commit_candidate_Ok topology loaded entries invalid reconciled topology' :
  commit_candidate topology loaded entries invalid = Ok (reconciled, topology') ↔
  topology' = {|
    pts_descriptors_by_plugin := entries;
    pts_owner_by_device := arbitrate_ownership_by_id (arbitration_inputs entries loaded) |} ∧
  owned_devices topology' = Ok (tr_devices reconciled) ∧
  ∃ previous, owned_devices topology = Ok previous ∧
    tr_changed_devices reconciled = changed_device_ids previous (tr_devices reconciled).
Proof.
  unfold commit_candidate. cbv zeta. split.
  - intros H. apply bind_Ok in H as (previous & Hp%map_err_Ok & H).
    apply bind_Ok in H as (new & Hn%map_err_Ok & [= <- <-]). eauto.
  - intros (-> & Hn & previous & Hp & Hc). rewrite Hp. cbn [map_err mbind result_bind].
    rewrite Hn. cbn. rewrite <-Hc. by destruct reconciled.
Qed.

(** Dropping the entry of [id] with its plugin. *)
Lemma filter_entries_ids (entries : list (LoadedPluginId * list DeviceDescriptor)) id :
  NoDup entries.*1 → NoDup (filter (λ e, e.1 ≠ id) entries).*1.
Proof.
  intros H. eapply sublist_NoDup; [exact H|]. apply (fmap_sublist fst), sublist_filter.
Qed.

Lemma NoDup_snoc_fmap {A B} (f : A → B) l x :
  NoDup (f <$> l) → f x ∉ f <$> l → NoDup (f <$> l ++ [x]).
Proof.
  intros H1 H2. rewrite fmap_app. apply NoDup_app. split_and!; [done| |apply NoDup_singleton].
  intros y Hy ->%list_elem_of_singleton. done.
Qed.

(** A fresh identifier names no plugin and no entry. *)
Definition fresh_id (pm : PluginManager) (id : LoadedPluginId) : Prop :=
  id ∉ lp_id <$> pm_loaded pm ∧ id ∉ (pts_descriptors_by_plugin (pm_topology pm)).*1.

Lemma zip_parts {A B C} (l : list (A * B * C)) :
  zip (zip ((λ p, p.1.1) <$> l) ((λ p, p.1.2) <$> l)) (snd <$> l) = l.
Proof. induction l as [|[[a b] c] l IH]; cbn; [done|]. by rewrite IH. Qed.

Lemma find_app {A} (f : A → bool) l1 l2 :
  List.find f (l1 ++ l2) = match List.find f l1 with Some x => Some x | None => List.find f l2 end.
Proof. induction l1 as [|x l1 IH]; cbn; [done|]. by destruct (f x). Qed.

(** A plugin with a fresh identifier joins the arbitration at the end. *)
Lemma inputs_snoc entries loaded p ds :
  lp_id p ∉ entries.*1 → lp_id p ∉ lp_id <$> loaded →
  arbitration_inputs (entries ++ [(lp_id p, ds)]) (loaded ++ [p])
  = arbitration_inputs entries loaded ++ [(lp_id p, lp_metadata p, ds)].
Proof.
  intros He Hl. induction entries as [|e entries IH].
  - cbn. rewrite find_app. destruct (List.find _ _) as [q|] eqn:Hq.
    + apply List.find_some in Hq as [Hq%list_elem_of_In Hid%bool_decide_eq_true].
      destruct Hl. apply list_elem_of_fmap. by exists q.
    + cbn. by rewrite bool_decide_true.
  - cbn [app]. rewrite !inputs_cons, IH by set_solver. rewrite find_app.
    destruct (List.find _ _) as [q|]; [done|]. cbn. rewrite bool_decide_false; [done|set_solver].
Qed.

Lemma validate_startup_candidate_Ok mds ids dss id md ds owners :
  validate_startup_candidate mds ids dss id md ds = Ok owners →
  owners = arbitrate_ownership_by_id (zip (zip ids mds) dss ++ [(id, md, ds)]).
Proof. unfold validate_startup_candidate. intros H. by apply bind_Ok in H as (? & _ & [= <-]). Qed.

Lemma load_plugin_Ok spawned id p ds :
  load_plugin spawned id = Ok (p, ds) →
  lp_id p = id ∧ report_ok ds ∧ spawned = Ok (lp_metadata p, ds).
Proof.
  unfold load_plugin. intros H. apply bind_Ok in H as ([md ds'] & ->%map_err_Ok & H).
  apply bind_Ok in H as (devices & Hn%context_Ok & [= <- ->]).
  split_and!; [done| |done]. apply is_ok_true. eauto.
Qed.

(** The topology and the plugins with [p] added. *)
Lemma extended_inv cat loaded topology shm shmc p ds :
  pm_inv (Build_PluginManager cat loaded topology shm shmc) →
  fresh_id (Build_PluginManager cat loaded topology shm shmc) (lp_id p) →
  report_ok ds →
  let candidate := {|
    pts_descriptors_by_plugin := pts_descriptors_by_plugin topology ++ [(lp_id p, ds)];
    pts_owner_by_device := arbitrate_ownership_by_id
      (arbitration_inputs (pts_descriptors_by_plugin topology) loaded
         ++ [(lp_id p, lp_metadata p, ds)]) |} in
  is_ok (owned_devices candidate) = true →
  pm_inv (Build_PluginManager cat (loaded ++ [p]) candidate shm shmc).
Proof.
  intros [Hi [Hei Hrep _ _]] [Hfl Hfe] Hr candidate Hok. unfold candidate in *.
  cbn -[owned_devices] in *. rewrite <-inputs_snoc in Hok |- * by done.
  constructor; cbn; [by apply NoDup_snoc_fmap|].
  apply arbitrated_inv; [by apply NoDup_snoc_fmap..| |done].
  intros e [He| ->%list_elem_of_singleton]%elem_of_app; [by apply Hrep|done].
Qed.

(** *** Startup *)

Definition started (catalogue : list PluginCatalogueEntry) (st : Startup) : PluginManager := {|
  pm_catalogue := catalogue;
  pm_loaded := fst <$> su_loaded st;
  pm_topology := {|
    pts_descriptors_by_plugin := (λ p, (lp_id p.1, p.2)) <$> su_loaded st;
    pts_owner_by_device := su_owner_by_device st |};
  pm_shm := ∅;
  pm_shm_client := ∅ |}.

Lemma entry_ids (l : list (LoadedPlugin * list DeviceDescriptor)) :
  ((λ p, (lp_id p.1, p.2)) <$> l).*1 = lp_id <$> l.*1.
Proof. by rewrite <-!list_fmap_compose. Qed.

Lemma inputs_all (l : list (LoadedPlugin * list DeviceDescriptor)) :
  NoDup (lp_id <$> l.*1) →
  arbitration_inputs ((λ p, (lp_id p.1, p.2)) <$> l) l.*1
  = (λ p, (lp_id p.1, lp_metadata p.1, p.2)) <$> l.
Proof.
  induction l as [|p l IH] using rev_ind; [done|]. rewrite !fmap_app. cbn.
  intros (Hnd & Hd & _)%NoDup_app.
  assert (lp_id p.1 ∉ lp_id <$> l.*1) as Hp by (intros H; apply (Hd _ H); by left).
  rewrite inputs_snoc; [by rewrite IH|by rewrite entry_ids|done].
Qed.

Lemma zip_started (l : list (LoadedPlugin * list DeviceDescriptor)) :
  zip (zip ((λ p, lp_id p.1) <$> l) ((λ p, lp_metadata p.1) <$> l)) (snd <$> l)
  = (λ p, (lp_id p.1, lp_metadata p.1, p.2)) <$> l.
Proof. induction l as [|p l IH]; cbn; [done|]. by rewrite IH. Qed.

(** What an entry adds to the startup state: nothing, or its plugin. *)
Definition startup_names (st : Startup) : list string := lp_name <$> (su_loaded st).*1.
Definition grown (id : LoadedPluginId) (st st' : Startup) : Prop :=
  su_loaded st' = su_loaded st ∨
  ∃ p ds, lp_id p = id ∧ lp_name p ∉ startup_names st ∧ su_loaded st' = su_loaded st ++ [(p, ds)].

Lemma skip_Ok st entry e entry' st' : skip st entry e = Ok (entry', st') → st' = st.
Proof. unfold skip. destruct (pce_required entry); congruence. Qed.

Lemma accept_candidate_inv cat st entry p ds entry' st' :
  pm_inv (started cat st) → fresh_id (started cat st) (lp_id p) → report_ok ds →
  accept_candidate st entry p ds = Ok (entry', st') →
  pm_inv (started cat st') ∧ grown (lp_id p) st st'.
Proof.
  intros Hinv Hfresh Hr. unfold accept_candidate.
  destruct (_ || _); [intros ->%skip_Ok; by split; [|left]|].
  destruct (existsb _ _) eqn:Hdup; [intros ->%skip_Ok; by split; [|left]|].
  destruct (validate_startup_candidate _ _ _ _ _ _) as [owners|[|e]] eqn:Hv;
    [|done|intros ->%skip_Ok; by split; [|left]].
  intros [= <- <-]. split.
  2:{ right. exists p, ds. split_and!; [done| |done].
      intros (q & Heq & (x & -> & Hx)%list_elem_of_fmap)%list_elem_of_fmap.
      assert (existsb (λ p0, bool_decide (lp_name p0.1 = lpm_name (lp_metadata p))) (su_loaded st)
        = true) as Hd; [|congruence].
      apply existsb_exists. exists x. split; [by apply list_elem_of_In|].
      apply bool_decide_eq_true. by symmetry. }
  pose proof Hv as Ho%validate_startup_candidate_Ok.
  unfold validate_startup_candidate in Hv. apply bind_Ok in Hv as (devices & Hok%context_Ok & _).
  rewrite zip_started in Ho, Hok. pose proof (pmi_ids _ Hinv) as Hi. cbn in Hi.
  rewrite <-(inputs_all (su_loaded st) Hi) in Ho.
  unfold started. cbn [su_loaded su_owner_by_device]. rewrite !fmap_app. subst owners.
  eapply extended_inv in Hinv; [exact Hinv|exact Hfresh|exact Hr|].
  apply is_ok_true. exists devices. unfold owned_devices. cbn [pts_owner_by_device pts_descriptors_by_plugin].
  rewrite (inputs_all (su_loaded st) Hi). rewrite <-Hok. do 2 f_equal.
  rewrite fmap_app. cbn. f_equal. by rewrite <-list_fmap_compose.
Qed.

Lemma load_entry_inv cat st entry spawned id entry' st' :
  pm_inv (started cat st) → fresh_id (started cat st) id →
  load_entry st entry spawned id = Ok (entry', st') →
  pm_inv (started cat st') ∧ grown id st st'.
Proof.
  intros Hinv Hfresh. unfold load_entry.
  destruct (negb _); [intros [= <- <-]; by split; [|left]|].
  destruct (match pce_runtime entry with Runtime_Failed _ => true | _ => false end);
    [intros [= <- <-]; by split; [|left]|].
  intros H. apply bind_Ok in H as (outcome & Hout & H).
  destruct outcome as [[p ds]|]; [|injection H as <- <-; by split; [|left]].
  assert (load_plugin spawned id = Ok (p, ds)) as (Hid & Hr & _)%load_plugin_Ok.
  { unfold classify_load_outcome in Hout.
    destruct (load_plugin _ _) as [?|[|]]; [congruence|done|by destruct (pce_required entry)]. }
  subst id. by eapply accept_candidate_inv.
Qed.

Lemma grown_ids id st st' :
  grown id st st' → ∀ x, x ∈ lp_id <$> (su_loaded st').*1 → x = id ∨ x ∈ lp_id <$> (su_loaded st).*1.
Proof.
  intros [->|(p & ds & <- & _ & ->)] x; [by right|]. rewrite !fmap_app, elem_of_app. cbn. set_solver.
Qed.

Lemma started_fresh cat st id :
  id ∉ lp_id <$> (su_loaded st).*1 → fresh_id (started cat st) id.
Proof. intros H. split; [done|]. cbn [started pm_topology pts_descriptors_by_plugin]. by rewrite entry_ids. Qed.

Lemma grown_names id st st' :
  grown id st st' → NoDup (startup_names st) → NoDup (startup_names st').
Proof.
  unfold startup_names. intros [->|(p & ds & _ & Hn & ->)] Hnd; [done|].
  rewrite fmap_app. by apply (NoDup_snoc_fmap lp_name).
Qed.

Lemma load_entries_inv cat st entries n spawned ids entries' st' :
  pm_inv (started cat st) → NoDup (startup_names st) → (∀ i j, ids i = ids j → i = j) →
  (∀ i, n ≤ i → ids i ∉ lp_id <$> (su_loaded st).*1) →
  load_entries st entries n spawned ids = Ok (entries', st') →
  pm_inv (started cat st') ∧ NoDup (startup_names st').
Proof.
  revert st n entries'.
  induction entries as [|entry entries IH]; intros st n entries' Hinv Hnames Hinj Hfresh.
  { intros [= _ <-]. done. }
  cbn [load_entries]. intros H. apply bind_Ok in H as ([entry1 st1] & H1 & H).
  apply bind_Ok in H as ([entries2 st2] & H2 & [= _ <-]).
  apply (load_entry_inv cat) in H1 as [Hinv1 Hgrown]; [|done|by apply started_fresh, Hfresh].
  eapply IH; [exact Hinv1|by eapply grown_names|done| |exact H2].
  intros i Hi [Heq|Hin]%(grown_ids _ _ _ Hgrown); [apply Hinj in Heq; lia|].
  apply (Hfresh i); [lia|done].
Qed.

(** Startup establishes the invariant, and loads no two plugins of one name. *)
Lemma load_inv catalogue spawned ids pm :
  (∀ i j, ids i = ids j → i = j) → load catalogue spawned ids = Ok pm →
  pm_inv pm ∧ NoDup (plugin_names pm).
Proof.
  intros Hinj H. unfold load in H. apply bind_Ok in H as ([cat st] & H & [= <-]).
  change (pm_inv (started cat st) ∧ NoDup (startup_names st)).
  eapply load_entries_inv; [| |exact Hinj| |exact H].
  - constructor; cbn; [constructor|]. constructor; cbn; [constructor| |done|]; set_solver.
  - constructor.
  - cbn. intros i _. apply not_elem_of_nil.
Qed.

(** ** Witnesses *)

Module Loaded.
Definition metadata (name : string) (priority : Z) : LoadedPluginMetadata :=
  {| lpm_name := name; lpm_version := "1"; lpm_priority := priority;
     lpm_recommended_reconciliation := None |}.
Definition entry (name : string) : PluginCatalogueEntry := {|
  pce_name := name; pce_version := "1"; pce_path := name; pce_required := true;
  pce_effective_enabled := true;
  pce_effective_reconciliation := None; pce_runtime := Runtime_Inactive |}.
Definition spawned (n : nat) : Spawned :=
  match n with
  | 0 => Ok (metadata "razer" 5, [Described.device "kbd" Described.nested])
  | _ => Ok (metadata "openrgb" 1, [Described.device "kbd" []; Described.device "strip" []])
  end.
Definition ids (n : nat) : LoadedPluginId := {| LoadedPluginId_uuid := N.of_nat n |}.

(** Two plugins that both report the keyboard. *)
Definition manager : PluginManager := {|
  pm_catalogue := (λ e, set_runtime e Runtime_Loaded) <$> [entry "razer"; entry "openrgb"];
  pm_loaded := [{| lp_id := ids 0; lp_metadata := metadata "razer" 5 |};
                {| lp_id := ids 1; lp_metadata := metadata "openrgb" 1 |}];
  pm_topology := {|
    pts_descriptors_by_plugin :=
      [(ids 0, [Described.device "kbd" Described.nested]);
       (ids 1, [Described.device "kbd" []; Described.device "strip" []])];
    pts_owner_by_device := {["kbd"%string := ids 0; "strip"%string := ids 1]} |};
  pm_shm := ∅;
  pm_shm_client := ∅ |}.

Definition capability : ShmFrameCapability :=
  {| shm_pixel_formats := [Rgb8]; shm_shape := Shape_Linear 3; shm_max_rate_hz := None |}.
Definition streaming : PluginManager :=
  (begin_shm_stream manager (TargetId_Device (DeviceId_new "strip")) capability 1
     (λ _, Ok (Shm_Ready 64)) true 0).2.
End Loaded.

Lemma manager_loaded :
  load [Loaded.entry "razer"; Loaded.entry "openrgb"] Loaded.spawned Loaded.ids = Ok Loaded.manager.
Proof. by vm_compute. Qed.

Lemma loaded_ids_injective i j : Loaded.ids i = Loaded.ids j → i = j.
Proof. intros [= H]. lia. Qed.
