(* ===== verification/PluginRuns.v ===== *)
(** * Concurrent operations of the plugin manager

    The operations of [PluginManager.v] run in the threads of concurrent requests and of
    the daemon's own tasks.  A [Config] is the manager with the operations in flight and
    the identifiers generated so far; [config_step] starts an operation or advances one
    of them by a critical section, a host call or a new identifier, so that reachable
    configurations are those of every interleaving.  [safe] says of an operation that its
    critical sections keep the invariant, whatever happened before each of them, given
    the identifiers that only it may still add; the claims about single operations run
    them [alone]. *)

From stdpp Require Import functions.
From S2P Require Import Prelude Model Daemon Topology Descriptors Normalize Ownership PluginManager.

(** ** What a commit keeps *)

Definition loaded_ids (pm : PluginManager) : list LoadedPluginId := lp_id <$> pm_loaded pm.
Definition entry_ids (topology : PluginTopologyState) : list LoadedPluginId :=
  (pts_descriptors_by_plugin topology).*1.

Lemma accept_report_Ok name answer ds :
  accept_report name answer = Ok ds → answer = Ok ds ∧ report_ok ds.
Proof.
  unfold accept_report. intros H. apply bind_Ok in H as (ds' & ->%map_err_Ok & H).
  apply bind_Ok in H as (devices & Hok%context_Ok & [= ->]). split; [done|].
  unfold report_ok. by rewrite Hok.
Qed.

Lemma reload_outcome_Ok answer ds :
  reload_outcome answer = Ok ds → answer = Ok ds ∧ report_ok ds.
Proof.
  unfold reload_outcome. intros H. apply bind_Ok in H as (ds' & ->%map_err_Ok & H).
  apply bind_Ok in H as (devices & Hok & [= ->]). split; [done|].
  unfold report_ok. by rewrite Hok.
Qed.

Lemma replace_report_Ok name id ds loaded topology r t :
  replace_report name id ds loaded topology = Ok (r, t) →
  ∃ previous entries,
    owned_devices topology = Ok previous ∧
    replace_entry id ds (pts_descriptors_by_plugin topology) = Some entries ∧
    t = {| pts_descriptors_by_plugin := entries;
           pts_owner_by_device := arbitrate_ownership_by_id (arbitration_inputs entries loaded) |} ∧
    owned_devices t = Ok (tr_devices r) ∧
    tr_changed_devices r = changed_device_ids previous (tr_devices r).
Proof.
  unfold replace_report. cbv zeta. intros H. apply bind_Ok in H as (previous & Hp & H).
  apply bind_Ok in H as (entries & He%ok_or_Ok & H). apply bind_Ok in H as (devices & Hd & [= <- <-]).
  by exists previous, entries.
Qed.

Lemma replace_report_inv name id ds loaded topology r t :
  NoDup (lp_id <$> loaded) → topology_inv topology → report_ok ds →
  replace_report name id ds loaded topology = Ok (r, t) →
  topology_inv t ∧ entry_ids t = entry_ids topology.
Proof.
  intros Hl [Hi Hrep _ _] Hr (previous & entries & _ & He & -> & Hok & _)%replace_report_Ok.
  apply replace_entry_spec in He as [Hids Hin]. split; [|done]. apply arbitrated_inv; [done| | |].
  - by rewrite Hids.
  - intros e [->|He]%Hin; [done|by apply Hrep].
  - apply is_ok_true. eauto.
Qed.

(** A commit of accepted reports with distinct identifiers. *)
Lemma commit_candidate_inv topology loaded entries invalid r t :
  NoDup (lp_id <$> loaded) → NoDup entries.*1 → (∀ e, e ∈ entries → report_ok e.2) →
  commit_candidate topology loaded entries invalid = Ok (r, t) →
  topology_inv t ∧ entry_ids t = entries.*1.
Proof.
  intros Hl He Hr (-> & Hok & _)%commit_candidate_Ok. split; [|done].
  apply arbitrated_inv; [done..|]. apply is_ok_true. eauto.
Qed.

Lemma withdraw_report_Ok removed remaining topology c t :
  withdraw_report removed remaining topology = Ok (c, t) ↔
  commit_candidate topology remaining
    (filter (λ e, e.1 ≠ removed) (pts_descriptors_by_plugin topology))
    "post-unload aggregate topology is invalid: {error:#}" = Ok (c.1, t) ∧
  c.2 = from_option snd []
    (List.find (λ e, bool_decide (e.1 = removed)) (pts_descriptors_by_plugin topology)).
Proof.
  unfold withdraw_report. cbv zeta. destruct c as [r ds]. split.
  - intros H. apply bind_Ok in H as ([r' t'] & H & [= <- <- <-]). done.
  - cbn [fst snd]. intros [-> ->]. done.
Qed.

Lemma withdraw_report_inv removed remaining topology c t :
  NoDup (lp_id <$> remaining) → topology_inv topology →
  withdraw_report removed remaining topology = Ok (c, t) →
  topology_inv t ∧ entry_ids t ⊆ entry_ids topology.
Proof.
  intros Hl [Hi Hrep _ _] [H _]%withdraw_report_Ok. apply commit_candidate_inv in H as [Ht Hids]; [|done|by apply filter_entries_ids|].
  - split; [done|]. rewrite Hids. intros id (e & -> & [_ He]%list_elem_of_filter)%list_elem_of_fmap.
    apply list_elem_of_fmap. eauto.
  - intros e [_ He]%list_elem_of_filter. by apply Hrep.
Qed.

Lemma restart_report_inv old_id new_id ds remaining topology r t :
  NoDup (lp_id <$> remaining) → topology_inv topology → report_ok ds → new_id ∉ entry_ids topology →
  restart_report old_id new_id ds remaining topology = Ok (r, t) →
  topology_inv t ∧ entry_ids t ⊆ new_id :: entry_ids topology.
Proof.
  intros Hl [Hi Hrep _ _] Hds Hnew H.
  assert (∀ id, id ∈ (filter (λ e, e.1 ≠ old_id) (pts_descriptors_by_plugin topology)).*1 →
    id ∈ entry_ids topology) as Hsub.
  { intros id (e & -> & [_ He]%list_elem_of_filter)%list_elem_of_fmap. apply list_elem_of_fmap. eauto. }
  apply commit_candidate_inv in H as [Ht Hids]; [|done| |].
  - split; [done|]. rewrite Hids, fmap_app. cbn. intros id. rewrite elem_of_app. set_solver.
  - apply NoDup_snoc_fmap; [by apply filter_entries_ids|]. intros Hin. by apply Hnew, Hsub.
  - intros e [[_ He]%list_elem_of_filter| ->%list_elem_of_singleton]%elem_of_app; [by apply Hrep|done].
Qed.

Lemma admit_plugin_inv cat loaded topology shm shmc name p ds r t :
  let pm := Build_PluginManager cat loaded topology shm shmc in
  pm_inv pm → fresh_id pm (lp_id p) → report_ok ds →
  admit_plugin name p ds loaded topology = Ok (r, t) →
  pm_inv (Build_PluginManager cat (loaded ++ [p]) t shm shmc) ∧
  entry_ids t ⊆ lp_id p :: entry_ids topology.
Proof.
  intros pm Hinv Hfresh Hr H. unfold admit_plugin in H. cbv zeta in H.
  apply bind_unit_Ok in H as [_ H]. apply bind_Ok in H as (previous & _ & H).
  apply bind_Ok in H as (owners & Ho%validate_startup_candidate_Ok & H). rewrite zip_parts in Ho.
  apply bind_Ok in H as (devices & Hok%context_Ok & [= <- <-]). subst owners. split.
  - apply extended_inv; [done..|]. apply is_ok_true. eauto.
  - unfold entry_ids. cbn. rewrite fmap_app. cbn. intros id. rewrite elem_of_app. set_solver.
Qed.

(** ** Operations that keep the invariant *)

(** What a critical section does with identifiers that only its operation may add: it adds
    no others, and those that remain to be added are still fresh. *)
Definition spent (fresh fresh' before after : list LoadedPluginId) : Prop :=
  after ⊆ before ++ fresh ∧ fresh' ⊆ fresh ∧ fresh' ## after.

(** Every critical section of the operation keeps the invariant, in whatever state the
    others left the manager; [l] and [e] are the identifiers that the operation may still
    add to the loaded plugins and to the topology entries. *)
Fixpoint safe {A} (op : pm_op A) (l e : list LoadedPluginId) : Prop :=
  match op with
  | OpDone _ => True
  | Locking f k =>
      ∀ pm, pm_inv pm → l ## loaded_ids pm → e ## entry_ids (pm_topology pm) →
        pm_inv (f pm).1 ∧
        ∃ l' e', spent l l' (loaded_ids pm) (loaded_ids (f pm).1) ∧
          spent e e' (entry_ids (pm_topology pm)) (entry_ids (pm_topology (f pm).1)) ∧
          safe (k (f pm).2) l' e'
  | AskTopology _ k | AskReload _ k => ∀ answer, safe (k answer) l e
  | Spawning _ k => ∀ spawned, safe (k spawned) l e
  | NewId k => ∀ id, safe (k id) (id :: l) (id :: e)
  end.

Lemma spent_keep fresh before after :
  fresh ## before → after ⊆ before → spent fresh fresh before after.
Proof. intros Hd Hs. split_and!; [|done|]; set_solver. Qed.
Lemma spent_all id fresh before after :
  after ⊆ id :: before → id ∈ fresh → spent fresh [] before after.
Proof. intros Hs Hid. split_and!; set_solver. Qed.

Lemma manager_safe_weaken {A} (op : pm_op A) l e l2 e2 :
  safe op l e → l ⊆ l2 → e ⊆ e2 → safe op l2 e2.
Proof.
  revert l e l2 e2.
  induction op as [a|X f k IH|p k IH|p k IH|n k IH|k IH]; intros l e l2 e2; cbn [safe]; eauto.
  - intros H Hl He pm Hinv Hdl Hde. destruct (H pm Hinv) as (Hinv' & l' & e' & Hsl & Hse & Hk).
    { set_solver. } { set_solver. }
    split; [done|]. exists l', e'. unfold spent in *. split_and!; [set_solver..|done].
  - intros H Hl He id. eapply IH; [apply H|set_solver..].
Qed.

Lemma manager_safe_bind {A B} (h : A → pm_op B) (op : pm_op A) l e :
  safe op l e → (∀ a, safe (h a) [] []) → safe (op ≫= h) l e.
Proof.
  intros Hop Hh. revert l e Hop.
  induction op as [a|X f k IH|p k IH|p k IH|n k IH|k IH]; intros l e; cbn; eauto.
  - intros _. by eapply manager_safe_weaken; [apply Hh|..]; apply list_subseteq_nil.
  - intros H pm Hinv Hdl Hde. destruct (H pm Hinv Hdl Hde) as (Hinv' & l' & e' & ? & ? & Hk). eauto 8.
Qed.

(** A critical section that adds no identifier. *)
Lemma safe_locking {A X} (f : PluginManager → PluginManager * X) (k : X → pm_op A) l e :
  (∀ pm, pm_inv pm →
    pm_inv (f pm).1 ∧ loaded_ids (f pm).1 ⊆ loaded_ids pm ∧
    entry_ids (pm_topology (f pm).1) ⊆ entry_ids (pm_topology pm) ∧ safe (k (f pm).2) l e) →
  safe (Locking f k) l e.
Proof.
  intros H pm Hinv Hl He. destruct (H pm Hinv) as (Hinv' & Hsl & Hse & Hk). split; [done|].
  exists l, e. split_and!; [by apply spent_keep..|done].
Qed.

(** One that only reads, one that writes neither the loaded plugins nor the topology, and
    one that commits a topology. *)
Lemma manager_safe_reading {A X} (f : PluginManager → X) (k : X → pm_op A) l e :
  (∀ pm, pm_inv pm → safe (k (f pm)) l e) → safe (Locking (λ pm, (pm, f pm)) k) l e.
Proof. intros Hk. apply safe_locking. intros pm Hinv. cbn. auto. Qed.
Lemma safe_frame {A X} (f : PluginManager → PluginManager * X) (k : X → pm_op A) l e :
  (∀ pm, pm_loaded (f pm).1 = pm_loaded pm ∧ pm_topology (f pm).1 = pm_topology pm) →
  (∀ x, safe (k x) l e) → safe (Locking f k) l e.
Proof.
  intros Hf Hk. apply safe_locking. intros pm Hinv. destruct (Hf pm) as [Hl Ht].
  unfold loaded_ids. rewrite Hl, Ht. split_and!; [by eapply pm_inv_frame|done..].
Qed.
Lemma safe_committing {E R A} (f : PluginTopologyState → result E (R * PluginTopologyState))
    (k : result E R → pm_op A) l e :
  (∀ topology r t, topology_inv topology → f topology = Ok (r, t) →
    topology_inv t ∧ entry_ids t ⊆ entry_ids topology) →
  (∀ r, safe (k r) l e) → safe (committing f ≫= k) l e.
Proof.
  intros Hf Hk. apply safe_locking. intros pm Hinv.
  destruct (f (pm_topology pm)) as [[r t]|error] eqn:Hr; cbn; [|auto].
  destruct (Hf _ _ _ (pmi_topology _ Hinv) Hr) as [Ht Hs].
  split_and!; [by apply pm_inv_set_topology|by destruct pm|by destruct pm|apply Hk].
Qed.
Lemma safe_finished {A} (a : A) l e : safe (OpDone a) l e.
Proof. done. Qed.
Lemma safe_or_finish {E A B} (r : result E A) (k : A → pm_op (result E B)) l e :
  (∀ a, r = Ok a → safe (k a) l e) → safe (or_finish r k) l e.
Proof. destruct r; cbn; auto. Qed.
Lemma safe_each {A} (f : A → pm_op unit) xs :
  (∀ x, safe (f x) [] []) → safe (op_each f xs) [] [].
Proof. intros Hf. induction xs as [|x xs IH]; [done|]. by apply manager_safe_bind. Qed.
Lemma safe_setting_runtime name runtime : safe (setting_runtime name runtime) [] [].
Proof. apply safe_frame; [|done]. intros pm. apply runtime_frame. Qed.

Lemma pm_inv_snapshot pm : pm_inv pm → NoDup (lp_id <$> pm_loaded pm).
Proof. apply pmi_ids. Qed.
#[local] Hint Resolve pm_inv_snapshot : core.

Lemma safe_reconcile name : safe (reconcile_plugin_topology name) [] [].
Proof.
  apply manager_safe_reading. intros pm Hinv. apply safe_or_finish. intros plugin _ answer.
  apply safe_or_finish. intros ds [_ Hds]%accept_report_Ok.
  apply (safe_committing _ OpDone); [|done]. intros topology r t Ht H.
  eapply replace_report_inv in H as [? ->]; eauto.
Qed.

Lemma safe_looking_up device : safe (looking_up device) [] [].
Proof.
  apply manager_safe_reading. intros pm _. apply safe_or_finish. intros owner _.
  by apply manager_safe_reading.
Qed.
Lemma safe_ending_shm target : safe (ending_shm target) [] [].
Proof.
  apply manager_safe_bind; [apply safe_looking_up|]. intros [plugin|error]; [|done].
  apply safe_frame; [|done]. by intros [].
Qed.
Lemma safe_ending_shm_client target : safe (ending_shm_client target) [] [].
Proof.
  apply safe_frame; [|done]. intros pm. unfold force_end_shm_client.
  destruct (_ !! _); by destruct pm.
Qed.

Lemma safe_unload name : safe (unload_plugin name) [] [].
Proof.
  apply safe_locking. intros pm Hinv.
  destruct (remove_named name (pm_loaded pm)) as [[removed remaining]|] eqn:Hr; cbn [fst snd]; [|done].
  apply remove_named_spec in Hr as (_ & Hsub & _).
  split_and!; [by apply pm_inv_drop| |by destruct pm|].
  { destruct pm. cbn. by apply sublist_subseteq, (fmap_sublist lp_id). }
  apply (manager_safe_reading pm_loaded). clear. intros pm Hinv. apply (safe_committing _ _ [] []).
  { intros topology c t Ht H. eapply withdraw_report_inv; eauto. }
  intros c. apply safe_or_finish. intros [r ds] _. cbv zeta.
  apply manager_safe_bind; [apply safe_each, safe_ending_shm|]. intros [].
  apply manager_safe_bind; [apply safe_each, safe_ending_shm_client|]. intros [].
  by apply manager_safe_bind; [apply safe_setting_runtime|].
Qed.

(** The restarted plugin joins the loaded ones under its new identifier. *)
Lemma pushed_inv pm p :
  pm_inv pm → lp_id p ∉ loaded_ids pm → pm_inv (set_loaded pm (pm_loaded pm ++ [p])).
Proof.
  destruct pm. intros [Hi Ht] Hp. constructor; [|done]. by apply (NoDup_snoc_fmap lp_id).
Qed.

Lemma safe_reload name : safe (reload_plugin name) [] [].
Proof.
  apply (manager_safe_reading pm_loaded). intros pm0 _. apply safe_or_finish. intros old _ answer.
  apply safe_locking. intros pm Hinv.
  split_and!; [apply pm_inv_drop; [done|apply sublist_filter]| |by destruct pm|].
  { destruct pm. cbn. apply sublist_subseteq, (fmap_sublist lp_id), sublist_filter. }
  cbn [snd]. clear pm Hinv. destruct (reload_outcome answer) as [ds|[|diagnostic]] eqn:Hout; [|done|].
  2:{ by apply manager_safe_bind; [apply safe_setting_runtime|]. }
  apply reload_outcome_Ok in Hout as [_ Hds]. intros new_id pm Hinv Hl He. cbn [fst snd].
  split; [apply pushed_inv; [done|cbn; set_solver]|]. exists [], [new_id]. split_and!.
  - eapply spent_all; [|by left]. destruct pm. unfold loaded_ids. cbn. rewrite fmap_app. set_solver.
  - destruct pm. by apply spent_keep.
  - clear pm Hinv Hl He. apply safe_frame; [intros pm; apply runtime_frame|]. intros [].
    apply (manager_safe_reading pm_loaded). intros pm1 Hinv1 pm Hinv Hl He.
    destruct (restart_report _ _ _ _ _) as [[r t]|error] eqn:Hr; cbn [fst snd].
    + apply restart_report_inv in Hr as [Ht Hs]; [|by apply pmi_ids|apply Hinv|done|set_solver].
      split; [by apply pm_inv_set_topology|]. exists [], []. split_and!; [|by destruct pm; eapply spent_all; [|left]|done].
      destruct pm. by apply spent_keep.
    + split; [done|]. exists [], [new_id]. split_and!; [by apply spent_keep..|done].
Qed.

Lemma safe_activate name : safe (activate_plugin name) [] [].
Proof.
  apply manager_safe_reading. intros pm _. apply safe_or_finish. intros entry _.
  apply manager_safe_bind; [apply safe_setting_runtime|]. intros [] spawned id.
  apply safe_or_finish. intros [p ds] (<- & Hds & _)%load_plugin_Ok.
  apply safe_or_finish. intros [] _. clear pm entry. intros [cat loaded topology shm shmc] Hinv Hl He.
  unfold loaded_ids in *. cbn [pm_loaded pm_topology] in *.
  destruct (admit_plugin _ _ _ _ _) as [[r t]|error] eqn:Hr; cbn [fst snd].
  - destruct (admit_plugin_inv cat loaded topology shm shmc name p ds r t Hinv) as [Hinv' Hs];
      [|done|done|].
    { unfold entry_ids in He. split; cbn; set_solver. }
    split; [done|]. exists [], []. split_and!; [|by eapply spent_all; [|left]|].
    + eapply (spent_all (lp_id p)); [|by left]. unfold loaded_ids. cbn. rewrite fmap_app. set_solver.
    + apply (safe_frame _ _ [] []); [intros pm; apply runtime_frame|done].
  - split; [done|]. exists [lp_id p], [lp_id p]. split_and!; [by apply spent_keep..|done].
Qed.

Lemma safe_action name action : safe (run_managed_plugin_action name action) [] [].
Proof.
  destruct action; cbn [run_managed_plugin_action].
  - by apply manager_safe_bind; [apply safe_activate|].
  - by apply manager_safe_bind; [apply safe_unload|].
  - apply manager_safe_bind; [apply safe_unload|]. intros [r|error]; [|done].
    by apply manager_safe_bind; [apply safe_activate|].
Qed.
Lemma safe_actions actions acc : safe (run_actions actions acc) [] [].
Proof.
  revert acc. induction actions as [|[name action] actions IH]; intros [[latest changed] activated]; [done|].
  cbn [run_actions]. apply manager_safe_bind; [apply safe_action|]. intros outcome.
  destruct (fold_left _ _ _) as [changed' latest']. apply manager_safe_bind; [|intros []; apply IH].
  destruct (mao_error outcome); [apply safe_setting_runtime|done].
Qed.
Lemma safe_managed changes : safe (reconcile_managed_plugins changes) [] [].
Proof.
  apply manager_safe_reading. intros pm _. apply manager_safe_bind; [apply safe_actions|].
  by intros [[latest changed] activated].
Qed.
Lemma safe_reload_all : safe reload_all [] [].
Proof.
  apply manager_safe_reading. intros pm _. generalize (plugin_names pm) as names.
  induction names as [|name names IH]; [done|]. cbn [reload_names].
  apply manager_safe_bind; [apply safe_reload|]. intros r. by apply manager_safe_bind.
Qed.

(** *** Streams *)

(** The operations of [streams.rs], which [PluginManager.v] has as single functions, with the
    lookup of the plugin and the access to the registry of streams apart. *)
Definition beginning_shm (target : TargetId) (capability : ShmFrameCapability) (generation : Z)
    (outcome : LoadedPlugin → result Text ShmStreamOutcome) (opened : bool)
    (connection_epoch : Z) : pm_op bool :=
  r ← looking_up (DeviceId_as_str (TargetId_device_id target));
  match r, head (shm_pixel_formats capability) with
  | Ok plugin, Some format =>
      match outcome plugin with
      | Ok (Shm_Ready _) =>
          if opened
          then Locking (λ pm,
                 (set_shm pm (<[stream_key target :=
                                 {| ass_generation := generation; ass_format := format;
                                    ass_connection_epoch := connection_epoch |}]> (pm_shm pm)), true)) OpDone
          else OpDone false
      | _ => OpDone false
      end
  | _, _ => OpDone false
  end.

Definition applying_shm (target : TargetId) (envelope : FrameEnvelope) (connection_epoch : Z)
    (sent : bool) : pm_op bool :=
  r ← looking_up (DeviceId_as_str (TargetId_device_id target));
  match r, fe_payload envelope with
  | Ok _, Payload_Full _ =>
      Locking (λ pm,
        match pm_shm pm !! stream_key target with
        | None => (pm, false)
        | Some stream =>
            if negb (ass_generation stream =? fe_generation envelope)%Z then (pm, false)
            else if negb (ass_connection_epoch stream =? connection_epoch)%Z
            then (set_shm pm (delete (stream_key target) (pm_shm pm)), false)
            else (pm, sent)
        end) OpDone
  | _, _ => OpDone false
  end.

Definition ending_shm_stream (target : TargetId) (generation : Z) : pm_op unit :=
  r ← looking_up (DeviceId_as_str (TargetId_device_id target));
  match r with
  | Ok _ =>
      Locking (λ pm,
        match pm_shm pm !! stream_key target with
        | Some stream =>
            if (ass_generation stream =? generation)%Z
            then (set_shm pm (delete (stream_key target) (pm_shm pm)), tt) else (pm, tt)
        | None => (pm, tt)
        end) OpDone
  | Err _ => OpDone tt
  end.

Definition ending_client (target : TargetId) (generation : Z) : pm_op bool :=
  Locking (λ pm, let '(ended, pm) := end_shm_client_stream pm target generation in (pm, ended)) OpDone.

(** [apply_managed_config], under the lock of the catalogue. *)
Definition configuring (f : list PluginCatalogueEntry → list PluginCatalogueEntry) : pm_op unit :=
  Locking (λ pm, (set_catalogue pm (f (pm_catalogue pm)), tt)) OpDone.

Lemma safe_beginning target capability generation outcome opened epoch :
  safe (beginning_shm target capability generation outcome opened epoch) [] [].
Proof.
  apply manager_safe_bind; [apply safe_looking_up|]. intros [plugin|e]; [|done].
  destruct (head _); [|done]. destruct (outcome plugin) as [[]|]; try done.
  destruct opened; [|done]. apply safe_frame; [|done]. by intros [].
Qed.
Lemma safe_applying target envelope epoch sent : safe (applying_shm target envelope epoch sent) [] [].
Proof.
  apply manager_safe_bind; [apply safe_looking_up|]. intros [plugin|e]; [|done].
  destruct (fe_payload envelope); [|done]. apply safe_frame; [|done]. intros pm.
  destruct (_ !! _); [|done]. destruct (negb _); [done|]. destruct (negb _); [|done]. by destruct pm.
Qed.
Lemma safe_ending_stream target generation : safe (ending_shm_stream target generation) [] [].
Proof.
  apply manager_safe_bind; [apply safe_looking_up|]. intros [plugin|e]; [|done].
  apply safe_frame; [|done]. intros pm. destruct (_ !! _); [|done]. destruct (_ =? _)%Z; by destruct pm.
Qed.
Lemma safe_ending_client target generation : safe (ending_client target generation) [] [].
Proof.
  apply safe_frame; [|done]. intros pm. unfold end_shm_client_stream.
  destruct (_ !! _); [|done]. destruct (_ =? _)%Z; by destruct pm.
Qed.

(** ** Every interleaving *)

Inductive pending : Type :=
| Pending {A : Type} (op : pm_op A).

(** The operations of the manager. *)
Inductive manager_op : pending → Prop :=
| op_reconcile name : manager_op (Pending (reconcile_plugin_topology name))
| op_unload name : manager_op (Pending (unload_plugin name))
| op_reload name : manager_op (Pending (reload_plugin name))
| op_reload_all : manager_op (Pending reload_all)
| op_managed changes : manager_op (Pending (reconcile_managed_plugins changes))
| op_activate name : manager_op (Pending (activate_plugin name))
| op_configure f : manager_op (Pending (configuring f))
| op_begin_shm target capability generation outcome opened epoch :
    manager_op (Pending (beginning_shm target capability generation outcome opened epoch))
| op_frame target envelope epoch sent : manager_op (Pending (applying_shm target envelope epoch sent))
| op_end_shm target generation : manager_op (Pending (ending_shm_stream target generation))
| op_end_all_shm targets : manager_op (Pending (op_each ending_shm targets))
| op_end_client target generation : manager_op (Pending (ending_client target generation))
| op_end_all_client targets : manager_op (Pending (op_each ending_shm_client targets)).

Definition pending_safe (p : pending) (l e : list LoadedPluginId) : Prop :=
  match p with Pending op => safe op l e end.

Lemma manager_op_safe p : manager_op p → pending_safe p [] [].
Proof.
  destruct 1; cbn [pending_safe];
    [apply safe_reconcile|apply safe_unload|apply safe_reload|apply safe_reload_all
    |apply safe_managed|apply safe_activate| |apply safe_beginning|apply safe_applying
    |apply safe_ending_stream|apply safe_each, safe_ending_shm|apply safe_ending_client
    |apply safe_each, safe_ending_shm_client].
  apply safe_frame; [|done]. by intros [].
Qed.

(** The manager, the identifiers generated so far, and the operations by thread. *)
Record Config := {
  cf_manager : PluginManager;
  cf_issued : list LoadedPluginId;
  cf_running : nat → option pending
}.

Definition run_with (i : nat) (p : pending) (running : nat → option pending) (j : nat) :
    option pending :=
  if decide (j = i) then Some p else running j.

(** One critical section, one answer of a host, or one new identifier of an operation. *)
Inductive op_step {A} (pm : PluginManager) (issued : list LoadedPluginId) :
    pm_op A → pm_op A → PluginManager → list LoadedPluginId → Prop :=
| step_locking {X} (f : PluginManager → PluginManager * X) k :
    op_step pm issued (Locking f k) (k (f pm).2) (f pm).1 issued
| step_topology plugin k answer :
    op_step pm issued (AskTopology plugin k) (k answer) pm issued
| step_reload plugin k answer :
    op_step pm issued (AskReload plugin k) (k answer) pm issued
| step_spawned name k spawned :
    op_step pm issued (Spawning name k) (k spawned) pm issued
| step_new_id k id :
    id ∉ issued → op_step pm issued (NewId k) (k id) pm (id :: issued).

Inductive config_step (c : Config) : Config → Prop :=
| step_start i p :
    cf_running c i = None → manager_op p →
    config_step c (Build_Config (cf_manager c) (cf_issued c) (run_with i p (cf_running c)))
| step_advance i {A} (op op' : pm_op A) pm' issued' :
    cf_running c i = Some (Pending op) →
    op_step (cf_manager c) (cf_issued c) op op' pm' issued' →
    config_step c (Build_Config pm' issued' (run_with i (Pending op') (cf_running c))).

(** From startup on. *)
Inductive reachable : Config → Prop :=
| reachable_load catalogue spawned ids pm issued :
    (∀ i j, ids i = ids j → i = j) → load catalogue spawned ids = Ok pm →
    loaded_ids pm ⊆ issued → entry_ids (pm_topology pm) ⊆ issued →
    reachable (Build_Config pm issued (λ _, None))
| reachable_step c c' : reachable c → config_step c c' → reachable c'.

(** *** The invariant of the configurations *)

(** What the operations in flight may still add is theirs alone, and new. *)
Definition apart (fresh : nat → list LoadedPluginId) (used issued : list LoadedPluginId) : Prop :=
  (∀ i id, id ∈ fresh i → id ∈ issued ∧ id ∉ used) ∧
  (∀ i j id, id ∈ fresh i → id ∈ fresh j → i = j).

Record config_inv (c : Config) : Prop := {
  ci_manager : pm_inv (cf_manager c);
  ci_loaded : loaded_ids (cf_manager c) ⊆ cf_issued c;
  ci_entries : entry_ids (pm_topology (cf_manager c)) ⊆ cf_issued c;
  ci_running : ∃ l e,
    (∀ i p, cf_running c i = Some p → pending_safe p (l i) (e i)) ∧
    apart l (loaded_ids (cf_manager c)) (cf_issued c) ∧
    apart e (entry_ids (pm_topology (cf_manager c))) (cf_issued c)
}.

Lemma apart_disjoint fresh used issued i : apart fresh used issued → fresh i ## used.
Proof. intros [H _] id Hi. by apply (H i id). Qed.

Lemma apart_spent fresh fresh' i used used' issued :
  apart fresh used issued → used ⊆ issued → spent (fresh i) fresh' used used' →
  apart (<[i := fresh']> fresh) used' issued ∧ used' ⊆ issued.
Proof.
  intros [Hnew Hown] Hused (Hadd & Hsub & Hd). split; [split|].
  - intros j id. destruct (decide (i = j)) as [->|Hne].
    + rewrite fn_lookup_insert. intros Hid. split; [by apply (Hnew j), Hsub|by intros ?%(Hd id)].
    + rewrite fn_lookup_insert_ne by done. intros Hid. destruct (Hnew j id Hid) as [? Hu].
      split; [done|]. intros [?|Hi]%Hadd%elem_of_app; [done|]. by destruct Hne; apply (Hown _ _ id).
  - assert (∀ j id, id ∈ (<[i := fresh']> fresh) j → id ∈ fresh j) as Hmono.
    { intros j id. destruct (decide (i = j)) as [->|Hne]; [rewrite fn_lookup_insert; apply Hsub|].
      by rewrite fn_lookup_insert_ne. }
    intros j k id Hj%Hmono Hk%Hmono. by eapply Hown.
  - intros id [?|Hi]%Hadd%elem_of_app; [by apply Hused|by apply (Hnew i id)].
Qed.

Lemma apart_issued fresh i used issued id :
  apart fresh used issued → used ⊆ issued → id ∉ issued →
  apart (<[i := id :: fresh i]> fresh) used (id :: issued).
Proof.
  intros [Hnew Hown] Hused Hid.
  assert (∀ j x, x ∈ (<[i := id :: fresh i]> fresh) j → x ∈ fresh j ∨ x = id ∧ j = i) as Hcase.
  { intros j x. destruct (decide (i = j)) as [->|Hne]; [rewrite fn_lookup_insert; set_solver|].
    rewrite fn_lookup_insert_ne by done. by left. }
  assert (∀ j, id ∉ fresh j) as Hfresh by (intros j [? _]%Hnew; done). split.
  - intros j x [Hx|[-> ->]]%Hcase; [|set_solver]. destruct (Hnew j x Hx). split; [by right|done].
  - intros j k x [Hj|[-> ->]]%Hcase [Hk|[Hxk ->]]%Hcase; [by eapply Hown|by subst; destruct (Hfresh j)
      |by destruct (Hfresh k)|done].
Qed.

Lemma insert_running (running : nat → option pending) i p (l e : nat → list LoadedPluginId) l' e' :
  (∀ j q, running j = Some q → pending_safe q (l j) (e j)) → pending_safe p l' e' →
  ∀ j q, run_with i p running j = Some q →
    pending_safe q ((<[i := l']> l) j) ((<[i := e']> e) j).
Proof.
  intros Hrun Hp j q. unfold run_with. destruct (decide (j = i)) as [->|Hne].
  - rewrite !fn_lookup_insert. by intros [= <-].
  - rewrite !fn_lookup_insert_ne by done. apply Hrun.
Qed.
Lemma replace_running (running : nat → option pending) i p (l e : nat → list LoadedPluginId) :
  (∀ j q, running j = Some q → pending_safe q (l j) (e j)) → pending_safe p (l i) (e i) →
  ∀ j q, run_with i p running j = Some q → pending_safe q (l j) (e j).
Proof.
  intros Hrun Hp j q. unfold run_with. destruct (decide (j = i)) as [->|Hne]; [|apply Hrun].
  by intros [= <-].
Qed.

Lemma advance_inv c i {A} (op op' : pm_op A) pm' issued' :
  config_inv c → cf_running c i = Some (Pending op) →
  op_step (cf_manager c) (cf_issued c) op op' pm' issued' →
  config_inv (Build_Config pm' issued' (run_with i (Pending op') (cf_running c))).
Proof.
  intros [Hinv Hl He (l & e & Hrun & Hal & Hae)] Hi Hstep. pose proof (Hrun _ _ Hi) as Hsafe.
  cbn [pending_safe] in Hsafe.
  destruct Hstep as [X f k|plugin k answer|plugin k answer|name k spawned|k id Hid]; cbn [safe] in Hsafe.
  1: { destruct (Hsafe _ Hinv) as (Hinv' & l' & e' & Hsl & Hse & Hk); [by eapply apart_disjoint..|].
    destruct (apart_spent _ _ _ _ _ _ Hal Hl Hsl) as [Hal' Hl'].
    destruct (apart_spent _ _ _ _ _ _ Hae He Hse) as [Hae' He'].
    constructor; cbn; [done..|]. exists (<[i := l']> l), (<[i := e']> e).
    split_and!; [by apply insert_running|done..]. }
  4: { constructor; cbn; [done|set_solver..|]. exists (<[i := id :: l i]> l), (<[i := id :: e i]> e).
    split_and!; [by apply insert_running; [|apply Hsafe]|by apply apart_issued..]. }
  all: constructor; cbn; [done..|]; exists l, e; split_and!; [|done..];
    by apply replace_running; [|apply Hsafe].
Qed.

Lemma step_inv c c' : config_inv c → config_step c c' → config_inv c'.
Proof.
  intros Hc [i p _ Hp|i A op op' pm' issued' Hi Hstep]; [|by eapply advance_inv].
  destruct Hc as [Hinv Hl He (l & e & Hrun & Hal & Hae)]. constructor; cbn; [done..|].
  exists l, e. split_and!; [|done..]. apply replace_running; [done|].
  destruct p as [A op]. eapply manager_safe_weaken; [by apply (manager_op_safe (Pending op))|..]; apply list_subseteq_nil.
Qed.

Lemma reachable_inv c : reachable c → config_inv c.
Proof.
  induction 1 as [catalogue spawned ids pm issued Hinj Hload Hl He|c c' _ IH Hstep]; [|by eapply step_inv].
  apply load_inv in Hload as [Hinv _]; [|done]. constructor; cbn; [done..|].
  exists (λ _, []), (λ _, []). split_and!; [done|split; set_solver..].
Qed.

(** ** Operations run alone *)

Lemma alone_bind {A B} h (op : pm_op A) (k : A → pm_op B) pm :
  alone h (op ≫= k) pm = let '(a, pm1) := alone h op pm in alone h (k a) pm1.
Proof.
  revert pm. induction op as [a|X f k' IH|p k' IH|p k' IH|n k' IH|k' IH]; intros pm; cbn; auto.
  destruct (f pm) as [pm1 x]. apply IH.
Qed.

Lemma alone_each {A} h (f : A → pm_op unit) g l pm :
  (∀ x pm, alone h (f x) pm = (tt, g pm x)) → alone h (op_each f l) pm = (tt, fold_left g l pm).
Proof.
  intros Hf. revert pm. induction l as [|x l IH]; intros pm; [done|]. cbn [op_each].
  rewrite alone_bind, Hf. apply IH.
Qed.

Lemma alone_ending_shm h target pm : alone h (ending_shm target) pm = (tt, force_end_shm pm target).
Proof.
  unfold ending_shm, looking_up, force_end_shm, plugin_for_device. rewrite alone_bind. cbn.
  destruct (pts_owner_by_device _ !! _) as [owner|]; cbn; [|done].
  by destruct (List.find _ _).
Qed.

(** The functions of [PluginManager.v] are the runs of the stream operations that nothing
    interrupts. *)
Lemma alone_looking_up h d pm : alone h (looking_up d) pm = (plugin_for_device pm d, pm).
Proof.
  unfold looking_up, plugin_for_device. cbn. by destruct (pts_owner_by_device _ !! _) as [owner|].
Qed.
Lemma alone_beginning h target capability generation outcome opened epoch pm :
  alone h (beginning_shm target capability generation outcome opened epoch) pm =
  begin_shm_stream pm target capability generation outcome opened epoch.
Proof.
  unfold beginning_shm, begin_shm_stream. rewrite alone_bind, alone_looking_up.
  destruct (plugin_for_device _ _) as [plugin|]; [|done]. destruct (head _); [|done].
  destruct (outcome plugin) as [[]|]; try done. by destruct opened.
Qed.
Lemma alone_applying h target envelope epoch sent pm :
  alone h (applying_shm target envelope epoch sent) pm = try_apply_shm_frame pm target envelope epoch sent.
Proof.
  unfold applying_shm, try_apply_shm_frame. rewrite alone_bind, alone_looking_up.
  destruct (plugin_for_device _ _); [|done]. destruct (fe_payload envelope); [|done]. cbn.
  destruct (_ !! _); [|done]. destruct (negb _); [done|]. by destruct (negb _).
Qed.
Lemma alone_ending_stream h target generation pm :
  alone h (ending_shm_stream target generation) pm = (tt, end_shm_stream pm target generation).
Proof.
  unfold ending_shm_stream, end_shm_stream. rewrite alone_bind, alone_looking_up.
  destruct (plugin_for_device _ _); [|done]. cbn. destruct (_ !! _); [|done]. by destruct (_ =? _)%Z.
Qed.

Lemma end_all_client_fold targets pm :
  (end_all_shm_client_streams pm targets).2 =
  fold_left (λ pm t, (force_end_shm_client ([], pm) t).2) targets pm.
Proof.
  unfold end_all_shm_client_streams. generalize (@nil (TargetId * Z)) at 1. revert pm.
  induction targets as [|t targets IH]; intros pm ended; cbn [fold_left]; [done|].
  unfold force_end_shm_client at 2 4. destruct (_ !! _); apply IH.
Qed.

(** An unload without interruption. *)
Lemma alone_unload h name pm :
  alone h (unload_plugin name) pm =
  match remove_named name (pm_loaded pm) with
  | None => (Err (Fail (DE_PluginNotFound name)), pm)
  | Some (removed, remaining) =>
      match withdraw_report (lp_id removed) remaining (pm_topology pm) with
      | Err e => (Err e, set_loaded pm remaining)
      | Ok (c, candidate) =>
          let targets := (λ d, TargetId_Device (DeviceId_new (dd_id d))) <$> c.2 in
          let pm := end_all_shm_streams (set_topology (set_loaded pm remaining) candidate) targets in
          (Ok c.1,
           set_runtime_state (end_all_shm_client_streams pm targets).2 name Runtime_Inactive)
      end
  end.
Proof.
  unfold unload_plugin, take_named. cbn [mbind pm_op_bind alone].
  destruct (remove_named _ _) as [[removed remaining]|]; [|done].
  cbn -[withdraw_report end_all_shm_client_streams end_all_shm_streams].
  replace (pm_loaded (set_loaded pm remaining)) with remaining by (by destruct pm).
  replace (pm_topology (set_loaded pm remaining)) with (pm_topology pm) by (by destruct pm).
  destruct (withdraw_report _ _ _) as [[c candidate]|e]; [|done]. cbn [or_finish].
  rewrite alone_bind, (alone_each h _ force_end_shm) by apply alone_ending_shm. cbv zeta.
  rewrite alone_bind, (alone_each h _ (λ pm t, (force_end_shm_client ([], pm) t).2)) by done.
  by rewrite <-end_all_client_fold.
Qed.

Lemma alone_reload h name pm :
  alone h (reload_plugin name) pm =
  match List.find (λ plugin, bool_decide (lp_name plugin = name)) (pm_loaded pm) with
  | None => (Err (Fail (DE_PluginNotFound name)), pm)
  | Some old =>
      let remaining := filter (λ plugin, lp_id plugin ≠ lp_id old) (pm_loaded pm) in
      match reload_outcome (ha_reload h old) with
      | Err Fuel => (Err Fuel, set_loaded pm remaining)
      | Err (Fail diagnostic) =>
          (Err (Fail (DE_PluginReloadFailed name diagnostic)),
           set_runtime_state (set_loaded pm remaining) name (Runtime_Failed diagnostic))
      | Ok descriptors =>
          let new := {| lp_id := ha_id h; lp_metadata := lp_metadata old |} in
          let pm' := set_runtime_state (set_loaded pm (remaining ++ [new])) name Runtime_Loaded in
          match restart_report (lp_id old) (ha_id h) descriptors (remaining ++ [new])
                  (pm_topology pm) with
          | Err e => (Err e, pm')
          | Ok (reconciled, candidate) => (Ok reconciled, set_topology pm' candidate)
          end
      end
  end.
Proof.
  unfold reload_plugin. cbn -[reload_outcome restart_report].
  destruct (List.find _ _) as [old|]; [|done]. cbn -[reload_outcome restart_report].
  destruct (reload_outcome _) as [ds|[|diagnostic]]; [|done..]. destruct pm as [cat loaded topology shm shmc].
  cbn -[restart_report]. by destruct (restart_report _ _ _ _ _) as [[r t]|].
Qed.

Lemma alone_reconcile h name pm :
  alone h (reconcile_plugin_topology name) pm =
  match find_source (pm_loaded pm) name with
  | Err e => (Err e, pm)
  | Ok plugin =>
      match accept_report name (ha_topology h plugin) with
      | Err e => (Err e, pm)
      | Ok descriptors =>
          match replace_report name (lp_id plugin) descriptors (pm_loaded pm) (pm_topology pm) with
          | Err e => (Err e, pm)
          | Ok (reconciled, candidate) => (Ok reconciled, set_topology pm candidate)
          end
      end
  end.
Proof.
  unfold reconcile_plugin_topology. cbn -[find_source accept_report replace_report].
  destruct (find_source _ _) as [plugin|]; [|done]. cbn -[accept_report replace_report].
  destruct (accept_report _ _) as [ds|]; [|done]. cbn -[replace_report].
  by destruct (replace_report _ _ _ _ _) as [[r t]|].
Qed.

(** ** Claims *)

Lemma driven_unique topology : topology_inv topology → NoDup (dd_id <$> driven topology).
Proof.
  intros [Hi Hr _ _]. apply owned_unique; [done|]. intros e He. by apply report_ok_ids, Hr.
Qed.

(** C4: Whatever plugins report and however the re-reads, reloads, unloads and activations
    of concurrent requests interleave, at every moment the daemon drives each device
    through one plugin, no two driven devices claim the same hardware, and the driven
    devices form a topology that normalisation accepts; the loaded plugins have distinct
    identifiers. *)
Theorem manager_drives_safely c :
  reachable c →
  let topology := pm_topology (cf_manager c) in
  NoDup (loaded_ids (cf_manager c)) ∧
  NoDup (dd_id <$> driven topology) ∧
  (∀ d d', d ∈ driven topology → d' ∈ driven topology → d ≠ d' → ¬ contending d d') ∧
  owned_devices topology = Ok (to_device <$> driven topology).
Proof.
  intros [[Hi Ht] _ _ _]%reachable_inv topology.
  split_and!; [done|by apply driven_unique|apply Ht|].
  pose proof (ti_driven _ Ht) as Hok. apply is_ok_true in Hok as [devices Hd]. unfold topology.
  rewrite Hd. f_equal. by apply normalize_devices_Ok in Hd as [-> _].
Qed.

Lemma find_source_Ok loaded name plugin :
  find_source loaded name = Ok plugin → filter (λ p, lp_name p = name) loaded = [plugin].
Proof.
  unfold find_source. destruct (filter _ _) as [|p [|? ?]]; [done| |done]. by intros [= ->].
Qed.

(** A re-pull that nothing interrupts is atomic: a failure of any step leaves the manager
    as it was; on success the plugin's new report and the owners arbitrated from all loaded
    plugins' reports are committed together, the devices returned are the driven ones,
    and the changed identifiers are exactly those whose device differs. *)
Theorem reconcile_atomic h pm name :
  match alone h (reconcile_plugin_topology name) pm with
  | (Err e, pm') => pm' = pm
  | (Ok reconciled, pm') =>
      ∃ plugin descriptors previous entries,
        (∀ p, p ∈ pm_loaded pm ∧ lp_name p = name ↔ p = plugin) ∧
        ha_topology h plugin = Ok descriptors ∧
        owned_devices (pm_topology pm) = Ok previous ∧
        replace_entry (lp_id plugin) descriptors (pts_descriptors_by_plugin (pm_topology pm))
          = Some entries ∧
        pm' = set_topology pm {|
          pts_descriptors_by_plugin := entries;
          pts_owner_by_device :=
            arbitrate_ownership_by_id (arbitration_inputs entries (pm_loaded pm)) |} ∧
        owned_devices (pm_topology pm') = Ok (tr_devices reconciled) ∧
        ∀ id, id ∈ tr_changed_devices reconciled ↔
          option_eqb device_eqb (device_map previous !! id)
            (device_map (tr_devices reconciled) !! id) = false
  end.
Proof.
  rewrite alone_reconcile. destruct (find_source _ _) as [plugin|] eqn:Hf; [|done].
  destruct (accept_report _ _) as [ds|] eqn:Ha; [|done].
  destruct (replace_report _ _ _ _ _) as [[r t]|] eqn:Hr; [|done].
  apply find_source_Ok in Hf. apply accept_report_Ok in Ha as [Ha _].
  apply replace_report_Ok in Hr as (previous & entries & Hp & He & -> & Hd & Hc).
  exists plugin, ds, previous, entries. split_and!; try done.
  - intros p. rewrite <-(list_elem_of_singleton p plugin), <-Hf, list_elem_of_filter. tauto.
  - by destruct pm.
  - intros id. rewrite Hc. apply changed_ids_elem.
Qed.

Lemma plugin_for_device_frame pm pm' d :
  pm_loaded pm' = pm_loaded pm → pm_topology pm' = pm_topology pm →
  plugin_for_device pm' d = plugin_for_device pm d.
Proof. unfold plugin_for_device. by intros -> ->. Qed.

(** Ending streams skips the devices no plugin drives. *)
Lemma end_all_skips_undriven targets pm d :
  is_ok (plugin_for_device pm d) = false →
  (∀ t, t ∈ targets → ∃ d', t = TargetId_Device (DeviceId_new d')) →
  pm_shm (end_all_shm_streams pm targets) !! d = pm_shm pm !! d.
Proof.
  unfold end_all_shm_streams. revert pm. induction targets as [|t l IH]; intros pm Hd Ht; [done|].
  destruct (Ht t) as [d' ->]; [by left|]. cbn [fold_left].
  pose proof (end_all_frame [TargetId_Device (DeviceId_new d')] pm) as (Hl & Htp & _).
  cbn in Hl, Htp. rewrite IH; [|by rewrite (plugin_for_device_frame pm)|set_solver].
  unfold force_end_shm. cbn [TargetId_device_id DeviceId_as_str].
  destruct (plugin_for_device pm d') eqn:Hp; [|done]. destruct pm. cbn in *.
  apply lookup_delete_ne. intros ->. by rewrite Hp in Hd.
Qed.

Lemma end_all_client_shm targets pm : pm_shm (end_all_shm_client_streams pm targets).2 = pm_shm pm.
Proof.
  unfold end_all_shm_client_streams. generalize (@nil (TargetId * Z)). revert pm.
  induction targets as [|t l IH]; intros pm ended; cbn [fold_left force_end_shm_client]; [done|].
  destruct (pm_shm_client pm !! stream_key t); rewrite IH; by destruct pm.
Qed.

Lemma unload_Ok h pm name reconciled pm' :
  alone h (unload_plugin name) pm = (Ok reconciled, pm') →
  ∃ removed remaining c topology,
    remove_named name (pm_loaded pm) = Some (removed, remaining) ∧
    withdraw_report (lp_id removed) remaining (pm_topology pm) = Ok (c, topology) ∧
    pm_loaded pm' = remaining ∧ pm_topology pm' = topology ∧
    pm_shm pm' = pm_shm (end_all_shm_streams (set_topology (set_loaded pm remaining) topology)
      ((λ d, TargetId_Device (DeviceId_new (dd_id d))) <$> c.2)).
Proof.
  rewrite alone_unload. destruct (remove_named _ _) as [[removed remaining]|]; [|done].
  destruct (withdraw_report _ _ _) as [[c topology]|] eqn:Hc; [|done]. cbv zeta.
  set (targets := (λ d, TargetId_Device (DeviceId_new (dd_id d))) <$> _).
  set (pm1 := end_all_shm_streams _ targets). intros [= <- <-].
  exists removed, remaining, c, topology.
  pose proof (end_all_frame targets (set_topology (set_loaded pm remaining) topology))
    as (Hl & Ht & _ & _). fold pm1 in Hl, Ht.
  pose proof (end_all_frame targets pm1) as (_ & _ & Hl2 & Ht2).
  pose proof (end_all_client_shm targets pm1) as Hs. destruct (runtime_frame
    (end_all_shm_client_streams pm1 targets).2 name Runtime_Inactive) as [-> ->].
  rewrite Hl2, Ht2, Hl, Ht. split_and!; [done..|by destruct pm|by destruct pm|].
  etrans; [|exact Hs]. by destruct (end_all_shm_client_streams pm1 targets).2.
Qed.

(** Unloading a plugin removes it from the loaded plugins and leaves no device driven
    by it, when no second plugin of its name is loaded and nothing interrupts. *)
Theorem unload_withdraws h c name reconciled pm' :
  reachable c → NoDup (plugin_names (cf_manager c)) →
  alone h (unload_plugin name) (cf_manager c) = (Ok reconciled, pm') →
  name ∉ plugin_names pm' ∧
  (∀ d id, pts_owner_by_device (pm_topology pm') !! d = Some id →
     ∃ p, plugin_for_device pm' d = Ok p ∧ lp_id p = id ∧ lp_name p ≠ name).
Proof.
  intros [[Hi _] _ _ _]%reachable_inv Hn H.
  apply unload_Ok in H as (removed & remaining & w & topology & Hrem & Hc & Hl & Ht & _).
  apply remove_named_spec in Hrem as (Hperm & Hsub & Hname). unfold plugin_names in *.
  rewrite Hperm in Hn. cbn in Hn. apply NoDup_cons in Hn as [Hnin _]. rewrite Hname in Hnin.
  rewrite <-Hl in Hnin. split; [done|]. intros d id Hd. rewrite Ht in Hd.
  assert (NoDup (lp_id <$> pm_loaded pm')) as Hi'.
  { rewrite Hl. eapply sublist_NoDup; [exact Hi|]. by apply (fmap_sublist lp_id). }
  assert (∃ p, p ∈ pm_loaded pm' ∧ lp_id p = id) as (p & Hp & Hid).
  { apply withdraw_report_Ok in Hc as [(-> & _)%commit_candidate_Ok _]. cbn in Hd.
    apply owner_input in Hd as (x & Hx & <-). rewrite <-Hl in Hx.
    apply elem_of_inputs in Hx as [_ (p & Hp & Hid & _)]; [|done]. by exists p. }
  exists p. split_and!; [|done|].
  - unfold plugin_for_device. rewrite Ht, Hd. cbn [ok_or mbind result_bind]. apply ok_or_Ok.
    by apply find_loaded.
  - intros Heq. apply Hnin, list_elem_of_fmap. by exists p.
Qed.

(** ** Departures from the documentation *)

(** A failed reload removes the plugin but leaves the topology as it was: its devices
    stay listed with the removed plugin as their owner, so that nothing can drive
    them. *)
Theorem failed_reload_keeps_topology h pm name old e :
  List.find (λ plugin, bool_decide (lp_name plugin = name)) (pm_loaded pm) = Some old →
  ha_reload h old = Err e →
  let '(r, pm') := alone h (reload_plugin name) pm in
  r = Err (Fail (DE_PluginReloadFailed name e)) ∧
  pm_topology pm' = pm_topology pm ∧
  ∀ d, pts_owner_by_device (pm_topology pm) !! d = Some (lp_id old) →
    plugin_for_device pm' d = Err (DE_DeviceUnowned d).
Proof.
  intros Hf Hout. rewrite alone_reload, Hf, Hout. cbn [reload_outcome map_err mbind result_bind].
  split_and!; [done|by destruct pm|]. intros d Hd. unfold plugin_for_device.
  destruct (runtime_frame (set_loaded pm (filter (λ p, lp_id p ≠ lp_id old) (pm_loaded pm))) name
    (Runtime_Failed e)) as [-> ->].
  replace (pm_topology (set_loaded pm _)) with (pm_topology pm) by (by destruct pm).
  rewrite Hd. cbn [ok_or mbind result_bind].
  destruct (List.find _ (pm_loaded (set_loaded _ _))) as [q|] eqn:Hq; [|done].
  apply List.find_some in Hq as [Hq%list_elem_of_In Hid%bool_decide_eq_true].
  destruct pm. cbn in Hq. by apply list_elem_of_filter in Hq as [? _].
Qed.

(** The teardown on unload looks the streams' owner up after ownership was withdrawn:
    the stream of a device that the unload leaves without a driver stays registered. *)
Theorem unload_leaves_streams h pm name reconciled pm' d stream :
  alone h (unload_plugin name) pm = (Ok reconciled, pm') →
  is_ok (plugin_for_device pm' d) = false →
  pm_shm pm !! d = Some stream → pm_shm pm' !! d = Some stream.
Proof.
  intros (removed & remaining & c & topology & _ & _ & Hl & Ht & ->)%unload_Ok Hd Hstream.
  rewrite end_all_skips_undriven; [by destruct pm| |].
  - rewrite <-Hd. f_equal. apply plugin_for_device_frame; rewrite ?Hl, ?Ht; by destruct pm.
  - intros t (x & -> & _)%list_elem_of_fmap. eauto.
Qed.

(** ** Two operations at once *)

(** One step of an operation; [None] when it is finished or its new identifier was
    generated before. *)
Definition advance {A} (h : HostAnswers) (op : pm_op A) (pm : PluginManager)
    (issued : list LoadedPluginId) : option (pm_op A * PluginManager * list LoadedPluginId) :=
  match op with
  | OpDone _ => None
  | Locking f k => Some (k (f pm).2, (f pm).1, issued)
  | AskTopology plugin k => Some (k (ha_topology h plugin), pm, issued)
  | AskReload plugin k => Some (k (ha_reload h plugin), pm, issued)
  | Spawning name k => Some (k (ha_spawned h name), pm, issued)
  | NewId k => if decide (ha_id h ∈ issued) then None else Some (k (ha_id h), pm, ha_id h :: issued)
  end.

(** The steps of the first operation are the [true] ones of the schedule. *)
Fixpoint race {A B} (h1 h2 : HostAnswers) (schedule : list bool) (op1 : pm_op A) (op2 : pm_op B)
    (pm : PluginManager) (issued : list LoadedPluginId) : option (pm_op A * pm_op B * PluginManager) :=
  match schedule with
  | [] => Some (op1, op2, pm)
  | true :: schedule =>
      match advance h1 op1 pm issued with
      | Some (op1, pm, issued) => race h1 h2 schedule op1 op2 pm issued
      | None => None
      end
  | false :: schedule =>
      match advance h2 op2 pm issued with
      | Some (op2, pm, issued) => race h1 h2 schedule op1 op2 pm issued
      | None => None
      end
  end.

Lemma advance_step {A} h (op op' : pm_op A) pm issued pm' issued' :
  advance h op pm issued = Some (op', pm', issued') → op_step pm issued op op' pm' issued'.
Proof.
  intros H. destruct op; cbn in H; [done|..|destruct (decide _); [done|]];
    injection H as <- <- <-.
  - apply step_locking.
  - apply step_topology.
  - apply step_reload.
  - apply step_spawned.
  - by apply step_new_id.
Qed.

Lemma race_reachable {A B} h1 h2 schedule (op1 op1' : pm_op A) (op2 op2' : pm_op B) c pm' :
  reachable c → cf_running c 0 = Some (Pending op1) → cf_running c 1 = Some (Pending op2) →
  race h1 h2 schedule op1 op2 (cf_manager c) (cf_issued c) = Some (op1', op2', pm') →
  ∃ c', reachable c' ∧ cf_manager c' = pm' ∧
    cf_running c' 0 = Some (Pending op1') ∧ cf_running c' 1 = Some (Pending op2').
Proof.
  revert op1 op2 c. induction schedule as [|[] schedule IH]; intros op1 op2 c Hc H1 H2; cbn [race].
  - intros [= <- <- <-]. by exists c.
  - destruct (advance h1 op1 _ _) as [[[op3 pm3] issued3]|] eqn:Ha; [|done]. intros Hr.
    apply advance_step in Ha.
    eapply (IH _ _ (Build_Config pm3 issued3 (run_with 0 (Pending op3) (cf_running c)))); [|done..|exact Hr].
    eapply reachable_step; [exact Hc|]. by eapply step_advance.
  - destruct (advance h2 op2 _ _) as [[[op3 pm3] issued3]|] eqn:Ha; [|done]. intros Hr.
    apply advance_step in Ha.
    eapply (IH _ _ (Build_Config pm3 issued3 (run_with 1 (Pending op3) (cf_running c)))); [|done..|exact Hr].
    eapply reachable_step; [exact Hc|]. by eapply step_advance.
Qed.

(** ** Witnesses *)

Module Concurrent.
Definition issued : list LoadedPluginId := [Loaded.ids 0; Loaded.ids 1].
Definition start : Config := Build_Config Loaded.manager issued (λ _, None).
(** Every host reports what it reported at startup, and a new process gets [id]. *)
Definition answers (id : nat) : HostAnswers := {|
  ha_topology p := snd <$> Loaded.spawned (if bool_decide (lp_name p = "razer") then 0 else 1);
  ha_reload p := snd <$> Loaded.spawned (if bool_decide (lp_name p = "razer") then 0 else 1);
  ha_spawned name := Loaded.spawned (if bool_decide (name = "razer") then 0 else 1);
  ha_id := Loaded.ids id |}.
Definition crashed : HostAnswers :=
  let 'Build_HostAnswers a _ c d := answers 2 in Build_HostAnswers a (λ _, Err (Lit "crashed")) c d.
Definition racing (p1 p2 : pending) : Config :=
  Build_Config Loaded.manager issued (run_with 1 p2 (run_with 0 p1 (λ _, None))).
End Concurrent.

Lemma start_reachable : reachable Concurrent.start.
Proof.
  apply (reachable_load [Loaded.entry "razer"; Loaded.entry "openrgb"] Loaded.spawned Loaded.ids).
  - apply loaded_ids_injective.
  - exact manager_loaded.
  - done.
  - done.
Qed.

Lemma racing_reachable p1 p2 : manager_op p1 → manager_op p2 → reachable (Concurrent.racing p1 p2).
Proof.
  intros H1 H2.
  eapply reachable_step; [|by apply (step_start (Build_Config Loaded.manager Concurrent.issued
    (run_with 0 p1 (λ _, None))) 1)].
  eapply reachable_step; [exact start_reachable|]. by apply (step_start Concurrent.start 0).
Qed.

(** Two reloads of one plugin at the same time both find the old plugin, restart its host
    one after the other, and each adds a plugin: two of the name are loaded, and every
    later re-pull of the plugin is refused as ambiguous. *)
Example concurrent_reloads_duplicate :
  ∃ c op1 op2, reachable c ∧
    cf_running c 0 = Some (Pending (A := result (fuelled DaemonError) TopologyReconcile) (OpDone (Ok op1))) ∧
    cf_running c 1 = Some (Pending (A := result (fuelled DaemonError) TopologyReconcile) (OpDone (Ok op2))) ∧
    plugin_names (cf_manager c) = ["openrgb"; "razer"; "razer"]%string ∧
    (alone (Concurrent.answers 4) (reconcile_plugin_topology "razer") (cf_manager c)).1 =
      Err (Fail (Fmt "plugin notification source is ambiguous: {plugin_name}" [AStr "razer"])).
Proof.
  destruct (race (Concurrent.answers 2) (Concurrent.answers 3)
    ([true; false] ++ repeat true 7 ++ repeat false 7)
    (reload_plugin "razer") (reload_plugin "razer") Loaded.manager Concurrent.issued)
    as [[[op1 op2] pm]|] eqn:Hrace; [|by vm_compute in Hrace].
  destruct (race_reachable _ _ _ _ _ _ _ _ _
    (racing_reachable _ _ (op_reload "razer") (op_reload "razer")) eq_refl eq_refl Hrace)
    as (c & Hc & Hpm & H1 & H2).
  vm_compute in Hrace. injection Hrace as <- <- <-.
  exists c. do 2 eexists. split_and!; [exact Hc|exact H1|exact H2|by rewrite Hpm..].
Qed.

(** An unload that runs while the plugin reloads succeeds, and the reload loads the plugin
    again. *)
Example unloaded_plugin_returns :
  ∃ c op1 op2, reachable c ∧
    cf_running c 0 = Some (Pending (A := result (fuelled DaemonError) TopologyReconcile) (OpDone (Ok op1))) ∧
    cf_running c 1 = Some (Pending (A := result (fuelled DaemonError) TopologyReconcile) (OpDone (Ok op2))) ∧
    plugin_names (cf_manager c) = ["openrgb"; "razer"]%string.
Proof.
  destruct (race (Concurrent.answers 2) (Concurrent.answers 3)
    ([true] ++ repeat false 8 ++ repeat true 7)
    (reload_plugin "razer") (unload_plugin "razer") Loaded.manager Concurrent.issued)
    as [[[op1 op2] pm]|] eqn:Hrace; [|by vm_compute in Hrace].
  destruct (race_reachable _ _ _ _ _ _ _ _ _
    (racing_reachable _ _ (op_reload "razer") (op_unload "razer")) eq_refl eq_refl Hrace)
    as (c & Hc & Hpm & H1 & H2).
  vm_compute in Hrace. injection Hrace as <- <- <-.
  exists c. do 2 eexists. split_and!; [exact Hc|exact H1|exact H2|by rewrite Hpm].
Qed.

(** The invariant holds in the middle of a race too: here after both reloads. *)
Lemma manager_drives_safely_witness :
  ∃ c, reachable c ∧ plugin_names (cf_manager c) = ["openrgb"; "razer"; "razer"]%string ∧
    NoDup (dd_id <$> driven (pm_topology (cf_manager c))).
Proof.
  destruct concurrent_reloads_duplicate as (c & ? & ? & Hc & _ & _ & Hn & _).
  exists c. split; [exact Hc|]. split; [exact Hn|].
  exact (proj1 (proj2 (manager_drives_safely c Hc))).
Defined.

Lemma unload_withdraws_witness :
  is_ok (alone (Concurrent.answers 2) (unload_plugin "razer") Loaded.manager).1 = true ∧
  "razer"%string ∉ plugin_names (alone (Concurrent.answers 2) (unload_plugin "razer") Loaded.manager).2.
Proof.
  split; [vm_compute; reflexivity|].
  destruct (alone (Concurrent.answers 2) (unload_plugin "razer") Loaded.manager) as [[r|e] pm'] eqn:H;
    [|vm_compute in H; discriminate].
  refine (proj1 (unload_withdraws _ Concurrent.start _ _ _ start_reachable _ H)).
  apply (bool_decide_unpack _). vm_compute. exact I.
Defined.

Lemma failed_reload_keeps_topology_witness :
  let pm' := (alone Concurrent.crashed (reload_plugin "razer") Loaded.manager).2 in
  pm_topology pm' = pm_topology Loaded.manager ∧
  plugin_for_device pm' "kbd" = Err (DE_DeviceUnowned "kbd").
Proof.
  pose proof (failed_reload_keeps_topology Concurrent.crashed Loaded.manager "razer"
    {| lp_id := Loaded.ids 0; lp_metadata := Loaded.metadata "razer" 5 |}
    (Lit "crashed") eq_refl eq_refl) as H.
  destruct (alone Concurrent.crashed (reload_plugin "razer") Loaded.manager) as [r pm'].
  destruct H as (_ & H1 & H2).
  split; [exact H1|]. apply H2. vm_compute. reflexivity.
Defined.

Lemma unload_leaves_streams_witness :
  let pm' := (alone (Concurrent.answers 2) (unload_plugin "openrgb") Loaded.streaming).2 in
  plugin_for_device pm' "strip" = Err (DE_DeviceUnowned "strip") ∧
  has_active_shm_stream pm' (TargetId_Device (DeviceId_new "strip")) = true.
Proof.
  cbv zeta.
  destruct (alone (Concurrent.answers 2) (unload_plugin "openrgb") Loaded.streaming) as [[r|e] pm'] eqn:H;
    [|vm_compute in H; discriminate].
  assert (plugin_for_device pm' "strip" = Err (DE_DeviceUnowned "strip")) as Hd.
  { change pm' with (Ok r : result (fuelled DaemonError) _, pm').2. rewrite <-H.
    vm_compute. reflexivity. }
  split; [exact Hd|]. unfold has_active_shm_stream. apply bool_decide_eq_true.
  eexists. apply (unload_leaves_streams _ _ _ _ _ "strip" {| ass_generation := 1; ass_format := Rgb8;
    ass_connection_epoch := 0 |} H); [cbn [snd]; by rewrite Hd|vm_compute; reflexivity].
Defined.

(** A reload whose report clashes with another plugin's device name leaves the
    restarted plugin loaded without a topology entry: later re-pulls of the plugin are
    refused. *)
Example reload_orphans_plugin :
  let clash := {| dd_id := "kbd2"; dd_name := "strip"; dd_vendor := None; dd_model := None;
    dd_surfaces := []; dd_groups := []; dd_capabilities := CapabilitySet_default; dd_claims := [];
    dd_category := None; dd_physical_tags := []; dd_host_attached := true; dd_notes := [];
    dd_warnings := [] |} in
  let h := {| ha_topology := λ _, Ok []; ha_reload := λ _, Ok [clash];
    ha_spawned := λ _, Err (Lit ""); ha_id := Loaded.ids 2 |} in
  let pm' := (alone h (reload_plugin "razer") Loaded.manager).2 in
  update_entry "razer" Runtime_Loaded (pm_catalogue Loaded.manager) = pm_catalogue pm' ∧
  "razer"%string ∈ plugin_names pm' ∧
  (alone h (reconcile_plugin_topology "razer") pm').1
    = Err (Fail (Fmt "plugin topology entry missing for {plugin_name}" [AStr "razer"])).
Proof. cbv zeta. split_and!; [vm_compute; reflexivity|vm_compute; by right; left|vm_compute; reflexivity]. Qed.
