(* ===== verification/PluginApply.v ===== *)
(** * Applying updates: [luminated/src/plugins/apply.rs]

    Updates that the daemon has validated are routed to the plugins that own the
    devices.  A batch is grouped by owner, sent to each plugin's host in pieces of at
    most [MAX_PLUGIN_BATCH_UPDATES], sequentially or with one worker per plugin, and the
    answers are put back in the order of the updates.  The claims show that the batch
    answers every update exactly once with what its own plugin's host replied for it, in
    either mode.
    What the hosts answer is a parameter. *)

From S2P Require Import Prelude Model Daemon Topology Descriptors Normalize Ownership PluginManager.

Inductive ApplyOutcome :=
| Outcome_Applied
| Outcome_Unsupported (diagnostic : string)
| Outcome_InvalidArgument (diagnostic : string)
| Outcome_Io (diagnostic : string)
| Outcome_Unavailable (diagnostic : string)
| Outcome_RateLimited (diagnostic : string) (retry_after_ms : option Z)
| Outcome_Internal (diagnostic : string).

Definition MAX_PLUGIN_BATCH_UPDATES : nat := 64.
Definition MAX_PLUGIN_READ_TARGETS : nat := 256.

Definition apply_outcome_error (plugin device : string) (outcome : ApplyOutcome) : daemon unit :=
  match outcome with
  | Outcome_Applied => Ok tt
  | Outcome_Unsupported diagnostic => Err (DE_PluginUnsupportedUpdate plugin device diagnostic)
  | Outcome_InvalidArgument diagnostic => Err (DE_PluginInvalidUpdate plugin device diagnostic)
  | Outcome_Io diagnostic => Err (DE_PluginIo plugin device diagnostic)
  | Outcome_Unavailable diagnostic => Err (DE_PluginUnavailable plugin device diagnostic)
  | Outcome_RateLimited diagnostic retry_after_ms =>
      Err (DE_PluginRateLimited plugin device diagnostic retry_after_ms)
  | Outcome_Internal diagnostic => Err (DE_PluginInternal plugin device diagnostic)
  end.

Definition apply_outcome_to_result (plugin_name : string) (update : PluginUpdate)
    (outcome : ApplyOutcome) : daemon unit :=
  match outcome with
  | Outcome_Applied => Ok tt
  | _ => apply_outcome_error plugin_name (PluginTarget_device_id (pu_target update)) outcome
  end.

(** [slice::chunks]; the length bounds the number of pieces. *)
Fixpoint chunks_from {A} (fuel n : nat) (l : list A) : list (list A) :=
  match fuel, l with
  | _, [] | O, _ => []
  | S fuel, _ => take n l :: chunks_from fuel n (drop n l)
  end.
Definition chunks {A} (n : nat) (l : list A) : list (list A) := chunks_from (length l) n l.

(** ** The hosts *)

(** What a plugin's host answers to a batch, given the batches it was sent before in the
    same operation; whether a worker thread for the plugin starts, and whether it
    panics. *)
Record Hosts := {
  host_apply_batch :
    LoadedPlugin → list (list PluginUpdate) → list PluginUpdate → result Text (list ApplyOutcome);
  host_apply : LoadedPlugin → PluginUpdate → result Text ApplyOutcome;
  host_read_state : LoadedPlugin → PluginReadRequest → result string PluginStateSnapshot;
  worker_starts : LoadedPlugin → result Text unit;
  worker_panics : LoadedPlugin → bool
}.

(** One answer slot per update of a batch. *)
Notation slots := (list (option (daemon unit))).

Section apply.
Context (hosts : Hosts).

Definition read_chunk (plugin : LoadedPlugin) (device : DeviceId) (snapshot : PluginStateSnapshot)
    (targets : list PluginReadTarget) : daemon PluginStateSnapshot :=
  part ← map_err (λ error, DE_PluginIo (lp_name plugin) (DeviceId_as_str device)
                             ("state read failed: " +:+ error))
           (host_read_state hosts plugin {| prr_targets := targets |});
  Ok {| pss_observations := pss_observations snapshot ++ pss_observations part;
        pss_errors := pss_errors snapshot ++ pss_errors part |}.

Definition read_state (pm : PluginManager) (device : DeviceId) (request : PluginReadRequest) :
    daemon PluginStateSnapshot :=
  plugin ← plugin_for_device pm (DeviceId_as_str device);
  try_fold (read_chunk plugin device) {| pss_observations := []; pss_errors := [] |}
    (chunks MAX_PLUGIN_READ_TARGETS (prr_targets request)).

Definition apply_update (pm : PluginManager) (update : PluginUpdate) : daemon unit :=
  plugin ← plugin_for_device pm (PluginTarget_device_id (pu_target update));
  outcome ← map_err (λ error, DE_Internal (Nested "plugin host call failed for {}: {error:#}"
                                             [AStr (lp_name plugin)] error))
              (host_apply hosts plugin update);
  apply_outcome_to_result (lp_name plugin) update outcome.

Definition apply_effect (pm : PluginManager) (target : TargetId) (effect : Effect) : daemon unit :=
  apply_update pm {| pu_target := plugin_target_from_target_id target;
                     pu_operation := Op_SetEffect effect |}.
Definition apply_brightness (pm : PluginManager) (target : TargetId) (value : Z) : daemon unit :=
  apply_update pm {| pu_target := plugin_target_from_target_id target;
                     pu_operation := Op_SetBrightness value |}.
Definition apply_appearance_slots (pm : PluginManager) (target : TargetId)
    (values : list AppearanceSlotValue) : daemon unit :=
  apply_update pm {| pu_target := plugin_target_from_target_id target;
                     pu_operation := Op_SetAppearanceSlots values |}.
Definition apply_clear (pm : PluginManager) (target : TargetId) : daemon unit :=
  apply_update pm {| pu_target := plugin_target_from_target_id target; pu_operation := Op_Clear |}.
Definition apply_save_current (pm : PluginManager) (target : TargetId) : daemon unit :=
  apply_update pm {| pu_target := plugin_target_from_target_id target;
                     pu_operation := Op_SaveCurrent |}.

(** ** Batches *)

Definition Update : Type := TargetId * PluginUpdateOperation.
Definition to_plugin_update (u : Update) : PluginUpdate :=
  {| pu_target := plugin_target_from_target_id u.1; pu_operation := u.2 |}.

(** [if let Some(slot) = results.get_mut(index) { *slot = Some(outcome) }] *)
Definition write (results : slots) (w : nat * daemon unit) : slots := <[w.1 := Some w.2]> results.

Definition store_batch_outcomes (results : slots) (indices : list nat)
    (outcomes : list (daemon unit)) : slots :=
  fold_left write (zip indices outcomes) results.

Definition fill_results (results : slots) (indices : list nat) (error : daemon unit) : slots :=
  fold_left write ((λ index, (index, error)) <$> indices) results.

(** One update of [group_updates_by_owner]. *)
Definition group_update (owner_by_device : gmap string LoadedPluginId)
    (acc : gmap LoadedPluginId (list nat) * slots) (iu : nat * Update) :
    gmap LoadedPluginId (list nat) * slots :=
  let '(by_plugin, results) := acc in
  let '(index, (target, _)) := iu in
  let device_id := PluginTarget_device_id (plugin_target_from_target_id target) in
  match owner_by_device !! device_id with
  | Some plugin_id =>
      (<[plugin_id := default [] (by_plugin !! plugin_id) ++ [index]]> by_plugin, results)
  | None => (by_plugin, <[index := Some (Err (DE_DeviceUnowned device_id))]> results)
  end.

Definition group_updates_by_owner (owner_by_device : gmap string LoadedPluginId)
    (updates : list Update) : gmap LoadedPluginId (list nat) * slots :=
  fold_left (group_update owner_by_device) (imap pair updates)
    (∅, replicate (length updates) None).

(** One piece of a plugin's updates, after the pieces [sent]. *)
Definition chunk_outcomes (plugin : LoadedPlugin) (sent : list (list PluginUpdate))
    (chunk : list PluginUpdate) : list (daemon unit) :=
  match host_apply_batch hosts plugin sent chunk with
  | Ok outcomes =>
      if bool_decide (length outcomes = length chunk)
      then zip_with (apply_outcome_to_result (lp_name plugin)) chunk outcomes
      else (λ _, Err (DE_Internal
                        (Fmt "plugin host returned an invalid batch response for {}"
                           [AStr (lp_name plugin)]))) <$> chunk
  | Err error =>
      (λ _, Err (DE_Internal
                   (Nested "plugin host batch call failed for {}: {error:#}"
                      [AStr (lp_name plugin)] error))) <$> chunk
  end.

Definition send_chunks (plugin : LoadedPlugin) (pieces : list (list PluginUpdate)) :
    list (list PluginUpdate) * list (daemon unit) :=
  fold_left (λ acc chunk, (acc.1 ++ [chunk], acc.2 ++ chunk_outcomes plugin acc.1 chunk))
    pieces ([], []).

Definition apply_plugin_batch (plugin : LoadedPlugin) (indices : list nat) (updates : list Update) :
    list (daemon unit) :=
  let plugin_updates := omap (λ index, to_plugin_update <$> updates !! index) indices in
  (send_chunks plugin (chunks MAX_PLUGIN_BATCH_UPDATES plugin_updates)).2.

Definition plugin_id_le (a b : LoadedPluginId * list nat) : Prop :=
  (LoadedPluginId_uuid a.1 <= LoadedPluginId_uuid b.1)%N.
#[export] Instance plugin_id_le_dec : RelDecision plugin_id_le.
Proof. intros a b. unfold plugin_id_le. apply _. Defined.

(** The groups whose plugin is still loaded; the others are answered here. *)
Definition find_batch (loaded : list LoadedPlugin)
    (acc : list (LoadedPlugin * list nat) * slots) (group : LoadedPluginId * list nat) :
    list (LoadedPlugin * list nat) * slots :=
  match List.find (λ plugin, bool_decide (lp_id plugin = group.1)) loaded with
  | Some plugin => (acc.1 ++ [(plugin, group.2)], acc.2)
  | None =>
      (acc.1,
       fill_results acc.2 group.2
         (Err (DE_Internal (Fmt "plugin owner {plugin_id:?} is no longer loaded" []))))
  end.

Definition sequential (updates : list Update) (results : slots)
    (batch : LoadedPlugin * list nat) : slots :=
  store_batch_outcomes results batch.2 (apply_plugin_batch batch.1 batch.2 updates).

(** A worker that did not start is answered at once; the others after all started. *)
Definition start_worker (acc : list (LoadedPlugin * list nat) * slots)
    (batch : LoadedPlugin * list nat) : list (LoadedPlugin * list nat) * slots :=
  match worker_starts hosts batch.1 with
  | Ok _ => (acc.1 ++ [batch], acc.2)
  | Err error =>
      (acc.1,
       fill_results acc.2 batch.2
         (Err (DE_Internal (Nested "failed to start scene worker for {plugin_name}: {error}"
                              [AStr (lp_name batch.1)] error))))
  end.

Definition join_worker (updates : list Update) (results : slots)
    (batch : LoadedPlugin * list nat) : slots :=
  if worker_panics hosts batch.1
  then fill_results results batch.2 (Err (DE_Internal (Lit "scene plugin worker panicked")))
  else store_batch_outcomes results batch.2 (apply_plugin_batch batch.1 batch.2 updates).

Definition apply_batch_inner (pm : PluginManager) (updates : list Update) (parallel : bool) :
    list (daemon unit) :=
  let '(by_plugin, results) :=
    group_updates_by_owner (pts_owner_by_device (pm_topology pm)) updates in
  let '(batches, results) :=
    fold_left (find_batch (pm_loaded pm)) (merge_sort plugin_id_le (map_to_list by_plugin))
      ([], results) in
  let results :=
    if parallel && (1 <? length batches)%nat
    then let '(workers, results) := fold_left start_worker batches ([], results) in
         fold_left (join_worker updates) workers results
    else fold_left (sequential updates) batches results in
  from_option id (Err (DE_Internal (Lit "batch result missing for an index"))) <$> results.

Definition apply_batch (pm : PluginManager) (updates : list Update) : list (daemon unit) :=
  apply_batch_inner pm updates false.
Definition apply_batch_parallel (pm : PluginManager) (updates : list Update) : list (daemon unit) :=
  apply_batch_inner pm updates true.
End apply.

(** ** Pieces *)

Lemma chunks_from_concat {A} fuel n (l : list A) :
  0 < n → length l ≤ fuel → mjoin (chunks_from fuel n l) = l.
Proof.
  intros Hn. revert l. induction fuel as [|fuel IH]; intros l Hl; destruct l as [|x l]; cbn in Hl |- *;
    [done|lia|done|]. destruct n as [|n]; [lia|]. cbn. f_equal.
  rewrite IH; [apply take_drop|]. rewrite length_drop. lia.
Qed.

Lemma chunks_from_bound {A} fuel n (l : list A) :
  0 < n → Forall (λ c, c ≠ [] ∧ length c ≤ n) (chunks_from fuel n l).
Proof.
  intros Hn. revert l. induction fuel as [|fuel IH]; intros l; destruct l as [|x l]; cbn;
    try constructor; [|apply IH]. destruct n as [|n]; [lia|]. cbn. split; [done|].
  rewrite length_take. lia.
Qed.

Section batches.
Context (hosts : Hosts).

Lemma chunk_outcomes_length plugin sent chunk :
  length (chunk_outcomes hosts plugin sent chunk) = length chunk.
Proof.
  unfold chunk_outcomes. destruct (host_apply_batch _ _ _ _) as [outcomes|]; [|by rewrite length_fmap].
  case_bool_decide as Hl; [|by rewrite length_fmap]. rewrite length_zip_with. lia.
Qed.

(** The pieces are sent in order, each once, and each is answered in full. *)
Lemma send_chunks_spec plugin pieces :
  (send_chunks hosts plugin pieces).1 = pieces ∧
  length (send_chunks hosts plugin pieces).2 = length (mjoin pieces).
Proof.
  unfold send_chunks. induction pieces as [|c pieces [IH1 IH2]] using rev_ind; [done|].
  rewrite fold_left_app. cbn [fold_left fst snd]. rewrite IH1. split; [done|].
  rewrite length_app, chunk_outcomes_length, IH2, join_app, length_app. cbn.
  by rewrite app_nil_r.
Qed.

Lemma apply_plugin_batch_length plugin indices updates :
  (∀ i, i ∈ indices → i < length updates) →
  length (apply_plugin_batch hosts plugin indices updates) = length indices.
Proof.
  intros Hi. unfold apply_plugin_batch. rewrite (proj2 (send_chunks_spec _ _)).
  unfold chunks. rewrite chunks_from_concat by (unfold MAX_PLUGIN_BATCH_UPDATES; lia).
  induction indices as [|i ix IH]; [done|]. cbn.
  destruct (lookup_lt_is_Some_2 updates i) as [u Hu]; [apply Hi; by left|]. rewrite Hu. cbn.
  rewrite IH; [done|]. intros j Hj. apply Hi. by right.
Qed.

(** ** Writes *)

(** The slot's last write decides. *)
Lemma writes_lookup (ws : list (nat * daemon unit)) (r : slots) i v :
  (i, v) ∈ ws → (∀ v', (i, v') ∈ ws → v' = v) → i < length r →
  fold_left write ws r !! i = Some (Some v).
Proof.
  induction ws as [|w ws IH] using rev_ind; [set_solver|]. intros Hin Hfun Hi.
  rewrite fold_left_app.
  change (<[w.1 := Some w.2]> (fold_left write ws r) !! i = Some (Some v)).
  assert (length (fold_left write ws r) = length r) as Hlen.
  { clear. revert r. induction ws as [|w ws IH]; intros r; cbn; [done|].
    rewrite IH. apply length_insert. }
  destruct (decide (w.1 = i)) as [<-|Hne].
  - rewrite list_lookup_insert_eq by lia. do 2 f_equal. apply Hfun. destruct w. set_solver.
  - rewrite list_lookup_insert_ne by done. apply IH; [|set_solver|done].
    apply elem_of_app in Hin as [?|Hw%list_elem_of_singleton]; [done|by subst w].
Qed.

Lemma writes_length (ws : list (nat * daemon unit)) (r : slots) :
  length (fold_left write ws r) = length r.
Proof. revert r. induction ws as [|w ws IH]; intros r; cbn; [done|]. rewrite IH. apply length_insert. Qed.

(** ** Grouping *)

Context (pm : PluginManager) (updates : list Update).
Notation owners := (pts_owner_by_device (pm_topology pm)).

Definition device_of (u : Update) : string :=
  PluginTarget_device_id (plugin_target_from_target_id u.1).

(** The positions of the updates whose device the plugin owns, in order. *)
Definition indices_of (id : LoadedPluginId) : list nat :=
  omap (λ iu, if bool_decide (owners !! device_of iu.2 = Some id) then Some iu.1 else None)
    (imap pair updates).

Lemma elem_of_indices id i :
  i ∈ indices_of id ↔ ∃ u, updates !! i = Some u ∧ owners !! device_of u = Some id.
Proof.
  unfold indices_of. rewrite list_elem_of_omap. setoid_rewrite list_elem_of_lookup.
  setoid_rewrite list_lookup_imap. split.
  - intros ([j u] & [k Hk] & Hsel). destruct (updates !! k) as [u'|] eqn:Hu; [|done].
    injection Hk as -> ->. cbn in Hsel. case_bool_decide; [|done]. injection Hsel as <-. eauto.
  - intros (u & Hu & Ho). exists (i, u). split; [exists i; by rewrite Hu|]. cbn.
    by rewrite bool_decide_true.
Qed.

Lemma NoDup_indices id : NoDup (indices_of id).
Proof.
  unfold indices_of. assert (NoDup (imap pair updates).*1) as Hnd.
  { assert ((imap pair updates).*1 = seq 0 (length updates)) as ->; [|apply NoDup_seq].
    apply list_eq. intros j. rewrite list_lookup_fmap, list_lookup_imap.
    destruct (updates !! j) as [u|] eqn:Hu; symmetry.
    - apply lookup_seq. apply lookup_lt_Some in Hu. cbn. lia.
    - apply lookup_seq_ge. by apply lookup_ge_None. }
  revert Hnd. induction (imap pair updates) as [|[j u] l IH]; cbn; [constructor|].
  intros [Hj Hl]%NoDup_cons. case_bool_decide; [|by apply IH]. constructor; [|by apply IH].
  intros ([j' u'] & Hin & Hsel)%list_elem_of_omap. cbn in Hsel. case_bool_decide; [|done].
  injection Hsel as ->. apply Hj, list_elem_of_fmap. by exists (j, u').
Qed.

Definition unowned (iu : nat * Update) : option (nat * daemon unit) :=
  match owners !! device_of iu.2 with
  | Some _ => None
  | None => Some (iu.1, Err (DE_DeviceUnowned (device_of iu.2)))
  end.

Lemma group_spec :
  (∀ id ix, (group_updates_by_owner owners updates).1 !! id = Some ix ↔
     ix = indices_of id ∧ ix ≠ []) ∧
  (group_updates_by_owner owners updates).2
  = fold_left write (omap unowned (imap pair updates)) (replicate (length updates) None).
Proof.
  unfold group_updates_by_owner, indices_of. generalize (replicate (length updates) (@None (daemon unit))).
  intros r. induction (imap pair updates) as [|[j u] l [IH1 IH2]] using rev_ind.
  { cbn. split; [|done]. intros id ix. rewrite lookup_empty. naive_solver. }
  rewrite fold_left_app. destruct (fold_left _ l _) as [by_plugin results]. cbn [fst snd] in IH1, IH2.
  subst results. cbn [fold_left group_update]. destruct u as [target op].
  rewrite !omap_app, fold_left_app. cbn.
  change (PluginTarget_device_id (plugin_target_from_target_id target)) with (device_of (target, op)).
  destruct (owners !! device_of (target, op)) as [id0|] eqn:Ho; cbn [fst snd].
  - split; [|unfold unowned at 2; cbn; by rewrite Ho]. intros id ix. setoid_rewrite omap_app. cbn. rewrite Ho.
    destruct (decide (id0 = id)) as [<-|Hne].
    + rewrite lookup_insert_eq, bool_decide_true by done.
      assert (default [] (by_plugin !! id0) = omap (λ iu,
        if bool_decide (owners !! device_of iu.2 = Some id0) then Some iu.1 else None) l) as ->.
      { destruct (by_plugin !! id0) as [ix0|] eqn:Hb; [by apply IH1 in Hb as [-> _]|]. cbn.
        destruct (omap _ l) as [|x xs] eqn:Hx; [done|].
        assert (by_plugin !! id0 = Some (x :: xs)) by (apply IH1; by rewrite Hx). congruence. }
      split; [intros [= <-]; split; [done|by destruct (omap _ _)]|by intros [-> _]].
    + rewrite lookup_insert_ne, bool_decide_false by congruence. by rewrite app_nil_r, IH1.
  - split; [|unfold unowned at 2; cbn; by rewrite Ho]. intros id ix. setoid_rewrite omap_app. cbn. rewrite Ho.
    rewrite bool_decide_false by done. by rewrite app_nil_r, IH1.
Qed.

(** ** The whole batch as writes *)

Notation loaded := (pm_loaded pm).
Notation find_plugin id := (List.find (λ plugin, bool_decide (lp_id plugin = id)) loaded).
Notation gone := (Err (DE_Internal (Fmt "plugin owner {plugin_id:?} is no longer loaded" []))).

Definition unloaded_writes (groups : list (LoadedPluginId * list nat)) : list (nat * daemon unit) :=
  mjoin ((λ g, match find_plugin g.1 with
               | Some _ => []
               | None => (λ i, (i, gone)) <$> g.2
               end) <$> groups).
Definition batches_of (groups : list (LoadedPluginId * list nat)) : list (LoadedPlugin * list nat) :=
  omap (λ g, (λ plugin, (plugin, g.2)) <$> find_plugin g.1) groups.
Definition batch_writes (batches : list (LoadedPlugin * list nat)) : list (nat * daemon unit) :=
  mjoin ((λ b, zip b.2 (apply_plugin_batch hosts b.1 b.2 updates)) <$> batches).

Lemma find_batches groups bs r :
  fold_left (find_batch loaded) groups (bs, r)
  = (bs ++ batches_of groups, fold_left write (unloaded_writes groups) r).
Proof.
  revert bs r. induction groups as [|g groups IH]; intros bs r; cbn [fold_left].
  { cbn. by rewrite app_nil_r. }
  unfold find_batch at 2. unfold unloaded_writes, batches_of. cbn.
  destruct (find_plugin g.1) as [plugin|]; cbn; rewrite IH; [by rewrite <-app_assoc|].
  unfold fill_results. by rewrite fold_left_app.
Qed.

Lemma sequentials batches r :
  fold_left (sequential hosts updates) batches r = fold_left write (batch_writes batches) r.
Proof.
  revert r. induction batches as [|b batches IH]; intros r; cbn [fold_left]; [done|].
  unfold batch_writes. cbn. rewrite fold_left_app. apply IH.
Qed.

(** The groups in the order they are handled. *)
Definition groups : list (LoadedPluginId * list nat) :=
  merge_sort plugin_id_le (map_to_list (group_updates_by_owner owners updates).1).

Lemma elem_of_groups id ix : (id, ix) ∈ groups ↔ ix = indices_of id ∧ ix ≠ [].
Proof.
  unfold groups. rewrite merge_sort_Permutation, elem_of_map_to_list. apply group_spec.
Qed.

Definition all_writes : list (nat * daemon unit) :=
  omap unowned (imap pair updates) ++ unloaded_writes groups ++ batch_writes (batches_of groups).

Lemma apply_batch_writes :
  apply_batch hosts pm updates
  = from_option id (Err (DE_Internal (Lit "batch result missing for an index")))
      <$> fold_left write all_writes (replicate (length updates) None).
Proof.
  unfold apply_batch, apply_batch_inner, all_writes. pose proof (proj2 group_spec) as Hr.
  unfold groups. destruct (group_updates_by_owner owners updates) as [by_plugin results].
  cbn in Hr. subst results. cbn [fst]. rewrite find_batches. cbn [andb].
  by rewrite sequentials, !fold_left_app.
Qed.

(** The answer written for an update. *)
Definition answer_of (i : nat) (u : Update) (v : daemon unit) : Prop :=
  match owners !! device_of u with
  | None => v = Err (DE_DeviceUnowned (device_of u))
  | Some id =>
      match find_plugin id with
      | None => v = gone
      | Some plugin =>
          ∃ k, indices_of id !! k = Some i ∧
            apply_plugin_batch hosts plugin (indices_of id) updates !! k = Some v
      end
  end.

Lemma elem_of_unowned i v :
  (i, v) ∈ omap unowned (imap pair updates) ↔
  ∃ u, updates !! i = Some u ∧ owners !! device_of u = None ∧
    v = Err (DE_DeviceUnowned (device_of u)).
Proof.
  rewrite list_elem_of_omap. setoid_rewrite list_elem_of_lookup. setoid_rewrite list_lookup_imap. split.
  - intros ([j u] & [k Hk] & Hsel). destruct (updates !! k) as [u'|] eqn:Hu; [|done].
    injection Hk as -> ->. unfold unowned in Hsel. cbn in Hsel.
    destruct (owners !! device_of u) eqn:Ho; [done|]. injection Hsel as <- <-. eauto.
  - intros (u & Hu & Ho & ->). exists (i, u). split; [exists i; by rewrite Hu|].
    unfold unowned. cbn. by rewrite Ho.
Qed.

Lemma elem_of_unloaded i v :
  (i, v) ∈ unloaded_writes groups ↔
  ∃ u id, updates !! i = Some u ∧ owners !! device_of u = Some id ∧ find_plugin id = None ∧ v = gone.
Proof.
  unfold unloaded_writes. rewrite list_elem_of_join. setoid_rewrite list_elem_of_fmap. split.
  - intros (l & Hin & [id ix] & -> & [-> _]%elem_of_groups). cbn in Hin.
    destruct (find_plugin id) eqn:Hf; [set_solver|].
    apply list_elem_of_fmap in Hin as (j & [= -> ->] & (u & Hu & Ho)%elem_of_indices). eauto 10.
  - intros (u & id & Hu & Ho & Hf & ->).
    assert (i ∈ indices_of id) as Hi by (apply elem_of_indices; eauto).
    eexists. split; [|exists (id, indices_of id); split; [reflexivity|]]; cbn.
    + rewrite Hf. apply list_elem_of_fmap. eauto.
    + apply elem_of_groups. split; [done|]. intros Hnil. rewrite Hnil in Hi. set_solver.
Qed.

Lemma elem_of_batch_writes i v :
  (i, v) ∈ batch_writes (batches_of groups) ↔
  ∃ u id plugin k, updates !! i = Some u ∧ owners !! device_of u = Some id ∧
    find_plugin id = Some plugin ∧ indices_of id !! k = Some i ∧
    apply_plugin_batch hosts plugin (indices_of id) updates !! k = Some v.
Proof.
  unfold batch_writes, batches_of. rewrite list_elem_of_join. setoid_rewrite list_elem_of_fmap. split.
  - intros (l & Hin & [plugin ix] & -> & Hb).
    apply list_elem_of_omap in Hb as ([id ix'] & [-> _]%elem_of_groups & Hb). cbn in Hb.
    apply fmap_Some in Hb as (p & Hf & [= -> ->]). cbn in Hin.
    apply list_elem_of_lookup in Hin as [k Hk]. apply lookup_zip_Some in Hk as [Hk1 Hk2].
    assert (i ∈ indices_of id) as (u & Hu & Ho)%elem_of_indices by (by eapply list_elem_of_lookup_2).
    by exists u, id, p, k.
  - intros (u & id & plugin & k & Hu & Ho & Hf & Hk1 & Hk2).
    eexists. split; [|exists (plugin, indices_of id); split; [reflexivity|]]; cbn.
    + apply list_elem_of_lookup. exists k. by apply lookup_zip_Some.
    + apply list_elem_of_omap. exists (id, indices_of id). split; [|cbn; by rewrite Hf].
      apply elem_of_groups. split; [done|]. intros Hnil. by rewrite Hnil in Hk1.
Qed.

Lemma elem_of_writes i v :
  (i, v) ∈ all_writes ↔ ∃ u, updates !! i = Some u ∧ answer_of i u v.
Proof.
  unfold all_writes. rewrite !elem_of_app, elem_of_unowned, elem_of_unloaded, elem_of_batch_writes.
  unfold answer_of. split.
  - intros [(u & Hu & Ho & ->)|[(u & id & Hu & Ho & Hf & ->)|(u & id & p & k & Hu & Ho & Hf & Hk)]];
      exists u; (split; [done|]); rewrite Ho; [done|by rewrite Hf|rewrite Hf; by exists k].
  - intros (u & Hu & Ha). destruct (owners !! device_of u) as [id|] eqn:Ho; [|left; by eauto].
    destruct (find_plugin id) as [p|] eqn:Hf; [|right; left; by eauto 10].
    destruct Ha as (k & Hk & Hv). right. right. by exists u, id, p, k.
Qed.

(** Every update has exactly one answer. *)
Lemma answer_exists i u :
  updates !! i = Some u → ∃ v, answer_of i u v ∧ ∀ v', answer_of i u v' → v' = v.
Proof.
  intros Hu. unfold answer_of. destruct (owners !! device_of u) as [id|] eqn:Ho; [|by eauto].
  destruct (find_plugin id) as [p|]; [|by eauto].
  assert (i ∈ indices_of id) as [k Hk]%list_elem_of_lookup by (apply elem_of_indices; eauto).
  destruct (lookup_lt_is_Some_2 (apply_plugin_batch hosts p (indices_of id) updates) k) as [v Hv].
  { rewrite apply_plugin_batch_length; [by eapply lookup_lt_Some|].
    intros j (u' & Hu' & _)%elem_of_indices. by eapply lookup_lt_Some. }
  exists v. split; [by exists k|]. intros v' (k' & Hk' & Hv').
  assert (k' = k) as -> by (eapply NoDup_lookup; [apply NoDup_indices|done..]). congruence.
Qed.

Lemma apply_batch_answers i u :
  updates !! i = Some u → ∃ v, apply_batch hosts pm updates !! i = Some v ∧ answer_of i u v.
Proof.
  intros Hu. destruct (answer_exists i u Hu) as (v & Hv & Huniq). exists v. split; [|done].
  rewrite apply_batch_writes, list_lookup_fmap, (writes_lookup _ _ i v); [done|..].
  - apply elem_of_writes. eauto.
  - intros v' (u' & Hu' & Hv')%elem_of_writes. apply Huniq. congruence.
  - rewrite length_replicate. by eapply lookup_lt_Some.
Qed.

(** ** Replies *)

(** What the host's reply to a piece says of its [j]th update: when it has one outcome for
    each update, the outcome at [j], otherwise that the reply is invalid or the call failed. *)
Definition host_replied (plugin : LoadedPlugin) (sent : list (list PluginUpdate))
    (chunk : list PluginUpdate) (j : nat) (update : PluginUpdate) (v : daemon unit) : Prop :=
  match host_apply_batch hosts plugin sent chunk with
  | Ok outcomes =>
      if bool_decide (length outcomes = length chunk)
      then ∃ outcome, outcomes !! j = Some outcome ∧ (v = Ok tt ↔ outcome = Outcome_Applied) ∧
             v = apply_outcome_to_result (lp_name plugin) update outcome
      else v = Err (DE_Internal
                      (Fmt "plugin host returned an invalid batch response for {}"
                         [AStr (lp_name plugin)]))
  | Err error =>
      v = Err (DE_Internal
                 (Nested "plugin host batch call failed for {}: {error:#}"
                    [AStr (lp_name plugin)] error))
  end.

(** The updates of a plugin, as they are sent. *)
Definition updates_of (id : LoadedPluginId) : list PluginUpdate :=
  omap (λ i, to_plugin_update <$> updates !! i) (indices_of id).

(** The answer of an update: that of its plugin is the host's reply to the piece that the
    update was sent in, after the earlier pieces, at its place in the piece. *)
Definition update_answer (i : nat) (u : Update) (v : daemon unit) : Prop :=
  match owners !! device_of u with
  | None => v = Err (DE_DeviceUnowned (device_of u))
  | Some id =>
      match find_plugin id with
      | None => v = gone
      | Some plugin =>
          ∃ before chunk after j,
            chunks MAX_PLUGIN_BATCH_UPDATES (updates_of id) = before ++ chunk :: after ∧
            indices_of id !! (length (mjoin before) + j) = Some i ∧
            chunk !! j = Some (to_plugin_update u) ∧
            host_replied plugin before chunk j (to_plugin_update u) v
      end
  end.

Lemma outcome_applied plugin update outcome :
  apply_outcome_to_result plugin update outcome = Ok tt ↔ outcome = Outcome_Applied.
Proof. by destruct outcome. Qed.

Lemma chunk_outcomes_replied plugin sent chunk j v :
  chunk_outcomes hosts plugin sent chunk !! j = Some v →
  ∃ update, chunk !! j = Some update ∧ host_replied plugin sent chunk j update v.
Proof.
  unfold chunk_outcomes, host_replied. destruct (host_apply_batch _ _ _ _) as [outcomes|error].
  - case_bool_decide.
    + intros (update & outcome & -> & Hc & Ho)%lookup_zip_with_Some. exists update. split; [done|].
      exists outcome. split_and!; [done|apply outcome_applied|done].
    + rewrite list_lookup_fmap. intros (update & Hu & ->)%fmap_Some. by exists update.
  - rewrite list_lookup_fmap. intros (update & Hu & ->)%fmap_Some. by exists update.
Qed.

Lemma send_chunks_lookup plugin pieces k v :
  (send_chunks hosts plugin pieces).2 !! k = Some v →
  ∃ before chunk after j, pieces = before ++ chunk :: after ∧ k = length (mjoin before) + j ∧
    chunk_outcomes hosts plugin before chunk !! j = Some v.
Proof.
  revert k. induction pieces as [|c pieces IH] using rev_ind; intros k; [done|].
  pose proof (send_chunks_spec plugin pieces) as [Hsent Hlen].
  unfold send_chunks in *. rewrite fold_left_app. cbn [fold_left fst snd]. rewrite Hsent.
  intros [Hk|[Hle Hk]]%lookup_app_Some.
  - apply IH in Hk as (before & chunk & after & j & -> & -> & Hv).
    exists before, chunk, (after ++ [c]), j. split; [by rewrite <-app_assoc|done].
  - rewrite Hlen in Hle, Hk. exists pieces, c, [], (k - length (mjoin pieces)).
    split_and!; [done|lia|done].
Qed.

Lemma updates_of_lookup id k i u :
  indices_of id !! k = Some i → updates !! i = Some u →
  updates_of id !! k = Some (to_plugin_update u).
Proof.
  unfold updates_of. assert (∀ i, i ∈ indices_of id → i < length updates) as Hin.
  { intros i' (u' & Hu' & _)%elem_of_indices. by eapply lookup_lt_Some. }
  revert k. induction (indices_of id) as [|x ix IH]; intros k Hk Hu; [done|]. cbn.
  destruct (lookup_lt_is_Some_2 updates x) as [y Hy]; [apply Hin; by left|]. rewrite Hy. cbn.
  destruct k as [|k]; cbn in Hk |- *; [by simplify_eq|]. apply IH; [|done..].
  intros i' Hi'. apply Hin. by right.
Qed.

Lemma answer_of_update i u v : updates !! i = Some u → answer_of i u v → update_answer i u v.
Proof.
  unfold answer_of, update_answer. intros Hu. destruct (owners !! _) as [id|]; [|done].
  destruct (find_plugin id) as [plugin|]; [|done]. intros (k & Hk & Hv).
  unfold apply_plugin_batch in Hv. apply send_chunks_lookup in Hv as (before & chunk & after & j & Hp & -> & Hv).
  apply chunk_outcomes_replied in Hv as (update & Hc & Hr). exists before, chunk, after, j.
  assert (updates_of id !! (length (mjoin before) + j) = Some update) as Hup.
  { fold (updates_of id) in Hp. assert (mjoin (before ++ chunk :: after) = updates_of id) as <-.
    { rewrite <-Hp. apply chunks_from_concat; unfold MAX_PLUGIN_BATCH_UPDATES; lia. }
    rewrite join_app. cbn. rewrite lookup_app_r by lia.
    replace (length (mjoin before) + j - length (mjoin before)) with j by lia.
    by apply lookup_app_l_Some. }
  rewrite (updates_of_lookup id _ i u Hk Hu) in Hup. injection Hup as <-. done.
Qed.
End batches.

(** C26: A batch answers every update, in order: an update of a device no plugin owns with
    [DeviceUnowned], one whose owner is gone with an internal error.  Any other is sent to
    its plugin: each plugin is sent exactly its own updates, in order, in pieces within the
    host's limit, and the answer of an update is what the host replied, at the place of the
    update in its piece: success just when that outcome is [Applied], the error of another
    outcome, and an internal error when the call failed or the reply did not have one
    outcome for each update of the piece. *)
Theorem apply_batch_routes hosts pm updates :
  length (apply_batch hosts pm updates) = length updates ∧
  (∀ i u, updates !! i = Some u →
     ∃ v, apply_batch hosts pm updates !! i = Some v ∧ update_answer hosts pm updates i u v) ∧
  (∀ plugin id,
     let mine := updates_of pm updates id in
     let pieces := (send_chunks hosts plugin (chunks MAX_PLUGIN_BATCH_UPDATES mine)).1 in
     mjoin pieces = mine ∧ pieces = chunks MAX_PLUGIN_BATCH_UPDATES mine ∧
     Forall (λ c, c ≠ [] ∧ length c ≤ MAX_PLUGIN_BATCH_UPDATES) pieces).
Proof.
  split_and!.
  - by rewrite apply_batch_writes, length_fmap, writes_length, length_replicate.
  - intros i u Hu. destruct (apply_batch_answers hosts pm updates i u Hu) as (v & Hv & Ha).
    exists v. split; [done|]. by apply answer_of_update.
  - intros plugin id mine pieces. unfold pieces. rewrite (proj1 (send_chunks_spec hosts _ _)).
    unfold chunks, MAX_PLUGIN_BATCH_UPDATES. split_and!;
      [apply chunks_from_concat; lia|done|apply chunks_from_bound; lia].
Qed.

(** ** Workers *)

Lemma start_workers hosts batches acc r :
  (∀ p, worker_starts hosts p = Ok tt) →
  fold_left (start_worker hosts) batches (acc, r) = (acc ++ batches, r).
Proof.
  intros Hs. revert acc. induction batches as [|b batches IH]; intros acc; cbn [fold_left].
  { by rewrite app_nil_r. }
  unfold start_worker at 2. rewrite Hs. cbn [fst snd]. rewrite IH. by rewrite <-app_assoc.
Qed.

(** When every worker starts and none panics, one worker per plugin gives the answers
    of the sequential run. *)
Theorem parallel_matches_sequential hosts pm updates :
  (∀ p, worker_starts hosts p = Ok tt) → (∀ p, worker_panics hosts p = false) →
  apply_batch_parallel hosts pm updates = apply_batch hosts pm updates.
Proof.
  intros Hs Hp. unfold apply_batch_parallel, apply_batch, apply_batch_inner.
  destruct (group_updates_by_owner _ _) as [by_plugin results].
  destruct (fold_left (find_batch _) _ _) as [batches r]. cbn [andb].
  destruct (1 <? length batches); [|done]. rewrite start_workers by done. f_equal.
  cbn [app]. revert r. induction batches as [|b batches IH]; intros r; cbn [fold_left]; [done|].
  rewrite IH. f_equal. unfold join_worker, sequential. by rewrite Hp.
Qed.

(** ** Witnesses *)

Module Answering.
(** Every host applies what it is sent, but the second plugin's is unreachable. *)
Definition hosts : Hosts := {|
  host_apply_batch plugin _ chunk :=
    Ok ((λ _, if bool_decide (lp_name plugin = "openrgb"%string)
              then Outcome_Unavailable "offline" else Outcome_Applied) <$> chunk);
  host_apply _ _ := Ok Outcome_Applied;
  host_read_state _ _ := Ok {| pss_observations := []; pss_errors := [] |};
  worker_starts _ := Ok tt;
  worker_panics _ := false |}.
Definition clear (device : string) : Update := (TargetId_Device (DeviceId_new device), Op_Clear).
Definition updates : list Update := [clear "strip"; clear "kbd"; clear "fan"; clear "strip"].
End Answering.

Example apply_batch_example :
  apply_batch Answering.hosts Loaded.manager Answering.updates
  = [Err (DE_PluginUnavailable "openrgb" "strip" "offline"); Ok tt; Err (DE_DeviceUnowned "fan");
     Err (DE_PluginUnavailable "openrgb" "strip" "offline")].
Proof. vm_compute. reflexivity. Qed.

Lemma parallel_matches_sequential_witness :
  (∀ p, worker_starts Answering.hosts p = Ok tt) ∧
  apply_batch_parallel Answering.hosts Loaded.manager Answering.updates
  = apply_batch Answering.hosts Loaded.manager Answering.updates.
Proof.
  split; [intros p; reflexivity|].
  apply parallel_matches_sequential; intros p; reflexivity.
Defined.
