(* ===== verification/Readback.v ===== *)
(** * Readback: the snapshot half of [luminated/src/state/mod.rs] and [observation.rs]

    What the daemon asks plugins to read, and how it takes their answer: a snapshot is
    validated as a whole against the device's advertised readback before any of it is
    published.  The claims show that a refused snapshot changes nothing and an accepted
    one publishes exactly what was read. *)

From S2P Require Import Prelude Model Colours Graph Scenes Daemon Topology Persistence Validation Observation Descriptors.

(** ** Read requests *)

Definition push_read_target (targets : list PluginReadTarget) (target : PluginTarget)
    (capabilities : CapabilitySet) : list PluginReadTarget :=
  match cs_state_readback capabilities with
  | Readback_Readable facets _ _ =>
      if bool_decide (facets = []) then targets
      else targets ++ [{| prt_target := target; prt_facets := rf_facet <$> facets |}]
  | Readback_None => targets
  end.

Definition push_surface_reads (device : string) (targets : list PluginReadTarget) (surface : Surface) :
    list PluginReadTarget :=
  let surface_name := SurfaceId_as_str (surface_id surface) in
  fold_left (λ targets element,
      push_read_target targets
        (PluginTarget_Element device surface_name (ElementId_as_str (element_id element)))
        (element_capabilities element))
    (surface_elements surface)
    (push_read_target targets (PluginTarget_Surface device surface_name)
       (surface_capabilities surface)).

Definition read_request (st : DaemonState) (device : DeviceId) : PluginReadRequest :=
  match ds_devices st !! device with
  | None => {| prr_targets := [] |}
  | Some device_state =>
      let name := DeviceId_as_str device in
      {| prr_targets :=
           fold_left (push_surface_reads name) (device_surfaces device_state)
             (push_read_target [] (PluginTarget_Device name) (device_capabilities device_state)) |}
  end.

Definition readable_fidelity (capabilities : CapabilitySet) (facet : StateFacetKind) :
    option ReadbackFidelity :=
  match cs_state_readback capabilities with
  | Readback_Readable facets _ _ =>
      rf_fidelity <$> List.find (λ readable, bool_decide (rf_facet readable = facet)) facets
  | Readback_None => None
  end.

Definition canonical_target_from_plugin (target : PluginTarget) : daemon TargetId :=
  match target with
  | PluginTarget_Device device => Ok (TargetId_Device (DeviceId_new device))
  | PluginTarget_Surface device surface =>
      Ok (TargetId_Surface (DeviceId_new device) (SurfaceId_new surface))
  | PluginTarget_Element device surface element =>
      Ok (TargetId_Element (DeviceId_new device) (SurfaceId_new surface) (ElementId_new element))
  | PluginTarget_Group _ _ =>
      Err (DE_Internal (Lit "plugin snapshot used a non-canonical group target"))
  end.

(** ** Validation *)

Section readback.
Context `{Env}.

Definition Validated : Type := TargetId * FacetValue * ReadbackFidelity.

(** A read error must name a target of the device. *)
Definition check_read_error (st : DaemonState) (device : DeviceId) (error : PluginReadError) :
    daemon unit :=
  target ← canonical_target_from_plugin (pre_target error);
  ensure (bool_decide (TargetId_device_id target = device) &&
          bool_decide (is_Some (capabilities_for_target st target)))
    (DE_Internal (Lit "plugin snapshot error referenced a foreign target")).

(** The value of an observation; the debug renderings of messages are left out. *)
Definition check_value (st : DaemonState) (target : TargetId) (capabilities : CapabilitySet)
    (value : FacetValue) : daemon unit :=
  match value with
  | Facet_Appearance (Appearance_Static colour) => validate_colour st target colour
  | Facet_Appearance (Appearance_Effect effect) => validate_effect st target effect
  | Facet_Appearance Appearance_Mixed =>
      Err (DE_Internal (Lit "plugin reported daemon-synthesized mixed appearance for {target:?}"))
  | Facet_Brightness value => validate_brightness st target value
  | Facet_AppearanceSlots slots =>
      complete ← validate_observed_appearance_slot_values st target (ass_values slots);
      ensure (Bool.eqb (ass_complete slots) complete)
        (DE_Internal
           (Lit "plugin reported inconsistent appearance-slot completeness for {target:?}"))
  | Facet_Emission _ =>
      ensure (cs_emission capabilities)
        (DE_Internal (Lit "plugin reported emission for unsupported target {target:?}"))
  | Facet_PhysicalPower _ =>
      ensure (bool_decide (is_Some (cs_physical_power capabilities)))
        (DE_Internal (Lit "plugin reported physical power for unsupported target {target:?}"))
  | Facet_EffectiveAppearance _ => Ok tt
  end.

(** One observation: the facets seen, and the validated observations so far. *)
Definition check_observation (st : DaemonState) (device : DeviceId)
    (acc : gset (TargetId * StateFacetKind) * list Validated) (o : PluginFacetObservation) :
    daemon (gset (TargetId * StateFacetKind) * list Validated) :=
  let '(seen, validated) := acc in
  target ← canonical_target_from_plugin (pfo_target o);
  _ ← ensure (bool_decide (TargetId_device_id target = device))
        (DE_Internal (Lit "plugin snapshot contained a foreign device target"));
  capabilities ← capabilities_for_target_or_error st target;
  let facet := FacetValue_kind (pfo_value o) in
  _ ← ensure (negb (bool_decide ((target, facet) ∈ seen)))
        (DE_Internal (Lit "plugin snapshot contained a duplicate facet"));
  fidelity ← ok_or (readable_fidelity capabilities facet)
    (DE_Internal (Lit "plugin reported unadvertised {facet:?} readback for {target:?}"));
  _ ← check_value st target capabilities (pfo_value o);
  Ok ({[(target, facet)]} ∪ seen, validated ++ [(target, pfo_value o, fidelity)]).

Definition validate_snapshot (st : DaemonState) (device : DeviceId)
    (observations : list PluginFacetObservation) (errors : list PluginReadError) :
    daemon (list Validated) :=
  _ ← try_for (check_read_error st device) errors;
  '(_, validated) ← try_fold (check_observation st device) (∅, []) observations;
  Ok validated.

(** ** Publication *)

Definition confidence_of (fidelity : ReadbackFidelity) : ObservationConfidence :=
  match fidelity with Fidelity_Exact => Confirmed | Fidelity_BestEffort => BestEffort end.

(** Appearance slots that were not read keep their previous values. *)
Definition merge_previous (st : DaemonState) (target : TargetId) (value : FacetValue) :
    FacetValue :=
  match value with
  | Facet_AppearanceSlots slots =>
      let values :=
        match fo_value <$> ds_observations st !! (target, Kind_AppearanceSlots) with
        | Some (Facet_AppearanceSlots previous) =>
            fold_left merge_slot (ass_values previous) (ass_values slots)
        | _ => ass_values slots
        end in
      Facet_AppearanceSlots {|
        ass_values := values;
        ass_complete :=
          match capabilities_for_target st target ≫= cs_appearance_slots with
          | Some capability => bool_decide (length values = length (asc_slots capability))
          | None => false
          end |}
  | value => value
  end.

(** One validated observation: the state, and the facets to adopt. *)
Definition publish (now : Z) (device : DeviceId) (adopt : bool)
    (acc : DaemonState * list AdoptedFacet) (v : Validated) : DaemonState * list AdoptedFacet :=
  let '(st, adopted) := acc in
  let '(target, value, fidelity) := v in
  let confidence := confidence_of fidelity in
  let value := merge_previous st target value in
  let facet := FacetValue_kind value in
  let st := set_observations st
    (<[(target, facet) := {|
         fo_target := target; fo_value := value; fo_confidence := confidence;
         fo_source := Source_Readback; fo_observed_at_ms := now; fo_stale := false |}]>
       (ds_observations st)) in
  if adopt then
    if bool_decide (confidence = Confirmed) then
      (update_device_status st device (λ s, set_adoption_status s target facet Adoption_Pending),
       adopted ++ [{| af_target := target; af_value := value; af_confirmed_at_ms := now |}])
    else
      (update_device_status st device
         (λ s, set_adoption_status s target facet Adoption_IneligibleFidelity), adopted)
  else (st, adopted).

(** [join("; ")] *)
Fixpoint join_diagnostics (l : list string) : string :=
  match l with
  | [] => ""
  | [d] => d
  | d :: l => d +:+ "; " +:+ join_diagnostics l
  end.

Definition settle (now : Z) (st : DaemonState) (device : DeviceId) (had_observations : bool)
    (errors : list PluginReadError) : DaemonState :=
  if bool_decide (length errors = 0) then complete_reconciliation now st device
  else
    let diagnostic := join_diagnostics (pre_diagnostic <$> errors) in
    if had_observations then partial_reconciliation_failure now st device diagnostic
    else fail_reconciliation now st device diagnostic.

Definition accept_snapshot (now : Z) (st : DaemonState) (device : DeviceId)
    (expected_generation : Z) (snapshot : PluginStateSnapshot) (adopt : bool) :
    DaemonState * daemon (list AdoptedFacet) :=
  if negb (generation st device =? expected_generation)%Z
  then (st, Err (DE_Internal (Lit "discarded stale state snapshot after a newer mutation")))
  else
    match validate_snapshot st device (pss_observations snapshot) (pss_errors snapshot) with
    | Err e => (st, Err e)
    | Ok validated =>
        let '(st, adopted) := fold_left (publish now device adopt) validated (st, []) in
        (settle now st device (negb (bool_decide (length (pss_observations snapshot) = 0)))
           (pss_errors snapshot), Ok adopted)
    end.

(** ** Drift *)

(** The confirmed observation the operation should have left, if it sets a facet. *)
Definition expected_facet (st : DaemonState) (target : TargetId) (operation : PluginUpdateOperation) :
    option FacetValue :=
  match operation with
  | Op_SetEffect Effect_Off => Some (Facet_Emission Dark)
  | Op_SetEffect (Effect_Static colour) => Some (Facet_Appearance (Appearance_Static colour))
  | Op_SetEffect effect => Some (Facet_Appearance (Appearance_Effect effect))
  | Op_SetBrightness value => Some (Facet_Brightness value)
  | Op_SetAppearanceSlots values =>
      Some (Facet_AppearanceSlots {|
        ass_values := values;
        ass_complete :=
          match capabilities_for_target st target ≫= cs_appearance_slots with
          | Some capability => bool_decide (length values = length (asc_slots capability))
          | None => false
          end |})
  | Op_Clear | Op_SaveCurrent => None
  end.

Definition confirmed_observations_match (st : DaemonState)
    (operations : list (TargetId * PluginUpdateOperation)) : bool :=
  forallb (λ op,
      match expected_facet st op.1 op.2 with
      | None => true
      | Some expected =>
          match ds_observations st !! (op.1, FacetValue_kind expected) with
          | Some observation =>
              negb (bool_decide (fo_confidence observation = Confirmed)) ||
              bool_decide (fo_value observation = expected)
          | None => true
          end
      end)
    operations.

Definition note_successful_operation (now : Z) (st : DaemonState) (target : TargetId)
    (operation : PluginUpdateOperation) : DaemonState :=
  match operation with
  | Op_SetEffect effect => note_successful_apply now st target (TS_Effect effect)
  | Op_SetBrightness value => note_successful_apply now st target (TS_Brightness value)
  | Op_Clear => note_successful_apply now st target TS_Clear
  | Op_SetAppearanceSlots values => note_successful_apply now st target (TS_AppearanceSlots values)
  | Op_SaveCurrent => st
  end.

(** ** What a snapshot must be *)

Definition validated_key (v : Validated) : TargetId * StateFacetKind :=
  (v.1.1, FacetValue_kind v.1.2).

(** The plugin's observation is one the device advertises, with a value the target
    could have been given, read with the advertised fidelity. *)
Definition reads (st : DaemonState) (device : DeviceId) (o : PluginFacetObservation)
    (v : Validated) : Prop :=
  canonical_target_from_plugin (pfo_target o) = Ok v.1.1 ∧ TargetId_device_id v.1.1 = device ∧
  v.1.2 = pfo_value o ∧
  ∃ capabilities, capabilities_for_target st v.1.1 = Some capabilities ∧
    readable_fidelity capabilities (FacetValue_kind (pfo_value o)) = Some v.2 ∧
    check_value st v.1.1 capabilities (pfo_value o) = Ok tt.

Definition names_target (st : DaemonState) (device : DeviceId) (e : PluginReadError) : Prop :=
  ∃ t, canonical_target_from_plugin (pre_target e) = Ok t ∧ TargetId_device_id t = device ∧
    is_Some (capabilities_for_target st t).

(** A snapshot of the device: readable facets, none twice, and errors on its targets. *)
Definition snapshot_reads (st : DaemonState) (device : DeviceId) (snapshot : PluginStateSnapshot)
    (validated : list Validated) : Prop :=
  Forall (names_target st device) (pss_errors snapshot) ∧
  Forall2 (reads st device) (pss_observations snapshot) validated ∧
  NoDup (validated_key <$> validated).

Lemma check_read_error_Ok st device e :
  check_read_error st device e = Ok tt ↔ names_target st device e.
Proof.
  unfold check_read_error, names_target. rewrite bind_Ok. setoid_rewrite ensure_Ok.
  setoid_rewrite andb_true_iff. by setoid_rewrite bool_decide_eq_true.
Qed.

Lemma check_observation_Ok st device seen validated o acc :
  check_observation st device (seen, validated) o = Ok acc ↔
  ∃ v, reads st device o v ∧ validated_key v ∉ seen ∧
    acc = ({[validated_key v]} ∪ seen, validated ++ [v]).
Proof.
  unfold check_observation, reads, validated_key. split.
  - intros Hc. apply bind_Ok in Hc as (t & Ht & Hc).
    apply bind_unit_Ok in Hc as [Hd%ensure_Ok%bool_decide_eq_true Hc].
    apply bind_Ok in Hc as (caps & Hcaps & Hc).
    apply bind_unit_Ok in Hc as [Hs%ensure_Ok%negb_true_iff%bool_decide_eq_false Hc].
    apply bind_Ok in Hc as (f & Hf%ok_or_Ok & Hc). apply bind_unit_Ok in Hc as [Hv [= <-]].
    exists (t, pfo_value o, f). cbn [fst snd]. split_and!; try done. exists caps. split_and!; [|done..].
    unfold capabilities_for_target_or_error in Hcaps. by apply ok_or_Ok in Hcaps.
  - intros ([[t value] f] & (Ht & Hd & Hval & caps & Hcaps & Hf & Hv) & Hs & ->). cbn [fst snd] in *. subst value.
    rewrite Ht. apply bind_unit_Ok. split; [by apply ensure_Ok, bool_decide_eq_true|].
    unfold capabilities_for_target_or_error. rewrite Hcaps. apply bind_unit_Ok.
    split; [by apply ensure_Ok, negb_true_iff, bool_decide_eq_false|].
    rewrite Hf. cbn [ok_or mbind result_bind]. by rewrite Hv.
Qed.

Lemma check_observations_Ok st device os seen validated acc :
  try_fold (check_observation st device) (seen, validated) os = Ok acc ↔
  ∃ vs, Forall2 (reads st device) os vs ∧ NoDup (validated_key <$> vs) ∧
    (∀ v, v ∈ vs → validated_key v ∉ seen) ∧
    acc = (list_to_set (validated_key <$> vs) ∪ seen, validated ++ vs).
Proof.
  revert seen validated. induction os as [|o os IH]; intros seen validated; cbn [try_fold].
  - split.
    + intros [= <-]. exists []. rewrite app_nil_r. split_and!; [constructor..|set_solver|].
      f_equal. set_solver.
    + intros (vs & ->%Forall2_nil_inv_l & _ & _ & ->). rewrite app_nil_r. do 2 f_equal. set_solver.
  - rewrite bind_Ok. split.
    + intros (acc1 & (v & Hv & Hs & ->)%check_observation_Ok & (vs & Hvs & Hnd & Hd & ->)%IH).
      exists (v :: vs). cbn. split_and!.
      * by constructor.
      * constructor; [|done]. intros (v' & Heq & Hin)%list_elem_of_fmap.
        apply (Hd v' Hin). rewrite <-Heq. set_solver.
      * intros v' [->|Hin]%elem_of_cons; [done|]. specialize (Hd v' Hin). set_solver.
      * rewrite <-app_assoc. f_equal. set_solver.
    + intros (vs & Hvs & Hnd & Hd & ->). apply Forall2_cons_inv_l in Hvs as (v & vs' & Hv & Hvs & ->).
      cbn in Hnd. apply NoDup_cons in Hnd as [Hv' Hnd]. exists ({[validated_key v]} ∪ seen, validated ++ [v]).
      split; [apply check_observation_Ok; exists v; split_and!; [done|apply Hd; by left|done]|].
      apply IH. exists vs'. split_and!; [done..| |].
      * intros x Hx [Heq%elem_of_singleton|Hs]%elem_of_union; [|apply (Hd x); [by right|done]].
        apply Hv'. rewrite <-Heq. by apply list_elem_of_fmap_2.
      * rewrite <-app_assoc. cbn. f_equal. set_solver.
Qed.

Lemma validate_snapshot_Ok st device snapshot validated :
  validate_snapshot st device (pss_observations snapshot) (pss_errors snapshot) = Ok validated ↔
  snapshot_reads st device snapshot validated.
Proof.
  unfold validate_snapshot, snapshot_reads. rewrite bind_unit_Ok, try_for_Ok, bind_Ok.
  assert (Forall (λ e, check_read_error st device e = Ok tt) (pss_errors snapshot) ↔
    Forall (names_target st device) (pss_errors snapshot)) as ->.
  { apply Forall_iff. intros e. apply check_read_error_Ok. }
  split.
  - intros (He & [seen vs] & (vs' & Hvs & Hnd & _ & [= -> ->])%check_observations_Ok & [= <-]). done.
  - intros (He & Hvs & Hnd). split; [done|]. eexists (_, _). split; [|reflexivity].
    apply check_observations_Ok. exists validated. split_and!; [done..|set_solver|done].
Qed.

(** ** What is published *)

(** The observation that records the reading, next to what was known in [st]. *)
Definition published (now : Z) (st : DaemonState) (v : Validated) : FacetObservation := {|
  fo_target := v.1.1; fo_value := merge_previous st v.1.1 v.1.2; fo_confidence := confidence_of v.2;
  fo_source := Source_Readback; fo_observed_at_ms := now; fo_stale := false |}.

(** Only exact readings are offered for adoption. *)
Definition adoptable (now : Z) (st : DaemonState) (v : Validated) : option AdoptedFacet :=
  match v.2 with
  | Fidelity_Exact =>
      Some {| af_target := v.1.1; af_value := merge_previous st v.1.1 v.1.2;
              af_confirmed_at_ms := now |}
  | Fidelity_BestEffort => None
  end.

Definition publish_all (now : Z) (st : DaemonState)
    (observations : gmap (TargetId * StateFacetKind) FacetObservation) (vs : list Validated) :
    gmap (TargetId * StateFacetKind) FacetObservation :=
  fold_left (λ o v, <[validated_key v := published now st v]> o) vs observations.

Lemma merge_previous_kind st t v : FacetValue_kind (merge_previous st t v) = FacetValue_kind v.
Proof. by destruct v. Qed.

Lemma merge_previous_observed st obs m t v :
  obs !! (t, FacetValue_kind v) = ds_observations st !! (t, FacetValue_kind v) →
  merge_previous (set_device_status (set_observations st obs) m) t v = merge_previous st t v.
Proof. destruct st, v; cbn; try done. by intros ->. Qed.

Lemma publish_one now device adopt st obs m adopted v :
  obs !! validated_key v = ds_observations st !! validated_key v →
  ∃ m', publish now device adopt (set_device_status (set_observations st obs) m, adopted) v
    = (set_device_status (set_observations st (<[validated_key v := published now st v]> obs)) m',
       adopted ++ (if adopt then option_list (adoptable now st v) else [])).
Proof.
  destruct v as [[t value] f]. unfold validated_key, publish, published, adoptable. cbn [fst snd].
  intros Hobs. rewrite (merge_previous_observed st obs m t value Hobs), merge_previous_kind.
  destruct adopt; [destruct f|]; cbn [confidence_of]; rewrite ?bool_decide_true, ?bool_decide_false by done;
    cbn [option_list]; rewrite ?app_nil_r; destruct st; eexists; cbn; reflexivity.
Qed.

Lemma publishes now device adopt st vs obs m adopted :
  NoDup (validated_key <$> vs) →
  (∀ v, v ∈ vs → obs !! validated_key v = ds_observations st !! validated_key v) →
  ∃ m', fold_left (publish now device adopt) vs
          (set_device_status (set_observations st obs) m, adopted)
    = (set_device_status (set_observations st (publish_all now st obs vs)) m',
       adopted ++ (if adopt then omap (adoptable now st) vs else [])).
Proof.
  revert obs m adopted. induction vs as [|v vs IH]; intros obs m adopted Hnd Hobs; cbn [fold_left].
  { exists m. cbn. destruct adopt; by rewrite app_nil_r. }
  cbn in Hnd. apply NoDup_cons in Hnd as [Hv Hnd].
  destruct (publish_one now device adopt st obs m adopted v) as [m1 ->]; [apply Hobs; by left|].
  destruct (IH (<[validated_key v := published now st v]> obs) m1
    (adopted ++ (if adopt then option_list (adoptable now st v) else []))) as [m2 Hm2]; [done| |].
  - intros x Hx. rewrite lookup_insert_ne; [apply Hobs; by right|].
    intros Heq. apply Hv. rewrite Heq. by apply list_elem_of_fmap_2.
  - exists m2. rewrite Hm2. f_equal. rewrite <-app_assoc. f_equal.
    destruct adopt; [|done]. cbn. by destruct (adoptable now st v).
Qed.

Lemma publish_all_lookup now st obs vs :
  NoDup (validated_key <$> vs) →
  (∀ v, v ∈ vs → publish_all now st obs vs !! validated_key v = Some (published now st v)) ∧
  (∀ k, k ∉ validated_key <$> vs → publish_all now st obs vs !! k = obs !! k).
Proof. apply Prelude.fold_insert_lookup. Qed.

(** What the daemon believes of the device after a read that failed outright. *)
Definition stale_for (device : DeviceId)
    (observations : gmap (TargetId * StateFacetKind) FacetObservation) :
    gmap (TargetId * StateFacetKind) FacetObservation :=
  map_imap (λ k o, Some (if bool_decide (TargetId_device_id k.1 = device)
                         then stale_observation o else o)) observations.

Lemma settle_spec now st device had errors :
  ∃ m, settle now st device had errors
    = set_device_status
        (set_observations st
           (if bool_decide (length errors = 0) || had then ds_observations st
            else stale_for device (ds_observations st))) m.
Proof.
  unfold settle. case_bool_decide; [|destruct had]; destruct st; eexists; reflexivity.
Qed.

(** A snapshot of a device is taken whole or not at all.  It is refused, with the state
    untouched, exactly when a newer mutation overtook it or some part of it is not a
    reading the device advertises.  Otherwise every reading is recorded with the
    confidence its fidelity warrants, every other observation and everything else is
    kept (but for staleness, when nothing could be read), and the facets offered for
    adoption are exactly the exact readings. *)
Theorem accept_snapshot_correct now st device expected snapshot adopt :
  match accept_snapshot now st device expected snapshot adopt with
  | (st', Err _) =>
      st' = st ∧
      (generation st device ≠ expected ∨ ∀ vs, ¬ snapshot_reads st device snapshot vs)
  | (st', Ok adopted) =>
      generation st device = expected ∧
      ∃ vs m, snapshot_reads st device snapshot vs ∧
        adopted = (if adopt then omap (adoptable now st) vs else []) ∧
        st' = set_device_status
          (set_observations st
             (if bool_decide (pss_errors snapshot = [] ∨ pss_observations snapshot ≠ [])
              then publish_all now st (ds_observations st) vs
              else stale_for device (ds_observations st))) m ∧
        (∀ v, v ∈ vs → ds_observations st' !! validated_key v = Some (published now st v))
  end.
Proof.
  unfold accept_snapshot. destruct (Z.eqb_spec (generation st device) expected) as [Hg|Hg]; cbn [negb];
    [|by auto].
  destruct (validate_snapshot _ _ _ _) as [vs|e] eqn:Hv.
  2:{ split; [done|]. right. intros vs Hvs%validate_snapshot_Ok. congruence. }
  apply validate_snapshot_Ok in Hv. pose proof Hv as (_ & Hf & Hnd).
  destruct (publishes now device adopt st vs (ds_observations st) (ds_device_status st) []) as [m1 H1];
    [done|done|].
  replace (set_device_status (set_observations st (ds_observations st)) (ds_device_status st))
    with st in H1 by (by destruct st). rewrite H1.
  destruct (settle_spec now
    (set_device_status (set_observations st (publish_all now st (ds_observations st) vs)) m1) device
    (negb (bool_decide (length (pss_observations snapshot) = 0))) (pss_errors snapshot)) as [m2 ->].
  split; [done|]. exists vs, m2.
  assert (bool_decide (length (pss_errors snapshot) = 0) ||
      negb (bool_decide (length (pss_observations snapshot) = 0))
    = bool_decide (pss_errors snapshot = [] ∨ pss_observations snapshot ≠ [])) as ->.
  { rewrite <-bool_decide_not, <-bool_decide_or. apply bool_decide_ext.
    by rewrite !length_zero_iff_nil. }
  assert (pss_observations snapshot = [] → vs = []) as Hempty.
  { intros Hnil. rewrite Hnil in Hf. by apply Forall2_nil_inv_l in Hf. }
  split_and!; [done|done| |].
  - case_bool_decide as Hc; destruct st; [done|]. cbn. do 2 f_equal.
    rewrite Hempty; [done|]. destruct (pss_observations snapshot); [done|]. destruct Hc. by right.
  - intros v Hin. case_bool_decide as Hc; destruct st; cbn.
    + by apply publish_all_lookup.
    + rewrite Hempty in Hin; [set_solver|]. destruct (pss_observations snapshot); [done|]. destruct Hc. by right.
Qed.
End readback.
