(* ===== verification/Aggregates.v ===== *)
(** * Aggregates: what the daemon reports, from [luminated/src/state/observation.rs]

    [device_state_status] combines what is known of the parts of a device into what
    is reported of its surfaces, groups and the device itself, and
    [collection_state_status] does so across a collection.  The recursion over groups
    has no guard of its own: it relies on normalisation having refused cyclic groups,
    and is shown to end for such a device.  The recursion over collections is guarded
    and memoised, and is shown to agree with the plain recursive definition.  The clock
    is an argument. *)

From S2P Require Import Prelude Model Colours Graph Scenes Daemon Topology Persistence Validation Observation FrameStreams Descriptors Normalize Readback.

Notation Facets := (gmap (TargetId * StateFacetKind) FacetObservation).

(** ** One aggregate *)

(** [Ord::min] on the derived order. *)
Definition confidence_min (a b : ObservationConfidence) : ObservationConfidence :=
  if confidence_rank b <? confidence_rank a then b else a.

(** [Iterator::min]: [None] on the empty list. *)
Definition iter_min {A} (min : A → A → A) (l : list A) : option A :=
  match l with [] => None | x :: l => Some (fold_left min l x) end.

Definition is_mixed (value : FacetValue) : bool :=
  match value with
  | Facet_Appearance Appearance_Mixed | Facet_EffectiveAppearance Effective_Mixed => true
  | _ => false
  end.

Definition mixed_value (facet : StateFacetKind) : option FacetValue :=
  match facet with
  | Kind_Appearance => Some (Facet_Appearance Appearance_Mixed)
  | Kind_EffectiveAppearance => Some (Facet_EffectiveAppearance Effective_Mixed)
  | _ => None
  end.

Definition aggregate_observations (constituents : list (option FacetObservation))
    (fallback : option FacetObservation) : option FacetObservation :=
  if bool_decide (constituents = []) then fallback
  else
    let known := omap id constituents in
    first ← head known;
    let facet := FacetValue_kind (fo_value first) in
    let mixed := existsb (λ o, is_mixed (fo_value o)) known ||
                 existsb (λ o, negb (bool_decide (fo_value o = fo_value first))) (tail known) in
    if negb mixed && negb (bool_decide (length known = length constituents)) then None
    else
      value ← (if mixed then mixed_value facet else Some (fo_value first));
      confidence ← iter_min confidence_min (fo_confidence <$> known);
      observed_at ← iter_min Z.min (fo_observed_at_ms <$> known);
      Some {| fo_target := fo_target first; fo_value := value; fo_confidence := confidence;
              fo_source := Source_Derived; fo_observed_at_ms := observed_at;
              fo_stale := existsb fo_stale known |}.

Definition with_target (target : TargetId) (o : FacetObservation) : FacetObservation := {|
  fo_target := target; fo_value := fo_value o; fo_confidence := fo_confidence o;
  fo_source := fo_source o; fo_observed_at_ms := fo_observed_at_ms o; fo_stale := fo_stale o
|}.

Definition is_streaming (o : option FacetObservation) : bool :=
  bool_decide (fo_value <$> o = Some (Facet_EffectiveAppearance Effective_Streaming)).

Definition replace_with_aggregate (observations : Facets) (target : TargetId)
    (facet : StateFacetKind) (children : list (option FacetObservation)) : Facets :=
  if bool_decide (children = []) then observations
  else
    let fallback := observations !! (target, facet) in
    if is_streaming fallback then observations
    else
      let observations := delete (target, facet) observations in
      match aggregate_observations children fallback with
      | Some aggregate => <[(target, facet) := with_target target aggregate]> observations
      | None => observations
      end.

Definition appearance_capable (capabilities : CapabilitySet) : bool :=
  negb (bool_decide (cs_colour capabilities = [])) ||
  bool_decide (is_Some (cs_hardware_effects capabilities)).

(** ** Effective appearance *)

Definition effective_appearance_observation (appearance : AppearanceState)
    (emission : EmissionState) (appearance_observation emission_observation : FacetObservation) :
    FacetObservation := {|
  fo_target := fo_target appearance_observation;
  fo_value := Facet_EffectiveAppearance
    match emission with
    | Dark => Effective_Off
    | Emitting =>
        match appearance with
        | Appearance_Static colour => Effective_Static colour
        | Appearance_Effect effect => Effective_Effect effect
        | Appearance_Mixed => Effective_Mixed
        end
    end;
  fo_confidence := confidence_min (fo_confidence appearance_observation)
                     (fo_confidence emission_observation);
  fo_source := Source_Derived;
  fo_observed_at_ms := Z.min (fo_observed_at_ms appearance_observation)
                         (fo_observed_at_ms emission_observation);
  fo_stale := fo_stale appearance_observation || fo_stale emission_observation
|}.

Definition streaming_effective_appearance_observation (now : Z) (target : TargetId) :
    FacetObservation := {|
  fo_target := target; fo_value := Facet_EffectiveAppearance Effective_Streaming;
  fo_confidence := Confirmed; fo_source := Source_Derived; fo_observed_at_ms := now;
  fo_stale := false
|}.

(** ** The groups of a device *)

Notation GroupState := (Facets * gmap GroupId (option FacetObservation))%type.

(** One member: the constituents so far and the state; [None] is lack of fuel. *)
Definition group_child
    (rec : Group → GroupState → option (option FacetObservation * GroupState))
    (device : Device) (facet : StateFacetKind)
    (acc : option (list (option FacetObservation) * GroupState)) (member : GroupMember) :
    option (list (option FacetObservation) * GroupState) :=
  '(children, s) ← acc;
  match member with
  | GroupMember_Surface surface =>
      Some (children ++ [s.1 !! (TargetId_Surface (device_id device) surface, facet)], s)
  | GroupMember_Element surface element =>
      Some (children ++ [s.1 !! (TargetId_Element (device_id device) surface element, facet)], s)
  | GroupMember_Group nested =>
      match find_group device nested with
      | Some nested =>
          '(child, s) ← rec nested s;
          Some (children ++ [child], s)
      | None => Some (children, s)
      end
  end.

Fixpoint synthesize_group (device : Device) (facet : StateFacetKind) (fuel : nat) (group : Group)
    (s : GroupState) : option (option FacetObservation * GroupState) :=
  match fuel with
  | O => None
  | S fuel =>
      match s.2 !! group_id group with
      | Some cached => Some (cached, s)
      | None =>
          let target := TargetId_Group (device_id device) (group_id group) in
          '(children, s) ← fold_left (group_child (synthesize_group device facet fuel) device facet)
                             (group_members group) (Some ([], s));
          let observations := replace_with_aggregate s.1 target facet children in
          let aggregate := observations !! (target, facet) in
          Some (aggregate, (observations, <[group_id group := aggregate]> s.2))
      end
  end.

(** ** The device *)

Definition surface_target (device : Device) (surface : Surface) : TargetId :=
  TargetId_Surface (device_id device) (surface_id surface).

Definition surface_children (device : Device) (surface : Surface) (facet : StateFacetKind)
    (m : Facets) : list (option FacetObservation) :=
  (λ e, m !! (TargetId_Element (device_id device) (surface_id surface) (element_id e), facet))
    <$> filter (λ e, appearance_capable (element_capabilities e) = true) (surface_elements surface).

Definition surface_capable (surface : Surface) : bool :=
  appearance_capable (surface_capabilities surface) ||
  existsb (λ e, appearance_capable (element_capabilities e)) (surface_elements surface).

Definition device_children (device : Device) (facet : StateFacetKind) (m : Facets) :
    list (option FacetObservation) :=
  (λ s, m !! (surface_target device s, facet))
    <$> filter (λ s, surface_capable s = true) (device_surfaces device).

Definition synthesize_surfaces (device : Device) (facet : StateFacetKind) (m : Facets) : Facets :=
  fold_left (λ m surface,
      replace_with_aggregate m (surface_target device surface) facet
        (surface_children device surface facet m))
    (device_surfaces device) m.

Definition synthesize_groups (device : Device) (facet : StateFacetKind) (m : Facets) :
    option Facets :=
  fst <$> fold_left (λ acc group, s ← acc;
                        snd <$> synthesize_group device facet (group_fuel device) group s)
            (device_groups device) (Some (m, ∅)).

(** The loop body of [synthesize_device_aggregates]. *)
Definition synthesize_facet (device : Device) (m : Facets) (facet : StateFacetKind) :
    option Facets :=
  m ← synthesize_groups device facet (synthesize_surfaces device facet m);
  Some (replace_with_aggregate m (TargetId_Device (device_id device)) facet
          (device_children device facet m)).

Definition fo_key (o : FacetObservation) : TargetId * StateFacetKind :=
  (fo_target o, FacetValue_kind (fo_value o)).

(** [collect] into a map: the last observation of a key wins. *)
Definition by_facet (observations : list FacetObservation) : Facets :=
  fold_left (λ m o, <[fo_key o := o]> m) observations ∅.

Definition synthesize_device_aggregates (device : Device) (observations : list FacetObservation) :
    option (list FacetObservation) :=
  m ← synthesize_facet device (by_facet observations) Kind_Appearance;
  m ← synthesize_facet device m Kind_EffectiveAppearance;
  Some (map_to_list m).*2.

(** ** Reported order *)

Definition target_sort_key (target : TargetId) : nat * string * string * string :=
  match target with
  | TargetId_Device device => (0, DeviceId_as_str device, "", "")
  | TargetId_Surface device surface => (3, DeviceId_as_str device, SurfaceId_as_str surface, "")
  | TargetId_Element device surface element =>
      (1, DeviceId_as_str device, SurfaceId_as_str surface, ElementId_as_str element)
  | TargetId_Group device group => (2, DeviceId_as_str device, GroupId_as_str group, "")
  end.

(** [kind() as u8] *)
Definition kind_number (k : StateFacetKind) : nat :=
  match k with
  | Kind_Appearance => 0
  | Kind_Brightness => 1
  | Kind_Emission => 2
  | Kind_PhysicalPower => 3
  | Kind_EffectiveAppearance => 4
  | Kind_AppearanceSlots => 5
  end.

Definition sort_key (o : FacetObservation) : nat * string * string * string * nat :=
  (target_sort_key (fo_target o), kind_number (FacetValue_kind (fo_value o))).

Definition observation_le (a b : FacetObservation) : Prop :=
  lex_le (lex_le (lex_le (lex_le le String.le) String.le) String.le) le (sort_key a) (sort_key b).
#[export] Instance observation_le_dec : RelDecision observation_le.
Proof. intros a b. unfold observation_le. apply _. Defined.

(** ** The status of a device *)

Definition with_observations (s : DeviceStateStatus) (observations : list FacetObservation) :
    DeviceStateStatus := {|
  dss_device := dss_device s; dss_observations := observations;
  dss_reachability := dss_reachability s; dss_reconciliation := dss_reconciliation s;
  dss_adoption := dss_adoption s; dss_latest_error := dss_latest_error s;
  dss_latest_attempt_ms := dss_latest_attempt_ms s
|}.

Definition device_observations (st : DaemonState) (device : DeviceId) : list FacetObservation :=
  filter (λ o, TargetId_device_id (fo_target o) = device) (map_to_list (ds_observations st)).*2.

(** The effective appearance of one observed target; the streaming ones among them. *)
Definition synthesize_effective (now : Z) (st : DaemonState) (o : FacetObservation) :
    option FacetObservation :=
  match fo_value o with
  | Facet_Appearance appearance =>
      if is_frame_streaming st (fo_target o)
      then Some (streaming_effective_appearance_observation now (fo_target o))
      else
        emission ← ds_observations st !! (fo_target o, Kind_Emission);
        match fo_value emission with
        | Facet_Emission emission_state =>
            Some (effective_appearance_observation appearance emission_state o emission)
        | _ => None
        end
  | _ => None
  end.

Definition covered_stream (st : DaemonState) (o : FacetObservation) : option TargetId :=
  match fo_value o with
  | Facet_Appearance _ =>
      if is_frame_streaming st (fo_target o) then Some (fo_target o) else None
  | _ => None
  end.

Definition uncovered_streams (st : DaemonState) (device : DeviceId)
    (observations : list FacetObservation) : list TargetId :=
  filter (λ t, TargetId_device_id t = device ∧ t ∉ omap (covered_stream st) observations)
    (map_to_list (ds_frame_streams st)).*1.

(** The observations and what follows from them, before aggregation. *)
Definition observed (now : Z) (st : DaemonState) (device : DeviceId) : list FacetObservation :=
  let observations := device_observations st device in
  observations ++ omap (synthesize_effective now st) observations ++
  (streaming_effective_appearance_observation now <$> uncovered_streams st device observations).

(** The outer [option] is lack of fuel. *)
Definition device_state_status (now : Z) (st : DaemonState) (device : DeviceId) :
    option (option DeviceStateStatus) :=
  match ds_devices st !! device with
  | None => Some None
  | Some topology =>
      observations ← synthesize_device_aggregates topology (observed now st device);
      Some (Some (with_observations (device_status_of st device)
                    (merge_sort observation_le observations)))
  end.

(** ** Collections *)

Record Aggregation := {
  ag_memo : gmap CollectionId (option FacetObservation);
  ag_visiting : gset CollectionId
}.

(** One member: the constituents so far and the state; [None] is lack of fuel. *)
Definition aggregate_member
    (rec : CollectionId → Aggregation → option (option FacetObservation * Aggregation))
    (facet : StateFacetKind) (statuses : gmap DeviceId DeviceStateStatus)
    (acc : option (list (option FacetObservation) * Aggregation)) (member : CollectionMember) :
    option (list (option FacetObservation) * Aggregation) :=
  '(constituents, a) ← acc;
  match member with
  | Member_Target target =>
      Some (constituents ++
              [status ← statuses !! TargetId_device_id target;
               DeviceStateStatus_observation status target facet], a)
  | Member_Collection nested =>
      '(child, a) ← rec nested a;
      Some (constituents ++ [child], a)
  end.

Fixpoint collection_aggregate (collections : gmap CollectionId Collection) (facet : StateFacetKind)
    (statuses : gmap DeviceId DeviceStateStatus) (fuel : nat) (id : CollectionId)
    (a : Aggregation) : option (option FacetObservation * Aggregation) :=
  match fuel with
  | O => None
  | S fuel =>
      match ag_memo a !! id with
      | Some cached => Some (cached, a)
      | None =>
          if bool_decide (id ∈ ag_visiting a) then Some (None, a)
          else
            let a := {| ag_memo := ag_memo a; ag_visiting := {[id]} ∪ ag_visiting a |} in
            match collections !! id with
            | None => Some (None, a)
            | Some collection =>
                '(constituents, a) ←
                  fold_left (aggregate_member (collection_aggregate collections facet statuses fuel)
                               facet statuses)
                    (collection_members collection) (Some ([], a));
                let aggregate := aggregate_observations constituents None in
                Some (aggregate,
                      {| ag_memo := <[id := aggregate]> (ag_memo a);
                         ag_visiting := ag_visiting a ∖ {[id]} |})
            end
      end
  end.

Definition collection_appearance_observation (o : FacetObservation) :
    option AggregateAppearanceObservation :=
  match fo_value o with
  | Facet_Appearance value =>
      Some {| aao_value := value; aao_confidence := fo_confidence o;
              aao_observed_at_ms := fo_observed_at_ms o; aao_stale := fo_stale o |}
  | _ => None
  end.

Definition collection_effective_appearance_observation (o : FacetObservation) :
    option AggregateEffectiveAppearanceObservation :=
  match fo_value o with
  | Facet_EffectiveAppearance value =>
      Some {| aeo_value := value; aeo_confidence := fo_confidence o;
              aeo_observed_at_ms := fo_observed_at_ms o; aeo_stale := fo_stale o |}
  | _ => None
  end.

(** One level per registered collection, one for an unregistered one, and one to meet
    a visited one again. *)
Definition aggregate_fuel (collections : gmap CollectionId Collection) : nat :=
  2 + size collections.
Arguments aggregate_fuel : simpl never.

(** The statuses of all devices; [None] is lack of fuel for one of them. *)
Definition add_status (now : Z) (st : DaemonState)
    (acc : option (gmap DeviceId DeviceStateStatus)) (device : DeviceId) :
    option (gmap DeviceId DeviceStateStatus) :=
  m ← acc; status ← device_state_status now st device;
  Some match status with Some status => <[device := status]> m | None => m end.
Definition device_statuses (now : Z) (st : DaemonState) :
    option (gmap DeviceId DeviceStateStatus) :=
  fold_left (add_status now st) (map_to_list (ds_devices st)).*1 (Some ∅).

Definition collection_state_status (now : Z) (st : DaemonState) (collection : CollectionId) :
    option (option CollectionStateStatus) :=
  match ds_collections st !! collection with
  | None => Some None
  | Some _ =>
      statuses ← device_statuses now st;
      let aggregate facet :=
        fst <$> collection_aggregate (ds_collections st) facet statuses
                  (aggregate_fuel (ds_collections st)) collection
                  {| ag_memo := ∅; ag_visiting := ∅ |} in
      appearance ← aggregate Kind_Appearance;
      effective ← aggregate Kind_EffectiveAppearance;
      Some (Some {|
        css_collection := collection;
        css_appearance := appearance ≫= collection_appearance_observation;
        css_effective_appearance := effective ≫= collection_effective_appearance_observation |})
  end.

(** ** Captured endpoints: [state/scene.rs] *)

Definition fresh (o : option FacetObservation) : option FacetObservation :=
  o ← o; if fo_stale o then None else Some o.

Definition effect_of (value : FacetValue) : option Effect :=
  match value with
  | Facet_Appearance (Appearance_Static colour) => Some (Effect_Static colour)
  | Facet_Appearance (Appearance_Effect effect) => Some effect
  | _ => None
  end.

Definition emission_of (value : FacetValue) : option EmissionState :=
  match value with Facet_Emission emission => Some emission | _ => None end.

Definition brightness_of (value : FacetValue) : option Z :=
  match value with Facet_Brightness brightness => Some brightness | _ => None end.

Definition definite_effective (value : FacetValue) : bool :=
  match value with
  | Facet_EffectiveAppearance (Effective_Off | Effective_Static _ | Effective_Effect _) => true
  | _ => false
  end.

(** What follows [device_state_status] in [fresh_current_target_state]. *)
Definition current_from_status (target : TargetId) (status : option DeviceStateStatus) :
    daemon SceneTargetState :=
  status ← ok_or status (DE_UnknownState target);
  let observed kind := fo_value <$> fresh (DeviceStateStatus_observation status target kind) in
  appearance ← ok_or (observed Kind_Appearance ≫= effect_of) (DE_UnknownState target);
  emission ← ok_or (observed Kind_Emission ≫= emission_of) (DE_UnknownState target);
  _ ← ensure (from_option definite_effective false (observed Kind_EffectiveAppearance))
        (DE_UnknownState target);
  Ok {| sts_appearance := Some appearance;
        sts_brightness := observed Kind_Brightness ≫= brightness_of;
        sts_emission := Some emission; sts_appearance_slots := None |}.

(** The [option] is lack of fuel. *)
Definition fresh_current_target_state (now : Z) (st : DaemonState) (target : TargetId) :
    option (daemon SceneTargetState) :=
  match ensure_not_frame_streaming st target with
  | Err e => Some (Err e)
  | Ok _ =>
      status ← device_state_status now st (TargetId_device_id target);
      Some (current_from_status target status)
  end.

(** ** What an aggregate says *)

Lemma iter_min_spec {A} (min : A → A → A) (R : relation A) `{!PreOrder R} l :
  (∀ a b, min a b = a ∨ min a b = b) → (∀ a b, R (min a b) a ∧ R (min a b) b) →
  match iter_min min l with
  | None => l = []
  | Some x => x ∈ l ∧ ∀ y, y ∈ l → R x y
  end.
Proof.
  intros Hsel Hle. destruct l as [|x l]; [done|]. cbn.
  induction l as [|y l IH] using rev_ind; cbn.
  { split; [by left|]. by intros y ->%list_elem_of_singleton. }
  rewrite fold_left_app. cbn. destruct IH as [Hin Hmin].
  set (z := fold_left min l x) in *. destruct (Hle z y) as [H1 H2]. split.
  - destruct (Hsel z y) as [-> | ->]; set_solver.
  - intros w Hw. assert (w ∈ x :: l ∨ w = y) as [Hw' | ->] by set_solver; [|done].
    transitivity z; [done|auto].
Qed.

#[local] Instance confidence_preorder :
  PreOrder (λ a b, confidence_rank a ≤ confidence_rank b).
Proof. split; red; intros; lia. Qed.

(** Some known constituents disagree, or one of them is itself mixed. *)
Definition conflicting (l : list (option FacetObservation)) : Prop :=
  ∃ a, Some a ∈ l ∧
    (is_mixed (fo_value a) = true ∨ ∃ b, Some b ∈ l ∧ fo_value a ≠ fo_value b).

(** [o] is as well supported as the least supported known constituent. *)
Record weakest_of (l : list (option FacetObservation)) (o : FacetObservation) : Prop := {
  weakest_confidence :
    ∃ c, Some c ∈ l ∧ fo_confidence o = fo_confidence c ∧
      ∀ c', Some c' ∈ l → confidence_rank (fo_confidence c) ≤ confidence_rank (fo_confidence c');
  weakest_time :
    ∃ c, Some c ∈ l ∧ fo_observed_at_ms o = fo_observed_at_ms c ∧
      ∀ c', Some c' ∈ l → (fo_observed_at_ms c <= fo_observed_at_ms c')%Z;
  weakest_stale : fo_stale o = true ↔ ∃ c, Some c ∈ l ∧ fo_stale c = true;
  weakest_source : fo_source o = Source_Derived
}.

Definition constituents_of (facet : StateFacetKind) (l : list (option FacetObservation)) : Prop :=
  ∀ o, Some o ∈ l → FacetValue_kind (fo_value o) = facet.

Lemma elem_of_known (l : list (option FacetObservation)) o : o ∈ omap id l ↔ Some o ∈ l.
Proof. rewrite list_elem_of_omap. cbn. naive_solver. Qed.

Lemma length_known_le (l : list (option FacetObservation)) : length (omap id l) ≤ length l.
Proof. induction l as [|[o|] l IH]; cbn; lia. Qed.

Lemma known_all (l : list (option FacetObservation)) :
  length (omap id l) = length l ↔ None ∉ l.
Proof.
  induction l as [|[o|] l IH]; cbn; [set_solver| |].
  - rewrite not_elem_of_cons, <-IH. naive_solver lia.
  - pose proof (length_known_le l). rewrite not_elem_of_cons. naive_solver lia.
Qed.

Definition mixed_known (first : FacetObservation) (known : list FacetObservation) : bool :=
  existsb (λ o, is_mixed (fo_value o)) known ||
  existsb (λ o, negb (bool_decide (fo_value o = fo_value first))) (tail known).

Lemma mixed_known_spec l first rest :
  omap id l = first :: rest →
  mixed_known first (first :: rest) = true ↔ conflicting l.
Proof.
  intros Hl. unfold mixed_known, conflicting. setoid_rewrite <-elem_of_known. rewrite Hl. cbn [tail].
  rewrite orb_true_iff, !existsb_exists. setoid_rewrite <-list_elem_of_In.
  setoid_rewrite negb_true_iff. setoid_rewrite bool_decide_eq_false. split.
  - intros [(a & Ha & Hm)|(a & Ha & Hne)].
    + exists a. eauto.
    + exists a. split; [by right|]. right. exists first. split; [by left|done].
  - intros (a & Ha & [Hm|(b & Hb & Hne)]); [left; eauto|]. right.
    destruct (decide (fo_value a = fo_value first)) as [Heq|Hna].
    + exists b. split; [|congruence]. apply elem_of_cons in Hb as [->|Hb]; [congruence|done].
    + exists a. split; [|done]. by apply elem_of_cons in Ha as [->|Ha].
Qed.

(** The value reported for some parts of one facet, none of them missing from the list:
    a conflict among the known parts is reported as mixed even when others are unknown;
    otherwise every part must be known, and then they agree. *)
Definition aggregate_says (facet : StateFacetKind) (l : list (option FacetObservation))
    (r : option FacetObservation) : Prop :=
  match r with
  | None => ¬ conflicting l ∧ None ∈ l
  | Some o =>
      weakest_of l o ∧
      ((conflicting l ∧ mixed_value facet = Some (fo_value o)) ∨
       (¬ conflicting l ∧ ∀ c, c ∈ l → fo_value <$> c = Some (fo_value o)))
  end.

Lemma aggregate_weakest l known first value target :
  omap id l = known → head known = Some first →
  ∃ confidence observed_at,
    iter_min confidence_min (fo_confidence <$> known) = Some confidence ∧
    iter_min Z.min (fo_observed_at_ms <$> known) = Some observed_at ∧
    weakest_of l {| fo_target := target; fo_value := value; fo_confidence := confidence;
                    fo_source := Source_Derived; fo_observed_at_ms := observed_at;
                    fo_stale := existsb fo_stale known |}.
Proof.
  intros Hl Hh. destruct known as [|x known]; [done|]. clear Hh.
  pose proof (iter_min_spec confidence_min
    (λ a b, confidence_rank a ≤ confidence_rank b) (fo_confidence <$> x :: known)) as Hc.
  pose proof (iter_min_spec Z.min Z.le (fo_observed_at_ms <$> x :: known)) as Ht.
  cbn [fmap list_fmap iter_min] in *. eexists _, _. split_and!; [done..|].
  assert (∀ o, o ∈ x :: known ↔ Some o ∈ l) as Hk by (intros o; by rewrite <-Hl, elem_of_known).
  constructor; cbn [fo_confidence fo_observed_at_ms fo_stale fo_source]; [| | |done].
  - destruct Hc as [Hin Hmin].
    { intros [] []; cbn; auto. }
    { intros [] []; cbn; lia. }
    apply (list_elem_of_fmap fo_confidence (x :: known)) in Hin as (c & Heq & Hin).
    exists c. split_and!; [by apply Hk|done|]. intros c' Hc'%Hk. rewrite <-Heq. apply Hmin.
    by apply (list_elem_of_fmap_2 fo_confidence (x :: known)).
  - destruct Ht as [Hin Hmin]; [lia..|].
    apply (list_elem_of_fmap fo_observed_at_ms (x :: known)) in Hin as (c & Heq & Hin).
    exists c. split_and!; [by apply Hk|done|]. intros c' Hc'%Hk. rewrite <-Heq. apply Hmin.
    by apply (list_elem_of_fmap_2 fo_observed_at_ms (x :: known)).
  - rewrite existsb_exists. setoid_rewrite <-list_elem_of_In. by setoid_rewrite Hk.
Qed.

Lemma aggregate_spec facet l fallback :
  l ≠ [] → constituents_of facet l → is_Some (mixed_value facet) →
  aggregate_says facet l (aggregate_observations l fallback).
Proof.
  intros Hne Hkind [mixed Hm]. unfold aggregate_observations. rewrite bool_decide_false by done.
  destruct (omap id l) as [|first rest] eqn:Hl; cbn [head mbind option_bind].
  { assert (∀ o, Some o ∉ l) as Hno by (intros o; rewrite <-elem_of_known, Hl; set_solver).
    cbn. split; [intros (a & Ha & _); by apply (Hno a)|].
    destruct l as [|[o|] l]; [done| |by left]. destruct (Hno o). by left. }
  change (existsb _ (first :: rest) || existsb _ (tail (first :: rest)))
    with (mixed_known first (first :: rest)).
  assert (Some first ∈ l) as Hfirst by (apply elem_of_known; rewrite Hl; by left).
  rewrite (Hkind _ Hfirst), <-Hl. pose proof (mixed_known_spec l first rest Hl) as Hconf.
  rewrite <-Hl in Hconf. destruct (mixed_known first (omap id l)); cbn [negb andb].
  - rewrite Hm. cbn [mbind option_bind].
    destruct (aggregate_weakest l _ first mixed (fo_target first) eq_refl) as (c & t & -> & -> & Hw);
      [by rewrite Hl|]. cbn. split; [done|]. left. split; [by apply Hconf|done].
  - assert (¬ conflicting l) as Hnc by (rewrite <-Hconf; done).
    case_bool_decide as Hlen; cbn [negb].
    + destruct (aggregate_weakest l _ first (fo_value first) (fo_target first) eq_refl)
        as (c & t & Hc & Ht & Hw); [by rewrite Hl|].
      cbn [mbind option_bind]. rewrite Hc. cbn [mbind option_bind]. rewrite Ht. cbn.
      split; [done|]. right. split; [done|].
      apply known_all in Hlen. intros [o|] Ho; [|done]. cbn. f_equal.
      destruct (decide (fo_value o = fo_value first)) as [|Hneq]; [done|]. destruct Hnc.
      exists o. split; [done|]. right. eauto.
    + cbn. split; [done|]. destruct (decide (None ∈ l)); [done|]. by destruct Hlen; apply known_all.
Qed.

Lemma aggregate_kind facet l fallback o :
  l ≠ [] → constituents_of facet l → is_Some (mixed_value facet) →
  aggregate_observations l fallback = Some o → FacetValue_kind (fo_value o) = facet.
Proof.
  intros Hne Hk Hm Ho. pose proof (aggregate_spec facet l fallback Hne Hk Hm) as Hs.
  rewrite Ho in Hs. destruct Hs as [Hw [[_ Hv]|[_ Hv]]].
  - destruct facet; cbn in Hv; simplify_eq; by rewrite <-Hv.
  - destruct (weakest_confidence _ _ Hw) as (c & Hc & _). pose proof (Hv _ Hc) as [= <-]. by apply Hk.
Qed.

(** ** What is reported of a device *)

(** What replaces [before] at [target], given its parts. *)
Definition aggregate_of (before : option FacetObservation) (target : TargetId)
    (children : list (option FacetObservation)) : option FacetObservation :=
  if bool_decide (children = []) || is_streaming before then before
  else with_target target <$> aggregate_observations children None.

Lemma aggregate_fallback l fallback :
  l ≠ [] → aggregate_observations l fallback = aggregate_observations l None.
Proof. intros Hl. unfold aggregate_observations. by rewrite !bool_decide_false by done. Qed.

Lemma replace_lookup_eq m t facet l :
  replace_with_aggregate m t facet l !! (t, facet) = aggregate_of (m !! (t, facet)) t l.
Proof.
  unfold replace_with_aggregate, aggregate_of. case_bool_decide as Hl; [done|]. cbn [orb].
  destruct (is_streaming _); [done|]. rewrite aggregate_fallback by done.
  destruct (aggregate_observations l None); [apply lookup_insert_eq|apply lookup_delete_eq].
Qed.

Lemma replace_lookup_ne m t facet l k :
  k ≠ (t, facet) → replace_with_aggregate m t facet l !! k = m !! k.
Proof.
  intros Hk. unfold replace_with_aggregate. case_bool_decide; [done|].
  destruct (is_streaming _); [done|]. destruct (aggregate_observations _ _).
  - cbn zeta. rewrite lookup_insert_ne, lookup_delete_ne; done.
  - cbn zeta. rewrite lookup_delete_ne; done.
Qed.

(** Every observation is stored under its own target and facet. *)
Definition keyed (m : Facets) : Prop := ∀ k o, m !! k = Some o → fo_key o = k.

Lemma keyed_keys m : keyed m → fo_key <$> (map_to_list m).*2 = (map_to_list m).*1.
Proof.
  intros Hk. rewrite <-list_fmap_compose. apply list_fmap_ext.
  intros i [k o] Hi%list_elem_of_lookup_2%elem_of_map_to_list. by apply Hk.
Qed.

Lemma keyed_replace m t facet l :
  is_Some (mixed_value facet) → constituents_of facet l → keyed m →
  keyed (replace_with_aggregate m t facet l).
Proof.
  intros Hm Hl Hk k o. destruct (decide (k = (t, facet))) as [->|Hne].
  - rewrite replace_lookup_eq. unfold aggregate_of. case_bool_decide as Hnil; [apply Hk|]. cbn [orb].
    destruct (is_streaming _); [apply Hk|].
    intros (a & Ha & ->)%fmap_Some. unfold fo_key. cbn. f_equal. by eapply aggregate_kind.
  - rewrite replace_lookup_ne by done. apply Hk.
Qed.

Lemma keyed_constituents {A} m facet (f : A → TargetId) l :
  keyed m → constituents_of facet ((λ x, m !! (f x, facet)) <$> l).
Proof. intros Hk o (x & Ho & _)%list_elem_of_fmap. symmetry in Ho. by apply Hk in Ho as [= _ ->]. Qed.

(** *** Surfaces *)

Lemma surface_children_same (device : Device) (surface : Surface) (facet : StateFacetKind) (m m' : Facets) :
  (∀ s e, m' !! (TargetId_Element (device_id device) s e, facet) =
          m !! (TargetId_Element (device_id device) s e, facet)) →
  surface_children device surface facet m' = surface_children device surface facet m.
Proof. intros Hm. unfold surface_children. apply list_fmap_ext. auto. Qed.

Lemma surfaces_spec device facet m :
  is_Some (mixed_value facet) → keyed m → NoDup (surface_id <$> device_surfaces device) →
  let m' := synthesize_surfaces device facet m in
  keyed m' ∧
  (∀ k, k ∉ (λ s, (surface_target device s, facet)) <$> device_surfaces device → m' !! k = m !! k) ∧
  (∀ s, s ∈ device_surfaces device →
     m' !! (surface_target device s, facet) =
       aggregate_of (m !! (surface_target device s, facet)) (surface_target device s)
         (surface_children device s facet m')).
Proof.
  intros Hmix Hk. unfold synthesize_surfaces.
  induction (device_surfaces device) as [|s l IH] using rev_ind.
  { intros _. split_and!; [done..|]. by intros s ?%not_elem_of_nil. }
  rewrite fmap_app. intros (Hnd & Hd & _)%NoDup_app. destruct (IH Hnd) as (IHk & IHo & IHs).
  rewrite fold_left_app. cbn [fold_left]. set (m1 := fold_left _ l m) in *.
  set (m2 := replace_with_aggregate m1 _ _ _). cbn zeta.
  assert (∀ x, surface_children device x facet m2 = surface_children device x facet m1) as Hch.
  { intros x. apply surface_children_same. intros. apply replace_lookup_ne. unfold surface_target. congruence. }
  split_and!.
  - apply keyed_replace; [done| |done]. apply keyed_constituents; [done].
  - intros k Hkey. rewrite fmap_app in Hkey. unfold m2. rewrite replace_lookup_ne by set_solver. set_solver.
  - intros x [Hx| ->%list_elem_of_singleton]%elem_of_app; rewrite Hch.
    + assert (surface_id x ≠ surface_id s) as Hne.
      { intros Heq. apply (Hd (surface_id x)); [by apply list_elem_of_fmap_2|]. rewrite Heq. by left. }
      unfold m2. rewrite replace_lookup_ne by (unfold surface_target; congruence). by apply IHs.
    + unfold m2. rewrite replace_lookup_eq. f_equal. apply IHo.
      intros (x & Heq & Hx)%list_elem_of_fmap. unfold surface_target in Heq.
      apply (Hd (surface_id x)); [by apply list_elem_of_fmap_2|].
      assert (surface_id x = surface_id s) as -> by congruence. by left.
Qed.

(** *** Groups *)

Section groups.
Context (device : Device) (facet : StateFacetKind) (m0 : Facets).
Context (Hmix : is_Some (mixed_value facet)) (Hkeyed : keyed m0).
Context (Hacyclic : ∀ a, ¬ tc (nested_group device) a a).
Context (Hunique : NoDup (group_id <$> device_groups device)).

Definition group_target (id : GroupId) : TargetId := TargetId_Group (device_id device) id.

(** The part a member stands for, unless it names a group that does not exist. *)
Definition member_child (m : Facets) (member : GroupMember) :
    option (option FacetObservation) :=
  match member with
  | GroupMember_Surface surface =>
      Some (m !! (TargetId_Surface (device_id device) surface, facet))
  | GroupMember_Element surface element =>
      Some (m !! (TargetId_Element (device_id device) surface element, facet))
  | GroupMember_Group nested =>
      _ ← find_group device nested; Some (m !! (group_target nested, facet))
  end.

Definition group_children (members : list GroupMember) (m : Facets) :
    list (option FacetObservation) :=
  omap (member_child m) members.

(** The groups in the memo are final, and so are the groups nested in them. *)
Record synthesized (s : GroupState) : Prop := {
  sy_keyed : keyed s.1;
  sy_other k : (∀ id, id ∈ dom s.2 → k ≠ (group_target id, facet)) → s.1 !! k = m0 !! k;
  sy_memo id v : s.2 !! id = Some v →
    v = s.1 !! (group_target id, facet) ∧
    ∃ g, find_group device id = Some g ∧
      v = aggregate_of (m0 !! (group_target id, facet)) (group_target id)
            (group_children (group_members g) s.1);
  sy_closed id b : id ∈ dom s.2 → nested_group device id b → b ∈ dom s.2
}.

(** Nothing already final changes, and whatever becomes final is below [roots]. *)
Record grows (roots : GroupId → Prop) (s s' : GroupState) : Prop := {
  gr_synthesized : synthesized s';
  gr_memo : s.2 ⊆ s'.2;
  gr_below x : x ∈ dom s'.2 → x ∉ dom s.2 → ∃ r, roots r ∧ rtc (nested_group device) r x
}.

Lemma grows_refl roots s : synthesized s → grows roots s s.
Proof. intros Hs. by constructor. Qed.

Lemma grows_trans (roots roots' : GroupId → Prop) s1 s2 s3 :
  grows roots s1 s2 → grows roots' s2 s3 → grows (λ r, roots r ∨ roots' r) s1 s3.
Proof.
  intros [H1 M1 B1] [H2 M2 B2]. constructor; [done|by etrans|].
  intros x Hx Hn. destruct (decide (x ∈ dom s2.2)) as [Hx2|Hx2].
  - destruct (B1 x Hx2 Hn) as (r & ? & ?). eauto.
  - destruct (B2 x Hx Hx2) as (r & ? & ?). eauto.
Qed.

Lemma final_same roots s s' id :
  synthesized s → grows roots s s' → id ∈ dom s.2 →
  s'.1 !! (group_target id, facet) = s.1 !! (group_target id, facet).
Proof.
  intros Hs [Hs' Hm _] [v Hv]%elem_of_dom. pose proof (lookup_weaken _ _ _ _ Hv Hm) as Hv'.
  destruct (sy_memo _ Hs _ _ Hv) as [<- _]. by destruct (sy_memo _ Hs' _ _ Hv') as [<- _].
Qed.

(** The parts of a group are the same in maps that agree outside groups and on the
    groups among them. *)
Lemma children_agree (members : list GroupMember) (m m' : Facets) :
  (∀ t, t ≠ TargetId_Device (device_id device) → (∀ id, t ≠ group_target id) →
     m' !! (t, facet) = m !! (t, facet)) →
  (∀ b, GroupMember_Group b ∈ members → is_Some (find_group device b) →
     m' !! (group_target b, facet) = m !! (group_target b, facet)) →
  group_children members m' = group_children members m.
Proof.
  intros Hk Hb. unfold group_children. induction members as [|x l IH]; [done|]. cbn.
  rewrite IH by (intros b Hin; apply Hb; by right).
  assert (member_child m' x = member_child m x) as ->; [|done].
  destruct x as [s|s e|b]; cbn; [by rewrite Hk by done..|].
  destruct (find_group device b) eqn:Hf; [|done]. cbn. f_equal. apply Hb; [by left|by rewrite Hf].
Qed.

Lemma children_same roots s s' members :
  synthesized s → grows roots s s' →
  (∀ b, GroupMember_Group b ∈ members → is_Some (find_group device b) → b ∈ dom s.2) →
  group_children members s'.1 = group_children members s.1.
Proof.
  intros Hs Hg Hin. apply children_agree.
  - intros t _ Ht. by rewrite (sy_other _ (gr_synthesized _ _ _ Hg)), (sy_other _ Hs)
      by (intros ? _ [= Heq]; by eapply Ht).
  - intros b Hb Hf. apply (final_same roots); auto.
Qed.

Lemma children_constituents members m : keyed m → constituents_of facet (group_children members m).
Proof.
  intros Hk o (x & _ & Hx)%list_elem_of_omap. destruct x as [s|s e|b]; cbn in Hx.
  3: destruct (find_group device b); [|done]; cbn in Hx.
  all: injection Hx as Ho; by apply Hk in Ho as [= _ ->].
Qed.

Definition group_post (id : GroupId) (s : GroupState)
    (r : option (option FacetObservation * GroupState)) : Prop :=
  ∃ s', r = Some (s'.1 !! (group_target id, facet), s') ∧ id ∈ dom s'.2 ∧ grows (eq id) s s'.

Lemma members_synthesized rec members s :
  synthesized s →
  (∀ b g s1, GroupMember_Group b ∈ members → find_group device b = Some g → synthesized s1 →
     group_post b s1 (rec g s1)) →
  ∃ s', fold_left (group_child rec device facet) members (Some ([], s)) =
          Some (group_children members s'.1, s') ∧
    (∀ b, GroupMember_Group b ∈ members → is_Some (find_group device b) → b ∈ dom s'.2) ∧
    grows (λ r, GroupMember_Group r ∈ members ∧ is_Some (find_group device r)) s s'.
Proof.
  intros Hs. induction members as [|x l IH] using rev_ind; intros Hrec.
  { exists s. split_and!; [done|set_solver|by apply grows_refl]. }
  destruct IH as (s1 & Hf & Hin & Hg). { intros b g s1 Hb. apply Hrec. set_solver. }
  rewrite fold_left_app, Hf. cbn [fold_left]. pose proof (gr_synthesized _ _ _ Hg) as Hs1.
  assert (∀ s2, (group_child rec device facet (Some (group_children l s1.1, s1)) x =
      Some (group_children l s1.1 ++ option_list (member_child s2.1 x), s2)) →
    (∀ b, x = GroupMember_Group b → is_Some (find_group device b) → b ∈ dom s2.2) →
    grows (λ r, x = GroupMember_Group r ∧ is_Some (find_group device r)) s1 s2 →
    ∃ s', group_child rec device facet (Some (group_children l s1.1, s1)) x =
            Some (group_children (l ++ [x]) s'.1, s') ∧
      (∀ b, GroupMember_Group b ∈ l ++ [x] → is_Some (find_group device b) → b ∈ dom s'.2) ∧
      grows (λ r, GroupMember_Group r ∈ l ++ [x] ∧ is_Some (find_group device r)) s s') as Hstep.
  { intros s2 Heq Hx Hg2. exists s2. rewrite Heq. split_and!.
    - rewrite <-(children_same _ s1 s2 l Hs1 Hg2 Hin). do 2 f_equal.
      unfold group_children. by rewrite omap_app.
    - intros b [Hb|Hb%list_elem_of_singleton]%elem_of_app Hf'; [|by apply Hx].
      apply (subseteq_dom _ _ (gr_memo _ _ _ Hg2)). by apply Hin.
    - pose proof (grows_trans _ _ _ _ _ Hg Hg2) as [H1 H2 H3]. constructor; [done..|].
      intros y Hy Hny. destruct (H3 y Hy Hny) as (r & Hr & Hrt). exists r. split; [|done].
      set_solver. }
  destruct (match x with GroupMember_Group b => find_group device b | _ => None end) as [g|] eqn:Hx.
  - destruct x as [| |b]; [done..|]. destruct (Hrec b g s1) as (s2 & Heq & Hb & Hg2); [set_solver|done..|].
    apply (Hstep s2).
    + cbn. by rewrite Hx; cbn; rewrite Heq.
    + intros b' [= ->]. done.
    + destruct Hg2 as [H1 H2 H3]. constructor; [done..|]. intros y Hy Hny.
      destruct (H3 y Hy Hny) as (r & <- & Hrt). exists b. rewrite Hx. eauto.
  - apply (Hstep s1).
    + destruct x; cbn; [done..|]. rewrite Hx. cbn. by rewrite app_nil_r.
    + intros b -> [g Hb]. congruence.
    + by apply grows_refl.
Qed.

Lemma group_synthesized fuel path id g s :
  find_group device id = Some g → synthesized s →
  (∀ p, p ∈ path → tc (nested_group device) p id) →
  size (all_groups device ∖ path) < fuel →
  group_post id s (synthesize_group device facet fuel g s).
Proof using All.
  revert path id g s. induction fuel as [|fuel IH]; intros path id g s Hg Hs Hpath Hfuel; [lia|].
  destruct (find_group_Some _ _ _ Hg) as [Hid Hall]. cbn [synthesize_group]. rewrite Hid.
  destruct (s.2 !! id) as [v|] eqn:Hmemo.
  { exists s. destruct (sy_memo _ Hs _ _ Hmemo) as [-> _]. split_and!; [done| |by apply grows_refl].
    by apply elem_of_dom_2 in Hmemo. }
  assert (∀ b, GroupMember_Group b ∈ group_members g → is_Some (find_group device b) →
    nested_group device id b) as Hnest by (intros b Hb Hfb; by exists g).
  destruct (members_synthesized (synthesize_group device facet fuel) (group_members g) s Hs)
    as (s1 & -> & Hin & Hgr).
  { intros b g' s1 Hb Hfb Hs1. apply (IH ({[id]} ∪ path)); [done..| |].
    - assert (nested_group device id b) as Hn by (apply Hnest; [done|by rewrite Hfb]).
      intros p [->%elem_of_singleton|Hp]%elem_of_union; [by apply tc_once|].
      by eapply tc_r; [apply Hpath|].
    - assert (id ∉ path) as Hnp by (intros Hp%Hpath; by eapply Hacyclic).
      assert (all_groups device ∖ ({[id]} ∪ path) ⊂ all_groups device ∖ path) as Hlt%subset_size
        by set_solver. lia. }
  cbn [mbind option_bind]. pose proof Hgr as [Hs1 Hsub Hbelow].
  assert (id ∉ dom s1.2) as Hnew.
  { intros Hid1. destruct (Hbelow id Hid1) as (r & [Hr Hf] & Hrt); [by apply not_elem_of_dom|].
    apply (Hacyclic id). eapply tc_rtc_r; [apply tc_once, Hnest; done|done]. }
  fold (group_target id). set (m2 := replace_with_aggregate s1.1 (group_target id) facet _).
  eexists (m2, _). split_and!; [reflexivity|cbn [snd]; set_solver|].
  assert (∀ id', id' ∈ dom s1.2 → m2 !! (group_target id', facet) = s1.1 !! (group_target id', facet)) as Hold.
  { intros id' Hid'. apply replace_lookup_ne. unfold group_target. set_solver. }
  assert (∀ members, (∀ b, GroupMember_Group b ∈ members → is_Some (find_group device b) → b ∈ dom s1.2) →
    group_children members m2 = group_children members s1.1) as Hch.
  { intros members Hm. apply children_agree; [|by auto]. intros t _ Ht. apply replace_lookup_ne.
    intros [= Heq]. by eapply Ht. }
  constructor; cbn [snd].
  - constructor; cbn [fst snd].
    + apply keyed_replace; [done| |apply Hs1]. apply children_constituents, Hs1.
    + intros k Hk. unfold m2. rewrite replace_lookup_ne by (apply Hk; set_solver).
      apply Hs1. intros id' Hid'. apply Hk. set_solver.
    + intros id' v. rewrite lookup_insert_Some. intros [[<- <-]|[Hne Hv]].
      * split; [done|]. exists g. split; [done|]. rewrite Hch by done. unfold m2.
        rewrite replace_lookup_eq. f_equal. apply (sy_other _ Hs1).
        intros id' Hid' [= ->]. done.
      * destruct (sy_memo _ Hs1 _ _ Hv) as (Hv1 & g' & Hg' & Hv2). apply elem_of_dom_2 in Hv as Hd.
        rewrite Hold by done. split; [done|]. exists g'. split; [done|]. rewrite Hch; [done|].
        intros b Hb Hf. apply (sy_closed _ Hs1 id'); [done|]. by exists g'.
    + intros id' b. rewrite dom_insert, elem_of_union, elem_of_singleton. intros [->|Hd] Hn.
      * destruct Hn as (g' & Hg' & Hb & Hf). assert (g' = g) as -> by congruence. set_solver.
      * apply (sy_closed _ Hs1 id') in Hn; [set_solver|done].
  - transitivity s1.2; [done|]. by apply insert_subseteq, not_elem_of_dom.
  - intros x. rewrite dom_insert, elem_of_union, elem_of_singleton. intros [->|Hx] Hn.
    + exists id. split; [done|apply rtc_refl].
    + destruct (Hbelow x Hx Hn) as (r & [Hr Hf] & Hrt). exists id. split; [done|].
      by eapply rtc_l; [apply Hnest|].
Qed.

Lemma groups_spec :
  ∃ m, synthesize_groups device facet m0 = Some m ∧ keyed m ∧
    (∀ k, k ∉ (λ g, (group_target (group_id g), facet)) <$> device_groups device →
       m !! k = m0 !! k) ∧
    (∀ g, g ∈ device_groups device →
       m !! (group_target (group_id g), facet) =
         aggregate_of (m0 !! (group_target (group_id g), facet)) (group_target (group_id g))
           (group_children (group_members g) m)).
Proof using All.
  assert (∀ g, g ∈ device_groups device → find_group device (group_id g) = Some g) as Hfind.
  { intros g Hg. unfold find_group. by apply find_key. }
  assert (∀ l, (∀ g, g ∈ l → g ∈ device_groups device) → ∃ s,
    fold_left (λ acc group, s ← acc; snd <$> synthesize_group device facet (group_fuel device) group s)
      l (Some (m0, ∅)) = Some s ∧ synthesized s ∧ ∀ g, g ∈ l → group_id g ∈ dom s.2) as Hloop.
  { intros l. induction l as [|g l IH] using rev_ind; intros Hl.
    - exists (m0, ∅). split_and!; [done| |set_solver]. constructor; cbn; [done|done|..].
      + intros id v. by rewrite lookup_empty.
      + intros id b. by rewrite dom_empty.
    - destruct IH as (s & Hs & Hsy & Hin); [set_solver|]. rewrite fold_left_app, Hs. cbn.
      destruct (group_synthesized (group_fuel device) ∅ (group_id g) g s)
        as (s' & -> & Hid & Hgr); [apply Hfind; set_solver|done|set_solver| |].
      { rewrite difference_empty_L. unfold group_fuel, all_groups.
        pose proof (size_list_to_set_le (group_id <$> device_groups device)) as Hle.
        rewrite length_fmap in Hle. lia. }
      exists s'. cbn. split_and!; [done|apply Hgr|]. pose proof (subseteq_dom _ _ (gr_memo _ _ _ Hgr)). set_solver. }
  destruct (Hloop (device_groups device)) as (s & Hs & Hsy & Hin); [done|].
  exists s.1. unfold synthesize_groups. rewrite Hs. split_and!; [done|apply Hsy|..].
  - intros k Hk. apply Hsy. intros id [v Hv]%elem_of_dom ->.
    destruct (sy_memo _ Hsy _ _ Hv) as (_ & g & Hg & _). destruct (find_group_Some _ _ _ Hg) as [<- _].
    apply Hk. apply list_elem_of_fmap. exists g. split; [done|].
    unfold find_group in Hg. apply List.find_some in Hg as [Hg _]. by apply list_elem_of_In.
  - intros g Hg. specialize (Hin g Hg) as [v Hv]%elem_of_dom.
    destruct (sy_memo _ Hsy _ _ Hv) as (<- & g' & Hg' & ->).
    rewrite Hfind in Hg' by done. by injection Hg' as <-.
Qed.
End groups.

(** *** The device *)

(** What normalisation guarantees of the parts of a device. *)
Record reportable (device : Device) : Prop := {
  rp_surfaces : NoDup (surface_id <$> device_surfaces device);
  rp_groups : NoDup (group_id <$> device_groups device);
  rp_acyclic a : ¬ tc (nested_group device) a a
}.

(** The targets whose appearance is combined from parts. *)
Definition aggregate_targets (device : Device) : list TargetId :=
  TargetId_Device (device_id device) ::
  (surface_target device <$> device_surfaces device) ++
  ((λ g, group_target device (group_id g)) <$> device_groups device).

(** In [m], every surface, every group and the device report the combination of what
    [m] reports of their parts. *)
Record aggregated (device : Device) (facet : StateFacetKind)
    (before : TargetId * StateFacetKind → option FacetObservation) (m : Facets) : Prop := {
  agd_surface s : s ∈ device_surfaces device →
    m !! (surface_target device s, facet) =
      aggregate_of (before (surface_target device s, facet)) (surface_target device s)
        (surface_children device s facet m);
  agd_group g : g ∈ device_groups device →
    m !! (group_target device (group_id g), facet) =
      aggregate_of (before (group_target device (group_id g), facet))
        (group_target device (group_id g)) (group_children device facet (group_members g) m);
  agd_device :
    m !! (TargetId_Device (device_id device), facet) =
      aggregate_of (before (TargetId_Device (device_id device), facet))
        (TargetId_Device (device_id device)) (device_children device facet m)
}.

Lemma aggregated_agree (device : Device) (facet : StateFacetKind)
    (before before' : TargetId * StateFacetKind → option FacetObservation) (m m' : Facets) :
  (∀ t, before' (t, facet) = before (t, facet)) → (∀ t, m' !! (t, facet) = m !! (t, facet)) →
  aggregated device facet before m → aggregated device facet before' m'.
Proof.
  intros Hb Hm [Hs Hg Hd].
  split; intros; rewrite ?Hb, Hm; [rewrite Hs by done|rewrite Hg by done|rewrite Hd]; f_equal.
  - symmetry. by apply surface_children_same.
  - symmetry. by apply children_agree.
  - apply list_fmap_ext. auto.
Qed.

Lemma facet_spec device facet m :
  reportable device → is_Some (mixed_value facet) → keyed m →
  ∃ m', synthesize_facet device m facet = Some m' ∧ keyed m' ∧
    (∀ k, k.2 ≠ facet ∨ k.1 ∉ aggregate_targets device → m' !! k = m !! k) ∧
    aggregated device facet (m !!.) m'.
Proof.
  intros [Hs Hg Ha] Hmix Hk. unfold synthesize_facet.
  destruct (surfaces_spec device facet m Hmix Hk Hs) as (Hk1 & Ho1 & Hs1).
  set (m1 := synthesize_surfaces device facet m) in *.
  destruct (groups_spec device facet m1 Hmix Hk1 Ha Hg) as (m2 & -> & Hk2 & Ho2 & Hg2).
  cbn [mbind option_bind]. eexists. split; [done|].
  set (m3 := replace_with_aggregate m2 _ _ _).
  assert (∀ k, k ≠ (TargetId_Device (device_id device), facet) → m3 !! k = m2 !! k) as Ho3
    by (intros; by apply replace_lookup_ne).
  assert (∀ s, m2 !! (surface_target device s, facet) = m1 !! (surface_target device s, facet)) as Hss.
  { intros s. apply Ho2. intros (g & [=] & _)%list_elem_of_fmap. }
  assert (∀ s e, m3 !! (TargetId_Element (device_id device) s e, facet) =
    m1 !! (TargetId_Element (device_id device) s e, facet)) as He.
  { intros s e. rewrite Ho3 by done. apply Ho2. intros (g & [=] & _)%list_elem_of_fmap. }
  split_and!.
  - apply keyed_replace; [done| |done]. by apply keyed_constituents.
  - intros [t f] Hkey. cbn in Hkey. unfold aggregate_targets in Hkey.
    rewrite Ho3, Ho2, Ho1; [done|..].
    + intros (s & [= -> ->] & Hin)%list_elem_of_fmap. destruct Hkey as [|Hkey]; [done|]. apply Hkey.
      right. apply elem_of_app. left. by apply list_elem_of_fmap_2.
    + intros (g & [= -> ->] & Hin)%list_elem_of_fmap. destruct Hkey as [|Hkey]; [done|]. apply Hkey.
      right. apply elem_of_app. right.
      by apply (list_elem_of_fmap_2 (λ g, group_target device (group_id g))).
    + intros [= -> ->]. destruct Hkey as [|Hkey]; [done|]. apply Hkey. by left.
  - constructor.
    + intros s Hin. rewrite Ho3, Hss, Hs1 by done. f_equal. symmetry. by apply surface_children_same.
    + intros g Hin. rewrite Ho3, Hg2 by done. f_equal.
      * apply Ho1. intros (s & [=] & _)%list_elem_of_fmap.
      * symmetry. apply children_agree; intros; apply Ho3; [|done].
        congruence.
    + unfold m3. rewrite replace_lookup_eq. f_equal.
      * rewrite Ho2, Ho1; [done|intros (s & [=] & _)%list_elem_of_fmap..].
      * apply list_fmap_ext. intros _ s _. symmetry. by apply Ho3.
Qed.

(** The two facets that are combined. *)
Definition combined (facet : StateFacetKind) : Prop :=
  facet = Kind_Appearance ∨ facet = Kind_EffectiveAppearance.

Lemma keyed_by_facet l : keyed (by_facet l).
Proof.
  unfold by_facet, keyed. induction l as [|o l IH] using rev_ind; [done|].
  intros k x. rewrite fold_left_app. cbn. rewrite lookup_insert_Some. naive_solver.
Qed.

Lemma device_aggregates_spec device l :
  reportable device →
  ∃ m, synthesize_device_aggregates device l = Some (map_to_list m).*2 ∧ keyed m ∧
    (∀ k, ¬ combined k.2 ∨ k.1 ∉ aggregate_targets device → m !! k = by_facet l !! k) ∧
    ∀ facet, combined facet → aggregated device facet (by_facet l !!.) m.
Proof.
  intros Hd. unfold synthesize_device_aggregates.
  pose proof (keyed_by_facet l) as Hk0.
  destruct (facet_spec device Kind_Appearance (by_facet l)) as (m1 & -> & Hk1 & Ho1 & Ha1); [done..|].
  cbn [mbind option_bind].
  destruct (facet_spec device Kind_EffectiveAppearance m1) as (m2 & -> & Hk2 & Ho2 & Ha2); [done..|].
  exists m2. split_and!; [done|done|..].
  - intros k Hk. rewrite Ho2, Ho1; [done|..]; unfold combined in Hk; naive_solver.
  - intros facet [-> | ->].
    + apply (aggregated_agree _ _ (by_facet l !!.) _ m1); [done| |done]. intros t. apply Ho2. by left.
    + apply (aggregated_agree _ _ (m1 !!.) _ m2); [|done..]. intros t. symmetry. apply Ho1. by left.
Qed.

Lemma observation_sorted st m t k :
  keyed m →
  DeviceStateStatus_observation
    (with_observations st (merge_sort observation_le (map_to_list m).*2)) t k = m !! (t, k).
Proof.
  intros Hk. unfold DeviceStateStatus_observation. cbn [dss_observations with_observations].
  assert (∀ o, o ∈ merge_sort observation_le (map_to_list m).*2 ↔ m !! fo_key o = Some o) as Hin.
  { intros o. rewrite merge_sort_Permutation, list_elem_of_fmap. split.
    - intros ([k' o'] & -> & Ho%elem_of_map_to_list). cbn. by rewrite (Hk _ _ Ho).
    - intros Ho. exists (fo_key o, o). split; [done|]. by apply elem_of_map_to_list. }
  destruct (list_find _ _) as [[i o]|] eqn:Hf; cbn.
  - apply list_find_Some in Hf as (Hl & [<- <-] & _). symmetry. apply Hin.
    by apply list_elem_of_lookup_2 in Hl.
  - apply list_find_None in Hf. rewrite Forall_forall in Hf.
    destruct (m !! (t, k)) as [o|] eqn:Ho; [|done]. exfalso.
    pose proof (Hk _ _ Ho) as Hkey. destruct (Hf o).
    + apply Hin. by rewrite Hkey.
    + unfold fo_key in Hkey. by simplify_eq.
Qed.

#[export] Instance observation_le_total : Total observation_le.
Proof.
  intros a b. unfold observation_le.
  apply (_ : Total (lex_le (lex_le (lex_le (lex_le le String.le) String.le) String.le) le)).
Qed.
#[export] Instance observation_le_trans : Transitive observation_le.
Proof.
  intros a b c. unfold observation_le.
  apply (_ : Transitive (lex_le (lex_le (lex_le (lex_le le String.le) String.le) String.le) le)).
Qed.

(** ** What is known before aggregation *)

(** The effective appearance: a stream hides whatever was configured; otherwise the
    appearance is seen when the target emits light. *)
Definition effective_report (now : Z) (st : DaemonState) (t : TargetId) :
    option FacetObservation :=
  match ds_observations st !! (t, Kind_Appearance) with
  | Some o => synthesize_effective now st o
  | None =>
      if bool_decide (is_Some (ds_frame_streams st !! t))
      then Some (streaming_effective_appearance_observation now t) else None
  end.

Definition base_report (now : Z) (st : DaemonState) (device : DeviceId)
    (k : TargetId * StateFacetKind) : option FacetObservation :=
  if bool_decide (TargetId_device_id k.1 = device) then
    match k.2 with
    | Kind_EffectiveAppearance =>
        match effective_report now st k.1 with
        | Some o => Some o
        | None => ds_observations st !! k
        end
    | _ => ds_observations st !! k
    end
  else None.

Lemma device_observations_elem st d o :
  keyed (ds_observations st) →
  o ∈ device_observations st d ↔
  ds_observations st !! fo_key o = Some o ∧ TargetId_device_id (fo_target o) = d.
Proof.
  intros Hk. unfold device_observations. rewrite list_elem_of_filter, list_elem_of_fmap. split.
  - intros (Hd & [k o'] & -> & Ho%elem_of_map_to_list). cbn. by rewrite (Hk _ _ Ho).
  - intros [Ho Hd]. split; [done|]. exists (fo_key o, o). split; [done|]. by apply elem_of_map_to_list.
Qed.

Lemma device_observations_NoDup st d :
  keyed (ds_observations st) → NoDup (fo_key <$> device_observations st d).
Proof.
  intros Hk. unfold device_observations.
  apply (sublist_NoDup _ (fo_key <$> (map_to_list (ds_observations st)).*2));
    [|apply fmap_sublist, sublist_filter].
  rewrite keyed_keys by done. apply NoDup_fst_map_to_list.
Qed.

Lemma synthesize_effective_key now st o e :
  synthesize_effective now st o = Some e →
  fo_key e = (fo_target o, Kind_EffectiveAppearance) ∧ fo_key o = (fo_target o, Kind_Appearance).
Proof.
  unfold synthesize_effective, fo_key. destruct (fo_value o); [|done..].
  destruct (is_frame_streaming _ _); [by intros [= <-]|]. intros (e' & _ & He)%bind_Some.
  destruct (fo_value e'); [done|done| |done..]. by injection He as <-.
Qed.

Lemma NoDup_omap_key {A B K K'} (g : A → option B) (f : A → K) (h : B → K') l :
  (∀ x y x' y', g x = Some x' → g y = Some y' → h x' = h y' → f x = f y) →
  NoDup (f <$> l) → NoDup (h <$> omap g l).
Proof.
  intros Hinj. induction l as [|x l IH]; cbn; [constructor|]. intros [Hx Hnd]%NoDup_cons.
  destruct (g x) as [x'|] eqn:Hg; [|by apply IH]. cbn. constructor; [|by apply IH].
  intros (y' & Heq & (y & Hy & Hgy)%list_elem_of_omap)%list_elem_of_fmap. apply Hx.
  rewrite (Hinj x y x' y') by done. by apply list_elem_of_fmap_2.
Qed.

(** A later list of observations, under distinct keys, takes precedence. *)
Lemma later_lookup (l : list FacetObservation) (m : Facets) k :
  NoDup (fo_key <$> l) →
  (∃ o, o ∈ l ∧ fo_key o = k ∧ fold_left (λ m o, <[fo_key o := o]> m) l m !! k = Some o) ∨
  ((∀ o, o ∈ l → fo_key o ≠ k) ∧ fold_left (λ m o, <[fo_key o := o]> m) l m !! k = m !! k).
Proof.
  intros Hnd. destruct (Prelude.fold_insert_lookup fo_key id l m Hnd) as [Hin Hout].
  destruct (decide (k ∈ fo_key <$> l)) as [(o & -> & Ho)%list_elem_of_fmap|Hn].
  - left. exists o. split_and!; [done..|]. by apply Hin.
  - right. split; [|by apply Hout]. intros o Ho <-. by apply Hn, list_elem_of_fmap_2.
Qed.

Section base.
Context (now : Z) (st : DaemonState) (d : DeviceId) (Hkeyed : keyed (ds_observations st)).

Lemma base_observations k :
  by_facet (device_observations st d) !! k =
  if bool_decide (TargetId_device_id k.1 = d) then ds_observations st !! k else None.
Proof using Hkeyed.
  unfold by_facet. destruct (later_lookup (device_observations st d) ∅ k)
    as [(o & Ho & <- & ->)|[Hn ->]]; [by apply device_observations_NoDup| |].
  - apply device_observations_elem in Ho as [-> <-]; [|done]. cbn. by rewrite bool_decide_true.
  - rewrite lookup_empty. case_bool_decide as Hd; [|done].
    destruct (ds_observations st !! k) as [o|] eqn:Ho; [|done]. exfalso.
    pose proof (Hkeyed _ _ Ho) as <-. eapply Hn; [|done]. by apply device_observations_elem.
Qed.

Lemma synthesized_NoDup :
  NoDup (fo_key <$> omap (synthesize_effective now st) (device_observations st d)).
Proof using Hkeyed.
  apply (NoDup_omap_key _ fo_key); [|by apply device_observations_NoDup].
  intros x y x' y' [Hx' ->]%synthesize_effective_key [Hy' ->]%synthesize_effective_key.
  rewrite Hx', Hy'. by intros [= ->].
Qed.

Lemma streaming_NoDup l :
  NoDup (fo_key <$> (streaming_effective_appearance_observation now <$> uncovered_streams st d l)).
Proof.
  rewrite <-list_fmap_compose. apply NoDup_fmap_2_strong; [by intros x y _ _ [= ->]|].
  apply NoDup_filter, NoDup_fst_map_to_list.
Qed.

Lemma uncovered_elem t :
  t ∈ uncovered_streams st d (device_observations st d) ↔
  is_Some (ds_frame_streams st !! t) ∧ TargetId_device_id t = d ∧
  ds_observations st !! (t, Kind_Appearance) = None.
Proof using Hkeyed.
  unfold uncovered_streams. rewrite list_elem_of_filter, list_elem_of_fmap.
  assert ((∃ p, t = p.1 ∧ p ∈ map_to_list (ds_frame_streams st)) ↔
    is_Some (ds_frame_streams st !! t)) as Hs.
  { split; [intros ([t' s] & -> & Hp%elem_of_map_to_list); cbn; by rewrite Hp|].
    intros [s Hp]. exists (t, s). split; [done|]. by apply elem_of_map_to_list. }
  rewrite Hs. split.
  - intros ((Hd & Hc) & Hst). split_and!; [done..|].
    destruct (ds_observations st !! (t, Kind_Appearance)) as [o|] eqn:Ho; [|done]. exfalso.
    pose proof (Hkeyed _ _ Ho) as Hkey. apply Hc, list_elem_of_omap. exists o.
    unfold fo_key in Hkey. injection Hkey as Ht Hv. split.
    + apply device_observations_elem; [done|]. unfold fo_key. by rewrite Ht, Hv.
    + unfold covered_stream. destruct (fo_value o); [|done..]. rewrite Ht.
      assert (is_frame_streaming st t = true) as ->; [|done].
      unfold is_frame_streaming. apply existsb_exists. exists t. split; [|apply target_covers_refl].
      apply list_elem_of_In, list_elem_of_fmap. by apply Hs in Hst.
  - intros (Hst & Hd & Hn). split; [split; [done|]|done].
    intros (o & Ho & Hc)%list_elem_of_omap. apply device_observations_elem in Ho as [Ho _]; [|done].
    unfold covered_stream in Hc. destruct (fo_value o) eqn:Hv; [|done..].
    destruct (is_frame_streaming _ _); [|done]. injection Hc as <-. unfold fo_key in Ho.
    rewrite Hv in Ho. cbn in Ho. congruence.
Qed.

Lemma base_spec k : by_facet (observed now st d) !! k = base_report now st d k.
Proof using Hkeyed.
  unfold by_facet, observed. rewrite !fold_left_app.
  fold (by_facet (device_observations st d)).
  destruct (later_lookup _ (fold_left (λ m o, <[fo_key o := o]> m)
    (omap (synthesize_effective now st) (device_observations st d))
    (by_facet (device_observations st d))) k (streaming_NoDup (device_observations st d)))
    as [(o & Ho & <- & ->)|[Hn3 ->]].
  { apply list_elem_of_fmap in Ho as (t & -> & (Hs & Hd & Hn)%uncovered_elem). cbn.
    unfold base_report. cbn. rewrite bool_decide_true by done.
    unfold effective_report. by rewrite Hn, bool_decide_true. }
  destruct (later_lookup _ (by_facet (device_observations st d)) k synthesized_NoDup)
    as [(e & (o & Ho & He)%list_elem_of_omap & <- & ->)|[Hn2 ->]].
  { apply device_observations_elem in Ho as [Ho Hd]; [|done].
    pose proof (synthesize_effective_key _ _ _ _ He) as [-> Hkey]. rewrite Hkey in Ho.
    unfold base_report. cbn. rewrite bool_decide_true by done. unfold effective_report. by rewrite Ho, He. }
  rewrite base_observations. unfold base_report. case_bool_decide as Hd; [|done].
  destruct k as [t f]. cbn in *. destruct f; [done|done|done|done| |done].
  destruct (effective_report now st t) as [e|] eqn:He; [|done]. exfalso. unfold effective_report in He.
  destruct (ds_observations st !! (t, Kind_Appearance)) as [o|] eqn:Ho.
  - pose proof (Hkeyed _ _ Ho) as Hkey. pose proof (synthesize_effective_key _ _ _ _ He) as [Hke _].
    unfold fo_key in Hkey. injection Hkey as Ht Hv. apply (Hn2 e); [|by rewrite Hke, Ht].
    apply list_elem_of_omap. exists o. split; [|done]. apply device_observations_elem; [done|].
    unfold fo_key. by rewrite Ht, Hv.
  - case_bool_decide as Hs; [|done]. injection He as <-.
    apply (Hn3 (streaming_effective_appearance_observation now t)); [|done]. apply list_elem_of_fmap_2. by apply uncovered_elem.
Qed.
End base.

(** ** Collections *)

Section collections.
Context (collections : gmap CollectionId Collection) (facet : StateFacetKind).
Context (statuses : gmap DeviceId DeviceStateStatus).

Definition target_report (target : TargetId) : option FacetObservation :=
  status ← statuses !! TargetId_device_id target;
  DeviceStateStatus_observation status target facet.

(** The plain recursive definition: the combination of the members' reports. *)
Inductive reports : CollectionId → option FacetObservation → Prop :=
| reports_intro id c os :
    collections !! id = Some c → reports_all (collection_members c) os →
    reports id (aggregate_observations os None)
with reports_all : list CollectionMember → list (option FacetObservation) → Prop :=
| reports_nil : reports_all [] []
| reports_target t ms os :
    reports_all ms os → reports_all (Member_Target t :: ms) (target_report t :: os)
| reports_collection b ms o os :
    reports b o → reports_all ms os → reports_all (Member_Collection b :: ms) (o :: os).

Lemma reports_all_app ms ms' os os' :
  reports_all ms os → reports_all ms' os' → reports_all (ms ++ ms') (os ++ os').
Proof. intros H H'. induction H; cbn; [done|by constructor..]. Qed.

Let edge := nests (map_graph collections).

Definition memo_reports (a : Aggregation) : Prop :=
  ∀ x v, ag_memo a !! x = Some v → reports x v.

Definition aggregate_post (id : CollectionId) (a : Aggregation)
    (r : option (option FacetObservation * Aggregation)) : Prop :=
  ∃ v a', r = Some (v, a') ∧ reports id v ∧ memo_reports a' ∧ ag_visiting a' = ag_visiting a.

Lemma aggregate_members_spec rec ms a :
  memo_reports a →
  (∀ b a1, Member_Collection b ∈ ms → memo_reports a1 → ag_visiting a1 = ag_visiting a →
     aggregate_post b a1 (rec b a1)) →
  ∃ os a', fold_left (aggregate_member rec facet statuses) ms (Some ([], a)) = Some (os, a') ∧
    reports_all ms os ∧ memo_reports a' ∧ ag_visiting a' = ag_visiting a.
Proof.
  intros Ha. induction ms as [|x ms IH] using rev_ind; intros Hrec.
  { exists [], a. split_and!; [done|constructor|done..]. }
  destruct IH as (os & a1 & Hf & Hos & Ha1 & Hv1). { intros b a1 Hb. apply Hrec. set_solver. }
  rewrite fold_left_app, Hf. cbn [fold_left]. destruct x as [t|b]; cbn.
  - eexists _, a1. split_and!; [done| |done..]. apply reports_all_app; [done|]. repeat constructor.
  - destruct (Hrec b a1) as (v & a2 & -> & Hv & Ha2 & Hv2); [set_solver|done..|]. cbn.
    eexists _, a2. split_and!; [done| |done|congruence]. apply reports_all_app; [done|].
    by repeat constructor.
Qed.

Lemma collection_aggregate_spec fuel id a :
  good (map_graph collections) id → memo_reports a →
  (∀ p, p ∈ ag_visiting a → tc edge p id) → size (dom collections ∖ ag_visiting a) < fuel →
  aggregate_post id a (collection_aggregate collections facet statuses fuel id a).
Proof.
  revert id a. induction fuel as [|fuel IH]; intros id a Hg Ha Hvis Hfuel; [lia|].
  cbn [collection_aggregate]. destruct (ag_memo a !! id) as [v|] eqn:Hm.
  { exists v, a. split_and!; [done|by apply Ha|done..]. }
  assert (id ∉ ag_visiting a) as Hnv by (intros Hin%Hvis; by eapply good_acyclic).
  rewrite bool_decide_false by done. destruct Hg as [c Hc _ Hn]. cbn in Hc. rewrite Hc.
  assert (id ∈ dom collections) as Hdom by by apply elem_of_dom_2 in Hc.
  destruct (aggregate_members_spec (collection_aggregate collections facet statuses fuel)
    (collection_members c) {| ag_memo := ag_memo a; ag_visiting := {[id]} ∪ ag_visiting a |})
    as (os & a1 & -> & Hos & Ha1 & Hv1); [done| |].
  { intros b a1 Hb Ha1 Hv1. apply IH; [by apply Hn|done|..].
    - assert (edge id b) as He by (by exists c). intros p. rewrite Hv1. cbn.
      intros [->%elem_of_singleton|Hp%Hvis]%elem_of_union; [by apply tc_once|by eapply tc_r].
    - rewrite Hv1. cbn.
      assert (dom collections ∖ ({[id]} ∪ ag_visiting a) ⊂ dom collections ∖ ag_visiting a)
        as Hlt%subset_size by set_solver. lia. }
  cbn. assert (reports id (aggregate_observations os None)) as Hr by by eapply reports_intro.
  eexists _, _. split_and!; [reflexivity|done| |].
  - intros x v. cbn. rewrite lookup_insert_Some. intros [[<- <-]|[_ Hx]]; [done|by apply Ha1].
  - cbn. rewrite Hv1. cbn. set_solver.
Qed.

(** The report is unique, so that the memo can only save work. *)
Scheme reports_mind := Induction for reports Sort Prop
  with reports_all_mind := Induction for reports_all Sort Prop.
Combined Scheme reports_both_ind from reports_mind, reports_all_mind.

Lemma reports_unique :
  (∀ id o, reports id o → ∀ o', reports id o' → o = o') ∧
  (∀ ms os, reports_all ms os → ∀ os', reports_all ms os' → os = os').
Proof.
  apply reports_both_ind.
  - intros id c os Hc _ IH o' Ho'. destruct Ho' as [id' c' os' Hc' Hos'].
    assert (c' = c) as -> by congruence. f_equal. auto.
  - intros os' Hos'. by inversion Hos'.
  - intros t ms os _ IH os' Hos'. inversion Hos'; subst. f_equal. auto.
  - intros b ms o os _ IHb _ IH os' Hos'. inversion Hos'; subst. f_equal; auto.
Qed.
End collections.

(** ** Reports *)

Lemma device_reported now st d device :
  ds_devices st !! d = Some device → reportable device → keyed (ds_observations st) →
  ∃ status m, device_state_status now st d = Some (Some status) ∧
    (∀ t k, DeviceStateStatus_observation status t k = m !! (t, k)) ∧
    StronglySorted observation_le (dss_observations status) ∧
    NoDup (fo_key <$> dss_observations status) ∧
    (∀ k, ¬ combined k.2 ∨ k.1 ∉ aggregate_targets device → m !! k = base_report now st d k) ∧
    ∀ facet, combined facet → aggregated device facet (base_report now st d) m.
Proof.
  intros Hd Hr Hk. unfold device_state_status. rewrite Hd.
  destruct (device_aggregates_spec device (observed now st d) Hr) as (m & -> & Hkm & Ho & Ha).
  eexists _, m. split_and!; [done|..].
  - intros t k. by apply observation_sorted.
  - apply (StronglySorted_merge_sort observation_le).
  - cbn. rewrite merge_sort_Permutation, keyed_keys by done. apply NoDup_fst_map_to_list.
  - intros k Hkey. rewrite Ho by done. by apply base_spec.
  - intros facet Hf. eapply aggregated_agree; [|done|by apply Ha]. intros t. symmetry. by apply base_spec.
Qed.

(** All devices can be reported on. *)
Definition all_reportable (st : DaemonState) : Prop :=
  (∀ d device, ds_devices st !! d = Some device → reportable device) ∧
  keyed (ds_observations st).

Lemma device_statuses_spec now st :
  all_reportable st →
  ∃ statuses, device_statuses now st = Some statuses ∧
    ∀ d, device_state_status now st d = Some (statuses !! d).
Proof.
  intros [Hr Hk]. unfold device_statuses.
  assert (∀ l, (∀ d, d ∈ l → is_Some (ds_devices st !! d)) → ∃ statuses,
    fold_left (add_status now st) l (Some ∅) = Some statuses ∧
    (∀ d, d ∈ l → device_state_status now st d = Some (statuses !! d)) ∧
    (∀ d, d ∉ l → statuses !! d = None)) as Hloop.
  { intros l. induction l as [|d l IH] using rev_ind; intros Hl.
    - exists ∅. split_and!; [done|by intros d ?%not_elem_of_nil|done].
    - destruct IH as (m & Hm & Hin & Hout); [set_solver|]. rewrite fold_left_app, Hm. cbn.
      destruct (Hl d) as [device Hd]; [set_solver|].
      destruct (device_reported now st d device Hd (Hr _ _ Hd) Hk) as (status & _ & Hs & _).
      rewrite Hs. cbn. exists (<[d := status]> m). split_and!; [done|..].
      + intros d' Hd'. destruct (decide (d' = d)) as [->|Hne]; [by rewrite lookup_insert_eq|].
        rewrite lookup_insert_ne by done. apply Hin. set_solver.
      + intros d' Hd'. rewrite lookup_insert_ne by set_solver. apply Hout. set_solver. }
  destruct (Hloop (map_to_list (ds_devices st)).*1) as (m & -> & Hin & Hout).
  { intros d ([d' dev] & -> & Hd%elem_of_map_to_list)%list_elem_of_fmap. by eexists. }
  exists m. split; [done|]. intros d. destruct (ds_devices st !! d) as [device|] eqn:Hd.
  - apply Hin. apply list_elem_of_fmap. exists (d, device). split; [done|]. by apply elem_of_map_to_list.
  - rewrite Hout; [unfold device_state_status; by rewrite Hd|].
    intros ([d' dev] & -> & Hd'%elem_of_map_to_list)%list_elem_of_fmap. cbn in Hd. congruence.
Qed.

(** The state of a device is always reported, each facet of each target once and in
    a fixed order.  What is reported of an element, and every facet that is not an
    appearance, is what is known of it (a stream hiding the configured appearance); what
    is reported of a surface, a group or the device is the combination of what is
    reported of its elements, members or surfaces, at any depth of nested groups. *)
Theorem device_state_status_correct now st d device :
  ds_devices st !! d = Some device → reportable device → keyed (ds_observations st) →
  ∃ status m, device_state_status now st d = Some (Some status) ∧
    (∀ t k, DeviceStateStatus_observation status t k = m !! (t, k)) ∧
    StronglySorted observation_le (dss_observations status) ∧
    NoDup (fo_key <$> dss_observations status) ∧
    (∀ k, ¬ combined k.2 ∨ k.1 ∉ aggregate_targets device → m !! k = base_report now st d k) ∧
    ∀ facet, combined facet → aggregated device facet (base_report now st d) m.
Proof.
  apply device_reported.
Qed.

(** C39: The state of a registered collection is always reported, and it is the plain
    recursive combination of the reports of its members, of whatever devices and nested
    collections they are; sharing nested results changes nothing. *)
Theorem collection_state_status_correct now st id :
  all_reportable st → good (map_graph (ds_collections st)) id →
  ∃ statuses appearance effective,
    (∀ d, device_state_status now st d = Some (statuses !! d)) ∧
    (∀ o, reports (ds_collections st) Kind_Appearance statuses id o ↔ o = appearance) ∧
    (∀ o, reports (ds_collections st) Kind_EffectiveAppearance statuses id o ↔ o = effective) ∧
    collection_state_status now st id = Some (Some {|
      css_collection := id;
      css_appearance := appearance ≫= collection_appearance_observation;
      css_effective_appearance := effective ≫= collection_effective_appearance_observation |}).
Proof.
  intros Hr Hg. unfold collection_state_status.
  assert (is_Some (ds_collections st !! id)) as [c Hc] by (destruct Hg as [c Hc _ _]; by exists c).
  rewrite Hc. destruct (device_statuses_spec now st Hr) as (statuses & -> & Hs). cbn [mbind option_bind].
  assert (∀ facet, ∃ v a, collection_aggregate (ds_collections st) facet statuses
      (aggregate_fuel (ds_collections st)) id {| ag_memo := ∅; ag_visiting := ∅ |} = Some (v, a) ∧
      ∀ o, reports (ds_collections st) facet statuses id o ↔ o = v) as Hagg.
  { intros facet. destruct (collection_aggregate_spec (ds_collections st) facet statuses
      (aggregate_fuel (ds_collections st)) id {| ag_memo := ∅; ag_visiting := ∅ |})
      as (v & a & Hv & Hrep & _); [done|by intros x v|set_solver| |].
    - cbn. rewrite difference_empty_L, size_dom. unfold aggregate_fuel. lia.
    - exists v, a. split; [done|]. intros o. split; [|by intros ->]. intros Ho.
      by apply (proj1 (reports_unique (ds_collections st) facet statuses) id). }
  destruct (Hagg Kind_Appearance) as (v1 & a1 & -> & H1).
  destruct (Hagg Kind_EffectiveAppearance) as (v2 & a2 & -> & H2).
  exists statuses, v1, v2. done.
Qed.

(** *** Captured endpoints *)

Definition captured (st : DaemonState) (target : TargetId) (s : SceneTargetState) : Prop :=
  ∃ appearance emission effect light,
    ds_observations st !! (target, Kind_Appearance) = Some appearance ∧
    ds_observations st !! (target, Kind_Emission) = Some emission ∧
    fo_stale appearance = false ∧ fo_stale emission = false ∧
    effect_of (fo_value appearance) = Some effect ∧ fo_value emission = Facet_Emission light ∧
    s = {| sts_appearance := Some effect;
           sts_brightness :=
             (fo_value <$> fresh (ds_observations st !! (target, Kind_Brightness))) ≫= brightness_of;
           sts_emission := Some light; sts_appearance_slots := None |}.

(** From what is known of a target without parts. *)
Lemma current_from_base now st target status s :
  is_frame_streaming st target = false → keyed (ds_observations st) →
  (∀ k, DeviceStateStatus_observation status target k =
        base_report now st (TargetId_device_id target) (target, k)) →
  current_from_status target (Some status) = Ok s ↔ captured st target s.
Proof.
  intros Hns Hk Hbase. unfold current_from_status. cbn [ok_or mbind result_bind].
  rewrite !Hbase. unfold base_report. cbn [fst snd]. rewrite !bool_decide_true by done.
  unfold captured. destruct (ds_observations st !! (target, Kind_Appearance)) as [oa|] eqn:Ha.
  2:{ cbn. split; [done|]. intros (? & ? & ? & ? & [=] & _). }
  cbn [fresh mbind option_bind]. destruct (fo_stale oa) eqn:Hsa; cbn.
  { split; [done|]. intros (? & ? & ? & ? & [= <-] & _ & ? & _). congruence. }
  destruct (effect_of (fo_value oa)) as [effect|] eqn:He; cbn.
  2:{ split; [done|]. intros (? & ? & ? & ? & [= <-] & _ & _ & _ & ? & _). congruence. }
  destruct (ds_observations st !! (target, Kind_Emission)) as [oe|] eqn:Hem; cbn.
  2:{ split; [done|]. intros (? & ? & ? & ? & _ & [=] & _). }
  destruct (fo_stale oe) eqn:Hse; cbn.
  { split; [done|]. intros (? & ? & ? & ? & _ & [= <-] & _ & ? & _). congruence. }
  pose proof (Hk _ _ Hem) as [= _ Hkind]. destruct (fo_value oe) as [| |light| | |] eqn:Hve; try done. cbn.
  pose proof (Hk _ _ Ha) as [= Ht _]. unfold effective_report. rewrite Ha.
  assert (∃ o, synthesize_effective now st oa = Some o ∧ fo_stale o = false ∧
    definite_effective (fo_value o) = true) as (o & -> & Hso & Hdef).
  { unfold synthesize_effective. destruct (fo_value oa) as [[]| | | | |]; try done; cbn in He.
    all: rewrite Ht, Hns, Hem; cbn; rewrite Hve; eexists; split; [done|]; cbn; rewrite Hsa, Hse.
    all: by destruct light. }
  cbn. rewrite Hso. cbn. rewrite Hdef. cbn. split.
  - intros [= <-]. by exists oa, oe, effect, light.
  - intros (? & ? & ? & ? & [= <-] & [= <-] & _ & _ & He' & Hl & ->).
    rewrite He in He'. injection He' as <-. rewrite Hve in Hl. by injection Hl as <-.
Qed.

(** An endpoint is captured from a target without parts exactly when no stream covers
    it and its appearance and emission are known and not stale; the captured state is
    those, with the brightness when that is fresh.  Every other case is refused. *)
Theorem fresh_current_correct now st target device s :
  ds_devices st !! TargetId_device_id target = Some device → reportable device →
  keyed (ds_observations st) → target ∉ aggregate_targets device →
  (fresh_current_target_state now st target = Some (Ok s) ↔
   is_frame_streaming st target = false ∧ captured st target s) ∧
  fresh_current_target_state now st target ≠ None.
Proof.
  intros Hd Hr Hk Hleaf. unfold fresh_current_target_state, ensure_not_frame_streaming.
  destruct (is_frame_streaming st target) eqn:Hs; [split; [split; [done|by intros [? _]]|done]|].
  destruct (device_reported now st _ device Hd Hr Hk) as (status & m & -> & Ho & _ & _ & Hb & _).
  cbn [mbind option_bind]. split; [|done].
  pose proof (current_from_base now st target status s Hs Hk) as Hc.
  split; [intros [= H]; split; [done|]; apply Hc; [|done]|intros [_ H]; f_equal; apply Hc; [|done]];
    intros k; rewrite Ho; apply Hb; by right.
Qed.

(** ** The daemon's observations are keyed by target and facet *)

Lemma keyed_insert (m : Facets) (o : FacetObservation) : keyed m → keyed (<[fo_key o := o]> m).
Proof. intros Hm k x. rewrite lookup_insert_Some. naive_solver. Qed.

Lemma keyed_subseteq (m m' : Facets) : m' ⊆ m → keyed m → keyed m'.
Proof. intros Hsub Hm k x Hx. apply Hm. by eapply lookup_weaken. Qed.

Lemma keyed_stale_for (d : DeviceId) (m : Facets) : keyed m → keyed (stale_for d m).
Proof.
  intros Hm k x. unfold stale_for. rewrite map_lookup_imap. intros (o & Ho & Hx)%bind_Some.
  apply Hm in Ho as <-. injection Hx as <-. by case_bool_decide.
Qed.

Lemma keyed_note now st t state :
  keyed (ds_observations st) →
  keyed (ds_observations (note_successful_apply_at_canonical_target now st t state)).
Proof.
  intros Hk. unfold note_successful_apply_at_canonical_target.
  assert (∀ slot_count values m, keyed m → keyed (fold_left (insert_projected now t slot_count) values m))
    as Hins.
  { intros slot_count values. induction values as [|v values IH]; intros m Hm; [done|]. cbn. apply IH.
    by apply (keyed_insert _ (assumed now t Source_SuccessfulApply (with_completeness slot_count v))). }
  assert (∀ m, ds_observations (set_observations st m) = m) as Hset
    by (intros; by destruct st).
  destruct state; cbn zeta; rewrite Hset.
  all: try (by eapply keyed_subseteq; [apply map_filter_subseteq|]).
  all: case_match; [|by apply Hins].
  all: try (case_match; [by apply Hins|]).
  all: by apply (keyed_insert _ (assumed _ _ _ (Facet_PhysicalPower Power_On))), Hins.
Qed.

(** Readings, writes, and the end of a reconciliation keep them so. *)
Lemma observations_stay_keyed `{Env} now st :
  keyed (ds_observations st) →
  (∀ d expected snapshot adopt,
     keyed (ds_observations (accept_snapshot now st d expected snapshot adopt).1)) ∧
  (∀ t state, keyed (ds_observations (note_successful_apply now st t state))) ∧
  (∀ d diagnostic, keyed (ds_observations (fail_reconciliation now st d diagnostic))).
Proof.
  intros Hk. split_and!.
  - intros d expected snapshot adopt. unfold accept_snapshot.
    destruct (negb _); [done|]. destruct (validate_snapshot _ _ _ _) as [vs|]; [|done].
    assert (∀ vs acc, keyed (ds_observations acc.1) →
      keyed (ds_observations (fold_left (publish now d adopt) vs acc).1)) as Hpub.
    { clear vs. intros vs. induction vs as [|[[t v] f] vs IH]; intros [st1 l] Hst; [done|]. cbn [fold_left].
      apply IH. assert (keyed (<[(t, FacetValue_kind (merge_previous st1 t v)) :=
        published now st1 (t, v, f)]> (ds_observations st1))) as Hm
        by (by apply (keyed_insert _ (published now st1 (t, v, f)))).
      unfold publish. destruct adopt; [case_bool_decide|]; destruct st1; exact Hm. }
    specialize (Hpub vs (st, []) Hk). destruct (fold_left _ vs _) as [st1 adopted]. cbn [fst] in *.
    destruct (settle_spec now st1 d (negb (bool_decide (length (pss_observations snapshot) = 0)))
      (pss_errors snapshot)) as [m ->]. destruct st1. cbn in *. case_match; [done|by apply keyed_stale_for].
  - intros t state. unfold note_successful_apply.
    assert (∀ l st1, keyed (ds_observations st1) → keyed (ds_observations (fold_left (λ st canonical,
      note_successful_apply_at_canonical_target now st canonical state) l st1))) as Hfold.
    { intros l. induction l as [|x l IH]; intros st1 Hst; [done|]. cbn. by apply IH, keyed_note. }
    destruct t; [by apply Hfold|by apply Hfold|by apply keyed_note|by apply Hfold].
  - intros d diagnostic. destruct st. by apply keyed_stale_for.
Qed.

(** ** Normalised devices can be reported on *)

Lemma to_device_reportable d : device_ok d → reportable (to_device d).
Proof.
  intros Hd. constructor.
  - apply (to_device_wf d Hd).
  - cbn. rewrite <-list_fmap_compose. apply NoDup_fmap_2_strong.
    + intros x y Hx Hy [= Heq]. by apply (NoDup_fmap_same gd_id (dd_groups d)); [apply Hd|..].
    + eapply NoDup_fmap_1, (dok_group_ids d Hd).
  - assert (∀ a b, nested_group (to_device d) a b →
      refers (dd_groups d) (GroupId_as_str a) (GroupId_as_str b)) as Hn.
    { intros a b (g & Hg & Hb & _). destruct (find_group_Some _ _ _ Hg) as [<- _].
      unfold find_group in Hg. apply List.find_some in Hg as [Hg%list_elem_of_In _]. cbn in Hg.
      apply list_elem_of_fmap in Hg as (gd & -> & Hg). cbn in Hb.
      apply list_elem_of_fmap in Hb as ([| |b'] & [=] & Hb). subst b. by exists gd. }
    intros a Ha. apply (dok_acyclic d Hd (GroupId_as_str a)).
    assert (∀ b c, tc (nested_group (to_device d)) b c →
      tc (refers (dd_groups d)) (GroupId_as_str b) (GroupId_as_str c)) as Htc; [|by apply Htc].
    intros b c H. induction H; [by apply tc_once, Hn|]. eapply tc_l; [by apply Hn|done].
Qed.

Lemma from_descriptors_reportable ds st : from_descriptors ds = Ok st → all_reportable st.
Proof.
  unfold from_descriptors. intros H. apply bind_Ok in H as (devices & H & [= <-]).
  apply normalize_devices_Ok in H as (-> & Hok & _). rewrite Forall_forall in Hok. split; [|done].
  intros d device [(x & -> & Hx)%list_elem_of_fmap _]%device_map_lookup. by apply to_device_reportable, Hok.
Qed.

(** ** A keyboard *)

Module Reported.
Definition coloured : CapabilitySet := {|
  cs_colour := [ColourCapability_rgb8]; cs_cct_emulation := cs_cct_emulation CapabilitySet_default;
  cs_brightness := cs_brightness CapabilitySet_default; cs_frame_upload := None;
  cs_hardware_effects := None; cs_appearance_slots := None;
  cs_persistence := cs_persistence CapabilitySet_default; cs_state_readback := Readback_None;
  cs_emission := true; cs_off_is_wear_safe := true; cs_physical_power := None;
  cs_power_domain := None |}.
Definition key (id : string) : ElementDescriptor := {|
  ed_id := id; ed_name := Some id; ed_kind := ElementKind_Key; ed_geometry := None;
  ed_physical_tags := []; ed_capabilities := coloured; ed_notes := []; ed_warnings := [] |}.
Definition descriptor : DeviceDescriptor := {|
  dd_id := "kbd"; dd_name := "kbd"; dd_vendor := None; dd_model := None;
  dd_surfaces := [{| sd_id := "keys"; sd_name := "keys"; sd_kind := SurfaceKind_Zone;
    sd_physical_tags := []; sd_elements := [key "esc"; key "f1"];
    sd_capabilities := CapabilitySet_default; sd_notes := []; sd_warnings := [] |}];
  dd_groups := Described.group "all" [MemberD_Surface "keys"; MemberD_Group "row"] ::
    [Described.group "row" [MemberD_Element "keys" "f1"]];
  dd_capabilities := CapabilitySet_default; dd_claims := []; dd_category := None;
  dd_physical_tags := []; dd_host_attached := true; dd_notes := []; dd_warnings := [] |}.
Definition kbd : DeviceId := DeviceId_new "kbd".
Definition key_target (id : string) : TargetId :=
  TargetId_Element kbd (SurfaceId_new "keys") (ElementId_new id).
Definition keys : TargetId := TargetId_Surface kbd (SurfaceId_new "keys").
Definition all : TargetId := TargetId_Group kbd (GroupId_new "all").
Definition row : TargetId := TargetId_Group kbd (GroupId_new "row").
Definition seen (ms : Z) (target : TargetId) (value : FacetValue) : FacetObservation := {|
  fo_target := target; fo_value := value; fo_confidence := Confirmed;
  fo_source := Source_Readback; fo_observed_at_ms := ms; fo_stale := false |}.
Definition lit (level : Z) : FacetValue :=
  Facet_Appearance (Appearance_Static (Colour_Monochrome level)).
Definition collection : Collection := {|
  collection_id := CollectionId_new "desk"; collection_name := "desk";
  collection_description := None; collection_owner := Owner_Uid 0; collection_kind := None;
  collection_members := [Member_Target row; Member_Target (key_target "esc")] |}.

(** The two keys are lit, at [a] and [b]. *)
Definition state (a b : Z) : DaemonState :=
  let st := from_devices [to_device descriptor] in
  set_collections
    (set_observations st
       (by_facet [seen 1 (key_target "esc") (lit a); seen 1 (key_target "esc") (Facet_Emission Emitting);
                  seen 2 (key_target "f1") (lit b); seen 3 (key_target "f1") (Facet_Emission Dark)]))
    {[collection_id collection := collection]}.

Lemma reportable_device : reportable (to_device descriptor).
Proof.
  apply to_device_reportable.
  assert (normalize_devices [descriptor] = Ok [to_device descriptor]) as H
    by (vm_compute; reflexivity).
  apply normalize_devices_Ok in H as (_ & H & _). exact (Forall_inv H).
Qed.

Lemma reportable_state a b : all_reportable (state a b).
Proof.
  split; [|apply keyed_by_facet]. intros d device Hd.
  change (ds_devices (state a b)) with (ds_devices (from_devices [to_device descriptor])) in Hd.
  apply device_map_lookup in Hd as [Hd _]. apply list_elem_of_singleton in Hd as ->.
  apply reportable_device.
Qed.
End Reported.

(** The keys agree on their configured appearance, and so do everything made of them;
    one of them is dark, so that the effective appearances differ. *)
Example reported_keys :
  let reports st t k :=
    status ← device_state_status 9 st Reported.kbd; status ← status;
    fo_value <$> DeviceStateStatus_observation status t k in
  let agree := Reported.state 5 5 in
  let differ := Reported.state 5 6 in
  reports agree Reported.all Kind_Appearance = Some (Reported.lit 5) ∧
  reports agree Reported.all Kind_EffectiveAppearance =
    Some (Facet_EffectiveAppearance Effective_Mixed) ∧
  reports differ Reported.row Kind_Appearance = Some (Reported.lit 6) ∧
  reports differ (TargetId_Device Reported.kbd) Kind_Appearance =
    Some (Facet_Appearance Appearance_Mixed).
Proof. by vm_compute. Qed.

Lemma device_state_status_witness :
  ∃ status m, device_state_status 9 (Reported.state 5 6) Reported.kbd = Some (Some status) ∧
    (∀ t k, DeviceStateStatus_observation status t k = m !! (t, k)) ∧
    aggregated (to_device Reported.descriptor) Kind_Appearance
      (base_report 9 (Reported.state 5 6) Reported.kbd) m.
Proof.
  destruct (device_state_status_correct 9 (Reported.state 5 6) Reported.kbd
    (to_device Reported.descriptor)) as (status & m & H & Ho & _ & _ & _ & Ha).
  - by vm_compute.
  - apply Reported.reportable_device.
  - apply (Reported.reportable_state 5 6).
  - exists status, m. split_and!; [done|done|apply Ha; by left].
Defined.

Lemma collection_state_status_witness :
  ∃ statuses o,
    reports (ds_collections (Reported.state 5 6)) Kind_Appearance statuses
      (CollectionId_new "desk") o ∧
    (css_appearance <$> default None (collection_state_status 9 (Reported.state 5 6)
       (CollectionId_new "desk"))) = Some (o ≫= collection_appearance_observation).
Proof.
  destruct (collection_state_status_correct 9 (Reported.state 5 6) (CollectionId_new "desk"))
    as (statuses & o & e & _ & Ho & _ & Hs).
  - apply Reported.reportable_state.
  - apply (good_intro _ _ Reported.collection); [by vm_compute|set_solver|].
    intros b Hb. exfalso. cbn in Hb. set_solver.
  - exists statuses, o. split; [by apply Ho|]. by rewrite Hs.
Defined.

Lemma fresh_current_witness :
  fresh_current_target_state 9 (Reported.state 5 6) (Reported.key_target "f1") =
    Some (Ok {| sts_appearance := Some (Effect_Static (Colour_Monochrome 6));
                sts_brightness := None; sts_emission := Some Dark; sts_appearance_slots := None |}).
Proof.
  apply (fresh_current_correct 9 (Reported.state 5 6) (Reported.key_target "f1")
    (to_device Reported.descriptor)).
  - by vm_compute.
  - apply Reported.reportable_device.
  - apply (Reported.reportable_state 5 6).
  - apply (bool_decide_unpack _). by vm_compute.
  - split; [by vm_compute|]. eexists _, _, _, _. by vm_compute.
Defined.
