(* ===== verification/TransitionRegistry.v ===== *)
(** * Running transitions: [luminated/src/daemon/transition.rs]

    The registry of transitions, the retention of finished ones and the cancellation
    handshake.  Entries are shared ([Arc]): a registry maps identifiers to addresses of
    a heap of entries, so that a task that still holds an entry sees it after it was
    evicted.  The clock is an argument.  The claims: a running transition is never
    evicted and as many finished ones are retained as the limit allows; and waiting for
    a transition to finish can miss its end. *)

From S2P Require Import Prelude Model Transition.

Definition TERMINAL_STATUS_LIMIT : nat := 256.
#[global] Opaque TERMINAL_STATUS_LIMIT.

Record TransitionEntry := {
  te_status : TransitionStatus;
  te_cancellation : option TransitionCancellation;
  te_lease_deadline : option Z
}.

Record TransitionRegistry := {
  tr_heap : list TransitionEntry;
  tr_entries : gmap TransitionId nat;
  tr_terminal : list TransitionId
}.

Definition TransitionRegistry_default : TransitionRegistry :=
  {| tr_heap := []; tr_entries := ∅; tr_terminal := [] |}.

Definition set_entry (r : TransitionRegistry) (address : nat)
    (f : TransitionEntry → TransitionEntry) : TransitionRegistry := {|
  tr_heap := alter f address (tr_heap r); tr_entries := tr_entries r; tr_terminal := tr_terminal r
|}.

(** ** Entries *)

Definition TransitionEntry_new (now : Z) (status : TransitionStatus)
    (renewable_lease_ms : option Z) : TransitionEntry := {|
  te_status := status; te_cancellation := None;
  te_lease_deadline := (λ lease, (now + from_millis lease)%Z) <$> renewable_lease_ms
|}.

Definition snapshot (r : TransitionRegistry) (address : nat) : option TransitionStatus :=
  te_status <$> tr_heap r !! address.

Definition with_status (e : TransitionEntry) (status : TransitionStatus) : TransitionEntry := {|
  te_status := status; te_cancellation := te_cancellation e;
  te_lease_deadline := te_lease_deadline e
|}.

Definition update_elapsed (r : TransitionRegistry) (address : nat) (elapsed_ms : Z) :
    TransitionRegistry :=
  set_entry r address (λ e, with_status e {|
    ts_id := ts_id (te_status e); ts_targets := ts_targets (te_status e);
    ts_elapsed_ms := elapsed_ms; ts_duration_ms := ts_duration_ms (te_status e);
    ts_outcome := ts_outcome (te_status e) |}).

(** [compare_exchange(0, value)]: the first reason stays. *)
Definition request_abort (r : TransitionRegistry) (address : nat)
    (reason : TransitionCancellation) : TransitionRegistry :=
  set_entry r address (λ e, {|
    te_status := te_status e;
    te_cancellation :=
      match te_cancellation e with None => Some reason | Some first => Some first end;
    te_lease_deadline := te_lease_deadline e |}).

Definition cancellation (r : TransitionRegistry) (address : nat) : option TransitionCancellation :=
  tr_heap r !! address ≫= te_cancellation.

Definition renew (now : Z) (r : TransitionRegistry) (address : nat) (lease_ms : Z) :
    TransitionRegistry :=
  set_entry r address (λ e, {|
    te_status := te_status e; te_cancellation := te_cancellation e;
    te_lease_deadline := Some (now + from_millis lease_ms)%Z |}).

Definition lease_deadline (r : TransitionRegistry) (address : nat) : option Z :=
  tr_heap r !! address ≫= te_lease_deadline.

Definition TransitionEntry_finish (e : TransitionEntry) (outcome : TransitionOutcome) :
    TransitionEntry :=
  with_status e {|
    ts_id := ts_id (te_status e); ts_targets := ts_targets (te_status e);
    ts_elapsed_ms := ts_elapsed_ms (te_status e); ts_duration_ms := ts_duration_ms (te_status e);
    ts_outcome := Some outcome |}.

(** ** The registry *)

Definition TransitionRegistry_insert (now : Z) (r : TransitionRegistry) (status : TransitionStatus)
    (renewable_lease_ms : option Z) : TransitionRegistry * nat :=
  let address := length (tr_heap r) in
  ({| tr_heap := tr_heap r ++ [TransitionEntry_new now status renewable_lease_ms];
      tr_entries := <[ts_id status := address]> (tr_entries r);
      tr_terminal := tr_terminal r |}, address).

Definition TransitionRegistry_get (r : TransitionRegistry) (id : TransitionId) : option nat :=
  tr_entries r !! id.

Definition entry_terminal (r : TransitionRegistry) (address : nat) : bool :=
  from_option is_terminal false (snapshot r address).

Definition TransitionRegistry_active (r : TransitionRegistry) : list nat :=
  filter (λ address, entry_terminal r address = false) (map_to_list (tr_entries r)).*2.

Definition TransitionRegistry_finish (r : TransitionRegistry) (id : TransitionId)
    (outcome : TransitionOutcome) : TransitionRegistry :=
  let r := match TransitionRegistry_get r id with
           | Some address => set_entry r address (λ e, TransitionEntry_finish e outcome)
           | None => r
           end in
  let terminal := tr_terminal r ++ [id] in
  let '(evicted, terminal) :=
    if TERMINAL_STATUS_LIMIT <? length terminal
    then match terminal with [] => (None, []) | first :: rest => (Some first, rest) end
    else (None, terminal) in
  {| tr_heap := tr_heap r;
     tr_entries := match evicted with
                   | Some evicted => delete evicted (tr_entries r)
                   | None => tr_entries r
                   end;
     tr_terminal := terminal |}.

(** ** Retention *)

(** The life of the registry: a transition starts under a fresh identifier and finishes
    once; entries may be touched in between. *)
Inductive registry_step (r : TransitionRegistry) : TransitionRegistry → Prop :=
| step_insert now status lease :
    tr_entries r !! ts_id status = None → ts_outcome status = None →
    ts_id status ∉ tr_terminal r →
    registry_step r (TransitionRegistry_insert now r status lease).1
| step_finish id address outcome :
    tr_entries r !! id = Some address → entry_terminal r address = false →
    registry_step r (TransitionRegistry_finish r id outcome)
| step_abort address reason : registry_step r (request_abort r address reason)
| step_renew now address lease : registry_step r (renew now r address lease)
| step_elapsed address elapsed : registry_step r (update_elapsed r address elapsed).

Definition finished (r : TransitionRegistry) (id : TransitionId) : Prop :=
  ∃ address, tr_entries r !! id = Some address ∧ entry_terminal r address = true.

Record registry_ok (r : TransitionRegistry) : Prop := {
  ro_heap id address : tr_entries r !! id = Some address → address < length (tr_heap r);
  ro_inj id id' address :
    tr_entries r !! id = Some address → tr_entries r !! id' = Some address → id = id';
  ro_limit : length (tr_terminal r) ≤ TERMINAL_STATUS_LIMIT;
  ro_nodup : NoDup (tr_terminal r);
  ro_finished id : id ∈ tr_terminal r ↔ finished r id
}.

Lemma snapshot_set_entry r a f a' :
  snapshot (set_entry r a f) a' =
  if decide (a = a') then te_status ∘ f <$> tr_heap r !! a' else snapshot r a'.
Proof.
  unfold snapshot. cbn. case_decide as Ha; [subst a'|].
  - rewrite list_lookup_alter_eq. by destruct (tr_heap r !! a).
  - by rewrite list_lookup_alter_ne.
Qed.

(** Touching an entry without changing its outcome. *)
Lemma registry_ok_touch r a f :
  (∀ e, ts_outcome (te_status (f e)) = ts_outcome (te_status e)) →
  registry_ok r → registry_ok (set_entry r a f).
Proof.
  intros Hf [H1 H2 H3 H4 H5].
  assert (∀ a', entry_terminal (set_entry r a f) a' = entry_terminal r a') as Ht.
  { intros a'. unfold entry_terminal. rewrite snapshot_set_entry. case_decide as Ha; [subst a'|done].
    unfold snapshot. destruct (tr_heap r !! a); [|done]. cbn. unfold is_terminal. by rewrite Hf. }
  constructor; [|done..|].
  - intros id a' Ha'. cbn. rewrite length_alter. by eapply H1.
  - intros id. rewrite H5. unfold finished. by setoid_rewrite Ht.
Qed.

Lemma entry_terminal_insert now r status lease a :
  a < length (tr_heap r) →
  entry_terminal (TransitionRegistry_insert now r status lease).1 a = entry_terminal r a.
Proof. intros Ha. unfold entry_terminal, snapshot. cbn. by rewrite lookup_app_l. Qed.

Lemma registry_ok_insert now r status lease :
  tr_entries r !! ts_id status = None → ts_outcome status = None →
  registry_ok r → registry_ok (TransitionRegistry_insert now r status lease).1.
Proof.
  intros Hnew Hout [H1 H2 H3 H4 H5]. constructor; [| |done|done|].
  - intros id a. cbn. rewrite length_app, lookup_insert_Some. cbn.
    intros [[_ <-]|[_ Ha%H1]]; lia.
  - intros id id' a. cbn. rewrite !lookup_insert_Some.
    intros [[<- <-]|[Hne Ha]] [[<- Heq]|[Hne' Ha']]; [done| | |by eapply H2].
    + apply H1 in Ha'. lia.
    + subst a. apply H1 in Ha. lia.
  - intros id. change (tr_terminal (TransitionRegistry_insert now r status lease).1) with (tr_terminal r).
    rewrite H5. unfold finished.
    change (tr_entries (TransitionRegistry_insert now r status lease).1)
      with (<[ts_id status := length (tr_heap r)]> (tr_entries r)). split.
    + intros (a & Ha & Ht). exists a. rewrite lookup_insert_ne by congruence.
      split; [done|]. rewrite entry_terminal_insert; [done|by eapply H1].
    + intros (a & Ha & Ht). apply lookup_insert_Some in Ha as [[<- <-]|[Hne Ha]].
      * exfalso. unfold entry_terminal, snapshot in Ht. cbn in Ht.
        rewrite lookup_app_r, Nat.sub_diag in Ht by lia. cbn in Ht. unfold is_terminal in Ht.
        rewrite Hout in Ht. done.
      * exists a. split; [done|]. rewrite entry_terminal_insert in Ht; [done|by eapply H1].
Qed.

Lemma entry_terminal_finish r a e outcome a' :
  tr_heap r !! a = Some e →
  entry_terminal (set_entry r a (λ e, TransitionEntry_finish e outcome)) a' =
  bool_decide (a = a') || entry_terminal r a'.
Proof.
  intros He. unfold entry_terminal. rewrite snapshot_set_entry. case_decide as Ha; [subst a'|].
  - rewrite He, bool_decide_true by done. done.
  - by rewrite bool_decide_false.
Qed.

(** What finishing does to the identifiers: [kept] are the finished ones that stay. *)
Lemma finish_shape r id outcome a :
  tr_entries r !! id = Some a →
  let r' := TransitionRegistry_finish r id outcome in
  tr_heap r' = alter (λ e, TransitionEntry_finish e outcome) a (tr_heap r) ∧
  ∃ gone, tr_terminal r ++ [id] = gone ++ tr_terminal r' ∧
    tr_entries r' = foldr delete (tr_entries r) gone ∧
    length gone = if decide (length (tr_terminal r) < TERMINAL_STATUS_LIMIT) then 0 else 1.
Proof.
  intros Ha. unfold TransitionRegistry_finish, TransitionRegistry_get. rewrite Ha.
  cbn [tr_terminal set_entry tr_entries tr_heap]. rewrite length_app. cbn [length].
  destruct (Nat.ltb_spec TERMINAL_STATUS_LIMIT (length (tr_terminal r) + 1)) as [Hlt|Hle].
  - destruct (tr_terminal r ++ [id]) as [|first rest] eqn:Hl.
    { by destruct (tr_terminal r). }
    split; [done|]. exists [first]. cbn. split_and!; [done|done|]. rewrite decide_False by lia. done.
  - split; [done|]. exists []. cbn. split_and!; [done|done|]. rewrite decide_True by lia. done.
Qed.

Lemma delete_gone {B} (gone : list TransitionId) (m : gmap TransitionId B) id :
  foldr delete m gone !! id = if decide (id ∈ gone) then None else m !! id.
Proof.
  induction gone as [|x gone IH]; cbn; [by rewrite decide_False by set_solver|].
  destruct (decide (id = x)) as [->|Hne].
  - rewrite lookup_delete_eq, decide_True by set_solver. done.
  - rewrite lookup_delete_ne, IH by done. repeat case_decide; set_solver.
Qed.

Lemma registry_ok_finish r id a outcome :
  tr_entries r !! id = Some a → entry_terminal r a = false →
  registry_ok r → registry_ok (TransitionRegistry_finish r id outcome).
Proof.
  intros Ha Hrun [H1 H2 H3 H4 H5].
  destruct (finish_shape r id outcome a Ha) as (Hheap & gone & Hterm & Hent & Hone).
  assert (is_Some (tr_heap r !! a)) as [e He] by (apply lookup_lt_is_Some_2; by eapply H1).
  assert (id ∉ tr_terminal r) as Hid.
  { intros (a' & Ha' & Ht)%H5. assert (a' = a) as -> by congruence. congruence. }
  assert (NoDup (gone ++ tr_terminal (TransitionRegistry_finish r id outcome))) as Hnd.
  { rewrite <-Hterm. apply NoDup_app. split_and!; [done| |apply NoDup_singleton]. set_solver. }
  assert (∀ a', entry_terminal (TransitionRegistry_finish r id outcome) a' =
    bool_decide (a = a') || entry_terminal r a') as Ht.
  { intros a'. rewrite <-(entry_terminal_finish r a e outcome a' He).
    unfold entry_terminal, snapshot. by rewrite Hheap. }
  apply NoDup_app in Hnd as (_ & Hdisj & Hnd).
  assert (length gone + length (tr_terminal (TransitionRegistry_finish r id outcome)) =
    S (length (tr_terminal r))) as Hlen.
  { rewrite <-length_app, <-Hterm, length_app. cbn. lia. }
  constructor; [| | |done|].
  - intros x a'. rewrite Hent, Hheap, length_alter, delete_gone. destruct (decide (x ∈ gone)); [done|]. apply H1.
  - intros x x' a'. rewrite Hent, !delete_gone.
    destruct (decide (x ∈ gone)), (decide (x' ∈ gone)); [done..|]. apply H2.
  - case_decide; lia.
  - intros x. unfold finished. rewrite Hent. setoid_rewrite delete_gone. setoid_rewrite Ht. split.
    + intros Hx. assert (x ∉ gone) as Hg by (intros Hg; by apply (Hdisj x)).
      rewrite decide_False by done.
      assert (x ∈ tr_terminal r ++ [id]) as [Hx'|Hx']%elem_of_app by (rewrite Hterm; set_solver).
      * apply H5 in Hx' as (a' & Ha' & Ht'). exists a'. split; [done|]. rewrite Ht'. apply orb_true_r.
      * apply list_elem_of_singleton in Hx' as ->. exists a. split; [done|]. by rewrite bool_decide_true.
    + intros (a' & Ha' & Ht'). destruct (decide (x ∈ gone)) as [Hg|Hg]; [done|].
      assert (x ∈ tr_terminal r ++ [id]) as Hx.
      { apply orb_true_iff in Ht' as [->%bool_decide_eq_true|Ht'].
        - rewrite (H2 x id a') by done. set_solver.
        - apply elem_of_app. left. apply H5. by exists a'. }
      rewrite Hterm in Hx. set_solver.
Qed.

Lemma registry_ok_reachable r : rtc registry_step TransitionRegistry_default r → registry_ok r.
Proof.
  assert (∀ r r', registry_step r r' → registry_ok r → registry_ok r') as Hstep.
  { intros r0 r1 [now status lease| | | |] Hok;
      [by apply registry_ok_insert|by eapply registry_ok_finish|by apply registry_ok_touch..]. }
  assert (registry_ok TransitionRegistry_default) as Hdef.
  { constructor; cbn; [done|done|lia|constructor|]. intros id. split; [set_solver|].
    intros (a & Ha & _). done. }
  assert (∀ r0 r1, rtc registry_step r0 r1 → registry_ok r0 → registry_ok r1) as Hrtc
    by (induction 1; eauto).
  eauto.
Qed.

(** What one step does to the registered transitions. *)
Lemma registry_step_keeps r r' :
  registry_ok r → registry_step r r' →
  (∀ id a, tr_entries r !! id = Some a → entry_terminal r a = false →
     tr_entries r' !! id = Some a) ∧
  (∀ id, finished r id →
     finished r' id ∨
     (head (tr_terminal r) = Some id ∧ length (tr_terminal r) = TERMINAL_STATUS_LIMIT)).
Proof.
  intros Hok Hs. assert (∀ a f, (∀ e, ts_outcome (te_status (f e)) = ts_outcome (te_status e)) →
    (∀ id a', tr_entries r !! id = Some a' → tr_entries (set_entry r a f) !! id = Some a') ∧
    ∀ id, finished r id → finished (set_entry r a f) id) as Htouch.
  { intros a f Hf. split; [done|]. intros id Hid.
    apply (ro_finished _ (registry_ok_touch r a f Hf Hok)). by apply (ro_finished _ Hok). }
  destruct Hs as [now status lease Hnew Hout Hterm|id a outcome Ha Hrun| | |].
  3-5: by split; [intros; by apply Htouch|intros; left; by apply Htouch].
  - split; [intros x a Hx _; cbn; rewrite lookup_insert_ne; [done|congruence]|].
    intros x (a & Hx & Ht). left. exists a. split; [cbn; rewrite lookup_insert_ne; [done|congruence]|].
    rewrite entry_terminal_insert; [done|by eapply ro_heap].
  - destruct (finish_shape r id outcome a Ha) as (_ & gone & Hterm & Hent & Hlen).
    pose proof (registry_ok_finish r id a outcome Ha Hrun Hok) as Hok'.
    assert (∀ x, x ∈ gone → x ∈ tr_terminal r ∧ head (tr_terminal r) = Some x ∧
      length (tr_terminal r) = TERMINAL_STATUS_LIMIT) as Hgone.
    { intros x Hx. pose proof (ro_limit _ Hok). case_decide as Hlt; [destruct gone; [set_solver|done]|].
      destruct gone as [|y [|z gone]]; [set_solver| |done]. apply list_elem_of_singleton in Hx as ->.
      destruct (tr_terminal r) as [|t l] eqn:Hl.
      - exfalso. cbn in *. assert (TERMINAL_STATUS_LIMIT = 0) as H0 by lia. by vm_compute in H0.
      - cbn in Hterm. injection Hterm as <- _. split_and!; [by left|done|cbn in *; lia]. }
    split.
    + intros x a' Hx Hrunx. rewrite Hent, delete_gone. destruct (decide (x ∈ gone)) as [Hg|Hg]; [|done]. exfalso.
      destruct (Hgone x Hg) as ((a'' & Ha'' & Ht)%(ro_finished _ Hok) & _). congruence.
    + intros x Hx. destruct (decide (x ∈ gone)) as [Hg|Hg]; [right; by apply Hgone|left].
      apply (ro_finished _ Hok'). apply (ro_finished _ Hok) in Hx.
      assert (x ∈ tr_terminal r ++ [id]) as Hin by set_solver. rewrite Hterm in Hin. set_solver.
Qed.

(** In every history of the registry the finished transitions it retains are exactly
    those it lists, at most the limit; a running transition stays registered, under the
    same entry, whatever else happens; and a finished one is forgotten only when it is
    the oldest of a full list. *)
Theorem registry_retains r r' :
  rtc registry_step TransitionRegistry_default r → registry_step r r' →
  length (tr_terminal r) ≤ TERMINAL_STATUS_LIMIT ∧
  (∀ id, id ∈ tr_terminal r ↔ finished r id) ∧
  (∀ id a, tr_entries r !! id = Some a → entry_terminal r a = false →
     tr_entries r' !! id = Some a) ∧
  (∀ id, finished r id →
     finished r' id ∨
     (head (tr_terminal r) = Some id ∧ length (tr_terminal r) = TERMINAL_STATUS_LIMIT)).
Proof.
  intros Hok%registry_ok_reachable Hs. split_and!; [apply Hok|apply Hok|..];
    by apply registry_step_keeps.
Qed.

Module Running.
Definition id : TransitionId := TransitionId_new "t".
Definition status : TransitionStatus := {|
  ts_id := id; ts_targets := []; ts_elapsed_ms := 0; ts_duration_ms := 100; ts_outcome := None |}.
Definition one : TransitionRegistry :=
  (TransitionRegistry_insert 0 TransitionRegistry_default status None).1.
End Running.

Lemma registry_retains_witness :
  tr_entries (request_abort Running.one 0 Aborted) !! Running.id = Some 0 ∧
  finished (TransitionRegistry_finish Running.one Running.id Outcome_Completed) Running.id.
Proof.
  assert (rtc registry_step TransitionRegistry_default Running.one) as Hr.
  { apply rtc_once, step_insert; [done|done|set_solver]. }
  split.
  - apply (registry_retains Running.one); [done|apply step_abort|done|done].
  - exists 0. split; [|done]. unfold TransitionRegistry_finish.
    destruct (_ <? _) eqn:Hl; [vm_compute in Hl; done|done].
Defined.

(** ** Waiting for the end

    [wait_finished] checks the status and, if the transition still runs, creates a
    [Notified] future and awaits it; [finish] sets the outcome and calls
    [notify_waiters].  As [tokio] documents, [notify_waiters] wakes the futures that
    exist when it is called and no others. *)

Inductive waiter := Checks | Sleeps (notified : bool) | Returns.
(** Between the check and the creation of the future. *)
Inductive waiting := At (w : waiter) | Checked.
Inductive finisher := Runs | Finishing | Finished.

Record handshake := { hs_terminal : bool; hs_waiter : waiting; hs_finisher : finisher }.

Definition wake (w : waiting) : waiting :=
  match w with At (Sleeps _) => At (Sleeps true) | _ => w end.

Inductive handshake_step (h : handshake) : handshake → Prop :=
| hs_return : hs_waiter h = At Checks → hs_terminal h = true →
    handshake_step h {| hs_terminal := hs_terminal h; hs_waiter := At Returns;
                        hs_finisher := hs_finisher h |}
| hs_check : hs_waiter h = At Checks → hs_terminal h = false →
    handshake_step h {| hs_terminal := hs_terminal h; hs_waiter := Checked;
                        hs_finisher := hs_finisher h |}
| hs_create : hs_waiter h = Checked →
    handshake_step h {| hs_terminal := hs_terminal h; hs_waiter := At (Sleeps false);
                        hs_finisher := hs_finisher h |}
| hs_woken : hs_waiter h = At (Sleeps true) →
    handshake_step h {| hs_terminal := hs_terminal h; hs_waiter := At Checks;
                        hs_finisher := hs_finisher h |}
| hs_outcome : hs_finisher h = Runs →
    handshake_step h {| hs_terminal := true; hs_waiter := hs_waiter h; hs_finisher := Finishing |}
| hs_notify : hs_finisher h = Finishing →
    handshake_step h {| hs_terminal := hs_terminal h; hs_waiter := wake (hs_waiter h);
                        hs_finisher := Finished |}.

Definition handshake_start : handshake :=
  {| hs_terminal := false; hs_waiter := At Checks; hs_finisher := Runs |}.

(** Waiting for a transition to finish can sleep for ever: when the transition finishes
    between the check of its status and the creation of the future, its notification
    finds nobody, the status is terminal, and nothing will wake the waiter. *)
Theorem wait_finished_misses_end :
  ∃ h, rtc handshake_step handshake_start h ∧
    hs_terminal h = true ∧ hs_waiter h = At (Sleeps false) ∧ ∀ h', ¬ handshake_step h h'.
Proof.
  exists {| hs_terminal := true; hs_waiter := At (Sleeps false); hs_finisher := Finished |}.
  split_and!; [|done|done|by intros h' []].
  eapply rtc_l; [by apply hs_check|]. eapply rtc_l; [by apply hs_outcome|].
  eapply rtc_l; [by apply hs_notify|]. eapply rtc_l; [by apply hs_create|]. apply rtc_refl.
Qed.
