(* ===== verification/Protocol.v ===== *)
(** * Requests and responses: [luminate-protocol/src/message.rs]

    The messages the daemon dispatches.  Payloads of requests whose handlers are not
    modelled (managed configuration, plugin setup) are types of the class [Wire]; nothing
    looks into them.  The serde encoding of messages is not modelled. *)

From S2P Require Import Prelude Model Scenes Transition Policy Daemon.

(** Payload types of the management and setup messages. *)
Class Wire := {
  ManagementPatch : Type;
  ManagementSnapshot : Type;
  ManagementChangeSet : Type;
  PluginSetupSessionId : Type;
  PluginSetupInteractionResponse : Type;
  PluginSetupWorkflow : Type;
  PluginSetupSession : Type
}.

(** ** Authentication: [luminate-protocol/src/authentication.rs] *)

Definition MAX_CREDENTIAL_BYTES : Z := 16 * 1024.
Definition MAX_CONTINUATION_BYTES : Z := 16 * 1024.

Record Credential := Credential_mk { Credential_expose : list Z }.
Inductive CredentialError :=
| CredentialError_Empty
| CredentialError_TooLarge (actual maximum : Z).
Definition Credential_new (value : list Z) : result CredentialError Credential :=
  match value with
  | [] => Err CredentialError_Empty
  | _ =>
      if (MAX_CREDENTIAL_BYTES <? Z.of_nat (length value))%Z
      then Err (CredentialError_TooLarge (Z.of_nat (length value)) MAX_CREDENTIAL_BYTES)
      else Ok (Credential_mk value)
  end.

Record Continuation := Continuation_mk { Continuation_expose : list Z }.
Definition Continuation_new (value : list Z) : result CredentialError Continuation :=
  match value with
  | [] => Err CredentialError_Empty
  | _ =>
      if (MAX_CONTINUATION_BYTES <? Z.of_nat (length value))%Z
      then Err (CredentialError_TooLarge (Z.of_nat (length value)) MAX_CONTINUATION_BYTES)
      else Ok (Continuation_mk value)
  end.

Record EventTicket := EventTicket_mk { EventTicket_credential : Credential }.
Definition EventTicket_new (value : list Z) : result CredentialError EventTicket :=
  credential ← Credential_new value; Ok (EventTicket_mk credential).
Definition EventTicket_expose (t : EventTicket) : list Z :=
  Credential_expose (EventTicket_credential t).

(** [impl PartialEq for EventTicket]: the differences of all bytes, or-ed. *)
Definition EventTicket_eq (left right : EventTicket) : bool :=
  if negb (length (EventTicket_expose left) =? length (EventTicket_expose right)) then false
  else (fold_left (λ difference p, Z.lor difference (Z.lxor p.1 p.2))
          (zip (EventTicket_expose left) (EventTicket_expose right)) 0 =? 0)%Z.

Inductive Authentication :=
| Authentication_Peer
| Authentication_Bearer (credential : Credential)
| Authentication_Attestation (name : string) (credential : Credential)
| Authentication_External (provider : string) (credential : Credential).
Record AuthenticationRequest := {
  areq_authentication : Authentication;
  areq_scope : option SessionScope
}.

Record AttestationMetadata := {
  am_name : string;
  am_subject : PrincipalId;
  am_verified_groups : list string;
  am_credential_id : string;
  am_expires_at : option Z
}.
Record SessionMetadata := {
  sm_subject : PrincipalId;
  sm_verified_groups : list string;
  sm_source : AuthenticationSource;
  sm_credential_id : option string;
  sm_expires_at : option Z
}.
Record TokenMetadata := {
  tm_id : string;
  tm_subject : PrincipalId;
  tm_expires_at : option Z;
  tm_revoked : bool
}.
Inductive AuthenticationResponse :=
| Authenticated (session : SessionMetadata)
| Rejected (reason : Text).

(** ** Requests *)

Record SetEffectRequest := {
  ser_selector : Selector;
  ser_effect : Effect;
  ser_on_unsupported : option UnsupportedPolicy
}.
Record SetAppearanceSlotsRequest := {
  sar_target : TargetId;
  sar_values : list AppearanceSlotValue
}.
Record SetBrightnessRequest := {
  sbr_target : Selector;
  sbr_value : Z;
  sbr_on_unsupported : option UnsupportedPolicy
}.

Record TransitionTargetState := {
  tts_target : TargetId;
  tts_state : SceneTargetState
}.
Inductive TransitionSource :=
| TransitionSource_Current
| TransitionSource_Scene (scene : SceneId).
Inductive TransitionDestination :=
| TransitionDestination_Scene (scene : SceneId)
| TransitionDestination_TargetStates (states : list TransitionTargetState).
Record StartTransitionRequest := {
  str_source : TransitionSource;
  str_destination : TransitionDestination;
  str_options : TransitionOptions;
  str_authorized_targets : option (list TargetId);
  str_renewable_lease_ms : option Z
}.

Record ServerInfo := {
  si_daemon_name : string;
  si_daemon_version : string;
  si_protocol_abi_version : Z
}.

Inductive Request `{Wire} :=
| Ping
| IssueEventTicket
| Request_ServerInfo
| ListDevices
| ListWithdrawnDevices
| GetDevice (id : DeviceId)
| GetState (device : DeviceId)
| GetCollectionState (collection : CollectionId)
| RefreshState (device : DeviceId)
| PurgeWithdrawnDevice (device : DeviceId)
| Rescan
| UnloadPlugin (name : string)
| ReloadPlugin (name : string)
| GetManagement
| PatchManagement (patch : ManagementPatch)
| ListPluginSetupWorkflows (plugin : string)
| StartPluginSetup (plugin workflow : string)
| RespondPluginSetup (session : PluginSetupSessionId) (generation : Z)
    (response : PluginSetupInteractionResponse)
| GetPluginSetup (session : PluginSetupSessionId)
| CancelPluginSetup (session : PluginSetupSessionId)
| GetAccessPolicy
| ReplaceAccessPolicy (expected : Z) (replacement : PolicyDocumentSource)
| CreateToken (id : string) (subject : PrincipalId) (expires_at : option Z)
| ListTokens
| RotateToken (id : string) (expires_at : option Z)
| RevokeToken (id : string)
| CreateAttestation (name : string) (subject : PrincipalId) (verified_groups : list string)
    (expires_at : option Z)
| ListAttestations
| RevokeAttestation (name : string)
| SetEffect (request : SetEffectRequest)
| SetAppearanceSlots (request : SetAppearanceSlotsRequest)
| SetBrightness (request : SetBrightnessRequest)
| RestoreAppearance (target : Selector)
| ClearTarget (target : Selector)
| SaveCurrent (target : Selector)
| Request_CreateCollection (name : string) (description : option string)
    (kind : option CollectionCategory) (members : list CollectionMember)
| Request_DestroyCollection (id : CollectionId)
| AddCollectionMember (id : CollectionId) (member : CollectionMember)
| RemoveCollectionMember (id : CollectionId) (member : CollectionMember)
| ListCollections
| GetCollection (id : CollectionId)
| Request_CreateScene (name : string) (description : option string) (bindings : list SceneBinding)
| CaptureScene (name : string) (description : option string) (mode : SceneCaptureMode)
    (targets : list TargetId)
| ReplaceScene (id : SceneId) (expected_revision : Z) (name : string)
    (description : option string) (bindings : list SceneBinding)
| RecaptureScene (id : SceneId) (expected_revision : Z) (mode : SceneCaptureMode)
    (targets : list TargetId)
| DeleteScene (id : SceneId) (expected_revision : Z)
| ListScenes
| GetScene (id : SceneId)
| ApplyScene (id : SceneId) (authorized_targets : option (list TargetId))
| StartTransition (request : StartTransitionRequest)
| GetTransition (id : TransitionId)
| AbortTransition (id : TransitionId)
| RenewTransition (id : TransitionId) (lease_ms : Z)
| BeginFrameStream (target : TargetId)
| UploadFrame (target : TargetId) (envelope : FrameEnvelope)
| EndFrameStream (target : TargetId) (generation : Z)
| BeginShmFrameStream (target : TargetId)
| EndShmFrameStream (target : TargetId) (generation : Z).

Inductive ResponseStatus `{Wire} :=
| RS_ServerInfo (info : ServerInfo)
| RS_Devices (devices : list Device)
| RS_WithdrawnDevices (devices : list DeviceId)
| RS_Device (device : option Device)
| RS_State (status : option DeviceStateStatus)
| RS_CollectionState (status : option CollectionStateStatus)
| RS_Ack
| RS_EventTicket (ticket : EventTicket)
| RS_FrameStreamStarted (generation : Z)
| RS_FrameAck (sequence : Z) (dropped : bool)
| RS_CollectionCreated (id : CollectionId)
| RS_Collections (collections : list Collection)
| RS_CollectionInfo (collection : option Collection)
| RS_Scene (scene : Scene)
| RS_Scenes (scenes : list Scene)
| RS_SceneInfo (scene : option Scene)
| RS_SceneApplied (applied denied : list TargetId)
| RS_Transition (status : TransitionStatus)
| RS_ManagementSnapshot (snapshot : ManagementSnapshot)
| RS_ManagementPatched (changes : ManagementChangeSet)
| RS_PluginSetupWorkflows (workflows : list PluginSetupWorkflow)
| RS_PluginSetupSession (session : PluginSetupSession)
| RS_AccessPolicy (document : PolicyDocumentSource)
| RS_TokenCreated (metadata : TokenMetadata) (secret : Credential)
| RS_Tokens (tokens : list TokenMetadata)
| RS_AttestationCreated (metadata : AttestationMetadata) (secret : Credential)
| RS_Attestations (attestations : list AttestationMetadata)
| RS_CollectionApplied (applied denied : list TargetId)
| RS_ShmFrameStreamReady (generation : Z) (service_name event_service_name : string)
    (pixel_format : ShmPixelFormat) (stream_nonce segment_bytes : Z)
| RS_Error (error : OperationError).

(** A response is its status: the type of [dispatch_request]. *)
Notation Response := ResponseStatus (only parsing).

(** [impl From<DaemonError> for Response] *)
Definition response_of_error `{Wire} (e : DaemonError) : Response := RS_Error (operation_error e).

(** [luminate-protocol/src/event.rs] *)
Inductive Event `{Wire} :=
| ResyncRequired
| TopologyChanged (devices : list DeviceId)
| StateChanged (devices : list DeviceId)
| ConfigurationChanged (changes : ManagementChangeSet)
| ScenesChanged
| TransitionsChanged (transitions : list TransitionId)
| ShmStreamEnded (target : TargetId) (generation : Z).
