(* ===== verification/Authorization.v ===== *)
(** * Authorization: [luminated/src/authorization.rs] and [daemon/authz.rs]

    The peer behind a connection, the semantic class of every request, the policies a
    connection stacks (socket access, recovery, session scope, authenticated subject),
    and the decision on a request's devices.  The daemon's state is locked twice around
    a decision: [authz.rs] compares the topology generation of the two, and here the
    two states are two arguments, so that the claims hold whatever happened between. *)

From S2P Require Import Prelude Model Graph Scenes Transition Policy PolicyRuntime Daemon Topology Persistence CollectionRegistry Descriptors Ownership PluginManager Protocol.
From stdpp Require Import pretty.

(** ** Peers *)

(** [Principal] of [authorization.rs]. *)
Inductive Peer :=
| Peer_Unix (uid gid : Z) (pid : option Z)
| Peer_Windows (sid : string) (pid : option Z).

Inductive RateLimitKey :=
| Key_Uid (uid : Z)
| Key_Sid (sid : string).
#[export] Instance RateLimitKey_eq : EqDecision RateLimitKey.
Proof. solve_decision. Defined.

Definition Peer_pid (p : Peer) : option Z :=
  match p with Peer_Unix _ _ pid | Peer_Windows _ pid => pid end.

Definition rate_limit_key (p : Peer) : RateLimitKey :=
  match p with
  | Peer_Unix uid _ _ => Key_Uid uid
  | Peer_Windows sid _ => Key_Sid sid
  end.

(** The identity the daemon runs as, on the platform it was built for. *)
Inductive DaemonIdentity :=
| Own_Uid (uid : Z)
| Own_Sid (sid : string).

Definition is_same_user_as_daemon (own : DaemonIdentity) (p : Peer) : bool :=
  match own, p with
  | Own_Uid own, Peer_Unix uid _ _ => (uid =? own)%Z
  | Own_Sid own, Peer_Windows sid _ => bool_decide (own = sid)
  | _, _ => false
  end.

Definition is_intrinsic_recovery (own : DaemonIdentity) (p : Peer) : bool :=
  match own, p with
  | Own_Uid own, Peer_Unix uid _ _ => (uid =? 0)%Z || (uid =? own)%Z
  | Own_Sid own, Peer_Windows sid _ => bool_decide (sid = own)
  | _, _ => false
  end.

(** [impl From<&Principal> for OwnerIdentity] *)
Definition owner_identity (p : Peer) : OwnerIdentity :=
  match p with
  | Peer_Unix uid _ _ =>
      match PrincipalId_new "unix" (pretty (Z.to_N uid)) with
      | Ok id => Owner_Principal id
      | Err _ => Owner_Uid uid
      end
  | Peer_Windows sid _ =>
      match PrincipalId_new "windows" sid with
      | Ok id => Owner_Principal id
      | Err _ => Owner_Sid sid
      end
  end.

(** ** Requests *)

Definition operation_for `{Wire} (request : Request) : option Operation :=
  match request with
  | Ping | IssueEventTicket => None
  | Request_ServerInfo | ListDevices | GetDevice _ | ListCollections | GetCollection _
  | ListScenes | GetScene _ | GetState _ | GetCollectionState _ => Some Observe
  | RefreshState _ => Some Refresh
  | ListWithdrawnDevices | PurgeWithdrawnDevice _ | Rescan | UnloadPlugin _ | ReloadPlugin _ =>
      Some DaemonAdministration
  | GetManagement | PatchManagement _ | ListPluginSetupWorkflows _ | StartPluginSetup _ _
  | RespondPluginSetup _ _ _ | GetPluginSetup _ | CancelPluginSetup _ => Some ManagePlugins
  | GetAccessPolicy | ReplaceAccessPolicy _ _ => Some ManagePolicy
  | CreateToken _ _ _ | ListTokens | RotateToken _ _ | RevokeToken _ => Some ManageAuthentication
  | CreateAttestation _ _ _ _ | ListAttestations | RevokeAttestation _ => Some AdministerFrontend
  | SetEffect _ | SetAppearanceSlots _ | SetBrightness _ | RestoreAppearance _ | ClearTarget _
  | BeginFrameStream _ | UploadFrame _ _ | EndFrameStream _ _ | BeginShmFrameStream _
  | EndShmFrameStream _ _ | ApplyScene _ _ | StartTransition _ | GetTransition _
  | AbortTransition _ | RenewTransition _ _ => Some Control
  | SaveCurrent _ => Some HardwareAdministration
  | Request_CreateCollection _ _ _ _ => Some CreateCollection
  | Request_DestroyCollection _ => Some DestroyCollection
  | AddCollectionMember _ _ | RemoveCollectionMember _ _ => Some ModifyCollection
  | Request_CreateScene _ _ _ | CaptureScene _ _ _ _ => Some CreateScene
  | ReplaceScene _ _ _ _ _ | RecaptureScene _ _ _ _ => Some ModifyScene
  | DeleteScene _ _ => Some DestroyScene
  end.

(** ** Policies *)

Inductive Decision :=
| Allow
| Deny (reason : option Text).

Definition allows (d : Decision) : bool := match d with Allow => true | Deny _ => false end.

(** The trait [AuthorizationPolicy]: a value of it is a policy object as it answers at the
    time of a request. *)
Record AuthorizationPolicy := {
  ap_authorize : Peer → Operation → list Resource → Decision;
  ap_session_principal : option Principal;
  ap_session_credential_id : option string;
  ap_frontend_principal : option Principal;
  ap_frontend_credential_id : option string;
  ap_name : string
}.

Definition SocketAccessPolicy : AuthorizationPolicy := {|
  ap_authorize _ _ _ := Allow;
  ap_session_principal := None; ap_session_credential_id := None;
  ap_frontend_principal := None; ap_frontend_credential_id := None;
  ap_name := "socket-access"
|}.

Definition IntrinsicRecoveryPolicy (own : DaemonIdentity) (inner : AuthorizationPolicy) :
    AuthorizationPolicy := {|
  ap_authorize principal operation resources :=
    if is_intrinsic_recovery own principal then Allow
    else ap_authorize inner principal operation resources;
  ap_session_principal := None; ap_session_credential_id := None;
  ap_frontend_principal := None; ap_frontend_credential_id := None;
  ap_name := "intrinsic-recovery"
|}.

Definition ScopedPolicy (inner : AuthorizationPolicy) (scope : SessionScope) :
    AuthorizationPolicy := {|
  ap_authorize principal operation resources :=
    if negb (SessionScope_allows scope operation resources)
    then Deny (Some (Lit "session scope denied access"))
    else ap_authorize inner principal operation resources;
  ap_session_principal := ap_session_principal inner;
  ap_session_credential_id := ap_session_credential_id inner;
  ap_frontend_principal := ap_frontend_principal inner;
  ap_frontend_credential_id := ap_frontend_credential_id inner;
  ap_name := "session-scope"
|}.

(** A managed policy, as it answers. *)
Definition Access : Type := AuthorizationRequest → result PolicyError AuthorizationDecision.

Definition unavailable : Decision :=
  Deny (Some (Lit "authorization policy unavailable: {error}")).

(** The answers of the policy for the subject and, if any, for the front end; the two are
    asked one after the other, so that they may come from different revisions. *)
Definition subject_decision (subject : result PolicyError AuthorizationDecision)
    (frontend : option (result PolicyError AuthorizationDecision)) : Decision :=
  match subject with
  | Err _ => unavailable
  | Ok subject =>
      if negb (is_allowed subject) then Deny (Lit <$> ad_reason subject)
      else
        match frontend with
        | None => Allow
        | Some (Ok decision) =>
            if is_allowed decision then Allow
            else Deny (Lit <$> match ad_reason decision with
                               | Some reason => Some reason
                               | None => ad_reason subject
                               end)
        | Some (Err _) => unavailable
        end
  end.

Record AuthenticatedSubject := {
  asp_subject : Principal;
  asp_frontend_actor : option Principal;
  asp_credential_id : option string;
  asp_frontend_credential_id : option string
}.

Definition subject_request (principal : Principal) (operation : Operation)
    (resources : list Resource) : AuthorizationRequest :=
  {| rq_principal := principal; rq_operation := operation; rq_resources := resources |}.

Definition AuthenticatedSubjectPolicy (access access' : Access) (s : AuthenticatedSubject) :
    AuthorizationPolicy := {|
  ap_authorize _ operation resources :=
    subject_decision (access (subject_request (asp_subject s) operation resources))
      ((λ actor, access' (subject_request actor operation resources)) <$> asp_frontend_actor s);
  ap_session_principal := Some (asp_subject s);
  ap_session_credential_id := asp_credential_id s;
  ap_frontend_principal := asp_frontend_actor s;
  ap_frontend_credential_id := asp_frontend_credential_id s;
  ap_name := "authenticated-subject"
|}.

Definition AuthenticatedSubject_new (subject : Principal) : AuthenticatedSubject := {|
  asp_subject := subject; asp_frontend_actor := None; asp_credential_id := None;
  asp_frontend_credential_id := None
|}.
Definition with_frontend_actor (s : AuthenticatedSubject) (actor : Principal)
    (credential_id : option string) : AuthenticatedSubject := {|
  asp_subject := asp_subject s; asp_frontend_actor := Some actor;
  asp_credential_id := asp_credential_id s; asp_frontend_credential_id := credential_id
|}.
Definition with_credential_id (s : AuthenticatedSubject) (credential_id : option string) :
    AuthenticatedSubject := {|
  asp_subject := asp_subject s; asp_frontend_actor := asp_frontend_actor s;
  asp_credential_id := credential_id; asp_frontend_credential_id := asp_frontend_credential_id s
|}.

(** ** Decisions on devices: [daemon/authz.rs] *)

(** [PluginManager::owner_name] *)
Definition owner_name (pm : PluginManager) (device : DeviceId) : option string :=
  owner ← pts_owner_by_device (pm_topology pm) !! DeviceId_as_str device;
  lp_name <$> List.find (λ p, bool_decide (lp_id p = owner)) (pm_loaded pm).

Definition resolve_resource (st : DaemonState) (pm : PluginManager) (device : DeviceId) :
    Resource := {|
  res_device_id := device;
  res_provider_instance := owner_name pm device;
  res_host_attached := from_option device_host_attached false (ds_devices st !! device);
  res_collections := list_to_set (collections_containing_device st device)
|}.

Definition resolve_resources (st : DaemonState) (pm : PluginManager) (devices : list DeviceId) :
    list Resource :=
  resolve_resource st pm <$> devices.

Definition permission_denied_response `{Wire} (reason : option Text) : Response :=
  RS_Error {| oe_code := Code_PermissionDenied; oe_retry_after_ms := None; oe_applied_targets := [] |}.

Definition authorization_conflict_response `{Wire} : Response :=
  response_of_error (DE_AuthorizationConflict
    (Lit "device topology changed during authorization; retry the request")).
