(* ===== verification/Authentication.v ===== *)
(** * Authentication: [luminated/src/authentication.rs]

    Bearer tokens, front-end attestations, event tickets and external providers, and the
    notifications by which a revoked credential ends the sessions that rest on it.  The
    service is a record of its mutexes' contents; each operation is what happens under one
    critical section, and where the code releases one lock before it takes the next the
    operation is two.  A [broadcast] channel is the number of its notifications, a
    receiver the number it has passed over.  SHA-256 is the class [Digest]; clocks, random
    bytes, the token file and the answers of providers are arguments.  The claims: tickets
    and attestations are used once, by the actor they were made for; the capacities hold;
    a session of a token is notified when its token is revoked or rotated; and two ways in
    which a session can outlive its credential. *)

From S2P Require Import Prelude Model Policy Daemon Normalize Protocol Authorization.
From stdpp Require Import pretty.

Definition EVENT_TICKET_BYTES : nat := 32.
Definition EVENT_TICKET_LIFETIME : Z := 30 * 1000000000.
Definition MAX_EVENT_TICKETS : nat := 1024.
Definition MAX_EVENT_TICKETS_PER_ACTOR : nat := 32.
Definition MAX_TICKET_GENERATION_ATTEMPTS : nat := 8.
Definition MAX_ATTESTATIONS : nat := 1024.
Definition MAX_ATTESTATIONS_PER_ACTOR : nat := 64.
Definition MAX_TOKEN_FILE_BYTES : Z := 4 * 1024 * 1024.
#[global] Opaque MAX_EVENT_TICKETS MAX_EVENT_TICKETS_PER_ACTOR MAX_ATTESTATIONS
  MAX_ATTESTATIONS_PER_ACTOR.

#[export] Instance Peer_eq : EqDecision Peer.
Proof. solve_decision. Defined.

(** [b"luminate daemon token v1\0"] *)
Definition TOKEN_HASH_DOMAIN : list Z :=
  (λ c, Z.of_nat (Ascii.nat_of_ascii c)) <$> String.list_ascii_of_string "luminate daemon token v1" ++ [Ascii.zero].

Class Digest := { sha256 : list Z → list Z }.

Inductive EphemeralCapacityError :=
| GlobalEventTickets
| ActorEventTickets
| GlobalAttestations
| ActorAttestations.
(** An [anyhow::Error] of the service: a capacity, or a message. *)
Inductive AuthError :=
| AE_Capacity (e : EphemeralCapacityError)
| AE_Other (message : Text).
Notation auth := (result AuthError).
Definition failed {A} (message : string) : auth A := Err (AE_Other (Lit message)).
Definition require (b : bool) (message : string) : auth unit :=
  ensure b (AE_Other (Lit message)).

(** ** Tokens *)

Record TokenRecord := {
  tk_id : string;
  tk_subject : PrincipalId;
  tk_hash : list Z;
  tk_expires_at : option Z;
  tk_revoked : bool
}.
Notation TokenStore := (gmap string TokenRecord).

(** [expires_at.is_none_or(|expiry| expiry > now)] *)
Definition unexpired (expires_at : option Z) (now : Z) : bool :=
  match expires_at with None => true | Some expiry => (now <? expiry)%Z end.
Definition token_active (record : TokenRecord) (now : Z) : bool :=
  negb (tk_revoked record) && unexpired (tk_expires_at record) now.

Section digest.
Context `{Digest}.

Definition token_hash (secret : list Z) : list Z := sha256 (TOKEN_HASH_DOMAIN ++ secret).

(** [generate_token]: the bytes of the system's generator, or its failure. *)
Definition generate_token (random : auth (list Z)) : auth Credential :=
  bytes ← random;
  map_err (λ _, AE_Other (Lit "credential is empty")) (Credential_new bytes).

Definition TokenStore_create (tokens : TokenStore) (id : string) (subject : PrincipalId)
    (expires_at : option Z) (random : auth (list Z)) : auth (TokenStore * Credential) :=
  _ ← require (negb (is_blank id)) "token ID must not be empty";
  _ ← require (bool_decide (tokens !! id = None)) "token ID already exists";
  secret ← generate_token random;
  Ok (<[id := {| tk_id := id; tk_subject := subject;
                 tk_hash := token_hash (Credential_expose secret);
                 tk_expires_at := expires_at; tk_revoked := false |}]> tokens, secret).

Definition TokenStore_revoke (tokens : TokenStore) (id : string) : TokenStore * bool :=
  match tokens !! id with
  | Some record =>
      (<[id := {| tk_id := tk_id record; tk_subject := tk_subject record; tk_hash := tk_hash record;
                  tk_expires_at := tk_expires_at record; tk_revoked := true |}]> tokens,
       negb (tk_revoked record))
  | None => (tokens, false)
  end.

Definition TokenStore_rotate (tokens : TokenStore) (id : string) (expires_at : option Z)
    (random : auth (list Z)) : auth (TokenStore * Credential) :=
  record ← ok_or (tokens !! id) (AE_Other (Lit "token ID does not exist"));
  secret ← generate_token random;
  Ok (<[id := {| tk_id := tk_id record; tk_subject := tk_subject record;
                 tk_hash := token_hash (Credential_expose secret);
                 tk_expires_at := expires_at; tk_revoked := false |}]> tokens, secret).

Definition TokenStore_authenticate (tokens : TokenStore) (presented : list Z) (now : Z) :
    option TokenRecord :=
  List.find (λ record, token_active record now &&
                       bool_decide (tk_hash record = token_hash presented))
    (map_to_list tokens).*2.
End digest.

Definition token_metadata (record : TokenRecord) : TokenMetadata := {|
  tm_id := tk_id record; tm_subject := tk_subject record; tm_expires_at := tk_expires_at record;
  tm_revoked := tk_revoked record |}.
Definition metadata_le (a b : TokenMetadata) : Prop := String.le (tm_id a) (tm_id b).
#[export] Instance metadata_le_dec : RelDecision metadata_le.
Proof. intros a b. unfold metadata_le. apply _. Defined.
Definition TokenStore_metadata (tokens : TokenStore) : list TokenMetadata :=
  merge_sort metadata_le (token_metadata <$> (map_to_list tokens).*2).

(** ** The service *)

(** A [broadcast::Receiver]: its channel and the notifications it has passed over. *)
Record Receiver := { rx_channel : nat; rx_seen : nat }.
#[export] Instance Receiver_eq : EqDecision Receiver.
Proof. solve_decision. Defined.

Record PendingTicket := {
  pt_actor : Peer;
  pt_expires_at : Z;
  pt_scope : option SessionScope;
  pt_subject : option Principal;
  pt_frontend_actor : option Principal;
  pt_credential_id : option string;
  pt_frontend_credential_id : option string;
  pt_authentication_expiry : option Z;
  pt_revocation : option Receiver
}.

Record ConsumedTicket := {
  ct_scope : option SessionScope;
  ct_subject : option Principal;
  ct_frontend_actor : option Principal;
  ct_credential_id : option string;
  ct_frontend_credential_id : option string;
  ct_revocation : option Receiver;
  ct_authentication_expiry : option Z
}.

Record AttestationRecord := {
  at_actor : Peer;
  at_frontend_actor : option Principal;
  at_frontend_credential_id : option string;
  at_subject : PrincipalId;
  at_verified_groups : list string;
  at_credential_id : string;
  at_hash : list Z;
  at_expires_at : option Z
}.

(** [AuthenticationProvider]: the configured authority and the permits left. *)
Record Provider := {
  pv_authority : string;
  pv_permits : nat
}.

(** [sv_token_file] is what the token file holds. *)
Record AuthenticationService := {
  sv_tickets : gmap (list Z) PendingTicket;
  sv_tokens : TokenStore;
  sv_attestations : gmap string AttestationRecord;
  sv_providers : gmap string Provider;
  sv_token_path : bool;
  sv_token_file : option TokenStore;
  sv_token_sessions : gmap string nat;
  sv_channels : list nat
}.

Definition AuthenticationService_default : AuthenticationService := {|
  sv_tickets := ∅; sv_tokens := ∅; sv_attestations := ∅; sv_providers := ∅;
  sv_token_path := false; sv_token_file := None; sv_token_sessions := ∅; sv_channels := [] |}.

Definition set_tickets (s : AuthenticationService) v : AuthenticationService :=
  let 'Build_AuthenticationService _ b c d e f g h := s in
  Build_AuthenticationService v b c d e f g h.
Definition set_tokens (s : AuthenticationService) v : AuthenticationService :=
  let 'Build_AuthenticationService a _ c d e f g h := s in
  Build_AuthenticationService a v c d e f g h.
Definition set_attestations (s : AuthenticationService) v : AuthenticationService :=
  let 'Build_AuthenticationService a b _ d e f g h := s in
  Build_AuthenticationService a b v d e f g h.
Definition set_providers (s : AuthenticationService) v : AuthenticationService :=
  let 'Build_AuthenticationService a b c _ e f g h := s in
  Build_AuthenticationService a b c v e f g h.
Definition set_token_file (s : AuthenticationService) v : AuthenticationService :=
  let 'Build_AuthenticationService a b c d e _ g h := s in
  Build_AuthenticationService a b c d e v g h.
Definition set_sessions (s : AuthenticationService) v v' : AuthenticationService :=
  let 'Build_AuthenticationService a b c d e f _ _ := s in
  Build_AuthenticationService a b c d e f v v'.

(** *** Channels *)

Definition sent_count (s : AuthenticationService) (channel : nat) : nat :=
  default 0 (sv_channels s !! channel).
Definition subscribe (s : AuthenticationService) (channel : nat) : Receiver :=
  {| rx_channel := channel; rx_seen := sent_count s channel |}.
(** [Receiver::resubscribe]: from the end of the channel, not from where the receiver is. *)
Definition resubscribe (s : AuthenticationService) (rx : Receiver) : Receiver :=
  subscribe s (rx_channel rx).
(** [recv] would complete. *)
Definition notified (s : AuthenticationService) (rx : Receiver) : bool :=
  rx_seen rx <? sent_count s (rx_channel rx).
(** [sessions.send(())], where the token has sessions. *)
Definition notify_sessions (s : AuthenticationService) (id : string) : AuthenticationService :=
  match sv_token_sessions s !! id with
  | Some channel => set_sessions s (sv_token_sessions s) (alter S channel (sv_channels s))
  | None => s
  end.
Definition new_channel (s : AuthenticationService) : AuthenticationService * nat :=
  (set_sessions s (sv_token_sessions s) (sv_channels s ++ [0]), length (sv_channels s)).

(** *** Token administration *)

(** [write_tokens]: the directory, the payload within its limit, the replacement. *)
Record TokenFile := {
  tf_directory : auth unit;
  tf_payload : TokenStore → auth Z;
  tf_replace : auth unit
}.
Definition write_tokens (f : TokenFile) (tokens : TokenStore) : auth unit :=
  _ ← tf_directory f;
  n ← tf_payload f tokens;
  _ ← ensure (n <=? MAX_TOKEN_FILE_BYTES)%Z
        (AE_Other (Lit "token file exceeds the {MAX_TOKEN_FILE_BYTES} byte limit"));
  tf_replace f.
Definition persist_tokens (s : AuthenticationService) (f : TokenFile) (tokens : TokenStore) :
    auth AuthenticationService :=
  if sv_token_path s
  then _ ← write_tokens f tokens; Ok (set_token_file s (Some tokens))
  else Ok s.

(** [*tokens = replacement] once it is on disk. *)
Definition commit_tokens (s : AuthenticationService) (f : TokenFile) (tokens : TokenStore) :
    auth AuthenticationService :=
  s ← persist_tokens s f tokens; Ok (set_tokens s tokens).

Definition metadata_of (tokens : TokenStore) (id message : string) : auth TokenMetadata :=
  ok_or (List.find (λ m, bool_decide (tm_id m = id)) (TokenStore_metadata tokens))
    (AE_Other (Lit message)).

Section service.
Context `{Digest}.

Definition create_token (s : AuthenticationService) (id : string) (subject : PrincipalId)
    (expires_at : option Z) (random : auth (list Z)) (f : TokenFile) :
    AuthenticationService * auth (TokenMetadata * Credential) :=
  match '(replacement, secret) ← TokenStore_create (sv_tokens s) id subject expires_at random;
        s' ← commit_tokens s f replacement; Ok (s', secret) with
  | Err e => (s, Err e)
  | Ok (s', secret) =>
      (s', metadata ← metadata_of (sv_tokens s') id "created token record is unavailable";
           Ok (metadata, secret))
  end.

Definition list_tokens (s : AuthenticationService) : list TokenMetadata :=
  TokenStore_metadata (sv_tokens s).

(** The first half of [revoke_token], under the lock of the tokens; the second is
    [notify_sessions]. *)
Definition revoke_token_record (s : AuthenticationService) (id : string) (f : TokenFile) :
    AuthenticationService * auth bool :=
  let '(replacement, changed) := TokenStore_revoke (sv_tokens s) id in
  if negb changed then (s, Ok false)
  else
    match commit_tokens s f replacement with
    | Err e => (s, Err e)
    | Ok s' => (s', Ok true)
    end.
Definition revoke_token (s : AuthenticationService) (id : string) (f : TokenFile) :
    AuthenticationService * auth bool :=
  match revoke_token_record s id f with
  | (s', Ok true) => (notify_sessions s' id, Ok true)
  | r => r
  end.

Definition rotate_token_record (s : AuthenticationService) (id : string) (expires_at : option Z)
    (random : auth (list Z)) (f : TokenFile) :
    AuthenticationService * auth (TokenMetadata * Credential) :=
  match '(replacement, secret) ← TokenStore_rotate (sv_tokens s) id expires_at random;
        s' ← commit_tokens s f replacement; Ok (s', secret) with
  | Err e => (s, Err e)
  | Ok (s', secret) =>
      (s', metadata ← metadata_of (sv_tokens s') id "rotated token record is unavailable";
           Ok (metadata, secret))
  end.
Definition rotate_token (s : AuthenticationService) (id : string) (expires_at : option Z)
    (random : auth (list Z)) (f : TokenFile) :
    AuthenticationService * auth (TokenMetadata * Credential) :=
  match rotate_token_record s id expires_at random f with
  | (s', Ok r) => (notify_sessions s' id, Ok r)
  | r => r
  end.

(** *** Attestations *)

Definition retain_attestations (s : AuthenticationService) (now : Z) : AuthenticationService :=
  set_attestations s
    (filter (λ p, unexpired (at_expires_at p.2) now = true) (sv_attestations s)).
Definition attestations_of (s : AuthenticationService) (actor : Peer) : nat :=
  size (filter (λ p, rate_limit_key (at_actor p.2) = rate_limit_key actor) (sv_attestations s)).

Definition attestation_metadata (name : string) (r : AttestationRecord) : AttestationMetadata := {|
  am_name := name; am_subject := at_subject r; am_verified_groups := at_verified_groups r;
  am_credential_id := at_credential_id r; am_expires_at := at_expires_at r |}.

(** [asked] and [now] are the two readings of the clock. *)
Definition create_attestation_with_frontend (s : AuthenticationService) (name : string) (actor : Peer)
    (frontend_actor : option Principal) (frontend_credential_id : option string)
    (subject : PrincipalId) (verified_groups : list string) (expires_at : option Z)
    (asked now : Z) (random : auth (list Z)) :
    AuthenticationService * auth (AttestationMetadata * Credential) :=
  match
    _ ← require (negb (is_blank name)) "attestation name must not be empty";
    _ ← require (unexpired expires_at asked) "attestation expiry must be in the future";
    map_err (λ _, AE_Other (Lit "{error}"))
      (Principal_new (PrincipalId_authority subject) (PrincipalId_subject subject) verified_groups)
  with
  | Err e => (s, Err e)
  | Ok verified_principal =>
      let verified_groups := merge_sort String.le (elements (pr_groups verified_principal)) in
      let s := retain_attestations s now in
      match
        _ ← require (bool_decide (sv_attestations s !! name = None))
              "attestation name already exists";
        _ ← ensure (size (sv_attestations s) <? MAX_ATTESTATIONS) (AE_Capacity GlobalAttestations);
        _ ← ensure (attestations_of s actor <? MAX_ATTESTATIONS_PER_ACTOR)
              (AE_Capacity ActorAttestations);
        generate_token random
      with
      | Err e => (s, Err e)
      | Ok secret =>
          let record := {|
            at_actor := actor; at_frontend_actor := frontend_actor;
            at_frontend_credential_id := frontend_credential_id; at_subject := subject;
            at_verified_groups := verified_groups;
            at_credential_id := ("attestation:" ++ name)%string;
            at_hash := token_hash (Credential_expose secret); at_expires_at := expires_at |} in
          (set_attestations s (<[name := record]> (sv_attestations s)),
           Ok (attestation_metadata name record, secret))
      end
  end.

Definition attestation_le (a b : AttestationMetadata) : Prop := String.le (am_name a) (am_name b).
#[export] Instance attestation_le_dec : RelDecision attestation_le.
Proof. intros a b. unfold attestation_le. apply _. Defined.
Definition list_attestations (s : AuthenticationService) (actor : Peer) (now : Z) :
    AuthenticationService * list AttestationMetadata :=
  let s := retain_attestations s now in
  (s, merge_sort attestation_le ((λ p, attestation_metadata p.1 p.2) <$>
        filter (λ p, at_actor p.2 = actor) (map_to_list (sv_attestations s)))).

Definition revoke_attestation (s : AuthenticationService) (name : string) (actor : Peer) :
    AuthenticationService * bool :=
  match sv_attestations s !! name with
  | Some record =>
      if bool_decide (at_actor record = actor)
      then (set_attestations s (delete name (sv_attestations s)), true) else (s, false)
  | None => (s, false)
  end.

(** *** Event tickets *)

Definition retain_tickets (s : AuthenticationService) (instant : Z) : AuthenticationService :=
  set_tickets s (filter (λ p, (instant < pt_expires_at p.2)%Z) (sv_tickets s)).
Definition tickets_of (s : AuthenticationService) (actor : Peer) : nat :=
  size (filter (λ p, rate_limit_key (pt_actor p.2) = rate_limit_key actor) (sv_tickets s)).

(** The loop of [fill_bytes]: the first value that is not a ticket. *)
Fixpoint unique_value (tickets : gmap (list Z) PendingTicket) (random : list (auth (list Z)))
    (attempts : nat) : auth (option (list Z)) :=
  match attempts, random with
  | S attempts, bytes :: random =>
      value ← bytes;
      if bool_decide (tickets !! value = None) then Ok (Some value)
      else unique_value tickets random attempts
  | _, _ => Ok None
  end.

Definition mint_with_frontend (s : AuthenticationService) (actor : Peer) (scope : option SessionScope)
    (subject frontend_actor : option Principal) (credential_id frontend_credential_id : option string)
    (authentication_expiry : option Z) (revocation : option Receiver) (instant : Z)
    (random : list (auth (list Z))) : AuthenticationService * auth EventTicket :=
  let s := retain_tickets s instant in
  match
    _ ← ensure (size (sv_tickets s) <? MAX_EVENT_TICKETS) (AE_Capacity GlobalEventTickets);
    _ ← ensure (tickets_of s actor <? MAX_EVENT_TICKETS_PER_ACTOR) (AE_Capacity ActorEventTickets);
    value ← unique_value (sv_tickets s) random MAX_TICKET_GENERATION_ATTEMPTS;
    ok_or value (AE_Other (Lit "could not generate a unique event ticket"))
  with
  | Err e => (s, Err e)
  | Ok value =>
      (set_tickets s (<[value := {|
         pt_actor := actor; pt_expires_at := (instant + EVENT_TICKET_LIFETIME)%Z; pt_scope := scope;
         pt_subject := subject; pt_frontend_actor := frontend_actor; pt_credential_id := credential_id;
         pt_frontend_credential_id := frontend_credential_id;
         pt_authentication_expiry := authentication_expiry; pt_revocation := revocation |}]>
         (sv_tickets s)),
       map_err (λ _, AE_Other (Lit "credential is empty")) (EventTicket_new value))
  end.

Definition prune_expired (s : AuthenticationService) (instant now : Z) : AuthenticationService :=
  retain_attestations (retain_tickets s instant) now.

(** The first half of [consume], under the lock of the tickets. *)
Definition take_ticket (s : AuthenticationService) (ticket : EventTicket) (actor : Peer) (instant : Z) :
    AuthenticationService * option PendingTicket :=
  let value := EventTicket_expose ticket in
  if negb (length value =? EVENT_TICKET_BYTES) then (s, None)
  else
    let s := retain_tickets s instant in
    match sv_tickets s !! value with
    | Some pending =>
        if bool_decide (pt_actor pending = actor) && (instant <? pt_expires_at pending)%Z
        then (set_tickets s (delete value (sv_tickets s)), Some pending) else (s, None)
    | None => (s, None)
    end.

(** The second half: the receiver of the ticket, or one of its token's sessions. *)
Definition ticket_revocation (s : AuthenticationService) (pending : PendingTicket) (now : Z) :
    option (option Receiver) :=
  match pt_revocation pending, pt_credential_id pending with
  | Some receiver, _ => Some (Some receiver)
  | None, Some id =>
      if from_option (λ record, token_active record now) false (sv_tokens s !! id)
      then channel ← sv_token_sessions s !! id; Some (Some (subscribe s channel))
      else None
  | None, None => Some None
  end.

Definition consumed (pending : PendingTicket) (revocation : option Receiver) : ConsumedTicket := {|
  ct_scope := pt_scope pending; ct_subject := pt_subject pending;
  ct_frontend_actor := pt_frontend_actor pending; ct_credential_id := pt_credential_id pending;
  ct_frontend_credential_id := pt_frontend_credential_id pending; ct_revocation := revocation;
  ct_authentication_expiry := pt_authentication_expiry pending |}.
Definition consume (s : AuthenticationService) (ticket : EventTicket) (actor : Peer) (instant now : Z) :
    AuthenticationService * option ConsumedTicket :=
  match take_ticket s ticket actor instant with
  | (s, Some pending) => (s, consumed pending <$> ticket_revocation s pending now)
  | (s, None) => (s, None)
  end.

(** *** Sessions *)

(** What [authenticate_with_frontend] returns. *)
Record Session := {
  ss_response : AuthenticationResponse;
  ss_revocation : option Receiver;
  ss_frontend_actor : option Principal;
  ss_frontend_credential_id : option string
}.
Definition rejection (reason : string) : Session := {|
  ss_response := Rejected (Lit reason); ss_revocation := None; ss_frontend_actor := None;
  ss_frontend_credential_id := None |}.
Definition authentication_rejected : Session := rejection "authentication rejected".

Definition peer_subject (actor : Peer) : validated PrincipalId :=
  match actor with
  | Peer_Unix uid _ _ => PrincipalId_new "unix" (pretty (Z.to_N uid))
  | Peer_Windows sid _ => PrincipalId_new "windows" sid
  end.
Definition authenticate_peer (actor : Peer) : auth Session :=
  subject ← map_err (λ _, AE_Other (Lit "{error}")) (peer_subject actor);
  Ok {| ss_response := Authenticated {|
          sm_subject := subject; sm_verified_groups := []; sm_source := Source_Peer;
          sm_credential_id := None; sm_expires_at := None |};
        ss_revocation := None; ss_frontend_actor := None; ss_frontend_credential_id := None |}.

(** [token_sessions.entry(id).or_insert_with(channel).subscribe()] *)
Definition session_channel (s : AuthenticationService) (id : string) : AuthenticationService * Receiver :=
  match sv_token_sessions s !! id with
  | Some channel => (s, subscribe s channel)
  | None =>
      let '(s, channel) := new_channel s in
      let s := set_sessions s (<[id := channel]> (sv_token_sessions s)) (sv_channels s) in
      (s, subscribe s channel)
  end.

(** Under the lock of the tokens throughout. *)
Definition authenticate_bearer (s : AuthenticationService) (credential : Credential) (now : Z) :
    AuthenticationService * Session :=
  match TokenStore_authenticate (sv_tokens s) (Credential_expose credential) now with
  | None => (s, authentication_rejected)
  | Some token =>
      let '(s, revocation) := session_channel s (tk_id token) in
      (s, {| ss_response := Authenticated {|
               sm_subject := tk_subject token; sm_verified_groups := []; sm_source := Source_Bearer;
               sm_credential_id := Some (tk_id token); sm_expires_at := tk_expires_at token |};
             ss_revocation := Some revocation; ss_frontend_actor := None;
             ss_frontend_credential_id := None |})
  end.

(** The attestation under the lock of the attestations: valid and taken, or not. *)
Definition attestation_valid (s : AuthenticationService) (r : AttestationRecord) (actor : Peer)
    (credential : Credential) (now : Z) : bool :=
  bool_decide (at_actor r = actor) && unexpired (at_expires_at r) now &&
  from_option (λ id, from_option (λ record, token_active record now) false (sv_tokens s !! id)) true
    (at_frontend_credential_id r) &&
  bool_decide (at_hash r = token_hash (Credential_expose credential)).
Definition take_attestation (s : AuthenticationService) (name : string) (credential : Credential)
    (actor : Peer) (now : Z) : AuthenticationService * option AttestationRecord :=
  match sv_attestations s !! name with
  | Some r =>
      if attestation_valid s r actor credential now
      then (set_attestations s (delete name (sv_attestations s)), Some r) else (s, None)
  | None => (s, None)
  end.
(** Then, under the lock of the sessions, the receiver of the front end's token. *)
Definition attested_session (s : AuthenticationService) (name : string) (r : AttestationRecord) :
    Session := {|
  ss_response := Authenticated {|
    sm_subject := at_subject r; sm_verified_groups := at_verified_groups r;
    sm_source := Source_Attestation name; sm_credential_id := Some (at_credential_id r);
    sm_expires_at := at_expires_at r |};
  ss_revocation := id ← at_frontend_credential_id r;
                   channel ← sv_token_sessions s !! id; Some (subscribe s channel);
  ss_frontend_actor := at_frontend_actor r;
  ss_frontend_credential_id := at_frontend_credential_id r |}.

(** *** External providers: [luminate-protocol/src/authentication_provider.rs] and
    [luminated/src/authentication_provider.rs] *)

Record ProviderIdentity := {
  pi_subject : string;
  pi_verified_groups : list string;
  pi_credential_id : string;
  pi_expires_at : Z;
  pi_continuation : Continuation
}.

Definition MAX_PROVIDER_GROUPS : nat := 256.
Definition MAX_PROVIDER_TEXT_BYTES : nat := 1024.

Definition validate_text (value : string) : result string unit :=
  _ ← ensure (negb (bool_decide (value = ""%string))) "provider returned an empty identity field"%string;
  ensure (String.length value <=? MAX_PROVIDER_TEXT_BYTES)
    "provider returned an oversized identity field"%string.
Definition validate_identity (identity : ProviderIdentity) : result string unit :=
  _ ← validate_text (pi_subject identity);
  _ ← validate_text (pi_credential_id identity);
  _ ← ensure (length (pi_verified_groups identity) <=? MAX_PROVIDER_GROUPS)
        "provider returned too many groups"%string;
  _ ← try_map validate_text (pi_verified_groups identity);
  Ok tt.

Inductive ProviderResponse :=
| ProviderResponse_Authenticated (id : Z) (identity : ProviderIdentity)
| ProviderResponse_Rejected (id : Z).

(** [AuthenticationProvider::call], once the exchange with the process has ended. *)
Definition call (expected_id : Z) (exchange : auth ProviderResponse) :
    auth (option ProviderIdentity) :=
  response ← exchange;
  match response with
  | ProviderResponse_Authenticated id identity =>
      if (id =? expected_id)%Z
      then _ ← map_err (λ message, AE_Other (Lit message)) (validate_identity identity);
           Ok (Some identity)
      else failed "authentication provider returned a mismatched exchange ID"
  | ProviderResponse_Rejected id =>
      if (id =? expected_id)%Z then Ok None
      else failed "authentication provider returned a mismatched exchange ID"
  end.

Definition set_permits (s : AuthenticationService) (provider : string) (f : nat → nat) :
    AuthenticationService :=
  set_providers s (alter (λ p, {| pv_authority := pv_authority p; pv_permits := f (pv_permits p) |})
                     provider (sv_providers s)).

(** A provider session: the permit is held while the provider answers and, on success, by
    the lease that is spawned. *)
Definition acquire_session (s : AuthenticationService) (provider : string) :
    option (AuthenticationService * Provider) :=
  p ← sv_providers s !! provider;
  if 0 <? pv_permits p then Some (set_permits s provider pred, p) else None.
Definition release_session (s : AuthenticationService) (provider : string) : AuthenticationService :=
  set_permits s provider S.

Definition external_session (s : AuthenticationService) (provider : string) (p : Provider)
    (answer : auth (option ProviderIdentity)) : AuthenticationService * auth Session :=
  match answer with
  | Err e => (release_session s provider, Err e)
  | Ok None => (release_session s provider, Ok authentication_rejected)
  | Ok (Some identity) =>
      match PrincipalId_new (pv_authority p) (pi_subject identity) with
      | Err _ => (release_session s provider, failed "{error}")
      | Ok subject =>
          let '(s, channel) := new_channel s in
          (s, Ok {| ss_response := Authenticated {|
                      sm_subject := subject; sm_verified_groups := pi_verified_groups identity;
                      sm_source := Source_External provider;
                      sm_credential_id := Some (pi_credential_id identity); sm_expires_at := None |};
                    ss_revocation := Some (subscribe s channel); ss_frontend_actor := None;
                    ss_frontend_credential_id := None |})
      end
  end.

(** [authenticate_with_frontend] without interruption. *)
Definition authenticate_with_frontend (s : AuthenticationService) (request : AuthenticationRequest)
    (actor : Peer) (now : Z) (answer : auth (option ProviderIdentity)) :
    AuthenticationService * auth Session :=
  match areq_authentication request with
  | Authentication_Peer => (s, authenticate_peer actor)
  | Authentication_Bearer credential =>
      let '(s, session) := authenticate_bearer s credential now in (s, Ok session)
  | Authentication_Attestation name credential =>
      match take_attestation s name credential actor now with
      | (s, None) => (s, Ok authentication_rejected)
      | (s, Some r) => (s, Ok (attested_session s name r))
      end
  | Authentication_External provider credential =>
      match sv_providers s !! provider with
      | None => (s, Ok (rejection "authentication method is not configured"))
      | Some _ =>
          match acquire_session s provider with
          | None => (s, Ok (rejection "authentication provider session capacity reached"))
          | Some (s, p) => external_session s provider p answer
          end
      end
  end.

(** *** Leases: [spawn_provider_lease] *)

(** One round of the loop: the clock, the receivers before and after the sleep, the
    provider's answer and the clock after it. *)
Record LeaseRound := {
  lr_now : Z;
  lr_receivers : nat;
  lr_receivers_after : nat;
  lr_answer : auth (option ProviderIdentity);
  lr_answered : Z
}.
Inductive LeaseEnd :=
| Lease_Abandoned
| Lease_Revoked.

Definition lease_round (identity : ProviderIdentity) (round : LeaseRound) :
    LeaseEnd + ProviderIdentity :=
  if (pi_expires_at identity <? lr_now round)%Z then inl Lease_Revoked
  else if lr_receivers round =? 0 then inl Lease_Abandoned
  else if lr_receivers_after round =? 0 then inl Lease_Abandoned
  else
    match lr_answer round with
    | Ok (Some next) =>
        if negb (bool_decide (pi_subject next = pi_subject identity)) ||
           negb (bool_decide (pi_verified_groups next = pi_verified_groups identity)) ||
           negb (bool_decide (pi_credential_id next = pi_credential_id identity)) ||
           (pi_expires_at next <=? lr_answered round)%Z
        then inl Lease_Revoked else inr next
    | _ => inl Lease_Revoked
    end.

(** The lease over the rounds so far: how it ended, or the identity it holds. *)
Fixpoint lease (identity : ProviderIdentity) (rounds : list LeaseRound) : LeaseEnd + ProviderIdentity :=
  match rounds with
  | [] => inr identity
  | round :: rounds =>
      match lease_round identity round with
      | inl ended => inl ended
      | inr next => lease next rounds
      end
  end.

(** The permit comes back when the lease ends; a revoked one notifies its session. *)
Definition end_lease (s : AuthenticationService) (provider : string) (channel : nat) (ended : LeaseEnd) :
    AuthenticationService :=
  let s := match ended with
           | Lease_Revoked => set_sessions s (sv_token_sessions s) (alter S channel (sv_channels s))
           | Lease_Abandoned => s
           end in
  release_session s provider.

(** *** Starting *)

(** [load_tokens]: a missing file is empty. *)
Definition load_tokens (opened : auth (option (Z * auth TokenStore))) : auth TokenStore :=
  payload ← opened;
  match payload with
  | None => Ok ∅
  | Some (bytes, parsed) =>
      _ ← ensure (bytes <=? MAX_TOKEN_FILE_BYTES)%Z
            (AE_Other (Lit "token file exceeds the {MAX_TOKEN_FILE_BYTES} byte limit"));
      parsed
  end.
Definition AuthenticationService_load (opened : auth (option (Z * auth TokenStore))) :
    auth AuthenticationService :=
  tokens ← load_tokens opened;
  Ok {| sv_tickets := ∅; sv_tokens := tokens; sv_attestations := ∅; sv_providers := ∅;
        sv_token_path := true;
        sv_token_file := match opened with Ok None => None | _ => Some tokens end;
        sv_token_sessions := ∅;
        sv_channels := [] |}.

Record AuthenticationProviderConfig := {
  apc_name : string;
  apc_required : bool
}.
Fixpoint start_providers (s : AuthenticationService)
    (started : list (AuthenticationProviderConfig * auth Provider)) :
    AuthenticationService * auth unit :=
  match started with
  | [] => (s, Ok tt)
  | (configuration, Ok provider) :: started =>
      start_providers (set_providers s (<[apc_name configuration := provider]> (sv_providers s)))
        started
  | (configuration, Err e) :: started =>
      if apc_required configuration
      then (s, failed "required external authentication provider {} failed to start")
      else start_providers s started
  end.

(** ** Lives of the service *)

(** A one-use credential: a ticket by its value, an attestation by its name and the hash
    of its secret. *)
Inductive OneUse :=
| Use_Ticket (value : list Z)
| Use_Attestation (name : string) (hash : list Z).
#[export] Instance OneUse_eq : EqDecision OneUse.
Proof. solve_decision. Defined.

Inductive service_event :=
| Created (k : OneUse) (actor : Peer) (deadline : option Z)
| Used (k : OneUse) (actor : Peer) (now : Z)
| Opened (id : string) (hash : list Z) (rx : Receiver)
| Withdrawn (id : string)
| Announced (id : string).
#[export] Instance service_event_eq : EqDecision service_event.
Proof. solve_decision. Defined.
Definition about (k : OneUse) (e : service_event) : bool :=
  match e with Created k' _ _ | Used k' _ _ => bool_decide (k' = k) | _ => false end.

(** A [[u8; EVENT_TICKET_BYTES]]. *)
Definition ticket_sized (r : auth (list Z)) : Prop :=
  ∀ value, r = Ok value → length value = EVENT_TICKET_BYTES.

(** The session a bearer credential opened. *)
Definition opened (credential : Credential) (session : Session) : list service_event :=
  match ss_response session, ss_revocation session with
  | Authenticated metadata, Some rx =>
      [Opened (default ""%string (sm_credential_id metadata))
         (token_hash (Credential_expose credential)) rx]
  | _, _ => []
  end.

(** One operation, with what it did: one-use credentials made and used, sessions opened
    by a token, tokens revoked or rotated, and their sessions told so. *)
Inductive service_step (s : AuthenticationService) :
    list service_event → AuthenticationService → Prop :=
| step_create_token id subject expires random f :
    service_step s [] (create_token s id subject expires random f).1
| step_revoke_token_record id f s' r :
    revoke_token_record s id f = (s', r) →
    service_step s (match r with Ok true => [Withdrawn id] | _ => [] end) s'
| step_rotate_token_record id expires random f s' r :
    rotate_token_record s id expires random f = (s', r) →
    service_step s (match r with Ok _ => [Withdrawn id] | Err _ => [] end) s'
| step_notify id : service_step s [Announced id] (notify_sessions s id)
| step_create_attestation name actor fa fc subject groups expires asked now random s' r :
    create_attestation_with_frontend s name actor fa fc subject groups expires asked now random = (s', r) →
    service_step s
      (match r with
       | Ok (_, secret) =>
           [Created (Use_Attestation name (token_hash (Credential_expose secret))) actor expires]
       | Err _ => []
       end) s'
| step_list_attestations actor now : service_step s [] (list_attestations s actor now).1
| step_revoke_attestation name actor : service_step s [] (revoke_attestation s name actor).1
| step_mint actor scope subject fa c fc expiry rx instant random s' r :
    Forall ticket_sized random →
    mint_with_frontend s actor scope subject fa c fc expiry rx instant random = (s', r) →
    service_step s
      (match r with
       | Ok ticket => [Created (Use_Ticket (EventTicket_expose ticket)) actor
                         (Some (instant + EVENT_TICKET_LIFETIME)%Z)]
       | Err _ => []
       end) s'
| step_take_ticket ticket actor instant s' r :
    take_ticket s ticket actor instant = (s', r) →
    service_step s
      (match r with
       | Some _ => [Used (Use_Ticket (EventTicket_expose ticket)) actor instant]
       | None => []
       end) s'
| step_prune instant now : service_step s [] (prune_expired s instant now)
| step_bearer credential now s' session :
    authenticate_bearer s credential now = (s', session) →
    service_step s (opened credential session) s'
| step_take_attestation name credential actor now s' r :
    take_attestation s name credential actor now = (s', r) →
    service_step s
      (match r with
       | Some _ => [Used (Use_Attestation name (token_hash (Credential_expose credential))) actor now]
       | None => []
       end) s'
| step_acquire provider s' p : acquire_session s provider = Some (s', p) → service_step s [] s'
| step_external provider p answer : service_step s [] (external_session s provider p answer).1
| step_end_lease provider channel ended : service_step s [] (end_lease s provider channel ended).

Inductive service_run (s : AuthenticationService) :
    list service_event → AuthenticationService → Prop :=
| run_nil : service_run s [] s
| run_step tr s' evs s'' :
    service_run s tr s' → service_step s' evs s'' → service_run s (tr ++ evs) s''.

(** *** One use *)

Definition live (s : AuthenticationService) (k : OneUse) (actor : Peer) (deadline : option Z) : Prop :=
  match k with
  | Use_Ticket value =>
      ∃ t, sv_tickets s !! value = Some t ∧ pt_actor t = actor ∧ deadline = Some (pt_expires_at t)
  | Use_Attestation name hash =>
      ∃ r, sv_attestations s !! name = Some r ∧ at_actor r = actor ∧ at_hash r = hash ∧
        at_expires_at r = deadline
  end.

(** What a step may do to the live credentials. *)
Definition uses_once (s : AuthenticationService) (evs : list service_event)
    (s' : AuthenticationService) : Prop :=
  (∀ k actor deadline, live s' k actor deadline →
     evs = [Created k actor deadline] ∨ live s k actor deadline ∧ Forall (λ e, about k e = false) evs) ∧
  (∀ k actor now, Used k actor now ∈ evs →
     evs = [Used k actor now] ∧ ∃ deadline, live s k actor deadline ∧ unexpired deadline now = true).

(** Steps that only drop credentials. *)
Definition drops (s s' : AuthenticationService) : Prop :=
  sv_tickets s' ⊆ sv_tickets s ∧ sv_attestations s' ⊆ sv_attestations s.
Lemma drops_live s s' k actor deadline : drops s s' → live s' k actor deadline → live s k actor deadline.
Proof.
  intros [Ht Ha]. destruct k; cbn.
  - intros (t & Hl & ?). exists t. split; [|done]. by eapply lookup_weaken.
  - intros (r & Hl & ?). exists r. split; [|done]. by eapply lookup_weaken.
Qed.
Definition no_use (e : service_event) : Prop :=
  match e with Created _ _ _ | Used _ _ _ => False | _ => True end.
Lemma drops_no_use s evs s' : drops s s' → Forall no_use evs → uses_once s evs s'.
Proof.
  intros Hd Hevs. split.
  - intros k actor deadline Hl. right. split; [by eapply drops_live|].
    eapply Forall_impl; [exact Hevs|]. by intros [].
  - intros k actor now Hin. exfalso. eapply Forall_forall in Hevs; [|exact Hin]. done.
Qed.
Lemma drops_uses_once s s' : drops s s' → uses_once s [] s'.
Proof. intros Hd. by apply drops_no_use. Qed.
Lemma drops_refl s : drops s s.
Proof. done. Qed.
Lemma drops_trans s1 s2 s3 : drops s1 s2 → drops s2 s3 → drops s1 s3.
Proof. intros [? ?] [? ?]. split; by etrans. Qed.
Lemma drops_retain_tickets s instant : drops s (retain_tickets s instant).
Proof. destruct s. split; cbn; [apply map_filter_subseteq|done]. Qed.
Lemma drops_retain_attestations s now : drops s (retain_attestations s now).
Proof. destruct s. split; cbn; [done|apply map_filter_subseteq]. Qed.

Lemma commit_tokens_credentials s f tokens s' :
  commit_tokens s f tokens = Ok s' →
  s' = set_tokens (if sv_token_path s then set_token_file s (Some tokens) else s) tokens.
Proof.
  unfold commit_tokens, persist_tokens. destruct s as [a b c d [] f' g h]; cbn; intros Hc; res_inv.
  - by simplify_eq.
  - done.
Qed.
Lemma drops_commit s f tokens s' : commit_tokens s f tokens = Ok s' → drops s s'.
Proof. intros ->%commit_tokens_credentials. by destruct s as [a b c d [] f' g h]. Qed.

Lemma drops_create_token s id subject expires random f :
  drops s (create_token s id subject expires random f).1.
Proof.
  unfold create_token. destruct (_ ≫= _) as [[s' secret]|e] eqn:Hr; [|done]. cbn.
  apply bind_Ok in Hr as ([replacement secret'] & _ & Hr). res_inv. simplify_eq. by eapply drops_commit.
Qed.
Lemma drops_rotate s id expires random f : drops s (rotate_token_record s id expires random f).1.
Proof.
  unfold rotate_token_record. destruct (_ ≫= _) as [[s' secret]|e] eqn:Hr; [|done]. cbn.
  apply bind_Ok in Hr as ([replacement secret'] & _ & Hr). res_inv. simplify_eq. by eapply drops_commit.
Qed.
Lemma drops_revoke s id f : drops s (revoke_token_record s id f).1.
Proof.
  unfold revoke_token_record. destruct (TokenStore_revoke _ _) as [replacement []]; cbn; [|done].
  destruct (commit_tokens _ _ _) eqn:Hc; cbn; [|done]. by eapply drops_commit.
Qed.
Lemma drops_notify s id : drops s (notify_sessions s id).
Proof. unfold notify_sessions. case_match; [|done]. by destruct s. Qed.
Lemma drops_session_channel s id : drops s (session_channel s id).1.
Proof. unfold session_channel. case_match; [done|]. by destruct s. Qed.
Lemma drops_bearer s credential now : drops s (authenticate_bearer s credential now).1.
Proof.
  unfold authenticate_bearer. destruct (TokenStore_authenticate _ _ _) as [t|]; [|done].
  pose proof (drops_session_channel s (tk_id t)) as Hd. by destruct (session_channel s (tk_id t)).
Qed.
Lemma drops_permits s provider g : drops s (set_permits s provider g).
Proof. by destruct s. Qed.
Lemma drops_external s provider p answer : drops s (external_session s provider p answer).1.
Proof.
  unfold external_session.
  destruct answer as [[identity|]|e]; [destruct (PrincipalId_new _ _)|..]; cbn;
    try apply drops_permits. by destruct s.
Qed.
Lemma drops_end_lease s provider channel ended : drops s (end_lease s provider channel ended).
Proof. unfold end_lease. eapply drops_trans; [|apply drops_permits]. destruct ended; by destruct s. Qed.

Lemma drops_list_attestations s actor now : drops s (list_attestations s actor now).1.
Proof. apply drops_retain_attestations. Qed.
Lemma drops_revoke_attestation s name actor : drops s (revoke_attestation s name actor).1.
Proof.
  unfold revoke_attestation. repeat case_match; try done. destruct s. split; [done|].
  cbn. apply delete_subseteq.
Qed.
Lemma drops_prune s instant now : drops s (prune_expired s instant now).
Proof. eapply drops_trans; [apply drops_retain_tickets|apply drops_retain_attestations]. Qed.
Lemma drops_acquire s provider s' p : acquire_session s provider = Some (s', p) → drops s s'.
Proof.
  unfold acquire_session. destruct (sv_providers s !! provider); [|done]. cbn.
  case_match; [|done]. intros [= <- _]. apply drops_permits.
Qed.
Lemma drops_take_ticket s ticket actor instant : drops s (take_ticket s ticket actor instant).1.
Proof.
  unfold take_ticket. case_match; [done|]. eapply drops_trans; [apply (drops_retain_tickets s instant)|].
  generalize (retain_tickets s instant). intros s1. repeat case_match; try done. destruct s1.
  split; [|done]. cbn. apply delete_subseteq.
Qed.
Lemma drops_take_attestation s name credential actor now :
  drops s (take_attestation s name credential actor now).1.
Proof.
  unfold take_attestation. repeat case_match; try done. destruct s. split; [done|].
  cbn. apply delete_subseteq.
Qed.

Lemma sv_attestations_set s v : sv_attestations (set_attestations s v) = v.
Proof. by destruct s. Qed.
Lemma sv_tickets_set s v : sv_tickets (set_tickets s v) = v.
Proof. by destruct s. Qed.
Lemma sv_tickets_set_attestations s v : sv_tickets (set_attestations s v) = sv_tickets s.
Proof. by destruct s. Qed.
Lemma sv_attestations_set_tickets s v : sv_attestations (set_tickets s v) = sv_attestations s.
Proof. by destruct s. Qed.

Lemma create_attestation_once s name actor fa fc subject groups expires asked now random s' r :
  create_attestation_with_frontend s name actor fa fc subject groups expires asked now random = (s', r) →
  uses_once s
    (match r with
     | Ok (_, secret) =>
         [Created (Use_Attestation name (token_hash (Credential_expose secret))) actor expires]
     | Err _ => []
     end) s'.
Proof.
  unfold create_attestation_with_frontend.
  destruct (_ ≫= _) as [verified|e]; [|intros [= <- <-]; by apply drops_uses_once].
  pose proof (drops_retain_attestations s now) as Hd. revert Hd.
  generalize (retain_attestations s now). intros s1 Hd.
  destruct (_ ≫= _) as [secret|e]; intros [= <- <-]; [|by apply drops_uses_once].
  split; [|by intros k a n ?%list_elem_of_singleton].
  intros k a deadline Hl. destruct k as [value|name' hash]; cbn in Hl.
  - rewrite sv_tickets_set_attestations in Hl. right. split; [|by repeat constructor].
    by eapply (drops_live s s1 (Use_Ticket value)).
  - destruct Hl as (record & Hrec & <- & <- & <-). rewrite sv_attestations_set in Hrec.
    apply lookup_insert_Some in Hrec as [[<- <-]|[Hne Hrec]]; [by left|]. right.
    split; [eapply drops_live; [exact Hd|]; by exists record|].
    repeat constructor. cbn. apply bool_decide_eq_false. congruence.
Qed.

Lemma unique_value_Some tickets random n value :
  Forall ticket_sized random → unique_value tickets random n = Ok (Some value) →
  tickets !! value = None ∧ length value = EVENT_TICKET_BYTES.
Proof.
  revert n. induction random as [|b random IH]; intros n Hr; destruct n; try done.
  apply Forall_cons in Hr as [Hb Hr]. cbn. destruct b as [v|e]; [|done]. cbn.
  case_bool_decide; [|by apply IH]. intros [= ->]. split; [done|by apply Hb].
Qed.
Lemma ticket_of_value value :
  length value = EVENT_TICKET_BYTES → ∃ t, EventTicket_new value = Ok t ∧ EventTicket_expose t = value.
Proof.
  intros Hl. exists (EventTicket_mk (Credential_mk value)). unfold EventTicket_new, Credential_new.
  destruct value as [|x value]; [done|].
  destruct (Z.ltb_spec MAX_CREDENTIAL_BYTES (Z.of_nat (length (x :: value)))) as [Hlt|_]; [|done].
  exfalso. unfold MAX_CREDENTIAL_BYTES, EVENT_TICKET_BYTES in *. lia.
Qed.

Lemma mint_Ok s actor scope subject fa c fc expiry rx instant random s' ticket :
  Forall ticket_sized random →
  mint_with_frontend s actor scope subject fa c fc expiry rx instant random = (s', Ok ticket) →
  let s1 := retain_tickets s instant in
  size (sv_tickets s1) < MAX_EVENT_TICKETS ∧ tickets_of s1 actor < MAX_EVENT_TICKETS_PER_ACTOR ∧
  sv_tickets s1 !! EventTicket_expose ticket = None ∧
  s' = set_tickets s1 (<[EventTicket_expose ticket := {|
         pt_actor := actor; pt_expires_at := (instant + EVENT_TICKET_LIFETIME)%Z; pt_scope := scope;
         pt_subject := subject; pt_frontend_actor := fa; pt_credential_id := c;
         pt_frontend_credential_id := fc; pt_authentication_expiry := expiry; pt_revocation := rx |}]>
         (sv_tickets s1)).
Proof.
  intros Hr. unfold mint_with_frontend. generalize (retain_tickets s instant). intros s1.
  destruct (_ ≫= _) as [value|e] eqn:Hc; [|by intros [=]].
  apply bind_Ok in Hc as ([] & H1%ensure_Ok%Nat.ltb_lt & Hc).
  apply bind_Ok in Hc as ([] & H2%ensure_Ok%Nat.ltb_lt & Hc).
  apply bind_Ok in Hc as (v & Hv & ->%ok_or_Ok). destruct (unique_value_Some _ _ _ _ Hr Hv) as [Hn Hl].
  destruct (ticket_of_value value Hl) as (t & Ht & <-). rewrite Ht. cbn. intros [= <- <-]. done.
Qed.
Lemma mint_Err s actor scope subject fa c fc expiry rx instant random s' e :
  Forall ticket_sized random →
  mint_with_frontend s actor scope subject fa c fc expiry rx instant random = (s', Err e) →
  s' = retain_tickets s instant.
Proof.
  intros Hr. unfold mint_with_frontend. generalize (retain_tickets s instant). intros s1.
  destruct (_ ≫= _) as [value|e'] eqn:Hc; [|by intros [= <-]].
  apply bind_Ok in Hc as ([] & _ & Hc). apply bind_Ok in Hc as ([] & _ & Hc).
  apply bind_Ok in Hc as (v & Hv & ->%ok_or_Ok). destruct (unique_value_Some _ _ _ _ Hr Hv) as [Hn Hl].
  destruct (ticket_of_value value Hl) as (t & Ht & _). rewrite Ht. by intros [=].
Qed.

Lemma mint_once s actor scope subject fa c fc expiry rx instant random s' r :
  Forall ticket_sized random →
  mint_with_frontend s actor scope subject fa c fc expiry rx instant random = (s', r) →
  uses_once s
    (match r with
     | Ok ticket => [Created (Use_Ticket (EventTicket_expose ticket)) actor
                       (Some (instant + EVENT_TICKET_LIFETIME)%Z)]
     | Err _ => []
     end) s'.
Proof.
  intros Hr Hm. destruct r as [ticket|e].
  2: { apply mint_Err in Hm as ->; [|done]. apply drops_uses_once, drops_retain_tickets. }
  apply mint_Ok in Hm as (_ & _ & _ & ->); [|done].
  pose proof (drops_retain_tickets s instant) as Hd. revert Hd.
  generalize (retain_tickets s instant). intros s1 Hd.
  split; [|by intros k a n ?%list_elem_of_singleton].
  intros k a deadline Hl. destruct k as [value|name hash]; cbn in Hl.
  - destruct Hl as (t & Ht & <- & ->). rewrite sv_tickets_set in Ht.
    apply lookup_insert_Some in Ht as [[<- <-]|[Hne Ht]]; [by left|]. right.
    split; [eapply drops_live; [exact Hd|]; by exists t|].
    repeat constructor. cbn. apply bool_decide_eq_false. congruence.
  - rewrite sv_attestations_set_tickets in Hl. right. split; [|by repeat constructor].
    by eapply (drops_live s s1 (Use_Attestation name hash)).
Qed.

Lemma take_ticket_once s ticket actor instant s' r :
  take_ticket s ticket actor instant = (s', r) →
  uses_once s
    (match r with
     | Some _ => [Used (Use_Ticket (EventTicket_expose ticket)) actor instant]
     | None => []
     end) s'.
Proof.
  unfold take_ticket. case_match; [intros [= <- <-]; by apply drops_uses_once|].
  pose proof (drops_retain_tickets s instant) as Hd. revert Hd.
  generalize (retain_tickets s instant). intros s1 Hd.
  destruct (sv_tickets s1 !! _) as [t|] eqn:Ht; [|intros [= <- <-]; by apply drops_uses_once].
  case_match eqn:Hok; intros [= <- <-]; [|by apply drops_uses_once].
  apply andb_true_iff in Hok as [<-%bool_decide_eq_true Hlt].
  split.
  - intros k a deadline Hl. right. destruct k as [value|name hash]; cbn in Hl.
    + destruct Hl as (t' & Ht' & <- & ->). rewrite sv_tickets_set in Ht'.
      apply lookup_delete_Some in Ht' as [Hne Ht'].
      split; [eapply drops_live; [exact Hd|]; by exists t'|].
      repeat constructor. cbn. apply bool_decide_eq_false. congruence.
    + rewrite sv_attestations_set_tickets in Hl. split; [|by repeat constructor].
      by eapply (drops_live s s1 (Use_Attestation name hash)).
  - intros k a n [= -> -> ->]%list_elem_of_singleton. split; [done|].
    exists (Some (pt_expires_at t)). split; [|done]. eapply drops_live; [exact Hd|]. by exists t.
Qed.

Lemma take_attestation_once s name credential actor now s' r :
  take_attestation s name credential actor now = (s', r) →
  uses_once s
    (match r with
     | Some _ => [Used (Use_Attestation name (token_hash (Credential_expose credential))) actor now]
     | None => []
     end) s'.
Proof.
  unfold take_attestation.
  destruct (sv_attestations s !! name) as [record|] eqn:Hrec; [|intros [= <- <-]; by apply drops_uses_once].
  destruct (attestation_valid _ _ _ _ _) eqn:Hok; intros [= <- <-]; [|by apply drops_uses_once].
  apply andb_true_iff in Hok as [[[<-%bool_decide_eq_true Hexp]%andb_true_iff _]%andb_true_iff
    <-%bool_decide_eq_true].
  split.
  - intros k a deadline Hl. right. destruct k as [value|name' hash]; cbn in Hl.
    + rewrite sv_tickets_set_attestations in Hl. split; [done|by repeat constructor].
    + destruct Hl as (r & Hr & <- & <- & <-). rewrite sv_attestations_set in Hr.
      apply lookup_delete_Some in Hr as [Hne Hr]. split; [by exists r|].
      repeat constructor. cbn. apply bool_decide_eq_false. congruence.
  - intros k a n [= -> -> ->]%list_elem_of_singleton. split; [done|].
    exists (at_expires_at record). split; [|done]. by exists record.
Qed.

Lemma service_step_drops s evs s' :
  service_step s evs s' →
  drops s s' ∧ Forall no_use evs ∨ uses_once s evs s'.
Proof.
  destruct 1; eauto 6 using create_attestation_once, mint_once, take_ticket_once,
    take_attestation_once, drops_create_token, drops_notify, drops_external, drops_end_lease,
    drops_list_attestations, drops_revoke_attestation, drops_prune, drops_acquire; left.
  - pose proof (drops_revoke s id f) as Hd. rewrite H0 in Hd. split; [done|].
    destruct r as [[]|]; repeat constructor.
  - pose proof (drops_rotate s id expires random f) as Hd. rewrite H0 in Hd. split; [done|].
    destruct r; repeat constructor.
  - split; [apply drops_notify|repeat constructor].
  - pose proof (drops_bearer s credential now) as Hd. rewrite H0 in Hd. split; [done|].
    unfold opened. repeat case_match; repeat constructor.
Qed.
Lemma service_step_once s evs s' : service_step s evs s' → uses_once s evs s'.
Proof. intros [[Hd Hevs]|Hu]%service_step_drops; [by apply drops_no_use|done]. Qed.

(** A live credential was created once and not touched since. *)
Lemma service_run_live s tr s' k actor deadline :
  service_run s tr s' → (∀ k actor deadline, ¬ live s k actor deadline) → live s' k actor deadline →
  ∃ before after, tr = before ++ Created k actor deadline :: after ∧
    Forall (λ e, about k e = false) after.
Proof.
  intros Hrun Hnone. revert k actor deadline.
  induction Hrun as [|tr s1 evs s2 Hrun IH Hstep]; intros k actor deadline Hl; [by apply Hnone in Hl|].
  apply service_step_once in Hstep as [Hlive _]. destruct (Hlive _ _ _ Hl) as [->|[Hl1 Habout]].
  - exists tr, []. split; [done|constructor].
  - destruct (IH _ _ _ Hl1) as (before & after & -> & Hafter).
    exists before, (after ++ evs). rewrite <-app_assoc. split; [done|]. by apply Forall_app_2.
Qed.

(** *** Capacities *)

Section counting.
Context {K A} `{Countable K} (P : K * A → Prop) `{∀ x, base.Decision (P x)}.
Implicit Types m : gmap K A.

Lemma filter_size_subseteq m m' : m' ⊆ m → size (filter P m') ≤ size (filter P m).
Proof.
  intros Hm. apply map_subseteq_size, map_subseteq_spec. intros k x.
  rewrite !map_lookup_filter_Some. intros [Hk HP]. split; [|done]. by eapply lookup_weaken.
Qed.
Lemma filter_size_insert m k x :
  m !! k = None →
  size (filter P (<[k := x]> m)) = (if decide (P (k, x)) then 1 else 0) + size (filter P m).
Proof.
  intros Hk. rewrite map_filter_insert. case_decide as HP.
  - rewrite map_size_insert_None; [done|]. apply map_lookup_filter_None. by left.
  - by rewrite delete_id.
Qed.
End counting.

Definition capacities (s : AuthenticationService) : Prop :=
  size (sv_tickets s) ≤ MAX_EVENT_TICKETS ∧
  size (sv_attestations s) ≤ MAX_ATTESTATIONS ∧
  ∀ actor, tickets_of s actor ≤ MAX_EVENT_TICKETS_PER_ACTOR ∧
           attestations_of s actor ≤ MAX_ATTESTATIONS_PER_ACTOR.

Lemma capacities_drops s s' : drops s s' → capacities s → capacities s'.
Proof.
  intros [Ht Ha] (H1 & H2 & H3). split_and!.
  - etrans; [by apply map_subseteq_size|done].
  - etrans; [by apply map_subseteq_size|done].
  - intros actor. destruct (H3 actor). split; (etrans; [by apply filter_size_subseteq|done]).
Qed.

Lemma capacities_ticket s value t :
  sv_tickets s !! value = None → size (sv_tickets s) < MAX_EVENT_TICKETS →
  tickets_of s (pt_actor t) < MAX_EVENT_TICKETS_PER_ACTOR → capacities s →
  capacities (set_tickets s (<[value := t]> (sv_tickets s))).
Proof.
  intros Hn H1 H2 (_ & Ha & Hp). unfold capacities, tickets_of, attestations_of in *.
  rewrite sv_tickets_set, sv_attestations_set_tickets. split_and!; [|done|].
  - rewrite map_size_insert_None by done. lia.
  - intros actor. destruct (Hp actor). split; [|done]. rewrite filter_size_insert by done.
    case_decide as Hk; [|done]. cbn in Hk. rewrite Hk in H2. lia.
Qed.
Lemma capacities_attestation s name r :
  sv_attestations s !! name = None → size (sv_attestations s) < MAX_ATTESTATIONS →
  attestations_of s (at_actor r) < MAX_ATTESTATIONS_PER_ACTOR → capacities s →
  capacities (set_attestations s (<[name := r]> (sv_attestations s))).
Proof.
  intros Hn H1 H2 (Ht & _ & Hp). unfold capacities, tickets_of, attestations_of in *.
  rewrite sv_attestations_set, sv_tickets_set_attestations. split_and!; [done| |].
  - rewrite map_size_insert_None by done. lia.
  - intros actor. destruct (Hp actor). split; [done|]. rewrite filter_size_insert by done.
    case_decide as Hk; [|done]. cbn in Hk. rewrite Hk in H2. lia.
Qed.

Lemma create_attestation_Ok s name actor fa fc subject groups expires asked now random s' r :
  create_attestation_with_frontend s name actor fa fc subject groups expires asked now random = (s', Ok r) →
  let s1 := retain_attestations s now in
  sv_attestations s1 !! name = None ∧ size (sv_attestations s1) < MAX_ATTESTATIONS ∧
  attestations_of s1 actor < MAX_ATTESTATIONS_PER_ACTOR ∧
  ∃ record, s' = set_attestations s1 (<[name := record]> (sv_attestations s1)) ∧
    at_actor record = actor ∧ at_expires_at record = expires ∧ r.1 = attestation_metadata name record ∧
    at_hash record = token_hash (Credential_expose r.2) ∧ at_frontend_credential_id record = fc.
Proof.
  unfold create_attestation_with_frontend. destruct (_ ≫= _) as [verified|e]; [|done].
  generalize (retain_attestations s now). intros s1.
  destruct (_ ≫= _) as [secret|e] eqn:Hr; [|done]. intros [= <- <-].
  apply bind_Ok in Hr as ([] & H1%ensure_Ok%bool_decide_eq_true & Hr).
  apply bind_Ok in Hr as ([] & H2%ensure_Ok%Nat.ltb_lt & Hr).
  apply bind_Ok in Hr as ([] & H3%ensure_Ok%Nat.ltb_lt & Hr).
  split_and!; [done..|]. eexists. split; [done|]. done.
Qed.
Lemma create_attestation_Err s name actor fa fc subject groups expires asked now random s' e :
  create_attestation_with_frontend s name actor fa fc subject groups expires asked now random = (s', Err e) →
  drops s s'.
Proof.
  unfold create_attestation_with_frontend.
  destruct (_ ≫= _) as [verified|e']; [|by intros [= <-]].
  pose proof (drops_retain_attestations s now) as Hd. revert Hd.
  generalize (retain_attestations s now). intros s1 Hd. destruct (_ ≫= _); by intros [= <-].
Qed.

Lemma service_step_capacities s evs s' : service_step s evs s' → capacities s → capacities s'.
Proof.
  intros Hstep Hc. assert (drops s s' → capacities s') as Hd by (intros; by eapply capacities_drops).
  destruct Hstep; eauto using drops_create_token, drops_notify, drops_external, drops_end_lease,
    drops_list_attestations, drops_revoke_attestation, drops_prune, drops_acquire.
  - apply Hd. pose proof (drops_revoke s id f) as Hdrop. by rewrite H0 in Hdrop.
  - apply Hd. pose proof (drops_rotate s id expires random f) as Hdrop. by rewrite H0 in Hdrop.
  - destruct r as [r|e]; [|eapply Hd, create_attestation_Err; eassumption].
    eapply create_attestation_Ok in H0 as (Hn & H1 & H2 & record & -> & <- & _).
    apply capacities_attestation; [done..|]. eapply capacities_drops; [apply drops_retain_attestations|done].
  - destruct r as [ticket|e].
    + apply mint_Ok in H1 as (H1 & H2 & Hn & ->); [|done]. apply capacities_ticket; [done..|].
      eapply capacities_drops; [apply drops_retain_tickets|done].
    + apply mint_Err in H1 as ->; [|done]. apply Hd, drops_retain_tickets.
  - apply Hd. pose proof (drops_take_ticket s ticket actor instant) as Hdrop. by rewrite H0 in Hdrop.
  - apply Hd. pose proof (drops_bearer s credential now) as Hdrop. by rewrite H0 in Hdrop.
  - apply Hd. pose proof (drops_take_attestation s name credential actor now) as Hdrop.
    by rewrite H0 in Hdrop.
Qed.

(** *** Revocation *)

Definition tokens_ok (s : AuthenticationService) : Prop :=
  (∀ id r, sv_tokens s !! id = Some r → tk_id r = id) ∧
  (∀ id c, sv_token_sessions s !! id = Some c → c < length (sv_channels s)).

(** The record under which a session was opened still stands. *)
Definition stands (s : AuthenticationService) (id : string) (hash : list Z) : Prop :=
  ∃ r, sv_tokens s !! id = Some r ∧ tk_hash r = hash ∧ tk_revoked r = false.

(** What a step does to tokens and to the channels of their sessions. *)
Record token_effect (s : AuthenticationService) (evs : list service_event) (s' : AuthenticationService) :
    Prop := {
  te_ok : tokens_ok s';
  te_sessions : sv_token_sessions s ⊆ sv_token_sessions s';
  te_counts c : sent_count s c ≤ sent_count s' c;
  te_tokens id r : sv_tokens s !! id = Some r → sv_tokens s' !! id = Some r ∨ evs = [Withdrawn id];
  te_announced id c : Announced id ∈ evs → sv_token_sessions s !! id = Some c →
    sent_count s c < sent_count s' c;
  te_opened id hash rx : Opened id hash rx ∈ evs →
    evs = [Opened id hash rx] ∧ stands s' id hash ∧
    sv_token_sessions s' !! id = Some (rx_channel rx) ∧ rx_seen rx ≤ sent_count s' (rx_channel rx)
}.

Definition same_tokens (s s' : AuthenticationService) : Prop :=
  sv_tokens s' = sv_tokens s ∧ sv_token_sessions s' = sv_token_sessions s ∧
  sv_channels s' = sv_channels s.
Definition no_session (e : service_event) : Prop :=
  match e with Created _ _ _ | Used _ _ _ => True | _ => False end.

Lemma same_tokens_effect s evs s' :
  tokens_ok s → same_tokens s s' → Forall no_session evs → token_effect s evs s'.
Proof.
  intros [Hid Hch] (Ht & Hs & Hc) Hevs. unfold sent_count.
  assert (∀ e, e ∈ evs → no_session e) as He by by apply Forall_forall.
  constructor; unfold sent_count; rewrite ?Hc, ?Hs, ?Ht; auto.
  - split; rewrite ?Ht, ?Hs, ?Hc; done.
  - by intros id c ?%He.
  - by intros id hash rx ?%He.
Qed.

Lemma same_tokens_trans s1 s2 s3 : same_tokens s1 s2 → same_tokens s2 s3 → same_tokens s1 s3.
Proof. intros (? & ? & ?) (? & ? & ?). split_and!; congruence. Qed.
Lemma same_retain_tickets s instant : same_tokens s (retain_tickets s instant).
Proof. by destruct s. Qed.
Lemma same_retain_attestations s now : same_tokens s (retain_attestations s now).
Proof. by destruct s. Qed.
Lemma same_set_tickets s v : same_tokens s (set_tickets s v).
Proof. by destruct s. Qed.
Lemma same_set_attestations s v : same_tokens s (set_attestations s v).
Proof. by destruct s. Qed.
Lemma same_permits s provider g : same_tokens s (set_permits s provider g).
Proof. by destruct s. Qed.
Lemma same_create_attestation s name actor fa fc subject groups expires asked now random :
  same_tokens s
    (create_attestation_with_frontend s name actor fa fc subject groups expires asked now random).1.
Proof.
  unfold create_attestation_with_frontend. destruct (_ ≫= _); [|done].
  eapply same_tokens_trans; [apply (same_retain_attestations s now)|].
  generalize (retain_attestations s now). intros s1. destruct (_ ≫= _); [|done]. apply same_set_attestations.
Qed.
Lemma same_mint s actor scope subject fa c fc expiry rx instant random :
  same_tokens s (mint_with_frontend s actor scope subject fa c fc expiry rx instant random).1.
Proof.
  unfold mint_with_frontend. eapply same_tokens_trans; [apply (same_retain_tickets s instant)|].
  generalize (retain_tickets s instant). intros s1. destruct (_ ≫= _); [|done]. apply same_set_tickets.
Qed.
Lemma same_take_ticket s ticket actor instant : same_tokens s (take_ticket s ticket actor instant).1.
Proof.
  unfold take_ticket. case_match; [done|]. eapply same_tokens_trans; [apply (same_retain_tickets s instant)|].
  generalize (retain_tickets s instant). intros s1. repeat case_match; try done. apply same_set_tickets.
Qed.
Lemma same_take_attestation s name credential actor now :
  same_tokens s (take_attestation s name credential actor now).1.
Proof. unfold take_attestation. repeat case_match; try done. apply same_set_attestations. Qed.
Lemma same_revoke_attestation s name actor : same_tokens s (revoke_attestation s name actor).1.
Proof. unfold revoke_attestation. repeat case_match; try done. apply same_set_attestations. Qed.
Lemma same_acquire s provider s' p : acquire_session s provider = Some (s', p) → same_tokens s s'.
Proof.
  unfold acquire_session. destruct (sv_providers s !! provider); [|done]. cbn.
  case_match; [|done]. intros [= <- _]. apply same_permits.
Qed.

(** Committing a store that differs in one record. *)
Lemma commit_effect s f tokens s' evs id :
  tokens_ok s → commit_tokens s f tokens = Ok s' →
  (∀ id' r, tokens !! id' = Some r → tk_id r = id') →
  (∀ id', id' ≠ id → tokens !! id' = sv_tokens s !! id') →
  (sv_tokens s !! id = None ∧ evs = [] ∨ evs = [Withdrawn id]) →
  token_effect s evs s'.
Proof.
  intros [_ Hch] ->%commit_tokens_credentials Htok Hother Hevs.
  assert (∀ e, e ∈ evs → e = Withdrawn id) as He.
  { destruct Hevs as [[_ ->]| ->]; intros e; [by intros ?%elem_of_nil|by intros ?%list_elem_of_singleton]. }
  set (s' := set_tokens _ tokens).
  assert (sv_tokens s' = tokens ∧ sv_token_sessions s' = sv_token_sessions s ∧
    sv_channels s' = sv_channels s) as (Ht & Hs & Hc).
  { unfold s'. by destruct s as [a b c d [] f' g h]. }
  constructor; unfold sent_count; rewrite ?Hc, ?Hs, ?Ht; auto.
  - split; rewrite ?Ht, ?Hs, ?Hc; done.
  - intros id' r Hr. destruct (decide (id' = id)) as [->|Hne].
    + destruct Hevs as [[Hn _]| ->]; [congruence|by right].
    + left. by rewrite Hother.
  - intros id' c ?%He. done.
  - intros id' h rx ?%He. done.
Qed.

Lemma tokens_insert_ok (tokens : TokenStore) id r :
  (∀ id r, tokens !! id = Some r → tk_id r = id) → tk_id r = id →
  ∀ id' r', <[id := r]> tokens !! id' = Some r' → tk_id r' = id'.
Proof. intros Htok Hr id' r' [[<- <-]|[_ Hl]]%lookup_insert_Some; auto. Qed.

Lemma create_token_effect s id subject expires random f :
  tokens_ok s → token_effect s [] (create_token s id subject expires random f).1.
Proof.
  intros Hok. unfold create_token. destruct (_ ≫= _) as [[s' secret]|e] eqn:Hr;
    [|by apply same_tokens_effect].
  apply bind_Ok in Hr as ([replacement secret'] & Hcreate & Hr).
  apply bind_Ok in Hr as (s1 & Hcommit & [= -> ->]). cbn. unfold TokenStore_create in Hcreate.
  apply bind_Ok in Hcreate as ([] & _ & Hcreate).
  apply bind_Ok in Hcreate as ([] & Hnone%ensure_Ok%bool_decide_eq_true & Hcreate).
  apply bind_Ok in Hcreate as (c & _ & [= <- _]).
  eapply (commit_effect _ _ _ _ _ id); [done|done| | |by left].
  - apply tokens_insert_ok; [apply Hok|done].
  - intros id' Hne. by rewrite lookup_insert_ne.
Qed.

Lemma revoke_effect s id f s' r :
  tokens_ok s → revoke_token_record s id f = (s', r) →
  token_effect s (match r with Ok true => [Withdrawn id] | _ => [] end) s'.
Proof.
  intros Hok. unfold revoke_token_record, TokenStore_revoke.
  destruct (sv_tokens s !! id) as [record|] eqn:Hrec; [|intros [= <- <-]; by apply same_tokens_effect].
  destruct (tk_revoked record); cbn; [intros [= <- <-]; by apply same_tokens_effect|].
  destruct (commit_tokens _ _ _) as [s1|e] eqn:Hcommit; intros [= <- <-]; [|by apply same_tokens_effect].
  eapply (commit_effect _ _ _ _ _ id); [done|done| | |by right].
  - apply tokens_insert_ok; [apply Hok|]. cbn. by eapply (proj1 Hok).
  - intros id' Hne. by rewrite lookup_insert_ne.
Qed.

Lemma metadata_of_Ok (tokens : TokenStore) id r message :
  tokens !! id = Some r → tk_id r = id → is_Some (match metadata_of tokens id message with Ok m => Some m | Err _ => None end).
Proof.
  intros Hr Hid. unfold metadata_of, TokenStore_metadata.
  destruct (List.find _ _) as [m|] eqn:Hf; [by eexists|]. exfalso.
  eapply List.find_none with (x := token_metadata r) in Hf.
  - apply bool_decide_eq_false in Hf. done.
  - apply list_elem_of_In. rewrite merge_sort_Permutation. apply list_elem_of_fmap_2.
    apply list_elem_of_fmap. exists (id, r). split; [done|]. by apply elem_of_map_to_list.
Qed.

Lemma rotate_effect s id expires random f s' r :
  tokens_ok s → rotate_token_record s id expires random f = (s', r) →
  token_effect s (match r with Ok _ => [Withdrawn id] | Err _ => [] end) s'.
Proof.
  intros Hok. unfold rotate_token_record.
  destruct (_ ≫= _) as [[s1 secret]|e] eqn:Hr; [|intros [= <- <-]; by apply same_tokens_effect].
  apply bind_Ok in Hr as ([replacement secret'] & Hrotate & Hr).
  apply bind_Ok in Hr as (s2 & Hcommit & [= -> ->]). unfold TokenStore_rotate in Hrotate.
  apply bind_Ok in Hrotate as (record & Hrec%ok_or_Ok & Hrotate).
  apply bind_Ok in Hrotate as (c & _ & [= <- _]).
  assert (tk_id record = id) as Hid by by eapply (proj1 Hok).
  pose proof (commit_tokens_credentials _ _ _ _ Hcommit) as Hs1.
  assert (sv_tokens s1 !! id = Some {| tk_id := tk_id record; tk_subject := tk_subject record;
    tk_hash := token_hash (Credential_expose c); tk_expires_at := expires; tk_revoked := false |}) as Hl.
  { rewrite Hs1. destruct s as [? ? ? ? [] ? ? ?]; apply lookup_insert_eq. }
  destruct (metadata_of_Ok _ _ _ "rotated token record is unavailable" Hl Hid) as [m Hm].
  destruct (metadata_of _ _ _) as [m'|e] eqn:Hmeta in *; [|done].
  intros [= <- <-]. cbn.
  eapply (commit_effect _ _ _ _ _ id); [done|done| | |by right].
  - apply tokens_insert_ok; [apply Hok|done].
  - intros id' Hne. by rewrite lookup_insert_ne.
Qed.

Lemma sent_count_alter s v c c' :
  c < length (sv_channels s) →
  sent_count (set_sessions s v (alter S c (sv_channels s))) c' =
  (if decide (c = c') then 1 else 0) + sent_count s c'.
Proof.
  intros Hc. unfold sent_count. destruct s; cbn in *. case_decide as Heq; [subst c'|].
  - rewrite list_lookup_alter_eq. destruct (lookup_lt_is_Some_2 _ _ Hc) as [x ->]. done.
  - by rewrite list_lookup_alter_ne.
Qed.
Lemma sent_count_alter_le s v c c' :
  sent_count s c' ≤ sent_count (set_sessions s v (alter S c (sv_channels s))) c'.
Proof.
  destruct (decide (c < length (sv_channels s))) as [Hc|Hc]; [rewrite sent_count_alter by done; lia|].
  unfold sent_count. destruct s; cbn in *. destruct (decide (c = c')) as [<-|Hne].
  - rewrite list_lookup_alter_eq. by rewrite (lookup_ge_None_2 _ c) by lia.
  - by rewrite list_lookup_alter_ne.
Qed.

(** A step on the channels alone. *)
Lemma channels_effect s v v' evs :
  tokens_ok s → sv_token_sessions s ⊆ v → length (sv_channels s) ≤ length v' →
  (∀ id c, v !! id = Some c → c < length v') →
  (∀ c, sent_count s c ≤ sent_count (set_sessions s v v') c) →
  (∀ e, e ∈ evs → ∃ id, e = Announced id ∧
     ∀ c, sv_token_sessions s !! id = Some c → sent_count s c < sent_count (set_sessions s v v') c) →
  token_effect s evs (set_sessions s v v').
Proof.
  intros [Hid Hch] Hv Hl Hv' Hcount He. destruct s as [a b c d e f g h]; cbn in *.
  constructor; cbn; auto.
  - by split.
  - intros id x [id' [[= <-] Hx]]%He Hg. by apply Hx.
  - intros id hash rx (id' & ? & _)%He. done.
Qed.

Lemma notify_effect s id : tokens_ok s → token_effect s [Announced id] (notify_sessions s id).
Proof.
  intros Hok. unfold notify_sessions. destruct (sv_token_sessions s !! id) as [c|] eqn:Hc.
  - assert (c < length (sv_channels s)) as Hlt by by eapply (proj2 Hok).
    apply channels_effect; [done|done|by rewrite length_alter| |intros; apply sent_count_alter_le|].
    + intros id' c' Hc'. rewrite length_alter. by eapply Hok.
    + intros e ->%list_elem_of_singleton. exists id. split; [done|]. intros c' Hc'.
      rewrite sent_count_alter by done. rewrite decide_True by congruence. lia.
  - assert (s = set_sessions s (sv_token_sessions s) (sv_channels s)) as Hs by by destruct s.
    rewrite Hs at 2. apply channels_effect; [done|done|done|apply Hok|by rewrite <-Hs|].
    intros e ->%list_elem_of_singleton. exists id. split; [done|]. congruence.
Qed.

Lemma sent_count_app s v c : sent_count s c ≤ sent_count (set_sessions s v (sv_channels s ++ [0])) c.
Proof.
  unfold sent_count. destruct s; cbn. destruct (decide (c < length sv_channels0)) as [Hc|Hc].
  - by rewrite lookup_app_l.
  - rewrite (lookup_ge_None_2 sv_channels0 c) by lia. cbn. lia.
Qed.
Lemma new_channel_effect s : tokens_ok s → token_effect s [] (new_channel s).1.
Proof.
  intros Hok. apply channels_effect; [done|done|rewrite length_app; lia| |intros; apply sent_count_app|].
  - intros id c Hc%(proj2 Hok). rewrite length_app. lia.
  - by intros e ?%elem_of_nil.
Qed.

Lemma find_active tokens presented now r :
  TokenStore_authenticate tokens presented now = Some r →
  (∃ id, tokens !! id = Some r) ∧ token_active r now = true ∧ tk_hash r = token_hash presented.
Proof.
  intros [Hin Hok]%List.find_some. apply list_elem_of_In, list_elem_of_fmap in Hin as ([id r'] & -> & Hin).
  apply andb_true_iff in Hok as [Ha Hh]. apply bool_decide_eq_true in Hh.
  split_and!; [|done|done]. exists id. by apply elem_of_map_to_list.
Qed.

Lemma bearer_effect s credential now s' session :
  tokens_ok s → authenticate_bearer s credential now = (s', session) →
  token_effect s (opened credential session) s'.
Proof.
  intros Hok. unfold authenticate_bearer.
  destruct (TokenStore_authenticate _ _ _) as [token|] eqn:Htok;
    [|intros [= <- <-]; by apply same_tokens_effect].
  apply find_active in Htok as ([id Hid] & Hact & Hhash).
  assert (tk_id token = id) as Heq by by eapply (proj1 Hok). rewrite Heq.
  apply andb_true_iff in Hact as [Hrev%negb_true_iff _].
  assert (∀ s', sv_tokens s' = sv_tokens s → stands s' id (token_hash (Credential_expose credential)))
    as Hst by (intros s1 Hs1; exists token; by rewrite Hs1).
  unfold session_channel. destruct (sv_token_sessions s !! id) as [c|] eqn:Hc; intros [= <- <-];
    unfold opened; cbn.
  - constructor; [done|done|done|by intros; left| |].
    + by intros id' c' ?%list_elem_of_singleton.
    + intros id' h rx [= -> -> ->]%list_elem_of_singleton. split_and!; [done|by apply Hst|done|done].
  - destruct (new_channel_effect s Hok) as [Hok' Hsub Hcount Htok _ _].
    set (s1 := set_sessions s _ _) in *.
    assert (sv_channels s1 = sv_channels s ++ [0] ∧ sv_token_sessions s1 = sv_token_sessions s ∧
      sv_tokens s1 = sv_tokens s) as (Hch & Hss & Hts) by by (unfold s1; destruct s).
    set (s2 := set_sessions s1 _ _).
    assert (sv_channels s2 = sv_channels s1 ∧ sv_token_sessions s2 = <[id := length (sv_channels s)]>
      (sv_token_sessions s1) ∧ sv_tokens s2 = sv_tokens s1) as (Hch2 & Hss2 & Hts2)
      by by (unfold s2; destruct s1).
    constructor.
    + split; rewrite ?Hss2, ?Hch2, ?Hts2; [apply Hok'|].
      intros id' c' [[_ <-]|[_ Hl]]%lookup_insert_Some; [rewrite Hch, length_app; cbn; lia|].
      by eapply (proj2 Hok').
    + rewrite Hss2. etrans; [exact Hsub|]. apply insert_subseteq. by rewrite Hss.
    + intros c'. unfold sent_count. rewrite Hch2. apply Hcount.
    + intros id' r Hr. left. by rewrite Hts2, Hts.
    + by intros id' c' ?%list_elem_of_singleton.
    + intros id' h rx [= -> -> ->]%list_elem_of_singleton. split_and!; [done| |by rewrite Hss2, lookup_insert_eq|done].
      apply Hst. by rewrite Hts2.
Qed.

Lemma external_effect s provider p answer :
  tokens_ok s → token_effect s [] (external_session s provider p answer).1.
Proof.
  intros Hok. unfold external_session.
  destruct answer as [[identity|]|e]; [destruct (PrincipalId_new _ _)|..]; cbn;
    try (by apply same_tokens_effect; [|apply same_permits|]). by apply new_channel_effect.
Qed.
Lemma end_lease_effect s provider channel ended :
  tokens_ok s → token_effect s [] (end_lease s provider channel ended).
Proof.
  intros Hok. unfold end_lease.
  assert (∀ s1, token_effect s [] s1 → token_effect s [] (release_session s1 provider)) as Hrel.
  { intros s1 [[H1 H2] H3 H4 H5 H6 H7]. by destruct s1. }
  apply Hrel. destruct ended; [by apply same_tokens_effect|].
  apply channels_effect; [done|done|by rewrite length_alter| |intros; apply sent_count_alter_le|].
  - intros id c Hc. rewrite length_alter. by eapply (proj2 Hok).
  - by intros e ?%elem_of_nil.
Qed.

Lemma service_step_effect s evs s' : service_step s evs s' → tokens_ok s → token_effect s evs s'.
Proof.
  intros Hstep Hok.
  destruct Hstep; eauto using create_token_effect, revoke_effect, rotate_effect, notify_effect, bearer_effect,
    external_effect, end_lease_effect; apply same_tokens_effect; auto using same_revoke_attestation;
    try (by repeat case_match; repeat constructor).
  - pose proof (same_create_attestation s name actor fa fc subject groups expires asked now random) as Hs.
    by rewrite H0 in Hs.
  - apply same_retain_attestations.
  - pose proof (same_mint s actor scope subject fa c fc expiry rx instant random) as Hs.
    by rewrite H1 in Hs.
  - pose proof (same_take_ticket s ticket actor instant) as Hs. by rewrite H0 in Hs.
  - eapply same_tokens_trans; [apply same_retain_tickets|apply same_retain_attestations].
  - pose proof (same_take_attestation s name credential actor now) as Hs. by rewrite H0 in Hs.
  - by eapply same_acquire.
Qed.

(** A session stands, or is told, or a withdrawal is still to be announced. *)
Definition unannounced (id : string) (evs : list service_event) : Prop :=
  ∃ a b, evs = a ++ Withdrawn id :: b ∧ Announced id ∉ b.

Lemma service_run_sessions s tr s' :
  service_run s tr s' → tokens_ok s →
  tokens_ok s' ∧
  ∀ before id hash rx after, tr = before ++ Opened id hash rx :: after →
    sv_token_sessions s' !! id = Some (rx_channel rx) ∧
    rx_seen rx ≤ sent_count s' (rx_channel rx) ∧
    (stands s' id hash ∨ unannounced id after ∨ notified s' rx = true).
Proof.
  intros Hrun Hok. induction Hrun as [|tr s1 evs s2 Hrun [Hok1 IH] Hstep].
  { split; [done|]. intros before id hash rx after Heq. by destruct before. }
  destruct (service_step_effect _ _ _ Hstep Hok1) as [Hok2 Hsub Hcount Htok Hann Hopen].
  split; [done|].
  assert (∀ id hash rx after, Opened id hash rx :: after = evs →
    sv_token_sessions s2 !! id = Some (rx_channel rx) ∧
    rx_seen rx ≤ sent_count s2 (rx_channel rx) ∧ stands s2 id hash) as Hnew.
  { intros id hash rx after <-. destruct (Hopen id hash rx) as (_ & ? & ? & ?); [left|done]. }
  intros before id hash rx after [(k & -> & Hk)|(k & -> & Hk)]%app_eq_inv.
  2: { destruct (Hopen id hash rx) as (Heq & ? & ? & ?); [rewrite Hk; set_solver|]. auto. }
  destruct k as [|e k]; cbn in Hk; [destruct (Hnew _ _ _ _ Hk) as (? & ? & ?); auto|].
  injection Hk as <- ->. destruct (IH _ _ _ _ _ eq_refl) as (Hses & Hseen & Hcase).
  split_and!; [by eapply lookup_weaken|by etrans|].
  unfold notified in *. specialize (Hcount (rx_channel rx)).
  destruct Hcase as [(r & Hr & Hh & Hrev)|[(a & b & -> & Hb)|Hn%Nat.ltb_lt]];
    [| |right; right; apply Nat.ltb_lt; lia].
  - destruct (Htok _ _ Hr) as [Hr'| ->]; [left; by exists r|].
    right; left. exists k, []. split; [done|]. by intros ?%elem_of_nil.
  - destruct (decide (Announced id ∈ evs)) as [Ha|Ha].
    + right; right. apply Nat.ltb_lt. specialize (Hann id _ Ha Hses). lia.
    + right; left. exists a, (b ++ evs). rewrite <-app_assoc. split; [done|]. set_solver.
Qed.

(** A use in the history: the step that made it. *)
Lemma service_run_used s tr s' before k actor now after :
  service_run s tr s' → tr = before ++ Used k actor now :: after →
  ∃ s1 deadline, service_run s before s1 ∧ live s1 k actor deadline ∧ unexpired deadline now = true.
Proof.
  intros Hrun. revert before after. induction Hrun as [|tr s1 evs s2 Hrun IH Hstep]; intros before after.
  { by destruct before. }
  intros [(l & -> & Hl)|(l & -> & Hl)]%app_eq_inv.
  - destruct l as [|e l]; cbn in Hl; [|injection Hl as <- ->; by eapply IH].
    rewrite app_nil_r in *. apply service_step_once in Hstep as [_ Hu].
    destruct (Hu k actor now) as (_ & deadline & ? & ?); [rewrite <-Hl; left|]. eauto.
  - apply service_step_once in Hstep as [_ Hu].
    destruct (Hu k actor now) as (Heq & deadline & ? & ?); [rewrite Hl; set_solver|].
    rewrite Hl in Heq. destruct l as [|e l]; [|by destruct l].
    rewrite app_nil_r. eauto.
Qed.
End service.

(** ** Claims *)

(** C7: A one-use credential is used once, by whom it was made for, and in time: in every
    life of the service that starts without tickets and attestations, a ticket that is
    consumed or an attestation that is accepted was created for that actor, with a deadline
    that has not passed, and neither created again nor used since. *)
Theorem credentials_used_once `{Digest} s tr s' before k actor now after :
  service_run s tr s' → (∀ k actor deadline, ¬ live s k actor deadline) →
  tr = before ++ Used k actor now :: after →
  ∃ created deadline since, before = created ++ Created k actor deadline :: since ∧
    Forall (λ e, about k e = false) since ∧ unexpired deadline now = true.
Proof.
  intros Hrun Hnone Heq. destruct (service_run_used _ _ _ _ _ _ _ _ Hrun Heq) as (s1 & d & Hr1 & Hl & Hu).
  destruct (service_run_live _ _ _ _ _ _ Hr1 Hnone Hl) as (b & a & -> & Ha). eauto 10.
Qed.

(** C30: The service keeps its capacities: however its operations interleave, there are never
    more tickets or attestations than the global limits, nor more of one actor than the
    limits per actor. *)
Theorem capacities_hold `{Digest} s tr s' : service_run s tr s' → capacities s → capacities s'.
Proof.
  intros Hrun Hc. induction Hrun; [done|]. by eapply service_step_capacities.
Qed.

(** C29: Whoever signed in with a token learns of its end: in every life of the service, a
    session that a bearer credential opened has been notified once the token is revoked or
    rotated, as soon as every such change since has been announced. *)
Theorem withdrawn_token_ends_sessions `{Digest} s tr s' before id hash rx after :
  service_run s tr s' → tokens_ok s → tr = before ++ Opened id hash rx :: after →
  ¬ stands s' id hash →
  (∀ a b, after = a ++ Withdrawn id :: b → Announced id ∈ b) →
  notified s' rx = true.
Proof.
  intros Hrun Hok Heq Hst Hann.
  destruct (service_run_sessions _ _ _ Hrun Hok) as [_ Hs].
  destruct (Hs _ _ _ _ _ Heq) as (_ & _ & [Hs'|[(a & b & Hab & Hb)|Hn]]); [done| |done].
  by apply Hann in Hab.
Qed.

(** An attested session can outlive the token of its front end: when the token is
    revoked between the check of the attestation and the subscription, the session is
    accepted with a receiver that has already passed over the notification. *)
Theorem attested_session_outlives_token `{Digest} s name credential actor now s1 r id f s2 :
  take_attestation s name credential actor now = (s1, Some r) →
  at_frontend_credential_id r = Some id →
  revoke_token s1 id f = (s2, Ok true) →
  (∃ metadata, ss_response (attested_session s2 name r) = Authenticated metadata) ∧
  (∀ rx, ss_revocation (attested_session s2 name r) = Some rx → notified s2 rx = false) ∧
  from_option (λ t, token_active t now) false (sv_tokens s2 !! id) = false.
Proof.
  intros _ Hid Hrev. split; [by eexists|]. split.
  - intros rx. cbn. rewrite Hid. cbn. destruct (sv_token_sessions s2 !! id); [|done].
    intros [= <-]. unfold notified. apply Nat.ltb_irrefl.
  - unfold revoke_token, revoke_token_record, TokenStore_revoke in Hrev.
    destruct (sv_tokens s1 !! id) as [t|] eqn:Ht; [|done].
    destruct (tk_revoked t); [done|]. cbn in Hrev.
    destruct (commit_tokens _ _ _) as [s3|e] eqn:Hc; [|done]. injection Hrev as <-.
    apply commit_tokens_credentials in Hc.
    assert (sv_tokens (notify_sessions s3 id) = sv_tokens s3) as ->.
    { unfold notify_sessions. destruct (sv_token_sessions s3 !! id); [|done]. clear. by destruct s3. }
    rewrite Hc. destruct s1 as [? ? ? ? [] ? ? ?]; cbn in *; by rewrite lookup_insert_eq.
Qed.

(** So can an event session: the ticket of a connection whose token was revoked a moment
    ago carries a receiver that has passed over the notification, and it is accepted. *)
Theorem ticket_outlives_token `{Digest} s id f s1 actor scope subject fa c fc expiry rx instant random
    s2 ticket instant' now' s3 consumed :
  revoke_token s id f = (s1, Ok true) →
  Forall ticket_sized random →
  mint_with_frontend s1 actor scope subject fa c fc expiry (Some (resubscribe s1 rx)) instant random =
    (s2, Ok ticket) →
  consume s2 ticket actor instant' now' = (s3, Some consumed) →
  ∃ rx', ct_revocation consumed = Some rx' ∧ rx_channel rx' = rx_channel rx ∧ notified s3 rx' = false.
Proof.
  intros _ Hsz Hm. pose proof (same_mint s1 actor scope subject fa c fc expiry (Some (resubscribe s1 rx))
    instant random) as Hsame. rewrite Hm in Hsame. cbn in Hsame.
  apply mint_Ok in Hm as (_ & _ & _ & Hs2); [|done].
  unfold consume. pose proof (same_take_ticket s2 ticket actor instant') as Hsame'.
  destruct (take_ticket s2 ticket actor instant') as [s4 [pending|]] eqn:Htake; [|done]. cbn in Hsame'.
  assert (pt_revocation pending = Some (resubscribe s1 rx)) as Hrx.
  { unfold take_ticket in Htake. case_match; [done|].
    destruct (sv_tickets (retain_tickets s2 instant') !! _) as [t|] eqn:Ht; [|done].
    case_match; [|done]. injection Htake as _ <-. rewrite Hs2 in Ht.
    assert (sv_tickets (retain_tickets s2 instant') ⊆ sv_tickets s2) as Hsub by apply drops_retain_tickets.
    rewrite Hs2 in Hsub. eapply lookup_weaken in Ht; [|exact Hsub].
    rewrite sv_tickets_set, lookup_insert_eq in Ht. by injection Ht as <-. }
  intros [= -> Hc]. unfold ticket_revocation in Hc. rewrite Hrx in Hc. injection Hc as <-.
  eexists. split; [reflexivity|]. split; [done|].
  unfold notified, resubscribe, subscribe, sent_count. cbn.
  destruct Hsame as (_ & _ & Hch), Hsame' as (_ & _ & Hch'). rewrite Hch', Hch.
  apply Nat.ltb_irrefl.
Qed.

(** An external session keeps its identity: as long as a lease holds, whatever the
    provider answers, the subject, the groups and the credential are those it started with. *)
Theorem lease_keeps_identity identity rounds identity' :
  lease identity rounds = inr identity' →
  pi_subject identity' = pi_subject identity ∧
  pi_verified_groups identity' = pi_verified_groups identity ∧
  pi_credential_id identity' = pi_credential_id identity ∧
  Forall (λ round, ∃ next, lr_answer round = Ok (Some next) ∧
            (lr_answered round < pi_expires_at next)%Z) rounds.
Proof.
  revert identity. induction rounds as [|round rounds IH]; intros identity; cbn.
  { by intros [= <-]. }
  destruct (lease_round identity round) as [ended|next] eqn:Hr; [done|]. intros Hl.
  unfold lease_round in Hr. do 3 (case_match; [done|]).
  destruct (lr_answer round) as [[next'|]|] eqn:Ha; [|done..].
  case_match eqn:Hsame; [done|]. injection Hr as <-.
  apply orb_false_iff in Hsame as [[[Hs%negb_false_iff Hg%negb_false_iff]%orb_false_iff
    Hc%negb_false_iff]%orb_false_iff He%Z.leb_gt].
  apply bool_decide_eq_true in Hs, Hg, Hc. destruct (IH _ Hl) as (-> & -> & -> & Hall).
  split_and!; [done..|]. constructor; [|done]. eauto.
Qed.

(** ** A life of the service *)

Module Desk.
#[export] Instance digest : Digest := {| sha256 bytes := bytes |}.
Definition file : TokenFile := {|
  tf_directory := Ok tt; tf_payload _ := Ok 100%Z; tf_replace := Ok tt |}.
Definition actor : Peer := Peer_Unix 1000 1000 (Some 42%Z).
Definition operator : PrincipalId := PrincipalId_mk "local" "operator".
Definition secret : list Z := Z.of_nat <$> seq 1 32.
Definition credential : Credential := Credential_mk secret.
Definition created : AuthenticationService :=
  (create_token AuthenticationService_default "desk" operator None (Ok secret) file).1.
Definition signed_in : AuthenticationService * Session := authenticate_bearer created credential 5.
Definition rx : Receiver := {| rx_channel := 0; rx_seen := 0 |}.
Definition revoked : AuthenticationService := (revoke_token_record signed_in.1 "desk" file).1.
Definition announced : AuthenticationService := notify_sessions revoked "desk".

(** The ticket of the session, and an attestation by it. *)
Definition value : list Z := Z.of_nat <$> seq 101 32.
Definition ticket : EventTicket := EventTicket_mk (Credential_mk value).
Definition minted : AuthenticationService := (mint_with_frontend signed_in.1 actor None None None
  (Some "desk"%string) None None (Some rx) 7 [Ok value]).1.
Definition used : AuthenticationService * option PendingTicket := take_ticket minted ticket actor 8.
Definition attested : AuthenticationService := (create_attestation_with_frontend signed_in.1 "web" actor
  None (Some "desk"%string) operator [] None 5 5 (Ok secret)).1.
End Desk.
#[local] Existing Instance Desk.digest.

Lemma no_credentials k actor deadline : ¬ live AuthenticationService_default k actor deadline.
Proof. destruct k; intros (x & Hx & _); cbn in Hx; by rewrite lookup_empty in Hx. Qed.

Lemma desk_run :
  service_run AuthenticationService_default [Opened "desk" (token_hash Desk.secret) Desk.rx]
    Desk.signed_in.1.
Proof.
  apply (run_step _ [] Desk.created [Opened _ _ _]).
  - apply (run_step _ [] AuthenticationService_default []); [constructor|]. apply step_create_token.
  - exact (step_bearer Desk.created Desk.credential 5 Desk.signed_in.1 Desk.signed_in.2
      (surjective_pairing _)).
Qed.

Lemma withdrawn_token_ends_sessions_witness : notified Desk.announced Desk.rx = true.
Proof.
  apply (withdrawn_token_ends_sessions AuthenticationService_default
    ([Opened "desk" (token_hash Desk.secret) Desk.rx; Withdrawn "desk"; Announced "desk"])
    Desk.announced [] "desk" (token_hash Desk.secret) Desk.rx [Withdrawn "desk"; Announced "desk"]).
  - apply (run_step _ [_; _] Desk.revoked [_]); [|apply step_notify].
    apply (run_step _ [_] Desk.signed_in.1 [_]); [apply desk_run|].
    exact (step_revoke_token_record Desk.signed_in.1 "desk" Desk.file Desk.revoked (Ok true) eq_refl).
  - split; [intros id r Hr|intros id c Hc]; cbn in *; by rewrite lookup_empty in *.
  - reflexivity.
  - intros (r & Hr & _ & Hrev). vm_compute in Hr. injection Hr as <-. discriminate Hrev.
  - intros [|e a] b; cbn; intros Heq; [injection Heq as <-; left|].
    injection Heq as _ Heq. destruct a as [|e' a]; [discriminate Heq|].
    injection Heq as _ Heq. destruct a; discriminate Heq.
Defined.

Lemma credentials_used_once_witness :
  ∃ created deadline since,
    [Opened "desk" (token_hash Desk.secret) Desk.rx;
     Created (Use_Ticket Desk.value) Desk.actor (Some (7 + EVENT_TICKET_LIFETIME)%Z)] =
      created ++ Created (Use_Ticket Desk.value) Desk.actor deadline :: since ∧
    Forall (λ e, about (Use_Ticket Desk.value) e = false) since ∧ unexpired deadline 8 = true.
Proof.
  apply (credentials_used_once AuthenticationService_default
    [Opened "desk" (token_hash Desk.secret) Desk.rx;
     Created (Use_Ticket Desk.value) Desk.actor (Some (7 + EVENT_TICKET_LIFETIME)%Z);
     Used (Use_Ticket Desk.value) Desk.actor 8] Desk.used.1 _ _ _ _ []).
  - apply (run_step _ [_; _] Desk.minted [_]).
    + apply (run_step _ [_] Desk.signed_in.1 [_]); [apply desk_run|].
      apply (step_mint Desk.signed_in.1 Desk.actor None None None (Some "desk"%string) None None
        (Some Desk.rx) 7 [Ok Desk.value] Desk.minted (Ok Desk.ticket)); [|vm_compute; reflexivity].
      constructor; [|constructor]. intros v [= <-]. reflexivity.
    + destruct Desk.used.2 as [pending|] eqn:Hp; [|vm_compute in Hp; discriminate Hp].
      apply (step_take_ticket Desk.minted Desk.ticket Desk.actor 8 Desk.used.1 (Some pending)).
      rewrite <-Hp. apply surjective_pairing.
  - apply no_credentials.
  - reflexivity.
Defined.

Lemma capacities_hold_witness : capacities Desk.signed_in.1.
Proof.
  apply (capacities_hold AuthenticationService_default _ _ desk_run).
  split_and!; [apply Nat.le_0_l..|]. intros actor. split; apply Nat.le_0_l.
Defined.

Lemma attested_session_outlives_token_witness :
  ∃ rx, ss_revocation (attested_session (revoke_token (take_attestation Desk.attested "web"
      Desk.credential Desk.actor 6).1 "desk" Desk.file).1 "web"
      (default (Build_AttestationRecord Desk.actor None None Desk.operator [] "" [] None)
        (take_attestation Desk.attested "web" Desk.credential Desk.actor 6).2)) = Some rx ∧
    notified (revoke_token (take_attestation Desk.attested "web" Desk.credential Desk.actor 6).1 "desk"
      Desk.file).1 rx = false.
Proof.
  destruct (take_attestation Desk.attested "web" Desk.credential Desk.actor 6) as [s1 [r|]] eqn:Ht;
    [|vm_compute in Ht; discriminate Ht]. cbn [fst snd default].
  destruct (revoke_token s1 "desk" Desk.file) as [s2 b] eqn:Hr.
  assert (at_frontend_credential_id r = Some "desk"%string) as Hid
    by (vm_compute in Ht; injection Ht as _ <-; reflexivity).
  assert (b = Ok true) as -> by (vm_compute in Ht; injection Ht as <- _; vm_compute in Hr; by injection Hr).
  destruct (attested_session_outlives_token Desk.attested "web" Desk.credential Desk.actor 6 s1 r "desk"
    Desk.file s2 Ht Hid Hr) as (_ & Hrx & _).
  destruct (ss_revocation (attested_session s2 "web" r)) as [rx|] eqn:Hs.
  - exists rx. split; [exact Hs|]. by apply Hrx.
  - exfalso. vm_compute in Ht. injection Ht as <- <-. vm_compute in Hr. injection Hr as <-.
    vm_compute in Hs. discriminate Hs.
Defined.

Lemma ticket_outlives_token_witness :
  ∃ s2 consumed rx', (consume s2 Desk.ticket Desk.actor 8 6).2 = Some consumed ∧
    ct_revocation consumed = Some rx' ∧ notified (consume s2 Desk.ticket Desk.actor 8 6).1 rx' = false.
Proof.
  destruct (revoke_token Desk.signed_in.1 "desk" Desk.file) as [s1 b] eqn:Hr.
  assert (b = Ok true) as -> by (vm_compute in Hr; by injection Hr).
  destruct (mint_with_frontend s1 Desk.actor None None None (Some "desk"%string) None None
    (Some (resubscribe s1 Desk.rx)) 7 [Ok Desk.value]) as [s2 t] eqn:Hm.
  assert (t = Ok Desk.ticket) as ->
    by (vm_compute in Hr; injection Hr as <-; vm_compute in Hm; by injection Hm).
  destruct (consume s2 Desk.ticket Desk.actor 8 6) as [s3 [consumed|]] eqn:Hc.
  2: { exfalso. vm_compute in Hr. injection Hr as <-. vm_compute in Hm. injection Hm as <-.
       vm_compute in Hc. discriminate Hc. }
  destruct (ticket_outlives_token Desk.signed_in.1 "desk" Desk.file s1 Desk.actor None None None
    (Some "desk"%string) None None Desk.rx 7 [Ok Desk.value] s2 Desk.ticket 8 6 s3 consumed Hr)
    as (rx' & Hrx & _ & Hn); [|exact Hm|exact Hc|].
  - constructor; [|constructor]. intros v [= <-]. reflexivity.
  - exists s2, consumed, rx'. rewrite Hc. split; [reflexivity|]. split; [exact Hrx|exact Hn].
Defined.

Lemma lease_keeps_identity_witness :
  let identity expiry := {| pi_subject := "ada"; pi_verified_groups := ["ops"%string];
    pi_credential_id := "card-7"; pi_expires_at := expiry; pi_continuation := Continuation_mk [1%Z] |} in
  let round := {| lr_now := 4; lr_receivers := 1; lr_receivers_after := 1;
                  lr_answer := Ok (Some (identity 20%Z)); lr_answered := 6 |} in
  pi_subject (identity 20%Z) = pi_subject (identity 10%Z).
Proof.
  intros identity round. exact (proj1 (lease_keeps_identity (identity 10%Z) [round] (identity 20%Z) eq_refl)).
Defined.
