(* ===== verification/PolicyFiles.v ===== *)
(** * The policy file: [luminated/src/policy_persistence.rs]

    The file-backed policy store of the daemon, as an instance of the [PolicyStore] trait.
    What the file holds and whether the file system lets it be read and replaced are part of
    the state of the store; that a document that was written reads back is serde's.  The
    store keeps the promises of the trait when it has a fallback, as the daemon's has. *)

From S2P Require Import Prelude Model Policy PolicyRuntime.

Definition MAX_POLICY_FILE_BYTES : Z := 4 * 1024 * 1024.

(** The file, as [open_private_file_for_read] and serde show it: its size and its source. *)
Record PolicyFileStore := {
  pfs_file : result string (option (Z * result string PolicyDocumentSource));
  pfs_fallback : option PolicyDocument;
  pfs_directory : result string unit;
  pfs_payload : PolicyDocument → result string Z;
  pfs_replaced : result string unit
}.

Definition load_document (s : PolicyFileStore) : result string (option PolicyDocument) :=
  file ← pfs_file s;
  match file with
  | None => Ok None
  | Some (bytes, parsed) =>
      _ ← ensure (bytes <=? MAX_POLICY_FILE_BYTES)%Z "policy file exceeds the byte limit"%string;
      source ← parsed;
      document ← map_err (λ _, "policy file is invalid"%string) (PolicyDocument_new source);
      Ok (Some document)
  end.

(** The file after a write of a document. *)
Definition written (s : PolicyFileStore) (bytes : Z) (document : PolicyDocument) : PolicyFileStore := {|
  pfs_file := Ok (Some (bytes, Ok (pd_source document))); pfs_fallback := pfs_fallback s;
  pfs_directory := pfs_directory s; pfs_payload := pfs_payload s; pfs_replaced := pfs_replaced s |}.
Definition write_document (s : PolicyFileStore) (document : PolicyDocument) :
    result string PolicyFileStore :=
  _ ← pfs_directory s;
  bytes ← pfs_payload s document;
  _ ← ensure (bytes <=? MAX_POLICY_FILE_BYTES)%Z "policy document exceeds the byte limit"%string;
  _ ← pfs_replaced s;
  Ok (written s bytes document).

Definition replace_document (s : PolicyFileStore) (expected : Z) (replacement : PolicyDocument) :
    PolicyFileStore * result PolicyError PolicyDocument :=
  match load_document s with
  | Err e => (s, Err (Unavailable e))
  | Ok current =>
      let actual := match current with
                    | Some document => revision_of document
                    | None => from_option revision_of 0%Z (pfs_fallback s)
                    end in
      if negb (actual =? expected)%Z then (s, Err (RevisionConflict expected actual))
      else
        match write_document s replacement with
        | Err e => (s, Err (Unavailable e))
        | Ok s' => (s', Ok replacement)
        end
  end.

#[export] Instance PolicyFileStore_store : PolicyStore PolicyFileStore := {|
  store_load s :=
    match load_document s with
    | Err e => Err (Unavailable e)
    | Ok current =>
        ok_or (union current (pfs_fallback s)) (Unavailable "policy has not been initialized")
    end;
  store_replace := replace_document
|}.

(** A document whose source is in the order in which documents are kept. *)
Definition canonical (d : PolicyDocument) : Prop := PolicyDocument_new (pd_source d) = Ok d.

(** ** Claims *)

(** The policy file is a compare-and-swap, as the trait promises: a replacement that
    succeeds found the expected revision (of the file, or of the fallback while there is
    none) and is what the store loads from then on; one that fails leaves the store as it
    was. *)
Theorem policy_file_swaps s fallback expected replacement s' r :
  pfs_fallback s = Some fallback → canonical replacement →
  store_replace s expected replacement = (s', r) →
  match r with
  | Ok d =>
      d = replacement ∧ store_load s' = Ok replacement ∧
      ∃ current, store_load s = Ok current ∧ revision_of current = expected
  | Err _ => s' = s
  end.
Proof.
  intros Hf Hc. cbn. unfold replace_document.
  destruct (load_document s) as [current|e]; [|by intros [= <- <-]].
  rewrite Hf. cbn [from_option].
  destruct (Z.eqb_spec (match current with Some d => revision_of d | None => revision_of fallback end)
    expected) as [Heq|]; cbn [negb]; [|by intros [= <- <-]].
  destruct (write_document s replacement) as [s1|e] eqn:Hw; intros [= <- <-]; [|done].
  unfold write_document in Hw. apply bind_Ok in Hw as (_ & _ & Hw). apply bind_Ok in Hw as (bytes & _ & Hw).
  apply bind_Ok in Hw as ([] & Hb%ensure_Ok & Hw). apply bind_Ok in Hw as (_ & _ & [= <-]).
  split; [done|]. split.
  - unfold load_document. cbn. rewrite Hb. cbn. rewrite Hc. cbn. by destruct (pfs_fallback s).
  - destruct current as [d|]; [exists d; split; [by destruct (pfs_fallback s)|done]|]. exists fallback. done.
Qed.

Lemma policy_file_swaps_witness :
  let s := {| pfs_file := Ok None; pfs_fallback := Some (sample_document 1); pfs_directory := Ok tt;
              pfs_payload _ := Ok 100%Z; pfs_replaced := Ok tt |} in
  store_load (store_replace s 1 (sample_document 2)).1 = Ok (sample_document 2) ∧
  (store_replace s 5 (sample_document 2)).1 = s.
Proof.
  intros s. split.
  - refine (proj1 (proj2 (policy_file_swaps s (sample_document 1) 1 (sample_document 2) _ (Ok _) _ _ _))).
    + reflexivity.
    + vm_compute. reflexivity.
    + reflexivity.
  - refine (policy_file_swaps s (sample_document 1) 5 (sample_document 2) _ (Err _) _ _ _).
    + reflexivity.
    + vm_compute. reflexivity.
    + reflexivity.
Defined.
