(* ===== verification/Tasks.v ===== *)
(** * Tasks: how request handlers run

    A handler of the daemon is an [async fn]: it locks the shared state for short
    critical sections, asks the authorization policy, calls plugins and waits, and
    between any two of these the tasks of other connections run.  A handler is
    translated to a [task]; [runs] gives its executions, interleaved with arbitrary
    steps of [others], with a trace of what it did; a run may stop anywhere, as a
    dropped future does.  [wp] is a verification condition over traces: the [ok] of every
    event given the events before it, and a postcondition; [wp_sound] relates the two.
    [exec] runs a task alone, for examples. *)

From S2P Require Import Prelude Model Graph Scenes Transition Policy PolicyRuntime Daemon Topology Persistence CollectionRegistry Descriptors Ownership PluginManager PluginApply TransitionRegistry Protocol Authorization Authentication PolicyFiles.

(** ** The shared state *)

(** What the tasks of the daemon share ([ConnectionDependencies], [MutationExecutor]): the
    state behind its mutex, the plugin manager, the transitions, the state file, the
    authentication service and the access policy, and [owned_streams] of the connection. *)
Record World := {
  w_state : DaemonState;
  w_manager : PluginManager;
  w_transitions : TransitionRegistry;
  w_disk : option PersistedState;
  w_owned_streams : list TargetId;
  w_authentication : AuthenticationService;
  w_policy : RuntimeAccessPolicy PolicyFileStore
}.

Definition set_state (w : World) (v : DaemonState) : World :=
  let 'Build_World _ b c d e f g := w in Build_World v b c d e f g.
Definition set_manager (w : World) (v : PluginManager) : World :=
  let 'Build_World a _ c d e f g := w in Build_World a v c d e f g.
Definition set_transitions (w : World) (v : TransitionRegistry) : World :=
  let 'Build_World a b _ d e f g := w in Build_World a b v d e f g.
Definition set_disk (w : World) (v : option PersistedState) : World :=
  let 'Build_World a b c _ e f g := w in Build_World a b c v e f g.
Definition set_owned_streams (w : World) (v : list TargetId) : World :=
  let 'Build_World a b c d _ f g := w in Build_World a b c d v f g.
Definition set_authentication (w : World) (v : AuthenticationService) : World :=
  let 'Build_World a b c d e _ g := w in Build_World a b c d e v g.
Definition set_policy (w : World) (v : RuntimeAccessPolicy PolicyFileStore) : World :=
  let 'Build_World a b c d e f _ := w in Build_World a b c d e f v.

(** The fields of [DaemonConfig] that reconciliation reads. *)
Record DaemonConfig := {
  dc_reconciliation_policy : option ReconciliationPolicy;
  dc_device_reconciliation : gmap DeviceId ReconciliationPolicy
}.

(** What comes from outside during a step: the wall clock and the monotonic one (in
    nanoseconds), whether a wait ended by a notification before its timer, generated
    identifiers, the configuration in force, the answers of plugin hosts, of the file
    system and of the shared-memory service. *)
Record Outside := {
  out_now : Z;
  out_instant : Z;
  out_changed : bool;
  out_uuid : string;
  out_hosts : Hosts;
  out_apply_frame : LoadedPlugin → PluginTarget → FrameEnvelope → result Text ApplyOutcome;
  out_state_dir : result Text unit;
  out_replace_file : result Text unit;
  out_reload : LoadedPlugin → result Text (list DeviceDescriptor);
  out_topology : LoadedPlugin → result Text (list DeviceDescriptor);
  out_rescan : LoadedPlugin → RescanReason → result Text unit;
  out_plugin_id : LoadedPluginId;
  out_spawned : string → Spawned;
  out_shm_outcome : LoadedPlugin → result Text ShmStreamOutcome;
  out_shm_opened : bool;
  out_shm_sent : bool;
  out_connection_epoch : Z;
  out_client_shm : result Text (string * string * Z);
  out_rescan_accepted : bool;
  out_config : DaemonConfig;
  out_random : auth (list Z);
  out_token_file : TokenFile;
  out_audit : result Text unit
}.

(** Messages to plugin hosts, to the rescan worker and to the audit sink. *)
Inductive message :=
| Msg_Update (update : Update)
| Msg_Batch (updates : list Update)
| Msg_ReadState (device : DeviceId) (request : PluginReadRequest)
| Msg_Frame (target : TargetId) (envelope : FrameEnvelope)
| Msg_BeginShm (target : TargetId) (generation : Z)
| Msg_EndShm (target : TargetId) (generation : Z)
| Msg_ClientShm (target : TargetId) (generation : Z)
| Msg_Reload (plugin : string)
| Msg_Rescan (reason : RescanReason)
| Msg_HostRescan (plugin : string) (reason : RescanReason)
| Msg_Topology (plugin : string)
| Msg_Spawn (plugin : string)
| Msg_Audit (principal : Peer) (operation : Operation) (allowed : bool) (reason : string).

(** The devices a message is about. *)
Definition message_devices (m : message) : list DeviceId :=
  match m with
  | Msg_Update u => [TargetId_device_id u.1]
  | Msg_Batch us => (λ u : Update, TargetId_device_id u.1) <$> us
  | Msg_ReadState device _ => [device]
  | Msg_Frame target _ | Msg_BeginShm target _ | Msg_EndShm target _ | Msg_ClientShm target _ =>
      [TargetId_device_id target]
  | Msg_Reload _ | Msg_Rescan _ | Msg_HostRescan _ _ | Msg_Topology _ | Msg_Spawn _
  | Msg_Audit _ _ _ _ => []
  end.

(** ** Tasks *)

Inductive task `{Wire} (A : Type) : Type :=
| Return (a : A)
| Panic
| Step {X : Type} (m : option message) (f : Outside → World → World * X) (k : X → task A)
| Ask (operation : Operation) (resources : list Resource) (k : Decision → task A)
| Publish (e : Event) (k : task A)
| Await (ready : World → bool) (k : task A).
Arguments Return {_ A} a.
Arguments Panic {_ A}.
Arguments Step {_ A X} m f k.
Arguments Ask {_ A} operation resources k.
Arguments Publish {_ A} e k.
Arguments Await {_ A} ready k.

Section tasks.
Context `{Wire}.

#[global] Instance task_ret : MRet task := λ A a, Return a.
#[global] Instance task_bind : MBind task :=
  fix bind A B (h : A → task B) (t : task A) {struct t} : task B :=
    match t with
    | Return a => h a
    | Panic => Panic
    | Step m f k => Step m f (λ x, bind A B h (k x))
    | Ask operation resources k => Ask operation resources (λ d, bind A B h (k d))
    | Publish e k => Publish e (bind A B h k)
    | Await ready k => Await ready (bind A B h k)
    end.

(** [catch_unwind] *)
Fixpoint catch {A} (t : task A) : task (option A) :=
  match t with
  | Return a => Return (Some a)
  | Panic => Return None
  | Step m f k => Step m f (λ x, catch (k x))
  | Ask operation resources k => Ask operation resources (λ d, catch (k d))
  | Publish e k => Publish e (catch k)
  | Await ready k => Await ready (catch k)
  end.

(** A critical section on the state, one that only reads, a call of a plugin host, and
    the publication of an event. *)
Definition locked {X} (f : Outside → DaemonState → DaemonState * X) : task X :=
  Step None (λ o w, let '(st, x) := f o (w_state w) in (set_state w st, x)) Return.
Definition reading {X} (f : Outside → World → X) : task X :=
  Step None (λ o w, (w, f o w)) Return.
Definition calling {X} (m : message) (f : Outside → World → World * X) : task X :=
  Step (Some m) f Return.
Definition publish (e : Event) : task unit := Publish e (Return tt).
Definition ask (operation : Operation) (resources : list Resource) : task Decision :=
  Ask operation resources Return.

(** An operation of the plugin manager, step by step. *)
Fixpoint on_manager {A} (op : pm_op A) : task A :=
  match op with
  | OpDone a => Return a
  | Locking f k =>
      Step None (λ _ w, let '(pm, x) := f (w_manager w) in (set_manager w pm, x))
        (λ x, on_manager (k x))
  | AskTopology plugin k =>
      Step (Some (Msg_Topology (lp_name plugin))) (λ o w, (w, out_topology o plugin))
        (λ answer, on_manager (k answer))
  | AskReload plugin k =>
      Step (Some (Msg_Reload (lp_name plugin))) (λ o w, (w, out_reload o plugin))
        (λ answer, on_manager (k answer))
  | Spawning name k =>
      Step (Some (Msg_Spawn name)) (λ o w, (w, out_spawned o name)) (λ spawned, on_manager (k spawned))
  | NewId k => Step None (λ o w, (w, out_plugin_id o)) (λ id, on_manager (k id))
  end.

(** [?] in a handler that returns a [Result]. *)
Definition attempt {E A B} (t : task (result E A)) (k : A → task (result E B)) :
    task (result E B) :=
  r ← t; match r with Ok a => k a | Err e => Return (Err e) end.

(** [match e { Ok(x) => .., Err(response) => return response }] *)
Definition or_return {E A B} (t : task (result E A)) (err : E → B) (k : A → task B) : task B :=
  r ← t; match r with Ok a => k a | Err e => Return (err e) end.

(** A loop over a list whose body may return early with [?]. *)
Fixpoint task_for {E A} (f : A → task (result E unit)) (l : list A) : task (result E unit) :=
  match l with
  | [] => Return (Ok tt)
  | x :: l => attempt (f x) (λ _, task_for f l)
  end.

Fixpoint task_map {A B} (f : A → task B) (l : list A) : task (list B) :=
  match l with
  | [] => Return []
  | x :: l => y ← f x; ys ← task_map f l; Return (y :: ys)
  end.

(** ** Runs *)

Inductive event :=
| Stepped (m : option message) (o : Outside) (w w' : World)
| Asked (operation : Operation) (resources : list Resource) (d : Decision)
| Published (e : Event).

Inductive outcome (A : Type) :=
| Done (a : A)
| Panicked
| Stopped.
#[global] Arguments Done {A} a.
#[global] Arguments Panicked {A}.
#[global] Arguments Stopped {A}.

(** Runs of a task among [others], under a policy that answers as [decides] allows. *)
Inductive runs (others : World → World → Prop)
    (decides : Operation → list Resource → Decision → Prop) {A} :
    World → task A → list event → World → outcome A → Prop :=
| runs_return w a : runs others decides w (Return a) [] w (Done a)
| runs_panic w : runs others decides w Panic [] w Panicked
| runs_stop w t : runs others decides w t [] w Stopped
| runs_others w w' t tr w'' r :
    others w w' → runs others decides w' t tr w'' r → runs others decides w t tr w'' r
| runs_step w o {X} m (f : Outside → World → World * X) k w' x tr w'' r :
    f o w = (w', x) → runs others decides w' (k x) tr w'' r →
    runs others decides w (Step m f k) (Stepped m o w w' :: tr) w'' r
| runs_ask w operation resources k d tr w'' r :
    decides operation resources d → runs others decides w (k d) tr w'' r →
    runs others decides w (Ask operation resources k) (Asked operation resources d :: tr) w'' r
| runs_publish w e k tr w'' r :
    runs others decides w k tr w'' r →
    runs others decides w (Publish e k) (Published e :: tr) w'' r
| runs_await w ready k tr w'' r :
    ready w = true → runs others decides w k tr w'' r →
    runs others decides w (Await ready k) tr w'' r.

(** The run of a task alone, with one [Outside] throughout; [None] when it blocks. *)
Fixpoint exec {A} (policy : Operation → list Resource → Decision) (o : Outside) (w : World)
    (t : task A) : option (list event * World * outcome A) :=
  match t with
  | Return a => Some ([], w, Done a)
  | Panic => Some ([], w, Panicked)
  | Step m f k =>
      let '(w', x) := f o w in
      '(tr, w'', r) ← exec policy o w' (k x); Some (Stepped m o w w' :: tr, w'', r)
  | Ask operation resources k =>
      let d := policy operation resources in
      '(tr, w'', r) ← exec policy o w (k d); Some (Asked operation resources d :: tr, w'', r)
  | Publish e k => '(tr, w'', r) ← exec policy o w k; Some (Published e :: tr, w'', r)
  | Await ready k => if ready w then exec policy o w k else None
  end.

Lemma exec_runs {A} others (decides : Operation → list Resource → Decision → Prop) policy o (t : task A) w tr w' r :
  (∀ operation resources, decides operation resources (policy operation resources)) →
  exec policy o w t = Some (tr, w', r) → runs others decides w t tr w' r.
Proof.
  intros Hd. revert w tr w' r.
  induction t as [a| |X m f k IH|op rs k IH|e k IH|ready k IH]; intros w tr w' r; simpl.
  - intros [= <- <- <-]. constructor.
  - intros [= <- <- <-]. constructor.
  - destruct (f o w) as [w1 x] eqn:Hf. intros (((tr' & w2) & r') & Hk & [= <- <- <-])%bind_Some.
    eapply runs_step; [done|]. by apply IH.
  - intros (((tr' & w2) & r') & Hk & [= <- <- <-])%bind_Some. by constructor; [apply Hd|apply IH].
  - intros (((tr' & w2) & r') & Hk & [= <- <- <-])%bind_Some. constructor. by apply IH.
  - destruct (ready w) eqn:Hr; [|done]. intros. by constructor; [|apply IH].
Qed.

(** ** Verification conditions *)

Section wp.
(** What must hold of an event after the events of the past. *)
Context (ok : list event → event → Prop).

Fixpoint wp {A} (t : task A) (past : list event) (Q : A → list event → Prop) : Prop :=
  match t with
  | Return a => Q a past
  | Panic => True
  | Step m f k =>
      ∀ o w w' x, f o w = (w', x) →
        ok past (Stepped m o w w') ∧ wp (k x) (past ++ [Stepped m o w w']) Q
  | Ask operation resources k =>
      ∀ d, ok past (Asked operation resources d) ∧
           wp (k d) (past ++ [Asked operation resources d]) Q
  | Publish e k => ok past (Published e) ∧ wp k (past ++ [Published e]) Q
  | Await ready k => wp k past Q
  end.

Lemma wp_return {A} (a : A) past (Q : A → list event → Prop) : Q a past → wp (Return a) past Q.
Proof. done. Qed.

Lemma wp_mono {A} (t : task A) past (Q Q' : A → list event → Prop) :
  wp t past Q → (∀ a tr, past `prefix_of` tr → Q a tr → Q' a tr) → wp t past Q'.
Proof.
  revert past. induction t as [a| |X m f k IH|op rs k IH|e k IH|ready k IH]; intros past; simpl.
  - eauto.
  - done.
  - intros Ht HQ o w w' x Hf. destruct (Ht o w w' x Hf) as [Hok Hk]. split; [done|].
    eapply IH; [done|]. intros a tr Hp. apply HQ. etrans; [|done]. by apply prefix_app_r.
  - intros Ht HQ d. destruct (Ht d) as [Hok Hk]. split; [done|].
    eapply IH; [done|]. intros a tr Hp. apply HQ. etrans; [|done]. by apply prefix_app_r.
  - intros [Hok Hk] HQ. split; [done|].
    eapply IH; [done|]. intros a tr Hp. apply HQ. etrans; [|done]. by apply prefix_app_r.
  - intros Ht HQ. by eapply IH.
Qed.

Lemma wp_bind {A B} (h : A → task B) (t : task A) past Q :
  wp t past (λ a tr, wp (h a) tr Q) → wp (t ≫= h) past Q.
Proof.
  revert past. induction t as [a| |X m f k IH|op rs k IH|e k IH|ready k IH]; intros past; simpl.
  - done.
  - done.
  - intros Ht o w w' x Hf. destruct (Ht o w w' x Hf). split; [done|]. by apply IH.
  - intros Ht d. destruct (Ht d). split; [done|]. by apply IH.
  - intros [Hok Hk]. split; [done|]. by apply IH.
  - intros Ht. by apply IH.
Qed.

Lemma wp_catch {A} (t : task A) past (Q : option A → list event → Prop) :
  wp t past (λ a, Q (Some a)) → (∀ tr, past `prefix_of` tr → Q None tr) → wp (catch t) past Q.
Proof.
  revert past. induction t as [a| |X m f k IH|op rs k IH|e k IH|ready k IH]; intros past; simpl.
  - done.
  - intros _ HQ. by apply HQ.
  - intros Ht HQ o w w' x Hf. destruct (Ht o w w' x Hf). split; [done|].
    apply IH; [done|]. intros tr Hp. apply HQ. etrans; [|done]. by apply prefix_app_r.
  - intros Ht HQ d. destruct (Ht d). split; [done|].
    apply IH; [done|]. intros tr Hp. apply HQ. etrans; [|done]. by apply prefix_app_r.
  - intros [Hok Hk] HQ. split; [done|].
    apply IH; [done|]. intros tr Hp. apply HQ. etrans; [|done]. by apply prefix_app_r.
  - intros Ht HQ. by apply IH.
Qed.

(** Every event of a run is [ok] after the events before it, and the result satisfies
    the postcondition with the whole trace. *)
Definition all_ok (past tr : list event) : Prop :=
  ∀ before e after, tr = before ++ e :: after → ok (past ++ before) e.

Lemma all_ok_cons past e tr : ok past e → all_ok (past ++ [e]) tr → all_ok past (e :: tr).
Proof.
  intros He Htr [|e' before] e'' after Heq; simplify_eq/=.
  - by rewrite app_nil_r.
  - specialize (Htr before e'' after eq_refl). by rewrite <-app_assoc in Htr.
Qed.

Lemma wp_sound {A} others decides w (t : task A) tr w' r past Q :
  runs others decides w t tr w' r → wp t past Q →
  all_ok past tr ∧ match r with Done a => Q a (past ++ tr) | _ => True end.
Proof.
  intros Hr. revert past.
  induction Hr as [w a|w|w t|w w1 t tr w2 r Ho Hr IH|w o X m f k w1 x tr w2 r Hf Hr IH
                  |w op rs k d tr w2 r Hd Hr IH|w e k tr w2 r Hr IH|w ready k tr w2 r Hw Hr IH];
    intros past; simpl.
  - rewrite app_nil_r. intros HQ. split; [|done]. by intros [].
  - intros _. split; [|done]. by intros [].
  - intros _. split; [|done]. by intros [].
  - by apply IH.
  - intros Ht. destruct (Ht o w w1 x Hf) as [Hok Hk]. destruct (IH _ Hk) as [Hall HQ].
    split; [by apply all_ok_cons|]. by rewrite <-app_assoc in HQ.
  - intros Ht. destruct (Ht d) as [Hok Hk]. destruct (IH _ Hk) as [Hall HQ].
    split; [by apply all_ok_cons|]. by rewrite <-app_assoc in HQ.
  - intros [Hok Hk]. destruct (IH _ Hk) as [Hall HQ].
    split; [by apply all_ok_cons|]. by rewrite <-app_assoc in HQ.
  - by apply IH.
Qed.

(** Nothing is claimed of the events of the task. *)
Lemma wp_any {A} (t : task A) past (Q : A → list event → Prop) :
  (∀ past e, ok past e) → (∀ a tr, past `prefix_of` tr → Q a tr) → wp t past Q.
Proof.
  intros Hok. revert past. induction t as [a| |X m f k IH|op rs k IH|e k IH|ready k IH]; intros past HQ; simpl.
  - by apply HQ.
  - done.
  - intros o w w' x _. split; [apply Hok|]. apply IH. intros a tr Hp. apply HQ.
    etrans; [|done]. by apply prefix_app_r.
  - intros d. split; [apply Hok|]. apply IH. intros a tr Hp. apply HQ.
    etrans; [|done]. by apply prefix_app_r.
  - split; [apply Hok|]. apply IH. intros a tr Hp. apply HQ.
    etrans; [|done]. by apply prefix_app_r.
  - apply IH, HQ.
Qed.

(** Everything is allowed from here on. *)
Lemma wp_free {A} (t : task A) past :
  (∀ past' e, past `prefix_of` past' → ok past' e) → wp t past (λ _ _, True).
Proof.
  revert past. induction t as [a| |X m f k IH|op rs k IH|e k IH|ready k IH]; intros past Hok; simpl.
  - done.
  - done.
  - intros o w w' x _. split; [by apply Hok|]. apply IH. intros past' e Hp. apply Hok.
    etrans; [|done]. by apply prefix_app_r.
  - intros d. split; [by apply Hok|]. apply IH. intros past' e Hp. apply Hok.
    etrans; [|done]. by apply prefix_app_r.
  - split; [by apply Hok|]. apply IH. intros past' e' Hp. apply Hok.
    etrans; [|done]. by apply prefix_app_r.
  - by apply IH.
Qed.

(** A task that only reads and asks. *)
Fixpoint quiet {A} (t : task A) : Prop :=
  match t with
  | Return _ | Panic => True
  | Step m f k => m = None ∧ (∀ o w, (f o w).1 = w) ∧ ∀ x, quiet (k x)
  | Ask _ _ k => ∀ d, quiet (k d)
  | Publish _ _ => False
  | Await _ k => quiet k
  end.

Lemma wp_quiet {A} (t : task A) past (Q : A → list event → Prop) :
  quiet t →
  (∀ past o w, ok past (Stepped None o w w)) → (∀ past op rs d, ok past (Asked op rs d)) →
  (∀ a tr, past `prefix_of` tr → Q a tr) → wp t past Q.
Proof.
  intros Ht Hread Hask. revert past Ht.
  induction t as [a| |X m f k IH|op rs k IH|e k IH|ready k IH]; intros past Ht HQ; simpl in *.
  - by apply HQ.
  - done.
  - destruct Ht as (-> & Hf & Hk). intros o w w' x Hx. specialize (Hf o w). rewrite Hx in Hf. cbn in Hf.
    subst w'. split; [done|]. apply IH; [done|]. intros a tr Hp. apply HQ.
    etrans; [|done]. by apply prefix_app_r.
  - intros d. split; [done|]. apply IH; [done|]. intros a tr Hp. apply HQ.
    etrans; [|done]. by apply prefix_app_r.
  - done.
  - by apply IH.
Qed.

Lemma quiet_bind {A B} (h : A → task B) (t : task A) : quiet t → (∀ a, quiet (h a)) → quiet (t ≫= h).
Proof. intros Ht Hh. induction t; simpl in *; try naive_solver. Qed.
Lemma quiet_or_return {E A B} (t : task (result E A)) (err : E → B) k :
  quiet t → (∀ a, quiet (k a)) → quiet (or_return t err k).
Proof. intros Ht Hk. apply quiet_bind; [done|]. by intros []. Qed.
Lemma quiet_map {A B} (f : A → task B) l : (∀ x, quiet (f x)) → quiet (task_map f l).
Proof.
  intros Hf. induction l as [|x l IH]; [done|]. cbn [task_map].
  apply quiet_bind; [done|]. intros y. by apply quiet_bind.
Qed.

(** ** Rules for the combinators *)

Lemma wp_or_return {E A B} (t : task (result E A)) (err : E → B) k past Q :
  wp t past (λ r tr, match r with Ok a => wp (k a) tr Q | Err e => Q (err e) tr end) →
  wp (or_return t err k) past Q.
Proof. intros Ht. apply wp_bind. eapply wp_mono; [done|]. by intros [a|e] tr _. Qed.

Lemma wp_attempt {E A B} (t : task (result E A)) (k : A → task (result E B)) past Q :
  wp t past (λ r tr, match r with Ok a => wp (k a) tr Q | Err e => Q (Err e) tr end) →
  wp (attempt t k) past Q.
Proof. intros Ht. apply wp_bind. eapply wp_mono; [done|]. by intros [a|e] tr _. Qed.

(** A loop keeps what every iteration keeps. *)
Lemma wp_task_for {E A} (f : A → task (result E unit)) l (I : list event → Prop) past :
  I past →
  (∀ x tr, x ∈ l → past `prefix_of` tr → I tr → wp (f x) tr (λ _ tr', I tr')) →
  wp (task_for f l) past (λ _ tr, I tr).
Proof.
  revert past. induction l as [|x l IH]; intros past HI Hf; [done|].
  simpl. apply wp_attempt. eapply wp_mono; [by apply Hf; [left|..]|].
  intros [[]|e] tr Hp HI'; [|done]. apply IH; [done|].
  intros y tr' Hy Hp'. apply Hf; [by right|by etrans].
Qed.

End wp.
End tasks.

Lemma wp_ok_mono `{Wire} (ok ok' : list event → event → Prop) {A} (t : task A) past Q :
  (∀ past e, ok past e → ok' past e) → wp ok t past Q → wp ok' t past Q.
Proof.
  intros Hok. revert past. induction t as [a| |X m f k IH|op rs k IH|e k IH|ready k IH];
    intros past; simpl; [done|done| | | |auto].
  - intros Ht o w w' x Hf. destruct (Ht o w w' x Hf). auto.
  - intros Ht d. destruct (Ht d). auto.
  - intros [? ?]. auto.
Qed.

(** The events of a task, collected. *)
Lemma wp_collect `{Wire} (K : event → Prop) {A} (t : task A) past Q :
  wp (λ _ e, K e) t past Q → Forall K past →
  wp (λ _ _, True) t past (λ a tr, Q a tr ∧ Forall K tr).
Proof.
  revert past. induction t as [a| |X m f k IH|op rs k IH|e k IH|ready k IH]; intros past; simpl.
  - done.
  - done.
  - intros Ht HK o w w' x Hf. destruct (Ht o w w' x Hf) as [He Hk]. split; [done|].
    apply IH; [done|]. by apply Forall_app_2; [|constructor].
  - intros Ht HK d. destruct (Ht d) as [He Hk]. split; [done|]. apply IH; [done|]. by apply Forall_app_2; [|constructor].
  - intros [He Hk] HK. split; [done|]. apply IH; [done|]. by apply Forall_app_2; [|constructor].
  - intros Ht HK. by apply IH.
Qed.

#[global] Arguments outcome A : clear implicits.
#[global] Arguments wp {_} ok {A} t past Q : simpl never.
