(* ===== verification/Authz.v ===== *)
(** * Authorizing requests: [luminated/src/daemon/authz.rs]

    [authorize] resolves the devices of a request to resources under the state lock,
    asks the policy without the lock, and compares the topology generation afterwards;
    [authorize_partial] decides each device of a list of leaves on its own.  The file
    then states what it means that a task acts only with permission ([guarded]) and gives
    the rules by which handlers are shown to. *)

From S2P Require Import Prelude Model Graph Scenes Transition Policy PolicyRuntime Daemon Topology Persistence Observation CollectionRegistry Descriptors Ownership PluginManager PluginApply TransitionRegistry Protocol Authorization Authentication PolicyFiles Tasks.

Section authz.
Context `{Wire}.

Definition topology_generation (w : World) : Z := ds_topology_generation (w_state w).

Definition resolve_devices (w : World) (devices : list DeviceId) : list Resource :=
  resolve_resources (w_state w) (w_manager w) devices.

Definition authorize (operation : Operation) (devices : list DeviceId) : task (result Response Z) :=
  '(resources, generation) ← reading (λ _ w, (resolve_devices w devices, topology_generation w));
  decision ← ask operation resources;
  match decision with
  | Allow =>
      current ← reading (λ _ w, (topology_generation w =? generation)%Z);
      Return (if current : bool then Ok generation else Err authorization_conflict_response)
  | Deny reason => Return (Err (permission_denied_response reason))
  end.

(** [join_all] of one decision per resource. *)
Definition decide_each (operation : Operation) (resources : list Resource) : task (list Decision) :=
  task_map (λ resource, ask operation [resource]) resources.

Definition filter_devices (operation : Operation) (devices : list DeviceId) :
    task (result Response (list DeviceId * Z)) :=
  '(resources, generation) ← reading (λ _ w, (resolve_devices w devices, topology_generation w));
  decisions ← decide_each operation resources;
  current ← reading (λ _ w, (topology_generation w =? generation)%Z);
  Return (if negb current then Err authorization_conflict_response
          else Ok ((filter (λ p, allows p.2 = true) (zip devices decisions)).*1, generation)).

Definition topology_is_current (generation : Z) : task bool :=
  reading (λ _ w, (topology_generation w =? generation)%Z).

(** The devices of the leaves, each once, in order. *)
Definition unique_devices (leaves : list TargetId) : list DeviceId :=
  fold_left push_unique (TargetId_device_id <$> leaves) [].

(** The map from each device to whether it was allowed. *)
Definition allowed_devices (devices : list DeviceId) (decisions : list Decision) :
    gmap DeviceId bool :=
  fold_left (λ m p, <[p.1 := allows p.2]> m) (zip devices decisions) ∅.

Definition leaf_allowed (allowed : gmap DeviceId bool) (leaf : TargetId) : bool :=
  default false (allowed !! TargetId_device_id leaf).

Definition authorize_partial (operation : Operation) (leaves : list TargetId) :
    task (list TargetId * list TargetId * Z) :=
  let devices := unique_devices leaves in
  '(resources, generation) ← reading (λ _ w, (resolve_devices w devices, topology_generation w));
  decisions ← decide_each operation resources;
  let allowed := allowed_devices devices decisions in
  Return (filter (λ leaf, leaf_allowed allowed leaf = true) leaves,
          filter (λ leaf, leaf_allowed allowed leaf = false) leaves, generation).

Lemma quiet_authorize operation devices : quiet (authorize operation devices).
Proof.
  apply quiet_bind; [done|]. intros [resources g]. apply quiet_bind; [done|]. intros [|reason]; [|done].
  by apply quiet_bind.
Qed.
Lemma quiet_filter_devices operation devices : quiet (filter_devices operation devices).
Proof.
  apply quiet_bind; [done|]. intros [resources g]. apply quiet_bind; [by apply quiet_map|].
  intros ds. by apply quiet_bind.
Qed.
Lemma quiet_authorize_partial operation leaves : quiet (authorize_partial operation leaves).
Proof.
  apply quiet_bind; [done|]. intros [resources g]. by apply quiet_bind; [by apply quiet_map|].
Qed.

(** ** Permission *)

Section permission.
Context (op : Operation).

(** The policy allowed the operation, on whatever resources. *)
Definition granted (past : list event) : Prop := ∃ resources, Asked op resources Allow ∈ past.

(** It allowed the operation on a list of devices with [d] among them, as they were in a
    world of topology generation [g]. *)
Definition authorised (d : DeviceId) (g : Z) (past : list event) : Prop :=
  ∃ o w devices, d ∈ devices ∧ topology_generation w = g ∧
    [Stepped None o w w; Asked op (resolve_devices w devices) Allow] `sublist_of` past.

(** And later the state was seen, still of that generation. *)
Definition permitted (d : DeviceId) (past : list event) : Prop :=
  ∃ before o w w' after, past = before ++ Stepped None o w w' :: after ∧
    authorised d (topology_generation w) before.

(** What a step may do without permission: nothing, but for a save of the state file. *)
Definition saves (w w' : World) : Prop :=
  w_manager w' = w_manager w ∧ w_transitions w' = w_transitions w ∧
  w_owned_streams w' = w_owned_streams w ∧ w_authentication w' = w_authentication w ∧
  w_policy w' = w_policy w ∧
  ∃ persisted, w_state w' = finish_pending_adoption (w_state w) persisted.

Definition guarded (past : list event) (e : event) : Prop :=
  match e with
  | Stepped m _ w w' =>
      (w' = w ∨ saves w w' ∨ granted past) ∧
      ∀ d, d ∈ from_option message_devices [] m → permitted d past
  | Asked _ _ _ => True
  | Published _ => granted past
  end.

Lemma granted_mono past past' : past `prefix_of` past' → granted past → granted past'.
Proof. intros [l ->] [rs Hrs]. exists rs. set_solver. Qed.

Lemma authorised_mono d g past past' :
  past `prefix_of` past' → authorised d g past → authorised d g past'.
Proof.
  intros [l ->] (o & w & ds & Hd & Hg & Hs). exists o, w, ds. split_and!; [done..|].
  by apply sublist_inserts_r.
Qed.

Lemma permitted_mono d past past' : past `prefix_of` past' → permitted d past → permitted d past'.
Proof.
  intros [l ->] (b & o & w & w' & a & -> & Ha). exists b, o, w, w', (a ++ l).
  split; [|done]. by rewrite <-app_assoc.
Qed.

Lemma authorised_granted d g past : authorised d g past → granted past.
Proof.
  intros (o & w & ds & _ & _ & Hs). exists (resolve_devices w ds). eapply elem_of_sublist; [|done]. right. left.
Qed.
Lemma permitted_granted d past : permitted d past → granted past.
Proof.
  intros (b & o & w & w' & a & -> & Ha%authorised_granted).
  eapply granted_mono; [|done]. by apply prefix_app_r.
Qed.

Lemma permitted_by_step d g past o w w' :
  authorised d g past → topology_generation w = g →
  permitted d (past ++ [Stepped None o w w']).
Proof. intros Ha <-. by exists past, o, w, w', []. Qed.

(** ** Rules *)

Notation WP := (wp guarded).

Lemma wp_reading {X} (f : Outside → World → X) past Q :
  (∀ o w, Q (f o w) (past ++ [Stepped None o w w])) → WP (reading f) past Q.
Proof.
  intros HQ o w w' x [= <- <-]. split; [|apply HQ]. split; [by left|]. intros d. by rewrite elem_of_nil.
Qed.

Lemma wp_ask operation resources past Q :
  (∀ d, Q d (past ++ [Asked operation resources d])) → WP (ask operation resources) past Q.
Proof. intros HQ d. split; [done|apply HQ]. Qed.

(** The result of [authorize]: permission for each device, in the generation returned. *)
Lemma wp_authorize devices past :
  WP (authorize op devices) past (λ r tr,
    ∀ g, r = Ok g → granted tr ∧ ∀ d, d ∈ devices → authorised d g tr).
Proof.
  apply wp_bind, wp_reading. intros o w. apply wp_bind, wp_ask. intros [|reason]; [|done].
  apply wp_bind, wp_reading. intros o' w'. case_match eqn:Hg; [|done]. intros g [= <-].
  assert (∀ d, d ∈ devices → authorised d (topology_generation w)
            (past ++ [Stepped None o w w; Asked op (resolve_devices w devices) Allow]
               ++ [Stepped None o' w' w'])) as Hd.
  { intros d Hd. exists o, w, devices. split_and!; [done..|].
    apply sublist_inserts_l, sublist_inserts_r. done. }
  rewrite <-!app_assoc. split; [|exact Hd]. exists (resolve_devices w devices).
  rewrite !elem_of_app. right; right; left. left.
Qed.

(** One decision per resource, in the trace in order. *)
Lemma wp_decide_each operation resources past :
  WP (decide_each operation resources) past (λ ds tr,
    length ds = length resources ∧
    tr = past ++ zip_with (λ resource d, Asked operation [resource] d) resources ds).
Proof.
  revert past. induction resources as [|r rs IH]; intros past; unfold decide_each; cbn [task_map].
  { cbn [wp]. split; [done|]. cbn. by rewrite app_nil_r. }
  apply wp_bind, wp_ask. intros d. apply wp_bind. eapply wp_mono; [apply IH|].
  intros ds tr _ [Hl ->]. cbn [wp]. split; [by cbn; rewrite Hl|]. by rewrite <-app_assoc.
Qed.

(** What [filter_devices] shows was allowed, device by device. *)
Lemma wp_filter_devices operation devices past :
  WP (filter_devices operation devices) past (λ r tr,
    (∀ response, r = Err response → ∃ error, response = RS_Error error) ∧
    ∀ visible g, r = Ok (visible, g) →
      ∃ o w ds o' w', g = topology_generation w ∧ topology_generation w' = g ∧
        length ds = length devices ∧
        tr = past ++ Stepped None o w w ::
               zip_with (λ d decision, Asked operation (resolve_devices w [d]) decision) devices ds
               ++ [Stepped None o' w' w'] ∧
        visible = (filter (λ p, allows p.2 = true) (zip devices ds)).*1).
Proof.
  apply wp_bind, wp_reading. intros o w. apply wp_bind. eapply wp_mono; [apply wp_decide_each|].
  intros ds tr _ [Hl ->]. apply wp_bind, wp_reading. intros o' w'. apply wp_return.
  destruct (topology_generation w' =? topology_generation w)%Z eqn:Hg;
    (split; [intros response Hr|intros visible g Hr]); try done.
  2:{ injection Hr as <-. by eexists. }
  injection Hr as <- <-. apply Z.eqb_eq in Hg. exists o, w, ds, o', w'.
  unfold resolve_devices, resolve_resources in Hl |- *. rewrite length_fmap in Hl.
  split_and!; [done..| |done]. rewrite <-!app_assoc. cbn. by rewrite zip_with_fmap_l.
Qed.

Lemma allowed_devices_lookup devices ds d :
  NoDup devices → length ds = length devices →
  allowed_devices devices ds !! d =
  (λ i, allows (default (Deny None) (ds !! i))) ∘ fst <$> list_find (d =.) devices.
Proof.
  intros Hnd Hl.
  destruct (fold_insert_lookup (B:=bool) fst (λ p : DeviceId * Decision, allows p.2) (zip devices ds) ∅)
    as [Hin Hout].
  { by rewrite fst_zip by lia. }
  unfold allowed_devices. destruct (list_find (d =.) devices) as [[i x]|] eqn:Hf; cbn.
  - apply list_find_Some in Hf as (Hi & <- & _).
    destruct (lookup_lt_is_Some_2 ds i) as [y Hy].
    { rewrite Hl. by eapply lookup_lt_Some. }
    rewrite Hy. cbn. apply (Hin (d, y)). apply list_elem_of_lookup. exists i.
    by apply lookup_zip_Some.
  - apply list_find_None in Hf. rewrite Hout; [apply lookup_empty|].
    rewrite fst_zip by lia. intros Hd. by eapply Forall_forall in Hf.
Qed.

(** [authorize_partial], exactly: what was asked and how the leaves are split. *)
Lemma wp_authorize_partial_exact operation leaves past :
  WP (authorize_partial operation leaves) past (λ r tr,
    ∃ o w decision,
      tr = past ++ Stepped None o w w ::
             ((λ d, Asked operation (resolve_devices w [d]) (decision d)) <$> unique_devices leaves) ∧
      r = (filter (λ leaf, allows (decision (TargetId_device_id leaf)) = true) leaves,
           filter (λ leaf, allows (decision (TargetId_device_id leaf)) = false) leaves,
           topology_generation w)).
Proof.
  destruct (push_unique_all (TargetId_device_id <$> leaves) []) as [Hnd Hel]; [by constructor|].
  apply wp_bind, wp_reading. intros o w. apply wp_bind. eapply wp_mono; [apply wp_decide_each|].
  intros ds tr _ [Hl ->]. cbn [wp].
  fold (unique_devices leaves) in Hnd, Hel.
  set (decision d := default (Deny None)
         (list_find (d =.) (unique_devices leaves) ≫= λ p, ds !! p.1)).
  exists o, w, decision. rewrite <-app_assoc. unfold resolve_devices, resolve_resources in Hl |- *.
  rewrite length_fmap in Hl.
  assert (∀ i d, unique_devices leaves !! i = Some d → decision d = default (Deny None) (ds !! i))
    as Hdec.
  { intros i d Hi. unfold decision.
    assert (list_find (d =.) (unique_devices leaves) = Some (i, d)) as ->; [|done].
    apply list_find_Some. split_and!; [done..|]. intros j y Hj Hlt <-.
    pose proof (NoDup_lookup _ _ _ _ Hnd Hi Hj). lia. }
  split.
  - f_equal. cbn. f_equal. apply list_eq. intros i.
    rewrite lookup_zip_with, !list_lookup_fmap.
    destruct (unique_devices leaves !! i) as [d|] eqn:Hi; [|done]. cbn.
    rewrite (Hdec i d Hi).
    destruct (lookup_lt_is_Some_2 ds i) as [y ->]; [|done].
    rewrite Hl. by eapply lookup_lt_Some.
  - assert (∀ leaf, leaf ∈ leaves →
      leaf_allowed (allowed_devices (unique_devices leaves) ds) leaf =
      allows (decision (TargetId_device_id leaf))) as Hleaf.
    { intros leaf Hin. unfold leaf_allowed. rewrite allowed_devices_lookup by done.
      unfold decision. destruct (list_find _ _) as [[i x]|] eqn:Hf; cbn; [done|].
      apply list_find_None in Hf. exfalso.
      eapply Forall_forall in Hf; [by apply Hf|]. apply Hel. right. by apply list_elem_of_fmap_2. }
    do 2 f_equal; apply filter_ext_in; intros leaf Hin; by rewrite Hleaf.
Qed.

Lemma wp_authorize_partial leaves past :
  WP (authorize_partial op leaves) past (λ r tr,
    ∀ applied denied g, r = (applied, denied, g) →
      applied ⊆ leaves ∧ ∀ leaf, leaf ∈ applied → authorised (TargetId_device_id leaf) g tr).
Proof.
  destruct (push_unique_all (TargetId_device_id <$> leaves) []) as [_ Hel]; [by constructor|].
  eapply wp_mono; [apply wp_authorize_partial_exact|].
  intros r tr _ (o & w & decision & -> & ->) applied denied g [= <- <- <-].
  split; [intros leaf [_ ?]%list_elem_of_filter; done|].
  intros leaf [Ha Hin]%list_elem_of_filter. exists o, w, [TargetId_device_id leaf].
  split_and!; [by left|done|]. apply sublist_inserts_l, sublist_skip, singleton_sublist_l.
  apply list_elem_of_fmap. exists (TargetId_device_id leaf). split.
  - destruct (decision _); [done|discriminate].
  - apply Hel. right. by apply list_elem_of_fmap_2.
Qed.

(** ** Tasks that act with permission

    [safe ds b t]: with permission for the devices [ds], and [b] implying a permission of
    any kind, the task [t] is guarded and keeps those permissions. *)

Section safe.
Context (ds : list DeviceId) (b : Prop).

Definition cleared (past : list event) : Prop :=
  (∀ d, d ∈ ds → permitted d past) ∧ (b → granted past).
Definition entitled : Prop := b ∨ ds ≠ [].
Definition safe {A} (t : task A) : Prop :=
  ∀ past, cleared past → WP t past (λ _ tr, cleared tr).

Lemma cleared_mono past past' : past `prefix_of` past' → cleared past → cleared past'.
Proof.
  intros Hp [Hd Hb]. split.
  - intros d Hin. by eapply permitted_mono, Hd.
  - intros Hb'. by eapply granted_mono, Hb.
Qed.
Lemma cleared_app past l : cleared past → cleared (past ++ l).
Proof. apply cleared_mono. by apply prefix_app_r. Qed.

Lemma cleared_granted past : entitled → cleared past → granted past.
Proof.
  intros [Hb|Hne] [Hd Hgr]; [auto|]. destruct ds as [|d ds']; [done|].
  eapply (permitted_granted d). apply Hd. left.
Qed.

Lemma safe_return {A} (a : A) : safe (Return a).
Proof. by intros past Hc. Qed.
Lemma safe_panic {A} : safe (Panic (A:=A)).
Proof. done. Qed.

Lemma safe_bind {A B} (t : task A) (h : A → task B) : safe t → (∀ a, safe (h a)) → safe (t ≫= h).
Proof.
  intros Ht Hh past Hc. apply wp_bind. eapply wp_mono; [by apply Ht|].
  intros a tr _ Hc'. by apply Hh.
Qed.
Lemma safe_attempt {E A B} (t : task (result E A)) (k : A → task (result E B)) :
  safe t → (∀ a, safe (k a)) → safe (attempt t k).
Proof. intros Ht Hk. apply safe_bind; [done|]. intros [a|e]; [done|apply safe_return]. Qed.
Lemma safe_or_return {E A B} (t : task (result E A)) (err : E → B) k :
  safe t → (∀ a, safe (k a)) → safe (or_return t err k).
Proof. intros Ht Hk. apply safe_bind; [done|]. intros [a|e]; [done|apply safe_return]. Qed.

Lemma safe_step {X} m (f : Outside → World → World * X) :
  (∀ o w, (f o w).1 = w ∨ saves w (f o w).1 ∨ entitled) →
  from_option message_devices [] m ⊆ ds → safe (Step m f Return).
Proof.
  intros Hf Hm past Hc o w w' x Hx. split; [|by apply cleared_app]. split.
  - specialize (Hf o w). rewrite Hx in Hf. cbn in Hf.
    destruct Hf as [|[|He]]; [by left|by right; left|]. right; right. by apply cleared_granted.
  - intros d Hd. by apply Hc, Hm.
Qed.
Lemma safe_reading {X} (f : Outside → World → X) : safe (reading f).
Proof. apply safe_step; [by left|]. apply list_subseteq_nil. Qed.
Lemma safe_locked {X} (f : Outside → DaemonState → DaemonState * X) : entitled → safe (locked f).
Proof. intros He. apply safe_step; [by right; right|]. apply list_subseteq_nil. Qed.
Lemma safe_calling {X} m (f : Outside → World → World * X) :
  entitled → message_devices m ⊆ ds → safe (calling m f).
Proof. intros He Hm. by apply safe_step; [right; right|]. Qed.
Lemma safe_ask operation resources : safe (ask operation resources).
Proof. intros past Hc d. split; [done|]. by apply cleared_app. Qed.
Lemma safe_publish e : entitled → safe (publish e).
Proof.
  intros He past Hc. split; [by apply cleared_granted|]. by apply cleared_app.
Qed.
Lemma safe_await ready : safe (Await ready (Return tt)).
Proof. by intros past Hc. Qed.

Lemma safe_catch {A} (t : task A) : safe t → safe (catch t).
Proof.
  intros Ht past Hc. apply wp_catch; [by apply Ht|]. intros tr Hp. by eapply cleared_mono.
Qed.
Lemma safe_for {E A} (f : A → task (result E unit)) l :
  (∀ x, x ∈ l → safe (f x)) → safe (task_for f l).
Proof. intros Hf past Hc. apply wp_task_for; [done|]. intros x tr Hx _. by apply Hf. Qed.
Lemma safe_map {A B} (f : A → task B) l : (∀ x, x ∈ l → safe (f x)) → safe (task_map f l).
Proof.
  induction l as [|x l IH]; intros Hf; [apply safe_return|]. cbn [task_map].
  apply safe_bind; [apply Hf; left|]. intros y.
  apply safe_bind; [apply IH; intros z Hz; apply Hf; by right|]. intros ys. apply safe_return.
Qed.

(** A task for fewer devices. *)
End safe.

Lemma safe_weaken ds ds' (b b' : Prop) {A} (t : task A) :
  ds' ⊆ ds → (b' → entitled ds b) → safe ds' b' t → ∀ past, cleared ds b past →
  WP t past (λ _ tr, cleared ds b tr).
Proof.
  intros Hds Hb Ht past Hc. eapply wp_mono; [apply Ht|].
  - split; [intros d Hd; by apply Hc, Hds|]. intros Hb'. eapply cleared_granted; [by apply Hb|done].
  - intros a tr Hp _. by eapply cleared_mono.
Qed.

Lemma safe_authorize operation ds b devices : safe ds b (authorize operation devices).
Proof.
  apply safe_bind; [apply safe_reading|]. intros [resources generation].
  apply safe_bind; [apply safe_ask|]. intros [|reason]; [|apply safe_return].
  apply safe_bind; [apply safe_reading|]. intros current. apply safe_return.
Qed.
Lemma safe_decide_each operation ds b resources : safe ds b (decide_each operation resources).
Proof. apply safe_map. intros x _. apply safe_ask. Qed.
Lemma safe_filter_devices operation ds b devices : safe ds b (filter_devices operation devices).
Proof.
  apply safe_bind; [apply safe_reading|]. intros [resources generation].
  apply safe_bind; [apply safe_decide_each|]. intros decisions.
  apply safe_bind; [apply safe_reading|]. intros current. apply safe_return.
Qed.

(** An operation of the plugin manager sends nothing about a device. *)
Lemma safe_on_manager ds b {A} (op' : pm_op A) : entitled ds b → safe ds b (on_manager op').
Proof.
  intros He.
  induction op' as [a|X f k IH|p k IH|p k IH|n k IH|k IH]; cbn [on_manager]; [apply safe_return|..].
  all: apply (safe_bind _ _ (Step _ _ Return)); [|exact IH].
  all: apply safe_step; [by right; right|apply list_subseteq_nil].
Qed.

(** A task that sends nothing, under some permission. *)
Lemma wp_granted {A} (t : task A) past :
  granted past → safe [] True t → WP t past (λ _ _, True).
Proof.
  intros Hgr Ht. eapply wp_mono; [apply Ht|done]. split; [by intros d ?%elem_of_nil|done].
Qed.

(** A task that only reads and asks is guarded from the start. *)
Lemma safe_wp {A} (t : task A) past : safe [] False t → WP t past (λ _ _, True).
Proof.
  intros Ht. eapply wp_mono; [apply Ht|done]. split; [|done]. intros d. by rewrite elem_of_nil.
Qed.

End permission.
End authz.

Create HintDb safe.
#[global] Hint Resolve safe_return safe_panic safe_bind safe_attempt safe_or_return safe_reading
  safe_locked safe_calling safe_ask safe_publish safe_await safe_catch safe_for safe_map
  safe_authorize safe_decide_each safe_filter_devices : safe.
