(* ===== verification/Executor.v ===== *)
(** * Mutations: [luminated/src/daemon/executor.rs]

    A mutation runs its job on a blocking thread, in the order of the device sequencers:
    it checks that the topology is the one that was authorized, reserves a generation per
    device, runs the job with the state unlocked between its own critical sections,
    saves a snapshot of the whole state and publishes the devices.  The claims: a
    mutation that reports success has saved a valid snapshot of the state; one whose
    authorization is stale does nothing; and acquiring the sequencers in the order of the
    device identifiers cannot deadlock. *)

From S2P Require Import Prelude Model Graph Scenes Transition Policy PolicyRuntime Daemon Topology Persistence Validation Observation TargetStates CollectionRegistry Descriptors Ownership PluginManager PluginApply TransitionRegistry Protocol Authorization Authentication PolicyFiles Tasks Authz.

(** [sort_by(as_str)] and [dedup]. *)
Definition normalize_device_ids (devices : list DeviceId) : list DeviceId :=
  dedup_adjacent (merge_sort device_le devices).

Definition stale_authorization : DaemonError :=
  DE_AuthorizationConflict (Lit "device topology changed after authorization; retry the request").

Definition is_partial (e : DaemonError) : bool :=
  match e with DE_PartialMutation _ _ => true | _ => false end.

(** Whether the outcome of a job is committed. *)
Definition committed {A} (r : daemon A) : bool :=
  match r with Ok _ => true | Err e => is_partial e end.

Section executor.
Context `{Wire, Env}.

(** [persistence::save_complete]: the state directory, the validation of the snapshot and
    the atomic replacement of the file. *)
Definition save_complete (o : Outside) (st : DaemonState) : result Text PersistedState :=
  _ ← out_state_dir o;
  _ ← map_err diagnostic
        (validate_complete (ds_target_state st) (ds_collections st) (ds_scenes st)
           (adopted_baseline_for_persistence st));
  _ ← out_replace_file o;
  Ok (snapshot_of st).

(** The commit: a snapshot on disk, or the pending adoption dropped. *)
Definition save_step : task (result Text unit) :=
  Step None (λ o w,
    match save_complete o (w_state w) with
    | Ok snapshot =>
        (set_disk (set_state w (finish_pending_adoption (w_state w) true)) (Some snapshot), Ok tt)
    | Err error => (w, Err error)
    end) Return.

Definition save_failed (error : Text) : DaemonError :=
  DE_Internal (Nested "mutation applied but failed to persist daemon state: {error}" [] error).

Definition run_mutation_job {T} (job : task (daemon T)) : task (daemon T) :=
  caught ← catch job;
  let result := default (Err (DE_Internal (Lit "mutation task panicked"))) caught in
  if committed result then
    saved ← save_step;
    match saved with
    | Ok _ => Return result
    | Err error =>
        _ ← locked (λ _ st, (finish_pending_adoption st false, tt));
        Return (Err (save_failed error))
    end
  else Return result.

(** The check of the authorized generation and the reservation of generations. *)
Definition reserve (devices : list DeviceId) (generation : option Z) : task (daemon unit) :=
  locked (λ _ st,
    if from_option (λ g, negb (ds_topology_generation st =? g)%Z) false generation
    then (st, Err stale_authorization)
    else (fold_left reserve_generation devices st, Ok tt)).

Definition execute_inner {T} (devices : list DeviceId) (generation : option Z)
    (job : task (daemon T)) (notify : bool) : task (daemon T) :=
  let devices := normalize_device_ids devices in
  attempt (reserve devices generation) (λ _,
    result ← run_mutation_job job;
    if notify && negb (bool_decide (devices = [])) && committed result then
      _ ← publish (StateChanged devices); Return result
    else Return result).

Definition execute_authorized {T} (devices : list DeviceId) (generation : Z)
    (job : task (daemon T)) : task (daemon T) :=
  execute_inner devices (Some generation) job true.
Definition execute_without_notification {T} (devices : list DeviceId) (job : task (daemon T)) :
    task (daemon T) :=
  execute_inner devices None job false.

(** Sequencing only restricts how runs interleave; the job runs as it is. *)
Definition execute_hardware_only (devices : list DeviceId) (job : task (daemon unit)) :
    task (daemon unit) := job.
Definition execute_hardware_only_authorized (devices : list DeviceId) (generation : Z)
    (job : task (daemon unit)) : task (daemon unit) :=
  current ← topology_is_current generation;
  if current : bool then job else Return (Err stale_authorization).

(** ** Applying a state *)

(** [PluginManager::apply_update], and its callers for each operation. *)
Definition send_update (target : TargetId) (operation : PluginUpdateOperation) :
    task (daemon unit) :=
  calling (Msg_Update (target, operation)) (λ o w,
    (w, apply_update (out_hosts o) (w_manager w) (to_plugin_update (target, operation)))).

Definition apply_target_state (target : TargetId) (state : TargetState) : task (daemon unit) :=
  match state with
  | TS_Effect (Effect_Static colour) =>
      attempt (reading (λ _ w, resolve_colour (w_state w) target colour)) (λ resolved,
        send_update target (Op_SetEffect (Effect_Static resolved)))
  | TS_Effect effect => send_update target (Op_SetEffect effect)
  | TS_Brightness value => send_update target (Op_SetBrightness value)
  | TS_AppearanceSlots values => send_update target (Op_SetAppearanceSlots values)
  | TS_Clear => send_update target Op_Clear
  end.

(** ** Dispatching: [dispatch/mod.rs] *)

Definition mutate (devices : list DeviceId) (generation : Z) (job : task (daemon unit)) :
    task Response :=
  result ← execute_authorized devices generation job;
  Return (match result with Ok _ => RS_Ack | Err error => response_of_error error end).

Definition mutate_collection (devices : list DeviceId) (generation : Z)
    (applied denied : list TargetId) (job : task (daemon unit)) : task Response :=
  result ← execute_authorized devices generation job;
  Return (match result with
          | Ok _ => RS_CollectionApplied applied denied
          | Err error => response_of_error error
          end).

(** Whether a transition controls one of the targets. *)
Definition overlaps (st : DaemonState) (controlled targets : list TargetId) : bool :=
  existsb (λ c, existsb (λ t, target_covers st c t || target_covers st t c) targets) controlled.

Definition overlapping_transitions (w : World) (targets : list TargetId) : list nat :=
  filter (λ address,
      from_option (λ s, overlaps (w_state w) (ts_targets s) targets) false
        (snapshot (w_transitions w) address) = true)
    (TransitionRegistry_active (w_transitions w)).

Definition cancel_transition_targets_with_reason (targets : list TargetId)
    (reason : TransitionCancellation) : task unit :=
  overlapping ← reading (λ _ w, overlapping_transitions w targets);
  _ ← task_map (λ address,
        Step None (λ _ w, (set_transitions w (request_abort (w_transitions w) address reason), tt))
          Return) overlapping;
  _ ← task_map (λ address,
        Await (λ w, entry_terminal (w_transitions w) address) (Return tt)) overlapping;
  Return tt.
Definition cancel_transition_targets (targets : list TargetId) : task unit :=
  cancel_transition_targets_with_reason targets ConflictingMutation.

(** ** Permission *)

Section permission.
Context (op : Operation).
Notation WP := (wp (guarded op)).

Lemma normalize_nil devices : normalize_device_ids devices = [] → devices = [].
Proof.
  intros Hn%dedup_adjacent_nil. apply Permutation_nil_r. rewrite <-Hn.
  symmetry. apply merge_sort_Permutation.
Qed.

Lemma safe_save_step ds b : safe op ds b save_step.
Proof.
  apply safe_step; [|apply list_subseteq_nil]. intros o w.
  destruct (save_complete _ _); cbn; [|by left]. right; left. destruct w. unfold saves. split_and!; [done..|by exists true].
Qed.

Lemma safe_run_mutation_job {T} ds b (job : task (daemon T)) :
  safe op ds b job → safe op ds b (run_mutation_job job).
Proof.
  intros Hjob. apply safe_bind; [by apply safe_catch|]. intros caught. cbn zeta.
  destruct (committed _); [|apply safe_return].
  apply safe_bind; [apply safe_save_step|]. intros [[]|error]; [apply safe_return|].
  apply safe_bind; [|intros; apply safe_return].
  apply safe_step; [|apply list_subseteq_nil]. intros o w. right; left. destruct w.
  unfold saves. split_and!; [done..|by exists false].
Qed.

(** A mutation of [devices] under the permission for [ds]. *)
Lemma wp_execute_inner {T} ds b devices g (job : task (daemon T)) notify past :
  (∀ d, d ∈ ds → authorised op d g past) → (b → granted op past) →
  (devices ≠ [] → entitled ds b) → safe op ds b job →
  WP (execute_inner devices (Some g) job notify) past (λ _ _, True).
Proof.
  intros Hds Hb Hdev Hjob.
  assert (entitled ds b → granted op past) as Hent.
  { intros [Hb'|Hne]; [auto|]. destruct ds as [|d ds']; [done|].
    eapply authorised_granted. apply Hds. left. }
  apply wp_attempt. intros o w w' x. cbn.
  destruct (negb _) eqn:Hg; intros [= <- <-].
  { split; [|done]. split; [left; by destruct w|]. by intros d ?%elem_of_nil. }
  apply negb_false_iff, Z.eqb_eq in Hg. split.
  - split; [|by intros d ?%elem_of_nil].
    destruct (normalize_device_ids devices) as [|d l] eqn:Hn.
    + left. by destruct w.
    + right; right. apply Hent, Hdev. intros ->. done.
  - cbn [wp]. assert (cleared op ds b (past ++ [Stepped None o w (set_state w
       (fold_left reserve_generation (normalize_device_ids devices) (w_state w)))])) as Hc.
    { split; [intros d Hd; by eapply permitted_by_step; [apply Hds|]|].
      intros Hb'. eapply granted_mono, Hb; [by apply prefix_app_r|done]. }
    apply wp_bind. eapply wp_mono; [by apply safe_run_mutation_job|].
    intros result tr Hp Hc'. case_match eqn:Hnotify; [|done].
    apply andb_true_iff in Hnotify as [[_ Hne]%andb_true_iff _].
    apply negb_true_iff, bool_decide_eq_false in Hne. split; [|done].
    apply (cleared_granted op ds b); [|exact Hc']. apply Hdev. intros ->. by apply Hne.
Qed.

Lemma wp_mutate ds b devices g (job : task (daemon unit)) past :
  (∀ d, d ∈ ds → authorised op d g past) → (b → granted op past) →
  (devices ≠ [] → entitled ds b) → safe op ds b job →
  WP (mutate devices g job) past (λ _ _, True).
Proof. intros ????. apply wp_bind. by eapply wp_mono; [eapply wp_execute_inner|]. Qed.
Lemma wp_mutate_collection ds b devices g applied denied (job : task (daemon unit)) past :
  (∀ d, d ∈ ds → authorised op d g past) → (b → granted op past) →
  (devices ≠ [] → entitled ds b) → safe op ds b job →
  WP (mutate_collection devices g applied denied job) past (λ _ _, True).
Proof. intros ????. apply wp_bind. by eapply wp_mono; [eapply wp_execute_inner|]. Qed.

Lemma safe_send_update ds b target operation :
  TargetId_device_id target ∈ ds → safe op ds b (send_update target operation).
Proof. intros Hin. apply safe_step; [by left|]. cbn. intros d ->%list_elem_of_singleton. done. Qed.
Lemma safe_apply_target_state ds b target state :
  TargetId_device_id target ∈ ds → safe op ds b (apply_target_state target state).
Proof.
  intros Hin. unfold apply_target_state. repeat case_match; try by apply safe_send_update.
  apply safe_attempt; [apply safe_reading|]. intros. by apply safe_send_update.
Qed.

Lemma overlapping_nil w : overlapping_transitions w [] = [].
Proof.
  unfold overlapping_transitions. induction (TransitionRegistry_active _) as [|a l IH]; [done|].
  rewrite filter_cons, IH, decide_False; [done|].
  destruct (snapshot _ _) as [s|]; [|done]. cbn. unfold overlaps.
  induction (ts_targets s) as [|t ts IHt]; [done|]. by cbn.
Qed.

(** Cancelling keeps every permission; without targets it cancels nothing. *)
Lemma wp_cancel targets reason past :
  (targets ≠ [] → granted op past) →
  WP (cancel_transition_targets_with_reason targets reason) past (λ _ _, True).
Proof.
  intros Hgr. apply wp_bind, wp_reading. intros o w.
  destruct targets as [|t targets]; [by rewrite overlapping_nil|].
  eapply wp_mono; [|done]. apply (safe_weaken op [] [] True True); [done|by left| |].
  - apply safe_bind; [|intros _; apply safe_bind; [|intros; apply safe_return]].
    + apply safe_map. intros a _. apply safe_step; [right; right; by left|apply list_subseteq_nil].
    + apply safe_map. intros a _. apply safe_await.
  - split; [by intros d ?%elem_of_nil|]. intros _.
    eapply granted_mono, Hgr; [by apply prefix_app_r|done].
Qed.
End permission.

(** ** Commits *)

Section commits.
Notation WP := (wp (λ _ _, True)).

(** A save of the state in [w], with its outcome on disk. *)
Definition saved (e : event) : Prop :=
  ∃ o w w', e = Stepped None o w w' ∧ w_disk w' = Some (snapshot_of (w_state w)) ∧
    snapshot_wf (snapshot_of (w_state w)) ∧ w_state w' = finish_pending_adoption (w_state w) true.

Lemma save_complete_Ok o st snapshot :
  save_complete o st = Ok snapshot → snapshot = snapshot_of st ∧ snapshot_wf snapshot.
Proof.
  unfold save_complete. intros Hs. res_inv. split; [done|].
  apply ensure_persistable_Ok. unfold ensure_persistable. apply map_err_Ok.
  apply map_err_Ok in E0. by destruct a0.
Qed.

Lemma wp_save_step past (Q : result Text unit → list event → Prop) :
  (∀ e, saved e → Q (Ok tt) (past ++ [e])) → (∀ error tr, past `prefix_of` tr → Q (Err error) tr) →
  WP save_step past Q.
Proof.
  intros Hok Herr o w w' x Hx. split; [done|]. cbn [wp].
  destruct (save_complete _ _) as [snapshot|error] eqn:Hs; injection Hx as <- <-.
  - apply save_complete_Ok in Hs as [-> Hwf]. apply Hok. exists o, w. eexists.
    split; [done|]. by destruct w.
  - apply Herr. by apply prefix_app_r.
Qed.

(** The job runs first; a committed outcome is saved last. *)
Lemma wp_run_mutation_job {T} (job : task (daemon T)) past (Q J : daemon T → list event → Prop) :
  WP job past J →
  (∀ r tr e, J r tr → committed r = true → saved e → Q r (tr ++ [e])) →
  (∀ r tr, past `prefix_of` tr → committed r = false → Q r tr) →
  WP (run_mutation_job job) past Q.
Proof.
  intros Hjob Hsaved Hfailed. apply wp_bind.
  apply wp_catch; [|intros tr Hp; by apply Hfailed].
  eapply wp_mono; [exact Hjob|]. intros r tr Hp HJ. cbn zeta. cbn [from_option id].
  destruct (committed r) eqn:Hc; [|by apply Hfailed].
  apply wp_bind, wp_save_step; [by intros e He; apply Hsaved|].
  intros error tr' Hp'. apply wp_bind, wp_any; [done|]. intros [] tr'' Hp''.
  apply Hfailed; [|done]. etrans; [exact Hp|]. by etrans.
Qed.

Lemma wp_execute_authorized {T} devices g (job : task (daemon T)) :
  WP (execute_authorized devices g job) [] (λ r tr,
    ∃ o w w' rest, tr = Stepped None o w w' :: rest ∧
      (topology_generation w ≠ g ∧ w' = w ∧ rest = [] ∧ r = Err stale_authorization ∨
       topology_generation w = g ∧
       w_state w' = fold_left reserve_generation (normalize_device_ids devices) (w_state w) ∧
       (committed r = true →
        ∃ before e, saved e ∧
          rest = before ++ e ::
                   (if decide (devices = []) then []
                    else [Published (StateChanged (normalize_device_ids devices))])))).
Proof.
  apply wp_attempt. intros o w w' x. cbn. destruct (negb _) eqn:Hg; intros [= <- <-].
  - split; [done|]. exists o, w, (set_state w (w_state w)), []. split; [done|]. left.
    apply negb_true_iff, Z.eqb_neq in Hg. by destruct w.
  - apply negb_false_iff, Z.eqb_eq in Hg. split; [done|]. cbn [wp]. apply wp_bind.
    set (w' := set_state w _). assert (w_state w' = fold_left reserve_generation
      (normalize_device_ids devices) (w_state w)) as Hw' by by destruct w.
    eapply (wp_run_mutation_job _ _ _ (λ _ tr, [Stepped None o w w'] `prefix_of` tr)).
    + by apply wp_any.
    + intros r tr e [rest ->] Hc He. rewrite Hc, andb_true_r.
      destruct (decide (devices = [])) as [->|Hne].
      * cbn [wp]. exists o, w, w', (rest ++ [e]). split; [done|]. right. split_and!; [done..|].
        intros _. by exists rest, e.
      * rewrite bool_decide_eq_false_2; [|by intros ?%normalize_nil].
        split; [done|].
        exists o, w, w', ((rest ++ [e]) ++ [Published (StateChanged (normalize_device_ids devices))]).
        split; [done|]. right. split_and!; [done..|].
        intros _. exists rest, e. split; [done|]. by rewrite <-app_assoc.
    + intros r tr [rest ->] Hc. rewrite Hc, andb_false_r. cbn [wp].
      exists o, w, w', rest. split; [done|]. right. split_and!; [done..|]. by rewrite Hc.
Qed.

(** A successful mutation: what its job did, then a save. *)
Lemma wp_execute_Ok {T} devices g (job : task (daemon T)) past (J : T → list event → Prop) :
  (∀ past', past `prefix_of` past' → WP job past' (λ r tr, ∀ x, r = Ok x → J x tr)) →
  WP (execute_authorized devices g job) past (λ r tr,
    ∀ x, r = Ok x → ∃ before e after, tr = before ++ e :: after ∧ J x before ∧ saved e).
Proof.
  intros Hjob. apply wp_attempt. intros o w w' x Hx. split; [done|]. cbn [wp].
  destruct x as [[]|error]; [|done]. apply wp_bind.
  eapply wp_run_mutation_job; [apply Hjob; by apply prefix_app_r| |].
  - intros r tr e HJ Hc He.
    assert (∀ x, r = Ok x → ∃ before e' after, tr ++ [e] = before ++ e' :: after ∧ J x before ∧ saved e')
      as Hdone by (intros x ->; by exists tr, e, []; eauto).
    destruct (_ && committed r); [|exact Hdone]. split; [done|]. intros x Hr.
    destruct (Hdone x Hr) as (before & e' & after & Heq & ? & ?).
    exists before, e', (after ++ [Published (StateChanged (normalize_device_ids devices))]).
    rewrite Heq, <-app_assoc. done.
  - intros r tr Hp Hc. rewrite Hc, andb_false_r. intros x ->. done.
Qed.

(** The events of a successful mutation, if its job, the reservation and the save keep
    [K]. *)
Lemma wp_execute_collect {T} (K : event → Prop) devices g (job : task (daemon T)) past :
  (∀ o w w', w_state w' = w_state w ∨
     w_state w' = fold_left reserve_generation (normalize_device_ids devices) (w_state w) ∨
     (∃ persisted, w_state w' = finish_pending_adoption (w_state w) persisted) →
     K (Stepped None o w w')) →
  (∀ e, K (Published e)) →
  (∀ past', Forall K past' → WP job past' (λ r tr, ∀ x, r = Ok x → Forall K tr)) →
  Forall K past →
  WP (execute_authorized devices g job) past (λ r tr, ∀ x, r = Ok x → Forall K tr).
Proof.
  intros HK Hpub Hjob Hpast. apply wp_attempt. intros o w w' x Hx. split; [done|]. cbn [wp].
  assert (Forall K (past ++ [Stepped None o w w'])) as Hpast'.
  { apply Forall_app_2; [done|]. constructor; [|done]. apply HK. cbn in Hx.
    destruct (negb _); injection Hx as <- <-; destruct w; auto. }
  destruct x as [[]|error]; [|done]. apply wp_bind, wp_bind.
  apply wp_catch; [|intros tr _; apply wp_return; cbn [committed is_partial];
    by rewrite andb_false_r].
  eapply wp_mono; [by apply Hjob|]. intros r tr _ Htr.
  cbn zeta. cbn [from_option id]. destruct r as [y|error].
  - cbn [committed]. apply wp_bind. intros o2 w2 w2' x2 Hx2. split; [done|]. cbn [wp].
    assert (Forall K (tr ++ [Stepped None o2 w2 w2'])) as Htr'.
    { apply Forall_app_2; [by apply (Htr y)|]. constructor; [|done]. apply HK.
      destruct (save_complete _ _); injection Hx2 as <- <-; [|by left].
      right; right. exists true. by destruct w2. }
    destruct x2 as [[]|error2].
    + apply wp_return. destruct (negb _); [|by intros z _]. split; [done|]. intros z _.
      apply Forall_app_2; [done|]. by constructor.
    + apply wp_bind, wp_any; [done|]. intros [] tr2 _. apply wp_return.
      cbn [committed is_partial save_failed]. by rewrite andb_false_r.
  - destruct (committed (Err error)) eqn:Hc; [|by apply wp_return; rewrite Hc, andb_false_r].
    apply wp_bind. intros o2 w2 w2' [[]|error2] _; (split; [done|]); cbn [wp].
    + do 2 apply wp_return. destruct (_ && committed _); [split; [done|]|]; by intros z.
    + apply wp_bind, wp_any; [done|]. intros [] tr2 _. apply wp_return. cbn [committed is_partial save_failed].
      by rewrite andb_false_r.
Qed.
End commits.
End executor.

#[global] Hint Resolve safe_save_step safe_run_mutation_job safe_send_update
  safe_apply_target_state : safe.

(** ** An example *)

Module Running.
Definition wire : Wire := {|
  ManagementPatch := unit; ManagementSnapshot := unit; ManagementChangeSet := unit;
  PluginSetupSessionId := unit; PluginSetupInteractionResponse := unit;
  PluginSetupWorkflow := unit; PluginSetupSession := unit |}.
Definition outside : Outside := {|
  out_now := 1000; out_instant := 1000; out_changed := false; out_uuid := "0123456789abcdef0123456789abcdef0123";
  out_hosts := Answering.hosts;
  out_apply_frame _ _ _ := Ok Outcome_Applied;
  out_state_dir := Ok tt; out_replace_file := Ok tt;
  out_reload _ := Ok []; out_topology _ := Ok []; out_rescan _ _ := Ok tt; out_plugin_id := Loaded.ids 7;
  out_spawned _ := Err (Lit "no such plugin");
  out_shm_outcome _ := Ok (Shm_Ready 64); out_shm_opened := true; out_shm_sent := true;
  out_connection_epoch := 0; out_client_shm := Ok ("frames"%string, "events"%string, 5%Z);
  out_rescan_accepted := true;
  out_config := {| dc_reconciliation_policy := None; dc_device_reconciliation := ∅ |}; out_random := Ok Desk.secret; out_token_file := Desk.file;
  out_audit := Ok tt |}.
Definition policy_file : PolicyFileStore := {|
  pfs_file := Ok None; pfs_fallback := Some (sample_document 1); pfs_directory := Ok tt;
  pfs_payload _ := Ok 100%Z; pfs_replaced := Ok tt |}.
Definition policy : RuntimeAccessPolicy PolicyFileStore := {|
  rap_store := policy_file; rap_recovery := sample_document 0; rap_active := sample_document 1;
  rap_replacing := false |}.
(** A keyboard with a white backlight. *)
Definition capabilities : CapabilitySet := {|
  cs_colour := [ColourCapability_Monochrome 8]; cs_cct_emulation := CctEmulation_Auto;
  cs_brightness := Brightness_Independent 8 255 Scope_Device; cs_frame_upload := None;
  cs_hardware_effects := None; cs_appearance_slots := None; cs_persistence := Persistence_None;
  cs_state_readback := Readback_None; cs_emission := true; cs_off_is_wear_safe := true;
  cs_physical_power := None; cs_power_domain := None |}.
Definition device : Device := {|
  device_id := DeviceId_new "kbd"; device_name := "keyboard"; device_vendor := None;
  device_model := None; device_provider_instance := None; device_surfaces := [];
  device_groups := []; device_capabilities := capabilities; device_category := None;
  device_physical_tags := []; device_host_attached := true; device_notes := [];
  device_warnings := [] |}.
Definition target : TargetId := TargetId_device "kbd".
Definition world : World := {|
  w_state := from_devices [device]; w_manager := Loaded.manager;
  w_transitions := TransitionRegistry_default; w_disk := None; w_owned_streams := [];
  w_authentication := AuthenticationService_default; w_policy := policy |}.
(** A task alone in a world, under a policy that allows everything. *)
Definition run_in {A} (w : World) (t : @task wire A) : list event * World * outcome A :=
  default ([], w, Stopped) (exec (λ _ _, Allow) outside w t).
Definition run {A} (t : @task wire A) : list event * World * outcome A := run_in world t.
End Running.

Lemma run_in_runs {A} w (t : @task Running.wire A) a :
  (Running.run_in w t).2 = Done a →
  runs (λ _ _, False) (λ _ _ d, d = Allow) w t (Running.run_in w t).1.1 (Running.run_in w t).1.2
    (Done a).
Proof.
  unfold Running.run_in. destruct (exec _ _ _ _) as [[[tr w'] r]|] eqn:He; cbn; [|done].
  intros ->. by eapply exec_runs.
Qed.
