(* ===== verification/Sequencers.v ===== *)
(** * Device sequencers: the locks of [luminated/src/daemon/executor.rs]

    Jobs acquire one mutex per device before they run.  [run_normalized_sequenced_job]
    acquires them in the order of the device identifiers; the claims show that jobs which
    do so never deadlock, whatever jobs arrive, and that the topology job, which acquires
    the sequencers of reappearing devices while it holds those of the known ones
    ([daemon/topology.rs]), can deadlock with one. *)

From S2P Require Import Prelude Model Daemon Topology Executor.

(** ** The order of acquisition *)

Definition device_lt (a b : DeviceId) : Prop := device_le a b ∧ a ≠ b.

#[export] Instance device_le_trans : Transitive device_le.
Proof. intros a b c. unfold device_le. apply transitivity. Qed.
#[export] Instance device_le_total : Total device_le.
Proof. intros a b. unfold device_le. apply total, _. Qed.
#[export] Instance device_le_antisymm : AntiSymm (=) device_le.
Proof.
  intros [a] [b] Hab Hba. f_equal. unfold device_le in *. cbn in *. by apply (anti_symm String.le).
Qed.

Lemma device_lt_trans a b c : device_lt a b → device_lt b c → device_lt a c.
Proof.
  intros [H1 Hne] [H2 Hne']. split; [by etrans|]. intros ->. apply Hne'. by apply (anti_symm device_le).
Qed.

Lemma dedup_adjacent_sorted l :
  StronglySorted device_le l → StronglySorted device_lt (dedup_adjacent l).
Proof.
  induction 1 as [|x l Hl IH Hx]; [constructor|]. cbn.
  assert (∀ y, y ∈ dedup_adjacent l → device_le x y) as Hle.
  { intros y Hy. rewrite elem_of_dedup_adjacent in Hy. rewrite Forall_forall in Hx. by apply Hx. }
  destruct (dedup_adjacent l) as [|z l'] eqn:E; [repeat constructor|].
  case_decide as Hxz; [done|]. constructor; [done|].
  assert (device_lt x z) as Hlt by (split; [apply Hle; left|done]).
  constructor; [done|]. inversion IH as [|? ? ? Hz]; subst.
  eapply Forall_impl; [exact Hz|]. intros y. by apply device_lt_trans.
Qed.

(** The devices, each once, in order. *)
Lemma normalize_sorted devices : StronglySorted device_lt (normalize_device_ids devices).
Proof. apply dedup_adjacent_sorted, StronglySorted_merge_sort; apply _. Qed.
Lemma elem_of_normalize devices d : d ∈ normalize_device_ids devices ↔ d ∈ devices.
Proof. unfold normalize_device_ids. by rewrite elem_of_dedup_adjacent, merge_sort_Permutation. Qed.

(** ** Jobs and their locks *)

(** A job has some sequencers and waits for others, the first one next. *)
Record SequencedJob := { sj_held : list DeviceId; sj_wanted : list DeviceId }.

(** [run_normalized_sequenced_job], before it has locked anything. *)
Definition sequenced_job (devices : list DeviceId) : SequencedJob :=
  {| sj_held := []; sj_wanted := normalize_device_ids devices |}.

(** A job locks a free sequencer; a job with all of its sequencers runs and drops them. *)
Inductive lock_step (jobs : list SequencedJob) : list SequencedJob → Prop :=
| lock_acquire i held d wanted :
    jobs !! i = Some {| sj_held := held; sj_wanted := d :: wanted |} →
    (∀ j job, jobs !! j = Some job → d ∉ sj_held job) →
    lock_step jobs (<[i := {| sj_held := held ++ [d]; sj_wanted := wanted |}]> jobs)
| lock_finish i held :
    jobs !! i = Some {| sj_held := held; sj_wanted := [] |} →
    lock_step jobs (delete i jobs).

(** Jobs arrive at any time. *)
Inductive sequencer_step (jobs : list SequencedJob) : list SequencedJob → Prop :=
| seq_arrive devices : sequencer_step jobs (jobs ++ [sequenced_job devices])
| seq_lock jobs' : lock_step jobs jobs' → sequencer_step jobs jobs'.

(** What is left to do. *)
Definition work (jobs : list SequencedJob) : nat :=
  sum_list_with (λ job, S (length (sj_wanted job))) jobs.

(** ** The sequencers that a rescan adds *)

(** [sequencers_for_new_devices] *)
Definition new_devices (known changed : list DeviceId) : list DeviceId :=
  normalize_device_ids (filter (λ d, d ∉ known) changed).

(** The topology job locks the known devices, then, while it runs, the new ones. *)
Definition topology_job (known changed : list DeviceId) : SequencedJob :=
  {| sj_held := []; sj_wanted := normalize_device_ids known ++ new_devices known changed |}.

(** ** Progress *)

(** A job waits only for sequencers above those it has. *)
Definition ordered (job : SequencedJob) : Prop :=
  StronglySorted device_lt (sj_wanted job) ∧
  ∀ h d, h ∈ sj_held job → d ∈ sj_wanted job → device_lt h d.

Lemma lock_step_ordered jobs jobs' : lock_step jobs jobs' → Forall ordered jobs → Forall ordered jobs'.
Proof.
  intros [i held d wanted Hi Hfree|i held Hi] Hall.
  - apply Forall_insert; [done|]. eapply Forall_lookup_1 in Hall as [Hs Hh]; [|exact Hi].
    cbn in *. apply StronglySorted_inv in Hs as [Hs Hd]. split; [done|]. cbn.
    intros h d' [Hin| ->%list_elem_of_singleton]%elem_of_app Hd'; [by apply Hh; [|right]|].
    rewrite Forall_forall in Hd. by apply Hd.
  - apply Forall_forall. intros job Hin. rewrite Forall_forall in Hall. apply Hall.
    eapply elem_of_sublist; [exact Hin|]. apply sublist_delete.
Qed.

Lemma sequencer_steps_ordered jobs : rtc sequencer_step [] jobs → Forall ordered jobs.
Proof.
  intros Hr. assert (Forall ordered []) as Hnil by constructor. revert Hnil.
  induction Hr as [|jobs1 jobs2 jobs3 Hs _ IH]; [done|]. intros Hall. apply IH.
  destruct Hs as [devices|jobs' Hl]; [|by eapply lock_step_ordered].
  apply Forall_app. split; [done|]. constructor; [|done]. split; [apply normalize_sorted|].
  intros h d. cbn. by rewrite elem_of_nil.
Qed.

(** Among jobs that all wait, one waits for the greatest sequencer. *)
Lemma greatest_wanted (jobs : list SequencedJob) :
  jobs ≠ [] → (∀ job, job ∈ jobs → sj_wanted job ≠ []) →
  ∃ i held d wanted, jobs !! i = Some {| sj_held := held; sj_wanted := d :: wanted |} ∧
    ∀ job d' wanted', job ∈ jobs → sj_wanted job = d' :: wanted' → device_le d' d.
Proof.
  induction jobs as [|[held [|d wanted]] jobs IH]; intros Hne Hall; [done| |].
  { exfalso. by apply (Hall {| sj_held := held; sj_wanted := [] |}); [left|]. }
  destruct jobs as [|job jobs].
  { exists 0, held, d, wanted. split; [done|].
    intros job d' wanted' ->%list_elem_of_singleton [= <- <-]. by destruct (total device_le d d). }
  destruct IH as (i & held2 & d2 & wanted2 & Hi & Hmax); [done|intros; apply Hall; by right|].
  destruct (total device_le d d2) as [Hle|Hle].
  - exists (S i), held2, d2, wanted2. split; [done|].
    intros job' d' wanted' [->|Hin]%elem_of_cons Hw; [by simplify_eq/=|by eapply Hmax].
  - exists 0, held, d, wanted. split; [done|].
    intros job' d' wanted' [->|Hin]%elem_of_cons Hw; [injection Hw as <- <-; by destruct (total device_le d d)|].
    etrans; [by eapply Hmax|done].
Qed.

Lemma ordered_progress jobs : Forall ordered jobs → jobs ≠ [] → ∃ jobs', lock_step jobs jobs'.
Proof.
  intros Hall Hne.
  destruct (decide (Exists (λ job, sj_wanted job = []) jobs)) as [Hex|Hno].
  { apply Exists_exists in Hex as ([held wanted] & [i Hi]%list_elem_of_lookup & Hw). cbn in Hw.
    subst wanted. eexists. by eapply lock_finish. }
  destruct (greatest_wanted jobs Hne) as (i & held & d & wanted & Hi & Hmax).
  { intros job Hin Hw. apply Hno, Exists_exists. eauto. }
  eexists. eapply lock_acquire; [exact Hi|]. intros j job Hj Hd.
  assert (job ∈ jobs) as Hin by by eapply list_elem_of_lookup_2.
  destruct (sj_wanted job) as [|d' wanted'] eqn:Hw.
  { apply Hno, Exists_exists. eauto. }
  rewrite Forall_forall in Hall. destruct (Hall job Hin) as [_ Hlt].
  destruct (Hlt d d') as [Hle Hneq]; [done|rewrite Hw; left|].
  apply Hneq. apply (anti_symm device_le); [done|]. by eapply Hmax.
Qed.

Lemma lock_step_work jobs jobs' : lock_step jobs jobs' → work jobs' < work jobs.
Proof.
  intros [i held d wanted Hi Hfree|i held Hi].
  - unfold work. rewrite <-(take_drop_middle jobs i _ Hi) at 2.
    rewrite insert_take_drop by (by eapply lookup_lt_Some).
    rewrite !sum_list_with_app. cbn. lia.
  - unfold work. rewrite <-(take_drop_middle jobs i _ Hi) at 2. rewrite delete_take_drop.
    rewrite !sum_list_with_app. cbn. lia.
Qed.

(** ** Claims *)

(** C8: Jobs that lock the sequencers of their devices in the order of the identifiers
    never deadlock: whatever jobs arrive and however they interleave, while a job is
    unfinished some job can take a step, and each step reduces the work that is left, so
    that every job finishes once no more arrive. *)
Theorem sequencers_never_deadlock jobs :
  rtc sequencer_step [] jobs →
  (jobs ≠ [] → ∃ jobs', lock_step jobs jobs') ∧
  (∀ jobs', lock_step jobs jobs' → work jobs' < work jobs).
Proof.
  intros Hr%sequencer_steps_ordered. split; [by apply ordered_progress|apply lock_step_work].
Qed.

(** The topology job can deadlock with a mutation.  A mutation of a withdrawn device
    and a known one holds the first and waits for the second, which the topology job
    holds while it waits for the sequencer of the first, which has reappeared: no step
    is possible. *)
Theorem topology_job_deadlocks :
  let lamp := DeviceId_new "lamp" in
  let strip := DeviceId_new "strip" in
  ∃ jobs, rtc lock_step [sequenced_job [strip; lamp]; topology_job [strip] [lamp]] jobs ∧
    jobs ≠ [] ∧ ¬ ∃ jobs', lock_step jobs jobs'.
Proof.
  intros lamp strip.
  exists [{| sj_held := [lamp]; sj_wanted := [strip] |}; {| sj_held := [strip]; sj_wanted := [lamp] |}].
  split_and!; [|done|].
  - eapply rtc_l; [eapply (lock_acquire _ 0 [] lamp [strip]); [by vm_compute|]|].
    { intros j job Hj%list_elem_of_lookup_2. repeat (apply elem_of_cons in Hj as [->|Hj]; [set_solver|]).
      by apply elem_of_nil in Hj. }
    eapply rtc_l; [eapply (lock_acquire _ 1 [] strip [lamp]); [by vm_compute|]|].
    { intros j job Hj%list_elem_of_lookup_2. cbn in Hj.
      apply elem_of_cons in Hj as [->|Hj]; [cbn; by intros ?%list_elem_of_singleton|].
      apply elem_of_cons in Hj as [->|Hj]; [set_solver|]. by apply elem_of_nil in Hj. }
    apply rtc_refl.
  - intros [jobs' [[|[|i]] held d wanted Hi Hfree|[|[|i]] held Hi]]; simplify_eq/=.
    + eapply (Hfree 1); [done|by left].
    + eapply (Hfree 0); [done|by left].
Qed.

Lemma sequencers_never_deadlock_witness :
  let jobs := [sequenced_job [DeviceId_new "strip"; DeviceId_new "lamp"]] in
  (jobs ≠ [] → ∃ jobs', lock_step jobs jobs') ∧
  (∀ jobs', lock_step jobs jobs' → work jobs' < work jobs).
Proof.
  intros jobs. apply (sequencers_never_deadlock jobs). apply rtc_once.
  apply (seq_arrive [] [DeviceId_new "strip"; DeviceId_new "lamp"]).
Defined.
