(* ===== verification/Appearance.v ===== *)
(** * Appearance requests: [luminated/src/daemon/dispatch/appearance.rs]

    Setting effects, brightness and appearance slots, clearing, restoring and saving, on
    one target or on a list of leaves under per-device permission.  The claims: an
    acknowledged effect was taken by the plugin, recorded and saved; restoration sends
    nothing before every member of every target has been resolved; and a fan-out that
    succeeds everywhere leaves no record of the state it set. *)

From S2P Require Import Prelude Model Graph Scenes Transition Policy PolicyRuntime Daemon Topology Persistence Validation Observation TargetStates CollectionRegistry FrameStreams Descriptors Ownership PluginManager PluginApply TransitionRegistry Protocol Authorization Authentication PolicyFiles Tasks Authz Executor.

Section appearance.
Context `{Wire, Env}.

(** ** Jobs *)

Definition record_effect (target : TargetId) (effect : Effect) : task (daemon unit) :=
  locked (λ o st, set_effect (out_now o) st target effect).

Definition set_appearance_slots_job (target : TargetId) (values : list AppearanceSlotValue) :
    task (daemon unit) :=
  attempt (reading (λ _ w, validate_appearance_slot_values (w_state w) target values)) (λ values,
  attempt (send_update target (Op_SetAppearanceSlots values)) (λ _,
  locked (λ o st, set_appearance_slots (out_now o) st target values))).

Definition resolve_effect (st : DaemonState) (target : TargetId) (effect : Effect) : daemon Effect :=
  match effect with
  | Effect_Static colour => Effect_Static <$> resolve_colour st target colour
  | _ => _ ← validate_effect st target effect; Ok effect
  end.

Definition set_effect_job (target : TargetId) (effect : Effect) : task (daemon unit) :=
  attempt (reading (λ _ w, resolve_effect (w_state w) target effect)) (λ applied_effect,
  attempt (send_update target (Op_SetEffect applied_effect)) (λ _, record_effect target effect)).

Definition set_brightness_job (target : TargetId) (value : Z) : task (daemon unit) :=
  attempt (reading (λ _ w, validate_brightness (w_state w) target value)) (λ _,
  attempt (send_update target (Op_SetBrightness value)) (λ _,
  locked (λ o st, set_brightness (out_now o) st target value))).

Definition clear_target_job (target : TargetId) : task (daemon unit) :=
  attempt (reading (λ _ w, ensure_target_exists (w_state w) target)) (λ _,
  attempt (send_update target Op_Clear) (λ _,
  locked (λ o st, clear_target (out_now o) st target))).

(** *** Restoration *)

Definition appearance_target_state (appearance : AppearanceState) : option TargetState :=
  match appearance with
  | Appearance_Static colour => Some (TS_Effect (Effect_Static colour))
  | Appearance_Effect Effect_Off | Appearance_Mixed => None
  | Appearance_Effect effect => Some (TS_Effect effect)
  end.

Definition target_states_equal (a b : TargetState) : bool :=
  match a, b with
  | TS_Effect a, TS_Effect b => bool_decide (a = b)
  | _, _ => false
  end.

Definition restore_member (st : DaemonState) (member : TargetId) : daemon (TargetId * TargetState) :=
  _ ← ensure_not_frame_streaming st member;
  appearance ← ok_or (retained_appearance st member ≫= appearance_target_state)
                 (DE_UnknownState member);
  _ ← validate_target_state st member appearance;
  Ok (member, appearance).

Definition restore_target (st : DaemonState) (target : TargetId) :
    daemon (list (TargetId * TargetState)) :=
  _ ← ensure_target_exists st target;
  target_operations ← try_map (restore_member st) (canonical_observation_targets st target);
  match target with
  | TargetId_Group _ _ =>
      match target_operations with
      | [] => Err (DE_UnknownState target)
      | (_, first) :: _ =>
          if forallb (λ operation, target_states_equal operation.2 first) target_operations &&
             is_ok (validate_target_state st target first)
          then Ok [(target, first)]
          else Ok target_operations
      end
  | _ => Ok target_operations
  end.

(** Every operation, before the first one is sent. *)
Definition restore_plan (st : DaemonState) (targets : list TargetId) :
    daemon (list (TargetId * TargetState)) :=
  parts ← try_map (restore_target st) targets;
  Ok (mjoin (parts : list (list (TargetId * TargetState)))).

Definition partial_restore (applied : list TargetId) (error : DaemonError) : DaemonError :=
  match applied with
  | [] => error
  | _ => DE_PartialMutation
           (Fmt "restored {} target(s) before {operation_target:?} failed: {error}"
              [ANum (Z.of_nat (length applied))]) applied
  end.

Fixpoint restore_operations (applied : list TargetId) (operations : list (TargetId * TargetState)) :
    task (daemon unit) :=
  match operations with
  | [] => Return (Ok tt)
  | (target, appearance) :: operations =>
      result ← apply_target_state target appearance;
      match result, appearance with
      | Err error, _ => Return (Err (partial_restore applied error))
      | Ok _, TS_Effect effect =>
          attempt (record_effect target effect) (λ _,
            restore_operations (applied ++ [target]) operations)
      | Ok _, _ =>
          Return (Err (DE_Internal (Lit "appearance restoration resolved a non-appearance state")))
      end
  end.

Definition restore_appearances (targets : list TargetId) : task (daemon unit) :=
  attempt (reading (λ _ w, restore_plan (w_state w) targets)) (restore_operations []).
Definition restore_appearance (target : TargetId) : task (daemon unit) :=
  restore_appearances [target].

(** *** Fan-out *)

Definition fan_out_rejected (applied : list TargetId) : DaemonError :=
  DE_PartialMutation
    (Fmt "{} applied to {} member(s), but their intended state was rejected: {persistence_error}"
       [ANum (Z.of_nat (length applied))]) applied.
Definition fan_out_failed (applied : list TargetId) : DaemonError :=
  DE_PartialMutation
    (Fmt "{} applied to {} member(s) before {member:?} failed: {error}"
       [ANum (Z.of_nat (length applied))]) applied.

Fixpoint apply_members (applied members : list TargetId) (state : TargetState) :
    task (daemon unit) :=
  match members with
  | [] => Return (Ok tt)
  | member :: members =>
      result ← apply_target_state member state;
      match result, applied with
      | Ok _, _ => apply_members (applied ++ [member]) members state
      | Err error, [] => Return (Err error)
      | Err error, _ =>
          recorded ← locked (λ _ st, record_collection_partial_success st applied state);
          Return (Err (match recorded with
                       | Err _ => fan_out_rejected applied
                       | Ok _ => fan_out_failed applied
                       end))
      end
  end.

Definition apply_collection_mutation (authorized_leaves : list TargetId) (state : TargetState)
    (policy : UnsupportedPolicy) : task (daemon unit) :=
  attempt (reading (λ _ w, prepare_collection_mutation (w_state w) authorized_leaves state policy))
    (λ members, apply_members [] members state).

(** *** Saving *)

(** [reconciliation.rs] *)
Definition persistence_requirement_for_target (st : DaemonState) (target : TargetId) :
    option PersistenceRequirement :=
  capabilities ← capabilities_for_target st target;
  match cs_persistence capabilities with
  | Persistence_None => None
  | Persistence_CurrentState requirement _ _ | Persistence_Profiles requirement _ _ _ =>
      Some requirement
  end.

Definition save_current_target (target : TargetId) : task (daemon unit) :=
  attempt (reading (λ _ w,
      _ ← ensure_target_state_known (w_state w) target;
      Ok (bool_decide (persistence_requirement_for_target (w_state w) target =
                       Some Requirement_Required))))
    (λ persistence_required : bool,
      if persistence_required then Return (Ok tt) else send_update target Op_SaveCurrent).

Definition save_current_many (targets : list TargetId) : task (daemon unit) :=
  task_for save_current_target targets.

(** ** Handlers *)

Section handlers.
Context (default_unsupported_policy : UnsupportedPolicy).

Notation devices_of := (fmap TargetId_device_id).

(** The branch of every handler for one target. *)
Definition mutate_target (op : Operation) (cancel : bool) (target : TargetId)
    (job : task (daemon unit)) : task Response :=
  let devices := [TargetId_device_id target] in
  or_return (authorize op devices) id (λ generation,
    _ ← (if cancel then cancel_transition_targets [target] else Return tt);
    mutate devices generation job).

(** The branch for leaves, each under the permission for its device. *)
Definition mutate_leaves (op : Operation) (cancel : bool) (leaves : list TargetId)
    (job : list TargetId → task (daemon unit)) : task Response :=
  '(applied, denied, generation) ← authorize_partial op leaves;
  _ ← (if cancel then cancel_transition_targets applied else Return tt);
  mutate_collection (devices_of applied) generation applied denied (job applied).

Definition with_collection_leaves (id : CollectionId) (k : list TargetId → task Response) :
    task Response :=
  or_return (reading (λ _ w, resolve_collection_leaves (w_state w) id)) response_of_error k.

(** [dispatch_resolved_mutation] and [dispatch_collection_mutation]; the collection only
    names the diagnostic. *)
Definition dispatch_resolved_mutation (op : Operation) (leaves : list TargetId)
    (state : TargetState) (policy : UnsupportedPolicy) : task Response :=
  mutate_leaves op true leaves (λ applied, apply_collection_mutation applied state policy).
Definition dispatch_collection_mutation (op : Operation) (id : CollectionId)
    (state : TargetState) (policy : UnsupportedPolicy) : task Response :=
  with_collection_leaves id (λ leaves, dispatch_resolved_mutation op leaves state policy).

Definition set_appearance_slots_request (op : Operation) (request : SetAppearanceSlotsRequest) :
    task Response :=
  mutate_target op true (sar_target request)
    (set_appearance_slots_job (sar_target request) (sar_values request)).

Definition set_effect_request (op : Operation) (request : SetEffectRequest) : task Response :=
  let policy := default default_unsupported_policy (ser_on_unsupported request) in
  let state := TS_Effect (ser_effect request) in
  match ser_selector request with
  | Selector_Collection id => dispatch_collection_mutation op id state policy
  | Selector_Targets targets => dispatch_resolved_mutation op targets state policy
  | Selector_Target target => mutate_target op true target (set_effect_job target (ser_effect request))
  end.

Definition set_brightness_request (op : Operation) (request : SetBrightnessRequest) : task Response :=
  let policy := default default_unsupported_policy (sbr_on_unsupported request) in
  let state := TS_Brightness (sbr_value request) in
  match sbr_target request with
  | Selector_Collection id => dispatch_collection_mutation op id state policy
  | Selector_Targets targets => dispatch_resolved_mutation op targets state policy
  | Selector_Target target =>
      mutate_target op true target (set_brightness_job target (sbr_value request))
  end.

Definition dispatch_resolved_appearance_restoration (op : Operation) (leaves : list TargetId) :
    task Response :=
  mutate_leaves op true leaves restore_appearances.

Definition restore_appearance_request (op : Operation) (target : Selector) : task Response :=
  match target with
  | Selector_Collection id =>
      with_collection_leaves id (dispatch_resolved_appearance_restoration op)
  | Selector_Targets targets => dispatch_resolved_appearance_restoration op targets
  | Selector_Target target => mutate_target op true target (restore_appearance target)
  end.

Definition clear_target_request (op : Operation) (target : Selector) : task Response :=
  match target with
  | Selector_Collection id => dispatch_collection_mutation op id TS_Clear Unsupported_Skip
  | Selector_Targets targets => dispatch_resolved_mutation op targets TS_Clear Unsupported_Skip
  | Selector_Target target => mutate_target op true target (clear_target_job target)
  end.

Definition dispatch_resolved_save (op : Operation) (leaves : list TargetId) : task Response :=
  mutate_leaves op false leaves save_current_many.

Definition save_current (op : Operation) (target : Selector) : task Response :=
  match target with
  | Selector_Collection id => with_collection_leaves id (dispatch_resolved_save op)
  | Selector_Targets targets => dispatch_resolved_save op targets
  | Selector_Target target => mutate_target op false target (save_current_target target)
  end.
End handlers.

(** ** Permission *)

Section permission.
Context (op : Operation) (ds : list DeviceId) (b : Prop).
Notation here target := (TargetId_device_id target ∈ ds).

Lemma in_entitled d : d ∈ ds → entitled ds b.
Proof. intros Hd. right. intros ->. by apply elem_of_nil in Hd. Qed.

Lemma safe_set_appearance_slots_job target values :
  here target → safe op ds b (set_appearance_slots_job target values).
Proof.
  intros Hd. pose proof (in_entitled _ Hd). unfold set_appearance_slots_job.
  apply safe_attempt; [auto with safe|]. intros. apply safe_attempt; auto with safe.
Qed.
Lemma safe_set_effect_job target effect : here target → safe op ds b (set_effect_job target effect).
Proof.
  intros Hd. pose proof (in_entitled _ Hd). unfold set_effect_job, record_effect.
  apply safe_attempt; [auto with safe|]. intros. apply safe_attempt; auto with safe.
Qed.
Lemma safe_set_brightness_job target value :
  here target → safe op ds b (set_brightness_job target value).
Proof.
  intros Hd. pose proof (in_entitled _ Hd). unfold set_brightness_job.
  apply safe_attempt; [auto with safe|]. intros. apply safe_attempt; auto with safe.
Qed.
Lemma safe_clear_target_job target : here target → safe op ds b (clear_target_job target).
Proof.
  intros Hd. pose proof (in_entitled _ Hd). unfold clear_target_job.
  apply safe_attempt; [auto with safe|]. intros. apply safe_attempt; auto with safe.
Qed.
Lemma safe_save_current_target target : here target → safe op ds b (save_current_target target).
Proof.
  intros Hd. apply safe_attempt; [auto with safe|]. intros []; auto with safe.
Qed.

Lemma safe_apply_members applied members state :
  (∀ t, t ∈ applied ++ members → here t) → safe op ds b (apply_members applied members state).
Proof.
  revert applied. induction members as [|member members IH]; intros applied Hin;
    cbn [apply_members]; [auto with safe|].
  apply safe_bind; [apply safe_apply_target_state, Hin; set_solver|]. intros [[]|error].
  - apply IH. intros t Ht. apply Hin. set_solver.
  - destruct applied as [|t applied]; cbn beta iota; [auto with safe|].
    apply safe_bind; [|auto with safe].
    apply safe_locked. apply (in_entitled (TargetId_device_id t)). apply Hin. set_solver.
Qed.

Lemma prepare_subset st leaves state policy members :
  prepare_collection_mutation st leaves state policy = Ok members → members ⊆ leaves.
Proof.
  unfold prepare_collection_mutation. destruct policy; intros Hp; res_inv; [|done].
  intros t. rewrite list_elem_of_filter. tauto.
Qed.

Lemma safe_apply_collection_mutation leaves state policy :
  (∀ t, t ∈ leaves → here t) → safe op ds b (apply_collection_mutation leaves state policy).
Proof.
  intros Hin past Hc. apply wp_attempt, wp_reading. intros o w.
  destruct (prepare_collection_mutation _ _ _ _) as [members|error] eqn:Hp; [|by apply cleared_app].
  apply safe_apply_members; [|by apply cleared_app].
  intros t Ht. apply Hin. by eapply prepare_subset.
Qed.

Lemma safe_restore_operations applied operations :
  (∀ t s, (t, s) ∈ operations → here t) → safe op ds b (restore_operations applied operations).
Proof.
  revert applied. induction operations as [|[target appearance] operations IH]; intros applied Hin;
    cbn [restore_operations]; [auto with safe|].
  assert (here target) as Ht by (eapply Hin; left).
  apply safe_bind; [by apply safe_apply_target_state|]. intros [[]|error]; [|auto with safe].
  destruct appearance; auto with safe. apply safe_attempt.
  - apply safe_locked. by eapply in_entitled.
  - intros _. apply IH. intros t s Hts. eapply Hin. by right.
Qed.

Lemma canonical_device st target t :
  t ∈ canonical_observation_targets st target → TargetId_device_id t = TargetId_device_id target.
Proof.
  destruct target; cbn; try (by intros ->%list_elem_of_singleton).
  intros (a & -> & _)%list_elem_of_fmap. by destruct a.
Qed.

Lemma restore_target_device st target operations t s :
  restore_target st target = Ok operations → (t, s) ∈ operations →
  TargetId_device_id t = TargetId_device_id target.
Proof.
  unfold restore_target. intros Hr Hin. res_inv.
  assert ((t, s) ∈ a0 → TargetId_device_id t = TargetId_device_id target) as Hmember.
  { intros [i Hi]%list_elem_of_lookup. apply try_map_Ok in E0.
    eapply Forall2_lookup_r in E0 as (m & Hm & Hrm); [|exact Hi].
    unfold restore_member in Hrm. res_inv. simplify_eq. eapply canonical_device, list_elem_of_lookup_2, Hm. }
  destruct target; try (injection Hr as <-; by apply Hmember).
  destruct a0 as [|[m first] a0]; [done|]. case_match; injection Hr as <-; [|by apply Hmember].
  by apply list_elem_of_singleton in Hin as [= -> _].
Qed.

Lemma restore_plan_device st targets operations t s :
  restore_plan st targets = Ok operations → (t, s) ∈ operations →
  ∃ target, target ∈ targets ∧ TargetId_device_id t = TargetId_device_id target.
Proof.
  unfold restore_plan. intros Hr Hin. destruct (try_map _ _) as [parts|] eqn:Hp; [|done].
  cbn in Hr. injection Hr as <-. apply list_elem_of_join in Hin as (part & Hts & [i Hi]%list_elem_of_lookup).
  apply try_map_Ok in Hp. eapply Forall2_lookup_r in Hp as (target & Ht & Hrt); [|exact Hi].
  exists target. split; [by eapply list_elem_of_lookup_2|]. by eapply restore_target_device.
Qed.

Lemma safe_restore_appearances targets :
  (∀ t, t ∈ targets → here t) → safe op ds b (restore_appearances targets).
Proof.
  intros Hin past Hc. apply wp_attempt, wp_reading. intros o w.
  destruct (restore_plan _ _) as [operations|error] eqn:Hp; [|by apply cleared_app].
  apply safe_restore_operations; [|by apply cleared_app]. intros t s Hts.
  destruct (restore_plan_device _ _ _ _ _ Hp Hts) as (target & Ht & ->). by apply Hin.
Qed.
End permission.

Section guarded.
Context (op : Operation).
Notation WP := (wp (guarded op)).

Lemma wp_authorized {A} devices (k : Z → task A) err past :
  (∀ g tr, granted op tr → (∀ d, d ∈ devices → authorised op d g tr) → WP (k g) tr (λ _ _, True)) →
  WP (or_return (authorize op devices) err k) past (λ _ _, True).
Proof.
  intros Hk. apply wp_or_return. eapply wp_mono; [apply wp_authorize|].
  intros [g|e] tr _ Hr; [|done]. destruct (Hr g eq_refl). by apply Hk.
Qed.

Lemma wp_mutate_target cancel target job past :
  safe op [TargetId_device_id target] False job →
  WP (mutate_target op cancel target job) past (λ _ _, True).
Proof.
  intros Hjob. apply wp_authorized. intros g tr Hgr Hd. apply wp_bind.
  eapply wp_mono with (Q := λ _ _, True).
  { destruct cancel; [by apply wp_cancel|done]. }
  intros [] tr' Hp _. apply (wp_mutate op [TargetId_device_id target] False); [|done| |exact Hjob].
  - intros d Hin. eapply authorised_mono; [done|]. by apply Hd.
  - by right.
Qed.

Lemma wp_mutate_leaves cancel leaves job past :
  (∀ applied, safe op (TargetId_device_id <$> applied) False (job applied)) →
  WP (mutate_leaves op cancel leaves job) past (λ _ _, True).
Proof.
  intros Hjob. apply wp_bind. eapply wp_mono; [apply wp_authorize_partial|].
  intros [[applied denied] g] tr _ Hr. destruct (Hr applied denied g eq_refl) as [_ Hd].
  apply wp_bind. eapply wp_mono with (Q := λ _ _, True).
  { destruct cancel; [|done]. apply wp_cancel. intros Hne.
    destruct applied as [|leaf applied]; [done|].
    eapply authorised_granted, Hd. left. }
  intros [] tr' Hp _. apply (wp_mutate_collection op (TargetId_device_id <$> applied) False); [|done| |apply Hjob].
  - intros d (leaf & -> & Hin)%list_elem_of_fmap. eapply authorised_mono; [done|]. by apply Hd.
  - intros Hne. by right.
Qed.

Lemma wp_with_collection_leaves id k past :
  (∀ leaves tr, WP (k leaves) tr (λ _ _, True)) →
  WP (with_collection_leaves id k) past (λ _ _, True).
Proof. intros Hk. apply wp_or_return, wp_reading. intros o w. case_match; [apply Hk|done]. Qed.

Lemma elem_devices (t : TargetId) (ts : list TargetId) : t ∈ ts → TargetId_device_id t ∈ TargetId_device_id <$> ts.
Proof. apply list_elem_of_fmap_2. Qed.

Lemma wp_dispatch_resolved_mutation leaves state policy past :
  WP (dispatch_resolved_mutation op leaves state policy) past (λ _ _, True).
Proof. apply wp_mutate_leaves. intros applied. apply safe_apply_collection_mutation. intros t. apply elem_devices. Qed.

Lemma here_single (t : TargetId) : TargetId_device_id t ∈ [TargetId_device_id t].
Proof. left. Qed.

Lemma wp_set_effect_request policy request past :
  WP (set_effect_request policy op request) past (λ _ _, True).
Proof.
  unfold set_effect_request. destruct (ser_selector request).
  - apply wp_mutate_target, safe_set_effect_job, here_single.
  - apply wp_with_collection_leaves. intros. apply wp_dispatch_resolved_mutation.
  - apply wp_dispatch_resolved_mutation.
Qed.
Lemma wp_set_brightness_request policy request past :
  WP (set_brightness_request policy op request) past (λ _ _, True).
Proof.
  unfold set_brightness_request. destruct (sbr_target request).
  - apply wp_mutate_target, safe_set_brightness_job, here_single.
  - apply wp_with_collection_leaves. intros. apply wp_dispatch_resolved_mutation.
  - apply wp_dispatch_resolved_mutation.
Qed.
Lemma wp_set_appearance_slots_request request past :
  WP (set_appearance_slots_request op request) past (λ _ _, True).
Proof. apply wp_mutate_target, safe_set_appearance_slots_job, here_single. Qed.
Lemma wp_clear_target_request target past : WP (clear_target_request op target) past (λ _ _, True).
Proof.
  unfold clear_target_request. destruct target.
  - apply wp_mutate_target, safe_clear_target_job, here_single.
  - apply wp_with_collection_leaves. intros. apply wp_dispatch_resolved_mutation.
  - apply wp_dispatch_resolved_mutation.
Qed.
Lemma wp_restore_appearance_request target past :
  WP (restore_appearance_request op target) past (λ _ _, True).
Proof.
  unfold restore_appearance_request. destruct target.
  - apply wp_mutate_target, safe_restore_appearances. intros t ->%list_elem_of_singleton. left.
  - apply wp_with_collection_leaves. intros. apply wp_mutate_leaves. intros.
    apply safe_restore_appearances. intros t. apply elem_devices.
  - apply wp_mutate_leaves. intros. apply safe_restore_appearances. intros t. apply elem_devices.
Qed.
Lemma safe_save_current_many (targets : list TargetId) :
  safe op (TargetId_device_id <$> targets) False (save_current_many targets).
Proof. apply safe_for. intros t Ht. by apply safe_save_current_target, elem_devices. Qed.
Lemma wp_save_current target past : WP (save_current op target) past (λ _ _, True).
Proof.
  unfold save_current. destruct target.
  - apply wp_mutate_target, safe_save_current_target, here_single.
  - apply wp_with_collection_leaves. intros. apply wp_mutate_leaves, safe_save_current_many.
  - apply wp_mutate_leaves, safe_save_current_many.
Qed.
End guarded.

(** ** What the jobs do *)

Section effects.
Notation WP := (wp (λ _ _, True)).

(** The plugin took an update, and later the state was recorded. *)
Definition sent (target : TargetId) (operation : PluginUpdateOperation) (e : event) : Prop :=
  ∃ o w w', e = Stepped (Some (Msg_Update (target, operation))) o w w' ∧
    apply_update (out_hosts o) (w_manager w) (to_plugin_update (target, operation)) = Ok tt.
Definition effect_recorded (target : TargetId) (effect : Effect) (e : event) : Prop :=
  ∃ o w w', e = Stepped None o w w' ∧
    set_effect (out_now o) (w_state w) target effect = (w_state w', Ok tt).
Definition effect_resolved (target : TargetId) (effect applied : Effect) (e : event) : Prop :=
  ∃ o w, e = Stepped None o w w ∧ resolve_effect (w_state w) target effect = Ok applied.

Lemma wp_set_effect_job target effect past :
  WP (set_effect_job target effect) past (λ r tr, ∀ x, r = Ok x →
    ∃ applied e1 e2 e3, effect_resolved target effect applied e1 ∧
      sent target (Op_SetEffect applied) e2 ∧ effect_recorded target effect e3 ∧
      [e1; e2; e3] `sublist_of` tr).
Proof.
  apply wp_attempt. intros o w w' x [= <- <-]. split; [done|]. apply wp_return.
  destruct (resolve_effect _ _ _) as [applied|error] eqn:Hr; [|done].
  apply wp_attempt. intros o2 w2 w2' x2 [= <- <-]. split; [done|]. apply wp_return.
  destruct (apply_update _ _ _) as [[]|error] eqn:Hs; [|done].
  intros o3 w3 w3' x3 Hx3. split; [done|]. apply wp_return. intros [] ->.
  destruct (set_effect _ _ _ _) as [st r] eqn:Hset. injection Hx3 as <- ->.
  exists applied, (Stepped None o w w), (Stepped (Some (Msg_Update (target, Op_SetEffect applied))) o2 w2 w2),
    (Stepped None o3 w3 (set_state w3 st)).
  split_and!; [by exists o, w|by exists o2, w2, w2|exists o3, w3; eexists; split; [done|by destruct w3]|].
  rewrite <-!app_assoc. by apply sublist_inserts_l.
Qed.

Lemma wp_mutate_Ack devices g job past (J : list event → Prop) :
  (∀ past', WP job past' (λ r tr, ∀ x, r = Ok x → J tr)) →
  WP (mutate devices g job) past (λ r tr,
    r = RS_Ack → ∃ before e after, tr = before ++ e :: after ∧ J before ∧ saved e).
Proof.
  intros Hjob. apply wp_bind. eapply wp_mono.
  { apply (wp_execute_Ok _ _ _ _ (λ _ tr, J tr)). intros past' _. apply Hjob. }
  intros [x|error] tr _ Hr; apply wp_return; [|done]. intros _. by eapply Hr.
Qed.

Lemma wp_authorize_refused op devices past :
  WP (authorize op devices) past (λ r _, ∀ response, r = Err response → ∃ error, response = RS_Error error).
Proof.
  apply wp_bind. intros o w w' x _. split; [done|]. apply wp_return. destruct x as [resources g].
  apply wp_bind. intros d. split; [done|]. apply wp_return.
  destruct d as [|reason]; [|apply wp_return; intros response [= <-]; by eexists].
  apply wp_bind. intros o2 w2 w2' current _. split; [done|]. do 2 apply wp_return.
  destruct current; intros response [=]. subst response. by eexists.
Qed.

(** *** Restoration *)

(** A message is one of a plan that was made before. *)
Definition planned (targets : list TargetId) (past : list event) (e : event) : Prop :=
  ∀ m o w w', e = Stepped (Some m) o w w' →
    ∃ o' v operations target operation appearance,
      Stepped None o' v v ∈ past ∧ restore_plan (w_state v) targets = Ok operations ∧
      m = Msg_Update (target, operation) ∧ (target, appearance) ∈ operations.

Lemma wp_restore_operations targets o v operations applied rest past :
  Stepped None o v v ∈ past → restore_plan (w_state v) targets = Ok operations → rest ⊆ operations →
  wp (planned targets) (restore_operations applied rest) past (λ _ _, True).
Proof.
  intros Hin Hplan. revert applied past Hin. induction rest as [|[target appearance] rest IH];
    intros applied past Hin Hsub; cbn [restore_operations]; [done|].
  assert (∀ operation past', past `prefix_of` past' →
    wp (planned targets) (send_update target operation) past' (λ _ tr, past `prefix_of` tr)) as Hsend.
  { intros operation past' Hp o' w w' x _. split; [|by apply wp_return, prefix_app_r].
    intros m' ? ? ? [= <- <- <- <-]. exists o, v, operations, target, operation, appearance.
    split_and!; [|done..|apply Hsub; left]. destruct Hp as [l ->]. set_solver. }
  apply wp_bind. eapply wp_mono with (Q := λ _ tr, past `prefix_of` tr).
  { unfold apply_target_state. repeat case_match; try by apply Hsend.
    apply wp_attempt. intros o' w w' x [= <- <-]. split; [by intros ? ? ? ? [=]|]. apply wp_return.
    case_match; [|by apply prefix_app_r]. apply Hsend. by apply prefix_app_r. }
  intros [[]|error] tr _ Hp; [|done]. destruct appearance as [effect| | |]; [|done..].
  apply wp_attempt. intros o' w w' x _. split; [by intros ? ? ? ? [=]|]. apply wp_return.
  destruct x as [[]|error]; [|done]. apply IH.
  - destruct Hp as [l ->]. set_solver.
  - intros y Hy. apply Hsub. by right.
Qed.

(** A plan covers every target, and each of its operations was validated. *)
Lemma restore_plan_complete st targets operations :
  restore_plan st targets = Ok operations →
  (∀ target, target ∈ targets → ensure_target_exists st target = Ok tt) ∧
  (∀ t s, (t, s) ∈ operations → validate_target_state st t s = Ok tt).
Proof.
  unfold restore_plan. intros Hr. res_inv. apply try_map_Ok in E. split.
  - intros target [i Hi]%list_elem_of_lookup. eapply Forall2_lookup_l in E as (part & _ & Hp); [|exact Hi].
    unfold restore_target in Hp. res_inv. by destruct a0.
  - intros t s (part & Hts & [i Hi]%list_elem_of_lookup)%list_elem_of_join.
    eapply Forall2_lookup_r in E as (target & _ & Hp); [|exact Hi].
    unfold restore_target in Hp. res_inv.
    assert ((t, s) ∈ a1 → validate_target_state st t s = Ok tt) as Hmember.
    { intros [j Hj]%list_elem_of_lookup. apply try_map_Ok in E0.
      eapply Forall2_lookup_r in E0 as (m & _ & Hm); [|exact Hj].
      unfold restore_member in Hm. res_inv. simplify_eq. by destruct a4. }
    destruct target; try (injection Hp as <-; by apply Hmember).
    destruct a1 as [|[m first] a1]; [done|]. case_match eqn:Hu; injection Hp as <-; [|by apply Hmember].
    apply list_elem_of_singleton in Hts as [= -> ->]. apply andb_true_iff in Hu as [_ Hok].
    by apply is_ok_unit.
Qed.

(** *** Fan-out *)

(** A step that leaves the recorded states alone. *)
Definition keeps_record (e : event) : Prop :=
  ∀ m o w w', e = Stepped m o w w' → ds_target_state (w_state w') = ds_target_state (w_state w).

Lemma finish_pending_adoption_record st persisted :
  ds_target_state (finish_pending_adoption st persisted) = ds_target_state st.
Proof.
  assert (∀ status l st, ds_target_state (fold_left (mark_adoption status) l st) = ds_target_state st)
    as Hmark.
  { intros status l. induction l as [|f l IH]; intros st'; [done|]. cbn. rewrite IH.
    unfold mark_adoption. by destruct st'; repeat case_match. }
  unfold finish_pending_adoption. destruct persisted; [unfold commit_adopted_baseline|];
    rewrite Hmark; by destruct st.
Qed.

Lemma reserve_record devices st :
  ds_target_state (fold_left reserve_generation devices st) = ds_target_state st.
Proof. revert st. induction devices as [|d ds IH]; intros st; [done|]. cbn. rewrite IH. by destruct st. Qed.

Notation KEEP := (wp (λ _, keeps_record)).

Lemma keep_step {X} m (f : Outside → World → World * X) past (Q : X → list event → Prop) :
  (∀ o w, w_state (f o w).1 = w_state w) → (∀ x tr, Q x tr) → KEEP (Step m f Return) past Q.
Proof.
  intros Hf HQ o w w' x Hx. split; [|apply wp_return, HQ]. intros m' o' v v' [= <- <- <- <-].
  specialize (Hf o w). rewrite Hx in Hf. cbn in Hf. by rewrite Hf.
Qed.

Lemma keep_map {A B} (f : A → task B) l past :
  (∀ x past, KEEP (f x) past (λ _ _, True)) → KEEP (task_map f l) past (λ _ _, True).
Proof.
  intros Hf. revert past. induction l as [|x l IH]; intros past; [done|]. cbn [task_map].
  apply wp_bind. eapply wp_mono; [apply Hf|]. intros y tr _ _. apply wp_bind.
  by eapply wp_mono; [apply IH|].
Qed.

Lemma keep_authorize_partial op leaves past : KEEP (authorize_partial op leaves) past (λ _ _, True).
Proof.
  apply wp_bind, keep_step; [done|]. intros [resources g] tr. apply wp_bind.
  eapply wp_mono; [|done]. apply keep_map. intros resource past' d. by split; [intros ? ? ? ? [=]|].
Qed.

Lemma keep_cancel targets reason past :
  KEEP (cancel_transition_targets_with_reason targets reason) past (λ _ _, True).
Proof.
  apply wp_bind, keep_step; [done|]. intros overlapping tr. apply wp_bind.
  eapply wp_mono; [apply keep_map|].
  { intros a past'. apply keep_step; [by intros o []|done]. }
  intros _ tr' _ _. apply wp_bind. eapply wp_mono; [by apply keep_map|done].
Qed.

Lemma keep_apply_target_state target state past : KEEP (apply_target_state target state) past (λ _ _, True).
Proof.
  unfold apply_target_state. repeat case_match; try by apply keep_step.
  apply wp_attempt, keep_step; [done|]. intros [resolved|error] tr; [by apply keep_step|done].
Qed.

Lemma wp_apply_members_record applied members state past :
  Forall keeps_record past →
  WP (apply_members applied members state) past (λ r tr, ∀ x, r = Ok x → Forall keeps_record tr).
Proof.
  revert applied past. induction members as [|member members IH]; intros applied past Hpast;
    cbn [apply_members]; [by apply wp_return|].
  apply wp_bind. eapply wp_mono.
  { apply wp_collect; [apply keep_apply_target_state|done]. }
  intros [[]|error] tr _ [_ Htr]; [by apply IH|].
  destruct applied as [|t applied]; [by apply wp_return|]. apply wp_bind, wp_any; [done|].
  intros recorded tr' _. by apply wp_return.
Qed.

Lemma wp_fan_out_record op leaves state policy :
  WP (dispatch_resolved_mutation op leaves state policy) [] (λ r tr,
    ∀ applied denied, r = RS_CollectionApplied applied denied → Forall keeps_record tr).
Proof.
  apply wp_bind. eapply wp_mono.
  { apply wp_collect; [apply keep_authorize_partial|done]. }
  intros [[applied denied] g] tr _ [_ Htr]. apply wp_bind. eapply wp_mono.
  { apply wp_collect; [apply keep_cancel|done]. }
  intros [] tr' _ [_ Htr']. apply wp_bind. eapply wp_mono.
  { apply (wp_execute_collect keeps_record); [| | |exact Htr'].
    - intros o w w' Hw m o' v v' [= <- <- <- <-].
      destruct Hw as [->|[->|[persisted ->]]]; [done|apply reserve_record|].
      apply finish_pending_adoption_record.
    - by intros e ? ? ? ? [=].
    - intros past' Hpast'. apply wp_attempt. intros o w w' x [= <- <-]. split; [done|]. apply wp_return.
      case_match; [|done]. apply wp_apply_members_record. apply Forall_app_2; [done|].
      constructor; [by intros ? ? ? ? [= <- <- <- <-]|done]. }
  intros [x|error] tr'' _ Hr; apply wp_return; [|done]. intros a d _. by eapply Hr.
Qed.
End effects.
End appearance.

(** ** Claims *)

(** C6: An acknowledged effect on a target took effect everywhere: among the steps of the
    handler, in this order, the effect was resolved against the target's capabilities,
    the plugin that owns the device answered that it applied the resolved effect, the
    requested effect was recorded as the target's state, and a valid snapshot of the
    state was saved. *)
Theorem acknowledged_effect_applied `{Wire, Env} others decides policy op request target w tr w' :
  ser_selector request = Selector_Target target →
  runs others decides w (set_effect_request policy op request) tr w' (Done RS_Ack) →
  ∃ applied e1 e2 e3 e4,
    effect_resolved target (ser_effect request) applied e1 ∧
    sent target (Op_SetEffect applied) e2 ∧
    effect_recorded target (ser_effect request) e3 ∧ saved e4 ∧
    [e1; e2; e3; e4] `sublist_of` tr.
Proof.
  intros Hsel Hrun.
  destruct (wp_sound (λ _ _, True) others decides w _ tr w' _ [] (λ r tr, r = RS_Ack →
    ∃ before e after, tr = before ++ e :: after ∧
      (∃ applied e1 e2 e3, effect_resolved target (ser_effect request) applied e1 ∧
        sent target (Op_SetEffect applied) e2 ∧ effect_recorded target (ser_effect request) e3 ∧
        [e1; e2; e3] `sublist_of` before) ∧ saved e) Hrun) as [_ Hack].
  { unfold set_effect_request. rewrite Hsel. apply wp_or_return.
    eapply wp_mono; [apply wp_authorize_refused|].
    intros [g|response] tr' _ Hr; [|by destruct (Hr response eq_refl) as [error ->]].
    apply wp_bind, wp_any; [done|]. intros [] tr'' _. apply wp_mutate_Ack.
    intros past'. apply wp_set_effect_job. }
  destruct (Hack eq_refl) as (before & e & after & Htr & (applied & e1 & e2 & e3 & H1 & H2 & H3 & Hs) & He).
  exists applied, e1, e2, e3, e. split_and!; [done..|]. cbn in Htr. subst tr.
  change [e1; e2; e3; e] with ([e1; e2; e3] ++ [e]). apply sublist_app; [done|].
  apply sublist_skip, sublist_nil_l.
Qed.

(** Restoring appearances is prepared completely before anything is sent: an update to
    a plugin belongs to a plan made from one earlier state, in which every target of the
    request existed and every operation of the plan was valid for its target. *)
Theorem restoration_preflighted `{Wire, Env} others decides targets w before m o u u' after w' r :
  runs others decides w (restore_appearances targets)
    (before ++ Stepped (Some m) o u u' :: after) w' r →
  ∃ o' v operations target operation appearance,
    Stepped None o' v v ∈ before ∧
    restore_plan (w_state v) targets = Ok operations ∧
    (∀ t, t ∈ targets → ensure_target_exists (w_state v) t = Ok tt) ∧
    (∀ t s, (t, s) ∈ operations → validate_target_state (w_state v) t s = Ok tt) ∧
    m = Msg_Update (target, operation) ∧ (target, appearance) ∈ operations.
Proof.
  intros Hrun. destruct (wp_sound (planned targets) others decides w _ _ w' r [] (λ _ _, True) Hrun)
    as [Hall _].
  { apply wp_attempt. intros o' v v' x [= <- <-]. split; [by intros ? ? ? ? [=]|]. apply wp_return.
    destruct (restore_plan _ _) as [operations|error] eqn:Hp; [|done].
    eapply (wp_restore_operations _ o' v operations); [|done..]. set_solver. }
  destruct (Hall before _ after eq_refl m o u u' eq_refl)
    as (o' & v & operations & target & operation & appearance & Hin & Hp & Hm & Hop).
  destruct (restore_plan_complete _ _ _ Hp).
  by exists o', v, operations, target, operation, appearance.
Qed.

(** A fan-out that succeeds on every leaf leaves no record of what it set: no step of a
    handler that answers with [CollectionApplied] changes the recorded target states, so
    that the snapshot it saves restores the states from before the request. *)
Theorem successful_fan_out_unrecorded `{Wire, Env} others decides op leaves state policy w tr w'
    applied denied m o u u' :
  runs others decides w (dispatch_resolved_mutation op leaves state policy) tr w'
    (Done (RS_CollectionApplied applied denied)) →
  Stepped m o u u' ∈ tr → ds_target_state (w_state u') = ds_target_state (w_state u).
Proof.
  intros Hrun Hin.
  destruct (wp_sound _ others decides w _ tr w' _ [] _ Hrun (wp_fan_out_record op leaves state policy))
    as [_ Hkeep].
  specialize (Hkeep applied denied eq_refl). rewrite Forall_forall in Hkeep. cbn in Hkeep.
  by eapply Hkeep.
Qed.

(** ** Witnesses *)

Module Dimming.
Definition glow : SetEffectRequest :=
  {| ser_selector := Selector_Target Running.target; ser_effect := Effect_Static (Colour_Monochrome 9);
     ser_on_unsupported := None |}.
Definition glow_run : list event * World * outcome Response :=
  Running.run (@set_effect_request Running.wire sample_env Unsupported_Skip Control glow).
Definition dim_run : list event * World * outcome Response :=
  Running.run (@dispatch_resolved_mutation Running.wire sample_env Control [Running.target]
    (TS_Brightness 40) Unsupported_Skip).
(** Restoring the glow in the world that the first run left. *)
Definition restore_run : list event * World * outcome (daemon unit) :=
  Running.run_in glow_run.1.2 (@restore_appearances Running.wire sample_env [Running.target]).
Definition message_at (tr : list (@event Running.wire)) (i : nat) : option message :=
  match tr !! i with Some (Stepped m _ _ _) => m | _ => None end.
Definition restored : message :=
  Msg_Update (Running.target, Op_SetEffect (Effect_Static (Colour_Monochrome 9))).
End Dimming.

Lemma acknowledged_effect_applied_witness :
  Dimming.glow_run.2 = Done RS_Ack ∧
  ds_target_state (w_state Dimming.glow_run.1.2) =
    [TargetStateEntry_mk Running.target (TS_Effect (Effect_Static (Colour_Monochrome 9)))] ∧
  ∃ e : @event Running.wire, @saved Running.wire sample_env e ∧ e ∈ Dimming.glow_run.1.1.
Proof.
  assert (Dimming.glow_run.2 = Done RS_Ack) as Hdone by (vm_compute; reflexivity).
  split; [exact Hdone|]. split; [vm_compute; reflexivity|].
  destruct (@acknowledged_effect_applied Running.wire sample_env _ _ Unsupported_Skip Control
    Dimming.glow Running.target _ _ _ eq_refl (run_in_runs _ _ _ Hdone))
    as (applied & e1 & e2 & e3 & e4 & _ & _ & _ & He & Hs).
  exists e4. split; [exact He|]. eapply elem_of_sublist; [|exact Hs]. do 3 right. left.
Defined.

Lemma successful_fan_out_unrecorded_witness :
  Dimming.dim_run.2 = Done (RS_CollectionApplied [Running.target] []) ∧
  ∀ m o u u', Stepped m o u u' ∈ Dimming.dim_run.1.1 →
    ds_target_state (w_state u') = ds_target_state (w_state u).
Proof.
  assert (Dimming.dim_run.2 = Done (RS_CollectionApplied [Running.target] [])) as Hdone
    by (vm_compute; reflexivity).
  split; [exact Hdone|]. intros m o u u'.
  exact (@successful_fan_out_unrecorded Running.wire sample_env _ _ Control [Running.target]
    (TS_Brightness 40) Unsupported_Skip _ _ _ _ _ m o u u' (run_in_runs _ _ _ Hdone)).
Defined.

Lemma restoration_preflighted_witness :
  Dimming.restore_run.2 = Done (Ok tt) ∧
  Dimming.message_at Dimming.restore_run.1.1 2 = Some Dimming.restored ∧
  ∃ o v operations, Stepped None o v v ∈ take 2 Dimming.restore_run.1.1 ∧
    @restore_plan sample_env (w_state v) [Running.target] = Ok operations.
Proof.
  assert (Dimming.restore_run.2 = Done (Ok tt)) as Hdone by (vm_compute; reflexivity).
  assert (Dimming.message_at Dimming.restore_run.1.1 2 = Some Dimming.restored) as Hat
    by (vm_compute; reflexivity).
  split; [exact Hdone|]. split; [exact Hat|].
  pose proof (run_in_runs _ _ _ Hdone) as Hrun. fold Dimming.restore_run in Hrun.
  revert Hat Hrun. unfold Dimming.message_at.
  destruct (Dimming.restore_run.1.1 !! 2) as [[[m|] o u u'| |]|] eqn:Hi; intros Hat Hrun;
    try discriminate Hat.
  rewrite <-(take_drop_middle _ _ _ Hi) in Hrun.
  destruct (@restoration_preflighted Running.wire sample_env _ _ _ _ _ _ _ _ _ _ _ _ Hrun)
    as (o' & v & operations & _ & _ & _ & Hin & Hp & _).
  exists o', v, operations. split; [exact Hin|exact Hp].
Defined.
