(* ===== verification/Inspection.v ===== *)
(** * Reading and organising: [dispatch/inspection.rs] and [dispatch/collections.rs]

    The handlers that report devices, state and collections to the extent the policy
    allows, and those that create and change collections.  The claims: what is reported
    about a device was allowed for that device in the topology it is reported from, and a
    collection is changed or destroyed only for its owner or with the permission to
    administer collections. *)

From S2P Require Import Prelude Model Graph Scenes Transition Policy PolicyRuntime Daemon Topology Persistence Validation Observation TargetStates CollectionRegistry Descriptors Ownership PluginManager PluginApply Aggregates TransitionRegistry Protocol Authorization Authentication PolicyFiles Tasks Authz Executor Appearance.

Definition PROTOCOL_ABI_VERSION : Z := 30.

Section handlers.
Context `{Wire, Env}.

(** ** Inspection *)

Definition authorization_conflict : Response := response_of_error stale_authorization.

Definition server_info (op : Operation) : task Response :=
  or_return (authorize op []) id (λ _,
    Return (RS_ServerInfo {| si_daemon_name := "luminated"; si_daemon_version := "0.1.0";
                             si_protocol_abi_version := PROTOCOL_ABI_VERSION |})).

Definition attach_provider_instance (pm : PluginManager) (d : Device) : Device :=
  let 'Build_Device a b c e _ f g h i j k l m := d in
  Build_Device a b c e (owner_name pm (device_id d)) f g h i j k l m.

Definition list_devices (op : Operation) : task Response :=
  '(devices, generation) ← reading (λ _ w,
     ((map_to_list (ds_devices (w_state w))).*2, topology_generation w));
  devices ← reading (λ _ w, attach_provider_instance (w_manager w) <$> (devices : list Device));
  or_return (filter_devices op (device_id <$> devices)) id (λ '(visible, authorized_generation),
    current ← topology_is_current generation;
    Return (if negb (generation =? authorized_generation)%Z || negb current
            then authorization_conflict
            else RS_Devices (filter (λ d, device_id d ∈ visible) devices))).

(** Reading the state under the lock, if the topology is still the authorized one. *)
Definition read_current {X} (generation : Z) (f : Outside → World → option X)
    (k : X → Response) : task Response :=
  r ← reading (λ o w, if (topology_generation w =? generation)%Z then Some (f o w) else None);
  match r with
  | None => Return authorization_conflict
  | Some None => Panic
  | Some (Some x) => Return (k x)
  end.

Definition list_withdrawn_devices (op : Operation) : task Response :=
  or_return (authorize op []) id (λ generation,
    read_current generation (λ _ w, Some (withdrawn_device_ids (w_state w))) RS_WithdrawnDevices).

Definition get_device (op : Operation) (id : DeviceId) : task Response :=
  or_return (authorize op [id]) (λ r, r) (λ generation,
    read_current generation (λ _ w,
      Some (attach_provider_instance (w_manager w) <$> ds_devices (w_state w) !! id)) RS_Device).

Definition get_state (op : Operation) (device : DeviceId) : task Response :=
  or_return (authorize op [device]) id (λ generation,
    read_current generation (λ o w, device_state_status (out_now o) (w_state w) device) RS_State).

(** The leaves of the collection; a missing one has none. *)
Definition state_leaves (st : DaemonState) (collection : CollectionId) : daemon (list TargetId) :=
  match resolve_collection_leaves st collection with
  | Err (DE_CollectionNotFound _) => Ok []
  | r => r
  end.

Definition get_collection_state (op : Operation) (collection : CollectionId) : task Response :=
  or_return (reading (λ _ w,
      leaves ← state_leaves (w_state w) collection; Ok (leaves, topology_generation w)))
    response_of_error (λ '(leaves, resolved_generation),
  or_return (authorize op (unique_devices leaves)) id (λ generation,
    if negb (generation =? resolved_generation)%Z then Return authorization_conflict
    else read_current generation (λ o w,
           collection_state_status (out_now o) (w_state w) collection) RS_CollectionState)).

(** The devices of the direct target members, each once. *)
Definition member_device (member : CollectionMember) : option DeviceId :=
  match member with Member_Target target => Some (TargetId_device_id target) | _ => None end.
Definition direct_devices (collections : list Collection) : list DeviceId :=
  fold_left push_unique
    (mjoin ((λ c, omap member_device (collection_members c)) <$> collections)) [].

Definition projection_error (e : fuelled CollectionGraphError) : Response :=
  response_of_error (DE_Internal (Lit "{error}")).

Definition projected_collections (op : Operation) : task (result Response (list Collection)) :=
  '(collections, generation) ← reading (λ _ w,
     (collection_values (w_state w), topology_generation w));
  attempt (filter_devices op (direct_devices collections)) (λ '(visible, filtered_generation),
    empty ← authorize op [];
    current ← topology_is_current generation;
    let empty_generation := to_option empty in
    Return (if negb (filtered_generation =? generation)%Z ||
               from_option (λ g, negb (g =? generation)%Z) false empty_generation || negb current
            then Err authorization_conflict
            else map_err projection_error
                   (project (λ target, bool_decide (TargetId_device_id target ∈ visible))
                      (λ _, bool_decide (is_Some empty_generation))
                      (CollectionGraph_new collections)))).

Definition list_collections (op : Operation) : task Response :=
  or_return (projected_collections op) id (λ collections, Return (RS_Collections collections)).
Definition get_collection (op : Operation) (id : CollectionId) : task Response :=
  or_return (projected_collections op) (λ r, r) (λ collections,
    Return (RS_CollectionInfo (List.find (λ c, bool_decide (collection_id c = id)) collections))).

(** ** Changing collections *)

Definition member_leaf_devices (st : DaemonState) (member : CollectionMember) :
    daemon (list DeviceId) :=
  match member with
  | Member_Target target => Ok [TargetId_device_id target]
  | Member_Collection id =>
      leaves ← resolve_collection_leaves st id; Ok (TargetId_device_id <$> (leaves : list TargetId))
  end.
Definition member_devices (st : DaemonState) (members : list CollectionMember) :
    daemon (list DeviceId) :=
  parts ← try_map (member_leaf_devices st) members;
  Ok (mjoin (parts : list (list DeviceId))).
Definition collection_devices (st : DaemonState) (id : CollectionId) : daemon (list DeviceId) :=
  leaves ← resolve_collection_leaves st id; Ok (TargetId_device_id <$> (leaves : list TargetId)).

(** The devices to sequence, with the generation they were resolved in. *)
Definition resolve_sequenced {B} (f : DaemonState → daemon (list DeviceId)) (err : DaemonError → B)
    (k : list DeviceId → Z → task B) : task B :=
  or_return (reading (λ _ w, devices ← f (w_state w); Ok (devices, topology_generation w))) err
    (λ '(devices, generation), k devices generation).

Section principal.
Context (principal : Peer).

Definition create_collection_request (op : Operation) (name : string) (description : option string)
    (kind : option CollectionCategory) (members : list CollectionMember) : task Response :=
  or_return (authorize op []) id (λ _,
  resolve_sequenced (λ st, member_devices st members) response_of_error (λ devices generation,
    result ← execute_authorized devices generation (locked (λ o st,
      create_collection st (CollectionId_new (out_uuid o)) name description
        (owner_identity principal) kind members));
    Return (match result with
            | Ok id => RS_CollectionCreated id
            | Err error => response_of_error error
            end))).

Definition authorize_collection_owner (id : CollectionId) : task (daemon unit) :=
  attempt (reading (λ _ w,
      ok_or (collection_owner <$> ds_collections (w_state w) !! id) (DE_CollectionNotFound id)))
    (λ owner,
      if bool_decide (owner = owner_identity principal) then Return (Ok tt)
      else
        decision ← ask AdministerCollections [];
        Return (if allows decision then Ok tt else Err (DE_CollectionNotOwned id))).

Definition destroy_collection_request (op : Operation) (id : CollectionId) : task Response :=
  or_return (authorize op []) (λ r, r) (λ _,
  or_return (authorize_collection_owner id) response_of_error (λ _,
  resolve_sequenced (λ st, collection_devices st id) response_of_error (λ devices generation,
    mutate devices generation (locked (λ _ st,
      let '(st', r) := destroy_collection st id in (st', _ ← r; Ok tt)))))).

(** [add_collection_member] of the state does not answer only if its search ran out of
    fuel, which it does not. *)
Definition add_member_step (id : CollectionId) (member : CollectionMember) : task (daemon unit) :=
  r ← locked (λ _ st, match add_collection_member st id member with
                      | Some (st', r) => (st', Some r)
                      | None => (st, None)
                      end);
  match r with Some r => Return r | None => Panic end.

Definition add_collection_member_request (op : Operation) (id : CollectionId)
    (member : CollectionMember) : task Response :=
  or_return (authorize op []) (λ r, r) (λ _,
  or_return (authorize_collection_owner id) response_of_error (λ _,
  resolve_sequenced (λ st,
      devices ← collection_devices st id;
      added_devices ← member_devices st [member];
      Ok (devices ++ added_devices)) response_of_error (λ devices generation,
    mutate devices generation (add_member_step id member)))).

Definition remove_collection_member_request (op : Operation) (id : CollectionId)
    (member : CollectionMember) : task Response :=
  or_return (authorize op []) (λ r, r) (λ _,
  or_return (authorize_collection_owner id) response_of_error (λ _,
  resolve_sequenced (λ st, collection_devices st id) response_of_error (λ devices generation,
    mutate devices generation (locked (λ _ st, remove_collection_member st id member))))).
End principal.

(** ** Permission *)

Section permission.
Context (op : Operation).
Notation WP := (wp (guarded op)).

Lemma safe_topology_is_current o ds b g : safe o ds b (topology_is_current g).
Proof. apply safe_reading. Qed.
Lemma safe_read_current o ds b {X} g (f : Outside → World → option X) k :
  safe o ds b (read_current g f k).
Proof.
  apply safe_bind; [apply safe_reading|]. intros [[x|]|]; auto with safe.
Qed.

Lemma safe_projected_collections o ds b op' : safe o ds b (projected_collections op').
Proof.
  apply safe_bind; [apply safe_reading|]. intros [collections g].
  apply safe_attempt; [auto with safe|]. intros [visible fg].
  apply safe_bind; [auto with safe|]. intros empty.
  apply safe_bind; [apply safe_topology_is_current|]. intros current. auto with safe.
Qed.

Lemma wp_server_info past : WP (server_info op) past (λ _ _, True).
Proof. apply safe_wp. apply safe_or_return; auto with safe. Qed.
Lemma wp_list_devices past : WP (list_devices op) past (λ _ _, True).
Proof.
  apply safe_wp. apply safe_bind; [auto with safe|]. intros [devices g].
  apply safe_bind; [auto with safe|]. intros devices'.
  apply safe_or_return; [auto with safe|]. intros [visible ag].
  apply safe_bind; [apply safe_topology_is_current|]. auto with safe.
Qed.
Lemma wp_list_withdrawn_devices past : WP (list_withdrawn_devices op) past (λ _ _, True).
Proof. apply safe_wp, safe_or_return; [auto with safe|]. intros. apply safe_read_current. Qed.
Lemma wp_get_device id past : WP (get_device op id) past (λ _ _, True).
Proof. apply safe_wp, safe_or_return; [auto with safe|]. intros. apply safe_read_current. Qed.
Lemma wp_get_state device past : WP (get_state op device) past (λ _ _, True).
Proof. apply safe_wp, safe_or_return; [auto with safe|]. intros. apply safe_read_current. Qed.
Lemma wp_get_collection_state collection past : WP (get_collection_state op collection) past (λ _ _, True).
Proof.
  apply safe_wp, safe_or_return; [auto with safe|]. intros [leaves rg].
  apply safe_or_return; [auto with safe|]. intros g. case_match; [auto with safe|].
  apply safe_read_current.
Qed.
Lemma wp_list_collections past : WP (list_collections op) past (λ _ _, True).
Proof. apply safe_wp, safe_or_return; [apply safe_projected_collections|]. auto with safe. Qed.
Lemma wp_get_collection id past : WP (get_collection op id) past (λ _ _, True).
Proof. apply safe_wp, safe_or_return; [apply safe_projected_collections|]. auto with safe. Qed.

(** Mutations of the registry, which need permission but are about no device. *)
Lemma wp_sequenced_mutation {T} f (err : DaemonError → Response) (job : task (daemon T)) k past :
  granted op past → safe op [] True job →
  WP (resolve_sequenced f err (λ devices g,
        result ← execute_authorized devices g job; Return (k result))) past (λ _ _, True).
Proof.
  intros Hgr Hjob. apply wp_or_return, wp_reading. intros o w.
  lazymatch goal with |- match ?r with Ok _ => _ | Err _ => _ end => destruct r as [[devices g]|error] end;
    [|done]. apply wp_bind.
  eapply wp_mono; [eapply (wp_execute_inner op [] True)|done].
  - by intros d ?%elem_of_nil.
  - intros _. eapply granted_mono; [by apply prefix_app_r|done].
  - intros _. by left.
  - done.
Qed.

Lemma wp_collection_owner principal id (k : task Response) past :
  granted op past → (∀ tr, granted op tr → WP k tr (λ _ _, True)) →
  WP (or_return (authorize_collection_owner principal id) response_of_error (λ _, k)) past
    (λ _ _, True).
Proof.
  intros Hgr Hk. apply wp_or_return. eapply wp_mono with (Q := λ _ _, True).
  - apply safe_wp, safe_attempt; [auto with safe|]. intros owner. case_match; [auto with safe|].
    apply safe_bind; auto with safe.
  - intros [[]|e] tr Hp _; [|done]. apply Hk. by eapply granted_mono.
Qed.

Lemma wp_create_collection principal name description kind members past :
  WP (create_collection_request principal op name description kind members) past (λ _ _, True).
Proof.
  apply wp_authorized. intros _ tr Hgr _. apply wp_sequenced_mutation; [done|].
  apply safe_locked. by left.
Qed.
Lemma wp_destroy_collection principal id past :
  WP (destroy_collection_request principal op id) past (λ _ _, True).
Proof.
  apply wp_authorized. intros _ tr Hgr _. apply wp_collection_owner; [done|]. intros tr' Hgr'.
  apply wp_sequenced_mutation; [done|]. apply safe_locked. by left.
Qed.
Lemma wp_add_collection_member principal id member past :
  WP (add_collection_member_request principal op id member) past (λ _ _, True).
Proof.
  apply wp_authorized. intros _ tr Hgr _. apply wp_collection_owner; [done|]. intros tr' Hgr'.
  apply wp_sequenced_mutation; [done|]. apply safe_bind; [apply safe_locked; by left|].
  intros [r|]; auto with safe.
Qed.
Lemma wp_remove_collection_member principal id member past :
  WP (remove_collection_member_request principal op id member) past (λ _ _, True).
Proof.
  apply wp_authorized. intros _ tr Hgr _. apply wp_collection_owner; [done|]. intros tr' Hgr'.
  apply wp_sequenced_mutation; [done|]. apply safe_locked. by left.
Qed.
End permission.

(** ** What is reported *)

Section reports.
Context (op : Operation).
Notation WP := (wp (guarded op)).

Lemma attach_id pm d : device_id (attach_provider_instance pm d) = device_id d.
Proof. by destruct d. Qed.

Lemma visible_authorised o w devices ds rest past d :
  d ∈ (filter (λ p : DeviceId * Decision, allows p.2 = true) (zip devices ds)).*1 →
  authorised op d (topology_generation w) (past ++ Stepped None o w w ::
    zip_with (λ d decision, Asked op (resolve_devices w [d]) decision) devices ds ++ rest).
Proof.
  intros ([d' decision] & -> & [Ha Hin]%list_elem_of_filter)%list_elem_of_fmap. cbn in *.
  exists o, w, [d']. split_and!; [by left|done|].
  apply sublist_inserts_l, sublist_skip, sublist_inserts_r, singleton_sublist_l.
  apply list_elem_of_lookup in Hin as [i Hi]. apply lookup_zip_Some in Hi as [Hd Hds].
  apply list_elem_of_lookup. exists i. rewrite lookup_zip_with, Hd, Hds. cbn.
  by destruct decision.
Qed.

(** The devices of a response, with their permission in one topology. *)
Lemma wp_list_devices_shows :
  WP (list_devices op) [] (λ r tr, ∀ devices, r = RS_Devices devices →
    ∃ o w rest, tr = Stepped None o w w :: rest ∧
      ∀ d, d ∈ devices →
        (∃ id d0 pm, ds_devices (w_state w) !! id = Some d0 ∧ d = attach_provider_instance pm d0) ∧
        authorised op (device_id d) (topology_generation w) tr).
Proof.
  apply wp_bind, wp_reading. intros o w. apply wp_bind, wp_reading. intros o1 w1.
  apply wp_or_return. eapply wp_mono; [apply wp_filter_devices|].
  intros [[visible g]|response] tr _ [Hf Hr].
  - destruct (Hr visible g eq_refl) as (o2 & w2 & ds & o3 & w3 & -> & _ & Hl & -> & ->). clear Hr Hf.
    apply wp_bind, wp_reading. intros o4 w4. apply wp_return. intros devices Hres.
    destruct (topology_generation w =? topology_generation w2)%Z eqn:Hg; [|done].
    apply Z.eqb_eq in Hg. cbn [negb orb] in Hres. destruct (negb _); [done|]. injection Hres as <-.
    exists o, w. eexists. split; [reflexivity|]. intros d [Hv Hd]%list_elem_of_filter. split.
    + apply list_elem_of_fmap in Hd as (d0 & -> & Hd0).
      apply list_elem_of_fmap in Hd0 as ([id d1] & -> & Hin).
      exists id, d1, (w_manager w1). split; [by apply elem_of_map_to_list|done].
    + rewrite Hg. eapply authorised_mono; [apply prefix_app_r; reflexivity|].
      by apply visible_authorised.
  - destruct (Hf response eq_refl) as [error ->]. done.
Qed.

(** The targets in a projected collection. *)
Lemma wp_projected_collections past :
  WP (projected_collections op) past (λ r tr,
    (∀ response, r = Err response → ∃ error, response = RS_Error error) ∧
    ∀ collections, r = Ok collections → ∀ c t, c ∈ collections →
      Member_Target t ∈ collection_members c → ∃ g, authorised op (TargetId_device_id t) g tr).
Proof.
  apply wp_bind, wp_reading. intros o w. apply wp_attempt. eapply wp_mono; [apply wp_filter_devices|].
  intros [[visible g]|response] tr _ [Hf Hr]; [|split; [|done]; intros response' [= <-]; by apply Hf].
  destruct (Hr visible g eq_refl) as (o2 & w2 & ds & o3 & w3 & -> & _ & Hl & -> & ->). clear Hr Hf.
  apply wp_bind. eapply wp_mono with (Q := λ _ _, True).
  { apply wp_quiet; [apply quiet_authorize| |done..]. intros past' o' w'. split; [by left|].
    by intros d ?%elem_of_nil. }
  intros empty tr Hp _. apply wp_bind, wp_reading. intros o4 w4. apply wp_return.
  lazymatch goal with |- context [if ?c then _ else _] => destruct c end.
  { split; [intros response [= <-]; by eexists|done]. }
  split; [intros response; destruct (project _ _ _); cbn; [done|intros [= <-]; by eexists]|].
  intros collections Hproj c t Hc Ht. apply map_err_Ok in Hproj.
  lazymatch type of Hproj with project ?tv ?ev (CollectionGraph_new ?cs) = _ =>
    pose proof (project_correct tv ev cs) as Hok end.
  cbn zeta in Hok. rewrite Hproj in Hok. destruct Hok as (_ & [Hshown _] & _).
  destruct (Hshown c Hc) as (c0 & _ & _ & _ & Hvis & _). apply Hvis in Ht as [_ Hv].
  apply bool_decide_eq_true in Hv. exists (topology_generation w2).
  eapply authorised_mono; [apply prefix_app_r; reflexivity|].
  eapply authorised_mono; [exact Hp|]. by apply visible_authorised.
Qed.
End reports.

(** ** Ownership *)

Section ownership.
Context (principal : Peer) (id : CollectionId).

(** The principal was seen to own the collection, or may administer collections. *)
Definition may_change (past : list event) : Prop :=
  (∃ o w c, Stepped None o w w ∈ past ∧ ds_collections (w_state w) !! id = Some c ∧
            collection_owner c = owner_identity principal) ∨
  Asked AdministerCollections [] Allow ∈ past.

(** A step leaves the state alone, or may change the collection. *)
Definition owner_checked (past : list event) (e : event) : Prop :=
  match e with Stepped _ _ w w' => w' = w ∨ may_change past | _ => True end.

(** A request that changes or destroys the collection. *)
Inductive changes_collection : task Response → Prop :=
| changes_destroy op : changes_collection (destroy_collection_request principal op id)
| changes_add op member : changes_collection (add_collection_member_request principal op id member)
| changes_remove op member :
    changes_collection (remove_collection_member_request principal op id member).

Lemma may_change_mono past past' : past `prefix_of` past' → may_change past → may_change past'.
Proof.
  intros [l ->] [(o & w & c & Hin & Hc & Ho)|Hin]; [left; exists o, w, c|right]; set_solver.
Qed.

Lemma wp_owner_checked op (k : task Response) past :
  wp owner_checked (or_return (authorize op []) (λ r, r) (λ _,
     or_return (authorize_collection_owner principal id) response_of_error (λ _, k))) past
    (λ _ _, True).
Proof.
  apply wp_or_return. apply wp_quiet; [apply quiet_authorize|by left|done|].
  intros [g|response] tr _; [|done]. apply wp_or_return, wp_attempt.
  intros o w w' x [= <- <-]. split; [by left|]. apply wp_return.
  destruct (ds_collections (w_state w) !! id) as [c|] eqn:Hc; [|done]. cbn [fmap option_fmap option_map ok_or].
  assert (∀ past, may_change past → wp owner_checked k past (λ _ _, True)) as Hk.
  { intros past' Hpast'. apply wp_free. intros past'' [] Hp; try done. right. by eapply may_change_mono. }
  case_bool_decide as Ho; [apply wp_return, Hk|].
  - left. exists o, w, c. split_and!; [|done..]. set_solver.
  - apply wp_bind. intros d. split; [done|]. apply wp_return.
    destruct d; [apply Hk|done]. right. set_solver.
Qed.
End ownership.
End handlers.

(** ** Claims *)

(** What a client is told about devices was allowed, device by device: every device in
    the answer to [ListDevices] is in the state the handler read first, and the policy
    allowed the operation on exactly that device, described as that topology describes
    it. *)
Theorem listed_devices_allowed `{Wire, Env} others decides op w tr w' devices :
  runs others decides w (list_devices op) tr w' (Done (RS_Devices devices)) →
  ∃ o v rest, tr = Stepped None o v v :: rest ∧
    ∀ d, d ∈ devices →
      (∃ id d0 pm, ds_devices (w_state v) !! id = Some d0 ∧ d = attach_provider_instance pm d0) ∧
      authorised op (device_id d) (topology_generation v) tr.
Proof.
  intros Hrun. destruct (wp_sound _ others decides w _ tr w' _ [] _ Hrun (wp_list_devices_shows op))
    as [_ Hr]. by apply Hr.
Qed.

(** A collection listing shows a target only if the policy allowed the operation on the
    target's device. *)
Theorem listed_targets_allowed `{Wire, Env} others decides op w tr w' collections c t :
  runs others decides w (list_collections op) tr w' (Done (RS_Collections collections)) →
  c ∈ collections → Member_Target t ∈ collection_members c →
  ∃ g, authorised op (TargetId_device_id t) g tr.
Proof.
  intros Hrun Hc Ht.
  destruct (wp_sound (guarded op) others decides w _ tr w' _ [] (λ r tr, ∀ collections,
    r = RS_Collections collections → ∀ c t, c ∈ collections →
      Member_Target t ∈ collection_members c → ∃ g, authorised op (TargetId_device_id t) g tr) Hrun)
    as [_ Hr].
  { apply wp_or_return. eapply wp_mono; [apply wp_projected_collections|].
    intros [cs|response] tr' _ [Herr Hok]; [intros cs' [= <-]; by apply Hok|].
    by destruct (Herr response eq_refl) as [error ->]. }
  by eapply Hr.
Qed.

(** A collection is changed or destroyed only by its owner or an administrator: in a run
    of any of the three requests, a step that changes anything comes after the handler has
    seen the principal recorded as the owner, or after the policy has allowed the
    administration of collections. *)
Theorem collection_changes_owned `{Wire, Env} others decides principal id t w before m o u u' after w' r :
  changes_collection principal id t →
  runs others decides w t (before ++ Stepped m o u u' :: after) w' r →
  u' = u ∨ may_change principal id before.
Proof.
  intros Ht Hrun.
  destruct (wp_sound (owner_checked principal id) others decides w t _ w' r [] (λ _ _, True) Hrun)
    as [Hall _]; [by destruct Ht; apply wp_owner_checked|].
  exact (Hall before (Stepped m o u u') after eq_refl).
Qed.

(** ** Witnesses *)

Module Housekeeping.
Definition owner : Peer := Peer_Unix 1000 1000 None.
Definition room : CollectionId := CollectionId_new "room".
(** A room with the keyboard, owned by the peer. *)
Definition world : World := set_state Running.world
  (@create_collection sample_env (w_state Running.world) room "Room" None (owner_identity owner) None
     [Member_Target Running.target]).1.
Definition devices_run := Running.run_in world (@list_devices Running.wire Observe).
Definition collections_run := Running.run_in world (@list_collections Running.wire Observe).
Definition destroy_run := Running.run_in world
  (@destroy_collection_request Running.wire sample_env owner DestroyCollection room).
Definition kbd : Device := attach_provider_instance Loaded.manager Running.device.
Definition shown : Collection := {|
  collection_id := room; collection_name := "Room"; collection_description := None;
  collection_owner := owner_identity owner; collection_kind := None;
  collection_members := [Member_Target Running.target] |}.
End Housekeeping.

Lemma listed_devices_allowed_witness :
  Housekeeping.devices_run.2 = Done (RS_Devices [Housekeeping.kbd]) ∧
  ∃ g, @authorised Running.wire Observe (DeviceId_new "kbd") g Housekeeping.devices_run.1.1.
Proof.
  assert (Housekeeping.devices_run.2 = Done (RS_Devices [Housekeeping.kbd])) as Hdone
    by (vm_compute; reflexivity).
  split; [exact Hdone|].
  destruct (@listed_devices_allowed Running.wire sample_env _ _ Observe _ _ _ _ (run_in_runs _ _ _ Hdone))
    as (o & v & rest & _ & Hd).
  exists (topology_generation v). exact (proj2 (Hd Housekeeping.kbd (list_elem_of_here _ _))).
Defined.

Lemma listed_targets_allowed_witness :
  Housekeeping.collections_run.2 = Done (RS_Collections [Housekeeping.shown]) ∧
  ∃ g, @authorised Running.wire Observe (DeviceId_new "kbd") g Housekeeping.collections_run.1.1.
Proof.
  assert (Housekeeping.collections_run.2 = Done (RS_Collections [Housekeeping.shown])) as Hdone
    by (vm_compute; reflexivity).
  split; [exact Hdone|].
  exact (@listed_targets_allowed Running.wire sample_env _ _ Observe _ _ _ _ Housekeeping.shown
    Running.target (run_in_runs _ _ _ Hdone) (list_elem_of_here _ _) (list_elem_of_here _ _)).
Defined.

Definition is_step (e : option (@event Running.wire)) : bool :=
  match e with Some (Stepped _ _ _ _) => true | _ => false end.

Lemma collection_changes_owned_witness :
  Housekeeping.destroy_run.2 = Done RS_Ack ∧
  ds_collections (w_state Housekeeping.destroy_run.1.2) !! Housekeeping.room = None ∧
  ∃ m o u u', Housekeeping.destroy_run.1.1 !! 6 = Some (Stepped m o u u') ∧
    (u' = u ∨ may_change Housekeeping.owner Housekeeping.room (take 6 Housekeeping.destroy_run.1.1)).
Proof.
  assert (Housekeeping.destroy_run.2 = Done RS_Ack) as Hdone by (vm_compute; reflexivity).
  split; [exact Hdone|]. split; [vm_compute; reflexivity|].
  assert (is_step (Housekeeping.destroy_run.1.1 !! 6) = true) as Hat by (vm_compute; reflexivity).
  pose proof (run_in_runs _ _ _ Hdone) as Hrun. fold Housekeeping.destroy_run in Hrun.
  destruct (Housekeeping.destroy_run.1.1 !! 6) as [[m o u u'| |]|] eqn:Hi; try discriminate Hat.
  exists m, o, u, u'. split; [reflexivity|].
  rewrite <-(take_drop_middle _ _ _ Hi) in Hrun.
  exact (@collection_changes_owned Running.wire sample_env _ _ Housekeeping.owner Housekeeping.room
    _ _ _ _ _ _ _ _ _ _ (changes_destroy _ _ _) Hrun).
Defined.
