(* ===== verification/SceneHandlers.v ===== *)
(** * Scene requests: [luminated/src/daemon/dispatch/scenes.rs]

    Listing, creating, capturing, replacing, deleting and applying scenes.  A scene is
    applied to the targets that still exist and are still in the collections they were
    bound through, under per-device permission: its operations are resolved, sent as one
    batch across the plugins and recorded one by one.  The claims: the order of the
    operations leaves each target as the scene says, the answer names the targets that
    were updated, and scenes are changed only by their owner or an administrator. *)

From S2P Require Import Prelude Model Graph Scenes Transition Policy PolicyRuntime Daemon Topology Persistence Validation Observation TargetStates CollectionRegistry SceneRegistry Descriptors Ownership PluginManager PluginApply TransitionRegistry Protocol Authorization Authentication PolicyFiles Tasks Authz Executor Appearance.

(** The text of [{:?}], by which targets are sorted. *)
Class DebugFormat := { debug_target : TargetId → string }.

Definition debug_le `{DebugFormat} {A} (p q : TargetId * A) : Prop :=
  String.le (debug_target p.1) (debug_target q.1).
#[export] Instance debug_le_dec `{DebugFormat} {A} : RelDecision (debug_le (A:=A)).
Proof. intros p q. unfold debug_le. apply _. Defined.

Definition scene_le (a b : Scene) : Prop :=
  String.le (SceneId_as_str (scene_id a)) (SceneId_as_str (scene_id b)).
#[export] Instance scene_le_dec : RelDecision scene_le.
Proof. intros a b. unfold scene_le. apply _. Defined.

Section handlers.
Context `{Wire, Env, DebugFormat}.

Definition binding_devices (bindings : list SceneBinding) : list DeviceId :=
  (λ b, TargetId_device_id (binding_target b)) <$> bindings.

Definition scene_visible (scene : Scene) : task bool :=
  r ← authorize Observe (binding_devices (scene_bindings scene)); Return (is_ok r).

Fixpoint visible_scenes (scenes : list Scene) : task (list Scene) :=
  match scenes with
  | [] => Return []
  | scene :: scenes =>
      visible ← scene_visible scene;
      rest ← visible_scenes scenes;
      Return (if visible : bool then scene :: rest else rest)
  end.

Definition list_scenes : task Response :=
  scenes ← reading (λ _ w, (map_to_list (ds_scenes (w_state w))).*2);
  visible ← visible_scenes scenes;
  Return (RS_Scenes (merge_sort scene_le visible)).

Definition get_scene (id : SceneId) : task Response :=
  scene ← reading (λ _ w, ds_scenes (w_state w) !! id);
  match scene with
  | Some scene =>
      visible ← scene_visible scene;
      Return (RS_SceneInfo (if visible : bool then Some scene else None))
  | None => Return (RS_SceneInfo None)
  end.

Definition scene_result (r : daemon Scene) : Response :=
  match r with Ok scene => RS_Scene scene | Err error => response_of_error error end.

(** The mutation of every handler that answers with a scene. *)
Definition mutate_scene (devices : list DeviceId) (generation : Z) (job : task (daemon Scene)) :
    task Response :=
  result ← execute_authorized devices generation job;
  if is_ok result then _ ← publish ScenesChanged; Return (scene_result result)
  else Return (scene_result result).

(** What a capture selects: without targets, the leaves of its collection. *)
Definition capture_selection (mode : SceneCaptureMode) (targets : list TargetId) :
    task (daemon (list TargetId)) :=
  match targets, mode with
  | [], Capture_DynamicCollectionMembers collection =>
      reading (λ _ w, resolve_collection_leaves (w_state w) collection)
  | _, _ => Return (Ok targets)
  end.

Section principal.
Context (principal : Peer).

Definition authorize_scene_owner (id : SceneId) : task (daemon unit) :=
  attempt (reading (λ _ w,
      ok_or (scene_owner <$> ds_scenes (w_state w) !! id) (DE_SceneNotFound id)))
    (λ owner,
      if bool_decide (owner = owner_identity principal) then Return (Ok tt)
      else
        decision ← ask AdministerScenes [];
        Return (if allows decision then Ok tt else Err (DE_SceneNotOwned id))).

Definition create_scene_request (op : Operation) (name : string) (description : option string)
    (bindings : list SceneBinding) : task Response :=
  let devices := binding_devices bindings in
  or_return (authorize op devices) id (λ generation,
    mutate_scene devices generation (locked (λ o st,
      create_scene st (SceneId_new (out_uuid o)) name description (owner_identity principal) bindings))).

Definition capture_scene (op : Operation) (name : string) (description : option string)
    (mode : SceneCaptureMode) (targets : list TargetId) : task Response :=
  or_return (capture_selection mode targets) response_of_error (λ selected,
  let devices := TargetId_device_id <$> selected in
  or_return (authorize op devices) id (λ generation,
    mutate_scene devices generation (locked (λ o st,
      match capture_bindings st mode targets with
      | Err e => (st, Err e)
      | Ok bindings =>
          create_scene st (SceneId_new (out_uuid o)) name description (owner_identity principal)
            bindings
      end)))).

Definition replace_scene_request (op : Operation) (id : SceneId) (expected_revision : Z)
    (name : string) (description : option string) (bindings : list SceneBinding) : task Response :=
  or_return (authorize_scene_owner id) response_of_error (λ _,
  let devices := binding_devices bindings in
  or_return (authorize op devices) (λ r, r) (λ generation,
    mutate_scene devices generation (locked (λ _ st,
      replace_scene st id expected_revision name description bindings)))).

Definition recapture_scene (op : Operation) (id : SceneId) (expected_revision : Z)
    (mode : SceneCaptureMode) (targets : list TargetId) : task Response :=
  or_return (authorize_scene_owner id) response_of_error (λ _,
  or_return (capture_selection mode targets) response_of_error (λ selected,
  let devices := TargetId_device_id <$> selected in
  or_return (authorize op devices) (λ r, r) (λ generation,
    mutate_scene devices generation (locked (λ _ st,
      match capture_bindings st mode targets with
      | Err e => (st, Err e)
      | Ok bindings =>
          match ds_scenes st !! id with
          | None => (st, Err (DE_SceneNotFound id))
          | Some scene =>
              replace_scene st id expected_revision (scene_name scene) (scene_description scene)
                bindings
          end
      end))))).

Definition delete_scene_request (op : Operation) (id : SceneId) (expected_revision : Z) :
    task Response :=
  or_return (authorize op []) (λ r, r) (λ _,
  or_return (authorize_scene_owner id) response_of_error (λ _,
  generation ← reading (λ _ w, topology_generation w);
  response ← mutate [] generation (locked (λ _ st,
    let '(st', r) := delete_scene st id expected_revision in (st', _ ← r; Ok tt)));
  match response with
  | RS_Ack => _ ← publish ScenesChanged; Return response
  | _ => Return response
  end)).
End principal.

(** ** Applying a scene *)

(** Whether a binding still applies: its target exists and is still in its collection. *)
Definition binding_applies (st : DaemonState) (b : SceneBinding) : bool :=
  match dynamic_collection b with
  | None => true
  | Some collection =>
      match resolve_collection_leaves st collection with
      | Ok leaves => bool_decide (binding_target b ∈ leaves)
      | Err _ => false
      end
  end && bool_decide (is_Some (capabilities_for_target st (binding_target b))).

Definition scene_targets (st : DaemonState) (scene : Scene) : list (TargetId * SceneTargetState) :=
  (λ b, (binding_target b, binding_state b)) <$>
    filter (λ b, binding_applies st b = true) (scene_bindings scene).

Definition slot_operation (p : TargetId * SceneTargetState) : option (TargetId * TargetState) :=
  (λ values, (p.1, TS_AppearanceSlots values)) <$> sts_appearance_slots p.2.
Definition appearance_operation (p : TargetId * SceneTargetState) : option (TargetId * TargetState) :=
  (λ appearance, (p.1, TS_Effect appearance)) <$> sts_appearance p.2.
Definition brightness_operation (p : TargetId * SceneTargetState) : option (TargetId * TargetState) :=
  (λ brightness, (p.1, TS_Brightness brightness)) <$> sts_brightness p.2.
Definition emission_operation (p : TargetId * SceneTargetState) : option (TargetId * TargetState) :=
  match sts_emission p.2 with
  | Some Dark => Some (p.1, TS_Effect Effect_Off)
  | Some Emitting => (λ appearance, (p.1, TS_Effect appearance)) <$> sts_appearance p.2
  | None => None
  end.

(** One loop over the targets per facet. *)
Definition build_operations (targets : list (TargetId * SceneTargetState)) :
    list (TargetId * TargetState) :=
  omap slot_operation targets ++ omap appearance_operation targets ++
  omap brightness_operation targets ++ omap emission_operation targets.

(** Appearance slots are completed, everything else is validated. *)
Definition validate_operation (st : DaemonState) (operation : TargetId * TargetState) :
    daemon (TargetId * TargetState) :=
  let '(target, state) := operation in
  match state with
  | TS_AppearanceSlots values =>
      resolved ← validate_appearance_slot_values st target values;
      Ok (target, TS_AppearanceSlots resolved)
  | _ => _ ← validate_target_state st target state; Ok (target, state)
  end.

Definition resolve_operation (st : DaemonState) (operation : TargetId * TargetState) :
    daemon Update :=
  let '(target, state) := operation in
  match state with
  | TS_Effect (Effect_Static colour) =>
      resolved ← resolve_colour st target colour;
      Ok (target, Op_SetEffect (Effect_Static resolved))
  | TS_Effect effect => Ok (target, Op_SetEffect effect)
  | TS_Brightness value => Ok (target, Op_SetBrightness value)
  | TS_AppearanceSlots values => Ok (target, Op_SetAppearanceSlots values)
  | TS_Clear => Ok (target, Op_Clear)
  end.
Definition resolve_operations (st : DaemonState) (operations : list (TargetId * TargetState)) :
    daemon (list Update) := try_map (resolve_operation st) operations.

Definition record_operation (o : Outside) (st : DaemonState) (operation : TargetId * TargetState) :
    DaemonState * daemon unit :=
  let '(target, state) := operation in
  match state with
  | TS_Effect effect => set_effect (out_now o) st target effect
  | TS_Brightness value => set_brightness (out_now o) st target value
  | TS_AppearanceSlots values => set_appearance_slots (out_now o) st target values
  | TS_Clear => clear_target (out_now o) st target
  end.

(** What the loop over the outcomes has seen: the targets updated, the number of failures
    and the first error. *)
Record Committed := {
  cm_applied : list TargetId;
  cm_failures : nat;
  cm_first_error : option DaemonError
}.
Definition no_outcomes : Committed :=
  {| cm_applied := []; cm_failures := 0; cm_first_error := None |}.

Definition committed_result (c : Committed) : daemon unit :=
  match cm_failures c, cm_applied c with
  | O, _ => Ok tt
  | _, [] => Err (default (DE_Internal (Lit "scene application failed without a diagnostic"))
                    (cm_first_error c))
  | failures, applied =>
      Err (DE_PartialMutation
             (Fmt "scene applied updates to {} target(s), but {} operation(s) failed: {}"
                [ANum (Z.of_nat (length applied)); ANum (Z.of_nat failures)]) applied)
  end.

Fixpoint commit_outcomes (c : Committed)
    (outcomes : list ((TargetId * TargetState) * daemon unit)) : task (daemon unit) :=
  match outcomes with
  | [] => Return (committed_result c)
  | (operation, Err error) :: outcomes =>
      commit_outcomes {| cm_applied := cm_applied c; cm_failures := S (cm_failures c);
                         cm_first_error := match cm_first_error c with
                                           | None => Some error
                                           | first => first
                                           end |} outcomes
  | (operation, Ok _) :: outcomes =>
      attempt (locked (λ o st, record_operation o st operation)) (λ _,
        commit_outcomes {| cm_applied := push_unique (cm_applied c) operation.1;
                           cm_failures := cm_failures c; cm_first_error := cm_first_error c |}
          outcomes)
  end.
Definition commit_operation_outcomes (operations : list (TargetId * TargetState))
    (outcomes : list (daemon unit)) : task (daemon unit) :=
  commit_outcomes no_outcomes (zip operations outcomes).

Definition send_batch (updates : list Update) : task (list (daemon unit)) :=
  calling (Msg_Batch updates) (λ o w,
    (w, apply_batch_parallel (out_hosts o) (w_manager w) updates)).

Definition apply_operations (operations : list (TargetId * TargetState)) : task (daemon unit) :=
  attempt (reading (λ _ w, resolve_operations (w_state w) operations)) (λ updates,
    outcomes ← send_batch updates;
    commit_operation_outcomes operations outcomes).

Definition apply_scene (op : Operation) (id : SceneId) (authorized_targets : option (list TargetId)) :
    task Response :=
  or_return (reading (λ _ w,
      ok_or (scene_targets (w_state w) <$> ds_scenes (w_state w) !! id) (DE_SceneNotFound id)))
    response_of_error (λ targets,
  let targets := merge_sort debug_le targets in
  let targets := match authorized_targets with
                 | Some authorized => filter (λ p, p.1 ∈ authorized) targets
                 | None => targets
                 end in
  '(applied, denied, generation) ← authorize_partial op targets.*1;
  _ ← cancel_transition_targets applied;
  let operations := build_operations (filter (λ p, p.1 ∈ applied) targets) in
  or_return (reading (λ _ w, try_map (validate_operation (w_state w)) operations)) response_of_error
    (λ operations,
      result ← execute_authorized (TargetId_device_id <$> applied) generation
                 (apply_operations operations);
      Return (match result with
              | Ok _ => RS_SceneApplied applied denied
              | Err error => response_of_error error
              end))).

(** ** Permission *)

Section permission.
Context (op : Operation).
Notation WP := (wp (guarded op)).

Lemma safe_scene_visible ds b scene : safe op ds b (scene_visible scene).
Proof. unfold scene_visible. apply safe_bind; auto with safe. Qed.
Lemma safe_visible_scenes ds b scenes : safe op ds b (visible_scenes scenes).
Proof.
  induction scenes as [|scene scenes IH]; cbn [visible_scenes]; [auto with safe|].
  apply safe_bind; [apply safe_scene_visible|]. intros visible. apply safe_bind; auto with safe.
Qed.
Lemma wp_list_scenes past : WP list_scenes past (λ _ _, True).
Proof.
  apply safe_wp, safe_bind; [auto with safe|]. intros scenes.
  apply safe_bind; [apply safe_visible_scenes|]. auto with safe.
Qed.
Lemma wp_get_scene id past : WP (get_scene id) past (λ _ _, True).
Proof.
  apply safe_wp, safe_bind; [auto with safe|]. intros [scene|]; [|auto with safe].
  apply safe_bind; [apply safe_scene_visible|]. auto with safe.
Qed.

Lemma wp_mutate_scene devices g f past :
  granted op past → (∀ d, d ∈ devices → authorised op d g past) →
  WP (mutate_scene devices g (locked f)) past (λ _ _, True).
Proof.
  intros Hgr Hd. apply wp_bind. eapply wp_mono.
  { apply (wp_execute_inner op devices True); [done..| |].
    - intros _. by left.
    - apply safe_locked. by left. }
  intros r tr Hp _. case_match; [|done]. split; [by eapply granted_mono|done].
Qed.

Lemma wp_capture_selection mode targets past :
  WP (capture_selection mode targets) past (λ _ _, True).
Proof. apply safe_wp. unfold capture_selection. repeat case_match; auto with safe. Qed.

Lemma wp_scene_owner principal id past : WP (authorize_scene_owner principal id) past (λ _ _, True).
Proof.
  apply safe_wp, safe_attempt; [auto with safe|]. intros owner. case_match; [auto with safe|].
  apply safe_bind; auto with safe.
Qed.

Lemma wp_create_scene principal name description bindings past :
  WP (create_scene_request principal op name description bindings) past (λ _ _, True).
Proof. apply wp_authorized. intros g tr Hgr Hd. by apply wp_mutate_scene. Qed.
Lemma wp_capture_scene principal name description mode targets past :
  WP (capture_scene principal op name description mode targets) past (λ _ _, True).
Proof.
  apply wp_or_return. eapply wp_mono; [apply wp_capture_selection|].
  intros [selected|e] tr _ _; [|done]. apply wp_authorized. intros g tr' Hgr Hd. by apply wp_mutate_scene.
Qed.
Lemma wp_replace_scene principal id revision name description bindings past :
  WP (replace_scene_request principal op id revision name description bindings) past (λ _ _, True).
Proof.
  apply wp_or_return. eapply wp_mono; [apply wp_scene_owner|]. intros [[]|e] tr _ _; [|done].
  apply wp_authorized. intros g tr' Hgr Hd. by apply wp_mutate_scene.
Qed.
Lemma wp_recapture_scene principal id revision mode targets past :
  WP (recapture_scene principal op id revision mode targets) past (λ _ _, True).
Proof.
  apply wp_or_return. eapply wp_mono; [apply wp_scene_owner|]. intros [[]|e] tr _ _; [|done].
  apply wp_or_return. eapply wp_mono; [apply wp_capture_selection|].
  intros [selected|e] tr' _ _; [|done]. apply wp_authorized. intros g tr'' Hgr Hd.
  by apply wp_mutate_scene.
Qed.
Lemma wp_delete_scene principal id revision past :
  WP (delete_scene_request principal op id revision) past (λ _ _, True).
Proof.
  apply wp_authorized. intros _ tr Hgr _. apply wp_or_return.
  eapply wp_mono; [apply wp_scene_owner|]. intros [[]|e] tr1 Hp1 _; [|done].
  apply wp_bind, wp_reading. intros o w. apply wp_bind.
  assert (granted op (tr1 ++ [Stepped None o w w])) as Hgr'.
  { eapply granted_mono; [|exact Hgr]. etrans; [exact Hp1|]. by apply prefix_app_r. }
  eapply wp_mono.
  { apply (wp_mutate op [] True); [by intros d ?%elem_of_nil|done|done|].
    apply safe_locked. by left. }
  intros response tr2 Hp2 _. case_match; try done. split; [by eapply granted_mono|done].
Qed.

Lemma build_operations_target targets t s :
  (t, s) ∈ build_operations targets → t ∈ targets.*1.
Proof.
  unfold build_operations. rewrite !elem_of_app, !list_elem_of_omap.
  intros [(p & Hp & Ho)|[(p & Hp & Ho)|[(p & Hp & Ho)|(p & Hp & Ho)]]];
    apply list_elem_of_fmap; exists p; (split; [|done]); revert Ho;
    [unfold slot_operation|unfold appearance_operation|unfold brightness_operation
    |unfold emission_operation; destruct (sts_emission p.2) as [[]|]; try congruence];
    try (intros (? & _ & [= <- _])%fmap_Some; done); congruence.
Qed.

Lemma validate_operation_target st operation operation' :
  validate_operation st operation = Ok operation' → operation'.1 = operation.1.
Proof.
  destruct operation as [t s]. cbn. destruct s; intros Hv; res_inv; done.
Qed.
Lemma resolve_operation_target st operation update :
  resolve_operation st operation = Ok update → update.1 = operation.1.
Proof.
  destruct operation as [t s]. cbn. destruct s as [e| | |]; [destruct e|..]; intros Hr; res_inv; done.
Qed.

Lemma try_map_fst {A B} (f : TargetId * A → daemon (TargetId * B)) l k :
  (∀ x y, f x = Ok y → y.1 = x.1) → try_map f l = Ok k → k.*1 = l.*1.
Proof.
  intros Hf Hl%try_map_Ok. induction Hl as [|x y l k Hxy _ IH]; [done|]. cbn.
  by rewrite (Hf _ _ Hxy), IH.
Qed.

Lemma safe_commit_outcomes ds b c outcomes :
  (∀ t s r, ((t, s), r) ∈ outcomes → TargetId_device_id t ∈ ds) →
  safe op ds b (commit_outcomes c outcomes).
Proof.
  revert c. induction outcomes as [|[[t s] [[]|e]] outcomes IH]; intros c Hin; cbn [commit_outcomes];
    [auto with safe| |].
  - apply safe_attempt; [apply safe_locked; eapply (in_entitled ds b), Hin; left|].
    intros _. apply IH. intros t' s' r Ht. eapply Hin. by right.
  - apply IH. intros t' s' r Ht. eapply Hin. by right.
Qed.

Lemma safe_apply_operations ds b operations :
  (∀ t, t ∈ operations.*1 → TargetId_device_id t ∈ ds) → safe op ds b (apply_operations operations).
Proof.
  intros Hin past Hc. apply wp_attempt, wp_reading. intros o w.
  destruct (resolve_operations _ _) as [updates|e] eqn:Hr; [|by apply cleared_app].
  apply try_map_fst in Hr; [|intros; by eapply resolve_operation_target].
  assert (safe op ds b (outcomes ← send_batch updates; commit_operation_outcomes operations outcomes))
    as Hs; [|by apply Hs, cleared_app].
  apply safe_bind.
  - apply safe_step; [by left|]. cbn. intros d ([t u] & -> & Ht)%list_elem_of_fmap.
    apply Hin. rewrite <-Hr. by eapply list_elem_of_fmap_2'.
  - intros outcomes. apply safe_commit_outcomes. intros t s r Ht%elem_of_zip_l.
    apply Hin. by eapply list_elem_of_fmap_2'.
Qed.

Lemma wp_apply_scene id authorized past : WP (apply_scene op id authorized) past (λ _ _, True).
Proof.
  apply wp_or_return, wp_reading. intros o w. case_match; [|done]. cbn zeta.
  apply wp_bind. eapply wp_mono; [apply wp_authorize_partial|].
  intros [[applied denied] g] tr _ Hr. destruct (Hr applied denied g eq_refl) as [_ Hd].
  apply wp_bind. eapply wp_mono with (Q := λ _ _, True).
  { apply wp_cancel. intros Hne. destruct applied as [|leaf applied]; [done|].
    eapply authorised_granted, Hd. left. }
  intros [] tr' Hp _. apply wp_or_return, wp_reading. intros o2 w2.
  lazymatch goal with |- match ?r with Ok _ => _ | Err _ => _ end =>
    destruct r as [operations|error] eqn:Hv end; [|done].
  apply try_map_fst in Hv; [|intros; by eapply validate_operation_target].
  apply wp_bind. eapply wp_mono; [|done].
  apply (wp_execute_inner op (TargetId_device_id <$> applied) False); [|done| |].
  - intros d (leaf & -> & Hin)%list_elem_of_fmap. eapply authorised_mono; [|by apply Hd].
    etrans; [exact Hp|]. by apply prefix_app_r.
  - intros Hne. by right.
  - apply safe_apply_operations. intros t Ht. rewrite Hv in Ht.
    apply list_elem_of_fmap in Ht as ([t' s] & -> & Ht). apply build_operations_target in Ht.
    apply list_elem_of_fmap in Ht as (p & -> & [Happ _]%list_elem_of_filter).
    by apply list_elem_of_fmap_2.
Qed.

End permission.

(** ** The operations of one target *)

Lemma filter_omap_key (f : TargetId * SceneTargetState → option (TargetId * TargetState)) targets t s :
  (∀ p q, f p = Some q → q.1 = p.1) → NoDup targets.*1 → (t, s) ∈ targets →
  filter (λ q, q.1 = t) (omap f targets) = option_list (f (t, s)).
Proof.
  intros Hf. induction targets as [|p targets IH]; intros Hnd Hin; [by apply elem_of_nil in Hin|].
  cbn in Hnd. apply NoDup_cons in Hnd as [Hp Hnd].
  assert (∀ q, q ∈ omap f targets → q.1 ∈ targets.*1) as Hkey.
  { intros q (p' & Hp' & Hq)%list_elem_of_omap. rewrite (Hf _ _ Hq). by apply list_elem_of_fmap_2. }
  apply elem_of_cons in Hin as [<-|Hin].
  - assert (filter (λ q, q.1 = t) (omap f targets) = []) as Hnone.
    { apply elem_of_nil_inv. intros q [<- Hq]%list_elem_of_filter. by apply Hp, Hkey. }
    cbn. destruct (f (t, s)) as [q|] eqn:Hq; [|done]. rewrite filter_cons, Hnone.
    by rewrite decide_True by apply (Hf _ _ Hq).
  - cbn. destruct (f p) as [q|] eqn:Hq; [|by apply IH]. rewrite filter_cons, decide_False; [by apply IH|].
    rewrite (Hf _ _ Hq). intros Heq. apply Hp. rewrite Heq. by eapply (list_elem_of_fmap_2' _ _ (t, s)).
Qed.

(** ** The answer to a batch *)

Lemma record_operation_error o st operation st' e :
  record_operation o st operation = (st', Err e) → is_partial e = false.
Proof.
  assert (∀ target state, record_write (out_now o) st target state = (st', Err e) →
    is_partial e = false) as Hw.
  { intros target state. unfold record_write, insert_target_state_checked.
    destruct (ensure_target_exists _ _) as [[]|e'] eqn:He.
    - destruct (ensure_persistable _) as [[]|e'] eqn:Hp; intros [= <- <-].
      by apply ensure_persistable_Err in Hp as (_ & message & ->).
    - intros [= <- <-]. revert He. unfold ensure_target_exists. by case_match; intros [= <-]. }
  destruct operation as [t s]. cbn. destruct s; apply Hw.
Qed.

(** The targets that were updated, each once, in order. *)
Definition updated (outcomes : list ((TargetId * TargetState) * daemon unit)) : list TargetId :=
  fold_left push_unique ((filter (λ p, is_ok p.2 = true) outcomes).*1).*1 [].

Definition absorb (c : Committed) (outcomes : list ((TargetId * TargetState) * daemon unit)) :
    Committed := {|
  cm_applied := fold_left push_unique ((filter (λ p, is_ok p.2 = true) outcomes).*1).*1 (cm_applied c);
  cm_failures := cm_failures c + length (filter (λ p, is_ok p.2 = false) outcomes);
  cm_first_error := match cm_first_error c with
                    | Some e => Some e
                    | None => head (omap (λ p, match p.2 with Err e => Some e | Ok _ => None end) outcomes)
                    end
|}.

Lemma wp_commit_outcomes c outcomes past :
  wp (λ _ _, True) (commit_outcomes c outcomes) past (λ r _,
    r = committed_result (absorb c outcomes) ∨ ∃ e, r = Err e ∧ is_partial e = false).
Proof.
  revert c past. induction outcomes as [|[operation [[]|e]] outcomes IH]; intros c past;
    cbn [commit_outcomes].
  - apply wp_return. left. f_equal. destruct c as [applied n [e|]]; unfold absorb; cbn; f_equal; lia.
  - apply wp_attempt. intros o w w' x Hx. split; [done|]. apply wp_return.
    destruct (record_operation _ _ _) as [st r] eqn:Hrec. injection Hx as _ <-.
    destruct r as [[]|e].
    + eapply wp_mono; [apply IH|]. intros r tr _ [->|?]; [left|by right]. by destruct c as [? ? [|]].
    + right. exists e. split; [done|]. by eapply record_operation_error.
  - eapply wp_mono; [apply IH|]. intros r tr _ [->|?]; [left|by right].
    unfold absorb. rewrite !filter_cons, decide_False, decide_True by done. cbn [length omap list_omap].
    rewrite Nat.add_succ_r. by destruct c as [applied n [e'|]].
Qed.
End handlers.

(** ** Claims *)

(** A scene drives each of its targets in the intended order: of all the operations of
    the scene, those on one target are its appearance slots, its appearance, its
    brightness and its emission, each at most once and only if the scene says so, in this
    order; so a dark target ends switched off, and an emitting one with its appearance
    after its brightness. *)
Theorem scene_operations_ordered targets t s :
  NoDup targets.*1 → (t, s) ∈ targets →
  filter (λ operation, operation.1 = t) (build_operations targets) =
    option_list (slot_operation (t, s)) ++ option_list (appearance_operation (t, s)) ++
    option_list (brightness_operation (t, s)) ++ option_list (emission_operation (t, s)).
Proof.
  intros Hnd Hin. unfold build_operations. rewrite !filter_app.
  assert (∀ {A} (f : A → TargetId * TargetState) (o : option A) (p : TargetId * SceneTargetState) q,
    (∀ a, (f a).1 = p.1) → f <$> o = Some q → q.1 = p.1) as Hkey.
  { intros A f [a|] p q Hfa [=]. subst q. apply Hfa. }
  rewrite (filter_omap_key slot_operation _ t s), (filter_omap_key appearance_operation _ t s),
    (filter_omap_key brightness_operation _ t s), (filter_omap_key emission_operation _ t s);
    try done; intros p q Hq.
  - revert Hq. unfold emission_operation. destruct (sts_emission p.2) as [[]|]; [by intros [= <-]| |done].
    by apply Hkey.
  - by eapply Hkey, Hq.
  - by eapply Hkey, Hq.
  - by eapply Hkey, Hq.
Qed.

(** The answer to a scene's batch is honest: success means that no operation failed, and
    a partial mutation names exactly the targets that were updated, each once and in
    order, when some operation failed and some target was updated.  (No plugin answers
    with a partial mutation itself.) *)
Theorem scene_outcomes_reported `{Wire, Env} others decides operations outcomes w tr w' r :
  (∀ e, Err e ∈ outcomes → is_partial e = false) →
  runs others decides w (commit_operation_outcomes operations outcomes) tr w' (Done r) →
  (r = Ok tt → ∀ p, p ∈ zip operations outcomes → p.2 = Ok tt) ∧
  (∀ text applied, r = Err (DE_PartialMutation text applied) →
     applied = updated (zip operations outcomes) ∧ applied ≠ [] ∧
     ∃ operation e, (operation, Err e) ∈ zip operations outcomes).
Proof.
  intros Hplain Hrun.
  destruct (wp_sound _ others decides w _ tr w' _ [] _ Hrun (wp_commit_outcomes no_outcomes _ []))
    as [_ [->|(e & -> & He)]]; [|by split; [|intros text applied [= ->]]].
  set (l := zip operations outcomes). unfold committed_result.
  change (cm_applied (absorb no_outcomes l)) with (updated l).
  cbn [absorb cm_failures cm_first_error no_outcomes].
  destruct (0 + length (filter (λ p, is_ok p.2 = false) l)) as [|n] eqn:Hn; cbn in Hn.
  - split; [|done]. intros _ p Hp. destruct p as [operation [[]|e]]; [done|].
    apply nil_length_inv in Hn. exfalso. apply (not_elem_of_nil (operation, Err e : daemon unit)).
    rewrite <-Hn. by apply list_elem_of_filter.
  - assert (∃ operation e, (operation, Err e) ∈ l) as Hfail.
    { destruct (filter _ l) as [|[operation [x|e]] rest] eqn:Hf; [done| |].
      - assert ((operation, Ok x : daemon unit) ∈ filter (λ p, is_ok p.2 = false) l) as Hin
          by (rewrite Hf; left). by apply list_elem_of_filter in Hin as [? _].
      - exists operation, e. assert ((operation, Err e : daemon unit) ∈ filter (λ p, is_ok p.2 = false) l)
          as Hin by (rewrite Hf; left). by apply list_elem_of_filter in Hin as [_ ?]. }
    destruct (updated l) as [|t ts] eqn:Hu.
    + split; [done|]. intros text applied [= Hd]. exfalso.
      destruct (head _) as [e|] eqn:Hh; [|done]. cbn in Hd. subst e.
      apply head_Some_elem_of, list_elem_of_omap in Hh as ([operation [|e]] & Hin & [= ->]).
      apply elem_of_zip_r in Hin. by apply Hplain in Hin.
    + split; [done|]. by intros text applied [= <- <-].
Qed.

(** ** Witnesses *)

Module Movie.
Definition dark : SceneTargetState := {|
  sts_appearance := Some (Effect_Static (Colour_Monochrome 9%Z)); sts_brightness := Some 40%Z;
  sts_emission := Some Dark; sts_appearance_slots := None |}.
Definition targets : list (TargetId * SceneTargetState) :=
  [(Running.target, dark); (TargetId_device "strip", dark)].
Definition operations : list (TargetId * TargetState) :=
  [(Running.target, TS_Brightness 40%Z); (TargetId_device "strip", TS_Brightness 40%Z);
   (Running.target, TS_Effect (Effect_Static (Colour_Monochrome 9%Z)))].
Definition outcomes : list (daemon unit) := [Ok tt; Err (DE_DeviceUnowned "strip"); Ok tt].
Definition commit_run := Running.run
  (@commit_operation_outcomes Running.wire sample_env operations outcomes).
Definition report : DaemonError := DE_PartialMutation
  (Fmt "scene applied updates to {} target(s), but {} operation(s) failed: {}" [ANum 1%Z; ANum 1%Z])
  [Running.target].
End Movie.

Lemma scene_operations_ordered_witness :
  filter (λ operation, operation.1 = Running.target) (build_operations Movie.targets) =
    [(Running.target, TS_Effect (Effect_Static (Colour_Monochrome 9%Z)));
     (Running.target, TS_Brightness 40%Z); (Running.target, TS_Effect Effect_Off)].
Proof.
  apply (scene_operations_ordered Movie.targets Running.target Movie.dark).
  - apply (bool_decide_unpack _). vm_compute. exact I.
  - left.
Defined.

Lemma scene_outcomes_reported_witness :
  Movie.commit_run.2 = Done (Err Movie.report) ∧
  [Running.target] = updated (zip Movie.operations Movie.outcomes).
Proof.
  assert (Movie.commit_run.2 = Done (Err Movie.report)) as Hdone by (vm_compute; reflexivity).
  split; [exact Hdone|].
  assert (∀ e, Err e ∈ Movie.outcomes → is_partial e = false) as Hplain.
  { intros e. unfold Movie.outcomes. rewrite !elem_of_cons, elem_of_nil.
    intros [[=]|[[= ->]|[[=]|[]]]]. reflexivity. }
  destruct (@scene_outcomes_reported Running.wire sample_env _ _ Movie.operations Movie.outcomes
    _ _ _ (Err Movie.report) Hplain (run_in_runs _ _ _ Hdone)) as [_ Hp].
  exact (proj1 (Hp _ _ eq_refl)).
Defined.
