(* ===== verification/Streaming.v ===== *)
(** * Frame streams and administration: [dispatch/streaming.rs] and [dispatch/admin.rs]

    Beginning, feeding and ending frame streams, with both shared-memory fast paths, and
    the requests that refresh, purge, rescan, unload and reload.  The claims: a frame
    reaches a plugin only in order, through the stream of its generation in the topology
    that was authorized; and a stream can be ended by a connection that neither owns it nor
    has any permission. *)

From S2P Require Import Prelude Model ShmFrame Graph Scenes Transition Policy PolicyRuntime Daemon Topology Persistence Validation Observation TargetStates CollectionRegistry FrameStreams Descriptors Ownership PluginManager PluginApply Readback TransitionRegistry Protocol Authorization Authentication PolicyFiles Tasks Authz Executor Appearance Inspection.

(** [segment_bytes] of [plugins/shm_client.rs] *)
Definition segment_bytes (format : ShmPixelFormat) (pixel_count : Z) : option Z :=
  payload ← checkU 32 (pixel_count * Z.of_nat (bytes_per_pixel format));
  checkU 32 (Z.of_nat SHM_CLIENT_FRAME_HEADER_LEN + payload).

Record ClientShmStreamReady := {
  csr_service_name : string;
  csr_event_service_name : string;
  csr_pixel_format : ShmPixelFormat;
  csr_stream_nonce : Z;
  csr_segment_bytes : Z
}.

(** [ShmClientSubscriberRegistry::begin]: [services] is what creating the services and
    starting the thread answers. *)
Definition begin_shm_client_stream (pm : PluginManager) (target : TargetId)
    (capability : ShmFrameCapability) (generation : Z)
    (services : result Text (string * string * Z)) :
    PluginManager * result Text (option ClientShmStreamReady) :=
  match head (shm_pixel_formats capability) with
  | None => (pm, Ok None)
  | Some format =>
      match ShmFrameShape_pixel_count (shm_shape capability) ≫= segment_bytes format with
      | None => (pm, Ok None)
      | Some bytes =>
          match services with
          | Err error => (pm, Err error)
          | Ok (service_name, event_service_name, stream_nonce) =>
              (set_shm_client pm (<[stream_key target := generation]> (pm_shm_client pm)),
               Ok (Some {| csr_service_name := service_name;
                           csr_event_service_name := event_service_name;
                           csr_pixel_format := format; csr_stream_nonce := stream_nonce;
                           csr_segment_bytes := bytes |}))
          end
      end
  end.

Section handlers.
Context `{Wire, Env}.

(** ** Frame streams *)

Definition with_manager {X} (w : World) (r : X * PluginManager) : World * X :=
  (set_manager w r.2, r.1).

Definition begin_shm_job (target : TargetId) (capability : ShmFrameCapability) (generation : Z) :
    task (daemon unit) :=
  _ ← calling (Msg_BeginShm target generation) (λ o w, with_manager w
        (begin_shm_stream (w_manager w) target capability generation (out_shm_outcome o)
           (out_shm_opened o) (out_connection_epoch o)));
  Return (Ok tt).

Definition own_stream (target : TargetId) : task unit :=
  Step None (λ _ w, (set_owned_streams w (w_owned_streams w ++ [target]), tt)) Return.
Definition disown_stream (target : TargetId) : task unit :=
  Step None (λ _ w, (set_owned_streams w (filter (λ t, t ≠ target) (w_owned_streams w)), tt)) Return.

Definition shm_capability (st : DaemonState) (target : TargetId) : option ShmFrameCapability :=
  capabilities ← capabilities_for_target st target;
  frame_upload ← cs_frame_upload capabilities;
  fu_shm frame_upload.

(** The fast path to the plugin, whose failure does not matter. *)
Definition negotiate_shm (target : TargetId) (capability : option ShmFrameCapability)
    (topology_generation generation : Z) : task unit :=
  match capability with
  | Some capability =>
      _ ← execute_hardware_only_authorized [TargetId_device_id target] topology_generation
            (begin_shm_job target capability generation);
      Return tt
  | None => Return tt
  end.

Definition begin_frame_stream_request (prefer_shm : bool) (op : Operation) (target : TargetId) :
    task Response :=
  or_return (authorize op [TargetId_device_id target]) id (λ topology_generation,
  _ ← cancel_transition_targets [target];
  r ← Step None (λ _ w,
        let st := w_state w in
        if negb (ds_topology_generation st =? topology_generation)%Z
        then (w, Err stale_authorization)
        else
          let '(st', r) := begin_frame_stream st target in
          match r with
          | Ok generation =>
              (set_owned_streams (set_state w st') (w_owned_streams w ++ [target]),
               Ok (generation, if prefer_shm then shm_capability st' target else None))
          | Err error => (set_state w st', Err error)
          end) Return;
  match r with
  | Ok (generation, capability) =>
      _ ← negotiate_shm target capability topology_generation generation;
      _ ← publish (StateChanged [TargetId_device_id target]);
      Return (RS_FrameStreamStarted generation)
  | Err error => Return (response_of_error error)
  end).

(** [PluginManager::apply_frame] and [apply_one_frame] *)
Definition apply_frame (o : Outside) (pm : PluginManager) (target : TargetId)
    (envelope : FrameEnvelope) : daemon unit :=
  let device_id := DeviceId_as_str (TargetId_device_id target) in
  plugin ← plugin_for_device pm device_id;
  result ← map_err (λ error, DE_Internal (Nested "plugin host call failed for {}: {error:#}"
                                            [AStr (lp_name plugin)] error))
             (out_apply_frame o plugin (plugin_target_from_target_id target) envelope);
  apply_outcome_error (lp_name plugin) device_id result.

Definition apply_one_frame (target : TargetId) (envelope : FrameEnvelope) : task (daemon bool) :=
  attempt (locked (λ o st, record_frame_upload (out_instant o) st target envelope)) (λ should_forward,
    if negb should_forward then Return (Ok false)
    else
      shared ← calling (Msg_Frame target envelope) (λ o w, with_manager w
                 (try_apply_shm_frame (w_manager w) target envelope (out_connection_epoch o)
                    (out_shm_sent o)));
      if shared : bool then Return (Ok true)
      else
        attempt (calling (Msg_Frame target envelope) (λ o w,
                   (w, apply_frame o (w_manager w) target envelope)))
          (λ _, Return (Ok true))).

Definition frame_conflict : DaemonError :=
  DE_AuthorizationConflict
    (Lit "frame stream authorization no longer matches the device topology").

Definition upload_frame (op : Operation) (target : TargetId) (envelope : FrameEnvelope) :
    task Response :=
  or_return (authorize op [TargetId_device_id target]) id (λ authorized_generation,
  or_return (locked (λ _ st,
      frame_stream_topology_generation st target (fe_generation envelope)))
    response_of_error (λ generation,
  if negb (generation =? authorized_generation)%Z then Return (response_of_error frame_conflict)
  else
    current ← topology_is_current generation;
    result ← (if current : bool then apply_one_frame target envelope
              else Return (Err stale_authorization));
    Return (match result with
            | Ok forwarded => RS_FrameAck (fe_sequence envelope) (negb forwarded)
            | Err error => response_of_error error
            end))).

(** Both ways of ending a stream start like this. *)
Definition end_stream (target : TargetId) (generation : Z) : task unit :=
  _ ← locked (λ _ st, (end_frame_stream st target generation, tt));
  _ ← disown_stream target;
  active ← reading (λ _ w, has_active_shm_stream (w_manager w) target);
  if active : bool then
    calling (Msg_EndShm target generation) (λ _ w,
      (set_manager w (end_shm_stream (w_manager w) target generation), tt))
  else Return tt.

Definition end_frame_stream_request (target : TargetId) (generation : Z) : task Response :=
  _ ← end_stream target generation;
  _ ← publish (StateChanged [TargetId_device_id target]);
  Return RS_Ack.

Definition end_shm_frame_stream (target : TargetId) (generation : Z) : task Response :=
  _ ← end_stream target generation;
  ended ← Step None (λ _ w, with_manager w (end_shm_client_stream (w_manager w) target generation))
            Return;
  if ended : bool then
    _ ← publish (StateChanged [TargetId_device_id target]); Return RS_Ack
  else Return RS_Ack.

Definition unsupported_shm_response (target : TargetId) : Response :=
  response_of_error (DE_UnsupportedCapability target
    (Lit "client-published shared-memory frame streaming is not available for this connection or target")).

Definition begin_shm_frame_stream (own : DaemonIdentity) (principal : Peer)
    (prefer_shm prefer_client_shm : bool) (op : Operation) (target : TargetId) : task Response :=
  or_return (authorize op [TargetId_device_id target]) id (λ topology_generation,
  _ ← cancel_transition_targets [target];
  if negb prefer_client_shm || negb (is_same_user_as_daemon own principal)
  then Return (unsupported_shm_response target)
  else
    r ← locked (λ _ st,
          if negb (ds_topology_generation st =? topology_generation)%Z
          then (st, Err authorization_conflict)
          else
            match shm_capability st target with
            | None => (st, Err (unsupported_shm_response target))
            | Some capability =>
                let '(st', r) := begin_frame_stream st target in
                (st', match r with
                      | Ok generation => Ok (generation, capability)
                      | Err _ => Err (unsupported_shm_response target)
                      end)
            end);
    match r with
    | Err response => Return response
    | Ok (generation, capability) =>
        ready ← calling (Msg_ClientShm target generation) (λ o w,
                  let '(pm, ready) := begin_shm_client_stream (w_manager w) target capability
                                        generation (out_client_shm o) in
                  (set_manager w pm, ready));
        match ready with
        | Ok (Some ready) =>
            _ ← own_stream target;
            _ ← negotiate_shm target (if prefer_shm then Some capability else None)
                  topology_generation generation;
            _ ← publish (StateChanged [TargetId_device_id target]);
            Return (RS_ShmFrameStreamReady generation (csr_service_name ready)
                      (csr_event_service_name ready) (csr_pixel_format ready)
                      (csr_stream_nonce ready) (csr_segment_bytes ready))
        | Ok None | Err _ =>
            _ ← locked (λ _ st, (end_frame_stream st target generation, tt));
            Return (unsupported_shm_response target)
        end
    end).

(** ** Administration *)

Definition refresh_job (device : DeviceId) : task (daemon unit) :=
  '(request, generation) ← reading (λ _ w,
     (read_request (w_state w) device, generation (w_state w) device));
  if bool_decide (prr_targets request = [])
  then Return (Err (DE_UnsupportedCapability (TargetId_Device device)
                      (Lit "device advertises no live state readback")))
  else
    _ ← locked (λ o st, (begin_reconciliation (out_now o) st device, tt));
    attempt (calling (Msg_ReadState device request) (λ o w,
               (w, read_state (out_hosts o) (w_manager w) device request))) (λ snapshot,
      locked (λ o st,
        let '(st', r) := accept_snapshot (out_now o) st device generation snapshot false in
        (st', _ ← r; Ok tt))).

Definition refresh_state (op : Operation) (device : DeviceId) : task Response :=
  or_return (authorize op [device]) id (λ generation,
    mutate [device] generation (refresh_job device)).

Definition purge_withdrawn_device_request (op : Operation) (device : DeviceId) : task Response :=
  or_return (authorize op [device]) id (λ generation,
    mutate [device] generation (locked (λ _ st,
      let '(st', r) := purge_withdrawn_device st device in (st', _ ← r; Ok tt)))).

Definition request_rescan : task bool :=
  calling (Msg_Rescan Rescan_Operator) (λ o w, (w, out_rescan_accepted o)).

Definition rescan (op : Operation) : task Response :=
  or_return (authorize op []) id (λ _,
    accepted ← request_rescan;
    Return (if accepted : bool then RS_Ack
            else response_of_error (DE_Internal
              (Lit "rescan could not be scheduled: the daemon is shutting down")))).

(** The new topology of the manager, if it changed, becomes the daemon's.  Lack of fuel in
    the normalization of the topology, which does not happen, would be a panic. *)
Definition adopt_topology (r : result (fuelled DaemonError) TopologyReconcile)
    (k : task Response) : task Response :=
  match r with
  | Ok reconciled =>
      if bool_decide (tr_changed_devices reconciled = []) then k
      else
        _ ← locked (λ _ st,
              ((replace_devices_preserving_withdrawn_state st (tr_devices reconciled)).1, tt));
        _ ← publish (TopologyChanged (tr_changed_devices reconciled));
        k
  | Err (Fail error) => Return (response_of_error error)
  | Err Fuel => Panic
  end.

Definition unload_plugin_request (op : Operation) (name : string) : task Response :=
  or_return (authorize op []) id (λ _,
    r ← on_manager (unload_plugin name);
    adopt_topology r (Return RS_Ack)).

Definition reload_plugin_request (op : Operation) (name : string) : task Response :=
  or_return (authorize op []) id (λ _,
    r ← on_manager (reload_plugin name);
    adopt_topology r (_ ← request_rescan; Return RS_Ack)).

(** ** Permission *)

Section permission.
Context (op : Operation).
Notation WP := (wp (guarded op)).

Lemma safe_negotiate_shm ds b target capability tg g :
  TargetId_device_id target ∈ ds → safe op ds b (negotiate_shm target capability tg g).
Proof.
  intros Hd. destruct capability as [capability|]; [|apply safe_return].
  apply safe_bind; [|auto with safe]. apply safe_bind; [apply safe_topology_is_current|].
  intros []; [|auto with safe]. apply safe_bind; [|auto with safe].
  apply safe_calling; [by eapply in_entitled|]. intros d ->%list_elem_of_singleton. done.
Qed.

(** A permission that was for the generation is one now, once the generation was seen. *)
Lemma cleared_after devices g past o w w' :
  (∀ d, d ∈ devices → authorised op d g past) → granted op past → topology_generation w = g →
  cleared op devices True (past ++ [Stepped None o w w']).
Proof.
  intros Hd Hgr Hg. split.
  - intros d Hin. eapply permitted_by_step; [by apply Hd|done].
  - intros _. eapply granted_mono; [by apply prefix_app_r|done].
Qed.

Lemma wp_begin_frame_stream prefer_shm target past :
  WP (begin_frame_stream_request prefer_shm op target) past (λ _ _, True).
Proof.
  apply wp_authorized. intros g tr Hgr Hd. apply wp_bind.
  eapply wp_mono with (Q := λ _ _, True); [by apply wp_cancel|]. intros [] tr1 Hp1 _.
  assert (granted op tr1) as Hgr1 by by eapply granted_mono.
  assert (∀ d, d ∈ [TargetId_device_id target] → authorised op d g tr1) as Hd1.
  { intros d Hin. eapply authorised_mono; [done|]. by apply Hd. }
  apply wp_bind. intros o w w' x Hx. split.
  { split; [by right; right|]. by intros d ?%elem_of_nil. }
  apply wp_return. cbn in Hx.
  destruct (ds_topology_generation (w_state w) =? g)%Z eqn:Hg; cbn in Hx; [|by injection Hx as <- <-].
  apply Z.eqb_eq in Hg. destruct x as [[generation capability]|error]; [|done].
  pose proof (cleared_after _ g _ o w w' Hd1 Hgr1 Hg) as Hc.
  assert (safe op [TargetId_device_id target] True
    (_ ← negotiate_shm target capability g generation;
     _ ← publish (StateChanged [TargetId_device_id target]);
     Return (RS_FrameStreamStarted generation))) as Hs.
  { apply safe_bind; [apply safe_negotiate_shm; left|]. intros _.
    apply safe_bind; [|auto with safe]. apply safe_publish. by left. }
  by eapply wp_mono; [apply Hs|].
Qed.

Lemma safe_apply_one_frame ds b target envelope :
  TargetId_device_id target ∈ ds → safe op ds b (apply_one_frame target envelope).
Proof.
  intros Hd. pose proof (in_entitled ds b _ Hd) as He.
  assert (message_devices (Msg_Frame target envelope) ⊆ ds) as Hm.
  { intros d ->%list_elem_of_singleton. done. }
  apply safe_attempt; [auto with safe|]. intros [|]; cbn [negb]; [|auto with safe].
  apply safe_bind; [auto with safe|]. intros [|]; [auto with safe|].
  apply safe_attempt; auto with safe.
Qed.

Lemma wp_upload_frame target envelope past : WP (upload_frame op target envelope) past (λ _ _, True).
Proof.
  apply wp_authorized. intros g tr Hgr Hd. apply wp_or_return. intros o w w' x Hx. split.
  { split; [by right; right|]. by intros d ?%elem_of_nil. }
  apply wp_return. destruct x as [generation|error]; [|done].
  destruct (generation =? g)%Z eqn:Hg; [|done]. apply Z.eqb_eq in Hg as ->. cbn [negb].
  apply wp_bind, wp_reading. intros o1 w1. apply wp_bind.
  destruct (topology_generation w1 =? g)%Z eqn:Hg1; [|done]. apply Z.eqb_eq in Hg1.
  eapply wp_mono; [apply (safe_apply_one_frame [TargetId_device_id target] True); [left|]|done].
  apply (cleared_after _ g); [|by eapply granted_mono; [apply prefix_app_r|]|done].
  intros d Hin. eapply authorised_mono; [by apply prefix_app_r|]. by apply Hd.
Qed.

Lemma wp_begin_shm_frame_stream own principal prefer_shm prefer_client_shm target past :
  WP (begin_shm_frame_stream own principal prefer_shm prefer_client_shm op target) past (λ _ _, True).
Proof.
  apply wp_authorized. intros g tr Hgr Hd. apply wp_bind.
  eapply wp_mono with (Q := λ _ _, True); [by apply wp_cancel|]. intros [] tr1 Hp1 _.
  assert (granted op tr1) as Hgr1 by by eapply granted_mono.
  assert (∀ d, d ∈ [TargetId_device_id target] → authorised op d g tr1) as Hd1.
  { intros d Hin. eapply authorised_mono; [done|]. by apply Hd. }
  destruct (_ || _); [done|]. apply wp_bind. intros o w w' x Hx. split.
  { split; [by right; right|]. by intros d ?%elem_of_nil. }
  apply wp_return. cbn in Hx.
  destruct (ds_topology_generation (w_state w) =? g)%Z eqn:Hg; cbn in Hx; [|by injection Hx as <- <-].
  apply Z.eqb_eq in Hg. destruct x as [[generation capability]|response]; [|done].
  pose proof (cleared_after _ g _ o w w' Hd1 Hgr1 Hg) as Hc.
  eapply wp_mono; [|done].
  assert (∀ (t : task Response), safe op [TargetId_device_id target] True t →
    WP t (tr1 ++ [Stepped None o w w']) (λ _ _, True)) as Hs.
  { intros t Ht. by eapply wp_mono; [apply Ht|]. }
  apply Hs. apply safe_bind.
  { apply safe_calling; [by left|]. by intros d ->%list_elem_of_singleton; left. }
  intros [[ready|]|error].
  - apply safe_bind; [apply safe_step; [right; right; by left|apply list_subseteq_nil]|]. intros _.
    apply safe_bind; [apply safe_negotiate_shm; left|]. intros _.
    apply safe_bind; [apply safe_publish; by left|]. auto with safe.
  - apply safe_bind; [apply safe_locked; by left|]. auto with safe.
  - apply safe_bind; [apply safe_locked; by left|]. auto with safe.
Qed.

Lemma safe_refresh_job device : safe op [device] False (refresh_job device).
Proof.
  assert (entitled [device] False) as He by by right.
  apply safe_bind; [auto with safe|]. intros [request g]. case_match; [auto with safe|].
  apply safe_bind; [auto with safe|]. intros _. apply safe_attempt; [|auto with safe].
  apply safe_calling; [done|]. done.
Qed.
Lemma wp_refresh_state device past : WP (refresh_state op device) past (λ _ _, True).
Proof.
  apply wp_authorized. intros g tr Hgr Hd.
  apply (wp_mutate op [device] False); [done..|by right|apply safe_refresh_job].
Qed.
Lemma wp_purge device past : WP (purge_withdrawn_device_request op device) past (λ _ _, True).
Proof.
  apply wp_authorized. intros g tr Hgr Hd.
  apply (wp_mutate op [device] False); [done..|by right|]. apply safe_locked. by right.
Qed.

Lemma safe_request_rescan ds b : safe op ds b request_rescan.
Proof. apply safe_step; [by left|]. apply list_subseteq_nil. Qed.
Lemma wp_rescan past : WP (rescan op) past (λ _ _, True).
Proof.
  apply wp_authorized. intros g tr Hgr _. apply wp_granted; [done|].
  apply safe_bind; [apply safe_request_rescan|]. auto with safe.
Qed.

Lemma safe_adopt_topology r k : safe op [] True k → safe op [] True (adopt_topology r k).
Proof.
  intros Hk. assert (entitled [] True) as He by by left.
  destruct r as [reconciled|[|error]]; cbn [adopt_topology]; [|auto with safe..].
  case_bool_decide; [done|]. apply safe_bind; [auto with safe|]. intros _.
  apply safe_bind; auto with safe.
Qed.
Lemma wp_unload_plugin name past : WP (unload_plugin_request op name) past (λ _ _, True).
Proof.
  apply wp_authorized. intros g tr Hgr _. apply wp_granted; [done|]. apply safe_bind.
  - apply safe_on_manager. by left.
  - intros r. apply safe_adopt_topology. auto with safe.
Qed.
Lemma wp_reload_plugin name past : WP (reload_plugin_request op name) past (λ _ _, True).
Proof.
  apply wp_authorized. intros g tr Hgr _. apply wp_granted; [done|]. apply safe_bind.
  - apply safe_on_manager. by left.
  - intros r. apply safe_adopt_topology. apply safe_bind; [apply safe_request_rescan|]. auto with safe.
Qed.
End permission.

(** ** Frames *)

(** The frame was accepted by the stream of its generation, in the current topology. *)
Definition accepted (target : TargetId) (envelope : FrameEnvelope) (e : event) : Prop :=
  ∃ o u u' stream, e = Stepped None o u u' ∧
    ds_frame_streams (w_state u) !! target = Some stream ∧
    fs_generation stream = fe_generation envelope ∧
    fs_topology_generation stream = topology_generation u ∧
    (fs_next_sequence stream <= fe_sequence envelope)%Z ∧
    record_frame_upload (out_instant o) (w_state u) target envelope = (w_state u', Ok true).

Definition forwards (target : TargetId) (envelope : FrameEnvelope) (past : list event) (e : event) :
    Prop :=
  ∀ m o w w', e = Stepped (Some m) o w w' →
    m = Msg_Frame target envelope ∧ ∃ e', e' ∈ past ∧ accepted target envelope e'.

Lemma record_frame_upload_accepts now st target envelope st' :
  record_frame_upload now st target envelope = (st', Ok true) →
  ∃ stream, ds_frame_streams st !! target = Some stream ∧
    fs_generation stream = fe_generation envelope ∧
    fs_topology_generation stream = ds_topology_generation st ∧
    (fs_next_sequence stream <= fe_sequence envelope)%Z.
Proof.
  unfold record_frame_upload. destruct (ds_frame_streams st !! target) as [stream|]; [|done].
  destruct (fs_topology_generation stream =? ds_topology_generation st)%Z eqn:H1; [|done]. cbn.
  destruct (fe_generation envelope =? fs_generation stream)%Z eqn:H2; [|done]. cbn.
  destruct (fe_sequence envelope <? fs_next_sequence stream)%Z eqn:H3; [done|].
  intros _. exists stream. split; [done|]. lia.
Qed.

Lemma forwards_quiet target envelope past o w : forwards target envelope past (Stepped None o w w).
Proof. by intros m o' v v' [=]. Qed.

Lemma wp_upload_forwards op target envelope past :
  wp (forwards target envelope) (upload_frame op target envelope) past (λ _ _, True).
Proof.
  apply wp_or_return, wp_quiet; [apply quiet_authorize|apply forwards_quiet|by intros ? ? ? ? ? ? ? ? [=]|].
  intros [g|response] tr _; [|done]. apply wp_or_return. intros o w w' x _.
  split; [by intros ? ? ? ? [=]|]. apply wp_return. destruct x as [generation|error]; [|done].
  destruct (negb _); [done|]. apply wp_bind. intros o1 w1 w1' current _.
  split; [by intros ? ? ? ? [=]|]. apply wp_return. apply wp_bind. destruct current; [|done].
  apply wp_attempt. intros o2 w2 w2' x2 Hx2. split; [by intros ? ? ? ? [=]|]. apply wp_return.
  destruct x2 as [[|]|error]; cbn [negb]; [|done..].
  destruct (record_frame_upload _ _ _ _) as [st r] eqn:Hrec. injection Hx2 as <- ->.
  eapply wp_mono with (Q := λ _ _, True); [|done]. apply wp_mono with (Q := λ _ _, True); [|done].
  assert (∀ past' e, (tr ++ [Stepped None o w w']) ++ [Stepped None o1 w1 w1'] ++
      [Stepped None o2 w2 (set_state w2 st)] `prefix_of` past' →
    (∀ m o w w', e = Stepped (Some m) o w w' → m = Msg_Frame target envelope) →
    forwards target envelope past' e) as Hfw.
  { intros past' e Hp Hm m o' v v' He. split; [by eapply Hm|].
    exists (Stepped None o2 w2 (set_state w2 st)). split.
    - destruct Hp as [l ->]. rewrite !elem_of_app. left. right. right. left.
    - destruct (record_frame_upload_accepts _ _ _ _ _ Hrec) as (stream & ? & ? & ? & ?).
      exists o2, w2. eexists. exists stream. split_and!; try done. by destruct w2. }
  apply wp_bind. intros o3 w3 w3' shared _. split.
  { apply Hfw; [by rewrite <-!app_assoc|]. by intros ? ? ? ? [= <-]. }
  apply wp_return. destruct shared; [done|]. apply wp_attempt. intros o4 w4 w4' x4 _. split.
  { apply Hfw; [rewrite <-!app_assoc; by repeat (apply prefix_app || apply prefix_app_r)|].
    by intros ? ? ? ? [= <-]. }
  apply wp_return. by destruct x4.
Qed.

(** ** Ending a stream *)

End handlers.

(** ** Claims *)

(** A frame reaches a plugin only through its stream: whatever an [UploadFrame] sends is
    the frame of the request, after the stream of the frame's generation had accepted it,
    in the topology the stream was begun in, and not older than frames before it. *)
Theorem frames_follow_stream `{Wire} others decides op target envelope w before m o u u' after w' r :
  runs others decides w (upload_frame op target envelope)
    (before ++ Stepped (Some m) o u u' :: after) w' r →
  m = Msg_Frame target envelope ∧ ∃ e, e ∈ before ∧ accepted target envelope e.
Proof.
  intros Hrun.
  destruct (wp_sound _ others decides w _ _ w' r [] _ Hrun (wp_upload_forwards op target envelope []))
    as [Hall _].
  exact (Hall before _ after eq_refl m o u u' eq_refl).
Qed.

(** Ending a stream takes no right to it: a request to end the stream of a target, from
    a connection that did not begin it and under any policy, is acknowledged and ends the
    stream without a decision of the policy, if it names the stream's generation. *)
Theorem stranger_ends_stream `{Wire} policy o w target stream :
  ds_frame_streams (w_state w) !! target = Some stream → target ∉ w_owned_streams w →
  ∃ tr w', exec policy o w (end_frame_stream_request target (fs_generation stream)) =
      Some (tr, w', Done RS_Ack) ∧
    ds_frame_streams (w_state w') !! target = None ∧
    ∀ op resources d, Asked op resources d ∉ tr.
Proof.
  intros Hs _. destruct w as [st pm ts disk owned]. cbn in Hs.
  assert (ds_frame_streams (end_frame_stream st target (fs_generation stream)) !! target = None) as Hgone.
  { unfold end_frame_stream. rewrite Hs, Z.eqb_refl. destruct st. apply lookup_delete_eq. }
  cbn. destruct (has_active_shm_stream _ _); cbn; eexists _, _; (split; [reflexivity|]);
    (split; [exact Hgone|]); intros op resources d; rewrite !elem_of_cons, elem_of_nil; naive_solver.
Qed.

(** A light panel that takes frames, and a world in which one stream to it is active. *)
Module Panels.
Definition panel : Device := {|
  device_id := DeviceId_new "kbd"; device_name := "panel"; device_vendor := None;
  device_model := None; device_provider_instance := None; device_surfaces := [];
  device_groups := [];
  device_capabilities := device_capabilities FrameStreams.Streaming.panel;
  device_category := None; device_physical_tags := []; device_host_attached := true;
  device_notes := []; device_warnings := [] |}.
Definition world : World := {|
  w_state := (begin_frame_stream (from_devices [panel]) Running.target).1;
  w_manager := Loaded.manager; w_transitions := TransitionRegistry_default; w_disk := None;
  w_owned_streams := []; w_authentication := AuthenticationService_default;
  w_policy := Running.policy |}.
Definition frame : FrameEnvelope := FrameStreams.Streaming.pixels 3.
Definition run : list event * World * outcome (@Response Running.wire) :=
  Running.run_in world
    (@upload_frame Running.wire Control Running.target frame).
Definition sends_at (tr : list (@event Running.wire)) (i : nat) : bool :=
  match tr !! i with Some (Stepped (Some _) _ _ _) => true | _ => false end.
End Panels.

Lemma frames_follow_stream_witness :
  Panels.run.2 = Done (RS_FrameAck 3 false) ∧
  ∃ e, e ∈ take 7 Panels.run.1.1 ∧ accepted Running.target Panels.frame e.
Proof.
  assert (Panels.run.2 = Done (RS_FrameAck 3 false)) as Hdone by (vm_compute; reflexivity).
  split; [exact Hdone|].
  pose proof (run_in_runs _ _ _ Hdone) as Hrun. fold Panels.run in Hrun.
  assert (Panels.sends_at Panels.run.1.1 7 = true) as Hat by (vm_compute; reflexivity).
  revert Hat Hrun. unfold Panels.sends_at. destruct (Panels.run.1.1 !! 7) as [[[m|] o u u'| |]|] eqn:Hi; intros Hat Hrun;
    try discriminate Hat.
  rewrite <-(take_drop_middle _ _ _ Hi) in Hrun.
  exact (proj2 (@frames_follow_stream Running.wire _ _ Control _ _ _ _ _ _ _ _ _ _ _ Hrun)).
Defined.

Lemma stranger_ends_stream_witness :
  ∃ tr w', exec (λ _ _, Deny None) Running.outside Panels.world
      (@end_frame_stream_request Running.wire Running.target 1) = Some (tr, w', Done RS_Ack) ∧
    ds_frame_streams (w_state w') !! Running.target = None.
Proof.
  destruct (ds_frame_streams (w_state Panels.world) !! Running.target) as [stream|] eqn:Hs;
    [|vm_compute in Hs; discriminate Hs].
  assert (fs_generation stream = 1%Z) as <- by (vm_compute in Hs; injection Hs as <-; reflexivity).
  destruct (@stranger_ends_stream Running.wire (λ _ _, Deny None) Running.outside Panels.world
    Running.target stream Hs) as (tr & w' & Hexec & Hgone & _).
  - vm_compute. inversion 1.
  - exists tr, w'. split; [exact Hexec|exact Hgone].
Defined.
