(* ===== verification/TransitionTasks.v ===== *)
(** * Transitions: [luminated/src/daemon/dispatch/transitions.rs]

    Starting a transition resolves its endpoints under the state lock ([preflight]),
    authorizes it, cancels the transitions it overlaps, registers it and spawns a driver
    ([run_transition]) that applies an interpolated step at every wake-up and records the
    outcome.  The driver's loop has a fuel, its clock is monotonic: an instant read after
    another is not before it.  The claims: what was preflighted never fails to interpolate;
    a driver that is not disturbed ends within the steps its options give; a completed
    transition has applied its end points and saved; the driver touches no other device
    than those it was authorized for. *)

From S2P Require Import Prelude Model Colours Graph Scenes Transition Policy PolicyRuntime Daemon Topology Persistence Validation Observation TargetStates CollectionRegistry SceneRegistry Descriptors Normalize Ownership PluginManager PluginApply Aggregates TransitionRegistry Protocol Authorization Authentication PolicyFiles Tasks Authz Executor Appearance SceneHandlers.

Record Endpoint := {
  ep_target : TargetId;
  ep_appearance : Effect;
  ep_brightness : option Z;
  ep_emission : EmissionState
}.

Record TargetPlan := {
  tp_start : Endpoint;
  tp_end : Endpoint;
  tp_hue_maximum : Z
}.

(** The [palette] crate's OKLab mix, and [to_string] of errors. *)
Class Rendering := {
  oklab_mix : Rgb → Rgb → Z → Z → Rgb;
  error_text : DaemonError → Text;
  colour_error_text : ColourError → string
}.

Definition impossible (message : string) : DaemonError :=
  DE_TransitionImpossible (Lit (if is_blank message then "It's just not." else message)).

(** [#[error(..)]] of [TransitionInterpolationError] *)
Definition interpolation_text (e : TransitionInterpolationError) : string :=
  match e with
  | EffectIdentity => "transition effects have different identities"
  | ColourStructure => "transition colours have incompatible structure"
  | HardwareStructure => "transition hardware-effect arguments have incompatible structure"
  | OklabUnsupported => "OKLab interpolation requires an RGB colour encoding"
  end.
Definition interpolated {A} (r : result TransitionInterpolationError A) : daemon A :=
  map_err (λ e, impossible (interpolation_text e)) r.

(** ** Endpoints *)

Section pure.
Context `{Rendering}.

Definition dark_rgb : Rgb := Rgb_new 0 0 0.

Definition darken_colour (colour : Colour) : daemon Colour :=
  match colour with
  | Colour_Additive channels =>
      map_err (λ e, impossible (colour_error_text e))
        (Colour_additive ((λ c, {| ccv_channel := ccv_channel c; ccv_value := 0 |}) <$> channels))
  | Colour_Hsv hue saturation _ => Ok (Colour_Hsv hue saturation 0)
  | Colour_Hsl hue saturation _ => Ok (Colour_Hsl hue saturation 0)
  | Colour_Monochrome _ => Ok (Colour_Monochrome 0)
  | Colour_Cct _ =>
      Err (impossible "correlated colour temperature cannot represent zero visibility")
  end.

Definition darken_arguments (a : EffectArguments) : option EffectArguments :=
  match ea_brightness a, ea_colours a with
  | Some _, _ => Some {|
      ea_colours := ea_colours a; ea_speed := ea_speed a; ea_direction := ea_direction a;
      ea_duration_ms := ea_duration_ms a; ea_brightness := Some 0%Z; ea_choice := ea_choice a |}
  | None, [] => None
  | None, colours => Some {|
      ea_colours := (λ _, dark_rgb) <$> colours; ea_speed := ea_speed a;
      ea_direction := ea_direction a; ea_duration_ms := ea_duration_ms a;
      ea_brightness := ea_brightness a; ea_choice := ea_choice a |}
  end.

Definition cannot_fade : DaemonError :=
  impossible "an endpoint without independent brightness cannot be faded safely".

Definition darken_effect (effect : Effect) : daemon Effect :=
  match effect with
  | Effect_Static colour => colour ← darken_colour colour; Ok (Effect_Static colour)
  | Effect_Breathe _ period_ms => Ok (Effect_Breathe dark_rgb period_ms)
  | Effect_Pulse _ period_ms => Ok (Effect_Pulse dark_rgb period_ms)
  | Effect_Strobe _ period_ms => Ok (Effect_Strobe dark_rgb period_ms)
  | Effect_Scanner _ period_ms => Ok (Effect_Scanner dark_rgb period_ms)
  | Effect_Morph colours period_ms => Ok (Effect_Morph ((λ _, dark_rgb) <$> colours) period_ms)
  | Effect_Hardware id arguments =>
      match darken_arguments arguments with
      | Some arguments => Ok (Effect_Hardware id arguments)
      | None => Err cannot_fade
      end
  | Effect_Off | Effect_Spectrum _ | Effect_Rainbow _ => Err cannot_fade
  end.

Definition logical_appearance (e : Endpoint) : daemon Effect :=
  if bool_decide (ep_emission e = Emitting) || bool_decide (is_Some (ep_brightness e))
  then Ok (ep_appearance e) else darken_effect (ep_appearance e).

Definition logical_brightness (e : Endpoint) : option Z :=
  (λ brightness, if bool_decide (ep_emission e = Dark) then 0%Z else brightness) <$> ep_brightness e.

(** [start.zip(end).map(interpolate_u32).transpose()] *)
Definition interpolate_plan (numerator denominator : Z)
    (colour_interpolation : TransitionColourInterpolation) (plan : TargetPlan) : daemon Endpoint :=
  if (denominator <=? numerator)%Z then Ok (tp_end plan)
  else
    start_appearance ← logical_appearance (tp_start plan);
    end_appearance ← logical_appearance (tp_end plan);
    appearance ← interpolated (interpolate_effect oklab_mix start_appearance end_appearance
                   numerator denominator (tp_hue_maximum plan) colour_interpolation);
    brightness ← interpolated (zip_try (λ s e, interpolate_u32 s e numerator denominator)
                   (logical_brightness (tp_start plan)) (logical_brightness (tp_end plan)));
    Ok {| ep_target := ep_target (tp_start plan); ep_appearance := appearance;
          ep_brightness := brightness;
          ep_emission :=
            if (denominator <=? numerator)%Z then ep_emission (tp_end plan)
            else if bool_decide (ep_emission (tp_start plan) = Emitting) ||
                    bool_decide (ep_emission (tp_end plan) = Emitting)
            then Emitting else Dark |}.

Definition interpolate_plans (plans : list TargetPlan) (numerator denominator : Z)
    (options : TransitionOptions) : daemon (list Endpoint) :=
  '(numerator, denominator) ←
    interpolated (ease_progress (to_function options) numerator denominator);
  try_map (interpolate_plan numerator denominator (to_colour_interpolation options)) plans.

(** ** Preflight *)

Definition validate_sparse_transition_state (s : SceneTargetState) : daemon unit :=
  _ ← ensure (bool_decide (sts_appearance_slots s = None))
        (impossible "appearance slots cannot be interpolated by a transition");
  _ ← ensure (negb (bool_decide (sts_appearance s = None) && bool_decide (sts_brightness s = None) &&
                    bool_decide (sts_emission s = None)))
        (impossible "transition target state must contain at least one facet");
  _ ← ensure (negb (bool_decide (sts_appearance s = Some Effect_Off)))
        (impossible "Effect::Off is an emission state, not a retained appearance");
  ensure (negb (bool_decide (sts_emission s = Some Emitting) &&
                bool_decide (sts_brightness s = Some 0%Z)))
    (impossible "an emitting transition endpoint cannot have zero brightness").

Definition normalize_step (authorized : option (list TargetId))
    (normalized : gmap TargetId SceneTargetState) (s : TransitionTargetState) :
    daemon (gmap TargetId SceneTargetState) :=
  if from_option (λ targets, negb (bool_decide (tts_target s ∈ targets))) false authorized
  then Ok normalized
  else
    _ ← validate_sparse_transition_state (tts_state s);
    _ ← ensure (bool_decide (normalized !! tts_target s = None))
          (impossible "transition destination repeats a target");
    Ok (<[tts_target s := tts_state s]> normalized).
Definition normalize_target_states (states : list TransitionTargetState)
    (authorized : option (list TargetId)) : daemon (gmap TargetId SceneTargetState) :=
  try_fold (normalize_step authorized) ∅ states.

Definition resolve_scene (st : DaemonState) (id : SceneId) :
    daemon (gmap TargetId SceneTargetState) :=
  scene ← ok_or (ds_scenes st !! id) (DE_SceneNotFound id);
  Ok (fold_left (λ resolved b,
        if match dynamic_collection b with
           | None => true
           | Some collection =>
               match resolve_collection_leaves st collection with
               | Ok leaves => bool_decide (binding_target b ∈ leaves)
               | Err _ => false
               end
           end
        then <[binding_target b := binding_state b]> resolved else resolved)
      (scene_bindings scene) ∅).

Definition merge (sparse fallback : SceneTargetState) : SceneTargetState := {|
  sts_appearance := union (sts_appearance sparse) (sts_appearance fallback);
  sts_brightness := union (sts_brightness sparse) (sts_brightness fallback);
  sts_emission := union (sts_emission sparse) (sts_emission fallback);
  sts_appearance_slots := None
|}.

Definition complete (target : TargetId) (s : SceneTargetState) : daemon Endpoint :=
  appearance ← ok_or (sts_appearance s) (impossible "transition endpoint has no retained appearance");
  emission ← ok_or (sts_emission s) (impossible "transition endpoint has unknown emission");
  Ok {| ep_target := target; ep_appearance := appearance; ep_brightness := sts_brightness s;
        ep_emission := emission |}.

Definition hue_bits (colour : Colour) (capability : ColourCapability) : option Z :=
  match colour, capability with
  | Colour_Hsv _ _ _, ColourCapability_Hsv hue_bits _ _
  | Colour_Hsl _ _ _, ColourCapability_Hsl hue_bits _ _ => Some hue_bits
  | _, _ => None
  end.
Definition hue_maximum (st : DaemonState) (e : Endpoint) : daemon Z :=
  match ep_appearance e with
  | Effect_Static colour =>
      match capabilities_for_target st (ep_target e) ≫= λ capabilities,
              head (omap (hue_bits colour) (cs_colour capabilities)) with
      | Some bits =>
          if (1 <=? bits)%Z && (bits <=? 31)%Z then Ok (Z.shiftl 1 bits - 1)%Z
          else if (bits =? 32)%Z then Ok (uN_max 32)
          else Err (impossible "target advertises an invalid hue channel width")
      | None => Ok (uN_max 32)
      end
  | _ => Ok (uN_max 32)
  end.

Definition is_rgb8_capability (capability : ColourCapability) : bool :=
  match capability with
  | ColourCapability_Additive [red; green; blue] =>
      bool_decide (ccc_channel red = Red) && (ccc_bits red =? 8)%Z &&
      bool_decide (ccc_channel green = Green) && (ccc_bits green =? 8)%Z &&
      bool_decide (ccc_channel blue = Blue) && (ccc_bits blue =? 8)%Z
  | _ => false
  end.

Definition validate_colour_interpolation (st : DaemonState) (target : TargetId) (effect : Effect)
    (interpolation : TransitionColourInterpolation) : daemon unit :=
  match interpolation, effect with
  | Oklab, Effect_Static (Colour_Additive _) =>
      ensure (from_option (λ capabilities, existsb is_rgb8_capability (cs_colour capabilities)) false
                (capabilities_for_target st target))
        (impossible "OKLab interpolation requires an advertised 8-bit RGB encoding")
  | _, _ => Ok tt
  end.

Definition current_endpoint (now : Z) (st : DaemonState) (target : TargetId) :
    result (fuelled DaemonError) SceneTargetState :=
  match fresh_current_target_state now st target with
  | Some (Ok current) => Ok current
  | Some (Err _) => Err (Fail (impossible "a required current endpoint is unknown"))
  | None => Err Fuel
  end.

Section validated.
Context `{Env}.

Definition validate_endpoint (st : DaemonState) (e : Endpoint) : daemon unit :=
  _ ← validate_target_state st (ep_target e) (TS_Effect (ep_appearance e));
  _ ← match ep_brightness e with
      | Some brightness => validate_target_state st (ep_target e) (TS_Brightness brightness)
      | None => Ok tt
      end;
  if bool_decide (ep_emission e = Dark)
  then validate_target_state st (ep_target e) (TS_Effect Effect_Off) else Ok tt.

(** The loop's body: the plan of one destination. *)
Definition plan_target (now : Z) (st : DaemonState) (source_sparse : gmap TargetId SceneTargetState)
    (options : TransitionOptions) (p : TargetId * SceneTargetState) :
    result (fuelled DaemonError) TargetPlan :=
  let '(target, destination) := p in
  _ ← map_err Fail (ensure_target_exists st target);
  source ←
    match source_sparse !! target with
    | None => current_endpoint now st target
    | Some scene =>
        if bool_decide (is_Some (sts_appearance scene)) && bool_decide (is_Some (sts_emission scene))
        then Ok scene
        else current ← current_endpoint now st target; Ok (merge scene current)
    end;
  map_err Fail (
    start ← complete target source;
    end_ ← complete target (merge destination source);
    hue_maximum ← hue_maximum st start;
    interpolation_start ← logical_appearance start;
    interpolation_end ← logical_appearance end_;
    _ ← validate_colour_interpolation st (ep_target start) interpolation_start
          (to_colour_interpolation options);
    _ ← interpolated (interpolate_effect oklab_mix interpolation_start interpolation_end 1 2
          hue_maximum (to_colour_interpolation options));
    _ ← validate_endpoint st start;
    _ ← validate_endpoint st end_;
    Ok {| tp_start := start; tp_end := end_; tp_hue_maximum := hue_maximum |}).
End validated.
End pure.

(** ** Starting *)

Definition plan_le `{DebugFormat} (p q : TargetPlan) : Prop :=
  String.le (debug_target (ep_target (tp_start p))) (debug_target (ep_target (tp_start q))).
#[export] Instance plan_le_dec `{DebugFormat} : RelDecision plan_le.
Proof. intros p q. unfold plan_le. apply _. Defined.
Definition target_debug_le `{DebugFormat} (s t : TargetId) : Prop :=
  String.le (debug_target s) (debug_target t).
#[export] Instance target_debug_le_dec `{DebugFormat} : RelDecision target_debug_le.
Proof. intros s t. unfold target_debug_le. apply _. Defined.

Section handlers.
Context `{Wire, Env, DebugFormat, Rendering}.

Definition preflight (now : Z) (st : DaemonState) (request : StartTransitionRequest) :
    result (fuelled DaemonError) (list TargetPlan * bool) :=
  destination_sparse ← map_err Fail
    match str_destination request with
    | TransitionDestination_Scene id => resolve_scene st id
    | TransitionDestination_TargetStates states =>
        normalize_target_states states (str_authorized_targets request)
    end;
  _ ← ensure (negb (bool_decide (destination_sparse = ∅)))
        (Fail (impossible "transition has no concrete destination targets"));
  source_sparse ← map_err Fail
    match str_source request with
    | TransitionSource_Current => Ok ∅
    | TransitionSource_Scene id =>
        source ← resolve_scene st id;
        _ ← ensure (bool_decide (dom source =@{gset TargetId} dom destination_sparse))
              (impossible "source and destination resolve to different target sets");
        Ok source
    end;
  plans ← try_map (plan_target now st source_sparse (str_options request))
            (merge_sort debug_le (map_to_list destination_sparse));
  Ok (merge_sort plan_le plans,
      match str_source request with TransitionSource_Scene _ => true | _ => false end).

Definition snap_speed (range : DiscreteRange) (speed : Z) : daemon Z :=
  snapped ← interpolated (snap_to_discrete_range_u32 speed range);
  ok_or (checkU 16 snapped) (impossible "snapped speed exceeds its wire range").

(** A parameter of the descriptor, on the arguments so far. *)
Definition snap_parameter (a : EffectArguments) (parameter : EffectParameter) :
    daemon EffectArguments :=
  match parameter with
  | EffectParameter_Speed range =>
      speed ← opt_try (snap_speed range) (ea_speed a);
      Ok {| ea_colours := ea_colours a; ea_speed := speed; ea_direction := ea_direction a;
            ea_duration_ms := ea_duration_ms a; ea_brightness := ea_brightness a;
            ea_choice := ea_choice a |}
  | EffectParameter_Duration milliseconds =>
      duration_ms ← opt_try (λ d, interpolated (snap_to_discrete_range_u32 d milliseconds))
                      (ea_duration_ms a);
      Ok {| ea_colours := ea_colours a; ea_speed := ea_speed a; ea_direction := ea_direction a;
            ea_duration_ms := duration_ms; ea_brightness := ea_brightness a;
            ea_choice := ea_choice a |}
  | EffectParameter_Colour _ _ | EffectParameter_Direction _ | EffectParameter_Brightness _
  | EffectParameter_Choice _ => Ok a
  end.

Definition snap_hardware_effect (st : DaemonState) (target : TargetId) (effect : Effect) :
    daemon Effect :=
  match effect with
  | Effect_Hardware id arguments =>
      descriptor ← ok_or
        (capabilities ← capabilities_for_target st target;
         effects ← cs_hardware_effects capabilities;
         List.find (λ e, bool_decide (hed_id e = id)) (hec_effects effects))
        (impossible "hardware effect descriptor disappeared during transition");
      arguments ← try_fold snap_parameter arguments (hed_parameters descriptor);
      Ok (Effect_Hardware id arguments)
  | effect => Ok effect
  end.

Definition partial_error (error : DaemonError) (applied_targets : list TargetId) : DaemonError :=
  match dedup_adjacent (merge_sort target_debug_le applied_targets) with
  | [] => error
  | applied_targets => DE_PartialMutation (error_text error) applied_targets
  end.

(** [if let Err(error) = .. { return Err(partial_error(error, applied)) }] *)
Definition or_partial (applied : list TargetId) (t : task (daemon unit))
    (k : task (daemon unit)) : task (daemon unit) :=
  r ← t;
  match r with Ok _ => k | Err error => Return (Err (partial_error error applied)) end.

Fixpoint apply_endpoints_from (applied : list TargetId) (endpoints : list Endpoint)
    (include_final_dark : bool) : task (daemon unit) :=
  match endpoints with
  | [] => Return (Ok tt)
  | e :: endpoints =>
      let target := ep_target e in
      let next applied := apply_endpoints_from applied endpoints include_final_dark in
      attempt (reading (λ _ w, snap_hardware_effect (w_state w) target (ep_appearance e)))
        (λ appearance,
      or_partial applied (apply_target_state target (TS_Effect appearance)) (
      let applied := applied ++ [target] in
      or_partial applied (locked (λ o st, set_effect (out_now o) st target appearance)) (
      let finish :=
        if include_final_dark && bool_decide (ep_emission e = Dark) then
          or_partial applied (apply_target_state target (TS_Effect Effect_Off)) (
          or_partial applied (locked (λ o st, set_effect (out_now o) st target Effect_Off))
            (next applied))
        else next applied in
      match ep_brightness e with
      | Some brightness =>
          or_partial applied (apply_target_state target (TS_Brightness brightness)) (
          or_partial applied (locked (λ o st, set_brightness (out_now o) st target brightness))
            finish)
      | None => finish
      end)))
  end.
Definition apply_endpoints : list Endpoint → bool → task (daemon unit) := apply_endpoints_from [].

(** ** The driver *)

(** [Instant::now()], after an instant that was read before. *)
Definition instant (after : Z) : task Z := reading (λ o _, Z.max after (out_instant o)).

(** The [select!] of [sleep_until(wake)] and [wait_for_change]: the instant at which the
    timer fired, or [None] after a notification. *)
Definition sleep_until (wake : Z) : task (option Z) :=
  reading (λ o _, if out_changed o then None else Some (Z.max wake (out_instant o))).

Definition plan_devices (plans : list TargetPlan) : list DeviceId :=
  (λ p, TargetId_device_id (ep_target (tp_start p))) <$> plans.

Definition transition_failure (error : DaemonError) : TransitionOutcome :=
  match error with
  | DE_PartialMutation diagnostic applied_targets => Outcome_Failed diagnostic applied_targets
  | error => Outcome_Failed (error_text error) []
  end.

(** A step of the loop past its checks: the outcome if the loop ends, or [next]. *)
Definition drive_step (entry : nat) (id : TransitionId) (plans : list TargetPlan)
    (options : TransitionOptions) (started next fired : Z) : task (TransitionOutcome + Z * Z) :=
  now ← instant fired;
  let elapsed := Z.min (Z.max 0 (now - started)) (duration options) in
  let elapsed_ms := default (uN_max 64) (checkU 64 (as_millis elapsed)) in
  let duration_ms := default (uN_max 64) (checkU 64 (as_millis (duration options))) in
  match interpolate_plans plans elapsed_ms duration_ms options with
  | Err error => Return (inl (Outcome_Failed (error_text error) []))
  | Ok step =>
      result ← execute_hardware_only (plan_devices plans) (apply_endpoints step true);
      match result with
      | Err error => Return (inl (transition_failure error))
      | Ok _ =>
          _ ← Step None (λ _ w,
                (set_transitions w (update_elapsed (w_transitions w) entry elapsed_ms), tt)) Return;
          _ ← publish (StateChanged (plan_devices plans));
          _ ← publish (TransitionsChanged [id]);
          if (duration options <=? elapsed)%Z then Return (inl Outcome_Completed)
          else
            let next := (next + step_interval options)%Z in
            now ← instant now;
            if (next <? now)%Z then
              now ← instant now; Return (inr ((now + step_interval options)%Z, now))
            else Return (inr (next, now))
      end
  end.

(** The loop: its outcome, or [None] when the fuel ends; [now] is the last instant read. *)
Fixpoint drive (fuel : nat) (entry : nat) (id : TransitionId) (plans : list TargetPlan)
    (options : TransitionOptions) (started next now : Z) : task (option TransitionOutcome) :=
  match fuel with
  | O => Return None
  | S fuel =>
      lease ← reading (λ _ w, lease_deadline (w_transitions w) entry);
      let deadline := (started + duration options)%Z in
      let wake := from_option (Z.min (Z.min next deadline)) (Z.min next deadline) lease in
      woken ← sleep_until (Z.max now wake);
      match woken with
      | None =>
          reason ← reading (λ _ w, cancellation (w_transitions w) entry);
          match reason with
          | Some reason => Return (Some (Outcome_Cancelled reason))
          | None => drive fuel entry id plans options started next now
          end
      | Some fired =>
          lease ← reading (λ _ w, lease_deadline (w_transitions w) entry);
          now ← instant fired;
          if from_option (λ lease, lease <=? now)%Z false lease
          then Return (Some (Outcome_Cancelled AuthorizationExpired))
          else
            reason ← reading (λ _ w, cancellation (w_transitions w) entry);
            match reason with
            | Some reason => Return (Some (Outcome_Cancelled reason))
            | None =>
                r ← drive_step entry id plans options started next now;
                match r with
                | inl outcome => Return (Some outcome)
                | inr (next, now) => drive fuel entry id plans options started next now
                end
            end
      end
  end.

(** What follows the loop: an empty mutation, which saves, and the outcome. *)
Definition settle (id : TransitionId) (devices : list DeviceId) (outcome : TransitionOutcome) :
    task unit :=
  _ ← execute_without_notification devices (Return (Ok tt));
  _ ← Step None (λ _ w,
        (set_transitions w (TransitionRegistry_finish (w_transitions w) id outcome), tt)) Return;
  publish (TransitionsChanged [id]).

Definition run_transition (fuel : nat) (entry : nat) (plans : list TargetPlan)
    (options : TransitionOptions) : task (option TransitionOutcome) :=
  status ← reading (λ _ w, snapshot (w_transitions w) entry);
  match status with
  | None => Panic
  | Some status =>
      started ← instant 0;
      outcome ← drive fuel entry (ts_id status) plans options started
                  (started + step_interval options) started;
      match outcome with
      | None => Return None
      | Some outcome => _ ← settle (ts_id status) (plan_devices plans) outcome; Return (Some outcome)
      end
  end.

(** ** Requests *)

(** The driver a request spawns: its entry, plans and options. *)
Definition Spawned : Type := nat * list TargetPlan * TransitionOptions.

Definition register (request : StartTransitionRequest) (plans : list TargetPlan) :
    task (Response * option Spawned) :=
  '(status, entry) ← Step None (λ o w,
      let status := {|
        ts_id := TransitionId_new (out_uuid o); ts_targets := (λ p, ep_target (tp_start p)) <$> plans;
        ts_elapsed_ms := 0;
        ts_duration_ms := default (uN_max 64)
          (checkU 64 (as_millis (duration (str_options request))));
        ts_outcome := None |} in
      let '(r, entry) := TransitionRegistry_insert (out_instant o) (w_transitions w) status
                           (str_renewable_lease_ms request) in
      (set_transitions w r, (status, entry))) Return;
  _ ← publish (TransitionsChanged [ts_id status]);
  Return (RS_Transition status, Some (entry, plans, str_options request)).

Definition start (op : Operation) (request : StartTransitionRequest) :
    task (Response * option Spawned) :=
  let refused (r : Response) : Response * option Spawned := (r, None) in
  flight ← reading (λ o w, preflight (out_now o) (w_state w) request);
  match flight with
  | Err Fuel => Panic
  | Err (Fail error) => Return (refused (response_of_error error))
  | Ok (plans, source_is_scene) =>
      let targets := (λ p, ep_target (tp_start p)) <$> plans in
      let devices := TargetId_device_id <$> targets in
      or_return (authorize op devices) refused (λ generation,
        _ ← cancel_transition_targets_with_reason targets Replaced;
        if source_is_scene : bool then
          or_return (execute_authorized devices generation (apply_endpoints (tp_start <$> plans) true))
            (λ error, refused (response_of_error error)) (λ _, register request plans)
        else register request plans)
  end.
Definition start_transition (op : Operation) (request : StartTransitionRequest) : task Response :=
  r ← start op request; Return r.1.

Definition transition_response (id : TransitionId) : task Response :=
  reading (λ _ w,
    match TransitionRegistry_get (w_transitions w) id ≫= snapshot (w_transitions w) with
    | Some status => RS_Transition status
    | None => response_of_error (DE_TransitionNotFound id)
    end).

Definition get_transition (op : Operation) (id : TransitionId) : task Response :=
  or_return (authorize op []) (λ r, r) (λ _, transition_response id).

(** [registry.get(&id)]: the entry, whatever happens to the registry afterwards. *)
Definition find_transition (id : TransitionId) (k : nat → task Response) : task Response :=
  entry ← reading (λ _ w, TransitionRegistry_get (w_transitions w) id);
  match entry with
  | None => Return (response_of_error (DE_TransitionNotFound id))
  | Some entry => k entry
  end.

Definition abort_transition (op : Operation) (id : TransitionId) : task Response :=
  or_return (authorize op []) (λ r, r) (λ _,
    find_transition id (λ entry,
      _ ← Step None (λ _ w,
            (set_transitions w (request_abort (w_transitions w) entry Aborted), tt)) Return;
      Await (λ w, entry_terminal (w_transitions w) entry) (transition_response id))).

Definition renew_transition (op : Operation) (id : TransitionId) (lease_ms : Z) : task Response :=
  if (lease_ms =? 0)%Z
  then Return (response_of_error
         (DE_TransitionImpossible (Lit "renewable transition lease must be greater than zero")))
  else
    or_return (authorize op []) (λ r, r) (λ _,
      find_transition id (λ entry,
        _ ← Step None (λ o w,
              (set_transitions w (renew (out_instant o) (w_transitions w) entry lease_ms), tt)) Return;
        _ ← publish (TransitionsChanged [id]);
        transition_response id)).

(** ** Permission *)

Section permission.
Context (op : Operation).
Notation WP := (wp (guarded op)).

Lemma safe_or_partial ds b applied (t k : task (daemon unit)) :
  safe op ds b t → safe op ds b k → safe op ds b (or_partial applied t k).
Proof. intros Ht Hk. apply safe_bind; [done|]. intros [[]|error]; auto with safe. Qed.

Lemma safe_apply_endpoints ds b endpoints dark :
  (∀ e, e ∈ endpoints → TargetId_device_id (ep_target e) ∈ ds) →
  safe op ds b (apply_endpoints endpoints dark).
Proof.
  unfold apply_endpoints. generalize (@nil TargetId).
  induction endpoints as [|e endpoints IH]; intros applied Hds; [apply safe_return|]. cbn [apply_endpoints_from].
  assert (TargetId_device_id (ep_target e) ∈ ds) as Hd by (apply Hds; left).
  pose proof (in_entitled ds b _ Hd) as He.
  assert (∀ applied, safe op ds b (apply_endpoints_from applied endpoints dark)) as Hnext.
  { intros applied'. apply IH. intros e' Hin. apply Hds. by right. }
  apply safe_attempt; [auto with safe|]. intros appearance.
  repeat first [apply safe_or_partial | case_match | apply Hnext]; auto with safe.
Qed.

Lemma safe_register request plans ds b :
  entitled ds b → safe op ds b (register request plans).
Proof.
  intros He. apply safe_bind.
  - apply safe_step; [by right; right|apply list_subseteq_nil].
  - intros [status entry]. apply safe_bind; auto with safe.
Qed.

Lemma safe_find_transition id k ds b :
  (∀ entry, safe op ds b (k entry)) → safe op ds b (find_transition id k).
Proof. intros Hk. apply safe_bind; [auto with safe|]. intros [entry|]; auto with safe. Qed.

Lemma wp_get_transition id past : WP (get_transition op id) past (λ _ _, True).
Proof. apply safe_wp. apply safe_or_return; unfold transition_response; auto with safe. Qed.

Lemma wp_abort_transition id past : WP (abort_transition op id) past (λ _ _, True).
Proof.
  apply wp_authorized. intros g tr Hgr _. apply wp_granted; [done|].
  apply safe_find_transition. intros entry. apply safe_bind.
  - apply safe_step; [right; right; by left|apply list_subseteq_nil].
  - intros _ past' Hc. by apply safe_reading.
Qed.

Lemma wp_renew_transition id lease_ms past : WP (renew_transition op id lease_ms) past (λ _ _, True).
Proof.
  unfold renew_transition. case_match; [done|].
  apply wp_authorized. intros g tr Hgr _. apply wp_granted; [done|].
  apply safe_find_transition. intros entry. apply safe_bind.
  - apply safe_step; [right; right; by left|apply list_subseteq_nil].
  - intros _. apply safe_bind; [apply safe_publish; by left|]. intros _. apply safe_reading.
Qed.

(** Starting: guarded, and the plans handed to the driver were authorized. *)
Lemma wp_start request past :
  WP (start op request) past (λ r tr,
    ∀ entry plans options, r.2 = Some (entry, plans, options) →
      ∃ o w b g, Stepped None o w w ∈ tr ∧ preflight (out_now o) (w_state w) request = Ok (plans, b) ∧
        granted op tr ∧ ∀ d, d ∈ plan_devices plans → authorised op d g tr).
Proof.
  apply wp_bind, wp_reading. intros o w.
  destruct (preflight _ _ _) as [[plans b]|[|error]] eqn:Hpre; [|done|done].
  apply wp_or_return. eapply wp_mono; [apply wp_authorize|]. intros [g|response] tr Hp Hr; [|done].
  destruct (Hr g eq_refl) as [Hgr Hd]. rewrite <-list_fmap_compose in Hd.
  apply wp_bind. eapply wp_mono; [by apply wp_cancel|]. intros [] tr1 Hp1 _.
  assert (∀ tr', tr1 `prefix_of` tr' → ∃ o w b g, Stepped None o w w ∈ tr' ∧
    preflight (out_now o) (w_state w) request = Ok (plans, b) ∧
    granted op tr' ∧ ∀ d, d ∈ plan_devices plans → authorised op d g tr') as Hres.
  { intros tr' Hp'. exists o, w, b, g. split_and!; [|done| |].
    - eapply elem_of_prefix; [|etrans; [exact Hp|by etrans; [exact Hp1|]]]. rewrite elem_of_app. right. left.
    - eapply granted_mono; [by etrans; [exact Hp1|]|done].
    - intros d Hin. eapply authorised_mono; [by etrans; [exact Hp1|]|]. by apply Hd. }
  assert (∀ tr', tr1 `prefix_of` tr' → WP (register request plans) tr' (λ r tr,
    ∀ entry plans options, r.2 = Some (entry, plans, options) →
      ∃ o w b g, Stepped None o w w ∈ tr ∧ preflight (out_now o) (w_state w) request = Ok (plans, b) ∧
        granted op tr ∧ ∀ d, d ∈ plan_devices plans → authorised op d g tr)) as Hreg.
  { intros tr' Hp'. destruct (Hres tr' Hp') as (_ & _ & _ & _ & _ & _ & Hgr' & _).
    apply wp_bind. intros o1 w1 w1' [status entry] _. split.
    { split; [by right; right|]. by intros d ?%elem_of_nil. }
    apply wp_return. split; [apply (granted_mono _ tr'); [by apply prefix_app_r|done]|]. apply wp_return.
    intros entry' plans' options' [= <- <- <-]. apply Hres. etrans; [exact Hp'|].
    rewrite <-app_assoc. by apply prefix_app_r. }
  destruct b; [|by apply Hreg]. apply wp_or_return.
  eapply wp_mono; [eapply (wp_execute_inner _ (plan_devices plans) True)|].
  - intros d Hin. eapply authorised_mono; [exact Hp1|by apply Hd].
  - intros _. by eapply granted_mono.
  - intros _. by left.
  - apply safe_apply_endpoints. intros e (p & -> & Hin)%list_elem_of_fmap.
    by apply (list_elem_of_fmap_2 (λ p, TargetId_device_id (ep_target (tp_start p)))).
  - intros [[]|error] tr2 Hp2 _; [|done]. by apply Hreg.
Qed.

Lemma wp_start_transition request past : WP (start_transition op request) past (λ _ _, True).
Proof. apply wp_bind. by eapply wp_mono; [apply wp_start|]. Qed.
End permission.
End handlers.

(** ** Interpolation after a preflight *)

Section interpolation.
Context `{Rendering} (oklab_u8 : ∀ s e n d, Rgb_wf (oklab_mix s e n d)).

(** Fields within their Rust types. *)
Definition endpoint_ranged (e : Endpoint) : Prop :=
  Effect_ranged (uN_max 32) (ep_appearance e) ∧ opt_ranged 32 (ep_brightness e).
Definition plan_ranged (p : TargetPlan) : Prop :=
  endpoint_ranged (tp_start p) ∧ endpoint_ranged (tp_end p).

(** A hue is read modulo the channel. *)
Definition reduce_hue (hm : Z) (c : Colour) : Colour :=
  match c with
  | Colour_Hsv h s v => Colour_Hsv (h mod (hm + 1)) s v
  | Colour_Hsl h s l => Colour_Hsl (h mod (hm + 1)) s l
  | c => c
  end.
Definition reduce_effect (hm : Z) (e : Effect) : Effect :=
  match e with Effect_Static c => Effect_Static (reduce_hue hm c) | e => e end.

Lemma interpolate_hue_reduce hm s e num den dir :
  u32 hm →
  interpolate_hue (s mod (hm + 1)) (e mod (hm + 1)) hm num den dir =
  interpolate_hue s e hm num den dir.
Proof. intros Hhm. unfold interpolate_hue. by rewrite !Z.mod_mod by (unfold uN in *; lia). Qed.

Lemma interpolate_effect_reduce hm s e num den ci :
  u32 hm →
  interpolate_effect oklab_mix (reduce_effect hm s) (reduce_effect hm e) num den hm ci =
  interpolate_effect oklab_mix s e num den hm ci.
Proof.
  intros Hhm. destruct s as [|c| | | | | | | |], e as [|c'| | | | | | | |]; try reflexivity.
  unfold reduce_effect, interpolate_effect. f_equal.
  destruct c, c'; try reflexivity; destruct ci; cbn; by rewrite ?interpolate_hue_reduce by done.
Qed.

Lemma reduce_effect_ranged hm e :
  u32 hm → Effect_ranged (uN_max 32) e → Effect_ranged hm (reduce_effect hm e).
Proof.
  intros Hhm. destruct e as [|c| | | | | | | |]; try done. intros [Hwf Hc].
  assert (∀ h, 0 <= h mod (hm + 1) <= hm)%Z as Hmod.
  { intros h. pose proof (Z.mod_pos_bound h (hm + 1)). unfold uN in *. lia. }
  destruct c; (split; [done|]); cbn in *; naive_solver.
Qed.

(** What interpolates once interpolates everywhere. *)
Lemma interpolates_everywhere hm s e ci r num den :
  u32 hm → Effect_ranged (uN_max 32) s → Effect_ranged (uN_max 32) e →
  interpolate_effect oklab_mix s e 1 2 hm ci = Ok r →
  (0 <= num)%Z → u64 den → (0 < den)%Z →
  ∃ r', interpolate_effect oklab_mix s e num den hm ci = Ok r'.
Proof using oklab_u8.
  intros Hhm Hs He Hr Hnum Hden Hpos. rewrite <-interpolate_effect_reduce in Hr |- * by done.
  apply interpolate_effect_Ok_supported in Hr; [|by apply reduce_effect_ranged..].
  destruct (interpolate_effect_frame num den Hnum Hden Hpos oklab_mix oklab_u8
    (reduce_effect hm s) (reduce_effect hm e) hm ci) as (r' & Hr' & _); [done|..|done|eauto];
    by apply reduce_effect_ranged.
Qed.

Lemma darken_effect_ranged e e' :
  darken_effect e = Ok e' → Effect_ranged (uN_max 32) e → Effect_ranged (uN_max 32) e'.
Proof.
  intros Hd He. assert (Rgb_wf dark_rgb) as Hdark by (unfold Rgb_wf, uN; cbn; lia).
  assert (u32 0) as H0 by (unfold uN; lia).
  destruct e as [|c| | | | | | | |id a]; cbn in Hd.
  - done.
  - apply bind_Ok in Hd as (c' & Hc & [= <-]). destruct He as [Hwf Hr].
    destruct c as [channels| | | |]; cbn in Hc; res_inv; try (split; [done|]; cbn in *; naive_solver).
    apply map_err_Ok, Colour_additive_Ok in Hc as [-> Hwf']. split; [done|].
    apply Forall_fmap, Forall_true. done.
  - injection Hd as <-. by destruct He.
  - injection Hd as <-. by destruct He.
  - injection Hd as <-. by destruct He.
  - injection Hd as <-. by destruct He.
  - injection Hd as <-. destruct He. split; [|done]. by apply Forall_fmap, Forall_true.
  - done.
  - done.
  - destruct (darken_arguments a) as [a'|] eqn:Ha; [|done]. injection Hd as <-.
    unfold darken_arguments in Ha. destruct He as (Hc & Hs & Hdu & Hb).
    destruct (ea_brightness a) eqn:Hbr; [|destruct (ea_colours a) eqn:Hcs; [done|]];
      injection Ha as <-; unfold arguments_ranged; cbn [ea_colours ea_speed ea_duration_ms ea_brightness].
    + done.
    + split_and!; [|done..]. constructor; [done|].
      apply (Forall_fmap (λ _ : Rgb, dark_rgb)), Forall_true. done.
Qed.

Lemma logical_appearance_ranged e s :
  logical_appearance e = Ok s → endpoint_ranged e → Effect_ranged (uN_max 32) s.
Proof.
  unfold logical_appearance. intros Hs [He _]. case_match; [by injection Hs as <-|].
  by eapply darken_effect_ranged.
Qed.
Lemma logical_brightness_ranged e :
  endpoint_ranged e → opt_ranged 32 (logical_brightness e).
Proof.
  intros [_ Hb]. unfold logical_brightness. destruct (ep_brightness e); [|done]. cbn.
  case_match; [unfold uN; lia|done].
Qed.

(** A plan that passed the checks of the preflight. *)
Definition plan_checked (ci : TransitionColourInterpolation) (p : TargetPlan) : Prop :=
  u32 (tp_hue_maximum p) ∧ ep_target (tp_end p) = ep_target (tp_start p) ∧
  ∃ s e r, logical_appearance (tp_start p) = Ok s ∧ logical_appearance (tp_end p) = Ok e ∧
    interpolate_effect oklab_mix s e 1 2 (tp_hue_maximum p) ci = Ok r.

Lemma interpolate_plan_Ok ci p num den :
  plan_checked ci p → plan_ranged p → (0 <= num)%Z → u64 den → (0 < den)%Z →
  ∃ e, interpolate_plan num den ci p = Ok e ∧ ep_target e = ep_target (tp_start p) ∧
    ((den <= num)%Z → e = tp_end p).
Proof using oklab_u8.
  intros (Hhm & Ht & s & e & r & Hs & He & Hr) [Hrs Hre] Hnum Hden Hpos. unfold interpolate_plan.
  destruct (Z.leb_spec den num); [by exists (tp_end p)|]. rewrite Hs, He. cbn [mbind result_bind].
  destruct (interpolates_everywhere (tp_hue_maximum p) s e ci r num den) as [r' Hr'];
    [done|by eapply logical_appearance_ranged..|done|done|done|done|].
  rewrite Hr'. cbn.
  pose proof (logical_brightness_ranged _ Hrs) as Hbs.
  pose proof (logical_brightness_ranged _ Hre) as Hbe.
  destruct (logical_brightness (tp_start p)) as [x|], (logical_brightness (tp_end p)) as [y|]; cbn;
    [|by eexists; split_and!; [done..|lia]|by eexists; split_and!; [done..|lia]
     |by eexists; split_and!; [done..|lia]].
  destruct (interpolate_u32_frame num den Hnum Hden Hpos x y Hbs Hbe) as (z & -> & _). cbn.
  eexists. split_and!; [done..|lia].
Qed.

Lemma interpolate_plans_Ok plans options num den :
  Forall (plan_checked (to_colour_interpolation options)) plans → Forall plan_ranged plans →
  (0 <= num)%Z → u64 den → (0 < den)%Z →
  ∃ step, interpolate_plans plans num den options = Ok step ∧
    ep_target <$> step = (λ p, ep_target (tp_start p)) <$> plans ∧
    ((den <= num)%Z → step = tp_end <$> plans).
Proof using oklab_u8.
  intros Hc Hr Hnum Hden Hpos. unfold interpolate_plans.
  destruct (progress_spec num den Hnum Hden Hpos) as [Hx _].
  rewrite ease_progress_eq by done. cbn.
  pose proof (curve_range (to_function options) _ Hx) as Hf.
  assert (den <= num → curve (to_function options) (progress num den) = SCALE)%Z as Hend.
  { intros Hle. by rewrite progress_end, curve_end. }
  set (f := curve _ _) in *. clearbody f. clear Hx.
  induction plans as [|p plans IH]; [by exists []|].
  apply Forall_cons in Hc as [Hp Hc], Hr as [Hpr Hr]. destruct (IH Hc Hr) as (step & Hst & Hts & Hes).
  destruct (interpolate_plan_Ok _ p f SCALE Hp Hpr) as (e & He & Hte & Hee);
    [lia|unfold uN, SCALE; lia|unfold SCALE; lia|].
  exists (e :: step). cbn [try_map]. rewrite He. cbn. rewrite Hst. split; [done|].
  split; [by cbn; f_equal|]. intros Hle. cbn. f_equal; [|by apply Hes]. apply Hee.
  rewrite (Hend Hle). done.
Qed.
End interpolation.

Section preflight.
Context `{Wire, Env, DebugFormat, Rendering}.

Lemma hue_maximum_u32 st e hm : hue_maximum st e = Ok hm → u32 hm.
Proof.
  assert (u32 (uN_max 32)) as Hmax by (unfold uN, uN_max; lia).
  unfold hue_maximum. destruct (ep_appearance e); try by intros [= <-].
  destruct (_ ≫= _) as [bits|]; [|by intros [= <-]].
  destruct (Z.leb_spec 1 bits), (Z.leb_spec bits 31); cbn [andb];
    try (destruct (bits =? 32)%Z; by intros [= <-]).
  intros [= <-]. rewrite Z.shiftl_1_l. pose proof (Z.pow_le_mono_r 2 bits 31).
  pose proof (Z.pow_pos_nonneg 2 bits). unfold uN. lia.
Qed.

Lemma plan_target_checked now st source options q p :
  plan_target now st source options q = Ok p → plan_checked (to_colour_interpolation options) p.
Proof.
  destruct q as [target destination]. unfold plan_target. intros Hp.
  apply bind_Ok in Hp as (_ & _ & Hp). apply bind_Ok in Hp as (s & _ & Hp).
  apply map_err_Ok in Hp. res_inv. unfold complete in *. res_inv. simplify_eq.
  split_and!; cbn; [by eapply hue_maximum_u32|done|].
  unfold interpolated in *.
  repeat match goal with H : map_err _ _ = Ok _ |- _ => apply map_err_Ok in H end.
  by exists a2, a3, a5.
Qed.

Lemma preflight_checked now st request plans b :
  preflight now st request = Ok (plans, b) →
  Forall (plan_checked (to_colour_interpolation (str_options request))) plans.
Proof.
  unfold preflight. intros Hp. res_inv. simplify_eq.
  match goal with Ht : try_map _ _ = Ok _ |- _ => apply try_map_Ok in Ht; rename Ht into Htry end.
  apply Forall_forall. intros p Hin. rewrite merge_sort_Permutation in Hin.
  apply list_elem_of_lookup in Hin as [i Hi]. eapply Forall2_lookup_r in Htry as (q & _ & Hq); [|exact Hi].
  by eapply plan_target_checked.
Qed.
End preflight.

(** ** What the driver does *)

Section driver.
Context `{Wire, Env, DebugFormat, Rendering}.
Notation WP := (wp (λ _ _, True)).

(** *** Steps *)

(** The plugin took the state, and the state was recorded afterwards. *)
Definition performed (target : TargetId) (state : TargetState) (tr : list event) : Prop :=
  ∃ operation e e', sent target operation e ∧
    (∃ o w w', e' = Stepped None o w w' ∧
       record_operation o (w_state w) (target, state) = (w_state w', Ok tt)) ∧
    (∃ st, resolve_operation st (target, state) = Ok (target, operation)) ∧
    [e; e'] `sublist_of` tr.

Lemma performed_mono target state tr tr' :
  tr `prefix_of` tr' → performed target state tr → performed target state tr'.
Proof.
  intros [l ->] (op & e & e' & ? & ? & ? & Hs). exists op, e, e'. split_and!; [done..|].
  by apply sublist_inserts_r.
Qed.

(** An endpoint was applied: its appearance, snapped to the range of the hardware, its
    brightness, and darkness. *)
Definition endpoint_applied (e : Endpoint) (tr : list event) : Prop :=
  (∃ st appearance, snap_hardware_effect st (ep_target e) (ep_appearance e) = Ok appearance ∧
     performed (ep_target e) (TS_Effect appearance) tr) ∧
  (∀ brightness, ep_brightness e = Some brightness →
     performed (ep_target e) (TS_Brightness brightness) tr) ∧
  (ep_emission e = Dark → performed (ep_target e) (TS_Effect Effect_Off) tr).

Lemma endpoint_applied_mono e tr tr' :
  tr `prefix_of` tr' → endpoint_applied e tr → endpoint_applied e tr'.
Proof.
  intros Hp ((st & a & Ha & H1') & H2' & H3'). split_and!.
  - exists st, a. split; [done|]. by eapply performed_mono.
  - intros b Hb. eapply performed_mono; [done|auto].
  - intros Hd. eapply performed_mono; [done|auto].
Qed.

Lemma wp_apply_target_state target state past :
  WP (apply_target_state target state) past (λ r tr, past `prefix_of` tr ∧ (r = Ok tt →
    ∃ operation e, sent target operation e ∧ [e] `sublist_of` drop (length past) tr ∧
      ∃ st, resolve_operation st (target, state) = Ok (target, operation))).
Proof.
  assert (∀ operation past', past `prefix_of` past' →
    WP (send_update target operation) past' (λ r tr, past `prefix_of` tr ∧ (r = Ok tt →
      ∃ e, sent target operation e ∧ [e] `sublist_of` drop (length past) tr))) as Hsend.
  { intros operation past' [l ->] o w w' x [= <- <-]. split; [done|]. apply wp_return.
    split; [rewrite <-!app_assoc; by apply prefix_app_r|]. intros Hok.
    eexists. split; [by exists o, w, w|]. rewrite <-!app_assoc, drop_app_length.
    by apply sublist_inserts_l. }
  unfold apply_target_state.
  assert (∀ operation, (∀ st, resolve_operation st (target, state) = Ok (target, operation)) →
    WP (send_update target operation) past (λ r tr, past `prefix_of` tr ∧ (r = Ok tt →
    ∃ operation e, sent target operation e ∧ [e] `sublist_of` drop (length past) tr ∧
      ∃ st, resolve_operation st (target, state) = Ok (target, operation)))) as Hplain.
  { intros operation Hop. eapply wp_mono; [by apply Hsend|]. intros r tr _ [Hp Hr]. split; [done|].
    intros Hok. destruct (Hr Hok) as (e & He & Hs). exists operation, e. split_and!; [done..|].
    exists (from_devices []). apply Hop. }
  destruct state as [[]| | |]; try by apply Hplain.
  apply wp_attempt. intros o w w' x [= <- <-]. split; [done|]. apply wp_return.
  destruct (resolve_colour _ _ _) as [c|error] eqn:Hc;
    [|split; [by apply prefix_app_r|done]].
  eapply wp_mono; [apply Hsend; by apply prefix_app_r|]. intros r tr _ [Hp Hr]. split; [done|].
  intros Hok. destruct (Hr Hok) as (e & He & Hs). eexists _, e. split_and!; [done..|].
  exists (w_state w). cbn. by rewrite Hc.
Qed.

Lemma wp_perform applied applied' target state record (k : task (daemon unit)) past
    (Q : daemon unit → list event → Prop) :
  (∀ o st, record o st = record_operation o st (target, state)) →
  (∀ error tr, Q (Err error) tr) →
  (∀ tr, past `prefix_of` tr → performed target state tr → WP k tr Q) →
  WP (or_partial applied (apply_target_state target state) (or_partial applied' (locked record) k))
    past Q.
Proof.
  intros Hrec Herr Hk. apply wp_bind. eapply wp_mono; [apply wp_apply_target_state|].
  intros [[]|error] tr _ [[l ->] Hr]; [|by apply wp_return].
  destruct (Hr eq_refl) as (operation & e & He & Hs & Hres). rewrite drop_app_length in Hs.
  apply wp_bind. intros o w w' x Hx. split; [done|]. apply wp_return.
  destruct x as [[]|error]; [|by apply wp_return].
  rewrite Hrec in Hx. destruct (record_operation _ _ _) as [st r] eqn:Hop. injection Hx as <- ->.
  apply Hk; [rewrite <-app_assoc; by apply prefix_app_r|].
  exists operation, e, (Stepped None o w (set_state w st)). split_and!; [done| |done|].
  - exists o, w. eexists. split; [done|]. by destruct w.
  - rewrite <-app_assoc. apply sublist_inserts_l. by apply (sublist_app [e] _ [_]).
Qed.

Lemma wp_apply_endpoints applied endpoints past :
  WP (apply_endpoints_from applied endpoints true) past (λ r tr,
    r = Ok tt → ∀ e, e ∈ endpoints → endpoint_applied e tr).
Proof.
  revert applied past. induction endpoints as [|e endpoints IH]; intros applied past.
  { intros _ e ?%elem_of_nil. done. }
  cbn [apply_endpoints_from]. apply wp_attempt. intros o w w' x [= <- <-]. split; [done|].
  apply wp_return. destruct (snap_hardware_effect _ _ _) as [appearance|error] eqn:Hsnap; [|done].
  apply wp_perform; [done|done|]. intros tr1 _ H1'.
  assert (∀ applied tr, tr1 `prefix_of` tr →
    (∀ b, ep_brightness e = Some b → performed (ep_target e) (TS_Brightness b) tr) →
    (ep_emission e = Dark → performed (ep_target e) (TS_Effect Effect_Off) tr) →
    WP (apply_endpoints_from applied endpoints true) tr (λ r tr,
      r = Ok tt → ∀ e', e' ∈ e :: endpoints → endpoint_applied e' tr)) as Hnext.
  { intros applied' tr Hp Hb Hd. eapply wp_mono; [apply IH|]. intros r tr' Hp' Hr Hok e'.
    rewrite elem_of_cons. intros [->|Hin]; [|by apply Hr].
    apply (endpoint_applied_mono _ tr); [done|]. split_and!; [|done..].
    exists (w_state w), appearance. split; [done|]. by eapply performed_mono. }
  assert (∀ applied tr, tr1 `prefix_of` tr →
    (∀ b, ep_brightness e = Some b → performed (ep_target e) (TS_Brightness b) tr) →
    WP (if true && bool_decide (ep_emission e = Dark) then
          or_partial applied (apply_target_state (ep_target e) (TS_Effect Effect_Off)) (
          or_partial applied (locked (λ o st, set_effect (out_now o) st (ep_target e) Effect_Off))
            (apply_endpoints_from applied endpoints true))
        else apply_endpoints_from applied endpoints true) tr (λ r tr,
      r = Ok tt → ∀ e', e' ∈ e :: endpoints → endpoint_applied e' tr)) as Hdark.
  { intros applied' tr Hp Hb. cbn [andb]. case_bool_decide; [|by apply Hnext].
    apply wp_perform; [done|done|]. intros tr' Hp' Hoff. apply Hnext; [by etrans| |done].
    intros b Heq. eapply performed_mono; [done|by apply Hb]. }
  destruct (ep_brightness e) as [brightness|] eqn:Hbr; [|by apply Hdark].
  apply wp_perform; [done|done|]. intros tr2 Hp2 H2'. apply Hdark; [done|]. by intros b [= <-].
Qed.

(** *** The loop *)

Definition valid_options (options : TransitionOptions) : Prop :=
  u64 (to_duration_ms options) ∧ (0 < to_duration_ms options)%Z ∧ (0 < step_interval options)%Z.

Lemma as_millis_duration options :
  valid_options options →
  default (uN_max 64) (checkU 64 (as_millis (duration options))) = to_duration_ms options.
Proof.
  intros [Hd _]. unfold as_millis, duration, from_millis. rewrite Z.div_mul by lia.
  by rewrite (checkU_ok 64).
Qed.

Lemma interpolate_plans_end plans options step :
  valid_options options →
  interpolate_plans plans (to_duration_ms options) (to_duration_ms options) options = Ok step →
  step = tp_end <$> plans.
Proof.
  intros (Hd & Hpos & _). unfold interpolate_plans. rewrite ease_progress_eq by (done || unfold uN in *; lia).
  rewrite progress_end, curve_end by lia. cbn. intros Hs%try_map_Ok.
  induction Hs as [|p e plans step Hp _ IH]; [done|]. cbn. unfold interpolate_plan in Hp.
  rewrite Z.leb_refl in Hp. injection Hp as <-. by rewrite IH.
Qed.

(** A step ends the loop or moves [next] on, before the deadline. *)
Lemma wp_drive_step entry id plans options started next fired past :
  valid_options options →
  WP (drive_step entry id plans options started next fired) past (λ r tr,
    match r with
    | inl outcome =>
        outcome = Outcome_Completed → ∀ p, p ∈ plans → endpoint_applied (tp_end p) tr
    | inr (next', now') =>
        (next + step_interval options <= next' ∧ fired < started + duration options)%Z
    end).
Proof.
  intros Hd. apply wp_bind. intros o w w' now [= <- <-]. split; [done|]. apply wp_return.
  set (now := Z.max fired (out_instant o)). cbn zeta. rewrite as_millis_duration by done.
  set (elapsed := Z.min _ _).
  destruct (interpolate_plans _ _ _ _) as [step|error] eqn:Hstep; [|done].
  apply wp_bind. eapply wp_mono; [apply wp_apply_endpoints|]. intros [[]|error] tr _ Hr.
  2: { apply wp_return. by destruct error. }
  specialize (Hr eq_refl). apply wp_bind. intros o1 w1 w1' x1 _. split; [done|]. apply wp_return.
  apply wp_bind. split; [done|]. apply wp_return. apply wp_bind. split; [done|]. apply wp_return.
  destruct (Z.leb_spec (duration options) elapsed) as [Hle|Hlt].
  - apply wp_return. intros _ p Hp.
    assert (elapsed = duration options) as Heq by (unfold elapsed in *; lia).
    rewrite Heq, as_millis_duration in Hstep by done. apply interpolate_plans_end in Hstep as ->; [|done].
    eapply endpoint_applied_mono; [|apply Hr, list_elem_of_fmap_2; exact Hp].
    rewrite <-!app_assoc. by apply prefix_app_r.
  - assert (fired < started + duration options)%Z as Hf by (unfold elapsed, now in *; lia).
    apply wp_bind. intros o2 w2 w2' now2 [= <- <-]. split; [done|]. apply wp_return.
    destruct (Z.ltb_spec (next + step_interval options) (Z.max now (out_instant o2))).
    + apply wp_bind. intros o3 w3 w3' now3 [= <- <-]. split; [done|]. apply wp_return.
      apply wp_return. destruct Hd as (_ & _ & Hi). lia.
    + apply wp_return. lia.
Qed.

(** No notification interrupts the sleep and no lease limits the transition. *)
Definition undisturbed (entry : nat) (e : event) : Prop :=
  match e with
  | Stepped _ o w _ => out_changed o = false ∧ lease_deadline (w_transitions w) entry = None
  | _ => True
  end.

Lemma undisturbed_at entry m o w w' tr past :
  past ++ [Stepped m o w w'] `prefix_of` tr → Forall (undisturbed entry) tr →
  out_changed o = false ∧ lease_deadline (w_transitions w) entry = None.
Proof.
  intros [l ->] [[_ [He _]%Forall_cons]%Forall_app _]%Forall_app. exact He.
Qed.

Lemma wp_drive fuel entry id plans options started next now past :
  valid_options options →
  WP (drive fuel entry id plans options started next now) past (λ r tr,
    (r = Some Outcome_Completed → ∀ p, p ∈ plans → endpoint_applied (tp_end p) tr) ∧
    (Forall (undisturbed entry) tr →
     (started + duration options - next <= (Z.of_nat fuel - 1) * step_interval options)%Z →
     0 < fuel → is_Some r)).
Proof.
  intros Hv. revert next now past. induction fuel as [|fuel IH]; intros next now past.
  { cbn [drive]. apply wp_return. split; [done|lia]. }
  cbn [drive]. apply wp_bind. intros o w w' lease [= <- <-]. split; [done|]. apply wp_return. cbn zeta.
  set (wake := from_option _ _ _). apply wp_bind. intros o1 w1 w1' woken [= <- <-]. split; [done|].
  apply wp_return. destruct (out_changed o1) eqn:Hch.
  { apply wp_bind. intros o2 w2 w2' reason _. split; [done|]. apply wp_return.
    destruct reason as [reason|]; [by split|]. eapply wp_mono; [apply IH|].
    intros r tr Hp [Hc _]. split; [done|]. intros Hall.
    destruct (undisturbed_at entry None o1 w1 w1 tr (past ++ [Stepped None o w w])) as [Hch' _];
      [by etrans; [apply prefix_app_r|]|done|congruence]. }
  set (fired := Z.max _ _).
  apply wp_bind. intros o2 w2 w2' lease [= <- <-]. split; [done|]. apply wp_return.
  apply wp_bind. intros o3 w3 w3' now3 [= <- <-]. split; [done|]. apply wp_return.
  case_match; [by split|].
  apply wp_bind. intros o4 w4 w4' reason _. split; [done|]. apply wp_return.
  destruct reason as [reason|]; [by split|].
  apply wp_bind. eapply wp_mono; [by apply wp_drive_step|]. intros [outcome|[next' now']] tr1 Hp1 Hr.
  { apply wp_return. split; [by intros [= ->]; apply Hr|done]. }
  eapply wp_mono; [apply IH|]. intros r tr Hp [Hc Hend]. split; [done|]. intros Hall Hfuel _.
  destruct (undisturbed_at entry None o w w tr past) as [_ Hlease]; [|done|].
  { etrans; [|exact Hp]. etrans; [|exact Hp1]. rewrite <-!app_assoc. by apply prefix_app, prefix_app_r. }
  assert (Z.min next (started + duration options) <= fired)%Z as Hw.
  { unfold fired, wake. rewrite Hlease. cbn. lia. }
  destruct Hv as (_ & _ & Hi), Hr as [Hn Hf].
  assert (next < started + duration options)%Z as Hlt by lia.
  apply Hend; [done|nia|]. destruct fuel; [|lia]. nia.
Qed.

Definition outcome_recorded (id : TransitionId) (outcome : TransitionOutcome) (tr : list event) : Prop :=
  ∃ before o w w', tr = before ++ [Stepped None o w w'; Published (TransitionsChanged [id])] ∧
    w_transitions w' = TransitionRegistry_finish (w_transitions w) id outcome.

Lemma wp_settle id devices outcome past :
  WP (settle id devices outcome) past (λ _ tr, past `prefix_of` tr ∧ outcome_recorded id outcome tr).
Proof.
  apply wp_bind, wp_any; [done|]. intros r tr Hp. apply wp_bind. intros o w w' x [= <- <-].
  split; [done|]. apply wp_return. split; [done|]. apply wp_return.
  rewrite <-app_assoc. split; [by apply prefix_app_r|]. exists tr, o, w. eexists.
  split; [done|]. by destruct w.
Qed.

Lemma wp_run_transition fuel entry plans options past :
  valid_options options →
  WP (run_transition fuel entry plans options) past (λ r tr,
    (∀ outcome, r = Some outcome → ∃ id, outcome_recorded id outcome tr) ∧
    (r = Some Outcome_Completed → ∀ p, p ∈ plans → endpoint_applied (tp_end p) tr) ∧
    (Forall (undisturbed entry) tr →
     (duration options <= Z.of_nat fuel * step_interval options)%Z → is_Some r)).
Proof.
  intros Hv. apply wp_bind. intros o w w' status _. split; [done|]. apply wp_return.
  destruct status as [status|]; [|done].
  apply wp_bind. intros o1 w1 w1' started _. split; [done|]. apply wp_return.
  apply wp_bind. eapply wp_mono; [by apply wp_drive|]. intros outcome tr _ [Hc Hend].
  assert (Forall (undisturbed entry) tr →
     (duration options <= Z.of_nat fuel * step_interval options)%Z → is_Some outcome) as Hsome.
  { intros Hall Hf. destruct Hv as (_ & Hd & Hi). unfold duration, from_millis in *.
    apply Hend; [done|lia|]. destruct fuel; [lia|]. lia. }
  destruct outcome as [outcome|]; [|by apply wp_return].
  apply wp_bind. eapply wp_mono; [apply wp_settle|]. intros [] tr' _ [Hp Hrec]. apply wp_return.
  split_and!; [intros ? [= <-]; eauto| |done].
  intros [= ->] p Hin. eapply endpoint_applied_mono; [done|by apply Hc].
Qed.

(** *** The devices of a driver *)

(** The task sends messages about [ds] only. *)
Fixpoint confined (ds : list DeviceId) {A} (t : task A) : Prop :=
  match t with
  | Return _ | Panic => True
  | Step m _ k => from_option message_devices [] m ⊆ ds ∧ ∀ x, confined ds (k x)
  | Ask _ _ k => ∀ d, confined ds (k d)
  | Publish _ k | Await _ k => confined ds k
  end.

Lemma confined_bind ds {A B} (t : task A) (k : A → task B) :
  confined ds t → (∀ a, confined ds (k a)) → confined ds (t ≫= k).
Proof.
  intros Ht Hk. induction t as [a| |X m f h IH|op rs h IH|e h IH|ready h IH]; cbn in *; auto.
  destruct Ht. auto.
Qed.
Lemma confined_or_partial ds applied (t k : task (daemon unit)) :
  confined ds t → confined ds k → confined ds (or_partial applied t k).
Proof. intros Ht Hk. apply confined_bind; [done|]. by intros [[]|]. Qed.
Lemma confined_catch ds {A} (t : task A) : confined ds t → confined ds (catch t).
Proof. induction t; cbn; auto. intros [? ?]. auto. Qed.
Lemma confined_silent ds {X} (f : Outside → World → World * X) : confined ds (Step None f Return).
Proof. split; [apply list_subseteq_nil|done]. Qed.

Lemma confined_apply_target_state ds target state :
  TargetId_device_id target ∈ ds → confined ds (apply_target_state target state).
Proof.
  intros Hin.
  assert (∀ operation, confined ds (send_update target operation)) as Hsend.
  { intros operation. split; [|done]. by intros d ->%list_elem_of_singleton. }
  unfold apply_target_state. repeat case_match; auto.
  apply confined_bind; [apply confined_silent|]. intros [c|]; [auto|done].
Qed.

Lemma confined_apply_endpoints ds applied endpoints dark :
  (∀ e, e ∈ endpoints → TargetId_device_id (ep_target e) ∈ ds) →
  confined ds (apply_endpoints_from applied endpoints dark).
Proof.
  revert applied. induction endpoints as [|e endpoints IH]; intros applied Hds; [done|].
  cbn [apply_endpoints_from].
  assert (TargetId_device_id (ep_target e) ∈ ds) as Hd by (apply Hds; left).
  assert (∀ applied, confined ds (apply_endpoints_from applied endpoints dark)) as Hnext.
  { intros applied'. apply IH. intros e' Hin. apply Hds. by right. }
  apply confined_bind; [apply confined_silent|]. intros [appearance|]; [|done].
  repeat first [apply confined_or_partial | case_match | apply Hnext];
    apply confined_silent || by apply confined_apply_target_state.
Qed.

Lemma interpolate_plans_targets plans num den options step :
  Forall (λ p, ep_target (tp_end p) = ep_target (tp_start p)) plans →
  interpolate_plans plans num den options = Ok step →
  ep_target <$> step = (λ p, ep_target (tp_start p)) <$> plans.
Proof.
  intros Hp Hs. unfold interpolate_plans in Hs. apply bind_Ok in Hs as ([n d] & _ & Hs%try_map_Ok).
  induction Hs as [|p e plans step Hpe _ IH]; [done|]. apply Forall_cons in Hp as [Ht Hp]. cbn.
  f_equal; [|auto]. unfold interpolate_plan in Hpe. case_match; [by injection Hpe as <-|]. res_inv.
  by simplify_eq.
Qed.

Lemma confined_drive_step entry id plans options started next fired :
  Forall (λ p, ep_target (tp_end p) = ep_target (tp_start p)) plans →
  confined (plan_devices plans) (drive_step entry id plans options started next fired).
Proof.
  intros Hp. apply confined_bind; [apply confined_silent|]. intros now. cbn zeta.
  destruct (interpolate_plans _ _ _ _) as [step|error] eqn:Hstep; [|done].
  apply confined_bind; [apply confined_apply_endpoints|intros [[]|error]; [|done]].
  - apply interpolate_plans_targets in Hstep; [|done]. intros e He.
    apply (list_elem_of_fmap_2 ep_target) in He. rewrite Hstep in He.
    apply list_elem_of_fmap in He as (p & -> & Hin).
    by apply (list_elem_of_fmap_2 (λ p, TargetId_device_id (ep_target (tp_start p)))).
  - apply confined_bind; [apply confined_silent|]. intros _. cbn. case_match; [done|].
    split; [apply list_subseteq_nil|]. intros now2. cbn. case_match; [|done].
    split; [apply list_subseteq_nil|done].
Qed.

Lemma confined_drive fuel entry id plans options started next now :
  Forall (λ p, ep_target (tp_end p) = ep_target (tp_start p)) plans →
  confined (plan_devices plans) (drive fuel entry id plans options started next now).
Proof.
  intros Hp. revert next now. induction fuel as [|fuel IH]; intros next now; [done|]. cbn [drive].
  apply confined_bind; [apply confined_silent|]. intros lease.
  apply confined_bind; [apply confined_silent|]. intros [fired|].
  - apply confined_bind; [apply confined_silent|]. intros lease'.
    apply confined_bind; [apply confined_silent|]. intros now'. case_match; [done|].
    apply confined_bind; [apply confined_silent|]. intros [reason|]; [done|].
    apply confined_bind; [by apply confined_drive_step|].
    intros [outcome|[next' now'']]; [done|apply IH].
  - apply confined_bind; [apply confined_silent|]. intros [reason|]; [done|apply IH].
Qed.

Lemma confined_settle ds id devices outcome : confined ds (settle id devices outcome).
Proof.
  apply confined_bind; [|intros _; apply confined_bind; [apply confined_silent|done]].
  apply confined_bind; [apply confined_silent|]. intros [[]|]; [|done].
  apply confined_bind; [|by intros result; case_match].
  apply confined_bind; [by apply confined_catch|]. intros caught. cbn zeta. case_match; [|done].
  apply confined_bind; [apply confined_silent|]. intros [[]|]; [done|].
  apply confined_bind; [apply confined_silent|done].
Qed.

Lemma confined_run_transition fuel entry plans options :
  Forall (λ p, ep_target (tp_end p) = ep_target (tp_start p)) plans →
  confined (plan_devices plans) (run_transition fuel entry plans options).
Proof.
  intros Hp. apply confined_bind; [apply confined_silent|]. intros [status|]; [|done].
  apply confined_bind; [apply confined_silent|]. intros started.
  apply confined_bind; [by apply confined_drive|]. intros [outcome|]; [|done].
  apply confined_bind; [apply confined_settle|done].
Qed.

(** A request with the driver it spawns. *)
Definition start_and_run (fuel : nat) (op : Operation) (request : StartTransitionRequest) :
    task Response :=
  '(response, spawned) ← start op request;
  match spawned with
  | Some (entry, plans, options) =>
      _ ← run_transition fuel entry plans options; Return response
  | None => Return response
  end.

(** A device of a message was authorized, in some topology. *)
Definition vetted (op : Operation) (past : list event) (e : event) : Prop :=
  ∀ m o w w', e = Stepped (Some m) o w w' →
    ∀ d, d ∈ message_devices m → ∃ g, authorised op d g past.

Lemma guarded_vetted op past e : guarded op past e → vetted op past e.
Proof.
  intros He m o w w' -> d Hd. destruct He as [_ He].
  destruct (He d Hd) as (before & o' & u & u' & after & -> & Ha).
  eexists. eapply authorised_mono; [|done]. by apply prefix_app_r.
Qed.

Lemma wp_confined op ds {A} (t : task A) past :
  confined ds t → (∀ d, d ∈ ds → ∃ g, authorised op d g past) → wp (vetted op) t past (λ _ _, True).
Proof.
  intros Ht Hds.
  assert (∀ past', past `prefix_of` past' → ∀ d, d ∈ ds → ∃ g, authorised op d g past') as Hmono.
  { intros past' Hp d Hd. destruct (Hds d Hd) as [g Hg]. exists g. by eapply authorised_mono. }
  assert (∀ past' e, past `prefix_of` past' → past `prefix_of` past' ++ [e]) as Happ.
  { intros past' e Hp. etrans; [done|]. by apply prefix_app_r. }
  enough (∀ past', past `prefix_of` past' → wp (vetted op) t past' (λ _ _, True)) by auto.
  induction t as [a| |X m f h IH|op' rs h IH|e h IH|ready h IH]; intros past' Hp; cbn in *; [done|done|..].
  - intros o w w' x _. split; [|apply IH; [apply Ht|by apply Happ]].
    intros m' ? ? ? [= -> <- <- <-] d Hd. apply Hmono; [done|]. by apply Ht.
  - intros d. split; [by intros ? ? ? ? [=]|]. apply IH; [apply Ht|by apply Happ].
  - split; [by intros ? ? ? ? [=]|]. apply IH; [done|by apply Happ].
  - by apply IH.
Qed.

Lemma wp_start_and_run fuel op request past :
  wp (vetted op) (start_and_run fuel op request) past (λ _ _, True).
Proof.
  apply wp_bind. eapply wp_mono; [eapply wp_ok_mono; [apply guarded_vetted|apply wp_start]|].
  intros [response [[[entry plans] options]|]] tr _ Hr; [|done].
  destruct (Hr entry plans options eq_refl) as (o & w & b & g & _ & Hpre & _ & Hd).
  apply wp_bind. eapply wp_mono; [eapply wp_confined|done].
  - apply confined_run_transition. eapply Forall_impl; [by eapply preflight_checked|].
    by intros p (_ & Ht & _).
  - intros d Hin. exists g. by apply Hd.
Qed.
End driver.

(** ** Claims *)

(** A transition that was accepted never fails to interpolate: at any progress every
    plan of its preflight has an intermediate step, one per target in order, and at the end
    the steps are exactly the endpoints that were validated. *)
Theorem preflighted_interpolates `{Wire, Env, DebugFormat, Rendering} now st request plans b elapsed :
  (∀ s e n d, Rgb_wf (oklab_mix s e n d)) →
  preflight now st request = Ok (plans, b) → Forall plan_ranged plans →
  valid_options (str_options request) → (0 <= elapsed)%Z →
  ∃ step, interpolate_plans plans elapsed (to_duration_ms (str_options request)) (str_options request)
      = Ok step ∧
    ep_target <$> step = (λ p, ep_target (tp_start p)) <$> plans ∧
    ((to_duration_ms (str_options request) <= elapsed)%Z → step = tp_end <$> plans).
Proof.
  intros Hmix Hpre Hr (Hd & Hpos & _) He.
  apply interpolate_plans_Ok; [done|by eapply preflight_checked|done..].
Qed.

(** C28: A driver ends: with no notification and no lease in its way, the steps that the
    options give are enough for it to record an outcome. *)
Theorem transition_ends `{Wire, Env, DebugFormat, Rendering} others decides fuel entry plans options w tr w' r :
  valid_options options → (duration options <= Z.of_nat fuel * step_interval options)%Z →
  runs others decides w (run_transition fuel entry plans options) tr w' (Done r) →
  Forall (undisturbed entry) tr →
  ∃ outcome id, r = Some outcome ∧ outcome_recorded id outcome tr.
Proof.
  intros Hv Hf Hrun Hall.
  destruct (wp_sound _ others decides w _ _ w' _ [] _ Hrun
    (wp_run_transition fuel entry plans options [] Hv)) as (_ & Hrec & _ & Hsome).
  destruct (Hsome Hall Hf) as [outcome ->]. destruct (Hrec outcome eq_refl) as [id Hid]. eauto.
Qed.

(** C27: A transition that is reported complete was brought to its end: every endpoint was
    taken by the plugin and recorded, its appearance, its brightness and its darkness. *)
Theorem completed_transition_applied `{Wire, Env, DebugFormat, Rendering} others decides fuel entry
    plans options w tr w' p :
  valid_options options →
  runs others decides w (run_transition fuel entry plans options) tr w'
    (Done (Some Outcome_Completed)) →
  p ∈ plans → endpoint_applied (tp_end p) tr.
Proof.
  intros Hv Hrun Hin.
  destruct (wp_sound _ others decides w _ _ w' _ [] _ Hrun
    (wp_run_transition fuel entry plans options [] Hv)) as (_ & _ & Hc & _).
  by apply Hc.
Qed.

(** A transition touches only devices it was authorized for: every message of the
    request and of the driver it spawns is about devices for which the operation was
    allowed before. *)
Theorem transition_within_grant `{Wire, Env, DebugFormat, Rendering} others decides fuel op request w
    before m o u u' after w' r d :
  runs others decides w (start_and_run fuel op request)
    (before ++ Stepped (Some m) o u u' :: after) w' r →
  d ∈ message_devices m → ∃ g, authorised op d g before.
Proof.
  intros Hrun Hd.
  destruct (wp_sound _ others decides w _ _ w' r [] _ Hrun (wp_start_and_run fuel op request []))
    as [Hall _].
  exact (Hall before _ after eq_refl m o u u' eq_refl d Hd).
Qed.

(** A fade between two scenes. *)
Module Fading.
#[export] Instance debug : DebugFormat := {| debug_target t := DeviceId_as_str (TargetId_device_id t) |}.
#[export] Instance rendering : Rendering := {|
  oklab_mix s _ _ _ := Rgb_new (rgb_r s mod 256) (rgb_g s mod 256) (rgb_b s mod 256);
  error_text _ := Lit "failed"; colour_error_text _ := "colour"%string |}.
Definition scene (name : string) (intensity : Z) : Scene := {|
  scene_id := SceneId_new ("0123456789abcdef0123456789abcdef000" ++ name); scene_revision := 1;
  scene_name := name; scene_description := None;
  scene_owner := Owner_Uid 1000;
  scene_bindings := [Frozen Running.target {|
    sts_appearance := Some (Effect_Static (Colour_Monochrome intensity)); sts_brightness := Some 40%Z;
    sts_emission := Some Emitting; sts_appearance_slots := None |}] |}.
Definition day : Scene := scene "d" 200.
Definition night : Scene := scene "n" 10.
Definition world : World :=
  set_state Running.world (set_scenes (w_state Running.world)
    {[ scene_id day := day; scene_id night := night ]}).
Definition options : TransitionOptions := {|
  to_duration_ms := 100; to_step_interval_ms := Some 40%Z; to_function := EaseInOut;
  to_colour_interpolation := TransitionColourInterpolation_default |}.
Definition request : StartTransitionRequest := {|
  str_source := TransitionSource_Scene (scene_id day);
  str_destination := TransitionDestination_Scene (scene_id night); str_options := options;
  str_authorized_targets := None; str_renewable_lease_ms := None |}.
Definition endpoint (intensity : Z) : Endpoint := {|
  ep_target := Running.target; ep_appearance := Effect_Static (Colour_Monochrome intensity);
  ep_brightness := Some 40%Z; ep_emission := Emitting |}.
Definition plans : list TargetPlan :=
  [{| tp_start := endpoint 200; tp_end := endpoint 10; tp_hue_maximum := 4294967295 |}].
Definition started : World := (Running.run_in world (@start Running.wire sample_env debug rendering Control request)).1.2.
Definition drive_run := Running.run_in started
  (@run_transition Running.wire sample_env debug rendering 3 0 plans options).
Definition whole_run := Running.run_in world
  (@start_and_run Running.wire sample_env debug rendering 3 Control request).
End Fading.

Lemma fading_options_valid : valid_options Fading.options.
Proof.
  split_and!; [split|..]; apply Z.leb_le || apply Z.ltb_lt; vm_compute; reflexivity.
Qed.

Lemma preflighted_interpolates_witness :
  @preflight sample_env Fading.debug Fading.rendering 1000 (w_state Fading.world) Fading.request =
    Ok (Fading.plans, true) ∧
  ∃ step, @interpolate_plans Fading.rendering Fading.plans 40 100 Fading.options = Ok step ∧
    ep_target <$> step = [Running.target].
Proof.
  assert (@preflight sample_env Fading.debug Fading.rendering 1000 (w_state Fading.world) Fading.request =
    Ok (Fading.plans, true)) as Hpre by (vm_compute; reflexivity).
  split; [exact Hpre|].
  destruct (@preflighted_interpolates Running.wire sample_env Fading.debug Fading.rendering 1000
    (w_state Fading.world) Fading.request Fading.plans true 40) as (step & Hstep & Ht & _).
  - intros s e n d. unfold Rgb_wf, uN. cbn.
    pose proof (Z.mod_pos_bound (rgb_r s) 256). pose proof (Z.mod_pos_bound (rgb_g s) 256).
    pose proof (Z.mod_pos_bound (rgb_b s) 256). lia.
  - exact Hpre.
  - constructor; [|constructor]. split; (split; [split; [exact I|]|]); cbn; unfold uN; lia.
  - exact fading_options_valid.
  - lia.
  - exists step. split; [exact Hstep|]. rewrite Ht. vm_compute. reflexivity.
Defined.

Lemma completed_transition_applied_witness :
  Fading.drive_run.2 = Done (Some Outcome_Completed) ∧
  ∃ p, p ∈ Fading.plans ∧
    ep_appearance (tp_end p) = Effect_Static (Colour_Monochrome 10) ∧
    @endpoint_applied Running.wire sample_env (tp_end p) Fading.drive_run.1.1.
Proof.
  assert (Fading.drive_run.2 = Done (Some Outcome_Completed)) as Hdone by (vm_compute; reflexivity).
  split; [exact Hdone|]. eexists. split; [left|]. split; [reflexivity|].
  apply (@completed_transition_applied Running.wire sample_env Fading.debug Fading.rendering _ _
    3 0 Fading.plans Fading.options _ _ _ _ fading_options_valid (run_in_runs _ _ _ Hdone)).
  left.
Defined.

Definition undisturbedb (entry : nat) (e : @event Running.wire) : bool :=
  match e with
  | Stepped _ o w _ =>
      negb (out_changed o) && bool_decide (lease_deadline (w_transitions w) entry = None)
  | _ => true
  end.
Lemma undisturbedb_Forall entry tr :
  forallb (undisturbedb entry) tr = true → Forall (undisturbed entry) tr.
Proof.
  intros Hall. apply Forall_forall. intros e He. rewrite forallb_forall in Hall.
  specialize (Hall e (proj1 (list_elem_of_In _ _) He)). destruct e as [m o w w'| |]; cbn in *; [|done..].
  apply andb_true_iff in Hall as [Hc Hl]. apply negb_true_iff in Hc. apply bool_decide_eq_true in Hl.
  done.
Qed.

Lemma transition_ends_witness :
  Fading.drive_run.2 = Done (Some Outcome_Completed) ∧
  ∃ outcome id, Some Outcome_Completed = Some outcome ∧
    outcome_recorded id outcome Fading.drive_run.1.1.
Proof.
  assert (Fading.drive_run.2 = Done (Some Outcome_Completed)) as Hdone by (vm_compute; reflexivity).
  split; [exact Hdone|].
  apply (@transition_ends Running.wire sample_env Fading.debug Fading.rendering _ _ 3 0 Fading.plans
    Fading.options _ _ _ _ fading_options_valid) with (2 := run_in_runs _ _ _ Hdone).
  - vm_compute. discriminate.
  - apply undisturbedb_Forall. vm_compute. reflexivity.
Defined.

Lemma transition_within_grant_witness :
  ∃ m, Dimming.message_at Fading.whole_run.1.1 58 = Some m ∧
    ∀ d, d ∈ message_devices m → ∃ g, authorised Control d g (take 58 Fading.whole_run.1.1).
Proof.
  destruct (Dimming.message_at Fading.whole_run.1.1 58) as [m'|] eqn:Hat;
    [|vm_compute in Hat; discriminate Hat].
  exists m'. split; [reflexivity|].
  destruct Fading.whole_run.2 as [r| |] eqn:Hdone; [|vm_compute in Hdone; discriminate Hdone..].
  pose proof (run_in_runs _ _ _ Hdone) as Hrun. fold Fading.whole_run in Hrun.
  revert Hat Hrun. unfold Dimming.message_at.
  destruct (Fading.whole_run.1.1 !! 58) as [[[m|] o u u'| |]|] eqn:Hi; intros Hat Hrun;
    try discriminate Hat.
  injection Hat as <-. rewrite <-(take_drop_middle _ _ _ Hi) in Hrun. intros d.
  exact (@transition_within_grant Running.wire sample_env Fading.debug Fading.rendering _ _ _ _ _ _ _ _
    _ _ _ _ _ _ d Hrun).
Defined.
