(* ===== verification/AccessAdministration.v ===== *)
(** * Access administration: [luminated/src/daemon/dispatch/access_administration.rs]

    Requests that read and replace the access policy and that manage tokens and front-end
    attestations.  Each asks for permission, then leaves a durable record of the intent, and
    only then acts; the break-glass identities may go on without the record.  The claim: no
    token, attestation or policy changes without both. *)

From S2P Require Import Prelude Model Graph Scenes Transition Policy PolicyRuntime Daemon Topology Persistence CollectionRegistry Descriptors Ownership PluginManager PluginApply TransitionRegistry Protocol Authorization Authentication PolicyFiles Tasks Authz Executor Appearance.

(** One request's view of its connection ([DispatchContext] of [dispatch/mod.rs]), besides
    what tasks share: [dc_frontend_actors] is [None] without access administration, and the
    session's identities are those of its policy. *)
Record DispatchContext := {
  dc_principal : Peer;
  dc_own : DaemonIdentity;
  dc_frontend_actors : option (list RateLimitKey);
  dc_session_principal : option Principal;
  dc_session_credential_id : option string;
  dc_prefer_shm : bool;
  dc_prefer_client_shm : bool;
  dc_default_unsupported_policy : UnsupportedPolicy
}.

Definition intent : string := "administrative mutation intent".

Section handlers.
Context `{Wire, Digest} (ctx : DispatchContext) (op : Operation).

Definition error_response (code : ErrorCode) : Response :=
  RS_Error {| oe_code := code; oe_retry_after_ms := None; oe_applied_targets := [] |}.
Definition invalid : Response := error_response Code_InvalidArgument.
Definition unavailable_response : Response := error_response Code_Unavailable.
Definition policy_error (e : PolicyError) : Response :=
  match e with
  | RevisionConflict _ _ => error_response Code_Conflict
  | PolicyRuntime.Unavailable _ => unavailable_response
  end.

(** The permission and the administration of the connection. *)
Definition administered (k : list RateLimitKey → task Response) : task Response :=
  or_return (authorize op []) (λ r, r) (λ _,
    match dc_frontend_actors ctx with
    | None => Return unavailable_response
    | Some actors => k actors
    end).
Definition registered (k : task Response) : task Response :=
  administered (λ actors,
    if bool_decide (rate_limit_key (dc_principal ctx) ∈ actors) then k
    else Return (error_response Code_PermissionDenied)).

Definition durable_intent (operation : Operation) (k : task Response) : task Response :=
  recorded ← calling (Msg_Audit (dc_principal ctx) operation true intent)
               (λ o w, (w, out_audit o));
  match recorded with
  | Ok _ => k
  | Err _ =>
      if is_intrinsic_recovery (dc_own ctx) (dc_principal ctx) then k
      else Return unavailable_response
  end.

(** A critical section of the authentication service. *)
Definition with_service {X} (f : Outside → AuthenticationService → AuthenticationService * X) : task X :=
  Step None (λ o w, let '(s, x) := f o (w_authentication w) in (set_authentication w s, x)) Return.

Definition get_policy : task Response :=
  administered (λ _,
    reading (λ _ w, RS_AccessPolicy (pd_source (rap_active (w_policy w))))).

Definition replace_policy (expected : Z) (replacement : PolicyDocumentSource) : task Response :=
  administered (λ _, durable_intent ManagePolicy (
    match PolicyDocument_new replacement with
    | Err _ => Return invalid
    | Ok document =>
        result ← Step None (λ _ w,
          let '(p, r) := RuntimeAccessPolicy_replace (w_policy w) expected document in
          (set_policy w p, r)) Return;
        Return (match result with
                | Ok document => RS_AccessPolicy (pd_source document)
                | Err e => policy_error e
                end)
    end)).

Definition create_token_request (id : string) (subject : PrincipalId) (expires_at : option Z) :
    task Response :=
  administered (λ _, durable_intent ManageAuthentication (
    result ← with_service (λ o s, create_token s id subject expires_at (out_random o) (out_token_file o));
    Return (match result with
            | Ok (metadata, secret) => RS_TokenCreated metadata secret
            | Err _ => invalid
            end))).

Definition list_tokens_request : task Response :=
  administered (λ _, reading (λ _ w, RS_Tokens (list_tokens (w_authentication w)))).

(** The token first, then, with its lock released, its sessions. *)
Definition revoke_token_request (id : string) : task Response :=
  administered (λ _, durable_intent ManageAuthentication (
    result ← with_service (λ o s, revoke_token_record s id (out_token_file o));
    match result with
    | Ok true => _ ← with_service (λ _ s, (notify_sessions s id, tt)); Return RS_Ack
    | Ok false => Return (error_response Code_NotFound)
    | Err _ => Return unavailable_response
    end)).

(** [to_string().contains("does not exist")] *)
Definition reports_missing (e : AuthError) : bool :=
  match e with
  | AE_Other (Lit message) => bool_decide (is_Some (String.index 0 "does not exist" message))
  | _ => false
  end.
Definition rotate_token_request (id : string) (expires_at : option Z) : task Response :=
  administered (λ _, durable_intent ManageAuthentication (
    result ← with_service (λ o s, rotate_token_record s id expires_at (out_random o) (out_token_file o));
    match result with
    | Ok (metadata, secret) =>
        _ ← with_service (λ _ s, (notify_sessions s id, tt)); Return (RS_TokenCreated metadata secret)
    | Err e =>
        Return (if reports_missing e then error_response Code_NotFound else unavailable_response)
    end)).

Definition create_attestation_request (name : string) (subject : PrincipalId)
    (verified_groups : list string) (expires_at : option Z) : task Response :=
  registered (durable_intent AdministerFrontend (
    result ← with_service (λ o s,
      create_attestation_with_frontend s name (dc_principal ctx) (dc_session_principal ctx)
        (dc_session_credential_id ctx) subject verified_groups expires_at (out_now o) (out_now o)
        (out_random o));
    Return (match result with
            | Ok (metadata, secret) => RS_AttestationCreated metadata secret
            | Err (AE_Capacity _) => error_response Code_RateLimited
            | Err (AE_Other _) => invalid
            end))).

Definition list_attestations_request : task Response :=
  registered (
    attestations ← with_service (λ o s, list_attestations s (dc_principal ctx) (out_now o));
    Return (RS_Attestations attestations)).

Definition revoke_attestation_request (name : string) : task Response :=
  registered (durable_intent AdministerFrontend (
    revoked ← with_service (λ _ s, revoke_attestation s name (dc_principal ctx));
    Return (if revoked : bool then RS_Ack else error_response Code_NotFound))).

(** ** Permission *)

Lemma wp_administered k past :
  (∀ actors, safe op [] True (k actors)) →
  wp (guarded op) (administered k) past (λ _ _, True).
Proof.
  intros Hk. apply wp_authorized. intros g tr Hgr _. destruct (dc_frontend_actors ctx); [|done].
  by apply wp_granted.
Qed.
Lemma wp_registered k past :
  safe op [] True k → wp (guarded op) (registered k) past (λ _ _, True).
Proof. intros Hk. apply wp_administered. intros actors. case_bool_decide; auto with safe. Qed.

Lemma safe_durable_intent operation k :
  safe op [] True k → safe op [] True (durable_intent operation k).
Proof.
  intros Hk. apply safe_bind; [apply safe_calling; [by left|apply list_subseteq_nil]|].
  intros [[]|e]; [done|]. case_match; auto with safe.
Qed.
Lemma safe_with_service {X} (f : Outside → AuthenticationService → AuthenticationService * X) :
  safe op [] True (with_service f).
Proof. apply safe_step; [right; right; by left|apply list_subseteq_nil]. Qed.
#[local] Hint Resolve safe_durable_intent safe_with_service : safe.

Lemma wp_get_policy past : wp (guarded op) get_policy past (λ _ _, True).
Proof. apply wp_administered. auto with safe. Qed.
Lemma wp_replace_policy expected replacement past :
  wp (guarded op) (replace_policy expected replacement) past (λ _ _, True).
Proof.
  apply wp_administered. intros _. apply safe_durable_intent. case_match; [|auto with safe].
  apply safe_bind; [|auto with safe]. apply safe_step; [right; right; by left|apply list_subseteq_nil].
Qed.
Lemma wp_create_token id subject expires_at past :
  wp (guarded op) (create_token_request id subject expires_at) past (λ _ _, True).
Proof. apply wp_administered. auto with safe. Qed.
Lemma wp_list_tokens past : wp (guarded op) list_tokens_request past (λ _ _, True).
Proof. apply wp_administered. auto with safe. Qed.
Lemma wp_revoke_token id past : wp (guarded op) (revoke_token_request id) past (λ _ _, True).
Proof.
  apply wp_administered. intros _. apply safe_durable_intent, safe_bind; [auto with safe|].
  intros [[]|]; auto with safe.
Qed.
Lemma wp_rotate_token id expires_at past :
  wp (guarded op) (rotate_token_request id expires_at) past (λ _ _, True).
Proof.
  apply wp_administered. intros _. apply safe_durable_intent, safe_bind; [auto with safe|].
  intros [[]|]; auto with safe.
Qed.
Lemma wp_create_attestation name subject groups expires_at past :
  wp (guarded op) (create_attestation_request name subject groups expires_at) past (λ _ _, True).
Proof. apply wp_registered. auto with safe. Qed.
Lemma wp_list_attestations past : wp (guarded op) list_attestations_request past (λ _ _, True).
Proof. apply wp_registered. auto with safe. Qed.
Lemma wp_revoke_attestation name past :
  wp (guarded op) (revoke_attestation_request name) past (λ _ _, True).
Proof. apply wp_registered. auto with safe. Qed.

(** The category's arms of [dispatch_request]. *)
Definition access_administration (request : Request) : option (task Response) :=
  match request with
  | GetAccessPolicy => Some get_policy
  | ReplaceAccessPolicy expected replacement => Some (replace_policy expected replacement)
  | CreateToken id subject expires_at => Some (create_token_request id subject expires_at)
  | ListTokens => Some list_tokens_request
  | RotateToken id expires_at => Some (rotate_token_request id expires_at)
  | RevokeToken id => Some (revoke_token_request id)
  | CreateAttestation name subject groups expires_at =>
      Some (create_attestation_request name subject groups expires_at)
  | ListAttestations => Some list_attestations_request
  | RevokeAttestation name => Some (revoke_attestation_request name)
  | _ => None
  end.

Lemma wp_access_administration request t past :
  access_administration request = Some t → wp (guarded op) t past (λ _ _, True).
Proof.
  destruct request; intros [= <-]; eauto using wp_get_policy, wp_replace_policy, wp_create_token,
    wp_list_tokens, wp_rotate_token, wp_revoke_token, wp_create_attestation, wp_list_attestations,
    wp_revoke_attestation.
Qed.

(** ** Records *)

(** A step that changes tokens or the policy, or that makes an attestation. *)
Definition alters (w w' : World) : Prop :=
  sv_tokens (w_authentication w') ≠ sv_tokens (w_authentication w) ∨
  w_policy w' ≠ w_policy w ∨
  ¬ sv_attestations (w_authentication w') ⊆ sv_attestations (w_authentication w).

(** The intent was recorded, or the caller is one of those who need no record. *)
Definition recorded (past : list event) : Prop :=
  ∃ operation o u, Stepped (Some (Msg_Audit (dc_principal ctx) operation true intent)) o u u ∈ past ∧
    (out_audit o = Ok tt ∨ is_intrinsic_recovery (dc_own ctx) (dc_principal ctx) = true).
Definition audited (past : list event) (e : event) : Prop :=
  ∀ m o w w', e = Stepped m o w w' → alters w w' → granted op past ∧ recorded past.

Lemma not_alters w : ¬ alters w w.
Proof. intros [H1|[H1|H1]]; by apply H1. Qed.

Lemma audited_quiet past m o w : audited past (Stepped m o w w).
Proof. intros m' o' v v' [= -> -> -> ->] Ha. by apply not_alters in Ha. Qed.

Lemma recorded_mono past past' : past `prefix_of` past' → recorded past → recorded past'.
Proof. intros [l ->] (op' & o & u & Hin & ?). exists op', o, u. split; [|done]. set_solver. Qed.

Lemma wp_durable_intent operation k past :
  granted op past → wp audited (durable_intent operation k) past (λ _ _, True).
Proof.
  intros Hgr. apply wp_bind. intros o w w' x [= <- <-]. split; [apply audited_quiet|]. apply wp_return.
  assert (∀ tr : list event, past ++ [Stepped (Some (Msg_Audit (dc_principal ctx) operation true intent)) o w w]
      `prefix_of` tr →
    out_audit o = Ok tt ∨ is_intrinsic_recovery (dc_own ctx) (dc_principal ctx) = true →
    granted op tr ∧ recorded tr) as Hrec.
  { intros tr Hp Hor. split.
    - eapply granted_mono; [|exact Hgr]. etrans; [|exact Hp]. by apply prefix_app_r.
    - eapply recorded_mono; [exact Hp|]. exists operation, o, w. split; [|done].
      rewrite elem_of_app. right. left. }
  destruct (out_audit o) as [[]|e].
  - apply wp_free. intros past' e Hp m o' v v' _ _. apply Hrec; auto.
  - destruct (is_intrinsic_recovery _ _); [|done].
    apply wp_free. intros past' e' Hp m o' v v' _ _. apply Hrec; auto.
Qed.

Lemma wp_administered_audited k past :
  (∀ actors tr, granted op tr → wp audited (k actors) tr (λ _ _, True)) →
  wp audited (administered k) past (λ _ _, True).
Proof.
  intros Hk. apply wp_or_return, wp_bind. intros o w w' [resources g] [= <- <- <-].
  split; [apply audited_quiet|]. apply wp_return, wp_bind. intros d. split; [by intros ? ? ? ? [=]|].
  apply wp_return. destruct d as [|reason]; [|done]. apply wp_bind. intros o2 w2 w2' current [= <- <-].
  split; [apply audited_quiet|]. do 2 apply wp_return. case_match; [|done].
  destruct (dc_frontend_actors ctx) as [actors|]; [|done]. apply Hk.
  exists (resolve_devices w []). rewrite !elem_of_app. left; right. left.
Qed.

Lemma wp_registered_audited k past :
  (∀ tr, granted op tr → wp audited k tr (λ _ _, True)) →
  wp audited (registered k) past (λ _ _, True).
Proof.
  intros Hk. apply wp_administered_audited. intros actors tr Hgr. case_bool_decide; [auto|done].
Qed.

Lemma wp_audited_reading {X} (f : Outside → World → X) past :
  wp audited (reading f) past (λ _ _, True).
Proof. intros o w w' x [= <- <-]. split; [apply audited_quiet|done]. Qed.

Lemma wp_access_administration_audited request t :
  access_administration request = Some t → wp audited t [] (λ _ _, True).
Proof.
  destruct request; intros [= <-];
    try (apply wp_administered_audited; intros actors tr Hgr;
         by first [apply wp_audited_reading | apply wp_durable_intent]);
    try (apply wp_registered_audited; intros tr Hgr; by apply wp_durable_intent).
  apply wp_registered_audited. intros tr _. apply wp_bind. intros o w w' x Hx.
  split; [|by apply wp_return]. intros m o' v v' He Ha. injection He as _ _ <- <-. exfalso.
  injection Hx as <- _. destruct w as [a b c d e s p]. destruct Ha as [Ha|[Ha|Ha]]; cbn in Ha; [|done|].
  - apply Ha. by destruct s.
  - apply Ha. apply (drops_list_attestations s (dc_principal ctx) (out_now o)).
Qed.
End handlers.

(** ** Claims *)

(** C18: Access changes only with permission and on record: in every run of an access
    administration request, a step that changes a token, the policy or makes an attestation
    comes after the policy allowed the operation and after the intent was written to the
    audit sink, unless the caller is one of the break-glass identities. *)
Theorem administration_audited `{Wire, Digest} ctx op request t others decides w before m o u u' after w' r :
  access_administration ctx op request = Some t →
  runs others decides w t (before ++ Stepped m o u u' :: after) w' r → alters u u' →
  granted op before ∧ recorded ctx before.
Proof.
  intros Ht Hrun Ha.
  destruct (wp_sound _ others decides w t _ w' r [] _ Hrun
    (wp_access_administration_audited ctx op request t Ht)) as [Hall _].
  exact (Hall before _ after eq_refl m o u u' eq_refl Ha).
Qed.

(** A token is made. *)
Module Administering.
Definition context : DispatchContext := {|
  dc_principal := Desk.actor; dc_own := Own_Uid 990; dc_frontend_actors := Some [];
  dc_session_principal := None; dc_session_credential_id := None; dc_prefer_shm := true;
  dc_prefer_client_shm := true; dc_default_unsupported_policy := Unsupported_Skip |}.
Definition request : @task Running.wire _ :=
  @create_token_request Running.wire Desk.digest context ManageAuthentication "desk" Desk.operator None.
Definition run := Running.run request.
Definition altered_at (tr : list (@event Running.wire)) (i : nat) : bool :=
  match tr !! i with
  | Some (Stepped _ _ u u') =>
      negb (bool_decide (sv_tokens (w_authentication u') !! "desk"%string = None)) &&
      bool_decide (sv_tokens (w_authentication u) !! "desk"%string = None)
  | _ => false
  end.
End Administering.

Lemma administration_audited_witness :
  granted ManageAuthentication (take 4 Administering.run.1.1) ∧
  recorded Administering.context (take 4 Administering.run.1.1).
Proof.
  destruct Administering.run.2 as [r| |] eqn:Hdone; try (vm_compute in Hdone; discriminate Hdone).
  pose proof (run_in_runs _ _ _ Hdone) as Hrun.
  change (runs (λ _ _, False) (λ _ _ d, d = Allow) Running.world Administering.request
    Administering.run.1.1 Administering.run.1.2 (Done r)) in Hrun.
  assert (Administering.altered_at Administering.run.1.1 4 = true) as Hat by (vm_compute; reflexivity).
  revert Hat Hrun. unfold Administering.altered_at.
  destruct (Administering.run.1.1 !! 4) as [[m o u u'| |]|] eqn:Hi; intros Hat Hrun; try discriminate Hat.
  rewrite <-(take_drop_middle _ _ _ Hi) in Hrun.
  apply (@administration_audited Running.wire Desk.digest Administering.context ManageAuthentication
    (CreateToken "desk" Desk.operator None) Administering.request _ _ _ _ _ _ _ _ _ _ _ eq_refl Hrun).
  left. intros Heq. rewrite Heq in Hat. destruct (bool_decide _); discriminate Hat.
Defined.
