(* ===== verification/Connection.v ===== *)
(** * Connections: [luminated/src/daemon/connection.rs]

    What a connection goes through: the handshake, the authentication, the policy that it
    leaves the connection with, the loop that answers its requests, and the release of the
    streams it leaves behind; and the event subscription, with the filter that each event
    passes.  What the client sends is the input of the tasks; the branches of a [select!]
    that are not its own, the revocation of the session, its expiry and the idle timeout,
    are inputs too, which close the connection only when their condition holds. *)

From S2P Require Import Prelude Model Graph Scenes Transition Policy PolicyRuntime Daemon Topology Persistence CollectionRegistry FrameStreams Descriptors Ownership PluginManager PluginApply TransitionRegistry Protocol Authorization Authentication PolicyFiles Tasks Authz Executor Appearance Inspection SceneHandlers Streaming TransitionTasks AccessAdministration Dispatch.

(** ** The policy of a connection *)

(** [AuditedPolicy] of [audit.rs]: the record is made on the side, and a failure to make it
    is only logged. *)
Definition AuditedPolicy (inner : AuthorizationPolicy) : AuthorizationPolicy := {|
  ap_authorize principal operation resources := ap_authorize inner principal operation resources;
  ap_session_principal := ap_session_principal inner;
  ap_session_credential_id := ap_session_credential_id inner;
  ap_frontend_principal := ap_frontend_principal inner;
  ap_frontend_credential_id := ap_frontend_credential_id inner;
  ap_name := ap_name inner
|}.

Definition authenticated_policy (access access' : Access) (subject : Principal)
    (frontend_actor : option Principal) (credential_id frontend_credential_id : option string) :
    AuthorizationPolicy :=
  let policy := with_credential_id (AuthenticatedSubject_new subject) credential_id in
  AuditedPolicy (AuthenticatedSubjectPolicy access access'
    (match frontend_actor with
     | Some actor => with_frontend_actor policy actor frontend_credential_id
     | None => policy
     end)).

(** What a connection knows of its session, and copies into the tickets it issues. *)
Record EventTicketContext := {
  etc_authentication_expiry : option Z;
  etc_session_scope : option SessionScope;
  etc_subject : option Principal;
  etc_frontend_actor : option Principal;
  etc_credential_id : option string;
  etc_frontend_credential_id : option string
}.

(** The policy after authentication: that of the listener for a peer, the managed one for a
    subject, and the scope the client asked for on top. *)
Definition session_policy (base : AuthorizationPolicy) (access access' : Access)
    (c : EventTicketContext) : AuthorizationPolicy :=
  let policy :=
    match etc_subject c with
    | Some subject =>
        authenticated_policy access access' subject (etc_frontend_actor c) (etc_credential_id c)
          (etc_frontend_credential_id c)
    | None => base
    end in
  match etc_session_scope c with
  | Some scope => ScopedPolicy policy scope
  | None => policy
  end.

(** [ConnectionDependencies], besides what tasks share. *)
Record ConnectionDependencies := {
  cd_principal : Peer;
  cd_own : DaemonIdentity;
  cd_policy : AuthorizationPolicy;
  cd_frontend_actors : option (list RateLimitKey)
}.

(** The configuration read before a request. *)
Record Preferences := {
  pf_prefer_shm : bool;
  pf_prefer_client_shm : bool;
  pf_default_unsupported_policy : UnsupportedPolicy
}.

Definition DispatchContext_new (d : ConnectionDependencies) (c : EventTicketContext)
    (config : Preferences) : DispatchContext := {|
  dc_principal := cd_principal d; dc_own := cd_own d; dc_frontend_actors := cd_frontend_actors d;
  dc_session_principal :=
    match etc_subject c with Some s => Some s | None => ap_session_principal (cd_policy d) end;
  dc_session_credential_id :=
    match etc_subject c with
    | Some _ => etc_credential_id c
    | None => ap_session_credential_id (cd_policy d)
    end;
  dc_prefer_shm := pf_prefer_shm config; dc_prefer_client_shm := pf_prefer_client_shm config;
  dc_default_unsupported_policy := pf_default_unsupported_policy config
|}.

(** The identities in the context are those of the policy. *)
Lemma context_identities d access access' c config :
  dc_session_principal (DispatchContext_new d c config) =
    ap_session_principal (session_policy (cd_policy d) access access' c) ∧
  dc_session_credential_id (DispatchContext_new d c config) =
    ap_session_credential_id (session_policy (cd_policy d) access access' c).
Proof. destruct c as [? [scope|] [subject|] [actor|] ? ?]; done. Qed.

(** ** Opening *)

Section connections.
Context `{Wire, Env, DebugFormat, Rendering, Digest} (managing : Request → task Response).

(** Why a connection is closed before it serves anything. *)
Inductive Closed :=
| Closed_Failed
| Closed_Incompatible
| Closed_Rejected (reason : Text).

(** [authenticate_with_frontend], in its critical sections; [answer] is the provider's. *)
Definition authenticating (principal : Peer) (request : AuthenticationRequest)
    (answer : auth (option ProviderIdentity)) : task (auth Session) :=
  match areq_authentication request with
  | Authentication_Peer => Return (authenticate_peer principal)
  | Authentication_Bearer credential =>
      session ← with_service (λ o s, authenticate_bearer s credential (out_now o));
      Return (Ok session)
  | Authentication_Attestation name credential =>
      taken ← with_service (λ o s, take_attestation s name credential principal (out_now o));
      match taken with
      | None => Return (Ok authentication_rejected)
      | Some record => reading (λ _ w, Ok (attested_session (w_authentication w) name record))
      end
  | Authentication_External provider credential =>
      acquired ← with_service (λ _ s,
        match sv_providers s !! provider with
        | None => (s, inl (rejection "authentication method is not configured"))
        | Some _ =>
            match acquire_session s provider with
            | None => (s, inl (rejection "authentication provider session capacity reached"))
            | Some (s, p) => (s, inr p)
            end
        end);
      match acquired with
      | inl session => Return (Ok session)
      | inr p => with_service (λ _ s, external_session s provider p answer)
      end
  end.

(** The principal of a session that is not the peer's own. *)
Definition session_subject (session : SessionMetadata) : validated (option Principal) :=
  match sm_source session with
  | Source_Peer => Ok None
  | _ =>
      Some <$> Principal_new (PrincipalId_authority (sm_subject session))
                 (PrincipalId_subject (sm_subject session)) (sm_verified_groups session)
  end.

Definition session_context (scope : option SessionScope) (session : SessionMetadata)
    (subject frontend_actor : option Principal) (frontend_credential_id : option string) :
    EventTicketContext := {|
  etc_authentication_expiry := sm_expires_at session; etc_session_scope := scope;
  etc_subject := subject; etc_frontend_actor := frontend_actor;
  etc_credential_id := subject ≫= λ _, sm_credential_id session;
  etc_frontend_credential_id := frontend_credential_id
|}.

(** The first half of [handle_connection]; [None] is a message that did not come in time. *)
Definition open_connection (d : ConnectionDependencies) (hello : option Z)
    (request : option AuthenticationRequest) (answer : auth (option ProviderIdentity)) :
    task (result Closed (EventTicketContext * option Receiver)) :=
  match hello with
  | None => Return (Err Closed_Failed)
  | Some version =>
  if negb (version =? PROTOCOL_ABI_VERSION)%Z then Return (Err Closed_Incompatible)
  else
  match request with
  | None => Return (Err Closed_Failed)
  | Some request =>
  session ← authenticating (cd_principal d) request answer;
  Return (match session with
          | Err _ => Err Closed_Failed
          | Ok session =>
          match ss_response session with
          | Rejected reason => Err (Closed_Rejected reason)
          | Authenticated metadata =>
          match session_subject metadata with
          | Err _ => Err Closed_Failed
          | Ok subject =>
              if bool_decide (is_Some subject) && bool_decide (cd_frontend_actors d = None)
              then Err Closed_Failed
              else Ok (session_context (areq_scope request) metadata subject
                         (ss_frontend_actor session) (ss_frontend_credential_id session),
                       ss_revocation session)
          end
          end
          end)
  end
  end.

(** ** Serving *)

Definition issue_event_ticket (d : ConnectionDependencies) (c : EventTicketContext)
    (revocation : option Receiver) : task Response :=
  result ← with_service (λ o s,
    mint_with_frontend s (cd_principal d) (etc_session_scope c) (etc_subject c)
      (etc_frontend_actor c) (etc_credential_id c) (etc_frontend_credential_id c)
      (etc_authentication_expiry c) (resubscribe s <$> revocation) (out_instant o)
      (replicate MAX_TICKET_GENERATION_ATTEMPTS (out_random o)));
  Return (match result with
          | Ok ticket => RS_EventTicket ticket
          | Err (AE_Capacity _) => error_response Code_RateLimited
          | Err (AE_Other _) => error_response Code_Unavailable
          end).

(** What the loop's [select!] yields: a request, with the configuration at that time and
    whether its response could be sent, or one of the other branches. *)
Inductive Received :=
| Recv_Request (id : Z) (request : Request) (config : Preferences) (delivered : bool)
| Recv_Revocation
| Recv_Expiry
| Recv_Idle
| Recv_Failed.

Definition answer_request (d : ConnectionDependencies) (c : EventTicketContext)
    (revocation : option Receiver) (config : Preferences) (limiter : PingLimiter)
    (request : Request) : task (PingLimiter * Response) :=
  match request with
  | Ping => reading (λ o _, PingLimiter_response limiter (out_instant o))
  | IssueEventTicket => response ← issue_event_ticket d c revocation; Return (limiter, response)
  | _ =>
      response ← dispatch_request managing (DispatchContext_new d c config) request;
      Return (limiter, response)
  end.

(** [wait_for_revocation] and [wait_for_expiry] are done. *)
Definition session_over (revocation : option Receiver) (o : Outside) (w : World) : bool :=
  from_option (notified (w_authentication w)) false revocation.
Definition session_expired (c : EventTicketContext) (o : Outside) : bool :=
  from_option (λ expiry, expiry <=? out_now o)%Z false (etc_authentication_expiry c).

(** The responses sent; the end of the input is the end of the stream. *)
Fixpoint connection_request_loop (d : ConnectionDependencies) (c : EventTicketContext)
    (revocation : option Receiver) (inputs : list Received) (limiter : PingLimiter) :
    task (list (Z * Response)) :=
  match inputs with
  | [] => Return []
  | Recv_Request id request config delivered :: inputs =>
      '(limiter, response) ← answer_request d c revocation config limiter request;
      if delivered : bool then
        rest ← connection_request_loop d c revocation inputs limiter;
        Return ((id, response) :: rest)
      else Return []
  | Recv_Revocation :: inputs =>
      over ← reading (session_over revocation);
      if over : bool then Return [] else connection_request_loop d c revocation inputs limiter
  | Recv_Expiry :: inputs =>
      over ← reading (λ o _, session_expired c o);
      if over : bool then Return [] else connection_request_loop d c revocation inputs limiter
  | (Recv_Idle | Recv_Failed) :: _ => Return []
  end.

(** ** Closing *)

(** The streams that the connection leaves are ended in the state, in both registries of the
    plugin manager, and announced. *)
Definition release_streams : task unit :=
  abandoned ← Step None (λ _ w, (set_owned_streams w [], w_owned_streams w)) Return;
  if bool_decide ((abandoned : list TargetId) = []) then Return tt
  else
    _ ← locked (λ _ st, (end_all_frame_streams st abandoned, tt));
    ended ← Step None (λ _ w,
      let pm := end_all_shm_streams (w_manager w) abandoned in
      let '(ended, pm) := end_all_shm_client_streams pm abandoned in
      (set_manager w pm, ended)) Return;
    _ ← publish (StateChanged (unique_devices abandoned));
    _ ← task_map (λ '(target, generation), publish (ShmStreamEnded target generation)) ended;
    Return tt.

Definition handle_connection (d : ConnectionDependencies) (hello : option Z)
    (request : option AuthenticationRequest) (answer : auth (option ProviderIdentity))
    (inputs : list Received) : task (result Closed (list (Z * Response))) :=
  opened ← open_connection d hello request answer;
  match opened with
  | Err reason => Return (Err reason)
  | Ok (c, revocation) =>
      limiter ← reading (λ o _, PingLimiter_new (out_instant o));
      responses ← connection_request_loop d c revocation inputs limiter;
      _ ← release_streams;
      Return (Ok responses)
  end.

(** ** Events *)

(** An event with the topology generation it was published in. *)
Record PublishedEvent := { pe_event : Event; pe_topology_generation : Z }.

Definition when_allowed (operation : Operation) (devices : list DeviceId) (event : Event) :
    task (option Event) :=
  r ← authorize operation devices; Return (if is_ok r then Some event else None).

Definition filter_device_event (devices : list DeviceId) (make_event : list DeviceId → Event) :
    task (option Event) :=
  if bool_decide (devices = []) then when_allowed Observe [] (make_event devices)
  else
    r ← filter_devices Observe devices;
    match r with
    | Err _ => Return None
    | Ok (visible, generation) =>
        current ← topology_is_current generation;
        Return (if (current : bool) && negb (bool_decide (visible = []))
                then Some (make_event visible) else None)
    end.

Definition filter_event (published : PublishedEvent) : task (option Event) :=
  let generation := pe_topology_generation published in
  current ← topology_is_current generation;
  if negb current then Return (Some ResyncRequired)
  else
    filtered ←
      match pe_event published with
      | ResyncRequired => Return (Some ResyncRequired)
      | TopologyChanged devices => filter_device_event devices TopologyChanged
      | StateChanged devices => filter_device_event devices StateChanged
      | ConfigurationChanged changes => when_allowed ManagePlugins [] (ConfigurationChanged changes)
      | ScenesChanged => when_allowed Observe [] ScenesChanged
      | TransitionsChanged transitions => when_allowed Control [] (TransitionsChanged transitions)
      | ShmStreamEnded target generation =>
          when_allowed Control [TargetId_device_id target] (ShmStreamEnded target generation)
      end;
    current ← topology_is_current generation;
    Return (if current : bool then filtered else Some (TopologyChanged [])).

(** The session of a subscription, from its ticket. *)
Definition ticket_context (t : ConsumedTicket) : EventTicketContext := {|
  etc_authentication_expiry := ct_authentication_expiry t; etc_session_scope := ct_scope t;
  etc_subject := ct_subject t; etc_frontend_actor := ct_frontend_actor t;
  etc_credential_id := ct_credential_id t; etc_frontend_credential_id := ct_frontend_credential_id t
|}.

(** What the subscription's [select!] yields. *)
Inductive Subscribed :=
| Sub_Event (published : PublishedEvent) (delivered : bool)
| Sub_Lagged (delivered : bool)
| Sub_Closed
| Sub_Revocation
| Sub_Expiry.

(** The events sent. *)
Fixpoint event_loop (c : EventTicketContext) (revocation : option Receiver)
    (inputs : list Subscribed) : task (list Event) :=
  let deliver published delivered inputs :=
    filtered ← filter_event published;
    match filtered with
    | None => event_loop c revocation inputs
    | Some event =>
        if delivered : bool then
          rest ← event_loop c revocation inputs; Return (event :: rest)
        else Return []
    end in
  match inputs with
  | [] | Sub_Closed :: _ => Return []
  | Sub_Event published delivered :: inputs => deliver published delivered inputs
  | Sub_Lagged delivered :: inputs =>
      generation ← reading (λ _ w, topology_generation w);
      deliver {| pe_event := ResyncRequired; pe_topology_generation := generation |} delivered inputs
  | Sub_Revocation :: inputs =>
      over ← reading (session_over revocation);
      if over : bool then Return [] else event_loop c revocation inputs
  | Sub_Expiry :: inputs =>
      over ← reading (λ o _, session_expired c o);
      if over : bool then Return [] else event_loop c revocation inputs
  end.

Definition EVENT_PROTOCOL_VERSION : Z := 8.

(** [handle_event_subscription]: the ticket is consumed before the version is compared. *)
Definition handle_event_subscription (d : ConnectionDependencies) (hello : option (Z * EventTicket))
    (inputs : list Subscribed) : task (result Closed (list Event)) :=
  match hello with
  | None => Return (Err Closed_Failed)
  | Some (version, ticket) =>
      taken ← with_service (λ o s, take_ticket s ticket (cd_principal d) (out_instant o));
      match taken with
      | None => Return (Err Closed_Failed)
      | Some pending =>
          revocation ← with_service (λ o s, (s, ticket_revocation s pending (out_now o)));
          match revocation with
          | None => Return (Err Closed_Failed)
          | Some revocation =>
              let c := ticket_context (consumed pending revocation) in
              if bool_decide (is_Some (etc_subject c)) && bool_decide (cd_frontend_actors d = None)
              then Return (Err Closed_Failed)
              else if negb (version =? EVENT_PROTOCOL_VERSION)%Z
              then Return (Err Closed_Incompatible)
              else events ← event_loop c revocation inputs; Return (Ok events)
          end
      end
  end.

(** ** What events show *)

Notation WP := (wp (λ _ _, True)).

(** The permissions that stand behind an event, in the trace [tr] of filtering it: to
    observe the devices that it names, to control the device whose stream ended, or for the
    kind of the event; a resynchronisation and a full refresh of the topology say nothing of
    any resource. *)
Definition event_allowed (e : Event) (tr : list event) : Prop :=
  match e with
  | ResyncRequired | TopologyChanged [] => True
  | TopologyChanged devices => ∀ d, d ∈ devices → ∃ g, authorised Observe d g tr
  | StateChanged devices => granted Observe tr ∧ ∀ d, d ∈ devices → ∃ g, authorised Observe d g tr
  | ConfigurationChanged _ => granted ManagePlugins tr
  | ScenesChanged => granted Observe tr
  | TransitionsChanged _ => granted Control tr
  | ShmStreamEnded target _ => ∃ g, authorised Control (TargetId_device_id target) g tr
  end.

(** Each of the events was filtered anew, one after the other. *)
Fixpoint each_allowed (events : list Event) (tr : list event) : Prop :=
  match events with
  | [] => True
  | e :: events =>
      ∃ before filtering after, tr = before ++ filtering ++ after ∧
        event_allowed e filtering ∧ each_allowed events after
  end.

Lemma each_allowed_later events before tr : each_allowed events tr → each_allowed events (before ++ tr).
Proof.
  destruct events as [|e events]; [done|]. intros (b & f & a & -> & ?).
  exists (before ++ b), f, a. by rewrite <-app_assoc.
Qed.
(** A postcondition on what a task adds to the trace. *)
Lemma wp_added {A} (t : task A) past Q :
  WP t [] Q → WP t past (λ a tr, ∃ l, tr = past ++ l ∧ Q a l).
Proof.
  assert (∀ l, WP t l Q → WP t (past ++ l) (λ a tr, ∃ l', tr = past ++ l' ∧ Q a l')) as H';
    [|specialize (H' []); by rewrite app_nil_r in H'].
  induction t as [a| |X m f k IH|op rs k IH|e k IH|ready k IH]; intros l; simpl.
  - intros HQ. by exists l.
  - done.
  - intros Ht o w w' x Hf. split; [done|]. rewrite <-app_assoc. apply IH. by apply (Ht o w w' x).
  - intros Ht d. split; [done|]. rewrite <-app_assoc. apply IH. by apply (Ht d).
  - intros [_ Ht]. split; [done|]. rewrite <-app_assoc. by apply IH.
  - apply IH.
Qed.

Lemma event_allowed_mono e tr tr' : tr `prefix_of` tr' → event_allowed e tr → event_allowed e tr'.
Proof.
  intros Hp. assert (∀ op d, (∃ g, authorised op d g tr) → ∃ g, authorised op d g tr') as Ha.
  { intros op d [g Hg]. exists g. by eapply authorised_mono. }
  destruct e as [|[|d ds]|ds| | | |]; cbn; try done; eauto using granted_mono.
  intros [Hg Hd]. split; [by eapply granted_mono|]. intros d Hin. by apply Ha, Hd.
Qed.

Lemma wp_asking op (t : task (option Event)) past Q :
  wp (guarded op) t past Q → WP t past Q.
Proof. by apply wp_ok_mono. Qed.

Lemma wp_when_allowed op devices event past :
  WP (when_allowed op devices event) past (λ r tr, ∀ e, r = Some e →
    e = event ∧ granted op tr ∧ ∀ d, d ∈ devices → ∃ g, authorised op d g tr).
Proof.
  apply (wp_asking op), wp_bind. eapply wp_mono; [apply wp_authorize|].
  intros [g|response] tr _ Hr; apply wp_return; [|done]. intros e [= <-].
  destruct (Hr g eq_refl) as [Hg Hd]. split_and!; [done..|]. intros d Hin. exists g. auto.
Qed.

Lemma wp_filter_device_event devices make_event past :
  WP (filter_device_event devices make_event) past (λ r tr, ∀ e, r = Some e →
    ∃ shown, e = make_event shown ∧ granted Observe tr ∧
      ∀ d, d ∈ shown → d ∈ devices ∧ ∃ g, authorised Observe d g tr).
Proof.
  unfold filter_device_event. case_bool_decide as Hd.
  { eapply wp_mono; [apply wp_when_allowed|]. intros r tr _ Hr e He.
    destruct (Hr e He) as (-> & Hg & Ha). exists devices. split_and!; [done..|]. subst. set_solver. }
  apply (wp_asking Observe), wp_bind. eapply wp_mono; [apply wp_filter_devices|].
  intros [[visible g]|response] tr _ [_ Hr]; [|by apply wp_return].
  destruct (Hr visible g eq_refl) as (o & w & ds & o' & w' & -> & _ & Hl & -> & ->).
  apply wp_bind, wp_reading. intros o2 w2. apply wp_return. intros e He.
  destruct (_ && _) eqn:Hb; [|done]. injection He as <-.
  apply andb_true_iff in Hb as [_ Hb]. apply negb_true_iff, bool_decide_eq_false in Hb.
  set (visible := (filter _ _).*1) in *. exists visible. split; [done|].
  assert (∀ d, d ∈ visible → d ∈ devices ∧ ∃ g, authorised Observe d g (((past ++ Stepped None o w w ::
    zip_with (λ d decision, Asked Observe (resolve_devices w [d]) decision) devices ds ++
    [Stepped None o' w' w'])) ++ [Stepped None o2 w2 w2])) as Hvis.
  { intros d Hin. split.
    - subst visible. apply list_elem_of_fmap in Hin as ([d' ?] & -> & [_ Hz]%list_elem_of_filter).
      by apply elem_of_zip_l in Hz.
    - exists (topology_generation w). eapply authorised_mono; [apply prefix_app_r; reflexivity|].
      by apply visible_authorised. }
  split; [|done]. destruct visible as [|d rest] eqn:Hv; [done|].
  destruct (Hvis d) as (_ & g & Hg); [left|]. by eapply authorised_granted.
Qed.

Lemma wp_filter_event published past :
  WP (filter_event published) past (λ r tr, ∀ e, r = Some e → event_allowed e tr).
Proof.
  apply wp_bind, (wp_ok_mono (guarded Observe)); [done|]. apply wp_reading. intros o w.
  destruct (negb _); [apply wp_return; by intros e [= <-]|].
  apply wp_bind. eapply (wp_mono _ _ _ (λ r tr, ∀ e, r = Some e → event_allowed e tr)).
  - destruct (pe_event published) as [|devices|devices| | | |];
      try (eapply wp_mono; [apply wp_when_allowed|]; intros r tr _ Hr e He;
           destruct (Hr e He) as (-> & Hg & Ha); cbn; auto; fail).
    + apply wp_return. by intros e [= <-].
    + eapply wp_mono; [apply wp_filter_device_event|]. intros r tr _ Hr e He.
      destruct (Hr e He) as ([|d ds] & -> & Hg & Hd); [done|]. intros x Hx. by apply Hd.
    + eapply wp_mono; [apply wp_filter_device_event|]. intros r tr _ Hr e He.
      destruct (Hr e He) as (shown & -> & Hg & Hd). split; [done|]. intros x Hx. by apply Hd.
    + eapply wp_mono; [apply wp_when_allowed|]. intros r tr _ Hr e He.
      destruct (Hr e He) as (-> & Hg & Ha). apply Ha. left.
  - intros filtered tr _ Hf. apply wp_bind, (wp_ok_mono (guarded Observe)); [done|].
    apply wp_reading. intros o2 w2. apply wp_return. intros e. destruct (_ =? _)%Z.
    + intros He. eapply event_allowed_mono; [by apply prefix_app_r|]. by apply Hf.
    + by intros [= <-].
Qed.

Lemma wp_looking {X} (f : Outside → World → X) past Q :
  (∀ o w, Q (f o w) (past ++ [Stepped None o w w])) → WP (reading f) past Q.
Proof. intros HQ. by eapply (wp_ok_mono (guarded Observe)), wp_reading. Qed.

Lemma wp_event_loop c revocation inputs past :
  WP (event_loop c revocation inputs) past (λ events tr, ∃ l, tr = past ++ l ∧ each_allowed events l).
Proof.
  apply wp_added. induction inputs as [|input inputs IH]; [done|].
  assert (∀ past, WP (event_loop c revocation inputs) past (λ events tr,
    ∃ l, tr = past ++ l ∧ each_allowed events l)) as Hrest by (intros past'; by apply wp_added).
  assert (∀ published delivered past, WP (filtered ← filter_event published;
    match filtered with
    | None => event_loop c revocation inputs
    | Some event =>
        if delivered : bool then
          rest ← event_loop c revocation inputs; Return (event :: rest)
        else Return []
    end) past (λ events tr, each_allowed events tr)) as Hdeliver.
  { intros published delivered past'. apply wp_bind. eapply wp_mono.
    { apply (wp_added _ past'), (wp_filter_event published []). }
    intros [event|] ? _ (l & -> & Hev).
    2:{ eapply wp_mono; [apply Hrest|]. intros events ? _ (l' & -> & He). by apply each_allowed_later. }
    destruct delivered; [|by apply wp_return].
    apply wp_bind. eapply wp_mono; [apply Hrest|]. intros rest ? _ (l' & -> & Hr). apply wp_return.
    exists past', l, l'. split; [by rewrite <-app_assoc|]. split; [by apply Hev|done]. }
  assert (∀ past (over : bool), WP (if over then Return [] else event_loop c revocation inputs) past
    (λ events tr, each_allowed events tr)) as Hover.
  { intros past' []; [done|]. eapply wp_mono; [apply Hrest|]. intros events ? _ (l' & -> & He).
    by apply each_allowed_later. }
  destruct input; cbn [event_loop]; try apply Hdeliver; [|done| |];
    apply wp_bind, wp_looking; intros o w; [apply Hdeliver|apply Hover|apply Hover].
Qed.

Lemma wp_event_subscription d hello inputs past :
  WP (handle_event_subscription d hello inputs) past (λ r tr, ∀ events,
    r = Ok events → each_allowed events tr).
Proof.
  destruct hello as [[version ticket]|]; [|by apply wp_return].
  apply wp_bind, wp_any; [done|]. intros [pending|] tr _; [|by apply wp_return].
  apply wp_bind, wp_any; [done|]. intros [revocation|] tr' _; [|by apply wp_return].
  cbv zeta. destruct (bool_decide _ && bool_decide _); [by apply wp_return|].
  destruct (negb _); [by apply wp_return|].
  apply wp_bind. eapply wp_mono; [apply wp_event_loop|]. intros events ? _ (l & -> & He).
  apply wp_return. intros ? [= <-]. by apply each_allowed_later.
Qed.

(** ** Streams left behind *)

(** The streams are gone from the state and from the registry of client streams, and
    their devices are announced. *)
Definition released (abandoned : list TargetId) (tr : list event) : Prop :=
  ∃ o v v' o' x x' rest,
    tr = Stepped None o v v' :: Stepped None o' x x' ::
           Published (StateChanged (unique_devices abandoned)) :: rest ∧
    ∀ t, t ∈ abandoned → ds_frame_streams (w_state v') !! t = None ∧
      pm_shm_client (w_manager x') !! stream_key t = None.

Lemma end_all_shm_client_gone targets : ∀ ended pm t,
  t ∈ targets ∨ pm_shm_client pm !! stream_key t = None →
  pm_shm_client (fold_left force_end_shm_client targets (ended, pm)).2 !! stream_key t = None.
Proof.
  induction targets as [|x targets IH]; intros ended pm t Ht; cbn [fold_left].
  { destruct Ht as [Ht|Ht]; [by apply elem_of_nil in Ht|done]. }
  unfold force_end_shm_client at 2. destruct (pm_shm_client pm !! stream_key x) as [g|] eqn:Hx; apply IH.
  - destruct (decide (stream_key t = stream_key x)) as [Heq|Hne].
    + right. destruct pm. cbn. by rewrite Heq, lookup_delete_eq.
    + destruct Ht as [[-> |Ht]%elem_of_cons|Ht]; [done|by left|right]. destruct pm. cbn.
      by rewrite lookup_delete_ne.
  - destruct Ht as [[-> |Ht]%elem_of_cons|Ht]; [by right|by left|by right].
Qed.

Lemma wp_release_streams past :
  WP release_streams past (λ _ tr, ∃ o u rest,
    tr = past ++ Stepped None o u (set_owned_streams u []) :: rest ∧
    (w_owned_streams u ≠ [] → released (w_owned_streams u) rest)).
Proof.
  apply wp_bind. intros o u u' abandoned [= <- <-]. split; [done|]. apply wp_return.
  case_bool_decide as Hne; [apply wp_return; by exists o, u, []|].
  apply wp_bind. intros o1 v v' [] [= <-]. split; [done|]. apply wp_return, wp_bind.
  intros o2 x x' ended Hx. split; [done|]. apply wp_return, wp_bind. split; [done|]. apply wp_return, wp_bind.
  eapply wp_any; [done|]. intros ? tr [l ->]. apply wp_return. eexists o, u, _. split; [by rewrite <-!app_assoc|].
  intros _. eexists o1, v, _, o2, x, x', _. split; [reflexivity|]. intros t Ht. split.
  - destruct v as [st v2 v3 v4 v5 v6 v7]. cbn. destruct (end_all_spec st (w_owned_streams u)) as [_ Hs].
    rewrite Hs. by rewrite decide_True.
  - unfold end_all_shm_client_streams in Hx.
    pose proof (end_all_shm_client_gone (w_owned_streams u) []
      (end_all_shm_streams (w_manager x) (w_owned_streams u)) t (or_introl Ht)) as Hgone.
    destruct (fold_left _ _ _) as [ended' pm]. injection Hx as <- _. by destruct x.
Qed.

Lemma wp_handle_connection d hello request answer inputs past :
  WP (handle_connection d hello request answer inputs) past (λ r tr, ∀ responses, r = Ok responses →
    ∃ before o u after, tr = before ++ Stepped None o u (set_owned_streams u []) :: after ∧
      (w_owned_streams u ≠ [] → released (w_owned_streams u) after)).
Proof.
  apply wp_bind, wp_any; [done|]. intros [[c revocation]|reason] tr _; [|by apply wp_return].
  apply wp_bind, wp_looking. intros o w. apply wp_bind, wp_any; [done|]. intros responses tr' _.
  apply wp_bind. eapply wp_mono; [apply wp_release_streams|].
  intros [] tr'' _ (o' & u & rest & -> & Hr). apply wp_return. intros ? _. by exists tr', o', u, rest.
Qed.
End connections.

(** ** Delegation *)

(** The decisions of a session, when the managed policy gives the given answers. *)
Definition session_decides (answers : AuthorizationRequest → result PolicyError AuthorizationDecision → Prop)
    (d : ConnectionDependencies) (c : EventTicketContext) (op : Operation) (resources : list Resource)
    (decision : Decision) : Prop :=
  ∃ access access', (∀ r, answers r (access r)) ∧ (∀ r, answers r (access' r)) ∧
    decision = ap_authorize (session_policy (cd_policy d) access access' c) (cd_principal d) op resources.

Definition grants (answers : AuthorizationRequest → result PolicyError AuthorizationDecision → Prop)
    (principal : Principal) (op : Operation) (resources : list Resource) : Prop :=
  ∃ decision, answers (subject_request principal op resources) (Ok decision) ∧ is_allowed decision = true.

Lemma subject_decision_Allow subject frontend :
  subject_decision subject frontend = Allow →
  (∃ a, subject = Ok a ∧ is_allowed a = true) ∧
  ∀ r, frontend = Some r → ∃ a, r = Ok a ∧ is_allowed a = true.
Proof.
  unfold subject_decision. destruct subject as [a|]; [|done]. destruct (is_allowed a) eqn:Ha; [|done].
  cbn [negb]. intros Hf. split; [by exists a|]. intros r ->. destruct r as [b|]; [|done].
  destruct (is_allowed b) eqn:Hb; [|done]. by exists b.
Qed.

(** A session is allowed what its subject, its front end and its scope all allow. *)
Lemma session_allowed answers d c subject op resources :
  etc_subject c = Some subject → session_decides answers d c op resources Allow →
  grants answers subject op resources ∧
  (∀ actor, etc_frontend_actor c = Some actor → grants answers actor op resources) ∧
  ∀ scope, etc_session_scope c = Some scope → SessionScope_allows scope op resources = true.
Proof.
  intros Hs (access & access' & Ha & Ha' & Hd). unfold session_policy in Hd. rewrite Hs in Hd.
  assert (ap_authorize (authenticated_policy access access' subject (etc_frontend_actor c)
    (etc_credential_id c) (etc_frontend_credential_id c)) (cd_principal d) op resources = Allow ∧
    ∀ scope, etc_session_scope c = Some scope → SessionScope_allows scope op resources = true)
    as [Hsub Hscope].
  { destruct (etc_session_scope c) as [scope|]; [|by split]. cbn in Hd.
    destruct (SessionScope_allows scope op resources) eqn:Hal; [|done]. split; [done|]. by intros ? [= <-]. }
  split_and!; [| |done].
  - apply subject_decision_Allow in Hsub as [(a & Hok & Hal) _]. exists a. split; [|done].
    rewrite <-Hok. destruct (etc_frontend_actor c); apply Ha.
  - intros actor Hf. rewrite Hf in Hsub. apply subject_decision_Allow in Hsub as [_ Hfr].
    destruct (Hfr _ eq_refl) as (a & Hok & Hal). exists a. split; [|done]. rewrite <-Hok. apply Ha'.
Qed.

(** What a ticket is issued with. *)
Lemma mint_pending s actor scope subject fa cr fc expiry rx instant random s' ticket :
  mint_with_frontend s actor scope subject fa cr fc expiry rx instant random = (s', Ok ticket) →
  ∃ value, EventTicket_expose ticket = value ∧
    sv_tickets s' !! value = Some {|
      pt_actor := actor; pt_expires_at := (instant + EVENT_TICKET_LIFETIME)%Z; pt_scope := scope;
      pt_subject := subject; pt_frontend_actor := fa; pt_credential_id := cr;
      pt_frontend_credential_id := fc; pt_authentication_expiry := expiry; pt_revocation := rx |} ∧
    sv_tokens s' = sv_tokens s.
Proof.
  unfold mint_with_frontend. cbv zeta. destruct (_ ← _; _) as [value|]; [|done].
  destruct (EventTicket_new value) as [t|] eqn:Ht; [|done]. intros [= <- <-]. exists value.
  split; [|destruct s; cbn; split; [apply lookup_insert_eq|done]].
  unfold EventTicket_new, Credential_new in Ht. repeat case_match; simplify_eq/=; done.
Qed.

Lemma retain_tickets_lookup s instant value pending :
  sv_tickets (retain_tickets s instant) !! value = Some pending → sv_tickets s !! value = Some pending.
Proof. destruct s. cbn. by intros [? _]%map_lookup_filter_Some. Qed.

Lemma Principal_new_id authority subject groups p :
  Principal_new authority subject groups = Ok p → pr_id p = PrincipalId_mk authority subject.
Proof.
  unfold Principal_new, PrincipalId_new, Principal_from_id. cbv [mbind result_bind].
  do 2 (destruct (validate_nonempty _ _); [|discriminate]).
  destruct (_ <? _)%Z; [discriminate|]. destruct (validate_strings _ _); [|discriminate]. by intros [= <-].
Qed.

Lemma wp_open_bearer `{Wire, Digest} d hello request credential answer past :
  areq_authentication request = Authentication_Bearer credential →
  wp (λ _ _, True) (open_connection d hello (Some request) answer) past (λ r tr, ∀ c rx, r = Ok (c, rx) →
    hello = Some PROTOCOL_ABI_VERSION ∧ etc_session_scope c = areq_scope request ∧
    ∃ o u u' token subject, Stepped None o u u' ∈ tr ∧
      TokenStore_authenticate (sv_tokens (w_authentication u)) (Credential_expose credential) (out_now o) =
        Some token ∧
      etc_subject c = Some subject ∧ pr_id subject = tk_subject token ∧
      etc_credential_id c = Some (tk_id token) ∧ etc_frontend_actor c = None).
Proof.
  intros Ha. destruct hello as [version|]; [|by apply wp_return]. cbn [open_connection].
  destruct (version =? PROTOCOL_ABI_VERSION)%Z eqn:Hv; [|by apply wp_return].
  apply Z.eqb_eq in Hv as ->. cbn [negb]. unfold authenticating. rewrite Ha.
  apply wp_bind, wp_bind. intros o u u' session Hs. split; [done|]. do 2 apply wp_return.
  intros c rx Hr. split; [done|]. unfold authenticate_bearer in Hs. revert Hs Hr.
  destruct (TokenStore_authenticate _ _ _) as [token|] eqn:Htok; [|by intros [= _ <-]].
  destruct (session_channel _ _) as [s' receiver]. intros [= <- <-]. cbn.
  destruct (Principal_new _ _ _) as [subject|] eqn:Hp; [|done]. cbn.
  destruct (bool_decide (cd_frontend_actors d = None)); [done|]. intros [= <- <-]. split; [done|].
  exists o, u, (set_authentication u s'), token, subject. split_and!; [|done|done| |done..];
    [rewrite elem_of_app; right; left|].
  apply Principal_new_id in Hp. rewrite Hp. by destruct (tk_subject token).
Qed.

(** ** Claims *)

(** C16: A delegated session does nothing to a device that its subject, its front end and its
    scope do not all permit: in every run of any request on it, a message to a device comes
    after the managed policy has allowed the operation on that device to the subject and to
    the front end, and the scope the client asked for covers it.  The two exceptions of the
    code are explicit: the plugin of a stream is told the end of it, of the target and
    generation that a request to end a stream names, without permission; and the requests
    on managed configuration and plugin setup are allowed as an operation on no device. *)
Theorem session_confined `{Wire, Env, DebugFormat, Rendering, Digest} managing answers d c config
    subject request op others w before m o u u' after w' r device :
  etc_subject c = Some subject → operation_for request = Some op →
  runs others (session_decides answers d c) w
    (dispatch_request managing (DispatchContext_new d c config) request)
    (before ++ Stepped (Some m) o u u' :: after) w' r →
  device ∈ message_devices m →
  (∃ target generation, ended_stream request = Some (target, generation) ∧
     m = Msg_EndShm target generation) ∨
  ∃ resources,
    (op = ManagePlugins ∨
     ∃ v devices, device ∈ devices ∧ resources = resolve_devices v devices) ∧
    grants answers subject op resources ∧
    (∀ actor, etc_frontend_actor c = Some actor → grants answers actor op resources) ∧
    ∀ scope, etc_session_scope c = Some scope → SessionScope_allows scope op resources = true.
Proof.
  intros Hs Hop Hrun Hd.
  destruct (wp_sound _ _ _ w _ _ w' r [] _ Hrun (wp_rightful managing _ request op [] Hop)) as [Hall _].
  assert (∀ resources, Asked op resources Allow ∈ before →
    grants answers subject op resources ∧
    (∀ actor, etc_frontend_actor c = Some actor → grants answers actor op resources) ∧
    ∀ scope, etc_session_scope c = Some scope → SessionScope_allows scope op resources = true) as Hsession.
  { intros resources Hin. apply (session_allowed answers d c subject op); [done|].
    eapply runs_asked; [exact Hrun|]. rewrite elem_of_app. by left. }
  destruct (Hall before _ after eq_refl) as [[_ Hdev]|[[Hr (resources & Hin)]|(target & g & He & [Hm _])]].
  - right. destruct (Hdev device Hd) as (b & o1 & v1 & v1' & a & Hb & o2 & v & devices & Hin & _ & Hsub).
    cbn [app] in Hb. subst before. exists (resolve_devices v devices). split; [right; eauto|].
    apply Hsession. rewrite elem_of_app. left. eapply elem_of_sublist; [|exact Hsub]. right. left.
  - right. exists resources. split; [|by apply Hsession]. left. unfold routed in Hr. rewrite Hop in Hr.
    apply negb_false_iff, bool_decide_eq_true in Hr. by injection Hr.
  - left. exists target, g. split; [done|]. destruct Hm as [|Hm]; [done|]. by injection Hm.
Qed.

(** C17: What a subscriber is told is what it may know: of the events that a subscription
    delivers, each was filtered anew after the one before was delivered, and while it was
    filtered the policy allowed the session what the event shows: a change of devices, to
    observe every device that it names; the end of a client's stream, to control its device;
    scenes, to observe; transitions, to control; the configuration, to manage plugins.
    Resynchronisations and full refreshes name nothing and need no permission. *)
Theorem events_allowed `{Wire} d hello inputs others decides w tr w' events :
  runs others decides w (handle_event_subscription d hello inputs) tr w' (Done (Ok events)) →
  each_allowed events tr.
Proof.
  intros Hrun. destruct (wp_sound _ others decides w _ _ w' _ [] _ Hrun
    (wp_event_subscription d hello inputs [])) as [_ HQ]. by apply HQ.
Qed.

(** A connection leaves no stream behind: however it ends, after its last request it takes
    the list of the streams it began and has not ended, and ends every one of them, in the
    state and in the registry of client streams, before it announces their devices. *)
Theorem abandoned_streams_ended `{Wire, Env, DebugFormat, Rendering, Digest} managing d hello request
    answer inputs others decides w tr w' responses :
  runs others decides w (handle_connection managing d hello request answer inputs) tr w'
    (Done (Ok responses)) →
  ∃ before o u after, tr = before ++ Stepped None o u (set_owned_streams u []) :: after ∧
    (w_owned_streams u ≠ [] → released (w_owned_streams u) after).
Proof.
  intros Hrun. destruct (wp_sound _ others decides w _ _ w' _ [] _ Hrun
    (wp_handle_connection managing d hello request answer inputs [])) as [_ HQ]. by eapply HQ.
Qed.

(** A bearer session is that of its token: a connection that a bearer credential opens has
    the subject and the identifier of a token that was active, and whose secret was
    presented, when the connection authenticated, and the scope the client asked for. *)
Theorem bearer_session_identity `{Wire, Digest} d hello request credential answer others decides w tr w' c rx :
  areq_authentication request = Authentication_Bearer credential →
  runs others decides w (open_connection d hello (Some request) answer) tr w' (Done (Ok (c, rx))) →
  hello = Some PROTOCOL_ABI_VERSION ∧ etc_session_scope c = areq_scope request ∧
  ∃ o u u' token subject, Stepped None o u u' ∈ tr ∧
    TokenStore_authenticate (sv_tokens (w_authentication u)) (Credential_expose credential) (out_now o) =
      Some token ∧
    etc_subject c = Some subject ∧ pr_id subject = tk_subject token ∧
    etc_credential_id c = Some (tk_id token) ∧ etc_frontend_actor c = None.
Proof.
  intros Ha Hrun. destruct (wp_sound _ others decides w _ _ w' _ [] _ Hrun
    (wp_open_bearer d hello request credential answer [] Ha)) as [_ HQ]. by apply (HQ c rx).
Qed.

(** An attested session of a front end without a token cannot subscribe to events: its
    tickets name the attestation as their credential and carry no receiver, so that they
    are checked against the tokens, where an attestation is not. *)
Theorem attested_tickets_refused `{Digest} s name record scope subject actor instant random s' ticket
    metadata actor' instant' now :
  at_frontend_credential_id record = None →
  ss_response (attested_session s name record) = Authenticated metadata →
  sv_tokens s !! at_credential_id record = None →
  let c := session_context scope metadata (Some subject) (at_frontend_actor record) None in
  mint_with_frontend s actor (etc_session_scope c) (etc_subject c) (etc_frontend_actor c)
    (etc_credential_id c) (etc_frontend_credential_id c) (etc_authentication_expiry c)
    (resubscribe s <$> ss_revocation (attested_session s name record)) instant random = (s', Ok ticket) →
  (consume s' ticket actor' instant' now).2 = None.
Proof.
  intros Hf Hm Hno c Hmint. unfold attested_session in Hm, Hmint. cbn in Hm. injection Hm as <-.
  cbn in Hmint. rewrite Hf in Hmint. cbn in Hmint.
  destruct (mint_pending _ _ _ _ _ _ _ _ _ _ _ _ _ Hmint) as (value & Hv & Ht & Htok).
  unfold consume, take_ticket. rewrite Hv. destruct (negb _); [done|].
  destruct (sv_tickets (retain_tickets s' instant') !! value) as [pending|] eqn:Hp; [|done].
  destruct (_ && _); [|done]. cbn. unfold ticket_revocation.
  apply retain_tickets_lookup in Hp. rewrite Ht in Hp. injection Hp as <-. cbn.
  replace (sv_tokens _) with (sv_tokens s) by (rewrite <-Htok; by destruct s').
  by rewrite Hno.
Qed.

(** ** Witnesses *)

Module Frontend.
(** A session of a subject behind a front end, with a scope that covers control. *)
Definition subject : Principal := Principal_mk Desk.operator ∅.
Definition frontend : Principal := Principal_mk (PrincipalId_mk "local" "web") ∅.
Definition access : Access := λ _, Ok {|
  ad_outcome := Decision_Allow; ad_reason := None; ad_audit_rule := None; ad_cache_hint := None;
  ad_revision := 1 |}.
Definition answers (r : AuthorizationRequest) (a : result PolicyError AuthorizationDecision) : Prop :=
  a = access r.
Definition scope : SessionScope := SessionScope_mk [{|
  sg_operations := {[Control; Observe]};
  sg_resources := ResourceConstraints_default |}].
Definition context : EventTicketContext := {|
  etc_authentication_expiry := None; etc_session_scope := Some scope; etc_subject := Some subject;
  etc_frontend_actor := Some frontend; etc_credential_id := Some "desk"%string;
  etc_frontend_credential_id := None |}.
Definition dependencies : ConnectionDependencies := {|
  cd_principal := Desk.actor; cd_own := Own_Uid 990; cd_policy := SocketAccessPolicy;
  cd_frontend_actors := Some [] |}.
Definition config : Preferences := {|
  pf_prefer_shm := true; pf_prefer_client_shm := true;
  pf_default_unsupported_policy := Unsupported_Skip |}.
Definition policy (op : Operation) (resources : list Resource) : Decision :=
  ap_authorize (session_policy SocketAccessPolicy access access context) Desk.actor op resources.
Definition handled : @task Running.wire (@ResponseStatus Running.wire) :=
  @dispatch_request Running.wire sample_env Fading.debug Fading.rendering Desk.digest
    Requested.managing (DispatchContext_new dependencies context config) Requested.request.
Definition run := exec policy Running.outside Running.world handled.

(** A client that begins a stream and disappears. *)
Definition panels : World := {|
  w_state := from_devices [Panels.panel]; w_manager := Loaded.manager;
  w_transitions := TransitionRegistry_default; w_disk := None; w_owned_streams := [];
  w_authentication := AuthenticationService_default; w_policy := Running.policy |}.
Definition connection : @task Running.wire (result Closed (list (Z * @ResponseStatus Running.wire))) :=
  @handle_connection Running.wire sample_env Fading.debug Fading.rendering Desk.digest
    Requested.managing dependencies (Some 30)
    (Some {| areq_authentication := Authentication_Peer; areq_scope := None |}) (Ok None)
    [Recv_Request 1 (BeginFrameStream Running.target) config true; Recv_Idle].
Definition connection_run := Running.run_in panels connection.

(** A subscription with the ticket of a session. *)
Definition ticketed : World := {|
  w_state := from_devices [Running.device]; w_manager := Loaded.manager;
  w_transitions := TransitionRegistry_default; w_disk := None; w_owned_streams := [];
  w_authentication := Desk.minted; w_policy := Running.policy |}.
Definition subscription : @task Running.wire (result Closed (list (@Event Running.wire))) :=
  @handle_event_subscription Running.wire dependencies (Some (8, Desk.ticket))
    [Sub_Event {| pe_event := StateChanged [DeviceId_new "kbd"];
                  pe_topology_generation := ds_topology_generation (w_state ticketed) |} true;
     Sub_Closed].
Definition subscription_run := Running.run_in ticketed subscription.

(** A client with a token. *)
Definition bearer : AuthenticationRequest :=
  {| areq_authentication := Authentication_Bearer Desk.credential; areq_scope := Some scope |}.
Definition desk : World := {|
  w_state := from_devices [Running.device]; w_manager := Loaded.manager;
  w_transitions := TransitionRegistry_default; w_disk := None; w_owned_streams := [];
  w_authentication := Desk.created; w_policy := Running.policy |}.
Definition opening : @task Running.wire (result Closed (EventTicketContext * option Receiver)) :=
  @open_connection Running.wire Desk.digest dependencies (Some 30) (Some bearer) (Ok None).
Definition opening_run := Running.run_in desk opening.

(** An attestation by a front end that signed in as a peer. *)
Definition record : AttestationRecord := {|
  at_actor := Desk.actor; at_frontend_actor := None; at_frontend_credential_id := None;
  at_subject := Desk.operator; at_verified_groups := []; at_credential_id := "attestation:web";
  at_hash := []; at_expires_at := None |}.
Definition issued : AuthenticationService * auth EventTicket :=
  mint_with_frontend AuthenticationService_default Desk.actor None (Some subject) None
    (Some "attestation:web"%string) None None None 7 [Ok Desk.value].
End Frontend.

Lemma session_confined_witness :
  ∃ v devices, DeviceId_new "kbd" ∈ devices ∧
    grants Frontend.answers Frontend.subject Control (resolve_devices v devices) ∧
    grants Frontend.answers Frontend.frontend Control (resolve_devices v devices) ∧
    SessionScope_allows Frontend.scope Control (resolve_devices v devices) = true.
Proof.
  assert (from_option (λ x : list event * World * outcome _,
    match x.1.1 !! 6%nat with
    | Some (Stepped (Some m) _ _ _) => bool_decide (DeviceId_new "kbd" ∈ message_devices m)
    | _ => false
    end) false Frontend.run = true) as Hat by (vm_compute; reflexivity).
  destruct Frontend.run as [[[tr w'] r]|] eqn:Hrun; [|discriminate Hat]. cbn [from_option fst] in Hat.
  assert (runs (λ _ _, False) (session_decides Frontend.answers Frontend.dependencies Frontend.context)
    Running.world Frontend.handled tr w' r) as Hr.
  { refine (exec_runs _ _ _ _ _ _ _ _ _ _ Hrun). intros op rs.
    exists Frontend.access, Frontend.access. split_and!; [reflexivity..|]. reflexivity. }
  destruct (tr !! 6%nat) as [[[m|] o u u'| |]|] eqn:Hi; try discriminate Hat.
  rewrite <-(take_drop_middle _ _ _ Hi) in Hr.
  destruct (@session_confined Running.wire sample_env Fading.debug Fading.rendering Desk.digest
    Requested.managing Frontend.answers Frontend.dependencies Frontend.context Frontend.config
    Frontend.subject Requested.request Control _ _ _ _ _ _ _ _ _ _ (DeviceId_new "kbd")
    eq_refl eq_refl Hr) as [(? & ? & He & _)|(resources & Hv & Hs & Hf & Hsc)].
  { exact (bool_decide_eq_true_1 _ Hat). }
  { discriminate He. }
  destruct Hv as [Hv|(v & devices & Hd & ->)]; [discriminate Hv|].
  exists v, devices. split; [exact Hd|]. split; [exact Hs|].
  split; [exact (Hf _ eq_refl)|exact (Hsc _ eq_refl)].
Defined.

Lemma events_allowed_witness :
  Frontend.subscription_run.2 = Done (Ok [StateChanged [DeviceId_new "kbd"]]) ∧
  each_allowed [StateChanged [DeviceId_new "kbd"]] Frontend.subscription_run.1.1.
Proof.
  assert (Frontend.subscription_run.2 = Done (Ok [StateChanged [DeviceId_new "kbd"]])) as Hdone
    by (vm_compute; reflexivity).
  split; [exact Hdone|].
  exact (@events_allowed Running.wire Frontend.dependencies _ _ _ _ _ _ _ _
    (run_in_runs _ _ _ Hdone)).
Defined.

Lemma abandoned_streams_ended_witness :
  Frontend.connection_run.2 = Done (Ok [(1, RS_FrameStreamStarted 1)]) ∧
  ds_frame_streams (w_state Frontend.connection_run.1.2) = ∅ ∧
  ∃ before o u after, Frontend.connection_run.1.1 =
      before ++ Stepped None o u (set_owned_streams u []) :: after ∧
    (w_owned_streams u ≠ [] → released (w_owned_streams u) after).
Proof.
  assert (Frontend.connection_run.2 = Done (Ok [(1, RS_FrameStreamStarted 1)])) as Hdone
    by (vm_compute; reflexivity).
  split; [exact Hdone|]. split; [vm_compute; reflexivity|].
  exact (@abandoned_streams_ended Running.wire sample_env Fading.debug Fading.rendering Desk.digest
    Requested.managing Frontend.dependencies _ _ _ _ _ _ _ _ _ _ (run_in_runs _ _ _ Hdone)).
Defined.

Lemma bearer_session_identity_witness :
  ∃ c rx token subject, Frontend.opening_run.2 = Done (Ok (c, rx)) ∧
    etc_subject c = Some subject ∧ pr_id subject = tk_subject token ∧ tk_id token = "desk"%string.
Proof.
  destruct Frontend.opening_run.2 as [[[c rx]|]| |] eqn:Hdone; try (vm_compute in Hdone; discriminate Hdone).
  destruct (@bearer_session_identity Running.wire Desk.digest Frontend.dependencies (Some 30) Frontend.bearer
    Desk.credential (Ok None) _ _ _ _ _ _ _ eq_refl (run_in_runs _ _ _ Hdone))
    as (_ & _ & o & u & u' & token & subject & _ & _ & Hs & Hid & Hc & _).
  exists c, rx, token, subject. split; [reflexivity|]. split; [exact Hs|]. split; [exact Hid|].
  vm_compute in Hdone. injection Hdone as <- _. cbn [etc_credential_id] in Hc. by injection Hc as ->.
Defined.

Lemma attested_tickets_refused_witness :
  match Frontend.issued with
  | (s, Ok ticket) => (consume s ticket Desk.actor 8 8).2 = None
  | _ => False
  end.
Proof.
  destruct Frontend.issued as [s [ticket|]] eqn:Hi; [|vm_compute in Hi; discriminate Hi].
  exact (@attested_tickets_refused Desk.digest AuthenticationService_default "web" Frontend.record None
    Frontend.subject Desk.actor 7 _ s ticket _ Desk.actor 8 8 eq_refl eq_refl eq_refl Hi).
Defined.
