(* ===== verification/Reconciliation.v ===== *)
(** * Reconciliation: [luminated/src/daemon/reconciliation.rs], [topology.rs] and [suspend.rs]

    Hardware and recorded state are reconciled at startup, when a plugin reports a change
    of its devices, and after a resume.  [reconcile_device] follows a policy per device:
    restore writes the recorded state, adopt records the state of the hardware, leave only
    reads.  The topology coordinator replaces the devices of a plugin and reconciles them
    in one mutation; suspending ends the frame streams and marks every observation stale.
    The operations are tasks. *)

From S2P Require Import Prelude Model Graph Scenes Transition Policy PolicyRuntime Daemon Topology Persistence Validation Observation TargetStates CollectionRegistry FrameStreams Descriptors Normalize Ownership PluginManager PluginApply Readback TransitionRegistry Protocol Authorization Authentication PolicyFiles Tasks Authz Executor Sequencers Appearance SceneHandlers TransitionTasks.

(** ** Policies *)

Definition select_reconciliation_policy
    (device plugin global recommendation : option ReconciliationPolicy) : ReconciliationPolicy :=
  default Policy_Leave
    (union (union (union device plugin) global) recommendation).

(** [recommended_reconciliation] and [configured_reconciliation] of
    [plugins/introspection.rs]. *)
Definition owner (pm : PluginManager) (device : DeviceId) : option LoadedPlugin :=
  id ← pts_owner_by_device (pm_topology pm) !! DeviceId_as_str device;
  List.find (λ plugin, bool_decide (lp_id plugin = id)) (pm_loaded pm).
Definition recommended_reconciliation (pm : PluginManager) (device : DeviceId) :
    option ReconciliationPolicy :=
  plugin ← owner pm device; lpm_recommended_reconciliation (lp_metadata plugin).
Definition configured_reconciliation (pm : PluginManager) (device : DeviceId) :
    option ReconciliationPolicy :=
  name ← owner_name pm device;
  entry ← List.find (λ entry, bool_decide (pce_name entry = name)) (pm_catalogue pm);
  pce_effective_reconciliation entry.

Definition effective_reconciliation_policy (config : DaemonConfig) (pm : PluginManager)
    (device : Device) : ReconciliationPolicy :=
  select_reconciliation_policy
    (dc_device_reconciliation config !! device_id device)
    (configured_reconciliation pm (device_id device))
    (dc_reconciliation_policy config)
    (recommended_reconciliation pm (device_id device)).

(** ** The operations of a restoration *)

Definition operation_for_target_state (s : TargetState) : PluginUpdateOperation :=
  match s with
  | TS_Effect effect => Op_SetEffect effect
  | TS_Brightness value => Op_SetBrightness value
  | TS_AppearanceSlots values => Op_SetAppearanceSlots values
  | TS_Clear => Op_Clear
  end.

(** The operation that restores an adopted facet. *)
Definition operation_for_facet (value : FacetValue) : option PluginUpdateOperation :=
  match value with
  | Facet_Appearance (Appearance_Static colour) => Some (Op_SetEffect (Effect_Static colour))
  | Facet_Appearance (Appearance_Effect effect) => Some (Op_SetEffect effect)
  | Facet_Brightness value => Some (Op_SetBrightness value)
  | Facet_AppearanceSlots slots => Some (Op_SetAppearanceSlots (ass_values slots))
  | Facet_Emission Dark | Facet_PhysicalPower Power_Off => Some (Op_SetEffect Effect_Off)
  | Facet_Emission Emitting | Facet_PhysicalPower Power_On
  | Facet_Appearance Appearance_Mixed | Facet_EffectiveAppearance _ => None
  end.

(** [capabilities_for_target(target).is_some()] *)
Definition has_target (st : DaemonState) (target : TargetId) : bool :=
  bool_decide (is_Some (capabilities_for_target st target)).
Definition write_through (st : DaemonState) (target : TargetId) : bool :=
  bool_decide (persistence_requirement_for_target st target = Some Requirement_Required).
(** [devices.is_none_or(|devices| devices.contains(..))] *)
Definition selected (devices : option (list DeviceId)) (target : TargetId) : bool :=
  match devices with
  | Some devices => bool_decide (TargetId_device_id target ∈ devices)
  | None => true
  end.

Definition entry_operation (e : TargetStateEntry) : Update :=
  (tse_target e, operation_for_target_state (tse_state e)).

Definition pending_cached_state (st : DaemonState) (devices : option (list DeviceId)) :
    list Update :=
  omap (λ facet, pair (af_target facet) <$> operation_for_facet (af_value facet))
    (filter (λ facet, has_target st (af_target facet) && selected devices (af_target facet))
       (ds_adopted_baseline st)) ++
  (entry_operation <$>
     filter (λ e, has_target st (tse_target e) && selected devices (tse_target e) &&
                  negb (write_through st (tse_target e)))
       (ds_target_state st)).

Definition write_through_cached_state (st : DaemonState) (devices : list DeviceId) : list Update :=
  entry_operation <$>
    filter (λ e, has_target st (tse_target e) && selected (Some devices) (tse_target e) &&
                 write_through st (tse_target e))
      (ds_target_state st).

(** [to_string] of errors. *)
Class Display := {
  display_error : DaemonError → string;
  display_text : Text → string
}.

Definition restore_failed : string := "one or more restore operations failed".
Definition restore_disagreed : string := "restore verification disagreed with desired state".
Definition adopt_without_readback : string := "adopt requested but the device has no exact readback".

Section reconciliation.
Context `{Wire, Env, Display}.

Definition resolve_operation_colour (st : DaemonState) (target : TargetId)
    (operation : PluginUpdateOperation) : PluginUpdateOperation :=
  match operation with
  | Op_SetEffect (Effect_Static colour) =>
      Op_SetEffect (Effect_Static
        (match resolve_colour st target colour with Ok resolved => resolved | Err _ => colour end))
  | other => other
  end.

(** ** One device *)

(** The outcomes of the batch; whether one failed. *)
Fixpoint note_outcomes (outcomes : list (Update * daemon unit)) : task bool :=
  match outcomes with
  | [] => Return false
  | (operation, Ok _) :: outcomes =>
      _ ← locked (λ o st,
            (note_successful_operation (out_now o) st operation.1 operation.2, tt));
      note_outcomes outcomes
  | (_, Err _) :: outcomes => _ ← note_outcomes outcomes; Return true
  end.

Definition fail_device (device : DeviceId) (diagnostic : string) : task unit :=
  locked (λ o st, (fail_reconciliation (out_now o) st device diagnostic, tt)).

(** The writes of a restoration: the operations to verify, or the failure. *)
Definition restore_device (device : DeviceId) : task (daemon (list Update)) :=
  pending ← reading (λ _ w, pending_cached_state (w_state w) (Some [device]));
  resolved ← reading (λ _ w,
    (λ u : Update, (u.1, resolve_operation_colour (w_state w) u.1 u.2)) <$> pending);
  results ← calling (Msg_Batch resolved) (λ o w,
    (w, apply_batch (out_hosts o) (w_manager w) resolved));
  failed ← note_outcomes (zip pending results);
  cached ← reading (λ _ w, write_through_cached_state (w_state w) [device]);
  _ ← locked (λ o st,
        (fold_left (λ st (u : Update), note_successful_operation (out_now o) st u.1 u.2) cached st, tt));
  if failed : bool then
    _ ← fail_device device restore_failed;
    Return (Err (DE_Internal (Lit restore_failed)))
  else Return (Ok pending).

(** Reading the device back, and for a restoration comparing with what was written. *)
Definition verify_device (device : DeviceId) (policy : ReconciliationPolicy)
    (verification : list Update) (request : PluginReadRequest) (expected : Z) :
    task (daemon (list AdoptedFacet)) :=
  read ← calling (Msg_ReadState device request) (λ o w,
    (w, read_state (out_hosts o) (w_manager w) device request));
  match read with
  | Err error => _ ← fail_device device (display_error error); Return (Err error)
  | Ok snapshot =>
      result ← locked (λ o st,
        accept_snapshot (out_now o) st device expected snapshot (bool_decide (policy = Policy_Adopt)));
      match result with
      | Err error => _ ← fail_device device (display_error error); Return (Err error)
      | Ok adopted =>
          if bool_decide (policy = Policy_Restore) then
            agreed ← reading (λ _ w, confirmed_observations_match (w_state w) verification);
            if agreed : bool then Return (Ok adopted)
            else
              _ ← locked (λ _ st, (mark_reconciliation_drifted st device restore_disagreed, tt));
              Return (Err (DE_Internal (Lit restore_disagreed)))
          else Return (Ok adopted)
      end
  end.

Definition reconcile_device (device : DeviceId) (policy : ReconciliationPolicy) :
    task (daemon (list AdoptedFacet)) :=
  _ ← locked (λ o st, (begin_reconciliation (out_now o) st device, tt));
  attempt (if bool_decide (policy = Policy_Restore) then restore_device device else Return (Ok []))
    (λ verification,
  '(request, expected) ← reading (λ _ w,
     (read_request (w_state w) device, generation (w_state w) device));
  if bool_decide (prr_targets request = []) then
    if bool_decide (policy = Policy_Adopt) then
      _ ← fail_device device adopt_without_readback;
      Return (Err (DE_Internal (Lit adopt_without_readback)))
    else
      _ ← locked (λ o st, (complete_reconciliation (out_now o) st device, tt));
      Return (Ok [])
  else verify_device device policy verification request expected).

(** ** Startup *)

Definition Candidates : Type := list (DeviceId * list AdoptedFacet).

Fixpoint reconcile_devices (config : DaemonConfig) (devices : list Device) : task Candidates :=
  match devices with
  | [] => Return []
  | device :: devices =>
      policy ← reading (λ _ w, effective_reconciliation_policy config (w_manager w) device);
      outcome ← reconcile_device (device_id device) policy;
      candidates ← reconcile_devices config devices;
      Return (match outcome with
              | Ok [] | Err _ => candidates
              | Ok candidate => (device_id device, candidate) :: candidates
              end)
  end.

(** [save_complete] with the merged baseline; the state stays locked meanwhile. *)
Definition save_adopted (o : Outside) (st : DaemonState) (merged : list AdoptedFacet) :
    result Text PersistedState :=
  _ ← out_state_dir o;
  _ ← map_err diagnostic
        (validate_complete (ds_target_state st) (ds_collections st) (ds_scenes st) merged);
  _ ← out_replace_file o;
  Ok {| ps_version := PERSISTENCE_VERSION; ps_targets := ds_target_state st;
        ps_collections := ds_collections st; ps_scenes := ds_scenes st;
        ps_adopted_baseline := merged |}.

Definition adopt_candidates (candidates : Candidates) : task unit :=
  Step None (λ o w,
    let st := w_state w in
    match save_adopted o st (merged_adopted_baseline st (candidates ≫= snd)) with
    | Ok snapshot =>
        (set_disk (set_state w (fold_left commit_adopted_baseline candidates.*2 st))
           (Some snapshot), tt)
    | Err error =>
        let text := "confirmed state could not be adopted durably: " +:+ display_text error in
        (set_state w (fold_left (λ st c, fail_adoption_persistence st c.1 c.2 text) candidates st), tt)
    end) Return.

Definition startup_reconcile (config : DaemonConfig) : task unit :=
  devices ← reading (λ _ w, (map_to_list (ds_devices (w_state w))).*2);
  candidates ← reconcile_devices config devices;
  if bool_decide (candidates = []) then Return tt else adopt_candidates candidates.

(** ** The topology coordinator: [topology.rs] *)

Inductive TopologyNotification :=
| PluginObserved (plugin : string)
| Rescan (reason : RescanReason).

Definition merge_rescan_reason (current : option RescanReason) (incoming : RescanReason) :
    RescanReason :=
  match current, incoming with
  | Some Rescan_Resume, _ | _, Rescan_Resume => Rescan_Resume
  | Some Rescan_Operator, _ | _, Rescan_Operator => Rescan_Operator
  | _, _ => Rescan_DeviceChange
  end.

Definition merge_rescan_batch (pending : gset string) (rescan : option (list string)) :
    list string :=
  let pending := match rescan with
                 | Some loaded => pending ∪ list_to_set loaded
                 | None => pending
                 end in
  merge_sort String.le (elements pending).

Definition absorb (acc : gset string * option RescanReason) (n : TopologyNotification) :
    gset string * option RescanReason :=
  match n with
  | PluginObserved name => ({[ name ]} ∪ acc.1, acc.2)
  | Rescan reason => (acc.1, Some (merge_rescan_reason acc.2 reason))
  end.

(** [burst]: the notifications received before the debounce timer fires or the channel
    closes. *)
Definition collect_topology_batch (first : TopologyNotification)
    (burst : list TopologyNotification) : task (list string * option RescanReason) :=
  let '(pending, reason) := fold_left absorb (first :: burst) (∅, None) in
  match reason with
  | Some reason =>
      names ← reading (λ _ w, plugin_names (w_manager w));
      Return (merge_rescan_batch pending (Some names), Some reason)
  | None => Return (merge_rescan_batch pending None, None)
  end.

(** [HashSet::insert] in [retain]: the first of each. *)
Fixpoint retain_first {A} `{EqDecision A} (seen l : list A) : list A :=
  match l with
  | [] => []
  | x :: l => if decide (x ∈ seen) then retain_first seen l else x :: retain_first (x :: seen) l
  end.

Definition exhaustive (reason : option RescanReason) : bool :=
  match reason with Some Rescan_Resume | Some Rescan_Operator => true | _ => false end.

Definition devices_to_reconcile (changed owned : list DeviceId) (reason : option RescanReason) :
    list DeviceId :=
  if negb (exhaustive reason) then changed
  else merge_sort device_le (retain_first [] (owned ++ changed)).

(** [PluginManager::rescan_all] *)
Definition rescan_all (reason : RescanReason) : task unit :=
  plugins ← reading (λ _ w, pm_loaded (w_manager w));
  _ ← task_map (λ plugin, calling (Msg_HostRescan (lp_name plugin) reason) (λ o w,
                  (w, out_rescan o plugin reason))) plugins;
  Return tt.

(** The devices of the pass, one by one. *)
Definition reconcile_changed (device : DeviceId) : task (daemon unit) :=
  found ← reading (λ _ w, ds_devices (w_state w) !! device);
  match found with
  | None => Return (Ok tt)
  | Some entry =>
      policy ← reading (λ o w, effective_reconciliation_policy (out_config o) (w_manager w) entry);
      outcome ← reconcile_device device policy;
      match outcome with
      | Ok [] | Err _ => Return (Ok tt)
      | Ok candidate => locked (λ _ st, stage_adoption st candidate)
      end
  end.

Definition topology_failed (plugin : string) (error : Text) : DaemonError :=
  DE_Internal (Nested "topology reconciliation failed for {plugin_name}: {error:#}" [AStr plugin] error).

(** The mutation of one plugin: the devices that changed and those that were reconciled.
    Lack of fuel in the normalization, which does not happen, would be a panic. *)
Definition coordinator_job (plugin : string) (reason : option RescanReason) :
    task (daemon (list DeviceId * list DeviceId)) :=
  reconciled ← on_manager (reconcile_plugin_topology plugin);
  match reconciled with
  | Err Fuel => Panic
  | Err (Fail error) => Return (Err (topology_failed plugin error))
  | Ok reconciled =>
      let changed := tr_changed_devices reconciled in
      owned ← reading (λ _ w,
        filter (λ d, owner_name (w_manager w) d = Some plugin) (device_id <$> tr_devices reconciled));
      let reconciling := devices_to_reconcile changed owned reason in
      if bool_decide (reconciling = []) then Return (Ok ([], []))
      else
        _ ← (if bool_decide (changed = []) then Return tt
             else locked (λ _ st,
               ((replace_devices_preserving_withdrawn_state st (tr_devices reconciled)).1, tt)));
        attempt (task_for reconcile_changed reconciling) (λ _, Return (Ok (changed, reconciling)))
  end.

Definition publish_topology_changes (changed reconciled : list DeviceId) : task unit :=
  _ ← (if bool_decide (changed = []) then Return tt else publish (TopologyChanged changed));
  if bool_decide (reconciled = []) then Return tt else publish (StateChanged reconciled).

Definition coordinate_plugin (reason : option RescanReason) (plugin : string) : task unit :=
  known ← reading (λ _ w, (map_to_list (ds_devices (w_state w))).*1);
  outcome ← execute_without_notification known (coordinator_job plugin reason);
  match outcome with
  | Ok (changed, reconciled) => publish_topology_changes changed reconciled
  | Err _ => Return tt
  end.

(** One turn of [run_topology_coordinator]. *)
Definition coordinate (first : TopologyNotification) (burst : list TopologyNotification) :
    task unit :=
  '(batch, reason) ← collect_topology_batch first burst;
  _ ← match reason with Some reason => rescan_all reason | None => Return tt end;
  _ ← task_map (coordinate_plugin reason) batch;
  Return tt.

(** The coordinator, for the bursts that it receives until the channel closes. *)
Fixpoint run_topology_coordinator (bursts : list (TopologyNotification * list TopologyNotification)) :
    task unit :=
  match bursts with
  | [] => Return tt
  | (first, burst) :: bursts => _ ← coordinate first burst; run_topology_coordinator bursts
  end.

(** ** Suspending: [suspend.rs] *)

Section suspending.
Context `{DebugFormat}.

(** [streaming_targets] of [state/frame_stream.rs]. *)
Definition streaming_targets (st : DaemonState) : list TargetId :=
  merge_sort target_debug_le (map_to_list (ds_frame_streams st)).*1.

Definition quiesce_for_suspend : task unit :=
  streaming ← reading (λ _ w, streaming_targets (w_state w));
  _ ← (if bool_decide (streaming = []) then Return tt
       else
         let devices := elements (list_to_set (TargetId_device_id <$> streaming) : gset DeviceId) in
         _ ← locked (λ _ st, (end_all_frame_streams st streaming, tt));
         _ ← Step None (λ _ w,
           (set_manager w (end_all_shm_streams (w_manager w) streaming), tt)) Return;
         ended ← Step None (λ _ w,
           let '(ended, pm) := end_all_shm_client_streams (w_manager w) streaming in
           (set_manager w pm, ended)) Return;
         _ ← task_map (λ p : TargetId * Z, publish (ShmStreamEnded p.1 p.2)) ended;
         publish (StateChanged devices));
  locked (λ _ st, ((mark_observations_stale st).1, tt)).
End suspending.

Definition reconcile_after_resume : task bool :=
  calling (Msg_Rescan Rescan_Resume) (λ o w, (w, out_rescan_accepted o)).
End reconciliation.

(** ** What a restoration sends *)

(** An update of a target of the device that has to be written again: an adopted facet,
    or an entry of the desired state that the hardware does not keep by itself. *)
Definition restorable (st : DaemonState) (device : DeviceId) (u : Update) : Prop :=
  TargetId_device_id u.1 = device ∧ is_Some (capabilities_for_target st u.1) ∧
  ((∃ facet, facet ∈ ds_adopted_baseline st ∧ af_target facet = u.1 ∧
      operation_for_facet (af_value facet) = Some u.2) ∨
   (∃ entry, entry ∈ ds_target_state st ∧ tse_target entry = u.1 ∧
      operation_for_target_state (tse_state entry) = u.2 ∧
      persistence_requirement_for_target st u.1 ≠ Some Requirement_Required)).

Lemma elem_of_pending st device u :
  u ∈ pending_cached_state st (Some [device]) ↔ restorable st device u.
Proof.
  unfold pending_cached_state, restorable, has_target, selected, write_through.
  rewrite elem_of_app, list_elem_of_omap, list_elem_of_fmap. split.
  - intros [(facet & Hf & Hop)|(entry & -> & He)].
    + apply fmap_Some in Hop as (operation & Hop & ->). apply list_elem_of_filter in Hf as [Hf Hin].
      apply andb_prop_elim in Hf as [Hc Hs]. apply bool_decide_unpack in Hc, Hs.
      apply list_elem_of_singleton in Hs. cbn. split_and!; [done..|]. left. eauto.
    + apply list_elem_of_filter in He as [He Hin]. apply andb_prop_elim in He as [He Hw].
      apply andb_prop_elim in He as [Hc Hs]. apply bool_decide_unpack in Hc, Hs.
      apply list_elem_of_singleton in Hs. apply negb_prop_elim in Hw. rewrite bool_decide_spec in Hw.
      cbn. split_and!; [done..|]. right. eauto 6.
  - intros (Hd & Hc & [(facet & Hin & Ht & Hop)|(entry & Hin & Ht & Hop & Hr)]).
    + left. exists facet. rewrite Hop, Ht. destruct u; split; [|done].
      apply list_elem_of_filter. split; [|done]. rewrite Ht. apply andb_prop_intro.
      rewrite !bool_decide_spec, list_elem_of_singleton. done.
    + right. exists entry. unfold entry_operation. rewrite Ht, Hop. destruct u; split; [done|].
      apply list_elem_of_filter. split; [|done]. rewrite Ht. apply andb_prop_intro.
      split; [apply andb_prop_intro; by rewrite !bool_decide_spec, list_elem_of_singleton|].
      apply negb_prop_intro. by rewrite bool_decide_spec.
Qed.

Section outcomes.
Context `{Wire, Env, Display}.
Notation WP := (wp (λ _ _, True)).

(** The silent steps of a task. *)
Lemma wp_silently (ok : list event → event → Prop) {X A} (f : Outside → World → World * X)
    (k : X → task A) past Q :
  (∀ past o w w', ok past (Stepped None o w w')) →
  (∀ o w w' x, f o w = (w', x) → wp ok (k x) (past ++ [Stepped None o w w']) Q) →
  wp ok (Step None f Return ≫= k) past Q.
Proof. intros Hok Hk o w w' x Hf. split; [apply Hok|]. by apply Hk. Qed.

(** What reconciling a device may send. *)
Definition reconciles (device : DeviceId) (policy : ReconciliationPolicy) (past : list event)
    (e : event) : Prop :=
  ∀ m o w w', e = Stepped (Some m) o w w' →
    (∃ request, m = Msg_ReadState device request) ∨
    policy = Policy_Restore ∧
    ∃ o1 v o2 v2 updates, Stepped None o1 v v ∈ past ∧ Stepped None o2 v2 v2 ∈ past ∧
      m = Msg_Batch updates ∧
      ∀ u, u ∈ updates → ∃ operation, restorable (w_state v) device (u.1, operation) ∧
        u.2 = resolve_operation_colour (w_state v2) u.1 operation.

Lemma reconciles_silent device policy past o w w' :
  reconciles device policy past (Stepped None o w w').
Proof. by intros ? ? ? ? [=]. Qed.

Lemma reconciles_fail_device device policy d text past :
  wp (reconciles device policy) (fail_device d text) past (λ _ _, True).
Proof. intros o w w' x _. split; [apply reconciles_silent|done]. Qed.

Lemma reconciles_note_outcomes device policy outcomes past :
  wp (reconciles device policy) (note_outcomes outcomes) past (λ _ tr, past `prefix_of` tr).
Proof.
  revert past. induction outcomes as [|[u [[]|error]] outcomes IH]; intros past; cbn [note_outcomes].
  - by apply wp_return.
  - apply wp_silently; [apply reconciles_silent|]. intros. eapply wp_mono; [apply IH|].
    intros ? tr _ Hp. etrans; [|exact Hp]. by apply prefix_app_r.
  - apply wp_bind. eapply wp_mono; [apply IH|]. intros. by apply wp_return.
Qed.

Lemma reconciles_restore_device device past :
  wp (reconciles device Policy_Restore) (restore_device device) past (λ _ _, True).
Proof.
  apply wp_silently; [apply reconciles_silent|]. intros o v ? pending [= <- <-].
  apply wp_silently; [apply reconciles_silent|]. intros o2 v2 ? resolved [= <- <-].
  apply wp_bind. intros o3 w w' results _. split.
  { intros m ? ? ? [= <- <- <- <-]. right. split; [done|].
    eexists o, v, o2, v2, _. split_and!; [set_solver..|done|].
    intros u (u' & -> & Hu')%list_elem_of_fmap. exists u'.2. apply elem_of_pending in Hu'.
    by destruct u'. }
  apply wp_return, wp_bind. eapply wp_mono; [apply reconciles_note_outcomes|]. intros failed tr _ _.
  apply wp_silently; [apply reconciles_silent|]. intros.
  apply wp_silently; [apply reconciles_silent|]. intros.
  destruct failed; [|done]. apply wp_bind. by eapply wp_mono; [apply reconciles_fail_device|].
Qed.

Lemma reconciles_verify_device device policy verification request expected past :
  wp (reconciles device policy) (verify_device device policy verification request expected) past
    (λ _ _, True).
Proof.
  apply wp_bind. intros o w w' x _. split; [intros m ? ? ? [= <- <- <- <-]; left; eauto|].
  assert (∀ past error, wp (reconciles device policy)
    (fail_device device (display_error error) ≫= λ _, Return (@Err _ (list AdoptedFacet) error)) past
    (λ _ _, True)) as Hfail.
  { intros. apply wp_bind. by eapply wp_mono; [apply reconciles_fail_device|]. }
  apply wp_return. destruct x as [snapshot|error]; [|apply Hfail].
  apply wp_silently; [apply reconciles_silent|]. intros ? ? ? [adopted|error] _; [|apply Hfail].
  case_bool_decide; [|done]. apply wp_silently; [apply reconciles_silent|]. intros ? ? ? [] _; [done|].
  apply wp_silently; [apply reconciles_silent|]. done.
Qed.

Lemma reconciles_reconcile_device device policy past :
  wp (reconciles device policy) (reconcile_device device policy) past (λ _ _, True).
Proof.
  apply wp_silently; [apply reconciles_silent|]. intros. apply wp_attempt.
  eapply (wp_mono _ _ _ (λ _ _, True)).
  { case_bool_decide as Hp; [subst; apply reconciles_restore_device|done]. }
  intros [verification|error] tr _ _; [|done].
  apply wp_silently; [apply reconciles_silent|]. intros o2 w2 w2' [request expected] _.
  case_bool_decide; [|apply reconciles_verify_device]. case_bool_decide.
  - apply wp_bind. by eapply wp_mono; [apply reconciles_fail_device|].
  - by apply wp_silently; [apply reconciles_silent|].
Qed.

(** *** Results *)

(** The last step gave the device a status that says why. *)
Definition failure_noted (device : DeviceId) (tr : list event) : Prop :=
  ∃ past o w w' s, tr = past ++ [Stepped None o w w'] ∧
    ds_device_status (w_state w') !! device = Some s ∧
    (dss_reconciliation s = Recon_Failed ∨ dss_reconciliation s = Recon_Drifted) ∧
    is_Some (dss_latest_error s).

(** The device was read, and what it reported was accepted; these are the last steps. *)
Definition reading_accepted (device : DeviceId) (adopt : bool) (adopted : list AdoptedFacet)
    (tr : list event) : Prop :=
  ∃ past request o u o2 w w' g snapshot,
    tr = past ++ [Stepped (Some (Msg_ReadState device request)) o u u; Stepped None o2 w w'] ∧
    read_state (out_hosts o) (w_manager u) device request = Ok snapshot ∧
    accept_snapshot (out_now o2) (w_state w) device g snapshot adopt = (w_state w', Ok adopted).

(** No observation of confirmed confidence differs from what was written; others are not
    compared. *)
Definition confirmed_agree (st : DaemonState) (written : list Update) : Prop :=
  ∀ u expected observation,
    u ∈ written → expected_facet st u.1 u.2 = Some expected →
    ds_observations st !! (u.1, FacetValue_kind expected) = Some observation →
    fo_confidence observation = Confirmed → fo_value observation = expected.

Lemma confirmed_observations_agree st written :
  confirmed_observations_match st written = true → confirmed_agree st written.
Proof.
  unfold confirmed_observations_match. rewrite forallb_forall.
  intros Hall u expected ob Hu%list_elem_of_In Hx Hob Hc. specialize (Hall u Hu).
  rewrite Hx, Hob, bool_decide_true in Hall by done. cbn in Hall. by apply bool_decide_eq_true in Hall.
Qed.

(** The recorded state was written and every update succeeded; then either nothing of the
    device can be read, or it was read and agrees with what was written. *)
Definition restored (device : DeviceId) (tr : list event) : Prop :=
  ∃ o1 v o2 v2 o3 w,
    let pending := pending_cached_state (w_state v) (Some [device]) in
    let updates := (λ u : Update, (u.1, resolve_operation_colour (w_state v2) u.1 u.2)) <$> pending in
    [Stepped None o1 v v; Stepped None o2 v2 v2; Stepped (Some (Msg_Batch updates)) o3 w w]
      `sublist_of` tr ∧
    Forall (.= Ok tt) (apply_batch (out_hosts o3) (w_manager w) updates) ∧
    ((∃ o4 x, Stepped None o4 x x ∈ tr ∧ prr_targets (read_request (w_state x) device) = []) ∨
     (∃ before o4 x, tr = before ++ [Stepped None o4 x x] ∧ reading_accepted device false [] before ∧
        confirmed_agree (w_state x) pending)).

Definition reconciled (device : DeviceId) (policy : ReconciliationPolicy)
    (r : daemon (list AdoptedFacet)) (tr : list event) : Prop :=
  match r with
  | Err _ => failure_noted device tr
  | Ok adopted =>
      (policy = Policy_Restore → restored device tr) ∧
      (policy = Policy_Adopt → reading_accepted device true adopted tr) ∧
      (policy ≠ Policy_Adopt → adopted = [])
  end.

Lemma accept_snapshot_kept now st device g snapshot st' adopted :
  accept_snapshot now st device g snapshot false = (st', Ok adopted) → adopted = [].
Proof.
  unfold accept_snapshot. destruct (negb _); [done|].
  destruct (validate_snapshot _ _ _ _) as [vs|]; [|done].
  assert (∀ vs st acc, (fold_left (Readback.publish now device false) vs (st, acc)).2 = acc) as Hfold.
  { clear. intros vs. induction vs as [|[[t v] f] vs IH]; intros st acc; [done|]. apply IH. }
  specialize (Hfold vs st []). destruct (fold_left _ _ _) as [st1 acc]. cbn in Hfold. congruence.
Qed.

Lemma update_device_status_lookup st device f :
  ds_device_status (update_device_status st device f) !! device =
  Some (f (device_status_of st device)).
Proof. unfold update_device_status. destruct st. cbn. apply lookup_insert_eq. Qed.
Lemma w_state_set w st : w_state (set_state w st) = st.
Proof. by destruct w. Qed.

(** A step that sets the status of the device. *)
Lemma failure_noted_intro device past o w st (f : DeviceStateStatus → DeviceStateStatus) :
  (∀ s, dss_reconciliation (f s) = Recon_Failed ∨ dss_reconciliation (f s) = Recon_Drifted) →
  (∀ s, is_Some (dss_latest_error (f s))) →
  failure_noted device (past ++ [Stepped None o w (set_state w (update_device_status st device f))]).
Proof.
  intros Hf He. eexists past, o, w, _, _. split; [done|].
  rewrite w_state_set, update_device_status_lookup. done.
Qed.

Lemma wp_fail_device {A} device text (r : A) past :
  WP (_ ← fail_device device text; Return r) past (λ r' tr, r' = r ∧ failure_noted device tr).
Proof.
  apply wp_silently; [done|]. intros o w w' [] [= <-]. apply wp_return. split; [done|].
  apply failure_noted_intro; [by left|done].
Qed.

Lemma wp_note_outcomes outcomes past :
  WP (note_outcomes outcomes) past (λ failed tr, past `prefix_of` tr ∧
    (failed = false → Forall (λ x, x.2 = Ok tt) outcomes)).
Proof.
  revert past. induction outcomes as [|[u [[]|error]] outcomes IH]; intros past; cbn [note_outcomes].
  - by apply wp_return.
  - apply wp_silently; [done|]. intros. eapply wp_mono; [apply IH|]. intros failed tr _ [Hp Hf]. split.
    + etrans; [|exact Hp]. by apply prefix_app_r.
    + intros Hfalse. constructor; auto.
  - apply wp_bind. eapply wp_mono; [apply IH|]. intros failed tr _ [Hp _]. by apply wp_return.
Qed.

Lemma apply_batch_length hosts pm updates : length (apply_batch hosts pm updates) = length updates.
Proof. by rewrite apply_batch_writes, length_fmap, writes_length, length_replicate. Qed.

Lemma wp_restore_device device past :
  WP (restore_device device) past (λ r tr,
    match r with
    | Err _ => failure_noted device tr
    | Ok pending => ∃ o1 v o2 v2 o3 w rest,
        pending = pending_cached_state (w_state v) (Some [device]) ∧
        let updates := (λ u : Update, (u.1, resolve_operation_colour (w_state v2) u.1 u.2)) <$> pending in
        tr = past ++ Stepped None o1 v v :: Stepped None o2 v2 v2 ::
               Stepped (Some (Msg_Batch updates)) o3 w w :: rest ∧
        Forall (.= Ok tt) (apply_batch (out_hosts o3) (w_manager w) updates)
    end).
Proof.
  apply wp_silently; [done|]. intros o1 v ? pending [= <- Hpending].
  apply wp_silently; [done|]. intros o2 v2 ? updates [= <- Hupdates].
  apply wp_bind. intros o3 w ? results [= <- Hresults]. split; [done|]. apply wp_return, wp_bind.
  eapply wp_mono; [apply wp_note_outcomes|]. intros failed tr _ [[rest ->] Hf].
  apply wp_silently; [done|]. intros o4 w4 w4' cached _.
  apply wp_silently; [done|]. intros o5 w5 w5' [] _. destruct failed.
  { eapply wp_mono; [apply wp_fail_device|]. by intros ? tr _ [-> ?]. }
  apply wp_return. eexists o1, v, o2, v2, o3, w, _. split; [done|]. cbv zeta. subst updates pending.
  split; [by rewrite <-!app_assoc|]. rewrite Hresults. apply Forall_forall. intros r Hr.
  specialize (Hf eq_refl). rewrite Forall_forall in Hf.
  apply list_elem_of_lookup in Hr as [i Hi].
  assert (i < length (pending_cached_state (w_state v) (Some [device]))) as Hlt.
  { apply lookup_lt_Some in Hi. rewrite <-Hresults, apply_batch_length, length_fmap in Hi. done. }
  apply lookup_lt_is_Some in Hlt as [u Hu].
  apply (Hf (u, r)). apply list_elem_of_lookup. exists i. apply lookup_zip_with_Some. eauto.
Qed.

Lemma wp_verify_device device policy verification request expected past :
  WP (verify_device device policy verification request expected) past (λ r tr,
    past `prefix_of` tr ∧
    match r with
    | Err _ => failure_noted device tr
    | Ok adopted =>
        (policy = Policy_Restore → ∃ before o x, tr = before ++ [Stepped None o x x] ∧
           reading_accepted device false [] before ∧ confirmed_agree (w_state x) verification) ∧
        (policy = Policy_Adopt → reading_accepted device true adopted tr) ∧
        (policy ≠ Policy_Adopt → adopted = [])
    end).
Proof.
  eapply wp_mono with (Q := λ r tr, match r with Err _ => _ | Ok adopted => _ end);
    [|intros r tr Hp HQ; split; [exact Hp|exact HQ]].
  apply wp_bind. intros o w w' read [= <- Hread]. split; [done|]. apply wp_return.
  destruct read as [snapshot|error]; [|eapply wp_mono; [apply wp_fail_device|]; by intros ? tr _ [-> ?]].
  apply wp_silently; [done|]. intros o2 w2 w2' result Haccept.
  destruct (accept_snapshot _ _ _ _ _ _) as [st r] eqn:Ha. injection Haccept as <- <-.
  destruct r as [adopted|error]; [|eapply wp_mono; [apply wp_fail_device|]; by intros ? tr _ [-> ?]].
  assert (reading_accepted device (bool_decide (policy = Policy_Adopt)) adopted
    ((past ++ [Stepped (Some (Msg_ReadState device request)) o w w]) ++
       [Stepped None o2 w2 (set_state w2 st)])) as Haccepted.
  { exists past, request, o, w, o2, w2, (set_state w2 st), expected, snapshot.
    split_and!; [by rewrite <-app_assoc|done|by rewrite w_state_set]. }
  destruct (decide (policy = Policy_Restore)) as [->|Hpolicy].
  - rewrite (bool_decide_false (Policy_Restore = Policy_Adopt)) in Ha by done.
    apply accept_snapshot_kept in Ha as ->. rewrite bool_decide_true by done.
    apply wp_silently; [done|]. intros o3 w3 ? agreed [= <- Hagreed]. destruct agreed.
    + apply wp_return. split_and!; [|done|done]. intros _. eexists _, o3, w3. split; [done|].
      split; [exact Haccepted|by apply confirmed_observations_agree].
    + apply wp_silently; [done|]. intros o4 w4 w4' [] [= <-]. apply wp_return.
      apply failure_noted_intro; [by right|done].
  - rewrite (bool_decide_false (policy = Policy_Restore)) by done. apply wp_return. split_and!; [done| |].
    + intros ->. by rewrite bool_decide_true in Haccepted.
    + intros Hne. rewrite bool_decide_false in Ha by done. by apply accept_snapshot_kept in Ha.
Qed.

Lemma wp_reconcile_device device policy past :
  WP (reconcile_device device policy) past (reconciled device policy).
Proof.
  apply wp_silently; [done|]. intros o0 w0 w0' [] _. apply wp_attempt.
  eapply (wp_mono _ _ _ (λ r tr, match r with
    | Err _ => failure_noted device tr
    | Ok pending => policy = Policy_Restore → ∃ past o1 v o2 v2 o3 w rest,
        pending = pending_cached_state (w_state v) (Some [device]) ∧
        let updates := (λ u : Update, (u.1, resolve_operation_colour (w_state v2) u.1 u.2)) <$> pending in
        tr = past ++ Stepped None o1 v v :: Stepped None o2 v2 v2 ::
               Stepped (Some (Msg_Batch updates)) o3 w w :: rest ∧
        Forall (.= Ok tt) (apply_batch (out_hosts o3) (w_manager w) updates)
    end)).
  { case_bool_decide as Hp; [|by apply wp_return]. eapply wp_mono; [apply wp_restore_device|].
    intros [pending|error] tr _; [|done]. intros Hr _. by eexists. }
  intros [verification|error] tr _ Hw; [|done].
  assert (policy = Policy_Restore → ∀ tr', tr `prefix_of` tr' →
    ((∃ o4 x, Stepped None o4 x x ∈ tr' ∧ prr_targets (read_request (w_state x) device) = []) ∨
     (∃ before o4 x, tr' = before ++ [Stepped None o4 x x] ∧ reading_accepted device false [] before ∧
        confirmed_agree (w_state x) verification)) →
    restored device tr') as Hrestored.
  { intros Hp tr' [l ->] Hread. destruct (Hw Hp) as (past' & o1 & v & o2 & v2 & o3 & w & rest & -> & -> & Hall).
    exists o1, v, o2, v2, o3, w. split; [|by split].
    rewrite <-!app_assoc. apply sublist_inserts_l. do 3 apply sublist_skip. apply sublist_nil_l. }
  apply wp_silently; [done|]. intros o2 w2 ? [request expected] [= <- Hrequest _].
  case_bool_decide as Hempty.
  - assert (Stepped None o2 w2 w2 ∈ tr ++ [Stepped None o2 w2 w2]) as Hin by set_solver.
    case_bool_decide as Hp.
    + eapply wp_mono; [apply wp_fail_device|]. by intros ? tr' _ [-> ?].
    + apply wp_silently; [done|]. intros o3 w3 w3' [] _. apply wp_return. split_and!; [|done|done].
      intros Hr. apply (Hrestored Hr); [by rewrite <-app_assoc; apply prefix_app_r|]. left. exists o2, w2.
      split; [set_solver|]. by rewrite Hrequest.
  - eapply wp_mono; [apply wp_verify_device|]. intros [adopted|error] tr' _ [Hp' Hr]; [|done].
    destruct Hr as (Hr & Ha & Hn). split_and!; [|done..]. intros Hp. apply (Hrestored Hp); [|right; auto].
    etrans; [|exact Hp']. by apply prefix_app_r.
Qed.

(** ** What the coordinator does *)

(** *** Bursts *)

(** How much a rescan asks for. *)
Definition strength (reason : option RescanReason) : nat :=
  match reason with
  | None => 0
  | Some Rescan_DeviceChange => 1
  | Some Rescan_Operator => 2
  | Some Rescan_Resume => 3
  end.
Definition asks (n : TopologyNotification) : option RescanReason :=
  match n with PluginObserved _ => None | Rescan reason => Some reason end.

Lemma merge_rescan_strength current incoming :
  strength (Some (merge_rescan_reason current incoming)) =
  Nat.max (strength current) (strength (Some incoming)).
Proof. by destruct current as [[]|], incoming. Qed.

Lemma absorb_all notifications acc :
  let '(pending, reason) := fold_left absorb notifications acc in
  (∀ p, p ∈ pending ↔ p ∈ acc.1 ∨ PluginObserved p ∈ notifications) ∧
  (∀ n, strength reason ≤ n ↔ strength acc.2 ≤ n ∧ Forall (λ x, strength (asks x) ≤ n) notifications).
Proof.
  revert acc. induction notifications as [|x notifications IH]; intros acc; cbn [fold_left].
  { destruct acc as [pending reason]. split; [set_solver|]. intros n. rewrite Forall_nil. tauto. }
  specialize (IH (absorb acc x)). destruct (fold_left _ _ _) as [pending reason].
  destruct IH as [Hp Hr]. split.
  - intros p. rewrite Hp, elem_of_cons. destruct x; cbn; set_solver.
  - intros n. rewrite Hr, Forall_cons. destruct x as [p|r]; cbn [absorb asks snd fst].
    + cbn. intuition lia.
    + rewrite merge_rescan_strength, Nat.max_lub_iff. tauto.
Qed.

Lemma elem_of_merge_rescan_batch pending rescan p :
  p ∈ merge_rescan_batch pending rescan ↔ p ∈ pending ∨ ∃ loaded, rescan = Some loaded ∧ p ∈ loaded.
Proof.
  unfold merge_rescan_batch. rewrite merge_sort_Permutation, elem_of_elements. destruct rescan.
  - rewrite elem_of_union, elem_of_list_to_set. naive_solver.
  - naive_solver.
Qed.
Lemma NoDup_merge_rescan_batch pending rescan : NoDup (merge_rescan_batch pending rescan).
Proof. unfold merge_rescan_batch. rewrite merge_sort_Permutation. apply NoDup_elements. Qed.

Lemma wp_collect_topology_batch first burst past :
  WP (collect_topology_batch first burst) past (λ '(batch, reason) tr,
    NoDup batch ∧
    (∀ n, strength reason ≤ n ↔ Forall (λ x, strength (asks x) ≤ n) (first :: burst)) ∧
    match reason with
    | None => ∀ p, p ∈ batch ↔ PluginObserved p ∈ first :: burst
    | Some _ => ∃ o v, Stepped None o v v ∈ tr ∧
        ∀ p, p ∈ batch ↔ PluginObserved p ∈ first :: burst ∨ p ∈ plugin_names (w_manager v)
    end).
Proof.
  unfold collect_topology_batch. pose proof (absorb_all (first :: burst) (∅, None)) as Habsorb.
  destruct (fold_left _ _ _) as [pending [reason|]]; destruct Habsorb as [Hp Hs].
  - apply wp_silently; [done|]. intros o v ? names [= <- <-]. apply wp_return.
    split_and!; [apply NoDup_merge_rescan_batch|intros n; rewrite Hs; cbn; intuition lia|].
    exists o, v. split; [set_solver|]. intros p. rewrite elem_of_merge_rescan_batch, Hp. cbn [fst].
    rewrite elem_of_empty. naive_solver.
  - apply wp_return.
    split_and!; [apply NoDup_merge_rescan_batch|intros n; rewrite Hs; cbn; intuition lia|].
    intros p. rewrite elem_of_merge_rescan_batch, Hp. cbn [fst]. rewrite elem_of_empty. naive_solver.
Qed.

(** *** Devices *)

Lemma elem_of_retain_first {A} `{EqDecision A} (seen l : list A) x :
  x ∈ retain_first seen l ↔ x ∈ l ∧ x ∉ seen.
Proof.
  revert seen. induction l as [|y l IH]; intros seen; cbn; [set_solver|].
  case_decide; rewrite ?elem_of_cons, IH; [set_solver|].
  destruct (decide (x = y)); set_solver.
Qed.

Lemma elem_of_devices_to_reconcile changed owned reason d :
  d ∈ devices_to_reconcile changed owned reason ↔
  d ∈ changed ∨ exhaustive reason = true ∧ d ∈ owned.
Proof.
  unfold devices_to_reconcile. destruct (exhaustive reason); cbn [negb]; [|intuition congruence].
  rewrite merge_sort_Permutation, elem_of_retain_first, elem_of_app. set_solver.
Qed.

(** The device was gone, or its reconciliation under some policy began and ended with a
    result of which [reconciled] holds. *)
Definition visited (device : DeviceId) (tr : list event) : Prop :=
  (∃ o v, Stepped None o v v ∈ tr ∧ ds_devices (w_state v) !! device = None) ∨
  (∃ o u u' policy r before, before `prefix_of` tr ∧ Stepped None o u u' ∈ before ∧
     w_state u' = begin_reconciliation (out_now o) (w_state u) device ∧
     reconciled device policy r before).

Lemma visited_mono device tr tr' : tr `prefix_of` tr' → visited device tr → visited device tr'.
Proof.
  intros Hp [(o & v & ? & ?)|(o & u & u' & policy & r & before & Hb & ?)]; [left; exists o, v|right].
  - split; [|done]. destruct Hp as [l ->]. set_solver.
  - exists o, u, u', policy, r, before. split; [by etrans|done].
Qed.

Lemma wp_reconcile_begun device policy past :
  WP (reconcile_device device policy) past (λ r tr, ∃ o u u', Stepped None o u u' ∈ tr ∧
    w_state u' = begin_reconciliation (out_now o) (w_state u) device ∧ reconciled device policy r tr).
Proof.
  pose proof (wp_reconcile_device device policy past) as Hr. unfold reconcile_device in *.
  intros o u u' x Hu. destruct (Hr o u u' x Hu) as [_ Hrest]. split; [done|].
  eapply wp_mono; [exact Hrest|]. intros r tr Hp Hrec. exists o, u, u'. injection Hu as <- _.
  split_and!; [|by rewrite w_state_set|done]. destruct Hp as [l ->]. set_solver.
Qed.

Lemma wp_reconcile_changed device past :
  WP (reconcile_changed device) past (λ _ tr, visited device tr).
Proof.
  apply wp_silently; [done|]. intros o v ? found [= <- Hfound]. destruct found as [entry|].
  2:{ apply wp_return. left. exists o, v. split; [set_solver|done]. }
  apply wp_silently; [done|]. intros o2 w2 w2' policy _. apply wp_bind.
  eapply wp_mono; [apply wp_reconcile_begun|]. intros r tr _ (o3 & u & u' & Hin & Hu & Hr).
  assert (visited device tr) as Hv by (right; exists o3, u, u', policy, r, tr; done).
  destruct r as [[|facet candidate]|]; [by apply wp_return| |by apply wp_return].
  intros o4 w4 w4' x4 _. split; [done|]. apply wp_return. eapply visited_mono; [|exact Hv].
  by apply prefix_app_r.
Qed.

Lemma wp_reconcile_all devices past :
  WP (task_for reconcile_changed devices) past (λ r tr, r = Ok tt → ∀ d, d ∈ devices → visited d tr).
Proof.
  revert past. induction devices as [|x devices IH]; intros past; cbn [task_for].
  { apply wp_return. intros _ d. by rewrite elem_of_nil. }
  apply wp_attempt. eapply wp_mono; [apply wp_reconcile_changed|].
  intros [[]|error] tr _ Hv; [|done]. eapply wp_mono; [apply IH|]. intros r tr' Hp Hr ->.
  intros d [-> |Hd]%elem_of_cons; [by eapply visited_mono|by apply Hr].
Qed.

(** *** A pass *)

(** What the plugin reported became the topology of the manager: among the plugins loaded
    it was the only one of its name, its host was asked, the report was accepted, and it
    was committed with the owners that it gives. *)
Definition pulled (plugin : string) (r : TopologyReconcile) (tr : list event) : Prop :=
  ∃ o0 v o1 u o2 w candidate source descriptors,
    [Stepped None o0 v v; Stepped (Some (Msg_Topology plugin)) o1 u u;
     Stepped None o2 w (set_manager w (set_topology (w_manager w) candidate))] `sublist_of` tr ∧
    find_source (pm_loaded (w_manager v)) plugin = Ok source ∧
    accept_report plugin (out_topology o1 source) = Ok descriptors ∧
    replace_report plugin (lp_id source) descriptors (pm_loaded (w_manager v))
      (pm_topology (w_manager w)) = Ok (r, candidate).

Lemma pulled_mono plugin r tr tr' : tr `prefix_of` tr' → pulled plugin r tr → pulled plugin r tr'.
Proof.
  intros [l ->] (o0 & v & o1 & u & o2 & w & t & p & ds & Hs & ?).
  exists o0, v, o1, u, o2, w, t, p, ds. split; [|done]. by apply sublist_inserts_r.
Qed.

Lemma find_source_name loaded name plugin :
  find_source loaded name = Ok plugin → plugin ∈ loaded ∧ lp_name plugin = name.
Proof.
  unfold find_source. destruct (filter _ _) as [|p [|? ?]] eqn:Hf; [done| |done]. intros [= ->].
  assert (plugin ∈ filter (λ p, lp_name p = name) loaded) as [? ?]%list_elem_of_filter; [|done].
  rewrite Hf. by left.
Qed.

Lemma wp_pull plugin past :
  WP (on_manager (reconcile_plugin_topology plugin)) past (λ r tr, ∀ reconciled,
    r = Ok reconciled → past `prefix_of` tr ∧ pulled plugin reconciled tr).
Proof.
  intros o0 v ? loaded [= <- <-]. split; [done|]. replace (set_manager v (w_manager v)) with v by by destruct v.
  cbn [on_manager mbind pm_op_bind].
  destruct (find_source _ _) as [source|] eqn:Hsource; [|by apply wp_return].
  destruct (find_source_name _ _ _ Hsource) as [_ Hname]. cbn [or_finish on_manager mbind pm_op_bind].
  rewrite Hname. intros o1 u ? answer [= <- <-]. split; [done|].
  destruct (accept_report _ _) as [ds|] eqn:Hds; [|by apply wp_return].
  intros o2 w w' x Hx. split; [done|]. apply wp_return. intros r ->.
  destruct (replace_report _ _ _ _ _) as [[r' t]|] eqn:Hr; [|done]. injection Hx as <- ->.
  split; [rewrite <-!app_assoc; by apply prefix_app_r|].
  exists o0, v, o1, u, o2, w, t, source, ds. split_and!; [|done..].
  rewrite <-!app_assoc. by apply sublist_inserts_l.
Qed.

(** The devices became those of the state. *)
Definition replaced (devices : list Device) (e : event) : Prop :=
  ∃ o w w', e = Stepped None o w w' ∧
    w_state w' = (replace_devices_preserving_withdrawn_state (w_state w) devices).1.

Definition passed (plugin : string) (reason : option RescanReason)
    (changed reconciling : list DeviceId) (tr : list event) : Prop :=
  ∃ r o v, pulled plugin r tr ∧ Stepped None o v v ∈ tr ∧
    let owned := filter (λ d, owner_name (w_manager v) d = Some plugin) (device_id <$> tr_devices r) in
    reconciling = devices_to_reconcile (tr_changed_devices r) owned reason ∧
    changed = tr_changed_devices r ∧
    (changed ≠ [] → ∃ e', e' ∈ tr ∧ replaced (tr_devices r) e') ∧
    (∀ d, d ∈ reconciling → visited d tr).

Lemma passed_mono plugin reason changed reconciling tr tr' :
  tr `prefix_of` tr' → passed plugin reason changed reconciling tr →
  passed plugin reason changed reconciling tr'.
Proof.
  intros Hp (r & o & v & Hpull & Hv & Hr & Hc & Hrep & Hall).
  apply (pulled_mono _ _ _ _ Hp) in Hpull. destruct Hp as [l ->].
  exists r, o, v. cbv zeta. split_and!; [done|set_solver|done|done| |].
  - intros Hne. destruct (Hrep Hne) as (e' & ? & ?). exists e'. split; [set_solver|done].
  - intros d Hd. eapply visited_mono, Hall; [by apply prefix_app_r|done].
Qed.

Lemma w_manager_set w pm : w_manager (set_manager w pm) = pm.
Proof. by destruct w. Qed.

Lemma wp_coordinator_job plugin reason past :
  WP (coordinator_job plugin reason) past (λ r tr, ∀ changed reconciling,
    r = Ok (changed, reconciling) → passed plugin reason changed reconciling tr).
Proof.
  apply wp_bind. eapply wp_mono; [apply wp_pull|]. intros [r|[|error]] pulls _ Hr; [|done|by apply wp_return].
  destruct (Hr r eq_refl) as [_ Hpull]. clear Hr.
  apply wp_silently; [done|]. intros o2 v ? owned [= <- Howned]. cbv zeta.
  destruct (bool_decide (devices_to_reconcile _ owned reason = [])) eqn:Hempty.
  { apply bool_decide_eq_true in Hempty. apply wp_return. intros changed reconciling [= <- <-].
    assert (tr_changed_devices r = []) as Hc.
    { destruct (tr_changed_devices r) as [|d l] eqn:Hc; [done|]. exfalso.
      assert (d ∈ devices_to_reconcile (d :: l) owned reason) as Hd
        by (apply elem_of_devices_to_reconcile; left; left).
      rewrite Hempty in Hd. by apply elem_of_nil in Hd. }
    exists r, o2, v. cbv zeta. rewrite Howned, Hc. rewrite Hc in Hempty. rewrite Hempty.
    split_and!; try done; [eapply pulled_mono; [by apply prefix_app_r|done]|set_solver|].
    intros d. by rewrite elem_of_nil. }
  clear Hempty. apply wp_bind. eapply (wp_mono _ _ _ (λ _ tr, pulls ++ [Stepped None o2 v v] `prefix_of` tr ∧
    (tr_changed_devices r ≠ [] → ∃ e', e' ∈ tr ∧ replaced (tr_devices r) e'))).
  { case_bool_decide as Hc; [by apply wp_return|]. intros o3 u u' [] [= <-]. split; [done|].
    apply wp_return. split; [by apply prefix_app_r|]. intros _.
    eexists. split; [apply elem_of_app; right; by left|]. eexists o3, u, _. split; [done|].
    by rewrite w_state_set. }
  intros [] tr _ [Hp Hrep]. apply wp_attempt. eapply wp_mono; [apply wp_reconcile_all|].
  intros [[]|error] tr' Hp' Hall; [|done]. apply wp_return. intros changed reconciling [= <- <-].
  exists r, o2, v. cbv zeta. rewrite Howned. destruct Hp' as [l' ->], Hp as [l ->].
  split_and!; [|set_solver|done|done| |auto].
  { eapply pulled_mono; [|exact Hpull]. rewrite <-!app_assoc. by apply prefix_app_r. }
  intros Hne. destruct (Hrep Hne) as (e' & ? & ?). exists e'. split; [set_solver|done].
Qed.

(** *** Announcements *)

(** The task publishes no event. *)
Fixpoint unpublished {A} (t : task A) : Prop :=
  match t with
  | Return _ | Panic => True
  | Step _ _ k => ∀ x, unpublished (k x)
  | Ask _ _ k => ∀ d, unpublished (k d)
  | Publish _ _ => False
  | Await _ k => unpublished k
  end.

Lemma unpublished_bind {A B} (t : task A) (k : A → task B) :
  unpublished t → (∀ a, unpublished (k a)) → unpublished (t ≫= k).
Proof. intros Ht Hk. induction t; cbn in *; auto. Qed.
Lemma unpublished_attempt {E A B} (t : task (result E A)) (k : A → task (result E B)) :
  unpublished t → (∀ a, unpublished (k a)) → unpublished (attempt t k).
Proof. intros Ht Hk. apply unpublished_bind; [done|]. by intros []. Qed.
Lemma unpublished_catch {A} (t : task A) : unpublished t → unpublished (catch t).
Proof. induction t; cbn; auto. Qed.
Lemma unpublished_for {E A} (f : A → task (result E unit)) l :
  (∀ x, unpublished (f x)) → unpublished (task_for f l).
Proof. intros Hf. induction l as [|x l IH]; cbn [task_for]; [done|]. by apply unpublished_attempt. Qed.

Lemma wp_unpublished (ok : list event → event → Prop) {A} (t : task A) past Q :
  (∀ past e, (∀ x, e ≠ Published x) → ok past e) → unpublished t → WP t past Q → wp ok t past Q.
Proof.
  intros Hok. revert past. induction t as [a| |X m f k IH|op rs k IH|e k IH|ready k IH];
    intros past Hu; cbn in *; [done|done| | |done|by apply IH].
  - intros Ht o w w' x Hf. destruct (Ht o w w' x Hf). split; [by apply Hok|by apply IH].
  - intros Ht d. destruct (Ht d). split; [by apply Hok|by apply IH].
Qed.

Lemma unpublished_note_outcomes outcomes : unpublished (note_outcomes outcomes).
Proof.
  induction outcomes as [|[u [[]|error]] outcomes IH]; [done|intros []; exact IH|].
  by apply unpublished_bind.
Qed.
Lemma unpublished_step {X A} m (f : Outside → World → World * X) (k : X → task A) :
  (∀ x, unpublished (k x)) → unpublished (Step m f Return ≫= k).
Proof. done. Qed.
Lemma unpublished_verify_device device policy verification request expected :
  unpublished (verify_device device policy verification request expected).
Proof.
  apply unpublished_step. intros [snapshot|error]; [|by apply unpublished_step].
  apply unpublished_step. intros [adopted|error]; [|by apply unpublished_step].
  destruct (bool_decide _); [|done]. apply unpublished_step. intros []; [done|]. by apply unpublished_step.
Qed.
Lemma unpublished_reconcile_device device policy : unpublished (reconcile_device device policy).
Proof.
  apply unpublished_step. intros []. apply unpublished_attempt.
  - destruct (bool_decide _); [|done]. do 3 (apply unpublished_step; intros ?).
    apply unpublished_bind; [apply unpublished_note_outcomes|]. intros failed.
    do 2 (apply unpublished_step; intros ?). destruct failed; [|done]. by apply unpublished_step.
  - intros verification. apply unpublished_step. intros [request expected].
    destruct (bool_decide _); [|apply unpublished_verify_device].
    destruct (bool_decide _); by apply unpublished_step.
Qed.
Lemma unpublished_reconcile_changed device : unpublished (reconcile_changed device).
Proof.
  apply unpublished_step. intros [entry|]; [|done]. apply unpublished_step. intros policy.
  apply unpublished_bind; [apply unpublished_reconcile_device|]. by intros [[]|].
Qed.
Lemma unpublished_on_manager {A} (op : pm_op A) : unpublished (on_manager op).
Proof. induction op; cbn; auto. Qed.
Lemma unpublished_coordinator_job plugin reason : unpublished (coordinator_job plugin reason).
Proof.
  apply unpublished_bind; [apply unpublished_on_manager|]. intros [r|[|error]]; [|done|done].
  apply unpublished_step. intros owned. cbv zeta.
  destruct (bool_decide (devices_to_reconcile _ owned reason = [])); [done|].
  apply unpublished_bind; [by destruct (bool_decide _)|]. intros [].
  apply unpublished_attempt; [|done]. apply unpublished_for, unpublished_reconcile_changed.
Qed.
Lemma unpublished_execute {T} devices (job : task (daemon T)) :
  unpublished job → unpublished (execute_without_notification devices job).
Proof.
  intros Hjob. apply unpublished_attempt; [done|]. intros []. apply unpublished_bind; [|done].
  apply unpublished_bind; [by apply unpublished_catch|]. intros r. cbv zeta.
  destruct (committed _); [|done]. apply unpublished_step. intros []; [done|]. by apply unpublished_step.
Qed.

(** A successful mutation without notification: what its job did, then a save. *)
Lemma wp_execute_without {T} devices (job : task (daemon T)) past (J : T → list event → Prop) :
  (∀ past', WP job past' (λ r tr, ∀ x, r = Ok x → J x tr)) →
  WP (execute_without_notification devices job) past (λ r tr,
    ∀ x, r = Ok x → ∃ before e, tr = before ++ [e] ∧ J x before ∧ saved e).
Proof.
  intros Hjob. apply wp_attempt. intros o w w' x _. split; [done|]. cbn [wp].
  destruct x as [[]|error]; [|done]. apply wp_bind.
  eapply wp_run_mutation_job; [apply Hjob| |].
  - intros r tr e HJ _ He. apply wp_return. intros x Hx. exists tr, e. auto.
  - intros r tr _ Hc. apply wp_return. intros x ->. done.
Qed.

(** An event is published once the pass that it describes is saved. *)
Definition announces (plugin : string) (reason : option RescanReason) (past : list event)
    (e : event) : Prop :=
  ∀ x, e = Published x →
    ∃ before s after changed reconciling,
      past = before ++ s :: after ∧ saved s ∧ passed plugin reason changed reconciling before ∧
      (x = TopologyChanged changed ∧ changed ≠ [] ∨ x = StateChanged reconciling ∧ reconciling ≠ []).

Lemma announces_steps plugin reason past e :
  (∀ x, e ≠ Published x) → announces plugin reason past e.
Proof. intros He x ->. by destruct (He x). Qed.

Lemma wp_publish_topology_changes plugin reason changed reconciling before s after :
  saved s → passed plugin reason changed reconciling before →
  wp (announces plugin reason) (publish_topology_changes changed reconciling) (before ++ s :: after)
    (λ _ _, True).
Proof.
  intros Hs Hpass. unfold publish_topology_changes.
  assert (∀ after', (if bool_decide (reconciling = []) then True else
    announces plugin reason (before ++ s :: after') (Published (StateChanged reconciling)))) as Hstate.
  { intros after'. case_bool_decide; [done|]. intros x [= <-].
    exists before, s, after', changed, reconciling. split_and!; auto. }
  destruct (decide (changed = [])) as [Hc|Hc].
  - rewrite (bool_decide_true (changed = [])) by done. cbn [mbind task_bind].
    specialize (Hstate after). destruct (bool_decide _); [done|]. by split.
  - rewrite (bool_decide_false (changed = [])) by done. split.
    + intros x [= <-]. exists before, s, after, changed, reconciling. split_and!; auto.
    + cbn [mbind task_bind]. rewrite <-app_assoc. cbn [app].
      specialize (Hstate (after ++ [Published (TopologyChanged changed)])).
      destruct (bool_decide _); [done|]. by split.
Qed.

Lemma wp_coordinate_plugin plugin reason past :
  wp (announces plugin reason) (coordinate_plugin reason plugin) past (λ _ _, True).
Proof.
  apply wp_silently; [intros; by apply announces_steps|]. intros o w w' known _. apply wp_bind.
  eapply wp_mono.
  { apply wp_unpublished; [apply announces_steps|apply unpublished_execute, unpublished_coordinator_job|].
    apply (wp_execute_without _ _ _
      (λ x tr, passed plugin reason x.1 x.2 tr)). intros past'.
    eapply wp_mono; [apply wp_coordinator_job|]. intros r tr _ Hr [changed reconciling] ->. by apply Hr. }
  intros [[changed reconciling]|error] tr _ Hr; [|done].
  destruct (Hr _ eq_refl) as (before & s & -> & Hpass & Hs). by apply wp_publish_topology_changes.
Qed.

(** ** What suspending does *)

Section suspending.
Context `{DebugFormat}.

(** The desired state, the baseline and the topology are as before, and no plugin is
    called. *)
Definition keeps_intent (e : event) : Prop :=
  ∀ m o w w', e = Stepped m o w w' →
    m = None ∧ snapshot_of (w_state w') = snapshot_of (w_state w) ∧
    ds_devices (w_state w') = ds_devices (w_state w).

Lemma client_streams_ended targets : ∀ pm acc t g,
  t ∈ targets → pm_shm_client pm !! stream_key t = Some g →
  ∃ t', t' ∈ targets ∧ stream_key t' = stream_key t ∧
    (t', g) ∈ (fold_left force_end_shm_client targets (acc, pm)).1.
Proof.
  assert (∀ targets acc pm p, p ∈ acc → p ∈ (fold_left force_end_shm_client targets (acc, pm)).1) as Hacc.
  { clear. induction targets as [|x targets IH]; intros acc pm p Hp; cbn [fold_left]; [done|].
    unfold force_end_shm_client at 2. case_match; apply IH; set_solver. }
  induction targets as [|x targets IH]; intros pm acc t g Ht Hg; [by apply elem_of_nil in Ht|].
  cbn [fold_left]. unfold force_end_shm_client at 2.
  destruct (decide (stream_key x = stream_key t)) as [Heq|Hne].
  - rewrite Heq, Hg. exists x. split_and!; [left|done|]. apply Hacc. set_solver.
  - apply elem_of_cons in Ht as [-> |Ht]; [done|].
    destruct (pm_shm_client pm !! stream_key x) as [g'|] eqn:Hx.
    + destruct (IH (set_shm_client pm (delete (stream_key x) (pm_shm_client pm))) (acc ++ [(x, g')]) t g Ht)
        as (t' & ? & ? & ?); [destruct pm; cbn; by rewrite lookup_delete_ne|].
      exists t'. split_and!; [by right|done..].
    + destruct (IH pm acc t g Ht Hg) as (t' & ? & ? & ?). exists t'. split_and!; [by right|done..].
Qed.

(** The streams that were running are over, and who published one from shared memory is
    told. *)
Definition streams_ended (tr : list event) : Prop :=
  ∃ o v, Stepped None o v v ∈ tr ∧ ∀ t, t ∈ dom (ds_frame_streams (w_state v)) →
    (∃ o1 x x', Stepped None o1 x x' ∈ tr ∧ ds_frame_streams (w_state x') !! t = None) ∧
    (∃ o2 y y', Stepped None o2 y y' ∈ tr ∧ ∀ g,
       pm_shm_client (w_manager y) !! stream_key t = Some g →
       ∃ t', stream_key t' = stream_key t ∧ Published (ShmStreamEnded t' g) ∈ tr).

Definition quiesced (tr : list event) : Prop :=
  streams_ended tr ∧
  ∃ before o u u', tr = before ++ [Stepped None o u u'] ∧
    ∀ k observation, ds_observations (w_state u') !! k = Some observation →
      fo_stale observation = true.

Lemma streams_ended_mono tr tr' : tr `prefix_of` tr' → streams_ended tr → streams_ended tr'.
Proof.
  intros [l ->] (o & v & Hv & Ht). exists o, v. split; [set_solver|]. intros t Hin.
  destruct (Ht t Hin) as [(o1 & x & x' & ? & ?) (o2 & y & y' & ? & Hg)]. split.
  - exists o1, x, x'. split; [set_solver|done].
  - exists o2, y, y'. split; [set_solver|]. intros g Hy. destruct (Hg g Hy) as (t' & ? & ?).
    exists t'. split; [done|set_solver].
Qed.

Lemma elem_of_streaming_targets st t : t ∈ streaming_targets st ↔ t ∈ dom (ds_frame_streams st).
Proof.
  unfold streaming_targets. rewrite merge_sort_Permutation, list_elem_of_fmap, elem_of_dom. split.
  - intros ([t' s] & -> & Hin%elem_of_map_to_list). by exists s.
  - intros [s Hs]. exists (t, s). split; [done|]. by apply elem_of_map_to_list.
Qed.

Lemma wp_publish_ended (ended : list (TargetId * Z)) past :
  WP (task_map (λ p : TargetId * Z, publish (ShmStreamEnded p.1 p.2)) ended) past (λ _ tr,
    past `prefix_of` tr ∧ ∀ t g, (t, g) ∈ ended → Published (ShmStreamEnded t g) ∈ tr).
Proof.
  revert past. induction ended as [|[t g] ended IH]; intros past; cbn [task_map].
  { apply wp_return. split; [done|]. intros t g. by rewrite elem_of_nil. }
  split; [done|]. cbn [mbind task_bind]. apply wp_bind. eapply wp_mono; [apply IH|].
  intros ? tr _ [[l ->] Hall]. apply wp_return. split.
  - rewrite <-app_assoc. by apply prefix_app_r.
  - intros t' g' [[= -> ->]|Hin]%elem_of_cons; [set_solver|by apply Hall].
Qed.

Lemma wp_quiesce past : WP quiesce_for_suspend past (λ _ tr, quiesced tr).
Proof.
  apply wp_silently; [done|]. intros o v ? streaming [= <- Hs]. apply wp_bind.
  eapply (wp_mono _ _ _ (λ _ tr, streams_ended tr)).
  - case_bool_decide as Hempty.
    + apply wp_return. exists o, v. split; [set_solver|]. intros t Ht%elem_of_streaming_targets.
      rewrite Hs, Hempty in Ht. by apply elem_of_nil in Ht.
    + cbv zeta. apply wp_silently; [done|]. intros o1 x x' [] [= <-].
      apply wp_silently; [done|]. intros o2 y y' [] [= <-].
      apply wp_silently; [done|]. intros o3 z z' ended Hz.
      destruct (end_all_shm_client_streams _ _) as [ended' pm] eqn:Hended. injection Hz as <- <-.
      apply wp_bind. eapply wp_mono; [apply wp_publish_ended|]. intros ? tr _ [[l ->] Hpub].
      split; [done|]. apply wp_return. exists o, v. split; [set_solver|].
      intros t Ht%elem_of_streaming_targets. rewrite Hs in Ht. split.
      * exists o1, x, (set_state x (end_all_frame_streams (w_state x) streaming)). split; [set_solver|].
        rewrite w_state_set. destruct (end_all_spec (w_state x) streaming) as [_ Hend].
        rewrite Hend. by rewrite decide_True.
      * exists o3, z, (set_manager z pm). split; [set_solver|]. intros g Hg.
        destruct (client_streams_ended streaming (w_manager z) [] t g Ht Hg) as (t' & _ & Hk & Hin).
        unfold end_all_shm_client_streams in Hended. rewrite Hended in Hin. cbn in Hin.
        exists t'. split; [done|]. specialize (Hpub t' g Hin). rewrite elem_of_app. by left.
  - intros [] tr _ Hended. intros o2 u u' [] [= <-]. split; [done|]. apply wp_return. split.
    + eapply streams_ended_mono; [|exact Hended]. by apply prefix_app_r.
    + eexists tr, o2, u, _. split; [done|]. rewrite w_state_set. unfold mark_observations_stale. cbn [fst].
      intros k observation. destruct (w_state u). cbn. rewrite lookup_fmap. intros (ob & ? & ->)%fmap_Some.
      done.
Qed.

Lemma keeps_publish_ended (ended : list (TargetId * Z)) past :
  wp (λ _, keeps_intent) (task_map (λ p : TargetId * Z, publish (ShmStreamEnded p.1 p.2)) ended) past
    (λ _ _, True).
Proof.
  revert past. induction ended as [|p ended IH]; intros past; cbn [task_map]; [done|].
  split; [by intros ? ? ? ? [=]|]. cbn [mbind task_bind]. apply wp_bind. by eapply wp_mono; [apply IH|].
Qed.
Lemma wp_quiesce_keeps past : wp (λ _, keeps_intent) quiesce_for_suspend past (λ _ _, True).
Proof.
  assert (∀ o w st, snapshot_of st = snapshot_of (w_state w) → ds_devices st = ds_devices (w_state w) →
    keeps_intent (Stepped None o w (set_state w st))) as Hstate.
  { intros o w st Hs Hd m ? ? ? [= <- <- <- <-]. by rewrite w_state_set. }
  assert (∀ o w pm, keeps_intent (Stepped None o w (set_manager w pm))) as Hmanager.
  { intros o w pm m ? ? ? [= <- <- <- <-]. by destruct w. }
  intros o v ? streaming [= <- Hs]. split; [by intros ? ? ? ? [= <- <- <- <-]|]. apply wp_bind.
  eapply (wp_mono _ _ _ (λ _ _, True)).
  - case_bool_decide; [done|]. intros o1 x x' [] [= <-]. split.
    { destruct (end_all_spec (w_state x) streaming) as [Hsame _]. rewrite Hsame.
      apply Hstate; by destruct (w_state x). }
    intros o2 y y' [] [= <-]. split; [apply Hmanager|]. intros o3 z z' ended Hz. split.
    { destruct (end_all_shm_client_streams _ _). injection Hz as <- <-. apply Hmanager. }
    apply wp_bind. eapply wp_mono; [apply keeps_publish_ended|by split].
  - intros [] tr _ _ o2 u u' [] [= <-]. split; [|done].
    apply Hstate; unfold mark_observations_stale; by destruct (w_state u).
Qed.
End suspending.
End outcomes.

(** ** Claims *)

(** C14: Reconciling a device writes to hardware only under the policy to restore, and then
    only, to targets of the device that exist, an adopted facet or an entry of the desired
    state that the hardware does not keep by itself, as they were recorded shortly before
    and with the colour resolved for the target; besides that it only reads the device. *)
Theorem reconciliation_confined `{Wire, Env, Display} others decides device policy w before m o u u'
    after w' r :
  runs others decides w (reconcile_device device policy)
    (before ++ Stepped (Some m) o u u' :: after) w' r →
  (∃ request, m = Msg_ReadState device request) ∨
  policy = Policy_Restore ∧
  ∃ o1 v o2 v2 updates, Stepped None o1 v v ∈ before ∧ Stepped None o2 v2 v2 ∈ before ∧
    m = Msg_Batch updates ∧
    ∀ x, x ∈ updates → ∃ operation, restorable (w_state v) device (x.1, operation) ∧
      x.2 = resolve_operation_colour (w_state v2) x.1 operation.
Proof.
  intros Hr. eapply wp_sound in Hr as [Hall _]; [|apply (reconciles_reconcile_device device policy [])].
  by eapply (Hall before _ after eq_refl).
Qed.

(** C23: The result of reconciling a device says what happened.  After success under restore
    every recorded update was accepted by its plugin; then, unless nothing of the device can
    be read, it was read, the snapshot was accepted, and no observation of confirmed
    confidence differs from what was written (others are not compared).  After success under
    adopt the facets are those of a snapshot that was read and accepted last; other policies
    give nothing to adopt; and after a failure the status of the device says that it failed
    or drifted, and why. *)
Theorem reconciliation_reported `{Wire, Env, Display} others decides device policy w tr w' r :
  runs others decides w (reconcile_device device policy) tr w' (Done r) →
  reconciled device policy r tr.
Proof.
  intros Hr. by eapply wp_sound in Hr as [_ HQ]; [|apply (wp_reconcile_device device policy [])].
Qed.

(** A pass of the coordinator that succeeds has reconciled exactly the devices that the
    plugin changed and, after a resume or on request of an operator, every device that
    it owns: each was gone by then or its reconciliation began. *)
Theorem rescan_covers_devices `{Wire, Env, Display} others decides plugin reason w tr w' changed
    reconciling :
  runs others decides w (coordinator_job plugin reason) tr w' (Done (Ok (changed, reconciling))) →
  ∃ r o v, pulled plugin r tr ∧ Stepped None o v v ∈ tr ∧
    changed = tr_changed_devices r ∧
    (∀ d, d ∈ reconciling ↔ d ∈ changed ∨ exhaustive reason = true ∧
       ∃ device, device ∈ tr_devices r ∧ device_id device = d ∧
         owner_name (w_manager v) d = Some plugin) ∧
    (∀ d, d ∈ reconciling → visited d tr).
Proof.
  intros Hr. eapply wp_sound in Hr as [_ HQ]; [|apply (wp_coordinator_job plugin reason [])].
  destruct (HQ _ _ eq_refl) as (r & o & v & Hp & Hv & -> & -> & _ & Hall).
  exists r, o, v. split_and!; [done..| |done]. intros d.
  rewrite elem_of_devices_to_reconcile, list_elem_of_filter, list_elem_of_fmap. naive_solver.
Qed.


(** A burst of notifications becomes one pass over each plugin that observed a change
    and, if a rescan is among them, over every loaded plugin, each once; the rescan is
    as strong as the strongest that was asked for. *)
Theorem bursts_collected `{Wire} others decides first burst w tr w' batch reason :
  runs others decides w (collect_topology_batch first burst) tr w' (Done (batch, reason)) →
  NoDup batch ∧
  (∀ n, strength reason ≤ n ↔ Forall (λ x, strength (asks x) ≤ n) (first :: burst)) ∧
  match reason with
  | None => ∀ p, p ∈ batch ↔ PluginObserved p ∈ first :: burst
  | Some _ => ∃ o v, Stepped None o v v ∈ tr ∧
      ∀ p, p ∈ batch ↔ PluginObserved p ∈ first :: burst ∨ p ∈ plugin_names (w_manager v)
  end.
Proof.
  intros Hr. by eapply wp_sound in Hr as [_ HQ]; [|apply (wp_collect_topology_batch first burst [])].
Qed.

(** Suspending keeps what the user asked for and calls no plugin; when it is done every
    stream that was running is over, every client that published one from shared memory
    is told, and no observation counts as current. *)
Theorem suspend_quiesces `{Wire, DebugFormat} others decides w tr w' r :
  runs others decides w quiesce_for_suspend tr w' r →
  Forall keeps_intent tr ∧ (r = Done tt → quiesced tr).
Proof.
  intros Hr. split.
  - pose proof Hr as Hk. eapply wp_sound in Hk as [Hall _]; [|apply (wp_quiesce_keeps [])].
    apply Forall_forall. intros e (before & after & ->)%list_elem_of_split. by eapply Hall.
  - intros ->. by eapply wp_sound in Hr as [_ HQ]; [|apply (wp_quiesce [])].
Qed.

(** Restoring a device whose baseline was adopted and changed since then ends in drift:
    the adopted facet and the desired value that supersedes it are both expected of the
    hardware, so whatever confirmed value it reports, the verification disagrees. *)
Theorem superseded_facet_drifts st st' device facet entry operation expected expected' o :
  facet ∈ ds_adopted_baseline st → entry ∈ ds_target_state st →
  tse_target entry = af_target facet → TargetId_device_id (af_target facet) = device →
  is_Some (capabilities_for_target st (af_target facet)) →
  persistence_requirement_for_target st (af_target facet) ≠ Some Requirement_Required →
  operation_for_facet (af_value facet) = Some operation →
  expected_facet st' (af_target facet) operation = Some expected →
  expected_facet st' (af_target facet) (operation_for_target_state (tse_state entry)) = Some expected' →
  FacetValue_kind expected = FacetValue_kind expected' → expected ≠ expected' →
  ds_observations st' !! (af_target facet, FacetValue_kind expected) = Some o →
  fo_confidence o = Confirmed →
  confirmed_observations_match st' (pending_cached_state st (Some [device])) = false.
Proof.
  intros Hf He Ht Hd Hc Hp Hop Hx Hx' Hk Hne Ho Hconf. apply not_true_is_false. intros Hm.
  unfold confirmed_observations_match in Hm. rewrite forallb_forall in Hm.
  assert (∀ u v, u ∈ pending_cached_state st (Some [device]) → u.1 = af_target facet →
    expected_facet st' u.1 u.2 = Some v → FacetValue_kind v = FacetValue_kind expected →
    fo_value o = v) as Hall.
  { intros u v Hu%list_elem_of_In Hu1 Hv Hkv. specialize (Hm u Hu). rewrite Hv, Hkv, Hu1, Ho in Hm.
    rewrite (bool_decide_true (fo_confidence o = Confirmed)) in Hm by done. cbn in Hm.
    by apply bool_decide_eq_true in Hm. }
  apply Hne. transitivity (fo_value o); [symmetry|].
  - apply (Hall (af_target facet, operation)); [|done..]. apply elem_of_pending. split_and!; [done..|]. left. eauto.
  - apply (Hall (af_target facet, operation_for_target_state (tse_state entry))); [|done..].
    apply elem_of_pending. split_and!; [done..|]. right. eauto.
Qed.

(** ** Examples *)

Module Reconciling.
#[export] Instance display : Display := {| display_error _ := "error"; display_text _ := "error" |}.

(** A keyboard that reports its brightness, 200. *)
Definition capabilities : CapabilitySet := {|
  cs_colour := [ColourCapability_Monochrome 8]; cs_cct_emulation := CctEmulation_Auto;
  cs_brightness := Brightness_Independent 8 255 Scope_Device; cs_frame_upload := None;
  cs_hardware_effects := None; cs_appearance_slots := None; cs_persistence := Persistence_None;
  cs_state_readback :=
    Readback_Readable [{| rf_facet := Kind_Brightness; rf_fidelity := Fidelity_Exact |}] false false;
  cs_emission := true; cs_off_is_wear_safe := true; cs_physical_power := None;
  cs_power_domain := None |}.
Definition device : Device := {|
  device_id := DeviceId_new "kbd"; device_name := "keyboard"; device_vendor := None;
  device_model := None; device_provider_instance := None; device_surfaces := [];
  device_groups := []; device_capabilities := capabilities; device_category := None;
  device_physical_tags := []; device_host_attached := true; device_notes := [];
  device_warnings := [] |}.
Definition hosts : Hosts := {|
  host_apply_batch := host_apply_batch Answering.hosts;
  host_apply := host_apply Answering.hosts;
  host_read_state _ _ := Ok {|
    pss_observations := [{| pfo_target := PluginTarget_Device "kbd"; pfo_value := Facet_Brightness 200 |}];
    pss_errors := [] |};
  worker_starts := worker_starts Answering.hosts; worker_panics := worker_panics Answering.hosts |}.
Definition outside : Outside :=
  let 'Build_Outside a b c d _ f g h i j k l m n p q r s t u v w x := Running.outside in
  Build_Outside a b c d hosts f g h i j k l m n p q r s t u v w x.

(** The brightness was adopted at 100 and set to 200 since then. *)
Definition facet : AdoptedFacet :=
  {| af_target := Running.target; af_value := Facet_Brightness 100; af_confirmed_at_ms := 1 |}.
Definition dimmed : DaemonState :=
  set_target_state (from_devices [device]) [TargetStateEntry_mk Running.target (TS_Brightness 200)].
Definition adopted : DaemonState := set_adopted_baseline dimmed [facet].

Definition run {A} (w : World) (t : @task Running.wire A) : list event * World * outcome A :=
  default ([], w, Stopped) (exec (λ _ _, Allow) outside w t).
Definition restore_run (st : DaemonState) :=
  run (set_state Running.world st)
    (@reconcile_device Running.wire sample_env _ (DeviceId_new "kbd") Policy_Restore).
Definition job_run := run Running.world
  (@coordinator_job Running.wire sample_env _ "razer" (Some Rescan_Resume)).
Definition coordinate_run := run Running.world
  (@coordinate_plugin Running.wire sample_env _ (Some Rescan_Resume) "razer").
Definition collect_run := run Running.world
  (@collect_topology_batch Running.wire (PluginObserved "strip") [Rescan Rescan_Resume; Rescan Rescan_DeviceChange]).

Definition published (tr : list (@event Running.wire)) : list Event :=
  omap (λ e, match e with Published x => Some x | _ => None end) tr.

(** The state file cannot be replaced. *)
Definition read_only : Outside :=
  let 'Build_Outside a b c d e f g _ i j k l m n p q r s t u v w x := outside in
  Build_Outside a b c d e f g (Err (Lit "read-only file system")) i j k l m n p q r s t u v w x.
Definition unsaved_run := default ([], Running.world, Stopped)
  (exec (λ _ _, Allow) read_only Running.world
     (@coordinate_plugin Running.wire sample_env _ (Some Rescan_Resume) "razer")).

#[export] Instance debug : DebugFormat :=
  {| debug_target t := PluginTarget_to_string (plugin_target_from_target_id t) |}.
Definition panel : TargetId := TargetId_device "panel".
Definition playing : World :=
  set_manager (set_state Running.world (begin_frame_stream (from_devices [Streaming.panel]) panel).1)
    (set_shm_client Loaded.manager {[ stream_key panel := 1%Z ]}).
Definition quiesce_run := run playing (@quiesce_for_suspend Running.wire debug).
End Reconciling.

Lemma reconciling_runs {A} w (t : @task Running.wire A) a :
  (Reconciling.run w t).2 = Done a →
  runs (λ _ _, False) (λ _ _ d, d = Allow) w t (Reconciling.run w t).1.1 (Reconciling.run w t).1.2
    (Done a).
Proof.
  unfold Reconciling.run. destruct (exec _ _ _ _) as [[[tr w'] r]|] eqn:He; cbn; [|done].
  intros ->. by eapply exec_runs.
Qed.


(** When the state cannot be saved, the topology that clients see changes without an
    announcement. *)
Theorem unsaved_topology_unannounced :
  let '(tr, w, r) := Reconciling.unsaved_run in
  r = Done tt ∧ Reconciling.published tr = [] ∧
  ds_devices (w_state w) ≠ ds_devices (w_state Running.world) ∧
  ds_topology_generation (w_state w) ≠ ds_topology_generation (w_state Running.world).
Proof.
  destruct Reconciling.unsaved_run as [[tr w] r] eqn:Hrun.
  assert (r = Reconciling.unsaved_run.2) as -> by by rewrite Hrun.
  assert (tr = Reconciling.unsaved_run.1.1) as -> by by rewrite Hrun.
  assert (w = Reconciling.unsaved_run.1.2) as -> by by rewrite Hrun.
  split_and!; [by vm_compute|by vm_compute| |by vm_compute].
  intros Heq. apply (f_equal (λ m, device_name <$> m !! DeviceId_new "kbd")) in Heq. by vm_compute in Heq.
Qed.

(** The adopted facet alone is enough: restoring it and then what supersedes it drifts,
    although the keyboard has exactly the desired brightness. *)
Example superseded_run :
  (Reconciling.restore_run Reconciling.dimmed).2 = Done (Ok []) ∧
  (Reconciling.restore_run Reconciling.adopted).2 =
    Done (Err (DE_Internal (Lit restore_disagreed))).
Proof. split; by vm_compute. Qed.

Lemma reconciliation_confined_witness :
  (Reconciling.restore_run Reconciling.dimmed).2 = Done (Ok []) ∧
  Dimming.message_at (Reconciling.restore_run Reconciling.dimmed).1.1 3 =
    Some (Msg_Batch [(Running.target, Op_SetBrightness 200)]) ∧
  ∃ o v operation, Stepped None o v v ∈ take 3 (Reconciling.restore_run Reconciling.dimmed).1.1 ∧
    restorable (w_state v) (DeviceId_new "kbd") (Running.target, operation).
Proof.
  assert ((Reconciling.restore_run Reconciling.dimmed).2 = Done (Ok [])) as Hdone
    by (vm_compute; reflexivity).
  assert (Dimming.message_at (Reconciling.restore_run Reconciling.dimmed).1.1 3 =
    Some (Msg_Batch [(Running.target, Op_SetBrightness 200)])) as Hat by (vm_compute; reflexivity).
  split; [exact Hdone|]. split; [exact Hat|].
  pose proof (reconciling_runs _ _ _ Hdone) as Hrun. fold (Reconciling.restore_run Reconciling.dimmed) in Hrun.
  revert Hat Hrun. unfold Dimming.message_at.
  destruct ((Reconciling.restore_run Reconciling.dimmed).1.1 !! 3) as [[[m|] o u u'| |]|] eqn:Hi;
    intros Hat Hrun; try discriminate Hat.
  rewrite <-(take_drop_middle _ _ _ Hi) in Hrun. injection Hat as ->.
  destruct (@reconciliation_confined Running.wire sample_env _ _ _ _ _ _ _ _ _ _ _ _ _ _ Hrun)
    as [[request Hread]|(_ & o1 & v & o2 & v2 & updates & Hv & _ & Hm & Hall)]; [discriminate Hread|].
  injection Hm as <-. destruct (Hall _ (list_elem_of_here _ _)) as (operation & Hr & _).
  exists o1, v, operation. split; [exact Hv|exact Hr].
Defined.

Lemma reconciliation_reported_witness :
  (Reconciling.restore_run Reconciling.dimmed).2 = Done (Ok []) ∧
  @restored Running.wire sample_env (DeviceId_new "kbd") (Reconciling.restore_run Reconciling.dimmed).1.1 ∧
  failure_noted (DeviceId_new "kbd") (Reconciling.restore_run Reconciling.adopted).1.1.
Proof.
  assert ((Reconciling.restore_run Reconciling.dimmed).2 = Done (Ok [])) as Hdone
    by (vm_compute; reflexivity).
  split; [exact Hdone|]. split.
  - exact (proj1 (@reconciliation_reported Running.wire sample_env _ _ _ _ _ _ _ _ _
      (reconciling_runs _ _ _ Hdone)) eq_refl).
  - exact (@reconciliation_reported Running.wire sample_env _ _ _ _ _ _ _ _ _
      (reconciling_runs _ _ _ (proj2 superseded_run))).
Defined.

Lemma rescan_covers_devices_witness :
  Reconciling.job_run.2 = Done (Ok ([DeviceId_new "kbd"], [DeviceId_new "kbd"])) ∧
  @visited Running.wire sample_env (DeviceId_new "kbd") Reconciling.job_run.1.1.
Proof.
  assert (Reconciling.job_run.2 = Done (Ok ([DeviceId_new "kbd"], [DeviceId_new "kbd"]))) as Hdone
    by (vm_compute; reflexivity).
  split; [exact Hdone|].
  destruct (@rescan_covers_devices Running.wire sample_env _ _ _ _ _ _ _ _ _ _
    (reconciling_runs _ _ _ Hdone)) as (r & o & v & _ & _ & _ & _ & Hall).
  apply Hall. left.
Defined.


Lemma bursts_collected_witness :
  Reconciling.collect_run.2 =
    Done (["openrgb"; "razer"; "strip"]%string, Some Rescan_Resume) ∧
  NoDup ["openrgb"; "razer"; "strip"]%string.
Proof.
  assert (Reconciling.collect_run.2 =
    Done (["openrgb"; "razer"; "strip"]%string, Some Rescan_Resume)) as Hdone by (vm_compute; reflexivity).
  split; [exact Hdone|].
  exact (proj1 (@bursts_collected Running.wire _ _ _ _ _ _ _ _ _ (reconciling_runs _ _ _ Hdone))).
Defined.

Lemma suspend_quiesces_witness :
  Reconciling.quiesce_run.2 = Done tt ∧
  Reconciling.published Reconciling.quiesce_run.1.1 =
    [ShmStreamEnded Reconciling.panel 1; StateChanged [DeviceId_new "panel"]] ∧
  quiesced Reconciling.quiesce_run.1.1.
Proof.
  assert (Reconciling.quiesce_run.2 = Done tt) as Hdone by (vm_compute; reflexivity).
  split; [exact Hdone|]. split; [vm_compute; reflexivity|].
  exact (proj2 (@suspend_quiesces Running.wire _ _ _ _ _ _ _ (reconciling_runs _ _ _ Hdone))
    eq_refl).
Defined.

Lemma superseded_facet_drifts_witness :
  confirmed_observations_match (w_state (Reconciling.restore_run Reconciling.adopted).1.2)
    (pending_cached_state Reconciling.adopted (Some [DeviceId_new "kbd"])) = false.
Proof.
  set (st' := w_state _).
  assert (is_Some (st'.(ds_observations) !! (Running.target, Kind_Brightness))) as [o Ho]
    by (vm_compute; eauto).
  refine (superseded_facet_drifts Reconciling.adopted st' (DeviceId_new "kbd") Reconciling.facet
    (TargetStateEntry_mk Running.target (TS_Brightness 200)) (Op_SetBrightness 100)
    (Facet_Brightness 100) (Facet_Brightness 200) o _ _ eq_refl eq_refl _ _ eq_refl eq_refl eq_refl
    eq_refl _ Ho _).
  - left.
  - left.
  - vm_compute. eauto.
  - vm_compute. discriminate.
  - discriminate.
  - assert (fo_confidence <$> ds_observations st' !! (Running.target, Kind_Brightness) = Some Confirmed)
      as Hc by (vm_compute; reflexivity).
    rewrite Ho in Hc. by injection Hc.
Defined.
