(* ===== verification/ByteStrings.v ===== *)
(** * Byte strings

    What the wire formats share: big-endian integers, reading from a stream, exclusive-or
    checksums, and positions in concatenations.  A byte string is a list of [u8] values. *)

From S2P Require Import Prelude.

(** ** Big-endian integers *)

Definition be_bytes (n : nat) (z : Z) : list Z := rev (le_bytes n z).
Definition from_be (bs : list Z) : Z := from_le (rev bs).

Lemma be_bytes_length n z : length (be_bytes n z) = n.
Proof. unfold be_bytes. by rewrite length_rev, le_bytes_length. Qed.
Lemma from_be_bytes n z : uN (8 * Z.of_nat n) z → from_be (be_bytes n z) = z.
Proof. intros Hz. unfold from_be, be_bytes. rewrite rev_involutive. by apply from_le_bytes. Qed.
Lemma from_be_range bs : Forall u8 bs → uN (8 * Z.of_nat (length bs)) (from_be bs).
Proof.
  intros Hbs. unfold from_be. rewrite <-(length_rev bs). apply from_le_range.
  apply Forall_rev in Hbs. exact Hbs.
Qed.

(** ** Streams *)

(** [read_exact], which consumes what there is when the stream ends early. *)
Definition read_exact (n : nat) (stream : list Z) : option (list Z) * list Z :=
  if decide (n ≤ length stream) then (Some (take n stream), drop n stream) else (None, []).

Lemma read_exact_app n bs rest : length bs = n → read_exact n (bs ++ rest) = (Some bs, rest).
Proof.
  intros <-. unfold read_exact. rewrite length_app, decide_True by lia.
  by rewrite take_app_length, drop_app_length.
Qed.
Lemma read_exact_spec n stream :
  match read_exact n stream with
  | (Some bs, rest) => stream = bs ++ rest ∧ length bs = n
  | (None, rest) => rest = [] ∧ length stream < n
  end.
Proof.
  unfold read_exact. case_decide; [|split; [done|lia]].
  split; [by rewrite take_drop|rewrite length_take; lia].
Qed.


(** ** Exclusive-or checksums *)

(** [bytes.iter().fold(0, |crc, byte| crc ^ byte)] *)
Definition xor_all (bytes : list Z) : Z := fold_left Z.lxor bytes 0%Z.

Lemma xor_fold bytes a : fold_left Z.lxor bytes a = Z.lxor a (xor_all bytes).
Proof.
  unfold xor_all. revert a. induction bytes as [|b bytes IH]; intros a; cbn.
  { by rewrite Z.lxor_0_r. }
  rewrite IH, (IH (Z.lxor 0 b)), Z.lxor_0_l. by rewrite Z.lxor_assoc.
Qed.
Lemma xor_all_cons b bytes : xor_all (b :: bytes) = Z.lxor b (xor_all bytes).
Proof. unfold xor_all at 1. cbn. by rewrite xor_fold, Z.lxor_0_l. Qed.
Lemma xor_all_app xs ys : xor_all (xs ++ ys) = Z.lxor (xor_all xs) (xor_all ys).
Proof. unfold xor_all at 1. rewrite fold_left_app. by rewrite xor_fold. Qed.

Lemma lxor_uN w a b : (0 <= w)%Z → uN w a → uN w b → uN w (Z.lxor a b).
Proof.
  intros Hw [Ha1 Ha2] [Hb1 Hb2]. split; [by apply Z.lxor_nonneg|].
  destruct (Z.eq_dec (Z.lxor a b) 0) as [->|Hne]; [apply Z.pow_pos_nonneg; lia|].
  assert (0 <= Z.lxor a b)%Z as Hn by by apply Z.lxor_nonneg.
  apply Z.log2_lt_pow2; [lia|]. eapply Z.le_lt_trans; [by apply Z.log2_lxor|].
  apply Z.max_lub_lt.
  - destruct (Z.eq_dec a 0) as [->|]; [|apply Z.log2_lt_pow2; lia].
    cbn. destruct (Z.eq_dec w 0) as [->|]; [|lia].
    assert (b = 0)%Z as -> by (change (2 ^ 0)%Z with 1%Z in *; lia). done.
  - destruct (Z.eq_dec b 0) as [->|]; [|apply Z.log2_lt_pow2; lia].
    cbn. destruct (Z.eq_dec w 0) as [->|]; [|lia].
    assert (a = 0)%Z as -> by (change (2 ^ 0)%Z with 1%Z in *; lia). done.
Qed.
Lemma xor_all_u8 bytes : Forall u8 bytes → u8 (xor_all bytes).
Proof.
  induction 1 as [|b bytes Hb _ IH]; [by vm_compute|]. rewrite xor_all_cons. by apply lxor_uN.
Qed.

(** One changed byte changes the checksum. *)
Lemma xor_all_insert bytes i old new :
  bytes !! i = Some old →
  xor_all (<[i := new]> bytes) = Z.lxor (xor_all bytes) (Z.lxor old new).
Proof.
  intros Hi. rewrite insert_take_drop by (by eapply lookup_lt_Some).
  rewrite <-(take_drop_middle bytes i old Hi) at 3.
  rewrite !xor_all_app, !xor_all_cons. apply Z.bits_inj. intros k. rewrite !Z.lxor_spec.
  by do 4 (destruct (Z.testbit _ _)).
Qed.
Lemma xor_all_insert_ne bytes i old new :
  bytes !! i = Some old → new ≠ old → xor_all (<[i := new]> bytes) ≠ xor_all bytes.
Proof.
  intros Hi Hne. rewrite (xor_all_insert _ _ _ _ Hi). intros Heq. apply Hne.
  assert (Z.lxor old new = 0)%Z as H0.
  { rewrite <-(Z.lxor_0_r (xor_all bytes)) in Heq at 2.
    apply (f_equal (Z.lxor (xor_all bytes))) in Heq.
    rewrite <-!Z.lxor_assoc, !Z.lxor_nilpotent, !Z.lxor_0_l in Heq. done. }
  symmetry. by apply Z.lxor_eq.
Qed.
