(* ===== verification/Framing.v ===== *)
(** * Framing: [luminate-protocol/src/framing.rs]

    Messages between clients and the daemon travel as frames: a length prefix of four
    bytes, big-endian, and a CBOR payload of at most 8 MiB.  CBOR is a parameter with its
    round trip as a law; a stream is the list of the bytes that are read from it or
    written to it. *)

From S2P Require Import Prelude ByteStrings.

(** ** Streams *)

(** A transport takes [room] more bytes before it fails, or any number. *)
Record Sink := { sink_written : list Z; sink_room : option nat }.
Definition write_all (s : Sink) (bytes : list Z) : Sink * bool :=
  match sink_room s with
  | None => ({| sink_written := sink_written s ++ bytes; sink_room := None |}, true)
  | Some room =>
      ({| sink_written := sink_written s ++ take room bytes;
          sink_room := Some (room - length bytes) |}, bool_decide (length bytes ≤ room))
  end.

(** ** CBOR *)

Class Cbor (T : Type) := {
  into_writer : T → result string (list Z);
  from_reader : list Z → result string T;
  into_writer_bytes v p : into_writer v = Ok p → Forall u8 p;
  from_into v p : into_writer v = Ok p → from_reader p = Ok v
}.

Inductive FramingError :=
| FE_Io
| FE_PayloadTooLarge
| FE_FrameTooLarge (len max : Z)
| FE_CborEncode (error : string)
| FE_CborDecode (error : string)
| FE_Timeout.

Notation framing := (result FramingError).

(** ** Frames between clients and the daemon *)

Definition MAX_FRAME_LEN : Z := 8 * 1024 * 1024.

Section frames.
Context {T} `{Cbor T}.

(** [?] on a write. *)
Definition then_write (r : Sink * bool) (k : Sink → Sink * framing unit) : Sink * framing unit :=
  let '(sink, ok) := r in if ok : bool then k sink else (sink, Err FE_Io).

Definition send (sink : Sink) (value : T) : Sink * framing unit :=
  match into_writer value with
  | Err error => (sink, Err (FE_CborEncode error))
  | Ok payload =>
      match checkU 32 (Z.of_nat (length payload)) with
      | None => (sink, Err FE_PayloadTooLarge)
      | Some len =>
          if (MAX_FRAME_LEN <? len)%Z then (sink, Err (FE_FrameTooLarge len MAX_FRAME_LEN))
          else
            then_write (write_all sink (be_bytes 4 len)) (λ sink,
              then_write (write_all sink payload) (λ sink, (sink, Ok tt)))
      end
  end.

Definition receive_payload (stream : list Z) (len : Z) : framing T * list Z :=
  if (MAX_FRAME_LEN <? len)%Z then (Err (FE_FrameTooLarge len MAX_FRAME_LEN), stream)
  else
    match read_exact (Z.to_nat len) stream with
    | (None, stream) => (Err FE_Io, stream)
    | (Some payload, stream) => (map_err FE_CborDecode (from_reader payload), stream)
    end.

Definition receive (stream : list Z) : framing T * list Z :=
  match read_exact 4 stream with
  | (None, stream) => (Err FE_Io, stream)
  | (Some prefix, stream) => receive_payload stream (from_be prefix)
  end.

(** [elapsed]: the rest of the frame does not arrive within the timeout; what was read
    of it until then is lost. *)
Definition receive_with_frame_timeout (stream : list Z) (elapsed : bool) : framing T * list Z :=
  match read_exact 1 stream with
  | (None, stream) => (Err FE_Io, stream)
  | (Some first, stream) =>
      if elapsed then (Err FE_Timeout, stream)
      else
        match read_exact 3 stream with
        | (None, stream) => (Err FE_Io, stream)
        | (Some rest, stream) => receive_payload stream (from_be (first ++ rest))
        end
  end.

(** A client or the daemon that sends or receives one message after the other. *)
Fixpoint send_all (sink : Sink) (values : list T) : Sink * framing unit :=
  match values with
  | [] => (sink, Ok tt)
  | value :: values =>
      match send sink value with
      | (sink, Ok _) => send_all sink values
      | (sink, Err error) => (sink, Err error)
      end
  end.
Fixpoint receive_all (n : nat) (stream : list Z) : framing (list T) * list Z :=
  match n with
  | O => (Ok [], stream)
  | S n =>
      match receive stream with
      | (Ok value, stream) =>
          match receive_all n stream with
          | (Ok values, stream) => (Ok (value :: values), stream)
          | (Err error, stream) => (Err error, stream)
          end
      | (Err error, stream) => (Err error, stream)
      end
  end.
End frames.

(** ** A frame and what follows it *)

Section properties.
Context {T} `{Cbor T}.

Definition frame (payload : list Z) : list Z := be_bytes 4 (Z.of_nat (length payload)) ++ payload.

(** What a sink took of some bytes. *)
Lemma write_all_spec s bytes s' :
  write_all s bytes = (s', true) → sink_written s' = sink_written s ++ bytes.
Proof.
  unfold write_all. destruct (sink_room s) as [room|]; [|by intros [= <-]].
  case_bool_decide as Hroom; [|done]. intros [= <-]. cbn. by rewrite take_ge.
Qed.
Lemma write_all_prefix s bytes s' b :
  write_all s bytes = (s', b) → ∃ k, sink_written s' = sink_written s ++ take k bytes.
Proof.
  unfold write_all. destruct (sink_room s) as [room|]; intros [= <- <-]; cbn; [by exists room|].
  exists (length bytes). by rewrite firstn_all.
Qed.
Lemma write_all_unbounded s bytes :
  sink_room s = None →
  write_all s bytes = ({| sink_written := sink_written s ++ bytes; sink_room := None |}, true).
Proof. unfold write_all. by intros ->. Qed.

(** Sending: what it writes, and when it fails. *)
Lemma send_Ok sink value sink' :
  send sink value = (sink', Ok tt) →
  ∃ payload, into_writer value = Ok payload ∧ (Z.of_nat (length payload) <= MAX_FRAME_LEN)%Z ∧
    sink_written sink' = sink_written sink ++ frame payload.
Proof.
  unfold send, then_write. destruct (into_writer value) as [payload|]; [|done].
  destruct (checkU 32 _) as [len|] eqn:Hlen; [|done]. apply checkU_Some in Hlen as [-> Hu].
  destruct (Z.ltb_spec MAX_FRAME_LEN (Z.of_nat (length payload))); [done|].
  destruct (write_all sink _) as [s1 []] eqn:H1; [|done].
  destruct (write_all s1 payload) as [s2 []] eqn:H2; [|done]. intros [= <-].
  apply write_all_spec in H1, H2. exists payload. split_and!; [done|lia|].
  unfold frame. by rewrite H2, H1, app_assoc.
Qed.

Lemma receive_frame payload value rest :
  from_reader payload = Ok value → (Z.of_nat (length payload) <= MAX_FRAME_LEN)%Z →
  receive (frame payload ++ rest) = (Ok value, rest).
Proof.
  intros Hv Hlen. unfold receive, frame, receive_payload.
  rewrite <-app_assoc, read_exact_app by apply be_bytes_length.
  rewrite from_be_bytes by (unfold uN, MAX_FRAME_LEN in *; lia).
  destruct (Z.ltb_spec MAX_FRAME_LEN (Z.of_nat (length payload))); [lia|].
  rewrite Nat2Z.id, read_exact_app by done. by rewrite Hv.
Qed.

Lemma send_all_written values : ∀ sink sink',
  send_all sink values = (sink', Ok tt) →
  ∃ payloads, Forall2 (λ v p, into_writer v = Ok p ∧ (Z.of_nat (length p) <= MAX_FRAME_LEN)%Z) values payloads ∧
    sink_written sink' = sink_written sink ++ (payloads ≫= frame).
Proof.
  induction values as [|v values IH]; intros sink sink'; cbn [send_all].
  { intros [= <-]. exists []. split; [constructor|]. cbn. by rewrite app_nil_r. }
  destruct (send sink v) as [s1 [[]|]] eqn:Hs; [|done]. intros Hall.
  apply send_Ok in Hs as (p & Hp & Hlen & Hw). apply IH in Hall as (ps & Hps & Hw').
  exists (p :: ps). split; [by constructor|]. by rewrite Hw', Hw, <-app_assoc.
Qed.

Lemma receive_all_frames values payloads rest :
  Forall2 (λ v p, into_writer v = Ok p ∧ (Z.of_nat (length p) <= MAX_FRAME_LEN)%Z) values payloads →
  receive_all (length values) ((payloads ≫= frame) ++ rest) = (Ok values, rest).
Proof.
  induction 1 as [|v p values payloads [Hp Hlen] _ IH]; [done|]. cbn [length receive_all mbind list_bind].
  rewrite <-app_assoc, (receive_frame p v) by (by apply from_into || done). by rewrite IH.
Qed.

(** A failed send. *)
Lemma send_Err sink value sink' e :
  send sink value = (sink', Err e) →
  match into_writer value with
  | Err error => e = FE_CborEncode error ∧ sink' = sink
  | Ok payload =>
      if (Z.of_nat (length payload) <=? MAX_FRAME_LEN)%Z
      then e = FE_Io ∧ sink_room sink ≠ None ∧
           ∃ k, sink_written sink' = sink_written sink ++ take k (frame payload)
      else sink' = sink ∧
           (e = FE_PayloadTooLarge ∨ e = FE_FrameTooLarge (Z.of_nat (length payload)) MAX_FRAME_LEN)
  end.
Proof.
  unfold send, then_write. destruct (into_writer value) as [payload|error]; [|by intros [= <- <-]].
  destruct (checkU 32 _) as [len|] eqn:Hlen.
  2:{ intros [= <- <-]. destruct (Z.leb_spec (Z.of_nat (length payload)) MAX_FRAME_LEN) as [Hle|]; [|auto].
      rewrite checkU_ok in Hlen; [done|]. unfold uN, MAX_FRAME_LEN in *. lia. }
  apply checkU_Some in Hlen as [-> Hu].
  destruct (Z.ltb_spec MAX_FRAME_LEN (Z.of_nat (length payload))) as [Hlt|Hge].
  { intros [= <- <-]. destruct (Z.leb_spec (Z.of_nat (length payload)) MAX_FRAME_LEN); [lia|auto]. }
  destruct (Z.leb_spec (Z.of_nat (length payload)) MAX_FRAME_LEN); [|lia].
  destruct (write_all sink _) as [s1 b1] eqn:H1.
  assert (sink_room sink = None → b1 = true ∧ sink_room s1 = None) as Hfree.
  { intros Hn. rewrite write_all_unbounded in H1 by done. by injection H1 as <- <-. }
  destruct b1.
  - destruct (write_all s1 payload) as [s2 b2] eqn:H2. destruct b2; [done|]. intros [= <- <-].
    split; [done|]. split.
    + intros Hn. destruct (Hfree Hn) as [_ Hn1]. by rewrite write_all_unbounded in H2.
    + apply write_all_spec in H1. apply write_all_prefix in H2 as [k Hk].
      exists (4 + k). by rewrite Hk, H1, <-app_assoc.
  - intros [= <- <-]. split; [done|]. split; [intros Hn; by destruct (Hfree Hn)|].
    apply write_all_prefix in H1 as [k Hk]. exists (Nat.min k 4). rewrite Hk. f_equal. unfold frame.
    rewrite take_app_le by (rewrite be_bytes_length; lia).
    destruct (Nat.min_spec k 4) as [[Hle ->]|[Hle ->]]; [done|].
    rewrite !take_ge by (rewrite be_bytes_length; lia). done.
Qed.

(** The two halves of the prefix make the whole. *)
Lemma timed_receive stream : receive_with_frame_timeout stream false = receive stream.
Proof.
  unfold receive_with_frame_timeout, receive.
  by destruct stream as [|a [|b [|c [|d stream]]]].
Qed.
End properties.

(** ** Claims *)

(** Messages that were sent one after the other are received one after the other,
    whatever precedes and follows them on the stream: each frame is within the limit of
    the receiver, and receiving one leaves the stream at the next. *)
Theorem frames_roundtrip {T} `{Cbor T} sink values sink' :
  send_all sink values = (sink', Ok tt) →
  ∃ sent, sink_written sink' = sink_written sink ++ sent ∧
    ∀ rest, receive_all (length values) (sent ++ rest) = (Ok values, rest).
Proof.
  intros (payloads & Hp & Hw)%send_all_written. exists (payloads ≫= frame). split; [done|].
  intros rest. by apply receive_all_frames.
Qed.

(** Receiving a frame, with a timeout or without, consumes exactly the frame: a message
    was decoded from a payload of the announced length; a length above the limit is
    refused before any payload is read; only a stream that ends early is an I/O error. *)
Theorem receive_correct {T} `{Cbor T} stream :
  Forall u8 stream →
  receive_with_frame_timeout stream false = receive stream ∧
  match receive stream with
  | (Err FE_Io, rest) => rest = []
  | (Err (FE_FrameTooLarge len max), rest) =>
      ∃ prefix, stream = prefix ++ rest ∧ length prefix = 4 ∧ len = from_be prefix ∧
        max = MAX_FRAME_LEN ∧ (MAX_FRAME_LEN < len)%Z
  | (r, rest) =>
      ∃ prefix payload, stream = prefix ++ payload ++ rest ∧ length prefix = 4 ∧
        from_be prefix = Z.of_nat (length payload) ∧ (from_be prefix <= MAX_FRAME_LEN)%Z ∧
        r = map_err FE_CborDecode (from_reader payload)
  end.
Proof.
  intros Hu. split; [apply timed_receive|]. unfold receive, receive_payload.
  pose proof (read_exact_spec 4 stream) as H4. destruct (read_exact 4 stream) as [[prefix|] rest]; [|by destruct H4].
  destruct H4 as [-> Hl]. apply Forall_app in Hu as [Hp _].
  pose proof (from_be_range prefix Hp) as [Hpos _].
  destruct (Z.ltb_spec MAX_FRAME_LEN (from_be prefix)) as [Hlt|Hle]; [by exists prefix|].
  pose proof (read_exact_spec (Z.to_nat (from_be prefix)) rest) as Hr.
  destruct (read_exact _ rest) as [[payload|] rest']; [|by destruct Hr].
  destruct Hr as [-> Hlen].
  assert (∃ prefix0 payload0, prefix ++ payload ++ rest' = prefix0 ++ payload0 ++ rest' ∧ length prefix0 = 4 ∧
    from_be prefix0 = Z.of_nat (length payload0) ∧ (from_be prefix0 <= MAX_FRAME_LEN)%Z ∧
    map_err FE_CborDecode (@from_reader T _ payload) = map_err FE_CborDecode (from_reader payload0)) as Hx.
  { exists prefix, payload. split_and!; [done|done|lia|done|done]. }
  by destruct (from_reader payload).
Qed.

(** A send that fails leaves the stream at a frame boundary, unless the transport itself
    failed: a message that cannot be encoded or is too large writes nothing; and with a
    transport that takes everything these are the only failures. *)
Theorem send_correct {T} `{Cbor T} sink value sink' r :
  send sink value = (sink', r) →
  match into_writer value, r with
  | Err error, r => r = Err (FE_CborEncode error) ∧ sink' = sink
  | Ok payload, Ok _ =>
      (Z.of_nat (length payload) <= MAX_FRAME_LEN)%Z ∧
      sink_written sink' = sink_written sink ++ frame payload
  | Ok payload, Err e =>
      if (Z.of_nat (length payload) <=? MAX_FRAME_LEN)%Z
      then e = FE_Io ∧ sink_room sink ≠ None ∧
           ∃ k, sink_written sink' = sink_written sink ++ take k (frame payload)
      else sink' = sink ∧
           (e = FE_PayloadTooLarge ∨ e = FE_FrameTooLarge (Z.of_nat (length payload)) MAX_FRAME_LEN)
  end.
Proof.
  destruct r as [[]|e]; intros Hs.
  - apply send_Ok in Hs as (payload & -> & ? & ?). done.
  - apply send_Err in Hs. destruct (into_writer value); [done|]. by destruct Hs as [-> ->].
Qed.

(** ** Witnesses *)

Module Bytes.
(** Messages are bytes already. *)
Definition into (v : list Z) : result string (list Z) :=
  if decide (Forall u8 v) then Ok v else Err "not bytes".
Lemma into_Ok v p : into v = Ok p → Forall u8 p ∧ p = v.
Proof. unfold into. case_decide; [by intros [= <-]|done]. Qed.
Lemma from_into_bytes v p : into v = Ok p → Ok p = Ok (E := string) v.
Proof. by intros [_ ->]%into_Ok. Qed.
Definition cbor : Cbor (list Z) := {|
  into_writer := into; from_reader v := Ok v;
  into_writer_bytes v p Hp := proj1 (into_Ok v p Hp); from_into := from_into_bytes |}.
Definition sink : Sink := {| sink_written := [7]%Z; sink_room := None |}.
Definition messages : list (list Z) := [[1; 2]; []; [255]]%Z.
Definition stream : list Z := [0; 0; 0; 2; 1; 2; 9]%Z.
End Bytes.

Lemma frames_roundtrip_witness :
  sink_written (send_all (H := Bytes.cbor) Bytes.sink Bytes.messages).1 =
    [7; 0; 0; 0; 2; 1; 2; 0; 0; 0; 0; 0; 0; 0; 1; 255]%Z ∧
  ∃ sent, ∀ rest, receive_all (H := Bytes.cbor) 3 (sent ++ rest) = (Ok Bytes.messages, rest).
Proof.
  split; [vm_compute; reflexivity|].
  destruct (@frames_roundtrip _ Bytes.cbor Bytes.sink Bytes.messages
    (send_all (H := Bytes.cbor) Bytes.sink Bytes.messages).1 ltac:(vm_compute; reflexivity)) as (sent & _ & Hr).
  exists sent. exact Hr.
Defined.

Lemma receive_correct_witness :
  receive (H := Bytes.cbor) Bytes.stream = (Ok [1; 2]%Z, [9]%Z) ∧
  receive_with_frame_timeout (H := Bytes.cbor) Bytes.stream false = receive (H := Bytes.cbor) Bytes.stream.
Proof.
  split; [vm_compute; reflexivity|].
  refine (proj1 (@receive_correct _ Bytes.cbor Bytes.stream _)).
  repeat constructor; vm_compute; discriminate.
Defined.

Lemma send_correct_witness :
  sink_written (send (H := Bytes.cbor) Bytes.sink [1; 2]%Z).1 = [7]%Z ++ frame [1; 2]%Z.
Proof.
  exact (proj2 (@send_correct _ Bytes.cbor Bytes.sink [1; 2]%Z
    (send (H := Bytes.cbor) Bytes.sink [1; 2]%Z).1 (Ok tt) ltac:(vm_compute; reflexivity))).
Defined.
