(* ===== verification/Client.v ===== *)
(** * The client library: [libluminate/src/client] and [libluminate/src/error.rs]

    What each operation of the client sends and what it makes of the response, the errors,
    the handshakes, and the connection that routes responses to concurrent requests.  As
    elsewhere the messages of errors are not modelled. *)

From S2P Require Import Prelude Model Colours Scenes Transition Policy Daemon ShmFrame Protocol Framing.

(** ** Errors: [error.rs] *)

Inductive ClientErrorKind :=
| Kind_DaemonUnavailable | Kind_AuthenticationFailed | Kind_IncompatibleDaemon
| Kind_IncompatibleEventSocket | Kind_PermissionDenied | Kind_NotFound | Kind_Unsupported
| Kind_UnknownState | Kind_InvalidArgument | Kind_Internal | Kind_Io | Kind_Unavailable
| Kind_RateLimited | Kind_Protocol | Kind_Timeout | Kind_ConnectionPoisoned
| Kind_PartialMutation | Kind_Conflict | Kind_TransitionImpossible.

(** [Protocol] keeps its message, to tell the violations apart. *)
Inductive ClientError :=
| CE_DaemonUnavailable
| CE_AuthenticationFailed
| CE_IncompatibleDaemon (daemon_version : string) (supported_protocol_abi_version : Z)
| CE_IncompatibleEventSocket (daemon_version : string) (supported_event_protocol_version : Z)
| CE_PermissionDenied
| CE_NotFound
| CE_Unsupported
| CE_UnknownState
| CE_InvalidArgument
| CE_Internal
| CE_Io
| CE_Unavailable
| CE_RateLimited (retry_after_ms : option Z)
| CE_PartialMutation (applied_targets : list TargetId)
| CE_Protocol (message : Text)
| CE_Conflict
| CE_TransitionImpossible
| CE_Timeout
| CE_ConnectionPoisoned.

Definition kind (e : ClientError) : ClientErrorKind :=
  match e with
  | CE_DaemonUnavailable => Kind_DaemonUnavailable
  | CE_AuthenticationFailed => Kind_AuthenticationFailed
  | CE_IncompatibleDaemon _ _ => Kind_IncompatibleDaemon
  | CE_IncompatibleEventSocket _ _ => Kind_IncompatibleEventSocket
  | CE_PermissionDenied => Kind_PermissionDenied
  | CE_NotFound => Kind_NotFound
  | CE_Unsupported => Kind_Unsupported
  | CE_UnknownState => Kind_UnknownState
  | CE_InvalidArgument => Kind_InvalidArgument
  | CE_Internal => Kind_Internal
  | CE_Io => Kind_Io
  | CE_Unavailable => Kind_Unavailable
  | CE_RateLimited _ => Kind_RateLimited
  | CE_Protocol _ => Kind_Protocol
  | CE_Timeout => Kind_Timeout
  | CE_ConnectionPoisoned => Kind_ConnectionPoisoned
  | CE_PartialMutation _ => Kind_PartialMutation
  | CE_Conflict => Kind_Conflict
  | CE_TransitionImpossible => Kind_TransitionImpossible
  end.

Definition from_operation_error (e : OperationError) : ClientError :=
  match oe_code e with
  | Code_DaemonUnavailable => CE_DaemonUnavailable
  | Code_AuthenticationFailed => CE_AuthenticationFailed
  | Code_PermissionDenied => CE_PermissionDenied
  | Code_NotFound => CE_NotFound
  | Code_Unsupported => CE_Unsupported
  | Code_UnknownState => CE_UnknownState
  | Code_InvalidArgument => CE_InvalidArgument
  | Code_Internal => CE_Internal
  | Code_Io => CE_Io
  | Code_Unavailable => CE_Unavailable
  | Code_RateLimited => CE_RateLimited (oe_retry_after_ms e)
  | Code_PartialMutation => CE_PartialMutation (oe_applied_targets e)
  | Code_Conflict => CE_Conflict
  | Code_TransitionImpossible => CE_TransitionImpossible
  end.

(** [From<io::Error>]: whether the kind is [NotFound] or [ConnectionRefused]. *)
Definition from_io_error (refused : bool) : ClientError :=
  if refused then CE_DaemonUnavailable else CE_Io.

(** [From<FramingError>]; [refused] is about the error of the transport. *)
Definition from_framing_error (refused : bool) (e : FramingError) : ClientError :=
  match e with
  | FE_Io => from_io_error refused
  | FE_CborEncode error | FE_CborDecode error => CE_Protocol (Lit error)
  | FE_PayloadTooLarge | FE_FrameTooLarge _ _ => CE_Protocol (Fmt "{other}" [])
  | FE_Timeout => CE_Timeout
  end.

Definition retry_after_ms (e : ClientError) : option Z :=
  match e with CE_RateLimited retry_after_ms => retry_after_ms | _ => None end.
Definition applied_targets (e : ClientError) : list TargetId :=
  match e with CE_PartialMutation applied_targets => applied_targets | _ => [] end.

(** ** Operations *)

Section client.
Context `{Wire}.

(** [unexpected_response]; the response is not rendered. *)
Definition unexpected_response (expected : string) : ClientError :=
  CE_Protocol (Fmt "expected {expected} response, got {response:?}" [AStr expected]).
Definition invalid_policy : ClientError := CE_Protocol (Fmt "daemon returned invalid policy: {error}" []).

(** The end of [request]: an error of the daemon is an error of the request. *)
Definition settle (status : Response) : result ClientError Response :=
  match status with
  | RS_Error error => Err (from_operation_error error)
  | status => Ok status
  end.

(** An operation: its request, and what it makes of a response. *)
Record Method (T : Type) := {
  sends : Request;
  accepts : Response → result ClientError T
}.
Arguments sends {T} m : rename.
Arguments accepts {T} m status : rename.

Definition finish {T} (m : Method T) (outcome : result ClientError Response) : result ClientError T :=
  status ← outcome; accepts m status.

Definition expect_ack (request : Request) : Method unit := {|
  sends := request;
  accepts status := match status with RS_Ack => Ok tt | _ => Err (unexpected_response "ack") end |}.

Record CollectionOutcome := { co_applied : list TargetId; co_denied : list TargetId }.
Definition expect_collection_outcome (request : Request) : Method CollectionOutcome := {|
  sends := request;
  accepts status :=
    match status with
    | RS_Ack => Ok {| co_applied := []; co_denied := [] |}
    | RS_CollectionApplied applied denied => Ok {| co_applied := applied; co_denied := denied |}
    | _ => Err (unexpected_response "collection outcome")
    end |}.
(** [map(drop)] *)
Definition ignore_outcome {T} (m : Method T) : Method unit := {|
  sends := sends m; accepts status := _ ← accepts m status; Ok tt |}.

(** *** [connection.rs] *)

Definition issue_event_ticket : Method EventTicket := {|
  sends := IssueEventTicket;
  accepts status :=
    match status with RS_EventTicket ticket => Ok ticket | _ => Err (unexpected_response "event ticket") end |}.
Definition server_info : Method ServerInfo := {|
  sends := Request_ServerInfo;
  accepts status :=
    match status with RS_ServerInfo info => Ok info | _ => Err (unexpected_response "server info") end |}.
Definition ping : Method unit := expect_ack Ping.
Definition list_devices : Method (list Device) := {|
  sends := ListDevices;
  accepts status :=
    match status with RS_Devices devices => Ok devices | _ => Err (unexpected_response "device list") end |}.
Definition list_withdrawn_devices : Method (list DeviceId) := {|
  sends := ListWithdrawnDevices;
  accepts status :=
    match status with
    | RS_WithdrawnDevices devices => Ok devices
    | _ => Err (unexpected_response "withdrawn device list")
    end |}.
Definition get_device (id : DeviceId) : Method (option Device) := {|
  sends := GetDevice id;
  accepts status :=
    match status with RS_Device device => Ok device | _ => Err (unexpected_response "device lookup") end |}.
Definition get_state (device : DeviceId) : Method (option DeviceStateStatus) := {|
  sends := GetState device;
  accepts status :=
    match status with RS_State state => Ok state | _ => Err (unexpected_response "device state") end |}.
Definition get_collection_state (collection : CollectionId) : Method (option CollectionStateStatus) := {|
  sends := GetCollectionState collection;
  accepts status :=
    match status with
    | RS_CollectionState state => Ok state
    | _ => Err (unexpected_response "collection state")
    end |}.
Definition refresh_state (device : DeviceId) : Method unit := expect_ack (RefreshState device).
Definition purge_withdrawn_device (device : DeviceId) : Method unit := expect_ack (PurgeWithdrawnDevice device).
Definition rescan : Method unit := expect_ack Rescan.

(** *** [control.rs] *)

Definition set_appearance_slots (target : TargetId) (values : list AppearanceSlotValue) : Method unit :=
  expect_ack (SetAppearanceSlots {| sar_target := target; sar_values := values |}).
Definition set_effect_selector (selector : Selector) (effect : Effect)
    (on_unsupported : option UnsupportedPolicy) : Method CollectionOutcome :=
  expect_collection_outcome (SetEffect
    {| ser_selector := selector; ser_effect := effect; ser_on_unsupported := on_unsupported |}).
Definition set_effect (target : TargetId) (effect : Effect) : Method unit :=
  ignore_outcome (set_effect_selector (Selector_Target target) effect None).
Definition set_colour (target : TargetId) (colour : Colour) : Method unit :=
  set_effect target (Effect_Static colour).
Definition set_colour_selector (selector : Selector) (colour : Colour)
    (on_unsupported : option UnsupportedPolicy) : Method CollectionOutcome :=
  set_effect_selector selector (Effect_Static colour) on_unsupported.
Definition set_rgb (target : TargetId) (r g b : Z) : Method unit :=
  set_colour target (Colour_rgb (Rgb_new r g b)).
Definition set_cct (target : TargetId) (kelvin : Z) : Method unit := set_colour target (Colour_Cct kelvin).
Definition set_brightness_selector (target : Selector) (value : Z)
    (on_unsupported : option UnsupportedPolicy) : Method CollectionOutcome :=
  expect_collection_outcome (SetBrightness
    {| sbr_target := target; sbr_value := value; sbr_on_unsupported := on_unsupported |}).
Definition set_brightness (target : TargetId) (value : Z) : Method unit :=
  ignore_outcome (set_brightness_selector (Selector_Target target) value None).
Definition clear_target_selector (target : Selector) : Method CollectionOutcome :=
  expect_collection_outcome (ClearTarget target).
Definition clear_target (target : TargetId) : Method unit :=
  ignore_outcome (clear_target_selector (Selector_Target target)).
Definition save_current_selector (target : Selector) : Method CollectionOutcome :=
  expect_collection_outcome (SaveCurrent target).
Definition save_current (target : TargetId) : Method unit :=
  ignore_outcome (save_current_selector (Selector_Target target)).
Definition set_off (target : TargetId) : Method unit := set_effect target Effect_Off.
Definition restore_appearance_selector (target : Selector) : Method CollectionOutcome :=
  expect_collection_outcome (RestoreAppearance target).
Definition restore_appearance (target : TargetId) : Method unit :=
  ignore_outcome (restore_appearance_selector (Selector_Target target)).
Definition set_emission_selector (target : Selector) (state : EmissionState) : Method CollectionOutcome :=
  match state with
  | Dark => set_effect_selector target Effect_Off None
  | Emitting => restore_appearance_selector target
  end.
Definition set_emission (target : TargetId) (state : EmissionState) : Method unit :=
  ignore_outcome (set_emission_selector (Selector_Target target) state).

(** *** [collections.rs] *)

Definition create_collection (name : string) (description : option string) (category : option CollectionCategory)
    (members : list CollectionMember) : Method CollectionId := {|
  sends := Request_CreateCollection name description category members;
  accepts status :=
    match status with
    | RS_CollectionCreated id => Ok id
    | _ => Err (unexpected_response "collection created")
    end |}.
Definition destroy_collection (id : CollectionId) : Method unit := expect_ack (Request_DestroyCollection id).
Definition add_collection_member (id : CollectionId) (member : CollectionMember) : Method unit :=
  expect_ack (AddCollectionMember id member).
Definition remove_collection_member (id : CollectionId) (member : CollectionMember) : Method unit :=
  expect_ack (RemoveCollectionMember id member).
Definition list_collections : Method (list Collection) := {|
  sends := ListCollections;
  accepts status :=
    match status with
    | RS_Collections collections => Ok collections
    | _ => Err (unexpected_response "collection list")
    end |}.
Definition get_collection (id : CollectionId) : Method (option Collection) := {|
  sends := GetCollection id;
  accepts status :=
    match status with
    | RS_CollectionInfo collection => Ok collection
    | _ => Err (unexpected_response "collection lookup")
    end |}.

(** *** [scenes.rs] *)

Definition expect_scene (request : Request) : Method Scene := {|
  sends := request;
  accepts status :=
    match status with RS_Scene scene => Ok scene | _ => Err (unexpected_response "scene mutation") end |}.
Definition create_scene (name : string) (description : option string) (bindings : list SceneBinding) :
    Method Scene :=
  expect_scene (Request_CreateScene name description bindings).
Definition capture_scene (name : string) (description : option string) (mode : SceneCaptureMode)
    (targets : list TargetId) : Method Scene :=
  expect_scene (CaptureScene name description mode targets).
Definition replace_scene (id : SceneId) (expected_revision : Z) (name : string) (description : option string)
    (bindings : list SceneBinding) : Method Scene :=
  expect_scene (ReplaceScene id expected_revision name description bindings).
Definition recapture_scene (id : SceneId) (expected_revision : Z) (mode : SceneCaptureMode)
    (targets : list TargetId) : Method Scene :=
  expect_scene (RecaptureScene id expected_revision mode targets).
Definition delete_scene (id : SceneId) (expected_revision : Z) : Method unit :=
  expect_ack (DeleteScene id expected_revision).
Definition list_scenes : Method (list Scene) := {|
  sends := ListScenes;
  accepts status :=
    match status with RS_Scenes scenes => Ok scenes | _ => Err (unexpected_response "scene list") end |}.
Definition get_scene (id : SceneId) : Method (option Scene) := {|
  sends := GetScene id;
  accepts status :=
    match status with RS_SceneInfo scene => Ok scene | _ => Err (unexpected_response "scene lookup") end |}.
Definition apply_scene_authorized (id : SceneId) (authorized_targets : option (list TargetId)) :
    Method CollectionOutcome := {|
  sends := ApplyScene id authorized_targets;
  accepts status :=
    match status with
    | RS_SceneApplied applied denied => Ok {| co_applied := applied; co_denied := denied |}
    | _ => Err (unexpected_response "scene application")
    end |}.
Definition apply_scene (id : SceneId) : Method CollectionOutcome := apply_scene_authorized id None.

(** *** [transitions.rs] *)

Definition expect_status (request : Request) : Method TransitionStatus := {|
  sends := request;
  accepts status :=
    match status with
    | RS_Transition status => Ok status
    | RS_Error error => Err (from_operation_error error)
    | _ => Err (unexpected_response "transition status")
    end |}.
Definition start (source : TransitionSource) (destination : TransitionDestination)
    (options : TransitionOptions) : Method TransitionStatus :=
  expect_status (StartTransition {| str_source := source; str_destination := destination;
    str_options := options; str_authorized_targets := None; str_renewable_lease_ms := None |}).
Definition scene_to_scene (source destination : SceneId) (options : TransitionOptions) :
    Method TransitionStatus :=
  start (TransitionSource_Scene source) (TransitionDestination_Scene destination) options.
Definition current_to_scene (destination : SceneId) (options : TransitionOptions) : Method TransitionStatus :=
  start TransitionSource_Current (TransitionDestination_Scene destination) options.
Definition scene_to_states (source : SceneId) (destination : list TransitionTargetState)
    (options : TransitionOptions) : Method TransitionStatus :=
  start (TransitionSource_Scene source) (TransitionDestination_TargetStates destination) options.
Definition current_to_states (destination : list TransitionTargetState) (options : TransitionOptions) :
    Method TransitionStatus :=
  start TransitionSource_Current (TransitionDestination_TargetStates destination) options.
Definition get_transition (id : TransitionId) : Method TransitionStatus := expect_status (GetTransition id).
Definition abort_transition (id : TransitionId) : Method TransitionStatus := expect_status (AbortTransition id).

(** [wait]: the polls that it makes, for the outcomes that they have. *)
Fixpoint wait_transition (id : TransitionId) (outcomes : list (result ClientError Response)) :
    option (result ClientError TransitionStatus) :=
  match outcomes with
  | [] => None
  | outcome :: outcomes =>
      match finish (get_transition id) outcome with
      | Err e => Some (Err e)
      | Ok status => if is_terminal status then Some (Ok status) else wait_transition id outcomes
      end
  end.

(** *** [frames.rs] *)

Definition begin_frame_stream (target : TargetId) : Method Z := {|
  sends := BeginFrameStream target;
  accepts status :=
    match status with
    | RS_FrameStreamStarted generation => Ok generation
    | _ => Err (unexpected_response "frame stream started")
    end |}.
Record ClientFrameAck := { fa_sequence : Z; fa_dropped : bool }.
Definition upload_frame (target : TargetId) (envelope : FrameEnvelope) : Method ClientFrameAck := {|
  sends := UploadFrame target envelope;
  accepts status :=
    match status with
    | RS_FrameAck sequence dropped => Ok {| fa_sequence := sequence; fa_dropped := dropped |}
    | _ => Err (unexpected_response "frame ack")
    end |}.
Definition end_frame_stream (target : TargetId) (generation : Z) : Method unit :=
  expect_ack (EndFrameStream target generation).
Record ShmStreamReady := {
  sr_generation : Z;
  sr_service_name : string;
  sr_event_service_name : string;
  sr_pixel_format : ShmPixelFormat;
  sr_stream_nonce : Z;
  sr_segment_bytes : Z
}.
Definition begin_shm_frame_stream (target : TargetId) : Method ShmStreamReady := {|
  sends := BeginShmFrameStream target;
  accepts status :=
    match status with
    | RS_ShmFrameStreamReady generation service_name event_service_name pixel_format stream_nonce
        segment_bytes =>
        Ok {| sr_generation := generation; sr_service_name := service_name;
              sr_event_service_name := event_service_name; sr_pixel_format := pixel_format;
              sr_stream_nonce := stream_nonce; sr_segment_bytes := segment_bytes |}
    | _ => Err (unexpected_response "shm frame stream ready")
    end |}.
Definition end_shm_frame_stream (target : TargetId) (generation : Z) : Method unit :=
  expect_ack (EndShmFrameStream target generation).

(** *** [management.rs] and [setup.rs] *)

Definition get_management : Method ManagementSnapshot := {|
  sends := GetManagement;
  accepts status :=
    match status with
    | RS_ManagementSnapshot snapshot => Ok snapshot
    | _ => Err (unexpected_response "management snapshot")
    end |}.
Definition patch_management (patch : ManagementPatch) : Method ManagementChangeSet := {|
  sends := PatchManagement patch;
  accepts status :=
    match status with
    | RS_ManagementPatched changes => Ok changes
    | _ => Err (unexpected_response "management change set")
    end |}.
Definition plugin_setup_workflows (plugin : string) : Method (list PluginSetupWorkflow) := {|
  sends := ListPluginSetupWorkflows plugin;
  accepts status :=
    match status with
    | RS_PluginSetupWorkflows workflows => Ok workflows
    | _ => Err (unexpected_response "plugin setup workflows")
    end |}.
Definition plugin_setup_request (request : Request) : Method PluginSetupSession := {|
  sends := request;
  accepts status :=
    match status with
    | RS_PluginSetupSession session => Ok session
    | _ => Err (unexpected_response "plugin setup session")
    end |}.
Definition start_plugin_setup (plugin workflow : string) : Method PluginSetupSession :=
  plugin_setup_request (StartPluginSetup plugin workflow).
Definition respond_plugin_setup (session : PluginSetupSessionId) (generation : Z)
    (response : PluginSetupInteractionResponse) : Method PluginSetupSession :=
  plugin_setup_request (RespondPluginSetup session generation response).
Definition plugin_setup_session (session : PluginSetupSessionId) : Method PluginSetupSession :=
  plugin_setup_request (GetPluginSetup session).
Definition cancel_plugin_setup (session : PluginSetupSessionId) : Method PluginSetupSession :=
  plugin_setup_request (CancelPluginSetup session).

(** *** [administration.rs] *)

Definition checked_policy (source : PolicyDocumentSource) : result ClientError PolicyDocument :=
  map_err (λ _, invalid_policy) (PolicyDocument_new source).
Definition get_policy : Method PolicyDocument := {|
  sends := GetAccessPolicy;
  accepts status :=
    match status with
    | RS_AccessPolicy source => checked_policy source
    | _ => Err (unexpected_response "access policy")
    end |}.
Definition replace_policy (expected : Z) (replacement : PolicyDocument) : Method PolicyDocument := {|
  sends := ReplaceAccessPolicy expected (pd_source replacement);
  accepts status :=
    match status with
    | RS_AccessPolicy source => checked_policy source
    | _ => Err (unexpected_response "replaced access policy")
    end |}.
Definition create_principal_attestation (name : string) (subject : PrincipalId)
    (verified_groups : list string) (expires_at : option Z) : Method (AttestationMetadata * Credential) := {|
  sends := CreateAttestation name subject verified_groups expires_at;
  accepts status :=
    match status with
    | RS_AttestationCreated metadata secret => Ok (metadata, secret)
    | _ => Err (unexpected_response "created attestation")
    end |}.
Definition create_attestation (name : string) (subject : PrincipalId) (expires_at : option Z) :
    Method (AttestationMetadata * Credential) :=
  create_principal_attestation name subject [] expires_at.
Definition list_attestations : Method (list AttestationMetadata) := {|
  sends := ListAttestations;
  accepts status :=
    match status with
    | RS_Attestations records => Ok records
    | _ => Err (unexpected_response "attestation list")
    end |}.
Definition revoke_attestation (name : string) : Method unit := expect_ack (RevokeAttestation name).
Definition create_token (id : string) (subject : PrincipalId) (expires_at : option Z) :
    Method (TokenMetadata * Credential) := {|
  sends := CreateToken id subject expires_at;
  accepts status :=
    match status with
    | RS_TokenCreated metadata secret => Ok (metadata, secret)
    | _ => Err (unexpected_response "created token")
    end |}.
Definition list_tokens : Method (list TokenMetadata) := {|
  sends := ListTokens;
  accepts status :=
    match status with RS_Tokens tokens => Ok tokens | _ => Err (unexpected_response "token list") end |}.
Definition rotate_token (id : string) (expires_at : option Z) : Method (TokenMetadata * Credential) := {|
  sends := RotateToken id expires_at;
  accepts status :=
    match status with
    | RS_TokenCreated metadata secret => Ok (metadata, secret)
    | _ => Err (unexpected_response "rotated token")
    end |}.
Definition revoke_token (id : string) : Method unit := expect_ack (RevokeToken id).

(** ** Opening a connection: [connect_stream] *)

Inductive ClientCompatibility :=
| Hello_Compatible
| Hello_Incompatible (supported : Z) (reason : option string).
Record DaemonHello := {
  dh_compatibility : ClientCompatibility;
  dh_protocol_abi_version : Z;
  dh_daemon_version : string
}.

(** What the steps of the handshake meet, each with its timeout. *)
Record Handshake := {
  hk_hello_sent : result ClientError unit;
  hk_hello : result ClientError DaemonHello;
  hk_request_sent : result ClientError unit;
  hk_response : result ClientError AuthenticationResponse
}.

(** The version of the daemon and the session. *)
Definition connect_stream (PROTOCOL_ABI_VERSION : Z) (h : Handshake) :
    result ClientError (string * SessionMetadata) :=
  _ ← hk_hello_sent h;
  hello ← hk_hello h;
  match dh_compatibility hello with
  | Hello_Compatible =>
      if negb (dh_protocol_abi_version hello =? PROTOCOL_ABI_VERSION)%Z
      then Err (CE_IncompatibleDaemon (dh_daemon_version hello) (dh_protocol_abi_version hello))
      else
        _ ← hk_request_sent h;
        response ← hk_response h;
        match response with
        | Authenticated session => Ok (dh_daemon_version hello, session)
        | Rejected _ => Err CE_AuthenticationFailed
        end
  | Hello_Incompatible supported _ => Err (CE_IncompatibleDaemon (dh_daemon_version hello) supported)
  end.

(** *** Event subscriptions: [events.rs] *)

(** [SubscribeAck] *)
Record SubscribeAck := {
  sa_compatibility : ClientCompatibility;
  sa_event_protocol_version : Z;
  sa_daemon_version : string
}.
Record EventSubscription := { es_poisoned : bool }.

Definition connect_path_with_ticket (EVENT_PROTOCOL_VERSION : Z) (sent : result ClientError unit)
    (ack : result ClientError SubscribeAck) : result ClientError EventSubscription :=
  _ ← sent;
  ack ← ack;
  match sa_compatibility ack with
  | Hello_Compatible =>
      if negb (sa_event_protocol_version ack =? EVENT_PROTOCOL_VERSION)%Z
      then Err (CE_IncompatibleEventSocket (sa_daemon_version ack) (sa_event_protocol_version ack))
      else Ok {| es_poisoned := false |}
  | Hello_Incompatible supported _ => Err (CE_IncompatibleEventSocket (sa_daemon_version ack) supported)
  end.

(** [next_event]; [None] for a future that is dropped while it receives. *)
Definition next_event (s : EventSubscription) (received : option (result ClientError Event)) :
    EventSubscription * option (result ClientError Event) :=
  if es_poisoned s then (s, Some (Err CE_ConnectionPoisoned))
  else
    match received with
    | Some (Ok event) => ({| es_poisoned := false |}, Some (Ok event))
    | Some (Err e) => ({| es_poisoned := true |}, Some (Err e))
    | None => ({| es_poisoned := true |}, None)
    end.

(** ** The connection: [mod.rs] *)

(** A reply channel: empty, with the response, or with its sender gone. *)
Inductive Slot := Slot_Empty | Slot_Response (r : Response) | Slot_Dropped.
Inductive Ending := Returned (outcome : result ClientError Response) | Cancelled.

(** One call of [request]; [cl_queued]: its message was given to the writing task. *)
Record Call := {
  cl_id : Z;
  cl_request : Request;
  cl_queued : bool;
  cl_slot : Slot;
  cl_ending : option Ending
}.
Definition set_queued (c : Call) : Call :=
  let 'Build_Call id q _ s e := c in Build_Call id q true s e.
Definition set_slot (s : Slot) (c : Call) : Call :=
  let 'Build_Call id q b _ e := c in Build_Call id q b s e.
Definition set_ending (e : Ending) (c : Call) : Call :=
  let 'Build_Call id q b s _ := c in Build_Call id q b s (Some e).

(** A background task: in its loop, out of it, past [pending.clear()], gone. *)
Inductive Io := Running | Broken | Clearing | Finished.

(** [ln_pending]: the call that waits under an identifier. *)
Record Link := {
  ln_next : Z;
  ln_pending : gmap Z nat;
  ln_calls : list Call;
  ln_queue : list (Z * Request);
  ln_written : list (Z * Request);
  ln_writer : Io;
  ln_reader : Io
}.
Definition connected : Link := {|
  ln_next := 0; ln_pending := ∅; ln_calls := []; ln_queue := []; ln_written := [];
  ln_writer := Running; ln_reader := Running |}.

Definition set_pending (l : Link) (v : gmap Z nat) : Link :=
  let 'Build_Link a _ c d e f g := l in Build_Link a v c d e f g.
Definition set_calls (l : Link) (v : list Call) : Link :=
  let 'Build_Link a b _ d e f g := l in Build_Link a b v d e f g.
Definition set_queue (l : Link) (v : list (Z * Request)) : Link :=
  let 'Build_Link a b c _ e f g := l in Build_Link a b c v e f g.
Definition set_written (l : Link) (v : list (Z * Request)) : Link :=
  let 'Build_Link a b c d _ f g := l in Build_Link a b c d v f g.
Definition set_writer (l : Link) (v : Io) : Link :=
  let 'Build_Link a b c d e _ g := l in Build_Link a b c d e v g.
Definition set_reader (l : Link) (v : Io) : Link :=
  let 'Build_Link a b c d e f _ := l in Build_Link a b c d e f v.

(** The loop for an identifier that is not in use, and the counter after it. *)
Fixpoint next_free (fuel : nat) (pending : gmap Z nat) (next : Z) : Z * Z :=
  match fuel with
  | 0 => (next, wrapU 64 (next + 1))
  | S fuel =>
      if bool_decide (is_Some (pending !! next)) then next_free fuel pending (wrapU 64 (next + 1))
      else (next, wrapU 64 (next + 1))
  end.

(** The start of [request]: the call is pending, its message not yet sent. *)
Definition register (l : Link) (request : Request) : Link :=
  let '(id, next) := next_free (S (size (ln_pending l))) (ln_pending l) (ln_next l) in
  let 'Build_Link _ b c d e f g := l in
  Build_Link next (<[id := length c]> b)
    (c ++ [{| cl_id := id; cl_request := request; cl_queued := false; cl_slot := Slot_Empty; cl_ending := None |}])
    d e f g.

(** The future is over: [PendingRequest] is dropped. *)
Definition end_call (l : Link) (k : nat) (c : Call) (e : Ending) : Link :=
  set_calls (set_pending l (delete (cl_id c) (ln_pending l))) (alter (set_ending e) k (ln_calls l)).

(** [pending.clear()] *)
Definition clear_pending (l : Link) : Link :=
  set_pending
    (set_calls l (imap (λ k c, if bool_decide (ln_pending l !! cl_id c = Some k) then set_slot Slot_Dropped c else c)
       (ln_calls l))) ∅.

Inductive ClientEvent :=
| Ev_Register (request : Request)
| Ev_Queue (k : nat)
| Ev_Poll (k : nat)
| Ev_Expire (k : nat)
| Ev_Cancel (k : nat)
| Ev_Write (sent : bool)
| Ev_WriterClears
| Ev_WriterEnds
| Ev_Receive (id : Z) (r : Response)
| Ev_ReaderFails
| Ev_ReaderClears.

(** The call, if its future is still there. *)
Definition live (l : Link) (k : nat) : option Call :=
  c ← ln_calls l !! k; match cl_ending c with None => Some c | Some _ => None end.

(** [request], [write_requests] and [read_responses], cut where the others can come in
    between.  A step that does not apply does nothing. *)
Definition client_step (l : Link) (e : ClientEvent) : Link :=
  match e with
  | Ev_Register request => register l request
  | Ev_Queue k =>
      match live l k with
      | Some c =>
          if cl_queued c then l
          else
            match ln_writer l with
            | Finished => end_call l k c (Returned (Err CE_Unavailable))
            | _ => set_calls (set_queue l (ln_queue l ++ [(cl_id c, cl_request c)]))
                     (alter set_queued k (ln_calls l))
            end
      | None => l
      end
  | Ev_Poll k =>
      match live l k with
      | Some c =>
          if cl_queued c then
            match cl_slot c with
            | Slot_Empty => l
            | Slot_Response r => end_call l k c (Returned (settle r))
            | Slot_Dropped => end_call l k c (Returned (Err CE_Unavailable))
            end
          else l
      | None => l
      end
  | Ev_Expire k =>
      match live l k with
      | Some c =>
          if cl_queued c then
            match cl_slot c with
            | Slot_Empty => end_call l k c (Returned (Err CE_Timeout))
            | _ => l
            end
          else l
      | None => l
      end
  | Ev_Cancel k =>
      match live l k with Some c => end_call l k c Cancelled | None => l end
  | Ev_Write sent =>
      match ln_writer l, ln_queue l with
      | Running, message :: queue =>
          let l := set_queue l queue in
          if sent then set_written l (ln_written l ++ [message]) else set_writer l Broken
      | _, _ => l
      end
  | Ev_WriterClears =>
      match ln_writer l with Broken => set_writer (clear_pending l) Clearing | _ => l end
  | Ev_WriterEnds => match ln_writer l with Clearing => set_writer l Finished | _ => l end
  | Ev_Receive id r =>
      match ln_reader l, ln_pending l !! id with
      | Running, Some k =>
          set_calls (set_pending l (delete id (ln_pending l))) (alter (set_slot (Slot_Response r)) k (ln_calls l))
      | _, _ => l
      end
  | Ev_ReaderFails => match ln_reader l with Running => set_reader l Broken | _ => l end
  | Ev_ReaderClears =>
      match ln_reader l with Broken => set_reader (clear_pending l) Finished | _ => l end
  end.

Definition client_exec (l : Link) (events : list ClientEvent) : Link := foldl client_step l events.
End client.
Arguments Method {_} T.
Arguments sends {_ T} m : rename.
Arguments accepts {_ T} m status : rename.

(** ** Identifiers *)

Lemma wrapU_succ a b : wrapU 64 (wrapU 64 a + b) = wrapU 64 (a + b).
Proof. unfold wrapU. apply Zplus_mod_idemp_l. Qed.

Lemma next_free_spec fuel (pending : gmap Z nat) next :
  uN 64 next →
  ∃ n, n ≤ fuel ∧ next_free fuel pending next = (wrapU 64 (next + Z.of_nat n), wrapU 64 (next + Z.of_nat n + 1)) ∧
    (∀ i, i < n → is_Some (pending !! wrapU 64 (next + Z.of_nat i))) ∧
    (n = fuel ∨ pending !! wrapU 64 (next + Z.of_nat n) = None).
Proof.
  revert next. induction fuel as [|fuel IH]; intros next Hn; simpl.
  { exists 0. rewrite Z.add_0_r, (wrapU_id 64 next) by done. split_and!; [lia|done|lia|by left]. }
  case_bool_decide as Hp.
  - destruct (IH (wrapU 64 (next + 1))) as (n & Hle & -> & Hall & Hend); [by apply wrapU_uN|].
    exists (S n).
    assert (∀ i, wrapU 64 (wrapU 64 (next + 1) + Z.of_nat i) = wrapU 64 (next + Z.of_nat (S i))) as Hw.
    { intros i. rewrite wrapU_succ. f_equal. lia. }
    split_and!; [lia| | |].
    + rewrite Hw. f_equal. rewrite <-Z.add_assoc, wrapU_succ. f_equal. lia.
    + intros [|i] Hi; [by rewrite Z.add_0_r, (wrapU_id 64 next)|]. rewrite <-Hw. apply Hall. lia.
    + rewrite <-Hw. destruct Hend as [->|?]; [by left|by right].
  - exists 0. rewrite Z.add_0_r, (wrapU_id 64 next) by done. split_and!; [lia|done|lia|right]. by apply eq_None_not_Some.
Qed.

(** The fuel is enough: an identifier is free unless all are in use. *)
Lemma next_free_vacant (pending : gmap Z nat) next :
  uN 64 next → (Z.of_nat (size pending) <= uN_max 64)%Z →
  pending !! (next_free (S (size pending)) pending next).1 = None.
Proof.
  intros Hn Hs. destruct (next_free_spec (S (size pending)) pending next Hn) as (n & _ & -> & Hall & [->|?]);
    [|done].
  exfalso. set (ids := (λ i, wrapU 64 (next + Z.of_nat i)) <$> seq 0 (S (size pending))).
  assert (NoDup ids) as Hnd.
  { apply NoDup_fmap_2_strong; [|apply NoDup_seq]. intros i j Hi%elem_of_seq Hj%elem_of_seq Heq.
    unfold wrapU, uN_max in *. unfold uN in Hn.
    assert ((Z.of_nat i - Z.of_nat j) mod 2 ^ 64 = 0)%Z as H0.
    { replace (Z.of_nat i - Z.of_nat j)%Z with ((next + Z.of_nat i) - (next + Z.of_nat j))%Z by lia.
      rewrite Zminus_mod, Heq, Z.sub_diag. done. }
    apply Z.mod_divide in H0 as [q Hq]; [|done]. lia. }
  assert (length ids ≤ size (dom pending)) as Hle.
  { rewrite <-(size_list_to_set (C := gset Z)) by done. apply subseteq_size. intros id Hid%elem_of_list_to_set.
    apply list_elem_of_fmap in Hid as (i & -> & Hi%elem_of_seq). apply elem_of_dom, Hall. lia. }
  unfold ids in Hle. rewrite length_fmap, length_seq, size_dom in Hle. lia.
Qed.

(** ** The invariant of a connection *)

Section link.
Context `{Wire}.

(** What a step does to a call. *)
Record change (e : ClientEvent) (c c' : Call) : Prop := {
  ch_id : cl_id c' = cl_id c;
  ch_request : cl_request c' = cl_request c;
  ch_queued : cl_queued c = true → cl_queued c' = true;
  ch_slot r : cl_slot c' = Slot_Response r → cl_slot c = Slot_Response r ∨ e = Ev_Receive (cl_id c) r;
  ch_ending r : cl_ending c' = Some (Returned (Ok r)) →
    (cl_ending c = cl_ending c' ∧ cl_slot c' = cl_slot c) ∨ (cl_slot c' = Slot_Response r ∧ cl_queued c' = true)
}.
Lemma change_refl e c : change e c c.
Proof. split; auto. Qed.

Lemma change_alter e (calls : list Call) k f :
  (∀ c, calls !! k = Some c → change e c (f c)) → Forall2 (change e) calls (alter f k calls).
Proof.
  intros Hf. apply Forall2_same_length_lookup. split; [by rewrite length_alter|].
  intros i c c' Hc Hc'. destruct (decide (i = k)) as [->|Hne].
  - rewrite list_lookup_alter_eq, Hc in Hc'. simplify_eq/=. by apply Hf.
  - rewrite list_lookup_alter_ne, Hc in Hc' by done. simplify_eq. apply change_refl.
Qed.
Lemma change_same e (calls : list Call) : Forall2 (change e) calls calls.
Proof. apply Forall_Forall2_diag, Forall_true. apply change_refl. Qed.

(** The call was registered, and its response came afterwards. *)
Definition registered_at (events : list ClientEvent) (k : nat) (c : Call) : Prop :=
  ∃ pre post, events = pre ++ Ev_Register (cl_request c) :: post ∧
    length (ln_calls (client_exec connected pre)) = k ∧
    ∀ r, cl_slot c = Slot_Response r → Ev_Receive (cl_id c) r ∈ post.

Record link_inv (events : list ClientEvent) (l : Link) : Prop := {
  li_next : ln_next l = wrapU 64 (Z.of_nat (length (ln_calls l)));
  li_call k c : ln_calls l !! k = Some c →
    cl_id c = Z.of_nat k ∧ registered_at events k c ∧
    ∀ r, cl_ending c = Some (Returned (Ok r)) → cl_slot c = Slot_Response r ∧ cl_queued c = true;
  li_pending id k : ln_pending l !! id = Some k →
    id = Z.of_nat k ∧ ∃ c, ln_calls l !! k = Some c ∧ cl_ending c = None;
  li_sent id q : (id, q) ∈ ln_written l ++ ln_queue l →
    ∃ k c, ln_calls l !! k = Some c ∧ id = cl_id c ∧ q = cl_request c ∧ cl_queued c = true;
  li_once : NoDup (ln_written l ++ ln_queue l).*1
}.

(** A step that registers nothing. *)
Lemma link_inv_change events e l l' :
  link_inv events l → Forall2 (change e) (ln_calls l) (ln_calls l') → ln_next l' = ln_next l →
  (∀ id k, ln_pending l' !! id = Some k → ln_pending l !! id = Some k ∧
     ∀ c, ln_calls l' !! k = Some c → cl_ending c = None) →
  (∀ m, m ∈ ln_written l' ++ ln_queue l' → m ∈ ln_written l ++ ln_queue l ∨
     ∃ k c, ln_calls l' !! k = Some c ∧ m = (cl_id c, cl_request c) ∧ cl_queued c = true) →
  NoDup (ln_written l' ++ ln_queue l').*1 →
  link_inv (events ++ [e]) l'.
Proof.
  intros [Hn Hc Hp Hs Ho] Hch Hn' Hp' Hs' Ho'. pose proof (Forall2_length _ _ _ Hch) as Hlen. split.
  - by rewrite Hn', Hn, Hlen.
  - intros k c' Hc'. destruct (Forall2_lookup_r _ _ _ _ _ Hch Hc') as (c & Hck & [Hid Hreq Hq Hsl Hen]).
    destruct (Hc k c Hck) as (Hk & (pre & post & He & Hl & Hr) & Hend). split_and!.
    + by rewrite Hid.
    + exists pre, (post ++ [e]). rewrite He, <-app_assoc, Hreq. split_and!; [done|done|].
      intros r Hslot. rewrite Hid. apply elem_of_app. destruct (Hsl r Hslot) as [Hold| ->]; [left; by apply Hr|right].
      by left.
    + intros r Hret. destruct (Hen r Hret) as [[He' Hs0]|?]; [|done]. rewrite Hret in He'.
      destruct (Hend r He') as [??]. split; [by rewrite Hs0|by apply Hq].
  - intros id k Hk. destruct (Hp' id k Hk) as [Hk0 Hlive]. destruct (Hp id k Hk0) as (-> & c & Hck & _).
    split; [done|]. destruct (Forall2_lookup_l _ _ _ _ _ Hch Hck) as (c' & Hc' & _). eauto.
  - intros id q Hin. destruct (Hs' _ Hin) as [Hold|(k & c & Hk & [= -> ->] & Hq)]; [|by exists k, c].
    destruct (Hs _ _ Hold) as (k & c & Hk & -> & -> & Hq).
    destruct (Forall2_lookup_l _ _ _ _ _ Hch Hk) as (c' & Hc' & [Hid Hreq Hqq _ _]).
    exists k, c'. split_and!; [done|done|done|]. by apply Hqq.
  - done.
Qed.

Lemma live_Some l k c : live l k = Some c → ln_calls l !! k = Some c ∧ cl_ending c = None.
Proof.
  unfold live. intros (c0 & Hk & Hc)%bind_Some. destruct (cl_ending c0) eqn:E; [done|]. by simplify_eq.
Qed.

Lemma inv_same events e l : link_inv events l → link_inv (events ++ [e]) l.
Proof.
  intros Hl. eapply link_inv_change; [done|apply change_same|done| |by left|by destruct Hl].
  intros id k Hk. split; [done|]. destruct Hl as [_ _ Hp _ _]. destruct (Hp _ _ Hk) as (_ & c & Hc & He).
  intros c'. rewrite Hc. by intros [= <-].
Qed.

(** Which calls pend once the call at [k] is not pending any more. *)
Lemma pending_other events l k c f :
  link_inv events l → ln_calls l !! k = Some c →
  ∀ id j, delete (cl_id c) (ln_pending l) !! id = Some j → ln_pending l !! id = Some j ∧
    ∀ c', alter f k (ln_calls l) !! j = Some c' → cl_ending c' = None.
Proof.
  intros [_ Hc Hp _ _] Hk id j [Hne Hj]%lookup_delete_Some. split; [done|]. intros c' Hc'.
  destruct (Hp _ _ Hj) as (-> & c0 & Hc0 & He). destruct (Hc _ _ Hk) as [Hid _].
  rewrite list_lookup_alter_ne in Hc' by (intros ->; by rewrite Hid in Hne). by simplify_eq.
Qed.

Lemma inv_end events e l k c en :
  link_inv events l → live l k = Some c →
  (∀ r, en = Returned (Ok r) → cl_slot c = Slot_Response r ∧ cl_queued c = true) →
  link_inv (events ++ [e]) (end_call l k c en).
Proof.
  intros Hl [Hk Hlive]%live_Some Hen. destruct l as [a b calls d f g h]. unfold end_call. simpl in *.
  eapply link_inv_change; [exact Hl| |done| |by left|by destruct Hl]; simpl.
  - apply change_alter. intros c0 Hc0. simpl in Hc0. assert (c0 = c) as -> by congruence.
    destruct c as [i q b' s e']. split; simpl; auto. intros r [= ->]. right. by apply Hen.
  - exact (pending_other _ _ _ _ _ Hl Hk).
Qed.

Lemma inv_clear events e l : link_inv events l → link_inv (events ++ [e]) (clear_pending l).
Proof.
  intros Hl. destruct l as [a b calls d f g h]. unfold clear_pending. simpl.
  eapply link_inv_change; [exact Hl| |done|done|by left|by destruct Hl]. simpl.
  apply Forall2_same_length_lookup. split; [by rewrite length_imap|]. intros i c c' Hc Hc'.
  rewrite list_lookup_imap, Hc in Hc'. simpl in Hc'. simplify_eq.
  case_bool_decide as Hb; [|apply change_refl].
  destruct Hl as [_ _ Hp _ _]. destruct (Hp _ _ Hb) as (_ & c0 & Hc0 & He). simpl in Hc0. simplify_eq.
  destruct c as [i' q b' s e']. simpl in He. subst e'. split; simpl; auto; by intros.
Qed.

(** Within the first 2^64 calls the identifier is the number of the call. *)
Lemma register_id events l :
  link_inv events l → (Z.of_nat (S (length (ln_calls l))) <= 2 ^ 64)%Z →
  next_free (S (size (ln_pending l))) (ln_pending l) (ln_next l) =
    (Z.of_nat (length (ln_calls l)), wrapU 64 (Z.of_nat (S (length (ln_calls l))))).
Proof.
  intros [Hn Hc Hp Hs Ho] Hlen.
  assert (ln_pending l !! Z.of_nat (length (ln_calls l)) = None) as Hfree.
  { apply eq_None_not_Some. intros [k Hk]. destruct (Hp _ _ Hk) as (Heq & c & Hck & _).
    apply Nat2Z.inj in Heq as <-. by rewrite lookup_ge_None_2 in Hck by lia. }
  assert (ln_next l = Z.of_nat (length (ln_calls l))) as Hnext.
  { rewrite Hn. apply wrapU_id. unfold uN, uN_max. lia. }
  simpl. rewrite Hnext, Hfree. rewrite bool_decide_false by (by intros []). do 2 f_equal. lia.
Qed.

Lemma inv_register events l request :
  link_inv events l → l = client_exec connected events →
  (Z.of_nat (S (length (ln_calls l))) <= 2 ^ 64)%Z →
  link_inv (events ++ [Ev_Register request]) (register l request).
Proof.
  intros Hinv Hl Hlen. pose proof (register_id _ _ Hinv Hlen) as Hid. destruct Hinv as [Hn Hc Hp Hs Ho].
  unfold register. rewrite Hid. destruct l as [a b calls d f g h]. simpl in *. split; simpl.
  - by rewrite length_app, Nat.add_1_r.
  - intros k c [Hk|[Hk Hcc]]%lookup_app_Some.
    + destruct (Hc k c Hk) as (? & (pre & post & He & Hlp & Hr) & ?). split_and!; [done| |done].
      exists pre, (post ++ [Ev_Register request]). rewrite He, <-app_assoc. split_and!; [done|done|].
      intros r Hsl. apply elem_of_app. left. by apply Hr.
    + apply list_lookup_singleton_Some in Hcc as [Hk0 <-]. assert (k = length calls) as -> by lia.
      split_and!; simpl; [done| |by intros]. exists events, []. split_and!; [done| |by intros]. by rewrite <-Hl.
  - intros id k [[<- <-]|[Hne Hk]]%lookup_insert_Some.
    + split; [done|]. eexists. split; [by rewrite lookup_app_r, Nat.sub_diag by lia|done].
    + destruct (Hp _ _ Hk) as (? & c & Hck & ?). split; [done|]. exists c. split; [|done]. by apply lookup_app_l_Some.
  - intros id q Hin. destruct (Hs _ _ Hin) as (k & c & Hk & ?). exists k, c. split; [by apply lookup_app_l_Some|done].
  - done.
Qed.

Lemma inv_queue events k l c :
  link_inv events l → live l k = Some c → cl_queued c = false →
  link_inv (events ++ [Ev_Queue k])
    (set_calls (set_queue l (ln_queue l ++ [(cl_id c, cl_request c)])) (alter set_queued k (ln_calls l))).
Proof.
  intros Hl [Hk Hlive]%live_Some Hq. destruct l as [a b calls d f g h]. simpl in *.
  eapply link_inv_change; [exact Hl| |done| | |]; simpl.
  - apply change_alter. intros c0 Hc0. assert (c0 = c) as -> by (simpl in Hc0; congruence).
    destruct c as [i q b' s e']. split; simpl; auto.
  - intros id j Hj. split; [done|]. intros c'. destruct Hl as [_ _ Hp _ _]. destruct (Hp _ _ Hj) as (_ & c0 & Hc0 & He).
    simpl in Hc0. destruct (decide (k = j)) as [->|Hne].
    + rewrite list_lookup_alter_eq, Hc0. intros [= <-]. by destruct c0.
    + rewrite list_lookup_alter_ne, Hc0 by done. by intros [= <-].
  - intros m [Hm|[Hm|Hm]%elem_of_app]%elem_of_app; [left; set_solver..|]. apply list_elem_of_singleton in Hm as ->.
    right. exists k, (set_queued c). rewrite list_lookup_alter_eq, Hk. by destruct c.
  - rewrite app_assoc, fmap_app. destruct Hl as [_ Hc _ Hs Ho]. simpl in *. apply NoDup_app.
    split_and!; [done| |apply NoDup_singleton]. intros id Hid Hone. apply list_elem_of_singleton in Hone as ->.
    apply list_elem_of_fmap in Hid as ([id' q'] & Hidd & Hin). simpl in Hidd. subst id'.
    destruct (Hs _ _ Hin) as (k' & c' & Hk' & Heq & _ & Hq').
    destruct (Hc _ _ Hk) as [E1 _], (Hc _ _ Hk') as [E2 _]. assert (k' = k) as -> by lia.
    rewrite Hk in Hk'. simplify_eq. congruence.
Qed.

Lemma inv_receive events l id r k :
  link_inv events l → ln_pending l !! id = Some k →
  link_inv (events ++ [Ev_Receive id r])
    (set_calls (set_pending l (delete id (ln_pending l))) (alter (set_slot (Slot_Response r)) k (ln_calls l))).
Proof.
  intros Hl Hk. destruct Hl as [Hn Hc Hp Hs Ho] eqn:E. destruct (Hp _ _ Hk) as (-> & c & Hck & He).
  assert (cl_id c = Z.of_nat k) as Hid by apply (Hc _ _ Hck). clear E. destruct l as [a b calls d f g h]. simpl in *.
  eapply link_inv_change; [exact Hl| |done| |by left|done]; simpl.
  - apply change_alter. intros c0 Hc0. assert (c0 = c) as -> by (simpl in Hc0; congruence).
    destruct c as [i q b' s e']. simpl in *. split; simpl; auto; [|by subst].
    intros r' [= ->]. right. by rewrite Hid.
  - rewrite <-Hid. exact (pending_other _ _ _ _ _ Hl Hck).
Qed.

Lemma inv_write events l e message queue sent :
  link_inv events l → ln_queue l = message :: queue →
  link_inv (events ++ [e])
    (if sent : bool then set_written (set_queue l queue) (ln_written l ++ [message])
     else set_writer (set_queue l queue) Broken).
Proof.
  intros Hl Hq. destruct l as [a b calls d f g h]. simpl in *. subst d.
  assert (link_inv (events ++ [e]) (Build_Link a b calls (message :: queue) f g h)) as Hsame by by apply inv_same.
  destruct Hsame as [Hn Hc Hp Hs Ho]. simpl in *. destruct sent; simpl; split; simpl; try done.
  - intros id q Hin. apply Hs. by rewrite <-app_assoc in Hin.
  - by rewrite <-app_assoc.
  - intros id q Hin. apply Hs. set_solver.
  - rewrite fmap_app, fmap_cons in Ho. rewrite fmap_app. apply NoDup_app in Ho as (? & Hd & Hm).
    apply NoDup_cons in Hm as [? ?]. apply NoDup_app. split_and!; [done| |done]. intros i Hi Hi'.
    apply (Hd i Hi). by right.
Qed.

Lemma inv_set_writer events l v : link_inv events l → link_inv events (set_writer l v).
Proof. by destruct l; intros []; split. Qed.
Lemma inv_set_reader events l v : link_inv events l → link_inv events (set_reader l v).
Proof. by destruct l; intros []; split. Qed.

Lemma inv_step events l e :
  link_inv events l → l = client_exec connected events →
  (Z.of_nat (length (ln_calls (client_step l e))) <= 2 ^ 64)%Z →
  link_inv (events ++ [e]) (client_step l e).
Proof.
  intros Hl Hex Hlen. pose proof (inv_same events e l Hl) as Hsame. destruct e; simpl in *.
  - apply inv_register; [done..|]. revert Hlen. unfold register. destruct (next_free _ _ _), l as [? ? calls ? ? ? ?].
    simpl. by rewrite length_app, Nat.add_1_r.
  - destruct (live l k) as [c|] eqn:E; [|done]. destruct (cl_queued c) eqn:Hq; [done|].
    destruct (ln_writer l); try by apply inv_queue. by apply inv_end.
  - destruct (live l k) as [c|] eqn:E; [|done]. destruct (cl_queued c) eqn:Hq; [|done].
    destruct (cl_slot c) eqn:Hs; [done| |by apply inv_end].
    apply inv_end; [done..|]. intros r' [= Hr]. split; [|done]. rewrite Hs. f_equal.
    by destruct r; simplify_eq/=.
  - destruct (live l k) as [c|] eqn:E; [|done]. destruct (cl_queued c) eqn:Hq; [|done].
    destruct (cl_slot c) eqn:Hs; [by apply inv_end|done|done].
  - destruct (live l k) as [c|] eqn:E; [|done]. by apply inv_end.
  - destruct (ln_writer l) eqn:Hw; try done. destruct (ln_queue l) as [|message queue] eqn:Hq; [done|].
    destruct l. by apply (inv_write _ _ _ _ _ sent Hl).
  - destruct (ln_writer l); try done. by apply inv_set_writer, inv_clear.
  - destruct (ln_writer l); try done. by apply inv_set_writer.
  - destruct (ln_reader l); try done. destruct (ln_pending l !! id) as [k|] eqn:Hk; [|done]. by apply inv_receive.
  - destruct (ln_reader l); try done. by apply inv_set_reader.
  - destruct (ln_reader l); try done. by apply inv_set_reader, inv_clear.
Qed.

(** Calls are never forgotten. *)
Lemma calls_grow l e : length (ln_calls l) ≤ length (ln_calls (client_step l e)).
Proof.
  destruct e; simpl; unfold register, end_call, clear_pending; repeat case_match; destruct l; simpl;
    rewrite ?length_app, ?length_alter, ?length_imap; simpl; lia.
Qed.

Lemma client_exec_snoc l events e : client_exec l (events ++ [e]) = client_step (client_exec l events) e.
Proof. unfold client_exec. by rewrite foldl_app. Qed.

Lemma exec_inv events :
  (Z.of_nat (length (ln_calls (client_exec connected events))) <= 2 ^ 64)%Z →
  link_inv events (client_exec connected events).
Proof.
  induction events as [|e events IH] using rev_ind.
  - intros _. split; simpl; try done; [by intros ? ? ?%elem_of_nil|constructor].
  - rewrite client_exec_snoc. intros Hlen. pose proof (calls_grow (client_exec connected events) e).
    apply inv_step; [apply IH; lia|done|done].
Qed.

(** *** What a cancelled call leaves alone *)

(** The call that a step of a future is about. *)
Definition about (e : ClientEvent) : option nat :=
  match e with
  | Ev_Queue k | Ev_Poll k | Ev_Expire k | Ev_Cancel k => Some k
  | _ => None
  end.

Record alike (k : nat) (l l' : Link) : Prop := {
  al_next : ln_next l' = ln_next l;
  al_queue : ln_queue l' = ln_queue l;
  al_written : ln_written l' = ln_written l;
  al_writer : ln_writer l' = ln_writer l;
  al_reader : ln_reader l' = ln_reader l;
  al_length : length (ln_calls l') = length (ln_calls l);
  al_calls i : i ≠ k → ln_calls l' !! i = ln_calls l !! i;
  al_pending id : id ≠ Z.of_nat k → ln_pending l' !! id = ln_pending l !! id
}.

#[local] Instance alike_equivalence k : Equivalence (alike k).
Proof.
  split.
  - by intros l; split.
  - intros l l' [???????]. split; auto; intros; symmetry; auto.
  - intros l1 l2 l3 [???????] [???????]. split; try congruence.
    + intros i Hi. rewrite al_calls1 by done. auto.
    + intros id Hid. rewrite al_pending1 by done. auto.
Qed.
(** What happens to the call itself. *)
Lemma alike_own k l f :
  alike k l (set_calls (set_pending l (delete (Z.of_nat k) (ln_pending l))) (alter f k (ln_calls l))).
Proof.
  destruct l. split; simpl; auto; [by rewrite length_alter| |].
  - intros i Hi. by rewrite list_lookup_alter_ne.
  - intros id Hid. by rewrite lookup_delete_ne.
Qed.

Lemma alike_live k l l' i : alike k l l' → i ≠ k → live l' i = live l i.
Proof. intros Ha Hi. unfold live. by rewrite (al_calls _ _ _ Ha). Qed.

Lemma alike_alter k l l' i f :
  alike k l l' → alike k (set_calls l (alter f i (ln_calls l))) (set_calls l' (alter f i (ln_calls l'))).
Proof.
  destruct l, l'. intros [???????]. simpl in *. split; simpl; auto; [by rewrite !length_alter|].
  intros j Hj. rewrite !list_lookup_alter. destruct (decide (i = j)) as [->|]; rewrite al_calls0 by done; done.
Qed.
Lemma alike_delete k l l' id :
  alike k l l' → alike k (set_pending l (delete id (ln_pending l))) (set_pending l' (delete id (ln_pending l'))).
Proof.
  destruct l, l'. intros [???????]. simpl in *. split; simpl; auto. intros j Hj. rewrite !lookup_delete.
  case_decide; [done|auto].
Qed.
Lemma alike_end k l l' i c en : alike k l l' → alike k (end_call l i c en) (end_call l' i c en).
Proof.
  intros Ha. unfold end_call. pose proof (alike_alter k _ _ i (set_ending en) (alike_delete k _ _ (cl_id c) Ha)) as Ha'.
  by destruct l, l'.
Qed.
Lemma alike_clear events events' k l l' :
  link_inv events l → link_inv events' l' → alike k l l' → alike k (clear_pending l) (clear_pending l').
Proof.
  intros Hl Hl' [Hn Hq Hw Hwr Hrd Hlen Hc Hp]. destruct l, l'. unfold clear_pending. simpl in *.
  split; simpl; auto; [by rewrite !length_imap|]. intros i Hi. rewrite !list_lookup_imap, Hc by done.
  destruct (ln_calls0 !! i) as [c|] eqn:E; [|done]. simpl. f_equal.
  destruct Hl as [_ Hcs _ _ _]. destruct (Hcs i c E) as [Hid _]. rewrite Hp; [done|]. rewrite Hid. lia.
Qed.

(** The whole step of the connection whose call [k] was cancelled. *)
Lemma alike_step events events' k l l' e :
  link_inv events l → link_inv events' l' → (Z.of_nat (length (ln_calls (client_step l e))) <= 2 ^ 64)%Z →
  alike k l l' → k < length (ln_calls l) → about e ≠ Some k → alike k (client_step l e) (client_step l' e).
Proof.
  intros Hl Hl' Hlen Ha Hk He. destruct Ha as [Hn Hq Hw Hwr Hrd Hln Hc Hp] eqn:E. clear E.
  assert (∀ i, about e = Some i → live l' i = live l i) as Hlive.
  { intros i Hi. apply (alike_live k); [done|]. congruence. }
  assert (∀ f g, (∀ i c, alike k (f i c l) (f i c l')) → alike k (g l) (g l') → ∀ i, about e = Some i →
    alike k (match live l i with Some c => f i c l | None => g l end)
            (match live l' i with Some c => f i c l' | None => g l' end)) as Hfuture.
  { intros f g Hf Hg i Hi. rewrite (Hlive i Hi). by destruct (live l i). }
  destruct e as [request|i|i|i|i|sent| | |id r| |]; simpl in *.
  - assert (Z.of_nat (S (length (ln_calls l))) <= 2 ^ 64)%Z as Hlen'.
    { revert Hlen. unfold register. destruct (next_free _ _ _), l as [? ? calls ? ? ? ?]. simpl.
      by rewrite length_app, Nat.add_1_r. }
    unfold register. rewrite (register_id _ _ Hl Hlen'), (register_id _ _ Hl') by (by rewrite Hln).
    destruct l, l'. simpl in *. rewrite Hln. split; simpl; auto; [by rewrite !length_app, Hln| |].
    + intros i Hi. destruct (decide (i < length ln_calls0)).
      * rewrite !lookup_app_l by lia. by apply Hc.
      * rewrite !lookup_app_r by lia. by rewrite Hln.
    + intros id Hid. rewrite !lookup_insert. case_decide; [done|auto].
  - apply (Hfuture (λ i c l, if cl_queued c then l else
        match ln_writer l with
        | Finished => end_call l i c (Returned (Err CE_Unavailable))
        | _ => set_calls (set_queue l (ln_queue l ++ [(cl_id c, cl_request c)])) (alter set_queued i (ln_calls l))
        end) (λ l, l)); [|done|done].
    intros j c. rewrite Hwr. destruct (cl_queued c); [done|].
    assert (alike k (set_calls (set_queue l (ln_queue l ++ [(cl_id c, cl_request c)])) (alter set_queued j (ln_calls l)))
      (set_calls (set_queue l' (ln_queue l' ++ [(cl_id c, cl_request c)])) (alter set_queued j (ln_calls l')))) as Hsent.
    { pose proof (alike_alter k l l' j set_queued Ha) as [???????]. destruct l, l'. simpl in *. split; simpl; auto. by rewrite Hq. }
    destruct (ln_writer l); [exact Hsent..|by apply alike_end].
  - apply (Hfuture (λ i c l, if cl_queued c then match cl_slot c with
        | Slot_Empty => l | Slot_Response r => end_call l i c (Returned (settle r))
        | Slot_Dropped => end_call l i c (Returned (Err CE_Unavailable)) end else l) (λ l, l)); [|done|done].
    intros j c. destruct (cl_queued c), (cl_slot c); by try apply alike_end.
  - apply (Hfuture (λ i c l, if cl_queued c then match cl_slot c with
        | Slot_Empty => end_call l i c (Returned (Err CE_Timeout)) | _ => l end else l) (λ l, l)); [|done|done].
    intros j c. destruct (cl_queued c), (cl_slot c); by try apply alike_end.
  - apply (Hfuture (λ i c l, end_call l i c Cancelled) (λ l, l)); [|done|done]. intros j c. by apply alike_end.
  - rewrite Hwr, Hq. destruct (ln_writer l) eqn:?, (ln_queue l) eqn:?, sent; try done;
      destruct l, l'; simpl in *; subst; split; simpl; auto.
  - rewrite Hwr. destruct (ln_writer l); try done. pose proof (alike_clear _ _ _ _ _ Hl Hl' Ha) as [].
    destruct l, l'. simpl in *. split; simpl; auto.
  - rewrite Hwr. destruct (ln_writer l); try done. destruct l, l'. simpl in *. split; simpl; auto.
  - rewrite Hrd. destruct (ln_reader l); try done. destruct (decide (id = Z.of_nat k)) as [->|Hid].
    + assert (∀ events l, link_inv events l → alike k l
        match ln_pending l !! Z.of_nat k with
        | Some j => set_calls (set_pending l (delete (Z.of_nat k) (ln_pending l)))
                      (alter (set_slot (Slot_Response r)) j (ln_calls l))
        | None => l
        end) as Hown.
      { intros evs l0 [_ _ Hp0 _ _]. destruct (ln_pending l0 !! Z.of_nat k) as [j|] eqn:Ej; [|done].
        destruct (Hp0 _ _ Ej) as [Heq _]. apply Nat2Z.inj in Heq as <-. apply alike_own. }
      by rewrite <-(Hown _ _ Hl), <-(Hown _ _ Hl').
    + rewrite (Hp id Hid). destruct (ln_pending l !! id) as [j|]; [|done].
      pose proof (alike_alter k _ _ j (set_slot (Slot_Response r)) (alike_delete k _ _ id Ha)). by destruct l, l'.
  - rewrite Hrd. destruct (ln_reader l); try done. destruct l, l'. simpl in *. split; simpl; auto.
  - rewrite Hrd. destruct (ln_reader l); try done. pose proof (alike_clear _ _ _ _ _ Hl Hl' Ha) as [].
    destruct l, l'. simpl in *. split; simpl; auto.
Qed.

Lemma alike_exec k events events' rest :
  (∀ e, e ∈ rest → about e ≠ Some k) →
  (Z.of_nat (length (ln_calls (client_exec connected (events ++ rest)))) <= 2 ^ 64)%Z →
  alike k (client_exec connected events) (client_exec connected events') →
  k < length (ln_calls (client_exec connected events)) →
  alike k (client_exec connected (events ++ rest)) (client_exec connected (events' ++ rest)).
Proof.
  intros Hrest Hlen Ha Hk. induction rest as [|e rest IH] using rev_ind; [by rewrite !app_nil_r|].
  rewrite !app_assoc, !client_exec_snoc in *.
  pose proof (calls_grow (client_exec connected (events ++ rest)) e).
  assert (alike k (client_exec connected (events ++ rest)) (client_exec connected (events' ++ rest))) as Ha'.
  { apply IH; [|lia]. intros e' He'. apply Hrest, elem_of_app. by left. }
  apply (alike_step (events ++ rest) (events' ++ rest)); [apply exec_inv; lia| |done|done| |].
  - apply exec_inv. rewrite (al_length _ _ _ Ha'). lia.
  - clear -Hk. induction rest as [|e' rest IH] using rev_ind; [by rewrite app_nil_r|].
    rewrite app_assoc, client_exec_snoc. pose proof (calls_grow (client_exec connected (events ++ rest)) e'). lia.
  - apply Hrest, elem_of_app. right. by left.
Qed.

(** *** A connection whose reader is gone *)

(** The call waits for a response, and the writing task has not failed. *)
Definition waiting (l : Link) (k : nat) : Prop :=
  ∃ c, ln_calls l !! k = Some c ∧ cl_slot c = Slot_Empty ∧ cl_queued c = true ∧
    (cl_ending c = None ∨ cl_ending c = Some Cancelled ∨ cl_ending c = Some (Returned (Err CE_Timeout))).

Lemma waiting_step l k e :
  ln_reader l = Finished → ln_writer l = Running → waiting l k → e ≠ Ev_Write false →
  ln_reader (client_step l e) = Finished ∧ ln_writer (client_step l e) = Running ∧ waiting (client_step l e) k.
Proof.
  intros Hrd Hwr Hw He. destruct Hw as (c & Hk & Hs & Hq & Hen).
  assert (∀ i c' en, live l i = Some c' →
    (i = k → en = Cancelled ∨ en = Returned (Err CE_Timeout)) →
    ln_reader (end_call l i c' en) = Finished ∧ ln_writer (end_call l i c' en) = Running ∧ waiting (end_call l i c' en) k)
    as Hend.
  { intros i c' en _ Hen'. destruct l. simpl in *. split_and!; [done|done|]. unfold waiting. simpl.
    destruct (decide (i = k)) as [->|Hne].
    - exists (set_ending en c). rewrite list_lookup_alter_eq, Hk. destruct c. simpl in *.
      split_and!; [done|done|done|]. destruct (Hen' eq_refl) as [-> | ->]; auto.
    - exists c. by rewrite list_lookup_alter_ne. }
  assert (waiting l k) as Hsame by (by exists c).
  destruct e as [request|i|i|i|i|[]| | |id r| |]; simpl; rewrite ?Hrd, ?Hwr; try done.
  - unfold register. destruct (next_free _ _ _), l. simpl in *. split_and!; [done|done|].
    exists c. split; [by apply lookup_app_l_Some|done].
  - destruct (live l i) as [c'|] eqn:E; [|done]. destruct (cl_queued c'); [done|].
    destruct l. simpl in *. split_and!; [done|done|]. unfold waiting. simpl. destruct (decide (i = k)) as [->|Hne].
    + exists (set_queued c). rewrite list_lookup_alter_eq, Hk. by destruct c.
    + exists c. by rewrite list_lookup_alter_ne.
  - destruct (live l i) as [c'|] eqn:E; [|done]. destruct (cl_queued c'); [|done].
    assert (i = k → cl_slot c' = Slot_Empty) as Heq.
    { intros ->. apply live_Some in E as [E _]. congruence. }
    destruct (cl_slot c') eqn:Hs'; [done| |]; apply (Hend i c' _ E); intros Hik; by specialize (Heq Hik).
  - destruct (live l i) as [c'|] eqn:E; [|done]. destruct (cl_queued c'), (cl_slot c'); try done.
    apply (Hend i c' _ E). auto.
  - destruct (live l i) as [c'|] eqn:E; [|done]. apply (Hend i c' _ E). auto.
  - destruct (ln_queue l); [done|]. by destruct l.
Qed.

(** The message under the identifier of a call has its request. *)
Lemma written_request events k c q :
  let l := client_exec connected events in
  (Z.of_nat (length (ln_calls l)) <= 2 ^ 64)%Z →
  ln_calls l !! k = Some c → (cl_id c, q) ∈ ln_written l → q = cl_request c.
Proof.
  intros l Hlen Hk Hin. destruct (exec_inv events Hlen) as [_ Hc _ Hs _]. fold l in Hc, Hs.
  destruct (Hs (cl_id c) q) as (k' & c' & Hk' & Heq & -> & _); [apply elem_of_app; by left|].
  destruct (Hc _ _ Hk) as [Hid _], (Hc _ _ Hk') as [Hid' _]. assert (k' = k) as -> by lia. congruence.
Qed.

(** The response of a call was received. *)
Lemma received_response events k c r :
  let l := client_exec connected events in
  (Z.of_nat (length (ln_calls l)) <= 2 ^ 64)%Z →
  ln_calls l !! k = Some c → cl_ending c = Some (Returned (Ok r)) → Ev_Receive (cl_id c) r ∈ events.
Proof.
  intros l Hlen Hk He. destruct (exec_inv events Hlen) as [_ Hc _ _ _].
  destruct (Hc k c Hk) as (_ & (pre & post & -> & _ & Hr) & Hend).
  apply elem_of_app. right. right. apply Hr, (proj1 (Hend r He)).
Qed.

(** *** Claims *)

(** A response reaches the call that asked for it: a call succeeds only with a response that
    came under its identifier after it was registered; within the first 2^64 calls the
    identifier is that of no other call, and of the messages that are written at most one
    bears it, with the request of the call. *)
Theorem responses_reach_their_calls events k c r :
  let l := client_exec connected events in
  (Z.of_nat (length (ln_calls l)) <= 2 ^ 64)%Z →
  ln_calls l !! k = Some c → cl_ending c = Some (Returned (Ok r)) →
  (∃ pre post, events = pre ++ Ev_Register (cl_request c) :: post ∧
     length (ln_calls (client_exec connected pre)) = k ∧ Ev_Receive (cl_id c) r ∈ post) ∧
  (∀ k' c', ln_calls l !! k' = Some c' → cl_id c' = cl_id c → k' = k) ∧
  NoDup (ln_written l).*1 ∧ (∀ q, (cl_id c, q) ∈ ln_written l → q = cl_request c).
Proof.
  intros l Hlen Hk He. destruct (exec_inv events Hlen) as [_ Hc _ _ Ho]. fold l in Hc, Ho.
  destruct (Hc k c Hk) as (Hid & (pre & post & -> & Hl & Hr) & Hend). split_and!.
  - exists pre, post. split_and!; [done..|]. apply Hr, (proj1 (Hend r He)).
  - intros k' c' Hk' Heq. destruct (Hc k' c' Hk') as [Hid' _]. lia.
  - rewrite fmap_app in Ho. by apply NoDup_app in Ho as [? _].
  - intros q. by apply written_request with (k := k).
Qed.

(** Cancelling a call affects no other: whatever happens afterwards to the connection and to
    the other calls, each of these is at every moment as if the call had not been cancelled. *)
Theorem cancellation_is_isolated events k rest i :
  k < length (ln_calls (client_exec connected events)) →
  (∀ e, e ∈ rest → about e ≠ Some k) →
  (Z.of_nat (length (ln_calls (client_exec connected (events ++ rest)))) <= 2 ^ 64)%Z →
  i ≠ k →
  ln_calls (client_exec connected (events ++ Ev_Cancel k :: rest)) !! i =
    ln_calls (client_exec connected (events ++ rest)) !! i ∧
  ln_written (client_exec connected (events ++ Ev_Cancel k :: rest)) =
    ln_written (client_exec connected (events ++ rest)).
Proof.
  intros Hk Hrest Hlen Hi.
  assert (alike k (client_exec connected events) (client_exec connected (events ++ [Ev_Cancel k]))) as Ha.
  { rewrite client_exec_snoc. simpl. destruct (live _ k) as [c|] eqn:E; [|done].
    apply live_Some in E as [Hc _].
    assert (link_inv events (client_exec connected events)) as [_ Hcs _ _ _].
    { apply exec_inv. clear -Hlen. revert Hlen. induction rest as [|e rest IH] using rev_ind; [by rewrite app_nil_r|].
      rewrite app_assoc, client_exec_snoc. pose proof (calls_grow (client_exec connected (events ++ rest)) e). intros. apply IH. lia. }
    destruct (Hcs k c Hc) as [Hid _]. unfold end_call. rewrite Hid. exact (alike_own k _ _). }
  pose proof (alike_exec k events (events ++ [Ev_Cancel k]) rest Hrest Hlen Ha Hk) as [_ _ Hw _ _ _ Hcalls _].
  rewrite <-app_assoc in Hw, Hcalls. split; [by apply Hcalls|done].
Qed.

(** A connection whose reading task has ended still takes requests: while the writing task
    does not fail, a call that waits then ends with nothing but its timeout. *)
Theorem unread_calls_time_out l k events :
  ln_reader l = Finished → ln_writer l = Running → waiting l k → Ev_Write false ∉ events →
  waiting (client_exec l events) k.
Proof.
  intros Hrd Hwr Hw He. assert (ln_reader (client_exec l events) = Finished ∧
    ln_writer (client_exec l events) = Running ∧ waiting (client_exec l events) k) as (_ & _ & ?); [|done].
  induction events as [|e events IH] using rev_ind; [done|].
  rewrite client_exec_snoc. destruct IH as (? & ? & ?); [set_solver|]. apply waiting_step; [done..|set_solver].
Qed.
End link.

(** ** Conversations *)

Module ClientRuns.
#[local] Instance wire : Wire := {|
  ManagementPatch := unit; ManagementSnapshot := unit; ManagementChangeSet := unit; PluginSetupSessionId := unit;
  PluginSetupInteractionResponse := unit; PluginSetupWorkflow := unit; PluginSetupSession := unit |}.

(** Two calls whose responses come in the other order, the first of which is cancelled. *)
Definition two : list ClientEvent :=
  [Ev_Register ListDevices; Ev_Queue 0; Ev_Register Ping; Ev_Queue 1; Ev_Write true; Ev_Write true].
Definition answered : list ClientEvent := two ++ [Ev_Receive 1 RS_Ack; Ev_Poll 1].

(** The daemon sends what cannot be decoded, and a request comes later. *)
Definition unread : list ClientEvent :=
  [Ev_ReaderFails; Ev_ReaderClears; Ev_Register Ping; Ev_Queue 0; Ev_Write true].

(** A write fails; a request comes after the pending ones were dropped but before the end
    of the writing task. *)
Definition between : list ClientEvent :=
  [Ev_Register Ping; Ev_Queue 0; Ev_Write false; Ev_WriterClears; Ev_Register ListDevices; Ev_Queue 1; Ev_WriterEnds].
End ClientRuns.

(** The connection is closed for the first call, but the second has to wait for its timeout:
    its message was accepted and nobody will drop its channel. *)
Example late_request_unanswered :
  let l := client_exec connected (ClientRuns.between ++ [Ev_Poll 0; Ev_Poll 1; Ev_ReaderFails; Ev_Expire 1]) in
  cl_ending <$> ln_calls l = [Some (Returned (Err CE_Unavailable)); Some (Returned (Err CE_Timeout))].
Proof. vm_compute. reflexivity. Qed.

Lemma responses_reach_their_calls_witness :
  let l := client_exec connected ClientRuns.answered in
  ln_calls l !! 1 = Some {| cl_id := 1; cl_request := Ping; cl_queued := true; cl_slot := Slot_Response RS_Ack;
                            cl_ending := Some (Returned (Ok RS_Ack)) |} ∧ NoDup (ln_written l).*1.
Proof.
  split; [vm_compute; reflexivity|].
  eapply (responses_reach_their_calls ClientRuns.answered 1).
  - vm_compute. discriminate.
  - vm_compute. reflexivity.
  - reflexivity.
Defined.

Lemma cancellation_is_isolated_witness :
  ln_calls (client_exec connected (ClientRuns.two ++ Ev_Cancel 0 :: [Ev_Receive 1 RS_Ack; Ev_Poll 1])) !! 1 =
  ln_calls (client_exec connected ClientRuns.answered) !! 1.
Proof.
  refine (proj1 (cancellation_is_isolated ClientRuns.two 0 [Ev_Receive 1 RS_Ack; Ev_Poll 1] 1 _ _ _ _)).
  - apply Nat.ltb_lt. vm_compute. reflexivity.
  - intros e [->|[->|[]%elem_of_nil]%elem_of_cons]%elem_of_cons; discriminate.
  - vm_compute. discriminate.
  - discriminate.
Defined.

Lemma unread_calls_time_out_witness :
  waiting (client_exec (client_exec connected ClientRuns.unread) [Ev_Receive 0 RS_Ack; Ev_Poll 0; Ev_Expire 0]) 0.
Proof.
  apply unread_calls_time_out.
  - reflexivity.
  - reflexivity.
  - eexists. split; [vm_compute; reflexivity|]. split; [reflexivity|]. split; [reflexivity|]. by left.
  - intros [?|[?|[?|[]%elem_of_nil]%elem_of_cons]%elem_of_cons]%elem_of_cons; discriminate.
Defined.
