(* ===== verification/Agreement.v ===== *)
(** * The client and the daemon agree

    [luminated/src/daemon/dispatch] answers every request with an error or with the status
    that the operation of [libluminate/src/client] which sends the request accepts; and
    the connection answers the requests in order, each under its identifier. *)

From S2P Require Import Prelude Model Client Graph Scenes Transition Policy PolicyRuntime Daemon Topology Persistence CollectionRegistry FrameStreams Descriptors Ownership PluginManager PluginApply TransitionRegistry Protocol Authorization Authentication PolicyFiles Tasks Authz Executor Appearance Inspection SceneHandlers Streaming TransitionTasks AccessAdministration Dispatch Connection.

(** ** What a request is answered with *)

Section fits.
Context `{Wire}.

Definition is_error (r : Response) : bool := match r with RS_Error _ => true | _ => false end.

Definition fits (request : Request) (r : Response) : bool :=
  match request, r with
  | _, RS_Error _ => true
  | Request_ServerInfo, RS_ServerInfo _ => true
  | ListDevices, RS_Devices _ => true
  | ListWithdrawnDevices, RS_WithdrawnDevices _ => true
  | GetDevice _, RS_Device _ => true
  | GetState _, RS_State _ => true
  | GetCollectionState _, RS_CollectionState _ => true
  | IssueEventTicket, RS_EventTicket _ => true
  | BeginFrameStream _, RS_FrameStreamStarted _ => true
  | UploadFrame _ _, RS_FrameAck _ _ => true
  | BeginShmFrameStream _, RS_ShmFrameStreamReady _ _ _ _ _ _ => true
  | Request_CreateCollection _ _ _ _, RS_CollectionCreated _ => true
  | ListCollections, RS_Collections _ => true
  | GetCollection _, RS_CollectionInfo _ => true
  | (Request_CreateScene _ _ _ | CaptureScene _ _ _ _ | ReplaceScene _ _ _ _ _ | RecaptureScene _ _ _ _),
    RS_Scene _ => true
  | ListScenes, RS_Scenes _ => true
  | GetScene _, RS_SceneInfo _ => true
  | ApplyScene _ _, RS_SceneApplied _ _ => true
  | (StartTransition _ | GetTransition _ | AbortTransition _ | RenewTransition _ _), RS_Transition _ => true
  | (GetAccessPolicy | ReplaceAccessPolicy _ _), RS_AccessPolicy _ => true
  | (CreateToken _ _ _ | RotateToken _ _), RS_TokenCreated _ _ => true
  | ListTokens, RS_Tokens _ => true
  | CreateAttestation _ _ _ _, RS_AttestationCreated _ _ => true
  | ListAttestations, RS_Attestations _ => true
  | (SetEffect _ | SetBrightness _ | RestoreAppearance _ | ClearTarget _ | SaveCurrent _),
    (RS_Ack | RS_CollectionApplied _ _) => true
  | (Ping | RefreshState _ | PurgeWithdrawnDevice _ | Rescan | UnloadPlugin _ | ReloadPlugin _
     | RevokeToken _ | RevokeAttestation _ | SetAppearanceSlots _ | Request_DestroyCollection _
     | AddCollectionMember _ _ | RemoveCollectionMember _ _ | DeleteScene _ _ | EndFrameStream _ _
     | EndShmFrameStream _ _), RS_Ack => true
  | _, _ => false
  end.
Lemma fits_error request e : fits request (RS_Error e) = true.
Proof. by destruct request. Qed.
Lemma fits_is_error request r : is_error r = true → fits request r = true.
Proof. destruct r; try done. intros _. apply fits_error. Qed.
End fits.

(** ** Results of tasks *)

Section yields.
Context `{Wire}.

(** Every result of the task satisfies [Q]. *)
Fixpoint yields {A} (Q : A → Prop) (t : task A) : Prop :=
  match t with
  | Return a => Q a
  | Panic => True
  | Step _ f k => ∀ o w, yields Q (k (f o w).2)
  | Ask _ _ k => ∀ d, yields Q (k d)
  | Publish _ k | Await _ k => yields Q k
  end.

Lemma yields_mono {A} (Q Q' : A → Prop) t : yields Q t → (∀ a, Q a → Q' a) → yields Q' t.
Proof. intros Ht HQ. induction t; simpl in *; auto. Qed.
Lemma yields_any {A} (Q : A → Prop) t : (∀ a, Q a) → yields Q t.
Proof. intros HQ. induction t; simpl; auto. Qed.
Lemma yields_bind {A B} (h : A → task B) t Q : yields (λ a, yields Q (h a)) t → yields Q (t ≫= h).
Proof. 
  revert Q. induction t as [a| |X m f k IH|op rs k IH|e k IH|ready k IH]; intros Q Ht; simpl in *;
    [done|done|intros o w; by apply IH|intros d; by apply IH|by apply IH|by apply IH].
Qed.
Lemma yields_then {A B} (h : A → task B) t Q : (∀ a, yields Q (h a)) → yields Q (t ≫= h).
Proof. intros Hh. by apply yields_bind, yields_any. Qed.
Lemma yields_step {X} m (f : Outside → World → World * X) Q : (∀ o w, Q (f o w).2) → yields Q (Step m f Return).
Proof. done. Qed.
Lemma yields_reading {X} (f : Outside → World → X) Q : (∀ o w, Q (f o w)) → yields Q (reading f).
Proof. done. Qed.
Lemma yields_locked {X} (f : Outside → DaemonState → DaemonState * X) Q :
  (∀ o st, Q (f o st).2) → yields Q (locked f).
Proof. intros HQ o w. simpl. specialize (HQ o (w_state w)). by destruct (f o (w_state w)). Qed.

(** A result that is an error is an error of the response. *)
Definition refuses {A} (t : task (result Response A)) : Prop :=
  yields (λ r, match r with Ok _ => True | Err e => is_error e = true end) t.

Lemma yields_or_return {E A B} (t : task (result E A)) (err : E → B) k Q :
  yields (λ r, match r with Ok _ => True | Err e => Q (err e) end) t →
  (∀ a, yields Q (k a)) → yields Q (or_return t err k).
Proof.
  intros Ht Hk. apply yields_bind. eapply yields_mono; [exact Ht|]. intros [a|e]; simpl; auto.
Qed.

Lemma yields_runs {A} others decides w (t : task A) tr w' a Q :
  runs others decides w t tr w' (Done a) → yields Q t → Q a.
Proof.
  intros Hr. remember (Done a) as o eqn:Ho. revert Ho.
  induction Hr as [w a'|w|w t|w w1 t tr w2 r Ho Hr IH|w o' X m f k w1 x tr w2 r Hf Hr IH
                  |w op rs k d tr w2 r Hd Hr IH|w e k tr w2 r Hr IH|w ready k tr w2 r Hw Hr IH];
    intros Heq; simplify_eq/=; auto.
  intros Hk. specialize (Hk o' w). rewrite Hf in Hk. by apply IH.
Qed.

(** ** The handlers *)

Context `{Env, DebugFormat, Rendering, Digest}.
Notation answer request t := (yields (λ r, fits request r = true) t).

Lemma refuses_return {A} (r : result Response A) :
  match r with Ok _ => True | Err e => is_error e = true end → refuses (Return r).
Proof. done. Qed.

Lemma refuses_authorize op devices : refuses (authorize op devices).
Proof.
  unfold authorize. apply yields_then. intros [resources g]. apply yields_then. intros [|reason]; [|done].
  apply yields_then. by intros [].
Qed.
Lemma refuses_filter_devices op devices : refuses (filter_devices op devices).
Proof.
  unfold filter_devices. apply yields_then. intros [resources g]. apply yields_then. intros ds.
  apply yields_then. by intros [].
Qed.
Lemma refuses_projected op : refuses (projected_collections op).
Proof.
  unfold projected_collections. apply yields_then. intros [collections g].
  apply yields_bind. eapply yields_mono; [apply refuses_filter_devices|]. intros [[visible g']|e]; [|exact id].
  intros _. apply yields_then. intros empty. apply yields_then. intros current. simpl.
  destruct (_ || _); [done|]. by destruct (project _ _ _).
Qed.

Lemma answer_authorized {A} request (t : task (result Response A)) err (k : A → task Response) :
  refuses t → (∀ e, err e = e) → (∀ a, answer request (k a)) → answer request (or_return t err k).
Proof.
  intros Ht He Hk. apply yields_or_return; [|done]. eapply yields_mono; [exact Ht|].
  intros [a|e]; [done|]. rewrite He. apply fits_is_error.
Qed.
Lemma answer_checked {A} request (t : task (daemon A)) (k : A → task Response) :
  (∀ a, answer request (k a)) → answer request (or_return t response_of_error k).
Proof. intros Hk. apply yields_or_return; [|done]. apply yields_any. intros [a|e]; [done|exact (fits_error _ _)]. Qed.

Lemma answer_mutate request devices g (job : task (daemon unit)) :
  fits request RS_Ack = true → answer request (mutate devices g job).
Proof. intros Hr. apply yields_then. intros [[]|e]; [exact Hr|exact (fits_error _ _)]. Qed.
Lemma answer_mutate_collection request devices g applied denied (job : task (daemon unit)) :
  fits request (RS_CollectionApplied applied denied) = true →
  answer request (mutate_collection devices g applied denied job).
Proof. intros Hr. apply yields_then. intros [[]|e]; [exact Hr|exact (fits_error _ _)]. Qed.

(** The steps that every handler goes through. *)
Ltac handler :=
  repeat first
    [ apply fits_error
    | assumption
    | match goal with
      | |- yields _ (or_return (authorize _ _) _ _) =>
          apply answer_authorized; [apply refuses_authorize|by intros []|intros ?]
      | |- yields _ (or_return (filter_devices _ _) _ _) =>
          apply answer_authorized; [apply refuses_filter_devices|by intros []|intros ?]
      | |- yields _ (or_return (projected_collections _) _ _) =>
          apply answer_authorized; [apply refuses_projected|by intros []|intros ?]
      | |- yields _ (or_return _ response_of_error _) => apply answer_checked; intros ?
      | |- yields _ (mutate _ _ _) => apply answer_mutate; reflexivity
      | |- yields _ (mutate_collection _ _ _ _ _) => apply answer_mutate_collection; reflexivity
      | |- yields _ (Return _) => cbn [yields]
      | |- yields _ Panic => exact I
      | |- yields _ (match ?x with _ => _ end) => destruct x
      | |- fits _ (match ?x with _ => _ end) = true => destruct x
      | |- fits _ _ = true => reflexivity
      | |- yields _ (_ ≫= _) => apply yields_then; intros ?
      end ].

Lemma answer_read_current request g {X} (f : Outside → World → option X) k :
  (∀ x, fits request (k x) = true) → answer request (read_current g f k).
Proof. intros Hk. unfold read_current. apply yields_then. intros [[x|]|]; [apply Hk|exact I|exact (fits_error _ _)]. Qed.

Lemma answer_mutate_target request op cancel target (job : task (daemon unit)) :
  fits request RS_Ack = true → answer request (mutate_target op cancel target job).
Proof.
  intros Hr. unfold mutate_target. handler. by apply answer_mutate.
Qed.
Lemma answer_mutate_leaves request op cancel leaves (job : list TargetId → task (daemon unit)) :
  (∀ applied denied, fits request (RS_CollectionApplied applied denied) = true) →
  answer request (mutate_leaves op cancel leaves job).
Proof. intros Hr. unfold mutate_leaves. handler. by apply answer_mutate_collection. Qed.
Lemma answer_mutate_scene request devices g (job : task (daemon Scene)) :
  (∀ scene, fits request (RS_Scene scene) = true) → answer request (mutate_scene devices g job).
Proof.
  intros Hr. unfold mutate_scene. apply yields_then. intros [scene|e]; simpl; [apply Hr|apply fits_error].
Qed.
Lemma answer_transition_response request id :
  (∀ status, fits request (RS_Transition status) = true) → answer request (transition_response id).
Proof.
  intros Hr. apply yields_reading. intros o w. case_match; [apply Hr|apply fits_error].
Qed.

Lemma yields_start op request : yields (λ r, fits (StartTransition request) r.1 = true) (TransitionTasks.start op request).
Proof.
  unfold TransitionTasks.start. apply yields_then. intros [[plans is_scene]|[|e]]; [|exact I|exact (fits_error _ _)].
  assert (∀ plans, yields (λ r, fits (StartTransition request) r.1 = true) (register request plans)) as Hreg.
  { intros p. unfold register. apply yields_then. by intros [status entry]. }
  apply yields_or_return.
  { eapply yields_mono; [apply refuses_authorize|]. intros [g|e]; [done|]. apply fits_is_error. }
  intros g. apply yields_then. intros []. destruct is_scene; [|apply Hreg].
  apply yields_or_return; [|intros ?; apply Hreg]. apply yields_any. intros [[]|e]; [done|apply fits_error].
Qed.

(** The client of the shared-memory fast path is refused with an error. *)
Lemma answer_begin_shm own principal prefer_shm prefer_client_shm op target :
  answer (BeginShmFrameStream target)
    (begin_shm_frame_stream own principal prefer_shm prefer_client_shm op target).
Proof.
  unfold begin_shm_frame_stream. apply answer_authorized; [apply refuses_authorize|done|]. intros g.
  apply yields_then. intros []. case_match; [exact (fits_error _ _)|].
  apply yields_bind. eapply yields_mono.
  { apply (yields_locked _ (λ r, match r with Ok _ => True | Err e => is_error e = true end)). intros o st.
    destruct (negb (_ =? _)%Z); [done|]. destruct (shm_capability st target); [|done].
    by destruct (begin_frame_stream st target) as [st' [generation|e]]. }
  intros [[generation capability]|e]; [|apply fits_is_error]. intros _.
  apply yields_then. intros [[ready|]|e]; handler.
Qed.

Section dispatch.
Context (ctx : DispatchContext).

Lemma answer_administered request op (k : list RateLimitKey → task Response) :
  (∀ actors, answer request (k actors)) → answer request (administered ctx op k).
Proof. intros Hk. unfold administered. handler. apply Hk. Qed.
Lemma answer_registered request op (k : task Response) :
  answer request k → answer request (registered ctx op k).
Proof. intros Hk. apply answer_administered. intros actors. case_match; [done|exact (fits_error _ _)]. Qed.
Lemma answer_durable_intent request operation (k : task Response) :
  answer request k → answer request (durable_intent ctx operation k).
Proof.
  intros Hk. unfold durable_intent. apply yields_then. intros [[]|e]; [done|].
  case_match; [done|exact (fits_error _ _)].
Qed.

Ltac service :=
  repeat first
    [ apply answer_administered; intros ? | apply answer_registered | apply answer_durable_intent
    | progress handler | apply yields_reading; intros; reflexivity ].

Section managing.
Context (managing : Request → task Response).

(** A request that reaches its handler is answered with what fits it. *)
Lemma dispatch_fits request :
  routed request = true → request ≠ IssueEventTicket →
  answer request (dispatch_request managing ctx request).
Proof.
  unfold dispatch_request. intros Hr Ht. destruct request; cbn [operation_for]; try discriminate Hr.
  all: try reflexivity; try done.
  all: try (unfold server_info, list_devices, list_withdrawn_devices, get_device, get_state,
    get_collection_state, list_collections, get_collection, refresh_state, purge_withdrawn_device_request,
    rescan, unload_plugin_request, reload_plugin_request, adopt_topology,
    set_effect_request, set_appearance_slots_request, set_brightness_request, restore_appearance_request,
    clear_target_request, save_current, dispatch_collection_mutation, dispatch_resolved_mutation,
    dispatch_resolved_appearance_restoration, dispatch_resolved_save, with_collection_leaves,
    create_collection_request, destroy_collection_request, add_collection_member_request,
    remove_collection_member_request, resolve_sequenced,
    create_scene_request, capture_scene, replace_scene_request, recapture_scene,
    list_scenes, get_scene, apply_scene;
    solve [repeat first [progress handler | apply answer_read_current; intros ? | apply answer_mutate_target; reflexivity
       | apply answer_mutate_leaves; intros; reflexivity | apply answer_mutate_scene; intros; reflexivity]]).
  all: try (unfold get_policy, replace_policy, create_token_request, list_tokens_request, rotate_token_request,
    revoke_token_request, create_attestation_request, list_attestations_request, revoke_attestation_request;
    solve [service]).
  all: try (unfold begin_frame_stream_request, upload_frame, end_frame_stream_request, end_shm_frame_stream;
    solve [handler]).
  all: try (unfold get_transition, abort_transition, renew_transition, find_transition;
    solve [repeat first [progress handler | apply answer_transition_response; intros; reflexivity]]).
  - unfold replace_policy, policy_error. service.
  - unfold delete_scene_request. apply answer_authorized; [apply refuses_authorize|done|]. intros g.
    apply answer_checked. intros []. apply yields_then. intros current. apply yields_bind. eapply yields_mono; [by apply (answer_mutate (DeleteScene id expected_revision))|].
    intros r Hfits. by destruct r.
  - unfold start_transition. apply yields_bind. eapply yields_mono; [apply yields_start|]. intros r Hfits. exact Hfits.
  - apply answer_begin_shm.
Qed.

End managing.
End dispatch.

Section loop.
Context (managing : Request → task Response).

Lemma answer_request_dispatch d c revocation config limiter request :
  request ≠ Ping → request ≠ IssueEventTicket →
  answer_request managing d c revocation config limiter request =
  (response ← dispatch_request managing (DispatchContext_new d c config) request; Return (limiter, response)).
Proof. by destruct request. Qed.

Lemma answer_request_fits d c revocation config limiter request :
  routed request = true →
  yields (λ r, fits request r.2 = true) (answer_request managing d c revocation config limiter request).
Proof.
  intros Hr. destruct request;
    try (rewrite answer_request_dispatch by done; apply yields_bind; eapply yields_mono; [by apply dispatch_fits|];
         exact (λ _ H, H)).
  - apply yields_reading. intros o w. unfold PingLimiter_response. by case_bool_decide.
  - unfold answer_request, Connection.issue_event_ticket. apply yields_bind, yields_then.
    intros [ticket|[e|e]]; exact eq_refl.
Qed.

(** The requests of the connection's input, with their identifiers. *)
Definition received_request (input : Received) : option (Z * Request) :=
  match input with Recv_Request id request _ _ => Some (id, request) | _ => None end.
Definition received_requests (inputs : list Received) : list (Z * Request) := omap received_request inputs.

(** Responses answer the first requests, in order. *)
Definition answered_by (requests : list (Z * Request)) (responses : list (Z * Response)) : Prop :=
  ∃ served left, requests = served ++ left ∧
    Forall2 (λ q a, q.1 = a.1 ∧ (routed q.2 = true → fits q.2 a.2 = true)) served responses.

Lemma answered_none requests : answered_by requests [].
Proof. exists [], requests. split; [done|constructor]. Qed.
Lemma answered_cons id request requests r responses :
  (routed request = true → fits request r = true) → answered_by requests responses →
  answered_by ((id, request) :: requests) ((id, r) :: responses).
Proof.
  intros Hr (served & left & -> & Hall). exists ((id, request) :: served), left. split; [done|]. by constructor.
Qed.

Lemma loop_answers d c revocation inputs limiter :
  yields (answered_by (received_requests inputs))
    (connection_request_loop managing d c revocation inputs limiter).
Proof.
  revert limiter. induction inputs as [|input inputs IH]; intros limiter; [exact (answered_none _)|].
  destruct input as [id request config delivered| | | |]; simpl.
  - apply yields_bind. eapply yields_mono with (Q := λ r, routed request = true → fits request r.2 = true).
    { destruct (routed request) eqn:Hr; [|by apply yields_any].
      eapply yields_mono; [by apply answer_request_fits|]. done. }
    intros [limiter' r] Hfits. destruct delivered; [|exact (answered_none _)].
    apply yields_bind. eapply yields_mono; [apply IH|]. intros responses Hrest. by apply answered_cons.
  - intros o w. simpl. case_match; [exact (answered_none _)|apply IH].
  - intros o w. simpl. case_match; [exact (answered_none _)|apply IH].
  - exact (answered_none _).
  - exact (answered_none _).
Qed.
End loop.
End yields.

(** ** What the client makes of it *)

Section methods.
Context `{Wire}.

(** The operations of the client; those of one target, of a colour or of an emission are
    instances of the ones for a selector and an effect. *)
Inductive client_method : ∀ {T}, Method T → Prop :=
| CM_issue_event_ticket : client_method Client.issue_event_ticket
| CM_server_info : client_method Client.server_info
| CM_ping : client_method Client.ping
| CM_list_devices : client_method Client.list_devices
| CM_list_withdrawn_devices : client_method Client.list_withdrawn_devices
| CM_get_device id : client_method (Client.get_device id)
| CM_get_state device : client_method (Client.get_state device)
| CM_get_collection_state collection : client_method (Client.get_collection_state collection)
| CM_refresh_state device : client_method (Client.refresh_state device)
| CM_purge device : client_method (Client.purge_withdrawn_device device)
| CM_rescan : client_method Client.rescan
| CM_set_appearance_slots target values : client_method (Client.set_appearance_slots target values)
| CM_set_effect_selector selector effect policy : client_method (Client.set_effect_selector selector effect policy)
| CM_set_effect target effect : client_method (Client.set_effect target effect)
| CM_set_brightness_selector target value policy :
    client_method (Client.set_brightness_selector target value policy)
| CM_set_brightness target value : client_method (Client.set_brightness target value)
| CM_clear_target_selector target : client_method (Client.clear_target_selector target)
| CM_clear_target target : client_method (Client.clear_target target)
| CM_save_current_selector target : client_method (Client.save_current_selector target)
| CM_save_current target : client_method (Client.save_current target)
| CM_restore_appearance_selector target : client_method (Client.restore_appearance_selector target)
| CM_restore_appearance target : client_method (Client.restore_appearance target)
| CM_create_collection name description category members :
    client_method (Client.create_collection name description category members)
| CM_destroy_collection id : client_method (Client.destroy_collection id)
| CM_add_collection_member id member : client_method (Client.add_collection_member id member)
| CM_remove_collection_member id member : client_method (Client.remove_collection_member id member)
| CM_list_collections : client_method Client.list_collections
| CM_get_collection id : client_method (Client.get_collection id)
| CM_create_scene name description bindings : client_method (Client.create_scene name description bindings)
| CM_capture_scene name description mode targets :
    client_method (Client.capture_scene name description mode targets)
| CM_replace_scene id revision name description bindings :
    client_method (Client.replace_scene id revision name description bindings)
| CM_recapture_scene id revision mode targets : client_method (Client.recapture_scene id revision mode targets)
| CM_delete_scene id revision : client_method (Client.delete_scene id revision)
| CM_list_scenes : client_method Client.list_scenes
| CM_get_scene id : client_method (Client.get_scene id)
| CM_apply_scene id targets : client_method (Client.apply_scene_authorized id targets)
| CM_start source destination options : client_method (Client.start source destination options)
| CM_get_transition id : client_method (Client.get_transition id)
| CM_abort_transition id : client_method (Client.abort_transition id)
| CM_begin_frame_stream target : client_method (Client.begin_frame_stream target)
| CM_upload_frame target envelope : client_method (Client.upload_frame target envelope)
| CM_end_frame_stream target generation : client_method (Client.end_frame_stream target generation)
| CM_begin_shm_frame_stream target : client_method (Client.begin_shm_frame_stream target)
| CM_end_shm_frame_stream target generation : client_method (Client.end_shm_frame_stream target generation)
| CM_get_policy : client_method Client.get_policy
| CM_replace_policy expected replacement : client_method (Client.replace_policy expected replacement)
| CM_create_attestation name subject groups expires_at :
    client_method (Client.create_principal_attestation name subject groups expires_at)
| CM_list_attestations : client_method Client.list_attestations
| CM_revoke_attestation name : client_method (Client.revoke_attestation name)
| CM_create_token id subject expires_at : client_method (Client.create_token id subject expires_at)
| CM_list_tokens : client_method Client.list_tokens
| CM_rotate_token id expires_at : client_method (Client.rotate_token id expires_at)
| CM_revoke_token id : client_method (Client.revoke_token id).

Lemma checked_policy_Err source e : Client.checked_policy source = Err e → e = Client.invalid_policy.
Proof. unfold Client.checked_policy. destruct (PolicyDocument_new source); [done|]. by intros [= <-]. Qed.

(** An operation fails on a response that fits only with the daemon's error, or when the
    policy it gets is not valid. *)
Lemma fits_understood {T} (m : Method T) r e :
  client_method m → fits (sends m) r = true → finish m (Client.settle r) = Err e →
  (∃ error, r = RS_Error error ∧ e = from_operation_error error) ∨ e = Client.invalid_policy.
Proof.
  intros Hm Hf. destruct r.
  all: try (destruct Hm; try discriminate Hf; try discriminate 1).
  all: try (intros [= <-]; left; by eexists).
  all: exact (λ He, or_intror (checked_policy_Err _ _ He)).
Qed.
End methods.

(** ** Claims *)

(** The two sides of a connection agree.  The requests that the daemon reads are the first
    ones that the client wrote, and what the client reads are responses of the daemon.
    Then a call that succeeds got what the daemon answered to its own request, and the
    operation that made the call understands it; only a policy document that is not valid
    can be refused. *)
Theorem client_daemon_agree `{Wire, Env, DebugFormat, Rendering, Digest} managing d c revocation inputs
    limiter others decides w tr w' responses events {T} (m : Method T) k call r :
  let l := client_exec connected events in
  (Z.of_nat (length (ln_calls l)) <= 2 ^ 64)%Z →
  runs others decides w (connection_request_loop managing d c revocation inputs limiter) tr w' (Done responses) →
  received_requests inputs `prefix_of` ln_written l →
  (∀ id r, Ev_Receive id r ∈ events → (id, r) ∈ responses) →
  client_method m → routed (sends m) = true →
  ln_calls l !! k = Some call → cl_request call = sends m → cl_ending call = Some (Returned (Ok r)) →
  ∃ i, received_requests inputs !! i = Some (cl_id call, sends m) ∧ responses !! i = Some (cl_id call, r) ∧
    ∀ e, finish m (Client.settle r) = Err e →
      (∃ error, r = RS_Error error ∧ e = from_operation_error error) ∨ e = Client.invalid_policy.
Proof.
  intros l Hlen Hrun [left Hpre] Hread Hm Hroute Hk Hreq Hend.
  destruct (yields_runs _ _ _ _ _ _ _ _ Hrun (loop_answers managing d c revocation inputs limiter))
    as (served & rest & Hserved & Hall).
  pose proof (Hread _ _ (received_response events k call r Hlen Hk Hend)) as Hin.
  apply list_elem_of_lookup in Hin as [i Hi].
  destruct (Forall2_lookup_r _ _ _ _ _ Hall Hi) as ([id q] & Hq & Hid & Hfits). simpl in Hid, Hfits. subst id.
  assert (received_requests inputs !! i = Some (cl_id call, q)) as Hri.
  { rewrite Hserved. by apply lookup_app_l_Some. }
  assert (q = sends m) as ->.
  { rewrite <-Hreq. apply (written_request events k call q Hlen Hk). fold l. rewrite Hpre. apply elem_of_app. left.
    by eapply list_elem_of_lookup_2. }
  exists i. split_and!; [done|done|]. intros e. by apply fits_understood, Hfits.
Qed.

(** Every request that the daemon routes is answered, in order and under its identifier, with
    an error or with the status that fits it. *)
Theorem responses_fit_requests `{Wire, Env, DebugFormat, Rendering, Digest} managing d hello request answer
    inputs others decides w tr w' responses :
  runs others decides w (handle_connection managing d hello request answer inputs) tr w' (Done (Ok responses)) →
  answered_by (received_requests inputs) responses.
Proof.
  intros Hrun. refine (yields_runs _ _ _ _ _ _ _
    (λ r, match r with Ok responses => answered_by (received_requests inputs) responses | Err _ => True end) Hrun _).
  unfold handle_connection. apply yields_then. intros [[c revocation]|reason]; [|done].
  apply yields_then. intros limiter. apply yields_bind. eapply yields_mono; [apply loop_answers|].
  intros responses' Hans. apply yields_then. intros []. exact Hans.
Qed.
