(* ===== verification/Supervisor.v ===== *)
(** * Supervised hosts: [luminate-host-supervisor]

    The daemon and the plugin hosts it starts exchange frames of at most 16 MiB, over an
    asynchronous or a synchronous stream; a host that ended is started again at most once
    per window of time. *)

From S2P Require Import Prelude ByteStrings Framing.

(** ** Frames between the supervisor and its hosts *)

Definition MAX_FRAME_LEN : Z := 16 * 1024 * 1024.

Section frames.
Context {T} `{Cbor T}.

Definition checked_len (len : Z) : framing Z :=
  if (MAX_FRAME_LEN <? len)%Z then Err (FE_FrameTooLarge len MAX_FRAME_LEN) else Ok len.

Definition encode (value : T) : framing (Z * list Z) :=
  payload ← map_err FE_CborEncode (into_writer value);
  len ← ok_or (checkU 32 (Z.of_nat (length payload))) FE_PayloadTooLarge;
  _ ← checked_len len;
  Ok (len, payload).

Definition decode (payload : list Z) : framing T := map_err FE_CborDecode (from_reader payload).

Definition send (sink : Sink) (value : T) : Sink * framing unit :=
  match encode value with
  | Err error => (sink, Err error)
  | Ok (len, payload) =>
      then_write (write_all sink (be_bytes 4 len)) (λ sink,
        then_write (write_all sink payload) (λ sink, (sink, Ok tt)))
  end.
Definition receive (stream : list Z) : framing T * list Z :=
  match read_exact 4 stream with
  | (None, stream) => (Err FE_Io, stream)
  | (Some prefix, stream) =>
      match checked_len (from_be prefix) with
      | Err error => (Err error, stream)
      | Ok len =>
          match read_exact (Z.to_nat len) stream with
          | (None, stream) => (Err FE_Io, stream)
          | (Some payload, stream) => (decode payload, stream)
          end
      end
  end.

(** [sync_io.rs] *)
Definition write_frame (writer : Sink) (value : T) : Sink * framing unit :=
  match encode value with
  | Err error => (writer, Err error)
  | Ok (len, payload) =>
      then_write (write_all writer (be_bytes 4 len)) (λ writer,
        then_write (write_all writer payload) (λ writer, (writer, Ok tt)))
  end.
Definition read_frame (reader : list Z) : framing T * list Z :=
  match read_exact 4 reader with
  | (None, reader) => (Err FE_Io, reader)
  | (Some length, reader) =>
      match checked_len (from_be length) with
      | Err error => (Err error, reader)
      | Ok len =>
          match read_exact (Z.to_nat len) reader with
          | (None, reader) => (Err FE_Io, reader)
          | (Some payload, reader) => (decode payload, reader)
          end
      end
  end.
End frames.

(** *** Restarts: [backoff.rs], times in nanoseconds *)

Record RespawnBackoff := { window : Z; last_attempt : option Z }.
Definition RespawnBackoff_new (window : Z) : RespawnBackoff :=
  {| window := window; last_attempt := None |}.

Definition allow_attempt_at (b : RespawnBackoff) (now : Z) : RespawnBackoff * bool :=
  if match last_attempt b with
     | Some last => (Z.max 0 (now - last) <? window b)%Z
     | None => false
     end
  then (b, false)
  else ({| window := window b; last_attempt := Some now |}, true).

(** The times at which attempts are permitted. *)
Fixpoint permitted (b : RespawnBackoff) (times : list Z) : list Z :=
  match times with
  | [] => []
  | now :: times =>
      let '(b, ok) := allow_attempt_at b now in
      if ok : bool then now :: permitted b times else permitted b times
  end.

(** *** Versions: [handshake.rs] *)

Definition HOST_SUPERVISOR_PROTOCOL_VERSION : Z := 5.
Inductive Compatibility :=
| Compatible
| Incompatible (supported_protocol_version : Z) (reason : option string).
Definition check (peer_protocol_version : Z) : Compatibility :=
  if (peer_protocol_version =? HOST_SUPERVISOR_PROTOCOL_VERSION)%Z then Compatible
  else Incompatible HOST_SUPERVISOR_PROTOCOL_VERSION None.

(** ** Properties *)

Section properties.
Context {T} `{Cbor T}.

Lemma encode_Ok value len payload :
  encode value = Ok (len, payload) →
  into_writer value = Ok payload ∧ len = Z.of_nat (length payload) ∧ (len <= MAX_FRAME_LEN)%Z.
Proof.
  unfold encode, checked_len. destruct (into_writer value) as [p|]; [|done]. cbn.
  destruct (checkU 32 _) as [n|] eqn:Hn; [|done]. apply checkU_Some in Hn as [-> _]. cbn.
  destruct (Z.ltb_spec MAX_FRAME_LEN (Z.of_nat (length p))); [done|]. cbn. intros [= <- <-].
  split_and!; [done..|lia].
Qed.

Lemma write_frame_Ok writer value writer' :
  write_frame writer value = (writer', Ok tt) →
  ∃ payload, into_writer value = Ok payload ∧ (Z.of_nat (length payload) <= MAX_FRAME_LEN)%Z ∧
    sink_written writer' = sink_written writer ++ frame payload.
Proof.
  unfold write_frame, then_write. destruct (encode value) as [[len payload]|] eqn:He; [|done].
  apply encode_Ok in He as (Hp & -> & Hlen).
  destruct (write_all writer _) as [s1 []] eqn:H1; [|done].
  destruct (write_all s1 payload) as [s2 []] eqn:H2; [|done]. intros [= <-].
  apply write_all_spec in H1, H2. exists payload. split_and!; [done..|].
  unfold frame. by rewrite H2, H1, app_assoc.
Qed.

Lemma receive_written payload value rest :
  from_reader payload = Ok value → (Z.of_nat (length payload) <= MAX_FRAME_LEN)%Z →
  receive (frame payload ++ rest) = (Ok value, rest).
Proof.
  intros Hv Hlen. unfold receive, frame, checked_len, decode.
  rewrite <-app_assoc, read_exact_app by apply be_bytes_length.
  rewrite from_be_bytes by (unfold uN, MAX_FRAME_LEN in *; lia).
  destruct (Z.ltb_spec MAX_FRAME_LEN (Z.of_nat (length payload))); [lia|].
  rewrite Nat2Z.id, read_exact_app by done. by rewrite Hv.
Qed.
End properties.

(** A later time is permitted no sooner than a window after the previous permission. *)
Lemma permitted_after b times :
  StronglySorted Z.le times →
  Forall (λ t, match last_attempt b with Some last => (last + window b <= t)%Z ∨ (window b <= 0)%Z | None => True end)
    (permitted b times) ∧
  StronglySorted (λ s t, (s + window b <= t)%Z ∨ (window b <= 0)%Z) (permitted b times).
Proof.
  revert b. induction times as [|now times IH]; intros b Hs; cbn [permitted]; [repeat constructor|].
  apply StronglySorted_inv in Hs as [Hs Hle]. unfold allow_attempt_at.
  destruct (match last_attempt b with Some last => _ | None => false end) eqn:Hr; [by apply IH|].
  destruct (IH {| window := window b; last_attempt := Some now |} Hs) as [Hall Hsorted]. cbn in Hall, Hsorted.
  split.
  - constructor.
    + destruct (last_attempt b) as [last|]; [|done]. apply Z.ltb_ge in Hr. lia.
    + eapply Forall_impl; [exact Hall|]. cbn. intros t Ht. destruct (last_attempt b) as [last|]; [|done].
      apply Z.ltb_ge in Hr. lia.
  - by constructor.
Qed.

(** ** Claims *)

(** Whichever side writes a frame synchronously or asynchronously, the other side reads
    the message it carries either way, and is left at what follows. *)
Theorem host_frames_roundtrip {T} `{Cbor T} sink value sink' :
  send sink value = (sink', Ok tt) ∨ write_frame sink value = (sink', Ok tt) →
  ∃ sent, sink_written sink' = sink_written sink ++ sent ∧
    ∀ rest, receive (sent ++ rest) = (Ok value, rest) ∧ read_frame (sent ++ rest) = (Ok value, rest).
Proof.
  intros Hs. assert (write_frame sink value = (sink', Ok tt)) as Hw by by destruct Hs.
  apply write_frame_Ok in Hw as (payload & Hp & Hlen & Hw). apply from_into in Hp.
  exists (frame payload). split; [done|]. intros rest. by split; apply receive_written.
Qed.

(** Restarts are rationed and never starved: of attempts at non-decreasing times those
    that are permitted are a window apart, and an attempt is refused only within a window
    after one that was permitted. *)
Theorem respawns_rationed b times :
  StronglySorted Z.le times → (0 < window b)%Z →
  StronglySorted (λ s t, (s + window b <= t)%Z) (permitted b times) ∧
  (∀ before now after, times = before ++ now :: after → now ∉ permitted b times →
     ∃ last, (last ∈ permitted b before ∨ last_attempt b = Some last) ∧ (now < last + window b)%Z).
Proof.
  intros Hs Hw. split.
  { destruct (permitted_after b times Hs) as [_ Hp].
    induction Hp as [|t ts _ IH Hall]; constructor; [done|].
    eapply Forall_impl; [exact Hall|]. cbn. lia. }
  revert b Hw. induction times as [|t times IH]; intros b Hw before now after Heq Hn.
  { by destruct before. }
  apply StronglySorted_inv in Hs as [Hs Hle]. cbn [permitted] in Hn. unfold allow_attempt_at in Hn.
  destruct before as [|t' before]; injection Heq as -> Heq.
  - destruct (last_attempt b) as [last|] eqn:Hl; [|exfalso; apply Hn; left].
    destruct (Z.ltb_spec (Z.max 0 (now - last)) (window b)) as [Hlt|Hge]; [|exfalso; apply Hn; left].
    exists last. split; [by right|]. lia.
  - cbn [permitted]. unfold allow_attempt_at.
    destruct (match last_attempt b with Some last => _ | None => false end) eqn:Hr.
    + destruct (IH Hs b Hw before now after Heq Hn) as (last & Hlast & Hlt). eauto.
    + rewrite not_elem_of_cons in Hn. destruct Hn as [_ Hn].
      destruct (IH Hs {| window := window b; last_attempt := Some t' |} Hw before now after Heq Hn)
        as (last & [Hlast|[= <-]] & Hlt); cbn in Hlt.
      * exists last. split; [left; by right|done].
      * exists t'. split; [left; by left|done].
Qed.

(** ** Witnesses *)

Lemma host_frames_roundtrip_witness :
  sink_written (write_frame (H := Bytes.cbor) Bytes.sink [4]%Z).1 = [7; 0; 0; 0; 1; 4]%Z ∧
  ∃ sent, ∀ rest, receive (H := Bytes.cbor) (sent ++ rest) = (Ok [4]%Z, rest).
Proof.
  assert (write_frame (H := Bytes.cbor) Bytes.sink [4]%Z =
    ((write_frame (H := Bytes.cbor) Bytes.sink [4]%Z).1, Ok tt)) as Hw by (vm_compute; reflexivity).
  split; [vm_compute; reflexivity|].
  destruct (@host_frames_roundtrip _ Bytes.cbor Bytes.sink [4]%Z _ (or_intror Hw)) as (sent & _ & Hr).
  exists sent. intros rest. exact (proj1 (Hr rest)).
Defined.

Lemma respawns_rationed_witness :
  permitted (RespawnBackoff_new 10) [0; 5; 9; 12; 30]%Z = [0; 12; 30]%Z ∧
  StronglySorted (λ s t, (s + 10 <= t)%Z) [0; 12; 30]%Z.
Proof.
  split; [vm_compute; reflexivity|].
  refine (proj1 (respawns_rationed (RespawnBackoff_new 10) [0; 5; 9; 12; 30]%Z _ _)).
  - repeat constructor; vm_compute; discriminate.
  - reflexivity.
Defined.
