(* ===== verification/Razer.v ===== *)
(** * The protocol of Razer devices: [luminate-plugin-razer/src/protocol]

    Commands travel as reports of 90 bytes with a checksum ([report.rs]); [commands.rs]
    builds them, [response.rs] matches an answer to its command, and [transport.rs]
    exchanges the two over a HID channel, again while the device is busy.  The channel is
    a list of the answers it will give, with a log of what it was sent. *)

From S2P Require Import Prelude ByteStrings.

(** ** Reports: [report.rs] *)

Definition REPORT_LEN : nat := 90.
Definition ARGUMENT_CAPACITY : nat := 80.

Inductive ReportStatus :=
| Status_NewCommand | Status_Busy | Status_Successful | Status_Failure | Status_Timeout
| Status_NotSupported.

Inductive ReportError :=
| InvalidLength (length : nat)
| ArgumentsTooLong (length : nat)
| CommandIdOutOfRange (id : Z)
| UnknownStatus (value : Z)
| UnsupportedProtocol (protocol : Z)
| NonZeroReserved (value : Z)
| CrcMismatch (expected actual : Z).

Definition ReportStatus_to_wire (s : ReportStatus) : Z :=
  match s with
  | Status_NewCommand => 0 | Status_Busy => 1 | Status_Successful => 2 | Status_Failure => 3
  | Status_Timeout => 4 | Status_NotSupported => 5
  end.
Definition ReportStatus_from_wire (value : Z) : result ReportError ReportStatus :=
  match value with
  | 0 => Ok Status_NewCommand | 1 => Ok Status_Busy | 2 => Ok Status_Successful
  | 3 => Ok Status_Failure | 4 => Ok Status_Timeout | 5 => Ok Status_NotSupported
  | value => Err (UnknownStatus value)
  end%Z.

Record CommandId := { CommandId_wire : Z }.
Definition CommandId_new (id : Z) (response : bool) : result ReportError CommandId :=
  if (0x7f <? id)%Z then Err (CommandIdOutOfRange id)
  else Ok {| CommandId_wire := Z.lor id (if response then 0x80 else 0x00) |}.
Definition CommandId_base (c : CommandId) : Z := Z.land (CommandId_wire c) 0x7f.

(** [rp_arguments] is the whole buffer; the first [rp_data_len] bytes count. *)
Record Report := {
  rp_status : ReportStatus;
  rp_transaction_id : Z;
  rp_remaining_packets : Z;
  rp_command_class : Z;
  rp_command_id : CommandId;
  rp_arguments : list Z;
  rp_data_len : Z
}.

Definition request_with_data_len (transaction_id command_class : Z) (command_id : CommandId)
    (arguments : list Z) (data_len : Z) : result ReportError Report :=
  if bool_decide (ARGUMENT_CAPACITY < length arguments)
  then Err (ArgumentsTooLong (length arguments))
  else if bool_decide (ARGUMENT_CAPACITY < Z.to_nat data_len)
  then Err (ArgumentsTooLong (Z.to_nat data_len))
  else Ok {|
    rp_status := Status_NewCommand; rp_transaction_id := transaction_id;
    rp_remaining_packets := 0; rp_command_class := command_class; rp_command_id := command_id;
    rp_arguments := arguments ++ replicate (ARGUMENT_CAPACITY - length arguments) 0%Z;
    rp_data_len := data_len |}.

Definition Report_request (transaction_id command_class : Z) (command_id : CommandId)
    (arguments : list Z) : result ReportError Report :=
  data_len ← ok_or (checkU 8 (Z.of_nat (length arguments))) (ArgumentsTooLong (length arguments));
  request_with_data_len transaction_id command_class command_id arguments data_len.

(** [bytes[2..88]] *)
Definition calculate_crc (bytes : list Z) : Z := xor_all (take 86 (drop 2 bytes)).

(** The array is written in order; the checksum is of what precedes it. *)
Definition encode_body (r : Report) : list Z :=
  [ReportStatus_to_wire (rp_status r); rp_transaction_id r] ++
  be_bytes 2 (rp_remaining_packets r) ++
  [0%Z; rp_data_len r; rp_command_class r; CommandId_wire (rp_command_id r)] ++ rp_arguments r.
Definition encode (r : Report) : list Z :=
  encode_body r ++ [calculate_crc (encode_body r); 0%Z].

(** [bytes[offset]] of an array that is long enough. *)
Definition byte_at (bytes : list Z) (offset : nat) : Z := default 0%Z (bytes !! offset).

Definition decode (bytes : list Z) : result ReportError Report :=
  if negb (bool_decide (length bytes = REPORT_LEN)) then Err (InvalidLength (length bytes))
  else if negb (byte_at bytes 4 =? 0)%Z then Err (UnsupportedProtocol (byte_at bytes 4))
  else if negb (byte_at bytes 89 =? 0)%Z then Err (NonZeroReserved (byte_at bytes 89))
  else if bool_decide (ARGUMENT_CAPACITY < Z.to_nat (byte_at bytes 5))
  then Err (ArgumentsTooLong (Z.to_nat (byte_at bytes 5)))
  else if negb (byte_at bytes 88 =? calculate_crc bytes)%Z
  then Err (CrcMismatch (calculate_crc bytes) (byte_at bytes 88))
  else
    status ← ReportStatus_from_wire (byte_at bytes 0);
    Ok {|
      rp_status := status; rp_transaction_id := byte_at bytes 1;
      rp_remaining_packets := from_be [byte_at bytes 2; byte_at bytes 3];
      rp_command_class := byte_at bytes 6;
      rp_command_id := {| CommandId_wire := byte_at bytes 7 |};
      rp_arguments := take 80 (drop 8 bytes); rp_data_len := byte_at bytes 5 |}.

Definition arguments (r : Report) : list Z :=
  let n := Z.to_nat (rp_data_len r) in
  if decide (n ≤ length (rp_arguments r)) then take n (rp_arguments r) else [].

(** ** Responses: [response.rs] *)

Inductive ResponseError :=
| TransactionMismatch | CommandMismatch | RemainingPackets (count : Z) | Response_Busy
| Response_Failure | Response_Timeout | Response_NotSupported | InvalidStatus.

Definition validate (request response : Report) : result ResponseError (list Z) :=
  if negb (rp_transaction_id response =? rp_transaction_id request)%Z then Err TransactionMismatch
  else if negb (rp_command_class response =? rp_command_class request)%Z ||
          negb (CommandId_base (rp_command_id response) =? CommandId_base (rp_command_id request))%Z
  then Err CommandMismatch
  else if negb (rp_remaining_packets response =? 0)%Z
  then Err (RemainingPackets (rp_remaining_packets response))
  else
    match rp_status response with
    | Status_Successful => Ok (arguments response)
    | Status_Busy => Err Response_Busy
    | Status_Failure => Err Response_Failure
    | Status_Timeout => Err Response_Timeout
    | Status_NotSupported => Err Response_NotSupported
    | Status_NewCommand => Err InvalidStatus
    end.

(** ** Commands: [commands.rs] *)

Inductive ResponsePolicy := Response_Required | Response_None.
#[export] Instance ResponsePolicy_eq : EqDecision ResponsePolicy.
Proof. solve_decision. Defined.

Record Command := {
  cmd_report : Report;
  cmd_response_policy : ResponsePolicy;
  cmd_idempotent : bool
}.

Inductive Storage := Volatile | Variable_.
Definition Storage_to_wire (s : Storage) : Z := match s with Volatile => 0 | Variable_ => 1 end.
Inductive LedTarget := Backlight.
Definition LedTarget_to_wire (t : LedTarget) : Z := match t with Backlight => 5 end.
Record Rgb := { red : Z; green : Z; blue : Z }.
Inductive Direction := Forward | Reverse.
Definition Direction_to_wire (d : Direction) : Z := match d with Forward => 1 | Reverse => 2 end.
Inductive ReactiveSpeed := Reactive_Fast | Reactive_Medium | Reactive_Slow | Reactive_Slowest.
Definition ReactiveSpeed_to_wire (s : ReactiveSpeed) : Z :=
  match s with Reactive_Fast => 1 | Reactive_Medium => 2 | Reactive_Slow => 3 | Reactive_Slowest => 4 end.
Inductive StarlightSpeed := Starlight_Fast | Starlight_Medium | Starlight_Slow.
Definition StarlightSpeed_to_wire (s : StarlightSpeed) : Z :=
  match s with Starlight_Fast => 1 | Starlight_Medium => 2 | Starlight_Slow => 3 end.
Inductive ColourMode := Single (colour : Rgb) | Dual (first second : Rgb).

Definition ColourMode_arguments (m : ColourMode) (storage target effect : Z) (speed : option Z) :
    list Z :=
  let speed := default 0%Z speed in
  match m with
  | Single c => [storage; target; effect; 1%Z; speed; 1%Z; red c; green c; blue c]
  | Dual c d =>
      [storage; target; effect; 2%Z; speed; 2%Z; red c; green c; blue c; red d; green d; blue d]
  end.

Inductive MatrixEffect :=
| Matrix_Off
| Matrix_Static (colour : Rgb)
| Matrix_Spectrum
| Matrix_Wave (direction : Direction)
| Matrix_Wheel (direction : Direction)
| Matrix_Reactive (speed : ReactiveSpeed) (colour : Rgb)
| Matrix_Breathing (colours : ColourMode)
| Matrix_Starlight (speed : StarlightSpeed) (colours : ColourMode).
Definition MatrixEffect_to_wire (e : MatrixEffect) : Z :=
  match e with
  | Matrix_Off => 0x00 | Matrix_Static _ => 0x01 | Matrix_Spectrum => 0x03 | Matrix_Wave _ => 0x04
  | Matrix_Wheel _ => 0x0a | Matrix_Reactive _ _ => 0x05 | Matrix_Breathing _ => 0x02
  | Matrix_Starlight _ _ => 0x07
  end.

Definition set_command (transaction_id command_class command_id : Z) (arguments : list Z)
    (response_policy : ResponsePolicy) : result ReportError Command :=
  id ← CommandId_new command_id false;
  report ← Report_request transaction_id command_class id arguments;
  Ok {| cmd_report := report; cmd_response_policy := response_policy; cmd_idempotent := true |}.

Definition effect_arguments (storage : Storage) (target : LedTarget) (effect : MatrixEffect) : list Z :=
  let s := Storage_to_wire storage in
  let t := LedTarget_to_wire target in
  match effect with
  | Matrix_Static c => [s; t; MatrixEffect_to_wire effect; 0; 0; 1; red c; green c; blue c]
  | Matrix_Wave d => [s; t; 0x04; Direction_to_wire d; 0x28; 0]
  | Matrix_Wheel d => [s; t; 0x0a; Direction_to_wire d; 0x28; 0]
  | Matrix_Reactive speed c => [s; t; 0x05; 0; ReactiveSpeed_to_wire speed; 1; red c; green c; blue c]
  | Matrix_Breathing colours => ColourMode_arguments colours s t 0x02 None
  | Matrix_Starlight speed colours =>
      ColourMode_arguments colours s t 0x07 (Some (StarlightSpeed_to_wire speed))
  | Matrix_Off | Matrix_Spectrum => [s; t; MatrixEffect_to_wire effect; 0; 0; 0]
  end%Z.

Definition extended_matrix_effect (transaction_id : Z) (storage : Storage) (target : LedTarget)
    (effect : MatrixEffect) : result ReportError Command :=
  set_command transaction_id 0x0f 0x02 (effect_arguments storage target effect) Response_Required.

Definition set_brightness (transaction_id : Z) (storage : Storage) (target : LedTarget)
    (brightness : Z) : result ReportError Command :=
  set_command transaction_id 0x0f 0x04
    [Storage_to_wire storage; LedTarget_to_wire target; brightness] Response_Required.

Definition custom_mode_with_policy (transaction_id : Z) (policy : ResponsePolicy) :
    result ReportError Command :=
  set_command transaction_id 0x0f 0x02 [0; 0; 0x08; 0; 0; 0; 0; 0; 0; 0; 0; 0]%Z policy.
Definition custom_mode (transaction_id : Z) : result ReportError Command :=
  custom_mode_with_policy transaction_id Response_None.
Definition custom_mode_required (transaction_id : Z) : result ReportError Command :=
  custom_mode_with_policy transaction_id Response_Required.

Inductive CommandError :=
| Command_Report (error : ReportError)
| RowOutOfRange (row : Z)
| EmptySpan
| SpanOutOfRange (start_column : Z) (count : nat).

Definition custom_frame_row_with_policy (transaction_id row start_column : Z) (colours : list Rgb)
    (policy : ResponsePolicy) : result CommandError Command :=
  if (8 <=? row)%Z then Err (RowOutOfRange row)
  else if bool_decide (length colours = 0) then Err EmptySpan
  else
    let out_of_range := SpanOutOfRange start_column (length colours) in
    colour_count ← ok_or (checkU 8 (Z.of_nat (length colours))) out_of_range;
    stop_column ← ok_or (checkU 8 (start_column + (colour_count - 1))) out_of_range;
    if (23 <=? stop_column)%Z then Err out_of_range
    else
      let arguments := [0; 0; row; start_column; stop_column]%Z ++
        (colours ≫= λ c, [red c; green c; blue c]) in
      id ← map_err Command_Report (CommandId_new 0x03 false);
      report ← map_err Command_Report
        (request_with_data_len transaction_id 0x0f id arguments 0x47);
      Ok {| cmd_report := report; cmd_response_policy := policy; cmd_idempotent := true |}.
Definition custom_frame_row (transaction_id row start_column : Z) (colours : list Rgb) :
    result CommandError Command :=
  custom_frame_row_with_policy transaction_id row start_column colours Response_None.
Definition custom_frame_row_required (transaction_id row start_column : Z) (colours : list Rgb) :
    result CommandError Command :=
  custom_frame_row_with_policy transaction_id row start_column colours Response_Required.

(** ** Transport: [transport.rs] *)

Definition HID_REPORT_ID : Z := 0.
Definition HID_BUFFER_LEN : nat := REPORT_LEN + 1.
Definition MAX_BUSY_ATTEMPTS : nat := 3.

(** What a channel answers to the next calls, and what it was sent so far.  Receiving
    answers the buffer and the number of bytes received. *)
Record Channel := {
  ch_send : list (result string unit);
  ch_get : list (result string (list Z * nat));
  ch_sent : list (list Z)
}.
Definition no_answer : string := "no answer".
Definition send_feature_report (c : Channel) (bytes : list Z) : Channel * result string unit :=
  match ch_send c with
  | r :: rs => ({| ch_send := rs; ch_get := ch_get c; ch_sent := ch_sent c ++ [bytes] |}, r)
  | [] => ({| ch_send := []; ch_get := ch_get c; ch_sent := ch_sent c ++ [bytes] |}, Err no_answer)
  end.
Definition get_feature_report (c : Channel) : Channel * result string (list Z * nat) :=
  match ch_get c with
  | r :: rs => ({| ch_send := ch_send c; ch_get := rs; ch_sent := ch_sent c |}, r)
  | [] => ({| ch_send := ch_send c; ch_get := []; ch_sent := ch_sent c |}, Err no_answer)
  end.

Inductive TransportError :=
| Transport_Io (message : string)
| InvalidFeatureReportLength (length : nat)
| UnexpectedReportId (id : Z)
| Transport_Report (error : ReportError)
| Transport_Response (error : ResponseError).

Definition interpret (command : Command) (buffer : list Z) (received : nat) :
    result TransportError (option (list Z)) :=
  if negb (bool_decide (received = HID_BUFFER_LEN)) then Err (InvalidFeatureReportLength received)
  else if negb (byte_at buffer 0 =? HID_REPORT_ID)%Z then Err (UnexpectedReportId (byte_at buffer 0))
  else
    response ← map_err Transport_Report (decode (drop 1 buffer));
    arguments ← map_err Transport_Response (validate (cmd_report command) response);
    Ok (Some arguments).

Definition execute_once (c : Channel) (command : Command) :
    Channel * result TransportError (option (list Z)) :=
  match send_feature_report c (HID_REPORT_ID :: encode (cmd_report command)) with
  | (c, Err message) => (c, Err (Transport_Io message))
  | (c, Ok _) =>
      if bool_decide (cmd_response_policy command = Response_None) then (c, Ok None)
      else
        match get_feature_report c with
        | (c, Err message) => (c, Err (Transport_Io message))
        | (c, Ok (buffer, received)) => (c, interpret command buffer received)
        end
  end.

Definition is_busy {A} (r : result TransportError A) : bool :=
  match r with Err (Transport_Response Response_Busy) => true | _ => false end.

(** [attempts] is how many are left; the last one returns whatever it gives. *)
Fixpoint execute_attempts (attempts : nat) (c : Channel) (command : Command) :
    Channel * result TransportError (option (list Z)) :=
  match attempts with
  | O => (c, Err (Transport_Response Response_Busy))
  | S attempts =>
      let '(c, r) := execute_once c command in
      if is_busy r && cmd_idempotent command && bool_decide (0 < attempts)
      then execute_attempts attempts c command else (c, r)
  end.
Definition execute (c : Channel) (command : Command) :
    Channel * result TransportError (option (list Z)) :=
  execute_attempts MAX_BUSY_ATTEMPTS c command.

(** ** The layout *)

Record report_wf (r : Report) : Prop := {
  wf_transaction : u8 (rp_transaction_id r);
  wf_remaining : u16 (rp_remaining_packets r);
  wf_class : u8 (rp_command_class r);
  wf_command : u8 (CommandId_wire (rp_command_id r));
  wf_arguments : Forall u8 (rp_arguments r);
  wf_capacity : length (rp_arguments r) = ARGUMENT_CAPACITY;
  wf_data_len : (0 <= rp_data_len r <= 80)%Z
}.

(** A report's ten fixed bytes around its arguments. *)
Definition layout (b0 b1 b2 b3 b4 b5 b6 b7 : Z) (args : list Z) (crc reserved : Z) : list Z :=
  [b0; b1; b2; b3; b4; b5; b6; b7] ++ args ++ [crc; reserved].

Lemma layout_split bytes :
  length bytes = REPORT_LEN →
  ∃ b0 b1 b2 b3 b4 b5 b6 b7 args crc reserved,
    bytes = layout b0 b1 b2 b3 b4 b5 b6 b7 args crc reserved ∧ length args = ARGUMENT_CAPACITY.
Proof.
  unfold REPORT_LEN, ARGUMENT_CAPACITY. intros Hl.
  destruct bytes as [|b0 [|b1 [|b2 [|b3 [|b4 [|b5 [|b6 [|b7 rest]]]]]]]]; cbn in Hl; try lia.
  assert (length (drop 80 rest) = 2) as Hd by (rewrite length_drop; lia).
  destruct (drop 80 rest) as [|crc [|reserved [|]]] eqn:Hrest; cbn in Hd; try lia.
  exists b0, b1, b2, b3, b4, b5, b6, b7, (take 80 rest), crc, reserved. split.
  - unfold layout. rewrite <-Hrest, take_drop. done.
  - rewrite length_take. lia.
Qed.

Section layout.
Context (b0 b1 b2 b3 b4 b5 b6 b7 : Z) (args : list Z) (crc reserved : Z).
Context (Hargs : length args = ARGUMENT_CAPACITY).
Notation bytes := (layout b0 b1 b2 b3 b4 b5 b6 b7 args crc reserved).

Lemma layout_length : length bytes = REPORT_LEN.
Proof. unfold layout. rewrite !length_app, Hargs. done. Qed.
Lemma layout_crc_at : byte_at bytes 88 = crc.
Proof.
  unfold byte_at, layout. rewrite lookup_app_r by (cbn; lia). cbn [length].
  rewrite lookup_app_r by (rewrite Hargs; unfold ARGUMENT_CAPACITY; lia). by rewrite Hargs.
Qed.
Lemma layout_reserved_at : byte_at bytes 89 = reserved.
Proof.
  unfold byte_at, layout. rewrite lookup_app_r by (cbn; lia). cbn [length].
  rewrite lookup_app_r by (rewrite Hargs; unfold ARGUMENT_CAPACITY; lia). by rewrite Hargs.
Qed.
Lemma layout_arguments : take 80 (drop 8 bytes) = args.
Proof.
  change (take 80 (args ++ [crc; reserved]) = args). rewrite take_app_length'; [done|by rewrite Hargs].
Qed.
Lemma layout_crc : calculate_crc bytes = xor_all ([b2; b3; b4; b5; b6; b7] ++ args).
Proof.
  unfold calculate_crc.
  change (drop 2 bytes) with (([b2; b3; b4; b5; b6; b7] ++ args) ++ [crc; reserved]).
  rewrite take_app_length'; [done|]. cbn. by rewrite Hargs.
Qed.

Lemma decode_layout :
  decode bytes =
    if negb (b4 =? 0)%Z then Err (UnsupportedProtocol b4)
    else if negb (reserved =? 0)%Z then Err (NonZeroReserved reserved)
    else if bool_decide (ARGUMENT_CAPACITY < Z.to_nat b5) then Err (ArgumentsTooLong (Z.to_nat b5))
    else if negb (crc =? xor_all ([b2; b3; b4; b5; b6; b7] ++ args))%Z
    then Err (CrcMismatch (xor_all ([b2; b3; b4; b5; b6; b7] ++ args)) crc)
    else
      status ← ReportStatus_from_wire b0;
      Ok {| rp_status := status; rp_transaction_id := b1; rp_remaining_packets := from_be [b2; b3];
            rp_command_class := b6; rp_command_id := {| CommandId_wire := b7 |};
            rp_arguments := args; rp_data_len := b5 |}.
Proof.
  unfold decode. rewrite bool_decide_true by apply layout_length. cbn [negb].
  rewrite layout_crc_at, layout_reserved_at, layout_crc, layout_arguments. reflexivity.
Qed.
End layout.

Lemma encode_layout r :
  length (rp_arguments r) = ARGUMENT_CAPACITY →
  ∃ b2 b3, be_bytes 2 (rp_remaining_packets r) = [b2; b3] ∧
    encode r = layout (ReportStatus_to_wire (rp_status r)) (rp_transaction_id r) b2 b3 0
      (rp_data_len r) (rp_command_class r) (CommandId_wire (rp_command_id r)) (rp_arguments r)
      (xor_all ([b2; b3; 0; rp_data_len r; rp_command_class r; CommandId_wire (rp_command_id r)]%Z ++
                rp_arguments r)) 0.
Proof.
  intros Hl. pose proof (be_bytes_length 2 (rp_remaining_packets r)) as H2.
  destruct (be_bytes 2 _) as [|b2 [|b3 [|]]] eqn:Hb; cbn in H2; try lia.
  exists b2, b3. split; [done|]. unfold encode, encode_body, layout. rewrite Hb. cbn [app].
  do 8 f_equal. f_equal. f_equal. unfold calculate_crc. cbn [drop].
  rewrite take_ge; [done|]. cbn. rewrite Hl. unfold ARGUMENT_CAPACITY. lia.
Qed.

Lemma status_wire s : ReportStatus_from_wire (ReportStatus_to_wire s) = Ok s.
Proof. by destruct s. Qed.
Lemma status_from_wire v s : ReportStatus_from_wire v = Ok s → ReportStatus_to_wire s = v ∧ u8 v.
Proof.
  unfold ReportStatus_from_wire. intros H. repeat (case_match; try done); simplify_eq/=; by repeat split.
Qed.

Lemma decode_encode r : report_wf r → decode (encode r) = Ok r.
Proof.
  intros [Ht Hr Hc Hi Ha Hl Hd]. destruct (encode_layout r Hl) as (b2 & b3 & Hb & ->).
  rewrite decode_layout by done. cbn [negb Z.eqb]. rewrite bool_decide_false by (unfold ARGUMENT_CAPACITY; lia).
  rewrite Z.eqb_refl. cbn [negb]. rewrite status_wire. cbn [mbind result_bind].
  rewrite <-Hb, from_be_bytes by done. destruct r as [? ? ? ? [?] ? ?]. done.
Qed.

Lemma be_bytes_from b2 b3 : u8 b2 → u8 b3 → be_bytes 2 (from_be [b2; b3]) = [b2; b3].
Proof.
  intros H2 H3. unfold be_bytes, from_be. cbn [rev app].
  change 2 with (length [b3; b2]). rewrite le_bytes_from by (by rewrite !Forall_cons). done.
Qed.

Lemma decode_wf bytes r : Forall u8 bytes → decode bytes = Ok r → report_wf r ∧ bytes = encode r.
Proof.
  intros Hu Hd.
  destruct (decide (length bytes = REPORT_LEN)) as [Hl|Hl].
  2:{ unfold decode in Hd. by rewrite bool_decide_false in Hd. }
  destruct (layout_split bytes Hl) as (b0 & b1 & b2 & b3 & b4 & b5 & b6 & b7 & args & crc & reserved & -> & Ha).
  rewrite decode_layout in Hd by done.
  destruct (Z.eqb_spec b4 0) as [->|]; [|done]. destruct (Z.eqb_spec reserved 0) as [->|]; [|done].
  cbn [negb] in Hd. case_bool_decide as Hcap; [done|].
  destruct (Z.eqb_spec crc (xor_all ([b2; b3; 0; b5; b6; b7]%Z ++ args))) as [->|]; [|done]. cbn [negb] in Hd.
  apply bind_Ok in Hd as (status & Hs & [= <-]). apply status_from_wire in Hs as [<- _].
  unfold layout in Hu. rewrite !Forall_app, !Forall_cons in Hu.
  destruct Hu as ((_ & H1 & H2 & H3 & _ & H5 & H6 & H7 & _) & Hargs & _).
  pose proof (from_be_range [b2; b3] ltac:(by rewrite !Forall_cons)) as Hrange.
  split.
  - constructor; cbn; try done. unfold ARGUMENT_CAPACITY, uN in *. lia.
  - destruct (encode_layout {| rp_status := status; rp_transaction_id := b1;
      rp_remaining_packets := from_be [b2; b3]; rp_command_class := b6;
      rp_command_id := {| CommandId_wire := b7 |}; rp_arguments := args; rp_data_len := b5 |} Ha)
      as (x2 & x3 & Hx & ->).
    cbn [rp_remaining_packets] in Hx. rewrite be_bytes_from in Hx by done. by injection Hx as <- <-.
Qed.

Lemma encode_u8 r : report_wf r → Forall u8 (encode r).
Proof.
  intros [Ht Hr Hc Hi Ha Hl Hd]. destruct (encode_layout r Hl) as (b2 & b3 & Hb & ->).
  pose proof (le_bytes_u8 2 (rp_remaining_packets r)) as H2. apply Forall_rev in H2.
  change (rev (le_bytes 2 (rp_remaining_packets r))) with (be_bytes 2 (rp_remaining_packets r)) in H2.
  rewrite Hb, !Forall_cons in H2. destruct H2 as (H2 & H3 & _).
  assert (u8 (rp_data_len r)) as H5 by (unfold uN; lia).
  assert (u8 0) as H0 by by vm_compute.
  unfold layout. rewrite !Forall_app, !Forall_cons. split_and!; try done.
  - by destruct (rp_status r); vm_compute.
  - apply xor_all_u8. rewrite Forall_app, !Forall_cons. split_and!; done.
Qed.

(** *** Corruption *)

Lemma decode_checked bytes r :
  decode bytes = Ok r →
  length bytes = REPORT_LEN ∧ byte_at bytes 89 = 0%Z ∧ byte_at bytes 88 = calculate_crc bytes.
Proof.
  unfold decode. intros H. destruct (negb (bool_decide _)) eqn:H1; [done|].
  destruct (negb (byte_at bytes 4 =? 0)%Z); [done|].
  destruct (negb (byte_at bytes 89 =? 0)%Z) eqn:H2; [done|]. case_bool_decide; [done|].
  destruct (negb (byte_at bytes 88 =? _)%Z) eqn:H3; [done|].
  apply negb_false_iff in H1, H2, H3. apply bool_decide_eq_true in H1.
  by apply Z.eqb_eq in H2, H3.
Qed.

Lemma byte_at_insert bytes i j new :
  i < length bytes → byte_at (<[i := new]> bytes) j = if decide (i = j) then new else byte_at bytes j.
Proof.
  intros Hi. unfold byte_at. case_decide as Hij; [subst; by rewrite list_lookup_insert_eq|].
  by rewrite list_lookup_insert_ne.
Qed.

Lemma crc_insert bytes i old new :
  bytes !! i = Some old →
  calculate_crc (<[i := new]> bytes) =
    if decide (2 ≤ i < 88) then Z.lxor (calculate_crc bytes) (Z.lxor old new) else calculate_crc bytes.
Proof.
  intros Hi. unfold calculate_crc. case_decide as Hr.
  - rewrite drop_insert_ge, take_insert_lt by lia. apply xor_all_insert.
    rewrite lookup_take_lt, lookup_drop by lia. rewrite <-Hi. f_equal. lia.
  - destruct (decide (i < 2)).
    + by rewrite drop_insert_lt by lia.
    + rewrite drop_insert_ge, take_insert_ge by lia. done.
Qed.

(** *** Commands *)

Lemma request_with_data_len_Ok t c id args n :
  length args ≤ ARGUMENT_CAPACITY → (0 <= n <= 80)%Z →
  ∃ r, request_with_data_len t c id args n = Ok r ∧ rp_transaction_id r = t ∧
    rp_command_class r = c ∧ rp_command_id r = id ∧ rp_data_len r = n ∧ rp_remaining_packets r = 0%Z ∧
    rp_arguments r = args ++ replicate (ARGUMENT_CAPACITY - length args) 0%Z.
Proof.
  intros Hl Hn. unfold request_with_data_len. rewrite !bool_decide_false by (unfold ARGUMENT_CAPACITY in *; lia).
  eexists. split; [done|]. by split_and!.
Qed.

Lemma request_wf t c id args n r :
  u8 t → u8 c → u8 (CommandId_wire id) → Forall u8 args → length args ≤ ARGUMENT_CAPACITY →
  (0 <= n <= 80)%Z → request_with_data_len t c id args n = Ok r → report_wf r.
Proof.
  intros Ht Hc Hid Hargs Hl Hn Hr.
  destruct (request_with_data_len_Ok t c id args n Hl Hn) as (r' & Hr' & <- & <- & <- & <- & Hrem & Hx).
  rewrite Hr in Hr'. injection Hr' as <-. constructor; try done.
  - rewrite Hrem. by vm_compute.
  - rewrite Hx, Forall_app. split; [done|]. apply Forall_replicate. by vm_compute.
  - rewrite Hx, length_app, length_replicate. lia.
Qed.

(** A command of the class for extended effects that carries the arguments. *)
Definition carries (transaction_id id : Z) (args : list Z) (policy : ResponsePolicy) (c : Command) : Prop :=
  report_wf (cmd_report c) ∧ arguments (cmd_report c) = args ∧ cmd_response_policy c = policy ∧
  rp_status (cmd_report c) = Status_NewCommand ∧ rp_transaction_id (cmd_report c) = transaction_id ∧
  rp_command_class (cmd_report c) = 0x0f%Z ∧ CommandId_base (rp_command_id (cmd_report c)) = id ∧
  cmd_idempotent c = true.

Lemma set_command_carries t id args policy :
  u8 t → (0 <= id <= 0x7f)%Z → Forall u8 args → length args ≤ ARGUMENT_CAPACITY →
  ∃ c, set_command t 0x0f id args policy = Ok c ∧ carries t id args policy c.
Proof.
  intros Ht Hid Hargs Hl. unfold set_command, CommandId_new. destruct (Z.ltb_spec 0x7f id); [lia|].
  rewrite Z.lor_0_r. cbn [mbind result_bind]. unfold Report_request.
  rewrite checkU_ok by (unfold uN, ARGUMENT_CAPACITY in *; lia). cbn [ok_or mbind result_bind].
  destruct (request_with_data_len_Ok t 0x0f {| CommandId_wire := id |} args (Z.of_nat (length args)) Hl)
    as (r & Hr & Hrt & Hrc & Hri & Hrd & _ & Hra); [unfold ARGUMENT_CAPACITY in *; lia|].
  rewrite Hr. cbn [mbind result_bind]. eexists. split; [done|]. split_and!; cbn; try done.
  - refine (request_wf _ _ _ _ _ _ Ht _ _ Hargs Hl _ Hr); unfold ARGUMENT_CAPACITY, uN in *; cbn; lia.
  - unfold arguments. rewrite Hrd, Nat2Z.id, Hra, length_app, decide_True by lia. by rewrite take_app_length.
  - unfold request_with_data_len in Hr. do 2 (case_bool_decide; [done|]). by injection Hr as <-.
  - rewrite Hri. unfold CommandId_base. cbn. change 0x7f%Z with (Z.ones 7). rewrite Z.land_ones by lia.
    rewrite Z.mod_small; [done|]. change (2 ^ 7)%Z with 128%Z. lia.
Qed.

Definition rgb_wf (c : Rgb) : Prop := u8 (red c) ∧ u8 (green c) ∧ u8 (blue c).
Definition mode_wf (m : ColourMode) : Prop :=
  match m with Single c => rgb_wf c | Dual c d => rgb_wf c ∧ rgb_wf d end.
Definition effect_wf (e : MatrixEffect) : Prop :=
  match e with
  | Matrix_Static c | Matrix_Reactive _ c => rgb_wf c
  | Matrix_Breathing m | Matrix_Starlight _ m => mode_wf m
  | _ => True
  end.

Ltac bytes := cbn -[uN]; rewrite ?Forall_cons; split_and?; first [done | by vm_compute].

Lemma mode_arguments_fit m s t e speed :
  mode_wf m → u8 s → u8 t → u8 e → from_option u8 True speed →
  Forall u8 (ColourMode_arguments m s t e speed) ∧ length (ColourMode_arguments m s t e speed) ≤ ARGUMENT_CAPACITY.
Proof.
  intros Hm Hs Ht He Hsp. assert (u8 (default 0%Z speed)) as Hd by (destruct speed; [done|by vm_compute]).
  unfold ARGUMENT_CAPACITY. destruct m as [c|c d]; cbn in Hm.
  - destruct Hm as (? & ? & ?). split; [bytes|cbn; lia].
  - destruct Hm as ((? & ? & ?) & (? & ? & ?)). split; [bytes|cbn; lia].
Qed.

Lemma effect_arguments_fit s t e :
  effect_wf e →
  Forall u8 (effect_arguments s t e) ∧ length (effect_arguments s t e) ≤ ARGUMENT_CAPACITY.
Proof.
  intros He. assert (u8 (Storage_to_wire s)) as Hs by (by destruct s; vm_compute).
  assert (u8 (LedTarget_to_wire t)) as Ht by (by destruct t; vm_compute).
  destruct e as [|c| |d|d|speed c|m|speed m]; cbn in He.
  - unfold ARGUMENT_CAPACITY. split; [bytes|cbn; lia].
  - unfold ARGUMENT_CAPACITY. destruct He as (? & ? & ?). split; [bytes|cbn; lia].
  - unfold ARGUMENT_CAPACITY. split; [bytes|cbn; lia].
  - unfold ARGUMENT_CAPACITY. split; [destruct d; bytes|cbn; lia].
  - unfold ARGUMENT_CAPACITY. split; [destruct d; bytes|cbn; lia].
  - unfold ARGUMENT_CAPACITY. destruct He as (? & ? & ?). split; [destruct speed; bytes|cbn; lia].
  - by apply mode_arguments_fit.
  - apply mode_arguments_fit; try done. destruct speed; by vm_compute.
Qed.

Lemma row_bytes colours :
  Forall rgb_wf colours → Forall u8 (colours ≫= λ c, [red c; green c; blue c]) ∧
  length (colours ≫= λ c, [red c; green c; blue c]) = 3 * length colours.
Proof.
  induction 1 as [|c colours (? & ? & ?) _ [IH IHl]]; [by split|]. cbn [mbind list_bind app length]. split.
  - rewrite !Forall_cons. by split_and!.
  - rewrite IHl. lia.
Qed.

(** *** Exchanges *)

Notation feature_report command := (HID_REPORT_ID :: encode (cmd_report command)).

(** The arguments of a successful answer to the command. *)
Definition answers (command : Command) (args : list Z) : Prop :=
  ∃ buffer response, length buffer = HID_BUFFER_LEN ∧ byte_at buffer 0 = HID_REPORT_ID ∧
    decode (drop 1 buffer) = Ok response ∧ rp_status response = Status_Successful ∧
    rp_transaction_id response = rp_transaction_id (cmd_report command) ∧
    rp_command_class response = rp_command_class (cmd_report command) ∧
    CommandId_base (rp_command_id response) = CommandId_base (rp_command_id (cmd_report command)) ∧
    rp_remaining_packets response = 0%Z ∧ args = arguments response.

Lemma validate_Ok request response args :
  validate request response = Ok args →
  rp_status response = Status_Successful ∧
  rp_transaction_id response = rp_transaction_id request ∧
  rp_command_class response = rp_command_class request ∧
  CommandId_base (rp_command_id response) = CommandId_base (rp_command_id request) ∧
  rp_remaining_packets response = 0%Z ∧ args = arguments response.
Proof.
  unfold validate. intros H.
  destruct (Z.eqb_spec (rp_transaction_id response) (rp_transaction_id request)); [|done].
  destruct (Z.eqb_spec (rp_command_class response) (rp_command_class request)); [|done].
  destruct (Z.eqb_spec (CommandId_base (rp_command_id response)) (CommandId_base (rp_command_id request))); [|done].
  cbn [negb orb] in H. destruct (Z.eqb_spec (rp_remaining_packets response) 0); [|done]. cbn [negb] in H.
  destruct (rp_status response); try done. by injection H as <-.
Qed.

(** The buffer is as long as it is. *)
Lemma interpret_Ok command buffer received r :
  interpret command buffer received = Ok r → length buffer = received →
  ∃ args, r = Some args ∧ answers command args.
Proof.
  unfold interpret. intros H Hl. case_bool_decide as Hlen; [|done]. cbn [negb] in H.
  destruct (Z.eqb_spec (byte_at buffer 0) HID_REPORT_ID) as [Hid|]; [|done]. cbn [negb] in H.
  destruct (decode (drop 1 buffer)) as [response|] eqn:Hd; [|done]. cbn [map_err mbind result_bind] in H.
  destruct (validate _ response) as [args|] eqn:Hv; [|done]. injection H as <-.
  apply validate_Ok in Hv. exists args. split; [done|]. exists buffer, response.
  split_and!; [by rewrite Hl|done|done|naive_solver..].
Qed.

(** [HidDevice::get_feature_report] reports how much of the buffer it filled. *)
Definition honest (c : Channel) : Prop :=
  Forall (λ r, match r with Ok (buffer, received) => length buffer = received | Err _ => True end) (ch_get c).

Lemma execute_once_spec c command c' r :
  execute_once c command = (c', r) → honest c →
  honest c' ∧ ch_sent c' = ch_sent c ++ [feature_report command] ∧
  (cmd_response_policy command = Response_None → ch_get c' = ch_get c ∧ is_busy r = false) ∧
  (∀ x, r = Ok x → x = None ∧ cmd_response_policy command = Response_None ∨
     ∃ args, x = Some args ∧ answers command args).
Proof.
  unfold execute_once. intros H Hh.
  destruct (send_feature_report c _) as [c1 [[]|message]] eqn:Hs;
    (assert (ch_get c1 = ch_get c ∧ ch_sent c1 = ch_sent c ++ [feature_report command]) as [Hg Hsent];
     [unfold send_feature_report in Hs; destruct (ch_send c); by injection Hs as <- ?|]).
  2:{ injection H as <- <-. unfold honest. rewrite Hg. by split_and!. }
  case_bool_decide as Hp.
  { injection H as <- <-. unfold honest. rewrite Hg. split_and!; try done. intros x [= <-]. by left. }
  destruct (get_feature_report c1) as [c2 [[buffer received]|message]] eqn:Hr;
    (assert (ch_sent c2 = ch_sent c1 ∧ honest c2) as [Hs2 Hh2];
     [unfold get_feature_report, honest in *; rewrite Hg in Hr;
      destruct (ch_get c) as [|a l]; injection Hr as <- ?; cbn; (split; [done|]); try done; by apply Forall_inv_tail in Hh|]).
  - injection H as <- <-. rewrite Hs2, Hsent. split_and!; [done..|].
    intros x Hx. right. apply (interpret_Ok _ _ _ _ Hx).
    unfold get_feature_report in Hr. rewrite Hg in Hr. unfold honest in Hh.
    destruct (ch_get c) as [|a l]; [done|]. injection Hr as _ ->. by apply Forall_inv in Hh.
  - injection H as <- <-. rewrite Hs2, Hsent. by split_and!.
Qed.

Lemma execute_attempts_spec attempts c command c' r :
  execute_attempts attempts c command = (c', r) → honest c → 0 < attempts →
  ∃ n, 1 ≤ n ≤ attempts ∧ ch_sent c' = ch_sent c ++ replicate n (feature_report command) ∧
    (n = 1 ∨ cmd_idempotent command = true ∧ cmd_response_policy command = Response_Required) ∧
    (is_busy r = true → cmd_idempotent command = true → n = attempts) ∧
    (∀ x, r = Ok x → x = None ∧ cmd_response_policy command = Response_None ∨
       ∃ args, x = Some args ∧ answers command args).
Proof.
  revert c. induction attempts as [|attempts IH]; intros c H Hh Hpos; [lia|]. cbn [execute_attempts] in H.
  destruct (execute_once c command) as [c1 r1] eqn:H1.
  apply execute_once_spec in H1 as (Hh1 & Hs1 & Hn1 & Hok1); [|done].
  destruct (is_busy r1 && cmd_idempotent command && bool_decide (0 < attempts)) eqn:Hretry.
  - apply andb_true_iff in Hretry as [[Hb Hi]%andb_true_iff Ha]. apply bool_decide_eq_true in Ha.
    destruct (IH c1 H Hh1 Ha) as (n & Hn & Hs & _ & Hbusy & Hok). exists (S n). split_and!; [lia|lia|..].
    + rewrite Hs, Hs1, <-app_assoc. done.
    + right. split; [done|]. destruct (cmd_response_policy command); [done|].
      destruct (Hn1 eq_refl). congruence.
    + intros Hb' Hi'. by rewrite (Hbusy Hb' Hi').
    + done.
  - injection H as <- <-. exists 1. split_and!; [lia|lia|done|by left| |done].
    intros Hb Hi. rewrite Hb, Hi in Hretry. cbn in Hretry. apply bool_decide_eq_false in Hretry. lia.
Qed.

(** ** Claims *)

(** C37: Decoding accepts exactly the encodings of well-formed reports, and gives the report
    back: both directions of the round trip, for any 90 or other bytes. *)
Theorem razer_report_roundtrip bytes r :
  Forall u8 bytes → decode bytes = Ok r ↔ report_wf r ∧ bytes = encode r.
Proof.
  intros Hu. split; [by apply decode_wf|]. intros [Hwf ->]. by apply decode_encode.
Qed.

(** A report of which one byte was corrupted is rejected, unless the byte is one of the
    two that the checksum does not cover, the status and the transaction. *)
Theorem razer_corruption_detected r i new :
  report_wf r → 2 ≤ i < REPORT_LEN → encode r !! i ≠ Some new →
  ∃ e, decode (<[i := new]> (encode r)) = Err e.
Proof.
  intros Hwf Hi Hne. destruct (decode (<[i := new]> (encode r))) as [r'|e] eqn:Hd; [|by eexists].
  exfalso. apply decode_checked in Hd as (Hl' & H89 & H88). rewrite length_insert in Hl'.
  pose proof (decode_encode r Hwf) as Hok. apply decode_checked in Hok as (_ & H89' & H88').
  assert (i < length (encode r)) as Hlt by lia.
  apply lookup_lt_is_Some in Hlt as Hold. destruct Hold as [old Hold].
  assert (new ≠ old) as Hdiff by (intros ->; by rewrite Hold in Hne).
  assert (byte_at (encode r) i = old) as Hat by (unfold byte_at; by rewrite Hold).
  rewrite (crc_insert _ _ _ _ Hold) in H88. rewrite !byte_at_insert in H88, H89 by done.
  unfold REPORT_LEN in Hi. destruct (decide (i = 89)) as [->|].
  { congruence. }
  destruct (decide (i = 88)) as [->|].
  { rewrite decide_False in H88 by lia. congruence. }
  rewrite decide_True in H88 by lia. apply Hdiff. symmetry. apply Z.lxor_eq.
  rewrite H88' in H88. rewrite <-(Z.lxor_nilpotent (calculate_crc (encode r))) in *.
  rewrite H88 at 2. rewrite <-Z.lxor_assoc, Z.lxor_nilpotent, Z.lxor_0_l. done.
Qed.

(** Every effect and every brightness makes a command: it fits the report, is addressed to
    the class of extended effects and carries its arguments as they are. *)
Theorem razer_commands_carry t storage target effect brightness :
  u8 t → effect_wf effect → u8 brightness →
  (∃ c, extended_matrix_effect t storage target effect = Ok c ∧
     carries t 0x02 (effect_arguments storage target effect) Response_Required c) ∧
  (∃ c, set_brightness t storage target brightness = Ok c ∧
     carries t 0x04 [Storage_to_wire storage; LedTarget_to_wire target; brightness]
       Response_Required c) ∧
  (∃ c, custom_mode t = Ok c ∧ carries t 0x02 [0; 0; 8; 0; 0; 0; 0; 0; 0; 0; 0; 0]%Z Response_None c).
Proof.
  intros Ht He Hb. destruct (effect_arguments_fit storage target effect He) as [Hu Hl]. split_and!.
  - by apply set_command_carries.
  - apply set_command_carries; [done|lia| |unfold ARGUMENT_CAPACITY; cbn; lia].
    destruct storage, target; bytes.
  - apply set_command_carries; [done|lia|bytes|unfold ARGUMENT_CAPACITY; cbn; lia].
Qed.

(** A row of a custom frame is accepted exactly when it is within the 8 by 23 matrix, and
    its report is then well-formed. *)
Theorem razer_rows_bounded t row start colours policy :
  u8 t → u8 row → u8 start → Forall rgb_wf colours →
  match custom_frame_row_with_policy t row start colours policy with
  | Ok c => (row < 8)%Z ∧ colours ≠ [] ∧ (start + Z.of_nat (length colours) <= 23)%Z ∧
      report_wf (cmd_report c) ∧ cmd_response_policy c = policy ∧
      take (5 + 3 * length colours) (rp_arguments (cmd_report c)) =
        [0; 0; row; start; start + Z.of_nat (length colours) - 1]%Z ++
        (colours ≫= λ c, [red c; green c; blue c])
  | Err (RowOutOfRange r) => r = row ∧ (8 <= row)%Z
  | Err EmptySpan => colours = []
  | Err (SpanOutOfRange s n) => s = start ∧ n = length colours ∧ (23 < start + Z.of_nat (length colours))%Z
  | Err (Command_Report _) => False
  end.
Proof.
  intros Ht Hrow Hstart Hc. unfold custom_frame_row_with_policy.
  destruct (Z.leb_spec 8 row); [done|].
  case_bool_decide as Hempty; [by apply nil_length_inv|].
  destruct (checkU 8 (Z.of_nat (length colours))) as [n|] eqn:Hn.
  2:{ cbn. split_and!; [done..|]. destruct (Z.le_gt_cases 256 (Z.of_nat (length colours))); [unfold uN in *; lia|].
      rewrite checkU_ok in Hn; [done|]. unfold uN. change (2 ^ 8)%Z with 256%Z. lia. }
  apply checkU_Some in Hn as [-> Hn]. cbn [ok_or mbind result_bind].
  destruct (checkU 8 (start + _)) as [stop|] eqn:Hstop.
  2:{ cbn. split_and!; [done..|]. destruct (Z.le_gt_cases 256 (start + Z.of_nat (length colours) - 1)); [lia|].
      rewrite checkU_ok in Hstop; [done|]. unfold uN in *. change (2 ^ 8)%Z with 256%Z. lia. }
  apply checkU_Some in Hstop as [-> Hstop]. cbn [ok_or mbind result_bind].
  destruct (Z.leb_spec 23 (start + (Z.of_nat (length colours) - 1))) as [Hout|Hin].
  { split_and!; [done..|lia]. }
  destruct (row_bytes colours Hc) as [Hu Hl].
  change (CommandId_new 0x03 false) with (@Ok ReportError _ {| CommandId_wire := 3 |}).
  cbn [map_err mbind result_bind].
  set (args := [0; 0; row; start; start + (Z.of_nat (length colours) - 1)]%Z ++ _).
  assert (length args = 5 + 3 * length colours) as Hargs by (unfold args; rewrite length_app, Hl; done).
  assert (Forall u8 args) as Hua.
  { unfold args. rewrite Forall_app, !Forall_cons. split_and!; try done; by vm_compute. }
  destruct (request_with_data_len_Ok t 0x0f {| CommandId_wire := 3 |} args 0x47) as (r & Hr & _ & _ & _ & _ & _ & Hra);
    [unfold ARGUMENT_CAPACITY; unfold uN in *; lia|lia|].
  rewrite Hr. cbn [map_err mbind result_bind].
  split_and!; [done|by destruct colours|lia| |done|].
  - cbn. refine (request_wf _ _ _ _ _ _ Ht _ _ Hua _ _ Hr); unfold ARGUMENT_CAPACITY, uN in *; cbn; lia.
  - cbn [cmd_report]. rewrite Hra, <-Hargs, take_app_length. unfold args. do 6 f_equal. lia.
Qed.

(** An exchange sends the report of its command at least once and at most three times, more
    than once only if the device was busy and the command may be repeated; what it returns
    are the arguments of a successful answer to this very command, or nothing when the
    command has no answer. *)
Theorem razer_exchange_bounded c command c' r :
  honest c → execute c command = (c', r) →
  ∃ n, 1 ≤ n ≤ 3 ∧ ch_sent c' = ch_sent c ++ replicate n (feature_report command) ∧
    (n = 1 ∨ cmd_idempotent command = true ∧ cmd_response_policy command = Response_Required) ∧
    (is_busy r = true → cmd_idempotent command = true → n = 3) ∧
    (∀ x, r = Ok x → x = None ∧ cmd_response_policy command = Response_None ∨
       ∃ args, x = Some args ∧ answers command args).
Proof. intros Hh H. by apply (execute_attempts_spec MAX_BUSY_ATTEMPTS); [..|unfold MAX_BUSY_ATTEMPTS; lia]. Qed.

(** ** Witnesses *)

Module Keyboard.
Definition colour : Rgb := {| red := 255; green := 0; blue := 16 |}.
Definition command : Command :=
  match extended_matrix_effect 0x1f Variable_ Backlight (Matrix_Static colour) with
  | Ok c => c
  | Err _ => {| cmd_report := {| rp_status := Status_Busy; rp_transaction_id := 0; rp_remaining_packets := 0;
                  rp_command_class := 0; rp_command_id := {| CommandId_wire := 0 |}; rp_arguments := [];
                  rp_data_len := 0 |}; cmd_response_policy := Response_None; cmd_idempotent := false |}
  end.
Definition report : Report := cmd_report command.
(** The answer of the device, with a status. *)
Definition answer (status : ReportStatus) : list Z :=
  0%Z :: encode {| rp_status := status; rp_transaction_id := 0x1f; rp_remaining_packets := 0;
    rp_command_class := 0x0f; rp_command_id := {| CommandId_wire := 0x82 |};
    rp_arguments := rp_arguments report; rp_data_len := 9 |}.
Definition channel : Channel := {|
  ch_send := [Ok tt; Ok tt];
  ch_get := [Ok (answer Status_Busy, HID_BUFFER_LEN); Ok (answer Status_Successful, HID_BUFFER_LEN)];
  ch_sent := [] |}.
End Keyboard.

Lemma keyboard_report_wf : report_wf Keyboard.report.
Proof.
  assert (∀ l, bool_decide (Forall u8 l) = true → Forall u8 l) as Hall by (intros l; apply bool_decide_eq_true).
  constructor; try (by vm_compute); apply Hall; by vm_compute.
Qed.

Lemma razer_report_roundtrip_witness :
  decode (encode Keyboard.report) = Ok Keyboard.report.
Proof.
  assert (bool_decide (Forall u8 (encode Keyboard.report)) = true) as Hu by (vm_compute; reflexivity).
  refine (proj2 (razer_report_roundtrip (encode Keyboard.report) Keyboard.report _) _).
  - exact (bool_decide_eq_true_1 _ Hu).
  - split; [exact keyboard_report_wf|reflexivity].
Defined.

Lemma razer_corruption_detected_witness :
  ∃ e, decode (<[10 := 77%Z]> (encode Keyboard.report)) = Err e.
Proof.
  apply (razer_corruption_detected Keyboard.report 10 77).
  - exact keyboard_report_wf.
  - unfold REPORT_LEN. lia.
  - vm_compute. discriminate.
Defined.

Lemma razer_commands_carry_witness :
  ∃ c, extended_matrix_effect 0x1f Variable_ Backlight (Matrix_Static Keyboard.colour) = Ok c ∧
    arguments (cmd_report c) = [1; 5; 1; 0; 0; 1; 255; 0; 16]%Z.
Proof.
  destruct (razer_commands_carry 0x1f Variable_ Backlight (Matrix_Static Keyboard.colour) 9)
    as ((c & Hc & _ & Ha & _) & _).
  - split; [discriminate|reflexivity].
  - repeat split; discriminate.
  - split; [discriminate|reflexivity].
  - exists c. split; [exact Hc|exact Ha].
Defined.

Lemma razer_rows_bounded_witness :
  match custom_frame_row_with_policy 0x1f 7 22 [Keyboard.colour] Response_None with
  | Ok c => report_wf (cmd_report c)
  | Err _ => False
  end.
Proof.
  pose proof (razer_rows_bounded 0x1f 7 22 [Keyboard.colour] Response_None) as H.
  destruct (custom_frame_row_with_policy 0x1f 7 22 [Keyboard.colour] Response_None) as [c|e] eqn:Hc.
  - apply H; [split; [discriminate|reflexivity]..|]. constructor; [|constructor]. repeat split; discriminate.
  - vm_compute in Hc. discriminate Hc.
Defined.

Lemma razer_exchange_bounded_witness :
  (execute Keyboard.channel Keyboard.command).2 = Ok (Some [1; 5; 1; 0; 0; 1; 255; 0; 16]%Z) ∧
  length (ch_sent (execute Keyboard.channel Keyboard.command).1) = 2 ∧
  answers Keyboard.command [1; 5; 1; 0; 0; 1; 255; 0; 16]%Z.
Proof.
  assert ((execute Keyboard.channel Keyboard.command).2 = Ok (Some [1; 5; 1; 0; 0; 1; 255; 0; 16]%Z)) as Hr
    by (vm_compute; reflexivity).
  split; [exact Hr|]. split; [vm_compute; reflexivity|].
  destruct (execute Keyboard.channel Keyboard.command) as [c' r] eqn:He. cbn in Hr.
  destruct (razer_exchange_bounded Keyboard.channel Keyboard.command c' r) as (n & _ & _ & _ & _ & Hok).
  - repeat constructor; vm_compute; reflexivity.
  - exact He.
  - destruct (Hok _ Hr) as [[Hx _]|(args & Hx & Ha)]; [discriminate Hx|]. injection Hx as ->. exact Ha.
Defined.
