(* ===== verification/Toml.v ===== *)
(** * TOML values and dotted keys

    What the daemon uses of the [toml] crate's [Value] and [Table], and the dotted keys by
    which settings are addressed: [split_dot] is [key.split('.')].  A table is kept in key
    order; no claim depends on the order. *)

From S2P Require Import Prelude.
From Stdlib Require Import SpecFloat.

(** ** Floating-point numbers

    IEEE 754 binary64 without the payload of a NaN. *)

Notation f64 := spec_float.
Definition f64_of_i64 (z : Z) : f64 := binary_normalize 53 1024 z 0 false.
Definition f64_ge (a b : f64) : bool := SFleb b a.
Definition f64_le (a b : f64) : bool := SFleb a b.
Definition is_finite (a : f64) : bool :=
  match a with S754_zero _ | S754_finite _ _ _ => true | S754_infinity _ | S754_nan => false end.

(** ** Values *)

Inductive Value :=
| V_String (s : string)
| V_Integer (z : Z)
| V_Float (f : f64)
| V_Boolean (b : bool)
| V_Datetime (d : string)
| V_Array (vs : list Value)
| V_Table (t : list (string * Value)).
Notation Table := (list (string * Value)).

(** [==]: a NaN differs from itself. *)
Fixpoint value_eqb (v w : Value) {struct v} : bool :=
  match v, w with
  | V_String a, V_String b => bool_decide (a = b)
  | V_Integer a, V_Integer b => (a =? b)%Z
  | V_Float a, V_Float b => SFeqb a b
  | V_Boolean a, V_Boolean b => Bool.eqb a b
  | V_Datetime a, V_Datetime b => bool_decide (a = b)
  | V_Array a, V_Array b =>
      (fix go a b := match a, b with
        | [], [] => true
        | v :: a, w :: b => value_eqb v w && go a b
        | _, _ => false
        end) a b
  | V_Table a, V_Table b =>
      (fix go (a b : Table) := match a, b with
        | [], [] => true
        | (k, v) :: a, (l, w) :: b => bool_decide (k = l) && value_eqb v w && go a b
        | _, _ => false
        end) a b
  | _, _ => false
  end.

Definition is_table (v : Value) : bool := match v with V_Table _ => true | _ => false end.
Definition as_table (v : Value) : option Table := match v with V_Table t => Some t | _ => None end.
Definition as_array (v : Value) : option (list Value) :=
  match v with V_Array vs => Some vs | _ => None end.
Definition as_str (v : Value) : option string := match v with V_String s => Some s | _ => None end.

(** ** Tables *)

Fixpoint get (t : Table) (key : string) : option Value :=
  match t with
  | [] => None
  | (k, v) :: t => if bool_decide (k = key) then Some v else get t key
  end.
Fixpoint replace_at (t : Table) (key : string) (value : Value) : Table :=
  match t with
  | [] => []
  | (k, v) :: t => if bool_decide (k = key) then (key, value) :: t else (k, v) :: replace_at t key value
  end.
Fixpoint insert_new (t : Table) (key : string) (value : Value) : Table :=
  match t with
  | [] => [(key, value)]
  | (k, v) :: t =>
      if String.ltb key k then (key, value) :: (k, v) :: t else (k, v) :: insert_new t key value
  end.
Definition insert (t : Table) (key : string) (value : Value) : Table :=
  match get t key with Some _ => replace_at t key value | None => insert_new t key value end.
Definition remove (t : Table) (key : string) : Table :=
  filter (λ p, p.1 ≠ key) t.

Lemma get_insert t k v k' : get (insert t k v) k' = if bool_decide (k = k') then Some v else get t k'.
Proof.
  unfold insert. destruct (get t k) as [w|] eqn:Hk.
  - revert Hk. induction t as [|[k1 v1] t IH]; simpl; [done|].
    destruct (bool_decide (k1 = k)) eqn:E1; bool_prop; subst; simpl.
    + intros _. by destruct (bool_decide (k = k')).
    + intros Hw. rewrite IH by done.
      destruct (bool_decide (k1 = k')) eqn:E2; bool_prop; subst; [|done].
      by rewrite bool_decide_eq_false_2.
  - revert Hk. induction t as [|[k1 v1] t IH]; simpl; [done|].
    destruct (bool_decide (k1 = k)) eqn:E1; bool_prop; [done|]. intros Hw.
    destruct (String.ltb k k1); simpl; [done|]. rewrite IH by done.
    destruct (bool_decide (k1 = k')) eqn:E2; bool_prop; subst; [|done].
    by rewrite bool_decide_eq_false_2.
Qed.

Lemma get_remove t k k' : get (remove t k) k' = if bool_decide (k = k') then None else get t k'.
Proof.
  unfold remove. induction t as [|[k1 v1] t IH]; simpl; [by destruct (bool_decide _)|].
  rewrite filter_cons; simpl. destruct (decide (k1 ≠ k)) as [Hne|Heq]; simpl.
  - rewrite IH. destruct (bool_decide (k1 = k')) eqn:E; bool_prop; subst; [|done].
    by rewrite bool_decide_eq_false_2.
  - apply dec_stable in Heq as ->. rewrite IH. by destruct (bool_decide (k = k')).
Qed.

Lemma get_elem_of t k v : get t k = Some v → (k, v) ∈ t.
Proof.
  induction t as [|[k1 v1] t IH]; simpl; [done|].
  destruct (bool_decide (k1 = k)) eqn:E; bool_prop; subst; [|intros; right; auto].
  intros [= ->]. left.
Qed.

(** ** Dotted keys *)

Definition dot : Ascii.ascii := Ascii.Ascii false true true true false true false false.

Fixpoint split_dot (s : string) : list string :=
  match s with
  | EmptyString => [""]
  | String c s =>
      if Ascii.eqb c dot then "" :: split_dot s
      else match split_dot s with p :: ps => String c p :: ps | [] => [String c ""] end
  end%string.

Fixpoint join_dot (ps : list string) : string :=
  match ps with
  | [] => ""
  | [p] => p
  | p :: ps => p ++ "." ++ join_dot ps
  end%string.

Lemma split_dot_nonempty s : split_dot s ≠ [].
Proof.
  destruct s as [|c s]; simpl; [done|]. destruct (Ascii.eqb c dot); [done|].
  by destruct (split_dot s).
Qed.

Lemma join_dot_cons p ps : ps ≠ [] → join_dot (p :: ps) = (p ++ "." ++ join_dot ps)%string.
Proof. by destruct ps. Qed.

Lemma string_app_assoc (a b c : string) : ((a ++ b) ++ c)%string = (a ++ b ++ c)%string.
Proof. induction a as [|x a IH]; [done|]. exact (f_equal (String x) IH). Qed.

Lemma join_dot_app ps qs : ps ≠ [] → qs ≠ [] →
  join_dot (ps ++ qs) = (join_dot ps ++ "." ++ join_dot qs)%string.
Proof.
  intros Hp Hq. induction ps as [|p ps IH]; [done|].
  destruct ps as [|p' ps]; [by apply join_dot_cons|].
  rewrite <-app_comm_cons, join_dot_cons, IH, (join_dot_cons p (p' :: ps)) by done.
  by rewrite !string_app_assoc.
Qed.

Lemma join_split s : join_dot (split_dot s) = s.
Proof.
  induction s as [|c s IH]; simpl; [done|]. destruct (Ascii.eqb c dot) eqn:E.
  - apply Ascii.eqb_eq in E as ->. rewrite join_dot_cons by apply split_dot_nonempty. simpl.
    by rewrite IH.
  - destruct (split_dot s) as [|p ps]; [simpl in *; by subst|].
    destruct ps; simpl in *; by subst.
Qed.

#[export] Instance split_dot_inj : Inj (=) (=) split_dot.
Proof. intros s s' H. by rewrite <-(join_split s), <-(join_split s'), H. Qed.

Lemma split_app a b : split_dot (a ++ "." ++ b)%string = split_dot a ++ split_dot b.
Proof.
  induction a as [|c a IH]; simpl in *; [done|]. rewrite IH.
  destruct (Ascii.eqb c dot); [done|].
  destruct (split_dot a) eqn:E; [|done]. by destruct (split_dot_nonempty a).
Qed.

(** [child.strip_prefix(parent).is_some_and(|suffix| suffix.starts_with('.'))] *)
Fixpoint dotted_key_contains (parent child : string) : bool :=
  match parent, child with
  | EmptyString, String c _ => Ascii.eqb c dot
  | String p parent, String c child => Ascii.eqb p c && dotted_key_contains parent child
  | _, EmptyString => false
  end%string.

Lemma dotted_key_contains_app parent child :
  dotted_key_contains parent child = true ↔ ∃ rest, child = (parent ++ "." ++ rest)%string.
Proof.
  revert child. induction parent as [|p parent IH]; intros [|c child]; simpl.
  - split; [done|]. by intros [? ?].
  - rewrite Ascii.eqb_eq. split; [intros ->; by exists child|]. by intros [? [= -> _]].
  - split; [done|]. by intros [? ?].
  - rewrite andb_true_iff, Ascii.eqb_eq, IH. split.
    + intros [-> [rest ->]]. by exists rest.
    + intros [rest [= -> ->]]. split; [done|]. by exists rest.
Qed.

(** One key contains another exactly when its path is a strict prefix. *)
Lemma dotted_key_contains_path parent child :
  dotted_key_contains parent child = true ↔
  ∃ q, q ≠ [] ∧ split_dot child = split_dot parent ++ q.
Proof.
  rewrite dotted_key_contains_app. split.
  - intros [rest ->]. exists (split_dot rest). split; [apply split_dot_nonempty|apply split_app].
  - intros (q & Hq & H). exists (join_dot q).
    rewrite <-(join_split child), H, join_dot_app by (done || apply split_dot_nonempty).
    by rewrite join_split.
Qed.

(** ** Paths *)

Fixpoint get_in (v : Value) (path : list string) : option Value :=
  match path with
  | [] => Some v
  | part :: path => t ← as_table v; v ← get t part; get_in v path
  end.

(** Inserting at a path creates the tables in between; a value in the way is a conflict. *)
Fixpoint insert_in {E} (conflict : E) (t : Table) (path : list string) (value : Value) :
    result E Table :=
  match path with
  | [] => Err conflict
  | [part] =>
      match get t part with Some _ => Err conflict | None => Ok (insert t part value) end
  | part :: path =>
      match default (V_Table []) (get t part) with
      | V_Table child =>
          child ← insert_in conflict child path value;
          Ok (insert t part (V_Table child))
      | _ => Err conflict
      end
  end.

(** Removing at a path also removes the tables that it leaves empty; the result says
    whether the table itself is. *)
Fixpoint remove_in (t : Table) (path : list string) : Table :=
  match path with
  | [] => t
  | [part] => remove t part
  | part :: path =>
      match get t part with
      | Some (V_Table child) =>
          let child := remove_in child path in
          if bool_decide (child = []) then remove t part else insert t part (V_Table child)
      | _ => t
      end
  end.

(** ** Laws of paths *)

Lemma get_in_cons t a p : get_in (V_Table t) (a :: p) = (v ← get t a; get_in v p).
Proof. done. Qed.

Lemma get_in_app v p q : get_in v (p ++ q) = (w ← get_in v p; get_in w q).
Proof.
  revert v. induction p as [|a p IH]; intros v; simpl; [done|].
  destruct (as_table v) as [t|]; simpl; [|done].
  destruct (get t a); simpl; [apply IH|done].
Qed.

(** Two paths of which neither is a prefix of the other. *)
Definition apart (p q : list string) : Prop := ¬ p `prefix_of` q ∧ ¬ q `prefix_of` p.

Lemma prefix_cons_iff (a b : string) p q :
  a :: p `prefix_of` b :: q ↔ a = b ∧ p `prefix_of` q.
Proof.
  split; [|intros [-> H]; by apply prefix_cons].
  intros H. split; [by eapply prefix_cons_inv_1|by eapply prefix_cons_inv_2].
Qed.

Lemma apart_cons a p b q : apart (a :: p) (b :: q) ↔ a ≠ b ∨ apart p q.
Proof.
  unfold apart. destruct (decide (a = b)) as [->|Hne].
  - split; [|intros [?|[H1 H2]]; [done|]; split; intros H; by apply prefix_cons_inv_2 in H].
    intros [H1 H2]. right. split; intros H; [apply H1|apply H2]; by apply prefix_cons.
  - split; [by left|]. intros _. split; intros H; apply prefix_cons_inv_1 in H; congruence.
Qed.

Lemma apart_comparable p q : p `prefix_of` q ∨ q `prefix_of` p ∨ apart p q.
Proof.
  unfold apart. destruct (decide (p `prefix_of` q)); [by left|].
  destruct (decide (q `prefix_of` p)); [by right; left|]. by right; right.
Qed.

(** When a path is free: nothing lies at it, and only tables on the way. *)
Definition free (t : Table) (path : list string) : Prop :=
  path ≠ [] ∧ get_in (V_Table t) path = None ∧
  ∀ q v, q `prefix_of` path → get_in (V_Table t) q = Some v → is_table v = true.

Section insert_in.
Context {E : Type} (conflict : E).

Lemma insert_in_cons t a b path value :
  insert_in conflict t (a :: b :: path) value =
  match default (V_Table []) (get t a) with
  | V_Table child =>
      child ← insert_in conflict child (b :: path) value;
      Ok (insert t a (V_Table child))
  | _ => Err conflict
  end.
Proof. done. Qed.

Lemma free_cons t a b path :
  free t (a :: b :: path) ↔
  ∃ child, default (V_Table []) (get t a) = V_Table child ∧ free child (b :: path).
Proof.
  unfold free. destruct (get t a) as [w|] eqn:Ha; simpl.
  - split.
    + intros (_ & Hnone & Hway). rewrite Ha in Hnone.
      assert (is_table w = true) as Hw.
      { apply (Hway [a]); [by exists (b :: path)|]. simpl. by rewrite Ha. }
      destruct w as [| | | | | |child]; try done. exists child. do 2 (split; [done|]).
      split; [done|]. intros q v Hq Hv. apply (Hway (a :: q)); [by apply prefix_cons|].
      simpl. by rewrite Ha.
    + intros (child & -> & _ & Hnone & Hway). split; [done|]. rewrite Ha. split; [done|].
      intros [|c q] v Hq Hv; [by injection Hv as <-|].
      apply prefix_cons_inv_1 in Hq as Hc. subst c. apply prefix_cons_inv_2 in Hq.
      simpl in Hv. rewrite Ha in Hv. by apply (Hway q).
  - split.
    + intros _. exists []. do 2 (split; [done|]). split; [done|].
      intros [|c q] v Hq Hv; [by injection Hv as <-|done].
    + intros _. split; [done|]. rewrite Ha. split; [done|].
      intros [|c q] v Hq Hv; [by injection Hv as <-|].
      apply prefix_cons_inv_1 in Hq as Hc. subst c. simpl in Hv. by rewrite Ha in Hv.
Qed.

(** Insertion succeeds exactly at free paths. *)
Lemma insert_in_ok t path value :
  (∃ t', insert_in conflict t path value = Ok t') ↔ free t path.
Proof.
  revert t. induction path as [|a path IH]; intros t.
  { split; [by intros [? ?]|]. by intros [? _]. }
  destruct path as [|b path].
  - simpl. unfold free. simpl. destruct (get t a) as [v|] eqn:Ha; simpl.
    + split; [by intros [? ?]|]. intros (_ & Hn & _). by destruct (as_table v).
    + split; [|eauto]. intros _. split; [done|]. split; [done|]. intros q v Hq Hv.
      destruct q as [|c q]; [by injection Hv as <-|].
      apply prefix_cons_inv_1 in Hq as Hc. subst c. simpl in Hv. by rewrite Ha in Hv.
  - rewrite free_cons, insert_in_cons.
    destruct (default (V_Table []) (get t a)) as [| | | | | |child] eqn:Ha.
    1-6: (split; [by intros [? ?]|by intros (? & ? & _)]).
    split.
    + intros (t' & (child' & Hc & _)%bind_Ok). exists child. split; [done|]. apply IH. eauto.
    + intros (? & [= <-] & (child' & Hc)%IH). rewrite Hc. simpl. eauto.
Qed.

(** What a table holds after an insertion. *)
Lemma insert_in_at t path value t' q :
  insert_in conflict t path value = Ok t' → get_in (V_Table t') (path ++ q) = get_in value q.
Proof.
  revert t t'. induction path as [|a path IH]; intros t t'; [done|]. destruct path as [|b path].
  - simpl. destruct (get t a); [done|]. intros [= <-]. rewrite get_insert.
    by rewrite bool_decide_eq_true_2.
  - rewrite insert_in_cons. destruct (default _ _) as [| | | | | |child]; try done.
    intros (child' & Hc & [= <-])%bind_Ok. rewrite <-app_comm_cons. rewrite get_in_cons.
    rewrite get_insert, bool_decide_eq_true_2 by done. simpl. by eapply IH.
Qed.

Lemma insert_in_apart t path value t' q :
  insert_in conflict t path value = Ok t' → apart path q →
  get_in (V_Table t') q = get_in (V_Table t) q.
Proof.
  revert t t' q. induction path as [|a path IH]; intros t t' q; [done|].
  destruct q as [|c q]. { intros _ [_ H]. destruct H. apply prefix_nil. }
  rewrite apart_cons. destruct path as [|b path].
  - simpl. destruct (get t a); [done|]. intros [= <-] [Hne|[H _]].
    + rewrite get_insert. by rewrite bool_decide_eq_false_2.
    + destruct H. apply prefix_nil.
  - rewrite insert_in_cons. destruct (default _ _) as [| | | | | |child] eqn:Ha; try done.
    intros (child' & Hc & [= <-])%bind_Ok Hap. rewrite get_in_cons.
    rewrite get_insert. destruct (decide (a = c)) as [<-|Hne].
    + rewrite bool_decide_eq_true_2 by done. simpl. destruct Hap as [?|Hap]; [done|].
      rewrite (IH _ _ _ Hc Hap). destruct (get t a) as [v|]; simpl in *; [by subst v|].
      injection Ha as <-. destruct q as [|d q]; simpl; [|done].
      destruct Hap as [_ Hap]. destruct Hap. apply prefix_nil.
    + by rewrite bool_decide_eq_false_2.
Qed.

Lemma insert_in_above t path value t' q :
  insert_in conflict t path value = Ok t' → q `prefix_of` path → q ≠ path →
  ∃ u, get_in (V_Table t') q = Some (V_Table u).
Proof.
  revert t t' q. induction path as [|a path IH]; intros t t' q; [done|].
  intros H Hq Hne. destruct q as [|c q]; [by eexists|].
  apply prefix_cons_inv_1 in Hq as Hc. subst c. apply prefix_cons_inv_2 in Hq.
  assert (q ≠ path) as Hne' by congruence. destruct path as [|b path].
  { by apply prefix_nil_inv in Hq. }
  revert H. rewrite insert_in_cons. destruct (default _ _) as [| | | | | |child]; try done.
  intros (child' & Hc & [= <-])%bind_Ok. rewrite get_in_cons.
  rewrite get_insert, bool_decide_eq_true_2 by done. simpl. by eapply IH.
Qed.
End insert_in.

(** ** Leaves *)

Definition leaf_at (t : Table) (path : list string) (v : Value) : Prop :=
  get_in (V_Table t) path = Some v ∧ is_table v = false.

Lemma leaf_below v q : is_table v = false → q ≠ [] → get_in v q = None.
Proof. destruct v, q; simpl; done. Qed.

Lemma leaf_at_nonempty t p v : leaf_at t p v → p ≠ [].
Proof. intros [H Hl] ->. injection H as <-. done. Qed.

Lemma insert_in_leaves {E} (conflict : E) t p v t' q w :
  is_table v = false → insert_in conflict t p v = Ok t' →
  leaf_at t' q w ↔ (q = p ∧ w = v) ∨ leaf_at t q w.
Proof.
  intros Hleaf Hins. assert (free t p) as (Hne & Hnone & Hway) by (apply (insert_in_ok conflict t p v); eauto).
  unfold leaf_at. destruct (apart_comparable q p) as [Hq|[[r ->]|Hap]].
  - destruct (decide (q = p)) as [->|Hneq].
    + pose proof (insert_in_at conflict t p v t' [] Hins) as Hat. rewrite app_nil_r in Hat.
      rewrite Hat, Hnone. simpl. naive_solver.
    + destruct (insert_in_above conflict t p v t' q Hins Hq Hneq) as [u Hu]. rewrite Hu. split.
      * intros [[= <-] ?]. done.
      * intros [[? _]|[Hv Hw]]; [done|]. apply (Hway q w Hq) in Hv. congruence.
  - rewrite (insert_in_at conflict t p v t' r Hins), get_in_app, Hnone. simpl.
    destruct (decide (r = [])) as [->|Hr].
    + rewrite app_nil_r. simpl. naive_solver.
    + rewrite leaf_below by done. split; [naive_solver|]. intros [[Hr' _]|]; [|naive_solver].
      destruct Hr. apply (app_inv_head p). by rewrite app_nil_r.
  - rewrite (insert_in_apart conflict t p v t' q Hins) by (by destruct Hap).
    split; [by right|]. intros [[-> _]|]; [|done]. by destruct Hap as [[] _].
Qed.

Lemma remove_in_cons t a b path :
  remove_in t (a :: b :: path) =
  match get t a with
  | Some (V_Table child) =>
      let child := remove_in child (b :: path) in
      if bool_decide (child = []) then remove t a else insert t a (V_Table child)
  | _ => t
  end.
Proof. done. Qed.

Lemma remove_in_leaves t p q w : p ≠ [] →
  leaf_at (remove_in t p) q w ↔ leaf_at t q w ∧ ¬ p `prefix_of` q.
Proof.
  revert t q. induction p as [|a p IH]; intros t q Hp; [done|]. clear Hp. unfold leaf_at.
  destruct q as [|c q].
  { simpl. split; intros H; exfalso; destruct w; naive_solver. }
  rewrite !get_in_cons. destruct p as [|b p].
  - simpl. rewrite get_remove. destruct (decide (a = c)) as [->|Hne].
    + rewrite bool_decide_eq_true_2 by done. split; [naive_solver|].
      intros [_ H]. destruct H. apply prefix_cons, prefix_nil.
    + rewrite bool_decide_eq_false_2 by done. split; [|naive_solver]. intros H.
      split; [done|]. intros ?%prefix_cons_inv_1. done.
  - rewrite remove_in_cons. destruct (decide (a = c)) as [->|Hne].
    + rewrite prefix_cons_iff. destruct (get t c) as [v|] eqn:Hc; cbn [mbind option_bind].
      2: rewrite Hc; cbn; naive_solver.
      assert (is_table v = false → (get_in v q = Some w ∧ is_table w = false) ↔
        (get_in v q = Some w ∧ is_table w = false) ∧ ¬ (c = c ∧ b :: p `prefix_of` q)) as Hother.
      { intros Hv. split; [|naive_solver]. intros [H1 H2]. split; [done|]. intros [_ Hpre].
        rewrite leaf_below in H1; [done..|]. intros ->. by apply prefix_nil_inv in Hpre. }
      destruct v as [| | | | | |child]; try (rewrite Hc; by apply Hother). clear Hother.
      specialize (IH child q ltac:(done)). unfold leaf_at in IH.
      cbn zeta. set (child' := remove_in child (b :: p)) in *.
      destruct (bool_decide _) eqn:Hb; bool_prop.
      * rewrite get_remove, bool_decide_eq_true_2 by done. simpl.
        rewrite Hb in IH. split; [naive_solver|]. intros [H1 H2].
        exfalso. destruct q as [|d q]; [destruct w; naive_solver|].
        assert (get_in (V_Table []) (d :: q) = Some w) by (apply IH; naive_solver). done.
      * rewrite get_insert, bool_decide_eq_true_2 by done. simpl. rewrite IH. naive_solver.
    + assert (∀ x, (x ↔ x ∧ ¬ a :: b :: p `prefix_of` c :: q)) as Hap.
      { intros x. split; [|tauto]. intros Hx. split; [done|]. by intros ?%prefix_cons_inv_1. }
      destruct (get t a) as [v|] eqn:Ha; [|exact (Hap _)].
      destruct v as [| | | | | |child]; try exact (Hap _). cbn zeta.
      destruct (bool_decide (remove_in child (b :: p) = [])).
      * rewrite get_remove, bool_decide_eq_false_2 by done. exact (Hap _).
      * rewrite get_insert, bool_decide_eq_false_2 by done. exact (Hap _).
Qed.

(** ** Unique keys *)

(** A table is a map: no key occurs twice, at any depth. *)
Inductive value_wf : Value → Prop :=
| wf_leaf v : is_table v = false → value_wf v
| wf_table t : NoDup t.*1 → (∀ k v, get t k = Some v → value_wf v) → value_wf (V_Table t).
Definition table_wf (t : Table) : Prop := value_wf (V_Table t).

Lemma table_wf_inv t : table_wf t → NoDup t.*1 ∧ ∀ k v, get t k = Some v → value_wf v.
Proof. by inversion 1. Qed.

Lemma get_Some t k v : NoDup t.*1 → get t k = Some v ↔ (k, v) ∈ t.
Proof.
  intros Hnd. split; [apply get_elem_of|]. induction t as [|[k1 v1] t IH]; simpl; [by intros ?%not_elem_of_nil|].
  apply NoDup_cons in Hnd as [Hk Hnd]. intros [[= -> ->]|Hin]%elem_of_cons.
  - by rewrite bool_decide_eq_true_2.
  - rewrite bool_decide_eq_false_2; [by apply IH|]. intros ->. apply Hk.
    by apply (list_elem_of_fmap_2 fst) in Hin.
Qed.

Lemma get_None t k : get t k = None ↔ k ∉ t.*1.
Proof.
  induction t as [|[k1 v1] t IH]; simpl; [by split; [intros _ ?%not_elem_of_nil|]|].
  rewrite not_elem_of_cons, <-IH. case_bool_decide; naive_solver.
Qed.

Lemma replace_at_keys t k v : (replace_at t k v).*1 = t.*1.
Proof.
  induction t as [|[k1 v1] t IH]; simpl; [done|].
  case_bool_decide; subst; simpl; [done|]. by f_equal.
Qed.

Lemma insert_new_keys t k v : (insert_new t k v).*1 ≡ₚ k :: t.*1.
Proof.
  induction t as [|[k1 v1] t IH]; simpl; [done|].
  destruct (String.ltb k k1); simpl; [done|]. rewrite IH. apply Permutation_swap.
Qed.

Lemma insert_NoDup t k v : NoDup t.*1 → NoDup (insert t k v).*1.
Proof.
  intros Hnd. unfold insert. destruct (get t k) eqn:Hk; [by rewrite replace_at_keys|].
  rewrite insert_new_keys. apply NoDup_cons. by rewrite <-get_None.
Qed.

Lemma table_wf_insert t k v : table_wf t → value_wf v → table_wf (insert t k v).
Proof.
  intros [Hnd Hall]%table_wf_inv Hv. apply wf_table; [by apply insert_NoDup|].
  intros k' v'. rewrite get_insert. case_bool_decide; [by intros [= <-]|apply Hall].
Qed.

Lemma table_wf_remove t k : table_wf t → table_wf (remove t k).
Proof.
  intros [Hnd Hall]%table_wf_inv. apply wf_table.
  - unfold remove. clear Hall. induction t as [|[k1 v1] t IH]; [constructor|].
    apply NoDup_cons in Hnd as [Hk Hnd]. rewrite filter_cons. case_decide; simpl; [|by apply IH].
    apply NoDup_cons. split; [|by apply IH]. intros ([k2 v2] & Heq & [_ Hin]%list_elem_of_filter)%list_elem_of_fmap.
    simpl in Heq. subst k2. apply Hk. by apply (list_elem_of_fmap_2 fst) in Hin.
  - intros k' v'. rewrite get_remove. case_bool_decide; [done|apply Hall].
Qed.

Lemma table_wf_nil : table_wf [].
Proof. apply wf_table; [constructor|done]. Qed.

Lemma table_wf_insert_in {E} (conflict : E) t path v t' :
  table_wf t → value_wf v → insert_in conflict t path v = Ok t' → table_wf t'.
Proof.
  revert t t'. induction path as [|a path IH]; intros t t' Ht Hv; [done|]. destruct path as [|b path].
  - simpl. destruct (get t a); [done|]. intros [= <-]. by apply table_wf_insert.
  - rewrite insert_in_cons. destruct (default _ _) as [| | | | | |child] eqn:Ha; try done.
    intros (child' & Hc & [= <-])%bind_Ok. apply table_wf_insert; [done|]. apply (IH child); [|done..].
    destruct (get t a) as [w|] eqn:Hg; simpl in Ha; [subst w|injection Ha as <-; apply table_wf_nil].
    by apply table_wf_inv in Ht as [_ Hall]; apply Hall in Hg.
Qed.

Lemma table_wf_remove_in t path : table_wf t → table_wf (remove_in t path).
Proof.
  revert t. induction path as [|a path IH]; intros t Ht; [done|]. destruct path as [|b path].
  - by apply table_wf_remove.
  - rewrite remove_in_cons. destruct (get t a) as [[| | | | | |child]|] eqn:Hg; try done. cbn zeta.
    destruct (bool_decide _); [by apply table_wf_remove|]. apply table_wf_insert; [done|]. apply IH.
    by apply table_wf_inv in Ht as [_ Hall]; apply Hall in Hg.
Qed.
