(* ===== verification/Settings.v ===== *)
(** * Plugin settings: [luminated/src/managed_config/settings.rs] and [schema.rs]

    How the defaults of a plugin's schema, the global configuration and the managed
    overrides are merged into the settings that the plugin gets. *)

From S2P Require Import Prelude Toml.
From stdpp Require Import sorting.

(** ** Schemas *)

Inductive PluginSettingKind :=
| Kind_Boolean | Kind_Integer | Kind_Number | Kind_String | Kind_Enumeration | Kind_Array.

Record PluginSettingSchema := {
  key : string;
  kind : PluginSettingKind;
  default_value : option Value;
  required : bool;
  sensitive : bool;
  minimum : option f64;
  maximum : option f64;
  constraints : option Value
}.

(** ** Values of the protocol *)

Inductive SettingValue :=
| Setting_Boolean (b : bool)
| Setting_Integer (z : Z)
| Setting_Number (f : f64)
| Setting_String (s : string)
| Setting_Array (vs : list SettingValue)
| Setting_Table (t : list (string * SettingValue)).

Definition not_finite : Text := Lit "plugin setting numbers must be finite".

Fixpoint setting_value_to_toml (value : SettingValue) : result Text Value :=
  match value with
  | Setting_Boolean b => Ok (V_Boolean b)
  | Setting_Integer z => Ok (V_Integer z)
  | Setting_Number f => _ ← ensure (is_finite f) not_finite; Ok (V_Float f)
  | Setting_String s => Ok (V_String s)
  | Setting_Array vs =>
      vs ← (fix go vs := match vs with
        | [] => Ok []
        | v :: vs => v ← setting_value_to_toml v; vs ← go vs; Ok (v :: vs)
        end) vs;
      Ok (V_Array vs)
  | Setting_Table t =>
      t ← (fix go (t : list (string * SettingValue)) : result Text Table := match t with
        | [] => Ok []
        | (k, v) :: t => v ← setting_value_to_toml v; t ← go t; Ok ((k, v) :: t)
        end) t;
      Ok (V_Table t)
  end.

(** ** Keys *)

Definition ascii_in (lo hi : Z) (c : Ascii.ascii) : bool :=
  (lo <=? Z.of_N (Ascii.N_of_ascii c))%Z && (Z.of_N (Ascii.N_of_ascii c) <=? hi)%Z.
Definition is_ascii_alphanumeric (c : Ascii.ascii) : bool :=
  ascii_in 48 57 c || ascii_in 65 90 c || ascii_in 97 122 c.
Definition byte_is (n : Z) (c : Ascii.ascii) : bool := (Z.of_N (Ascii.N_of_ascii c) =? n)%Z.
Definition key_byte (c : Ascii.ascii) : bool :=
  is_ascii_alphanumeric c || byte_is 95 c || byte_is 45 c.
Fixpoint all_bytes (f : Ascii.ascii → bool) (s : string) : bool :=
  match s with EmptyString => true | String c s => f c && all_bytes f s end.
Definition is_empty (s : string) : bool := bool_decide (s = EmptyString).

Definition valid_setting_key (key : string) : bool :=
  negb (is_empty key) &&
  forallb (λ part, negb (is_empty part) && all_bytes key_byte part) (split_dot key).

(** A lock covers its key and the keys below. *)
Definition daemon_setting_locked (locks : list string) (key : string) : bool :=
  existsb (λ locked, bool_decide (locked = key) || dotted_key_contains locked key) locks.

(** ** Validation *)

Definition is_bool (v : Value) : bool := match v with V_Boolean _ => true | _ => false end.
Definition is_integer (v : Value) : bool := match v with V_Integer _ => true | _ => false end.
Definition is_float (v : Value) : bool := match v with V_Float _ => true | _ => false end.
Definition is_str (v : Value) : bool := match v with V_String _ => true | _ => false end.
Definition is_array (v : Value) : bool := match v with V_Array _ => true | _ => false end.

Definition validate_setting_kind (setting : PluginSettingSchema) (value : Value) : result Text unit :=
  let valid := match kind setting with
    | Kind_Boolean => is_bool value
    | Kind_Integer => is_integer value
    | Kind_Number => is_integer value || is_float value
    | Kind_String | Kind_Enumeration => is_str value
    | Kind_Array => is_array value
    end in
  ensure valid (Fmt "plugin setting {} has the wrong value kind" [AStr (key setting)]).

(** [value.as_float().or_else(|| value.as_integer().map(|value| value as f64))] *)
Definition numeric_value (value : Value) : option f64 :=
  match value with
  | V_Float f => Some f
  | V_Integer z => Some (f64_of_i64 z)
  | _ => None
  end.

Definition check_bounds (setting : PluginSettingSchema) (number : f64) : result Text unit :=
  _ ← match minimum setting with
      | Some minimum => ensure (f64_ge number minimum)
          (Fmt "plugin setting {} is below its minimum" [AStr (key setting)])
      | None => Ok tt
      end;
  match maximum setting with
  | Some maximum => ensure (f64_le number maximum)
      (Fmt "plugin setting {} exceeds its maximum" [AStr (key setting)])
  | None => Ok tt
  end.

Definition setting_value_has_named_kind (value : Value) (kind : string) : bool :=
  if bool_decide (kind = "boolean"%string) then is_bool value
  else if bool_decide (kind = "integer"%string) then is_integer value
  else if bool_decide (kind = "number"%string) then is_integer value || is_float value
  else if bool_decide (kind = "string"%string) then is_str value
  else false.

(** [Value::get] *)
Definition value_get (v : Value) (key : string) : option Value := t ← as_table v; get t key.

Definition check_constraints (setting : PluginSettingSchema) (value : Value) : result Text unit :=
  match kind setting, constraints setting with
  | Kind_Enumeration, Some constraints =>
      choices ← ok_or (v ← value_get constraints "choices"; as_array v)
        (Lit "enumeration setting constraints must contain a choices array");
      ensure (existsb (λ choice, value_eqb choice value) choices)
        (Fmt "plugin setting {} is not one of its declared choices" [AStr (key setting)])
  | Kind_Array, Some constraints =>
      match v ← value_get constraints "element_kind"; as_str v with
      | None => Ok tt
      | Some element_kind =>
          values ← ok_or (as_array value) (Lit "array setting value is not an array");
          ensure (forallb (λ v, setting_value_has_named_kind v element_kind) values)
            (Fmt "plugin setting {} contains an element of the wrong kind" [AStr (key setting)])
      end
  | _, _ => Ok tt
  end.

Definition validate_setting_value (setting : PluginSettingSchema) (value : Value) : result Text unit :=
  _ ← validate_setting_kind setting value;
  _ ← match numeric_value value with Some number => check_bounds setting number | None => Ok tt end;
  check_constraints setting value.

(** ** Tables and dotted keys *)

Notation flat := (gmap string Value).

Definition flatten_leaf (dotted : string) (v : Value) (flattened : flat) : result Text flat :=
  _ ← ensure (bool_decide (flattened !! dotted = None))
        (Fmt "duplicate plugin setting {}" [AStr dotted]);
  Ok (<[dotted := v]> flattened).

Fixpoint flatten_entry (dotted : string) (v : Value) (flattened : flat) : result Text flat :=
  match v with
  | V_Table nested =>
      (fix go (nested : Table) flattened := match nested with
        | [] => Ok flattened
        | (k, v) :: nested =>
            flattened ← flatten_entry (dotted ++ "." ++ k) v flattened; go nested flattened
        end) nested flattened
  | _ => flatten_leaf dotted v flattened
  end%string.

(** [flatten_settings(None, table, &mut flattened)] on an empty map. *)
Definition flatten_settings (table : Table) : result Text flat :=
  try_fold (λ flattened '(k, v), flatten_entry k v flattened) ∅ table.

Definition insert_dotted_setting (table : Table) (key : string) (value : Value) : result Text Table :=
  insert_in (Fmt "conflicting plugin setting key {}" [AStr key]) table (split_dot key) value.

Definition clear_dotted_setting (table : Table) (key : string) : Table :=
  remove_in table (split_dot key).

Definition set_dotted_setting (table : Table) (key : string) (value : Value) : result Text Table :=
  _ ← ensure (valid_setting_key key) (Fmt "invalid plugin setting key {}" [AStr key]);
  insert_dotted_setting (clear_dotted_setting table key) key value.

(** [dotted_value] of [daemon/dispatch/setup.rs] *)
Definition dotted_value (table : option Table) (key : string) : option Value :=
  match split_dot key with
  | [] => None
  | first :: parts => t ← table; value ← get t first; get_in value parts
  end.

(** ** Merging *)

Record Merge := {
  declarations : gmap string PluginSettingSchema;
  declared_keys : list string;
  values : flat
}.

Definition declare (acc : Merge) (setting : PluginSettingSchema) : result Text Merge :=
  let k := key setting in
  _ ← ensure (valid_setting_key k) (Fmt "invalid plugin setting schema key {}" [AStr k]);
  _ ← ensure (forallb (λ declared, negb (dotted_key_contains declared k) &&
                                   negb (dotted_key_contains k declared)) (declared_keys acc))
        (Fmt "conflicting plugin setting schema key {}" [AStr k]);
  _ ← ensure (bool_decide (declarations acc !! k = None))
        (Fmt "duplicate plugin setting schema key {}" [AStr k]);
  values ← match default_value setting with
    | Some default =>
        _ ← validate_setting_value setting default; Ok (<[k := default]> (values acc))
    | None => Ok (values acc)
    end;
  Ok {| declarations := <[k := setting]> (declarations acc);
        declared_keys := declared_keys acc ++ [k];
        values := values |}.

Definition overlay (undeclared : string) (accepts : string → bool)
    (declarations : gmap string PluginSettingSchema) (values : flat) (entry : string * Value) :
    result Text flat :=
  let '(k, v) := entry in
  setting ← ok_or (declarations !! k) (Fmt undeclared [AStr k]);
  _ ← validate_setting_value setting v;
  Ok (if accepts k then <[k := v]> values else values).

Definition merge_plugin_settings (global managed : Table) (locked_settings : list string)
    (schema : list PluginSettingSchema) : result Text Table :=
  acc ← try_fold declare {| declarations := ∅; declared_keys := []; values := ∅ |} schema;
  global_values ← flatten_settings global;
  merged ← try_fold (overlay "global configuration contains undeclared setting {}" (λ _, true)
    (declarations acc)) (values acc) (map_iter global_values);
  managed_values ← flatten_settings managed;
  merged ← try_fold (overlay "managed configuration contains undeclared setting {}"
    (λ k, negb (daemon_setting_locked locked_settings k)) (declarations acc))
    merged (map_iter managed_values);
  _ ← try_for (λ setting, ensure (negb (required setting) || bool_decide (is_Some (merged !! key setting)))
        (Fmt "required plugin setting {} has no value" [AStr (key setting)])) schema;
  try_fold (λ table '(k, v), insert_dotted_setting table k v) [] (map_iter merged).

(** ** What a merge means *)

Definition declared (schema : list PluginSettingSchema) (k : string) : option PluginSettingSchema :=
  List.find (λ s, bool_decide (key s = k)) schema.

(** The value of a setting: the managed one unless it is locked, else the global one, else
    the default. *)
Definition base_value (schema : list PluginSettingSchema) (g : flat) (k : string) : option Value :=
  match g !! k with Some v => Some v | None => declared schema k ≫= default_value end.
Definition resolved (schema : list PluginSettingSchema) (locked : list string) (g m : flat)
    (k : string) : option Value :=
  match m !! k with
  | Some v => if daemon_setting_locked locked k then base_value schema g k else Some v
  | None => base_value schema g k
  end.

Definition disjoint_keys (k k' : string) : Prop := apart (split_dot k) (split_dot k').

Record schema_ok (schema : list PluginSettingSchema) : Prop := {
  so_keys : Forall (λ s, valid_setting_key (key s) = true) schema;
  so_disjoint : ∀ i j s s', i ≠ j → schema !! i = Some s → schema !! j = Some s' →
    disjoint_keys (key s) (key s');
  so_defaults : Forall (λ s, ∀ v, default_value s = Some v → validate_setting_value s v = Ok tt) schema
}.

(** Every value of a layer is declared and valid. *)
Definition layer_ok (schema : list PluginSettingSchema) (layer : flat) : Prop :=
  ∀ k v, layer !! k = Some v →
    ∃ s, declared schema k = Some s ∧ validate_setting_value s v = Ok tt.

Record settings_ok (global managed : Table) (locked : list string)
    (schema : list PluginSettingSchema) (g m : flat) : Prop := {
  sk_schema : schema_ok schema;
  sk_global : flatten_settings global = Ok g;
  sk_managed : flatten_settings managed = Ok m;
  sk_global_ok : layer_ok schema g;
  sk_managed_ok : layer_ok schema m;
  sk_required : Forall (λ s, required s = true → is_Some (resolved schema locked g m (key s))) schema
}.

(** ** Declarations *)

Lemma apart_sym p q : apart p q → apart q p.
Proof. unfold apart. tauto. Qed.

Lemma declared_Some schema k s : declared schema k = Some s → s ∈ schema ∧ key s = k.
Proof. intros [H1 H2]%find_some. apply list_elem_of_In in H1. by bool_prop. Qed.

Lemma declared_app s1 s2 k :
  declared (s1 ++ s2) k = match declared s1 k with Some s => Some s | None => declared s2 k end.
Proof.
  unfold declared. induction s1 as [|s s1 IH]; simpl; [done|]. by destruct (bool_decide (key s = k)).
Qed.

Lemma disjoint_keys_test k k' :
  negb (dotted_key_contains k' k) && negb (dotted_key_contains k k') = true ∧ k ≠ k' ↔
  disjoint_keys k k'.
Proof.
  rewrite andb_true_iff, !negb_true_iff, <-!not_true_iff_false, !dotted_key_contains_path.
  unfold disjoint_keys, apart. split.
  - intros [[H1 H2] Hne]. split; intros [q Hq]; destruct (decide (q = [])) as [->|?].
    2, 4: naive_solver.
    all: rewrite app_nil_r in Hq; by apply (inj split_dot) in Hq.
  - intros [H1 H2]. split; [split|].
    + intros (q & _ & Hq). apply H2. by exists q.
    + intros (q & _ & Hq). apply H1. by exists q.
    + intros ->. by apply H1.
Qed.

Lemma schema_ok_app_l s1 s2 : schema_ok (s1 ++ s2) → schema_ok s1.
Proof.
  intros [H1 H2 H3]. apply Forall_app in H1 as [H1 _]. apply Forall_app in H3 as [H3 _].
  split; [done| |done]. intros i j t t' Hne Hi Hj.
  by apply (H2 i j); [|apply lookup_app_l_Some..].
Qed.

Lemma schema_ok_snoc schema s :
  schema_ok (schema ++ [s]) ↔
  schema_ok schema ∧ valid_setting_key (key s) = true ∧
  Forall (λ s', disjoint_keys (key s) (key s')) schema ∧
  (∀ v, default_value s = Some v → validate_setting_value s v = Ok tt).
Proof.
  split.
  - intros Hall. pose proof Hall as [H1 H2 H3].
    apply Forall_app in H1 as [H1 H1']. apply Forall_app in H3 as [H3 H3'].
    split; [|split; [|split]].
    + by eapply schema_ok_app_l.
    + rewrite Forall_singleton in H1'. exact H1'.
    + apply Forall_forall. intros t [i Hi]%list_elem_of_lookup.
      apply (H2 (length schema) i); [|by rewrite list_lookup_middle|by apply lookup_app_l_Some].
      apply lookup_lt_Some in Hi. lia.
    + rewrite Forall_singleton in H3'. exact H3'.
  - intros ([H1 H2 H3] & Hk & Hd & Hv). split.
    + apply Forall_app. split; [done|]. by constructor.
    + intros i j t t' Hne Hi Hj. rewrite Forall_forall in Hd.
      apply lookup_app_Some in Hi as [Hi|[Hil Hi]], Hj as [Hj|[Hjl Hj]].
      * by apply (H2 i j).
      * apply list_lookup_singleton_Some in Hj as [_ <-]. apply apart_sym, Hd.
        by eapply list_elem_of_lookup_2.
      * apply list_lookup_singleton_Some in Hi as [_ <-]. apply Hd. by eapply list_elem_of_lookup_2.
      * apply list_lookup_singleton_Some in Hi as [Hi _], Hj as [Hj _]. lia.
    + apply Forall_app. split; [done|]. by constructor.
Qed.

(** The state of the first loop after some declarations. *)
Record declared_state (schema : list PluginSettingSchema) (acc : Merge) : Prop := {
  dst_declarations k : declarations acc !! k = declared schema k;
  dst_keys : declared_keys acc = key <$> schema;
  dst_values k : values acc !! k = declared schema k ≫= default_value
}.

Lemma undeclared_key schema k : declared schema k = None ↔ k ∉ key <$> schema.
Proof.
  unfold declared. induction schema as [|s schema IH]; simpl; [by split; [intros _ ?%not_elem_of_nil|]|].
  rewrite not_elem_of_cons, <-IH. case_bool_decide; naive_solver.
Qed.

Definition tests_pass (acc : Merge) (k : string) : Prop :=
  forallb (λ declared, negb (dotted_key_contains declared k) &&
                       negb (dotted_key_contains k declared)) (declared_keys acc) = true ∧
  declarations acc !! k = None.

Lemma declare_Ok acc s acc' :
  declare acc s = Ok acc' ↔
  valid_setting_key (key s) = true ∧ tests_pass acc (key s) ∧
  (∀ v, default_value s = Some v → validate_setting_value s v = Ok tt) ∧
  acc' = {| declarations := <[key s := s]> (declarations acc);
            declared_keys := declared_keys acc ++ [key s];
            values := from_option (λ v, <[key s := v]> (values acc)) (values acc) (default_value s) |}.
Proof.
  unfold declare, tests_pass. rewrite !bind_unit_Ok, !ensure_Ok, bool_decide_eq_true, bind_Ok.
  destruct (default_value s) as [v|]; simpl.
  - split.
    + intros (? & ? & ? & values' & [Hv [= <-]]%bind_unit_Ok & [= <-]).
      repeat (split; [done|]). split; [|done]. by intros ? [= <-].
    + intros (? & [? ?] & Hv & ->). repeat (split; [done|]).
      rewrite (Hv v eq_refl). by eexists.
  - split.
    + intros (? & ? & ? & values' & [= <-] & [= <-]). by repeat (split; [done|]).
    + intros (? & [? ?] & _ & ->). repeat (split; [done|]). by eexists.
Qed.

Lemma tests_pass_disjoint schema acc s : declared_state schema acc →
  tests_pass acc (key s) ↔ Forall (λ s', disjoint_keys (key s) (key s')) schema.
Proof.
  intros [Hd Hk _]. unfold tests_pass.
  rewrite Hd, Hk, undeclared_key, forallb_forall, Forall_forall.
  setoid_rewrite <-disjoint_keys_test. setoid_rewrite <-list_elem_of_In. split.
  - intros [H1 H2] t Ht. split; [by apply H1, list_elem_of_fmap_2|].
    intros Heq. apply H2. rewrite Heq. by apply list_elem_of_fmap_2.
  - intros H. split.
    + intros k' (t & -> & Ht)%list_elem_of_fmap. by apply H.
    + intros (t & Heq & Ht)%list_elem_of_fmap. by destruct (H t Ht).
Qed.

Lemma declare_step schema acc s : schema_ok schema → declared_state schema acc →
  (∃ acc', declare acc s = Ok acc') ↔ schema_ok (schema ++ [s]).
Proof.
  intros Hok Hst. rewrite schema_ok_snoc, <-(tests_pass_disjoint schema acc s Hst).
  setoid_rewrite declare_Ok. naive_solver.
Qed.

Lemma declare_state schema acc s acc' : declared_state schema acc → declare acc s = Ok acc' →
  declared_state (schema ++ [s]) acc'.
Proof.
  intros [Hd Hk Hv] (_ & [_ Hnew] & _ & ->)%declare_Ok. rewrite Hd in Hnew. split; simpl.
  - intros k. rewrite declared_app. simpl. case_bool_decide; subst.
    + rewrite lookup_insert_eq, Hnew. simpl. congruence.
    + rewrite lookup_insert_ne, Hd by done. by destruct (declared schema k).
  - by rewrite Hk, fmap_app.
  - intros k. rewrite declared_app. simpl. destruct (default_value s) as [v|] eqn:Hdef; simpl.
    + case_bool_decide; subst.
      * rewrite lookup_insert_eq, Hnew. simpl. congruence.
      * rewrite lookup_insert_ne, Hv by done. by destruct (declared schema k).
    + rewrite Hv. case_bool_decide; subst; [by rewrite Hnew|]. by destruct (declared schema k).
Qed.

Definition no_declarations : Merge := {| declarations := ∅; declared_keys := []; values := ∅ |}.

Lemma declare_all schema :
  match try_fold declare no_declarations schema with
  | Ok acc => schema_ok schema ∧ declared_state schema acc
  | Err _ => ¬ schema_ok schema
  end.
Proof.
  assert (∀ done acc, schema_ok done → declared_state done acc →
    match try_fold declare acc schema with
    | Ok acc => schema_ok (done ++ schema) ∧ declared_state (done ++ schema) acc
    | Err _ => ¬ schema_ok (done ++ schema)
    end) as Hgen.
  { induction schema as [|s schema IH]; intros done acc Hok Hst; simpl.
    { by rewrite app_nil_r. }
    rewrite cons_middle, app_assoc. pose proof (declare_step done acc s Hok Hst) as Hstep.
    destruct (declare acc s) as [acc'|e] eqn:Hd; simpl.
    - apply IH; [by apply Hstep; eauto|by eapply declare_state].
    - intros Hs%schema_ok_app_l. apply Hstep in Hs as [? ?]. done. }
  apply (Hgen [] no_declarations); [|by split].
  split; [constructor|done|constructor].
Qed.

(** ** Layers *)

Lemma map_iter_NoDup (m : flat) : NoDup (map_iter m).*1.
Proof. rewrite map_iter_Permutation. apply NoDup_fst_map_to_list. Qed.

Lemma overlay_list (schema : list PluginSettingSchema) text accepts decls values l :
  (∀ k, decls !! k = declared schema k) → NoDup l.*1 →
  match try_fold (overlay text accepts decls) values l with
  | Ok values' =>
      Forall (λ p, ∃ s, declared schema p.1 = Some s ∧ validate_setting_value s p.2 = Ok tt) l ∧
      (∀ k v, (k, v) ∈ l → values' !! k = if accepts k then Some v else values !! k) ∧
      (∀ k, k ∉ l.*1 → values' !! k = values !! k)
  | Err _ =>
      ¬ Forall (λ p, ∃ s, declared schema p.1 = Some s ∧ validate_setting_value s p.2 = Ok tt) l
  end.
Proof.
  intros Hd. revert values. induction l as [|[k v] l IH]; intros values Hnd; simpl.
  { split; [constructor|]. split; [by intros ?? ?%not_elem_of_nil|done]. }
  apply NoDup_cons in Hnd as [Hk Hnd]. rewrite Hd.
  destruct (declared schema k) as [s|] eqn:Hs; simpl.
  2: { intros [(? & ? & _) _]%Forall_cons. simpl in *. congruence. }
  destruct (validate_setting_value s v) as [[]|] eqn:Hv; simpl.
  2: { intros [(? & ? & ?) _]%Forall_cons. simpl in *. congruence. }
  set (values1 := if accepts k then _ else values). specialize (IH values1 Hnd).
  destruct (try_fold _ values1 l) as [values'|]; simpl.
  2: { by intros [_ ?]%Forall_cons. }
  destruct IH as (HF & Hin & Hout). split; [constructor; [simpl; eauto|done]|]. split.
  - intros k' v' [[= -> ->]|Hl]%elem_of_cons.
    + rewrite Hout by done. unfold values1. destruct (accepts k); [by rewrite lookup_insert_eq|done].
    + rewrite (Hin k' v' Hl). assert (k' ≠ k) as Hne.
      { intros ->. apply Hk. by apply (list_elem_of_fmap_2 fst) in Hl. }
      unfold values1. destruct (accepts k'), (accepts k); try done. by rewrite lookup_insert_ne.
  - intros k' [Hne Hk']%not_elem_of_cons. rewrite Hout by done. unfold values1.
    destruct (accepts k); [by rewrite lookup_insert_ne|done].
Qed.

Definition overlaid (accepts : string → bool) (values layer : flat) (k : string) : option Value :=
  match layer !! k with
  | Some v => if accepts k then Some v else values !! k
  | None => values !! k
  end.

Lemma overlay_layer schema text accepts decls values layer :
  (∀ k, decls !! k = declared schema k) →
  match try_fold (overlay text accepts decls) values (map_iter layer) with
  | Ok values' => layer_ok schema layer ∧ ∀ k, values' !! k = overlaid accepts values layer k
  | Err _ => ¬ layer_ok schema layer
  end.
Proof.
  intros Hd. pose proof (overlay_list schema text accepts decls values _ Hd (map_iter_NoDup layer)) as H.
  assert (layer_ok schema layer ↔ Forall (λ p, ∃ s, declared schema p.1 = Some s ∧
    validate_setting_value s p.2 = Ok tt) (map_iter layer)) as Hok.
  { unfold layer_ok. rewrite Forall_forall. split.
    - intros Hl [k v] Hin%elem_of_map_iter. by apply Hl.
    - intros Hl k v Hin%elem_of_map_iter. by apply (Hl (k, v)). }
  destruct (try_fold _ _ _) as [values'|]; [|by rewrite Hok].
  destruct H as (HF & Hin & Hout). split; [by apply Hok|]. intros k. unfold overlaid.
  destruct (layer !! k) as [v|] eqn:Hl.
  - apply Hin. by apply elem_of_map_iter.
  - apply Hout. intros ([k' v] & -> & Hk)%list_elem_of_fmap. apply elem_of_map_iter in Hk.
    simpl in *. congruence.
Qed.

(** ** The merged table *)

(** What a table built from some keys holds: their values and the tables above them. *)
Definition built (t : Table) (ks : list string) : Prop :=
  ∀ q v, get_in (V_Table t) q = Some v →
    q = [] ∨ ∃ k, k ∈ ks ∧ q `prefix_of` split_dot k ∧ (q = split_dot k ∨ is_table v = true).

Lemma built_free t ks k :
  built t ks → Forall (λ k', disjoint_keys k k') ks → free t (split_dot k).
Proof.
  intros Hb Hd. rewrite Forall_forall in Hd. split; [apply split_dot_nonempty|]. split.
  - destruct (get_in _ _) as [v|] eqn:Hg; [|done].
    destruct (Hb _ _ Hg) as [?|(k' & Hk' & Hp & _)]; [by destruct (split_dot_nonempty k)|].
    by destruct (Hd k' Hk') as [[] _].
  - intros q v Hq Hg. destruct (Hb _ _ Hg) as [->|(k' & Hk' & Hp & [->|?])]; [by injection Hg as <-| |done].
    by destruct (Hd k' Hk') as [_ []].
Qed.

Lemma built_insert {E} (conflict : E) t ks k v t' :
  built t ks → is_table v = false → insert_in conflict t (split_dot k) v = Ok t' → built t' (k :: ks).
Proof.
  intros Hb Hv Hins q w Hg. destruct (apart_comparable q (split_dot k)) as [Hq|[[r ->]|Hap]].
  - right. exists k. split; [left|]. split; [done|]. destruct (decide (q = split_dot k)); [by left|right].
    destruct (insert_in_above conflict _ _ _ _ q Hins Hq) as [u Hu]; [done|].
    rewrite Hu in Hg. by injection Hg as <-.
  - rewrite (insert_in_at conflict _ _ _ _ r Hins) in Hg.
    destruct (decide (r = [])) as [->|Hr]; [|by rewrite leaf_below in Hg].
    rewrite app_nil_r. right. exists k. split; [left|]. split; [done|]. by left.
  - rewrite (insert_in_apart conflict _ _ _ _ q Hins) in Hg by (by apply apart_sym).
    destruct (Hb q w Hg) as [?|(k' & ? & ?)]; [by left|]. right. exists k'. split; [by right|done].
Qed.

Lemma insert_all t ks l :
  built t ks → NoDup l.*1 → Forall (λ p, is_table p.2 = false) l →
  (∀ k k', k ∈ ks ++ l.*1 → k' ∈ ks ++ l.*1 → k ≠ k' → disjoint_keys k k') →
  (∀ k, k ∈ ks → k ∉ l.*1) →
  ∃ t', try_fold (λ table '(k, v), insert_dotted_setting table k v) t l = Ok t' ∧
    ∀ q w, leaf_at t' q w ↔ leaf_at t q w ∨ ∃ k, q = split_dot k ∧ (k, w) ∈ l.
Proof.
  revert t ks. induction l as [|[k v] l IH]; intros t ks Hb Hnd Hleaf Hdis Hnew; simpl in *.
  { exists t. split; [done|]. intros q w. split; [by left|]. by intros [?|(? & _ & ?%not_elem_of_nil)]. }
  apply NoDup_cons in Hnd as [Hk Hnd]. apply Forall_cons in Hleaf as [Hv Hleaf].
  set (conflict := Fmt "conflicting plugin setting key {}" [AStr k]).
  change (insert_dotted_setting t k v) with (insert_in conflict t (split_dot k) v).
  assert (free t (split_dot k)) as [t1 H1]%(insert_in_ok conflict t (split_dot k) v).
  { apply (built_free t ks); [done|]. apply Forall_forall. intros k' Hk'. apply Hdis; [set_solver..|].
    intros ->. apply (Hnew k' Hk'). left. }
  rewrite H1. simpl.
  destruct (IH t1 (k :: ks)) as (t' & Ht' & Hl); [by eapply built_insert|done..| | |].
  { intros k1 k2 ? ?. apply Hdis; set_solver. }
  { intros k' [->|Hk']%elem_of_cons; [done|]. intros ?. apply (Hnew k' Hk'). by right. }
  exists t'. split; [done|]. intros q w. rewrite Hl, (insert_in_leaves conflict _ _ _ _ q w Hv H1). split.
  - intros [[[-> ->]|?]|(k' & -> & Hin)]; [right|by left|right].
    + exists k. split; [done|]. left.
    + exists k'. split; [done|]. by right.
  - intros [?|(k' & -> & [[= -> ->]|Hin]%elem_of_cons)]; [by left; right|by left; left|].
    right. by exists k'.
Qed.

Lemma valid_leaf s v : validate_setting_value s v = Ok tt → is_table v = false.
Proof.
  unfold validate_setting_value, validate_setting_kind. intros [H _]%bind_unit_Ok.
  apply ensure_Ok in H. by destruct v, (kind s).
Qed.

Lemma schema_disjoint schema k k' s s' : schema_ok schema →
  declared schema k = Some s → declared schema k' = Some s' → k ≠ k' → disjoint_keys k k'.
Proof.
  intros [_ Hd _] [Hs <-]%declared_Some [Hs' <-]%declared_Some Hne.
  apply list_elem_of_lookup in Hs as [i Hi], Hs' as [j Hj]. apply (Hd i j); [|done..]. congruence.
Qed.

Lemma insert_resolved schema (merged : flat) : schema_ok schema → layer_ok schema merged →
  ∃ t, try_fold (λ table '(k, v), insert_dotted_setting table k v) [] (map_iter merged) = Ok t ∧
    ∀ q w, leaf_at t q w ↔ ∃ k, q = split_dot k ∧ merged !! k = Some w.
Proof.
  intros Hs Hm.
  assert (∀ k, k ∈ (map_iter merged).*1 → ∃ s, declared schema k = Some s) as Hdecl.
  { intros k ([k' v] & -> & Hin%elem_of_map_iter)%list_elem_of_fmap.
    destruct (Hm k' v Hin) as (s & ? & _). eauto. }
  destruct (insert_all [] [] (map_iter merged)) as (t & Ht & Hl).
  - intros [|a q] v Hg; [by left|done].
  - apply map_iter_NoDup.
  - apply Forall_forall. intros [k v] Hin%elem_of_map_iter. destruct (Hm k v Hin) as (s & _ & Hv).
    by eapply valid_leaf.
  - intros k k' Hk Hk' Hne. destruct (Hdecl k Hk) as [s ?], (Hdecl k' Hk') as [s' ?].
    by eapply schema_disjoint.
  - intros k ?%not_elem_of_nil. done.
  - exists t. split; [done|]. intros q w. rewrite Hl. setoid_rewrite elem_of_map_iter.
    split; [|by right]. intros [[Hg Hw]|?]; [|done]. destruct q as [|a q]; [|done].
    injection Hg as <-. done.
Qed.

(** The two overlays compute [resolved]. *)
Lemma resolved_overlays schema locked acc (merged1 merged2 g m : flat) :
  declared_state schema acc → (∀ k, merged1 !! k = overlaid (λ _, true) (values acc) g k) →
  (∀ k, merged2 !! k = overlaid (λ k, negb (daemon_setting_locked locked k)) merged1 m k) →
  ∀ k, merged2 !! k = resolved schema locked g m k.
Proof.
  intros [_ _ Hv] H1 H2 k. rewrite H2. unfold overlaid, resolved, base_value.
  rewrite H1. unfold overlaid. rewrite Hv.
  destruct (m !! k) as [v|], (g !! k) as [w|]; simpl; try done;
    by destruct (daemon_setting_locked locked k).
Qed.

Lemma resolved_layer schema locked (g m merged : flat) :
  schema_ok schema → layer_ok schema g → layer_ok schema m →
  (∀ k, merged !! k = resolved schema locked g m k) → layer_ok schema merged.
Proof.
  intros Hs Hg Hm Hr k v. rewrite Hr. unfold resolved, base_value.
  assert ((declared schema k ≫= default_value) = Some v →
    ∃ s, declared schema k = Some s ∧ validate_setting_value s v = Ok tt) as Hdef.
  { intros (s & Hs' & Hd)%bind_Some. exists s. split; [done|].
    pose proof (so_defaults _ Hs) as Hall. rewrite Forall_forall in Hall.
    apply declared_Some in Hs' as [Hin _]. by apply Hall. }
  destruct (m !! k) as [w|] eqn:Em; [destruct (daemon_setting_locked locked k)|];
    destruct (g !! k) as [w'|] eqn:Eg; intros [= <-] || intros H; eauto.
Qed.

(** C11: The settings of a plugin are merged exactly when its schema is consistent, every value
    of either layer is declared and valid, and every required setting has a value; the merged
    table then holds, under the dotted key of each setting, the managed value unless the
    setting is locked, else the global value, else the default, and nothing else. *)
Theorem merge_plugin_settings_correct global managed locked schema :
  match merge_plugin_settings global managed locked schema with
  | Ok merged => ∃ g m, settings_ok global managed locked schema g m ∧
      ∀ path v, leaf_at merged path v ↔
        ∃ k, path = split_dot k ∧ resolved schema locked g m k = Some v
  | Err _ => ¬ ∃ g m, settings_ok global managed locked schema g m
  end.
Proof.
  unfold merge_plugin_settings. pose proof (declare_all schema) as Hdecl.
  fold no_declarations. destruct (try_fold declare _ schema) as [acc|]; simpl.
  2: by intros (? & ? & []).
  destruct Hdecl as [Hs Hst]. destruct (flatten_settings global) as [g|] eqn:Hg; simpl.
  2: { intros (? & ? & []). congruence. }
  pose proof (overlay_layer schema "global configuration contains undeclared setting {}"
    (λ _, true) (declarations acc) (values acc) g (dst_declarations _ _ Hst)) as H1.
  destruct (try_fold _ _ (map_iter g)) as [merged1|]; simpl.
  2: { intros (g' & m' & [_ Hg' _ Hok _ _]). apply H1. by replace g with g' by congruence. }
  destruct H1 as [Hgok H1]. destruct (flatten_settings managed) as [m|] eqn:Hm; simpl.
  2: { intros (? & ? & []). congruence. }
  pose proof (overlay_layer schema "managed configuration contains undeclared setting {}"
    (λ k, negb (daemon_setting_locked locked k)) (declarations acc) merged1 m
    (dst_declarations _ _ Hst)) as H2.
  destruct (try_fold _ _ (map_iter m)) as [merged2|]; simpl.
  2: { intros (g' & m' & [_ _ Hm' _ Hok _]). apply H2. by replace m with m' by congruence. }
  destruct H2 as [Hmok H2]. pose proof (resolved_overlays schema locked acc _ _ g m Hst H1 H2) as Hr.
  destruct (insert_resolved schema merged2 Hs) as (t & Ht & Hl); [by apply (resolved_layer schema locked g m)|].
  destruct (try_for _ schema) as [[]|e] eqn:Hreq; simpl.
  - apply try_for_Ok in Hreq. rewrite Ht. exists g, m. split.
    + split; try done. eapply Forall_impl; [exact Hreq|]. intros s Hsreq Hreq'. cbn beta in Hsreq.
      apply ensure_Ok in Hsreq. rewrite Hreq' in Hsreq. cbn in Hsreq. bool_prop. by rewrite <-Hr.
    + intros path v. rewrite Hl. by setoid_rewrite Hr.
  - intros (g' & m' & [_ Hg' Hm' _ _ Hreq']).
    assert (g' = g) as -> by congruence. assert (m' = m) as -> by congruence.
    assert (try_for (λ setting, ensure (negb (required setting) ||
      bool_decide (is_Some (merged2 !! key setting)))
      (Fmt "required plugin setting {} has no value" [AStr (key setting)])) schema = Ok tt); [|congruence].
    apply try_for_Ok. eapply Forall_impl; [exact Hreq'|]. intros s Hsreq. cbn beta. apply ensure_Ok.
    destruct (required s) eqn:Hrs; [|done]. cbn. apply bool_decide_eq_true. rewrite Hr. by apply Hsreq.
Qed.

(** Setting a dotted key succeeds unless a value lies above it, and then the table holds the
    new value there, what it held elsewhere, and nothing below the key. *)
Lemma set_dotted_setting_leaves t k v t' : is_table v = false →
  set_dotted_setting t k v = Ok t' →
  ∀ path w, leaf_at t' path w ↔
    (path = split_dot k ∧ w = v) ∨ (leaf_at t path w ∧ ¬ split_dot k `prefix_of` path).
Proof.
  intros Hv [_ H]%bind_unit_Ok path w. unfold insert_dotted_setting in H.
  rewrite (insert_in_leaves _ _ _ _ _ path w Hv H). unfold clear_dotted_setting.
  rewrite remove_in_leaves by apply split_dot_nonempty. done.
Qed.

Lemma clear_dotted_setting_leaves t k path w :
  leaf_at (clear_dotted_setting t k) path w ↔ leaf_at t path w ∧ ¬ split_dot k `prefix_of` path.
Proof. apply remove_in_leaves, split_dot_nonempty. Qed.

Lemma dotted_value_get_in t k : dotted_value (Some t) k = get_in (V_Table t) (split_dot k).
Proof.
  unfold dotted_value. destruct (split_dot k) as [|a p] eqn:E; [by destruct (split_dot_nonempty k)|done].
Qed.

(** ** Flattening *)

Definition flatten_all (name : string → string) (flattened : flat) (table : Table) : result Text flat :=
  try_fold (λ flattened '(k, v), flatten_entry (name k) v flattened) flattened table.

Lemma flatten_entry_table dotted nested flattened :
  flatten_entry dotted (V_Table nested) flattened =
  flatten_all (λ k, dotted ++ "." ++ k)%string flattened nested.
Proof.
  cbn [flatten_entry]. revert flattened. induction nested as [|[k v] nested IH]; intros m; [done|].
  cbn. destruct (flatten_entry _ v m) as [m'|]; [apply IH|done].
Qed.

Lemma join_dot_prefix d a p : join_dot (d :: a :: p) = join_dot ((d ++ "." ++ a)%string :: p).
Proof. destruct p as [|b p]; [done|]. simpl. by rewrite !string_app_assoc. Qed.

Definition flattens (v : Value) (dotted : string) (m m' : flat) : Prop :=
  ∀ k w, m' !! k = Some w ↔
    m !! k = Some w ∨ ∃ p, get_in v p = Some w ∧ is_table w = false ∧ k = join_dot (dotted :: p).

Lemma flatten_leaf_spec v dotted m m' : is_table v = false →
  flatten_leaf dotted v m = Ok m' → flattens v dotted m m'.
Proof.
  intros Hv [Hn [= <-]]%bind_unit_Ok k w. apply ensure_Ok in Hn. bool_prop.
  destruct (decide (dotted = k)) as [<-|Hne].
  - rewrite lookup_insert_eq, Hn. split.
    + intros [= <-]. right. by exists [].
    + intros [?|(p & Hp & _ & Hk)]; [done|]. destruct p as [|a p]; [done|].
      by rewrite leaf_below in Hp.
  - rewrite lookup_insert_ne by done. split; [by left|].
    intros [?|(p & Hp & _ & Hk)]; [done|]. destruct p as [|a p]; [done|].
    by rewrite leaf_below in Hp.
Qed.

Lemma flatten_all_spec name t m m' : NoDup t.*1 →
  (∀ k v, get t k = Some v → ∀ dotted m m', flatten_entry dotted v m = Ok m' → flattens v dotted m m') →
  flatten_all name m t = Ok m' →
  ∀ k w, m' !! k = Some w ↔ m !! k = Some w ∨
    ∃ a p, get_in (V_Table t) (a :: p) = Some w ∧ is_table w = false ∧ k = join_dot (name a :: p).
Proof.
  intros Hnd IH H.
  assert (∀ l m, (∀ k v, (k, v) ∈ l → get t k = Some v) → flatten_all name m l = Ok m' →
    ∀ k w, m' !! k = Some w ↔ m !! k = Some w ∨ ∃ a v p, (a, v) ∈ l ∧ get_in v p = Some w ∧
      is_table w = false ∧ k = join_dot (name a :: p)) as Hl.
  { clear m H. unfold flatten_all.
    induction l as [|[a v] l IHl]; intros m Hsub H k w; simpl in H.
    { injection H as <-. split; [by left|]. intros [?|(? & ? & ? & ?%not_elem_of_nil & _)]; done. }
    apply bind_Ok in H as (m1 & H1 & H2).
    assert (∀ k v, (k, v) ∈ l → get t k = Some v) as Hsub' by (intros; apply Hsub; by right).
    rewrite (IHl m1 Hsub' H2), (IH a v (Hsub a v (list_elem_of_here _ _)) _ _ _ H1 k w). split.
    - intros [[?|(p & ? & ? & ->)]|(a' & v' & p & ? & ? & ? & ->)]; [by left|right|right].
      + exists a, v, p. split; [left|done].
      + exists a', v', p. split; [by right|done].
    - intros [?|(a' & v' & p & [[= -> ->]|Hin]%elem_of_cons & ? & ? & ->)]; [by left; left|left; right|right].
      + by exists p.
      + by exists a', v', p. }
  intros k w. rewrite (Hl t m); [|intros; by apply get_Some|done]. split.
  - intros [?|(a & v & p & Hin & Hp & Hw & ->)]; [by left|right]. exists a, p.
    split; [|done]. rewrite get_in_cons. apply get_Some in Hin; [|done]. by rewrite Hin.
  - intros [?|(a & p & Hp & Hw & ->)]; [by left|].
    rewrite get_in_cons in Hp. apply bind_Some in Hp as (v & Hv & Hp). right.
    exists a, v, p. by rewrite <-get_Some.
Qed.

Lemma flatten_entry_spec v : value_wf v → ∀ dotted m m',
  flatten_entry dotted v m = Ok m' → flattens v dotted m m'.
Proof.
  induction 1 as [v Hv|t Hnd _ IH]; intros dotted m m' H.
  { apply flatten_leaf_spec; [done|]. by destruct v. }
  rewrite flatten_entry_table in H. intros k w. rewrite (flatten_all_spec _ t m m' Hnd IH H).
  split; (intros [?|Hr]; [by left|right]).
  - destruct Hr as (a & p & Hp & Hw & ->). exists (a :: p). by rewrite join_dot_prefix.
  - destruct Hr as (p & Hp & Hw & ->). destruct p as [|a p]; [by injection Hp as <-|].
    exists a, p. by rewrite join_dot_prefix.
Qed.

(** A flattened table maps the dotted path of each leaf to it. *)
Lemma flatten_settings_spec t m : table_wf t → flatten_settings t = Ok m →
  ∀ k w, m !! k = Some w ↔ ∃ p, leaf_at t p w ∧ k = join_dot p.
Proof.
  intros [Hnd Hwf]%table_wf_inv H k w.
  rewrite (flatten_all_spec id t ∅ m Hnd (λ k v Hv, flatten_entry_spec v (Hwf k v Hv)) H).
  rewrite lookup_empty. split.
  - intros [?|(a & p & Hp & Hw & ->)]; [done|]. by exists (a :: p).
  - intros (p & [Hp Hw] & ->). destruct p as [|a p]; [by injection Hp as <-|]. right. by exists a, p.
Qed.

(** Setting a key shows in the flattened table, and leaves the keys disjoint from it alone. *)
Lemma set_setting_flat t k v t' m m' : table_wf t → is_table v = false →
  set_dotted_setting t k v = Ok t' → flatten_settings t = Ok m → flatten_settings t' = Ok m' →
  table_wf t' ∧ m' !! k = Some v ∧ ∀ k', disjoint_keys k k' → m' !! k' = m !! k'.
Proof.
  intros Hwf Hv Hset Hm Hm'. assert (table_wf t') as Hwf'.
  { unfold set_dotted_setting in Hset. apply bind_unit_Ok in Hset as [_ Hset].
    eapply table_wf_insert_in; [|by apply wf_leaf|exact Hset]. by apply table_wf_remove_in. }
  pose proof (set_dotted_setting_leaves t k v t' Hv Hset) as Hl. split; [done|]. split.
  - apply (flatten_settings_spec t' m' Hwf' Hm'). exists (split_dot k). rewrite join_split.
    split; [|done]. apply Hl. by left.
  - intros k' Hdis. apply option_eq. intros w.
    rewrite (flatten_settings_spec t' m' Hwf' Hm'), (flatten_settings_spec t m Hwf Hm).
    setoid_rewrite Hl. split.
    + intros (p & [[-> _]|[? _]] & ->); [|by exists p]. rewrite join_split in Hdis.
      by destruct Hdis as [[] _].
    + intros (p & Hp & ->). exists p. split; [|done]. right. split; [done|]. intros [r ->].
      apply disjoint_keys_test in Hdis as [Ht Hne]. apply andb_true_iff in Ht as [_ Ht].
      apply negb_true_iff, not_true_iff_false in Ht.
      destruct (decide (r = [])) as [->|Hr]; [by rewrite app_nil_r, join_split in Hne|].
      apply Ht. rewrite dotted_key_contains_app, join_dot_app by (done || apply split_dot_nonempty).
      rewrite join_split. eauto.
Qed.
