(* ===== verification/ManagedConfig.v ===== *)
(** * Managed configuration: [luminated/src/managed_config/]

    The desired configuration that administrators patch at run time ([mod.rs], [patch.rs]),
    and the preferences that it overrides ([preferences.rs]).  Writing the file is an
    argument, the outcome of the save. *)

From S2P Require Import Prelude Model Normalize Toml Settings.
From stdpp Require Import sorting.

(** ** Data *)

Record ManagedDaemonConfig := {
  md_default_unsupported_policy : option UnsupportedPolicy;
  md_reconciliation_policy : option ReconciliationPolicy;
  md_device_reconciliation : gmap DeviceId ReconciliationPolicy;
  md_cct_emulation : option CctEmulation;
  md_prefer_shm : option bool;
  md_prefer_client_shm : option bool
}.

Record ManagedPluginConfig := {
  mp_name : string;
  mp_enabled : option bool;
  mp_reconciliation : option ReconciliationPolicy;
  mp_settings : Table
}.

Record ManagedConfig := {
  mc_revision : Z;
  mc_daemon : ManagedDaemonConfig;
  mc_plugins : list ManagedPluginConfig
}.

Record ManageablePlugin := {
  mn_name : string;
  mn_global_settings : Table;
  mn_locked_settings : list string;
  mn_schema : list PluginSettingSchema
}.

Record DeviceReconciliationPreference := {
  dp_device : DeviceId;
  dp_policy : ReconciliationPolicy
}.

Record DaemonPreferences := {
  pr_default_unsupported_policy : option UnsupportedPolicy;
  pr_reconciliation_policy : option ReconciliationPolicy;
  pr_device_reconciliation : list DeviceReconciliationPreference;
  pr_cct_emulation : option CctEmulation;
  pr_prefer_shm : option bool;
  pr_prefer_client_shm : option bool
}.

Inductive ManagementMutation :=
| SetDaemonPreferences (preferences : DaemonPreferences)
| SetPluginEnabled (plugin : string) (enabled : option bool)
| SetPluginReconciliation (plugin : string) (reconciliation : option ReconciliationPolicy)
| SetPluginSetting (plugin key : string) (value : SettingValue)
| ClearPluginSetting (plugin key : string).

Record ManagementPatch := {
  expected_revision : Z;
  mutations : list ManagementMutation
}.

Inductive ManagementChange :=
| DaemonPreferencesChanged (keys : list string)
| PluginActivationChanged (plugin : string)
| PluginReconciliationChanged (plugin : string)
| PluginSettingChanged (plugin key : string) (sensitive : bool).

Record ManagementChangeSet := {
  cs_revision : Z;
  cs_changes : list ManagementChange
}.

(** The fields of [DaemonConfig] that managed configuration reads or overrides. *)
Record DaemonConfig := {
  dc_locked_daemon_settings : list string;
  dc_default_unsupported_policy : UnsupportedPolicy;
  dc_reconciliation_policy : option ReconciliationPolicy;
  dc_device_reconciliation : gmap DeviceId ReconciliationPolicy;
  dc_cct_emulation : option CctEmulation;
  dc_prefer_shm : bool;
  dc_prefer_client_shm : bool
}.

Inductive ManagedPluginActivation := Activation_Managed | Activation_Enabled | Activation_Disabled.
Inductive PluginActivationMode := Mode_Explicit | Mode_HostAttached | Mode_All.
Record PluginActivationInputs := {
  pai_explicit : bool;
  pai_required : bool;
  pai_automatically_selected : bool
}.

#[export] Instance PluginActivationMode_eq : EqDecision PluginActivationMode.
Proof. solve_decision. Defined.

#[export] Instance UnsupportedPolicy_eq : EqDecision UnsupportedPolicy.
Proof. solve_decision. Defined.

(** ** Preferences: [preferences.rs] *)

Definition device_key_le (p q : DeviceId * ReconciliationPolicy) : Prop :=
  String.le (DeviceId_as_str p.1) (DeviceId_as_str q.1).
#[export] Instance device_key_le_dec : RelDecision device_key_le.
Proof. intros p q. unfold device_key_le. apply _. Defined.

Definition sorted_device_preferences (preferences : gmap DeviceId ReconciliationPolicy) :
    list DeviceReconciliationPreference :=
  (λ p, {| dp_device := p.1; dp_policy := p.2 |}) <$>
    merge_sort device_key_le (map_to_list preferences).

Definition daemon_preferences_from_managed (managed : ManagedDaemonConfig) : DaemonPreferences := {|
  pr_default_unsupported_policy := md_default_unsupported_policy managed;
  pr_reconciliation_policy := md_reconciliation_policy managed;
  pr_device_reconciliation := sorted_device_preferences (md_device_reconciliation managed);
  pr_cct_emulation := md_cct_emulation managed;
  pr_prefer_shm := md_prefer_shm managed;
  pr_prefer_client_shm := md_prefer_client_shm managed
|}.

Definition daemon_preferences_from_config (config : DaemonConfig) : DaemonPreferences := {|
  pr_default_unsupported_policy := Some (dc_default_unsupported_policy config);
  pr_reconciliation_policy := dc_reconciliation_policy config;
  pr_device_reconciliation := sorted_device_preferences (dc_device_reconciliation config);
  pr_cct_emulation := dc_cct_emulation config;
  pr_prefer_shm := Some (dc_prefer_shm config);
  pr_prefer_client_shm := Some (dc_prefer_client_shm config)
|}.

(** [collect()] into a map: the last entry of a device wins. *)
Definition managed_daemon_config (preferences : DaemonPreferences) : ManagedDaemonConfig := {|
  md_default_unsupported_policy := pr_default_unsupported_policy preferences;
  md_reconciliation_policy := pr_reconciliation_policy preferences;
  md_device_reconciliation :=
    foldl (λ m p, <[dp_device p := dp_policy p]> m) ∅ (pr_device_reconciliation preferences);
  md_cct_emulation := pr_cct_emulation preferences;
  md_prefer_shm := pr_prefer_shm preferences;
  md_prefer_client_shm := pr_prefer_client_shm preferences
|}.

Definition record_change {A} `{EqDecision A} (name : string) (previous next : A) : list string :=
  if bool_decide (previous = next) then [] else [name].

Definition record_scoped_changes (root : string) (previous next : gmap DeviceId ReconciliationPolicy) :
    list string :=
  let names := dedup_adjacent (merge_sort String.le
    (DeviceId_as_str <$> ((map_to_list previous).*1 ++ (map_to_list next).*1))) in
  names ≫= λ name, record_change (root ++ "." ++ name)%string
    (previous !! DeviceId_new name) (next !! DeviceId_new name).

Definition changed_daemon_preferences (previous next : ManagedDaemonConfig) : list string :=
  record_change "default_unsupported_policy" (md_default_unsupported_policy previous)
    (md_default_unsupported_policy next) ++
  record_change "reconciliation_policy" (md_reconciliation_policy previous)
    (md_reconciliation_policy next) ++
  record_scoped_changes "device_reconciliation" (md_device_reconciliation previous)
    (md_device_reconciliation next) ++
  record_change "cct_emulation" (md_cct_emulation previous) (md_cct_emulation next) ++
  record_change "prefer_shm" (md_prefer_shm previous) (md_prefer_shm next) ++
  record_change "prefer_client_shm" (md_prefer_client_shm previous) (md_prefer_client_shm next).

Definition merge_scoped_preferences (effective managed : gmap DeviceId ReconciliationPolicy)
    (locks : list string) (root : string) : gmap DeviceId ReconciliationPolicy :=
  foldl (λ effective '(k, value),
    if daemon_setting_locked locks (root ++ "." ++ DeviceId_as_str k)%string then effective
    else <[k := value]> effective) effective (merge_sort device_key_le (map_to_list managed)).

Definition override {A} (locks : list string) (name : string) (base : A) (managed : option A) : A :=
  if daemon_setting_locked locks name then base else default base managed.

Definition merge_daemon_preferences (global : DaemonConfig) (managed : ManagedDaemonConfig) :
    DaemonConfig :=
  let locks := dc_locked_daemon_settings global in {|
  dc_locked_daemon_settings := locks;
  dc_default_unsupported_policy := override locks "default_unsupported_policy"
    (dc_default_unsupported_policy global) (md_default_unsupported_policy managed);
  dc_reconciliation_policy := override locks "reconciliation_policy"
    (dc_reconciliation_policy global) (Some <$> md_reconciliation_policy managed);
  dc_device_reconciliation := merge_scoped_preferences (dc_device_reconciliation global)
    (md_device_reconciliation managed) locks "device_reconciliation";
  dc_cct_emulation := override locks "cct_emulation"
    (dc_cct_emulation global) (Some <$> md_cct_emulation managed);
  dc_prefer_shm := override locks "prefer_shm" (dc_prefer_shm global) (md_prefer_shm managed);
  dc_prefer_client_shm := override locks "prefer_client_shm"
    (dc_prefer_client_shm global) (md_prefer_client_shm managed)
|}.

Definition plugin_is_enabled (activation_mode : PluginActivationMode)
    (global_activation : ManagedPluginActivation) (managed : option ManagedPluginConfig)
    (inputs : PluginActivationInputs) : bool :=
  if pai_required inputs then true
  else match global_activation with
  | Activation_Enabled => true
  | Activation_Disabled => false
  | Activation_Managed =>
      match managed ≫= mp_enabled with
      | Some enabled => enabled
      | None =>
          pai_explicit inputs ||
          (negb (bool_decide (activation_mode = Mode_Explicit)) && pai_automatically_selected inputs)
      end
  end.

(** ** Patches: [patch.rs] and [mod.rs] *)

Definition require_plugin (plugins : list ManageablePlugin) (name : string) :
    result Text ManageablePlugin :=
  ok_or (List.find (λ plugin, bool_decide (mn_name plugin = name)) plugins)
    (Fmt "plugin {} is not installed" [AStr name]).

Definition empty_plugin (name : string) : ManagedPluginConfig :=
  {| mp_name := name; mp_enabled := None; mp_reconciliation := None; mp_settings := [] |}.

(** [managed_plugin_mut(config, name)?], updated by [f]: the first entry of that name, or a
    new one at the end. *)
Fixpoint update_plugins (plugins : list ManagedPluginConfig) (name : string)
    (f : ManagedPluginConfig → result Text ManagedPluginConfig) : result Text (list ManagedPluginConfig) :=
  match plugins with
  | [] => plugin ← f (empty_plugin name); Ok [plugin]
  | plugin :: plugins =>
      if bool_decide (mp_name plugin = name) then plugin ← f plugin; Ok (plugin :: plugins)
      else plugins ← update_plugins plugins name f; Ok (plugin :: plugins)
  end.
Definition managed_plugin_mut (config : ManagedConfig) (name : string)
    (f : ManagedPluginConfig → result Text ManagedPluginConfig) : result Text ManagedConfig :=
  plugins ← update_plugins (mc_plugins config) name f;
  Ok {| mc_revision := mc_revision config; mc_daemon := mc_daemon config; mc_plugins := plugins |}.

Definition set_enabled (p : ManagedPluginConfig) (v : option bool) : ManagedPluginConfig :=
  {| mp_name := mp_name p; mp_enabled := v; mp_reconciliation := mp_reconciliation p;
     mp_settings := mp_settings p |}.
Definition set_reconciliation (p : ManagedPluginConfig) (v : option ReconciliationPolicy) :
    ManagedPluginConfig :=
  {| mp_name := mp_name p; mp_enabled := mp_enabled p; mp_reconciliation := v;
     mp_settings := mp_settings p |}.
Definition set_settings (p : ManagedPluginConfig) (v : Table) : ManagedPluginConfig :=
  {| mp_name := mp_name p; mp_enabled := mp_enabled p; mp_reconciliation := mp_reconciliation p;
     mp_settings := v |}.

Definition find_setting (metadata : ManageablePlugin) (plugin key : string) :
    result Text PluginSettingSchema :=
  ok_or (declared (mn_schema metadata) key)
    (Fmt "plugin {} has no setting {}" [AStr plugin; AStr key]).

Definition apply_mutation (plugins : list ManageablePlugin)
    (acc : ManagedConfig * list ManagementChange) (mutation : ManagementMutation) :
    result Text (ManagedConfig * list ManagementChange) :=
  let '(config, changes) := acc in
  match mutation with
  | SetDaemonPreferences preferences =>
      let daemon := managed_daemon_config preferences in
      let keys := changed_daemon_preferences (mc_daemon config) daemon in
      Ok ({| mc_revision := mc_revision config; mc_daemon := daemon; mc_plugins := mc_plugins config |},
          changes ++ [DaemonPreferencesChanged keys])
  | SetPluginEnabled plugin enabled =>
      _ ← require_plugin plugins plugin;
      config ← managed_plugin_mut config plugin (λ p, Ok (set_enabled p enabled));
      Ok (config, changes ++ [PluginActivationChanged plugin])
  | SetPluginReconciliation plugin reconciliation =>
      _ ← require_plugin plugins plugin;
      config ← managed_plugin_mut config plugin (λ p, Ok (set_reconciliation p reconciliation));
      Ok (config, changes ++ [PluginReconciliationChanged plugin])
  | SetPluginSetting plugin key value =>
      metadata ← require_plugin plugins plugin;
      setting ← find_setting metadata plugin key;
      value ← setting_value_to_toml value;
      _ ← validate_setting_value setting value;
      config ← managed_plugin_mut config plugin (λ p,
        settings ← set_dotted_setting (mp_settings p) key value; Ok (set_settings p settings));
      Ok (config, changes ++ [PluginSettingChanged plugin key (sensitive setting)])
  | ClearPluginSetting plugin key =>
      metadata ← require_plugin plugins plugin;
      setting ← find_setting metadata plugin key;
      config ← managed_plugin_mut config plugin (λ p,
        Ok (set_settings p (clear_dotted_setting (mp_settings p) key)));
      Ok (config, changes ++ [PluginSettingChanged plugin key (sensitive setting)])
  end.

(** The names of the plugins are non-empty and distinct, the device identifiers non-empty. *)
Definition validate (config : ManagedConfig) : result Text unit :=
  _ ← try_for (λ device, ensure (negb (is_blank device))
        (Lit "daemon.device_reconciliation keys must not be empty"))
      (merge_sort String.le (DeviceId_as_str <$> (map_to_list (md_device_reconciliation (mc_daemon config))).*1));
  _ ← try_fold (λ names plugin,
        _ ← ensure (negb (is_blank (mp_name plugin))) (Lit "plugins[].name must not be empty");
        _ ← ensure (bool_decide (mp_name plugin ∉ names))
              (Fmt "duplicate managed plugin entry for {}" [AStr (mp_name plugin)]);
        Ok ({[mp_name plugin]} ∪ names)) (∅ : gset string) (mc_plugins config);
  Ok tt.

Definition validate_plugin_settings (plugins : list ManageablePlugin) (managed : ManagedPluginConfig) :
    result Text unit :=
  plugin ← require_plugin plugins (mp_name managed);
  _ ← map_err (Nested "validating settings for plugin {}" [AStr (mp_name managed)])
    (merge_plugin_settings (mn_global_settings plugin) (mp_settings managed)
      (mn_locked_settings plugin) (mn_schema plugin));
  Ok tt.
Definition validate_managed_plugin_settings (config : ManagedConfig) (plugins : list ManageablePlugin) :
    result Text unit :=
  try_for (validate_plugin_settings plugins) (mc_plugins config).

Inductive PrepareManagementPatchError :=
| Conflict (expected_revision current_revision : Z)
| Invalid (error : Text).

Record PreparedManagementPatch := {
  prepared_config : ManagedConfig;
  prepared_changes : ManagementChangeSet
}.

Definition set_revision (c : ManagedConfig) (v : Z) : ManagedConfig :=
  {| mc_revision := v; mc_daemon := mc_daemon c; mc_plugins := mc_plugins c |}.

Definition prepare_patch (config : ManagedConfig) (patch : ManagementPatch)
    (plugins : list ManageablePlugin) : result PrepareManagementPatchError PreparedManagementPatch :=
  if negb (expected_revision patch =? mc_revision config)%Z
  then Err (Conflict (expected_revision patch) (mc_revision config))
  else
    revision ← map_err Invalid (ok_or (checkU 64 (mc_revision config + 1))
      (Lit "managed configuration revision is exhausted"));
    r ← map_err Invalid (try_fold (apply_mutation plugins) (config, []) (mutations patch));
    let candidate := set_revision r.1 revision in
    _ ← map_err Invalid (validate candidate);
    _ ← map_err Invalid (validate_managed_plugin_settings candidate plugins);
    Ok {| prepared_config := candidate;
          prepared_changes := {| cs_revision := revision; cs_changes := r.2 |} |}.

(** [commit]: [saved] is the outcome of [save] once the candidate is valid. *)
Definition commit (prepared : PreparedManagementPatch) (saved : result Text unit)
    (current : ManagedConfig) : ManagedConfig * result Text ManagementChangeSet :=
  match (_ ← validate (prepared_config prepared); saved) with
  | Ok _ => (prepared_config prepared, Ok (prepared_changes prepared))
  | Err e => (current, Err e)
  end.

Record ManagementSnapshot := {
  ms_revision : Z;
  ms_desired_daemon : DaemonPreferences;
  ms_effective_daemon : DaemonPreferences;
  ms_locked_daemon_settings : list string
}.
Definition snapshot (config : ManagedConfig) (global : DaemonConfig) : ManagementSnapshot := {|
  ms_revision := mc_revision config;
  ms_desired_daemon := daemon_preferences_from_managed (mc_daemon config);
  ms_effective_daemon := daemon_preferences_from_config (merge_daemon_preferences global (mc_daemon config));
  ms_locked_daemon_settings := dc_locked_daemon_settings global
|}.

(** One request: what [patch_management] of [daemon/dispatch/management.rs] does while it
    holds the lock of the managed configuration. *)
Inductive PatchError :=
| Refused (error : PrepareManagementPatchError)
| NotSaved (error : Text).

Record Attempt := {
  at_patch : ManagementPatch;
  at_plugins : list ManageablePlugin;
  at_saved : result Text unit
}.

Definition patch_config (managed : ManagedConfig) (a : Attempt) :
    ManagedConfig * result PatchError ManagementChangeSet :=
  match prepare_patch managed (at_patch a) (at_plugins a) with
  | Err e => (managed, Err (Refused e))
  | Ok prepared =>
      let '(managed, r) := commit prepared (at_saved a) managed in (managed, map_err NotSaved r)
  end.

(** Requests one after the other, with what each of them commits. *)
Fixpoint run_attempts (managed : ManagedConfig) (attempts : list Attempt) :
    ManagedConfig * list (Attempt * ManagementChangeSet) :=
  match attempts with
  | [] => (managed, [])
  | a :: attempts =>
      let '(managed, r) := patch_config managed a in
      let '(managed, committed) := run_attempts managed attempts in
      (managed, match r with Ok changes => (a, changes) :: committed | Err _ => committed end)
  end.

(** ** Preferences *)

Lemma elem_of_record_change {A} `{EqDecision A} x name (previous next : A) :
  x ∈ record_change name previous next ↔ x = name ∧ previous ≠ next.
Proof.
  unfold record_change. case_bool_decide; [rewrite elem_of_nil|rewrite list_elem_of_singleton]; tauto.
Qed.

Lemma string_app_inj (a b c : string) : (a ++ b)%string = (a ++ c)%string → b = c.
Proof. induction a as [|x a IH]; [done|]. intros [= H]. by apply IH. Qed.

Definition scoped (root : string) (device : DeviceId) : string :=
  (root ++ "." ++ DeviceId_as_str device)%string.

Lemma scoped_inj root d d' : scoped root d = scoped root d' → d = d'.
Proof.
  unfold scoped. intros H%string_app_inj%string_app_inj. destruct d, d'. simpl in *. by subst.
Qed.

Lemma elem_of_record_scoped_changes x root previous next :
  x ∈ record_scoped_changes root previous next ↔
  ∃ device, x = scoped root device ∧ previous !! device ≠ next !! device.
Proof.
  unfold record_scoped_changes. rewrite list_elem_of_bind. split.
  - intros (name & [-> Hne]%elem_of_record_change & _). by exists (DeviceId_new name).
  - intros (device & -> & Hne). exists (DeviceId_as_str device). split.
    + apply elem_of_record_change. by destruct device.
    + rewrite elem_of_dedup_adjacent, merge_sort_Permutation. apply list_elem_of_fmap_2.
      rewrite elem_of_app. destruct (previous !! device) as [v|] eqn:Hp; [left|right].
      * apply list_elem_of_fmap. exists (device, v). by rewrite elem_of_map_to_list.
      * destruct (next !! device) as [v|] eqn:Hn; [|done]. apply list_elem_of_fmap.
        exists (device, v). by rewrite elem_of_map_to_list.
Qed.

(** One preference by its serialized name. *)
Inductive Preference :=
| P_UnsupportedPolicy | P_ReconciliationPolicy | P_Device (device : DeviceId)
| P_CctEmulation | P_PreferShm | P_PreferClientShm.
Definition preference_name (p : Preference) : string :=
  match p with
  | P_UnsupportedPolicy => "default_unsupported_policy"
  | P_ReconciliationPolicy => "reconciliation_policy"
  | P_Device device => scoped "device_reconciliation" device
  | P_CctEmulation => "cct_emulation"
  | P_PreferShm => "prefer_shm"
  | P_PreferClientShm => "prefer_client_shm"
  end.
Definition same_preference (p : Preference) (c d : ManagedDaemonConfig) : Prop :=
  match p with
  | P_UnsupportedPolicy => md_default_unsupported_policy c = md_default_unsupported_policy d
  | P_ReconciliationPolicy => md_reconciliation_policy c = md_reconciliation_policy d
  | P_Device device => md_device_reconciliation c !! device = md_device_reconciliation d !! device
  | P_CctEmulation => md_cct_emulation c = md_cct_emulation d
  | P_PreferShm => md_prefer_shm c = md_prefer_shm d
  | P_PreferClientShm => md_prefer_client_shm c = md_prefer_client_shm d
  end.

(** The reported keys are exactly the names of the preferences that differ. *)
Theorem changed_preferences_exact previous next name :
  name ∈ changed_daemon_preferences previous next ↔
  ∃ p, name = preference_name p ∧ ¬ same_preference p previous next.
Proof.
  unfold changed_daemon_preferences.
  rewrite !elem_of_app, !elem_of_record_change, elem_of_record_scoped_changes. split.
  - intros [[-> ?]|[[-> ?]|[(d & -> & ?)|[[-> ?]|[[-> ?]|[-> ?]]]]]].
    + by exists P_UnsupportedPolicy.
    + by exists P_ReconciliationPolicy.
    + by exists (P_Device d).
    + by exists P_CctEmulation.
    + by exists P_PreferShm.
    + by exists P_PreferClientShm.
  - intros ([| |d| | |] & -> & Hne); simpl in *; try tauto.
    right; right; left. by exists d.
Qed.

Lemma merge_scoped_lookup effective managed locks root device :
  merge_scoped_preferences effective managed locks root !! device =
  match managed !! device with
  | Some v => if daemon_setting_locked locks (scoped root device) then effective !! device else Some v
  | None => effective !! device
  end.
Proof.
  unfold merge_scoped_preferences.
  assert (∀ l (m : gmap DeviceId ReconciliationPolicy), NoDup l.*1 →
    foldl (λ effective '(k, value),
      if daemon_setting_locked locks (root ++ "." ++ DeviceId_as_str k)%string then effective
      else <[k := value]> effective) m l !! device =
    match list_to_map (M := gmap DeviceId ReconciliationPolicy) l !! device with
    | Some v => if daemon_setting_locked locks (scoped root device) then m !! device else Some v
    | None => m !! device
    end) as Hl.
  { induction l as [|[k v] l IH]; intros m Hnd; cbn [foldl]; [done|].
    cbn [fmap list_fmap] in Hnd. apply NoDup_cons in Hnd as [Hk Hnd]. rewrite IH by done.
    cbn. destruct (decide (k = device)) as [->|Hne].
    - rewrite lookup_insert_eq, not_elem_of_list_to_map_1 by done. unfold scoped.
      destruct (daemon_setting_locked _ _); [done|by rewrite lookup_insert_eq].
    - rewrite lookup_insert_ne by done. destruct (list_to_map l !! device);
        repeat case_match; rewrite ?lookup_insert_ne by done; done. }
  rewrite Hl by (rewrite merge_sort_Permutation; apply NoDup_fst_map_to_list).
  rewrite (list_to_map_proper _ (map_to_list managed)), list_to_map_to_list; [done| |].
  - rewrite merge_sort_Permutation. apply NoDup_fst_map_to_list.
  - apply merge_sort_Permutation.
Qed.

(** The value of a preference in a configuration is the one of another, or the override. *)
Definition keeps (p : Preference) (c global : DaemonConfig) : Prop :=
  match p with
  | P_UnsupportedPolicy => dc_default_unsupported_policy c = dc_default_unsupported_policy global
  | P_ReconciliationPolicy => dc_reconciliation_policy c = dc_reconciliation_policy global
  | P_Device d => dc_device_reconciliation c !! d = dc_device_reconciliation global !! d
  | P_CctEmulation => dc_cct_emulation c = dc_cct_emulation global
  | P_PreferShm => dc_prefer_shm c = dc_prefer_shm global
  | P_PreferClientShm => dc_prefer_client_shm c = dc_prefer_client_shm global
  end.
Definition overridden (p : Preference) (c : DaemonConfig) (managed : ManagedDaemonConfig) : Prop :=
  match p with
  | P_UnsupportedPolicy => md_default_unsupported_policy managed = Some (dc_default_unsupported_policy c)
  | P_ReconciliationPolicy => is_Some (md_reconciliation_policy managed) ∧
      dc_reconciliation_policy c = md_reconciliation_policy managed
  | P_Device d => is_Some (md_device_reconciliation managed !! d) ∧
      dc_device_reconciliation c !! d = md_device_reconciliation managed !! d
  | P_CctEmulation => is_Some (md_cct_emulation managed) ∧ dc_cct_emulation c = md_cct_emulation managed
  | P_PreferShm => md_prefer_shm managed = Some (dc_prefer_shm c)
  | P_PreferClientShm => md_prefer_client_shm managed = Some (dc_prefer_client_shm c)
  end.
Definition is_set (p : Preference) (managed : ManagedDaemonConfig) : Prop :=
  match p with
  | P_UnsupportedPolicy => is_Some (md_default_unsupported_policy managed)
  | P_ReconciliationPolicy => is_Some (md_reconciliation_policy managed)
  | P_Device d => is_Some (md_device_reconciliation managed !! d)
  | P_CctEmulation => is_Some (md_cct_emulation managed)
  | P_PreferShm => is_Some (md_prefer_shm managed)
  | P_PreferClientShm => is_Some (md_prefer_client_shm managed)
  end.

Ltac option_cases o :=
  destruct o; split; intros H; simpl;
  first [done | by destruct H as [? ?] | by (split; [eauto|]) | by (destruct H; eauto)].

(** A locked preference, or one that is not overridden, keeps its global value; any other one
    takes the managed value. *)
Theorem merge_daemon_preferences_correct global managed p :
  let effective := merge_daemon_preferences global managed in
  if daemon_setting_locked (dc_locked_daemon_settings global) (preference_name p)
  then keeps p effective global
  else (is_set p managed → overridden p effective managed) ∧ (¬ is_set p managed → keeps p effective global).
Proof.
  cbv zeta. destruct (daemon_setting_locked _ _) eqn:Hl; destruct p as [| |d| | |]; simpl in *;
    unfold override; rewrite ?Hl; try done.
  1: { rewrite merge_scoped_lookup, Hl. by destruct (_ !! d). }
  all: try (rewrite merge_scoped_lookup, Hl).
  - option_cases (md_default_unsupported_policy managed).
  - option_cases (md_reconciliation_policy managed).
  - option_cases (md_device_reconciliation managed !! d).
  - option_cases (md_cct_emulation managed).
  - option_cases (md_prefer_shm managed).
  - option_cases (md_prefer_client_shm managed).
Qed.

(** ** Patches *)

Lemma prepare_patch_Ok config patch plugins prepared :
  prepare_patch config patch plugins = Ok prepared ↔
  expected_revision patch = mc_revision config ∧ u64 (mc_revision config + 1) ∧
  ∃ candidate changes,
    try_fold (apply_mutation plugins) (config, []) (mutations patch) = Ok (candidate, changes) ∧
    prepared = {| prepared_config := set_revision candidate (mc_revision config + 1);
                  prepared_changes := {| cs_revision := mc_revision config + 1; cs_changes := changes |} |} ∧
    validate (prepared_config prepared) = Ok tt ∧
    validate_managed_plugin_settings (prepared_config prepared) plugins = Ok tt.
Proof.
  unfold prepare_patch. destruct (expected_revision patch =? mc_revision config)%Z eqn:E; simpl.
  2: { apply Z.eqb_neq in E. split; [done|]. by intros [? _]. }
  apply Z.eqb_eq in E. split.
  - intros (r & Hr & H)%bind_Ok. rewrite map_err_Ok, ok_or_Ok, checkU_Some in Hr.
    destruct Hr as [-> Hr]. apply bind_Ok in H as ([candidate changes] & Hf & H).
    rewrite map_err_Ok in Hf. apply bind_unit_Ok in H as [Hv H]. apply bind_unit_Ok in H as [Hs [= <-]].
    rewrite map_err_Ok in Hv, Hs. do 2 (split; [done|]). by exists candidate, changes.
  - intros (_ & Hr & candidate & changes & Hf & -> & Hv & Hs). simpl in *.
    rewrite (checkU_ok 64 _ Hr), Hf. simpl. by rewrite Hv, Hs.
Qed.

Lemma patch_config_Ok managed a managed' changes :
  patch_config managed a = (managed', Ok changes) →
  expected_revision (at_patch a) = mc_revision managed ∧
  cs_revision changes = (mc_revision managed + 1)%Z ∧ mc_revision managed' = cs_revision changes ∧
  u64 (mc_revision managed') ∧ at_saved a = Ok tt ∧
  validate managed' = Ok tt ∧ validate_managed_plugin_settings managed' (at_plugins a) = Ok tt.
Proof.
  unfold patch_config. destruct (prepare_patch _ _ _) as [prepared|] eqn:Hp; [|done].
  apply prepare_patch_Ok in Hp as (He & Hr & candidate & chs & _ & -> & Hv & Hs).
  unfold commit. rewrite Hv. simpl. destruct (at_saved a) as [[]|]; simpl; [|done].
  intros [= <- <-]. done.
Qed.

Lemma patch_config_Err managed a managed' e :
  patch_config managed a = (managed', Err e) → managed' = managed.
Proof.
  unfold patch_config, commit. destruct (prepare_patch _ _ _) as [prepared|]; [|congruence].
  destruct (mbind _ _); simpl; congruence.
Qed.

(** The stored configuration is consistent with the plugins of the last commit. *)
Definition consistent (managed : ManagedConfig) (plugins : list ManageablePlugin) : Prop :=
  validate managed = Ok tt ∧ validate_managed_plugin_settings managed plugins = Ok tt.

(** C12: Patches are serialised by the revision: in any sequence of requests, of which any may be
    stale, invalid or fail to be saved, the n-th one to be committed was prepared against
    exactly the configuration that the one before it left, got the next revision, and was
    saved; the requests that were refused changed nothing; and after a commit the
    configuration is valid for the plugins that were installed. *)
Theorem patches_serialised managed attempts :
  let '(managed', committed) := run_attempts managed attempts in
  (cs_revision ∘ snd <$> committed) = seqZ (mc_revision managed + 1) (Z.of_nat (length committed)) ∧
  Forall (λ p, expected_revision (at_patch p.1) = (cs_revision p.2 - 1)%Z ∧ at_saved p.1 = Ok tt) committed ∧
  mc_revision managed' = (mc_revision managed + Z.of_nat (length committed))%Z ∧
  match last committed with
  | Some (a, _) => consistent managed' (at_plugins a)
  | None => managed' = managed
  end.
Proof.
  revert managed. induction attempts as [|a attempts IH]; intros managed; simpl.
  { split; [done|]. split; [constructor|]. split; [lia|done]. }
  destruct (patch_config managed a) as [managed1 r] eqn:Hp. specialize (IH managed1).
  destruct (run_attempts managed1 attempts) as [managed' committed]. destruct IH as (H1 & H2 & H3 & H4).
  destruct r as [changes|e].
  - apply patch_config_Ok in Hp as (He & Hc & Hr & _ & Hs & Hv). split; [|split; [|split]].
    + rewrite fmap_cons, H1. cbn [length]. rewrite Nat2Z.inj_succ, (seqZ_cons _ (Z.succ _)) by lia.
      f_equal; [done|]. f_equal; lia.
    + constructor; [|done]. simpl. split; [lia|done].
    + simpl. lia.
    + rewrite last_cons. destruct (last committed) as [[a' ?]|]; [done|]. by subst managed'.
  - apply patch_config_Err in Hp as ->. done.
Qed.

(** ** Settings *)

Definition settings_of (config : ManagedConfig) (name : string) : Table :=
  from_option mp_settings [] (List.find (λ p, bool_decide (mp_name p = name)) (mc_plugins config)).

(** The settings that an installed plugin gets. *)
Definition effective_settings (config : ManagedConfig) (plugin : ManageablePlugin) : result Text Table :=
  merge_plugin_settings (mn_global_settings plugin) (settings_of config (mn_name plugin))
    (mn_locked_settings plugin) (mn_schema plugin).

Lemma update_plugins_find plugins name f plugins' :
  (∀ p p', f p = Ok p' → mp_name p' = mp_name p) → update_plugins plugins name f = Ok plugins' →
  (∃ p', f (default (empty_plugin name) (List.find (λ p, bool_decide (mp_name p = name)) plugins)) = Ok p' ∧
    List.find (λ p, bool_decide (mp_name p = name)) plugins' = Some p') ∧
  ∀ other, other ≠ name → List.find (λ p, bool_decide (mp_name p = other)) plugins' =
    List.find (λ p, bool_decide (mp_name p = other)) plugins.
Proof.
  intros Hname. revert plugins'. induction plugins as [|p plugins IH]; intros plugins'; simpl.
  - intros (p' & Hf & [= <-])%bind_Ok. pose proof (Hname _ _ Hf) as Hn. simpl in Hn. split.
    + exists p'. split; [done|]. simpl. by rewrite bool_decide_eq_true_2.
    + intros other Hne. simpl. rewrite bool_decide_eq_false_2; [done|]. congruence.
  - case_bool_decide as Hp.
    + intros (p' & Hf & [= <-])%bind_Ok. pose proof (Hname _ _ Hf) as Hn. split.
      * exists p'. split; [done|]. simpl. rewrite bool_decide_eq_true_2 by congruence. done.
      * intros other Hne. simpl. rewrite !bool_decide_eq_false_2 by congruence. done.
    + intros (plugins1 & Hu & [= <-])%bind_Ok. destruct (IH _ Hu) as [(p' & Hf & Hfind) Hother]. split.
      * exists p'. split; [done|]. simpl. by rewrite bool_decide_eq_false_2.
      * intros other Hne. simpl. case_bool_decide; [done|by apply Hother].
Qed.

Lemma require_plugin_Ok plugins name plugin :
  require_plugin plugins name = Ok plugin → mn_name plugin = name.
Proof. unfold require_plugin. rewrite ok_or_Ok. intros [_ H]%find_some. by bool_prop. Qed.

Lemma validated_settings config plugins plugin p :
  validate_managed_plugin_settings config plugins = Ok tt →
  require_plugin plugins (mn_name plugin) = Ok plugin →
  List.find (λ p, bool_decide (mp_name p = mn_name plugin)) (mc_plugins config) = Some p →
  ∃ merged, effective_settings config plugin = Ok merged.
Proof.
  intros Hv Hreq Hfind. unfold effective_settings, settings_of. rewrite Hfind. simpl.
  apply try_for_Ok in Hv. rewrite Forall_forall in Hv.
  apply find_some in Hfind as [Hin Hn]. bool_prop. apply list_elem_of_In in Hin.
  specialize (Hv p Hin). cbn beta in Hv. unfold validate_plugin_settings in Hv.
  rewrite Hn, Hreq in Hv. simpl in Hv. apply bind_Ok in Hv as (merged & Hm & _).
  rewrite map_err_Ok in Hm. eauto.
Qed.

Lemma resolved_declared global managed locked schema g m k v :
  settings_ok global managed locked schema g m → resolved schema locked g m k = Some v →
  ∃ s, declared schema k = Some s.
Proof.
  intros [Hs _ _ Hg Hm _] Hr. unfold resolved, base_value in Hr.
  destruct (m !! k) as [w|] eqn:Em; [destruct (Hm k w Em) as (s & ? & _); eauto|].
  destruct (g !! k) as [w|] eqn:Eg; [destruct (Hg k w Eg) as (s & ? & _); eauto|].
  apply bind_Some in Hr as (s & ? & _). eauto.
Qed.

(** The merges before and after setting one key. *)
Lemma set_setting_merged global t t' locked schema key v before after :
  table_wf t → is_table v = false → set_dotted_setting t key v = Ok t' →
  is_Some (declared schema key) →
  merge_plugin_settings global t locked schema = Ok before →
  merge_plugin_settings global t' locked schema = Ok after →
  ∀ path w, path ≠ split_dot key ∨ daemon_setting_locked locked key = true →
    leaf_at after path w ↔ leaf_at before path w.
Proof.
  intros Hwf Hv Hset [s Hs] Hb Ha path w Hpath.
  pose proof (merge_plugin_settings_correct global t locked schema) as Mb. rewrite Hb in Mb.
  pose proof (merge_plugin_settings_correct global t' locked schema) as Ma. rewrite Ha in Ma.
  destruct Mb as (g & m & Hok & Lb), Ma as (g' & m' & Hok' & La).
  assert (g' = g) as -> by (destruct Hok, Hok'; congruence).
  destruct (set_setting_flat t key v t' m m' Hwf Hv Hset (sk_managed _ _ _ _ _ _ Hok)
    (sk_managed _ _ _ _ _ _ Hok')) as (_ & Hk & Hother).
  rewrite La, Lb.
  assert (∀ k, is_Some (declared schema k) → k ≠ key ∨ daemon_setting_locked locked key = true →
    resolved schema locked g m' k = resolved schema locked g m k) as Heq.
  { intros k [s' Hs'] Hne. destruct (decide (k = key)) as [->|Hneq].
    - destruct Hne as [?|Hlock]; [done|]. unfold resolved. rewrite Hk, Hlock. by destruct (m !! key).
    - unfold resolved. rewrite Hother; [done|].
      by eapply schema_disjoint; [exact (sk_schema _ _ _ _ _ _ Hok)|exact Hs|exact Hs'|]. }
  split; intros (k & -> & Hr); exists k; (split; [done|]).
  - rewrite <-Heq; [done|exact (resolved_declared _ _ _ _ _ _ _ _ Hok' Hr)|].
    destruct Hpath; [left; congruence|by right].
  - rewrite Heq; [done|exact (resolved_declared _ _ _ _ _ _ _ _ Hok Hr)|].
    destruct Hpath; [left; congruence|by right].
Qed.

(** C21: A patch that sets one setting of a plugin makes the plugin get the new value, unless the
    setting is locked, and changes nothing else that it or another plugin gets. *)
Theorem set_setting_takes_effect config patch plugins plugin prepared key value v :
  mutations patch = [SetPluginSetting (mn_name plugin) key value] →
  require_plugin plugins (mn_name plugin) = Ok plugin → setting_value_to_toml value = Ok v →
  table_wf (settings_of config (mn_name plugin)) →
  prepare_patch config patch plugins = Ok prepared →
  let config' := prepared_config prepared in
  ∃ after, effective_settings config' plugin = Ok after ∧
    (daemon_setting_locked (mn_locked_settings plugin) key = false → leaf_at after (split_dot key) v) ∧
    (∀ before, effective_settings config plugin = Ok before → ∀ path w,
      path ≠ split_dot key ∨ daemon_setting_locked (mn_locked_settings plugin) key = true →
      leaf_at after path w ↔ leaf_at before path w) ∧
    (∀ other, other ≠ mn_name plugin → settings_of config' other = settings_of config other) ∧
    mc_daemon config' = mc_daemon config.
Proof.
  intros Hmut Hreq Hv Hwf (_ & _ & candidate & changes & Hf & -> & Hval & Hsettings)%prepare_patch_Ok.
  cbv zeta. simpl in *. rewrite Hmut in Hf. cbn [try_fold] in Hf. apply bind_Ok in Hf as (r & Hf & [= ->]).
  unfold apply_mutation in Hf. rewrite Hreq in Hf. simpl in Hf.
  apply bind_Ok in Hf as (setting & Hset & Hf). rewrite Hv in Hf. simpl in Hf.
  apply bind_unit_Ok in Hf as [Hvalid Hf]. apply bind_Ok in Hf as (config1 & Hm & [= <- <-]).
  unfold managed_plugin_mut in Hm. apply bind_Ok in Hm as (plugins1 & Hu & [= <-]). simpl in *.
  apply update_plugins_find in Hu as [(p' & Hp' & Hfind) Hother].
  2: { intros p p' (? & _ & [= <-])%bind_Ok. done. }
  apply bind_Ok in Hp' as (t' & Ht' & [= <-]).
  assert (mp_settings (default (empty_plugin (mn_name plugin))
    (List.find (λ p, bool_decide (mp_name p = mn_name plugin)) (mc_plugins config))) =
    settings_of config (mn_name plugin)) as Hold.
  { unfold settings_of. by destruct (List.find _ _). }
  rewrite Hold in Ht'. unfold find_setting in Hset. rewrite ok_or_Ok in Hset.
  destruct (validated_settings _ _ plugin _ Hsettings Hreq Hfind) as [after Hafter].
  pose proof (valid_leaf _ _ Hvalid) as Hleaf. exists after. split; [exact Hafter|].
  unfold effective_settings, settings_of in Hafter. simpl in Hafter. rewrite Hfind in Hafter. simpl in Hafter.
  split; [|split; [|split]].
  - intros Hlock. pose proof (merge_plugin_settings_correct (mn_global_settings plugin) t'
      (mn_locked_settings plugin) (mn_schema plugin)) as M. rewrite Hafter in M.
    destruct M as (g & m & Hok & La). apply La. exists key. split; [done|].
    pose proof (set_dotted_setting_leaves _ _ _ _ Hleaf Ht' (split_dot key) v) as Hl.
    assert (table_wf t') as Hwf'.
    { apply bind_unit_Ok in Ht' as [_ Hins]. eapply table_wf_insert_in; [|by apply wf_leaf|exact Hins].
      by apply table_wf_remove_in. }
    assert (m !! key = Some v) as Hm'.
    { apply (flatten_settings_spec t' m Hwf' (sk_managed _ _ _ _ _ _ Hok)). exists (split_dot key).
      rewrite join_split. split; [|done]. apply Hl. by left. }
    unfold resolved. by rewrite Hm', Hlock.
  - intros before Hbefore path w Hpath. unfold effective_settings in Hbefore.
    by eapply set_setting_merged.
  - intros other Hne. unfold settings_of. simpl. by rewrite Hother.
  - done.
Qed.

(** ** Uninstalled plugins *)

Lemma update_plugins_names plugins name f plugins' :
  (∀ p p', f p = Ok p' → mp_name p' = mp_name p) → update_plugins plugins name f = Ok plugins' →
  ∀ n, n ∈ mp_name <$> plugins → n ∈ mp_name <$> plugins'.
Proof.
  intros Hname. revert plugins'. induction plugins as [|p plugins IH]; intros plugins'; simpl.
  { intros _ n ?%not_elem_of_nil. done. }
  case_bool_decide.
  - intros (p' & Hf & [= <-])%bind_Ok n. apply Hname in Hf. simpl. by rewrite Hf.
  - intros (plugins1 & Hu & [= <-])%bind_Ok n. simpl. rewrite !elem_of_cons. naive_solver.
Qed.

Lemma apply_mutation_names plugins acc mutation acc' :
  apply_mutation plugins acc mutation = Ok acc' →
  ∀ n, n ∈ mp_name <$> mc_plugins acc.1 → n ∈ mp_name <$> mc_plugins acc'.1.
Proof.
  destruct acc as [config changes]. destruct mutation; cbn [apply_mutation]; intros H n Hn.
  1: by injection H as <-.
  all: repeat (apply bind_Ok in H as (? & ? & H)); injection H as <-; simpl.
  all: match goal with H : managed_plugin_mut _ _ _ = Ok _ |- _ =>
      apply bind_Ok in H as (? & Hu & [= <-]) end; simpl.
  all: eapply (update_plugins_names _ _ _ _ _ Hu); exact Hn.
  Unshelve. all: intros p p'; try (by intros [= <-]); by intros (? & _ & [= <-])%bind_Ok.
Qed.

(** Once the managed configuration has an entry for a plugin that is no longer installed,
    every patch is refused, also those that concern other plugins or the daemon; and no
    mutation removes an entry. *)
Theorem uninstalled_plugin_blocks_patches config patch plugins entry :
  entry ∈ mc_plugins config → (∀ plugin, plugin ∈ plugins → mn_name plugin ≠ mp_name entry) →
  ∃ e, prepare_patch config patch plugins = Err e.
Proof.
  intros Hin Hnone. destruct (prepare_patch config patch plugins) as [prepared|e] eqn:Hp; [|eauto].
  apply prepare_patch_Ok in Hp as (_ & _ & candidate & changes & Hf & -> & _ & Hs). exfalso.
  assert (mp_name entry ∈ mp_name <$> mc_plugins (candidate, changes).1) as Hn.
  { eapply (try_fold_ind (λ acc, mp_name entry ∈ mp_name <$> mc_plugins acc.1)); [|..|exact Hf].
    - by apply list_elem_of_fmap_2.
    - intros acc mutation acc' _ Hacc Hstep. by eapply apply_mutation_names. }
  apply list_elem_of_fmap in Hn as (p & Hname & Hp). apply try_for_Ok in Hs.
  rewrite Forall_forall in Hs. specialize (Hs p Hp). apply bind_Ok in Hs as (plugin & Hreq & _).
  unfold require_plugin in Hreq. apply ok_or_Ok in Hreq. apply find_some in Hreq as [Hpl Heq].
  bool_prop. apply list_elem_of_In in Hpl. apply (Hnone plugin Hpl). congruence.
Qed.

(** ** A plugin with two settings *)

Module Hue.
Definition host : PluginSettingSchema := {|
  key := "bridge.host"; kind := Kind_String; default_value := None; required := false;
  sensitive := false; minimum := None; maximum := None; constraints := None |}.
Definition rate : PluginSettingSchema := {|
  key := "rate"; kind := Kind_Integer; default_value := Some (V_Integer 10); required := true;
  sensitive := false; minimum := Some (f64_of_i64 1); maximum := Some (f64_of_i64 50);
  constraints := None |}.
Definition plugin : ManageablePlugin := {|
  mn_name := "hue"; mn_global_settings := []; mn_locked_settings := []; mn_schema := [host; rate] |}.
Definition no_preferences : ManagedDaemonConfig := {|
  md_default_unsupported_policy := None; md_reconciliation_policy := None;
  md_device_reconciliation := ∅; md_cct_emulation := None; md_prefer_shm := None;
  md_prefer_client_shm := None |}.
Definition config : ManagedConfig := {|
  mc_revision := 4; mc_daemon := no_preferences; mc_plugins := [] |}.
Definition patch : ManagementPatch := {|
  expected_revision := 4;
  mutations := [SetPluginSetting "hue" "bridge.host" (Setting_String "10.0.0.2")] |}.
Definition prepared : PreparedManagementPatch := {|
  prepared_config := {| mc_revision := 5; mc_daemon := no_preferences;
    mc_plugins := [{| mp_name := "hue"; mp_enabled := None; mp_reconciliation := None;
      mp_settings := [("bridge", V_Table [("host", V_String "10.0.0.2")])] |}] |};
  prepared_changes := {| cs_revision := 5;
    cs_changes := [PluginSettingChanged "hue" "bridge.host" false] |} |}%string.
Definition removed : ManagedPluginConfig := empty_plugin "gone".
Definition stale_config : ManagedConfig :=
  {| mc_revision := 4; mc_daemon := no_preferences; mc_plugins := [removed] |}.
End Hue.

Example out_of_bounds : is_ok (prepare_patch Hue.config
  {| expected_revision := 4; mutations := [SetPluginSetting "hue" "rate" (Setting_Integer 51)] |}
  [Hue.plugin]) = false.
Proof. vm_compute. reflexivity. Qed.

Lemma set_setting_takes_effect_witness :
  prepare_patch Hue.config Hue.patch [Hue.plugin] = Ok Hue.prepared ∧
  ∃ after, effective_settings (prepared_config Hue.prepared) Hue.plugin = Ok after ∧
    leaf_at after ["bridge"; "host"]%string (V_String "10.0.0.2").
Proof.
  assert (prepare_patch Hue.config Hue.patch [Hue.plugin] = Ok Hue.prepared) as Hp by (vm_compute; reflexivity).
  split; [exact Hp|].
  destruct (set_setting_takes_effect Hue.config Hue.patch [Hue.plugin] Hue.plugin Hue.prepared
    "bridge.host" (Setting_String "10.0.0.2") (V_String "10.0.0.2")) as (after & Ha & Hl & _).
  - reflexivity.
  - vm_compute; reflexivity.
  - reflexivity.
  - apply wf_table; [constructor|discriminate].
  - exact Hp.
  - exists after. split; [exact Ha|]. apply Hl. vm_compute; reflexivity.
Defined.

Lemma uninstalled_plugin_blocks_patches_witness :
  ∃ e, prepare_patch Hue.stale_config Hue.patch [Hue.plugin] = Err e.
Proof.
  apply (uninstalled_plugin_blocks_patches Hue.stale_config Hue.patch [Hue.plugin] Hue.removed).
  - apply list_elem_of_singleton; reflexivity.
  - intros plugin ->%list_elem_of_singleton. vm_compute. discriminate.
Defined.
