(* ===== verification/Setup.v ===== *)
(** * Interactive plugin setup: [plugins/setup.rs] and [daemon/dispatch/setup.rs]

    A setup session is a conversation between a client and a plugin: the daemon runs one
    isolated step of the plugin at a time, keeps what the plugin wants to remember, and at
    the end patches the managed configuration with the settings that the plugin returns.
    Requests interleave at the locks of the sessions and of the managed configuration; the
    steps of the plugin, the clock and the random numbers are arguments. *)

From S2P Require Import Prelude Model Normalize Daemon Authorization Toml Settings ManagedConfig.

(** ** Protocol: [luminate-protocol/src/setup.rs] and [luminate-plugin-api/src/setup.rs] *)

Record PluginSetupChoice := {
  ch_id : string;
  ch_label : string;
  ch_description : option string
}.

Inductive PluginSetupSessionState :=
| State_Choice (prompt : string) (choices : list PluginSetupChoice)
| State_PhysicalAction (instruction : string)
| State_Applying
| State_Completed (summary : string) (revision : Z)
| State_Failed (diagnostic : Text)
| State_Cancelled.

Record PluginSetupSession := {
  ss_id : string;
  ss_plugin : string;
  ss_workflow : string;
  ss_generation : Z;
  ss_state : PluginSetupSessionState
}.

Inductive PluginSetupInteractionResponse := Answer_Choice (choice : string) | Answer_Confirmed.
Inductive PluginSetupResponse := Plugin_Choice (choice : string) | Plugin_Confirmed.

Record PluginSetupRequest := {
  rq_workflow : string;
  rq_continuation : list Z;
  rq_response : option PluginSetupResponse
}.

Inductive PluginSetupInteraction :=
| Ask_Choice (prompt : string) (choices : list PluginSetupChoice)
| Ask_PhysicalAction (instruction : string).

Inductive PluginSetupSettingValue :=
| Plugin_Boolean (b : bool)
| Plugin_Integer (z : Z)
| Plugin_Number (f : f64)
| Plugin_String (s : string)
| Plugin_Array (vs : list PluginSetupSettingValue)
| Plugin_Table (t : list (string * PluginSetupSettingValue)).

Inductive PluginSetupStep :=
| Interaction (continuation : list Z) (interaction : PluginSetupInteraction)
| Complete (settings : list (string * PluginSetupSettingValue)) (summary : string).

(** ** Sessions *)

Definition SESSION_LIFETIME : Z := 10 * 60 * 1000000000.
Definition MAX_ACTIVE_SESSIONS : nat := 64.

Inductive ExpectedResponse := Expected_Choice | Expected_Confirmation.

Record SetupSessionRecord := {
  sr_snapshot : PluginSetupSession;
  sr_owner : RateLimitKey;
  sr_path : string;
  sr_continuation : list Z;
  sr_expected : ExpectedResponse;
  sr_expires_at : Z;
  sr_in_flight : bool;
  sr_baseline_settings : Table
}.

Record PreparedSetupStep := {
  ps_session : string;
  ps_path : string;
  ps_request : PluginSetupRequest
}.

Notation SetupSessions := (gmap string SetupSessionRecord).

Definition with_state (s : PluginSetupSession) (generation : Z) (state : PluginSetupSessionState) :
    PluginSetupSession :=
  {| ss_id := ss_id s; ss_plugin := ss_plugin s; ss_workflow := ss_workflow s;
     ss_generation := generation; ss_state := state |}.
Definition set_snapshot (e : SetupSessionRecord) (v : PluginSetupSession) : SetupSessionRecord :=
  let 'Build_SetupSessionRecord _ b c d f g h i := e in Build_SetupSessionRecord v b c d f g h i.
Definition set_continuation (e : SetupSessionRecord) (v : list Z) : SetupSessionRecord :=
  let 'Build_SetupSessionRecord a b c _ f g h i := e in Build_SetupSessionRecord a b c v f g h i.
Definition set_in_flight (e : SetupSessionRecord) (v : bool) : SetupSessionRecord :=
  let 'Build_SetupSessionRecord a b c d f g _ i := e in Build_SetupSessionRecord a b c d f g v i.

(** [saturating_add(1)] *)
Definition next_generation (s : PluginSetupSession) : Z := saturateU 64 (ss_generation s + 1).
Definition advance (e : SetupSessionRecord) (state : PluginSetupSessionState) : SetupSessionRecord :=
  set_snapshot e (with_state (sr_snapshot e) (next_generation (sr_snapshot e)) state).

Definition expire (now : Z) (sessions : SetupSessions) : SetupSessions :=
  filter (λ p, (now < sr_expires_at p.2)%Z) sessions.

Definition awaits_response (state : PluginSetupSessionState) : bool :=
  match state with State_Choice _ _ | State_PhysicalAction _ => true | _ => false end.
Definition is_applying (state : PluginSetupSessionState) : bool :=
  match state with State_Applying => true | _ => false end.
Definition is_cancelled (state : PluginSetupSessionState) : bool :=
  match state with State_Cancelled => true | _ => false end.
Definition state_of (e : SetupSessionRecord) : PluginSetupSessionState := ss_state (sr_snapshot e).

Definition is_active (e : SetupSessionRecord) : bool :=
  sr_in_flight e || awaits_response (state_of e) || is_applying (state_of e).

(** ** Identifiers *)

Definition hex_digit (n : Z) : string :=
  default "0"%string (["0"; "1"; "2"; "3"; "4"; "5"; "6"; "7"; "8"; "9"; "a"; "b"; "c"; "d"; "e"; "f"]
    !! Z.to_nat n)%string.
Definition hex_byte (b : Z) : string := (hex_digit (b / 16) ++ hex_digit (b mod 16))%string.
Fixpoint hex (bytes : list Z) : string :=
  match bytes with [] => "" | b :: bytes => hex_byte b ++ hex bytes end%string.
Definition lower_hex (c : Ascii.ascii) : bool := ascii_in 48 57 c || ascii_in 97 102 c.

(** [PluginSetupSessionId::parse] *)
Definition parse_session_id (value : string) : result Text string :=
  if bool_decide (String.length value = 32) && all_bytes lower_hex value then Ok value
  else Err (Lit "invalid plugin setup session identifier").
Definition new_session_id (random : list Z) : result Text string := parse_session_id (hex random).

(** The loop that looks for an identifier which is not in use.  [randoms] are the blocks that
    the generator yields before it fails. *)
Fixpoint pick_session_id (sessions : SetupSessions) (randoms : list (list Z)) : result Text string :=
  match randoms with
  | [] => Err (Lit "generating plugin setup session identifier")
  | random :: randoms =>
      candidate ← new_session_id random;
      if bool_decide (is_Some (sessions !! candidate)) then pick_session_id sessions randoms
      else Ok candidate
  end.

(** ** Interactions *)

(** A control character in UTF-8: U+0000 to U+001F, U+007F, U+0080 to U+009F. *)
Fixpoint has_control (s : string) : bool :=
  match s with
  | EmptyString => false
  | String c s =>
      ascii_in 0 31 c || byte_is 127 c ||
      (byte_is 194 c && match s with String d _ => ascii_in 128 159 d | EmptyString => false end) ||
      has_control s
  end.
Definition valid_public_text (value : string) (maximum : nat) : bool :=
  negb (is_blank value) && bool_decide (String.length value ≤ maximum) && negb (has_control value).

Definition choice_byte (c : Ascii.ascii) : bool :=
  is_ascii_alphanumeric c || byte_is 45 c || byte_is 95 c || byte_is 46 c.

Definition public_choice (ids : gset string) (choice : PluginSetupChoice) : result Text (gset string) :=
  _ ← ensure (negb (is_empty (ch_id choice)) && bool_decide (String.length (ch_id choice) ≤ 128) &&
        all_bytes choice_byte (ch_id choice)) (Lit "invalid setup choice ID");
  _ ← ensure (bool_decide (ch_id choice ∉ ids)) (Lit "duplicate setup choice ID");
  _ ← ensure (valid_public_text (ch_label choice) 256) (Lit "setup choice label is invalid");
  _ ← ensure (match ch_description choice with Some d => valid_public_text d 2048 | None => true end)
        (Lit "setup choice description is invalid");
  Ok ({[ch_id choice]} ∪ ids).

Definition public_interaction (interaction : PluginSetupInteraction) :
    result Text (PluginSetupSessionState * ExpectedResponse) :=
  match interaction with
  | Ask_Choice prompt choices =>
      _ ← ensure (valid_public_text prompt 2048) (Lit "setup choice prompt is invalid");
      _ ← ensure (negb (bool_decide (choices = [])) && bool_decide (length choices ≤ 64))
            (Lit "invalid setup choices");
      _ ← try_fold public_choice ∅ choices;
      Ok (State_Choice prompt choices, Expected_Choice)
  | Ask_PhysicalAction instruction =>
      _ ← ensure (valid_public_text instruction 2048) (Lit "setup instruction is invalid");
      Ok (State_PhysicalAction instruction, Expected_Confirmation)
  end.

(** ** Operations on the sessions *)

(** What the catalogue says of an installed plugin. *)
Record CataloguePlugin := {
  cp_name : string;
  cp_path : string;
  cp_setup_workflows : list string
}.

Definition not_found : Text := Lit "setup session not found".
Definition another_actor : Text := Lit "setup session belongs to another actor".

Definition find_plugin (catalogue : list CataloguePlugin) (plugin : string) : option CataloguePlugin :=
  List.find (λ entry, bool_decide (cp_name entry = plugin)) catalogue.

Definition initial_record (now : Z) (session plugin workflow path : string) (owner : RateLimitKey)
    (baseline : Table) : SetupSessionRecord := {|
  sr_snapshot := {| ss_id := session; ss_plugin := plugin; ss_workflow := workflow;
    ss_generation := 0;
    ss_state := State_Failed (Lit "setup has not produced its initial interaction") |};
  sr_owner := owner; sr_path := path; sr_continuation := []; sr_expected := Expected_Confirmation;
  sr_expires_at := now + SESSION_LIFETIME; sr_in_flight := true; sr_baseline_settings := baseline
|}.

Definition active_sessions (sessions : SetupSessions) : list SetupSessionRecord :=
  filter (λ e, is_active e = true) (map_to_list sessions).*2.

Definition prepare_setup_start (now : Z) (catalogue : list CataloguePlugin) (sessions : SetupSessions)
    (plugin workflow : string) (owner : RateLimitKey) (baseline : Table) (randoms : list (list Z)) :
    SetupSessions * result Text PreparedSetupStep :=
  match
    entry ← ok_or (find_plugin catalogue plugin) (Fmt "installed plugin not found: {}" [AStr plugin]);
    _ ← ensure (bool_decide (workflow ∈ cp_setup_workflows entry))
          (Fmt "plugin {} does not advertise setup workflow {}" [AStr plugin; AStr workflow]);
    Ok (cp_path entry)
  with
  | Err e => (sessions, Err e)
  | Ok path =>
      let sessions := expire now sessions in
      match
        _ ← ensure (bool_decide (length (active_sessions sessions) < MAX_ACTIVE_SESSIONS))
              (Lit "too many active plugin setup sessions");
        _ ← ensure (forallb (λ e, negb (bool_decide (ss_plugin (sr_snapshot e) = plugin)) ||
                negb (is_active e)) (map_to_list sessions).*2)
              (Fmt "plugin {} already has an active setup session" [AStr plugin]);
        pick_session_id sessions randoms
      with
      | Err e => (sessions, Err e)
      | Ok session =>
          (<[session := initial_record now session plugin workflow path owner baseline]> sessions,
           Ok {| ps_session := session; ps_path := path;
                 ps_request := {| rq_workflow := workflow; rq_continuation := []; rq_response := None |} |})
      end
  end.

Definition finish_setup_interaction (now : Z) (sessions : SetupSessions) (session : string)
    (continuation : list Z) (interaction : PluginSetupInteraction) :
    SetupSessions * result Text PluginSetupSession :=
  match sessions !! session with
  | None => (sessions, Err (Lit "setup session expired"))
  | Some entry =>
      if is_cancelled (state_of entry) then (sessions, Ok (sr_snapshot entry))
      else
        match public_interaction interaction with
        | Err e => (sessions, Err e)
        | Ok (state, expected) =>
            let entry := {|
              sr_snapshot := with_state (sr_snapshot entry) (next_generation (sr_snapshot entry)) state;
              sr_owner := sr_owner entry; sr_path := sr_path entry;
              sr_continuation := continuation; sr_expected := expected;
              sr_expires_at := now + SESSION_LIFETIME; sr_in_flight := false;
              sr_baseline_settings := sr_baseline_settings entry |} in
            (<[session := entry]> sessions, Ok (sr_snapshot entry))
        end
  end.

Definition match_response (expected : ExpectedResponse) (response : PluginSetupInteractionResponse) :
    result Text PluginSetupResponse :=
  match expected, response with
  | Expected_Choice, Answer_Choice choice => Ok (Plugin_Choice choice)
  | Expected_Confirmation, Answer_Confirmed => Ok Plugin_Confirmed
  | _, _ => Err (Lit "response does not match the current setup interaction")
  end.

Definition check_owner (entry : SetupSessionRecord) (owner : RateLimitKey) : result Text unit :=
  ensure (bool_decide (sr_owner entry = owner)) another_actor.

Definition prepare_setup_response (now : Z) (sessions : SetupSessions) (session : string)
    (generation : Z) (response : PluginSetupInteractionResponse) (owner : RateLimitKey) :
    SetupSessions * result Text PreparedSetupStep :=
  let sessions := expire now sessions in
  match
    entry ← ok_or (sessions !! session) not_found;
    _ ← check_owner entry owner;
    _ ← ensure (negb (sr_in_flight entry)) (Lit "setup session already has a step in progress");
    _ ← ensure (ss_generation (sr_snapshot entry) =? generation)%Z (Lit "stale setup generation");
    response ← match_response (sr_expected entry) response;
    _ ← ensure (awaits_response (state_of entry)) (Lit "setup session is already terminal");
    Ok (entry, response)
  with
  | Err e => (sessions, Err e)
  | Ok (entry, response) =>
      (<[session := set_in_flight entry true]> sessions,
       Ok {| ps_session := session; ps_path := sr_path entry;
             ps_request := {| rq_workflow := ss_workflow (sr_snapshot entry);
               rq_continuation := sr_continuation entry; rq_response := Some response |} |})
  end.

Definition setup_session (now : Z) (sessions : SetupSessions) (session : string) (owner : RateLimitKey) :
    SetupSessions * result Text PluginSetupSession :=
  let sessions := expire now sessions in
  (sessions,
   entry ← ok_or (sessions !! session) not_found;
   _ ← check_owner entry owner;
   Ok (sr_snapshot entry)).

Definition is_final (state : PluginSetupSessionState) : bool :=
  match state with State_Applying | State_Completed _ _ | State_Failed _ => true | _ => false end.

Definition cancel_setup (now : Z) (sessions : SetupSessions) (session : string) (owner : RateLimitKey) :
    SetupSessions * result Text PluginSetupSession :=
  let sessions := expire now sessions in
  match
    entry ← ok_or (sessions !! session) not_found;
    _ ← check_owner entry owner;
    Ok entry
  with
  | Err e => (sessions, Err e)
  | Ok entry =>
      if is_final (state_of entry) then (sessions, Ok (sr_snapshot entry))
      else
        let entry := set_continuation (advance entry State_Cancelled) [] in
        (<[session := entry]> sessions, Ok (sr_snapshot entry))
  end.

Definition begin_setup_commit (sessions : SetupSessions) (session : string) :
    SetupSessions * result Text (option (PluginSetupSession * Table)) :=
  match sessions !! session with
  | None => (sessions, Err not_found)
  | Some entry =>
      if is_cancelled (state_of entry) then
        (<[session := set_in_flight entry false]> sessions, Ok None)
      else if negb (sr_in_flight entry) then
        (sessions, Err (Lit "setup session has no completed step"))
      else
        let entry := advance entry State_Applying in
        (<[session := entry]> sessions, Ok (Some (sr_snapshot entry, sr_baseline_settings entry)))
  end.

Definition finish_setup_terminal (sessions : SetupSessions) (session : string)
    (state : PluginSetupSessionState) : SetupSessions * result Text PluginSetupSession :=
  match sessions !! session with
  | None => (sessions, Err not_found)
  | Some entry =>
      let entry := if is_cancelled (state_of entry) then entry else advance entry state in
      let entry := set_in_flight (set_continuation entry []) false in
      (<[session := entry]> sessions, Ok (sr_snapshot entry))
  end.

(** ** Requests: [daemon/dispatch/setup.rs], after their authorization *)

Definition Answer := result (ErrorCode * Text) PluginSetupSession.

(** [diagnostic.contains(part)] *)
Definition contains (part : string) (diagnostic : Text) : bool :=
  match diagnostic with
  | Lit s | Fmt s _ | Nested s _ _ => bool_decide (String.index 0 part s ≠ None)
  end.

Definition respond_error (diagnostic : Text) : ErrorCode * Text :=
  if contains "not found" diagnostic || contains "another actor" diagnostic
  then (Code_NotFound, not_found)
  else ((if contains "stale" diagnostic || contains "in progress" diagnostic
         then Code_Conflict else Code_InvalidArgument), diagnostic).

Definition respond (now : Z) (sessions : SetupSessions) (session : string) (generation : Z)
    (response : PluginSetupInteractionResponse) (owner : RateLimitKey) :
    SetupSessions * result (ErrorCode * Text) PreparedSetupStep :=
  let '(sessions, r) := prepare_setup_response now sessions session generation response owner in
  (sessions, map_err respond_error r).

Definition get_session (now : Z) (sessions : SetupSessions) (session : string) (owner : RateLimitKey) :
    SetupSessions * Answer :=
  let '(sessions, r) := setup_session now sessions session owner in
  (sessions, map_err (λ _, (Code_NotFound, not_found)) r).

Definition cancel (now : Z) (sessions : SetupSessions) (session : string) (owner : RateLimitKey) :
    SetupSessions * Answer :=
  let '(sessions, r) := cancel_setup now sessions session owner in
  (sessions, map_err (λ _, (Code_NotFound, not_found)) r).

Definition finish_failed (sessions : SetupSessions) (session : string) (diagnostic : Text) :
    SetupSessions * Answer :=
  let '(sessions, r) := finish_setup_terminal sessions session (State_Failed diagnostic) in
  (sessions, map_err (λ e, (Code_Internal, e)) r).

(** The interaction that a step of the plugin returned. *)
Definition step_interaction (now : Z) (sessions : SetupSessions) (session : string)
    (continuation : list Z) (interaction : PluginSetupInteraction) : SetupSessions * Answer :=
  match finish_setup_interaction now sessions session continuation interaction with
  | (sessions, Ok snapshot) => (sessions, Ok snapshot)
  | (sessions, Err e) => finish_failed sessions session e
  end.

(** *** Committing *)

Fixpoint setting_value (value : PluginSetupSettingValue) : result Text SettingValue :=
  match value with
  | Plugin_Boolean b => Ok (Setting_Boolean b)
  | Plugin_Integer z => Ok (Setting_Integer z)
  | Plugin_Number f =>
      if is_finite f then Ok (Setting_Number f) else Err (Lit "setup returned a non-finite number")
  | Plugin_String s => Ok (Setting_String s)
  | Plugin_Array vs =>
      vs ← (fix go vs := match vs with
        | [] => Ok []
        | v :: vs => v ← setting_value v; vs ← go vs; Ok (v :: vs)
        end) vs;
      Ok (Setting_Array vs)
  | Plugin_Table t =>
      t ← (fix go (t : list (string * PluginSetupSettingValue)) := match t with
        | [] => Ok []
        | (k, v) :: t => v ← setting_value v; t ← go t; Ok ((k, v) :: t)
        end) t;
      Ok (Setting_Table t)
  end.

Definition opt_value_eqb (v w : option Value) : bool :=
  match v, w with
  | Some v, Some w => value_eqb v w
  | None, None => true
  | _, _ => false
  end.

(** The settings of a plugin in the managed configuration, when it has an entry. *)
Definition current_settings (managed : ManagedConfig) (plugin : string) : option Table :=
  mp_settings <$> List.find (λ entry, bool_decide (mp_name entry = plugin)) (mc_plugins managed).

Definition settings_conflict (managed : ManagedConfig) (plugin : string) (baseline : Table)
    (settings : list (string * PluginSetupSettingValue)) : bool :=
  existsb (λ p, negb (opt_value_eqb (dotted_value (current_settings managed plugin) p.1)
                                    (dotted_value (Some baseline) p.1))) settings.

Definition setup_mutations (plugin : string) (settings : list (string * PluginSetupSettingValue)) :
    result Text (list ManagementMutation) :=
  try_map (λ p, value ← setting_value p.2; Ok (SetPluginSetting plugin p.1 value)) settings.

(** The patch that [commit_setup] prepares from the managed configuration that it reads. *)
Definition commit_plan (managed : ManagedConfig) (snapshot : PluginSetupSession) (baseline : Table)
    (settings : list (string * PluginSetupSettingValue)) : result Text ManagementPatch :=
  if settings_conflict managed (ss_plugin snapshot) baseline settings
  then Err (Lit "plugin settings changed while setup was in progress; start setup again")
  else
    mutations ← setup_mutations (ss_plugin snapshot) settings;
    match mutations with
    | [] => Err (Lit "setup returned no settings")
    | _ => Ok {| expected_revision := mc_revision managed; mutations := mutations |}
    end.

(** ** The system: sessions, running steps and commits *)

Inductive Stage := Executing | Committing.
#[export] Instance Stage_eq : EqDecision Stage.
Proof. solve_decision. Defined.

(** [sy_running]: the requests that run a step of a plugin or commit its settings;
    [sy_used]: the identifiers that were ever given to a session. *)
Record System := {
  sy_now : Z;
  sy_sessions : SetupSessions;
  sy_running : list (string * Stage);
  sy_used : gset string
}.
Definition initial (now : Z) : System :=
  {| sy_now := now; sy_sessions := ∅; sy_running := []; sy_used := ∅ |}.

Inductive Event :=
| Tick (elapsed : Z)
| Start (catalogue : list CataloguePlugin) (plugin workflow : string) (owner : RateLimitKey)
    (baseline : Table) (randoms : list (list Z))
| Respond (session : string) (generation : Z) (response : PluginSetupInteractionResponse)
    (owner : RateLimitKey)
| Get (session : string) (owner : RateLimitKey)
| Cancel (session : string) (owner : RateLimitKey)
| StepFailed (session : string) (diagnostic : Text)
| StepInteraction (session : string) (continuation : list Z) (interaction : PluginSetupInteraction)
| StepComplete (session summary : string)
| CommitEnded (session : string) (outcome : result Text (string * Z)).

Definition with_sessions (s : System) (sessions : SetupSessions) : System :=
  {| sy_now := sy_now s; sy_sessions := sessions; sy_running := sy_running s; sy_used := sy_used s |}.
Definition with_running (s : System) (running : list (string * Stage)) : System :=
  {| sy_now := sy_now s; sy_sessions := sy_sessions s; sy_running := running; sy_used := sy_used s |}.
Definition stop (s : System) (session : string) : System :=
  with_running s (filter (λ p, p.1 ≠ session) (sy_running s)).
Definition begin (s : System) (session : string) (stage : Stage) : System :=
  with_running s ((session, stage) :: sy_running s).
Definition use (s : System) (session : string) : System :=
  {| sy_now := sy_now s; sy_sessions := sy_sessions s; sy_running := sy_running s;
     sy_used := {[session]} ∪ sy_used s |}.
Definition runs (s : System) (session : string) (stage : Stage) : bool :=
  bool_decide ((session, stage) ∈ sy_running s).

Definition commit_state (outcome : result Text (string * Z)) : PluginSetupSessionState :=
  match outcome with
  | Ok (summary, revision) => State_Completed summary revision
  | Err diagnostic => State_Failed diagnostic
  end.

Definition invalid_summary : Text := Lit "plugin setup returned an invalid summary".

(** What a step returns only happens while it runs. *)
Definition handle (s : System) (e : Event) : System :=
  let now := sy_now s in
  let sessions := sy_sessions s in
  match e with
  | Tick elapsed =>
      {| sy_now := now + elapsed; sy_sessions := sessions; sy_running := sy_running s;
         sy_used := sy_used s |}
  | Start catalogue plugin workflow owner baseline randoms =>
      match prepare_setup_start now catalogue sessions plugin workflow owner baseline randoms with
      | (sessions, Ok step) => use (begin (with_sessions s sessions) (ps_session step) Executing) (ps_session step)
      | (sessions, Err _) => with_sessions s sessions
      end
  | Respond session generation response owner =>
      match respond now sessions session generation response owner with
      | (sessions, Ok step) => begin (with_sessions s sessions) session Executing
      | (sessions, Err _) => with_sessions s sessions
      end
  | Get session owner => with_sessions s (get_session now sessions session owner).1
  | Cancel session owner => with_sessions s (cancel now sessions session owner).1
  | StepFailed session diagnostic =>
      if runs s session Executing
      then stop (with_sessions s (finish_failed sessions session diagnostic).1) session else s
  | StepInteraction session continuation interaction =>
      if runs s session Executing
      then stop (with_sessions s (step_interaction now sessions session continuation interaction).1) session
      else s
  | StepComplete session summary =>
      if runs s session Executing then
        if negb (valid_public_text summary 2048)
        then stop (with_sessions s (finish_failed sessions session invalid_summary).1) session
        else
          match begin_setup_commit sessions session with
          | (sessions, Ok (Some _)) => begin (stop (with_sessions s sessions) session) session Committing
          | (sessions, _) => stop (with_sessions s sessions) session
          end
      else s
  | CommitEnded session outcome =>
      if runs s session Committing
      then stop (with_sessions s (finish_setup_terminal sessions session (commit_state outcome)).1) session
      else s
  end.

(** Time does not go back, and random identifiers do not repeat. *)
Definition admissible (s : System) (e : Event) : Prop :=
  match e with
  | Tick elapsed => (0 <= elapsed)%Z
  | Start catalogue plugin workflow owner baseline randoms =>
      ∀ step, (prepare_setup_start (sy_now s) catalogue (sy_sessions s) plugin workflow owner baseline
        randoms).2 = Ok step → ps_session step ∉ sy_used s
  | _ => True
  end.

Inductive run : System → System → Prop :=
| run_here s : run s s
| run_step s s' e : run s s' → admissible s' e → run s (handle s' e).

(** ** How entries evolve *)

Definition generation_of (e : SetupSessionRecord) : Z := ss_generation (sr_snapshot e).

Record entry_evolves (e e' : SetupSessionRecord) : Prop := {
  ev_plugin : ss_plugin (sr_snapshot e') = ss_plugin (sr_snapshot e);
  ev_id : ss_id (sr_snapshot e') = ss_id (sr_snapshot e);
  ev_owner : sr_owner e' = sr_owner e;
  ev_active : is_active e' = true → is_active e = true;
  ev_cancelled : is_cancelled (state_of e) = true → is_cancelled (state_of e') = true;
  ev_generation : u64 (generation_of e) →
    u64 (generation_of e') ∧ (generation_of e <= generation_of e')%Z;
  ev_pending : u64 (generation_of e) → generation_of e ≠ uN_max 64 →
    generation_of e' = generation_of e →
    sr_in_flight e = true ∨ is_cancelled (state_of e) = true →
    sr_in_flight e' = true ∨ is_cancelled (state_of e') = true
}.

Definition evolves (m m' : SetupSessions) : Prop :=
  ∀ id e', m' !! id = Some e' → ∃ e, m !! id = Some e ∧ entry_evolves e e'.

Lemma entry_evolves_refl e : entry_evolves e e.
Proof. by split. Qed.

Lemma entry_evolves_trans e1 e2 e3 : entry_evolves e1 e2 → entry_evolves e2 e3 → entry_evolves e1 e3.
Proof.
  intros [H1 H2 H3 H4 H5 H6 H7] [K1 K2 K3 K4 K5 K6 K7]. split; [congruence..|auto|auto| |].
  - intros [Hu ?]%H6. apply K6 in Hu as [? ?]. split; [done|lia].
  - intros Hu Hm Heq Hp. destruct (H6 Hu) as [Hu2 Hle]. destruct (K6 Hu2) as [_ Hle2].
    apply K7; [done|lia|lia|]. apply H7; [done|done|lia|done].
Qed.

Lemma evolves_refl m : evolves m m.
Proof. intros id e' H. exists e'. split; [done|apply entry_evolves_refl]. Qed.

Lemma evolves_trans m1 m2 m3 : evolves m1 m2 → evolves m2 m3 → evolves m1 m3.
Proof.
  intros H1 H2 id e3 (e2 & (e1 & ? & ?)%H1 & ?)%H2. exists e1. split; [done|]. by eapply entry_evolves_trans.
Qed.

Lemma evolves_insert m id e e' : m !! id = Some e → entry_evolves e e' → evolves m (<[id := e']> m).
Proof.
  intros He Hev k e2. destruct (decide (k = id)) as [->|Hne].
  - rewrite lookup_insert_eq. intros [= <-]. eauto.
  - rewrite lookup_insert_ne by done. apply evolves_refl.
Qed.

Lemma expire_Some now m id e : expire now m !! id = Some e ↔ m !! id = Some e ∧ (now < sr_expires_at e)%Z.
Proof. apply map_lookup_filter_Some. Qed.

Lemma expire_evolves now m : evolves m (expire now m).
Proof. intros id e' [? _]%expire_Some. by apply evolves_refl. Qed.

Lemma next_generation_range s : u64 (ss_generation s) →
  u64 (next_generation s) ∧ (ss_generation s <= next_generation s)%Z ∧
  (ss_generation s < next_generation s ∨ ss_generation s = uN_max 64)%Z.
Proof.
  intros Hu. unfold next_generation. split; [by apply saturateU_uN|].
  unfold saturateU, uN, uN_max in *. lia.
Qed.

Lemma advance_evolves e state :
  (is_active (advance e state) = true → is_active e = true) →
  is_cancelled (state_of e) = false ∨ is_cancelled state = true → entry_evolves e (advance e state).
Proof.
  intros Ha Hc. destruct e as [s b c d f g h i]. split; try done.
  - simpl in *. intros H. unfold state_of in *. simpl in *. destruct Hc; [congruence|done].
  - intros Hu. pose proof (next_generation_range s Hu) as (? & ? & _). done.
  - intros Hu Hm Heq. destruct (next_generation_range s Hu) as (_ & _ & [?|?]); [|done].
    unfold generation_of in Heq. simpl in Heq. lia.
Qed.

Lemma state_of_advance e state : state_of (advance e state) = state.
Proof. by destruct e. Qed.
Lemma state_of_continuation e v : state_of (set_continuation e v) = state_of e.
Proof. by destruct e. Qed.
Lemma state_of_in_flight e v : state_of (set_in_flight e v) = state_of e.
Proof. by destruct e. Qed.
Lemma in_flight_advance e state : sr_in_flight (advance e state) = sr_in_flight e.
Proof. by destruct e. Qed.
Lemma in_flight_continuation e v : sr_in_flight (set_continuation e v) = sr_in_flight e.
Proof. by destruct e. Qed.
Lemma in_flight_in_flight e v : sr_in_flight (set_in_flight e v) = v.
Proof. by destruct e. Qed.
#[local] Hint Rewrite state_of_advance state_of_continuation state_of_in_flight in_flight_advance
  in_flight_continuation in_flight_in_flight : entry.

Lemma continuation_evolves e v : entry_evolves e (set_continuation e v).
Proof. by destruct e; split. Qed.

Lemma in_flight_evolves e v : (v = true → is_active e = true) →
  v = true ∨ is_cancelled (state_of e) = true → entry_evolves e (set_in_flight e v).
Proof.
  intros Hv Hc. split; try (by destruct e).
  - intros H. unfold is_active in *. autorewrite with entry in H.
    destruct v; [by apply Hv|]. simpl in H. destruct (sr_in_flight e); [done|exact H].
Qed.

(** A session ends: its generation advances as it leaves the flight. *)
Lemma terminate_evolves e state : awaits_response state = false → is_applying state = false →
  is_cancelled (state_of e) = false →
  entry_evolves e (set_in_flight (set_continuation (advance e state) []) false).
Proof.
  intros Ha Hb Hc. destruct e as [s b c d f g h i]. split; try done.
  - unfold is_active, state_of. simpl. by rewrite Ha, Hb.
  - congruence.
  - intros Hu. pose proof (next_generation_range s Hu) as (? & ? & _). done.
  - intros Hu Hm Heq. destruct (next_generation_range s Hu) as (_ & _ & [?|?]); [|done].
    unfold generation_of in Heq. simpl in Heq. lia.
Qed.

(** *** Operations *)

Lemma finish_terminal_evolves m id state : awaits_response state = false → is_applying state = false →
  evolves m (finish_setup_terminal m id state).1.
Proof.
  intros Ha Hb. unfold finish_setup_terminal. destruct (m !! id) as [e|] eqn:He; [|apply evolves_refl].
  apply (evolves_insert m id e); [done|]. destruct (is_cancelled (state_of e)) eqn:Hc.
  - eapply entry_evolves_trans; [apply (continuation_evolves e [])|].
    apply in_flight_evolves; [done|]. autorewrite with entry. by right.
  - by apply terminate_evolves.
Qed.

Lemma finish_interaction_evolves now m id c i :
  (∀ e, m !! id = Some e → sr_in_flight e = true) → evolves m (finish_setup_interaction now m id c i).1.
Proof.
  intros Hfl. unfold finish_setup_interaction. destruct (m !! id) as [e|] eqn:He; [|apply evolves_refl].
  destruct (is_cancelled (state_of e)) eqn:Hc; [apply evolves_refl|].
  destruct (public_interaction i) as [[state expected]|]; [|apply evolves_refl].
  apply (evolves_insert m id e); [done|]. split; try done.
  - intros _. unfold is_active. by rewrite (Hfl e).
  - congruence.
  - intros Hu. pose proof (next_generation_range (sr_snapshot e) Hu) as (? & ? & _). done.
  - intros Hu Hm Heq. destruct (next_generation_range (sr_snapshot e) Hu) as (_ & _ & [?|?]); [|done].
    unfold generation_of in Heq. simpl in Heq. lia.
Qed.

Lemma respond_evolves now m id g r o : evolves m (prepare_setup_response now m id g r o).1.
Proof.
  unfold prepare_setup_response. eapply evolves_trans; [apply (expire_evolves now)|].
  destruct (ok_or _ _) as [e|] eqn:He; simpl; [|apply evolves_refl]. rewrite ok_or_Ok in He.
  destruct (_ ≫= _) as [[e' resp]|] eqn:Hb; [|apply evolves_refl].
  repeat (apply bind_Ok in Hb as (? & ? & Hb)). injection Hb as -> ->.
  apply (evolves_insert _ _ e'); [done|]. apply in_flight_evolves; [intros _|by left].
  match goal with H : ensure (awaits_response _) _ = Ok _ |- _ =>
    unfold ensure in H; destruct (awaits_response (state_of e')) eqn:Ha; [|done] end.
  unfold is_active. rewrite Ha. by rewrite orb_true_r.
Qed.

Lemma cancel_evolves now m id o : evolves m (cancel_setup now m id o).1.
Proof.
  unfold cancel_setup. eapply evolves_trans; [apply (expire_evolves now)|].
  destruct (ok_or _ _) as [e|] eqn:He; simpl; [|apply evolves_refl]. rewrite ok_or_Ok in He.
  destruct (check_owner e o); simpl; [|apply evolves_refl].
  destruct (is_final (state_of e)); [apply evolves_refl|].
  apply (evolves_insert _ _ e); [done|]. eapply entry_evolves_trans; [|apply continuation_evolves].
  apply advance_evolves; [|by right]. unfold is_active. autorewrite with entry.
  destruct (sr_in_flight e); done.
Qed.

Lemma begin_commit_evolves m id : evolves m (begin_setup_commit m id).1.
Proof.
  unfold begin_setup_commit. destruct (m !! id) as [e|] eqn:He; [|apply evolves_refl].
  destruct (is_cancelled (state_of e)) eqn:Hc.
  { apply (evolves_insert _ _ e); [done|]. apply in_flight_evolves; [done|by right]. }
  destruct (sr_in_flight e) eqn:Hf; simpl; [|apply evolves_refl].
  apply (evolves_insert _ _ e); [done|]. apply advance_evolves; [|by left].
  intros _. unfold is_active. by rewrite Hf.
Qed.

(** ** The invariant *)

(** An entry agrees with what runs for its session. *)
Record entry_inv (running : list (string * Stage)) (used : gset string) (id : string)
    (e : SetupSessionRecord) : Prop := {
  ei_used : id ∈ used;
  ei_generation : u64 (generation_of e);
  ei_runs st : (id, st) ∈ running → sr_in_flight e = true ∧
    is_applying (state_of e) = bool_decide (st = Committing);
  ei_in_flight : sr_in_flight e = true → (∃ st, (id, st) ∈ running) ∨ is_cancelled (state_of e) = true;
  ei_applying : is_applying (state_of e) = true → (id, Committing) ∈ running
}.

(** No plugin has two active sessions. *)
Definition exclusive (m : SetupSessions) : Prop :=
  ∀ id id' e e', m !! id = Some e → m !! id' = Some e' → is_active e = true → is_active e' = true →
    ss_plugin (sr_snapshot e) = ss_plugin (sr_snapshot e') → id = id'.
Definition active_map (m : SetupSessions) : SetupSessions := filter (λ p, is_active p.2 = true) m.

Record Inv (s : System) : Prop := {
  inv_running : NoDup (sy_running s).*1;
  inv_used id st : (id, st) ∈ sy_running s → id ∈ sy_used s;
  inv_entry id e : sy_sessions s !! id = Some e → entry_inv (sy_running s) (sy_used s) id e;
  inv_exclusive : exclusive (sy_sessions s);
  inv_count : size (active_map (sy_sessions s)) ≤ MAX_ACTIVE_SESSIONS
}.

Lemma evolves_exclusive m m' : evolves m m' → exclusive m → exclusive m'.
Proof.
  intros Hev Hx id1 id2 e1 e2 (d1 & H1 & V1)%Hev (d2 & H2 & V2)%Hev A1 A2 Hp.
  apply (Hx id1 id2 d1 d2); [done|done|by apply V1|by apply V2|].
  by rewrite <-(ev_plugin _ _ V1), <-(ev_plugin _ _ V2).
Qed.

Lemma evolves_count m m' : evolves m m' → size (active_map m') ≤ size (active_map m).
Proof.
  intros Hev. rewrite <-!size_dom. apply subseteq_size. intros id.
  rewrite !elem_of_dom. intros [e' [H Ha]%map_lookup_filter_Some].
  apply Hev in H as (e & He & Hv). exists e. apply map_lookup_filter_Some.
  split; [done|]. by apply (ev_active _ _ Hv).
Qed.


(** A step changes what runs for one session only. *)
Lemma inv_change s sessions' running' id : Inv s → evolves (sy_sessions s) sessions' →
  (∀ k, k ≠ id → sessions' !! k = sy_sessions s !! k) →
  (∀ k st, k ≠ id → (k, st) ∈ running' ↔ (k, st) ∈ sy_running s) → NoDup running'.*1 →
  (∀ st, (id, st) ∈ running' → id ∈ sy_used s) →
  (∀ e', sessions' !! id = Some e' → u64 (generation_of e') → id ∈ sy_used s →
    entry_inv running' (sy_used s) id e') →
  Inv (with_running (with_sessions s sessions') running').
Proof.
  intros [Hnd Hu He Hx Hc] Hev Hother Hrun Hnd' Hused Hentry. split; simpl; try done.
  - intros k st Hk. destruct (decide (k = id)) as [->|Hne]; [by eapply Hused|].
    eapply Hu. by apply Hrun.
  - intros k e Hk. destruct (decide (k = id)) as [->|Hne].
    + destruct (Hev _ _ Hk) as (d & Hd & V). destruct (He _ _ Hd) as [Hid Hg _ _ _].
      apply Hentry; [done| |done]. by apply (ev_generation _ _ V).
    + rewrite Hother in Hk by done. destruct (He _ _ Hk) as [? ? Hr Hi Ha]. split; [done..| | |].
      * intros st Hst%Hrun; [|done]. by apply Hr.
      * intros [[st Hst]|?]%Hi; [|by right]. left. exists st. by apply Hrun.
      * intros H%Ha. by apply Hrun.
  - by eapply evolves_exclusive.
  - pose proof (evolves_count _ _ Hev). lia.
Qed.

Lemma inv_expire s : Inv s → Inv (with_sessions s (expire (sy_now s) (sy_sessions s))).
Proof.
  intros [Hnd Hu He Hx Hc]. pose proof (expire_evolves (sy_now s) (sy_sessions s)) as Hev. split; simpl; try done.
  - intros id e [H _]%expire_Some. by apply He.
  - by eapply evolves_exclusive.
  - pose proof (evolves_count _ _ Hev). lia.
Qed.

Lemma stop_other (running : list (string * Stage)) id k st : k ≠ id →
  (k, st) ∈ filter (λ p, p.1 ≠ id) running ↔ (k, st) ∈ running.
Proof. intros Hne. rewrite list_elem_of_filter. simpl. tauto. Qed.

Lemma stop_self (running : list (string * Stage)) id st : (id, st) ∉ filter (λ p, p.1 ≠ id) running.
Proof. rewrite list_elem_of_filter. simpl. tauto. Qed.

Lemma stop_NoDup (running : list (string * Stage)) id :
  NoDup running.*1 → NoDup (filter (λ p, p.1 ≠ id) running).*1.
Proof.
  induction running as [|[k st] running IH]; [done|]. intros [Hk Hnd]%NoDup_cons.
  rewrite filter_cons. case_decide; simpl; [|by apply IH]. apply NoDup_cons. split; [|by apply IH].
  intros ([k' st'] & Heq & [_ Hin]%list_elem_of_filter)%list_elem_of_fmap. simpl in Heq. subst k'.
  apply Hk. by apply (list_elem_of_fmap_2 fst) in Hin.
Qed.

(** A request ends: its session is no longer in flight, or it was cancelled. *)
Lemma inv_stop s sessions' id : Inv s → evolves (sy_sessions s) sessions' →
  (∀ k, k ≠ id → sessions' !! k = sy_sessions s !! k) →
  (∀ e', sessions' !! id = Some e' → is_applying (state_of e') = false ∧
    (sr_in_flight e' = true → is_cancelled (state_of e') = true)) →
  Inv (stop (with_sessions s sessions') id).
Proof.
  intros Hinv Hev Hother He. apply (inv_change s sessions' _ id); try done.
  - intros k st. apply stop_other.
  - apply stop_NoDup, Hinv.
  - intros st []%stop_self.
  - intros e' He' Hg Hu. destruct (He e' He') as [Ha Hf]. split; try done.
    + intros st []%stop_self.
    + intros H%Hf. by right.
    + congruence.
Qed.

Lemma active_sessions_size m : length (active_sessions m) = size (active_map m).
Proof.
  unfold active_sessions, active_map.
  rewrite map_filter_alt, map_size_list_to_map.
  - generalize (map_to_list m) as l. induction l as [|[k e] l IH]; [done|].
    cbn [fmap list_fmap snd]. rewrite !filter_cons. simpl.
    by destruct (decide (is_active e = true)); simpl; rewrite ?IH.
  - pose proof (NoDup_fst_map_to_list m) as Hnd. revert Hnd.
    generalize (map_to_list m) as l. induction l as [|[k e] l IH]; [done|]. intros [Hk Hnd]%NoDup_cons.
    rewrite filter_cons. case_decide; simpl; [|by apply IH]. apply NoDup_cons. split; [|by apply IH].
    intros ([k' e'] & Heq & [_ Hin]%list_elem_of_filter)%list_elem_of_fmap. simpl in Heq. subst k'.
    apply Hk. by apply (list_elem_of_fmap_2 fst) in Hin.
Qed.

Lemma pick_session_id_new m randoms id : pick_session_id m randoms = Ok id → m !! id = None.
Proof.
  induction randoms as [|r randoms IH]; simpl; [done|]. intros (c & _ & H)%bind_Ok.
  case_bool_decide as Hc; [by apply IH|]. injection H as <-. by apply eq_None_not_Some.
Qed.

(** What an accepted start leaves. *)
Lemma prepare_start_Ok now catalogue m plugin workflow owner baseline randoms m' step :
  prepare_setup_start now catalogue m plugin workflow owner baseline randoms = (m', Ok step) →
  let id := ps_session step in
  expire now m !! id = None ∧ size (active_map (expire now m)) < MAX_ACTIVE_SESSIONS ∧
  (∀ k e, expire now m !! k = Some e → is_active e = true → ss_plugin (sr_snapshot e) ≠ plugin) ∧
  ∃ path, m' = <[id := initial_record now id plugin workflow path owner baseline]> (expire now m).
Proof.
  unfold prepare_setup_start. destruct (_ ≫= _) as [path|]; [|congruence].
  destruct (ensure _ _ ≫= _) as [id|] eqn:Hb; [|congruence]. intros [= <- <-]. simpl.
  apply bind_unit_Ok in Hb as [H1 Hb]. apply bind_unit_Ok in Hb as [H2 H3].
  apply ensure_Ok in H1, H2. bool_prop. rewrite active_sessions_size in H1.
  split; [by eapply pick_session_id_new|]. split; [done|]. split; [|by eexists].
  intros k e He Ha Hp. rewrite forallb_forall in H2.
  assert (In e (map_to_list (expire now m)).*2) as Hin.
  { apply list_elem_of_In, list_elem_of_fmap. exists (k, e). by rewrite elem_of_map_to_list. }
  specialize (H2 e Hin). rewrite Ha, Hp, bool_decide_eq_true_2 in H2 by done. done.
Qed.

Lemma prepare_start_Err now catalogue m plugin workflow owner baseline randoms m' e :
  prepare_setup_start now catalogue m plugin workflow owner baseline randoms = (m', Err e) →
  m' = m ∨ m' = expire now m.
Proof.
  unfold prepare_setup_start. destruct (_ ≫= _) as [path|]; [|intros [= <- _]; by left].
  destruct (ensure _ _ ≫= _); [done|]. intros [= <- _]. by right.
Qed.

Lemma inv_start s catalogue plugin workflow owner baseline randoms :
  Inv s → admissible s (Start catalogue plugin workflow owner baseline randoms) →
  Inv (handle s (Start catalogue plugin workflow owner baseline randoms)).
Proof.
  intros Hinv Hadm. cbn [handle].
  destruct (prepare_setup_start _ _ _ _ _ _ _ _) as [m' [step|e]] eqn:Hp.
  2: { destruct (prepare_start_Err _ _ _ _ _ _ _ _ _ _ Hp) as [-> | ->]; [by destruct s|by apply inv_expire]. }
  assert (ps_session step ∉ sy_used s) as Hfresh by (apply Hadm; by rewrite Hp).
  apply prepare_start_Ok in Hp as (Hnew & Hcount & Hother & path & ->).
  set (id := ps_session step) in *. destruct (inv_expire s Hinv) as [Hnd Hu He Hx Hc]. simpl in *.
  set (m := expire (sy_now s) (sy_sessions s)) in *.
  set (new := initial_record _ _ _ _ _ _ _). split; simpl.
  - apply NoDup_cons. split; [|done]. intros ([k st] & Heq & Hin)%list_elem_of_fmap. simpl in Heq.
    subst k. apply Hfresh. by eapply Hu.
  - intros k st [[= -> _]|Hin]%elem_of_cons; [set_solver|]. apply Hu in Hin. set_solver.
  - intros k e Hk. destruct (decide (k = id)) as [->|Hne].
    + rewrite lookup_insert_eq in Hk. injection Hk as <-. split; try done; simpl.
      * set_solver.
      * intros st [[= ->]|Hin]%elem_of_cons; [done|]. destruct Hfresh. by eapply Hu.
      * intros _. left. exists Executing. left.
    + rewrite lookup_insert_ne in Hk by done. destruct (He _ _ Hk) as [? ? Hr Hi Ha]. split; [set_solver|done|..].
      * intros st [[= -> _]|Hin]%elem_of_cons; [done|by apply Hr].
      * intros [[st Hst]|?]%Hi; [|by right]. left. exists st. by right.
      * intros H%Ha. by right.
  - intros k1 k2 e1 e2 H1 H2 A1 A2 Hpl.
    destruct (decide (k1 = id)) as [->|N1], (decide (k2 = id)) as [->|N2]; [done|..].
    + rewrite lookup_insert_eq in H1. injection H1 as <-. rewrite lookup_insert_ne in H2 by done.
      by destruct (Hother k2 e2 H2 A2).
    + rewrite lookup_insert_eq in H2. injection H2 as <-. rewrite lookup_insert_ne in H1 by done.
      by destruct (Hother k1 e1 H1 A1).
    + rewrite lookup_insert_ne in H1, H2 by done. by apply (Hx k1 k2 e1 e2).
  - unfold active_map in *. rewrite map_filter_insert_True by done.
    etrans; [apply Nat.eq_le_incl, map_size_insert_None|lia].
    by apply map_lookup_filter_None_2; left.
Qed.

(** *** The other events *)

Lemma finish_terminal_spec m id state : awaits_response state = false → is_applying state = false →
  (∀ k, k ≠ id → (finish_setup_terminal m id state).1 !! k = m !! k) ∧
  ∀ e', (finish_setup_terminal m id state).1 !! id = Some e' →
    is_applying (state_of e') = false ∧ sr_in_flight e' = false.
Proof.
  intros Ha Hb. unfold finish_setup_terminal. destruct (m !! id) as [e|] eqn:He; simpl.
  2: { split; [done|]. congruence. }
  split; [intros; by rewrite lookup_insert_ne|]. rewrite lookup_insert_eq. intros e' [= <-].
  autorewrite with entry. split; [|done]. destruct (is_cancelled (state_of e)) eqn:Hc.
  - by destruct (state_of e).
  - by autorewrite with entry.
Qed.

Lemma finish_failed_terminal m id d :
  (finish_failed m id d).1 = (finish_setup_terminal m id (State_Failed d)).1.
Proof. unfold finish_failed. by destruct (finish_setup_terminal _ _ _). Qed.

Lemma finish_interaction_spec now m id c i :
  (∀ e, m !! id = Some e → is_applying (state_of e) = false) →
  match finish_setup_interaction now m id c i with
  | (m', Ok _) => (∀ k, k ≠ id → m' !! k = m !! k) ∧
      ∀ e', m' !! id = Some e' → is_applying (state_of e') = false ∧
        (sr_in_flight e' = true → is_cancelled (state_of e') = true)
  | (m', Err _) => m' = m
  end.
Proof.
  intros Happ. unfold finish_setup_interaction. destruct (m !! id) as [e|] eqn:He; [|done].
  destruct (is_cancelled (state_of e)) eqn:Hc.
  { split; [done|]. intros e'. rewrite He. intros [= <-]. split; [by apply Happ|done]. }
  unfold public_interaction. destruct i; simpl.
  all: repeat (match goal with |- context [mbind _ ?r] => destruct r end; simpl; try done).
  all: split; [intros; by rewrite lookup_insert_ne|]; rewrite lookup_insert_eq; by intros e' [= <-].
Qed.

Lemma handle_stop_terminal s id state stage : Inv s → (id, stage) ∈ sy_running s →
  awaits_response state = false → is_applying state = false →
  Inv (stop (with_sessions s (finish_setup_terminal (sy_sessions s) id state).1) id).
Proof.
  intros Hinv Hrun Ha Hb. destruct (finish_terminal_spec (sy_sessions s) id state Ha Hb) as [H1 H2].
  apply inv_stop; [done|by apply finish_terminal_evolves|done|].
  intros e' He'. destruct (H2 e' He') as [? Hf]. split; [done|]. congruence.
Qed.

Lemma inv_respond s id generation response owner :
  Inv s → Inv (handle s (Respond id generation response owner)).
Proof.
  intros Hinv. cbn [handle]. unfold respond, prepare_setup_response.
  apply inv_expire in Hinv as Hx. set (m := expire (sy_now s) (sy_sessions s)) in *.
  destruct (_ ≫= _) as [[e resp]|] eqn:Hb; [|done]. cbn [map_err].
  apply bind_Ok in Hb as (e0 & He & Hb). rewrite ok_or_Ok in He.
  apply bind_unit_Ok in Hb as [_ Hb]. apply bind_unit_Ok in Hb as [Hfl Hb].
  apply bind_unit_Ok in Hb as [_ Hb]. apply bind_Ok in Hb as (resp0 & _ & Hb).
  apply bind_unit_Ok in Hb as [Haw [= -> ->]]. apply ensure_Ok in Hfl, Haw. bool_prop.
  assert (∀ st, (id, st) ∉ sy_running s) as Hidle.
  { intros st Hst. destruct (inv_entry _ Hx id e He) as [_ _ Hr _ _]. apply Hr in Hst as [? _]. congruence. }
  apply (inv_change (with_sessions s m) _ ((id, Executing) :: sy_running s) id Hx).
  - apply (evolves_insert m id e _ He). apply in_flight_evolves; [intros _|by left].
    unfold is_active. by rewrite Haw, orb_true_r.
  - intros k Hne. cbn [with_sessions sy_sessions]. by rewrite lookup_insert_ne.
  - intros k st Hne. simpl. rewrite elem_of_cons. split; [by intros [[= -> _]|]|by right].
  - simpl. apply NoDup_cons. split; [|apply Hinv].
    intros ([k st] & Heq & Hin)%list_elem_of_fmap. simpl in Heq. subst k. by destruct (Hidle st).
  - intros st _. simpl. apply (ei_used _ _ _ _ (inv_entry _ Hx id e He)).
  - intros e'. cbn [with_sessions sy_sessions]. rewrite lookup_insert_eq. intros [= <-] Hg Hu. split; try done.
    + intros st [[= ->]|Hin]%elem_of_cons; [|by destruct (Hidle st)].
      autorewrite with entry. split; [done|]. by destruct (state_of e).
    + intros _. left. exists Executing. left.
    + autorewrite with entry. by destruct (state_of e).
Qed.

Lemma inv_cancel s id owner : Inv s → Inv (handle s (Cancel id owner)).
Proof.
  intros Hinv. cbn [handle]. unfold cancel, cancel_setup.
  apply inv_expire in Hinv as Hx. set (m := expire (sy_now s) (sy_sessions s)) in *.
  destruct (_ ≫= _) as [e|] eqn:Hb; [|done].
  apply bind_Ok in Hb as (e0 & He & Hb). rewrite ok_or_Ok in He. apply bind_unit_Ok in Hb as [_ [= ->]].
  destruct (is_final (state_of e)) eqn:Hf; [done|].
  set (m' := <[id := set_continuation (advance e State_Cancelled) []]> m).
  change (Inv (with_running (with_sessions (with_sessions s m) m') (sy_running s))).
  pose proof (cancel_evolves (sy_now s) (sy_sessions s) id owner) as Hev.
  apply (inv_change (with_sessions s m) m' (sy_running s) id Hx); unfold m'; clear m'.
  - apply (evolves_insert m id e _ He). eapply entry_evolves_trans; [|apply continuation_evolves].
    apply advance_evolves; [|by right]. unfold is_active. autorewrite with entry.
    destruct (sr_in_flight e); done.
  - intros k Hne. cbn [with_sessions sy_sessions]. by rewrite lookup_insert_ne.
  - done.
  - apply Hinv.
  - intros st. apply Hinv.
  - intros e'. cbn [with_sessions sy_sessions]. rewrite lookup_insert_eq. intros [= <-] Hg Hu.
    destruct (inv_entry _ Hx id e He) as [_ _ Hr Hi Ha]. split; autorewrite with entry; try done.
    + intros st Hst. destruct (Hr st Hst) as [? Hap]. split; [done|]. rewrite <-Hap.
      by destruct (state_of e).
    + intros _. by right.
Qed.

Lemma inv_complete s id summary : Inv s → Inv (handle s (StepComplete id summary)).
Proof.
  intros Hinv. cbn [handle]. unfold runs. case_bool_decide as Hrun; [|done].
  destruct (negb (valid_public_text summary 2048)).
  { rewrite finish_failed_terminal. by eapply handle_stop_terminal. }
  pose proof (begin_commit_evolves (sy_sessions s) id) as Hev. unfold begin_setup_commit in *.
  destruct (sy_sessions s !! id) as [e|] eqn:He.
  2: { apply inv_stop; [done..|]. congruence. }
  pose proof (inv_entry _ Hinv id e He) as [Hid Hg Hr Hi Ha]. destruct (Hr _ Hrun) as [Hfl Hap].
  destruct (is_cancelled (state_of e)) eqn:Hc.
  { apply inv_stop; [done|done|intros; by rewrite lookup_insert_ne|].
    rewrite lookup_insert_eq. intros e' [= <-]. autorewrite with entry.
    split; [by destruct (state_of e)|done]. }
  rewrite Hfl in *. cbn [negb] in *.
  assert (∀ st, (id, st) ∉ filter (λ p, p.1 ≠ id) (sy_running s)) as Hidle by (intros; apply stop_self).
  cbn zeta. cbn [fst] in Hev. set (m' := <[id := advance e State_Applying]> (sy_sessions s)) in *.
  change (Inv (with_running (with_sessions s m')
    ((id, Committing) :: filter (λ p, p.1 ≠ id) (sy_running s)))).
  apply (inv_change s m' _ id Hinv Hev); clear Hev; unfold m'; clear m'.
  - intros k Hne. by rewrite lookup_insert_ne.
  - intros k st Hne. rewrite elem_of_cons, stop_other by done. split; [by intros [[= -> _]|]|by right].
  - simpl. apply NoDup_cons. split; [|apply stop_NoDup, Hinv].
    intros ([k st] & Heq & Hin)%list_elem_of_fmap. simpl in Heq. subst k. by destruct (Hidle st).
  - done.
  - intros e'. rewrite lookup_insert_eq. intros [= <-] Hg' Hu. split; autorewrite with entry; try done.
    + intros st [[= ->]|Hin]%elem_of_cons; [done|by destruct (Hidle st)].
    + intros _. left. exists Committing. left.
    + intros _. left.
Qed.

Lemma handle_inv s e : Inv s → admissible s e → Inv (handle s e).
Proof.
  intros Hinv Hadm. destruct e as [d|? ? ? ? ? ?|? ? ? ?|id o|? ?|id d|id c i|? ?|id outcome].
  - destruct Hinv. by split.
  - by apply inv_start.
  - by apply inv_respond.
  - cbn [handle]. unfold get_session, setup_session. by apply inv_expire.
  - by apply inv_cancel.
  - cbn [handle]. unfold runs. case_bool_decide as Hrun; [|done].
    rewrite finish_failed_terminal. by eapply handle_stop_terminal.
  - cbn [handle]. unfold runs. case_bool_decide as Hrun; [|done]. unfold step_interaction.
    assert (∀ e, sy_sessions s !! id = Some e → sr_in_flight e = true ∧ is_applying (state_of e) = false) as He.
    { intros e He. apply (inv_entry _ Hinv) in He as [_ _ Hr _ _]. by apply Hr in Hrun. }
    pose proof (finish_interaction_spec (sy_now s) (sy_sessions s) id c i (λ e H, proj2 (He e H))) as Hspec.
    pose proof (finish_interaction_evolves (sy_now s) (sy_sessions s) id c i (λ e H, proj1 (He e H))) as Hev.
    destruct (finish_setup_interaction _ _ _ _ _) as [m' [snap|err]].
    + destruct Hspec. by apply inv_stop.
    + subst m'. rewrite finish_failed_terminal. by eapply handle_stop_terminal.
  - by apply inv_complete.
  - cbn [handle]. unfold runs. case_bool_decide as Hrun; [|done].
    eapply handle_stop_terminal; [done|done|by destruct outcome as [[]|]..].
Qed.

Lemma run_inv s s' : run s s' → Inv s → Inv s'.
Proof. induction 1; [done|]. intros. apply handle_inv; auto. Qed.

Lemma initial_inv now : Inv (initial now).
Proof.
  split; simpl; try done; [constructor|by intros ? ? ?%not_elem_of_nil|].
  unfold active_map, MAX_ACTIVE_SESSIONS. rewrite map_filter_empty, map_size_empty. lia.
Qed.

(** ** Along a run *)

Lemma handle_used s e : sy_used s ⊆ sy_used (handle s e).
Proof.
  destruct e; cbn [handle]; unfold runs, begin_setup_commit; repeat case_match; simpl; set_solver.
Qed.

(** A session that exists keeps its identity; new sessions have new identifiers. *)
Lemma handle_evolves s e id e' : Inv s → admissible s e → id ∈ sy_used s →
  sy_sessions (handle s e) !! id = Some e' → ∃ e0, sy_sessions s !! id = Some e0 ∧ entry_evolves e0 e'.
Proof.
  intros Hinv Hadm Hid.
  assert (∀ m', evolves (sy_sessions s) m' → m' !! id = Some e' →
    ∃ e0, sy_sessions s !! id = Some e0 ∧ entry_evolves e0 e') as Hgo by (intros m' Hev; apply Hev).
  assert (∀ st d, awaits_response st = false → is_applying st = false →
    evolves (sy_sessions s) (finish_setup_terminal (sy_sessions s) d st).1) as Hterm
    by (intros; by apply finish_terminal_evolves).
  destruct e as [d|cat plugin wf owner base rnds|i g r o|i o|i o|i d|i c x|i sum|i outcome]; cbn [handle].
  - apply Hgo, evolves_refl.
  - cbn [admissible] in Hadm.
    destruct (prepare_setup_start _ _ _ _ _ _ _ _) as [m' [step|err]] eqn:Hp; simpl.
    + apply prepare_start_Ok in Hp as (_ & _ & _ & path & ->).
      rewrite lookup_insert_ne; [apply Hgo, expire_evolves|]. intros Heq.
      apply (Hadm step eq_refl). by rewrite Heq.
    + apply Hgo. destruct (prepare_start_Err _ _ _ _ _ _ _ _ _ _ Hp) as [-> | ->];
        [apply evolves_refl|apply expire_evolves].
  - unfold respond. pose proof (respond_evolves (sy_now s) (sy_sessions s) i g r o) as Hev.
    destruct (prepare_setup_response _ _ _ _ _ _) as [m' [step|err]]; by apply Hgo.
  - apply Hgo, expire_evolves.
  - unfold cancel. pose proof (cancel_evolves (sy_now s) (sy_sessions s) i o) as Hev.
    destruct (cancel_setup _ _ _ _) as [m' r]. by apply Hgo.
  - destruct (runs s i Executing); [|by apply Hgo, evolves_refl].
    rewrite finish_failed_terminal. by apply Hgo, Hterm.
  - destruct (runs s i Executing) eqn:Hrun; [|by apply Hgo, evolves_refl].
    unfold runs in Hrun. bool_prop. apply Hgo. unfold step_interaction.
    assert (∀ e, sy_sessions s !! i = Some e → sr_in_flight e = true) as Hfl.
    { intros e He. apply (inv_entry _ Hinv) in He as [_ _ Hr _ _]. by destruct (Hr _ Hrun). }
    pose proof (finish_interaction_evolves (sy_now s) (sy_sessions s) i c x Hfl) as Hev.
    destruct (finish_setup_interaction _ _ _ _ _) as [m' [snap|err]]; [done|]. simpl.
    rewrite finish_failed_terminal. eapply evolves_trans; [exact Hev|]. by apply finish_terminal_evolves.
  - destruct (runs s i Executing) eqn:Hrun; [|by apply Hgo, evolves_refl].
    destruct (negb _); [rewrite finish_failed_terminal; by apply Hgo, Hterm|].
    pose proof (begin_commit_evolves (sy_sessions s) i) as Hev.
    destruct (begin_setup_commit _ _) as [m' [[?|]|]]; by apply Hgo.
  - destruct (runs s i Committing); [|by apply Hgo, evolves_refl].
    apply Hgo, Hterm; by destruct outcome as [[]|].
Qed.

(** A commit begins only for a session that exists and was not cancelled. *)
Lemma handle_committing s e id : (id, Committing) ∈ sy_running (handle s e) →
  (id, Committing) ∈ sy_running s ∨
  ∃ e0, sy_sessions s !! id = Some e0 ∧ is_cancelled (state_of e0) = false.
Proof.
  assert (∀ k running, (id, Committing) ∈ filter (λ p : string * Stage, p.1 ≠ k) running →
    (id, Committing) ∈ running) as Hstop by (intros k running [_ ?]%list_elem_of_filter; done).
  destruct e as [d|cat plugin wf owner base rnds|i g r o|i o|i o|i d|i c x|i sum|i outcome]; cbn [handle].
  - by left.
  - destruct (prepare_setup_start _ _ _ _ _ _ _ _) as [m' [step|err]]; simpl; [|by left].
    intros [[= ]|?]%elem_of_cons. by left.
  - destruct (respond _ _ _ _ _ _) as [m' [step|err]]; simpl; [|by left].
    intros [[= ]|?]%elem_of_cons. by left.
  - by left.
  - by left.
  - destruct (runs _ _ _); [|by left]. intros ?%Hstop. by left.
  - destruct (runs _ _ _); [|by left]. intros ?%Hstop. by left.
  - destruct (runs _ _ _); [|by left]. destruct (negb _); [intros ?%Hstop; by left|].
    unfold begin_setup_commit. destruct (sy_sessions s !! i) as [e|] eqn:He; [|intros ?%Hstop; by left].
    destruct (is_cancelled (state_of e)) eqn:Hc; [intros ?%Hstop; by left|].
    destruct (negb (sr_in_flight e)); [intros ?%Hstop; by left|]. simpl.
    intros [[= ->]|?%Hstop]%elem_of_cons; [|by left]. right. by exists e.
  - destruct (runs _ _ _); [|by left]. intros ?%Hstop. by left.
Qed.

(** C13: However requests, steps of plugins and the clock interleave, no plugin has two active
    sessions, no more than 64 sessions are active, at most one step or commit runs for a
    session, and a session that is in flight and was not cancelled has one. *)
Theorem setup_sessions_exclusive now s : run (initial now) s →
  exclusive (sy_sessions s) ∧
  length (active_sessions (sy_sessions s)) ≤ MAX_ACTIVE_SESSIONS ∧
  NoDup (sy_running s).*1 ∧
  ∀ id e, sy_sessions s !! id = Some e → sr_in_flight e = true → is_cancelled (state_of e) = false →
    ∃ stage, (id, stage) ∈ sy_running s.
Proof.
  intros Hrun. destruct (run_inv _ _ Hrun (initial_inv now)) as [Hnd _ He Hx Hc].
  rewrite active_sessions_size. do 3 (split; [done|]).
  intros id e [_ _ _ Hi _]%He Hf Hn. apply Hi in Hf as [?|?]; [done|congruence].
Qed.

(** C19: Once a session is cancelled its settings are never committed: it stays cancelled as long
    as it is remembered, and no commit for it begins, whatever its plugin returns. *)
Theorem cancelled_setup_never_commits now s s' id e : run (initial now) s →
  sy_sessions s !! id = Some e → is_cancelled (state_of e) = true → run s s' →
  (id, Committing) ∉ sy_running s' ∧
  ∀ e', sy_sessions s' !! id = Some e' → is_cancelled (state_of e') = true.
Proof.
  intros Hrun He Hc Hrun'. pose proof (run_inv _ _ Hrun (initial_inv now)) as Hinv.
  assert (Inv s' ∧ id ∈ sy_used s' ∧ (id, Committing) ∉ sy_running s' ∧
    ∀ e', sy_sessions s' !! id = Some e' → is_cancelled (state_of e') = true) as (_ & _ & ? & ?); [|done].
  induction Hrun' as [s|s s' ev Hrun' IH Hadm].
  - split; [done|]. destruct (inv_entry _ Hinv id e He) as [Hid _ Hr _ _]. split; [done|]. split.
    + intros [_ Ha]%Hr. rewrite bool_decide_eq_true_2 in Ha by done. by destruct (state_of e).
    + intros e'. rewrite He. by intros [= <-].
  - destruct (IH Hrun He Hinv) as (Hi & Hid & Hncom & Hst). split; [by apply handle_inv|].
    split; [by apply handle_used|]. split.
    + intros [?|(e0 & He0 & Hc0)]%handle_committing; [done|]. rewrite (Hst e0 He0) in Hc0. done.
    + intros e' He'. apply handle_evolves in He' as (e0 & He0 & Hev); [|done..].
      by apply (ev_cancelled _ _ Hev), Hst.
Qed.

(** What an accepted response leaves: the session in flight, at the generation answered. *)
Lemma prepare_response_Ok now m id g r o m' step : prepare_setup_response now m id g r o = (m', Ok step) →
  ∃ e, m !! id = Some e ∧ sr_owner e = o ∧ sr_in_flight e = false ∧ generation_of e = g ∧
    awaits_response (state_of e) = true ∧ m' = <[id := set_in_flight e true]> (expire now m).
Proof.
  unfold prepare_setup_response. destruct (_ ≫= _) as [[e resp]|] eqn:Hb; [|done]. intros [= <- _].
  apply bind_Ok in Hb as (e0 & He & Hb). rewrite ok_or_Ok in He. apply expire_Some in He as [He _].
  apply bind_unit_Ok in Hb as [Ho Hb]. apply bind_unit_Ok in Hb as [Hfl Hb].
  apply bind_unit_Ok in Hb as [Hg Hb]. apply bind_Ok in Hb as (resp0 & _ & Hb).
  apply bind_unit_Ok in Hb as [Haw [= -> ->]]. apply ensure_Ok in Ho, Hfl, Hg, Haw. bool_prop.
  by exists e.
Qed.

(** Each interaction is answered at most once: between two accepted responses to a session
    its generation has grown, so a client that repeats a response, or a second client that
    answers the same interaction, is refused.  (Generations saturate at 2^64 - 1.) *)
Theorem setup_interaction_answered_once now s id g r o step s' g' r' o' step' :
  run (initial now) s →
  (prepare_setup_response (sy_now s) (sy_sessions s) id g r o).2 = Ok step →
  run (handle s (Respond id g r o)) s' →
  (prepare_setup_response (sy_now s') (sy_sessions s') id g' r' o').2 = Ok step' →
  (g < g')%Z ∨ g = uN_max 64.
Proof.
  intros Hrun H1 Hrun' H2. pose proof (run_inv _ _ Hrun (initial_inv now)) as Hinv.
  destruct (prepare_setup_response (sy_now s) _ _ _ _ _) as [m1 r1] eqn:Hp. simpl in H1. subst r1.
  assert (Inv (handle s (Respond id g r o))) as Hinv1 by (by apply handle_inv).
  pose proof (prepare_response_Ok _ _ _ _ _ _ _ _ Hp) as (e & He & _ & _ & Hg & _ & Hm1).
  assert (id ∈ sy_used s) as Hid by apply (ei_used _ _ _ _ (inv_entry _ Hinv id e He)).
  destruct (decide (g = uN_max 64)) as [|Hmax]; [by right|left].
  assert (Inv s' ∧ id ∈ sy_used s' ∧ ∀ e', sy_sessions s' !! id = Some e' →
    (g < generation_of e')%Z ∨ (generation_of e' = g ∧
      (sr_in_flight e' = true ∨ is_cancelled (state_of e') = true))) as (Hinv' & _ & Hst).
  { clear H2. remember (handle s (Respond id g r o)) as s1 eqn:Hs1.
    induction Hrun' as [s0|s0 s' ev Hrun' IH Hadm].
    - subst s0. split; [done|]. cbn [handle]. unfold respond. rewrite Hp. simpl. split; [done|].
      intros e'. rewrite Hm1, lookup_insert_eq. intros [= <-]. right. destruct e. split; [done|by left].
    - destruct (IH Hs1 Hinv1) as (Hi & Hu & Hst). split; [by apply handle_inv|]. split; [by apply handle_used|].
      intros e' He'. apply handle_evolves in He' as (e0 & He0 & Hev); [|done..].
      pose proof (ei_generation _ _ _ _ (inv_entry _ Hi id e0 He0)) as Hu64.
      destruct (ev_generation _ _ Hev Hu64) as [_ Hle]. destruct (Hst e0 He0) as [?|[Heq Hpend]]; [left; lia|].
      destruct (decide (generation_of e' = g)) as [Heq'|]; [right|left; lia].
      split; [done|]. apply (ev_pending _ _ Hev); [done|congruence|congruence|done]. }
  destruct (prepare_setup_response (sy_now s') _ _ _ _ _) as [m2 r2] eqn:Hp2. simpl in H2. subst r2.
  apply prepare_response_Ok in Hp2 as (e2 & He2 & _ & Hfl2 & Hg2 & Haw2 & _).
  destruct (Hst e2 He2) as [?|[_ [?|Hc]]]; [lia|congruence|]. by destruct (state_of e2).
Qed.

Definition absent {A} : result (ErrorCode * Text) A := Err (Code_NotFound, not_found).

(** A session is private to the actor that started it: to any other actor each request on it
    gets the answer that a session which does not exist gets, and does no more to the
    sessions than forgetting those that have expired. *)
Theorem setup_sessions_private now m id e owner g r :
  m !! id = Some e → sr_owner e ≠ owner →
  respond now m id g r owner = (expire now m, absent) ∧
  get_session now m id owner = (expire now m, absent) ∧
  cancel now m id owner = (expire now m, absent) ∧
  (respond now (delete id m) id g r owner).2 = absent ∧
  (get_session now (delete id m) id owner).2 = absent ∧
  (cancel now (delete id m) id owner).2 = absent.
Proof.
  intros He Ho. assert (expire now (delete id m) !! id = None) as Hd.
  { apply map_lookup_filter_None_2. left. apply lookup_delete_eq. }
  unfold respond, prepare_setup_response, get_session, setup_session, cancel, cancel_setup.
  rewrite Hd. destruct (expire now m !! id) as [e'|] eqn:He'; simpl; [|done].
  apply expire_Some in He' as [He' _]. assert (e' = e) as -> by congruence.
  unfold check_owner. by rewrite bool_decide_eq_false_2.
Qed.

(** ** Committing *)

(** C20: A setup is committed only against the settings that it started from: whatever other
    patches come between the check of [commit_setup] and its own patch, if that patch is
    committed then the managed configuration is still the one that was checked, in which
    every key that the plugin sets has the value it had when the session began. *)
Theorem setup_commit_unconflicted managed snapshot baseline settings patch attempts managed1 committed
    plugins saved managed2 changes :
  commit_plan managed snapshot baseline settings = Ok patch →
  run_attempts managed attempts = (managed1, committed) →
  patch_config managed1 {| at_patch := patch; at_plugins := plugins; at_saved := saved |} = (managed2, Ok changes) →
  managed1 = managed ∧
  (∀ k v, (k, v) ∈ settings → opt_value_eqb
    (dotted_value (current_settings managed1 (ss_plugin snapshot)) k) (dotted_value (Some baseline) k) = true) ∧
  mc_revision managed2 = (mc_revision managed + 1)%Z ∧
  Forall2 (λ p mutation, ∃ value, setting_value p.2 = Ok value ∧
    mutation = SetPluginSetting (ss_plugin snapshot) p.1 value) settings (mutations patch).
Proof.
  unfold commit_plan. destruct (settings_conflict _ _ _ _) eqn:Hc; [done|].
  intros (muts & Hm & Hpatch)%bind_Ok Hrun Hcommit.
  apply patch_config_Ok in Hcommit as (Hrev & Hcs & Hrev2 & _). simpl in Hrev.
  assert (patch = {| expected_revision := mc_revision managed; mutations := muts |}) as ->
    by (destruct muts; congruence).
  pose proof (patches_serialised managed attempts) as Hser. rewrite Hrun in Hser.
  destruct Hser as (_ & _ & Hrev1 & Hlast). simpl in Hrev.
  assert (committed = []) as -> by (destruct committed; [done|simpl in *; lia]).
  simpl in Hlast. subst managed1. split; [done|]. split; [|split].
  - intros k v Hin. unfold settings_conflict in Hc. rewrite <-not_true_iff_false, existsb_exists in Hc.
    destruct (opt_value_eqb _ _) eqn:Heq; [done|]. destruct Hc. exists (k, v).
    split; [by apply list_elem_of_In|]. simpl. by rewrite Heq.
  - congruence.
  - apply try_map_Ok in Hm. eapply Forall2_impl; [exact Hm|]. intros [k v] mutation H. cbn in *.
    apply bind_Ok in H as (value & Hv & [= <-]). by exists value.
Qed.

(** ** A conversation *)

Fixpoint handle_all (s : System) (events : list Event) : System :=
  match events with [] => s | e :: events => handle_all (handle s e) events end.
Definition admissibleb (s : System) (e : Event) : bool :=
  match e with
  | Tick elapsed => (0 <=? elapsed)%Z
  | Start catalogue plugin workflow owner baseline randoms =>
      match (prepare_setup_start (sy_now s) catalogue (sy_sessions s) plugin workflow owner baseline
        randoms).2 with
      | Ok step => bool_decide (ps_session step ∉ sy_used s)
      | Err _ => true
      end
  | _ => true
  end.
Fixpoint all_admissible (s : System) (events : list Event) : bool :=
  match events with
  | [] => true
  | e :: events => admissibleb s e && all_admissible (handle s e) events
  end.

Lemma run_all s0 s events : run s0 s → all_admissible s events = true → run s0 (handle_all s events).
Proof.
  revert s. induction events as [|e events IH]; intros s Hrun; [done|].
  intros [Ha Hall]%andb_true_iff. apply IH; [|done]. apply run_step; [done|].
  destruct e; try done; simpl in *; [by apply Z.leb_le|].
  intros step Hstep. rewrite Hstep in Ha. by bool_prop.
Qed.

Module Link.
Definition catalogue : list CataloguePlugin :=
  [{| cp_name := "hue"; cp_path := "/hue.so"; cp_setup_workflows := ["link"] |}]%string.
Definition owner : RateLimitKey := Key_Uid 1000.
Definition start (n : Z) : Event := Start catalogue "hue" "link" owner [] [repeat n 16].
Definition id : string := hex (repeat 1%Z 16).
Definition press : PluginSetupInteraction := Ask_PhysicalAction "Press the button.".
Definition asked : System :=
  handle_all (initial 0) [start 1; StepInteraction id [7%Z] press].
Definition cancelled : System :=
  handle_all asked [Respond id 1 Answer_Confirmed owner; Cancel id owner].
Definition stuck : System := handle_all cancelled [StepInteraction id [] press].
Definition answered : System := handle asked (Respond id 1 Answer_Confirmed owner).
Definition again : System := handle_all answered [StepInteraction id [8%Z] press].
Definition entry (s : System) : SetupSessionRecord :=
  default (initial_record 0 "" "" "" "" owner []) (sy_sessions s !! id).
Definition step (s : System) (generation : Z) : PreparedSetupStep :=
  match (prepare_setup_response (sy_now s) (sy_sessions s) id generation Answer_Confirmed owner).2 with
  | Ok step => step
  | Err _ => {| ps_session := ""; ps_path := "";
      ps_request := {| rq_workflow := ""; rq_continuation := []; rq_response := None |} |}
  end.
End Link.

(** A session that is cancelled while a step of its plugin runs keeps its plugin busy after
    the step has returned an interaction: nothing runs, yet a new setup is refused until the
    cancelled session expires. *)
Example cancelled_session_blocks_plugin :
  sy_running Link.stuck = [] ∧ state_of (Link.entry Link.stuck) = State_Cancelled ∧
  (prepare_setup_start (sy_now Link.stuck) Link.catalogue (sy_sessions Link.stuck) "hue" "link"
    Link.owner [] [repeat 2%Z 16]).2 =
  Err (Fmt "plugin {} already has an active setup session" [AStr "hue"]).
Proof. vm_compute. done. Qed.

(** The first step of a session cannot be cancelled: the request leaves the session as it is. *)
Example initial_step_not_cancelled :
  let s := handle (initial 0) (Link.start 1) in
  state_of (Link.entry (handle s (Cancel Link.id Link.owner))) =
    State_Failed (Lit "setup has not produced its initial interaction") ∧
  sy_running (handle s (Cancel Link.id Link.owner)) = [(Link.id, Executing)].
Proof. vm_compute. done. Qed.

Lemma link_run events : all_admissible (initial 0) events = true →
  run (initial 0) (handle_all (initial 0) events).
Proof. apply run_all, run_here. Qed.

Lemma setup_sessions_exclusive_witness :
  run (initial 0) Link.asked ∧ exclusive (sy_sessions Link.asked).
Proof.
  assert (run (initial 0) Link.asked) as Hrun by (apply link_run; vm_compute; reflexivity).
  split; [exact Hrun|]. apply (setup_sessions_exclusive 0 Link.asked Hrun).
Defined.

Lemma cancelled_setup_never_commits_witness :
  run (initial 0) Link.cancelled ∧ (Link.id, Committing) ∉ sy_running Link.stuck.
Proof.
  assert (run (initial 0) Link.asked) as H1 by (apply link_run; vm_compute; reflexivity).
  assert (run (initial 0) Link.cancelled) as H2 by (apply run_all; [exact H1|vm_compute; reflexivity]).
  split; [exact H2|].
  apply (cancelled_setup_never_commits 0 Link.cancelled Link.stuck Link.id (Link.entry Link.cancelled) H2).
  - vm_compute; reflexivity.
  - vm_compute; reflexivity.
  - apply run_all; [apply run_here|vm_compute; reflexivity].
Defined.

Lemma setup_interaction_answered_once_witness : (1 < 2)%Z ∨ 1%Z = uN_max 64.
Proof.
  apply (setup_interaction_answered_once 0 Link.asked Link.id 1 Answer_Confirmed Link.owner
    (Link.step Link.asked 1) Link.again 2 Answer_Confirmed Link.owner (Link.step Link.again 2)).
  - apply link_run; vm_compute; reflexivity.
  - vm_compute; reflexivity.
  - apply run_all; [apply run_here|vm_compute; reflexivity].
  - vm_compute; reflexivity.
Defined.

Lemma setup_sessions_private_witness :
  respond 0 (sy_sessions Link.asked) Link.id 1 Answer_Confirmed (Key_Uid 1001) =
  (expire 0 (sy_sessions Link.asked), absent).
Proof.
  apply (setup_sessions_private 0 (sy_sessions Link.asked) Link.id (Link.entry Link.asked)).
  - vm_compute; reflexivity.
  - vm_compute; discriminate.
Defined.

Definition link_settings : list (string * PluginSetupSettingValue) := [("rate"%string, Plugin_Integer 20)].
Definition link_patch : ManagementPatch := {|
  expected_revision := 4; mutations := [SetPluginSetting "hue" "rate" (Setting_Integer 20)] |}.
Definition link_snapshot : PluginSetupSession := sr_snapshot (Link.entry Link.asked).
Definition link_commit : ManagedConfig * result PatchError ManagementChangeSet :=
  patch_config Hue.config {| at_patch := link_patch; at_plugins := [Hue.plugin]; at_saved := Ok tt |}.

Lemma setup_commit_unconflicted_witness :
  commit_plan Hue.config link_snapshot [] link_settings = Ok link_patch ∧
  mc_revision link_commit.1 = 5%Z.
Proof.
  assert (commit_plan Hue.config link_snapshot [] link_settings = Ok link_patch) as Hplan
    by (vm_compute; reflexivity).
  split; [exact Hplan|].
  destruct (setup_commit_unconflicted Hue.config link_snapshot [] link_settings link_patch [] Hue.config []
    [Hue.plugin] (Ok tt) link_commit.1
    {| cs_revision := 5; cs_changes := [PluginSettingChanged "hue" "rate" false] |} Hplan eq_refl)
    as (_ & _ & Hrev & _); [vm_compute; reflexivity|exact Hrev].
Defined.
