(* ===== verification/Abi.v ===== *)
(** * Codes of the plugin ABI: [luminate-plugin-api/src/abi.rs]

    Enumerations cross the plugin boundary as integers.  [AbiCode] is what both sides rely
    on: a code is parsed to the value it stands for, and any other integer is refused. *)

From S2P Require Import Prelude Descriptors.

Class AbiCode (A : Type) := {
  to_abi : A → Z;
  from_abi : Z → option A;
  from_to_abi a : from_abi (to_abi a) = Some a;
  from_abi_Some code a : from_abi code = Some a → to_abi a = code
}.

(** A code that is none of the listed ones has no value. *)
Fixpoint from_codes {A} (codes : list (Z * A)) (code : Z) : option A :=
  match codes with
  | [] => None
  | (c, a) :: codes => if (c =? code)%Z then Some a else from_codes codes code
  end.

Lemma from_codes_Some {A} (codes : list (Z * A)) code a :
  from_codes codes code = Some a → (code, a) ∈ codes.
Proof.
  induction codes as [|[c b] codes IH]; simpl; [done|].
  destruct (Z.eqb_spec c code) as [->|]; [intros [= ->]; left|right; auto].
Qed.

Inductive PluginBus := Bus_Unknown | Bus_Usb | Bus_Hid | Bus_I2c | Bus_Platform | Bus_Network.
Inductive ProbeHintKind := Hint_None | Hint_UsbVidPid | Hint_HidVidPid | Hint_DmiMatch.
Inductive PluginLogLevel := Log_Error | Log_Warn | Log_Info | Log_Debug | Log_Trace.
Inductive ProbeOutcome := Probe_Unsupported | Probe_Dormant | Probe_Ready.

Definition PluginBus_to_abi (b : PluginBus) : Z :=
  match b with
  | Bus_Unknown => 0 | Bus_Usb => 1 | Bus_Hid => 2 | Bus_I2c => 3 | Bus_Platform => 4 | Bus_Network => 5
  end.
Definition PluginBus_from_abi : Z → option PluginBus := from_codes
  [(0, Bus_Unknown); (1, Bus_Usb); (2, Bus_Hid); (3, Bus_I2c); (4, Bus_Platform); (5, Bus_Network)]%Z.

Definition ProbeHintKind_to_abi (k : ProbeHintKind) : Z :=
  match k with Hint_None => 0 | Hint_UsbVidPid => 1 | Hint_HidVidPid => 2 | Hint_DmiMatch => 3 end.
Definition ProbeHintKind_from_abi : Z → option ProbeHintKind := from_codes
  [(0, Hint_None); (1, Hint_UsbVidPid); (2, Hint_HidVidPid); (3, Hint_DmiMatch)]%Z.

Definition PluginLogLevel_to_abi (l : PluginLogLevel) : Z :=
  match l with Log_Error => 0 | Log_Warn => 1 | Log_Info => 2 | Log_Debug => 3 | Log_Trace => 4 end.
Definition PluginLogLevel_from_abi : Z → option PluginLogLevel := from_codes
  [(0, Log_Error); (1, Log_Warn); (2, Log_Info); (3, Log_Debug); (4, Log_Trace)]%Z.

Definition ProbeOutcome_to_abi (o : ProbeOutcome) : Z :=
  match o with Probe_Unsupported => 0 | Probe_Dormant => 1 | Probe_Ready => 2 end.
Definition ProbeOutcome_from_abi : Z → option ProbeOutcome := from_codes
  [(0, Probe_Unsupported); (1, Probe_Dormant); (2, Probe_Ready)]%Z.

Definition RescanReason_to_abi (r : RescanReason) : Z :=
  match r with Rescan_Resume => 0 | Rescan_DeviceChange => 1 | Rescan_Operator => 2 end.
Definition RescanReason_from_abi : Z → option RescanReason := from_codes
  [(0, Rescan_Resume); (1, Rescan_DeviceChange); (2, Rescan_Operator)]%Z.

Definition abi_bool (byte : Z) : bool := negb (byte =? 0)%Z.

(** Proves both laws of an enumeration from its list of codes. *)
Ltac abi_laws :=
  [> intros a; by destruct a
   | intros code a H%from_codes_Some; rewrite !elem_of_cons, elem_of_nil in H; naive_solver].

#[export] Instance PluginBus_abi : AbiCode PluginBus.
Proof. refine {| to_abi := PluginBus_to_abi; from_abi := PluginBus_from_abi |}; abi_laws. Defined.
#[export] Instance ProbeHintKind_abi : AbiCode ProbeHintKind.
Proof. refine {| to_abi := ProbeHintKind_to_abi; from_abi := ProbeHintKind_from_abi |}; abi_laws. Defined.
#[export] Instance PluginLogLevel_abi : AbiCode PluginLogLevel.
Proof. refine {| to_abi := PluginLogLevel_to_abi; from_abi := PluginLogLevel_from_abi |}; abi_laws. Defined.
#[export] Instance ProbeOutcome_abi : AbiCode ProbeOutcome.
Proof. refine {| to_abi := ProbeOutcome_to_abi; from_abi := ProbeOutcome_from_abi |}; abi_laws. Defined.
#[export] Instance RescanReason_abi : AbiCode RescanReason.
Proof. refine {| to_abi := RescanReason_to_abi; from_abi := RescanReason_from_abi |}; abi_laws. Defined.

(** Codes are injective for every enumeration of the interface. *)
#[export] Instance to_abi_inj `{AbiCode A} : Inj (=) (=) (to_abi (A := A)).
Proof. intros a b Hab. apply (inj Some). by rewrite <-(from_to_abi a), <-(from_to_abi b), Hab. Qed.
