(* ===== verification/Catalogue.v ===== *)
(** * The plugin catalogue: [luminated/src/plugins/catalogue.rs]

    What the daemon knows of each installed plugin: its schema, its settings in every layer
    and resolved, whether it should run, and what is reported of that to administrators.
    Inspecting a plugin and encoding its settings are arguments. *)

From S2P Require Import Prelude Model Abi PluginManager Toml Settings ManagedConfig.

(** ** Data *)

(** [kind], [label] and the other texts of a setting are reported as they are. *)
Record InspectedPluginSetting := {
  is_schema : PluginSettingSchema;
  is_label : string;
  is_description : string
}.

Record InspectedPlugin := {
  ip_name : string;
  ip_version : string;
  ip_buses : list PluginBus;
  ip_settings : list InspectedPluginSetting;
  ip_setup_workflows : list string
}.

Record PluginCandidate := {
  ca_path : string;
  ca_explicit : bool;
  ca_required : bool;
  ca_activation : ManagedPluginActivation;
  ca_reconciliation : option ReconciliationPolicy;
  ca_locked_settings : list string;
  ca_configuration : Table
}.

Inductive ReportedSettingValue := Unset | Visible (value : SettingValue) | Redacted.

Record ReportedSettingSchema := {
  rs_key : string;
  rs_label : string;
  rs_description : string;
  rs_kind : PluginSettingKind;
  rs_default : ReportedSettingValue;
  rs_required : bool;
  rs_sensitive : bool;
  rs_minimum : option f64;
  rs_maximum : option f64;
  rs_constraints : ReportedSettingValue
}.

Record ManagedPlugin := {
  mg_name : string;
  mg_version : string;
  mg_required : bool;
  mg_desired_enabled : option bool;
  mg_desired_reconciliation : option ReconciliationPolicy;
  mg_effective_reconciliation : option ReconciliationPolicy;
  mg_effective_enabled : bool;
  mg_runtime : PluginRuntimeState;
  mg_activation_locked : bool;
  mg_schema : list ReportedSettingSchema;
  mg_desired_settings : gmap string ReportedSettingValue;
  mg_effective_settings : gmap string ReportedSettingValue;
  mg_locked_settings : list string
}.

Record PluginCatalogueEntry := {
  ce_name : string;
  ce_version : string;
  ce_path : string;
  ce_required : bool;
  ce_activation_inputs : PluginActivationInputs;
  ce_global_activation : ManagedPluginActivation;
  ce_global_reconciliation : option ReconciliationPolicy;
  ce_desired_enabled : option bool;
  ce_effective_enabled : bool;
  ce_effective_reconciliation : option ReconciliationPolicy;
  ce_configuration_cbor : list Z;
  ce_global_settings : Table;
  ce_locked_settings : list string;
  ce_validation_schema : list PluginSettingSchema;
  ce_setup_workflows : list string;
  ce_runtime : PluginRuntimeState;
  ce_management : ManagedPlugin
}.

(** ** Reports *)

Fixpoint setting_value (value : Value) : result Text SettingValue :=
  match value with
  | V_String s => Ok (Setting_String s)
  | V_Integer z => Ok (Setting_Integer z)
  | V_Float f => Ok (Setting_Number f)
  | V_Boolean b => Ok (Setting_Boolean b)
  | V_Datetime _ => Err (Lit "plugin setting metadata contains an unsupported datetime value")
  | V_Array vs =>
      vs ← (fix go vs := match vs with
        | [] => Ok []
        | v :: vs => v ← setting_value v; vs ← go vs; Ok (v :: vs)
        end) vs;
      Ok (Setting_Array vs)
  | V_Table t =>
      t ← (fix go (t : Table) : result Text (list (string * SettingValue)) := match t with
        | [] => Ok []
        | (k, v) :: t => v ← setting_value v; t ← go t; Ok ((k, v) :: t)
        end) t;
      Ok (Setting_Table t)
  end.

Definition reported_value (value : option Value) (sensitive : bool) : result Text ReportedSettingValue :=
  match value with
  | None => Ok Unset
  | Some value => if sensitive then Ok Redacted else v ← setting_value value; Ok (Visible v)
  end.

Definition reported_settings (settings : Table) (schema : list PluginSettingSchema) :
    result Text (gmap string ReportedSettingValue) :=
  flattened ← flatten_settings settings;
  try_fold (λ values setting,
    value ← reported_value (flattened !! key setting) (sensitive setting);
    Ok (<[key setting := value]> values)) ∅ schema.

Definition reported_setting_schema (setting : InspectedPluginSetting) : result Text ReportedSettingSchema :=
  let s := is_schema setting in
  default ← reported_value (default_value s) (sensitive s);
  constraints ← reported_value (constraints s) (sensitive s);
  Ok {| rs_key := key s; rs_label := is_label setting; rs_description := is_description setting;
        rs_kind := kind s; rs_default := default; rs_required := required s;
        rs_sensitive := sensitive s; rs_minimum := minimum s; rs_maximum := maximum s;
        rs_constraints := constraints |}.

(** ** Resolution *)

Definition automatically_selected (mode : PluginActivationMode) (buses : list PluginBus) : bool :=
  match mode with
  | Mode_Explicit => false
  | Mode_HostAttached =>
      negb (bool_decide (length buses = 0)) &&
      forallb (λ bus, match bus with Bus_Unknown | Bus_Network => false | _ => true end) buses
  | Mode_All => true
  end.

Definition managed_plugin (managed : ManagedConfig) (name : string) : option ManagedPluginConfig :=
  List.find (λ plugin, bool_decide (mp_name plugin = name)) (mc_plugins managed).
Definition managed_settings (managed : ManagedConfig) (name : string) : Table :=
  from_option mp_settings [] (managed_plugin managed name).

Definition or_else {A} (o o' : option A) : option A := match o with Some a => Some a | None => o' end.

Section catalogue.
Context (encode_configuration : Table → result Text (list Z)).
Context (mode : PluginActivationMode).

Definition resolve_candidate (managed : ManagedConfig) (candidate : PluginCandidate)
    (inspected : InspectedPlugin) : result Text PluginCatalogueEntry :=
  let plugin := managed_plugin managed (ip_name inspected) in
  let inputs := {| pai_explicit := ca_explicit candidate; pai_required := ca_required candidate;
    pai_automatically_selected := automatically_selected mode (ip_buses inspected) |} in
  let effective_enabled := plugin_is_enabled mode (ca_activation candidate) plugin inputs in
  let schema := is_schema <$> ip_settings inspected in
  let overrides := managed_settings managed (ip_name inspected) in
  settings ← map_err (Nested "resolving settings for plugin {}" [AStr (ip_name inspected)])
    (merge_plugin_settings (ca_configuration candidate) overrides (ca_locked_settings candidate) schema);
  desired_settings ← reported_settings overrides schema;
  effective_settings ← reported_settings settings schema;
  reported_schema ← try_map reported_setting_schema (ip_settings inspected);
  let desired_reconciliation := plugin ≫= mp_reconciliation in
  let effective_reconciliation := or_else desired_reconciliation (ca_reconciliation candidate) in
  configuration_cbor ← encode_configuration settings;
  let runtime := if effective_enabled then Runtime_Loading else Runtime_Inactive in
  Ok {| ce_name := ip_name inspected; ce_version := ip_version inspected; ce_path := ca_path candidate;
        ce_required := ca_required candidate; ce_activation_inputs := inputs;
        ce_global_activation := ca_activation candidate;
        ce_global_reconciliation := ca_reconciliation candidate;
        ce_desired_enabled := plugin ≫= mp_enabled; ce_effective_enabled := effective_enabled;
        ce_effective_reconciliation := effective_reconciliation;
        ce_configuration_cbor := configuration_cbor; ce_global_settings := ca_configuration candidate;
        ce_locked_settings := ca_locked_settings candidate; ce_validation_schema := schema;
        ce_setup_workflows := ip_setup_workflows inspected; ce_runtime := runtime;
        ce_management := {|
          mg_name := ip_name inspected; mg_version := ip_version inspected;
          mg_required := ca_required candidate; mg_desired_enabled := plugin ≫= mp_enabled;
          mg_desired_reconciliation := desired_reconciliation;
          mg_effective_reconciliation := effective_reconciliation;
          mg_effective_enabled := effective_enabled; mg_runtime := runtime;
          mg_activation_locked := match ca_activation candidate with Activation_Managed => false | _ => true end;
          mg_schema := reported_schema; mg_desired_settings := desired_settings;
          mg_effective_settings := effective_settings;
          mg_locked_settings := ca_locked_settings candidate |} |}.

(** *** Optional plugins whose settings do not resolve *)

Definition relax (s : PluginSettingSchema) : PluginSettingSchema :=
  {| key := key s; kind := kind s; default_value := default_value s; required := false;
     sensitive := sensitive s; minimum := minimum s; maximum := maximum s; constraints := constraints s |}.
Definition relax_inspected (p : InspectedPlugin) : InspectedPlugin :=
  {| ip_name := ip_name p; ip_version := ip_version p; ip_buses := ip_buses p;
     ip_settings := (λ s, {| is_schema := relax (is_schema s); is_label := is_label s;
                             is_description := is_description s |}) <$> ip_settings p;
     ip_setup_workflows := ip_setup_workflows p |}.

Definition sanitize_candidate (c : PluginCandidate) : PluginCandidate :=
  {| ca_path := ca_path c; ca_explicit := ca_explicit c; ca_required := ca_required c;
     ca_activation := ca_activation c; ca_reconciliation := ca_reconciliation c;
     ca_locked_settings := ca_locked_settings c; ca_configuration := [] |}.
Fixpoint clear_settings (plugins : list ManagedPluginConfig) (name : string) : list ManagedPluginConfig :=
  match plugins with
  | [] => []
  | p :: plugins =>
      if bool_decide (mp_name p = name) then set_settings p [] :: plugins
      else p :: clear_settings plugins name
  end.
Definition sanitize_managed (managed : ManagedConfig) (name : string) : ManagedConfig :=
  {| mc_revision := mc_revision managed; mc_daemon := mc_daemon managed;
     mc_plugins := clear_settings (mc_plugins managed) name |}.

Definition with_required (s : PluginSettingSchema) (v : bool) : PluginSettingSchema :=
  {| key := key s; kind := kind s; default_value := default_value s; required := v;
     sensitive := sensitive s; minimum := minimum s; maximum := maximum s; constraints := constraints s |}.
Definition report_required (s : ReportedSettingSchema) (v : bool) : ReportedSettingSchema :=
  {| rs_key := rs_key s; rs_label := rs_label s; rs_description := rs_description s;
     rs_kind := rs_kind s; rs_default := rs_default s; rs_required := v; rs_sensitive := rs_sensitive s;
     rs_minimum := rs_minimum s; rs_maximum := rs_maximum s; rs_constraints := rs_constraints s |}.

(** What [iter_mut().zip(..)] changes: the elements that have a partner. *)
Fixpoint zip_set {A B} (f : A → B → A) (xs : list A) (ys : list B) : list A :=
  match xs, ys with
  | x :: xs, y :: ys => f x y :: zip_set f xs ys
  | xs, _ => xs
  end.

Definition set_management (e : PluginCatalogueEntry) (m : ManagedPlugin) : PluginCatalogueEntry :=
  let 'Build_PluginCatalogueEntry a b c d f g h i j k l n o p q r _ := e in
  Build_PluginCatalogueEntry a b c d f g h i j k l n o p q r m.
Definition set_ce_runtime (e : PluginCatalogueEntry) (v : PluginRuntimeState) : PluginCatalogueEntry :=
  let 'Build_PluginCatalogueEntry a b c d f g h i j k l n o p q _ s := e in
  Build_PluginCatalogueEntry a b c d f g h i j k l n o p q v s.
Definition set_mg_runtime (m : ManagedPlugin) (v : PluginRuntimeState) : ManagedPlugin :=
  let 'Build_ManagedPlugin a b c d e f g _ i j k l n := m in Build_ManagedPlugin a b c d e f g v i j k l n.
Definition set_mg_desired_settings (m : ManagedPlugin) (v : gmap string ReportedSettingValue) :
    ManagedPlugin :=
  let 'Build_ManagedPlugin a b c d e f g h i j _ l n := m in Build_ManagedPlugin a b c d e f g h i j v l n.
Definition set_mg_schema (m : ManagedPlugin) (v : list ReportedSettingSchema) : ManagedPlugin :=
  let 'Build_ManagedPlugin a b c d e f g h i _ k l n := m in Build_ManagedPlugin a b c d e f g h i v k l n.
Definition set_ce_global_settings (e : PluginCatalogueEntry) (v : Table) : PluginCatalogueEntry :=
  let 'Build_PluginCatalogueEntry a b c d f g h i j k l _ o p q r s := e in
  Build_PluginCatalogueEntry a b c d f g h i j k l v o p q r s.
Definition set_ce_schema (e : PluginCatalogueEntry) (v : list PluginSettingSchema) : PluginCatalogueEntry :=
  let 'Build_PluginCatalogueEntry a b c d f g h i j k l n o _ q r s := e in
  Build_PluginCatalogueEntry a b c d f g h i j k l n o v q r s.

Definition set_runtime (e : PluginCatalogueEntry) (runtime : PluginRuntimeState) : PluginCatalogueEntry :=
  set_ce_runtime (set_management e (set_mg_runtime (ce_management e) runtime)) runtime.

Definition resolve_invalid_optional_candidate (managed : ManagedConfig) (candidate : PluginCandidate)
    (inspected : InspectedPlugin) (error : Text) : result Text PluginCatalogueEntry :=
  let relaxed := relax_inspected inspected in
  entry ← match resolve_candidate managed candidate relaxed with
    | Ok entry => Ok entry
    | Err _ => resolve_candidate (sanitize_managed managed (ip_name inspected))
        (sanitize_candidate candidate) relaxed
    end;
  let entry := set_ce_global_settings entry (ca_configuration candidate) in
  entry ← match managed_plugin managed (ip_name inspected) with
    | Some plugin =>
        desired ← reported_settings (mp_settings plugin) (ce_validation_schema entry);
        Ok (set_management entry (set_mg_desired_settings (ce_management entry) desired))
    | None => Ok entry
    end;
  let entry := set_ce_schema entry (zip_set (λ s i, with_required s (required (is_schema i)))
    (ce_validation_schema entry) (ip_settings inspected)) in
  let entry := set_management entry (set_mg_schema (ce_management entry)
    (zip_set (λ s i, report_required s (required (is_schema i))) (mg_schema (ce_management entry))
      (ip_settings inspected))) in
  Ok (if ce_effective_enabled entry then set_runtime entry (Runtime_Failed error) else entry).

(** [build_catalogue]: each candidate with the outcome of its inspection. *)
Definition catalogue_step (managed : ManagedConfig) (acc : gset string * list PluginCatalogueEntry)
    (c : PluginCandidate * result Text InspectedPlugin) :
    result Text (gset string * list PluginCatalogueEntry) :=
  let '(names, entries) := acc in
  let '(candidate, inspection) := c in
  match inspection with
  | Err error =>
      if ca_required candidate
      then Err (Nested "required plugin could not be inspected: {}" [AStr (ca_path candidate)] error)
      else Ok acc
  | Ok inspected =>
      if bool_decide (ip_name inspected ∈ names) then
        if ca_required candidate
        then Err (Fmt "required plugin has duplicate installed name {}: {}"
          [AStr (ip_name inspected); AStr (ca_path candidate)])
        else Ok acc
      else
        let names := {[ip_name inspected]} ∪ names in
        match resolve_candidate managed candidate inspected with
        | Ok entry => Ok (names, entries ++ [entry])
        | Err error =>
            if ca_required candidate then Err error
            else
              entry ← resolve_invalid_optional_candidate managed candidate inspected error;
              Ok (names, entries ++ [entry])
        end
  end.
Definition build_catalogue (managed : ManagedConfig)
    (candidates : list (PluginCandidate * result Text InspectedPlugin)) :
    result Text (list PluginCatalogueEntry) :=
  acc ← try_fold (catalogue_step managed) (∅, []) candidates; Ok acc.2.

(** ** After a commit *)

(** [apply_managed]: what it leaves of the entry, also when it fails midway. *)
Definition apply_managed (entry : PluginCatalogueEntry) (managed : ManagedConfig) :
    PluginCatalogueEntry * result Text unit :=
  let plugin := managed_plugin managed (ce_name entry) in
  let overrides := managed_settings managed (ce_name entry) in
  match map_err (Nested "resolving settings for plugin {}" [AStr (ce_name entry)])
    (merge_plugin_settings (ce_global_settings entry) overrides (ce_locked_settings entry)
      (ce_validation_schema entry)) with
  | Err e => (entry, Err e)
  | Ok settings =>
      let desired_enabled := plugin ≫= mp_enabled in
      let effective_enabled := plugin_is_enabled mode (ce_global_activation entry) plugin
        (ce_activation_inputs entry) in
      let 'Build_PluginCatalogueEntry a b c d f g h _ _ rec cbor n o p q r mg := entry in
      let updated rec cbor mg :=
        Build_PluginCatalogueEntry a b c d f g h desired_enabled effective_enabled rec cbor n o p q r mg in
      match encode_configuration settings with
      | Err e => (updated rec cbor mg, Err e)
      | Ok cbor =>
          let desired_reconciliation := plugin ≫= mp_reconciliation in
          let effective_reconciliation := or_else desired_reconciliation h in
          let 'Build_ManagedPlugin ma mb mc _ _ _ _ mh mi mj mk ml mn := mg in
          let reported desired effective := Build_ManagedPlugin ma mb mc desired_enabled
            desired_reconciliation effective_reconciliation effective_enabled mh mi mj desired effective mn in
          match reported_settings overrides p with
          | Err e => (updated effective_reconciliation cbor (reported mk ml), Err e)
          | Ok desired =>
              match reported_settings settings p with
              | Err e => (updated effective_reconciliation cbor (reported desired ml), Err e)
              | Ok effective => (updated effective_reconciliation cbor (reported desired effective), Ok tt)
              end
          end
      end
  end.

(** [apply_managed_config]: entry after entry until one fails; the names of those whose
    configuration changed. *)
Fixpoint apply_managed_config (entries : list PluginCatalogueEntry) (managed : ManagedConfig) :
    list PluginCatalogueEntry * result Text (list string) :=
  match entries with
  | [] => ([], Ok [])
  | entry :: entries =>
      match apply_managed entry managed with
      | (entry', Err e) => (entry' :: entries, Err e)
      | (entry', Ok _) =>
          let '(entries', r) := apply_managed_config entries managed in
          (entry' :: entries',
           changes ← r;
           Ok (if bool_decide (ce_configuration_cbor entry' = ce_configuration_cbor entry)
               then changes else ce_name entry :: changes))
      end
  end.

(** [management_plugins], [manageable_plugins] and [setup_workflows] of the plugin manager *)
Definition management_plugins (entries : list PluginCatalogueEntry) : list ManagedPlugin :=
  ce_management <$> entries.
Definition manageable (entry : PluginCatalogueEntry) : ManageablePlugin :=
  {| mn_name := ce_name entry; mn_global_settings := ce_global_settings entry;
     mn_locked_settings := ce_locked_settings entry; mn_schema := ce_validation_schema entry |}.
Definition manageable_plugins (entries : list PluginCatalogueEntry) : list ManageablePlugin :=
  manageable <$> entries.
Definition setup_workflows (entries : list PluginCatalogueEntry) (name : string) : option (list string) :=
  ce_setup_workflows <$> List.find (λ entry, bool_decide (ce_name entry = name)) entries.

(** [patch_management] of [daemon/dispatch/management.rs] up to the reconciliation of the
    plugin hosts, whose input is the list of changed configurations. *)
Inductive PatchOutcome :=
| PatchRefused (error : PatchError)
| ViewNotUpdated (error : Text)
| Patched (changes : ManagementChangeSet) (configuration_changes : list string).

Definition patch_management (config : ManagedConfig) (entries : list PluginCatalogueEntry)
    (patch : ManagementPatch) (saved : result Text unit) :
    ManagedConfig * list PluginCatalogueEntry * PatchOutcome :=
  match patch_config config
    {| at_patch := patch; at_plugins := manageable_plugins entries; at_saved := saved |} with
  | (config, Err e) => (config, entries, PatchRefused e)
  | (config, Ok changes) =>
      match apply_managed_config entries config with
      | (entries, Err e) => (config, entries, ViewNotUpdated e)
      | (entries, Ok configuration_changes) => (config, entries, Patched changes configuration_changes)
      end
  end.
End catalogue.

(** ** Theorems *)

(** What administrators see of an entry is what the daemon uses of it. *)
Record mirrored (e : PluginCatalogueEntry) : Prop := {
  mi_name : mg_name (ce_management e) = ce_name e;
  mi_version : mg_version (ce_management e) = ce_version e;
  mi_required : mg_required (ce_management e) = ce_required e;
  mi_desired : mg_desired_enabled (ce_management e) = ce_desired_enabled e;
  mi_enabled : mg_effective_enabled (ce_management e) = ce_effective_enabled e;
  mi_reconciliation : mg_effective_reconciliation (ce_management e) = ce_effective_reconciliation e;
  mi_runtime : mg_runtime (ce_management e) = ce_runtime e;
  mi_locked : mg_locked_settings (ce_management e) = ce_locked_settings e
}.

Section theorems.
Context (encode_configuration : Table → result Text (list Z)) (mode : PluginActivationMode).

Lemma resolve_candidate_mirrored managed candidate inspected e :
  resolve_candidate encode_configuration mode managed candidate inspected = Ok e →
  mirrored e ∧ ce_name e = ip_name inspected ∧ ce_required e = ca_required candidate ∧
  ce_runtime e = if ce_effective_enabled e then Runtime_Loading else Runtime_Inactive.
Proof.
  unfold resolve_candidate. intros H. do 5 apply bind_Ok in H as (? & _ & H).
  injection H as <-. by split.
Qed.

Lemma set_runtime_mirrored e runtime : mirrored e → mirrored (set_runtime e runtime).
Proof. destruct e as [? ? ? ? ? ? ? ? ? ? ? ? ? ? ? ? []]. intros []. by split. Qed.

Lemma resolve_invalid_mirrored managed candidate inspected error e :
  resolve_invalid_optional_candidate encode_configuration mode managed candidate inspected error = Ok e →
  mirrored e ∧ ce_name e = ip_name inspected ∧
  ce_runtime e = (if ce_effective_enabled e then Runtime_Failed error else Runtime_Inactive) ∧
  ce_global_settings e = ca_configuration candidate.
Proof.
  unfold resolve_invalid_optional_candidate. intros (e0 & H0 & H)%bind_Ok.
  assert (mirrored e0 ∧ ce_name e0 = ip_name inspected ∧
    (ce_effective_enabled e0 = false → ce_runtime e0 = Runtime_Inactive)) as (Hm & Hn & Hr).
  { destruct (resolve_candidate _ _ managed candidate _) as [e1|] eqn:H1.
    - injection H0 as <-. apply resolve_candidate_mirrored in H1 as (? & ? & _ & Hr).
      split; [done|]. split; [done|]. intros Hf. by rewrite Hf in Hr.
    - apply resolve_candidate_mirrored in H0 as (? & ? & _ & Hr).
      split; [done|]. split; [done|]. intros Hf. by rewrite Hf in Hr. }
  apply bind_Ok in H as (e1 & H1 & [= <-]).
  assert (mirrored e1 ∧ ce_name e1 = ip_name inspected ∧ ce_global_settings e1 = ca_configuration candidate ∧
    (ce_effective_enabled e1 = false → ce_runtime e1 = Runtime_Inactive)) as (Hm1 & Hn1 & Hg1 & Hr1).
  { destruct e0 as [? ? ? ? ? ? ? ? ? ? ? ? ? ? ? ? []]. destruct Hm. simpl in *.
    destruct (managed_plugin _ _); [apply bind_Ok in H1 as (? & _ & H1)|]; injection H1 as <-; by repeat split. }
  clear H1 Hm Hn Hr. destruct e1 as [? ? ? ? ? ? ? ? ? ? ? ? ? ? ? ? []]. destruct Hm1. simpl in *.
  subst. destruct (_ : bool); simpl; [by repeat split|]. rewrite Hr1 by done. by repeat split.
Qed.

(** The catalogue has one entry per name of an inspected plugin, and reports each as the
    daemon uses it; an enabled plugin is about to be loaded, or failed with the reason why
    its settings do not resolve, and any other one is inactive. *)
Theorem build_catalogue_correct managed candidates entries :
  build_catalogue encode_configuration mode managed candidates = Ok entries →
  NoDup (ce_name <$> entries) ∧
  (∀ name, name ∈ ce_name <$> entries ↔ ∃ c i, (c, Ok i) ∈ candidates ∧ ip_name i = name) ∧
  Forall (λ e, mirrored e ∧
    if ce_effective_enabled e then ce_runtime e = Runtime_Loading ∨ ∃ error, ce_runtime e = Runtime_Failed error
    else ce_runtime e = Runtime_Inactive) entries.
Proof.
  unfold build_catalogue. intros ([names es] & Hf & [= <-])%bind_Ok. simpl.
  set (good := λ e, mirrored e ∧
    if ce_effective_enabled e then ce_runtime e = Runtime_Loading ∨ ∃ error, ce_runtime e = Runtime_Failed error
    else ce_runtime e = Runtime_Inactive).
  assert (∀ cs acc names es, NoDup (ce_name <$> acc.2) → Forall good acc.2 →
    (∀ n, n ∈ acc.1 ↔ n ∈ ce_name <$> acc.2) →
    try_fold (catalogue_step encode_configuration mode managed) acc cs = Ok (names, es) →
    NoDup (ce_name <$> es) ∧ Forall good es ∧
    ∀ n, n ∈ ce_name <$> es ↔ n ∈ acc.1 ∨ ∃ c i, (c, Ok i) ∈ cs ∧ ip_name i = n) as Hgo.
  { clear. induction cs as [|[c ins] cs IH]; intros [names es] names' es' Hnd Hgood Hn Hf; simpl in Hf.
    - injection Hf as <- <-. split; [done|]. split; [done|]. intros n. rewrite <-Hn. split; [by left|].
      intros [?|(? & ? & ?%not_elem_of_nil & _)]; done.
    - apply bind_Ok in Hf as ([names1 es1] & Hstep & Hf).
      assert ((∃ i e, ins = Ok i ∧ ip_name i ∉ names ∧ names1 = {[ip_name i]} ∪ names ∧
          es1 = es ++ [e] ∧ ce_name e = ip_name i ∧ good e) ∨
        (names1 = names ∧ es1 = es ∧ ∀ i, ins = Ok i → ip_name i ∈ names)) as Hcase.
      { unfold catalogue_step in Hstep. destruct ins as [i|err].
        - case_bool_decide as Hin; [destruct (ca_required c); [done|]; injection Hstep as <- <-; right|].
          { split; [done|]. split; [done|]. by intros ? [= <-]. }
          left. destruct (resolve_candidate _ _ _ _ _) as [e|err] eqn:Hr.
          + injection Hstep as <- <-. apply resolve_candidate_mirrored in Hr as (? & ? & _ & Hrt).
            exists i, e. do 5 (split; [done|]). split; [done|]. destruct (ce_effective_enabled e); [by left|done].
          + destruct (ca_required c); [done|]. apply bind_Ok in Hstep as (e & He & [= <- <-]).
            apply resolve_invalid_mirrored in He as (? & ? & Hrt & _). exists i, e. do 5 (split; [done|]).
            split; [done|]. destruct (ce_effective_enabled e); [right; by eexists|done].
        - destruct (ca_required c); [done|]. injection Hstep as <- <-. right. by split_and!. }
      destruct Hcase as [(i & e & -> & Hnew & -> & -> & He & Hge)|(-> & -> & Hold)].
      + destruct (IH ({[ip_name i]} ∪ names, es ++ [e]) names' es') as (H1 & H2 & H3); simpl; [| | |done|].
        * rewrite fmap_app. simpl. apply NoDup_app. split; [done|]. split; [|apply NoDup_singleton].
          intros n Hin ->%list_elem_of_singleton. apply Hnew. rewrite <-He. by apply Hn.
        * apply Forall_app. split; [done|]. by constructor.
        * intros n. rewrite fmap_app, elem_of_union, elem_of_singleton, elem_of_app, Hn. simpl.
          rewrite list_elem_of_singleton, He. tauto.
        * split; [done|]. split; [done|]. intros n. rewrite H3. simpl.
          setoid_rewrite elem_of_cons. set_solver.
      + destruct (IH (names, es) names' es' Hnd Hgood Hn Hf) as (H1 & H2 & H3).
        split; [done|]. split; [done|]. intros n. rewrite H3. simpl. setoid_rewrite elem_of_cons.
        split; [set_solver|]. intros [?|(c' & i & [[= -> <-]|?] & <-)]; [by left|left; by apply Hold|right; eauto]. }
  destruct (Hgo candidates (∅, []) names es) as (H1 & H2 & H3); [constructor|constructor|set_solver|done|].
  split; [done|]. split; [|done]. intros n. rewrite H3. simpl. set_solver.
Qed.

(** *** After a commit *)

(** What the catalogue makes of a committed configuration for one plugin. *)
Record refreshed (config : ManagedConfig) (e e' : PluginCatalogueEntry) : Prop := {
  rf_same : manageable e' = manageable e;
  rf_runtime : ce_runtime e' = ce_runtime e;
  rf_mirrored : mirrored e → mirrored e';
  rf_enabled : ce_effective_enabled e' = plugin_is_enabled mode (ce_global_activation e)
    (managed_plugin config (ce_name e)) (ce_activation_inputs e);
  rf_settings : ∃ settings, effective_settings config (manageable e) = Ok settings ∧
    encode_configuration settings = Ok (ce_configuration_cbor e') ∧
    reported_settings settings (ce_validation_schema e) = Ok (mg_effective_settings (ce_management e'))
}.

Lemma apply_managed_Ok e config e' :
  apply_managed encode_configuration mode e config = (e', Ok tt) → refreshed config e e'.
Proof.
  unfold apply_managed. destruct (map_err _ _) as [settings|] eqn:Hm; [|done].
  assert (effective_settings config (manageable e) = Ok settings) as Hs.
  { unfold effective_settings, map_err in *. simpl. change (settings_of config (ce_name e)) with
      (managed_settings config (ce_name e)). destruct (merge_plugin_settings _ _ _ _); [congruence|done]. }
  clear Hm. destruct e as [? ? ? ? ? ? ? ? ? ? ? ? ? ? ? ? []]. simpl in *.
  destruct (encode_configuration settings) as [cbor|] eqn:Hc; [|done].
  destruct (reported_settings (managed_settings _ _) _) as [desired|] eqn:Hd; [|done].
  destruct (reported_settings settings _) as [effective|] eqn:Heff; [|done].
  intros [= <-]. split; simpl; try done; [|by eexists]. intros []. by split.
Qed.

Lemma apply_managed_same e config e' r :
  apply_managed encode_configuration mode e config = (e', r) → ce_name e' = ce_name e.
Proof.
  unfold apply_managed. destruct (map_err _ _); [|by intros [= <- <-]].
  destruct e as [? ? ? ? ? ? ? ? ? ? ? ? ? ? ? ? []]. simpl.
  repeat case_match; intros [= <- <-]; done.
Qed.

Lemma apply_managed_config_spec config entries entries' r :
  apply_managed_config encode_configuration mode entries config = (entries', r) →
  match r with
  | Ok changes => Forall2 (refreshed config) entries entries' ∧
      ∀ name, name ∈ changes ↔ ∃ i e e', entries !! i = Some e ∧ entries' !! i = Some e' ∧
        ce_name e = name ∧ ce_configuration_cbor e' ≠ ce_configuration_cbor e
  | Err error => ∃ before before' failed failed' after,
      entries = before ++ failed :: after ∧ entries' = before' ++ failed' :: after ∧
      Forall2 (refreshed config) before before' ∧
      apply_managed encode_configuration mode failed config = (failed', Err error)
  end.
Proof.
  revert entries' r. induction entries as [|e es IH]; intros entries' r; simpl.
  { intros [= <- <-]. split; [constructor|]. intros name. split; [by intros ?%elem_of_nil|].
    by intros (? & ? & ? & ? & _). }
  destruct (apply_managed _ _ e config) as [e1 [[]|err]] eqn:He.
  - destruct (apply_managed_config _ _ es config) as [es1 r1]. specialize (IH _ _ eq_refl).
    pose proof (apply_managed_Ok _ _ _ He) as Href. intros [= <- <-]. destruct r1 as [changes|err]; simpl.
    + destruct IH as [IH1 IH2]. split; [by constructor|]. intros name.
      transitivity ((ce_name e = name ∧ ce_configuration_cbor e1 ≠ ce_configuration_cbor e) ∨ name ∈ changes).
      * case_bool_decide as Hc; [|rewrite elem_of_cons]; naive_solver.
      * rewrite IH2. split.
        -- intros [[? ?]|(i & ? & ? & ?)]; [by exists 0, e, e1|]. exists (S i). naive_solver.
        -- intros ([|i] & f & f' & Hf & Hf' & ?); [left|right]; simpl in *; naive_solver.
    + destruct IH as (before & before' & failed & failed' & after & -> & -> & Hb & Hf).
      exists (e :: before), (e1 :: before'), failed, failed', after. do 2 (split; [done|]). by split; [constructor|].
  - intros [= <- <-]. exists [], [], e, e1, es. by split_and!.
Qed.

(** C22: A patch that is refused changes nothing. One that commits is saved and takes effect on
    the plugins in catalogue order: each gets the configuration that encodes its effective
    settings, is reported with them and is enabled accordingly, and the changed
    configurations are named. If that fails the configuration stays committed: the plugins
    before the one that failed are updated and the ones after it are as they were. *)
Theorem patch_reaches_plugins config entries patch saved :
  match patch_management encode_configuration mode config entries patch saved with
  | (config', entries', PatchRefused _) => config' = config ∧ entries' = entries
  | (config', entries', ViewNotUpdated error) =>
      saved = Ok tt ∧ mc_revision config' = (mc_revision config + 1)%Z ∧
      ∃ before before' failed failed' after,
        entries = before ++ failed :: after ∧ entries' = before' ++ failed' :: after ∧
        Forall2 (refreshed config') before before' ∧
        apply_managed encode_configuration mode failed config' = (failed', Err error)
  | (config', entries', Patched changes names) =>
      saved = Ok tt ∧ mc_revision config' = (mc_revision config + 1)%Z ∧
      cs_revision changes = mc_revision config' ∧ Forall2 (refreshed config') entries entries' ∧
      ∀ name, name ∈ names ↔ ∃ i e e', entries !! i = Some e ∧ entries' !! i = Some e' ∧
        ce_name e = name ∧ ce_configuration_cbor e' ≠ ce_configuration_cbor e
  end.
Proof.
  unfold patch_management. destruct (patch_config _ _) as [config' [changes|e]] eqn:Hp.
  - apply patch_config_Ok in Hp as (_ & Hc & Hr & _ & Hs & _). simpl in Hs.
    destruct (apply_managed_config _ _ _ _) as [entries' [names|err]] eqn:Ha;
      apply apply_managed_config_spec in Ha; (split; [done|]); (split; [congruence|]).
    + split; [done|exact Ha].
    + exact Ha.
  - split; [|done]. revert Hp. unfold patch_config. destruct (prepare_patch _ _ _); [|by intros [= <- _]].
    unfold commit. destruct (validate _); simpl; [destruct saved; simpl|]; by intros [= <- ?].
Qed.
End theorems.

(** *** Secrets *)

Section secrets.
Context (schema : list PluginSettingSchema) (f f' : flat).

(** Two configurations that only differ in the values of sensitive settings. *)
Definition differ_in_secrets : Prop :=
  ∀ s, s ∈ schema →
    if sensitive s then is_Some (f !! key s) ↔ is_Some (f' !! key s) else f !! key s = f' !! key s.

Lemma reported_value_secret s : differ_in_secrets → s ∈ schema →
  reported_value (f !! key s) (sensitive s) = reported_value (f' !! key s) (sensitive s).
Proof.
  intros Hd Hs. specialize (Hd s Hs). destruct (sensitive s); [|by rewrite Hd].
  destruct (f !! key s), (f' !! key s); rewrite !is_Some_alt in Hd; tauto || done.
Qed.
End secrets.

(** C34: Reports do not tell the values of sensitive settings: tables that only differ in these
    are reported alike, and so are schemas that only differ in the defaults and constraints
    of sensitive settings. *)
Theorem reports_hide_secrets schema t t' f f' setting setting' :
  flatten_settings t = Ok f → flatten_settings t' = Ok f' → differ_in_secrets schema f f' →
  let s := is_schema setting in
  let s' := is_schema setting' in
  sensitive s = true → is_label setting = is_label setting' →
  is_description setting = is_description setting' →
  s' = {| key := key s; kind := kind s; default_value := default_value s'; required := required s;
          sensitive := true; minimum := minimum s; maximum := maximum s; constraints := constraints s' |} →
  (is_Some (default_value s) ↔ is_Some (default_value s')) →
  (is_Some (constraints s) ↔ is_Some (constraints s')) →
  reported_settings t schema = reported_settings t' schema ∧
  reported_setting_schema setting = reported_setting_schema setting'.
Proof.
  intros Hf Hf' Hd s s' Hs Hl Hde Hs' Hdef Hcon. split.
  - unfold reported_settings. rewrite Hf, Hf'. simpl. clear Hf Hf'. generalize (∅ : gmap string ReportedSettingValue).
    induction schema as [|x xs IH]; intros acc; simpl; [done|].
    rewrite (reported_value_secret (x :: xs) f f' x) by (done || constructor).
    destruct (reported_value _ _); simpl; [|done]. apply IH. intros y Hy. apply Hd. by constructor.
  - unfold reported_setting_schema. fold s s'. rewrite Hs', Hl, Hde, Hs. simpl.
    rewrite !is_Some_alt in Hdef, Hcon.
    destruct (default_value s), (default_value s'); try tauto;
      destruct (constraints s), (constraints s'); tauto || done.
Qed.

(** ** Concrete catalogues *)

Module Installed.
(** [application_key] of the philips-hue plugin: required, without a default. *)
Definition application_key : PluginSettingSchema := {|
  key := "application_key"; kind := Kind_String; default_value := None; required := true;
  sensitive := true; minimum := None; maximum := None; constraints := None |}.
Definition setting (s : PluginSettingSchema) : InspectedPluginSetting :=
  {| is_schema := s; is_label := key s; is_description := "" |}.
Definition plugin (name : string) (bus : PluginBus) (settings : list PluginSettingSchema) : InspectedPlugin := {|
  ip_name := name; ip_version := "1.0"; ip_buses := [bus]; ip_settings := setting <$> settings;
  ip_setup_workflows := [] |}.
Definition candidate (required : bool) : PluginCandidate := {|
  ca_path := "/usr/lib/luminate/plugin.so"; ca_explicit := false; ca_required := required;
  ca_activation := Activation_Managed; ca_reconciliation := None; ca_locked_settings := [];
  ca_configuration := [] |}.
Definition candidates : list (PluginCandidate * result Text InspectedPlugin) := [
  (candidate false, Ok (plugin "philips-hue" Bus_Network [application_key]));
  (candidate false, Ok (plugin "razer" Bus_Hid [Hue.rate]));
  (candidate false, Ok (plugin "razer" Bus_Usb []));
  (candidate false, Err (Lit "not a plugin"))].
(** A plugin whose default is not of the kind of its setting. *)
Definition inconsistent : PluginSettingSchema := {|
  key := "rate"; kind := Kind_Integer; default_value := Some (V_String "fast"); required := false;
  sensitive := false; minimum := None; maximum := None; constraints := None |}.
Definition encode (t : Table) : result Text (list Z) :=
  Ok (map (λ '(k, v), Z.of_nat (String.length k) + match v with V_Integer z => z | _ => 0 end)%Z t).
Definition empty : ManagedConfig :=
  {| mc_revision := 4; mc_daemon := Hue.no_preferences; mc_plugins := [] |}.
Definition entries : list PluginCatalogueEntry :=
  match build_catalogue encode Mode_HostAttached empty candidates with Ok es => es | Err _ => [] end.
Definition patch : ManagementPatch :=
  {| expected_revision := 4; mutations := [SetPluginSetting "razer" "rate" (Setting_Integer 20)] |}.
End Installed.

(** The network plugin without its key is inactive and the attached one is to be loaded. *)
Example catalogue_entries : (λ e, (ce_name e, ce_runtime e)) <$> Installed.entries =
  [("philips-hue", Runtime_Inactive); ("razer", Runtime_Loading)]%string.
Proof. vm_compute. reflexivity. Qed.

(** The patch of another plugin is committed, then reported as failed, and does not reach
    that plugin. *)
Example unconfigured_plugin_blocks_updates :
  match patch_management Installed.encode Mode_HostAttached Installed.empty Installed.entries
    Installed.patch (Ok tt) with
  | (config', entries', ViewNotUpdated _) => mc_revision config' = 5%Z ∧ entries' = Installed.entries
  | _ => False
  end.
Proof. vm_compute. split; reflexivity. Qed.

(** Without that plugin the patch takes effect. *)
Example configured_plugins_update :
  match patch_management Installed.encode Mode_HostAttached Installed.empty (drop 1 Installed.entries)
    Installed.patch (Ok tt) with
  | (_, entries', Patched _ names) =>
      names = ["razer"%string] ∧ ce_configuration_cbor <$> entries' = [[24%Z]]
  | _ => False
  end.
Proof. vm_compute. split; reflexivity. Qed.

(** An optional plugin with an inconsistent schema stops the daemon's startup. *)
Example inconsistent_plugin_blocks_startup :
  is_ok (build_catalogue Installed.encode Mode_HostAttached Installed.empty
    [(Installed.candidate false, Ok (Installed.plugin "demo" Bus_Usb [Installed.inconsistent]))]) = false.
Proof. vm_compute. reflexivity. Qed.

Lemma build_catalogue_correct_witness : ∃ entries,
  build_catalogue Installed.encode Mode_HostAttached Installed.empty Installed.candidates = Ok entries ∧
  NoDup (ce_name <$> entries).
Proof.
  destruct (build_catalogue Installed.encode Mode_HostAttached Installed.empty Installed.candidates)
    as [entries|e] eqn:H.
  - exists entries. split; [reflexivity|].
    apply (build_catalogue_correct Installed.encode Mode_HostAttached Installed.empty Installed.candidates
      entries H).
  - exfalso. vm_compute in H. discriminate.
Defined.

Lemma reports_hide_secrets_witness :
  reported_settings [("application_key", V_String "secret")]%string [Installed.application_key] =
  reported_settings [("application_key", V_String "other")]%string [Installed.application_key].
Proof.
  apply (reports_hide_secrets [Installed.application_key]
    [("application_key", V_String "secret")]%string [("application_key", V_String "other")]%string
    {[ "application_key"%string := V_String "secret" ]} {[ "application_key"%string := V_String "other" ]}
    (Installed.setting Installed.application_key) (Installed.setting Installed.application_key));
    try reflexivity.
  intros s ->%list_elem_of_singleton. simpl. split; intros _; eexists; vm_compute; reflexivity.
Defined.
