(* ===== verification/HostLink.v ===== *)
(** * The link to a plugin host: [plugin_host/supervisor.rs] and [plugin_host/protocol.rs]

    A plugin runs in a process of its own.  The daemon writes it one request at a time,
    under the lock of the connection, and a reader thread hands the answers to the request
    that waits for them.  The requests and the reader interleave freely; what the process
    does is an argument. *)

From S2P Require Import Prelude Model Descriptors PluginManager PluginApply Reconciliation Supervisor Abi.

(** ** Messages *)

Record PluginFrameUpload := { pf_target : PluginTarget; pf_envelope : FrameEnvelope }.
Record PluginVendorId := { pv_vendor : Z; pv_product : Z }.

Record HostMetadata := {
  hm_name : string;
  hm_version : string;
  hm_priority : Z;
  hm_recommended_reconciliation : option ReconciliationPolicy;
  hm_probe_outcome : ProbeOutcome;
  hm_buses : list PluginBus;
  hm_vendors : list PluginVendorId;
  hm_probe_hints : list string
}.

Record WireMetadata := {
  wm_name : string;
  wm_version : string;
  wm_priority : Z;
  wm_recommended_reconciliation : option ReconciliationPolicy;
  wm_probe_outcome : Z;
  wm_buses : list Z;
  wm_vendors : list (Z * Z);
  wm_probe_hints : list string
}.

Definition HostMetadata_try_from (m : WireMetadata) : result Text HostMetadata :=
  buses ← try_map (λ code, ok_or (from_abi code)
    (Lit "plugin host returned unknown bus code")) (wm_buses m);
  outcome ← ok_or (from_abi (wm_probe_outcome m))
    (Lit "plugin host returned unknown probe outcome");
  Ok {| hm_name := wm_name m; hm_version := wm_version m; hm_priority := wm_priority m;
        hm_recommended_reconciliation := wm_recommended_reconciliation m;
        hm_probe_outcome := outcome; hm_buses := buses;
        hm_vendors := (λ p, {| pv_vendor := p.1; pv_product := p.2 |}) <$> wm_vendors m;
        hm_probe_hints := wm_probe_hints m |}.

Definition WireMetadata_from (m : HostMetadata) : WireMetadata :=
  {| wm_name := hm_name m; wm_version := hm_version m; wm_priority := hm_priority m;
     wm_recommended_reconciliation := hm_recommended_reconciliation m;
     wm_probe_outcome := to_abi (hm_probe_outcome m); wm_buses := to_abi <$> hm_buses m;
     wm_vendors := (λ v, (pv_vendor v, pv_product v)) <$> hm_vendors m;
     wm_probe_hints := hm_probe_hints m |}.

Record HostReady := { hr_metadata : WireMetadata; hr_descriptors : list DeviceDescriptor }.

Record BeginShmStreamRequest := {
  bs_target : PluginTarget;
  bs_generation : Z;
  bs_pixel_format : Z;
  bs_shape : ShmFrameShape
}.

Inductive HostCommand :=
| Cmd_Topology
| Cmd_Rescan (reason : Z)
| Cmd_Apply (update : PluginUpdate)
| Cmd_ApplyBatch (updates : list PluginUpdate)
| Cmd_ReadState (request : PluginReadRequest)
| Cmd_UploadFrame (frame : PluginFrameUpload)
| Cmd_BeginShmStream (request : BeginShmStreamRequest)
| Cmd_EndShmStream (target : PluginTarget) (generation : Z)
| Cmd_ResetShmStream (target : PluginTarget) (generation : Z)
| Cmd_Shutdown.

Inductive HostResponse :=
| Resp_Topology (descriptors : list DeviceDescriptor)
| Resp_Rescan
| Resp_Apply (outcome : ApplyOutcome)
| Resp_Batch (outcomes : list ApplyOutcome)
| Resp_State (snapshot : PluginStateSnapshot)
| Resp_Frame (outcome : ApplyOutcome)
| Resp_ShmStream (outcome : ShmStreamOutcome)
| Resp_Shutdown.

Inductive HostMessage :=
| Host_Ready (outcome : result string HostReady)
| Host_Response (id : Z) (outcome : result string HostResponse)
| Host_TopologyChanged
| Host_Log (plugin : string) (level : Z) (message : string).

(** ** A connection *)

(** The reader thread reads messages; when the stream ends it first fails the pending
    requests and then marks the connection dead. *)
Inductive Reader := Reading | Draining | Ended.

(** [cl_channel] numbers the reply channels that were made. *)
Record Call := { cl_channel : nat; cl_id : Z; cl_command : HostCommand; cl_written : bool }.

(** [lk_pending]: the channel that waits for each identifier.  [lk_slot]: what the channel
    of [lk_call] holds.  [lk_child]: the daemon has not terminated the process. *)
Record Link := {
  lk_alive : bool;
  lk_next_id : Z;
  lk_pending : gmap Z nat;
  lk_channels : nat;
  lk_call : option Call;
  lk_slot : option (result string HostResponse);
  lk_reader : Reader;
  lk_ready : option (result string HostReady);
  lk_name : option string;
  lk_child : bool;
  lk_sent : list (Z * HostCommand);
  lk_notified : list TopologyNotification
}.

Definition starting : Link := {|
  lk_alive := true; lk_next_id := 1; lk_pending := ∅; lk_channels := 0; lk_call := None;
  lk_slot := None; lk_reader := Reading; lk_ready := None; lk_name := None; lk_child := true;
  lk_sent := []; lk_notified := [] |}.

Definition set_alive (l : Link) (v : bool) : Link :=
  let 'Build_Link _ b c d e f g h i j k m := l in Build_Link v b c d e f g h i j k m.
Definition set_pending (l : Link) (v : gmap Z nat) : Link :=
  let 'Build_Link a b _ d e f g h i j k m := l in Build_Link a b v d e f g h i j k m.
Definition set_call (l : Link) (v : option Call) : Link :=
  let 'Build_Link a b c d _ f g h i j k m := l in Build_Link a b c d v f g h i j k m.
Definition set_slot (l : Link) (v : option (result string HostResponse)) : Link :=
  let 'Build_Link a b c d e _ g h i j k m := l in Build_Link a b c d e v g h i j k m.
Definition set_reader (l : Link) (v : Reader) : Link :=
  let 'Build_Link a b c d e f _ h i j k m := l in Build_Link a b c d e f v h i j k m.
Definition terminate_child (l : Link) : Link :=
  let 'Build_Link a b c d e f g h i _ k m := l in Build_Link a b c d e f g h i false k m.
Definition notify (l : Link) : Link :=
  let 'Build_Link a b c d e f g h i j k m := l in
  Build_Link a b c d e f g h i j k (m ++ match i with Some name => [PluginObserved name] | None => [] end).

(** The identifier after [id]: never 0. *)
Definition next_request_id (id : Z) : Z := Z.max (wrapU 64 (id + 1)) 1.

(** A message on the reply channel [channel]; nobody reads the channel of an earlier call. *)
Definition reply (l : Link) (channel : nat) (outcome : result string HostResponse) : Link :=
  match lk_call l with
  | Some c => if bool_decide (cl_channel c = channel) then set_slot l (Some outcome) else l
  | None => l
  end.

Definition receive_message (l : Link) (message : HostMessage) : Link :=
  match message with
  | Host_Ready outcome =>
      let 'Build_Link a b c d e f g h i j k m := l in
      Build_Link a b c d e f g (Some (default outcome h))
        match outcome with Ok ready => Some (wm_name (hr_metadata ready)) | Err _ => i end j k m
  | Host_Response id outcome =>
      match lk_pending l !! id with
      | Some channel => reply (set_pending l (delete id (lk_pending l))) channel outcome
      | None => l
      end
  | Host_TopologyChanged => notify l
  | Host_Log _ _ _ => l
  end.

(** [fail_pending], and the answer to whoever waits for the host to be ready. *)
Definition transport_ended (l : Link) (message : string) : Link :=
  let 'Build_Link a b c d e f g h i j k m :=
    foldr (λ channel l, reply l channel (Err message)) (set_pending l ∅) (map_to_list (lk_pending l)).*2 in
  Build_Link a b c d e f Draining (Some (default (Err message) h)) i j k m.

Definition call_over (l : Link) : Link := set_slot (set_call l None) None.

Inductive Event :=
| Begin (command : HostCommand)
| Write (written : result Text unit)
| Receive
| Timeout
| Disconnected
| Message (message : HostMessage)
| TransportEnded (message : string)
| ReaderEnded
| Terminate.

(** [call], cut where the reader can come in between, and the reader.  A call that ends
    gives its outcome.  A step that does not apply does nothing. *)
Definition link_step (l : Link) (e : Event) : Link * option (result Text HostResponse) :=
  match e, lk_call l, lk_reader l with
  | Begin command, None, _ =>
      if lk_alive l then
        let 'Build_Link a b c d _ _ g h i j k m := l in
        (Build_Link a (next_request_id b) (<[b := d]> c) (S d)
          (Some {| cl_channel := d; cl_id := b; cl_command := command; cl_written := false |})
          None g h i j k m, None)
      else (l, Some (Err (Lit "plugin host is not running")))
  | Write (Ok _), Some c, _ =>
      if cl_written c then (l, None)
      else
        let 'Build_Link a b p d _ f g h i j k m := l in
        (Build_Link a b p d (Some {| cl_channel := cl_channel c; cl_id := cl_id c;
            cl_command := cl_command c; cl_written := true |}) f g h i j
          (k ++ [(cl_id c, cl_command c)]) m, None)
  | Write (Err error), Some c, _ =>
      if cl_written c then (l, None)
      else (terminate_child (set_alive (set_pending (call_over l) (delete (cl_id c) (lk_pending l))) false),
            Some (Err (Nested "sending request to plugin host" [] error)))
  | Receive, Some c, _ =>
      if cl_written c then
        match lk_slot l with
        | Some outcome => (call_over l, Some (map_err Lit outcome))
        | None => (l, None)
        end
      else (l, None)
  | Timeout, Some c, _ =>
      if cl_written c then
        match lk_slot l with
        | Some _ => (l, None)
        | None =>
            (terminate_child (set_alive (set_pending (call_over l) (delete (cl_id c) (lk_pending l))) false),
             Some (Err (Fmt "plugin host request exceeded {call_timeout:?}" [])))
        end
      else (l, None)
  | Disconnected, Some c, _ =>
      if cl_written c && bool_decide (lk_slot l = None ∧ cl_channel c ∉ (map_to_list (lk_pending l)).*2)
      then (set_alive (call_over l) false, Some (Err (Lit "plugin host exited while processing request")))
      else (l, None)
  | Message message, _, Reading => (receive_message l message, None)
  | TransportEnded message, _, Reading => (transport_ended l message, None)
  | ReaderEnded, _, Draining => (notify (set_alive (set_reader l Ended) false), None)
  | Terminate, None, _ => (terminate_child l, None)
  | _, _, _ => (l, None)
  end.

Definition exec (l : Link) (events : list Event) : Link := foldl (λ l e, (link_step l e).1) l events.

(** ** The plugin behind the connection *)

(** [hp_left]: the connections that were replaced. *)
Record HostedPlugin := {
  hp_metadata : HostMetadata;
  hp_link : Link;
  hp_epoch : Z;
  hp_left : list Link;
  hp_notified : list TopologyNotification
}.

(** *** Starting a host *)

Inductive ReadyWait := Ready_Sent (outcome : result string HostReady) | Ready_Timeout | Ready_Disconnected.

(** What the steps of [spawn_with_configuration] meet, once the process runs. *)
Record Startup := {
  su_hello : result Text unit;
  su_reply : result Text Compatibility;
  su_bootstrap : result Text unit;
  su_reader : result Text unit;
  su_ready : ReadyWait
}.

(** Whether the process was terminated, and the outcome. *)
Definition spawn (s : Startup) : bool * result Text HostReady :=
  match su_hello s with
  | Err e => (true, Err (Nested "sending supervisor hello to plugin host" [] e))
  | Ok _ =>
      match su_reply s with
      | Err e => (true, Err (Nested "plugin host handshake failed" [] e))
      | Ok (Incompatible _ _) => (true, Err (Fmt "plugin host protocol incompatible: {:?}" []))
      | Ok Compatible =>
          match su_bootstrap s with
          | Err e => (true, Err (Nested "sending bootstrap configuration to plugin host" [] e))
          | Ok _ =>
              match su_reader s with
              | Err e => (false, Err (Nested "spawning plugin-host reader" [] e))
              | Ok _ =>
                  match su_ready s with
                  | Ready_Sent (Ok ready) => (false, Ok ready)
                  | Ready_Sent (Err e) => (true, Err (Lit e))
                  | Ready_Timeout => (true, Err (Fmt "plugin host did not initialize within {HOST_LOAD_TIMEOUT:?}" []))
                  | Ready_Disconnected => (true, Err (Lit "plugin host exited before reporting initialization"))
                  end
              end
          end
      end
  end.

(** The connection once its host is ready. *)
Definition connected (ready : HostReady) : Link := receive_message starting (Host_Ready (Ok ready)).

Definition spawn_with_configuration (s : Startup) : result Text (HostedPlugin * HostMetadata * list DeviceDescriptor) :=
  ready ← (spawn s).2;
  metadata ← HostMetadata_try_from (hr_metadata ready);
  Ok ({| hp_metadata := metadata; hp_link := connected ready; hp_epoch := 0; hp_left := []; hp_notified := [] |},
      metadata, hr_descriptors ready).

Definition respawn (hp : HostedPlugin) (s : Startup) : HostedPlugin * result Text (list DeviceDescriptor) :=
  match (ready ← map_err (Nested "failed to restart plugin host for {}" [AStr (hm_name (hp_metadata hp))]) (spawn s).2;
         restarted ← HostMetadata_try_from (hr_metadata ready);
         _ ← ensure (bool_decide (hm_name restarted = hm_name (hp_metadata hp)) &&
                     bool_decide (hm_version restarted = hm_version (hp_metadata hp)) &&
                     (hm_priority restarted =? hm_priority (hp_metadata hp))%Z)
               (Fmt "restarted plugin metadata changed for {}" [AStr (hm_name (hp_metadata hp))]);
         Ok ready) with
  | Err e => (hp, Err e)
  | Ok ready =>
      ({| hp_metadata := hp_metadata hp; hp_link := connected ready; hp_epoch := wrapU 64 (hp_epoch hp + 1);
          hp_left := hp_link hp :: hp_left hp;
          hp_notified := hp_notified hp ++ [PluginObserved (hm_name (hp_metadata hp))] |},
       Ok (hr_descriptors ready))
  end.

Definition with_link (hp : HostedPlugin) (l : Link) : HostedPlugin :=
  {| hp_metadata := hp_metadata hp; hp_link := l; hp_epoch := hp_epoch hp; hp_left := hp_left hp;
     hp_notified := hp_notified hp |}.

(** The start of [call]: a dead connection is replaced first. *)
Definition begin_call (hp : HostedPlugin) (s : Startup) (command : HostCommand) :
    HostedPlugin * option (result Text HostResponse) :=
  let '(hp, restarted) := if lk_alive (hp_link hp) then (hp, Ok tt)
    else let '(hp, r) := respawn hp s in (hp, _ ← r; Ok tt) in
  match restarted with
  | Err e => (hp, Some (Err e))
  | Ok _ => let '(l, r) := link_step (hp_link hp) (Begin command) in (with_link hp l, r)
  end.

(** [force_reload]; [events] is the call of [shutdown]. *)
Definition force_reload (hp : HostedPlugin) (events : list Event) (s : Startup) :
    HostedPlugin * result Text (list DeviceDescriptor) :=
  let l := if lk_alive (hp_link hp)
    then exec (link_step (hp_link hp) (Begin Cmd_Shutdown)).1 events else hp_link hp in
  respawn (with_link hp (terminate_child l)) s.

(** *** Typed answers *)

Definition wrong {A} (what : string) : result Text A :=
  Err (Fmt "plugin host returned the wrong {} response" [AStr what]).
Definition topology (r : result Text HostResponse) : result Text (list DeviceDescriptor) :=
  r ← r; match r with Resp_Topology descriptors => Ok descriptors | _ => wrong "topology" end.
Definition rescan (r : result Text HostResponse) : result Text unit :=
  r ← r; match r with Resp_Rescan => Ok tt | _ => wrong "rescan" end.
Definition apply (r : result Text HostResponse) : result Text ApplyOutcome :=
  r ← r; match r with Resp_Apply outcome => Ok outcome | _ => wrong "update" end.
Definition apply_batch (r : result Text HostResponse) : result Text (list ApplyOutcome) :=
  r ← r; match r with Resp_Batch outcomes => Ok outcomes | _ => wrong "batch" end.
Definition read_state (r : result Text HostResponse) : result Text PluginStateSnapshot :=
  r ← r; match r with Resp_State snapshot => Ok snapshot | _ => wrong "state" end.
Definition upload_frame (r : result Text HostResponse) : result Text ApplyOutcome :=
  r ← r; match r with Resp_Frame outcome => Ok outcome | _ => wrong "frame" end.
(** of [begin_shm_stream], [end_shm_stream] and [reset_shm_stream] *)
Definition shm_stream (r : result Text HostResponse) : result Text ShmStreamOutcome :=
  r ← r; match r with Resp_ShmStream outcome => Ok outcome | _ => wrong "shared-memory stream" end.

(** ** The invariant of a connection *)

Record link_ok (l : Link) : Prop := {
  lo_pending : ∀ id channel, lk_pending l !! id = Some channel →
    ∃ c, lk_call l = Some c ∧ id = cl_id c ∧ channel = cl_channel c;
  lo_slot : lk_call l = None → lk_slot l = None;
  lo_waits : ∀ c, lk_call l = Some c → lk_slot l = None → lk_pending l !! cl_id c = Some (cl_channel c);
  lo_answered : ∀ c, lk_call l = Some c → lk_slot l ≠ None → lk_pending l = ∅;
  lo_channel : ∀ c, lk_call l = Some c → cl_channel c < lk_channels l;
  lo_next : (Z.of_nat (lk_channels l) < uN_max 64)%Z → lk_next_id l = (Z.of_nat (lk_channels l) + 1)%Z;
  lo_id : ∀ c, lk_call l = Some c → (Z.of_nat (cl_channel c) < uN_max 64)%Z →
    cl_id c = (Z.of_nat (cl_channel c) + 1)%Z;
  lo_ended : lk_reader l = Ended → lk_alive l = false
}.

Lemma starting_ok : link_ok starting.
Proof. split; try done. Qed.

(** The connection has at most the request of the running call pending. *)
Lemma pending_of_call l : link_ok l →
  lk_pending l = match lk_call l, lk_slot l with
    | Some c, None => {[ cl_id c := cl_channel c ]}
    | _, _ => ∅
    end.
Proof.
  intros [Hp _ Hw Ha _ _ _ _]. destruct (lk_call l) as [c|].
  - destruct (lk_slot l) as [o|]; [by eapply Ha|]. apply map_eq. intros id.
    destruct (decide (id = cl_id c)) as [->|Hne].
    + rewrite lookup_singleton_eq. by apply Hw.
    + rewrite lookup_singleton_ne by done. destruct (lk_pending l !! id) eqn:E; [|done].
      destruct (Hp _ _ E) as (? & [= <-] & ? & _). congruence.
  - apply map_eq. intros id. rewrite lookup_empty. destruct (lk_pending l !! id) eqn:E; [|done].
    by destruct (Hp _ _ E) as (? & ? & _).
Qed.

Ltac open_link l :=
  destruct l as [alive next_id pending channels call slot reader ready name child sent notified].

(** Changes that a request or its answer do not notice. *)
Lemma link_ok_frame l l' : link_ok l →
  lk_pending l' = lk_pending l → lk_channels l' = lk_channels l → lk_next_id l' = lk_next_id l →
  lk_call l' = lk_call l → lk_slot l' = lk_slot l → (lk_reader l' = Ended → lk_alive l' = false) → link_ok l'.
Proof.
  intros [Hp Hs Hw Ha Hc Hn Hi He] Ep Ec En El Es Ee.
  split; rewrite ?Ep, ?Ec, ?En, ?El, ?Es; done.
Qed.

Lemma notify_ok l : link_ok l → link_ok (notify l).
Proof. intros Hl. pose proof (lo_ended l Hl). open_link l. by eapply link_ok_frame. Qed.

Lemma reply_ok l c : link_ok l → lk_call l = Some c → lk_slot l = None → ∀ outcome,
  link_ok (reply (set_pending l ∅) (cl_channel c) outcome).
Proof.
  intros [Hp Hs Hw Ha Hc Hn Hi He] Hl Hsl outcome. open_link l. simpl in *. subst.
  unfold reply. simpl. rewrite bool_decide_eq_true_2 by done. simpl. by split.
Qed.

Lemma receive_message_ok l message : link_ok l → link_ok (receive_message l message).
Proof.
  intros Hl. destruct message as [outcome|id outcome| |]; simpl; [| |by apply notify_ok|done].
  - pose proof (lo_ended l Hl). open_link l. by eapply link_ok_frame.
  - destruct (lk_pending l !! id) as [channel|] eqn:E; [|done].
    destruct (lo_pending l Hl _ _ E) as (c & Hc & -> & ->).
    pose proof (pending_of_call l Hl) as Hp. rewrite Hc in Hp. destruct (lk_slot l) eqn:Hs.
    { rewrite Hp in E. done. }
    rewrite Hp, delete_singleton_eq. by apply reply_ok.
Qed.

Lemma set_pending_same l v : lk_pending l = v → set_pending l v = l.
Proof. open_link l. simpl. by intros ->. Qed.

Lemma transport_ended_ok l message : link_ok l → lk_reader l = Reading → link_ok (transport_ended l message).
Proof.
  intros Hl Hr. unfold transport_ended. pose proof (pending_of_call l Hl) as Hp.
  assert (link_ok (foldr (λ channel l, reply l channel (Err message)) (set_pending l ∅)
    (map_to_list (lk_pending l)).*2)) as Hk.
  { destruct (lk_call l) as [c|] eqn:Hc; [destruct (lk_slot l) as [o|] eqn:Hs|];
      [|rewrite Hp, map_to_list_singleton; by apply reply_ok|];
      rewrite set_pending_same, Hp, map_to_list_empty by done; done. }
  destruct (foldr _ _ _). by eapply link_ok_frame.
Qed.

Lemma next_request_id_succ n : (0 <= n)%Z → (n + 1 < uN_max 64)%Z →
  next_request_id (n + 1) = (n + 2)%Z.
Proof. intros H0 Hn. unfold next_request_id. rewrite wrapU_id; unfold uN, uN_max in *; lia. Qed.

(** A connection between calls. *)
Lemma idle_ok l l' : link_ok l → lk_call l' = None → lk_slot l' = None → lk_pending l' = ∅ →
  lk_channels l' = lk_channels l → lk_next_id l' = lk_next_id l →
  (lk_reader l' = Ended → lk_alive l' = false) → link_ok l'.
Proof.
  intros [_ _ _ _ _ Hn _ _] Ec Es Ep Ech En Ee. split; rewrite ?Ec, ?Es, ?Ep, ?Ech, ?En; done.
Qed.

Lemma delete_pending l c : link_ok l → lk_call l = Some c → delete (cl_id c) (lk_pending l) = ∅.
Proof.
  intros Hl Hc. rewrite (pending_of_call l Hl), Hc. destruct (lk_slot l).
  - apply delete_empty.
  - apply delete_singleton_eq.
Qed.

Lemma handle_ok l e : link_ok l → link_ok (link_step l e).1.
Proof.
  intros Hl. pose proof (pending_of_call l Hl) as Hp. unfold link_step.
  destruct e as [command|[[]|error]| | | |message|message| |]; try (destruct (lk_call l) as [c|] eqn:Hc; [|done]).
  - destruct (lk_call l) as [c|] eqn:Hc; [done|]. destruct (lk_alive l) eqn:Ha; [|done].
    destruct Hl as [_ _ _ _ _ Hn _ He]. open_link l. simpl in *. subst. split; simpl; try done.
    + intros id c [[<- <-]|[_ ?]]%lookup_insert_Some; [by eexists|done].
    + intros c [= <-] _. simpl. by rewrite lookup_insert_eq.
    + intros c [= <-]. simpl. lia.
    + intros Hlt. rewrite Hn by lia. rewrite next_request_id_succ by lia. lia.
    + intros c [= <-] Hlt. simpl in *. by apply Hn.
  - destruct (cl_written c); [done|]. destruct Hl as [Hq Hs Hw Ha Hch Hn Hi He]. open_link l. simpl in *. subst.
    split; simpl; try done.
    + intros id ch (c' & [= <-] & -> & ->)%Hq. by eexists.
    + intros c' [= <-]. simpl. by apply Hw.
    + intros c' [= <-]. by apply (Ha c).
    + intros c' [= <-]. simpl. by apply Hch.
    + intros c' [= <-]. simpl. by apply Hi.
  - destruct (cl_written c); [done|]. simpl. rewrite (delete_pending l c) by done.
    eapply idle_ok; [exact Hl|..]; by open_link l.
  - destruct (cl_written c); [|done]. destruct (lk_slot l) as [o|] eqn:Hs; [|done]. simpl.
    pose proof (lo_ended l Hl). eapply idle_ok; [exact Hl|..]; open_link l; simpl in *; by subst.
  - destruct (cl_written c); [|done]. destruct (lk_slot l) as [o|] eqn:Hs; [done|]. simpl.
    rewrite (delete_pending l c) by done. eapply idle_ok; [exact Hl|..]; by open_link l.
  - destruct (cl_written c && _) eqn:E; [|done]. apply andb_true_iff in E as [_ [Hs Hn]%bool_decide_eq_true].
    rewrite Hs in Hp. exfalso. apply Hn. rewrite Hp, map_to_list_singleton. by left.
  - destruct (lk_reader l) eqn:Hr, (lk_call l); try done; by apply receive_message_ok.
  - destruct (lk_reader l) eqn:Hr, (lk_call l); try done; by apply transport_ended_ok.
  - destruct (lk_reader l) eqn:Hr, (lk_call l) eqn:Hc; try done; simpl; apply notify_ok;
      (eapply link_ok_frame; [exact Hl|..]; by open_link l).
  - destruct (lk_call l) eqn:Hc; [done|]. simpl. pose proof (lo_ended l Hl).
    eapply link_ok_frame; [exact Hl|..]; by open_link l.
Qed.

Lemma exec_ok l events : link_ok l → link_ok (exec l events).
Proof. revert l. induction events as [|e events IH]; intros l Hl; [done|]. apply IH, handle_ok, Hl. Qed.

Lemma exec_snoc l events e : exec l (events ++ [e]) = (link_step (exec l events) e).1.
Proof. unfold exec. by rewrite foldl_app. Qed.

(** ** What a step does *)

(** What the reader leaves alone. *)
Record reader_keeps (l l' : Link) : Prop := {
  rk_alive : lk_alive l' = lk_alive l;
  rk_next : lk_next_id l' = lk_next_id l;
  rk_channels : lk_channels l' = lk_channels l;
  rk_call : lk_call l' = lk_call l;
  rk_child : lk_child l' = lk_child l;
  rk_sent : lk_sent l' = lk_sent l
}.

Lemma reader_keeps_trans l1 l2 l3 : reader_keeps l1 l2 → reader_keeps l2 l3 → reader_keeps l1 l3.
Proof. intros [] []. split; congruence. Qed.

Lemma notify_keeps l : reader_keeps l (notify l) ∧ lk_slot (notify l) = lk_slot l.
Proof. by open_link l. Qed.

Lemma reply_keeps l channel outcome : reader_keeps l (reply l channel outcome) ∧
  (lk_slot (reply l channel outcome) = lk_slot l ∨
   lk_slot (reply l channel outcome) = Some outcome ∧
   ∃ c, lk_call l = Some c ∧ channel = cl_channel c).
Proof.
  unfold reply. destruct (lk_call l) as [c|] eqn:Hc; [|by split; [|left]].
  case_bool_decide; [|by split; [|left]]. split; [by open_link l|]. right. split; [by open_link l|]. eauto.
Qed.

Lemma receive_message_keeps l message : link_ok l →
  reader_keeps l (receive_message l message) ∧
  (lk_slot (receive_message l message) = lk_slot l ∨ ∃ c outcome, lk_call l = Some c ∧
     message = Host_Response (cl_id c) outcome ∧ lk_slot (receive_message l message) = Some outcome).
Proof.
  intros Hl. destruct message as [outcome|id outcome| |]; simpl.
  - split; [by open_link l|left; by open_link l].
  - destruct (lk_pending l !! id) as [channel|] eqn:E; [|by split; [|left]].
    destruct (lo_pending l Hl _ _ E) as (c & Hc & -> & ->).
    destruct (reply_keeps (set_pending l (delete (cl_id c) (lk_pending l))) (cl_channel c) outcome) as [Hk Hs].
    split.
    + eapply reader_keeps_trans; [|exact Hk]. by open_link l.
    + destruct Hs as [Hs|[Hs _]]; [left; rewrite Hs; by open_link l|right; eauto].
  - destruct (notify_keeps l) as [? ?]. split; [done|by left].
  - by split; [|left].
Qed.

Lemma transport_ended_keeps l message : reader_keeps l (transport_ended l message) ∧
  (lk_slot (transport_ended l message) = lk_slot l ∨ lk_slot (transport_ended l message) = Some (Err message)).
Proof.
  unfold transport_ended.
  set (l1 := foldr _ (set_pending l ∅) _).
  assert (reader_keeps l l1 ∧ (lk_slot l1 = lk_slot l ∨ lk_slot l1 = Some (Err message))) as [Hk Hs].
  { subst l1. induction ((map_to_list (lk_pending l)).*2) as [|channel channels IH]; simpl.
    - split; [by open_link l|left; by open_link l].
    - destruct IH as [IHk IHs].
      destruct (reply_keeps (foldr (λ channel l, reply l channel (Err message)) (set_pending l ∅) channels)
        channel (Err message)) as [Hk Hs]. split; [by eapply reader_keeps_trans|].
      destruct Hs as [->|[-> _]]; [done|by right]. }
  clearbody l1. destruct Hk. open_link l1. simpl in *. split; [by split|done].
Qed.

(** How the running call and the written requests come about. *)
Inductive call_step (l l' : Link) (e : Event) : Prop :=
| cs_none : lk_call l' = None → lk_sent l' = lk_sent l → lk_channels l' = lk_channels l → call_step l l' e
| cs_begin c : e = Begin (cl_command c) → lk_call l = None → lk_alive l = true → lk_call l' = Some c →
    cl_id c = lk_next_id l → cl_channel c = lk_channels l → cl_written c = false → lk_slot l' = None →
    lk_sent l' = lk_sent l → lk_channels l' = S (lk_channels l) → call_step l l' e
| cs_write c c' : lk_call l = Some c → lk_call l' = Some c' → cl_written c = false → cl_written c' = true →
    cl_id c' = cl_id c → cl_channel c' = cl_channel c → cl_command c' = cl_command c → lk_slot l' = lk_slot l →
    lk_sent l' = lk_sent l ++ [(cl_id c, cl_command c)] → lk_channels l' = lk_channels l → call_step l l' e
| cs_same c : lk_call l = Some c → lk_call l' = Some c → lk_sent l' = lk_sent l →
    lk_channels l' = lk_channels l →
    (∀ r, lk_slot l' = Some (Ok r) → lk_slot l = Some (Ok r) ∨ e = Message (Host_Response (cl_id c) (Ok r))) →
    call_step l l' e.

Lemma reader_step l l' e : reader_keeps l l' →
  (∀ c r, lk_call l = Some c → lk_slot l' = Some (Ok r) →
     lk_slot l = Some (Ok r) ∨ e = Message (Host_Response (cl_id c) (Ok r))) →
  call_step l l' e.
Proof.
  intros [_ _ Hch Hc _ Hse] Hs. destruct (lk_call l) as [c|] eqn:E.
  - eapply cs_same; eauto.
  - by apply cs_none.
Qed.

Lemma idle_step l e : call_step l l e.
Proof. destruct (lk_call l) as [c|] eqn:E; [eapply cs_same; by eauto|by apply cs_none]. Qed.

Lemma message_step l message l' o : link_ok l →
  link_step l (Message message) = (l', o) → call_step l l' (Message message).
Proof.
  unfold link_step. intros Hl. destruct (lk_reader l); intros [= <- <-]; try apply idle_step.
  destruct (receive_message_keeps l message Hl) as [Hk Hs]. apply reader_step; [done|].
  intros c r Hc Hr. destruct Hs as [Hs|(c' & outcome & Hc' & -> & Hs)]; [left; congruence|right].
  rewrite Hs in Hr. injection Hr as ->. congruence.
Qed.

Lemma ended_step l message l' o :
  link_step l (TransportEnded message) = (l', o) → call_step l l' (TransportEnded message).
Proof.
  unfold link_step. destruct (lk_reader l); intros [= <- <-]; try apply idle_step.
  destruct (transport_ended_keeps l message) as [Hk Hs]. apply reader_step; [done|].
  intros c r Hc Hr. left. destruct Hs; congruence.
Qed.

Lemma reader_ended_step l l' o : link_step l ReaderEnded = (l', o) → call_step l l' ReaderEnded.
Proof.
  unfold link_step. destruct (lk_reader l); intros [= <- <-]; try apply idle_step.
  destruct (lk_call l) as [c|] eqn:Hc; open_link l; simpl in *; subst;
    [eapply cs_same; by eauto|by apply cs_none].
Qed.

Lemma handle_call_step l e l' o : link_ok l → link_step l e = (l', o) → call_step l l' e.
Proof.
  intros Hl. unfold link_step.
  destruct e as [command|[[]|error]| | | |message|message| |]; destruct (lk_call l) as [c|] eqn:Hc;
    cbv beta iota.
  all: try (intros [= <- <-]; first [by apply cs_none | (eapply cs_same; by eauto)]).
  - destruct (lk_alive l) eqn:Ha. 2: { intros [= <- <-]. by apply cs_none. }
    open_link l. simpl in *. intros [= <- <-]. by apply cs_begin with (c :=
      {| cl_channel := channels; cl_id := next_id; cl_command := command; cl_written := false |}).
  - destruct (cl_written c) eqn:Hw; [intros [= <- <-]; eapply cs_same; by eauto|].
    open_link l. simpl in *. intros [= <- <-]. by apply cs_write with (c := c) (c' :=
      {| cl_channel := cl_channel c; cl_id := cl_id c; cl_command := cl_command c; cl_written := true |}).
  - destruct (cl_written c); intros [= <- <-]; [eapply cs_same; by eauto|]. open_link l. by apply cs_none.
  - destruct (cl_written c), (lk_slot l); intros [= <- <-]; try (eapply cs_same; by eauto).
    open_link l. by apply cs_none.
  - destruct (cl_written c), (lk_slot l); intros [= <- <-]; try (eapply cs_same; by eauto).
    open_link l. by apply cs_none.
  - destruct (cl_written c && _); intros [= <- <-]; [|eapply cs_same; by eauto]. open_link l. by apply cs_none.
  - intros H. by apply (message_step l message l' o).
  - intros H. by apply (message_step l message l' o).
  - intros H. by apply (ended_step l message l' o).
  - intros H. by apply (ended_step l message l' o).
  - intros H. by apply (reader_ended_step l l' o).
  - intros H. by apply (reader_ended_step l l' o).
  - open_link l. simpl in *. intros [= <- <-]. by apply cs_none.
Qed.

(** ** Histories of a connection *)

Record history (events : list Event) (l : Link) : Prop := {
  hi_ok : link_ok l;
  hi_call : ∀ c, lk_call l = Some c → ∃ pre post,
    events = pre ++ Begin (cl_command c) :: post ∧ lk_channels (exec starting pre) = cl_channel c ∧
    ∀ r, lk_slot l = Some (Ok r) → Message (Host_Response (cl_id c) (Ok r)) ∈ post;
  hi_written : ∀ c, lk_call l = Some c → cl_written c = true → last (lk_sent l) = Some (cl_id c, cl_command c);
  hi_ids : (Z.of_nat (lk_channels l) <= uN_max 64)%Z →
    NoDup (lk_sent l).*1 ∧ Forall (λ id, (id <= Z.of_nat (lk_channels l))%Z ∧
      ∀ c, lk_call l = Some c → cl_written c = false → (id < cl_id c)%Z) (lk_sent l).*1
}.

Lemma history_step events l e : history events l → l = exec starting events →
  history (events ++ [e]) (link_step l e).1.
Proof.
  intros [Hok Hc Hw Hi] Hl. pose proof (handle_ok l e Hok) as Hok'.
  destruct (link_step l e) as [l' o] eqn:He. simpl in *.
  pose proof (handle_call_step l e l' o Hok He) as Hs.
  destruct Hs as [En Es Ech|c -> Ec Ha Ec' Eid Ech Ew Esl Es Ec2|c c' Ec Ec' Ew Ew' Eid Ech Ecm Esl Es Ec2|c Ec Ec' Es Ech Esl].
  - split; [done|intros ? ?; congruence|intros ? ?; congruence|]. rewrite Es, Ech. intros Hm.
    destruct (Hi Hm) as [Hnd Hall]. split; [done|]. eapply Forall_impl; [exact Hall|].
    intros id [? _]. split; [done|]. intros ? ?. congruence.
  - split; [done|..].
    + intros c0 Hc0. replace c0 with c in * by congruence. exists events, []. split; [done|].
      split; [congruence|]. intros r Hr. congruence.
    + intros c0 Hc0. congruence.
    + rewrite Es, Ec2. intros Hm. destruct (Hi ltac:(lia)) as [Hnd Hall]. split; [done|].
      eapply Forall_impl; [exact Hall|]. intros id [Hid _]. split; [lia|].
      intros c0 Hc0 _. replace c0 with c in * by congruence.
      pose proof (lo_id l' Hok' c Ec' ltac:(lia)). lia.
  - split; [done|..].
    + intros c0 Hc0. replace c0 with c' in * by congruence. destruct (Hc c Ec) as (pre & post & -> & Hch & Hr).
      exists pre, (post ++ [e]). rewrite Ecm, Ech, Eid. split; [by rewrite <-app_assoc|]. split; [done|].
      intros r Hsl. rewrite Esl in Hsl. apply elem_of_app. left. by apply Hr.
    + intros c0 Hc0 _. replace c0 with c' in * by congruence. by rewrite Es, last_snoc, Eid, Ecm.
    + rewrite Es, Ec2. intros Hm. destruct (Hi Hm) as [Hnd Hall]. rewrite fmap_app. simpl.
      pose proof (lo_channel l Hok c Ec). pose proof (lo_id l Hok c Ec ltac:(lia)) as Hid.
      rewrite Forall_forall in Hall. split.
      * apply NoDup_app. split; [done|]. split; [|apply NoDup_singleton].
        intros id Hin ->%list_elem_of_singleton. destruct (Hall _ Hin) as [_ Hlt]. specialize (Hlt c Ec Ew). lia.
      * apply Forall_app. split.
        -- apply Forall_forall. intros id Hin. destruct (Hall _ Hin) as [Hle _]. split; [done|].
           intros c0 Hc0 Hf. congruence.
        -- constructor; [|done]. split; [lia|]. intros c0 Hc0 Hf. congruence.
  - split; [done|..].
    + intros c0 Hc0. replace c0 with c in * by congruence. destruct (Hc c Ec) as (pre & post & -> & Hch & Hr).
      exists pre, (post ++ [e]). split; [by rewrite <-app_assoc|]. split; [done|].
      intros r Hsl. apply elem_of_app. destruct (Esl r Hsl) as [H|H]; [left; by apply Hr|right; rewrite H; by left].
    + intros c0 Hc0. rewrite Es. replace c0 with c in * by congruence. by apply Hw.
    + rewrite Es, Ech. intros Hm. destruct (Hi Hm) as [Hnd Hall]. split; [done|].
      eapply Forall_impl; [exact Hall|]. intros id [Hid Hlt]. split; [done|].
      intros c0 Hc0. replace c0 with c in * by congruence. by apply Hlt.
Qed.

Lemma exec_history events : history events (exec starting events).
Proof.
  induction events as [|e events IH] using rev_ind.
  - split; [apply starting_ok|done|done|]. intros _. split; constructor.
  - rewrite exec_snoc. by apply history_step.
Qed.

(** A call only succeeds with what is on its channel. *)
Lemma handle_success l e l' r : link_step l e = (l', Some (Ok r)) →
  ∃ c, e = Receive ∧ lk_call l = Some c ∧ cl_written c = true ∧ lk_slot l = Some (Ok r).
Proof.
  unfold link_step.
  destruct e as [command|[[]|error]| | | |message|message| |]; destruct (lk_call l) as [c|] eqn:Hc; try done.
  - destruct (lk_alive l); [by open_link l|done].
  - destruct (cl_written c); [done|by open_link l].
  - by destruct (cl_written c).
  - destruct (cl_written c) eqn:Hw; [|done]. destruct (lk_slot l) as [[a|a]|]; simpl; try done.
    intros [= _ <-]. eauto.
  - destruct (cl_written c); [by destruct (lk_slot l)|done].
  - by destruct (cl_written c && _).
  - by destruct (lk_reader l).
  - by destruct (lk_reader l).
  - by destruct (lk_reader l).
  - by destruct (lk_reader l).
  - by destruct (lk_reader l).
  - by destruct (lk_reader l).
Qed.

(** ** Claims *)

(** C31: A request gets its own answer: however the reader and the requests interleave, a call
    only succeeds with the result of a response that the host sent under the identifier of
    this request, after the call began; the request is the last one that was written; and
    no two requests of a connection have the same identifier, for the first 2^64 - 1. *)
Theorem responses_match_requests events e l' r :
  let l := exec starting events in
  link_step l e = (l', Some (Ok r)) →
  ∃ c pre post, lk_call l = Some c ∧ last (lk_sent l) = Some (cl_id c, cl_command c) ∧
    events = pre ++ Begin (cl_command c) :: post ∧ lk_channels (exec starting pre) = cl_channel c ∧
    Message (Host_Response (cl_id c) (Ok r)) ∈ post ∧
    ((Z.of_nat (lk_channels l) <= uN_max 64)%Z → NoDup (lk_sent l).*1).
Proof.
  intros l Hh. destruct (exec_history events) as [Hok Hc Hw Hi]. fold l in Hok, Hc, Hw, Hi.
  apply handle_success in Hh as (c & -> & Hcall & Hwr & Hs).
  destruct (Hc c Hcall) as (pre & post & He & Hch & Hr).
  exists c, pre, post. split_and!; try done; [by apply Hw|by apply Hr|]. intros Hm. by apply Hi.
Qed.

(** A dead connection between calls stays so and writes nothing. *)
Lemma dead_step l e : lk_alive l = false → lk_call l = None →
  let l' := (link_step l e).1 in lk_alive l' = false ∧ lk_call l' = None ∧ lk_sent l' = lk_sent l.
Proof.
  intros Ha Hc. unfold link_step. rewrite Hc.
  destruct e as [command|[[]|error]| | | |message|message| |]; simpl; rewrite ?Ha; try done.
  - destruct (lk_reader l); try done. simpl. destruct message as [outcome|id outcome| |]; simpl; [by open_link l| |by open_link l|done].
    destruct (lk_pending l !! id); [|done]. unfold reply.
    assert (lk_call (set_pending l (delete id (lk_pending l))) = None) as -> by (by open_link l). by open_link l.
  - destruct (lk_reader l); try done. simpl. destruct (transport_ended_keeps l message) as [[] _]. by split_and!; congruence.
  - destruct (lk_reader l); try done; by open_link l.
  - by open_link l.
Qed.

Lemma dead_forever l events : lk_alive l = false → lk_call l = None →
  lk_alive (exec l events) = false ∧ lk_call (exec l events) = None ∧ lk_sent (exec l events) = lk_sent l.
Proof.
  revert l. induction events as [|e events IH]; intros l Ha Hc; [done|].
  destruct (dead_step l e Ha Hc) as (Ha' & Hc' & Hs). simpl.
  destruct (IH _ Ha' Hc') as (? & ? & IHs). simpl in IHs. split_and!; try done. congruence.
Qed.

(** A call that fails by itself retires the connection: unless the error is what its channel
    was given, the connection is dead from then on, writes nothing more and refuses every
    later call, so that the next one gets a new host. *)
Theorem failed_calls_retire_link events e l' t :
  let l := exec starting events in
  link_step l e = (l', Some (Err t)) →
  (∃ c error, e = Receive ∧ lk_call l = Some c ∧ lk_slot l = Some (Err error) ∧ t = Lit error) ∨
  (lk_alive l' = false ∧ ∀ later command,
     lk_sent (exec l' later) = lk_sent l' ∧
     link_step (exec l' later) (Begin command) = (exec l' later, Some (Err (Lit "plugin host is not running")))).
Proof.
  intros l Hh. assert ((∃ c error, e = Receive ∧ lk_call l = Some c ∧ lk_slot l = Some (Err error) ∧ t = Lit error) ∨
    (lk_alive l' = false ∧ lk_call l' = None)) as [?|[Ha Hc]]; [|by left|right].
  - revert Hh. generalize l. clear. intros l. unfold link_step.
    destruct e as [command|[[]|error]| | | |message|message| |]; destruct (lk_call l) as [c|] eqn:Hc; try done.
    + destruct (lk_alive l) eqn:Ha; [by open_link l|]. intros [= <- <-]. by right.
    + destruct (cl_written c); [done|by open_link l].
    + destruct (cl_written c); [done|]. intros [= <- <-]. right. by open_link l.
    + destruct (cl_written c); [|done]. destruct (lk_slot l) as [[a|a]|] eqn:Hs; simpl; try done.
      intros [= <- <-]. left. eauto 10.
    + destruct (cl_written c); [|done]. destruct (lk_slot l); [done|]. intros [= <- <-]. right. by open_link l.
    + destruct (cl_written c && _); [|done]. intros [= <- <-]. right. by open_link l.
    + by destruct (lk_reader l).
    + by destruct (lk_reader l).
    + by destruct (lk_reader l).
    + by destruct (lk_reader l).
    + by destruct (lk_reader l).
    + by destruct (lk_reader l).
  - split; [done|]. intros later command. destruct (dead_forever l' later Ha Hc) as (Ha' & Hc' & Hs).
    split; [done|]. unfold link_step. by rewrite Hc', Ha'.
Qed.

(** A call always ends: one that is written has its answer on the channel or can time out,
    and the channel is never closed before it holds an answer. *)
Theorem calls_always_end events c :
  let l := exec starting events in
  lk_call l = Some c →
  (cl_written c = true → is_Some (link_step l Receive).2 ∨ is_Some (link_step l Timeout).2) ∧
  (cl_written c = false → ∀ error, is_Some (link_step l (Write (Err error))).2 ∧
     ∃ c', lk_call (link_step l (Write (Ok tt))).1 = Some c' ∧ cl_written c' = true ∧ cl_id c' = cl_id c) ∧
  (link_step l Disconnected).2 = None.
Proof.
  intros l Hc. pose proof (exec_ok starting events starting_ok) as Hok. fold l in Hok.
  unfold link_step. rewrite Hc. split_and!.
  - intros Hw. rewrite Hw. destruct (lk_slot l); simpl; eauto.
  - intros Hw error. rewrite Hw. split; [simpl; eauto|]. open_link l. eexists. by split_and!.
  - case_match eqn:E; [|done]. apply andb_true_iff in E as [_ [Hs Hn]%bool_decide_eq_true].
    exfalso. apply Hn. rewrite (pending_of_call l Hok), Hc, Hs, map_to_list_singleton. by left.
Qed.

(** A request that is registered once the reader has failed those that were pending is not
    failed by anybody: nothing but its own timeout, or a failure to write it, ends it. *)
Theorem late_call_waits l c events :
  link_ok l → lk_reader l ≠ Reading → lk_call l = Some c → lk_slot l = None →
  (∀ e, e ∈ events → e ≠ Timeout ∧ ∀ error, e ≠ Write (Err error)) →
  ∃ c', lk_call (exec l events) = Some c' ∧ cl_id c' = cl_id c ∧ lk_slot (exec l events) = None.
Proof.
  revert l c. induction events as [|e events IH]; intros l c Hok Hr Hc Hs He; [by eexists|].
  assert (∃ c', lk_call (link_step l e).1 = Some c' ∧ cl_id c' = cl_id c ∧ lk_slot (link_step l e).1 = None ∧
    lk_reader (link_step l e).1 ≠ Reading) as (c' & Hc' & Hid & Hs' & Hr').
  { destruct (He e ltac:(left)) as [Ht Hw]. unfold link_step. rewrite Hc.
    destruct e as [command|[[]|error]| | | |message|message| |]; simpl; try (by exists c).
    - destruct (cl_written c); [by exists c|]. open_link l. simpl in *. eexists. by split_and!.
    - by destruct (Hw error).
    - rewrite Hs. destruct (cl_written c); by exists c.
    - case_match eqn:E; [|by exists c]. apply andb_true_iff in E as [_ [_ Hn]%bool_decide_eq_true].
      exfalso. apply Hn. rewrite (pending_of_call l Hok), Hc, Hs, map_to_list_singleton. by left.
    - destruct (lk_reader l) eqn:E; [done|..]; exists c; split_and!; simpl; by rewrite ?E.
    - destruct (lk_reader l) eqn:E; [done|..]; exists c; split_and!; simpl; by rewrite ?E.
    - destruct (lk_reader l) eqn:E; [done| |]; exists c; [|split_and!; simpl; by rewrite ?E].
      open_link l. simpl in *. by split_and!. }
  simpl. destruct (IH (link_step l e).1 c') as (c'' & ? & ? & ?); try done.
  - by apply handle_ok.
  - intros e' ?. apply He. by right.
  - exists c''. split_and!; [done|congruence|done].
Qed.

(** *** Hosts *)

(** What a host says of its plugin survives the way: it is encoded with the codes of the
    ABI, and exactly what is so encoded is accepted. *)
Theorem host_metadata_roundtrip w m :
  HostMetadata_try_from w = Ok m ↔ w = WireMetadata_from m.
Proof.
  split.
  - unfold HostMetadata_try_from. intros (buses & Hb & H)%bind_Ok. apply bind_Ok in H as (outcome & Ho & [= <-]).
    destruct w as [name version priority rec code codes vendors hints].
    unfold WireMetadata_from. cbn [wm_probe_outcome wm_buses wm_name wm_version wm_priority wm_recommended_reconciliation
      wm_vendors wm_probe_hints hm_name hm_version hm_priority hm_recommended_reconciliation hm_probe_outcome
      hm_buses hm_vendors hm_probe_hints] in *. f_equal.
    + destruct (from_abi code) eqn:E; [|done]. injection Ho as ->. symmetry. by apply from_abi_Some.
    + apply try_map_Ok in Hb. induction Hb as [|c b codes buses Hc Hb IH]; [done|]. rewrite fmap_cons. f_equal; [|done].
      destruct (from_abi c) eqn:E; [|done]. injection Hc as ->. symmetry. by apply from_abi_Some.
    + rewrite <-list_fmap_compose. symmetry. rewrite <-(list_fmap_id vendors) at 2.
      apply list_fmap_ext. by intros ? [].
  - intros ->. unfold HostMetadata_try_from, WireMetadata_from.
    cbn [wm_probe_outcome wm_buses wm_name wm_version wm_priority wm_recommended_reconciliation wm_vendors wm_probe_hints].
    assert (∀ bs : list PluginBus, try_map (λ code, ok_or (from_abi code)
      (Lit "plugin host returned unknown bus code")) (to_abi <$> bs) = Ok bs) as ->.
    { induction bs as [|b bs IH]; [done|]. rewrite fmap_cons. cbn [try_map].
      rewrite from_to_abi. cbn [ok_or mbind result_bind]. by rewrite IH. }
    cbn [mbind result_bind]. rewrite from_to_abi. cbn [ok_or mbind result_bind]. destruct m as [? ? ? ? ? ? vendors ?]. simpl. repeat f_equal.
    rewrite <-list_fmap_compose. rewrite <-(list_fmap_id vendors) at 2.
    apply list_fmap_ext. by intros ? [].
Qed.

(** A host that is started again replaces the connection only with one of the same plugin,
    version and priority that is ready; the connection is new, its epoch the next, and the
    coordinator is asked to look at the plugin. Otherwise nothing changes, and the process
    that did not become ready was terminated unless its reader could not be started. *)
Theorem respawn_keeps_identity hp s :
  match respawn hp s with
  | (hp', Ok descriptors) => ∃ ready m,
      spawn s = (false, Ok ready) ∧ hr_metadata ready = WireMetadata_from m ∧ descriptors = hr_descriptors ready ∧
      hm_name m = hm_name (hp_metadata hp) ∧ hm_version m = hm_version (hp_metadata hp) ∧
      hm_priority m = hm_priority (hp_metadata hp) ∧ hp_metadata hp' = hp_metadata hp ∧
      hp_link hp' = connected ready ∧ lk_alive (hp_link hp') = true ∧ lk_pending (hp_link hp') = ∅ ∧
      hp_epoch hp' = wrapU 64 (hp_epoch hp + 1) ∧
      hp_notified hp' = hp_notified hp ++ [PluginObserved (hm_name (hp_metadata hp))]
  | (hp', Err _) => hp' = hp ∧
      (is_ok (spawn s).2 = false → (spawn s).1 = true ∨ ∃ error, su_reader s = Err error)
  end.
Proof.
  unfold respawn. destruct (spawn s) as [terminated [ready|error]] eqn:Hs; simpl.
  - assert (terminated = false) as ->.
    { unfold spawn in Hs. repeat case_match; congruence. }
    destruct (HostMetadata_try_from _) as [m|error] eqn:Hm; simpl; [|done].
    destruct (ensure _ _) as [[]|error] eqn:He; simpl; [|done].
    apply ensure_Ok in He. apply andb_true_iff in He as [He Hp]. apply andb_true_iff in He as [Hn Hv].
    apply bool_decide_eq_true in Hn, Hv. apply Z.eqb_eq in Hp.
    exists ready, m. split_and!; try done. by apply host_metadata_roundtrip.
  - split; [done|]. intros _. unfold spawn in Hs. repeat case_match; simplify_eq; eauto.
Qed.

(** ** Conversations *)

Module Talk.
Definition metadata : HostMetadata := {|
  hm_name := "razer"; hm_version := "1.0"; hm_priority := 10; hm_recommended_reconciliation := None;
  hm_probe_outcome := Probe_Ready; hm_buses := [Bus_Hid]; hm_vendors := [{| pv_vendor := 5426; pv_product := 82 |}];
  hm_probe_hints := [] |}.
Definition ready : HostReady := {| hr_metadata := WireMetadata_from metadata; hr_descriptors := [] |}.
Definition started : list Event := [Message (Host_Ready (Ok ready))].
Definition asked : list Event := started ++ [Begin Cmd_Topology; Write (Ok tt)].
(** A response to nobody comes before the one to the request. *)
Definition answered : list Event := asked ++
  [Message (Host_Response 7 (Ok Resp_Rescan)); Message (Host_Response 1 (Ok (Resp_Topology [])))].
(** The host closes its output, and a request begins before the reader marks the connection. *)
Definition late : list Event := started ++
  [TransportEnded "frame too large"; Begin Cmd_Topology; Write (Ok tt); ReaderEnded].
Definition good : Startup := {|
  su_hello := Ok tt; su_reply := Ok Compatible; su_bootstrap := Ok tt; su_reader := Ok tt;
  su_ready := Ready_Sent (Ok ready) |}.
(** A host whose output could not be decoded. *)
Definition broken : HostedPlugin := {|
  hp_metadata := metadata; hp_link := exec starting (started ++ [TransportEnded "invalid frame"; ReaderEnded]);
  hp_epoch := 0; hp_left := []; hp_notified := [] |}.
End Talk.

(** The late request is written and then waits for its timeout. *)
Example late_request_waits :
  let l := exec starting Talk.late in
  lk_alive l = false ∧ (lk_sent l).*1 = [1%Z] ∧ (link_step l Receive).2 = None ∧ is_Some (link_step l Timeout).2.
Proof. vm_compute. split_and!; [reflexivity..|eexists; reflexivity]. Qed.

(** The next call replaces a connection whose process the daemon never terminated. *)
Example broken_host_left_running :
  let hp := (begin_call Talk.broken Talk.good Cmd_Topology).1 in
  lk_alive (hp_link hp) = true ∧ hp_epoch hp = 1%Z ∧ lk_child <$> hp_left hp = [true].
Proof. vm_compute. split_and!; reflexivity. Qed.
(** A reload does terminate it. *)
Example reloaded_host_terminated :
  lk_child <$> hp_left (force_reload Talk.broken [] Talk.good).1 = [false].
Proof. vm_compute. reflexivity. Qed.

Lemma responses_match_requests_witness :
  topology (default (Ok Resp_Rescan) (link_step (exec starting Talk.answered) Receive).2) = Ok [] ∧
  Message (Host_Response 1 (Ok (Resp_Topology []))) ∈ Talk.answered.
Proof.
  assert (link_step (exec starting Talk.answered) Receive =
    ((link_step (exec starting Talk.answered) Receive).1, Some (Ok (Resp_Topology [])))) as H
    by (vm_compute; reflexivity).
  split; [vm_compute; reflexivity|].
  destruct (responses_match_requests _ _ _ _ H) as (c & pre & post & Hc & _ & He & _ & Hm & _).
  rewrite He. apply elem_of_app; right. apply elem_of_cons; right.
  assert (cl_id c = 1%Z) as <- by (vm_compute in Hc; injection Hc as <-; reflexivity). exact Hm.
Defined.

Lemma failed_calls_retire_link_witness :
  ∃ l', link_step (exec starting Talk.asked) Timeout = (l', Some (Err (Fmt "plugin host request exceeded {call_timeout:?}" []))) ∧
    (link_step l' (Begin (Cmd_Rescan 0))).2 = Some (Err (Lit "plugin host is not running")).
Proof.
  assert (link_step (exec starting Talk.asked) Timeout = ((link_step (exec starting Talk.asked) Timeout).1,
    Some (Err (Fmt "plugin host request exceeded {call_timeout:?}" [])))) as H by (vm_compute; reflexivity).
  eexists. split; [exact H|].
  destruct (failed_calls_retire_link _ _ _ _ H) as [(c & error & Hr & _)|[_ Hl]]; [discriminate|].
  destruct (Hl [] (Cmd_Rescan 0)) as [_ Hb].
  exact (f_equal snd Hb).
Defined.

Lemma calls_always_end_witness :
  is_Some (link_step (exec starting Talk.asked) Receive).2 ∨ is_Some (link_step (exec starting Talk.asked) Timeout).2.
Proof.
  apply (proj1 (calls_always_end Talk.asked
    {| cl_channel := 0; cl_id := 1; cl_command := Cmd_Topology; cl_written := true |} eq_refl)).
  reflexivity.
Defined.

Lemma late_call_waits_witness :
  ∃ c', lk_call (exec (exec starting Talk.late) [Receive; Message Host_TopologyChanged; Receive]) = Some c' ∧
    cl_id c' = 1%Z.
Proof.
  destruct (late_call_waits (exec starting Talk.late)
    {| cl_channel := 0; cl_id := 1; cl_command := Cmd_Topology; cl_written := true |}
    [Receive; Message Host_TopologyChanged; Receive]) as (c' & Hc & Hid & _).
  - exact (exec_ok starting Talk.late starting_ok).
  - vm_compute. discriminate.
  - vm_compute. reflexivity.
  - vm_compute. reflexivity.
  - intros e He. repeat (apply elem_of_cons in He as [->|He]; [split; [discriminate|intros error; discriminate]|]).
    apply elem_of_nil in He as [].
  - exists c'. split; [exact Hc|exact Hid].
Defined.
