(* ===== verification/ServiceNames.v ===== *)
(** * Names of shared-memory services: [luminate-host-supervisor/src/shm.rs]

    The daemon and a plugin host derive the names of the services of a frame stream each
    for itself, from the names of the plugin and of the target.  [ServiceName::new] of the
    [iceoryx2] crate is an argument. *)

From S2P Require Import Prelude Toml Settings.

Definition NAMESPACE : string := "luminate/shm-frame/v1".
Definition CLIENT_NAMESPACE : string := "luminate/shm-client-frame/v1".

Definition upper_hex_digit (n : Z) : string :=
  default "0"%string (["0"; "1"; "2"; "3"; "4"; "5"; "6"; "7"; "8"; "9"; "A"; "B"; "C"; "D"; "E"; "F"]
    !! Z.to_nat n)%string.

Definition byte_of (c : Ascii.ascii) : Z := Z.of_N (Ascii.N_of_ascii c).

Definition plain (c : Ascii.ascii) : bool :=
  is_ascii_alphanumeric c || byte_is 45 c || byte_is 95 c || byte_is 46 c.

Definition escape_byte (c : Ascii.ascii) : string :=
  if plain c then String c EmptyString
  else ("%" ++ upper_hex_digit (byte_of c / 16) ++ upper_hex_digit (byte_of c mod 16))%string.

(** What [escape_into] appends. *)
Fixpoint escape (raw : string) : string :=
  match raw with
  | EmptyString => EmptyString
  | String c raw => (escape_byte c ++ escape raw)%string
  end.

Section names.
Context {ServiceName ServiceNameError : Type} (new : string → result ServiceNameError ServiceName).

Record ShmServiceNames := { publish_subscribe : ServiceName; event : ServiceName }.

Definition names_from_base (base : string) : result ServiceNameError ShmServiceNames :=
  publish_subscribe ← new base;
  event ← new (base ++ "/notify")%string;
  Ok {| publish_subscribe := publish_subscribe; event := event |}.

Definition service_names (plugin_name target_path : string) : result ServiceNameError ShmServiceNames :=
  names_from_base (NAMESPACE ++ "/" ++ escape plugin_name ++ "/" ++ escape target_path)%string.

Definition client_service_names (target_path : string) : result ServiceNameError ShmServiceNames :=
  names_from_base (CLIENT_NAMESPACE ++ "/" ++ escape target_path)%string.
End names.

(** ** Escaping *)

(** Every byte escapes to a text that tells where it ends: for each pair of different bytes
    the texts differ at a position that both have. *)
Fixpoint apart (s t : string) : bool :=
  match s, t with
  | String c s, String d t => if Ascii.eqb c d then apart s t else true
  | _, _ => false
  end.

Lemma apart_app s t s' t' : apart s t = true → (s ++ s' ≠ t ++ t')%string.
Proof.
  revert t. induction s as [|c s IH]; intros [|d t]; simpl; try done.
  destruct (Ascii.eqb_spec c d) as [->|Hne]; [|by intros _ [= ?]].
  intros Ha [= H]. by apply (IH t).
Qed.

Definition all_ascii : list Ascii.ascii := Ascii.ascii_of_nat <$> seq 0 256.
Lemma all_ascii_all c : c ∈ all_ascii.
Proof.
  unfold all_ascii. apply list_elem_of_fmap. exists (Ascii.nat_of_ascii c).
  split; [by rewrite Ascii.ascii_nat_embedding|]. apply elem_of_seq. pose proof (Ascii.nat_ascii_bounded c). lia.
Qed.

Lemma escape_bytes_apart c d : c ≠ d → apart (escape_byte c) (escape_byte d) = true.
Proof.
  assert (forallb (λ c, forallb (λ d, Ascii.eqb c d || apart (escape_byte c) (escape_byte d)) all_ascii)
    all_ascii = true) as H by (vm_compute; reflexivity).
  intros Hne. rewrite forallb_forall in H. specialize (H c (proj1 (list_elem_of_In _ _) (all_ascii_all c))).
  rewrite forallb_forall in H. specialize (H d (proj1 (list_elem_of_In _ _) (all_ascii_all d))).
  destruct (Ascii.eqb_spec c d); done.
Qed.

(** Escaping loses nothing. *)
#[export] Instance escape_inj : Inj (=) (=) escape.
Proof.
  assert (∀ c s, escape (String c s) ≠ EmptyString) as Hne.
  { intros c s. simpl. unfold escape_byte. by destruct (plain c). }
  intros s. induction s as [|c s IH]; intros [|d t] H; [done| |..].
  - by destruct (Hne d t).
  - by destruct (Hne c s).
  - destruct (decide (c = d)) as [<-|Hcd].
    + f_equal. apply IH. simpl in H. revert H. generalize (escape_byte c). clear.
      intros p. induction p as [|x p IHp]; simpl; [done|]. intros [= H]. auto.
    + simpl in H. by apply apart_app in H; [|apply escape_bytes_apart].
Qed.

Definition not_slash (c : Ascii.ascii) : bool := negb (byte_is 47 c).

Lemma all_bytes_app f s t : all_bytes f (s ++ t) = all_bytes f s && all_bytes f t.
Proof. induction s as [|c s IH]; simpl; [done|]. by rewrite IH, andb_assoc. Qed.

Lemma escape_no_slash s : all_bytes not_slash (escape s) = true.
Proof.
  induction s as [|c s IH]; simpl; [done|]. rewrite all_bytes_app, IH, andb_true_r.
  assert (forallb (λ c, all_bytes not_slash (escape_byte c)) all_ascii = true) as H by (vm_compute; reflexivity).
  rewrite forallb_forall in H. apply H. apply list_elem_of_In, all_ascii_all.
Qed.

(** The first separator is where the first segment ends. *)
Lemma segment_inj s s' t t' : all_bytes not_slash s = true → all_bytes not_slash s' = true →
  (s ++ "/" ++ t = s' ++ "/" ++ t')%string → s = s' ∧ t = t'.
Proof.
  revert s'. induction s as [|c s IH]; intros [|d s']; simpl; intros Hs Hs' H.
  - split; [done|]. injection H as H. exact H.
  - injection H as <- _. by simpl in Hs'.
  - injection H as -> _. by simpl in Hs.
  - injection H as -> H. apply andb_true_iff in Hs as [_ Hs]. apply andb_true_iff in Hs' as [_ Hs'].
    by destruct (IH s' Hs Hs' H) as [-> ->].
Qed.
Lemma segment_end s s' t : all_bytes not_slash s = true → s ≠ (s' ++ "/" ++ t)%string.
Proof.
  intros Hs ->. rewrite all_bytes_app in Hs. apply andb_true_iff in Hs as [_ Hs]. by simpl in Hs.
Qed.

(** ** Streams *)

(** A stream from the daemon to a plugin host, or from a client to the daemon. *)
Inductive Stream := HostStream (plugin_name target_path : string) | ClientStream (target_path : string).

Definition base (s : Stream) : string :=
  match s with
  | HostStream p t => NAMESPACE ++ "/" ++ escape p ++ "/" ++ escape t
  | ClientStream t => CLIENT_NAMESPACE ++ "/" ++ escape t
  end%string.

Lemma prefix_inj (p s t : string) : (p ++ s = p ++ t)%string → s = t.
Proof. induction p as [|c p IH]; simpl; [done|]. intros [= H]. auto. Qed.

#[export] Instance base_inj : Inj (=) (=) base.
Proof.
  intros [p t|t] [p' t'|t'] H; simpl in H; try discriminate.
  - injection H as H. apply segment_inj in H as [H1 H2]; [|apply escape_no_slash..].
    by rewrite (inj escape _ _ H1), (inj escape _ _ H2).
  - injection H as H. by rewrite (inj escape _ _ H).
Qed.

Lemma base_not_event s s' : base s ≠ (base s' ++ "/notify")%string.
Proof.
  destruct s as [p t|t], s' as [p' t'|t']; simpl; intros H; try discriminate.
  - injection H as H.
    assert (escape p ++ "/" ++ escape t = escape p' ++ "/" ++ escape t' ++ "/notify")%string as H'.
    { exact (eq_trans H (string_app_assoc (escape p') ("/" ++ escape t') "/notify")). }
    clear H. rename H' into H. apply segment_inj in H as [_ H]; [|apply escape_no_slash..].
    by apply (segment_end (escape t) (escape t') "notify") in H; [|apply escape_no_slash].
  - injection H as H. by apply (segment_end (escape t) (escape t') "notify") in H; [|apply escape_no_slash].
Qed.

Lemma event_inj s s' : (base s ++ "/notify" = base s' ++ "/notify")%string → s = s'.
Proof.
  intros H. apply (inj base). revert H. generalize (base s) (base s'). clear. intros a.
  assert (∀ x y : string, x = y → String.length x = String.length y) as Hlen by (by intros ? ? ->).
  assert (∀ x y : string, String.length (x ++ y) = String.length x + String.length y) as Happ.
  { induction x as [|c x IH]; intros y; [done|]. exact (f_equal S (IH y)). }
  induction a as [|c a IH]; intros [|d b] H; simpl in H; try done.
  - apply Hlen in H. rewrite (Happ (String d b) "/notify"%string) in H. simpl in H. lia.
  - apply Hlen in H. rewrite (Happ (String c a) "/notify"%string) in H. simpl in H. lia.
  - injection H as -> H. f_equal. by apply IH.
Qed.

Section distinct.
Context {ServiceName ServiceNameError : Type} (new : string → result ServiceNameError ServiceName).

Definition names_of (s : Stream) : result ServiceNameError ShmServiceNames :=
  match s with
  | HostStream p t => service_names new p t
  | ClientStream t => client_service_names new t
  end.

Lemma names_of_base s : names_of s = names_from_base new (base s).
Proof. by destruct s. Qed.

(** Streams never share a service: if a service name is the text it was made of, then two
    streams, of either direction, that have a publish-subscribe or an event service in
    common are the same stream, and no event service is a publish-subscribe service. *)
Theorem service_names_distinct s s' n n' :
  (∀ a b name, new a = Ok name → new b = Ok name → a = b) →
  names_of s = Ok n → names_of s' = Ok n' →
  (publish_subscribe n = publish_subscribe n' ∨ event n = event n' → s = s') ∧
  publish_subscribe n ≠ event n'.
Proof.
  intros Hnew. rewrite !names_of_base. unfold names_from_base.
  intros (p & Hp & (e & He & [= <-])%bind_Ok)%bind_Ok (p' & Hp' & (e' & He' & [= <-])%bind_Ok)%bind_Ok. simpl.
  split.
  - intros [<-|<-]; [apply (inj base); by eapply Hnew|by eapply event_inj, Hnew].
  - intros <-. by apply (base_not_event s s'), (Hnew _ _ p).
Qed.
End distinct.

Definition short (s : string) : result unit string :=
  if bool_decide (String.length s <= 255) then Ok s else Err tt.

Lemma service_names_distinct_witness :
  is_ok (names_of short (HostStream "wled" "a/b")) = true ∧
  ∀ n n', names_of short (HostStream "wled" "a/b") = Ok n → names_of short (HostStream "wled/a" "b") = Ok n' →
    publish_subscribe n ≠ publish_subscribe n'.
Proof.
  split; [vm_compute; reflexivity|]. intros n n' Hn Hn' Heq.
  assert (HostStream "wled" "a/b" = HostStream "wled/a" "b") as H; [|discriminate].
  refine (proj1 (service_names_distinct short _ _ n n' _ Hn Hn') (or_introl Heq)).
  unfold short. intros a b name. repeat case_bool_decide; congruence.
Defined.
