(* ===== verification/DynamicRegistry.v ===== *)
(** * The registry of discovered devices: [luminate-plugin-api/src/dynamic_registry.rs]

    Plugins for network devices keep what they discover here: entries stay until they have
    not been seen for some time, their number is bounded, and so is the number of new ones
    that each source of discovery can add.  Times are in nanoseconds. *)

From S2P Require Import Prelude.

Inductive IpAddr := Addr_V4 (bits : Z) | Addr_V6 (bits : Z).
#[export] Instance IpAddr_eq : EqDecision IpAddr.
Proof. solve_decision. Defined.
#[export] Instance IpAddr_countable : Countable IpAddr.
Proof.
  refine (inj_countable' (λ a, match a with Addr_V4 z => (true, z) | Addr_V6 z => (false, z) end)
    (λ p : bool * Z, if p.1 then Addr_V4 p.2 else Addr_V6 p.2) _).
  by intros [].
Defined.

Inductive RegistryExpiry := AtOrAfter | After.
Record RegistryRefresh := { rr_topology_changed : bool; rr_rejected : nat; rr_expired : nat }.

Section registry.
Context {T F : Type} `{EqDecision F}.

Record RegistryEntry := {
  re_value : T;
  re_fingerprint : F;
  re_source : option IpAddr;
  re_last_seen : Z
}.
Notation entries_map := (gmap string RegistryEntry).

Record DynamicDeviceRegistry := {
  dr_maximum : nat;
  dr_expiry : Z;
  dr_boundary : RegistryExpiry;
  dr_entries : entries_map
}.
Definition DynamicDeviceRegistry_new (maximum : nat) (expiry : Z) (boundary : RegistryExpiry) :
    DynamicDeviceRegistry :=
  {| dr_maximum := maximum; dr_expiry := expiry; dr_boundary := boundary; dr_entries := ∅ |}.

Definition increment_source_count (counts : gmap IpAddr nat) (source : option IpAddr) : gmap IpAddr nat :=
  match source with
  | Some source => <[source := S (default 0 (counts !! source))]> counts
  | None => counts
  end.
Definition decrement_source_count (counts : gmap IpAddr nat) (source : option IpAddr) : gmap IpAddr nat :=
  match source with
  | Some source => match counts !! source with
                   | Some count => <[source := count - 1]> counts
                   | None => counts
                   end
  | None => counts
  end.
Definition source_counts (entries : entries_map) : gmap IpAddr nat :=
  foldl (λ counts p, increment_source_count counts (re_source p.2)) ∅ (map_to_list entries).

Definition fingerprint_le (p q : string * F) : Prop := String.le p.1 q.1.
#[export] Instance fingerprint_le_dec : RelDecision fingerprint_le.
Proof. intros p q. unfold fingerprint_le. apply _. Defined.

Definition fingerprints (entries : entries_map) : list (string * F) :=
  merge_sort fingerprint_le (map_to_list (re_fingerprint <$> entries)).

(** [saturating_duration_since] *)
Definition age (now : Z) (entry : RegistryEntry) : Z := Z.max 0 (now - re_last_seen entry).
Definition retained (r : DynamicDeviceRegistry) (now : Z) (entry : RegistryEntry) : bool :=
  match dr_boundary r with
  | AtOrAfter => (age now entry <? dr_expiry r)%Z
  | After => (age now entry <=? dr_expiry r)%Z
  end.

Notation refreshed := (string * T * F * option IpAddr)%type.

(** The loop over the refreshed entries; [maximum_per_source] is [None] for [usize::MAX]. *)
Definition admits (maximum : nat) (maximum_per_source : option nat) (entries : entries_map)
    (counts : gmap IpAddr nat) (id : string) (source : option IpAddr) : bool :=
  bool_decide (is_Some (entries !! id)) ||
  (bool_decide (size entries < maximum) &&
   match source, maximum_per_source with
   | Some source, Some limit => bool_decide (default 0 (counts !! source) < limit)
   | _, _ => true
   end).

Definition refresh_entry (maximum : nat) (maximum_per_source : option nat) (now : Z)
    (acc : entries_map * gmap IpAddr nat * nat) (item : refreshed) : entries_map * gmap IpAddr nat * nat :=
  let '(entries, counts, rejected) := acc in
  let '(id, value, fingerprint, source) := item in
  let existing_source := entries !! id ≫= re_source in
  if admits maximum maximum_per_source entries counts id source then
    let counts :=
      if bool_decide (existing_source ≠ source)
      then increment_source_count (decrement_source_count counts existing_source) source
      else if bool_decide (entries !! id = None) then increment_source_count counts source else counts in
    (<[id := {| re_value := value; re_fingerprint := fingerprint; re_source := source; re_last_seen := now |}]>
       entries, counts, rejected)
  else (entries, counts, S rejected).

Definition refresh_with_source_limit (r : DynamicDeviceRegistry) (now : Z) (items : list refreshed)
    (maximum_per_source : option nat) : DynamicDeviceRegistry * RegistryRefresh :=
  let kept := filter (λ p, retained r now p.2 = true) (dr_entries r) in
  let '(entries, _, rejected) :=
    foldl (refresh_entry (dr_maximum r) maximum_per_source now) (kept, source_counts kept, 0) items in
  ({| dr_maximum := dr_maximum r; dr_expiry := dr_expiry r; dr_boundary := dr_boundary r; dr_entries := entries |},
   {| rr_topology_changed := negb (bool_decide (fingerprints (dr_entries r) = fingerprints entries));
      rr_rejected := rejected; rr_expired := size (dr_entries r) - size kept |}).

Definition refresh (r : DynamicDeviceRegistry) (now : Z) (items : list (string * T * F)) :
    DynamicDeviceRegistry * RegistryRefresh :=
  refresh_with_source_limit r now ((λ item, (item, None)) <$> items) None.

Definition get (r : DynamicDeviceRegistry) (id : string) : option T := re_value <$> dr_entries r !! id.
Definition contains (r : DynamicDeviceRegistry) (id : string) : bool := bool_decide (is_Some (dr_entries r !! id)).
Definition len (r : DynamicDeviceRegistry) : nat := size (dr_entries r).
Definition key_le (p q : string * T) : Prop := String.le p.1 q.1.
#[export] Instance key_le_dec : RelDecision key_le.
Proof. intros p q. unfold key_le. apply _. Defined.
Definition snapshot (r : DynamicDeviceRegistry) : list T :=
  (merge_sort key_le (map_to_list (re_value <$> dr_entries r))).*2.
End registry.
Arguments RegistryEntry : clear implicits.
Arguments DynamicDeviceRegistry : clear implicits.

(** ** Properties *)

Section properties.
Context {T F : Type} `{EqDecision F}.
Implicit Types (m : gmap string (RegistryEntry T F)) (item : string * T * F * option IpAddr).

(** The number of entries that a source discovered. *)
Definition discovered m (s : IpAddr) : nat := size (filter (λ p, re_source p.2 = Some s) m).

Lemma discovered_insert m id e s :
  discovered (<[id := e]> m) s =
  let before := match m !! id with Some e0 => bool_decide (re_source e0 = Some s) | None => false end in
  if bool_decide (re_source e = Some s) then if before then discovered m s else S (discovered m s)
  else if before then pred (discovered m s) else discovered m s.
Proof.
  unfold discovered. rewrite map_filter_insert. simpl.
  assert (filter (λ p, re_source p.2 = Some s) m !! id =
    match m !! id with Some e0 => if bool_decide (re_source e0 = Some s) then Some e0 else None | None => None end) as Hl.
  { rewrite map_lookup_filter. destruct (m !! id) as [e0|]; simpl; [|done].
    repeat case_bool_decide; simpl; unfold guard; case_decide; done. }
  case_decide; [rewrite bool_decide_eq_true_2 by done|rewrite bool_decide_eq_false_2 by done].
  - rewrite map_size_insert, Hl. destruct (m !! id) as [e0|]; [by case_bool_decide|done].
  - rewrite map_filter_delete, map_size_delete, Hl. destruct (m !! id) as [e0|]; [by case_bool_decide|done].
Qed.

Definition accurate (counts : gmap IpAddr nat) m : Prop := ∀ s, default 0 (counts !! s) = discovered m s.

Lemma discovered_list m s :
  discovered m s = length (filter (λ p : string * RegistryEntry T F, re_source p.2 = Some s) (map_to_list m)).
Proof.
  unfold discovered. rewrite <-length_map_to_list, map_filter_alt.
  rewrite map_to_list_to_map; [done|]. apply NoDup_fmap_fst; [|apply NoDup_filter, NoDup_map_to_list].
  intros id e1 e2 [_ H1]%list_elem_of_filter [_ H2]%list_elem_of_filter.
  apply elem_of_map_to_list in H1, H2. congruence.
Qed.

Lemma source_counts_accurate m : accurate (source_counts m) m.
Proof.
  intros s. rewrite discovered_list. unfold source_counts.
  assert (∀ l counts, default 0 (foldl (λ counts p, increment_source_count counts (re_source p.2)) counts l !! s) =
    default 0 (counts !! s) + length (filter (λ p : string * RegistryEntry T F, re_source p.2 = Some s) l)) as H.
  { induction l as [|[id e] l IH]; intros counts; simpl; [lia|]. rewrite IH, filter_cons. cbn [snd].
    case_decide as Hs; destruct (re_source e) as [s'|]; simplify_eq; cbn [increment_source_count length].
    - rewrite lookup_insert_eq. simpl. lia.
    - rewrite lookup_insert_ne by congruence. done.
    - done. }
  rewrite H. by rewrite lookup_empty.
Qed.

(** *** One refreshed entry *)

Definition item_id item : string := item.1.1.1.
Definition entry_of (now : Z) item : RegistryEntry T F :=
  let '(_, value, fingerprint, source) := item in
  {| re_value := value; re_fingerprint := fingerprint; re_source := source; re_last_seen := now |}.
(** The last report of an identity. *)
Definition report (items : list (string * T * F * option IpAddr)) (id : string) :=
  last (filter (λ item, item_id item = id) items).

Lemma report_snoc items item id :
  report (items ++ [item]) id = if decide (item_id item = id) then Some item else report items id.
Proof.
  unfold report. rewrite filter_app, filter_cons, filter_nil. case_decide; [by rewrite last_snoc|by rewrite app_nil_r].
Qed.

Lemma increment_lookup counts source s :
  default 0 (increment_source_count counts source !! s) =
  if bool_decide (source = Some s) then S (default 0 (counts !! s)) else default 0 (counts !! s).
Proof.
  destruct source as [s'|]; simpl; [|done]. case_bool_decide; simplify_eq.
  - by rewrite lookup_insert_eq.
  - by rewrite lookup_insert_ne by congruence.
Qed.
Lemma decrement_lookup counts source s :
  default 0 (decrement_source_count counts source !! s) =
  if bool_decide (source = Some s) then pred (default 0 (counts !! s)) else default 0 (counts !! s).
Proof.
  destruct source as [s'|]; simpl; [|done]. destruct (counts !! s') as [n|] eqn:E.
  - case_bool_decide; simplify_eq; [rewrite lookup_insert_eq, E; simpl; lia|by rewrite lookup_insert_ne by congruence].
  - case_bool_decide; simplify_eq; [by rewrite E|done].
Qed.

Section loop.
Context (maximum : nat) (limit : option nat) (now : Z).
Notation step := (refresh_entry (T := T) (F := F) maximum limit now).

Lemma refresh_entry_spec m counts rejected item :
  accurate counts m →
  ∃ counts', accurate counts' (step (m, counts, rejected) item).1.1 ∧
    (step (m, counts, rejected) item).1.2 = counts' ∧
    (step (m, counts, rejected) item).1.1 =
      (if admits maximum limit m counts (item_id item) (entry_of now item).(re_source)
       then <[item_id item := entry_of now item]> m else m) ∧
    (step (m, counts, rejected) item).2 =
      (if admits maximum limit m counts (item_id item) (entry_of now item).(re_source)
       then rejected else S rejected).
Proof.
  intros Hc. destruct item as [[[id value] fingerprint] source]. simpl.
  destruct (admits _ _ _ _ _ _); simpl; [|by eexists]. eexists. split; [|by split_and!].
  intros s. rewrite discovered_insert. simpl. pose proof (Hc s) as Hs.
  destruct (m !! id) as [e0|] eqn:E; simpl.
  - case_bool_decide as Hne.
    + rewrite increment_lookup, decrement_lookup, Hs. repeat case_bool_decide; try congruence.
    + rewrite Hs. repeat case_bool_decide; congruence || done.
  - case_bool_decide as Hne.
    + rewrite increment_lookup, Hs. done.
    + rewrite increment_lookup, Hs. done.
Qed.

(** No identity is reported by two sources. *)
Definition stable m (items : list (string * T * F * option IpAddr)) : Prop :=
  (∀ item item', item ∈ items → item' ∈ items → item_id item = item_id item' →
     re_source (entry_of now item) = re_source (entry_of now item')) ∧
  (∀ item e, item ∈ items → m !! item_id item = Some e → re_source e = re_source (entry_of now item)).

(** A reported device is welcome when it is known, or when there is room for it: in the
    registry, and among the entries that its source discovered if there is a limit to them. *)
Definition welcome m item : Prop :=
  is_Some (m !! item_id item) ∨
  size m < maximum ∧
  ∀ s bound, re_source (entry_of now item) = Some s → limit = Some bound → discovered m s < bound.

(** The reports are taken in their order: a welcome one replaces what is known of its identity,
    every other one is only counted. *)
Inductive takes : gmap string (RegistryEntry T F) → list (string * T * F * option IpAddr) → nat →
    gmap string (RegistryEntry T F) → Prop :=
  | Takes_done m : takes m [] 0 m
  | Takes_welcome m item items rejected m' :
      welcome m item →
      takes (<[item_id item := entry_of now item]> m) items rejected m' →
      takes m (item :: items) rejected m'
  | Takes_refused m item items rejected m' :
      ¬ welcome m item → takes m items rejected m' → takes m (item :: items) (S rejected) m'.

Lemma admits_welcome m counts item : accurate counts m →
  admits maximum limit m counts (item_id item) (re_source (entry_of now item)) = true ↔ welcome m item.
Proof.
  intros Hc. unfold admits, welcome. rewrite orb_true_iff, andb_true_iff, !bool_decide_eq_true.
  destruct (re_source (entry_of now item)) as [s|]; [destruct limit as [bound|]|].
  - rewrite bool_decide_eq_true, (Hc s). naive_solver.
  - naive_solver.
  - naive_solver.
Qed.

Lemma refresh_takes items : ∀ m counts rejected, accurate counts m →
  ∃ more, (foldl step (m, counts, rejected) items).2 = rejected + more ∧
    takes m items more (foldl step (m, counts, rejected) items).1.1.
Proof.
  induction items as [|item items IH]; intros m counts rejected Hc.
  { exists 0. split; [simpl; lia|constructor]. }
  cbn [foldl]. destruct (refresh_entry_spec m counts rejected item Hc) as (counts1 & Ha & E1 & Em & Er).
  destruct (step _ item) as [[m1 c1] rejected1]. cbn [fst snd] in *. subst c1.
  destruct (IH m1 counts1 rejected1 Ha) as (more & Hmore & Ht). rewrite Hmore.
  pose proof (admits_welcome m counts item Hc) as Hw.
  destruct (admits _ _ _ _ _ _); subst m1 rejected1.
  - exists more. split; [done|]. apply Takes_welcome; [by apply Hw|done].
  - exists (S more). split; [lia|]. apply Takes_refused; [|done]. intros H%Hw. discriminate.
Qed.

(** What a refresh makes of the entries that were kept. *)
Record refreshed_entries m (items : list (string * T * F * option IpAddr)) (rejected : nat)
    (acc : gmap string (RegistryEntry T F) * gmap IpAddr nat * nat) : Prop := {
  fe_accurate : accurate acc.1.2 acc.1.1;
  fe_rejected : rejected ≤ acc.2;
  fe_others : ∀ id, report items id = None → acc.1.1 !! id = m !! id;
  fe_reported : ∀ id item, report items id = Some item →
    acc.1.1 !! id = Some (entry_of now item) ∨ acc.1.1 !! id = None ∧ m !! id = None ∧ rejected < acc.2;
  fe_size : size acc.1.1 ≤ max maximum (size m);
  fe_source : ∀ s bound, limit = Some bound →
    stable m items →
    discovered acc.1.1 s ≤ max bound (discovered m s)
}.

Lemma report_elem items id item : report items id = Some item → item ∈ items ∧ item_id item = id.
Proof. intros H%last_Some_elem_of. apply list_elem_of_filter in H as [??]. done. Qed.

Lemma stable_app m items item : stable m (items ++ [item]) → stable m items.
Proof.
  intros [H1 H2]. split.
  - intros i i' Hi Hi'. apply H1; apply elem_of_app; by left.
  - intros i e Hi. apply H2, elem_of_app. by left.
Qed.

(** What is known of the identity of the next report has its source. *)
Lemma stable_known m items item (m1 : gmap string (RegistryEntry T F)) e0 :
  stable m (items ++ [item]) →
  (∀ id, report items id = None → m1 !! id = m !! id) →
  (∀ id it, report items id = Some it → m1 !! id = Some (entry_of now it) ∨ m1 !! id = None) →
  m1 !! item_id item = Some e0 → re_source e0 = re_source (entry_of now item).
Proof.
  intros [H1 H2] Ho Hi E. assert (item ∈ items ++ [item]) as Hin by (apply elem_of_app; right; by left).
  destruct (report items (item_id item)) as [it|] eqn:Hr.
  - destruct (Hi _ _ Hr) as [E'|?]; [|congruence]. rewrite E in E'. injection E' as ->.
    apply report_elem in Hr as [Hit Hid]. apply H1; [apply elem_of_app; by left|done|done].
  - rewrite (Ho _ Hr) in E. by apply (H2 item).
Qed.

Lemma refresh_loop m counts rejected items : accurate counts m →
  refreshed_entries m items rejected (foldl step (m, counts, rejected) items).
Proof.
  intros Hc. induction items as [|item items IH] using rev_ind.
  { split; simpl; try done; lia. }
  rewrite foldl_app. cbn [foldl]. destruct (foldl step _ items) as [[m1 counts1] rejected1]. destruct IH as [IHa IHr IHo IHi IHs IHb].
  cbn [fst snd] in *. destruct (refresh_entry_spec m1 counts1 rejected1 item IHa) as (counts2 & Ha2 & E2 & Em & Er).
  destruct (step (m1, counts1, rejected1) item) as [[m2 ?] rejected2]. cbn [fst snd] in *. subst.
  destruct (admits maximum limit m1 counts1 (item_id item) _) eqn:Had.
  - set (e := entry_of now item) in *. assert (item_id item ∈@{gset string} dom m1 ∨ size m1 < maximum) as Hsz.
    { unfold admits in Had. apply orb_true_iff in Had as [H%bool_decide_eq_true|[H%bool_decide_eq_true _]%andb_true_iff];
        [left; by apply elem_of_dom|by right]. }
    split; cbn [fst snd]; [done|done|..].
    + intros id. rewrite report_snoc. case_decide; [done|]. intros H1. rewrite lookup_insert_ne by done. by apply IHo.
    + intros id item'. rewrite report_snoc. case_decide as Hid.
      * intros [= <-]. left. by rewrite <-Hid, lookup_insert_eq.
      * intros H1. rewrite lookup_insert_ne by done. by apply IHi.
    + rewrite map_size_insert. destruct (m1 !! item_id item) eqn:E; simpl; [done|].
      destruct Hsz as [H1%elem_of_dom|]; [rewrite E in H1; by destruct H1|lia].
    + intros s bound Hb Hst. specialize (IHb s bound Hb (stable_app _ _ _ Hst)).
      rewrite discovered_insert. destruct (m1 !! item_id item) as [e0|] eqn:E.
      * assert (re_source e0 = re_source e) as -> by (eapply (stable_known m items item m1); try done; intros id it Hrep; destruct (IHi _ _ Hrep) as [?|(? & _)]; auto).
        by case_bool_decide.
      * simpl. case_bool_decide as Hs; [|done].
        unfold admits in Had. rewrite E, Hs, Hb, (IHa s) in Had. simpl in Had.
        apply andb_true_iff in Had as [_ Had%bool_decide_eq_true]. lia.
  - assert (m1 !! item_id item = None) as E.
    { unfold admits in Had. apply orb_false_iff in Had as [H _]. apply bool_decide_eq_false in H.
      destruct (m1 !! item_id item); [exfalso; eauto|done]. }
    split; simpl; [done|lia|..|done|].
    + intros id. rewrite report_snoc. case_decide; [done|]. apply IHo.
    + intros id item'. rewrite report_snoc. case_decide as Hid.
      * intros [= <-]. subst id. right. split; [done|]. split; [|lia].
        destruct (report items (item_id item)) as [it|] eqn:Hrep; [|by rewrite <-IHo].
        destruct (IHi _ _ Hrep) as [?|(_ & ? & _)]; [congruence|done].
      * intros H1. destruct (IHi _ _ H1) as [?|(? & ? & ?)]; [by left|right]. split_and!; [done..|lia].
    + intros s bound Hb Hst. by apply (IHb s bound Hb), (stable_app _ _ _ Hst).
Qed.
End loop.

Lemma fingerprints_eq m m' :
  fingerprints m = fingerprints m' ↔ re_fingerprint <$> m = re_fingerprint <$> m'.
Proof.
  split; [|unfold fingerprints; by intros ->]. intros H. apply map_to_list_inj.
  assert (∀ m, fingerprints m ≡ₚ map_to_list (re_fingerprint <$> m)) as Hp.
  { intros m0. unfold fingerprints. apply merge_sort_Permutation. }
  by rewrite <-Hp, H, Hp.
Qed.

Lemma refresh_keeps_bound (r : DynamicDeviceRegistry T F) now items limit :
  size (dr_entries r) ≤ dr_maximum r →
  size (dr_entries (refresh_with_source_limit r now items limit).1) ≤ dr_maximum r ∧
  dr_maximum (refresh_with_source_limit r now items limit).1 = dr_maximum r.
Proof.
  intros Hm. unfold refresh_with_source_limit.
  set (kept := filter (λ p, retained r now p.2 = true) (dr_entries r)).
  destruct (refresh_loop (dr_maximum r) limit now kept (source_counts kept) 0 items
    (source_counts_accurate kept)) as [_ _ _ _ Hs _].
  destruct (foldl _ _ items) as [[after counts] rejected]. simpl in *. split; [|done].
  assert (size kept ≤ size (dr_entries r)) by apply map_size_filter. lia.
Qed.

(** C38: A refresh first drops exactly the entries that were not seen for too long, and counts
    them. It then takes the reports one after the other: a report is admitted exactly when its
    identity is in the registry, or when the registry has less than its maximum of entries
    and, if the report has a source and there is a limit per source, that source discovered
    less than this limit of the present entries; an admitted report replaces the entry of its
    identity, a refused one changes nothing, and the refused ones are counted exactly.
    So an identity that is not reported keeps its entry, and a reported one has afterwards what
    its last report says, or was not known and is refused. The registry stays within its
    limit. Provided that no identity is reported by two sources, a source has afterwards at
    most as many entries as the limit per source or as it had before. The topology is announced
    as changed exactly when the identities or fingerprints differ. *)
Theorem refresh_correct (r : DynamicDeviceRegistry T F) now items limit :
  let kept := filter (λ p, retained r now p.2 = true) (dr_entries r) in
  let '(r', info) := refresh_with_source_limit r now items limit in
  let after := dr_entries r' in
  takes (dr_maximum r) limit now kept items (rr_rejected info) after ∧
  (∀ id, report items id = None → after !! id = kept !! id) ∧
  (∀ id item, report items id = Some item → after !! id = Some (entry_of now item) ∨
     after !! id = None ∧ kept !! id = None ∧ 0 < rr_rejected info) ∧
  (size (dr_entries r) ≤ dr_maximum r → size after ≤ dr_maximum r') ∧
  dr_maximum r' = dr_maximum r ∧ dr_expiry r' = dr_expiry r ∧ dr_boundary r' = dr_boundary r ∧
  (∀ s bound, limit = Some bound → stable now kept items →
     discovered after s ≤ max bound (discovered kept s)) ∧
  (rr_topology_changed info = false ↔ re_fingerprint <$> after = re_fingerprint <$> dr_entries r) ∧
  size (dr_entries r) = size kept + rr_expired info.
Proof.
  intros kept. unfold refresh_with_source_limit. fold kept.
  pose proof (refresh_loop (dr_maximum r) limit now kept (source_counts kept) 0 items
    (source_counts_accurate kept)) as Hl.
  pose proof (refresh_takes (dr_maximum r) limit now items kept (source_counts kept) 0
    (source_counts_accurate kept)) as (more & Hmore & Ht).
  destruct (foldl _ _ items) as [[after counts] rejected]. destruct Hl as [_ _ Ho Hi Hs Hb]. cbn [fst snd] in *. simpl.
  assert (size kept ≤ size (dr_entries r)) as Hk by apply map_size_filter. subst rejected. simpl.
  split_and!; [exact Ht|exact Ho|exact Hi|lia|done|done|done|exact Hb| |lia].
  rewrite negb_false_iff, bool_decide_eq_true, fingerprints_eq. split; congruence.
Qed.

(** Over any sequence of refreshes a registry stays within its limit. *)
Theorem registry_bounded maximum expiry boundary refreshes :
  let r := foldl (λ r p, (refresh_with_source_limit r p.1.1 p.1.2 p.2).1)
    (DynamicDeviceRegistry_new (T := T) (F := F) maximum expiry boundary) refreshes in
  len r ≤ maximum.
Proof.
  set (start := DynamicDeviceRegistry_new _ _ _). simpl.
  assert (len start ≤ dr_maximum start ∧ dr_maximum start = maximum) as H.
  { split; [|done]. unfold len. simpl. rewrite map_size_empty. lia. }
  revert H. generalize start. clear start. induction refreshes as [|[[now items] limit] refreshes IH]; intros r [Hm He].
  { simpl. lia. }
  apply IH. simpl. destruct (refresh_keeps_bound r now items limit Hm) as [? ?].
  unfold len in *. split; [lia|congruence].
Qed.
End properties.

(** ** A registry with room for two *)

Module Lamps.
Definition router : option IpAddr := Some (Addr_V4 1).
Definition guest : option IpAddr := Some (Addr_V4 2).
Definition empty : DynamicDeviceRegistry nat nat := DynamicDeviceRegistry_new 3 10 AtOrAfter.
Definition first : DynamicDeviceRegistry nat nat * RegistryRefresh :=
  refresh_with_source_limit empty 0 [("a", 1, 1, router); ("b", 2, 2, guest); ("c", 3, 3, guest)]%string (Some 1).
(** A device that is known moves to a source that has as many as it can add. *)
Definition moved : DynamicDeviceRegistry nat nat * RegistryRefresh :=
  refresh_with_source_limit first.1 5 [("a", 1, 1, guest)]%string (Some 1).
End Lamps.

Example source_limit_refuses :
  (rr_rejected Lamps.first.2, snapshot Lamps.first.1) = (1, [1; 2]).
Proof. vm_compute. reflexivity. Qed.
Example known_devices_may_move :
  discovered (dr_entries Lamps.moved.1) (Addr_V4 2) = 2 ∧ rr_topology_changed Lamps.moved.2 = false.
Proof. vm_compute. split; reflexivity. Qed.
Example unseen_devices_expire :
  let r := refresh Lamps.moved.1 10 [] in (rr_expired r.2, snapshot r.1) = (1, [1]).
Proof. vm_compute. reflexivity. Qed.

(** ** The discovery pacer *)

(** [pc_waiting]: the discovery thread is in [wait]. *)
Record DiscoveryPacer := { pc_pending : bool; pc_waiting : bool }.
Inductive PacerEvent := Wait | Wake | Woken | IntervalOver.

(** The steps, and whether a cycle of discovery begins. *)
Definition pacer_step (p : DiscoveryPacer) (e : PacerEvent) : DiscoveryPacer * bool :=
  match e with
  | Wait => if pc_waiting p then (p, false)
            else if pc_pending p then ({| pc_pending := false; pc_waiting := false |}, true)
            else ({| pc_pending := false; pc_waiting := true |}, false)
  | Wake => ({| pc_pending := true; pc_waiting := pc_waiting p |}, false)
  | Woken => if pc_waiting p && pc_pending p then ({| pc_pending := false; pc_waiting := false |}, true)
             else (p, false)
  | IntervalOver => if pc_waiting p then ({| pc_pending := false; pc_waiting := false |}, true) else (p, false)
  end.
(** The number of cycles that begin. *)
Fixpoint cycles (p : DiscoveryPacer) (events : list PacerEvent) : DiscoveryPacer * nat :=
  match events with
  | [] => (p, 0)
  | e :: events =>
      let '(p, began) := pacer_step p e in
      let '(p, n) := cycles p events in (p, if began : bool then S n else n)
  end.

(** No wake is lost: until a cycle begins after it the wake stays pending, so that the next
    wait returns at once and the one that is running returns as soon as it is scheduled. *)
Theorem wakes_are_remembered p events p' n :
  cycles (pacer_step p Wake).1 events = (p', n) →
  1 ≤ n ∨ pc_pending p' = true ∧ (pacer_step p' (if pc_waiting p' then Woken else Wait)).2 = true.
Proof.
  assert (∀ q, pc_pending q = true → cycles q events = (p', n) → 1 ≤ n ∨ pc_pending p' = true) as H.
  { revert p' n. induction events as [|e events IH]; intros p' n q Hq; simpl; [intros [= <- <-]; by right|].
    destruct (pacer_step q e) as [q1 began] eqn:Hs. destruct (cycles q1 events) as [q2 k] eqn:Hc.
    intros [= <- <-]. destruct began; [left; lia|]. apply (IH _ _ q1); [|done].
    destruct e; simpl in Hs; rewrite ?Hq, ?andb_true_r in Hs; destruct (pc_waiting q); simplify_eq; done. }
  intros Hc. destruct (H (pacer_step p Wake).1 eq_refl Hc) as [?|Hp]; [by left|right]. split; [done|].
  destruct (pc_waiting p') eqn:Hw; simpl; rewrite Hw, Hp; done.
Qed.

Lemma wakes_are_remembered_witness :
  cycles (pacer_step {| pc_pending := false; pc_waiting := true |} Wake).1 [Woken; Wait] =
    ({| pc_pending := false; pc_waiting := true |}, 1) ∧ 1 ≤ 1.
Proof.
  split; [reflexivity|].
  destruct (wakes_are_remembered {| pc_pending := false; pc_waiting := true |} [Woken; Wait] _ _ eq_refl)
    as [H|[H _]]; [exact H|discriminate].
Defined.
