(* ===== verification/GlobalConfig.v ===== *)
(** * The global configuration: [luminated/src/device_config.rs] and [plugins/discovery.rs]

    What an administrator's configuration file may say, the checks it has to pass before the
    daemon starts, and the plugin files that it makes candidates.  Parsing TOML, the file
    system, accounts and the syntax of paths are arguments. *)

From S2P Require Import Prelude Model Policy Normalize Toml Settings Authorization ManagedConfig Abi PluginManager Catalogue.

(** ** Data *)

Inductive FrontendRegistration :=
| Frontend_Unix (uid : option Z) (user : option string)
| Frontend_Windows (sid account : option string).

Inductive PipeAccessConfig := Pipe_LocalGroup (group : string) | Pipe_Interactive.

Record AuthenticationProviderConfig := {
  ap_name : string;
  ap_authority : string;
  ap_executable : string;
  ap_initialization_file : string;
  ap_required : bool;
  ap_max_sessions : Z
}.

(** There is one kind of policy. *)
Record AuthorizationConfig := {
  au_limits : LimitCeilings;
  au_recovery_principals : gset PrincipalId;
  au_frontends : list FrontendRegistration;
  au_authentication_providers : list AuthenticationProviderConfig;
  au_pipe_access : PipeAccessConfig
}.

Record PluginConfig := {
  pl_name : option string;
  pl_path : option string;
  pl_required : bool;
  pl_activation : ManagedPluginActivation;
  pl_reconciliation : option ReconciliationPolicy;
  pl_locked_settings : list string;
  pl_config : Table
}.

(** [DaemonConfig], of which [gc_daemon] holds what managed configuration can override and
    its locks. *)
Record GlobalConfig := {
  gc_socket_path : string;
  gc_event_socket_path : option string;
  gc_state_path : string;
  gc_plugin_dirs : list string;
  gc_managed_config_path : option string;
  gc_activation : PluginActivationMode;
  gc_daemon : DaemonConfig;
  gc_plugins : list PluginConfig;
  gc_authorization : AuthorizationConfig
}.

(** [PartialDaemonConfig]; [pa_management] is [ManagementConfig] as the path and the locks. *)
Record PartialDaemonConfig := {
  pa_socket_path : option string;
  pa_event_socket_path : option string;
  pa_state_path : option string;
  pa_plugin_dirs : option (list string);
  pa_management : option (option string * list string);
  pa_plugin_management : option PluginActivationMode;
  pa_default_unsupported_policy : option UnsupportedPolicy;
  pa_reconciliation_policy : option ReconciliationPolicy;
  pa_device_reconciliation : option (gmap DeviceId ReconciliationPolicy);
  pa_cct_emulation : option CctEmulation;
  pa_plugins : option (list PluginConfig);
  pa_prefer_shm : option bool;
  pa_prefer_client_shm : option bool;
  pa_authorization : option AuthorizationConfig
}.

(** ** Defaults and deserialization *)

Definition default_pipe_access : PipeAccessConfig := Pipe_LocalGroup "Luminate Clients".
Definition default_authorization : AuthorizationConfig := {|
  au_limits := {| lc_connections := None; lc_subscriptions := None |};
  au_recovery_principals := ∅; au_frontends := []; au_authentication_providers := [];
  au_pipe_access := default_pipe_access |}.
Definition default_provider : AuthenticationProviderConfig := {|
  ap_name := ""; ap_authority := ""; ap_executable := ""; ap_initialization_file := "";
  ap_required := true; ap_max_sessions := 64 |}.
Definition default_plugin : PluginConfig := {|
  pl_name := None; pl_path := None; pl_required := false; pl_activation := Activation_Managed;
  pl_reconciliation := None; pl_locked_settings := []; pl_config := [] |}.

(** [try_default]; the installation paths of the platform are arguments. *)
Definition try_default (plugin_local plugin_system socket_path state_path : result Text string) :
    result Text GlobalConfig :=
  plugin_local ← plugin_local;
  plugin_system ← plugin_system;
  socket_path ← socket_path;
  state_path ← state_path;
  Ok {|
    gc_socket_path := socket_path; gc_event_socket_path := None; gc_state_path := state_path;
    gc_plugin_dirs :=
      if bool_decide (plugin_local = plugin_system) then [plugin_local] else [plugin_local; plugin_system];
    gc_managed_config_path := None; gc_activation := Mode_HostAttached;
    gc_daemon := {|
      dc_locked_daemon_settings := []; dc_default_unsupported_policy := Unsupported_Skip;
      dc_reconciliation_policy := None; dc_device_reconciliation := ∅; dc_cct_emulation := None;
      dc_prefer_shm := true; dc_prefer_client_shm := true |};
    gc_plugins := []; gc_authorization := default_authorization |}.

(** [DaemonConfig::deserialize], from the partial value and the defaults. *)
Definition from_partial (partial : PartialDaemonConfig) (config : GlobalConfig) : GlobalConfig := {|
  gc_socket_path := default (gc_socket_path config) (pa_socket_path partial);
  gc_event_socket_path := or_else (pa_event_socket_path partial) (gc_event_socket_path config);
  gc_state_path := default (gc_state_path config) (pa_state_path partial);
  gc_plugin_dirs := default (gc_plugin_dirs config) (pa_plugin_dirs partial);
  gc_managed_config_path := from_option fst (gc_managed_config_path config) (pa_management partial);
  gc_activation := default (gc_activation config) (pa_plugin_management partial);
  gc_daemon :=
    let daemon := gc_daemon config in {|
      dc_locked_daemon_settings := from_option snd (dc_locked_daemon_settings daemon) (pa_management partial);
      dc_default_unsupported_policy :=
        default (dc_default_unsupported_policy daemon) (pa_default_unsupported_policy partial);
      dc_reconciliation_policy :=
        or_else (pa_reconciliation_policy partial) (dc_reconciliation_policy daemon);
      dc_device_reconciliation := default (dc_device_reconciliation daemon) (pa_device_reconciliation partial);
      dc_cct_emulation := or_else (pa_cct_emulation partial) (dc_cct_emulation daemon);
      dc_prefer_shm := default (dc_prefer_shm daemon) (pa_prefer_shm partial);
      dc_prefer_client_shm := default (dc_prefer_client_shm daemon) (pa_prefer_client_shm partial) |};
  gc_plugins := default (gc_plugins config) (pa_plugins partial);
  gc_authorization := default (gc_authorization config) (pa_authorization partial) |}.

(** ** Validation *)

(** [iter().enumerate()] *)
Definition enumerate {A} (l : list A) : list (Z * A) := imap (λ i x, (Z.of_nat i, x)) l.

(** [FrontendRegistration::resolve] on Unix; [uid_for_user] asks the account database. *)
Definition frontend_resolve (uid_for_user : string → result Text (option Z)) (frontend : FrontendRegistration) :
    result Text (option RateLimitKey) :=
  match frontend with
  | Frontend_Unix uid user =>
      uid ← match uid, user with
            | Some uid, None => Ok uid
            | None, Some user =>
                found ← uid_for_user user;
                ok_or found (Fmt "Unix account {user} does not exist" [AStr user])
            | _, _ => Err (Lit "invalid Unix front-end registration")
            end;
      Ok (Some (Key_Uid uid))
  | Frontend_Windows _ _ => Ok None
  end.

Fixpoint strip_prefix (prefix s : string) : option string :=
  match prefix, s with
  | EmptyString, _ => Some s
  | String c prefix, String d s => if Ascii.eqb c d then strip_prefix prefix s else None
  | String _ _, EmptyString => None
  end.

Definition validate_frontends (frontends : list FrontendRegistration) : result Text unit :=
  try_for (λ '(index, frontend),
    match frontend with
    | Frontend_Unix uid user =>
        _ ← ensure (negb (Bool.eqb (bool_decide (is_Some uid)) (bool_decide (is_Some user))))
          (Fmt "authorization.frontends[{index}] must set exactly one of uid or user" [ANum index]);
        match user with
        | Some user => ensure (negb (is_blank user))
            (Fmt "authorization.frontends[{index}].user must not be empty" [ANum index])
        | None => Ok tt
        end
    | Frontend_Windows sid account =>
        _ ← ensure (negb (Bool.eqb (bool_decide (is_Some sid)) (bool_decide (is_Some account))))
          (Fmt "authorization.frontends[{index}] must set exactly one of sid or account" [ANum index]);
        ensure match or_else sid account with Some value => negb (is_blank value) | None => false end
          (Fmt "authorization.frontends[{index}] identity must not be empty" [ANum index])
    end) (enumerate frontends).

Definition provider_byte (c : Ascii.ascii) : bool := is_ascii_alphanumeric c || byte_is 45 c || byte_is 95 c.
Definition valid_provider_name (name : string) : bool :=
  negb (is_empty name) && bool_decide (String.length name ≤ 128) && all_bytes provider_byte name.

Definition validate_limit (name : string) (value : option Z) : result Text unit :=
  match value with
  | Some value => ensure (negb (value =? 0)%Z) (Fmt "authorization.limits.{name} must be greater than zero" [AStr name])
  | None => Ok tt
  end.

Definition valid_managed_daemon_setting (key : string) : bool :=
  bool_decide (key ∈ ["default_unsupported_policy"; "reconciliation_policy"; "device_reconciliation";
    "cct_emulation"; "prefer_shm"; "prefer_client_shm"]%string) ||
  match strip_prefix "device_reconciliation." key with Some name => negb (is_empty name) | None => false end.

(** [valid_dotted_setting_key] *)
Definition valid_dotted_setting_key (key : string) : bool :=
  negb (is_empty key) &&
  forallb (λ part, negb (is_empty part) && all_bytes key_byte part) (split_dot key).

(** A loop that checks keys and refuses one that comes twice. *)
Definition validate_locks (valid : string → bool) (invalid : Z → Text) (duplicate : string → Text)
    (keys : list string) : result Text unit :=
  _ ← try_fold (λ seen '(index, key),
    _ ← ensure (valid key) (invalid index);
    _ ← ensure (bool_decide (key ∉ seen)) (duplicate key);
    Ok ({[key]} ∪ seen)) (∅ : gset string) (enumerate keys);
  Ok tt.

Section paths.
Context (parent : string → option string) (join : string → string → string).
Context (is_absolute : string → bool) (MAX_PERMITS : Z).

Definition validate_provider (seen : gset string * gset string) (item : Z * AuthenticationProviderConfig) :
    result Text (gset string * gset string) :=
  let '(names, authorities) := seen in
  let '(index, provider) := item in
  _ ← ensure (valid_provider_name (ap_name provider))
    (Fmt "authorization.authentication_providers[{index}].name must be a non-empty ASCII identifier" [ANum index]);
  _ ← ensure (bool_decide (ap_name provider ∉ names))
    (Fmt "duplicate authentication provider name {}" [AStr (ap_name provider)]);
  _ ← ensure (negb (is_blank (ap_authority provider)))
    (Fmt "authorization.authentication_providers[{index}].authority must not be empty" [ANum index]);
  _ ← ensure (bool_decide (ap_authority provider ∉ authorities))
    (Fmt "duplicate authentication provider authority {}" [AStr (ap_authority provider)]);
  _ ← ensure (is_absolute (ap_executable provider))
    (Fmt "authorization.authentication_providers[{index}].executable must be absolute" [ANum index]);
  _ ← ensure (is_absolute (ap_initialization_file provider))
    (Fmt "authorization.authentication_providers[{index}].initialization_file must be absolute" [ANum index]);
  _ ← ensure ((1 <=? ap_max_sessions provider)%Z && (ap_max_sessions provider <=? MAX_PERMITS)%Z)
    (Fmt "authorization.authentication_providers[{index}].max_sessions must be between 1 and {}"
      [ANum index; ANum MAX_PERMITS]);
  Ok ({[ap_name provider]} ∪ names, {[ap_authority provider]} ∪ authorities).

Definition validate_authentication_providers (providers : list AuthenticationProviderConfig) : result Text unit :=
  _ ← try_fold validate_provider (∅, ∅) (enumerate providers); Ok tt.

Definition managed_config_path (config : GlobalConfig) : result Text string :=
  match gc_managed_config_path config with
  | Some path => Ok path
  | None =>
      parent ← ok_or (parent (gc_state_path config))
        (Lit "state_path must have a parent to derive managed_config_path");
      Ok (join parent "managed.toml")
  end.

Definition validate_managed_config_path (config : GlobalConfig) (global_config_path : string) : result Text unit :=
  path ← managed_config_path config;
  ensure (negb (bool_decide (path = global_config_path)))
    (Lit "management.managed_config_path must differ from the global config path").

Definition validate_plugin (item : Z * PluginConfig) : result Text unit :=
  let '(index, plugin) := item in
  _ ← ensure (bool_decide (is_Some (pl_name plugin)) || bool_decide (is_Some (pl_path plugin)))
    (Fmt "plugins[{index}] must specify at least one of `name` or `path`" [ANum index]);
  _ ← ensure (negb (pl_required plugin &&
        match pl_activation plugin with Activation_Disabled => true | _ => false end))
    (Fmt "required plugin in plugins[{index}] cannot be globally disabled" [ANum index]);
  validate_locks valid_dotted_setting_key
    (λ setting_index, Fmt "plugins[{index}].locked_settings[{setting_index}] must be a dotted setting key"
      [ANum index; ANum setting_index])
    (λ key, Fmt "duplicate setting lock in plugins[{index}]: {key}" [ANum index; AStr key])
    (pl_locked_settings plugin).

Definition validate_config (config : GlobalConfig) : result Text unit :=
  let authorization := gc_authorization config in
  _ ← ensure (negb (is_empty (gc_socket_path config))) (Lit "socket_path must not be empty");
  _ ← ensure (negb (is_empty (gc_state_path config))) (Lit "state_path must not be empty");
  path ← managed_config_path config;
  _ ← ensure (negb (is_empty path)) (Lit "management.managed_config_path must not be empty");
  _ ← ensure (negb (bool_decide (path = gc_state_path config)))
    (Lit "management.managed_config_path must differ from state_path");
  _ ← match gc_event_socket_path config with
      | Some event_socket_path =>
          _ ← ensure (negb (is_empty event_socket_path)) (Lit "event_socket_path must not be empty");
          ensure (negb (bool_decide (event_socket_path = gc_socket_path config)))
            (Lit "event_socket_path must differ from socket_path")
      | None => Ok tt
      end;
  _ ← match au_pipe_access authorization with
      | Pipe_LocalGroup group =>
          ensure (negb (is_blank group)) (Lit "authorization.pipe_access.group must not be empty")
      | Pipe_Interactive => Ok tt
      end;
  _ ← validate_frontends (au_frontends authorization);
  _ ← validate_limit "connections" (lc_connections (au_limits authorization));
  _ ← validate_limit "subscriptions" (lc_subscriptions (au_limits authorization));
  _ ← validate_authentication_providers (au_authentication_providers authorization);
  _ ← validate_locks valid_managed_daemon_setting
    (λ index, Fmt "management.locked_daemon_settings[{index}] is not a manageable daemon setting" [ANum index])
    (λ key, Fmt "duplicate managed daemon-setting lock for {key}" [AStr key])
    (dc_locked_daemon_settings (gc_daemon config));
  try_for validate_plugin (enumerate (gc_plugins config)).
End paths.

(** ** Candidates: [discovery.rs] *)

(** [name.replace('-', "_")] *)
Fixpoint artifact_name (name : string) : string :=
  match name with
  | EmptyString => EmptyString
  | String c name => String (if byte_is 45 c then Ascii.ascii_of_nat 95 else c) (artifact_name name)
  end.

(** What discovery asks of the file system.  [fs_entries]: [None] for a directory that does
    not exist or cannot be read, else its entries in order, up to the first that fails. *)
Record FileSystem := {
  fs_exists : string → bool;
  fs_canonicalize : string → option string;
  fs_entries : string → option (list string);
  fs_extension : string → option string;
  fs_join : string → string → string;
  fs_sort : list string → list string
}.

Section discovery.
Context (fs : FileSystem) (DLL_PREFIX DLL_SUFFIX DLL_EXTENSION : string).

(** of [luminate-platform/src/lib.rs] *)
Definition dynamic_library_candidates (name : string) : list string :=
  [DLL_PREFIX ++ name ++ DLL_SUFFIX; name ++ DLL_SUFFIX]%string.

Definition canonicalize_candidate (path : string) : string := default path (fs_canonicalize fs path).
Definition is_shared_object (path : string) : bool := bool_decide (fs_extension fs path = Some DLL_EXTENSION).

(** The files a name may stand for, in the order in which they are tried. *)
Definition lookups (name : string) (plugin_dirs : list string) : list string :=
  dir ← plugin_dirs; lookup_name ← [name; artifact_name name];
  candidate_name ← dynamic_library_candidates lookup_name; [fs_join fs dir candidate_name].

Definition resolve_configured_plugin (plugin : PluginConfig) (plugin_dirs : list string) :
    result Text (option string) :=
  match pl_path plugin with
  | Some path => Ok (Some path)
  | None =>
      match pl_name plugin with
      | None => Err (Lit "configured plugin entry must specify either name or path")
      | Some name =>
          match List.find (fs_exists fs) (lookups name plugin_dirs) with
          | Some candidate => Ok (Some candidate)
          | None =>
              if pl_required plugin then Err (Fmt "configured plugin not found by name: {name}" [AStr name])
              else Ok None
          end
      end
  end.

Definition configured_candidate (path : string) (plugin : PluginConfig) : PluginCandidate := {|
  ca_path := path; ca_explicit := true; ca_required := pl_required plugin;
  ca_activation := pl_activation plugin; ca_reconciliation := pl_reconciliation plugin;
  ca_locked_settings := pl_locked_settings plugin; ca_configuration := pl_config plugin |}.
Definition found_candidate (path : string) : PluginCandidate := {|
  ca_path := path; ca_explicit := false; ca_required := false; ca_activation := Activation_Managed;
  ca_reconciliation := None; ca_locked_settings := []; ca_configuration := [] |}.

(** [if seen.insert(path) { candidates.push(..) }]; [seen] holds the paths of the candidates. *)
Definition push (candidates : list PluginCandidate) (candidate : PluginCandidate) : list PluginCandidate :=
  if bool_decide (ca_path candidate ∈ ca_path <$> candidates) then candidates
  else candidates ++ [candidate].

Definition found_paths (dir : string) : list string :=
  from_option (λ entries, fs_sort fs (filter (λ path, is_shared_object path = true) entries)) []
    (fs_entries fs dir).

Definition discover_candidates (config : GlobalConfig) : result Text (list PluginCandidate) :=
  candidates ← try_fold (λ candidates plugin,
    path ← resolve_configured_plugin plugin (gc_plugin_dirs config);
    Ok (match path with
        | Some path => push candidates (configured_candidate (canonicalize_candidate path) plugin)
        | None => candidates
        end)) [] (gc_plugins config);
  Ok (foldl (λ candidates path, push candidates (found_candidate (canonicalize_candidate path)))
    candidates (gc_plugin_dirs config ≫= found_paths)).
End discovery.

(** ** What a valid configuration is *)

Definition frontend_ok (frontend : FrontendRegistration) : Prop :=
  match frontend with
  | Frontend_Unix uid user =>
      (is_Some uid ∧ user = None) ∨ (uid = None ∧ ∃ u, user = Some u ∧ is_blank u = false)
  | Frontend_Windows sid account =>
      ∃ v, is_blank v = false ∧ ((sid = Some v ∧ account = None) ∨ (sid = None ∧ account = Some v))
  end.

Definition plugin_ok (plugin : PluginConfig) : Prop :=
  (is_Some (pl_name plugin) ∨ is_Some (pl_path plugin)) ∧
  ¬ (pl_required plugin = true ∧ pl_activation plugin = Activation_Disabled) ∧
  Forall (λ key, valid_setting_key key = true) (pl_locked_settings plugin) ∧ NoDup (pl_locked_settings plugin).

(** A lock of a daemon setting: a preference, or the preferences of all devices. *)
Definition manageable_lock (key : string) : Prop :=
  key = "device_reconciliation"%string ∨
  ∃ p, key = preference_name p ∧ ∀ device, p = P_Device device → DeviceId_as_str device ≠ ""%string.

Section valid.
Context (parent : string → option string) (join : string → string → string).
Context (is_absolute : string → bool) (MAX_PERMITS : Z).

Definition provider_ok (provider : AuthenticationProviderConfig) : Prop :=
  valid_provider_name (ap_name provider) = true ∧ is_blank (ap_authority provider) = false ∧
  is_absolute (ap_executable provider) = true ∧ is_absolute (ap_initialization_file provider) = true ∧
  (1 <= ap_max_sessions provider <= MAX_PERMITS)%Z.

Record config_valid (config : GlobalConfig) : Prop := {
  cv_paths : gc_socket_path config ≠ ""%string ∧ gc_state_path config ≠ ""%string ∧
    gc_event_socket_path config ≠ Some ""%string ∧ gc_event_socket_path config ≠ Some (gc_socket_path config);
  cv_managed : ∃ path, managed_config_path parent join config = Ok path ∧ path ≠ ""%string ∧
    path ≠ gc_state_path config;
  cv_group : ∀ group, au_pipe_access (gc_authorization config) = Pipe_LocalGroup group → is_blank group = false;
  cv_frontends : Forall frontend_ok (au_frontends (gc_authorization config));
  cv_limits : lc_connections (au_limits (gc_authorization config)) ≠ Some 0%Z ∧
    lc_subscriptions (au_limits (gc_authorization config)) ≠ Some 0%Z;
  cv_providers : Forall provider_ok (au_authentication_providers (gc_authorization config)) ∧
    NoDup (ap_name <$> au_authentication_providers (gc_authorization config)) ∧
    NoDup (ap_authority <$> au_authentication_providers (gc_authorization config));
  cv_locks : Forall manageable_lock (dc_locked_daemon_settings (gc_daemon config)) ∧
    NoDup (dc_locked_daemon_settings (gc_daemon config));
  cv_plugins : Forall plugin_ok (gc_plugins config)
}.

End valid.

(** ** Validation accepts exactly the valid configurations *)

Lemma enumerate_snd {A} (l : list A) : snd <$> enumerate l = l.
Proof.
  unfold enumerate. rewrite fmap_imap. unfold compose. simpl. apply list_eq. intros i.
  rewrite list_lookup_imap. by destruct (l !! i).
Qed.

Lemma Forall_enumerate {A} (P : A → Prop) l : Forall (λ item : Z * A, P (snd item)) (enumerate l) ↔ Forall P l.
Proof. rewrite <-(enumerate_snd l) at 2. by rewrite Forall_fmap. Qed.

Lemma fmap_enumerate {A B} (f : A → B) l : f ∘ snd <$> enumerate l = f <$> l.
Proof. by rewrite list_fmap_compose, enumerate_snd. Qed.

Lemma try_for_enumerate {A} (f : Z * A → result Text unit) (P : A → Prop) l :
  (∀ item, f item = Ok tt ↔ P (snd item)) → try_for f (enumerate l) = Ok tt ↔ Forall P l.
Proof.
  intros Hf. rewrite try_for_Ok, <-(Forall_enumerate P l). apply Forall_iff. exact Hf.
Qed.

Lemma is_empty_false s : negb (is_empty s) = true ↔ s ≠ ""%string.
Proof. unfold is_empty. rewrite negb_true_iff, bool_decide_eq_false. done. Qed.

Lemma strip_prefix_Some p s t : strip_prefix p s = Some t ↔ s = (p ++ t)%string.
Proof.
  revert s. induction p as [|c p IH]; intros s; simpl.
  { split; [by intros [= ->]|by intros ->]. }
  destruct s as [|d s]; [split; discriminate|]. destruct (Ascii.eqb_spec c d) as [->|Hc].
  - rewrite IH. split; [by intros ->|by intros [= ->]].
  - split; [discriminate|]. intros [= <- _]. done.
Qed.

Lemma negb_neq {A} `{EqDecision A} (x y : A) : negb (bool_decide (x = y)) = true ↔ x ≠ y.
Proof. by rewrite negb_true_iff, bool_decide_eq_false. Qed.

Lemma validate_frontends_Ok frontends : validate_frontends frontends = Ok tt ↔ Forall frontend_ok frontends.
Proof.
  apply try_for_enumerate. intros [index frontend]. simpl.
  destruct frontend as [[uid|] [user|]|[sid|] [account|]]; simpl; rewrite ?bind_Ok; simpl;
    rewrite ?ensure_Ok, ?negb_true_iff; unfold ensure; naive_solver.
Qed.

Lemma validate_limit_Ok name value : validate_limit name value = Ok tt ↔ value ≠ Some 0%Z.
Proof. destruct value; simpl; [rewrite ensure_Ok, negb_true_iff, Z.eqb_neq|]; naive_solver. Qed.

Lemma validate_locks_Ok valid invalid duplicate keys :
  validate_locks valid invalid duplicate keys = Ok tt ↔ Forall (λ key, valid key = true) keys ∧ NoDup keys.
Proof.
  unfold validate_locks. rewrite <-(Forall_enumerate (λ key, valid key = true)).
  transitivity (Forall (λ item, valid item.2 = true) (enumerate keys) ∧ NoDup (snd <$> enumerate keys));
    [|by rewrite enumerate_snd].
  rewrite <-(try_fold_seen_empty snd (λ item, valid item.2 = true)
    (λ seen '(index, key), _ ← ensure (valid key) (invalid index);
      _ ← ensure (bool_decide (key ∉ seen)) (duplicate key); Ok ({[key]} ∪ seen))).
  - rewrite bind_Ok. naive_solver.
  - intros s [index key] s'. simpl. rewrite !bind_unit_Ok, !ensure_Ok, bool_decide_eq_true. naive_solver.
Qed.

Lemma valid_dotted_setting_key_eq key : valid_dotted_setting_key key = valid_setting_key key.
Proof. done. Qed.

Lemma manageable_lock_ok key : valid_managed_daemon_setting key = true ↔ manageable_lock key.
Proof.
  unfold valid_managed_daemon_setting, manageable_lock. rewrite orb_true_iff, bool_decide_eq_true. split.
  - intros [Hin|Hpre].
    + repeat (apply elem_of_cons in Hin as [->|Hin]); [..|by apply not_elem_of_nil in Hin].
      1: right; exists P_UnsupportedPolicy; done.
      1: right; exists P_ReconciliationPolicy; done.
      1: by left.
      1: right; exists P_CctEmulation; done.
      1: right; exists P_PreferShm; done.
      1: right; exists P_PreferClientShm; done.
    + destruct (strip_prefix _ _) as [name|] eqn:E; [|done]. apply strip_prefix_Some in E as ->.
      apply is_empty_false in Hpre. right. exists (P_Device {| DeviceId_as_str := name |}). split; [done|].
      naive_solver.
  - intros [->|(p & -> & Hp)]; [left; set_solver|].
    destruct p as [| |device| | |]; [left; set_solver|left; set_solver| |left; set_solver..].
    right. assert (strip_prefix "device_reconciliation." (preference_name (P_Device device)) =
      Some (DeviceId_as_str device)) as -> by by apply strip_prefix_Some.
    apply is_empty_false. by apply Hp.
Qed.

Section valid_proofs.
Context (parent : string → option string) (join : string → string → string).
Context (is_absolute : string → bool) (MAX_PERMITS : Z).

Local Notation provider_ok := (provider_ok is_absolute MAX_PERMITS).
Local Notation validate_provider := (validate_provider is_absolute MAX_PERMITS).

Lemma validate_provider_Ok names authorities item s' :
  validate_provider (names, authorities) item = Ok s' ↔
  provider_ok item.2 ∧ ap_name item.2 ∉ names ∧ ap_authority item.2 ∉ authorities ∧
  s' = ({[ap_name item.2]} ∪ names, {[ap_authority item.2]} ∪ authorities).
Proof.
  destruct item as [index provider]. unfold validate_provider, GlobalConfig.provider_ok.
  rewrite !bind_unit_Ok, !ensure_Ok, !bool_decide_eq_true, negb_true_iff, andb_true_iff, !Z.leb_le. simpl.
  split; [|intuition congruence]. intros (? & ? & ? & ? & ? & ? & ? & [= <-]). tauto.
Qed.

Lemma validate_providers_loop s items :
  (∃ s', try_fold validate_provider s items = Ok s') ↔
  Forall (λ item, provider_ok item.2) items ∧
  NoDup (ap_name ∘ snd <$> items) ∧ NoDup (ap_authority ∘ snd <$> items) ∧
  Forall (λ item, ap_name item.2 ∉ s.1 ∧ ap_authority item.2 ∉ s.2) items.
Proof.
  revert s. induction items as [|item items IH]; intros [names authorities].
  { split; [|by eexists]. intros _. repeat split; constructor. }
  simpl try_fold. setoid_rewrite bind_Ok. rewrite !fmap_cons, !NoDup_cons, !Forall_cons. split.
  - intros (s' & s1 & (Hok & Hn & Ha & ->)%validate_provider_Ok & Hrest).
    destruct (proj1 (IH _) (ex_intro _ _ Hrest)) as (Hall & Hns & Has & Hfresh). rewrite Forall_forall in Hfresh.
    simpl in Hfresh. split_and!; try done.
    + intros (other & Heq & Hin)%list_elem_of_fmap. destruct (Hfresh _ Hin). simpl in *. set_solver.
    + intros (other & Heq & Hin)%list_elem_of_fmap. destruct (Hfresh _ Hin). simpl in *. set_solver.
    + apply Forall_forall. intros other Hin. destruct (Hfresh _ Hin). simpl. set_solver.
  - intros ((Hok & Hall) & (Hn & Hns) & (Ha & Has) & (Hn' & Ha') & Hfresh).
    destruct (proj2 (IH ({[ap_name item.2]} ∪ names, {[ap_authority item.2]} ∪ authorities))) as [s' Hs'].
    + split_and!; [done..|]. apply Forall_forall. intros other Hin. rewrite Forall_forall in Hfresh.
      destruct (Hfresh _ Hin) as [H1 H2]. simpl in *. split; intros [Heq%elem_of_singleton|Hin']%elem_of_union; try done.
      * apply Hn. apply list_elem_of_fmap. by exists other.
      * apply Ha. apply list_elem_of_fmap. by exists other.
    + eexists _, _. split; [|exact Hs']. by apply validate_provider_Ok.
Qed.

Lemma validate_authentication_providers_Ok providers :
  validate_authentication_providers is_absolute MAX_PERMITS providers = Ok tt ↔
  Forall provider_ok providers ∧ NoDup (ap_name <$> providers) ∧ NoDup (ap_authority <$> providers).
Proof.
  unfold validate_authentication_providers. transitivity
    (∃ s', try_fold validate_provider (∅, ∅) (enumerate providers) = Ok s').
  { rewrite bind_Ok. naive_solver. }
  rewrite validate_providers_loop, Forall_enumerate, !fmap_enumerate. split; [tauto|].
  intros (? & ? & ?). split_and!; [done..|]. apply Forall_forall. simpl. set_solver.
Qed.

Lemma validate_plugin_Ok item : validate_plugin item = Ok tt ↔ plugin_ok item.2.
Proof.
  destruct item as [index plugin]. unfold validate_plugin, plugin_ok. simpl.
  rewrite !bind_unit_Ok, !ensure_Ok, validate_locks_Ok, orb_true_iff, !bool_decide_eq_true.
  rewrite negb_true_iff, andb_false_iff.
  assert ((pl_required plugin = false ∨
    match pl_activation plugin with Activation_Disabled => true | _ => false end = false) ↔
    ¬ (pl_required plugin = true ∧ pl_activation plugin = Activation_Disabled)) as ->; [|done].
  destruct (pl_required plugin), (pl_activation plugin); naive_solver.
Qed.

(** Validation accepts exactly the configurations whose paths are present and do not collide,
    whose identities, groups and limits are usable, whose providers are distinct and bounded,
    and whose locks name settings that can be managed. *)
Theorem validate_config_correct config :
  validate_config parent join is_absolute MAX_PERMITS config = Ok tt ↔
  config_valid parent join is_absolute MAX_PERMITS config.
Proof.
  unfold validate_config. rewrite !bind_unit_Ok, bind_Ok, !ensure_Ok, !is_empty_false.
  repeat setoid_rewrite bind_unit_Ok. setoid_rewrite validate_frontends_Ok.
  repeat setoid_rewrite validate_limit_Ok. setoid_rewrite validate_authentication_providers_Ok.
  setoid_rewrite validate_locks_Ok. setoid_rewrite (Forall_iff _ _ _ manageable_lock_ok).
  setoid_rewrite (try_for_enumerate _ _ _ validate_plugin_Ok).
  repeat setoid_rewrite ensure_Ok. setoid_rewrite is_empty_false. setoid_rewrite negb_neq.
  split.
  - intros (? & ? & path & ? & ? & ? & Hevent & Hgroup & ? & ? & ? & ? & ? & ?). split; [|eauto|..].
    + destruct (gc_event_socket_path config) as [event|]; [|naive_solver].
      rewrite bind_unit_Ok, !ensure_Ok, is_empty_false, negb_neq in Hevent. naive_solver.
    + intros group E. rewrite E in Hgroup. by rewrite ensure_Ok, negb_true_iff in Hgroup.
    + done.
    + done.
    + done.
    + done.
    + done.
  - intros [(? & ? & He & Hs) (path & ? & ? & ?) Hgroup ? [? ?] (? & ? & ?) [? ?] ?].
    split_and!; [done..|]. exists path. split_and!; try done.
    + destruct (gc_event_socket_path config) as [event|]; [|done].
      rewrite bind_unit_Ok, !ensure_Ok, is_empty_false, negb_neq. naive_solver.
    + destruct (au_pipe_access _) as [group|]; [|done]. rewrite ensure_Ok, negb_true_iff. by apply Hgroup.
Qed.
End valid_proofs.

(** ** Discovery *)

Section discovery_proofs.
Context (fs : FileSystem) (DLL_PREFIX DLL_SUFFIX DLL_EXTENSION : string).
Local Notation resolve := (resolve_configured_plugin fs DLL_PREFIX DLL_SUFFIX).
Local Notation lookups := (lookups fs DLL_PREFIX DLL_SUFFIX).
Local Notation discover := (discover_candidates fs DLL_PREFIX DLL_SUFFIX DLL_EXTENSION).
Local Notation found_paths := (found_paths fs DLL_EXTENSION).

Lemma push_NoDup candidates c : NoDup (ca_path <$> candidates) → NoDup (ca_path <$> push candidates c).
Proof.
  unfold push. case_bool_decide; [done|]. intros Hnd. rewrite fmap_app. apply NoDup_app.
  split_and!; [done| |apply NoDup_singleton]. simpl. set_solver.
Qed.

(** A candidate of the result was there, or was pushed under a new path. *)
Lemma elem_of_push candidates c x :
  x ∈ push candidates c ↔ x ∈ candidates ∨ (x = c ∧ ca_path c ∉ ca_path <$> candidates).
Proof. unfold push. case_bool_decide; [|rewrite elem_of_app, list_elem_of_singleton]; tauto. Qed.

Lemma push_paths candidates c path :
  path ∈ ca_path <$> push candidates c ↔ path ∈ ca_path <$> candidates ∨ path = ca_path c.
Proof.
  unfold push. case_bool_decide as Hin; [naive_solver|]. rewrite fmap_app, elem_of_app. simpl.
  rewrite list_elem_of_singleton. tauto.
Qed.

Lemma push_found_spec paths candidates :
  let all := foldl (λ candidates path, push candidates (found_candidate (canonicalize_candidate fs path)))
    candidates paths in
  (NoDup (ca_path <$> candidates) → NoDup (ca_path <$> all)) ∧
  (∀ path, path ∈ ca_path <$> all ↔
    path ∈ ca_path <$> candidates ∨ ∃ file, file ∈ paths ∧ path = canonicalize_candidate fs file) ∧
  (∀ c, c ∈ all ↔ c ∈ candidates ∨
    (c = found_candidate (ca_path c) ∧ ca_path c ∈ ca_path <$> all ∧ ca_path c ∉ ca_path <$> candidates)).
Proof.
  revert candidates. induction paths as [|file paths IH]; intros candidates; simpl.
  { split_and!; [done|set_solver|]. intros c. split; [by left|]. intros [?|(_ & ? & ?)]; done. }
  destruct (IH (push candidates (found_candidate (canonicalize_candidate fs file)))) as (Hnd & Hpaths & Hall).
  split_and!.
  - intros H. by apply Hnd, push_NoDup.
  - intros path. rewrite Hpaths, push_paths. simpl. set_solver.
  - intros c. rewrite Hall, elem_of_push, Hpaths, push_paths. simpl. split.
    + intros [[?|(-> & Hnew)]|(? & ? & ?)]; [by left|right; simpl; tauto|right; tauto].
    + intros [?|(Hc & Hin & Hnew)]; [by do 2 left|].
      destruct (decide (ca_path c = canonicalize_candidate fs file)) as [Heq|]; [|tauto].
      left. right. rewrite <-Heq. done.
Qed.

(** The configured plugin stands for the canonical path. *)
Definition stands_for (config : GlobalConfig) (plugin : PluginConfig) (path : string) : Prop :=
  ∃ file, resolve plugin (gc_plugin_dirs config) = Ok (Some file) ∧ path = canonicalize_candidate fs file.

Definition configured_step (config : GlobalConfig) (candidates : list PluginCandidate) (plugin : PluginConfig) :
    result Text (list PluginCandidate) :=
  path ← resolve plugin (gc_plugin_dirs config);
  Ok (match path with
      | Some path => push candidates (configured_candidate (canonicalize_candidate fs path) plugin)
      | None => candidates
      end).

(** The first plugin of the configuration that stands for a path configures it. *)
Definition configures (config : GlobalConfig) (plugins : list PluginConfig) (c : PluginCandidate) : Prop :=
  ∃ before plugin after, plugins = before ++ plugin :: after ∧ stands_for config plugin (ca_path c) ∧
    c = configured_candidate (ca_path c) plugin ∧ Forall (λ other, ¬ stands_for config other (ca_path c)) before.

Lemma configures_snoc config plugins plugin c : configures config plugins c → configures config (plugins ++ [plugin]) c.
Proof.
  intros (before & p & after & -> & ? & ? & ?). exists before, p, (after ++ [plugin]).
  by rewrite <-app_assoc.
Qed.

Lemma configured_spec config plugins candidates :
  try_fold (configured_step config) [] plugins = Ok candidates →
  NoDup (ca_path <$> candidates) ∧
  (∀ path, path ∈ ca_path <$> candidates ↔ Exists (λ plugin, stands_for config plugin path) plugins) ∧
  Forall (configures config plugins) candidates.
Proof.
  revert candidates. induction plugins as [|plugin plugins IH] using rev_ind; intros candidates.
  { intros [= <-]. split_and!; [constructor| |constructor]. intros path. by rewrite Exists_nil, elem_of_nil. }
  rewrite try_fold_app, bind_Ok. intros (before & H & Hstep). destruct (IH _ H) as (Hnd & Hpaths & Hall).
  simpl in Hstep. rewrite bind_Ok in Hstep. destruct Hstep as (after & Hstep & [= <-]).
  unfold configured_step in Hstep. apply bind_Ok in Hstep as (path & Hr & [= <-]).
  setoid_rewrite Exists_app. setoid_rewrite Exists_cons. setoid_rewrite Exists_nil.
  assert (∀ p, stands_for config plugin p ↔ ∃ file, path = Some file ∧ p = canonicalize_candidate fs file) as Hs.
  { intros p. unfold stands_for. rewrite Hr. naive_solver. }
  destruct path as [file|].
  - split_and!; [by apply push_NoDup| |].
    + intros p. rewrite push_paths, Hpaths, Hs. naive_solver.
    + apply Forall_forall. intros c [Hin|[-> Hnew]]%elem_of_push.
      { apply configures_snoc. by rewrite Forall_forall in Hall; apply Hall. }
      exists plugins, plugin, []. simpl in *. split_and!; [done|by apply Hs; eexists|done|].
      rewrite Hpaths in Hnew. by apply Forall_Exists_neg.
  - split_and!; [done| |].
    + intros p. rewrite Hpaths, Hs. naive_solver.
    + eapply Forall_impl; [exact Hall|]. intros c. apply configures_snoc.
Qed.

(** A configured plugin can be found: by its path, by its name, or not at all if it is
    optional. *)
Definition resolvable (config : GlobalConfig) (plugin : PluginConfig) : Prop :=
  is_Some (pl_path plugin) ∨ ∃ name, pl_name plugin = Some name ∧
    (pl_required plugin = true → ∃ file, file ∈ lookups name (gc_plugin_dirs config) ∧ fs_exists fs file = true).

Lemma resolve_Err config plugin e : resolve plugin (gc_plugin_dirs config) = Err e → ¬ resolvable config plugin.
Proof.
  unfold resolve_configured_plugin, resolvable.
  destruct (pl_path plugin); [done|]. destruct (pl_name plugin) as [name|]; [|naive_solver].
  destruct (List.find _ _) eqn:E; [done|]. destruct (pl_required plugin); [|done].
  intros _ [[? ?]|(? & [= <-] & Hf)]; [done|]. destruct (Hf eq_refl) as (file & Hin & Hex).
  pose proof (List.find_none _ _ E file) as Hn. rewrite <-list_elem_of_In in Hn. by rewrite Hn in Hex.
Qed.

(** The candidates have distinct paths, which are those the configured plugins stand for and
    those of the libraries in the plugin directories.  A configured path has the settings of
    the first entry for it; every other candidate is optional and managed.  Discovery fails
    only for a plugin that cannot be found. *)
Theorem discover_candidates_correct config :
  match discover config with
  | Ok candidates =>
      NoDup (ca_path <$> candidates) ∧
      (∀ path, path ∈ ca_path <$> candidates ↔
        Exists (λ plugin, stands_for config plugin path) (gc_plugins config) ∨
        ∃ dir file, dir ∈ gc_plugin_dirs config ∧ file ∈ found_paths dir ∧
          path = canonicalize_candidate fs file) ∧
      Forall (λ c, configures config (gc_plugins config) c ∨
        (c = found_candidate (ca_path c) ∧ Forall (λ plugin, ¬ stands_for config plugin (ca_path c)) (gc_plugins config)))
        candidates
  | Err _ => Exists (λ plugin, ¬ resolvable config plugin) (gc_plugins config)
  end.
Proof.
  unfold discover_candidates. fold (configured_step config).
  destruct (try_fold (configured_step config) [] (gc_plugins config)) as [configured|e] eqn:E; simpl.
  - destruct (configured_spec _ _ _ E) as (Hnd & Hpaths & Hall).
    destruct (push_found_spec (gc_plugin_dirs config ≫= found_paths) configured) as (H1 & H2 & H3).
    split_and!; [by apply H1| |].
    + intros path. rewrite H2, Hpaths. setoid_rewrite list_elem_of_bind. naive_solver.
    + apply Forall_forall. intros c [Hin|(Hc & _ & Hnew)]%H3.
      * left. by rewrite Forall_forall in Hall; apply Hall.
      * right. split; [done|]. rewrite Hpaths in Hnew. by apply Forall_Exists_neg.
  - clear -E. revert E. generalize ([] : list PluginCandidate). induction (gc_plugins config) as [|plugin plugins IH];
      intros candidates E; [done|]. simpl in E.
    destruct (configured_step config candidates plugin) as [c'|e'] eqn:Es; [by right; eapply IH|].
    left. unfold configured_step in Es.
    destruct (resolve plugin (gc_plugin_dirs config)) eqn:Er; [done|]. by eapply resolve_Err.
Qed.
End discovery_proofs.

(** Two entries for one library: the settings of the second are dropped. *)
Module GlobalConfigExamples.
Definition entry (activation : ManagedPluginActivation) : PluginConfig := {|
  pl_name := None; pl_path := Some "/lib/led.so"%string; pl_required := false; pl_activation := activation;
  pl_reconciliation := None; pl_locked_settings := ["brightness"; "zones.left"]%string; pl_config := [] |}.
Definition base : result Text GlobalConfig :=
  try_default (Ok "/usr/lib/luminate") (Ok "/usr/lib/luminate") (Ok "/run/luminate.sock") (Ok "/var/lib/luminate/state").
Definition with_plugins (config : GlobalConfig) (plugins : list PluginConfig) : GlobalConfig :=
  from_partial {| pa_socket_path := None; pa_event_socket_path := None; pa_state_path := None; pa_plugin_dirs := None;
    pa_management := None; pa_plugin_management := None; pa_default_unsupported_policy := None;
    pa_reconciliation_policy := None; pa_device_reconciliation := None; pa_cct_emulation := None;
    pa_plugins := Some plugins; pa_prefer_shm := None; pa_prefer_client_shm := None; pa_authorization := None |} config.
Definition fs : FileSystem := {|
  fs_exists := λ _, true; fs_canonicalize := Some; fs_entries := λ _, Some ["/lib/led.so"; "/lib/fan.so"]%string;
  fs_extension := λ _, Some "so"%string; fs_join := λ dir file, (dir ++ "/" ++ file)%string; fs_sort := λ l, l |}.

Example second_entry_dropped :
  (config ← base;
   let config := with_plugins config [entry Activation_Enabled; entry Activation_Disabled] in
   _ ← validate_config (λ _, Some "/var/lib/luminate"%string) (λ dir file, (dir ++ "/" ++ file)%string) (λ _, true) 64 config;
   discover_candidates fs "lib" ".so" "so" config) =
  Ok [configured_candidate "/lib/led.so" (entry Activation_Enabled); found_candidate "/lib/fan.so"].
Proof. vm_compute. reflexivity. Qed.

(** A lock that comes twice. *)
Example duplicate_lock_refused :
  (config ← base;
   validate_config (λ _, Some "/"%string) (λ dir file, (dir ++ file)%string) (λ _, true) 64
     (with_plugins config [{| pl_name := Some "led"%string; pl_path := None; pl_required := false;
       pl_activation := Activation_Managed; pl_reconciliation := None;
       pl_locked_settings := ["a.b"; "a.b"]%string; pl_config := [] |}])) =
  Err (Fmt "duplicate setting lock in plugins[{index}]: {key}" [ANum 0; AStr "a.b"]).
Proof. vm_compute. reflexivity. Qed.
End GlobalConfigExamples.
